(* ===== verification/_CoqProject ===== *)
-Q . S2P
Prelude.v
Order.v
Collections.v
Text.v
Worklist.v
Json.v
Canonical.v
Instances.v
JsonFormat.v
JsonRead.v
Paths.v
Errors.v
CasObject.v
CasInterface.v
Catalog.v
CatalogTypes.v
CatalogCodec.v
CasStore.v
CasCatalog.v
CatalogAuthority.v
CasBatch.v
CatalogDurable.v
CatalogLookup.v
LookupSpec.v
LookupResults.v
LookupServing.v
StorageGc.v
StorageReach.v
StorageSafety.v
AdapterV2.v
AnalysisStream.v
FactRun.v
JvmIdentity.v
LocalCfg.v
Completeness.v
IncrementalV2.v
DerivedManifest.v
Acyclic.v
SealedManifest.v
GenerationV2.v
FactMerge.v
GenerationSpec.v
ShardSize.v
QueryShards.v
QueryTerms.v
QuerySelect.v
QueryIndex.v
QuerySpec.v
QueryAnswers.v
QueryPacked.v
ProcessReachability.v
PublicationLedger.v
PublicationCodec.v
PublicationSpec.v
PublicationResolve.v
PublicationDriver.v
ThreadCallables.v
CallableIndex.v
CallableCodec.v
CallablePacking.v
CallableQuery.v
CallableSpec.v
CallableResults.v
FlowSlice.v
FlowSpec.v
FlowResults.v
