(* ===== verification/Prelude.v ===== *)
(** * Codeclew engine: verification development

    Codeclew analyses source repositories: build-tool providers describe the
    compilations of a repository, language adapters turn them into streams of
    facts, facts are merged into immutable generations in a content-addressed
    store, and commands answer questions about a generation or publish changes
    that were prepared against it.  Everything that is kept is identified by the
    hash of its canonical JSON.  This library models the parts of the engine that
    carry that authority, as executable definitions, with the theorems that make
    them correct.

    ** Program and files

    Shared machinery.
    - Prelude, Order, Collections, Text: results and early returns, orders, stable
      sorting, ordered maps and sets, byte strings, machine integers.
    - Json, JsonFormat, JsonRead: JSON values; the laws assumed of serde_json
      (compact writer, reader, one line per document), the behaviour of derived
      (de)serializers, and a concrete writer and reader for which the laws are
      proved.  Instances holds the concrete writer and checksum of the examples.
      Paths: extensions, stems and numbers in file names.

    Authority and storage.
    - Canonical (canonical.rs, text_authority.rs): canonical form, strict parser,
      Unicode admission.  Errors (error.rs): structured errors.
    - CasObject, CasStore (cas.rs): object references, publication, reads from
      loose files and packs, quarantine.  CasInterface is what the store promises
      to its clients ([CasOps], [CasLaws]); CasStore discharges it.
    - Catalog, CatalogTypes (cas.rs): the pack catalog, its journal and snapshots;
      the well-formedness of every catalog the store can hold.
    - CatalogCodec, CasCatalog (cas.rs): the files of the catalog (head, snapshots,
      records, deferral marker) and every operation that reads or writes them:
      synchronization, append, snapshot, deferral, pruning, bootstrap, opening.
      CatalogAuthority: what the files say; catalogs are compared up to the
      deferral of a snapshot ([catalog_equiv]).
    - CasBatch (cas.rs: put_batch): batches in packs, on top of CasCatalog; it
      discharges the batch interface of CasInterface.  CatalogDurable: histories of
      batches, synchronizations and restarts.
    - CatalogLookup (cas/lookup.rs): the lookup accelerator of a snapshot, its rows,
      pages, manifest and receipt, publication as the sequence of its writes
      ([lookup_writes]), opening and searching through the cache.  LookupSpec: what is
      written reads back, row by row and page by page; rows of a snapshot against its
      location map; the cache.  LookupResults: publication and opening together.
      LookupServing: a store that opens through it, over the selective opening of
      CasCatalog.
    - StorageGc (cas.rs: storage_plan, garbage_collect_storage): roots, marking,
      plan and collection.  StorageReach, StorageSafety: what marking finds and
      what a collection keeps and removes.

    Analysis.
    - AdapterV2, AnalysisStream (adapter_v2.rs): contracts of providers and
      adapters, the registry, the conformance sink, sealed model extraction.
    - FactRun, GenerationV2, FactMerge, GenerationSpec, ShardSize
      (generation_v2.rs): run files, the merge of runs into shards, publication
      and verification of generations.
    - QueryTerms, QueryShards, QuerySelect, QueryIndex (query_v2.rs): terms of
      facts, packing of postings, fair selection, building, verifying and querying
      the index.  QuerySpec, QueryAnswers: what it promises over the store
      interface.  QueryPacked: the same over the store with packs.
    - Completeness, IncrementalV2 (incremental_v2.rs, generation_service.rs):
      evidence vectors and the incremental planner; Worklist is the shared
      reachability loop.
    - DerivedManifest, Acyclic, SealedManifest (derived_manifest.rs): the sealed
      input manifest; Acyclic is Kahn's algorithm.
    - JvmIdentity (semantic_validation.rs), LocalCfg (thread_flow_cfg.rs): symbol
      identities and local control-flow graphs.
    - ProcessReachability (documentation/process_reachability.rs): outcome masks.
    - ThreadCallables, CallableIndex, CallableQuery (thread_callables.rs): callable
      facts, their documents and serialization; postings, shards, sealing of
      normalized rows and verification of a prepared set; lookups and queries.
      CallableCodec: shards of postings read back.  CallablePacking: how rows are cut
      into shards.  CallableSpec, CallableResults: what a verified set and an answer to
      a query mean.
    - FlowSlice (thread_flow.rs): flow slices, from the request and
      the shards to the sealed document and its verification; [build_internal] is
      cut into [flow_input] (indexes), [traverse] (the loop), [finish_flow] (later
      boundaries, control-flow regions) and [assemble].  FlowSpec: declarations,
      uses, calls and paths over the facts, and the invariant of the traversal.
      FlowResults: what the document promises.

    Publication.
    - PublicationLedger (workspace_publish.rs): a publication directory, its sealed
      authority and its ledger at the level of bytes and lines, all operations.
      PublicationCodec: what is written reads back.  PublicationSpec: the abstract
      machine, refinement, liveness, and the two ways a ledger is lost.
      PublicationResolve: what a request seals.
    - PublicationDriver (main.rs, publish_workspace): the command that rolls a
      publication forward, over an interface [Runs] to the member runs.

    State is passed explicitly: a store, a catalog, a directory or the state of
    the runs goes in and comes out of every operation with a [Result], and what an
    operation changed before it failed stays changed.  [let?] is the question mark
    operator, [do!] the same for operations on a state.

    ** What the theorems show

    - Documents: canonicalization picks one representative per document; the strict
      parser refuses repeated keys at every depth.
    - Store: reads return only bytes the reference is derived from; publication
      reads back; corrupt files are quarantined, and so is a healthy file that is read
      through a reference that misdescribes it; digests have injective preimages.
      Catalog: replay with deferred rebuilds is record-by-record application; the
      winning location of a digest; snapshots round-trip; reachable catalogs are
      well formed with every location inside its pack.  Durability: after any
      history of batches, synchronizations and restarts every acknowledged object
      reads back, because journal, snapshots and pruning never change what the
      files say.
    - Lookups: a published accelerator answers as the verified snapshot, through a
      cache that is invisible and bounded; it is ignored when the snapshot file has
      changed, and an interrupted publication leaves none; a store opened through it
      serves what a store with the whole catalog serves.
    - Collection: marking ends and finds exactly what the managed files reach; a
      collection loses nothing reachable, and what is left is exactly the packs with
      a reachable object and the reachable loose objects that are not packed.
    - Queries: bounded postings keep the smallest hits and record what was dropped;
      packing is total and exact; a built index answers every term, and verifies
      exactly when its recorded overflow terms are normal; an untruncated query is
      complete, selection is bounded and fair; an overlong declaration name makes an
      index unusable.
    - Streams: whatever an adapter emits, the consumer sees a prefix of a
      conforming stream, and a conforming adapter is never refused; selection and
      sealed extraction are exact.
    - Generations: a finalized generation holds exactly the facts of its runs, in
      order, in bounded canonical shards, independently of how facts were spread
      over runs; it verifies and reads back; verification is sound; the predicted
      shard size is the encoded size.
    - Planning: the planner's result is exactly the changed files and what depends
      on them, and reuse is sound; combining evidence never upgrades it.
    - Manifests: admission is exactly well-formedness and acyclicity; a created
      manifest verifies and does not depend on the order of its input.
    - Graphs and identities: admission of control-flow graphs and parsing of method
      descriptors are exactly their specifications; outcome masks are
      reachability and the search ends.
    - Callables: postings are cut into shards in order and within their size, without
      loss; a sealed set verifies and its queries answer for its rows; a query on a
      verified set scans exactly the postings of its keys; an exact answer names the
      one declaration of each symbol asked for, and not-found means that the set has
      no such fact and that its scope was described completely.
    - Flows: building a slice ends within its budgets; the slice accounts for every
      use, retained boundary and graph of every symbol it expanded, with the reason in
      a boundary where it did not follow a use, and holds nothing that the facts do not
      justify; a verified
      slice holds exactly the symbols and calls reachable from the root, at their
      shortest distance; verification accepts exactly what the builder makes.
    - Publication: a readable ledger is a run of the abstract machine; operations
      perform its steps, append-only and under compare-and-swap, and are enabled
      whenever the machine's are; the command reports a member as published only
      after its run said so with the sealed commit, and publishes all members when
      the runs can be published.  Two theorems show how a ledger becomes
      permanently unreadable: a clock that steps back, and an interruption between
      sealing the authority and opening the ledger.

    ** Assumptions and bounds

    - Parameters, with laws where a theorem needs them: the serde_json writer and
      reader ([Primitives], [WriterLaws], [LineLaws], [ReaderLaws]), SHA-256 (only
      its output format; no collision resistance is assumed), the NFC test, the
      events of a deserializer, the Unicode tables ([QueryTerms.Unicode]), the
      verification receipts of packs (file metadata), the crate hex
      ([CatalogLookup.HexCodec]), the answers of fstat, the loaders of prepared
      workspaces, member runs, the clock.  CasCatalog is written over any lookup
      accelerator; LookupServing instantiates it with that of CatalogLookup.
      CasStore takes the synchronization of the catalog as an argument, which
      CasCatalog supplies.  Where a digest must name one object, the absence of a
      collision among the objects at hand is a hypothesis.
    - Release builds: unchecked additions wrap; [usize] has 64 bits.  A [str] is
      its bytes.  Disk faults, permissions and running out of memory are not
      modelled; file locks make operations atomic.
    - Fuel: [propagate] gets one step per method and gained bit ([rounds]), and the
      search is proved to return within it; Worklist and [kahn] get one step per
      node; the merge gets the number of bytes of its runs plus one, which bounds
      the facts left; decimal rendering has the 20 digits of a 64-bit integer; the
      publication command has the 16 rounds of the code, of which at most five are
      needed; marking gets one round per root and per reference in a stored object
      ([mark_fuel]), and is proved to end within it; the binary search for a shard
      prefix gets the number of facts left, splitting the number of facts, selection
      one round per match; the traversal of a flow gets one round per declared symbol
      ([flow_fuel]), since a symbol is queued once, and is proved to end within it.

    ** Not modelled

    Argument parsing and printing, the worker protocol and process isolation, git
    access (repository snapshots, sessions, task runs), language adapters and build
    tools, and the generation service around [aggregate_completeness] are
    orchestration over the file system and child processes.  Task contexts and
    navigation are clients of the query index, and thread records, change sets and
    impact are clients of the callable facts; neither is modelled, nor is the
    normalization of adapter payloads into callable facts.  The documentation subsystem
    is rendering and storage of documents, other than outcome reachability.  Of
    cas.rs, leases are locks and appear as atomic steps, and processes that share a
    store with different catalogs in memory are covered only as restarts. *)

From Stdlib Require Export Sorted Permutation Ascii.
From stdpp Require Export base relations list sets strings numbers option.
Open Scope bool_scope.
#[export] Set Warnings "-clear-no-such-hyp".
Open Scope string_scope.
Open Scope list_scope.
Open Scope N_scope.

(* --------------------------------------------------------------------- *)
(** ** Fallible computations: Rust's [Result] and the [?] operator *)

Inductive Result (E A : Type) : Type :=
| Ok (a : A)
| Err (e : E).
Arguments Ok {E A} a.
Arguments Err {E A} e.

Definition result_bind {E A B} (r : Result E A) (k : A -> Result E B) : Result E B :=
  match r with Ok a => k a | Err e => Err e end.

Definition map_err {E F A} (f : E -> F) (r : Result E A) : Result F A :=
  match r with Ok a => Ok a | Err e => Err (f e) end.

Definition ok_or {E A} (o : option A) (e : E) : Result E A :=
  match o with Some a => Ok a | None => Err e end.

Definition is_ok {E A} (r : Result E A) : bool :=
  match r with Ok _ => true | Err _ => false end.

Definition is_err {E A} (r : Result E A) : bool := negb (is_ok r).

Lemma Ok_inj {E A} (a b : A) : @Ok E A a = Ok b -> a = b.
Proof. by intros [= ->]. Qed.

Declare Scope rust_scope.
Delimit Scope rust_scope with rust.
Notation "'let?' x ':=' c1 'in' c2" := (result_bind c1 (fun x => c2))
  (at level 10, x name, c1 at level 100, c2 at level 200) : rust_scope.
Notation "'let?' ' p ':=' c1 'in' c2" := (result_bind c1 (fun x => match x with p => c2 end))
  (at level 10, p strict pattern, c1 at level 100, c2 at level 200) : rust_scope.
Notation "c1 ;;? c2" := (result_bind c1 (fun _ => c2))
  (at level 199, right associativity) : rust_scope.
Open Scope rust_scope.

(** A [for] loop whose body may return early with an error. *)
Fixpoint try_for_each {E A} (f : A -> Result E unit) (l : list A) : Result E unit :=
  match l with
  | [] => Ok tt
  | a :: l' => f a ;;? try_for_each f l'
  end.

(** A [for] loop that threads a mutable local and may return early. *)
Fixpoint try_fold {E A S} (f : S -> A -> Result E S) (s : S) (l : list A) : Result E S :=
  match l with
  | [] => Ok s
  | a :: l' => let? s' := f s a in try_fold f s' l'
  end.

(** [iter.map(f).collect::<Result<Vec<_>, _>>()]. *)
Fixpoint try_map {E A B} (f : A -> Result E B) (l : list A) : Result E (list B) :=
  match l with
  | [] => Ok []
  | a :: l' => let? b := f a in let? bs := try_map f l' in Ok (b :: bs)
  end.

(* --------------------------------------------------------------------- *)
(** ** Automation *)

(** Splits hypotheses about boolean guards into their atoms. *)
Ltac bool_split :=
  repeat match goal with
  | H : _ || _ = false |- _ => apply orb_false_iff in H; destruct H
  | H : _ && _ = true |- _ => apply andb_true_iff in H; destruct H
  | H : negb _ = false |- _ => apply negb_false_iff in H
  | H : negb _ = true |- _ => apply negb_true_iff in H
  | |- _ || _ = false => apply orb_false_iff; split
  | |- _ && _ = true => apply andb_true_iff; split
  | |- negb _ = false => apply negb_false_iff
  | |- negb _ = true => apply negb_true_iff
  end.

(** Walks down the early returns of a function known to have returned [Ok]. *)
Ltac ok_step H :=
  match type of H with
  | result_bind ?c _ = Ok _ =>
      let E := fresh "Hok" in
      destruct c eqn:E; cbn [result_bind] in H; [|discriminate H]
  | Err _ = Ok _ => discriminate H
  | Ok _ = Err _ => discriminate H
  | Ok ?a = Ok ?b => apply Ok_inj in H; subst
  | (if ?b then _ else _) = Ok _ =>
      let E := fresh "Hif" in destruct b eqn:E; try discriminate H
  | match ?c with _ => _ end = Ok _ =>
      let E := fresh "Hm" in destruct c eqn:E; try discriminate H
  end.
Ltac ok_inv H := repeat ok_step H.

Create HintDb rust discriminated.

(** Reduces one [if] on a boolean known from the context. *)
Ltac if_known :=
  match goal with
  | H : ?b = true |- context [if ?b then _ else _] => rewrite H
  | H : ?b = false |- context [if ?b then _ else _] => rewrite H
  end.

Lemma result_bind_ok {E A B} (r : Result E A) (k : A -> Result E B) b :
  result_bind r k = Ok b <-> exists a, r = Ok a /\ k a = Ok b.
Proof. destruct r; cbn; naive_solver. Qed.

(** A guard that returns early. *)
Lemma ok_or_some {E A} (o : option A) (e : E) a : ok_or o e = Ok a <-> o = Some a.
Proof. destruct o; cbn; naive_solver. Qed.

Lemma guard_ok {E A} (b : bool) (e : E) (k : Result E A) a :
  (if b then Err e else k) = Ok a <-> b = false /\ k = Ok a.
Proof. destruct b; naive_solver. Qed.

Lemma seq_ok {E A} (r : Result E unit) (k : Result E A) a :
  (r ;;? k) = Ok a <-> r = Ok tt /\ k = Ok a.
Proof. rewrite result_bind_ok. split; [intros ([] & ? & ?)|intros []]; eauto. Qed.

(** The value of the first computation is discarded. *)
Lemma ignore_ok {E A B} (r : Result E A) (k : Result E B) b :
  (r ;;? k) = Ok b <-> (exists a, r = Ok a) /\ k = Ok b.
Proof. rewrite result_bind_ok. naive_solver. Qed.

Section ResultLemmas.
Context {E A S : Type}.

Lemma try_for_each_ok (f : A -> Result E unit) l :
  try_for_each f l = Ok tt <-> Forall (fun a => f a = Ok tt) l.
Proof.
  induction l as [|a l IH]; cbn; [by split; [constructor|]|].
  rewrite Forall_cons_iff, <- IH. destruct (f a) as [[]|]; cbn; naive_solver.
Qed.

Lemma try_fold_app (f : S -> A -> Result E S) s l1 l2 :
  try_fold f s (l1 ++ l2) = (let? s' := try_fold f s l1 in try_fold f s' l2).
Proof.
  revert s; induction l1 as [|a l1 IH]; intros s; cbn; [done|].
  destruct (f s a); cbn; [apply IH|done].
Qed.

(** The loop rule: an invariant indexed by the consumed prefix. *)
Lemma try_fold_inv (f : S -> A -> Result E S) (P : list A -> S -> Prop) l :
  forall s s' pre,
    P pre s ->
    (forall pre a s s', P pre s -> f s a = Ok s' -> P (pre ++ [a]) s') ->
    try_fold f s l = Ok s' -> P (pre ++ l) s'.
Proof.
  induction l as [|a l IH]; intros s s' pre HP Hstep H; cbn in H.
  - injection H as <-. by rewrite app_nil_r.
  - destruct (f s a) as [s1|] eqn:Hf; cbn in H; [|done].
    replace (pre ++ a :: l) with ((pre ++ [a]) ++ l) by (by rewrite <- app_assoc).
    eapply IH; eauto.
Qed.

Lemma try_map_ok {B} (f : A -> Result E B) l bs :
  try_map f l = Ok bs <-> Forall2 (fun a b => f a = Ok b) l bs.
Proof.
  revert bs; induction l as [|a l IH]; intros bs; cbn.
  - split; [by intros [= <-]; constructor|]. by inversion 1.
  - rewrite result_bind_ok. split.
    + intros (b & Hb & H). rewrite result_bind_ok in H. destruct H as (bs' & H & [= <-]).
      constructor; [done|]. by apply IH.
    + inversion 1 as [|? b ? bs' Hb Hbs]; subst. exists b. split; [done|].
      rewrite result_bind_ok. exists bs'. split; [by apply IH|done].
Qed.
End ResultLemmas.
