(* ===== verification/Order.v ===== *)
(** * Total orders, stable sorting and Rust's ordered collections

    Rust's derived and tuple orders are lexicographic; [str] is ordered by its
    bytes.  [Ord] is the comparison, [LawfulOrd] its laws.  [sort_by] is the
    stable sort of [slice::sort_by], [dedup] drops consecutive equal elements,
    [windows_all] is the idiom [xs.windows(2).all(|pair| ..)].
    [BTreeSet] and [BTreeMap] are kept as their in-order traversal: a strictly
    increasing list, which determines the collection. *)

From S2P Require Import Prelude.

Class Ord (A : Type) := cmp : A -> A -> comparison.

Class LawfulOrd (A : Type) `{Ord A} : Prop := {
  cmp_eq_iff : forall x y : A, cmp x y = Eq <-> x = y;
  cmp_antisym : forall x y : A, cmp y x = CompOpp (cmp x y);
  cmp_lt_trans : forall x y z : A, cmp x y = Lt -> cmp y z = Lt -> cmp x z = Lt
}.

Definition lt_ord {A} `{Ord A} (x y : A) : Prop := cmp x y = Lt.
Definition ltb {A} `{Ord A} (x y : A) : bool :=
  match cmp x y with Lt => true | _ => false end.
Definition geb {A} `{Ord A} (x y : A) : bool := negb (ltb x y).
Definition leb {A} `{Ord A} (x y : A) : bool := negb (ltb y x).

#[export] Instance Ord_N : Ord N := N.compare.
#[export] Instance Ord_nat : Ord nat := Nat.compare.
#[export] Instance Ord_bool : Ord bool := fun a b =>
  match a, b with false, true => Lt | true, false => Gt | _, _ => Eq end.
#[export] Instance Ord_string : Ord string := String.compare.
#[export] Instance Ord_pair {A B} `{Ord A, Ord B} : Ord (A * B) := fun p q =>
  match cmp p.1 q.1 with Eq => cmp p.2 q.2 | c => c end.
#[export] Instance Ord_option {A} `{Ord A} : Ord (option A) := fun x y =>
  match x, y with
  | None, None => Eq | None, Some _ => Lt | Some _, None => Gt
  | Some a, Some b => cmp a b
  end.
Fixpoint cmp_list {A} `{Ord A} (l k : list A) : comparison :=
  match l, k with
  | [], [] => Eq | [], _ :: _ => Lt | _ :: _, [] => Gt
  | a :: l', b :: k' => match cmp a b with Eq => cmp_list l' k' | c => c end
  end.
#[export] Instance Ord_list {A} `{Ord A} : Ord (list A) := cmp_list.

(** Comparison through a key, as in [sort_by(|a, b| a.key.cmp(&b.key))]. *)
Definition cmp_on {A K} `{Ord K} (key : A -> K) (x y : A) : comparison := cmp (key x) (key y).

Lemma comp_opp_lt c : CompOpp c = Lt <-> c = Gt.
Proof. by destruct c. Qed.
Lemma comp_opp_gt c : CompOpp c = Gt <-> c = Lt.
Proof. by destruct c. Qed.

#[export] Instance LawfulOrd_N : LawfulOrd N.
Proof.
  split; unfold cmp, Ord_N; intros.
  - apply N.compare_eq_iff.
  - apply N.compare_antisym.
  - rewrite N.compare_lt_iff in *. lia.
Qed.

#[export] Instance LawfulOrd_nat : LawfulOrd nat.
Proof.
  split; unfold cmp, Ord_nat; intros.
  - apply Nat.compare_eq_iff.
  - apply Nat.compare_antisym.
  - rewrite Nat.compare_lt_iff in *. lia.
Qed.

#[export] Instance LawfulOrd_bool : LawfulOrd bool.
Proof.
  split.
  - intros [] []; done.
  - intros [] []; done.
  - intros [] [] []; done.
Qed.

Lemma ascii_cmp_trans a b c :
  Ascii.compare a b = Lt -> Ascii.compare b c = Lt -> Ascii.compare a c = Lt.
Proof. unfold Ascii.compare. rewrite !N.compare_lt_iff. lia. Qed.

Lemma ascii_cmp_refl a : Ascii.compare a a = Eq.
Proof. unfold Ascii.compare. apply N.compare_refl. Qed.

Lemma string_cmp_refl s : String.compare s s = Eq.
Proof. induction s as [|a s IH]; cbn; [done|]. by rewrite ascii_cmp_refl. Qed.

#[export] Instance LawfulOrd_string : LawfulOrd string.
Proof.
  split; unfold cmp, Ord_string.
  - intros x y. split; [apply String.compare_eq_iff|intros ->]. apply string_cmp_refl.
  - intros x y. apply String.compare_antisym.
  - intros x y; revert x. induction y as [|b y IH]; intros [|a x] [|c z]; cbn; try done.
    destruct (Ascii.compare a b) eqn:Hab, (Ascii.compare b c) eqn:Hbc; try done.
    + apply Ascii.compare_eq_iff in Hab, Hbc. subst.
      rewrite ascii_cmp_refl. apply IH.
    + apply Ascii.compare_eq_iff in Hab. subst. by rewrite Hbc.
    + apply Ascii.compare_eq_iff in Hbc. subst. by rewrite Hab.
    + by rewrite (ascii_cmp_trans _ _ _ Hab Hbc).
Qed.

Section LawfulLemmas.
Context {A : Type} `{LawfulOrd A}.
Implicit Types x y z : A.

Lemma cmp_refl x : cmp x x = Eq.
Proof. by apply cmp_eq_iff. Qed.
Lemma cmp_gt_lt x y : cmp x y = Gt <-> cmp y x = Lt.
Proof. rewrite (cmp_antisym x y). by rewrite comp_opp_lt. Qed.
Lemma lt_irrefl x : ~ lt_ord x x.
Proof. unfold lt_ord. by rewrite cmp_refl. Qed.
Lemma lt_trans x y z : lt_ord x y -> lt_ord y z -> lt_ord x z.
Proof. apply cmp_lt_trans. Qed.
Lemma lt_asym x y : lt_ord x y -> ~ lt_ord y x.
Proof. intros H1 H2. exact (lt_irrefl x (lt_trans _ _ _ H1 H2)). Qed.
Lemma lt_neq x y : lt_ord x y -> x <> y.
Proof. intros H1 ->. by eapply lt_irrefl. Qed.
Lemma lt_total x y : lt_ord x y \/ x = y \/ lt_ord y x.
Proof.
  unfold lt_ord. destruct (cmp x y) eqn:E; [|by left|].
  - right; left. by apply cmp_eq_iff.
  - right; right. by apply cmp_gt_lt.
Qed.
Lemma ltb_lt x y : ltb x y = true <-> lt_ord x y.
Proof. unfold ltb, lt_ord. by destruct (cmp x y). Qed.
Lemma ltb_ge x y : ltb x y = false <-> ~ lt_ord x y.
Proof. rewrite <- ltb_lt. by destruct (ltb x y). Qed.
Lemma geb_false x y : geb x y = false <-> lt_ord x y.
Proof. unfold geb. by rewrite negb_false_iff, ltb_lt. Qed.
Lemma geb_true x y : geb x y = true <-> ~ lt_ord x y.
Proof. unfold geb. by rewrite negb_true_iff, ltb_ge. Qed.
Lemma nlt_cases x y : ~ lt_ord x y -> x = y \/ lt_ord y x.
Proof. destruct (lt_total x y); tauto. Qed.

#[export] Instance lt_ord_transitive : Transitive (@lt_ord A _).
Proof. intros x y z. apply lt_trans. Qed.

#[export] Instance ord_eq_dec : EqDecision A.
Proof.
  intros x y. destruct (cmp x y) eqn:E.
  - left. by apply cmp_eq_iff.
  - right. intros ->. by rewrite cmp_refl in E.
  - right. intros ->. by rewrite cmp_refl in E.
Qed.
End LawfulLemmas.
#[export] Hint Resolve lt_irrefl lt_trans lt_neq : rust.
(* Keep the class instance out of general resolution: types bring their own. *)
#[export] Remove Hints ord_eq_dec : typeclass_instances.

Lemma cmp_pair {A B} `{Ord A, Ord B} (a a' : A) (b b' : B) :
  cmp (a, b) (a', b') = match cmp a a' with Eq => cmp b b' | c => c end.
Proof. done. Qed.

Lemma cmp_some {A} `{Ord A} (a b : A) : cmp (Some a) (Some b) = cmp a b.
Proof. done. Qed.

#[export] Instance LawfulOrd_pair {A B} `{LawfulOrd A, LawfulOrd B} : LawfulOrd (A * B).
Proof.
  split.
  - intros [a b] [a' b']. rewrite cmp_pair. destruct (cmp a a') eqn:E.
    + rewrite cmp_eq_iff. apply cmp_eq_iff in E. naive_solver.
    + split; [done|]. intros [= -> ->]. by rewrite cmp_refl in E.
    + split; [done|]. intros [= -> ->]. by rewrite cmp_refl in E.
  - intros [a b] [a' b']. rewrite !cmp_pair, (cmp_antisym a a').
    destruct (cmp a a'); cbn; [apply cmp_antisym|done|done].
  - intros [a b] [a' b'] [a'' b'']. rewrite !cmp_pair.
    destruct (cmp a a') eqn:E1, (cmp a' a'') eqn:E2; try done.
    + apply cmp_eq_iff in E1, E2; subst. rewrite cmp_refl. apply cmp_lt_trans.
    + apply cmp_eq_iff in E1; subst. by rewrite E2.
    + apply cmp_eq_iff in E2; subst. by rewrite E1.
    + by rewrite (cmp_lt_trans _ _ _ E1 E2).
Qed.

#[export] Instance LawfulOrd_option {A} `{LawfulOrd A} : LawfulOrd (option A).
Proof.
  split.
  - intros [a|] [b|]; rewrite ?cmp_some, ?cmp_eq_iff; try done; naive_solver.
  - intros [a|] [b|]; try done. rewrite !cmp_some. apply cmp_antisym.
  - intros [a|] [b|] [c|]; try done. rewrite !cmp_some. apply cmp_lt_trans.
Qed.

#[export] Instance LawfulOrd_list {A} `{LawfulOrd A} : LawfulOrd (list A).
Proof.
  split; change (@cmp (list A) _) with (@cmp_list A _).
  - induction x as [|a x IH]; intros [|b y]; cbn; try done.
    destruct (cmp a b) eqn:E.
    + rewrite IH. apply cmp_eq_iff in E. naive_solver.
    + split; [done|]. intros [= -> ->]. by rewrite cmp_refl in E.
    + split; [done|]. intros [= -> ->]. by rewrite cmp_refl in E.
  - induction x as [|a x IH]; intros [|b y]; cbn; try done.
    rewrite (cmp_antisym a b). destruct (cmp a b); cbn; [apply IH|done|done].
  - intros x y; revert x. induction y as [|b y IH]; intros [|a x] [|c z]; cbn; try done.
    destruct (cmp a b) eqn:E1, (cmp b c) eqn:E2; try done.
    + apply cmp_eq_iff in E1, E2; subst. rewrite cmp_refl. apply IH.
    + apply cmp_eq_iff in E1; subst. by rewrite E2.
    + apply cmp_eq_iff in E2; subst. by rewrite E1.
    + by rewrite (cmp_lt_trans _ _ _ E1 E2).
Qed.

(** Orders transported along an injective key (derived [Ord] of a struct). *)
Lemma lawful_on {A K} `{LawfulOrd K} (key : A -> K) :
  (forall x y, key x = key y -> x = y) -> @LawfulOrd A (cmp_on key).
Proof.
  intros Hinj. split; unfold cmp, cmp_on; intros.
  - rewrite cmp_eq_iff. split; [apply Hinj|by intros ->].
  - apply cmp_antisym.
  - by eapply cmp_lt_trans.
Qed.
