(* ===== verification/Collections.v ===== *)
(** * Stable sorting and Rust's ordered collections

    [sort_by] is the stable [slice::sort_by] (a stable sort has one possible
    result, so insertion sort is as good a definition as any), [dedup] is
    [Vec::dedup], [windows_all] is [xs.windows(2).all(..)].  A [BTreeSet] is the
    strictly increasing list of its elements and a [BTreeMap] the list of its
    entries with strictly increasing keys: the in-order traversal, which is
    everything the code observes of them. *)

From S2P Require Import Prelude Order.

Fixpoint insert_by {A} (c : A -> A -> comparison) (x : A) (l : list A) : list A :=
  match l with
  | [] => [x]
  | y :: l' => match c x y with Gt => y :: insert_by c x l' | _ => x :: l end
  end.

Definition sort_by {A} (c : A -> A -> comparison) (l : list A) : list A :=
  foldr (insert_by c) [] l.

(** [slice::sort] of an ordered element type. *)
Definition sort {A} `{Ord A} (l : list A) : list A := sort_by cmp l.

Fixpoint dedup_from {A} `{EqDecision A} (x : A) (l : list A) : list A :=
  match l with
  | [] => []
  | y :: l' => if decide (x = y) then dedup_from x l' else y :: dedup_from y l'
  end.
Definition dedup {A} `{EqDecision A} (l : list A) : list A :=
  match l with [] => [] | x :: l' => x :: dedup_from x l' end.

Fixpoint windows_all {A} (p : A -> A -> bool) (l : list A) : bool :=
  match l with
  | x :: ((y :: _) as l') => p x y && windows_all p l'
  | _ => true
  end.

(** [xs.windows(2).any(p)]. *)
Definition windows_any {A} (p : A -> A -> bool) (l : list A) : bool :=
  negb (windows_all (fun x y => negb (p x y)) l).

(* --------------------------------------------------------------------- *)
(** ** BTreeSet *)

Notation BTreeSet A := (list A) (only parsing).

Fixpoint bset_insert {A} `{Ord A} (x : A) (s : BTreeSet A) : BTreeSet A :=
  match s with
  | [] => [x]
  | y :: s' =>
      match cmp x y with
      | Lt => x :: s
      | Eq => s
      | Gt => y :: bset_insert x s'
      end
  end.
Fixpoint bset_contains {A} `{Ord A} (x : A) (s : BTreeSet A) : bool :=
  match s with
  | [] => false
  | y :: s' => match cmp x y with Eq => true | _ => bset_contains x s' end
  end.
Fixpoint bset_remove {A} `{Ord A} (x : A) (s : BTreeSet A) : BTreeSet A :=
  match s with
  | [] => []
  | y :: s' => match cmp x y with Eq => s' | _ => y :: bset_remove x s' end
  end.
Definition bset_extend {A} `{Ord A} (s : BTreeSet A) (l : list A) : BTreeSet A :=
  foldl (fun s x => bset_insert x s) s l.
(** [iter.collect::<BTreeSet<_>>()]. *)
Definition bset_of_list {A} `{Ord A} (l : list A) : BTreeSet A := bset_extend [] l.

(* --------------------------------------------------------------------- *)
(** ** BTreeMap *)

Notation BTreeMap K V := (list (K * V)) (only parsing).

Fixpoint bmap_get {K V} `{Ord K} (k : K) (m : BTreeMap K V) : option V :=
  match m with
  | [] => None
  | (k', v) :: m' => match cmp k k' with Eq => Some v | _ => bmap_get k m' end
  end.
Fixpoint bmap_insert {K V} `{Ord K} (k : K) (v : V) (m : BTreeMap K V) : BTreeMap K V :=
  match m with
  | [] => [(k, v)]
  | (k', v') :: m' =>
      match cmp k k' with
      | Lt => (k, v) :: m
      | Eq => (k, v) :: m'
      | Gt => (k', v') :: bmap_insert k v m'
      end
  end.
Fixpoint bmap_remove {K V} `{Ord K} (k : K) (m : BTreeMap K V) : BTreeMap K V :=
  match m with
  | [] => []
  | (k', v) :: m' => match cmp k k' with Eq => m' | _ => (k', v) :: bmap_remove k m' end
  end.
Definition bmap_contains_key {K V} `{Ord K} (k : K) (m : BTreeMap K V) : bool :=
  match bmap_get k m with Some _ => true | None => false end.
Definition bmap_keys {K V} (m : BTreeMap K V) : list K := m.*1.
Definition bmap_values {K V} (m : BTreeMap K V) : list V := m.*2.
(** [iter.collect::<BTreeMap<_, _>>()]: a later entry replaces an earlier one. *)
Definition bmap_of_list {K V} `{Ord K} (l : list (K * V)) : BTreeMap K V :=
  foldl (fun m e => bmap_insert e.1 e.2 m) [] l.

Definition bset_wf {A} `{Ord A} (s : BTreeSet A) : Prop := StronglySorted lt_ord s.
Definition bmap_wf {K V} `{Ord K} (m : BTreeMap K V) : Prop := StronglySorted lt_ord m.*1.

(* --------------------------------------------------------------------- *)
(** ** Sorting *)

Section SortPerm.
Context {A : Type} (c : A -> A -> comparison).

Lemma insert_by_perm x l : Permutation (insert_by c x l) (x :: l).
Proof.
  induction l as [|y l IH]; cbn; [done|]. destruct (c x y); [done|done|].
  by rewrite IH, Permutation_swap.
Qed.

Lemma sort_by_cons x l : sort_by c (x :: l) = insert_by c x (sort_by c l).
Proof. done. Qed.

Lemma sort_by_perm l : Permutation (sort_by c l) l.
Proof. induction l as [|x l IH]; cbn; [done|]. by rewrite insert_by_perm, IH. Qed.
End SortPerm.

Lemma StronglySorted_impl {A} (R Q : A -> A -> Prop) l :
  (forall x y, x ∈ l -> y ∈ l -> R x y -> Q x y) -> StronglySorted R l -> StronglySorted Q l.
Proof.
  intros HI. induction 1 as [|x l Hs IH Hx]; constructor.
  - apply IH. intros; apply HI; set_solver.
  - rewrite list.Forall_forall in *. intros y Hy. apply HI; set_solver.
Qed.

Lemma StronglySorted_fmap {A B} (R : B -> B -> Prop) (f : A -> B) l :
  StronglySorted R (f <$> l) <-> StronglySorted (fun x y => R (f x) (f y)) l.
Proof.
  induction l as [|x l IH]; cbn; [split; constructor|]. split; inversion_clear 1; constructor.
  - by apply IH.
  - by rewrite Forall_fmap in *.
  - by apply IH.
  - by rewrite Forall_fmap in *.
Qed.

Lemma StronglySorted_app {A} (R : A -> A -> Prop) l1 l2 :
  StronglySorted R (l1 ++ l2) <->
  StronglySorted R l1 /\ StronglySorted R l2 /\ (forall x y, x ∈ l1 -> y ∈ l2 -> R x y).
Proof.
  induction l1 as [|x l1 IH]; cbn.
  - split; [intros; split_and!; [constructor|done|set_solver]|naive_solver].
  - split.
    + inversion_clear 1 as [|? ? Hs Hx]. apply IH in Hs as (? & ? & ?).
      apply Forall_app in Hx as [Hx1 Hx2]. rewrite list.Forall_forall in Hx2.
      split_and!; [by constructor|done|set_solver].
    + intros (Hs & ? & HR). inversion_clear Hs. constructor.
      * apply IH. split_and!; [done|done|set_solver].
      * apply Forall_app. split; [done|]. rewrite list.Forall_forall. set_solver.
Qed.

Lemma windows_all_cons {A} (p : A -> A -> bool) x y l :
  windows_all p (x :: y :: l) = p x y && windows_all p (y :: l).
Proof. done. Qed.

Lemma windows_all_ext {A} (p q : A -> A -> bool) l :
  (forall x y, p x y = q x y) -> windows_all p l = windows_all q l.
Proof.
  intros He. induction l as [|x [|y l] IH]; [done|done|].
  by rewrite !windows_all_cons, He, IH.
Qed.

Section SortKey.
Context {A K : Type} `{LawfulOrd K} (key : A -> K).
Notation le_key := (fun x y => ~ lt_ord (key y) (key x)).
Notation lt_key := (fun x y => lt_ord (key x) (key y)).

Lemma insert_by_key_spec x l :
  StronglySorted le_key l -> StronglySorted le_key (insert_by (cmp_on key) x l).
Proof.
  induction 1 as [|y l Hs IH Hy]; cbn; [repeat constructor|].
  assert (cmp_on key x y <> Gt -> StronglySorted le_key (x :: y :: l)) as Hfront.
  { intros Hc. assert (~ lt_ord (key y) (key x)) as Hxy.
    { intros Hlt. apply Hc. unfold cmp_on. by apply cmp_gt_lt. }
    constructor; [by constructor|]. constructor; [done|].
    eapply list.Forall_impl; [exact Hy|]. cbn. intros z Hz Hzx. apply Hz.
    apply nlt_cases in Hxy as [->|Hxy]; [done|]. eauto using lt_trans. }
  destruct (cmp_on key x y) eqn:E; [by apply Hfront|by apply Hfront|].
  constructor; [done|]. rewrite insert_by_perm. constructor; [|done].
  apply lt_asym. by apply cmp_gt_lt.
Qed.

Lemma sort_by_sorted l : StronglySorted le_key (sort_by (cmp_on key) l).
Proof. induction l; cbn; [constructor|]. by apply insert_by_key_spec. Qed.

Lemma insert_by_head x l :
  Forall (fun y => ~ lt_ord (key y) (key x)) l -> insert_by (cmp_on key) x l = x :: l.
Proof.
  destruct l as [|y l]; cbn; [done|]. inversion_clear 1 as [|? ? Hy _].
  destruct (cmp_on key x y) eqn:E; [done|done|]. exfalso. apply Hy. by apply cmp_gt_lt.
Qed.

Lemma sort_by_id l : StronglySorted le_key l -> sort_by (cmp_on key) l = l.
Proof.
  induction 1 as [|x l Hs IH Hx]; [done|]. rewrite sort_by_cons, IH. by apply insert_by_head.
Qed.

Lemma sort_by_idemp l :
  sort_by (cmp_on key) (sort_by (cmp_on key) l) = sort_by (cmp_on key) l.
Proof. apply sort_by_id, sort_by_sorted. Qed.

Lemma strict_sorted_le l : StronglySorted lt_key l -> StronglySorted le_key l.
Proof. apply StronglySorted_impl. intros x y _ _. apply lt_asym. Qed.

Lemma strict_sorted_NoDup l : StronglySorted lt_key l -> NoDup (key <$> l).
Proof.
  induction 1 as [|x l Hs IH Hx]; cbn; constructor; [|done].
  rewrite list_elem_of_fmap. intros (y & Heq & Hy).
  rewrite list.Forall_forall in Hx. apply Hx in Hy. rewrite Heq in Hy. by eapply lt_irrefl.
Qed.

Lemma sorted_NoDup_strict l :
  StronglySorted le_key l -> NoDup (key <$> l) -> StronglySorted lt_key l.
Proof.
  induction 1 as [|x l Hs IH Hx]; cbn; [constructor|].
  inversion_clear 1 as [|? ? Hn Hd]. constructor; [by apply IH|].
  rewrite list.Forall_forall in *. intros y Hy.
  destruct (nlt_cases _ _ (Hx y Hy)) as [Heq|?]; [|done].
  exfalso. apply Hn. rewrite <- Heq. by apply list_elem_of_fmap_2.
Qed.

Lemma strict_sorted_unique l1 l2 :
  StronglySorted lt_key l1 -> StronglySorted lt_key l2 ->
  (forall x, x ∈ l1 <-> x ∈ l2) -> l1 = l2.
Proof.
  intros H1; revert l2. induction H1 as [|x l1 Hs IH Hx]; intros [|y l2] H2 Heq.
  - done.
  - exfalso. by eapply (not_elem_of_nil y), Heq, list_elem_of_here.
  - exfalso. by eapply (not_elem_of_nil x), Heq, list_elem_of_here.
  - inversion_clear H2 as [|? ? Hs2 Hy]. rewrite list.Forall_forall in *.
    assert (x = y) as ->.
    { destruct (proj1 (elem_of_cons l2 x y)) as [|Hin1]; [apply Heq; set_solver|done|].
      destruct (proj1 (elem_of_cons l1 y x)) as [|Hin2]; [apply Heq; set_solver|done|].
      exfalso. eapply lt_asym; [by apply Hx|by apply Hy]. }
    f_equal. apply IH; [done|]. intros z. split; intros Hz.
    + destruct (proj1 (elem_of_cons l2 z y)) as [->|]; [apply Heq; set_solver| |done].
      exfalso. by eapply lt_irrefl, Hx.
    + destruct (proj1 (elem_of_cons l1 z y)) as [->|]; [apply Heq; set_solver| |done].
      exfalso. by eapply lt_irrefl, Hy.
Qed.

Lemma sort_by_strict l : NoDup (key <$> l) -> StronglySorted lt_key (sort_by (cmp_on key) l).
Proof.
  intros Hd. apply sorted_NoDup_strict; [apply sort_by_sorted|].
  by rewrite sort_by_perm.
Qed.

(** Arrival order is irrelevant when the keys are distinct. *)
Lemma sort_by_arrival l1 l2 :
  Permutation l1 l2 -> NoDup (key <$> l1) ->
  sort_by (cmp_on key) l1 = sort_by (cmp_on key) l2.
Proof.
  intros Hp Hd. apply strict_sorted_unique.
  - by apply sort_by_strict.
  - apply sort_by_strict. by rewrite <- Hp.
  - intros x. by rewrite !sort_by_perm, Hp.
Qed.

(** Sorting by a key commutes with maps that keep the key. *)
Lemma sort_by_fmap (f : A -> A) l : (forall x, key (f x) = key x) ->
  sort_by (cmp_on key) (f <$> l) = f <$> sort_by (cmp_on key) l.
Proof.
  intros Hf. induction l as [|x l IH]; [done|]. rewrite fmap_cons, !sort_by_cons, IH. clear IH.
  induction (sort_by (cmp_on key) l) as [|y k IHk]; [done|]. rewrite fmap_cons. cbn [insert_by].
  assert (cmp_on key (f x) (f y) = cmp_on key x y) as -> by (unfold cmp_on; by rewrite !Hf).
  destruct (cmp_on key x y); [done|done|]. by rewrite IHk.
Qed.

Lemma windows_all_strict l :
  windows_all (fun x y => ltb (key x) (key y)) l = true <-> StronglySorted lt_key l.
Proof.
  induction l as [|x [|y l] IH].
  - split; [constructor|done].
  - split; [repeat constructor|done].
  - rewrite windows_all_cons, andb_true_iff, IH, ltb_lt. split.
    + intros [Hxy Hs]. constructor; [done|]. constructor; [done|].
      inversion_clear Hs as [|? ? _ Hy]. eapply list.Forall_impl; [exact Hy|].
      cbn. intros z Hz. eauto using lt_trans.
    + inversion_clear 1 as [|? ? Hs Hx]. inversion_clear Hx. done.
Qed.

Lemma windows_any_ge_strict l :
  windows_any (fun x y => geb (key x) (key y)) l = false <-> StronglySorted lt_key l.
Proof.
  unfold windows_any. rewrite negb_false_iff, <- windows_all_strict.
  erewrite windows_all_ext; [done|]. intros x y. unfold geb. apply negb_involutive.
Qed.
End SortKey.

(* --------------------------------------------------------------------- *)
(** ** Sets *)

Section SetLemmas.
Context {A : Type} `{LawfulOrd A}.
Implicit Types (x y : A) (s l : list A).

Lemma bset_insert_elem x y s : y ∈ bset_insert x s <-> y = x \/ y ∈ s.
Proof.
  induction s as [|z s IH]; cbn; [set_solver|].
  destruct (cmp x z) eqn:E; [apply cmp_eq_iff in E; subst|..]; set_solver.
Qed.

Lemma bset_insert_wf x s : bset_wf s -> bset_wf (bset_insert x s).
Proof.
  unfold bset_wf. induction 1 as [|z s Hs IH Hz]; cbn; [repeat constructor|].
  destruct (cmp x z) eqn:E; [by constructor|..].
  - constructor; [by constructor|]. constructor; [done|].
    eapply list.Forall_impl; [exact Hz|]. intros w Hw. by eapply lt_trans.
  - constructor; [done|]. rewrite list.Forall_forall in *. intros w Hw.
    apply bset_insert_elem in Hw as [->|?]; [|by apply Hz]. by apply cmp_gt_lt.
Qed.

Lemma bset_contains_spec x s : bset_contains x s = true <-> x ∈ s.
Proof.
  induction s as [|z s IH]; cbn; [by rewrite elem_of_nil|].
  rewrite elem_of_cons, <- IH. destruct (cmp x z) eqn:E.
  - apply cmp_eq_iff in E. naive_solver.
  - split; [by right|]. intros [->|?]; [by rewrite cmp_refl in E|done].
  - split; [by right|]. intros [->|?]; [by rewrite cmp_refl in E|done].
Qed.

Lemma bset_contains_false x s : bset_contains x s = false <-> x ∉ s.
Proof. rewrite <- bset_contains_spec. by destruct (bset_contains x s). Qed.

Lemma bset_insert_present x s : bset_wf s -> x ∈ s -> bset_insert x s = s.
Proof.
  unfold bset_wf. induction 1 as [|z s Hs IH Hz]; cbn; [by rewrite elem_of_nil|].
  intros Hin. destruct (cmp x z) eqn:E; [done|..].
  - exfalso. apply elem_of_cons in Hin as [->|Hin]; [by rewrite cmp_refl in E|].
    rewrite list.Forall_forall in Hz. exact (lt_asym _ _ E (Hz _ Hin)).
  - f_equal. apply IH. apply elem_of_cons in Hin as [->|Hin]; [by rewrite cmp_refl in E|done].
Qed.

Lemma bset_extend_elem s l y : y ∈ bset_extend s l <-> y ∈ s \/ y ∈ l.
Proof.
  unfold bset_extend. revert s; induction l as [|x l IH]; intros s; cbn; [set_solver|].
  rewrite IH, bset_insert_elem. set_solver.
Qed.

Lemma bset_extend_wf s l : bset_wf s -> bset_wf (bset_extend s l).
Proof.
  unfold bset_extend. revert s; induction l; intros s Hs; cbn; [done|]. by apply IHl, bset_insert_wf.
Qed.

Lemma bset_nil_wf : bset_wf (@nil A).
Proof. constructor. Qed.

Lemma bset_of_list_elem l y : y ∈ bset_of_list l <-> y ∈ l.
Proof. unfold bset_of_list. rewrite bset_extend_elem. set_solver. Qed.

Lemma bset_of_list_wf l : bset_wf (bset_of_list l).
Proof. apply bset_extend_wf, bset_nil_wf. Qed.

(** Extensionality: a set is determined by its elements. *)
Lemma bset_ext s1 s2 :
  bset_wf s1 -> bset_wf s2 -> (forall x, x ∈ s1 <-> x ∈ s2) -> s1 = s2.
Proof. apply (strict_sorted_unique (fun x : A => x)). Qed.

Lemma bset_of_list_id s : bset_wf s -> bset_of_list s = s.
Proof.
  intros. apply bset_ext; [apply bset_of_list_wf|done|]. apply bset_of_list_elem.
Qed.

Lemma bset_remove_elem x y s : bset_wf s -> y ∈ bset_remove x s <-> y ∈ s /\ y <> x.
Proof.
  unfold bset_wf. induction 1 as [|z s Hs IH Hz]; cbn; [set_solver|].
  rewrite list.Forall_forall in Hz. destruct (cmp x z) eqn:E.
  - apply cmp_eq_iff in E; subst. rewrite elem_of_cons. split; [|naive_solver].
    intros Hy. split; [by right|]. intros ->. by eapply lt_irrefl, Hz.
  - rewrite !elem_of_cons, IH. split; [|naive_solver]. intros [->|]; [|naive_solver].
    split; [by left|]. intros ->. by rewrite cmp_refl in E.
  - rewrite !elem_of_cons, IH. split; [|naive_solver]. intros [->|]; [|naive_solver].
    split; [by left|]. intros ->. by rewrite cmp_refl in E.
Qed.

Lemma bset_remove_wf x s : bset_wf s -> bset_wf (bset_remove x s).
Proof.
  unfold bset_wf. induction 1 as [|z s Hs IH Hz]; cbn; [constructor|].
  assert (StronglySorted lt_ord (z :: bset_remove x s)).
  { constructor; [done|]. rewrite list.Forall_forall in *. intros y Hy.
    apply Hz. by apply bset_remove_elem in Hy as [??]. }
  by destruct (cmp x z).
Qed.

Lemma bset_wf_NoDup s : bset_wf s -> NoDup s.
Proof.
  intros Hs. apply (strict_sorted_NoDup (fun x : A => x)) in Hs. by rewrite list_fmap_id in Hs.
Qed.

Lemma windows_lt_wf l : windows_all ltb l = true <-> bset_wf l.
Proof. apply (windows_all_strict (fun x : A => x)). Qed.

Lemma windows_ge_wf l : windows_any geb l = false <-> bset_wf l.
Proof. apply (windows_any_ge_strict (fun x : A => x)). Qed.

Lemma sort_dedup_elem `{EqDecision A} l y : y ∈ dedup (sort l) <-> y ∈ l.
Proof.
  assert (forall x k, y ∈ x :: dedup_from x k <-> y ∈ x :: k) as Hd.
  { intros x k; revert x; induction k as [|z k IH]; intros x; cbn; [done|].
    case_decide; subst.
    - rewrite (IH z). set_solver.
    - rewrite elem_of_cons, (IH z). set_solver. }
  transitivity (y ∈ sort l); [|unfold sort; by rewrite sort_by_perm].
  destruct (sort l); [done|]. apply Hd.
Qed.

Lemma sort_dedup_wf `{EqDecision A} l : bset_wf (dedup (sort l)).
Proof.
  pose proof (sort_by_sorted (fun x : A => x) l) as Hs.
  change (sort_by (cmp_on (fun x => x)) l) with (sort l) in Hs.
  assert (forall x k, StronglySorted (fun a b : A => ~ lt_ord b a) (x :: k) ->
            StronglySorted lt_ord (x :: dedup_from x k) /\
            forall y, y ∈ dedup_from x k -> y ∈ k) as Hd.
  { clear Hs. intros x k; revert x; induction k as [|z k IH]; intros x Hs; cbn.
    - split; [repeat constructor|set_solver].
    - inversion_clear Hs as [|? ? Hs' Hx]. case_decide; subst.
      + destruct (IH z Hs') as [? ?]. split; [done|set_solver].
      + destruct (IH z Hs') as [Hss Hsub]. split; [|set_solver].
        constructor; [done|]. rewrite list.Forall_forall in Hx.
        assert (lt_ord x z) as Hxz.
        { destruct (nlt_cases _ _ (Hx z (list_elem_of_here _ _))); by subst. }
        constructor; [done|]. inversion_clear Hss as [|? ? _ Hz].
        eapply list.Forall_impl; [exact Hz|]. intros w Hw. by eapply lt_trans. }
  destruct (sort l) as [|x k]; [constructor|]. by apply Hd.
Qed.
End SetLemmas.
#[export] Hint Resolve bset_insert_wf bset_extend_wf bset_of_list_wf bset_remove_wf
  bset_nil_wf sort_dedup_wf : rust.

(* --------------------------------------------------------------------- *)
(** ** Maps *)

Section MapLemmas.
Context {K V : Type} `{LawfulOrd K}.
Implicit Types (k : K) (v : V) (m : list (K * V)).

Lemma bmap_get_insert_eq k v m : bmap_get k (bmap_insert k v m) = Some v.
Proof.
  induction m as [|[k' v'] m IH]; cbn; [by rewrite cmp_refl|].
  destruct (cmp k k') eqn:E; cbn; rewrite ?cmp_refl, ?E; done.
Qed.

Lemma bmap_get_insert_ne k k' v m :
  k <> k' -> bmap_get k' (bmap_insert k v m) = bmap_get k' m.
Proof.
  intros Hne. assert (cmp k' k <> Eq) as Hc by (by rewrite cmp_eq_iff; intros ->).
  induction m as [|[k2 v2] m IH]; cbn; [by destruct (cmp k' k)|].
  destruct (cmp k k2) eqn:E; cbn.
  - apply cmp_eq_iff in E; subst. by destruct (cmp k' k2).
  - by destruct (cmp k' k).
  - by rewrite IH.
Qed.

Lemma bmap_get_insert k k' v m :
  bmap_get k' (bmap_insert k v m) =
  match cmp k' k with Eq => Some v | _ => bmap_get k' m end.
Proof.
  destruct (cmp k' k) eqn:E.
  - apply cmp_eq_iff in E; subst. apply bmap_get_insert_eq.
  - apply bmap_get_insert_ne. intros ->. by rewrite cmp_refl in E.
  - apply bmap_get_insert_ne. intros ->. by rewrite cmp_refl in E.
Qed.

Lemma bmap_insert_keys k v m k' : k' ∈ (bmap_insert k v m).*1 <-> k' = k \/ k' ∈ m.*1.
Proof.
  induction m as [|[k2 v2] m IH]; cbn; [set_solver|].
  destruct (cmp k k2) eqn:E; cbn; [apply cmp_eq_iff in E; subst|..]; set_solver.
Qed.

Lemma bmap_insert_wf k v m : bmap_wf m -> bmap_wf (bmap_insert k v m).
Proof.
  unfold bmap_wf. induction m as [|[k2 v2] m IH]; cbn; [repeat constructor|].
  inversion_clear 1 as [|? ? Hs Hx]. destruct (cmp k k2) eqn:E; cbn.
  - apply cmp_eq_iff in E; subst. by constructor.
  - constructor; [by constructor|]. constructor; [done|].
    eapply list.Forall_impl; [exact Hx|]. intros w Hw. by eapply lt_trans.
  - constructor; [by apply IH|]. rewrite list.Forall_forall in *. intros w Hw.
    apply bmap_insert_keys in Hw as [->|?]; [|by apply Hx]. by apply cmp_gt_lt.
Qed.

Lemma bmap_of_list_wf (l : list (K * V)) : bmap_wf (bmap_of_list l).
Proof.
  unfold bmap_of_list. assert (bmap_wf (@nil (K * V))) as Hn by constructor.
  revert Hn. generalize (@nil (K * V)). induction l; intros m Hm; cbn; [done|].
  by apply IHl, bmap_insert_wf.
Qed.

Lemma bmap_get_elem k v m : bmap_wf m -> bmap_get k m = Some v <-> (k, v) ∈ m.
Proof.
  unfold bmap_wf. induction m as [|[k2 v2] m IH]; cbn; [by rewrite elem_of_nil|].
  inversion_clear 1 as [|? ? Hs Hx]. rewrite elem_of_cons, <- IH by done.
  rewrite list.Forall_forall in Hx. destruct (cmp k k2) eqn:E.
  - apply cmp_eq_iff in E; subst. split; [intros [= ->]; by left|].
    intros [[= ->]|Hg]; [done|]. exfalso. apply (lt_irrefl k2), Hx.
    apply IH in Hg; [|done]. apply list_elem_of_fmap. by exists (k2, v).
  - split; [by right|]. intros [[= -> ->]|?]; [by rewrite cmp_refl in E|done].
  - split; [by right|]. intros [[= -> ->]|?]; [by rewrite cmp_refl in E|done].
Qed.

Lemma bmap_get_some_key k m : k ∈ m.*1 <-> exists v, bmap_get k m = Some v.
Proof.
  induction m as [|[k2 v2] m IH]; cbn.
  - rewrite elem_of_nil. naive_solver.
  - rewrite elem_of_cons, IH. destruct (cmp k k2) eqn:E.
    + apply cmp_eq_iff in E; subst. naive_solver.
    + split; [intros [->|?]; [by rewrite cmp_refl in E|done]|by right].
    + split; [intros [->|?]; [by rewrite cmp_refl in E|done]|by right].
Qed.

Lemma bmap_get_none_key k m : k ∉ m.*1 <-> bmap_get k m = None.
Proof. rewrite bmap_get_some_key. destruct (bmap_get k m); naive_solver. Qed.

Lemma bmap_contains_spec k m : bmap_contains_key k m = true <-> k ∈ m.*1.
Proof.
  unfold bmap_contains_key. rewrite bmap_get_some_key. destruct (bmap_get k m); naive_solver.
Qed.

Lemma bmap_ext m1 m2 :
  bmap_wf m1 -> bmap_wf m2 -> (forall k, bmap_get k m1 = bmap_get k m2) -> m1 = m2.
Proof.
  intros H1 H2 He. apply (strict_sorted_unique fst).
  - by apply StronglySorted_fmap.
  - by apply StronglySorted_fmap.
  - intros [k v]. by rewrite <- !bmap_get_elem, He.
Qed.

Lemma bmap_get_remove_ne k k' m : k' <> k -> bmap_get k' (bmap_remove k m) = bmap_get k' m.
Proof.
  intros Hne. induction m as [|[k2 v2] m IH]; [done|]. cbn. destruct (cmp k k2) eqn:E; cbn.
  - apply cmp_eq_iff in E as <-. destruct (cmp k' k) eqn:E2; [by apply cmp_eq_iff in E2|done..].
  - by rewrite IH.
  - by rewrite IH.
Qed.
Lemma bmap_get_remove k k' m : bmap_wf m ->
  bmap_get k' (bmap_remove k m) = match cmp k' k with Eq => None | _ => bmap_get k' m end.
Proof.
  unfold bmap_wf. induction m as [|[k2 v2] m IH]; cbn; [by destruct (cmp k' k)|].
  inversion_clear 1 as [|? ? Hs Hx]. rewrite list.Forall_forall in Hx.
  assert (k2 ∉ m.*1) as Hn by (intros Hin; by eapply lt_irrefl, Hx).
  destruct (cmp k k2) eqn:E; cbn.
  - apply cmp_eq_iff in E; subst. destruct (cmp k' k2) eqn:E2; [|done|done].
    apply cmp_eq_iff in E2; subst. by apply bmap_get_none_key.
  - rewrite IH by done. destruct (cmp k' k2) eqn:E2; [|done|done].
    apply cmp_eq_iff in E2; subst. rewrite cmp_antisym, E. done.
  - rewrite IH by done. destruct (cmp k' k2) eqn:E2; [|done|done].
    apply cmp_eq_iff in E2; subst. rewrite cmp_antisym, E. done.
Qed.

Lemma bmap_remove_wf k m : bmap_wf m -> bmap_wf (bmap_remove k m).
Proof.
  unfold bmap_wf. induction m as [|[k2 v2] m IH]; cbn; [constructor|].
  inversion_clear 1 as [|? ? Hs Hx].
  assert (StronglySorted lt_ord (k2 :: (bmap_remove k m).*1)).
  { constructor; [by apply IH|]. rewrite list.Forall_forall in *. intros w Hw. apply Hx.
    apply list_elem_of_fmap in Hw as ([w' v] & -> & Hw). clear IH Hx Hs.
    apply list_elem_of_fmap. exists (w', v). split; [done|].
    induction m as [|[k3 v3] m IH]; cbn in Hw; [done|].
    destruct (cmp k k3); set_solver. }
  by destruct (cmp k k2).
Qed.

(** Collecting entries with distinct keys only sorts them. *)
Lemma bmap_of_list_get (l : list (K * V)) k v :
  NoDup l.*1 -> bmap_get k (bmap_of_list l) = Some v <-> (k, v) ∈ l.
Proof.
  unfold bmap_of_list.
  assert (forall m, NoDup l.*1 ->
    bmap_get k (foldl (fun m e => bmap_insert e.1 e.2 m) m l) = Some v <->
    (k, v) ∈ l \/ (k ∉ l.*1 /\ bmap_get k m = Some v)) as Hg.
  { induction l as [|[k2 v2] l IH]; intros m; cbn; [set_solver|].
    inversion_clear 1 as [|? ? Hn Hd]. rewrite (IH _ Hd), bmap_get_insert.
    rewrite elem_of_cons, not_elem_of_cons. destruct (cmp k k2) eqn:E.
    - apply cmp_eq_iff in E; subst. split.
      + intros [?|[? [= ->]]]; [by left; right|by left; left].
      + intros [[[= ->]|?]|[[? ?] ?]]; [by right|by left|done].
    - assert (k <> k2) by (intros ->; by rewrite cmp_refl in E). naive_solver.
    - assert (k <> k2) by (intros ->; by rewrite cmp_refl in E). naive_solver. }
  intros Hd. rewrite (Hg [] Hd). cbn. naive_solver.
Qed.
End MapLemmas.
#[export] Hint Resolve bmap_insert_wf bmap_of_list_wf bmap_remove_wf : rust.

Lemma bmap_insert_split {K V} `{LawfulOrd K} (k : K) (v : V) m :
  k ∉ m.*1 -> exists m1 m2, m = m1 ++ m2 /\ bmap_insert k v m = m1 ++ (k, v) :: m2.
Proof.
  induction m as [|[k' v'] m IH]; cbn; [by exists [], []|].
  rewrite not_elem_of_cons. intros [Hne Hn]. destruct (cmp k k') eqn:E.
  - by apply cmp_eq_iff in E.
  - by exists [], ((k', v') :: m).
  - destruct (IH Hn) as (m1 & m2 & -> & ->). by exists ((k', v') :: m1), m2.
Qed.

Lemma bmap_remove_split {K V} `{LawfulOrd K} (k : K) (v : V) m :
  bmap_get k m = Some v -> exists m1 m2, m = m1 ++ (k, v) :: m2 /\ bmap_remove k m = m1 ++ m2.
Proof.
  induction m as [|[k' v'] m IH]; cbn; [done|]. destruct (cmp k k') eqn:E.
  - apply cmp_eq_iff in E as ->. intros [= ->]. by exists [], m.
  - intros (m1 & m2 & -> & ->)%IH. by exists ((k', v') :: m1), m2.
  - intros (m1 & m2 & -> & ->)%IH. by exists ((k', v') :: m1), m2.
Qed.

Lemma empty_match {A} (l : list A) :
  (match l with [] => true | _ => false end) = false <-> l <> [].
Proof. by destruct l. Qed.

Lemma existsb_false {A} (p : A -> bool) l :
  existsb p l = false <-> Forall (fun a => p a = false) l.
Proof.
  induction l as [|a l IH]; cbn; [by split; [constructor|]|].
  rewrite orb_false_iff, Forall_cons_iff. naive_solver.
Qed.

Lemma sort_dedup_nonempty {A} `{LawfulOrd A, EqDecision A} (l : list A) : l <> [] -> dedup (sort l) <> [].
Proof.
  destruct l as [|a l]; [done|]. intros _ Hn.
  assert (a ∈ dedup (sort (a :: l))) as Ha by (apply sort_dedup_elem; left).
  rewrite Hn in Ha. by apply elem_of_nil in Ha.
Qed.

Lemma extend_nonempty {A} `{LawfulOrd A} (s t : list A) : s <> [] \/ t <> [] -> bset_extend s t <> [].
Proof.
  intros Hn He. assert (exists x, x ∈ s \/ x ∈ t) as [x Hx].
  { destruct s as [|x s]; [destruct t as [|x t]; [naive_solver|]|]; exists x; [right|left]; left. }
  apply bset_extend_elem in Hx. rewrite He in Hx. by apply elem_of_nil in Hx.
Qed.

Lemma extend_comm {A} `{LawfulOrd A} (s t : list A) :
  bset_wf s -> bset_wf t -> bset_extend s t = bset_extend t s.
Proof.
  intros. apply bset_ext; [by apply bset_extend_wf..|]. intros x. rewrite !bset_extend_elem. tauto.
Qed.

Lemma extend_idemp {A} `{LawfulOrd A} (s : list A) : bset_wf s -> bset_extend s s = s.
Proof. intros. apply bset_ext; [by apply bset_extend_wf|done|]. intros x. rewrite bset_extend_elem. tauto. Qed.

Lemma of_list_nonempty {A} `{LawfulOrd A} (l : list A) : l <> [] -> bset_of_list l <> [].
Proof. intros. apply extend_nonempty. by right. Qed.

Lemma insert_nonempty {A} `{LawfulOrd A} (x : A) s : bset_insert x s <> [].
Proof.
  intros He. assert (x ∈ bset_insert x s) as Hx by (apply bset_insert_elem; by left).
  rewrite He in Hx. by apply elem_of_nil in Hx.
Qed.

Lemma foldl_eq {A B} (f g : A -> B -> A) a l : (forall a b, f a b = g a b) -> foldl f a l = foldl g a l.
Proof. intros He. revert a; induction l as [|b l IH]; intros a; cbn; [done|]. by rewrite He, IH. Qed.

Lemma exists_elem_nil {A} (P : A -> Prop) : (exists a, a ∈ @nil A /\ P a) <-> False.
Proof. split; [|done]. intros (a & []%elem_of_nil & _). Qed.

Lemma exists_elem_cons {A} (P : A -> Prop) x l :
  (exists a, a ∈ x :: l /\ P a) <-> P x \/ exists a, a ∈ l /\ P a.
Proof.
  setoid_rewrite elem_of_cons. split; [intros (a & [->|] & ?); eauto|intros [|(a & ? & ?)]; eauto].
Qed.

Lemma foldl_insert_if {A K} `{LawfulOrd K} (p : A -> bool) (k : A -> K) l : forall s,
  let r := foldl (fun s a => if p a then bset_insert (k a) s else s) s l in
  (bset_wf s -> bset_wf r) /\ (forall x, x ∈ r <-> x ∈ s \/ exists a, a ∈ l /\ p a = true /\ k a = x).
Proof.
  induction l as [|a l IH]; intros s; cbn [foldl]; [split; [done|]; intros x; rewrite exists_elem_nil; tauto|].
  destruct (IH (if p a then bset_insert (k a) s else s)) as [Hw He]. cbv zeta. split.
  - intros Hs. apply Hw. destruct (p a); [by apply bset_insert_wf|done].
  - intros x. rewrite He. rewrite exists_elem_cons. destruct (p a) eqn:E; [rewrite bset_insert_elem|]; intuition (subst; auto; done).
Qed.

(* --------------------------------------------------------------------- *)
(** ** Loops that refuse repeated keys *)

Section UniqueLoop.
Context {E A K : Type} `{LawfulOrd K} (key : A -> K) (P : A -> Prop)
  (f : list K -> A -> Result E (list K)).
Hypothesis step : forall s a s',
  f s a = Ok s' <-> P a /\ key a ∉ s /\ s' = bset_insert (key a) s.

Lemma try_fold_unique s l :
  (exists s', try_fold f s l = Ok s') <->
  Forall P l /\ NoDup (key <$> l) /\ Forall (fun a => key a ∉ s) l.
Proof.
  revert s; induction l as [|a l IH]; intros s; cbn [try_fold].
  - split; [intros _; repeat constructor|intros _; by exists s].
  - setoid_rewrite result_bind_ok. setoid_rewrite step. rewrite fmap_cons, list.NoDup_cons, !Forall_cons_iff.
    assert (Forall (fun a' => key a' ∉ bset_insert (key a) s) l <->
            key a ∉ key <$> l /\ Forall (fun a' => key a' ∉ s) l) as Hf.
    { rewrite !list.Forall_forall, list_elem_of_fmap. setoid_rewrite bset_insert_elem. naive_solver. }
    split.
    + intros (s' & s1 & (HP & Ha & ->) & Ht).
      destruct (IH (bset_insert (key a) s)) as [IHl _]. naive_solver.
    + intros ((HP & Hl) & (Hk & Hd) & Ha & Hs).
      destruct (IH (bset_insert (key a) s)) as [_ IHr].
      destruct IHr as (s' & Hs'); [naive_solver|]. exists s', (bset_insert (key a) s). done.
Qed.

Lemma try_fold_unique_ok l :
  (exists s', try_fold f [] l = Ok s') <-> Forall P l /\ NoDup (key <$> l).
Proof.
  rewrite try_fold_unique. split; [naive_solver|]. intros [? ?]. split_and!; [done..|].
  apply list.Forall_true. intros a. apply not_elem_of_nil.
Qed.
End UniqueLoop.

(** [values().filter(p)] has one element exactly when one entry satisfies [p]. *)
Lemma filter_singleton {A} (p : A -> bool) (l : list A) a :
  NoDup l -> List.filter p l = [a] <-> a ∈ l /\ p a = true /\ (forall b, b ∈ l -> p b = true -> b = a).
Proof.
  intros Hd. split.
  - intros He. assert (forall b, b ∈ l /\ p b = true <-> b = a) as Hb.
    { intros b. rewrite list_elem_of_In, <- filter_In, He. cbn. naive_solver. }
    destruct (proj2 (Hb a) eq_refl). naive_solver.
  - intros (Ha & Hp & Hu). assert (Permutation (List.filter p l) [a]) as Hperm; [|].
    + apply NoDup_Permutation.
      * apply NoDup_ListNoDup, List.NoDup_filter, NoDup_ListNoDup. done.
      * apply NoDup_singleton.
      * intros b. rewrite list_elem_of_singleton, list_elem_of_In, filter_In, <- list_elem_of_In. naive_solver.
    + by apply Permutation_singleton_r in Hperm.
Qed.

Lemma bmap_values_filter_unique {K V} `{LawfulOrd K} (m : list (K * V)) (p : V -> bool) v :
  bmap_wf m ->
  List.filter p (bmap_values m) = [v] <->
  exists k, bmap_get k m = Some v /\ p v = true /\
    (forall k' v', bmap_get k' m = Some v' -> p v' = true -> k' = k).
Proof.
  intros Hm. assert (NoDup m) as Hd.
  { apply (NoDup_fmap_1 fst). apply bset_wf_NoDup. exact Hm. }
  assert (List.filter p (bmap_values m) = (List.filter (fun e => p e.2) m).*2) as ->.
  { unfold bmap_values. clear. induction m as [|[k w] m IH]; cbn; [done|]. destruct (p w); cbn; by rewrite IH. }
  setoid_rewrite bmap_get_elem; [|done..]. split.
  - intros He. destruct (List.filter _ m) as [|[k w] [|]] eqn:Hf; try discriminate He. cbn in He.
    injection He as ->. apply filter_singleton in Hf as (Hi & Hp & Hu); [|done].
    exists k. split_and!; [done|done|]. intros k' v' Hin Hp'. by apply (Hu (k', v')) in Hp' as [= -> _].
  - intros (k & Hin & Hp & Hu). rewrite (proj2 (filter_singleton (fun e => p e.2) m (k, v) Hd)); [done|].
    split_and!; [done|done|]. intros [k' v'] Hin' Hp'. assert (k' = k) as -> by (by eapply Hu).
    f_equal. apply bmap_get_elem in Hin, Hin'; [|done..]. congruence.
Qed.
