(* ===== verification/Text.v ===== *)
(** * Rust strings as byte sequences, machine integers

    A Rust [str] is its UTF-8 bytes, here a [string] of eight-bit characters;
    [len], [bytes], [starts_with], [split] and the comparison of strings work on
    those bytes.  Unsigned machine integers are [N] with the width written out. *)

From S2P Require Import Prelude Order Collections.
From Stdlib Require Export Strings.Byte.

(* --------------------------------------------------------------------- *)
(** ** Machine integers *)

Definition u32_max : N := 2 ^ 32 - 1.
Definition u64_max : N := 2 ^ 64 - 1.
Definition usize_max : N := 2 ^ 64 - 1.

(** Release builds wrap ([+=] without [checked_add]). *)
Definition u32_wrapping_add (a b : N) : N := (a + b) mod 2 ^ 32.
Definition u64_wrapping_add (a b : N) : N := (a + b) mod 2 ^ 64.
Definition u32_checked_add (a b : N) : option N :=
  if a + b <=? u32_max then Some (a + b) else None.
Definition u64_checked_add (a b : N) : option N :=
  if a + b <=? u64_max then Some (a + b) else None.

Definition vlen {A} (l : list A) : N := N.of_nat (length l).

(* --------------------------------------------------------------------- *)
(** ** Strings *)

Definition str_len (s : string) : N := N.of_nat (String.length s).

Fixpoint str_all (p : ascii -> bool) (s : string) : bool :=
  match s with
  | EmptyString => true
  | String a s' => p a && str_all p s'
  end.
Definition str_any (p : ascii -> bool) (s : string) : bool := negb (str_all (fun a => negb (p a)) s).
Definition str_is_empty (s : string) : bool :=
  match s with EmptyString => true | _ => false end.
Definition contains_char (c : ascii) (s : string) : bool := str_any (Ascii.eqb c) s.

Fixpoint strip_prefix (p s : string) : option string :=
  match p, s with
  | EmptyString, _ => Some s
  | String a p', String b s' => if Ascii.eqb a b then strip_prefix p' s' else None
  | String _ _, EmptyString => None
  end.
Definition starts_with (p s : string) : bool :=
  match strip_prefix p s with Some _ => true | None => false end.
(** [&s[n..]]. *)
Fixpoint str_drop (n : nat) (s : string) : string :=
  match n, s with
  | O, _ => s
  | S n', String _ s' => str_drop n' s'
  | S _, EmptyString => EmptyString
  end.

(** [s.split(c)]: always at least one component. *)
Fixpoint split_char (c : ascii) (s : string) : list string :=
  match s with
  | EmptyString => [EmptyString]
  | String a s' =>
      if Ascii.eqb a c then EmptyString :: split_char c s'
      else match split_char c s' with
           | w :: ws => String a w :: ws
           | [] => [String a EmptyString]
           end
  end.

Definition str_eqb (s t : string) : bool := String.eqb s t.
Definition str_neqb (s t : string) : bool := negb (String.eqb s t).

(** [u8] classes used by the validators. *)
Definition ascii_between (lo hi : N) (a : ascii) : bool :=
  (lo <=? N_of_ascii a) && (N_of_ascii a <=? hi).
Definition is_ascii_digit (a : ascii) : bool := ascii_between 48 57 a.
Definition is_ascii_uppercase (a : ascii) : bool := ascii_between 65 90 a.
Definition is_ascii_lowercase (a : ascii) : bool := ascii_between 97 122 a.
Definition is_ascii_alphanumeric (a : ascii) : bool :=
  is_ascii_digit a || is_ascii_uppercase a || is_ascii_lowercase a.
Definition is_ascii_hexdigit (a : ascii) : bool :=
  is_ascii_digit a || ascii_between 65 70 a || ascii_between 97 102 a.
Definition is_ascii_control (a : ascii) : bool :=
  ascii_between 0 31 a || ascii_between 127 127 a.
Definition nul : ascii := Ascii.zero.
Definition lower_hex_byte (a : ascii) : bool :=
  is_ascii_hexdigit a && negb (is_ascii_uppercase a).

(** [s.chars().any(char::is_control)]: the control characters of Unicode are
    U+0000-U+001F, U+007F and U+0080-U+009F, the last of which are the two-byte
    sequences C2 80 .. C2 9F. *)
Fixpoint has_control_char (s : string) : bool :=
  match s with
  | EmptyString => false
  | String a s' =>
      is_ascii_control a
      || (match s' with
          | String b _ => ascii_between 194 194 a && ascii_between 128 159 b
          | EmptyString => false
          end)
      || has_control_char s'
  end.

Definition as_bytes (s : string) : list byte := String.list_byte_of_string s.

(** Decimal rendering ([to_string] of an unsigned integer). *)
Fixpoint decimal_aux (fuel : nat) (n : N) (acc : string) : string :=
  match fuel with
  | O => acc
  | S f =>
      let acc' := String (ascii_of_N (48 + n mod 10)) acc in
      if n <? 10 then acc' else decimal_aux f (n / 10) acc'
  end.
(** Twenty digits suffice for every [u64]. *)
Definition decimal (n : N) : string := decimal_aux 20 n EmptyString.

(* --------------------------------------------------------------------- *)
(** ** Lemmas *)

Lemma str_eqb_eq s t : str_eqb s t = true <-> s = t.
Proof. apply String.eqb_eq. Qed.
Lemma str_neqb_false s t : str_neqb s t = false <-> s = t.
Proof. unfold str_neqb. by rewrite negb_false_iff, String.eqb_eq. Qed.
Lemma str_eqb_false s t : str_eqb s t = false <-> s <> t.
Proof. apply String.eqb_neq. Qed.
Lemma str_is_empty_false s : str_is_empty s = false <-> s <> "".
Proof. by destruct s. Qed.
Lemma str_eqb_refl s : str_eqb s s = true.
Proof. apply String.eqb_refl. Qed.
Lemma str_neqb_refl s : str_neqb s s = false.
Proof. by apply str_neqb_false. Qed.
#[export] Hint Rewrite str_eqb_refl str_neqb_refl : rust.

Lemma strip_prefix_spec p s r : strip_prefix p s = Some r <-> s = (p +:+ r)%string.
Proof.
  revert s; induction p as [|a p IH]; intros s; cbn.
  - split; [by intros [= ->]|by intros ->].
  - destruct s as [|b s]; [done|]. destruct (Ascii.eqb_spec a b) as [->|Hne].
    + rewrite IH. split; [by intros ->|by intros [= ->]].
    + split; [done|]. by intros [= -> ->].
Qed.

Lemma str_cons_app a s t : String a s +:+ t = String a (s +:+ t).
Proof. done. Qed.
Lemma str_app_nil s : s +:+ EmptyString = s.
Proof. induction s as [|a s IH]; [done|]. by rewrite str_cons_app, IH. Qed.
Lemma str_app_assoc s t u : (s +:+ t) +:+ u = s +:+ (t +:+ u).
Proof. induction s as [|a s IH]; [done|]. by rewrite !str_cons_app, IH. Qed.

Lemma str_length_app s t : String.length (s +:+ t) = (String.length s + String.length t)%nat.
Proof. induction s as [|a s IH]; cbn; [done|]. by rewrite <- IH. Qed.

Lemma str_drop_app s t : str_drop (String.length s) (s +:+ t) = t.
Proof. induction s as [|a s IH]; [by destruct t|]. cbn. apply IH. Qed.

Lemma str_all_spec p s : str_all p s = true <-> Forall (fun a => p a = true) (String.list_ascii_of_string s).
Proof.
  induction s as [|a s IH]; cbn; [split; [constructor|done]|].
  by rewrite andb_true_iff, Forall_cons_iff, IH.
Qed.

Lemma str_all_impl (p q : ascii -> bool) s :
  (forall a, p a = true -> q a = true) -> str_all p s = true -> str_all q s = true.
Proof.
  intros Hpq. induction s as [|a s IH]; cbn; [done|]. rewrite !andb_true_iff. naive_solver.
Qed.

(** The two spellings of the canonical digest test found in the modules:
    [len() == 71 && starts_with("sha256:") && value[7..]...] and
    [strip_prefix("sha256:")] followed by a test of the component. *)
Definition digest_by_slice (value : string) : bool :=
  (str_len value =? 71) && starts_with "sha256:" value
  && str_all lower_hex_byte (str_drop 7 value).
Definition digest_by_prefix (value : string) : option string :=
  match strip_prefix "sha256:" value with
  | Some component =>
      if (str_len component =? 64) && str_all lower_hex_byte component
      then Some component else None
  | None => None
  end.

Lemma digest_spellings_agree value :
  digest_by_slice value = true <-> exists component, digest_by_prefix value = Some component.
Proof.
  unfold digest_by_slice, digest_by_prefix, starts_with.
  destruct (strip_prefix "sha256:" value) as [c|] eqn:E.
  - apply strip_prefix_spec in E as ->.
    change 7%nat with (String.length "sha256:"). rewrite str_drop_app.
    unfold str_len. rewrite str_length_app.
    replace (N.of_nat (String.length "sha256:" + String.length c) =? 71)
      with (N.of_nat (String.length c) =? 64).
    2: { cbn [String.length]. destruct (N.eqb_spec (N.of_nat (String.length c)) 64), (N.eqb_spec (N.of_nat (7 + String.length c)) 71); lia. }
    rewrite andb_true_r. destruct (_ && _); naive_solver.
  - rewrite andb_false_r. naive_solver.
Qed.

Lemma split_char_nonempty c s : split_char c s <> [].
Proof. destruct s as [|a s]; cbn; [done|]. destruct (Ascii.eqb a c); [done|]. by destruct (split_char c s). Qed.

(** Joining with the separator undoes [split]. *)
Fixpoint str_join (c : ascii) (l : list string) : string :=
  match l with
  | [] => EmptyString
  | [w] => w
  | w :: l' => w +:+ String c (str_join c l')
  end.

Lemma split_join c s : str_join c (split_char c s) = s.
Proof.
  induction s as [|a s IH]; cbn; [done|]. destruct (Ascii.eqb_spec a c) as [->|].
  - destruct (split_char c s) as [|w ws] eqn:E; [by apply split_char_nonempty in E|].
    rewrite <- IH. done.
  - destruct (split_char c s) as [|w [|w' ws]] eqn:E; [by apply split_char_nonempty in E|..].
    + cbn in *. by rewrite IH.
    + rewrite <- IH. done.
Qed.

Lemma split_no_sep c s w : w ∈ split_char c s -> contains_char c w = false.
Proof.
  unfold contains_char, str_any. setoid_rewrite negb_false_iff.
  revert w; induction s as [|a s IH]; intros w; cbn.
  - rewrite list_elem_of_singleton. by intros ->.
  - destruct (Ascii.eqb_spec a c) as [->|Hne].
    + rewrite elem_of_cons. intros [->|?]; [done|]. by apply IH.
    + destruct (split_char c s) as [|w' ws] eqn:E; [by apply split_char_nonempty in E|].
      rewrite elem_of_cons. intros [->|?].
      * cbn. rewrite (IH w') by set_solver. rewrite andb_true_r, negb_true_iff.
        by apply Ascii.eqb_neq.
      * apply IH. set_solver.
Qed.

Lemma u64_checked_add_some a b c : u64_checked_add a b = Some c <-> c = a + b /\ a + b <= u64_max.
Proof.
  unfold u64_checked_add. destruct (N.leb_spec (a + b) u64_max); naive_solver lia.
Qed.
Lemma u32_checked_add_some a b c : u32_checked_add a b = Some c <-> c = a + b /\ a + b <= u32_max.
Proof.
  unfold u32_checked_add. destruct (N.leb_spec (a + b) u32_max); naive_solver lia.
Qed.

Lemma vlen_nil {A} : vlen (@nil A) = 0.
Proof. done. Qed.
Lemma vlen_cons {A} (a : A) l : vlen (a :: l) = vlen l + 1.
Proof. unfold vlen. cbn [length]. lia. Qed.
Lemma vlen_app {A} (l k : list A) : vlen (l ++ k) = vlen l + vlen k.
Proof. unfold vlen. rewrite length_app. lia. Qed.
#[export] Hint Rewrite @vlen_nil @vlen_cons @vlen_app : rust.

#[export] Instance byte_EqDecision : EqDecision byte := Byte.byte_eq_dec.
