(* ===== verification/Worklist.v ===== *)
(** * Worklist reachability

    The breadth-first loops of incremental_v2.rs and thread_flow_cfg.rs have one
    shape: a set of visited elements, a queue of elements whose successors are
    still to be looked at, and a [while let Some(x) = queue.pop_front()] loop that
    pushes the successors it had not seen.  The loop takes a fuel argument; the
    lemmas show how much is enough and that the result is the reachable set. *)

From S2P Require Import Prelude Order Collections Text.

Section Bfs.
Context {A : Type} `{LawfulOrd A} (succ : A -> list A).

(** [if visited.insert(d) { queue.push_back(d) }]. *)
Definition push_new (st : BTreeSet A * list A) (d : A) : BTreeSet A * list A :=
  if bset_contains d st.1 then st else (bset_insert d st.1, st.2 ++ [d]).

(** [None] when the fuel runs out before the queue is empty. *)
Fixpoint bfs (fuel : nat) (visited : BTreeSet A) (queue : list A) : option (BTreeSet A) :=
  match queue, fuel with
  | [], _ => Some visited
  | _ :: _, O => None
  | x :: rest, S fuel' =>
      let st := foldl push_new (visited, rest) (succ x) in
      bfs fuel' st.1 st.2
  end.

Definition edge (x y : A) : Prop := y ∈ succ x.
Definition reach (start : list A) (x : A) : Prop := exists s, s ∈ start /\ rtc edge s x.

(** Elements of the universe not visited yet. *)
Definition remaining (U : list A) (visited : BTreeSet A) : nat :=
  length (List.filter (fun u => negb (bset_contains u visited)) U).

Record bfs_inv (start : list A) (visited : BTreeSet A) (queue : list A) : Prop := mkBfsInv {
  bfs_wf : bset_wf visited;
  bfs_start : forall s, s ∈ start -> s ∈ visited;
  bfs_queue : forall x, x ∈ queue -> x ∈ visited;
  bfs_sound : forall x, x ∈ visited -> reach start x;
  bfs_closed : forall x, x ∈ visited -> x ∈ queue \/ (forall y, edge x y -> y ∈ visited)
}.

Lemma remaining_insert U v d : d ∈ U -> d ∉ v ->
  (remaining U (bset_insert d v) < remaining U v)%nat.
Proof.
  unfold remaining. intros Hin Hv.
  assert (forall u, bset_contains u (bset_insert d v) = false -> bset_contains u v = false) as Hmono.
  { intros u. rewrite !bset_contains_false, bset_insert_elem. naive_solver. }
  assert (forall l, length (List.filter (fun u => negb (bset_contains u (bset_insert d v))) l) <=
    length (List.filter (fun u => negb (bset_contains u v)) l))%nat as Hle.
  { induction l as [|u l IH]; cbn; [done|]. specialize (Hmono u).
    destruct (bset_contains u (bset_insert d v)), (bset_contains u v); cbn; naive_solver lia. }
  apply list_elem_of_split in Hin as (l1 & l2 & ->).
  rewrite !List.filter_app, !length_app. cbn [List.filter].
  apply bset_contains_false in Hv. rewrite Hv.
  assert (bset_contains d (bset_insert d v) = true) as ->.
  { apply bset_contains_spec, bset_insert_elem. by left. }
  cbn. pose proof (Hle l1). pose proof (Hle l2). lia.
Qed.

(** What a pass over the successors of one element does. *)
Lemma push_all_spec U ds : forall v q st,
  bset_wf v -> (forall d, d ∈ ds -> d ∈ U) -> foldl push_new (v, q) ds = st ->
  bset_wf st.1 /\
  (forall x, x ∈ st.1 <-> x ∈ v \/ x ∈ ds) /\
  (forall x, x ∈ q -> x ∈ st.2) /\
  (forall x, x ∈ st.2 -> x ∈ q \/ x ∈ ds) /\
  (forall x, x ∈ st.1 -> x ∈ v \/ x ∈ st.2) /\
  (length st.2 + remaining U st.1 <= length q + remaining U v)%nat.
Proof.
  induction ds as [|d ds IH]; intros v q st Hv HU.
  { intros <-. cbn. split_and!; try done; intros x; rewrite ?elem_of_nil; tauto. }
  cbn [foldl]. unfold push_new at 2. cbn [fst snd].
  assert (forall d', d' ∈ ds -> d' ∈ U) as HU' by (intros; apply HU; by right).
  destruct (bset_contains d v) eqn:E.
  - apply bset_contains_spec in E. intros Hst. destruct (IH v q st Hv HU' Hst) as (H1 & H2 & H3 & H4 & H5 & H6).
    split_and!; try done.
    + intros x. rewrite H2, elem_of_cons. naive_solver.
    + intros x Hx. rewrite elem_of_cons. destruct (H4 x Hx); auto.
  - apply bset_contains_false in E.
    intros Hst.
    destruct (IH (bset_insert d v) (q ++ [d]) st (bset_insert_wf _ _ Hv) HU' Hst) as (H1 & H2 & H3 & H4 & H5 & H6).
    split_and!; try done.
    + intros x. rewrite H2, bset_insert_elem, elem_of_cons. naive_solver.
    + intros x Hx. apply H3, elem_of_app. by left.
    + intros x Hx. rewrite elem_of_cons. destruct (H4 x Hx) as [Hq|]; [|auto].
      apply elem_of_app in Hq as [|Hq%list_elem_of_singleton]; auto.
    + intros x Hx. destruct (H5 x Hx) as [Hi|]; [|auto].
      apply bset_insert_elem in Hi as [->|]; [|auto]. right. apply H3, elem_of_app. right. by left.
    + pose proof (remaining_insert U v d (HU d (list_elem_of_here _ _)) E).
      rewrite length_app in H6. cbn in H6. lia.
Qed.

Lemma bfs_inv_step U start v x q :
  (forall y d, d ∈ succ y -> d ∈ U) -> bfs_inv start v (x :: q) ->
  let st := foldl push_new (v, q) (succ x) in
  bfs_inv start st.1 st.2 /\ (length st.2 + remaining U st.1 <= length q + remaining U v)%nat.
Proof.
  intros HU [Hw Hs Hq Hr Hc] st.
  destruct (push_all_spec U (succ x) v q st Hw (HU x) eq_refl) as (H1 & H2 & H3 & H4 & H5 & H6).
  split; [|done].
  assert (x ∈ v) as Hx by (apply Hq; left). split.
  - done.
  - intros s Hin. apply H2. left. by apply Hs.
  - intros y Hy. apply H2. destruct (H4 y Hy); [left; apply Hq; by right|by right].
  - intros y [Hy|Hy]%H2; [by apply Hr|]. destruct (Hr x Hx) as (s & Hin & Hrtc).
    exists s. split; [done|]. by eapply rtc_r.
  - intros y Hy. destruct (H5 y Hy) as [Hv|]; [|by left].
    destruct (Hc y Hv) as [[->|Hyq]%elem_of_cons|Hcl].
    + right. intros z Hz. apply H2. by right.
    + left. by apply H3.
    + right. intros z Hz. apply H2. left. by apply Hcl.
Qed.

Lemma bfs_terminates U start fuel : forall v q,
  (forall y d, d ∈ succ y -> d ∈ U) -> bfs_inv start v q ->
  (length q + remaining U v <= fuel)%nat ->
  exists r, bfs fuel v q = Some r /\ bfs_inv start r [].
Proof.
  induction fuel as [|fuel IH]; intros v [|x q] HU Hinv Hle; cbn in Hle.
  - by exists v.
  - lia.
  - by exists v.
  - destruct (bfs_inv_step U start v x q HU Hinv) as [Hinv' Hle'].
    cbn [bfs]. apply IH; [done|done|lia].
Qed.

Lemma bfs_inv_start start : bfs_inv start (bset_of_list start) start.
Proof.
  split; [apply bset_of_list_wf|..]; intros x; rewrite ?bset_of_list_elem; auto.
  intros Hx. exists x. split; [done|apply rtc_refl].
Qed.

Lemma bfs_inv_done start r : bfs_inv start r [] -> forall x, x ∈ r <-> reach start x.
Proof.
  intros [_ Hs _ Hr Hc] x. split; [apply Hr|]. intros (s & Hin & Hrtc).
  apply Hs in Hin. revert Hin. induction Hrtc as [|s y z He _ IH]; [done|].
  intros Hin. apply IH. destruct (Hc s Hin) as [[]%elem_of_nil|Hcl]. by apply Hcl.
Qed.

(** The loop started on a list of elements ends with the elements reachable from
    them, in order, when the fuel is the size of the start and of any set that
    contains all successors. *)
Lemma bfs_reach U start fuel :
  (forall y d, d ∈ succ y -> d ∈ U) -> (length start + length U <= fuel)%nat ->
  exists r, bfs fuel (bset_of_list start) start = Some r /\ bset_wf r /\ (forall x, x ∈ r <-> reach start x).
Proof.
  intros HU Hle.
  destruct (bfs_terminates U start fuel _ _ HU (bfs_inv_start start)) as (r & Hr & Hinv).
  { unfold remaining. pose proof (List.filter_length_le (fun u => negb (bset_contains u (bset_of_list start))) U). lia. }
  exists r. split_and!; [done|apply Hinv|by apply bfs_inv_done].
Qed.
End Bfs.
