(* ===== verification/Json.v ===== *)
(** * JSON values

    [serde_json::Value] in this workspace keeps the insertion order of object
    keys (the lock file enables the ordered map), so an object is the list of its
    entries.  [map_insert] and [map_collect] are the ordered map's [insert] (a
    repeated key keeps its place and takes the new value) and [collect]. *)

From S2P Require Import Prelude Order Collections Text.

Inductive Number : Type :=
| PosInt (n : N)
| NegInt (z : Z)
| Float (bits : N).

Inductive Value : Type :=
| JNull
| JBool (b : bool)
| JNumber (n : Number)
| JString (s : string)
| JArray (items : list Value)
| JObject (entries : list (string * Value)).

Section ValueInd.
Context (P : Value -> Prop).
Hypothesis HNull : P JNull.
Hypothesis HBool : forall b, P (JBool b).
Hypothesis HNumber : forall n, P (JNumber n).
Hypothesis HString : forall s, P (JString s).
Hypothesis HArray : forall l, Forall P l -> P (JArray l).
Hypothesis HObject : forall m, Forall (fun e => P e.2) m -> P (JObject m).

Fixpoint Value_ind' (v : Value) : P v :=
  match v with
  | JNull => HNull
  | JBool b => HBool b
  | JNumber n => HNumber n
  | JString s => HString s
  | JArray l => HArray l
      ((fix go (l : list Value) : Forall P l :=
          match l with
          | [] => Forall_nil P
          | a :: l' => Forall_cons P a l' (Value_ind' a) (go l')
          end) l)
  | JObject m => HObject m
      ((fix go (m : list (string * Value)) : Forall (fun e => P e.2) m :=
          match m with
          | [] => Forall_nil _
          | (k, a) :: m' => Forall_cons (fun e => P e.2) (k, a) m' (Value_ind' a) (go m')
          end) m)
  end.
End ValueInd.

#[export] Instance Number_eq_dec : EqDecision Number.
Proof. solve_decision. Defined.

Fixpoint Value_eq_dec (v w : Value) : {v = w} + {v <> w}.
Proof.
  refine (match v, w with
    | JNull, JNull => left eq_refl
    | JBool a, JBool b => cast_if (decide (a = b))
    | JNumber a, JNumber b => cast_if (decide (a = b))
    | JString a, JString b => cast_if (decide (a = b))
    | JArray l, JArray k => cast_if (@list_eq_dec Value Value_eq_dec l k)
    | JObject l, JObject k => cast_if
        (@list_eq_dec (string * Value) (@prod_eq_dec string _ Value Value_eq_dec) l k)
    | _, _ => right _
    end); abstract congruence.
Defined.
#[export] Instance Value_EqDecision : EqDecision Value := Value_eq_dec.

Fixpoint map_insert (k : string) (v : Value) (m : list (string * Value)) : list (string * Value) :=
  match m with
  | [] => [(k, v)]
  | (k', v') :: m' => if String.eqb k k' then (k, v) :: m' else (k', v') :: map_insert k v m'
  end.
Definition map_collect (l : list (string * Value)) : list (string * Value) :=
  foldl (fun m e => map_insert e.1 e.2 m) [] l.
Fixpoint map_get (k : string) (m : list (string * Value)) : option Value :=
  match m with
  | [] => None
  | (k', v) :: m' => if String.eqb k k' then Some v else map_get k m'
  end.

(** [value.get(k)] and [value.as_str()]. *)
Definition value_get (k : string) (v : Value) : option Value :=
  match v with JObject m => map_get k m | _ => None end.
Definition as_str (v : Value) : option string :=
  match v with JString s => Some s | _ => None end.

Lemma map_insert_fresh k v m : k ∉ m.*1 -> map_insert k v m = m ++ [(k, v)].
Proof.
  induction m as [|[k' v'] m IH]; cbn; [done|]. rewrite not_elem_of_cons. intros [Hne Hn].
  destruct (String.eqb_spec k k'); [done|]. by rewrite IH.
Qed.

Lemma map_collect_NoDup l : NoDup l.*1 -> map_collect l = l.
Proof.
  unfold map_collect.
  enough (forall acc, NoDup (acc ++ l).*1 ->
            foldl (fun m e => map_insert e.1 e.2 m) acc l = acc ++ l) as Hgen by (apply (Hgen [])).
  induction l as [|[k v] l IH]; intros acc Hd; cbn; [by rewrite app_nil_r|].
  rewrite map_insert_fresh.
  - rewrite IH, <- app_assoc; [done|]. by rewrite <- app_assoc.
  - rewrite fmap_app, list.NoDup_app in Hd. destruct Hd as (_ & Hd & _). cbn in Hd.
    intros Hin. apply (Hd k Hin). left.
Qed.

(** An object as the code builds it never repeats a key. *)
Fixpoint value_wf (v : Value) : Prop :=
  match v with
  | JArray l => (fix go l := match l with [] => True | a :: l' => value_wf a /\ go l' end) l
  | JObject m => NoDup m.*1 /\
      (fix go (m : list (string * Value)) :=
         match m with [] => True | e :: m' => value_wf e.2 /\ go m' end) m
  | _ => True
  end.

Lemma value_wf_array l : value_wf (JArray l) <-> Forall value_wf l.
Proof. cbn. induction l as [|a l IH]; [done|]. by rewrite Forall_cons_iff, IH. Qed.
Lemma value_wf_object m : value_wf (JObject m) <-> NoDup m.*1 /\ Forall (fun e => value_wf e.2) m.
Proof.
  cbn. enough (forall k, (fix go (m : list (string * Value)) :=
    match m with [] => True | e :: m' => value_wf e.2 /\ go m' end) k <->
    Forall (fun e => value_wf e.2) k) as Hk by (by rewrite Hk).
  induction k as [|e k IH]; [done|]. by rewrite Forall_cons_iff, IH.
Qed.
