(* ===== verification/Canonical.v ===== *)
(** * Canonical JSON and content hashes (canonical.rs, text_authority.rs)

    [sort_value] orders the keys of every object, [bytes] serializes the sorted
    value and [hash] is the prefixed SHA-256 of those bytes.  The serializer of
    serde_json, the SHA-256 of sha2 and the normalizer of unicode-normalization
    are not part of the repository: they are the fields of [Primitives], used
    with the laws of [PrimitivesLaws].

    [jeq] is the equality of JSON documents: objects are compared without regard
    to the order of their keys.  The theorems show that [sort_value] picks one
    representative per document, that the strict parser refuses repeated keys at
    every depth, and what the Unicode admission test accepts. *)

From S2P Require Import Prelude Order Collections Text Json.

Class Primitives := {
  to_vec : Value -> list byte;          (* serde_json::to_vec of a Value *)
  sha256_hex : list byte -> string;     (* hex::encode(Sha256::digest(..)) *)
  is_nfc : string -> bool               (* unicode_normalization: value.nfc().eq(value.chars()) *)
}.

Class PrimitivesLaws (P : Primitives) : Prop := {
  sha256_hex_len : forall b, str_len (sha256_hex b) = 64;
  sha256_hex_lower : forall b, str_all lower_hex_byte (sha256_hex b) = true
}.

Fixpoint sort_value (value : Value) : Value :=
  match value with
  | JArray items => JArray (map sort_value items)
  | JObject m =>
      (* The key of an entry is not touched by the recursive call, so sorting
         the rewritten entries is sorting the entries: see sort_value_object. *)
      JObject (map_collect (sort_by (cmp_on fst) (map (fun e => (e.1, sort_value e.2)) m)))
  | other => other
  end.

Section Hash.
Context {P : Primitives}.

Definition value_bytes (input : Value) : list byte := to_vec (sort_value input).
Definition hash_bytes (input : list byte) : string := "sha256:" +:+ sha256_hex input.
Definition hash (input : Value) : string := hash_bytes (value_bytes input).

Fixpoint json_strings_are_nfc (value : Value) (depth : N) : bool :=
  if 64 <? depth then false else
  match value with
  | JString s => is_nfc s
  | JArray values => forallb (fun v => json_strings_are_nfc v (depth + 1)) values
  | JObject values =>
      forallb (fun e => is_nfc e.1 && json_strings_are_nfc e.2 (depth + 1)) values
  | _ => true
  end.
End Hash.

(* --------------------------------------------------------------------- *)
(** ** The strict parser *)

(** What the JSON deserializer hands to the visitor; a map is the sequence of
    its entries as written, repeated keys included.  [EvF64 None] is a number
    that is not finite. *)
Inductive Event : Type :=
| EvUnit
| EvBool (b : bool)
| EvI64 (z : Z)
| EvU64 (n : N)
| EvF64 (finite_bits : option N)
| EvStr (s : string)
| EvSeq (l : list Event)
| EvMap (m : list (string * Event)).

Definition number_from_i64 (z : Z) : Number :=
  if (0 <=? z)%Z then PosInt (Z.to_N z) else NegInt z.

Definition map_contains_key (k : string) (m : list (string * Value)) : bool :=
  match map_get k m with Some _ => true | None => false end.

Fixpoint visit (e : Event) : Result string Value :=
  match e with
  | EvUnit => Ok JNull
  | EvBool b => Ok (JBool b)
  | EvI64 z => Ok (JNumber (number_from_i64 z))
  | EvU64 n => Ok (JNumber (PosInt n))
  | EvF64 (Some bits) => Ok (JNumber (Float bits))
  | EvF64 None => Err "JSON number is not finite"
  | EvStr s => Ok (JString s)
  | EvSeq l =>
      let? values :=
        (fix visit_seq (values : list Value) (l : list Event) : Result string (list Value) :=
           match l with
           | [] => Ok values
           | e :: l' => let? v := visit e in visit_seq (values ++ [v]) l'
           end) [] l in
      Ok (JArray values)
  | EvMap m =>
      let? values :=
        (fix visit_map (values : list (string * Value)) (m : list (string * Event))
           : Result string (list (string * Value)) :=
           match m with
           | [] => Ok values
           | (key, e) :: m' =>
               if map_contains_key key values then Err "duplicate JSON object key"
               else let? v := visit e in visit_map (map_insert key v values) m'
           end) [] m in
      Ok (JObject values)
  end.

(** [parse_json_strict]: [read] is the deserializer, returning the events of the
    first document and whether only whitespace follows it. *)
Definition parse_json_strict (read : list byte -> option (Event * bool)) (input : list byte)
  : Result string Value :=
  match read input with
  | None => Err "syntax error"
  | Some (e, at_end) =>
      let? value := visit e in
      if at_end then Ok value else Err "trailing characters"
  end.

(* --------------------------------------------------------------------- *)
(** ** Equality of documents and canonical form *)

Inductive jeq : Value -> Value -> Prop :=
| jeq_null : jeq JNull JNull
| jeq_bool b : jeq (JBool b) (JBool b)
| jeq_number n : jeq (JNumber n) (JNumber n)
| jeq_string s : jeq (JString s) (JString s)
| jeq_array l k : Forall2 jeq l k -> jeq (JArray l) (JArray k)
| jeq_object m k k' :
    Permutation k k' -> Forall2 (fun e d => e.1 = d.1 /\ jeq e.2 d.2) m k' ->
    jeq (JObject m) (JObject k).

(** Every object has its keys in strictly increasing order. *)
Inductive canonical_form : Value -> Prop :=
| cf_null : canonical_form JNull
| cf_bool b : canonical_form (JBool b)
| cf_number n : canonical_form (JNumber n)
| cf_string s : canonical_form (JString s)
| cf_array l : Forall canonical_form l -> canonical_form (JArray l)
| cf_object m : StronglySorted lt_ord m.*1 -> Forall (fun e => canonical_form e.2) m ->
    canonical_form (JObject m).

Definition sort_entry (e : string * Value) : string * Value := (e.1, sort_value e.2).

Lemma sort_entry_keys m : (map sort_entry m).*1 = m.*1.
Proof. induction m as [|e m IH]; [done|]. cbn [map]. by rewrite !fmap_cons, IH. Qed.

Lemma sort_by_map_keys (m : list (string * Value)) :
  sort_by (cmp_on fst) (map sort_entry m) = map sort_entry (sort_by (cmp_on fst) m).
Proof.
  assert (forall e k, insert_by (cmp_on fst) (sort_entry e) (map sort_entry k)
                      = map sort_entry (insert_by (cmp_on fst) e k)) as Hins.
  { intros e k. induction k as [|d k IH]; cbn [map insert_by]; [done|].
    change (cmp_on fst (sort_entry e) (sort_entry d)) with (cmp_on fst e d).
    destruct (cmp_on fst e d); [done|done|]. by rewrite IH. }
  induction m as [|e m IH]; [done|]. cbn [map]. rewrite !sort_by_cons, IH. apply Hins.
Qed.

(** The equation of the source: sort the entries, then rewrite each value. *)
Lemma sort_value_object m :
  sort_value (JObject m) =
  JObject (map_collect (map (fun e => (e.1, sort_value e.2)) (sort_by (cmp_on fst) m))).
Proof. cbn [sort_value]. f_equal. f_equal. apply (sort_by_map_keys m). Qed.

Lemma sort_value_object_wf m :
  NoDup m.*1 -> sort_value (JObject m) = JObject (sort_by (cmp_on fst) (map sort_entry m)).
Proof.
  intros Hd. cbn [sort_value]. f_equal. apply map_collect_NoDup. rewrite sort_by_perm.
  change (map _ m) with (map sort_entry m). by rewrite sort_entry_keys.
Qed.


Lemma Forall_mp {A} (P Q : A -> Prop) l :
  Forall (fun a => P a -> Q a) l -> Forall P l -> Forall Q l.
Proof. rewrite !list.Forall_forall. naive_solver. Qed.

(** Sorting yields a canonical form. *)
Lemma sort_value_canonical v : value_wf v -> canonical_form (sort_value v).
Proof.
  induction v as [| | | |l IH|m IH] using Value_ind'; intros Hwf; [by constructor..| |].
  - apply value_wf_array in Hwf. constructor. apply Forall_map. by eapply Forall_mp.
  - apply value_wf_object in Hwf as [Hd Hwf]. rewrite sort_value_object_wf by done.
    constructor.
    + apply StronglySorted_fmap, sort_by_strict. change (fst <$> ?l) with (l.*1).
      by rewrite sort_entry_keys.
    + rewrite sort_by_perm. apply Forall_map. cbn. exact (Forall_mp _ _ _ IH Hwf).
Qed.

Lemma sort_value_fixed v : canonical_form v -> sort_value v = v.
Proof.
  induction v as [| | | |l IH|m IH] using Value_ind'; intros Hcf; try done.
  - inversion_clear Hcf as [| | | |? Hl|]. cbn. f_equal.
    induction l as [|a l IHl]; [done|]. cbn. inversion_clear IH. inversion_clear Hl.
    f_equal; auto.
  - inversion_clear Hcf as [| | | | |? Hs Hm].
    assert (map sort_entry m = m) as Hmap.
    { clear Hs. induction m as [|[k a] m IHm]; [done|].
      inversion_clear IH as [|? ? Ha]. inversion_clear Hm. cbn in *. unfold sort_entry at 1; cbn.
      rewrite Ha by done. f_equal. auto. }
    apply (StronglySorted_fmap lt_ord fst) in Hs. rewrite sort_value_object_wf, Hmap.
    + rewrite sort_by_id; [done|by apply strict_sorted_le].
    + by apply (strict_sorted_NoDup fst).
Qed.

Lemma sort_value_jeq v w :
  value_wf v -> value_wf w -> jeq v w -> sort_value v = sort_value w.
Proof.
  revert w; induction v as [| | | |l IH|m IH] using Value_ind'; intros w Hv Hw Heq;
    inversion Heq as [| | | |? k Hl|? k k' Hp Hm]; subst; try done.
  - cbn. f_equal. apply value_wf_array in Hv, Hw. clear Heq.
    induction Hl as [|a b l k Hab Hl IHl]; [done|]. cbn.
    inversion_clear IH as [|? ? Ha IHt]. inversion_clear Hv. inversion_clear Hw.
    f_equal; auto.
  - apply value_wf_object in Hv as [Hdm Hv]. apply value_wf_object in Hw as [Hdk Hw].
    rewrite !sort_value_object_wf by done. f_equal.
    assert (map sort_entry m = map sort_entry k') as ->.
    { rewrite Hp in Hw. clear -IH Hm Hv Hw. induction Hm as [|[a x] [b y] m k' [Hk Hxy] Hm IHm].
      - done.
      - inversion_clear IH as [|? ? Hx IHt]. inversion_clear Hv. inversion_clear Hw.
        cbn in *. subst b. unfold sort_entry at 1 3; cbn. f_equal; [f_equal; auto|auto]. }
    symmetry. apply sort_by_arrival; [by apply Permutation_map|].
    change (fst <$> ?l) with (l.*1). by rewrite sort_entry_keys.
Qed.

Lemma map_eq_Forall2 {A B} (f : A -> B) l k :
  map f l = map f k <-> Forall2 (fun a b => f a = f b) l k.
Proof.
  revert k; induction l as [|a l IH]; intros [|b k]; cbn; split; inversion 1; subst; try done.
  - constructor; [done|]. by apply IH.
  - f_equal; [done|]. by apply IH.
Qed.

Lemma Forall2_mp_l {A B} (P Q : A -> B -> Prop) l k :
  Forall (fun a => forall b, P a b -> Q a b) l -> Forall2 P l k -> Forall2 Q l k.
Proof. intros Hl H2. induction H2; inversion_clear Hl; constructor; auto. Qed.

Lemma jeq_of_sort_value v w :
  value_wf v -> value_wf w -> sort_value v = sort_value w -> jeq v w.
Proof.
  revert w; induction v as [| | | |l IH|m IH] using Value_ind'; intros w Hv Hw Heq;
    destruct w as [| | | |k|k]; try discriminate Heq; try (injection Heq as ->; constructor).
  - constructor.
  - constructor. injection Heq as Heq. apply map_eq_Forall2 in Heq.
    apply value_wf_array in Hv, Hw. clear -IH Heq Hv Hw.
    induction Heq; inversion_clear IH; inversion_clear Hv; inversion_clear Hw; constructor; auto.
  - apply value_wf_object in Hv as [Hdm Hv]. apply value_wf_object in Hw as [Hdk Hw].
    rewrite !sort_value_object_wf in Heq by done. injection Heq as Heq.
    assert (Permutation (map sort_entry m) (map sort_entry k)) as Hp.
    { by rewrite <- (sort_by_perm (cmp_on fst) (map sort_entry m)), Heq, sort_by_perm. }
    apply Permutation_map_inv in Hp as (k' & Hmap & Hp).
    apply (jeq_object _ _ k'); [done|]. apply map_eq_Forall2 in Hmap. rewrite Hp in Hw.
    clear -IH Hmap Hv Hw.
    induction Hmap as [|[a x] [b y] m k' [= -> Hxy] Hm IHm]; [constructor|].
    inversion_clear IH; inversion_clear Hv; inversion_clear Hw. constructor; [|by apply IHm].
    split; [done|]. cbn in *. auto.
Qed.

(** Equality of documents on well-formed values, as a partial equivalence: what
    [hash] and [value_bytes] may not distinguish. *)
Definition same_document (v w : Value) : Prop := value_wf v /\ value_wf w /\ jeq v w.

Lemma same_document_sort v w :
  same_document v w <-> value_wf v /\ value_wf w /\ sort_value v = sort_value w.
Proof.
  unfold same_document. split; intros (? & ? & ?); split_and!; auto using sort_value_jeq, jeq_of_sort_value.
Qed.

#[export] Instance same_document_per : RelationClasses.PER same_document.
Proof.
  split; [intros v w|intros u v w]; rewrite !same_document_sort; naive_solver congruence.
Qed.

#[export] Instance value_bytes_proper {P : Primitives} : Proper (same_document ==> eq) value_bytes.
Proof. intros v w Hvw. apply same_document_sort in Hvw as (_ & _ & He). unfold value_bytes. by rewrite He. Qed.

#[export] Instance hash_proper {P : Primitives} : Proper (same_document ==> eq) hash.
Proof. intros v w Hvw. unfold hash. by rewrite Hvw. Qed.

Lemma hash_bytes_digest {P : Primitives} {L : PrimitivesLaws P} b : digest_by_slice (hash_bytes b) = true.
Proof.
  apply digest_spellings_agree. unfold digest_by_prefix, hash_bytes.
  replace (strip_prefix "sha256:" ("sha256:" +:+ sha256_hex b)) with (Some (sha256_hex b)).
  - rewrite sha256_hex_len, sha256_hex_lower. cbn. eauto.
  - symmetry. by apply strip_prefix_spec.
Qed.

(* --------------------------------------------------------------------- *)
(** ** The strict parser *)

Section EventInd.
Context (P : Event -> Prop).
Hypothesis HAtom : forall e, (forall l, e <> EvSeq l) -> (forall m, e <> EvMap m) -> P e.
Hypothesis HSeq : forall l, Forall P l -> P (EvSeq l).
Hypothesis HMap : forall m, Forall (fun e => P e.2) m -> P (EvMap m).

Fixpoint Event_ind' (e : Event) : P e.
Proof.
  refine (match e with
  | EvSeq l => HSeq l
      ((fix go (l : list Event) : Forall P l :=
          match l with
          | [] => Forall_nil P
          | a :: l' => Forall_cons P a l' (Event_ind' a) (go l')
          end) l)
  | EvMap m => HMap m
      ((fix go (m : list (string * Event)) : Forall (fun e => P e.2) m :=
          match m with
          | [] => Forall_nil _
          | (k, a) :: m' => Forall_cons (fun e => P e.2) (k, a) m' (Event_ind' a) (go m')
          end) m)
  | _ => HAtom _ _ _
  end); discriminate.
Defined.
End EventInd.

(** A document without repeated keys, at any depth, and without numbers that are
    not finite. *)
Inductive event_ok : Event -> Prop :=
| ok_unit : event_ok EvUnit
| ok_bool b : event_ok (EvBool b)
| ok_i64 z : event_ok (EvI64 z)
| ok_u64 n : event_ok (EvU64 n)
| ok_f64 bits : event_ok (EvF64 (Some bits))
| ok_str s : event_ok (EvStr s)
| ok_seq l : Forall event_ok l -> event_ok (EvSeq l)
| ok_map m : NoDup m.*1 -> Forall (fun e => event_ok e.2) m -> event_ok (EvMap m).

Fixpoint visit_seq (values : list Value) (l : list Event) : Result string (list Value) :=
  match l with
  | [] => Ok values
  | e :: l' => let? v := visit e in visit_seq (values ++ [v]) l'
  end.
Fixpoint visit_map (values : list (string * Value)) (m : list (string * Event))
  : Result string (list (string * Value)) :=
  match m with
  | [] => Ok values
  | (key, e) :: m' =>
      if map_contains_key key values then Err "duplicate JSON object key"
      else let? v := visit e in visit_map (map_insert key v values) m'
  end.
Lemma visit_seq_eq l : visit (EvSeq l) = (let? values := visit_seq [] l in Ok (JArray values)).
Proof. done. Qed.
Lemma visit_map_eq m : visit (EvMap m) = (let? values := visit_map [] m in Ok (JObject values)).
Proof. done. Qed.

Lemma map_contains_key_spec k m : map_contains_key k m = true <-> k ∈ m.*1.
Proof.
  unfold map_contains_key. induction m as [|[k' v] m IH]; cbn; [set_solver|].
  rewrite elem_of_cons. destruct (String.eqb_spec k k') as [->|Hne]; [naive_solver|].
  rewrite IH. naive_solver.
Qed.

Lemma visit_seq_ok acc l vs :
  visit_seq acc l = Ok vs <-> exists ws, vs = acc ++ ws /\ Forall2 (fun e v => visit e = Ok v) l ws.
Proof.
  revert acc; induction l as [|e l IH]; intros acc; cbn.
  - split.
    + intros [= <-]. exists []. by rewrite app_nil_r.
    + intros (ws & -> & H2). inversion H2. by rewrite app_nil_r.
  - rewrite result_bind_ok. setoid_rewrite IH. split.
    + intros (v & Hv & ws & -> & H2). exists (v :: ws). rewrite <- app_assoc. by split; [|constructor].
    + intros (ws & -> & H2). apply Forall2_cons_inv_l in H2 as (v & ws' & Hv & Hws & ->).
      exists v. split; [done|]. exists ws'. by rewrite <- app_assoc.
Qed.

Lemma visit_map_ok acc m vs :
  NoDup acc.*1 ->
  visit_map acc m = Ok vs <->
  exists ws, vs = acc ++ ws /\ NoDup (acc ++ ws).*1 /\
             Forall2 (fun e d => e.1 = d.1 /\ visit e.2 = Ok d.2) m ws.
Proof.
  revert acc; induction m as [|[k e] m IH]; intros acc Hd; cbn.
  - split.
    + intros [= <-]. exists []. by rewrite app_nil_r.
    + intros (ws & -> & _ & H2). inversion H2. by rewrite app_nil_r.
  - destruct (map_contains_key k acc) eqn:Hk.
    + apply map_contains_key_spec in Hk. split; [done|].
      intros (ws & -> & Hd' & H2). apply Forall2_cons_inv_l in H2 as ([k' v] & ws' & [Heq _] & _ & ->).
      cbn in Heq; subst k'. rewrite fmap_app, list.NoDup_app in Hd'.
      destruct Hd' as (_ & Hd' & _). exfalso. apply (Hd' k Hk). cbn. left.
    + assert (k ∉ acc.*1) as Hn by (intros Hin; apply map_contains_key_spec in Hin; congruence).
      rewrite result_bind_ok.
      assert (forall v, NoDup (map_insert k v acc).*1) as Hd'.
      { intros v. rewrite map_insert_fresh, fmap_app by done. apply list.NoDup_app.
        split_and!; [done|set_solver|]. cbn. apply NoDup_singleton. }
      split.
      * intros (v & Hv & Hgo). apply IH in Hgo as (ws & -> & Hnd & H2); [|done].
        rewrite map_insert_fresh in * by done. exists ((k, v) :: ws).
        rewrite <- app_assoc in *. split_and!; [done|done|]. by constructor.
      * intros (ws & -> & Hnd & H2). apply Forall2_cons_inv_l in H2 as ([k' v] & ws' & [Heq Hv] & Hws & ->).
        cbn in *; subst k'. exists v. split; [done|]. apply IH; [done|].
        rewrite map_insert_fresh by done. exists ws'. by rewrite <- app_assoc.
Qed.

Lemma Forall2_keys {B C} (R : string * B -> string * C -> Prop) m ws :
  Forall2 (fun e d => e.1 = d.1 /\ R e d) m ws -> m.*1 = ws.*1.
Proof. induction 1 as [|[] [] ? ? [??]]; cbn in *; [done|]. by f_equal. Qed.

Lemma visit_sound e v : visit e = Ok v -> event_ok e /\ value_wf v.
Proof.
  revert v; induction e as [e Hs Hm|l IH|m IH] using Event_ind'; intros v Hv.
  - destruct e as [| | | |[|]| | |]; cbn in Hv; try discriminate Hv; try (injection Hv as <-);
      try (split; [constructor|done]).
    + by destruct (Hs l).
    + by destruct (Hm m).
  - rewrite visit_seq_eq in Hv. ok_inv Hv. apply visit_seq_ok in Hok as (ws & -> & H2).
    cbn [app]. rewrite value_wf_array.
    enough (Forall event_ok l /\ Forall value_wf ws) as [??] by (by split; [constructor|]).
    induction H2; inversion_clear IH as [|? ? Hx Hl]; [done|].
    destruct (Hx _ H) as [??]. destruct (IHForall2 Hl) as [??]. by split; constructor.
  - rewrite visit_map_eq in Hv. ok_inv Hv.
    apply visit_map_ok in Hok as (ws & -> & Hd & H2); [|constructor]. cbn [app] in *.
    rewrite value_wf_object.
    enough (m.*1 = ws.*1 /\ Forall (fun e => event_ok e.2) m /\ Forall (fun e => value_wf e.2) ws)
      as (Hk & ? & ?) by (split; [constructor; [by rewrite Hk|done]|done]).
    split; [exact (Forall2_keys (fun e d => visit e.2 = Ok d.2) _ _ H2)|]. clear Hd.
    induction H2 as [|? ? ? ? [_ Hv] _ IH2]; inversion_clear IH as [|? ? Hx Hl]; [done|].
    destruct (Hx _ Hv) as [??]. destruct (IH2 Hl) as [??]. by split; constructor.
Qed.

Lemma visit_complete e : event_ok e -> exists v, visit e = Ok v.
Proof.
  induction e as [e Hs Hm|l IH|m IH] using Event_ind'; intros Hok.
  - inversion Hok; subst; cbn; eauto; exfalso; naive_solver.
  - inversion_clear Hok as [| | | | | |? Hl|].
    enough (exists ws, Forall2 (fun e v => visit e = Ok v) l ws) as (ws & H2).
    { exists (JArray ws). rewrite visit_seq_eq, (proj2 (visit_seq_ok [] l ws)); [done|]. by exists ws. }
    pose proof (Forall_mp _ _ _ IH Hl) as He. clear -He.
    induction He as [|e l [v Hv] _ (ws & Hws)]; eauto.
  - inversion_clear Hok as [| | | | | | |? Hd Hl].
    enough (exists ws, Forall2 (fun e d => e.1 = d.1 /\ visit e.2 = Ok d.2) m ws) as (ws & H2).
    { exists (JObject ws). rewrite visit_map_eq, (proj2 (visit_map_ok [] m ws ltac:(constructor))); [done|].
      exists ws. split_and!; [done| |done]. cbn. by rewrite <- (Forall2_keys (fun e d => visit e.2 = Ok d.2) _ _ H2). }
    pose proof (Forall_mp _ _ _ IH Hl) as He. clear -He.
    induction He as [|[k e] l [v Hv] _ (ws & Hws)]; [eauto|]. exists ((k, v) :: ws). by constructor.
Qed.

(* --------------------------------------------------------------------- *)
(** ** Unicode admission *)

Fixpoint strings_of (v : Value) : list string :=
  match v with
  | JString s => [s]
  | JArray l => flat_map strings_of l
  | JObject m => flat_map (fun e => e.1 :: strings_of e.2) m
  | _ => []
  end.

(** How many containers enclose the most deeply nested value. *)
Fixpoint nesting (v : Value) : N :=
  match v with
  | JArray l => foldr (fun a acc => N.max (nesting a + 1) acc) 0 l
  | JObject m => foldr (fun e acc => N.max (nesting e.2 + 1) acc) 0 m
  | _ => 0
  end.

Lemma foldr_max_le {A} (f : A -> N) l b :
  foldr (fun a acc => N.max (f a) acc) 0 l <= b <-> Forall (fun a => f a <= b) l.
Proof.
  induction l as [|a l IH]; cbn; [split; [constructor|lia]|].
  rewrite Forall_cons_iff, <- IH. lia.
Qed.

Lemma Forall_flat_map_iff {A B} (P : B -> Prop) (f : A -> list B) l :
  Forall P (flat_map f l) <-> Forall (fun a => Forall P (f a)) l.
Proof.
  induction l as [|a l IH]; cbn; [done|]. by rewrite Forall_app, Forall_cons_iff, IH.
Qed.

Lemma Forall_iff_2 {A} (P Q R : A -> Prop) l :
  Forall (fun a => P a <-> Q a /\ R a) l -> Forall P l <-> Forall Q l /\ Forall R l.
Proof. rewrite !list.Forall_forall. naive_solver. Qed.

Lemma forallb_iff {A} (f : A -> bool) l : forallb f l = true <-> Forall (fun a => f a = true) l.
Proof. rewrite List.forallb_forall, Forall_forall. done. Qed.

Lemma json_strings_are_nfc_iff {P : Primitives} v depth :
  json_strings_are_nfc v depth = true <->
  depth + nesting v <= 64 /\ Forall (fun s => is_nfc s = true) (strings_of v).
Proof.
  revert depth; induction v as [| | | |l IH|m IH] using Value_ind'; intros depth;
    cbn [json_strings_are_nfc nesting strings_of]; destruct (N.ltb_spec 64 depth) as [Hd|Hd];
    try (split; [done|lia]); try (split; [intros _; split; [lia|constructor]|done]).
  - rewrite Forall_cons_iff. split; [intros ?; split; [lia|done]|naive_solver].
  - rewrite forallb_iff, Forall_flat_map_iff.
    rewrite (Forall_iff_2 _ (fun a => nesting a + 1 <= 64 - depth)
               (fun a => Forall (fun s => is_nfc s = true) (strings_of a))).
    + rewrite <- foldr_max_le. set (n := foldr _ _ _). intuition lia.
    + eapply list.Forall_impl; [exact IH|]. cbn. intros a Ha. rewrite Ha. intuition lia.
  - rewrite forallb_iff, Forall_flat_map_iff.
    rewrite (Forall_iff_2 _ (fun e => nesting e.2 + 1 <= 64 - depth)
               (fun e => Forall (fun s => is_nfc s = true) (e.1 :: strings_of e.2))).
    + rewrite <- (foldr_max_le (fun e => nesting e.2 + 1)). set (n := foldr _ _ _). intuition lia.
    + eapply list.Forall_impl; [exact IH|]. cbn. intros a Ha.
      rewrite andb_true_iff, Ha, Forall_cons_iff. intuition lia.
Qed.

(* --------------------------------------------------------------------- *)
(** ** Properties *)

(** C2: canonicalization decides document equality: two well-formed JSON values
    sort to the same value exactly when they are equal up to the order of object
    keys at every depth. *)
Theorem sort_value_decides_document_equality v w :
  value_wf v -> value_wf w -> (sort_value v = sort_value w <-> jeq v w).
Proof. split; [by apply jeq_of_sort_value|by apply sort_value_jeq]. Qed.

(** The sorted value has strictly increasing keys in every object, and
    sorting again changes nothing. *)
Theorem sort_value_is_canonical v :
  value_wf v -> canonical_form (sort_value v) /\ sort_value (sort_value v) = sort_value v.
Proof.
  intros Hv. pose proof (sort_value_canonical v Hv). split; [done|]. by apply sort_value_fixed.
Qed.

(** The strict parser returns a value exactly for the documents that read
    completely, repeat no object key at any depth and have only finite numbers;
    the value it returns is well formed. *)
Theorem parse_json_strict_spec read input :
  ((exists v, parse_json_strict read input = Ok v) <->
   exists e, read input = Some (e, true) /\ event_ok e) /\
  (forall v, parse_json_strict read input = Ok v -> value_wf v).
Proof.
  unfold parse_json_strict. destruct (read input) as [[e at_end]|]; [|naive_solver].
  split.
  - split.
    + intros (v & Hv). ok_inv Hv. exists e. split; [done|]. by eapply visit_sound.
    + intros (e' & [= <- ->] & He). destruct (visit_complete _ He) as (v & ->). by exists v.
  - intros v Hv. ok_inv Hv. by eapply visit_sound.
Qed.

(** The Unicode admission test accepts a value at depth [d] exactly when no
    value sits more than 64 levels deep and every string and every object key is
    in normalization form C. *)
Theorem json_strings_are_nfc_spec {P : Primitives} v depth :
  json_strings_are_nfc v depth = true <->
  depth + nesting v <= 64 /\ Forall (fun s => is_nfc s = true) (strings_of v).
Proof. apply json_strings_are_nfc_iff. Qed.

Definition sample_left : Value :=
  JObject [("z", JObject [("b", JNumber (PosInt 1)); ("a", JNumber (PosInt 2))]); ("a", JNumber (PosInt 0))].
Definition sample_right : Value :=
  JObject [("a", JNumber (PosInt 0)); ("z", JObject [("a", JNumber (PosInt 2)); ("b", JNumber (PosInt 1))])].

Lemma sort_value_decides_document_equality_witness :
  sort_value sample_left = sort_value sample_right /\ jeq sample_left sample_right.
Proof.
  assert (sort_value sample_left = sort_value sample_right) as He by reflexivity.
  split; [exact He|]. apply sort_value_decides_document_equality; [| |exact He].
  - cbn. repeat (split || constructor); set_solver.
  - cbn. repeat (split || constructor); set_solver.
Defined.

Lemma sort_value_is_canonical_witness :
  canonical_form (sort_value sample_left) /\
  sort_value (sort_value sample_left) = sort_value sample_left.
Proof. apply sort_value_is_canonical. cbn. repeat (split || constructor); set_solver. Defined.
