(* ===== verification/Instances.v ===== *)
(** * A concrete instance of the external primitives

    The theorems hold for any serializer and hash that satisfy the stated laws.
    This file gives one such instance, used by the examples: a compact JSON
    writer and a 32-bit FNV checksum repeated to the width of a SHA-256. *)

From S2P Require Import Prelude Order Collections Text Json Canonical.

Definition hex_digit (n : N) : ascii :=
  ascii_of_N (if n <? 10 then 48 + n else 87 + n).

Fixpoint hex_pad (width : nat) (n : N) : string :=
  match width with
  | O => EmptyString
  | S w => hex_pad w (n / 16) +:+ String (hex_digit (n mod 16)) EmptyString
  end.

Definition fnv (b : list byte) : N :=
  foldl (fun h x => N.land (N.lxor h (Byte.to_N x) * 16777619) 4294967295) 2166136261 b.

Definition toy_sha256_hex (b : list byte) : string :=
  let h := hex_pad 8 (fnv b) in h +:+ h +:+ h +:+ h +:+ h +:+ h +:+ h +:+ h.

Definition quote : string := String (ascii_of_N 34) EmptyString.

Fixpoint escape (s : string) : string :=
  match s with
  | EmptyString => EmptyString
  | String a s' =>
      if Ascii.eqb a (ascii_of_N 10) then String (ascii_of_N 92) (String "n" (escape s'))
      else if Ascii.eqb a (ascii_of_N 34) || Ascii.eqb a (ascii_of_N 92)
      then String (ascii_of_N 92) (String a (escape s'))
      else String a (escape s')
  end.
Definition write_string (s : string) : string := quote +:+ escape s +:+ quote.

Fixpoint join_with (sep : string) (l : list string) : string :=
  match l with
  | [] => EmptyString
  | [x] => x
  | x :: l' => x +:+ sep +:+ join_with sep l'
  end.

Fixpoint write_value (v : Value) : string :=
  match v with
  | JNull => "null"
  | JBool true => "true"
  | JBool false => "false"
  | JNumber (PosInt n) => decimal n
  | JNumber (NegInt z) => "-" +:+ decimal (Z.to_N (- z))
  | JNumber (Float bits) => decimal bits +:+ ".0"
  | JString s => write_string s
  | JArray l => "[" +:+ join_with "," (map write_value l) +:+ "]"
  | JObject m =>
      "{" +:+ join_with "," (map (fun e => write_string e.1 +:+ ":" +:+ write_value e.2) m) +:+ "}"
  end.

Definition toy : Primitives := {|
  to_vec v := as_bytes (write_value v);
  sha256_hex := toy_sha256_hex;
  is_nfc s := str_all (fun a => ascii_between 0 127 a) s
|}.

Lemma hex_pad_length w n : String.length (hex_pad w n) = w.
Proof. revert n; induction w as [|w IH]; intros n; cbn; [done|]. rewrite str_length_app, IH. cbn. lia. Qed.

Lemma str_all_app p s t : str_all p (s +:+ t) = str_all p s && str_all p t.
Proof.
  induction s as [|a s IH]; [done|]. change (String a s +:+ t) with (String a (s +:+ t)).
  cbn [str_all]. by rewrite IH, andb_assoc.
Qed.

Lemma hex_digit_lower n : n < 16 -> lower_hex_byte (hex_digit n) = true.
Proof.
  intros Hn.
  assert (In (N.to_nat n) (seq 0 16)) as Hin by (apply List.in_seq; lia).
  assert (forall k, In k (seq 0 16) -> lower_hex_byte (hex_digit (N.of_nat k)) = true) as Hall.
  { apply List.forallb_forall. vm_compute. done. }
  specialize (Hall _ Hin). by rewrite N2Nat.id in Hall.
Qed.

Lemma hex_pad_lower w n : str_all lower_hex_byte (hex_pad w n) = true.
Proof.
  revert n; induction w as [|w IH]; intros n; [done|]. cbn [hex_pad]. rewrite str_all_app, IH.
  cbn [str_all andb]. rewrite hex_digit_lower by (by apply N.mod_lt). done.
Qed.

#[export] Instance toy_laws : PrimitivesLaws toy.
Proof.
  split; intros b; change (sha256_hex b) with (toy_sha256_hex b); unfold toy_sha256_hex.
  - unfold str_len. rewrite !str_length_app, !hex_pad_length. done.
  - by rewrite !str_all_app, !hex_pad_lower.
Qed.

Example toy_writes :
  write_value (sort_value sample_left) = "{" +:+ quote +:+ "a" +:+ quote +:+ ":0," +:+ quote +:+ "z" +:+ quote
    +:+ ":{" +:+ quote +:+ "a" +:+ quote +:+ ":2," +:+ quote +:+ "b" +:+ quote +:+ ":1}}".
Proof. reflexivity. Qed.
