(* ===== verification/JsonFormat.v ===== *)
(** * The JSON text format and derived (de)serializers

    serde_json and the code that [#[derive(Serialize, Deserialize)]] generates
    are not part of the repository.  [WriterLaws] is the compact output format of
    [serde_json::to_vec], [ReaderLaws] that reading a written document returns it.
    [decode_struct] is what the derived deserializer of a closed struct does
    ([deny_unknown_fields], no optional field): fields may come in any order, but
    each exactly once and no other; serde_json also accepts an array of the field
    values. *)

From S2P Require Import Prelude Order Collections Text Json Canonical Instances.

(** Bytes that a JSON string writes unchanged. *)
Definition plain_byte (a : ascii) : bool :=
  ascii_between 32 126 a && negb (Ascii.eqb a (ascii_of_N 34)) && negb (Ascii.eqb a (ascii_of_N 92)).

Definition quote_bytes : list byte := as_bytes quote.

Fixpoint join_bytes (sep : list byte) (l : list (list byte)) : list byte :=
  match l with
  | [] => []
  | [x] => x
  | x :: l' => x ++ sep ++ join_bytes sep l'
  end.

Class WriterLaws (P : Primitives) : Prop := {
  to_vec_null : to_vec JNull = as_bytes "null";
  to_vec_array : forall l, to_vec (JArray l) = as_bytes "[" ++ join_bytes (as_bytes ",") (to_vec <$> l) ++ as_bytes "]";
  to_vec_object : forall m,
    to_vec (JObject m) =
    as_bytes "{" ++ join_bytes (as_bytes ",") ((fun e => to_vec (JString e.1) ++ as_bytes ":" ++ to_vec e.2) <$> m)
      ++ as_bytes "}";
  to_vec_natural : forall n, n <= u64_max -> to_vec (JNumber (PosInt n)) = as_bytes (decimal n);
  to_vec_plain_string : forall s,
    str_all plain_byte s = true -> to_vec (JString s) = quote_bytes ++ as_bytes s ++ quote_bytes
}.

Definition newline : byte := Byte.x0a.

(** Control characters are escaped, so a compact document is one line. *)
Class LineLaws (P : Primitives) : Prop := {
  to_vec_one_line : forall v, newline ∉ to_vec v;
  to_vec_nonempty : forall v, to_vec v <> []
}.

(** Values without fractions and negative numbers, the ones that records of this
    development contain. *)
Fixpoint plain (v : Value) : bool :=
  match v with
  | JNull | JBool _ | JString _ => true
  | JNumber (PosInt n) => n <=? u64_max
  | JNumber _ => false
  | JArray l => forallb plain l
  | JObject m => forallb (fun e => plain e.2) m
  end.

Class JsonReader := {
  (** The document a byte string spells; an object lists its entries as written. *)
  read_document : list byte -> option Value
}.

(** serde_json refuses documents nested deeper than 127 levels. *)
Class ReaderLaws (P : Primitives) (R : JsonReader) : Prop := {
  read_written : forall v, plain v = true -> nesting v <= 64 -> read_document (to_vec v) = Some v
}.

(* --------------------------------------------------------------------- *)
(** ** Derived deserializers *)

Fixpoint get_all (fields : list string) (m : list (string * Value)) : option (list Value) :=
  match fields with
  | [] => Some []
  | k :: fields' =>
      match map_get k m, get_all fields' m with
      | Some v, Some vs => Some (v :: vs)
      | _, _ => None
      end
  end.

Definition decode_struct (fields : list string) (v : Value) : option (list Value) :=
  match v with
  | JObject m =>
      if forallb (fun e => existsb (String.eqb e.1) fields) m && Nat.eqb (length m) (length fields)
      then get_all fields m else None
  | JArray l => if Nat.eqb (length l) (length fields) then Some l else None
  | _ => None
  end.

Definition decode_string (v : Value) : option string := as_str v.
Definition decode_u64 (v : Value) : option N :=
  match v with JNumber (PosInt n) => if n <=? u64_max then Some n else None | _ => None end.
Definition decode_u32 (v : Value) : option N :=
  match v with JNumber (PosInt n) => if n <=? u32_max then Some n else None | _ => None end.

Fixpoint decode_list {A} (decode : Value -> option A) (l : list Value) : option (list A) :=
  match l with
  | [] => Some []
  | v :: l' =>
      match decode v, decode_list decode l' with
      | Some a, Some as_ => Some (a :: as_)
      | _, _ => None
      end
  end.
Definition decode_vec {A} (decode : Value -> option A) (v : Value) : option (list A) :=
  match v with JArray l => decode_list decode l | _ => None end.

(** Structs with optional fields ([skip_serializing_if = "Option::is_none"]): a
    field comes with whether it is required; an absent optional field and a
    [null] one are both [None]. *)
Fixpoint get_fields (fields : list (string * bool)) (m : list (string * Value)) : option (list (option Value)) :=
  match fields with
  | [] => Some []
  | (k, required) :: fields' =>
      match map_get k m, get_fields fields' m with
      | Some v, Some vs => Some (Some v :: vs)
      | None, Some vs => if required then None else Some (None :: vs)
      | _, None => None
      end
  end.

Fixpoint unique_keys (m : list (string * Value)) : bool :=
  match m with
  | [] => true
  | e :: m' => negb (existsb (fun d => String.eqb e.1 d.1) m') && unique_keys m'
  end.

Definition decode_record (fields : list (string * bool)) (v : Value) : option (list (option Value)) :=
  match v with
  | JObject m =>
      if forallb (fun e => existsb (fun f => String.eqb e.1 f.1) fields) m && unique_keys m
      then get_fields fields m else None
  | JArray l => if Nat.eqb (length l) (length fields) then Some (Some <$> l) else None
  | _ => None
  end.

Definition decode_required {A} (decode : Value -> option A) (o : option Value) : option A :=
  match o with Some v => decode v | None => None end.
Definition decode_option {A} (decode : Value -> option A) (o : option Value) : option (option A) :=
  match o with
  | None | Some JNull => Some None
  | Some v => match decode v with Some a => Some (Some a) | None => None end
  end.

Definition optional_field {A} (k : string) (encode : A -> Value) (o : option A) : list (string * Value) :=
  match o with Some a => [(k, encode a)] | None => [] end.

Definition decode_bool (v : Value) : option bool := match v with JBool b => Some b | _ => None end.

(** A unit variant of an enum, by its name; serde_json also takes an object with
    that single key and [null]. *)
Definition decode_variant {A} (name : A -> string) (all : list A) (v : Value) : option A :=
  let by_name s := List.find (fun a => String.eqb (name a) s) all in
  match v with
  | JString s => by_name s
  | JObject [(s, JNull)] => by_name s
  | _ => None
  end.

Definition u128_max : N := 2 ^ 128 - 1.
Definition decode_u128 (v : Value) : option N :=
  match v with JNumber (PosInt n) => if n <=? u128_max then Some n else None | _ => None end.

Lemma decode_list_fmap {A} (decode : Value -> option A) (encode : A -> Value) l :
  Forall (fun a => decode (encode a) = Some a) l -> decode_list decode (encode <$> l) = Some l.
Proof. induction 1 as [|a l Ha Hl IH]; [done|]. cbn. by rewrite Ha, IH. Qed.

Lemma decode_u64_natural n : n <= u64_max -> decode_u64 (JNumber (PosInt n)) = Some n.
Proof. intros Hn. cbn. by rewrite (proj2 (N.leb_le _ _) Hn). Qed.
Lemma decode_u32_natural n : n <= u32_max -> decode_u32 (JNumber (PosInt n)) = Some n.
Proof. intros Hn. cbn. by rewrite (proj2 (N.leb_le _ _) Hn). Qed.

(* --------------------------------------------------------------------- *)
(** ** Lengths of written documents *)

Lemma as_bytes_app s t : as_bytes (s +:+ t) = as_bytes s ++ as_bytes t.
Proof. induction s as [|a s IH]; [done|]. change (as_bytes (String a s +:+ t)) with (byte_of_ascii a :: as_bytes (s +:+ t)). by rewrite IH. Qed.

Lemma as_bytes_len s : vlen (as_bytes s) = str_len s.
Proof.
  unfold vlen, str_len. f_equal. induction s as [|a s IH]; [done|].
  change (as_bytes (String a s)) with (byte_of_ascii a :: as_bytes s). cbn [length String.length]. by rewrite IH.
Qed.

Definition total_len (l : list (list byte)) : N := foldr (fun b n => vlen b + n) 0 l.

Lemma total_len_app l k : total_len (l ++ k) = total_len l + total_len k.
Proof.
  induction l as [|b l IH]; [done|].
  change (total_len ((b :: l) ++ k)) with (vlen b + total_len (l ++ k)). rewrite IH.
  change (total_len (b :: l)) with (vlen b + total_len l). lia.
Qed.

Lemma join_bytes_len sep l : vlen (join_bytes sep l) = total_len l + vlen sep * (vlen l - 1).
Proof.
  induction l as [|b l IH]; [symmetry; apply N.mul_0_r|]. destruct l as [|c l].
  - change (vlen b = vlen b + 0 + vlen sep * 0). lia.
  - change (join_bytes sep (b :: c :: l)) with (b ++ sep ++ join_bytes sep (c :: l)).
    rewrite !vlen_app, IH. change (total_len (b :: c :: l)) with (vlen b + total_len (c :: l)).
    rewrite !vlen_cons. nia.
Qed.

(** The compact writer has the format of [to_vec]. *)
Lemma join_with_bytes l : as_bytes (join_with "," l) = join_bytes (as_bytes ",") (as_bytes <$> l).
Proof.
  induction l as [|x [|y l] IH]; [done|done|].
  change (join_with "," (x :: y :: l)) with (x +:+ "," +:+ join_with "," (y :: l)).
  rewrite !as_bytes_app, IH. done.
Qed.

Lemma plain_len {P : Primitives} {W : WriterLaws P} s : str_all plain_byte s = true -> vlen (to_vec (JString s)) = str_len s + 2.
Proof.
  intros Hs. rewrite to_vec_plain_string by done. rewrite !vlen_app, as_bytes_len.
  change (vlen quote_bytes) with 1. lia.
Qed.

Lemma escape_plain s : str_all plain_byte s = true -> escape s = s.
Proof.
  induction s as [|a s IH]; [done|]. cbn [str_all escape]. unfold plain_byte at 1.
  rewrite !andb_true_iff, !negb_true_iff. intros (((Hr & Hq) & Hb) & Hs). rewrite Hq, Hb, IH by done.
  destruct (Ascii.eqb_spec a (ascii_of_N 10)) as [->|_]; done.
Qed.

#[export] Instance toy_writer : WriterLaws toy.
Proof.
  split.
  - done.
  - intros l. cbn [to_vec toy write_value]. rewrite !as_bytes_app, join_with_bytes. do 3 f_equal.
    change (map write_value l) with (write_value <$> l). by rewrite <- list_fmap_compose.
  - intros m. cbn [to_vec toy write_value]. rewrite !as_bytes_app, join_with_bytes. do 3 f_equal.
    set (f := fun e : string * Value => _). change (map f m) with (f <$> m). rewrite <- list_fmap_compose.
    apply list_fmap_ext. intros i e _. cbn. unfold f. by rewrite !as_bytes_app.
  - done.
  - intros s Hs. cbn [to_vec toy write_value]. unfold write_string. rewrite !as_bytes_app, escape_plain by done. done.
Qed.

Definition one_line (s : string) : Prop := newline ∉ as_bytes s.

Lemma one_line_app s t : one_line (s +:+ t) <-> one_line s /\ one_line t.
Proof. unfold one_line. rewrite as_bytes_app, elem_of_app. tauto. Qed.

Lemma one_line_cons a s : one_line (String a s) <-> a <> ascii_of_N 10 /\ one_line s.
Proof.
  unfold one_line. change (as_bytes (String a s)) with (byte_of_ascii a :: as_bytes s). rewrite not_elem_of_cons.
  enough (newline <> byte_of_ascii a <-> a <> ascii_of_N 10) by tauto. split; intros H E; apply H; [by rewrite E|].
  apply (f_equal ascii_of_byte) in E. by rewrite ascii_of_byte_of_ascii in E.
Qed.

Lemma one_line_decimal n : one_line (decimal n).
Proof.
  unfold decimal. assert (one_line "") as Hacc by (by intros ?%elem_of_nil). revert Hacc. generalize "" n.
  generalize 20%nat. intros d. induction d as [|f IH]; intros acc k Hacc; cbn [decimal_aux]; [done|].
  assert (one_line (String (ascii_of_N (48 + k mod 10)) acc)) as Hd.
  { apply one_line_cons. split; [|done]. intros E. apply (f_equal N_of_ascii) in E.
    pose proof (N.mod_lt k 10 ltac:(done)) as Hk. rewrite N_ascii_embedding in E by lia.
    change (N_of_ascii (ascii_of_N 10)) with 10 in E. clear -E. revert E. generalize (k mod 10). intros r E. lia. }
  destruct (k <? 10); [done|by apply IH].
Qed.

Lemma one_line_string s : one_line (write_string s).
Proof.
  unfold write_string, quote. rewrite !one_line_app, !one_line_cons.
  assert (one_line "") as Hn by (by intros ?%elem_of_nil). split_and!; try done.
  induction s as [|a s IH]; [done|]. cbn [escape]. destruct (Ascii.eqb_spec a (ascii_of_N 10)) as [->|Hne].
  - rewrite !one_line_cons. by split_and!.
  - destruct (_ || _); rewrite !one_line_cons; by split_and!.
Qed.

Lemma one_line_join l : Forall one_line l -> one_line (join_with "," l).
Proof.
  induction 1 as [|s l Hs Hl IH]; [by intros ?%elem_of_nil|]. destruct l as [|t l]; [done|].
  change (join_with "," (s :: t :: l)) with (s +:+ "," +:+ join_with "," (t :: l)). rewrite !one_line_app.
  split_and!; [done| |done]. apply one_line_cons. split; [done|by intros ?%elem_of_nil].
Qed.

Ltac one_line_literal := repeat (apply one_line_cons; split; [done|]); by intros ?%elem_of_nil.

Lemma one_line_value v : one_line (write_value v).
Proof.
  induction v as [|b|n|s|l IH|m IH] using Value_ind'.
  - one_line_literal.
  - destruct b; one_line_literal.
  - destruct n; cbn [write_value]; rewrite ?one_line_app; split_and?; try apply one_line_decimal; one_line_literal.
  - apply one_line_string.
  - cbn [write_value]. rewrite !one_line_app. split_and!; [one_line_literal| |one_line_literal].
    apply one_line_join. change (map write_value l) with (write_value <$> l). by apply Forall_fmap.
  - cbn [write_value]. rewrite !one_line_app. split_and!; [one_line_literal| |one_line_literal].
    apply one_line_join. change (map ?f m) with (f <$> m). apply Forall_fmap. eapply list.Forall_impl; [exact IH|].
    intros e He. cbn. rewrite !one_line_app. split_and!; [apply one_line_string|one_line_literal|done].
Qed.

Lemma as_bytes_nonempty a s : as_bytes (String a s) <> [].
Proof. done. Qed.

Lemma decimal_aux_cons f : forall n a acc, exists a' acc', decimal_aux f n (String a acc) = String a' acc'.
Proof. induction f as [|f IH]; intros n a acc; cbn [decimal_aux]; [eauto|]. destruct (n <? 10); [eauto|apply IH]. Qed.

Lemma decimal_cons n : exists a s, decimal n = String a s.
Proof. unfold decimal. cbn [decimal_aux]. destruct (n <? 10); [eauto|]. exact (decimal_aux_cons 19 _ _ _). Qed.

#[export] Instance toy_lines : LineLaws toy.
Proof.
  split; intros v; [apply one_line_value|]. cbn [to_vec toy].
  destruct v as [|[]|[n|z|n]| | |]; try done; cbn [write_value]; [|destruct (decimal_cons n) as (a & s & ->); done].
  destruct (decimal_cons n) as (a & s & ->). done.
Qed.
