(* ===== verification/JsonRead.v ===== *)
(** * A reader for the compact JSON writer

    An instance of [JsonReader] for the writer of Instances, with the proof that
    it reads back every plain document: the laws assumed of serde_json hold
    together for a concrete reader and writer. *)

From S2P Require Import Prelude Order Collections Text Json Canonical Instances JsonFormat.

Definition quote_char : ascii := ascii_of_N 34.
Definition backslash : ascii := ascii_of_N 92.

Fixpoint read_digits (s : string) (acc : N) : N * string :=
  match s with
  | String a s' => if is_ascii_digit a then read_digits s' (acc * 10 + (N_of_ascii a - 48)) else (acc, s)
  | EmptyString => (acc, s)
  end.

(** The rest of a string literal. *)
Fixpoint read_chars (s : string) : option (string * string) :=
  match s with
  | EmptyString => None
  | String a s' =>
      if Ascii.eqb a quote_char then Some (EmptyString, s')
      else if Ascii.eqb a backslash
      then match s' with
           | String b s'' =>
               let b := if Ascii.eqb b "n" then ascii_of_N 10 else b in
               match read_chars s'' with Some (t, r) => Some (String b t, r) | None => None end
           | EmptyString => None
           end
      else match read_chars s' with Some (t, r) => Some (String a t, r) | None => None end
  end.

Definition read_literal (rest : string) (v : Value) (s : string) : option (Value * string) :=
  match strip_prefix rest s with Some r => Some (v, r) | None => None end.

Section Containers.
Context (read_one : string -> option (Value * string)).

Fixpoint read_items (n : nat) (s : string) : option (list Value * string) :=
  match n with
  | O => None
  | S n' =>
      match read_one s with
      | Some (v, String c r) =>
          if Ascii.eqb c "]" then Some ([v], r)
          else if Ascii.eqb c ","
          then match read_items n' r with Some (vs, r') => Some (v :: vs, r') | None => None end
          else None
      | _ => None
      end
  end.

Definition read_entry (s : string) : option ((string * Value) * string) :=
  match s with
  | String q s' =>
      if Ascii.eqb q quote_char
      then match read_chars s' with
           | Some (k, String c r) =>
               if Ascii.eqb c ":"
               then match read_one r with Some (v, r') => Some ((k, v), r') | None => None end
               else None
           | _ => None
           end
      else None
  | EmptyString => None
  end.

Fixpoint read_entries (n : nat) (s : string) : option (list (string * Value) * string) :=
  match n with
  | O => None
  | S n' =>
      match read_entry s with
      | Some (e, String c r) =>
          if Ascii.eqb c "}" then Some ([e], r)
          else if Ascii.eqb c ","
          then match read_entries n' r with Some (es, r') => Some (e :: es, r') | None => None end
          else None
      | _ => None
      end
  end.
End Containers.

Fixpoint read_value (fuel : nat) (s : string) : option (Value * string) :=
  match fuel, s with
  | S f, String a r =>
      if Ascii.eqb a "n" then read_literal "ull" JNull r
      else if Ascii.eqb a "t" then read_literal "rue" (JBool true) r
      else if Ascii.eqb a "f" then read_literal "alse" (JBool false) r
      else if Ascii.eqb a quote_char
      then match read_chars r with Some (t, r') => Some (JString t, r') | None => None end
      else if Ascii.eqb a "["
      then match read_items (read_value f) f r with
           | Some (l, r') => Some (JArray l, r')
           | None => match strip_prefix "]" r with Some r' => Some (JArray [], r') | None => None end
           end
      else if Ascii.eqb a "{"
      then match read_entries (read_value f) f r with
           | Some (m, r') => Some (JObject m, r')
           | None => match strip_prefix "}" r with Some r' => Some (JObject [], r') | None => None end
           end
      else if is_ascii_digit a then let '(n, r') := read_digits s 0 in Some (JNumber (PosInt n), r')
      else None
  | _, _ => None
  end.

Definition read_string (s : string) : option Value :=
  match read_value (S (String.length s)) s with
  | Some (v, EmptyString) => Some v
  | _ => None
  end.

#[export] Instance toy_reader : JsonReader := {|
  read_document b := read_string (String.string_of_list_byte b)
|}.

(* --------------------------------------------------------------------- *)
(** ** Reading what was written *)

Definition no_digit (s : string) : Prop :=
  match s with String a _ => is_ascii_digit a = false | EmptyString => True end.

Lemma read_chars_escape s rest : read_chars (escape s +:+ String quote_char rest) = Some (s, rest).
Proof.
  induction s as [|a s IH]; [done|]. cbn [escape].
  pose (push := fun o : option (string * string) => match o with Some (t, r) => Some (String a t, r) | None => None end).
  destruct (Ascii.eqb_spec a (ascii_of_N 10)) as [->|Hnl]; [exact (f_equal push IH)|].
  destruct (Ascii.eqb a (ascii_of_N 34) || Ascii.eqb a (ascii_of_N 92)) eqn:E.
  - rewrite !str_cons_app. cbn [read_chars]. change (Ascii.eqb (ascii_of_N 92) quote_char) with false.
    change (Ascii.eqb (ascii_of_N 92) backslash) with true. cbv iota.
    assert (Ascii.eqb a "n" = false) as -> by (apply orb_true_iff in E as [E|E]; apply Ascii.eqb_eq in E as ->; done).
    apply (f_equal push IH).
  - apply orb_false_iff in E as [E1 E2]. rewrite !str_cons_app. cbn [read_chars].
    unfold quote_char at 1, backslash. rewrite E1, E2. apply (f_equal push IH).
Qed.

(** Twenty steps are enough for twenty digits. *)
Lemma decimal_step n : n < 10 -> is_ascii_digit (ascii_of_N (48 + n)) = true /\ N_of_ascii (ascii_of_N (48 + n)) = 48 + n.
Proof.
  intros Hn. assert (N_of_ascii (ascii_of_N (48 + n)) = 48 + n) as He by (apply N_ascii_embedding; lia).
  unfold is_ascii_digit, ascii_between. rewrite He. split; [|done].
  apply andb_true_iff. split; apply N.leb_le; lia.
Qed.

Lemma read_decimal_aux fuel : forall n acc rest,
  n < 10 ^ N.of_nat fuel ->
  exists d, decimal_aux fuel n acc = d +:+ acc /\ (0 < String.length d \/ fuel = 0)%nat /\
    (forall z, read_digits (d +:+ rest) z = read_digits rest (z * 10 ^ N.of_nat (String.length d) + n)).
Proof.
  induction fuel as [|f IH]; intros n acc rest Hn.
  - exists EmptyString. split_and!; [done|by right|]. intros z. cbn in Hn. assert (n = 0) as -> by lia.
    change (String.length "") with 0%nat. change (10 ^ N.of_nat 0) with 1. change ("" +:+ rest) with rest. f_equal. lia.
  - cbn [decimal_aux]. set (c := ascii_of_N (48 + n mod 10)).
    destruct (decimal_step (n mod 10)) as [Hd Hc]; [by apply N.mod_lt|]. fold c in Hd, Hc.
    destruct (N.ltb_spec n 10) as [Hlt|Hge].
    + exists (String c EmptyString). split_and!; [done|left; cbn; lia|]. intros z.
      rewrite str_cons_app. cbn [read_digits]. rewrite Hd, Hc, N.mod_small by done.
      change (String.length (String c "")) with 1%nat. change (10 ^ N.of_nat 1) with 10.
      change ("" +:+ rest) with rest. f_equal. lia.
    + destruct (IH (n / 10) (String c acc) (String c rest)) as (d & He & _ & Hr).
      { apply N.Div0.div_lt_upper_bound. rewrite Nat2N.inj_succ, N.pow_succ_r' in Hn. done. }
      exists (d +:+ String c EmptyString). split_and!.
      * by rewrite He, str_app_assoc, str_cons_app.
      * left. rewrite str_length_app. cbn. lia.
      * intros z. rewrite str_app_assoc, str_cons_app. change ("" +:+ rest) with rest. rewrite Hr.
        cbn [read_digits]. rewrite Hd, Hc, str_length_app. change (String.length (String c "")) with 1%nat.
        f_equal. rewrite Nat2N.inj_add, N.pow_add_r. change (10 ^ N.of_nat 1) with 10.
        pose proof (N.div_mod n 10 ltac:(done)).
        clearbody c. revert H. generalize (n mod 10), (n / 10), (10 ^ N.of_nat (String.length d)). intros x y k ->. lia.
Qed.

Lemma read_digits_stop rest n : no_digit rest -> read_digits rest n = (n, rest).
Proof. destruct rest as [|a r]; cbn; [done|]. by intros ->. Qed.

Lemma read_decimal n rest :
  n <= u64_max -> no_digit rest ->
  read_digits (decimal n +:+ rest) 0 = (n, rest) /\
  exists a d, decimal n = String a d /\ is_ascii_digit a = true.
Proof.
  intros Hn Hrest. unfold decimal.
  destruct (read_decimal_aux 20 n EmptyString rest) as (d & He & Hl & Hr); [unfold u64_max in Hn; cbn; lia|].
  assert (d +:+ "" = d) as Hd by (clear; induction d as [|a d IH]; [done|]; by rewrite str_cons_app, IH). rewrite He, Hd. split.
  - rewrite Hr, read_digits_stop by done. done.
  - destruct d as [|a d]; [cbn in Hl; lia|]. exists a, d. split; [done|].
    specialize (Hr 0). rewrite str_cons_app in Hr. cbn [read_digits] in Hr.
    destruct (is_ascii_digit a) eqn:Ea; [done|]. exfalso.
    rewrite read_digits_stop in Hr by done. injection Hr as _ Hr.
    apply (f_equal String.length) in Hr. cbn [String.length] in Hr. rewrite str_length_app in Hr. lia.
Qed.

(** The recursion depth and list lengths a reader needs. *)
Fixpoint cost (v : Value) : nat :=
  match v with
  | JArray l => S (foldr (fun a n => cost a + n)%nat O l)
  | JObject m => S (foldr (fun e n => cost e.2 + n)%nat O m)
  | _ => 1%nat
  end.

Definition readable (v : Value) : Prop :=
  forall fuel rest, (cost v <= fuel)%nat -> no_digit rest ->
    read_value fuel (write_value v +:+ rest) = Some (v, rest).

Lemma cost_pos v : (1 <= cost v)%nat.
Proof. destruct v; cbn; lia. Qed.

Definition sum_cost {A} (f : A -> nat) (l : list A) : nat := foldr (fun a n => f a + n)%nat O l.

Lemma sum_cost_bounds {A} (f : A -> nat) l : (forall a, 1 <= f a)%nat ->
  (length l <= sum_cost f l)%nat /\ Forall (fun a => f a <= sum_cost f l)%nat l.
Proof.
  intros Hf. induction l as [|a l [IHl IHf]]; [split; [done|constructor]|].
  change (sum_cost f (a :: l)) with (f a + sum_cost f l)%nat. pose proof (Hf a). split; [cbn; lia|].
  constructor; [lia|]. eapply list.Forall_impl; [exact IHf|]. cbn. intros b Hb. lia.
Qed.

Lemma read_items_written read_one l : forall n rest,
  l <> [] -> (length l <= n)%nat ->
  Forall (fun a => forall r, no_digit r -> read_one (write_value a +:+ r) = Some (a, r)) l ->
  read_items read_one n (join_with "," (map write_value l) +:+ String "]" rest) = Some (l, rest).
Proof.
  induction l as [|a l IH]; intros n rest Hne Hn Hl; [done|]. destruct n as [|n]; [cbn in Hn; lia|].
  inversion_clear Hl as [|? ? Ha Hl']. destruct l as [|b l].
  - change (join_with "," (map write_value [a])) with (write_value a). cbn [read_items].
    by rewrite Ha.
  - change (join_with "," (map write_value (a :: b :: l)))
      with (write_value a +:+ String "," (join_with "," (map write_value (b :: l)))).
    rewrite str_app_assoc, str_cons_app. cbn [read_items]. rewrite Ha by done.
    change (Ascii.eqb "," "]") with false. change (Ascii.eqb "," ",") with true. cbv iota.
    cbn [length] in Hn. rewrite IH; [done|done|cbn; lia|done].
Qed.

Definition write_entry (e : string * Value) : string := write_string e.1 +:+ ":" +:+ write_value e.2.

Lemma quote_app t : quote +:+ t = String quote_char t.
Proof. done. Qed.

Lemma read_entry_written read_one e r :
  (forall r, no_digit r -> read_one (write_value e.2 +:+ r) = Some (e.2, r)) -> no_digit r ->
  read_entry read_one (write_entry e +:+ r) = Some (e, r).
Proof.
  intros He Hr. unfold write_entry, write_string. rewrite !str_app_assoc.
  rewrite !quote_app. cbn [read_entry]. rewrite Ascii.eqb_refl.
  change (":" +:+ ?t) with (String ":" t). rewrite read_chars_escape. rewrite Ascii.eqb_refl, He by done.
  by destruct e.
Qed.

Lemma read_entries_written read_one m : forall n rest,
  m <> [] -> (length m <= n)%nat ->
  Forall (fun e => forall r, no_digit r -> read_one (write_value e.2 +:+ r) = Some (e.2, r)) m ->
  read_entries read_one n (join_with "," (map write_entry m) +:+ String "}" rest) = Some (m, rest).
Proof.
  induction m as [|e m IH]; intros n rest Hne Hn Hl; [done|]. destruct n as [|n]; [cbn in Hn; lia|].
  inversion_clear Hl as [|? ? He Hl']. destruct m as [|d m].
  - change (join_with "," (map write_entry [e])) with (write_entry e). cbn [read_entries].
    by rewrite read_entry_written.
  - change (join_with "," (map write_entry (e :: d :: m)))
      with (write_entry e +:+ String "," (join_with "," (map write_entry (d :: m)))).
    rewrite str_app_assoc, str_cons_app. cbn [read_entries]. rewrite read_entry_written by done.
    change (Ascii.eqb "," "}") with false. change (Ascii.eqb "," ",") with true. cbv iota.
    cbn [length] in Hn. rewrite IH; [done|done|cbn; lia|done].
Qed.

Lemma write_object m : write_value (JObject m) = "{" +:+ join_with "," (map write_entry m) +:+ "}".
Proof. done. Qed.

Lemma read_array_written l : Forall readable l -> readable (JArray l).
Proof.
  intros Hl fuel rest Hf Hr. destruct fuel as [|f]; [cbn in Hf; lia|].
  change (cost (JArray l)) with (S (sum_cost cost l)) in Hf.
  destruct (sum_cost_bounds cost l cost_pos) as [Hn Hc].
  change (write_value (JArray l)) with ("[" +:+ join_with "," (map write_value l) +:+ "]").
  rewrite !str_app_assoc. change ("[" +:+ ?t) with (String "[" t). change ("]" +:+ ?t) with (String "]" t).
  destruct (decide (l = [])) as [->|Hne].
  - change (read_value (S f) _) with
      (match read_items (read_value f) f (String "]" rest) with
       | Some (l, r') => Some (JArray l, r')
       | None => Some (JArray [], rest) end).
    replace (read_items (read_value f) f (String "]" rest)) with (@None (list Value * string)); [done|].
    destruct f; [done|]. done.
  - set (body := join_with "," (map write_value l) +:+ String "]" rest).
    change (read_value (S f) (String "[" body)) with
      (match read_items (read_value f) f body with
       | Some (l, r') => Some (JArray l, r')
       | None => match strip_prefix "]" body with Some r' => Some (JArray [], r') | None => None end end).
    unfold body. rewrite read_items_written; [done|done|lia|].
    rewrite list.Forall_forall in Hl, Hc |- *. intros a Ha r Hrr. apply Hl; [done| |done].
    specialize (Hc a Ha). lia.
Qed.

Lemma read_object_written m : Forall (fun e => readable e.2) m -> readable (JObject m).
Proof.
  intros Hl fuel rest Hf Hr. destruct fuel as [|f]; [cbn in Hf; lia|].
  change (cost (JObject m)) with (S (sum_cost (fun e => cost e.2) m)) in Hf.
  destruct (sum_cost_bounds (fun e : string * Value => cost e.2) m (fun e => cost_pos e.2)) as [Hn Hc].
  rewrite write_object, !str_app_assoc. change ("{" +:+ ?t) with (String "{" t). change ("}" +:+ ?t) with (String "}" t).
  destruct (decide (m = [])) as [->|Hne].
  - change (read_value (S f) _) with
      (match read_entries (read_value f) f (String "}" rest) with
       | Some (l, r') => Some (JObject l, r')
       | None => Some (JObject [], rest) end).
    replace (read_entries (read_value f) f (String "}" rest)) with (@None (list (string * Value) * string)); [done|].
    destruct f; [done|]. done.
  - set (body := join_with "," (map write_entry m) +:+ String "}" rest).
    change (read_value (S f) (String "{" body)) with
      (match read_entries (read_value f) f body with
       | Some (l, r') => Some (JObject l, r')
       | None => match strip_prefix "}" body with Some r' => Some (JObject [], r') | None => None end end).
    unfold body. rewrite read_entries_written; [done|done|lia|].
    rewrite list.Forall_forall in Hl, Hc |- *. intros a Ha r Hrr. apply Hl; [done| |done].
    specialize (Hc a Ha). cbn in Hc. lia.
Qed.

Lemma read_atom_written v : plain v = true ->
  match v with JArray _ | JObject _ => True | _ => readable v end.
Proof.
  destruct v as [|b|n|s|l|m]; intros Hp; try done; intros [|f] rest Hf Hr; try (cbn in Hf; lia).
  - done.
  - by destruct b.
  - destruct n as [n| |]; [|done..]. cbn [plain] in Hp. apply N.leb_le in Hp.
    destruct (read_decimal n rest Hp Hr) as [Hd (a & d & He & Ha)].
    change (write_value (JNumber (PosInt n))) with (decimal n). rewrite He in *. rewrite str_cons_app in *.
    assert (forall c, is_ascii_digit c = false -> Ascii.eqb a c = false) as Hneq.
    { intros c Hc. apply Ascii.eqb_neq. intros ->. congruence. }
    cbn [read_value]. rewrite !Hneq by done. rewrite Ha, Hd. done.
  - change (write_value (JString s)) with (quote +:+ escape s +:+ quote).
    rewrite !str_app_assoc, !quote_app. change ("" +:+ rest) with rest.
    change (read_value (S f) (String quote_char ?s)) with
      (match read_chars s with Some (t, r') => Some (JString t, r') | None => None end).
    by rewrite read_chars_escape.
Qed.

Lemma plain_readable v : plain v = true -> readable v.
Proof.
  induction v as [| | | |l IH|m IH] using Value_ind'; intros Hp; try exact (read_atom_written _ Hp).
  - apply read_array_written. cbn [plain] in Hp. apply forallb_iff in Hp. exact (Forall_mp _ _ _ IH Hp).
  - apply read_object_written. cbn [plain] in Hp. apply forallb_iff in Hp. exact (Forall_mp _ _ _ IH Hp).
Qed.

Lemma join_with_length l : (foldr (fun s n => String.length s + n) 0 l <= String.length (join_with "," l))%nat.
Proof.
  induction l as [|x [|y l] IH]; [done|cbn; lia|].
  change (join_with "," (x :: y :: l)) with (x +:+ "," +:+ join_with "," (y :: l)).
  rewrite !str_length_app. cbn [foldr] in *. lia.
Qed.

Lemma cost_length v : plain v = true -> (cost v <= String.length (write_value v))%nat.
Proof.
  induction v as [| | | |l IH|m IH] using Value_ind'; intros Hp.
  - cbn; lia.
  - destruct b; cbn; lia.
  - destruct n as [n| |]; [|done..]. cbn [plain] in Hp. apply N.leb_le in Hp.
    destruct (read_decimal n EmptyString Hp I) as [_ (a & d & He & _)].
    change (write_value (JNumber (PosInt n))) with (decimal n). rewrite He. cbn. lia.
  - change (write_value (JString s)) with (quote +:+ escape s +:+ quote). rewrite str_length_app. cbn. lia.
  - cbn [plain] in Hp. apply forallb_iff in Hp. pose proof (Forall_mp _ _ _ IH Hp) as Hc.
    change (write_value (JArray l)) with ("[" +:+ join_with "," (map write_value l) +:+ "]").
    rewrite !str_length_app. pose proof (join_with_length (map write_value l)) as Hj.
    change (cost (JArray l)) with (S (sum_cost cost l)).
    enough (sum_cost cost l <= foldr (fun s n => String.length s + n) 0 (map write_value l))%nat by (cbn [String.length]; lia).
    clear -Hc. induction Hc as [|a l Ha Hl IH]; [done|]. cbn [map foldr sum_cost] in *. unfold sum_cost in IH. lia.
  - cbn [plain] in Hp. apply forallb_iff in Hp. pose proof (Forall_mp _ _ _ IH Hp) as Hc.
    rewrite write_object, !str_length_app. pose proof (join_with_length (map write_entry m)) as Hj.
    change (cost (JObject m)) with (S (sum_cost (fun e => cost e.2) m)).
    enough (sum_cost (fun e => cost e.2) m <= foldr (fun s n => String.length s + n) 0 (map write_entry m))%nat
      by (cbn [String.length]; lia).
    clear -Hc. induction Hc as [|e m He Hm IH]; [done|]. cbn [map foldr sum_cost] in *. unfold sum_cost in IH.
    unfold write_entry at 1. rewrite !str_length_app. lia.
Qed.

#[export] Instance toy_reader_laws : ReaderLaws toy toy_reader.
Proof.
  split. intros v Hp _. cbn [read_document toy_reader to_vec toy]. unfold as_bytes.
  rewrite String.string_of_list_byte_of_string. unfold read_string.
  assert (write_value v = write_value v +:+ "") as He.
  { generalize (write_value v). clear. intros s. induction s as [|a s IH]; [done|]. by rewrite str_cons_app, <- IH. }
  rewrite He at 2. rewrite plain_readable; [done|done| |done]. pose proof (cost_length v Hp). lia.
Qed.
