(* ===== verification/Paths.v ===== *)
(** * File names and fixed-width numerals

    The parts of std::path that the store applies to names in its directories, and
    the decimal numerals in those names. *)

From S2P Require Import Prelude Order Collections Text JsonRead.
Open Scope N_scope.

(** [value.rsplit_once(c)]. *)
Fixpoint rsplit_once (c : ascii) (s : string) : option (string * string) :=
  match s with
  | EmptyString => None
  | String a s' =>
      match rsplit_once c s' with
      | Some (prefix, suffix) => Some (String a prefix, suffix)
      | None => if Ascii.eqb a c then Some (EmptyString, s') else None
      end
  end.

(** [value.split_once(c)]. *)
Fixpoint split_once (c : ascii) (s : string) : option (string * string) :=
  match s with
  | EmptyString => None
  | String a s' =>
      if Ascii.eqb a c then Some (EmptyString, s')
      else match split_once c s' with
           | Some (prefix, suffix) => Some (String a prefix, suffix)
           | None => None
           end
  end.

(** [Path::new(name).extension()] and [.file_stem()] of an entry of a directory. *)
Definition extension (name : string) : option string :=
  if str_eqb name ".." then None
  else match rsplit_once "." name with
       | Some (before, after) => if str_is_empty before then None else Some after
       | None => None
       end.
Definition file_stem (name : string) : string :=
  if str_eqb name ".." then name
  else match rsplit_once "." name with
       | Some (before, _) => if str_is_empty before then name else before
       | None => name
       end.

(** [value.strip_suffix(suffix)] and [value.ends_with(suffix)]. *)
Fixpoint strip_suffix (suffix s : string) : option string :=
  if str_eqb s suffix then Some EmptyString
  else match s with
       | EmptyString => None
       | String a s' => match strip_suffix suffix s' with Some r => Some (String a r) | None => None end
       end.
Definition ends_with (suffix s : string) : bool := match strip_suffix suffix s with Some _ => true | None => false end.

(** [value.parse::<u64>()]: an optional plus sign, then decimal digits. *)
Fixpoint digits_value (s : string) (acc : N) : option N :=
  match s with
  | EmptyString => Some acc
  | String a s' => if is_ascii_digit a then digits_value s' (10 * acc + (N_of_ascii a - 48)) else None
  end.
Definition parse_u64 (s : string) : option N :=
  let digits := match s with String "+" s' => s' | _ => s end in
  if str_is_empty digits then None
  else match digits_value digits 0 with
       | Some n => if n <=? u64_max then Some n else None
       | None => None
       end.

(* --------------------------------------------------------------------- *)
(** ** Splitting *)

Lemma rsplit_once_none c s : contains_char c s = false -> rsplit_once c s = None.
Proof.
  unfold contains_char, str_any. rewrite negb_false_iff. induction s as [|a s IH]; [done|]. cbn [str_all rsplit_once].
  rewrite andb_true_iff, negb_true_iff, Ascii.eqb_sym. intros [Ha Hs]. by rewrite IH, Ha.
Qed.

Lemma rsplit_once_last c p s : contains_char c s = false -> rsplit_once c (p +:+ String c s) = Some (p, s).
Proof.
  intros Hs. induction p as [|a p IH].
  - change ("" +:+ String c s) with (String c s). cbn [rsplit_once]. by rewrite rsplit_once_none, Ascii.eqb_refl.
  - rewrite str_cons_app. cbn [rsplit_once]. by rewrite IH.
Qed.

Lemma split_once_first c p s : contains_char c p = false -> split_once c (p +:+ String c s) = Some (p, s).
Proof.
  unfold contains_char, str_any. rewrite negb_false_iff. induction p as [|a p IH].
  - intros _. change ("" +:+ String c s) with (String c s). cbn [split_once]. by rewrite Ascii.eqb_refl.
  - cbn [str_all]. rewrite andb_true_iff, negb_true_iff, Ascii.eqb_sym. intros [Ha Hp]. rewrite str_cons_app. cbn [split_once].
    by rewrite Ha, IH.
Qed.

(** A name built as [<stem>.<extension>]. *)
Lemma dotted_name stem e : stem <> EmptyString -> contains_char "." e = false -> stem +:+ "." +:+ e <> ".." ->
  extension (stem +:+ "." +:+ e) = Some e /\ file_stem (stem +:+ "." +:+ e) = stem.
Proof.
  intros Hs He Hd. change ("." +:+ e) with (String "." e) in *. unfold extension, file_stem.
  rewrite (proj2 (str_eqb_false _ _) Hd), rsplit_once_last by done.
  by rewrite (proj2 (str_is_empty_false _) Hs).
Qed.

Lemma strip_suffix_app p s : strip_suffix s (p +:+ s) = Some p.
Proof.
  induction p as [|a p IH].
  - change ("" +:+ s) with s. destruct s; cbn [strip_suffix]; by rewrite str_eqb_refl.
  - rewrite str_cons_app. cbn [strip_suffix]. destruct (str_eqb (String a (p +:+ s)) s) eqn:E.
    + apply str_eqb_eq in E. apply (f_equal String.length) in E. cbn in E. rewrite str_length_app in E. lia.
    + by rewrite IH.
Qed.

(* --------------------------------------------------------------------- *)
(** ** Numerals *)

Lemma digits_value_app s t : forall acc n, digits_value s acc = Some n -> digits_value (s +:+ t) acc = digits_value t n.
Proof.
  induction s as [|a s IH]; intros acc n.
  - by intros [= <-].
  - rewrite str_cons_app. cbn [digits_value]. destruct (is_ascii_digit a); [apply IH|done].
Qed.

Lemma read_digits_value s : forall acc n, read_digits s acc = (n, EmptyString) -> digits_value s acc = Some n.
Proof.
  induction s as [|a s IH]; intros acc n; cbn [read_digits digits_value]; [by intros [= <-]|].
  destruct (is_ascii_digit a); [|done]. intros H. rewrite <- (IH _ _ H). f_equal. lia.
Qed.

Lemma decimal_digits n : n <= u64_max -> digits_value (decimal n) 0 = Some n.
Proof.
  intros Hn. apply read_digits_value. destruct (read_decimal n EmptyString Hn I) as [H _].
  assert (decimal n +:+ "" = decimal n) as He by (generalize (decimal n); intros d; induction d as [|a d IH]; [done|]; by rewrite str_cons_app, IH).
  by rewrite He in H.
Qed.

Lemma decimal_aux_length f : forall n acc, (String.length (decimal_aux f n acc) <= f + String.length acc)%nat.
Proof.
  induction f as [|f IH]; intros n acc; cbn [decimal_aux]; [done|]. destruct (n <? 10); cbn [String.length]; [lia|].
  specialize (IH (n / 10) (String (ascii_of_N (48 + n mod 10)) acc)). cbn [String.length] in IH. lia.
Qed.
Lemma decimal_length n : (String.length (decimal n) <= 20)%nat.
Proof. pose proof (decimal_aux_length 20 n EmptyString) as H. cbn [String.length] in H. unfold decimal. lia. Qed.

Lemma digits_value_bound s : forall acc n, digits_value s acc = Some n ->
  acc * 10 ^ str_len s <= n < (acc + 1) * 10 ^ str_len s.
Proof.
  induction s as [|a s IH]; intros acc n; cbn [digits_value].
  - intros [= <-]. change (str_len "") with 0. rewrite N.pow_0_r. lia.
  - destruct (is_ascii_digit a) eqn:Ea; [|done]. intros H%IH. unfold is_ascii_digit, ascii_between in Ea.
    rewrite andb_true_iff, !N.leb_le in Ea. unfold str_len in *. cbn [String.length]. rewrite Nat2N.inj_succ, N.pow_succ_r'.
    revert H. generalize (10 ^ N.of_nat (String.length s)). intros k H. nia.
Qed.

(** Numerals of one width are ordered as their values. *)
Lemma digits_order s : forall t x y acc n m, str_len s = str_len t ->
  digits_value s acc = Some n -> digits_value t acc = Some m -> n < m -> lt_ord (s +:+ x) (t +:+ y).
Proof.
  induction s as [|a s IH]; intros [|b t] x y acc n m Hl; try (unfold str_len in Hl; cbn in Hl; lia).
  { intros [= <-] [= <-]. lia. }
  assert (str_len s = str_len t) as Hl' by (unfold str_len in *; cbn in Hl; lia). cbn [digits_value].
  destruct (is_ascii_digit a) eqn:Ea; [|done]. destruct (is_ascii_digit b) eqn:Eb; [|done].
  unfold is_ascii_digit, ascii_between in Ea, Eb. rewrite andb_true_iff, !N.leb_le in Ea, Eb. intros Hs Ht Hnm.
  rewrite !str_cons_app. unfold lt_ord, cmp, Ord_string. cbn [String.compare]. unfold Ascii.compare.
  destruct (N.compare_spec (N_of_ascii a) (N_of_ascii b)) as [He|Hlt|Hgt].
  - rewrite He in Hs. by eapply (IH t x y).
  - done.
  - exfalso. apply digits_value_bound in Hs, Ht. rewrite Hl' in Hs. revert Hs Ht. generalize (10 ^ str_len t). intros k Hs Ht.
    assert (10 * acc + (N_of_ascii b - 48) + 1 <= 10 * acc + (N_of_ascii a - 48)) by lia. nia.
Qed.

Lemma strip_suffix_spec x s r : strip_suffix x s = Some r -> s = r +:+ x.
Proof.
  revert r. induction s as [|a s IH]; intros r; cbn [strip_suffix].
  - destruct (str_eqb "" x) eqn:E; [|done]. apply str_eqb_eq in E as <-. by intros [= <-].
  - destruct (str_eqb (String a s) x) eqn:E.
    + apply str_eqb_eq in E as <-. by intros [= <-].
    + destruct (strip_suffix x s) as [r'|]; [|done]. intros [= <-]. rewrite str_cons_app. f_equal. by apply IH.
Qed.

(** Names with different extensions are different. *)
Lemma different_extension p q e e' : contains_char "." e = false -> contains_char "." e' = false -> e <> e' ->
  p +:+ "." +:+ e <> q +:+ "." +:+ e'.
Proof.
  intros He He' Hne H. apply (f_equal (rsplit_once ".")) in H. change ("." +:+ e) with (String "." e) in H.
  change ("." +:+ e') with (String "." e') in H. rewrite !rsplit_once_last in H by done. congruence.
Qed.
