(* ===== verification/Errors.v ===== *)
(** * Structured errors (error.rs) *)

From S2P Require Import Prelude Order Collections Text Json.

Inductive ErrorCode : Type :=
| UnsupportedKotlinVersion | UnsupportedCompilerPluginAbi | UnsupportedProjectConfiguration
| ProjectModelChanged | WorkerProtocolMismatch | WorkerPreparationRequired | WorkerCrashed
| SymbolNotFound | AmbiguousSymbol | ExpressionNotFound | StaleTarget | AmbiguousTarget
| PreconditionFailed | UnsupportedControlFlow | IncompleteSemanticAnalysis
| SliceBudgetExceeded | ReplacementParseError | TypeMismatch | BindingChanged
| NewDiagnostics | EffectChanged | WritesetExceeded | CompileFailed | TestFailed
| AbiChanged | RwConflict | WwConflict | StaleRequiresReslice | RefCompareAndSwapFailed
| TransactionRecoveryRequired | WorktreeRecoveryRequired | ResourceLimit | StateCorrupt
| InputMutated | UnsupportedLanguage | InvalidInput | Internal.

#[export] Instance ErrorCode_eq_dec : EqDecision ErrorCode.
Proof. solve_decision. Defined.

Record ClewError : Type := mkClewError {
  code : ErrorCode;
  message : string;
  transaction_id : option string;
  snapshot_id : option string;
  evidence : list string;
  relevant_anchors_or_symbols : list string;
  retryable : bool;
  details : option Value
}.

#[export] Instance ClewError_eq_dec : EqDecision ClewError.
Proof. solve_decision. Defined.

Notation Res A := (Result ClewError A).

(** [ClewError::new]. *)
Definition ClewError_new (c : ErrorCode) (m : string) : ClewError :=
  let retryable :=
    match c with
    | WorkerCrashed | RefCompareAndSwapFailed | TransactionRecoveryRequired
    | WorktreeRecoveryRequired => true
    | _ => false
    end in
  {| code := c; message := m; transaction_id := None; snapshot_id := None; evidence := [];
     relevant_anchors_or_symbols := []; retryable := retryable; details := None |}.

Definition with_transaction (e : ClewError) (transaction_id : string) : ClewError :=
  {| code := code e; message := message e; transaction_id := Some transaction_id;
     snapshot_id := snapshot_id e; evidence := evidence e;
     relevant_anchors_or_symbols := relevant_anchors_or_symbols e;
     retryable := retryable e; details := details e |}.

Definition with_snapshot (e : ClewError) (snapshot_id : string) : ClewError :=
  {| code := code e; message := message e; transaction_id := transaction_id e;
     snapshot_id := Some snapshot_id; evidence := evidence e;
     relevant_anchors_or_symbols := relevant_anchors_or_symbols e;
     retryable := retryable e; details := details e |}.

Definition with_relevant (e : ClewError) (value : string) : ClewError :=
  if negb (str_is_empty value) && negb (bool_decide (value ∈ relevant_anchors_or_symbols e))
  then {| code := code e; message := message e; transaction_id := transaction_id e;
          snapshot_id := snapshot_id e; evidence := evidence e;
          relevant_anchors_or_symbols := relevant_anchors_or_symbols e ++ [value];
          retryable := retryable e; details := details e |}
  else e.

(** The constructors each module defines for itself. *)
Definition invalid {A} (m : string) : Res A := Err (ClewError_new InvalidInput m).
Definition protocol {A} (m : string) : Res A := Err (ClewError_new WorkerProtocolMismatch m).
Definition corrupt {A} (m : string) : Res A := Err (ClewError_new StateCorrupt m).
Definition internal {A} (m : string) : Res A := Err (ClewError_new Internal m).
Definition resource_limit {A} (m : string) : Res A := Err (ClewError_new ResourceLimit m).

(** The code of an error result, for statements about which error is raised. *)
Definition err_code {A} (r : Res A) : option ErrorCode :=
  match r with Err e => Some (code e) | Ok _ => None end.

(** The anchors attached to an error stay free of repetitions and of empty
    names however the error is built, and attaching one is idempotent. *)
Theorem with_relevant_invariant e v :
  NoDup (relevant_anchors_or_symbols e) -> "" ∉ relevant_anchors_or_symbols e ->
  NoDup (relevant_anchors_or_symbols (with_relevant e v)) /\
  "" ∉ relevant_anchors_or_symbols (with_relevant e v) /\
  with_relevant (with_relevant e v) v = with_relevant e v /\
  (v <> "" -> v ∈ relevant_anchors_or_symbols (with_relevant e v)) /\
  retryable (with_relevant e v) = retryable e.
Proof.
  intros Hd He. unfold with_relevant.
  destruct v as [|a v]; [by split_and!|]. cbn [str_is_empty negb andb].
  case_bool_decide as Hin; cbn.
  - rewrite bool_decide_true by done. by split_and!.
  - rewrite bool_decide_true by (cbn; set_solver). cbn. split_and!; [|set_solver|done|set_solver|done].
    apply list.NoDup_app. split_and!; [done|set_solver|apply NoDup_singleton].
Qed.

Lemma with_relevant_invariant_witness :
  relevant_anchors_or_symbols
    (with_relevant (with_relevant (ClewError_new InvalidInput "m") "a") "a") = ["a"] /\
  with_relevant (with_relevant (ClewError_new InvalidInput "m") "a") "a"
    = with_relevant (ClewError_new InvalidInput "m") "a".
Proof.
  split; [reflexivity|].
  apply (with_relevant_invariant (ClewError_new InvalidInput "m") "a"); cbn; [constructor|set_solver].
Defined.
