(* ===== verification/CasObject.v ===== *)
(** * References to stored objects (cas.rs: CasObject and its validators)

    A [CasObject] names an immutable byte string by the SHA-256 of a domain
    prefix, the object's schema, a NUL byte and the bytes. *)

From S2P Require Import Prelude Order Collections Text Json Canonical Errors.

Definition CAS_OBJECT_SCHEMA : string := "codeclew-cas-object/2.0".
(** [b"codeclew-cas/v2\0"]. *)
Definition CAS_DOMAIN : list byte := as_bytes "codeclew-cas/v2" ++ [x00].

Record CasObject : Type := mkCasObject {
  digest : string;
  object_schema : string;
  schema : string;
  size : N
}.

#[export] Instance CasObject_eq_dec : EqDecision CasObject.
Proof. solve_decision. Defined.

(** The derived [Serialize], camelCase, fields in declaration order. *)
Definition cas_object_value (o : CasObject) : Value :=
  JObject [("digest", JString (digest o)); ("objectSchema", JString (object_schema o));
           ("schema", JString (schema o)); ("size", JNumber (PosInt (size o)))].

Definition digest_component (value : string) : Res string :=
  let? component := ok_or (strip_prefix "sha256:" value)
                      (ClewError_new StateCorrupt "CAS digest prefix is invalid") in
  if negb (str_len component =? 64) || negb (str_all lower_hex_byte component)
  then corrupt "CAS digest spelling is invalid"
  else Ok component.

Definition schema_byte (a : ascii) : bool :=
  is_ascii_alphanumeric a || Ascii.eqb a "-" || Ascii.eqb a "_" || Ascii.eqb a "." || Ascii.eqb a "/".

Definition validate_object_schema (value : string) : Res unit :=
  if str_is_empty value || (128 <? str_len value) || negb (str_all schema_byte value)
  then invalid "CAS object schema is not a bounded canonical identifier"
  else Ok tt.

Definition validate_reference (object : CasObject) : Res unit :=
  if str_neqb (schema object) CAS_OBJECT_SCHEMA || (usize_max <? size object)
  then corrupt "CAS object reference is invalid"
  else
    validate_object_schema (object_schema object) ;;?
    let? _ := digest_component (digest object) in Ok tt.

Section Digest.
Context {P : Primitives}.

Definition digest_preimage (object_schema : string) (bytes : list byte) : list byte :=
  CAS_DOMAIN ++ as_bytes object_schema ++ [x00] ++ bytes.

Definition object_digest (object_schema : string) (bytes : list byte) : string :=
  hash_bytes (digest_preimage object_schema bytes).

(** [CasObject::for_bytes]. *)
Definition for_bytes (object_schema : string) (bytes : list byte) : Res CasObject :=
  validate_object_schema object_schema ;;?
  Ok {| schema := CAS_OBJECT_SCHEMA; object_schema := object_schema;
        digest := object_digest object_schema bytes; size := vlen bytes |}.
End Digest.

(* --------------------------------------------------------------------- *)
(** ** Lemmas *)

Lemma digest_component_ok value c :
  digest_component value = Ok c <-> digest_by_prefix value = Some c.
Proof.
  unfold digest_component, digest_by_prefix.
  destruct (strip_prefix "sha256:" value) as [s|]; cbn; [|done].
  destruct (str_len s =? 64), (str_all lower_hex_byte s); cbn; naive_solver.
Qed.

Lemma digest_component_of_digest value :
  digest_by_slice value = true -> exists c, digest_component value = Ok c.
Proof.
  intros Hd. apply digest_spellings_agree in Hd as (c & Hc). exists c. by apply digest_component_ok.
Qed.

Lemma as_bytes_inj s t : as_bytes s = as_bytes t -> s = t.
Proof.
  intros He. rewrite <- (String.string_of_list_byte_of_string s),
    <- (String.string_of_list_byte_of_string t). unfold as_bytes in He. by rewrite He.
Qed.

(** No byte of a valid schema is the NUL that separates it from the content. *)
Lemma schema_no_nul s : str_all schema_byte s = true -> Byte.x00 ∉ as_bytes s.
Proof.
  unfold as_bytes. induction s as [|a s IH]; cbn.
  - intros _. apply not_elem_of_nil.
  - rewrite andb_true_iff. intros [Ha Hs]. rewrite not_elem_of_cons. split; [|by apply IH].
    intros He. assert (a = nul) as ->; [|done].
    rewrite <- (ascii_of_byte_of_ascii a), <- He. done.
Qed.

Lemma app_separator_inj {A} (z : A) l l' r r' :
  z ∉ l -> z ∉ l' -> l ++ z :: r = l' ++ z :: r' -> l = l' /\ r = r'.
Proof.
  revert l'; induction l as [|a l IH]; intros [|b l'] Hl Hl' He; cbn in *.
  - by injection He.
  - injection He as -> _. set_solver.
  - injection He as <- _. set_solver.
  - injection He as -> He. destruct (IH l') as [-> ->]; [set_solver..|done].
Qed.

Lemma validate_object_schema_ok s :
  validate_object_schema s = Ok tt <->
  s <> "" /\ str_len s <= 128 /\ str_all schema_byte s = true.
Proof.
  unfold validate_object_schema. destruct s as [|a s]; [cbn; naive_solver|].
  cbn [str_is_empty orb]. destruct (N.ltb_spec 128 (str_len (String a s)));
    destruct (str_all schema_byte (String a s)); cbn; split; try done; intros; naive_solver lia.
Qed.

(** The bytes hashed for an object determine its schema and its content:
    with two admissible schemas, equal preimages come from equal schemas and
    equal bytes, so an object can never be read back under another schema. *)
Theorem digest_preimage_injective s b s' b' :
  validate_object_schema s = Ok tt -> validate_object_schema s' = Ok tt ->
  digest_preimage s b = digest_preimage s' b' -> s = s' /\ b = b'.
Proof.
  rewrite !validate_object_schema_ok. intros (_ & _ & Hs) (_ & _ & Hs') He.
  apply app_inv_head in He. cbn [app] in He.
  apply app_separator_inj in He as [He ->]; [|by apply schema_no_nul..].
  split; [by apply as_bytes_inj|done].
Qed.

Lemma digest_preimage_injective_witness :
  validate_object_schema "test/object/1" = Ok tt /\
  ("test/object/1" = "test/object/1" /\ [x01] = [x01]).
Proof.
  split; [reflexivity|].
  apply (digest_preimage_injective "test/object/1" [x01] "test/object/1" [x01]); reflexivity.
Defined.

Lemma for_bytes_ok {P : Primitives} s b o :
  for_bytes s b = Ok o <->
  validate_object_schema s = Ok tt /\
  o = {| schema := CAS_OBJECT_SCHEMA; object_schema := s; digest := object_digest s b; size := vlen b |}.
Proof. unfold for_bytes. destruct (validate_object_schema s) as [[]|]; cbn; naive_solver. Qed.

(** A reference derived from bytes is a valid reference. *)
Lemma for_bytes_reference {P : Primitives} {L : PrimitivesLaws P} s b o :
  for_bytes s b = Ok o -> vlen b <= usize_max -> validate_reference o = Ok tt.
Proof.
  rewrite for_bytes_ok. intros [Hs ->] Hlen. unfold validate_reference. cbn [schema size object_schema digest].
  rewrite str_neqb_refl. destruct (N.ltb_spec usize_max (vlen b)); [lia|]. cbn [orb].
  rewrite Hs. cbn. destruct (digest_component_of_digest (object_digest s b)) as (c & ->); [|done].
  apply hash_bytes_digest.
Qed.
