(* ===== verification/CasInterface.v ===== *)
(** * The store as its clients see it

    Manifests and generations use the content-addressed store through two
    operations.  [CasLaws] is what the store promises about them; CasStore
    provides the operations of cas.rs and proves the laws. *)

From S2P Require Import Prelude Order Collections Text Json Canonical Errors CasObject.

Class CasOps (S : Type) : Type := {
  cas_put : S -> string -> list byte -> S * Res CasObject;
  cas_read : S -> CasObject -> N -> S * Res (list byte)
}.

Class CasLaws (S : Type) {P : Primitives} {O : CasOps S} : Prop := {
  (** Bytes are returned only under the reference derived from them. *)
  cas_read_sound : forall s o m s' b,
    cas_read s o m = (s', Ok b) -> for_bytes (object_schema o) b = Ok o /\ vlen b <= m;
  (** A published object is named by the reference derived from its bytes. *)
  cas_put_sound : forall s k b s' o, cas_put s k b = (s', Ok o) -> for_bytes k b = Ok o
}.

(** Publication of several objects at once ([put_batch]), in the order given. *)
Class CasBatchOps (S : Type) : Type := {
  cas_put_batch : S -> list (string * list byte) -> S * Res (list CasObject)
}.
Class CasBatchLaws (S : Type) {P : Primitives} {B : CasBatchOps S} : Prop := {
  cas_put_batch_sound : forall s l s' objects,
    cas_put_batch s l = (s', Ok objects) -> Forall2 (fun e o => for_bytes e.1 e.2 = Ok o) l objects
}.

(** A [for] loop whose body changes the store and may return early. *)
Fixpoint store_for_each {S A} (f : S -> A -> S * Res unit) (s : S) (l : list A) : S * Res unit :=
  match l with
  | [] => (s, Ok tt)
  | a :: l' => let '(s', r) := f s a in
               match r with Ok _ => store_for_each f s' l' | Err e => (s', Err e) end
  end.

(** Sequencing of operations that change the store and may return early. *)
Definition store_bind {S A B} (m : S * Res A) (k : S -> A -> S * Res B) : S * Res B :=
  match m with (s, Ok a) => k s a | (s, Err e) => (s, Err e) end.
Notation "'do!' s , x ':=' m 'in' k" := (store_bind m (fun s x => k))
  (at level 10, s name, x name, m at level 100, k at level 200) : rust_scope.
(** A computation that leaves the store alone. *)
Definition pure_on {S A} (s : S) (r : Res A) : S * Res A := (s, r).

(** A loop that changes the store and threads a local. *)
Fixpoint store_fold {S A T} (f : S -> T -> A -> S * Res T) (s : S) (t : T) (l : list A) : S * Res T :=
  match l with
  | [] => (s, Ok t)
  | a :: l' => do! s, t := f s t a in store_fold f s t l'
  end.

Lemma store_bind_ok {S A B} (m : S * Res A) (k : S -> A -> S * Res B) s' b :
  store_bind m k = (s', Ok b) <-> exists s a, m = (s, Ok a) /\ k s a = (s', Ok b).
Proof.
  destruct m as [s [a|e]]; cbn; [|naive_solver]. split; [eauto|]. by intros (? & ? & [= <- <-] & ?).
Qed.

Lemma store_guard_ok {S A} (b : bool) s (e : ClewError) (k : S * Res A) s' a :
  (if b then (s, Err e) else k) = (s', Ok a) <-> b = false /\ k = (s', Ok a).
Proof. destruct b; naive_solver. Qed.

Lemma store_fold_app {S A T} (f : S -> T -> A -> S * Res T) l k : forall s t,
  store_fold f s t (l ++ k) = (do! s', t' := store_fold f s t l in store_fold f s' t' k).
Proof.
  induction l as [|a l IH]; intros s t; cbn; [done|]. destruct (f s t a) as [s1 [t1|]]; cbn; [apply IH|done].
Qed.

(** The loop rule: an invariant indexed by the consumed prefix. *)
(** The result of a run that is known to succeed. *)
Definition ok_or_else {A} (d : A) (r : Res A) : A := match r with Ok a => a | Err _ => d end.
Lemma succeeds {S A} (r : S * Res A) (d : A) s : r.1 = s -> is_ok r.2 = true -> r = (s, Ok (ok_or_else d r.2)).
Proof. destruct r as [s' [a|]]; cbn; [|done]. by intros -> _. Qed.

Lemma store_fold_rel {S A T} (f : S -> T -> A -> S * Res T) (Rel : S -> S -> Prop) l :
  (forall s, Rel s s) -> (forall s1 s2 s3, Rel s1 s2 -> Rel s2 s3 -> Rel s1 s3) ->
  (forall s t a s' t', f s t a = (s', Ok t') -> Rel s s') ->
  forall s t s' t', store_fold f s t l = (s', Ok t') -> Rel s s'.
Proof.
  intros Hrefl Htrans Hf. induction l as [|a l IH]; intros s t s' t' H; cbn in H; [by injection H as <- _|].
  rewrite store_bind_ok in H. destruct H as (s1 & t1 & H1 & H). eauto.
Qed.
Lemma store_fold_inv {S A T} (f : S -> T -> A -> S * Res T) (Q : list A -> T -> Prop) l : forall pre s t s' t',
  (forall pre a s t s' t', Q pre t -> f s t a = (s', Ok t') -> Q (pre ++ [a]) t') ->
  Q pre t -> store_fold f s t l = (s', Ok t') -> Q (pre ++ l) t'.
Proof.
  induction l as [|a l IH]; intros pre s t s' t' Hstep HQ H; cbn in H.
  - injection H as <- <-. by rewrite app_nil_r.
  - rewrite store_bind_ok in H. destruct H as (s1 & t1 & Hf & H).
    replace (pre ++ a :: l) with ((pre ++ [a]) ++ l) by (by rewrite <- app_assoc). eauto.
Qed.

Section Lemmas.
Context {S A : Type}.

(** A loop that succeeds ran its body successfully on every element. *)
Lemma store_for_each_ok (f : S -> A -> S * Res unit) (Q : A -> Prop) l : forall s s',
  (forall s a s', f s a = (s', Ok tt) -> Q a) ->
  store_for_each f s l = (s', Ok tt) -> Forall Q l.
Proof.
  induction l as [|a l IH]; intros s s' Hf; cbn; [constructor|].
  destruct (f s a) as [s1 [[]|]] eqn:E; [|done]. intros H. constructor; [by eapply Hf|by eapply IH].
Qed.
End Lemmas.
