(* ===== verification/Catalog.v ===== *)
(** * The pack catalog (cas.rs: packs, catalog records, replay)

    Packed objects are found through an in-memory catalog: [packs], the pack
    manifests by data name, and [locations], for every digest the location that
    wins (smallest data name, first entry of that pack).  The catalog is rebuilt
    from a snapshot and advanced by a journal of add and remove records.

    [locations] is redundant: [catalog_inv] says it is what
    [locations_from_packs] computes from [packs].  The theorems show that the
    journal keeps it so, although additions update it in place, replay defers
    the rebuild after removals, and a record may be refused half way. *)

From stdpp Require Import gmap.
From S2P Require Import Prelude Order Collections Text Json Canonical Instances Errors CasObject.

Definition CAS_PACK_SCHEMA : string := "codeclew-cas-pack/3.0".
Definition CATALOG_SNAPSHOT_SCHEMA : string := "codeclew-cas-catalog-snapshot/1.0".
Definition CATALOG_RECORD_SCHEMA : string := "codeclew-cas-catalog-record/1.0".
Definition MAX_PACK_INDEX_BYTES : N := 64 * 1024 * 1024.
Definition MAX_CATALOG_RECORD_BYTES : N := MAX_PACK_INDEX_BYTES + 4096.
Definition CATALOG_SNAPSHOT_INTERVAL : N := 64.
Definition CATALOG_SNAPSHOT_TAIL_BYTES : N := 8 * 1024 * 1024.

Record PackEntry : Type := mkPackEntry { pe_object : CasObject; pe_offset : N }.
Record PackManifest : Type := mkPackManifest {
  pm_data_sha256 : string;
  pm_data_size : N;
  pm_objects : list PackEntry;
  pm_schema : string
}.
Record PackLocation : Type := mkPackLocation { pl_data_name : string; pl_entry : PackEntry }.
Record CatalogPack : Type := mkCatalogPack { cp_data_name : string; cp_manifest : PackManifest }.
Record CatalogSnapshot : Type := mkCatalogSnapshot {
  cs_last_record_digest : option string;
  cs_packs : list CatalogPack;
  cs_schema : string;
  cs_sequence : N
}.
Inductive CatalogOperation : Type := Add | Remove.
Record CatalogRecord : Type := mkCatalogRecord {
  cr_operation : CatalogOperation;
  cr_pack : CatalogPack;
  cr_previous_record_digest : option string;
  cr_schema : string;
  cr_sequence : N
}.

(** The in-memory catalog of a process that has materialized the JSON snapshot
    (the memory-mapped lookup accelerator is not in use). *)
Record CatalogState : Type := mkCatalogState {
  initialized : bool;
  sequence : N;
  snapshot_sequence : N;
  last_record_digest : option string;
  snapshot_digest : option string;
  tail_bytes : N;
  deferred_since_sequence : option N;
  deferred_snapshot_bytes : N;
  packs : BTreeMap string PackManifest;
  locations : gmap string PackLocation
}.

#[export] Instance PackEntry_eq_dec : EqDecision PackEntry.
Proof. solve_decision. Defined.
#[export] Instance PackManifest_eq_dec : EqDecision PackManifest.
Proof. solve_decision. Defined.
#[export] Instance CatalogOperation_eq_dec : EqDecision CatalogOperation.
Proof. solve_decision. Defined.

Definition default_state : CatalogState :=
  {| initialized := false; sequence := 0; snapshot_sequence := 0; last_record_digest := None;
     snapshot_digest := None; tail_bytes := 0; deferred_since_sequence := None;
     deferred_snapshot_bytes := 0; packs := []; locations := ∅ |}.

Definition set_packs (st : CatalogState) (p : BTreeMap string PackManifest) : CatalogState :=
  {| initialized := initialized st; sequence := sequence st;
     snapshot_sequence := snapshot_sequence st; last_record_digest := last_record_digest st;
     snapshot_digest := snapshot_digest st; tail_bytes := tail_bytes st;
     deferred_since_sequence := deferred_since_sequence st;
     deferred_snapshot_bytes := deferred_snapshot_bytes st; packs := p; locations := locations st |}.
Definition set_locations (st : CatalogState) (l : gmap string PackLocation) : CatalogState :=
  {| initialized := initialized st; sequence := sequence st;
     snapshot_sequence := snapshot_sequence st; last_record_digest := last_record_digest st;
     snapshot_digest := snapshot_digest st; tail_bytes := tail_bytes st;
     deferred_since_sequence := deferred_since_sequence st;
     deferred_snapshot_bytes := deferred_snapshot_bytes st; packs := packs st; locations := l |}.
(** [state.sequence = ..; state.last_record_digest = Some(..); state.tail_bytes.saturating_add(..)]. *)
Definition set_tail (st : CatalogState) (seq : N) (d : string) (bytes : N) : CatalogState :=
  {| initialized := initialized st; sequence := seq;
     snapshot_sequence := snapshot_sequence st; last_record_digest := Some d;
     snapshot_digest := snapshot_digest st; tail_bytes := N.min u64_max (tail_bytes st + bytes);
     deferred_since_sequence := deferred_since_sequence st;
     deferred_snapshot_bytes := deferred_snapshot_bytes st; packs := packs st; locations := locations st |}.

(* --------------------------------------------------------------------- *)
(** ** Serialization: struct fields in declaration order *)

Definition opt_string_value (o : option string) : Value :=
  match o with Some s => JString s | None => JNull end.
Definition pack_entry_value (e : PackEntry) : Value :=
  JObject [("object", cas_object_value (pe_object e)); ("offset", JNumber (PosInt (pe_offset e)))].
Definition pack_manifest_value (m : PackManifest) : Value :=
  JObject [("dataSha256", JString (pm_data_sha256 m)); ("dataSize", JNumber (PosInt (pm_data_size m)));
           ("objects", JArray (map pack_entry_value (pm_objects m))); ("schema", JString (pm_schema m))].
Definition catalog_pack_value (p : CatalogPack) : Value :=
  JObject [("dataName", JString (cp_data_name p)); ("manifest", pack_manifest_value (cp_manifest p))].
Definition catalog_snapshot_value (s : CatalogSnapshot) : Value :=
  JObject [("lastRecordDigest", opt_string_value (cs_last_record_digest s));
           ("packs", JArray (map catalog_pack_value (cs_packs s)));
           ("schema", JString (cs_schema s)); ("sequence", JNumber (PosInt (cs_sequence s)))].
Definition catalog_operation_value (o : CatalogOperation) : Value :=
  JString (match o with Add => "ADD" | Remove => "REMOVE" end).
Definition catalog_record_value (r : CatalogRecord) : Value :=
  JObject [("operation", catalog_operation_value (cr_operation r));
           ("pack", catalog_pack_value (cr_pack r));
           ("previousRecordDigest", opt_string_value (cr_previous_record_digest r));
           ("schema", JString (cr_schema r)); ("sequence", JNumber (PosInt (cr_sequence r)))].

Section Catalog.
Context {P : Primitives}.

(** [catalog_bytes]: serde_json::to_vec of the struct, without the canonical sort. *)
Definition catalog_bytes (v : Value) : list byte := to_vec v.
Definition catalog_hash (v : Value) : string := hash_bytes (catalog_bytes v).

(* --------------------------------------------------------------------- *)
(** ** Operations *)

Definition validate_entry (end_ : N) (entry : PackEntry) : Res N :=
  validate_reference (pe_object entry) ;;?
  if negb (pe_offset entry =? end_) then corrupt "CAS pack object offsets are not contiguous"
  else ok_or (u64_checked_add end_ (size (pe_object entry)))
         (ClewError_new StateCorrupt "CAS pack object range overflow").

Definition validate_pack_manifest (data_name : string) (manifest : PackManifest) : Res unit :=
  if str_neqb (pm_schema manifest) CAS_PACK_SCHEMA then corrupt "CAS pack schema is invalid"
  else
    let manifest_digest := catalog_hash (pack_manifest_value manifest) in
    let? component := digest_component manifest_digest in
    if str_neqb data_name (component +:+ ".pack")
    then corrupt "CAS pack data name differs from its manifest"
    else
      let? _ := digest_component (pm_data_sha256 manifest) in
      let? end_ := try_fold validate_entry 0 (pm_objects manifest) in
      if negb (end_ =? pm_data_size manifest)
      then corrupt "CAS pack object ranges do not cover pack data"
      else Ok tt.

(** [add_pack_to_catalog] mutates the map it is given: on a collision the
    entries already added stay. *)
Fixpoint add_entries (data_name : string) (entries : list PackEntry)
    (catalog : gmap string PackLocation) : gmap string PackLocation * Res unit :=
  match entries with
  | [] => (catalog, Ok tt)
  | entry :: entries' =>
      let location := {| pl_data_name := data_name; pl_entry := entry |} in
      match catalog !! digest (pe_object entry) with
      | Some existing =>
          if negb (bool_decide (pe_object (pl_entry existing) = pe_object entry))
          then (catalog, corrupt "CAS pack catalog has a digest collision")
          else if leb (pl_data_name existing) (pl_data_name location)
          then add_entries data_name entries' catalog
          else add_entries data_name entries' (<[digest (pe_object entry) := location]> catalog)
      | None => add_entries data_name entries' (<[digest (pe_object entry) := location]> catalog)
      end
  end.
Definition add_pack_to_catalog (catalog : gmap string PackLocation) (data_name : string)
    (manifest : PackManifest) : gmap string PackLocation * Res unit :=
  add_entries data_name (pm_objects manifest) catalog.

Fixpoint add_packs (catalog : gmap string PackLocation) (ps : list (string * PackManifest))
    : Res (gmap string PackLocation) :=
  match ps with
  | [] => Ok catalog
  | (data_name, manifest) :: ps' =>
      let '(catalog', r) := add_pack_to_catalog catalog data_name manifest in
      r ;;? add_packs catalog' ps'
  end.
Definition locations_from_packs (ps : BTreeMap string PackManifest) : Res (gmap string PackLocation) :=
  add_packs ∅ ps.

Definition remove_catalog_pack (st : CatalogState) (pack : CatalogPack) : CatalogState * Res unit :=
  if bool_decide (bmap_get (cp_data_name pack) (packs st) = Some (cp_manifest pack))
  then (set_packs st (bmap_remove (cp_data_name pack) (packs st)), Ok tt)
  else (st, corrupt "CAS catalog removes a different or missing pack").

Definition apply_catalog_record (st : CatalogState) (record : CatalogRecord) : CatalogState * Res unit :=
  let pack := cr_pack record in
  match validate_pack_manifest (cp_data_name pack) (cp_manifest pack) with
  | Err e => (st, Err e)
  | Ok _ =>
      match cr_operation record with
      | Add =>
          let st1 := set_packs st (bmap_insert (cp_data_name pack) (cp_manifest pack) (packs st)) in
          match bmap_get (cp_data_name pack) (packs st) with
          | Some _ => (st1, corrupt "CAS catalog adds an existing pack")
          | None =>
              let '(l, r) := add_pack_to_catalog (locations st1) (cp_data_name pack) (cp_manifest pack) in
              (set_locations st1 l, r)
          end
      | Remove =>
          let '(st1, r) := remove_catalog_pack st pack in
          match r with
          | Err e => (st1, Err e)
          | Ok _ =>
              match locations_from_packs (packs st1) with
              | Ok l => (set_locations st1 l, Ok tt)
              | Err e => (st1, Err e)
              end
          end
      end
  end.

Definition catalog_snapshot_due (st : CatalogState) : bool :=
  (CATALOG_SNAPSHOT_INTERVAL <=? sequence st - snapshot_sequence st)
  || (CATALOG_SNAPSHOT_TAIL_BYTES <=? tail_bytes st).

Definition snapshot_from_catalog_state (st : CatalogState) : CatalogSnapshot :=
  {| cs_schema := CATALOG_SNAPSHOT_SCHEMA; cs_sequence := sequence st;
     cs_last_record_digest := last_record_digest st;
     cs_packs := map (fun e => {| cp_data_name := e.1; cp_manifest := e.2 |}) (packs st) |}.

(** [catalog_state_from_snapshot]: the loop over the packs of a snapshot (the
    thread pool only precomputes the manifest checks, in the same order). *)
Definition snapshot_step (acc : BTreeMap string PackManifest * option string) (pack : CatalogPack)
    : Res (BTreeMap string PackManifest * option string) :=
  let '(ps, previous) := acc in
  if match previous with Some name => geb name (cp_data_name pack) | None => false end
  then corrupt "CAS catalog snapshot packs are not strictly sorted"
  else
    validate_pack_manifest (cp_data_name pack) (cp_manifest pack) ;;?
    match bmap_get (cp_data_name pack) ps with
    | Some _ => corrupt "CAS catalog snapshot repeats a pack"
    | None => Ok (bmap_insert (cp_data_name pack) (cp_manifest pack) ps, Some (cp_data_name pack))
    end.
Definition catalog_state_from_snapshot (snapshot : CatalogSnapshot) (digest : string) : Res CatalogState :=
  let? acc := try_fold snapshot_step ([], None) (cs_packs snapshot) in
  let? l := locations_from_packs acc.1 in
  Ok {| initialized := true; sequence := cs_sequence snapshot;
        snapshot_sequence := cs_sequence snapshot;
        last_record_digest := cs_last_record_digest snapshot; snapshot_digest := Some digest;
        tail_bytes := 0; deferred_since_sequence := None; deferred_snapshot_bytes := 0;
        packs := acc.1; locations := l |}.

(* --------------------------------------------------------------------- *)
(** ** Replaying the journal *)

(** [{sequence:020}]: decimal, padded with zeros to width 20. *)
Fixpoint zeros (n : nat) : string := match n with O => "" | S n' => String "0" (zeros n') end.
Definition pad20 (n : N) : string :=
  let d := decimal n in zeros (20 - String.length d) +:+ d.
Definition catalog_record_name (seq : N) (digest : string) : Res string :=
  let? component := digest_component digest in
  Ok (pad20 seq +:+ "-" +:+ component +:+ ".record").

(** The record directory: bytes by file name; a name that is not UTF-8 is [None].
    [parse_record] is serde_json::from_slice into the closed record type. *)
Context (parse_record : list byte -> option CatalogRecord).

Definition read_record (dir : gmap string (list byte)) (name : option string)
    : Res (CatalogRecord * string * N) :=
  let? name_text := ok_or name (ClewError_new StateCorrupt "CAS catalog record name is not UTF-8") in
  let? bytes := ok_or (b ← dir !! name_text; if vlen b <=? MAX_CATALOG_RECORD_BYTES then Some b else None)
                  (ClewError_new StateCorrupt "CAS catalog record is missing or unsafe") in
  let? record := ok_or (parse_record bytes) (ClewError_new StateCorrupt "CAS catalog record is invalid") in
  let record_bytes := catalog_bytes (catalog_record_value record) in
  let record_digest := hash_bytes record_bytes in
  if str_neqb (cr_schema record) CATALOG_RECORD_SCHEMA || negb (bool_decide (record_bytes = bytes))
  then corrupt "CAS catalog record authority mismatch"
  else
    let? expected := catalog_record_name (cr_sequence record) record_digest in
    if str_neqb expected name_text then corrupt "CAS catalog record authority mismatch"
    else Ok (record, record_digest, vlen bytes).

(** One iteration: the state, whether a rebuild is pending, and the outcome. *)
Definition replay_step (dir : gmap string (list byte)) (name : option string)
    (st : CatalogState) (removals_pending : bool) : CatalogState * bool * Res unit :=
  match read_record dir name with
  | Err e => (st, removals_pending, Err e)
  | Ok (record, record_digest, len) =>
      if cr_sequence record <=? sequence st then (st, removals_pending, Ok tt)
      else if negb (cr_sequence record =? sequence st + 1)
              || negb (bool_decide (cr_previous_record_digest record = last_record_digest st))
      then (st, removals_pending, corrupt "CAS catalog record chain is discontinuous")
      else
        match cr_operation record with
        | Remove =>
            match validate_pack_manifest (cp_data_name (cr_pack record)) (cp_manifest (cr_pack record)) with
            | Err e => (st, removals_pending, Err e)
            | Ok _ =>
                let '(st1, r) := remove_catalog_pack st (cr_pack record) in
                match r with
                | Err e => (st1, removals_pending, Err e)
                | Ok _ => (set_tail st1 (cr_sequence record) record_digest len, true, Ok tt)
                end
            end
        | Add =>
            match (if removals_pending
                   then match locations_from_packs (packs st) with
                        | Ok l => Ok (set_locations st l, false)
                        | Err e => Err e
                        end
                   else Ok (st, false)) with
            | Err e => (st, removals_pending, Err e)
            | Ok (st0, pending0) =>
                let '(st1, r) := apply_catalog_record st0 record in
                match r with
                | Err e => (st1, pending0, Err e)
                | Ok _ => (set_tail st1 (cr_sequence record) record_digest len, pending0, Ok tt)
                end
            end
        end
  end.

Fixpoint replay_loop (dir : gmap string (list byte)) (names : list (option string))
    (st : CatalogState) (removals_pending : bool) : CatalogState * bool * Res unit :=
  match names with
  | [] => (st, removals_pending, Ok tt)
  | name :: names' =>
      let '(st1, pending1, r) := replay_step dir name st removals_pending in
      match r with
      | Err e => (st1, pending1, Err e)
      | Ok _ => replay_loop dir names' st1 pending1
      end
  end.

Definition replay_catalog_records_locked (dir : gmap string (list byte))
    (names : list (option string)) (st : CatalogState) : CatalogState * Res unit :=
  let '(st1, removals_pending, outcome) := replay_loop dir names st false in
  if removals_pending || is_err outcome then
    match locations_from_packs (packs st1) with
    | Ok l => (set_locations st1 l, outcome)
    | Err error => (default_state, match outcome with Ok _ => Err error | Err e => Err e end)
    end
  else (st1, outcome).

(** Reference: the journal applied record by record, rebuilding after every removal. *)
Definition apply_step (dir : gmap string (list byte)) (name : option string) (st : CatalogState)
    : CatalogState * Res unit :=
  match read_record dir name with
  | Err e => (st, Err e)
  | Ok (record, record_digest, len) =>
      if cr_sequence record <=? sequence st then (st, Ok tt)
      else if negb (cr_sequence record =? sequence st + 1)
              || negb (bool_decide (cr_previous_record_digest record = last_record_digest st))
      then (st, corrupt "CAS catalog record chain is discontinuous")
      else
        let '(st1, r) := apply_catalog_record st record in
        match r with
        | Err e => (st1, Err e)
        | Ok _ => (set_tail st1 (cr_sequence record) record_digest len, Ok tt)
        end
  end.
Fixpoint apply_all (dir : gmap string (list byte)) (names : list (option string)) (st : CatalogState)
    : CatalogState * Res unit :=
  match names with
  | [] => (st, Ok tt)
  | name :: names' =>
      let '(st1, r) := apply_step dir name st in
      match r with Err e => (st1, Err e) | Ok _ => apply_all dir names' st1 end
  end.
End Catalog.

(** The redundancy of the catalog: packs are keyed in order and the winning
    locations are those of the packs. *)
Definition catalog_inv (st : CatalogState) : Prop :=
  bmap_wf (packs st) /\ locations_from_packs (packs st) = Ok (locations st).

(* --------------------------------------------------------------------- *)
(** ** What the location map contains *)

Notation loc_object l := (pe_object (pl_entry l)).
Notation loc_digest l := (digest (pe_object (pl_entry l))).

(** Of two locations of one digest the smaller data name wins, the first if equal. *)
Definition pick (a b : PackLocation) : PackLocation :=
  if leb (pl_data_name a) (pl_data_name b) then a else b.
Definition opick (x y : option PackLocation) : option PackLocation :=
  match x, y with
  | Some a, Some b => Some (pick a b)
  | Some a, None => Some a
  | None, y => y
  end.
Definition only (d : string) (l : PackLocation) : option PackLocation :=
  if decide (loc_digest l = d) then Some l else None.
Definition best (d : string) (es : list PackLocation) : option PackLocation :=
  foldr (fun l acc => opick (only d l) acc) None es.

Arguments best : simpl never.
Lemma best_cons d l es : best d (l :: es) = opick (only d l) (best d es).
Proof. done. Qed.

Definition pack_locations (e : string * PackManifest) : list PackLocation :=
  map (mkPackLocation e.1) (pm_objects e.2).
Definition entries_of (ps : list (string * PackManifest)) : list PackLocation :=
  flat_map pack_locations ps.

Definition collision_free (es : list PackLocation) : Prop :=
  forall l l', l ∈ es -> l' ∈ es -> loc_digest l = loc_digest l' -> loc_object l = loc_object l'.
Definition represents (cat : gmap string PackLocation) (es : list PackLocation) : Prop :=
  forall d, cat !! d = best d es.

(** The loop over entries, with the location built outside. *)
Fixpoint add_locs (es : list PackLocation) (cat : gmap string PackLocation)
    : gmap string PackLocation * Res unit :=
  match es with
  | [] => (cat, Ok tt)
  | l :: es' =>
      match cat !! loc_digest l with
      | Some ex =>
          if negb (bool_decide (loc_object ex = loc_object l))
          then (cat, corrupt "CAS pack catalog has a digest collision")
          else if leb (pl_data_name ex) (pl_data_name l) then add_locs es' cat
          else add_locs es' (<[loc_digest l := l]> cat)
      | None => add_locs es' (<[loc_digest l := l]> cat)
      end
  end.

Lemma add_entries_locs n es cat : add_entries n es cat = add_locs (map (mkPackLocation n) es) cat.
Proof.
  revert cat; induction es as [|e es IH]; intros cat; cbn; [done|].
  destruct (cat !! _) as [ex|]; [|apply IH].
  destruct (negb _); [done|]. destruct (leb _ _); apply IH.
Qed.

Lemma add_locs_app es1 es2 cat :
  add_locs (es1 ++ es2) cat =
  let '(cat1, r) := add_locs es1 cat in
  match r with Err e => (cat1, Err e) | Ok _ => add_locs es2 cat1 end.
Proof.
  revert cat; induction es1 as [|l es1 IH]; intros cat; cbn; [done|].
  destruct (cat !! _) as [ex|]; [|apply IH].
  destruct (negb _); [done|]. destruct (leb _ _); apply IH.
Qed.

Lemma add_packs_locs ps cat :
  add_packs cat ps =
  let '(cat1, r) := add_locs (entries_of ps) cat in
  match r with Err e => Err e | Ok _ => Ok cat1 end.
Proof.
  revert cat; induction ps as [|[n m] ps IH]; intros cat; cbn; [done|].
  unfold add_pack_to_catalog. rewrite add_entries_locs, add_locs_app. unfold pack_locations; cbn.
  destruct (add_locs _ cat) as [cat1 [[]|e]]; cbn; [apply IH|done].
Qed.

Lemma leb_total_str (a b : string) : leb a b = false -> leb b a = true.
Proof.
  unfold leb. rewrite negb_false_iff, negb_true_iff, ltb_lt, ltb_ge. apply lt_asym.
Qed.

Lemma leb_trans_str (a b c : string) : leb a b = true -> leb b c = true -> leb a c = true.
Proof.
  unfold leb. rewrite !negb_true_iff, !ltb_ge. intros H1 H2 H3.
  apply nlt_cases in H1 as [->|H1]; [done|]. apply H2. by eapply lt_trans.
Qed.

Lemma leb_antisym_str (a b : string) : leb a b = true -> leb b a = true -> a = b.
Proof.
  unfold leb. rewrite !negb_true_iff, !ltb_ge. intros H1 H2.
  apply nlt_cases in H1 as [->|H1]; [done|]. by destruct (H2 H1).
Qed.

Lemma leb_refl_str (a : string) : leb a a = true.
Proof. unfold leb. rewrite negb_true_iff, ltb_ge. apply lt_irrefl. Qed.

Lemma pick_assoc a b c : pick a (pick b c) = pick (pick a b) c.
Proof.
  unfold pick. destruct (leb (pl_data_name b) (pl_data_name c)) eqn:Ebc,
    (leb (pl_data_name a) (pl_data_name b)) eqn:Eab; rewrite ?Ebc; try done.
  - by rewrite (leb_trans_str _ _ _ Eab Ebc).
  - destruct (leb (pl_data_name a) (pl_data_name c)) eqn:Eac; [|done].
    exfalso. apply leb_total_str in Eab. rewrite (leb_trans_str _ _ _ Eab Eac) in Ebc. done.
Qed.

Lemma opick_assoc x y z : opick x (opick y z) = opick (opick x y) z.
Proof. destruct x, y, z; cbn; try done. by rewrite pick_assoc. Qed.

Lemma opick_none_r x : opick x None = x.
Proof. by destruct x. Qed.

Lemma best_app d es1 es2 : best d (es1 ++ es2) = opick (best d es1) (best d es2).
Proof.
  induction es1 as [|l es1 IH]; cbn [app]; [done|]. by rewrite !best_cons, IH, opick_assoc.
Qed.

Lemma best_in d es l : best d es = Some l -> l ∈ es /\ loc_digest l = d.
Proof.
  revert l; induction es as [|a es IH]; intros l; [done|]. rewrite best_cons.
  unfold only. case_decide as Ha; cbn.
  - destruct (best d es) as [b|]; cbn.
    + intros [= <-]. unfold pick. destruct (leb _ _); [split; [left|done]|].
      destruct (IH _ eq_refl). split; [by right|done].
    + intros [= <-]. split; [left|done].
  - intros Hb. destruct (IH _ Hb). split; [by right|done].
Qed.

Lemma best_none d es l : best d es = None -> l ∈ es -> loc_digest l <> d.
Proof.
  induction es as [|a es IH]; [set_solver|]. rewrite best_cons. unfold only. case_decide as Ha; cbn.
  - by destruct (best d es).
  - intros Hb [->|Hl]%elem_of_cons; [done|by apply IH].
Qed.

Lemma opick_comm d es1 es2 n :
  Forall (fun l => pl_data_name l = n) es1 -> Forall (fun l => pl_data_name l <> n) es2 ->
  opick (best d es1) (best d es2) = opick (best d es2) (best d es1).
Proof.
  rewrite !list.Forall_forall. intros H1 H2.
  destruct (best d es1) as [a|] eqn:Ea, (best d es2) as [b|] eqn:Eb; cbn; try done.
  apply best_in in Ea as [Ha _]. apply best_in in Eb as [Hb _].
  apply H1 in Ha. apply H2 in Hb. f_equal. unfold pick.
  destruct (leb (pl_data_name a) (pl_data_name b)) eqn:E1,
           (leb (pl_data_name b) (pl_data_name a)) eqn:E2; try done.
  - exfalso. apply Hb. rewrite <- Ha. by apply leb_antisym_str.
  - apply leb_total_str in E1. congruence.
Qed.

Lemma represents_empty : represents ∅ [].
Proof. intros d. apply lookup_empty. Qed.

Lemma represents_inj c1 c2 es : represents c1 es -> represents c2 es -> c1 = c2.
Proof. intros H1 H2. apply map_eq. intros d. by rewrite H1, H2. Qed.

Lemma only_snoc d l es : best d (es ++ [l]) = opick (best d es) (only d l).
Proof. rewrite best_app, best_cons. by rewrite opick_none_r. Qed.

(** One entry: either it collides, or the map represents one more location. *)
Lemma add_locs_step cat es0 l :
  represents cat es0 -> collision_free es0 ->
  (exists cat', add_locs [l] cat = (cat', Ok tt) /\ represents cat' (es0 ++ [l]) /\
                collision_free (es0 ++ [l])) \/
  (exists e, add_locs [l] cat = (cat, Err e) /\ ~ collision_free (es0 ++ [l])).
Proof.
  intros Hr Hc. cbn. rewrite Hr. destruct (best (loc_digest l) es0) as [ex|] eqn:Eb.
  - pose proof (best_in _ _ _ Eb) as [Hex Hd]. case_bool_decide as Ho; cbn.
    + left. assert (collision_free (es0 ++ [l])) as Hc'.
      { intros a b. rewrite !elem_of_app, !list_elem_of_singleton.
        intros [Ha| ->] [Hb| ->] Hab; [by apply Hc| | |done].
        - rewrite <- Ho. apply Hc; [done..|congruence].
        - rewrite <- Ho. apply Hc; [done..|congruence]. }
      destruct (leb (pl_data_name ex) (pl_data_name l)) eqn:El; eexists; split_and!; try done.
      * intros d. rewrite only_snoc, Hr. unfold only. case_decide; [subst d|by rewrite opick_none_r].
        rewrite Eb. cbn. unfold pick. by rewrite El.
      * intros d. rewrite only_snoc. unfold only. case_decide; [subst d|].
        -- rewrite lookup_insert_eq, Eb. cbn. unfold pick. by rewrite El.
        -- rewrite lookup_insert_ne, Hr by done. by rewrite opick_none_r.
    + right. eexists. split; [done|]. intros Hc'. apply Ho. apply Hc'; [set_solver..|done].
  - left. eexists. split_and!; [done| |].
    + intros d. rewrite only_snoc. unfold only. case_decide; [subst d|].
      * by rewrite lookup_insert_eq, Eb.
      * rewrite lookup_insert_ne, Hr by done. by rewrite opick_none_r.
    + intros a b. rewrite !elem_of_app, !list_elem_of_singleton.
      intros [Ha| ->] [Hb| ->] Hab; [by apply Hc| | |done].
      * by destruct (best_none _ _ _ Eb Ha).
      * by destruct (best_none _ _ _ Eb Hb).
Qed.

Lemma collision_free_app_l es1 es2 : collision_free (es1 ++ es2) -> collision_free es1.
Proof. intros H l l' Hl Hl'. apply H; set_solver. Qed.

Lemma add_locs_spec es cat es0 :
  represents cat es0 -> collision_free es0 ->
  (exists cat', add_locs es cat = (cat', Ok tt) /\ represents cat' (es0 ++ es) /\
                collision_free (es0 ++ es)) \/
  (exists cat' e, add_locs es cat = (cat', Err e) /\ ~ collision_free (es0 ++ es)).
Proof.
  revert cat es0; induction es as [|l es IH]; intros cat es0 Hr Hc.
  - left. exists cat. rewrite app_nil_r. done.
  - change (l :: es) with ([l] ++ es). rewrite add_locs_app, app_assoc.
    destruct (add_locs_step cat es0 l Hr Hc) as [(cat' & -> & Hr' & Hc')|(e & -> & Hn)].
    + apply (IH _ _ Hr' Hc').
    + right. do 2 eexists. split; [done|]. intros Hc'. apply Hn. by eapply collision_free_app_l.
Qed.

Lemma locations_from_packs_ok ps L :
  locations_from_packs ps = Ok L <-> collision_free (entries_of ps) /\ represents L (entries_of ps).
Proof.
  unfold locations_from_packs. rewrite add_packs_locs.
  destruct (add_locs_spec (entries_of ps) ∅ [] represents_empty) as [(c & -> & Hr & Hc)|(c & e & -> & Hc)].
  - intros l l' Hl. by apply elem_of_nil in Hl.
  - cbn in *. split; [by intros [= <-]|]. intros [_ HL]. f_equal. by eapply represents_inj.
  - cbn in *. naive_solver.
Qed.

Lemma collision_free_sub es es' : (forall l, l ∈ es' -> l ∈ es) -> collision_free es -> collision_free es'.
Proof. intros Hs Hc l l' Hl Hl'. apply Hc; auto. Qed.

Lemma entries_of_app ps1 ps2 : entries_of (ps1 ++ ps2) = entries_of ps1 ++ entries_of ps2.
Proof. apply flat_map_app. Qed.

Lemma entries_of_cons e ps : entries_of (e :: ps) = pack_locations e ++ entries_of ps.
Proof. done. Qed.

Lemma pack_locations_name e : Forall (fun l => pl_data_name l = e.1) (pack_locations e).
Proof. unfold pack_locations. apply Forall_map. by apply Forall_true. Qed.

Lemma entries_of_names n ps : n ∉ ps.*1 -> Forall (fun l => pl_data_name l <> n) (entries_of ps).
Proof.
  induction ps as [|e ps IH]; cbn; [constructor|]. rewrite not_elem_of_cons. intros [Hn Hps].
  apply Forall_app. split; [|by apply IH]. eapply list.Forall_impl; [apply pack_locations_name|].
  cbn. intros l ->. congruence.
Qed.

(** The locations after a pack is added, in place or at the end. *)
Lemma best_insert ps n m : n ∉ ps.*1 -> forall d, best d (entries_of (bmap_insert n m ps)) = best d (entries_of ps ++ pack_locations (n, m)).
Proof.
  intros Hn d. destruct (bmap_insert_split n m ps Hn) as (p1 & p2 & Heq & ->). rewrite Heq, !entries_of_app, entries_of_cons.
  rewrite !best_app, <- !opick_assoc. f_equal. rewrite (opick_comm d (pack_locations (n, m)) (entries_of p2) n); [done| |].
  - apply (pack_locations_name (n, m)).
  - apply entries_of_names. rewrite Heq, fmap_app in Hn. set_solver.
Qed.
Lemma entries_insert ps n m : n ∉ ps.*1 -> forall l, l ∈ entries_of (bmap_insert n m ps) <-> l ∈ entries_of ps ++ pack_locations (n, m).
Proof.
  intros Hn l. destruct (bmap_insert_split n m ps Hn) as (p1 & p2 & Heq & ->). rewrite Heq, !entries_of_app, entries_of_cons, !elem_of_app. tauto.
Qed.

(** Adding a pack in place is rebuilding with the pack. *)
Lemma locations_insert ps L n m :
  n ∉ ps.*1 -> locations_from_packs ps = Ok L ->
  match add_pack_to_catalog L n m with
  | (L', Ok _) => locations_from_packs (bmap_insert n m ps) = Ok L'
  | (_, Err _) => exists e, locations_from_packs (bmap_insert n m ps) = Err e
  end.
Proof.
  intros Hn. rewrite locations_from_packs_ok. intros [Hc Hr].
  pose proof (best_insert ps n m Hn) as Hbest. pose proof (entries_insert ps n m Hn) as Hin.
  unfold add_pack_to_catalog. rewrite add_entries_locs.
  change (map (mkPackLocation n) (pm_objects m)) with (pack_locations (n, m)).
  destruct (add_locs_spec (pack_locations (n, m)) L (entries_of ps) Hr Hc)
    as [(c & -> & Hr' & Hc')|(c & e & -> & Hc')].
  - apply locations_from_packs_ok. split.
    + eapply collision_free_sub; [|exact Hc']. intros l. by apply Hin.
    + intros d. by rewrite Hbest, Hr'.
  - destruct (locations_from_packs (bmap_insert n m ps)) as [L'|e'] eqn:E; [|by exists e'].
    apply locations_from_packs_ok in E as [Hc2 _]. exfalso. apply Hc'.
    eapply collision_free_sub; [|exact Hc2]. intros l. by apply Hin.
Qed.

(** Removing a pack never makes the rebuild fail. *)
Lemma locations_remove ps L n m :
  bmap_get n ps = Some m -> locations_from_packs ps = Ok L ->
  exists L', locations_from_packs (bmap_remove n ps) = Ok L'.
Proof.
  intros Hg. rewrite locations_from_packs_ok. intros [Hc _].
  destruct (bmap_remove_split n m ps Hg) as (p1 & p2 & Heq & ->).
  unfold locations_from_packs. rewrite add_packs_locs.
  destruct (add_locs_spec (entries_of (p1 ++ p2)) ∅ [] represents_empty) as [(c & -> & _)|(c & e & -> & Hn)].
  - intros l l' Hl. by apply elem_of_nil in Hl.
  - by exists c.
  - exfalso. apply Hn. eapply collision_free_sub; [|exact Hc]. intros l. cbn [app].
    rewrite Heq, !entries_of_app, entries_of_cons, !elem_of_app. tauto.
Qed.

Section Replay.
Context {P : Primitives} (parse_record : list byte -> option CatalogRecord).

Lemma apply_catalog_record_inv st record st' :
  catalog_inv st -> apply_catalog_record st record = (st', Ok tt) -> catalog_inv st'.
Proof.
  intros [Hwf Hl] Ha. unfold apply_catalog_record in Ha.
  destruct (validate_pack_manifest _ _); [|done]. destruct (cr_operation record).
  - destruct (bmap_get _ (packs st)) eqn:Hg; [done|].
    apply bmap_get_none_key in Hg.
    pose proof (locations_insert _ _ _ (cp_manifest (cr_pack record)) Hg Hl) as Hi.
    cbn [locations set_packs] in Ha.
    destruct (add_pack_to_catalog _ _ _) as [l [[]|]]; [|done]. injection Ha as <-.
    split; cbn; [by apply bmap_insert_wf|done].
  - unfold remove_catalog_pack in Ha. case_bool_decide as Hg; [|done].
    cbn [packs set_packs] in Ha.
    destruct (locations_from_packs (bmap_remove (cp_data_name (cr_pack record)) (packs st)))
      eqn:Hr; [|done]. injection Ha as <-.
    split; cbn; [by apply bmap_remove_wf|done].
Qed.

(** The state of the replay loop: the map may be stale while a rebuild is pending. *)
Definition loop_inv (st : CatalogState) (pending : bool) (L : gmap string PackLocation) : Prop :=
  bmap_wf (packs st) /\ locations_from_packs (packs st) = Ok L /\
  (pending = false -> locations st = L).

Lemma set_locations_same st L : locations st = L -> set_locations st L = st.
Proof. intros <-. by destruct st. Qed.

Lemma loop_inv_catalog st pending L : loop_inv st pending L -> catalog_inv (set_locations st L).
Proof. intros (Hw & Hl & _). by split. Qed.

(** One step of the optimized loop against one step of the reference, which
    runs on the state with the rebuilt map. *)
Lemma replay_step_sim dir name st pending L :
  loop_inv st pending L ->
  match replay_step parse_record dir name st pending,
        apply_step parse_record dir name (set_locations st L) with
  | (st1, pending1, Ok _), (nst1, Ok _) =>
      exists L1, loop_inv st1 pending1 L1 /\ nst1 = set_locations st1 L1
  | (st1, _, Err e), (_, Err e') => e = e' /\ bmap_wf (packs st1)
  | _, _ => False
  end.
Proof.
  intros Hinv. pose proof Hinv as (Hw & Hl & Hp). unfold replay_step, apply_step.
  destruct (read_record parse_record dir name) as [[[record d] len]|e]; [|done].
  cbn [sequence last_record_digest set_locations].
  destruct (cr_sequence record <=? sequence st); [eauto|].
  destruct (negb _ || negb _); [done|]. unfold apply_catalog_record.
  destruct (cr_operation record).
  - (* Add *)
    assert ((if pending then match locations_from_packs (packs st) with
                             | Ok l => Ok (set_locations st l, false) | Err e => Err e end
             else Ok (st, false)) = @Ok ClewError _ (set_locations st L, false)) as ->.
    { destruct pending; [by rewrite Hl|]. by rewrite set_locations_same by auto. }
    destruct (validate_pack_manifest _ _); [|by split].
    cbn [packs set_locations set_packs locations].
    destruct (bmap_get _ (packs st)) eqn:Hg.
    + split; [done|]. cbn. by apply bmap_insert_wf.
    + apply bmap_get_none_key in Hg.
      pose proof (locations_insert _ _ _ (cp_manifest (cr_pack record)) Hg Hl) as Hi.
      destruct (add_pack_to_catalog L _ _) as [l [[]|]].
      * exists l. split; [|done]. split_and!; [by apply bmap_insert_wf|done|done].
      * split; [done|]. cbn. by apply bmap_insert_wf.
  - (* Remove *)
    destruct (validate_pack_manifest _ _); [|by split]. unfold remove_catalog_pack.
    cbn [packs set_locations]. case_bool_decide as Hg; [|by split].
    destruct (locations_remove _ _ _ _ Hg Hl) as (L' & HL').
    cbn [packs set_packs]. rewrite HL'. exists L'. split; [|done].
    split_and!; [by apply bmap_remove_wf|done|done].
Qed.

Lemma replay_loop_sim dir names st pending L :
  loop_inv st pending L ->
  match replay_loop parse_record dir names st pending,
        apply_all parse_record dir names (set_locations st L) with
  | (st1, pending1, Ok _), (nst1, Ok _) =>
      exists L1, loop_inv st1 pending1 L1 /\ nst1 = set_locations st1 L1
  | (st1, _, Err e), (_, Err e') => e = e' /\ bmap_wf (packs st1)
  | _, _ => False
  end.
Proof.
  revert st pending L; induction names as [|name names IH]; intros st pending L Hinv; cbn; [eauto|].
  pose proof (replay_step_sim dir name _ _ _ Hinv) as Hs.
  destruct (replay_step _ _ _ _ _) as [[st1 p1] [[]|e]],
           (apply_step _ _ _ _) as [nst1 [[]|e']]; try done.
  destruct Hs as (L1 & Hinv1 & ->). by apply IH.
Qed.

Lemma default_state_inv : catalog_inv default_state.
Proof. split; [constructor|done]. Qed.

(** Deferred and immediate rebuilds agree, and the final map is never stale. *)
Lemma replay_simulates dir names st :
  catalog_inv st ->
  let '(st', outcome) := replay_catalog_records_locked parse_record dir names st in
  let '(ref, ref_outcome) := apply_all parse_record dir names st in
  outcome = ref_outcome /\ (is_ok outcome = true -> st' = ref) /\ catalog_inv st'.
Proof.
  intros [Hw Hl]. unfold replay_catalog_records_locked.
  assert (loop_inv st false (locations st)) as Hinv by done.
  pose proof (replay_loop_sim dir names _ _ _ Hinv) as Hs. rewrite set_locations_same in Hs by done.
  destruct (replay_loop _ _ _ _ _) as [[st1 p1] [[]|e]],
           (apply_all _ _ _ _) as [nst1 [[]|e']]; try done.
  - destruct Hs as (L1 & (Hw1 & Hl1 & Hp1) & ->). destruct p1; cbn.
    + rewrite Hl1. by split_and!.
    + rewrite set_locations_same by auto. split_and!; [done..|]. split; [done|]. by rewrite Hp1.
  - destruct Hs as [-> Hw1]. rewrite orb_true_r.
    destruct (locations_from_packs (packs st1)) eqn:Hr; split_and!;
      [done|done|by split|done|done|apply default_state_inv].
Qed.

(** C1: replaying the journal with deferred rebuilds returns the outcome of
    applying the records one at a time, on success with the same catalog, and
    whatever the outcome the location map it leaves is the one its packs define. *)
Theorem replay_refines_record_by_record dir names st :
  catalog_inv st ->
  let '(st', outcome) := replay_catalog_records_locked parse_record dir names st in
  let '(ref, ref_outcome) := apply_all parse_record dir names st in
  outcome = ref_outcome /\ (is_ok outcome = true -> st' = ref) /\ catalog_inv st'.
Proof. apply replay_simulates. Qed.
End Replay.

(* --------------------------------------------------------------------- *)
(** ** Serialization, snapshots, pack layout *)

Lemma cf_obj m :
  windows_all ltb m.*1 = true -> Forall (fun e => canonical_form e.2) m -> canonical_form (JObject m).
Proof. intros Hs Hm. constructor; [by apply windows_lt_wf|done]. Qed.

Lemma pack_manifest_value_canonical m : canonical_form (pack_manifest_value m).
Proof.
  apply cf_obj; [reflexivity|]. repeat constructor.
  apply Forall_map, Forall_true. intros e. apply cf_obj; [reflexivity|]. repeat constructor.
Qed.

Lemma catalog_pack_value_canonical p : canonical_form (catalog_pack_value p).
Proof.
  apply cf_obj; [reflexivity|].
  repeat first [apply pack_manifest_value_canonical | constructor].
Qed.

Lemma opt_string_value_canonical o : canonical_form (opt_string_value o).
Proof. destruct o; constructor. Qed.

(** The catalog types serialize to canonical bytes without being sorted: the
    direct serializer of manifests, snapshots and records produces the same bytes,
    hence the same digests, as the canonical one. *)
Theorem catalog_serializer_is_canonical {P : Primitives} :
  (forall m, catalog_bytes (pack_manifest_value m) = value_bytes (pack_manifest_value m)) /\
  (forall s, catalog_bytes (catalog_snapshot_value s) = value_bytes (catalog_snapshot_value s)) /\
  (forall r, catalog_bytes (catalog_record_value r) = value_bytes (catalog_record_value r)).
Proof.
  unfold catalog_bytes, value_bytes. split_and!; intros x; rewrite sort_value_fixed; try done.
  - apply pack_manifest_value_canonical.
  - apply cf_obj; [reflexivity|].
    repeat first [apply opt_string_value_canonical | constructor].
    apply Forall_map, Forall_true. intros p. apply catalog_pack_value_canonical.
  - apply cf_obj; [reflexivity|].
    repeat first [apply opt_string_value_canonical | apply catalog_pack_value_canonical | constructor].
Qed.

Section Snapshot.
Context {P : Primitives}.

Lemma bmap_insert_snoc (ps : list (string * PackManifest)) k v :
  Forall (fun k' => lt_ord k' k) ps.*1 -> bmap_insert k v ps = ps ++ [(k, v)].
Proof.
  induction ps as [|[k' v'] ps IH]; cbn; [done|]. inversion_clear 1 as [|? ? Hk Hps].
  rewrite (proj2 (cmp_gt_lt k k') Hk). by rewrite IH.
Qed.

Lemma snapshot_steps ps : forall done_ prev,
  StronglySorted lt_ord (done_ ++ ps).*1 ->
  (forall name, prev = Some name -> name ∈ done_.*1) ->
  Forall (fun e => validate_pack_manifest e.1 e.2 = Ok tt) ps ->
  exists last, try_fold snapshot_step (done_, prev)
                 (map (fun e => mkCatalogPack e.1 e.2) ps) = Ok (done_ ++ ps, last).
Proof.
  induction ps as [|[k v] ps IH]; intros done_ prev Hs Hp Hv; cbn.
  - rewrite app_nil_r. eauto.
  - inversion_clear Hv as [|? ? Hkv Hps]. cbn in Hkv.
    assert (Forall (fun k' => lt_ord k' k) done_.*1) as Hlt.
    { rewrite fmap_app, StronglySorted_app in Hs. destruct Hs as (_ & _ & Hs).
      rewrite list.Forall_forall. intros k' Hk'. apply Hs; [done|]. cbn. left. }
    assert (match prev with Some name => geb name k | None => false end = false) as ->.
    { destruct prev as [name|]; [|done]. apply geb_false.
      rewrite list.Forall_forall in Hlt. by apply Hlt, Hp. }
    rewrite Hkv. cbn [result_bind].
    replace (bmap_get k done_) with (@None PackManifest).
    2: { symmetry. apply bmap_get_none_key. intros Hin. rewrite list.Forall_forall in Hlt.
         by eapply lt_irrefl, Hlt. }
    rewrite bmap_insert_snoc by done. cbn [result_bind].
    destruct (IH (done_ ++ [(k, v)]) (Some k)) as (last & ->).
    + by rewrite <- app_assoc.
    + intros name [= <-]. rewrite fmap_app. cbn. set_solver.
    + done.
    + exists last. by rewrite <- app_assoc.
Qed.

(** Publishing a snapshot and reading it back restores the catalog: the same
    packs, the same winning locations, the same position in the journal. *)
Theorem snapshot_round_trip st d :
  catalog_inv st -> Forall (fun e => validate_pack_manifest e.1 e.2 = Ok tt) (packs st) ->
  exists st', catalog_state_from_snapshot (snapshot_from_catalog_state st) d = Ok st' /\
    packs st' = packs st /\ locations st' = locations st /\ sequence st' = sequence st /\
    last_record_digest st' = last_record_digest st /\ catalog_inv st'.
Proof.
  intros [Hw Hl] Hv. unfold catalog_state_from_snapshot, snapshot_from_catalog_state. cbn [cs_packs].
  destruct (snapshot_steps (packs st) [] None Hw ltac:(done) Hv) as (last & Hf).
  cbn [app] in Hf. rewrite Hf. cbn [result_bind fst]. rewrite Hl. cbn [result_bind].
  eexists. split; [done|]. by split_and!.
Qed.

Lemma validate_entries_spec es end0 end1 :
  try_fold validate_entry end0 es = Ok end1 ->
  end0 <= end1 /\
  Forall (fun e => end0 <= pe_offset e /\ pe_offset e + size (pe_object e) <= end1) es /\
  StronglySorted (fun a b => pe_offset a + size (pe_object a) <= pe_offset b) es /\
  (es <> [] -> end1 <= u64_max).
Proof.
  revert end0; induction es as [|e es IH]; intros end0 H; cbn in H.
  - injection H as ->. split_and!; [lia|constructor|constructor|done].
  - ok_inv H. unfold validate_entry in Hok. ok_inv Hok. apply negb_false_iff, N.eqb_eq in Hif.
    destruct (u64_checked_add end0 (size (pe_object e))) as [x|] eqn:Ha; [|done].
    cbn in Hok. injection Hok as <-.
    apply u64_checked_add_some in Ha as [-> Hmax].
    destruct (IH _ H) as (Hle & Hall & Hs & Hb). subst end0. split_and!.
    + lia.
    + constructor; [lia|]. eapply list.Forall_impl; [exact Hall|]. cbn. lia.
    + constructor; [done|]. eapply list.Forall_impl; [exact Hall|]. cbn. lia.
    + intros _. destruct es; [|by apply Hb]. cbn in H. injection H as <-. lia.
Qed.

(** A manifest the catalog admits describes disjoint ranges, in order, that
    lie inside its pack, and its end does not overflow 64 bits. *)
Lemma pack_ranges_disjoint data_name m :
  validate_pack_manifest data_name m = Ok tt ->
  Forall (fun e => pe_offset e + size (pe_object e) <= pm_data_size m) (pm_objects m) /\
  StronglySorted (fun a b => pe_offset a + size (pe_object a) <= pe_offset b) (pm_objects m) /\
  (pm_objects m <> [] -> pm_data_size m <= u64_max).
Proof.
  intros H. unfold validate_pack_manifest in H. ok_inv H.
  apply negb_false_iff, N.eqb_eq in Hif1. subst.
  apply validate_entries_spec in Hok1 as (_ & Hall & Hs & Hb).
  split_and!; [|done|done]. eapply list.Forall_impl; [exact Hall|]. cbn. lia.
Qed.
End Snapshot.

(** The catalog serves every digest from the pack with the smallest name:
    a digest has a location exactly when some pack holds it, the location is an
    entry of one of the packs, and no pack with a smaller name holds the digest. *)
Theorem winning_location ps L d :
  locations_from_packs ps = Ok L ->
  (L !! d = None <-> forall l, l ∈ entries_of ps -> loc_digest l <> d) /\
  (forall l, L !! d = Some l ->
     l ∈ entries_of ps /\ loc_digest l = d /\
     forall l', l' ∈ entries_of ps -> loc_digest l' = d ->
       leb (pl_data_name l) (pl_data_name l') = true).
Proof.
  intros [_ Hr]%locations_from_packs_ok. rewrite (Hr d). split.
  - split; [intros Hn l Hl; by eapply best_none|]. intros Hall.
    destruct (best d (entries_of ps)) as [l|] eqn:Eb; [|done].
    apply best_in in Eb as [Hl Hd]. by destruct (Hall l Hl).
  - generalize (entries_of ps). intros es.
    induction es as [|a es IH]; intros l; [intros Hl; discriminate Hl|].
    rewrite best_cons. unfold only. case_decide as Ha; cbn [opick].
    + destruct (best d es) as [b|] eqn:Eb.
      * intros [= <-]. destruct (IH b eq_refl) as (Hb & Hbd & Hmin). unfold pick.
        destruct (leb (pl_data_name a) (pl_data_name b)) eqn:El.
        -- split_and!; [left|done|]. intros l' [->|Hl']%elem_of_cons Hd'; [apply leb_refl_str|].
           eapply leb_trans_str; [exact El|by apply Hmin].
        -- split_and!; [by right|done|]. intros l' [->|Hl']%elem_of_cons Hd'; [by apply leb_total_str|by apply Hmin].
      * intros [= <-]. split_and!; [left|done|].
        intros l' [->|Hl']%elem_of_cons Hd'; [apply leb_refl_str|].
        by destruct (best_none _ _ _ Eb Hl').
    + intros Hb. destruct (IH l Hb) as (? & ? & Hmin). split_and!; [by right|done|].
      intros l' [->|Hl']%elem_of_cons Hd'; [done|by apply Hmin].
Qed.

(* --------------------------------------------------------------------- *)
(** ** Examples *)

Module CatalogExample.
#[local] Existing Instance toy.

Definition object (b : list byte) : CasObject :=
  {| schema := CAS_OBJECT_SCHEMA; object_schema := "test/object/1";
     digest := object_digest "test/object/1" b; size := vlen b |}.
Definition manifest (b c : list byte) : PackManifest :=
  {| pm_schema := CAS_PACK_SCHEMA; pm_data_sha256 := hash_bytes (b ++ c);
     pm_data_size := vlen b + vlen c;
     pm_objects := [{| pe_object := object b; pe_offset := 0 |};
                    {| pe_object := object c; pe_offset := vlen b |}] |}.
Definition pack (b c : list byte) : CatalogPack :=
  {| cp_data_name := str_drop 7 (catalog_hash (pack_manifest_value (manifest b c))) +:+ ".pack";
     cp_manifest := manifest b c |}.
Definition pack1 : CatalogPack := pack [x01; x02] [x03].
Definition pack2 : CatalogPack := pack [x03] [x04; x05].

Definition state_of (ps : BTreeMap string PackManifest) : CatalogState :=
  {| initialized := true; sequence := 4; snapshot_sequence := 4; last_record_digest := None;
     snapshot_digest := None; tail_bytes := 0; deferred_since_sequence := None;
     deferred_snapshot_bytes := 0; packs := ps;
     locations := match locations_from_packs ps with Ok l => l | Err _ => ∅ end |}.
Definition entry (p : CatalogPack) : string * PackManifest := (cp_data_name p, cp_manifest p).
Definition st : CatalogState := state_of (bmap_of_list [entry pack1]).

Definition record1 : CatalogRecord :=
  {| cr_operation := Add; cr_pack := pack2; cr_previous_record_digest := None;
     cr_schema := CATALOG_RECORD_SCHEMA; cr_sequence := 5 |}.
Definition record2 : CatalogRecord :=
  {| cr_operation := Remove; cr_pack := pack1;
     cr_previous_record_digest := Some (catalog_hash (catalog_record_value record1));
     cr_schema := CATALOG_RECORD_SCHEMA; cr_sequence := 6 |}.
Definition bytes_of (r : CatalogRecord) : list byte := catalog_bytes (catalog_record_value r).
Definition name_of (r : CatalogRecord) : string :=
  match catalog_record_name (cr_sequence r) (hash_bytes (bytes_of r)) with Ok n => n | Err _ => "" end.
Definition parse (b : list byte) : option CatalogRecord :=
  if bool_decide (b = bytes_of record1) then Some record1
  else if bool_decide (b = bytes_of record2) then Some record2 else None.
Definition dir : gmap string (list byte) :=
  <[name_of record1 := bytes_of record1]> (<[name_of record2 := bytes_of record2]> ∅).
Definition names : list (option string) := [Some (name_of record1); Some (name_of record2)].

Lemma state_of_inv ps :
  windows_all ltb ps.*1 && is_ok (locations_from_packs ps) = true -> catalog_inv (state_of ps).
Proof.
  rewrite andb_true_iff. intros [Hw Hl]. split; [by apply windows_lt_wf|]. unfold state_of; cbn [packs locations].
  by destruct (locations_from_packs ps).
Qed.

Lemma st_inv : catalog_inv st.
Proof. apply state_of_inv. vm_compute. reflexivity. Qed.

(** Both records apply; what remains is the second pack alone. *)
Example replay_runs :
  let '(st', outcome) := replay_catalog_records_locked parse dir names st in
  is_ok outcome && bool_decide ((packs st').*1 = [cp_data_name pack2]) && (sequence st' =? 6) = true.
Proof. vm_compute. reflexivity. Qed.
End CatalogExample.

Lemma replay_refines_record_by_record_witness :
  let '(st', outcome) :=
    @replay_catalog_records_locked toy CatalogExample.parse CatalogExample.dir CatalogExample.names CatalogExample.st in
  let '(ref, ref_outcome) :=
    @apply_all toy CatalogExample.parse CatalogExample.dir CatalogExample.names CatalogExample.st in
  outcome = ref_outcome /\ (is_ok outcome = true -> st' = ref) /\ catalog_inv st'.
Proof. apply replay_refines_record_by_record. apply CatalogExample.st_inv. Defined.

Lemma snapshot_round_trip_witness :
  exists st', @catalog_state_from_snapshot toy (snapshot_from_catalog_state CatalogExample.st) "d" = Ok st' /\
    packs st' = packs CatalogExample.st /\ locations st' = locations CatalogExample.st /\
    sequence st' = sequence CatalogExample.st /\
    last_record_digest st' = last_record_digest CatalogExample.st /\ catalog_inv st'.
Proof.
  apply snapshot_round_trip; [apply CatalogExample.st_inv|].
  apply Forall_cons; [vm_compute; reflexivity|apply Forall_nil].
Defined.

Lemma winning_location_witness :
  match locations CatalogExample.st !! digest (CatalogExample.object [x03]) with
  | Some l => loc_digest l = digest (CatalogExample.object [x03])
  | None => False
  end.
Proof.
  destruct (locations CatalogExample.st !! digest (CatalogExample.object [x03])) as [l|] eqn:Hl.
  - exact (proj1 (proj2 (proj2 (winning_location (packs CatalogExample.st) _ _
             (proj2 CatalogExample.st_inv)) l Hl))).
  - vm_compute in Hl. discriminate Hl.
Defined.
