(* ===== verification/CatalogTypes.v ===== *)
(** * Well-formed catalogs (cas.rs)

    A well-formed catalog has a strictly ordered pack table of admitted manifests
    and the location map that those packs define; then every location points at an
    object that its pack holds, at a range inside the pack.  Loading a snapshot,
    applying a record and replaying the journal, with any outcome, preserve it. *)

From stdpp Require Import gmap.
From S2P Require Import Prelude Order Collections Text Json Canonical Instances Errors CasObject Catalog.
Open Scope string_scope.
Open Scope list_scope.
Open Scope N_scope.

Section Types.
Context {P : Primitives} (parse_record : list byte -> option CatalogRecord).

Definition pack_admitted (e : string * PackManifest) : Prop := validate_pack_manifest e.1 e.2 = Ok tt.
Definition catalog_typed (st : CatalogState) : Prop := catalog_inv st /\ Forall pack_admitted (packs st).

Lemma insert_admitted (ps : BTreeMap string PackManifest) n m :
  Forall pack_admitted ps -> validate_pack_manifest n m = Ok tt -> Forall pack_admitted (bmap_insert n m ps).
Proof.
  intros Hps Hm. induction Hps as [|[k v] ps Hk Hps IH]; cbn [bmap_insert]; [by repeat constructor|].
  destruct (cmp n k); repeat (constructor; try done).
Qed.

Lemma remove_admitted (ps : BTreeMap string PackManifest) n : Forall pack_admitted ps -> Forall pack_admitted (bmap_remove n ps).
Proof. induction 1 as [|[k v] ps Hk Hps IH]; cbn [bmap_remove]; [constructor|]. destruct (cmp n k); [done|constructor; done..]. Qed.

(** Records only ever add admitted packs, also when they fail. *)
Lemma apply_admitted st record : Forall pack_admitted (packs st) -> Forall pack_admitted (packs (apply_catalog_record st record).1).
Proof.
  intros Hps. unfold apply_catalog_record.
  destruct (validate_pack_manifest (cp_data_name (cr_pack record)) (cp_manifest (cr_pack record))) as [[]|] eqn:Hv; [|done].
  destruct (cr_operation record).
  - destruct (bmap_get _ _); [by apply insert_admitted|]. destruct (add_pack_to_catalog _ _ _) as [l r]. by apply insert_admitted.
  - unfold remove_catalog_pack. case_bool_decide; [|done]. destruct (locations_from_packs _); by apply remove_admitted.
Qed.

Lemma replay_step_admitted dir name st pending : Forall pack_admitted (packs st) ->
  Forall pack_admitted (packs (replay_step parse_record dir name st pending).1.1).
Proof.
  intros Hps. unfold replay_step. destruct (read_record _ _ _) as [[[record d] len]|]; [|done].
  destruct (_ <=? _); [done|]. destruct (_ || _); [done|]. destruct (cr_operation record).
  - destruct pending.
    + destruct (locations_from_packs (packs st)) as [l|]; [|done].
      pose proof (apply_admitted (set_locations st l) record Hps) as Ha.
      destruct (apply_catalog_record (set_locations st l) record) as [st1 [[]|]]; exact Ha.
    + pose proof (apply_admitted st record Hps) as Ha. destruct (apply_catalog_record st record) as [st1 [[]|]]; exact Ha.
  - destruct (validate_pack_manifest _ _); [|done]. unfold remove_catalog_pack. case_bool_decide; [|done]. by apply remove_admitted.
Qed.

Lemma replay_loop_admitted dir names : forall st pending, Forall pack_admitted (packs st) ->
  Forall pack_admitted (packs (replay_loop parse_record dir names st pending).1.1).
Proof.
  induction names as [|name names IH]; intros st pending Hps; cbn [replay_loop]; [done|].
  pose proof (replay_step_admitted dir name st pending Hps) as Hs.
  destruct (replay_step parse_record dir name st pending) as [[st1 p1] [[]|]]; cbn [fst] in *; [by apply IH|done].
Qed.

Lemma replay_typed dir names st : catalog_typed st -> catalog_typed (replay_catalog_records_locked parse_record dir names st).1.
Proof.
  intros [Hinv Hps]. split.
  - pose proof (replay_simulates parse_record dir names st Hinv) as Hs.
    destruct (replay_catalog_records_locked _ _ _ _), (apply_all _ _ _ _). by destruct Hs as (_ & _ & Hs).
  - pose proof (replay_loop_admitted dir names st false Hps) as Hl. unfold replay_catalog_records_locked.
    destruct (replay_loop parse_record dir names st false) as [[st1 p1] outcome]. cbn [fst] in Hl.
    destruct (_ || _); [|done]. destruct (locations_from_packs (packs st1)); [done|constructor].
Qed.

Lemma snapshot_typed snapshot d st : catalog_state_from_snapshot snapshot d = Ok st -> catalog_typed st.
Proof.
  unfold catalog_state_from_snapshot. rewrite result_bind_ok. intros ([ps prev] & Hfold & H).
  rewrite result_bind_ok in H. destruct H as (L & HL & [= <-]).
  enough (bmap_wf ps /\ Forall pack_admitted ps) as [Hw Ha] by (split; [split|]; done).
  refine (try_fold_inv snapshot_step (fun _ (acc : BTreeMap string PackManifest * option string) => bmap_wf acc.1 /\ Forall pack_admitted acc.1)
    (cs_packs snapshot) ([], None) (ps, prev) [] _ _ Hfold); [split; constructor|].
  intros pre pack [qs q] acc' [Hw Ha] Hstep. unfold snapshot_step in Hstep. destruct (match q with Some _ => _ | None => _ end); [done|].
  rewrite seq_ok in Hstep. destruct Hstep as [Hv Hstep]. destruct (bmap_get _ _); [done|]. injection Hstep as <-.
  split; [by apply bmap_insert_wf|by apply insert_admitted].
Qed.

Lemma apply_typed st record st' : catalog_typed st -> apply_catalog_record st record = (st', Ok tt) -> catalog_typed st'.
Proof.
  intros [Hinv Hps] H. split; [by eapply apply_catalog_record_inv|]. pose proof (apply_admitted st record Hps) as Ha. by rewrite H in Ha.
Qed.

(** How the store obtains a catalog. *)
Inductive reachable : CatalogState -> Prop :=
| reach_default : reachable default_state
| reach_snapshot snapshot d st : catalog_state_from_snapshot snapshot d = Ok st -> reachable st
| reach_apply st record st' : reachable st -> apply_catalog_record st record = (st', Ok tt) -> reachable st'
| reach_replay dir names st st' outcome : reachable st -> replay_catalog_records_locked parse_record dir names st = (st', outcome) -> reachable st'.

Lemma replay_reachable dir names st : reachable st -> reachable (replay_catalog_records_locked parse_record dir names st).1.
Proof. intros H. eapply (reach_replay dir names st); [done|]. apply surjective_pairing. Qed.

Lemma reachable_typed st : reachable st -> catalog_typed st.
Proof.
  induction 1 as [|snapshot d st H|st record st' _ IH H|dir names st st' outcome _ IH H].
  - split; [apply default_state_inv|constructor].
  - by eapply snapshot_typed.
  - by eapply apply_typed.
  - pose proof (replay_typed dir names st IH) as Ht. by rewrite H in Ht.
Qed.

(** C23: Every catalog the store can hold (the default one, a loaded snapshot, and
    what applying records and replaying journals makes of them, whether or not the
    replay fails) is well formed: packs in strict order with admitted manifests,
    the location map of those packs, and every location names an object that its
    pack lists, in a range that lies inside the pack and does not overflow 64 bits. *)
Theorem reachable_catalog_typed st : reachable st ->
  bmap_wf (packs st) /\ Forall pack_admitted (packs st) /\ locations_from_packs (packs st) = Ok (locations st) /\
  forall d l, locations st !! d = Some l -> exists m,
    bmap_get (pl_data_name l) (packs st) = Some m /\ pl_entry l ∈ pm_objects m /\ digest (pe_object (pl_entry l)) = d /\
    pe_offset (pl_entry l) + size (pe_object (pl_entry l)) <= pm_data_size m /\ pm_data_size m <= u64_max.
Proof.
  intros Hr. destruct (reachable_typed st Hr) as [[Hw HL] Ha]. split_and!; try done. intros d l Hl.
  apply locations_from_packs_ok in HL as [_ Hrep]. rewrite (Hrep d) in Hl. apply best_in in Hl as [Hin Hd].
  unfold entries_of in Hin. apply list_elem_of_In, List.in_flat_map in Hin as ([n m] & Hnm & Hin).
  apply list_elem_of_In in Hnm, Hin. unfold pack_locations in Hin. apply list_elem_of_In, List.in_map_iff in Hin as (e & <- & He).
  apply list_elem_of_In in He. cbn [pl_data_name pl_entry fst snd] in *. exists m.
  rewrite list.Forall_forall in Ha. pose proof (Ha _ Hnm) as Hadm. apply pack_ranges_disjoint in Hadm as (Hb & _ & Hu).
  cbn [snd] in *. rewrite list.Forall_forall in Hb. split_and!; [by apply bmap_get_elem|done|done|by apply Hb|].
  apply Hu. intros Hnil. rewrite Hnil in He. by apply elem_of_nil in He.
Qed.
End Types.

(** A snapshot and the two records of the journal after it. *)
Definition ok_default {E A : Type} (r : Result E A) (d : A) : A := match r with Ok a => a | Err _ => d end.
Lemma ok_default_ok {E A : Type} (r : Result E A) d : is_ok r = true -> r = Ok (ok_default r d).
Proof. by destruct r. Qed.
Definition loaded : CatalogState :=
  ok_default (catalog_state_from_snapshot (P := toy) (snapshot_from_catalog_state CatalogExample.st) "d") default_state.

Lemma reachable_catalog_typed_witness :
  let st := (replay_catalog_records_locked (P := toy) CatalogExample.parse CatalogExample.dir CatalogExample.names loaded).1 in
  (packs st).*1 = [cp_data_name CatalogExample.pack2] /\ bmap_wf (packs st) /\ locations_from_packs (packs st) = Ok (locations st).
Proof.
  intros st. split; [vm_compute; reflexivity|].
  destruct (reachable_catalog_typed (P := toy) CatalogExample.parse st) as (H1 & _ & H2 & _); [|exact (conj H1 H2)].
  apply replay_reachable. eapply reach_snapshot. apply ok_default_ok. vm_compute. reflexivity.
Defined.
