(* ===== verification/CatalogCodec.v ===== *)
(** * Documents of the catalog

    The derived deserializers of the closed structs of cas.rs, and that they read
    back what was written. *)

From stdpp Require Import gmap.
From S2P Require Import Prelude Order Collections Text Json Canonical Instances JsonFormat JsonRead Errors CasObject Catalog.

Definition CATALOG_HEAD_SCHEMA : string := "codeclew-cas-catalog-head/1.0".
Definition CATALOG_DEFERRED_SCHEMA : string := "codeclew-cas-catalog-deferred/1.0".

Record CatalogHead : Type := mkCatalogHead {
  ch_schema : string;
  ch_snapshot_name : string;
  ch_snapshot_digest : string;
  ch_snapshot_sequence : N;
  ch_last_record_digest : option string
}.
Record CatalogDeferred : Type := mkCatalogDeferred {
  cd_schema : string;
  cd_base_snapshot_digest : string;
  cd_base_snapshot_sequence : N;
  cd_deferred_sequence : N;
  cd_snapshot_bytes : N
}.

Definition catalog_head_value (h : CatalogHead) : Value :=
  JObject [("schema", JString (ch_schema h)); ("snapshotName", JString (ch_snapshot_name h));
           ("snapshotDigest", JString (ch_snapshot_digest h)); ("snapshotSequence", JNumber (PosInt (ch_snapshot_sequence h)));
           ("lastRecordDigest", opt_string_value (ch_last_record_digest h))].
Definition catalog_deferred_value (d : CatalogDeferred) : Value :=
  JObject [("schema", JString (cd_schema d)); ("baseSnapshotDigest", JString (cd_base_snapshot_digest d));
           ("baseSnapshotSequence", JNumber (PosInt (cd_base_snapshot_sequence d)));
           ("deferredSequence", JNumber (PosInt (cd_deferred_sequence d))); ("snapshotBytes", JNumber (PosInt (cd_snapshot_bytes d)))].

Definition decode_cas_object (v : Value) : option CasObject :=
  match decode_struct ["digest"; "objectSchema"; "schema"; "size"] v with
  | Some [d; o; s; n] =>
      match decode_string d, decode_string o, decode_string s, decode_u64 n with
      | Some d, Some o, Some s, Some n =>
          Some {| digest := d; object_schema := o; schema := s; size := n |}
      | _, _, _, _ => None
      end
  | _ => None
  end.
Definition decode_entry (v : Value) : option PackEntry :=
  match decode_struct ["object"; "offset"] v with
  | Some [o; n] =>
      match decode_cas_object o, decode_u64 n with
      | Some o, Some n => Some {| pe_object := o; pe_offset := n |}
      | _, _ => None
      end
  | _ => None
  end.
Definition decode_pack_manifest (v : Value) : option PackManifest :=
  match decode_struct ["dataSha256"; "dataSize"; "objects"; "schema"] v with
  | Some [d; n; o; s] =>
      match decode_string d, decode_u64 n, decode_vec decode_entry o, decode_string s with
      | Some d, Some n, Some o, Some s =>
          Some {| pm_data_sha256 := d; pm_data_size := n; pm_objects := o; pm_schema := s |}
      | _, _, _, _ => None
      end
  | _ => None
  end.
Definition decode_catalog_pack (v : Value) : option CatalogPack :=
  match decode_struct ["dataName"; "manifest"] v with
  | Some [n; m] =>
      match decode_string n, decode_pack_manifest m with
      | Some n, Some m => Some {| cp_data_name := n; cp_manifest := m |}
      | _, _ => None
      end
  | _ => None
  end.
(** An [Option<String>] field may be absent. *)
Definition decode_catalog_snapshot (v : Value) : option CatalogSnapshot :=
  match decode_record [("lastRecordDigest", false); ("packs", true); ("schema", true); ("sequence", true)] v with
  | Some [l; p; s; n] =>
      match decode_option decode_string l, decode_required (decode_vec decode_catalog_pack) p,
            decode_required decode_string s, decode_required decode_u64 n with
      | Some l, Some p, Some s, Some n =>
          Some {| cs_last_record_digest := l; cs_packs := p; cs_schema := s; cs_sequence := n |}
      | _, _, _, _ => None
      end
  | _ => None
  end.
Definition operation_name (o : CatalogOperation) : string := match o with Add => "ADD" | Remove => "REMOVE" end.
Definition decode_catalog_record (v : Value) : option CatalogRecord :=
  match decode_record [("operation", true); ("pack", true); ("previousRecordDigest", false); ("schema", true); ("sequence", true)] v with
  | Some [o; p; d; s; n] =>
      match decode_required (decode_variant operation_name [Add; Remove]) o, decode_required decode_catalog_pack p,
            decode_option decode_string d, decode_required decode_string s, decode_required decode_u64 n with
      | Some o, Some p, Some d, Some s, Some n =>
          Some {| cr_operation := o; cr_pack := p; cr_previous_record_digest := d; cr_schema := s; cr_sequence := n |}
      | _, _, _, _, _ => None
      end
  | _ => None
  end.
Definition decode_catalog_head (v : Value) : option CatalogHead :=
  match decode_record [("schema", true); ("snapshotName", true); ("snapshotDigest", true); ("snapshotSequence", true);
                       ("lastRecordDigest", false)] v with
  | Some [s; n; d; q; l] =>
      match decode_required decode_string s, decode_required decode_string n, decode_required decode_string d,
            decode_required decode_u64 q, decode_option decode_string l with
      | Some s, Some n, Some d, Some q, Some l =>
          Some {| ch_schema := s; ch_snapshot_name := n; ch_snapshot_digest := d; ch_snapshot_sequence := q;
                  ch_last_record_digest := l |}
      | _, _, _, _, _ => None
      end
  | _ => None
  end.
Definition decode_catalog_deferred (v : Value) : option CatalogDeferred :=
  match decode_struct ["schema"; "baseSnapshotDigest"; "baseSnapshotSequence"; "deferredSequence"; "snapshotBytes"] v with
  | Some [s; d; b; q; n] =>
      match decode_string s, decode_string d, decode_u64 b, decode_u64 q, decode_u64 n with
      | Some s, Some d, Some b, Some q, Some n =>
          Some {| cd_schema := s; cd_base_snapshot_digest := d; cd_base_snapshot_sequence := b; cd_deferred_sequence := q;
                  cd_snapshot_bytes := n |}
      | _, _, _, _, _ => None
      end
  | _ => None
  end.

(** [serde_json::from_slice]. *)
Definition from_slice {R : JsonReader} {A} (decode : Value -> option A) (bytes : list byte) : option A :=
  match read_document bytes with Some v => decode v | None => None end.

(* --------------------------------------------------------------------- *)
(** ** Widths *)

Definition entry_sized (e : PackEntry) : Prop := size (pe_object e) <= u64_max /\ pe_offset e <= u64_max.
Definition manifest_sized (m : PackManifest) : Prop := pm_data_size m <= u64_max /\ Forall entry_sized (pm_objects m).
Definition snapshot_sized (s : CatalogSnapshot) : Prop :=
  cs_sequence s <= u64_max /\ Forall (fun p => manifest_sized (cp_manifest p)) (cs_packs s).
Definition record_sized (r : CatalogRecord) : Prop := cr_sequence r <= u64_max /\ manifest_sized (cp_manifest (cr_pack r)).

Lemma decode_cas_object_written o : size o <= u64_max -> decode_cas_object (sort_value (cas_object_value o)) = Some o.
Proof.
  intros Hs. change (sort_value (cas_object_value o)) with (cas_object_value o).
  unfold decode_cas_object. cbn -[u64_max decode_u64]. rewrite decode_u64_natural by done. by destruct o.
Qed.

(** A deserialized record has its type. *)
Lemma decode_u64_bound v n : decode_u64 v = Some n -> n <= u64_max.
Proof.
  destruct v as [| |[m| |]| | |]; try discriminate. unfold decode_u64. destruct (N.leb_spec m u64_max); [|done]. by intros [= <-].
Qed.
Lemma decode_cas_object_size v o : decode_cas_object v = Some o -> size o <= u64_max.
Proof.
  unfold decode_cas_object. destruct (decode_struct _ v) as [[|a [|b [|c [|d [|]]]]]|]; try done.
  destruct (decode_string a), (decode_string b), (decode_string c); try done.
  destruct (decode_u64 d) as [n|] eqn:Hn; [|done]. intros [= <-]. by eapply decode_u64_bound.
Qed.

Lemma decode_entry_written e : entry_sized e -> decode_entry (pack_entry_value e) = Some e.
Proof.
  intros [Hs Ho]. unfold decode_entry, pack_entry_value. cbn -[u64_max decode_u64 decode_cas_object cas_object_value].
  rewrite decode_u64_natural by done. pose proof (decode_cas_object_written (pe_object e) Hs) as H.
  change (sort_value (cas_object_value (pe_object e))) with (cas_object_value (pe_object e)) in H. rewrite H. by destruct e.
Qed.

Lemma decode_manifest_written m : manifest_sized m -> decode_pack_manifest (pack_manifest_value m) = Some m.
Proof.
  intros [Hs Ho]. unfold decode_pack_manifest, pack_manifest_value. cbn -[u64_max decode_u64 decode_entry pack_entry_value].
  rewrite decode_u64_natural by done. change (map pack_entry_value (pm_objects m)) with (pack_entry_value <$> pm_objects m).
  rewrite decode_list_fmap; [by destruct m|]. eapply list.Forall_impl; [exact Ho|]. apply decode_entry_written.
Qed.

Lemma decode_pack_written p : manifest_sized (cp_manifest p) -> decode_catalog_pack (catalog_pack_value p) = Some p.
Proof.
  intros Hm. unfold decode_catalog_pack, catalog_pack_value. cbn -[decode_pack_manifest pack_manifest_value].
  rewrite decode_manifest_written by done. by destruct p.
Qed.

Lemma decode_opt_written o : decode_option decode_string (Some (opt_string_value o)) = Some o.
Proof. by destruct o. Qed.

Lemma decode_snapshot_written s : snapshot_sized s -> decode_catalog_snapshot (catalog_snapshot_value s) = Some s.
Proof.
  intros [Hs Hp]. unfold decode_catalog_snapshot, catalog_snapshot_value.
  cbn -[u64_max decode_u64 decode_catalog_pack catalog_pack_value decode_option opt_string_value].
  rewrite decode_opt_written, decode_u64_natural by done.
  change (map catalog_pack_value (cs_packs s)) with (catalog_pack_value <$> cs_packs s).
  rewrite decode_list_fmap; [by destruct s|]. eapply list.Forall_impl; [exact Hp|]. intros p. apply decode_pack_written.
Qed.

Lemma decode_record_written r : record_sized r -> decode_catalog_record (catalog_record_value r) = Some r.
Proof.
  intros [Hs Hp]. unfold decode_catalog_record, catalog_record_value.
  cbn -[u64_max decode_u64 decode_catalog_pack catalog_pack_value decode_option opt_string_value decode_variant catalog_operation_value].
  rewrite decode_opt_written, decode_u64_natural, decode_pack_written by done.
  by destruct r as [[] ? ? ? ?].
Qed.

Lemma head_sorted h : sort_value (catalog_head_value h) =
  JObject [("lastRecordDigest", opt_string_value (ch_last_record_digest h)); ("schema", JString (ch_schema h));
           ("snapshotDigest", JString (ch_snapshot_digest h)); ("snapshotName", JString (ch_snapshot_name h));
           ("snapshotSequence", JNumber (PosInt (ch_snapshot_sequence h)))].
Proof. by destruct h as [s n d q [l|]]. Qed.
Lemma deferred_sorted d : sort_value (catalog_deferred_value d) =
  JObject [("baseSnapshotDigest", JString (cd_base_snapshot_digest d));
           ("baseSnapshotSequence", JNumber (PosInt (cd_base_snapshot_sequence d)));
           ("deferredSequence", JNumber (PosInt (cd_deferred_sequence d)));
           ("schema", JString (cd_schema d)); ("snapshotBytes", JNumber (PosInt (cd_snapshot_bytes d)))].
Proof. reflexivity. Qed.

Lemma decode_head_written h : ch_snapshot_sequence h <= u64_max ->
  decode_catalog_head (sort_value (catalog_head_value h)) = Some h.
Proof.
  intros Hs. rewrite head_sorted. unfold decode_catalog_head. cbn -[u64_max decode_u64 decode_option opt_string_value].
  rewrite decode_opt_written, decode_u64_natural by done. by destruct h.
Qed.

Lemma decode_deferred_written d : cd_base_snapshot_sequence d <= u64_max -> cd_deferred_sequence d <= u64_max ->
  cd_snapshot_bytes d <= u64_max -> decode_catalog_deferred (sort_value (catalog_deferred_value d)) = Some d.
Proof.
  intros H1 H2 H3. rewrite deferred_sorted. unfold decode_catalog_deferred. cbn -[u64_max decode_u64].
  rewrite !decode_u64_natural by done. by destruct d.
Qed.

(* --------------------------------------------------------------------- *)
(** ** What a written document reads as *)

Definition shallow (n : N) (v : Value) : Prop := plain v = true /\ nesting v <= n.

Lemma shallow_object n m : Forall (fun e => shallow n e.2) m -> shallow (n + 1) (JObject m).
Proof.
  intros Hm. split; cbn [plain nesting].
  - apply forallb_forall. intros e He. rewrite list.Forall_forall in Hm. apply list_elem_of_In in He. by apply Hm.
  - induction Hm as [|e m [_ He] Hm IH]; cbn; lia.
Qed.
Lemma shallow_array n l : Forall (shallow n) l -> shallow (n + 1) (JArray l).
Proof.
  intros Hl. split; cbn [plain nesting].
  - apply forallb_forall. intros v Hv. rewrite list.Forall_forall in Hl. apply list_elem_of_In in Hv. by apply Hl.
  - induction Hl as [|v l [_ Hv] Hl IH]; cbn; lia.
Qed.
Lemma shallow_mono n m v : n <= m -> shallow n v -> shallow m v.
Proof. intros Hn [Hp Hs]. split; [done|lia]. Qed.
Lemma shallow_string n s : shallow n (JString s).
Proof. split; [done|cbn; lia]. Qed.
Lemma shallow_null n : shallow n JNull.
Proof. split; [done|cbn; lia]. Qed.
Lemma shallow_natural n k : k <= u64_max -> shallow n (JNumber (PosInt k)).
Proof. intros Hk. split; [cbn; by apply N.leb_le|cbn; lia]. Qed.
Lemma shallow_opt n o : shallow n (opt_string_value o).
Proof. destruct o; [apply shallow_string|apply shallow_null]. Qed.
#[export] Hint Resolve shallow_string shallow_null shallow_natural shallow_opt : core.

Ltac shallow_fields := repeat (apply list.Forall_cons; split; cbn [snd]; auto); try apply list.Forall_nil; auto.

Lemma shallow_cas_object o : size o <= u64_max -> shallow 1 (cas_object_value o).
Proof. intros Hs. apply (shallow_object 0). unfold cas_object_value. shallow_fields. Qed.
Lemma shallow_entry e : entry_sized e -> shallow 2 (pack_entry_value e).
Proof. intros [Hs Ho]. apply (shallow_object 1). shallow_fields. by apply shallow_cas_object. Qed.
Lemma shallow_manifest m : manifest_sized m -> shallow 4 (pack_manifest_value m).
Proof.
  intros [Hs Ho]. apply (shallow_object 3). shallow_fields. apply (shallow_array 2). apply list.Forall_fmap.
  eapply list.Forall_impl; [exact Ho|]. intros e He. by apply shallow_entry.
Qed.
Lemma shallow_pack p : manifest_sized (cp_manifest p) -> shallow 5 (catalog_pack_value p).
Proof. intros Hm. apply (shallow_object 4). shallow_fields. by apply shallow_manifest. Qed.
Lemma shallow_snapshot s : snapshot_sized s -> shallow 7 (catalog_snapshot_value s).
Proof.
  intros [Hs Hp]. apply (shallow_object 6). shallow_fields. apply (shallow_array 5). apply list.Forall_fmap.
  eapply list.Forall_impl; [exact Hp|]. intros p Hm. by apply shallow_pack.
Qed.
Lemma shallow_record r : record_sized r -> shallow 6 (catalog_record_value r).
Proof.
  intros [Hs Hp]. apply (shallow_object 5). unfold catalog_record_value, catalog_operation_value. shallow_fields. by apply shallow_pack.
Qed.

Section Written.
Context {P : Primitives} {R : JsonReader} {RL : ReaderLaws P R}.

Lemma from_slice_written {A} (decode : Value -> option A) v a n : shallow n v -> n <= 64 -> decode v = Some a ->
  from_slice decode (to_vec v) = Some a.
Proof. intros [Hp Hd] Hn Ha. unfold from_slice. by rewrite read_written by (done || lia). Qed.

Lemma read_manifest_written m : manifest_sized m -> from_slice decode_pack_manifest (catalog_bytes (pack_manifest_value m)) = Some m.
Proof. intros Hm. eapply from_slice_written; [by apply shallow_manifest|done|by apply decode_manifest_written]. Qed.
Lemma read_snapshot_written s : snapshot_sized s ->
  from_slice decode_catalog_snapshot (catalog_bytes (catalog_snapshot_value s)) = Some s.
Proof. intros Hs. eapply from_slice_written; [by apply shallow_snapshot|done|by apply decode_snapshot_written]. Qed.
Lemma read_record_written r : record_sized r ->
  from_slice decode_catalog_record (catalog_bytes (catalog_record_value r)) = Some r.
Proof. intros Hr. eapply from_slice_written; [by apply shallow_record|done|by apply decode_record_written]. Qed.
Lemma read_head_written h : ch_snapshot_sequence h <= u64_max ->
  from_slice decode_catalog_head (value_bytes (catalog_head_value h)) = Some h.
Proof.
  intros Hs. unfold value_bytes. eapply (from_slice_written _ _ _ 1); [|done|by apply decode_head_written].
  rewrite head_sorted. apply (shallow_object 0). shallow_fields.
Qed.
Lemma read_deferred_written d : cd_base_snapshot_sequence d <= u64_max -> cd_deferred_sequence d <= u64_max ->
  cd_snapshot_bytes d <= u64_max -> from_slice decode_catalog_deferred (value_bytes (catalog_deferred_value d)) = Some d.
Proof.
  intros H1 H2 H3. unfold value_bytes. eapply (from_slice_written _ _ _ 1); [|done|by apply decode_deferred_written].
  rewrite deferred_sorted. apply (shallow_object 0). shallow_fields.
Qed.
End Written.
