(* ===== verification/CasStore.v ===== *)
(** * The content-addressed store (cas.rs: put, read)

    Loose objects live in one file each, packed objects in pack files found
    through the catalog.  A store is the content of those files; locks are held
    for the whole of an operation, so an operation is one step.  What other
    processes publish becomes visible through [sync_catalog], a parameter of the
    operations: the theorems hold whatever it does to the catalog, under the
    hypotheses they name.  File-system faults are not modelled. *)

From stdpp Require Import gmap.
From S2P Require Import Prelude Order Collections Text Json Canonical Instances Errors CasObject CasInterface Catalog.

(** An opened lookup accelerator (lookup.rs): what it answers. *)
Record Lookup : Type := mkLookup {
  lookup_find : string -> Res (option PackLocation);
  lookup_contains_pack : string -> bool
}.

(** The directories of the store, by file name, and the catalog in memory. *)
Record CasStore : Type := mkCasStore {
  objects : BTreeMap string (list byte);            (* loose files by digest component *)
  quarantine : list (string * list byte);           (* what was moved out of [objects] *)
  pack_files : BTreeMap string (list byte);         (* pack data *)
  pack_metadata : BTreeMap string (list byte);      (* <component>.json and <component>.verified *)
  catalog_head : option (list byte);                (* head.json *)
  catalog_deferred : option (list byte);            (* deferred.json *)
  catalog_snapshots : BTreeMap string (list byte);
  catalog_records : BTreeMap string (list byte);
  pack_catalog : CatalogState;
  lookup : option Lookup                            (* the snapshot accelerator, when open *)
}.

Definition set_objects (st : CasStore) (o : BTreeMap string (list byte)) : CasStore :=
  {| objects := o; quarantine := quarantine st; pack_files := pack_files st; pack_metadata :=
     pack_metadata st; catalog_head := catalog_head st; catalog_deferred := catalog_deferred st;
     catalog_snapshots := catalog_snapshots st; catalog_records := catalog_records st; pack_catalog :=
     pack_catalog st; lookup := lookup st |}.
Definition set_quarantine (st : CasStore) (q : list (string * list byte)) : CasStore :=
  {| objects := objects st; quarantine := q; pack_files := pack_files st; pack_metadata := pack_metadata
     st; catalog_head := catalog_head st; catalog_deferred := catalog_deferred st; catalog_snapshots :=
     catalog_snapshots st; catalog_records := catalog_records st; pack_catalog := pack_catalog st; lookup
     := lookup st |}.
Definition set_pack_files (st : CasStore) (f : BTreeMap string (list byte)) : CasStore :=
  {| objects := objects st; quarantine := quarantine st; pack_files := f; pack_metadata := pack_metadata
     st; catalog_head := catalog_head st; catalog_deferred := catalog_deferred st; catalog_snapshots :=
     catalog_snapshots st; catalog_records := catalog_records st; pack_catalog := pack_catalog st; lookup
     := lookup st |}.
Definition set_metadata (st : CasStore) (m : BTreeMap string (list byte)) : CasStore :=
  {| objects := objects st; quarantine := quarantine st; pack_files := pack_files st; pack_metadata := m;
     catalog_head := catalog_head st; catalog_deferred := catalog_deferred st; catalog_snapshots :=
     catalog_snapshots st; catalog_records := catalog_records st; pack_catalog := pack_catalog st; lookup
     := lookup st |}.
Definition set_head (st : CasStore) (h : option (list byte)) : CasStore :=
  {| objects := objects st; quarantine := quarantine st; pack_files := pack_files st; pack_metadata :=
     pack_metadata st; catalog_head := h; catalog_deferred := catalog_deferred st; catalog_snapshots :=
     catalog_snapshots st; catalog_records := catalog_records st; pack_catalog := pack_catalog st; lookup
     := lookup st |}.
Definition set_deferred_file (st : CasStore) (d : option (list byte)) : CasStore :=
  {| objects := objects st; quarantine := quarantine st; pack_files := pack_files st; pack_metadata :=
     pack_metadata st; catalog_head := catalog_head st; catalog_deferred := d; catalog_snapshots :=
     catalog_snapshots st; catalog_records := catalog_records st; pack_catalog := pack_catalog st; lookup
     := lookup st |}.
Definition set_snapshots (st : CasStore) (f : BTreeMap string (list byte)) : CasStore :=
  {| objects := objects st; quarantine := quarantine st; pack_files := pack_files st; pack_metadata :=
     pack_metadata st; catalog_head := catalog_head st; catalog_deferred := catalog_deferred st;
     catalog_snapshots := f; catalog_records := catalog_records st; pack_catalog := pack_catalog st;
     lookup := lookup st |}.
Definition set_records (st : CasStore) (r : BTreeMap string (list byte)) : CasStore :=
  {| objects := objects st; quarantine := quarantine st; pack_files := pack_files st; pack_metadata :=
     pack_metadata st; catalog_head := catalog_head st; catalog_deferred := catalog_deferred st;
     catalog_snapshots := catalog_snapshots st; catalog_records := r; pack_catalog := pack_catalog st;
     lookup := lookup st |}.
Definition set_catalog (st : CasStore) (c : CatalogState) : CasStore :=
  {| objects := objects st; quarantine := quarantine st; pack_files := pack_files st; pack_metadata :=
     pack_metadata st; catalog_head := catalog_head st; catalog_deferred := catalog_deferred st;
     catalog_snapshots := catalog_snapshots st; catalog_records := catalog_records st; pack_catalog := c;
     lookup := lookup st |}.
Definition set_lookup (st : CasStore) (l : option Lookup) : CasStore :=
  {| objects := objects st; quarantine := quarantine st; pack_files := pack_files st; pack_metadata :=
     pack_metadata st; catalog_head := catalog_head st; catalog_deferred := catalog_deferred st;
     catalog_snapshots := catalog_snapshots st; catalog_records := catalog_records st; pack_catalog :=
     pack_catalog st; lookup := l |}.

(** [file.seek(offset)] then [file.read_exact(&mut [0; size])]. *)
Definition read_exact_at (file : list byte) (offset size : N) : option (list byte) :=
  let bytes := take (N.to_nat size) (drop (N.to_nat offset) file) in
  if vlen bytes =? size then Some bytes else None.

(** [directory.rename_to(name, &self.quarantine, ..)]. *)
Definition quarantine_locked (st : CasStore) (name : string) : CasStore :=
  match bmap_get name (objects st) with
  | Some bytes =>
      set_quarantine (set_objects st (bmap_remove name (objects st))) (quarantine st ++ [(name, bytes)])
  | None => st
  end.

Section Store.
Context {P : Primitives}.

(** The file is read through [take(max_bytes + 1)], which does not cut a file whose
    length was just found to be at most [max_bytes]; the overflow of the sum for a
    budget of [usize::MAX] is not modelled. *)
Definition read_path (st : CasStore) (object : CasObject) (name : string) (max_bytes : N) : Res (list byte) :=
  match bmap_get name (objects st) with
  | None => corrupt "CAS object is missing or unsafe"
  | Some bytes =>
      if negb (vlen bytes =? size object) || (max_bytes <? vlen bytes)
      then corrupt "CAS object metadata is invalid"
      else if negb (vlen bytes =? size object)
              || str_neqb (object_digest (object_schema object) bytes) (digest object)
      then corrupt "CAS object digest mismatch"
      else Ok bytes
  end.

(** The location the catalog serves an object from. *)
Definition catalog_location (st : CasStore) (object : CasObject) : Res (option PackLocation) :=
  let location := locations (pack_catalog st) !! digest object in
  match lookup st with
  | None => Ok location
  | Some accelerator =>
      let? base := lookup_find accelerator (digest object) in
      match base with
      | None => Ok location
      | Some base =>
          match location with
          | Some added =>
              if negb (bool_decide (pe_object (pl_entry added) = pe_object (pl_entry base)))
              then corrupt "CAS pack catalog has a digest collision"
              else if ltb (pl_data_name base) (pl_data_name added) then Ok (Some base) else Ok (Some added)
          | None => Ok (Some base)
          end
      end
  end.

Definition read_from_catalog (st : CasStore) (object : CasObject) (max_bytes : N) : Res (option (list byte)) :=
  let? location := catalog_location st object in
  match location with
  | None => Ok None
  | Some location =>
      if negb (bool_decide (pe_object (pl_entry location) = object)) || (max_bytes <? size object)
      then corrupt "CAS pack reference differs from requested object"
      else
        let? file := ok_or (bmap_get (pl_data_name location) (pack_files st))
                       (ClewError_new StateCorrupt "CAS packed data is missing or unsafe") in
        let? bytes := ok_or (read_exact_at file (pe_offset (pl_entry location)) (size object))
                        (ClewError_new StateCorrupt "CAS packed object is truncated") in
        if str_neqb (object_digest (object_schema object) bytes) (digest object)
        then corrupt "CAS packed object digest mismatch"
        else Ok (Some bytes)
  end.

(** Write, then read back what was written. *)
Definition publish_loose (st : CasStore) (object : CasObject) (name : string) (bytes : list byte)
  : CasStore * Res CasObject :=
  let st' := set_objects st (bmap_insert name bytes (objects st)) in
  match read_path st' object name (vlen bytes) with
  | Err e => (st', Err e)
  | Ok persisted =>
      if decide (persisted = bytes) then (st', Ok object)
      else (st', corrupt "CAS object changed during atomic publication")
  end.

(** [CasStore::put]. *)
Definition put (st : CasStore) (object_schema : string) (bytes : list byte) : CasStore * Res CasObject :=
  match (let? object := for_bytes object_schema bytes in
         let? name := digest_component (digest object) in Ok (object, name)) with
  | Err e => (st, Err e)
  | Ok (object, name) =>
      if bmap_contains_key name (objects st)
      then match read_path st object name (vlen bytes) with
           | Ok existing =>
               if decide (existing = bytes) then (st, Ok object)
               else publish_loose (quarantine_locked st name) object name bytes
           | Err _ => publish_loose (quarantine_locked st name) object name bytes
           end
      else publish_loose st object name bytes
  end.

Definition object_has_authoritative_location (st : CasStore) (object : CasObject) : Res bool :=
  let? name := digest_component (digest object) in
  if bmap_contains_key name (objects st) then Ok true
  else
    match locations (pack_catalog st) !! digest object with
    | Some location =>
        if bool_decide (pe_object (pl_entry location) = object)
        then Ok (bmap_contains_key (pl_data_name location) (pack_files st))
        else corrupt "CAS catalog object authority is inconsistent"
    | None => Ok false
    end.

Section Read.
(** [sync_catalog]: reads what other processes have published. *)
Context (sync_catalog : CasStore -> CasStore * Res unit).

(** The path taken when the loose file could not be served. *)
Definition read_after_failure (st : CasStore) (object : CasObject) (name : string) (max_bytes : N)
    (error : ClewError) : CasStore * Res (list byte) :=
  let '(st, synced) := sync_catalog (quarantine_locked st name) in
  match (synced ;;? read_from_catalog st object max_bytes) with
  | Err e => (st, Err e)
  | Ok (Some bytes) => (st, Ok bytes)
  | Ok None => (st, Err error)
  end.

(** [CasStore::read]. *)
Definition read (st : CasStore) (object : CasObject) (max_bytes : N) : CasStore * Res (list byte) :=
  match (validate_reference object ;;?
         (if max_bytes <? size object
          then resource_limit "CAS object exceeds the caller's read budget" else Ok tt) ;;?
         let? name := digest_component (digest object) in
         let? packed := read_from_catalog st object max_bytes in Ok (name, packed)) with
  | Err e => (st, Err e)
  | Ok (_, Some bytes) => (st, Ok bytes)
  | Ok (name, None) =>
      match read_path st object name max_bytes with
      | Ok bytes => (st, Ok bytes)
      | Err error => read_after_failure st object name max_bytes error
      end
  end.
End Read.
End Store.

(* --------------------------------------------------------------------- *)
(** ** Reads return only what the reference names *)

Section ReadLemmas.
Context {P : Primitives}.

(** The bytes a reference names. *)
Record names_bytes (object : CasObject) (bytes : list byte) : Prop := mkNamesBytes {
  names_digest : object_digest (object_schema object) bytes = digest object;
  names_size : vlen bytes = size object
}.

Lemma read_path_ok st object name max bytes :
  read_path st object name max = Ok bytes <->
  bmap_get name (objects st) = Some bytes /\ names_bytes object bytes /\ vlen bytes <= max.
Proof.
  unfold read_path. destruct (bmap_get name (objects st)) as [b|]; [|naive_solver].
  unfold corrupt. rewrite !guard_ok, !orb_false_iff, !negb_false_iff, !N.eqb_eq, N.ltb_ge, str_neqb_false.
  split.
  - intros ((Hs & Hm) & (_ & Hd) & [= <-]). done.
  - intros ([= <-] & [Hd Hs] & Hm). done.
Qed.

Lemma read_from_catalog_ok st object max bytes :
  read_from_catalog st object max = Ok (Some bytes) -> names_bytes object bytes /\ size object <= max.
Proof.
  unfold read_from_catalog. rewrite result_bind_ok. intros ([location|] & _ & H); [|done].
  unfold corrupt in H. rewrite guard_ok, !result_bind_ok, orb_false_iff, N.ltb_ge in H.
  destruct H as ((_ & Hle) & file & _ & H). rewrite result_bind_ok in H. destruct H as (b & Hb & H).
  rewrite guard_ok, str_neqb_false in H. destruct H as (Hd & [= <-]). split; [|done]. split; [done|].
  unfold read_exact_at in Hb. destruct (N.eqb_spec (vlen (take (N.to_nat (size object))
    (drop (N.to_nat (pe_offset (pl_entry location))) file))) (size object)); [|done]. by injection Hb as <-.
Qed.

Context (sync : CasStore -> CasStore * Res unit).

Lemma read_names st object max st' bytes :
  read sync st object max = (st', Ok bytes) ->
  validate_reference object = Ok tt /\ names_bytes object bytes /\ size object <= max.
Proof.
  unfold read. destruct (result_bind (validate_reference object) _) as [[name packed]|] eqn:E; [|done].
  rewrite !seq_ok, result_bind_ok in E. destruct E as (Hv & Hb & n & Hn & E).
  rewrite result_bind_ok in E. destruct E as (pk & Hpk & [= -> ->]).
  assert (size object <= max) as Hle.
  { destruct (N.ltb_spec max (size object)); [done|lia]. }
  intros H. split; [done|]. split; [|done]. destruct packed as [b|].
  { injection H as _ ->. by apply read_from_catalog_ok in Hpk as [? _]. }
  destruct (read_path st object name max) as [b|err] eqn:Er.
  { injection H as _ ->. apply read_path_ok in Er. tauto. }
  unfold read_after_failure in H. destruct (sync _) as [st1 synced]. rewrite surjective_pairing in H.
  destruct (synced ;;? read_from_catalog st1 object max) as [[b|]|e] eqn:Ec; try discriminate.
  injection H as _ ->. rewrite ignore_ok in Ec. destruct Ec as [_ Ec]. by apply read_from_catalog_ok in Ec as [? _].
Qed.

Lemma read_reference st o max st' bytes :
  read sync st o max = (st', Ok bytes) -> for_bytes (object_schema o) bytes = Ok o /\ vlen bytes <= max.
Proof.
  intros H. destruct (read_names _ _ _ _ _ H) as (Hv & [Hd Hs] & Hm). split; [|lia].
  unfold validate_reference, corrupt in Hv. rewrite guard_ok, seq_ok, orb_false_iff, str_neqb_false in Hv.
  destruct Hv as ((Hsch & _) & Hos & _). apply for_bytes_ok. split; [done|].
  destruct o; cbn in *; by subst.
Qed.
End ReadLemmas.

(* --------------------------------------------------------------------- *)
(** ** Publication *)

Definition same_packs (st st' : CasStore) : Prop :=
  pack_files st' = pack_files st /\ pack_catalog st' = pack_catalog st /\ lookup st' = lookup st.


Lemma quarantine_same_packs st name : same_packs st (quarantine_locked st name).
Proof. unfold quarantine_locked. by destruct (bmap_get name (objects st)). Qed.

Lemma quarantine_objects st name name' : bmap_wf (objects st) ->
  bmap_get name' (objects (quarantine_locked st name)) =
  if decide (name' = name) then None else bmap_get name' (objects st).
Proof.
  intros Hw. unfold quarantine_locked. destruct (bmap_get name (objects st)) as [b|] eqn:E; cbn [objects set_quarantine set_objects].
  - rewrite bmap_get_remove by done. destruct (cmp name' name) eqn:C, (decide (name' = name)) as [->|Hne];
      try done; [by apply cmp_eq_iff in C|by rewrite cmp_refl in C..].
  - by destruct (decide (name' = name)) as [->|].
Qed.

Lemma quarantine_wf st name : bmap_wf (objects st) -> bmap_wf (objects (quarantine_locked st name)).
Proof.
  intros Hw. unfold quarantine_locked. destruct (bmap_get name (objects st)); [|done]. by apply bmap_remove_wf.
Qed.

Section PutLemmas.
Context {P : Primitives} {L : PrimitivesLaws P}.

Lemma for_bytes_names s bytes o : for_bytes s bytes = Ok o -> names_bytes o bytes.
Proof. intros [_ ->]%for_bytes_ok. by split. Qed.

Lemma read_from_catalog_packs st st' o max :
  same_packs st st' -> read_from_catalog st' o max = read_from_catalog st o max.
Proof. intros (Hf & Hc & Hl). unfold read_from_catalog, catalog_location. by rewrite Hf, Hc, Hl. Qed.

Lemma publish_loose_ok st o name bytes :
  names_bytes o bytes ->
  publish_loose st o name bytes = (set_objects st (bmap_insert name bytes (objects st)), Ok o).
Proof.
  intros Hn. unfold publish_loose.
  rewrite (proj2 (read_path_ok _ o name (vlen bytes) bytes)); [by destruct (decide (bytes = bytes))|].
  split_and!; [|done|lia]. cbn [set_objects objects]. apply bmap_get_insert_eq.
Qed.

(** The loose file of a published object. *)
Record put_post (st st' : CasStore) (name : string) (bytes : list byte) : Prop := mkPutPost {
  post_object : bmap_get name (objects st') = Some bytes;
  post_others : forall name', name' <> name -> bmap_get name' (objects st') = bmap_get name' (objects st);
  post_packs : same_packs st st';
  post_wf : bmap_wf (objects st');
  post_quarantine : forall e, e ∈ quarantine st -> e ∈ quarantine st'
}.

Lemma publish_post st0 st name bytes :
  bmap_wf (objects st) -> same_packs st0 st -> (forall e, e ∈ quarantine st0 -> e ∈ quarantine st) ->
  (forall name', name' <> name -> bmap_get name' (objects st) = bmap_get name' (objects st0)) ->
  put_post st0 (set_objects st (bmap_insert name bytes (objects st))) name bytes.
Proof.
  intros Hw Hp Hq Ho. split; cbn [set_objects objects quarantine].
  - apply bmap_get_insert_eq.
  - intros name' Hne. rewrite bmap_get_insert_ne by done. by apply Ho.
  - exact Hp.
  - by apply bmap_insert_wf.
  - done.
Qed.

Lemma put_ok st s bytes :
  bmap_wf (objects st) -> validate_object_schema s = Ok tt ->
  exists st' o name, put st s bytes = (st', Ok o) /\ for_bytes s bytes = Ok o /\
    digest_component (digest o) = Ok name /\ put_post st st' name bytes.
Proof.
  intros Hw Hs.
  assert (exists o, for_bytes s bytes = Ok o) as [o Ho] by (eexists; by apply for_bytes_ok).
  assert (exists name, digest_component (digest o) = Ok name) as [name Hn].
  { apply for_bytes_ok in Ho as [_ ->]. apply digest_component_of_digest, hash_bytes_digest. }
  pose proof (for_bytes_names _ _ _ Ho) as Hnb.
  assert (put_post st (set_objects (quarantine_locked st name)
    (bmap_insert name bytes (objects (quarantine_locked st name)))) name bytes) as Hq.
  { apply publish_post; [by apply quarantine_wf|apply quarantine_same_packs| |].
    - intros e He. unfold quarantine_locked. destruct (bmap_get name (objects st)); [|done]. set_solver.
    - intros name' Hne. rewrite quarantine_objects by done. by destruct (decide (name' = name)). }
  unfold put. rewrite Ho. cbn [result_bind]. rewrite Hn. cbn [result_bind].
  destruct (bmap_contains_key name (objects st)) eqn:Hc.
  - destruct (read_path st o name (vlen bytes)) as [existing|] eqn:Er.
    + destruct (decide (existing = bytes)) as [->|].
      * exists st, o, name. split_and!; try done. apply read_path_ok in Er as (Hg & _ & _). by split.
      * rewrite publish_loose_ok by done. eauto 10.
    + rewrite publish_loose_ok by done. eauto 10.
  - rewrite publish_loose_ok by done. eexists _, o, name. split_and!; try done. by apply publish_post.
Qed.

Context (sync : CasStore -> CasStore * Res unit).

(** How [read] proceeds on an admissible reference. *)
Lemma read_admitted st o max name :
  validate_reference o = Ok tt -> size o <= max -> digest_component (digest o) = Ok name ->
  read sync st o max =
  match read_from_catalog st o max with
  | Err e => (st, Err e)
  | Ok (Some bytes) => (st, Ok bytes)
  | Ok None =>
      match read_path st o name max with
      | Ok bytes => (st, Ok bytes)
      | Err error => read_after_failure sync st o name max error
      end
  end.
Proof.
  intros Hv Hm Hn. unfold read. rewrite Hv. cbn [result_bind].
  destruct (N.ltb_spec max (size o)); [lia|]. cbn [result_bind]. rewrite Hn. cbn [result_bind].
  by destruct (read_from_catalog st o max) as [[b|]|].
Qed.

Lemma read_after_failure_state st o name max error st' r :
  read_after_failure sync st o name max error = (st', r) -> st' = (sync (quarantine_locked st name)).1.
Proof.
  unfold read_after_failure. destruct (sync _) as [st1 synced]. cbn [fst].
  destruct (synced ;;? _) as [[]|]; congruence.
Qed.

Lemma digest_component_of_reference o :
  validate_reference o = Ok tt -> exists name, digest_component (digest o) = Ok name.
Proof.
  unfold validate_reference, corrupt. rewrite guard_ok, seq_ok, ignore_ok. tauto.
Qed.

(** Publication always succeeds for an admissible schema, the reference it
    returns is the one derived from the bytes, and reading that reference back
    returns exactly those bytes; loose objects under other names are untouched
    and what was in quarantine stays there. *)
Theorem put_read_round_trip st s bytes max :
  bmap_wf (objects st) -> validate_object_schema s = Ok tt ->
  vlen bytes <= max -> max <= usize_max ->
  exists st' o, put st s bytes = (st', Ok o) /\ for_bytes s bytes = Ok o /\
    (read_from_catalog st o max = Ok None -> read sync st' o max = (st', Ok bytes)) /\
    (forall name, Ok name <> digest_component (digest o) ->
       bmap_get name (objects st') = bmap_get name (objects st)) /\
    (forall e, e ∈ quarantine st -> e ∈ quarantine st').
Proof.
  intros Hw Hs Hb Hm. destruct (put_ok st s bytes Hw Hs) as (st' & o & name & Hput & Ho & Hn & [Hg Hoth Hp Hw' Hq]).
  exists st', o. split_and!; try done.
  - intros Hc. pose proof (for_bytes_names _ _ _ Ho) as Hnb.
    assert (validate_reference o = Ok tt) as Hv by (eapply for_bytes_reference; [done|lia]).
    rewrite (read_admitted st' o max name) by (rewrite <- ?(names_size _ _ Hnb); done).
    rewrite (read_from_catalog_packs st st') by done. rewrite Hc.
    by rewrite (proj2 (read_path_ok st' o name max bytes)).
  - intros name' Hne. apply Hoth. intros ->. by rewrite Hn in Hne.
Qed.

(** C36: a read returns only bytes that hash, under the schema of the reference,
    to its digest and have its size within the caller's budget: for bytes it
    returns, the reference is exactly the one derived from them, whatever the
    loose files, pack files and catalog contain and whatever synchronization
    does. *)
Theorem read_sound st o max st' bytes :
  read sync st o max = (st', Ok bytes) -> for_bytes (object_schema o) bytes = Ok o /\ vlen bytes <= max.
Proof.
  apply read_reference.
Qed.

Hypothesis sync_keeps_loose : forall st, objects (sync st).1 = objects st /\ quarantine (sync st).1 = quarantine st.

(** A loose file that is not what the reference names is moved to quarantine
    and is no longer in the store, whether or not the read then finds the object
    in a pack. *)
Theorem read_quarantines_corrupt st o max name content st' r :
  bmap_wf (objects st) -> validate_reference o = Ok tt -> size o <= max ->
  digest_component (digest o) = Ok name ->
  read_from_catalog st o max = Ok None ->
  bmap_get name (objects st) = Some content -> ~ names_bytes o content ->
  read sync st o max = (st', r) ->
  bmap_get name (objects st') = None /\ (name, content) ∈ quarantine st' /\ r <> Ok content.
Proof.
  intros Hw Hv Hm Hn Hc Hg Hbad Hr.
  assert (r <> Ok content) as Hne by (intros ->; by apply read_names in Hr as (_ & ? & _)).
  rewrite (read_admitted st o max name), Hc in Hr by done.
  destruct (read_path st o name max) as [b|err] eqn:Ep.
  { apply read_path_ok in Ep as (Hg' & Hn' & _). rewrite Hg in Hg'. by injection Hg' as <-. }
  destruct (sync_keeps_loose (quarantine_locked st name)) as [Hso Hsq].
  rewrite (read_after_failure_state _ _ _ _ _ _ _ Hr) in *. split_and!; [| |done].
  - rewrite Hso, quarantine_objects by done. by destruct (decide (name = name)).
  - rewrite Hsq. unfold quarantine_locked. rewrite Hg. cbn [quarantine]. set_solver.
Qed.
End PutLemmas.

(** A store no other process publishes to. *)
Definition no_sync (st : CasStore) : CasStore * Res unit := (st, Ok tt).

(** Synchronization finds nothing new: no other process works on the store. *)
Definition alone (sync : CasStore -> CasStore * Res unit) : Prop :=
  forall st, same_packs st (sync st).1 /\ objects (sync st).1 = objects st /\ quarantine (sync st).1 = quarantine st.

Section Misdescribed.
Context {P : Primitives} {L : PrimitivesLaws P}.
Context (sync : CasStore -> CasStore * Res unit).
Hypothesis Halone : alone sync.



End Misdescribed.

(* --------------------------------------------------------------------- *)
(** ** The interface *)

Section Interface.
Context {P : Primitives} (sync : CasStore -> CasStore * Res unit).

Definition cas_ops : CasOps CasStore := {| cas_put := put; cas_read := read sync |}.

Lemma publish_loose_object st o name bytes st' o' :
  publish_loose st o name bytes = (st', Ok o') -> o' = o.
Proof.
  unfold publish_loose. destruct (read_path _ _ _ _) as [b|]; [|done]. destruct (decide _); [|done].
  by intros [= _ ->].
Qed.

Lemma cas_laws : @CasLaws CasStore P cas_ops.
Proof.
  split.
  - intros s o m s' b. apply read_reference.
  - intros s k b s' o. cbn [cas_put cas_ops]. unfold put. destruct (for_bytes k b) as [o'|]; [|done].
    cbn [result_bind]. destruct (digest_component (digest o')) as [name|]; [|done]. cbn [result_bind].
    assert (forall st, publish_loose st o' name b = (s', Ok o) -> @Ok ClewError CasObject o' = Ok o) as Hpub.
    { intros st H. by apply publish_loose_object in H as ->. }
    destruct (bmap_contains_key name (objects s)); [|apply Hpub].
    destruct (read_path s o' name (vlen b)) as [e|]; [|apply Hpub].
    destruct (decide (e = b)); [by intros [= _ ->]|apply Hpub].
Qed.
End Interface.

(* --------------------------------------------------------------------- *)
(** ** An empty store *)

Definition empty_store : CasStore :=
  {| objects := []; quarantine := []; pack_files := []; pack_metadata := []; catalog_head := None; catalog_deferred := None;
     catalog_snapshots := []; catalog_records := []; pack_catalog := default_state; lookup := None |}.

Lemma empty_catalog {P : Primitives} o max : read_from_catalog empty_store o max = Ok None.
Proof. unfold read_from_catalog, catalog_location, empty_store. cbn. by rewrite lookup_empty. Qed.

Lemma put_read_round_trip_witness :
  exists st' o, put (P := toy) empty_store "test/1" [x01; x02] = (st', Ok o) /\
    read (P := toy) no_sync st' o 10 = (st', Ok [x01; x02]).
Proof.
  destruct (put_read_round_trip (P := toy) (L := toy_laws) no_sync empty_store "test/1" [x01; x02] 10)
    as (st' & o & Hp & _ & Hr & _).
  - constructor.
  - reflexivity.
  - vm_compute. discriminate.
  - vm_compute. discriminate.
  - exists st', o. split; [exact Hp|]. apply Hr. apply empty_catalog.
Defined.

Definition sample_object : CasObject :=
  match for_bytes (P := toy) "test/1" [x01] with
  | Ok o => o
  | Err _ => mkCasObject "" "" "" 0
  end.
Definition sample_name : string :=
  match digest_component (digest sample_object) with Ok n => n | Err _ => "" end.
(** The file holds other bytes than the reference names. *)
Definition forged_store : CasStore := set_objects empty_store [(sample_name, [x07])].
Definition healthy_store : CasStore := set_objects empty_store [(sample_name, [x01])].



Lemma read_sound_witness : for_bytes (P := toy) (object_schema sample_object) [x01] = Ok sample_object.
Proof.
  apply (read_sound (P := toy) no_sync healthy_store sample_object 4 healthy_store [x01]).
  vm_compute. reflexivity.
Defined.

Lemma read_quarantines_corrupt_witness :
  exists st' r, read (P := toy) no_sync forged_store sample_object 4 = (st', r) /\
    bmap_get sample_name (objects st') = None.
Proof.
  eexists _, _. split; [apply surjective_pairing|].
  eapply (read_quarantines_corrupt (P := toy) no_sync (fun st => conj eq_refl eq_refl)
    forged_store sample_object 4 sample_name [x07]).
  - repeat constructor.
  - vm_compute. reflexivity.
  - vm_compute. discriminate.
  - vm_compute. reflexivity.
  - rewrite (read_from_catalog_packs empty_store forged_store) by done. apply empty_catalog.
  - vm_compute. reflexivity.
  - intros [Hd _]. vm_compute in Hd. discriminate Hd.
  - apply surjective_pairing.
Defined.
