(* ===== verification/CasCatalog.v ===== *)
(** * The catalog on disk (cas.rs: head, snapshots, journal, deferral, synchronization)

    The authority of the catalog is the snapshot that head.json names and the
    journal of records after it.  A process keeps the resulting [CatalogState] in
    memory and brings it up to date with [sync_catalog_locked].  All operations run
    under the batch lock and are steps on a [CasStore].

    Parameters: [receipt_matches] and [receipt_bytes], the verification receipts of
    packs, which depend on the metadata of files; [lookup_open] and
    [lookup_publish], the lookup accelerator of lookup.rs (CatalogLookup), which only
    concerns files of its own in the snapshot directory.  Directories are listed in name order. *)

From stdpp Require Import gmap.
From S2P Require Import Prelude Order Collections Text Json Canonical Instances JsonFormat JsonRead Paths Errors CasObject CasInterface.
From S2P Require Import Catalog CatalogTypes CatalogCodec CasStore.
Open Scope N_scope.

Definition MAX_CATALOG_HEAD_BYTES : N := 4096.
Definition MAX_CATALOG_DEFERRED_BYTES : N := 4096.
Definition MAX_CATALOG_SNAPSHOT_BYTES : N := 256 * 1024 * 1024.
Definition MAX_CATALOG_RECOVERY_TAIL_BYTES : N := 256 * 1024 * 1024.
Definition LOOKUP_SUFFIXES : list string := [".lookup-v1"; ".lookup-v1.json"; ".lookup-v1.receipt"].

Definition is_some {A} (o : option A) : bool := match o with Some _ => true | None => false end.

(** [ManagedDirectory::read_file] of a file that may be missing. *)
Definition bounded (max : N) (bytes : option (list byte)) : option (list byte) :=
  match bytes with Some b => if max <? vlen b then None else Some b | None => None end.
Definition has_extension (e name : string) : bool := bool_decide (extension name = Some e).

(** [catalog_record_sequence]. *)
Definition catalog_record_sequence (name : string) : option N :=
  match split_once "-" name with
  | Some (sequence, suffix) =>
      if negb (str_len sequence =? 20) || negb (ends_with ".record" suffix) then None else parse_u64 sequence
  | None => None
  end.

(** [lookup::obsolete]. *)
Definition lookup_obsolete (name current_snapshot : string) : bool :=
  existsb (fun suffix =>
    match strip_suffix suffix name with
    | Some component =>
        (str_len component =? 64) && str_all lower_hex_byte component && str_neqb (component +:+ ".snapshot") current_snapshot
    | None => false
    end) LOOKUP_SUFFIXES.

Definition set_deferral (st : CatalogState) (since : option N) (bytes : N) : CatalogState :=
  {| initialized := initialized st; sequence := sequence st; snapshot_sequence := snapshot_sequence st;
     last_record_digest := last_record_digest st; snapshot_digest := snapshot_digest st; tail_bytes := tail_bytes st;
     deferred_since_sequence := since; deferred_snapshot_bytes := bytes; packs := packs st; locations := locations st |}.
Definition update_catalog (s : CasStore) (f : CatalogState -> CatalogState) : CasStore := set_catalog s (f (pack_catalog s)).

Section CatalogStore.
Context {P : Primitives} {R : JsonReader}.
Context (receipt_matches : CasStore -> string -> PackManifest -> bool).
Context (receipt_bytes : CasStore -> string -> PackManifest -> list byte).
Context (lookup_open : CasStore -> CatalogHead -> Res (option Lookup)).
Context (lookup_publish : BTreeMap string (list byte) -> CatalogSnapshot -> string -> BTreeMap string (list byte)).

(* --------------------------------------------------------------------- *)
(** ** Pack files *)

Definition verify_pack_data (s : CasStore) (data_name component : string) (manifest : PackManifest) : CasStore * Res unit :=
  match bmap_get data_name (pack_files s) with
  | None => (s, corrupt "CAS pack data is missing or unsafe")
  | Some data =>
      if negb (vlen data =? pm_data_size manifest) then (s, corrupt "CAS pack data size differs from its manifest")
      else if receipt_matches s component manifest then (s, Ok tt)
      else if str_neqb (hash_bytes data) (pm_data_sha256 manifest)
      then (s, corrupt "CAS pack data digest differs from its manifest")
      else (set_metadata s (bmap_insert (component +:+ ".verified") (receipt_bytes s component manifest) (pack_metadata s)), Ok tt)
  end.

Definition verify_pack_pair (s : CasStore) (data_name index_name : string) (expected : option PackManifest)
  : CasStore * Res PackManifest :=
  do! s, bytes := pure_on s (ok_or (bounded MAX_PACK_INDEX_BYTES (bmap_get index_name (pack_metadata s)))
                               (ClewError_new StateCorrupt "CAS pack index is missing or unsafe")) in
  do! s, manifest := pure_on s (ok_or (from_slice decode_pack_manifest bytes)
                                  (ClewError_new StateCorrupt "CAS pack index is invalid")) in
  if negb (bool_decide (catalog_bytes (pack_manifest_value manifest) = bytes))
     || (match expected with Some e => negb (bool_decide (e = manifest)) | None => false end)
  then (s, corrupt "CAS pack authority mismatch")
  else
  do! s, component := pure_on s (digest_component (hash_bytes bytes)) in
  do! s, valid := pure_on s (validate_pack_manifest data_name manifest) in
  do! s, verified := verify_pack_data s data_name component manifest in
  (s, Ok manifest).

(** The two metadata files of a pack, by the stem of its data name. *)
Definition prune_pack_metadata (s : CasStore) (data_name : string) : CasStore :=
  let component := file_stem data_name in
  set_metadata s (bmap_remove (component +:+ ".verified") (bmap_remove (component +:+ ".json") (pack_metadata s))).
Definition prune_redundant_pack_metadata_locked (s : CasStore) : CasStore :=
  foldl prune_pack_metadata s (bmap_keys (packs (pack_catalog s))).

(* --------------------------------------------------------------------- *)
(** ** Snapshots *)

Definition prunes_snapshot (current_snapshot name : string) : bool :=
  starts_with ".tmp-" name || (has_extension "snapshot" name && str_neqb name current_snapshot)
  || lookup_obsolete name current_snapshot.

(** The loop over the record directory: files removed so far, then the rest. *)
Fixpoint prune_records (covered_sequence : N) (entries : BTreeMap string (list byte))
  : BTreeMap string (list byte) * Res unit :=
  match entries with
  | [] => ([], Ok tt)
  | e :: rest =>
      let keep := let '(rest', r) := prune_records covered_sequence rest in (e :: rest', r) in
      if starts_with ".tmp-" e.1 then prune_records covered_sequence rest
      else if negb (has_extension "record" e.1) then keep
      else match catalog_record_sequence e.1 with
           | None => (entries, corrupt "CAS catalog record name is invalid")
           | Some sequence => if sequence <=? covered_sequence then prune_records covered_sequence rest else keep
           end
  end.

Definition prune_catalog_metadata_locked (s : CasStore) (current_snapshot : string) (covered_sequence : N) : CasStore * Res unit :=
  let s := set_snapshots s (List.filter (fun e => negb (prunes_snapshot current_snapshot e.1)) (catalog_snapshots s)) in
  let '(records, r) := prune_records covered_sequence (catalog_records s) in
  (set_records s records, r).

Definition publish_catalog_snapshot_locked (s : CasStore) (snapshot : CatalogSnapshot) : CasStore * Res unit :=
  let bytes := catalog_bytes (catalog_snapshot_value snapshot) in
  if MAX_CATALOG_SNAPSHOT_BYTES <? vlen bytes
  then (s, resource_limit "CAS catalog snapshot exceeds its bounded size")
  else
  let digest := hash_bytes bytes in
  do! s, component := pure_on s (digest_component digest) in
  let snapshot_name := component +:+ ".snapshot" in
  do! s, created :=
    (match bmap_get snapshot_name (catalog_snapshots s) with
     | None => (set_snapshots s (bmap_insert snapshot_name bytes (catalog_snapshots s)), Ok tt)
     | Some existing =>
         if negb (bool_decide (existing = bytes)) then (s, corrupt "CAS catalog snapshot has another authority") else (s, Ok tt)
     end) in
  let head := {| ch_schema := CATALOG_HEAD_SCHEMA; ch_snapshot_name := snapshot_name; ch_snapshot_digest := digest;
                 ch_snapshot_sequence := cs_sequence snapshot; ch_last_record_digest := cs_last_record_digest snapshot |} in
  let s := set_head s (Some (value_bytes (catalog_head_value head))) in
  do! s, adopted :=
    (if negb (initialized (pack_catalog s)) || (sequence (pack_catalog s) <=? cs_sequence snapshot)
     then match catalog_state_from_snapshot snapshot digest with
          | Ok c => (set_lookup (set_catalog s c) None, Ok tt)
          | Err e => (s, Err e)
          end
     else (s, Ok tt)) in
  let s := set_snapshots s (lookup_publish (catalog_snapshots s) snapshot digest) in
  do! s, pruned := prune_catalog_metadata_locked s snapshot_name (cs_sequence snapshot) in
  (set_deferred_file (prune_redundant_pack_metadata_locked s) None, Ok tt).

Definition defer_catalog_snapshot_locked (s : CasStore) (snapshot : CatalogSnapshot) (snapshot_bytes : N) : CasStore * Res unit :=
  do! s, base := pure_on s (ok_or (snapshot_digest (pack_catalog s))
                              (ClewError_new StateCorrupt "CAS catalog snapshot authority is missing")) in
  let marker := {| cd_schema := CATALOG_DEFERRED_SCHEMA; cd_base_snapshot_digest := base;
                   cd_base_snapshot_sequence := snapshot_sequence (pack_catalog s);
                   cd_deferred_sequence := cs_sequence snapshot; cd_snapshot_bytes := snapshot_bytes |} in
  let s := set_deferred_file s (Some (value_bytes (catalog_deferred_value marker))) in
  (update_catalog s (fun c => set_deferral c (Some (cs_sequence snapshot)) snapshot_bytes), Ok tt).

Definition maybe_snapshot_catalog_locked (s : CasStore) (force : bool) : CasStore * Res unit :=
  if is_some (deferred_since_sequence (pack_catalog s)) && negb force then (s, Ok tt)
  else if negb force && negb (catalog_snapshot_due (pack_catalog s)) then (s, Ok tt)
  else
  let snapshot := snapshot_from_catalog_state (pack_catalog s) in
  let snapshot_bytes := catalog_bytes (catalog_snapshot_value snapshot) in
  if MAX_CATALOG_SNAPSHOT_BYTES <? vlen snapshot_bytes
  then defer_catalog_snapshot_locked s snapshot (vlen snapshot_bytes)
  else publish_catalog_snapshot_locked s snapshot.

(** Every pack with an index, verified, in name order. *)
Definition bootstrap_catalog_snapshot (s : CasStore) : CasStore * Res CatalogSnapshot :=
  let indexes := List.filter (has_extension "json") (bmap_keys (pack_metadata s)) in
  do! s, verified := store_fold (fun s verified index_name =>
      let data_name := file_stem index_name +:+ ".pack" in
      do! s, manifest := verify_pack_pair s data_name index_name None in
      (s, Ok (verified ++ [{| cp_data_name := data_name; cp_manifest := manifest |}]))) s [] indexes in
  (s, Ok {| cs_schema := CATALOG_SNAPSHOT_SCHEMA; cs_sequence := 0; cs_last_record_digest := None;
            cs_packs := sort_by (cmp_on cp_data_name) verified |}).

(* --------------------------------------------------------------------- *)
(** ** The journal *)

Definition next_record (s : CasStore) (operation : CatalogOperation) (data_name : string) (manifest : PackManifest) : Res CatalogRecord :=
  let? n := ok_or (u64_checked_add (sequence (pack_catalog s)) 1) (ClewError_new StateCorrupt "CAS catalog sequence overflow") in
  Ok {| cr_operation := operation; cr_pack := {| cp_data_name := data_name; cp_manifest := manifest |};
        cr_previous_record_digest := last_record_digest (pack_catalog s); cr_schema := CATALOG_RECORD_SCHEMA; cr_sequence := n |}.

Definition tail_fits (s : CasStore) (record_bytes : N) : bool :=
  N.min u64_max (tail_bytes (pack_catalog s) + record_bytes) <=? MAX_CATALOG_RECOVERY_TAIL_BYTES.

Definition ensure_catalog_add_capacity_locked (s : CasStore) (data_name : string) (manifest : PackManifest) : CasStore * Res unit :=
  match next_record s Add data_name manifest with
  | Err e => (s, Err e)
  | Ok record =>
      let record_bytes := vlen (catalog_bytes (catalog_record_value record)) in
      if tail_fits s record_bytes then (s, Ok tt)
      else
        do! s, maintained := maybe_snapshot_catalog_locked s false in
        if tail_fits s record_bytes then (s, Ok tt)
        else (s, resource_limit
          "CAS catalog recovery journal is full; run storage gc after releasing terminal session evidence")
  end.

Definition append_catalog_record_locked (s : CasStore) (operation : CatalogOperation) (data_name : string) (manifest : PackManifest)
    (snapshot_after : bool) : CasStore * Res unit :=
  do! s, record := pure_on s (next_record s operation data_name manifest) in
  let bytes := catalog_bytes (catalog_record_value record) in
  if MAX_CATALOG_RECORD_BYTES <? vlen bytes
  then (s, resource_limit "CAS catalog record exceeds its bounded size")
  else
  let digest := hash_bytes bytes in
  do! s, name := pure_on s (catalog_record_name (cr_sequence record) digest) in
  do! s, created :=
    (match bmap_get name (catalog_records s) with
     | None => (set_records s (bmap_insert name bytes (catalog_records s)), Ok tt)
     | Some existing =>
         if negb (bool_decide (existing = bytes)) then (s, corrupt "CAS catalog sequence has another authority") else (s, Ok tt)
     end) in
  let '(c, applied) := apply_catalog_record (pack_catalog s) record in
  match applied with
  | Err e => (set_catalog s c, Err e)
  | Ok _ =>
      let s := set_catalog s (set_tail c (cr_sequence record) digest (vlen bytes)) in
      if snapshot_after then maybe_snapshot_catalog_locked s false else (s, Ok tt)
  end.

(* --------------------------------------------------------------------- *)
(** ** Synchronization *)

Definition read_catalog_head (s : CasStore) : Res CatalogHead :=
  let? head_bytes := ok_or (bounded MAX_CATALOG_HEAD_BYTES (catalog_head s))
                       (ClewError_new StateCorrupt "CAS catalog head is missing or unsafe") in
  let? head := ok_or (from_slice decode_catalog_head head_bytes) (ClewError_new StateCorrupt "CAS catalog head is invalid") in
  if str_neqb (ch_schema head) CATALOG_HEAD_SCHEMA
     || negb (bool_decide (value_bytes (catalog_head_value head) = head_bytes))
     || is_err (digest_component (ch_snapshot_digest head))
     || negb (has_extension "snapshot" (ch_snapshot_name head))
  then corrupt "CAS catalog head authority mismatch"
  else
  let? component := digest_component (ch_snapshot_digest head) in
  if str_neqb (ch_snapshot_name head) (component +:+ ".snapshot") then corrupt "CAS catalog head authority mismatch"
  else Ok head.

(** What deferred.json means for a catalog at position [current]. *)
Definition read_deferral (file : option (list byte)) (head : CatalogHead) (current : N) : Res (option N * N) :=
  match file with
  | None => Ok (None, 0)
  | Some _ =>
      let? bytes := ok_or (bounded MAX_CATALOG_DEFERRED_BYTES file) (ClewError_new StateCorrupt "CAS deferred catalog marker is unsafe") in
      let? marker := ok_or (from_slice decode_catalog_deferred bytes)
                       (ClewError_new StateCorrupt "CAS deferred catalog marker is invalid") in
      if str_neqb (cd_schema marker) CATALOG_DEFERRED_SCHEMA
         || negb (bool_decide (value_bytes (catalog_deferred_value marker) = bytes))
         || is_err (digest_component (cd_base_snapshot_digest marker))
         || (cd_snapshot_bytes marker =? 0)
      then corrupt "CAS deferred catalog marker authority mismatch"
      else if cd_deferred_sequence marker <=? ch_snapshot_sequence head then Ok (None, 0)
      else if str_neqb (cd_base_snapshot_digest marker) (ch_snapshot_digest head)
              || negb (cd_base_snapshot_sequence marker =? ch_snapshot_sequence head)
              || (current <? cd_deferred_sequence marker)
      then corrupt "CAS deferred catalog marker differs from its journal"
      else Ok (Some (cd_deferred_sequence marker), cd_snapshot_bytes marker)
  end.
Definition load_catalog_deferred_locked (s : CasStore) (head : CatalogHead) : CasStore * Res unit :=
  match read_deferral (catalog_deferred s) head (sequence (pack_catalog s)) with
  | Ok (since, bytes) => (update_catalog s (fun c => set_deferral c since bytes), Ok tt)
  | Err e => (s, Err e)
  end.

(** The branch that materializes the snapshot of the head. *)
Definition read_snapshot (s : CasStore) (head : CatalogHead) : Res CatalogSnapshot :=
  let? bytes := ok_or (bounded MAX_CATALOG_SNAPSHOT_BYTES (bmap_get (ch_snapshot_name head) (catalog_snapshots s)))
                  (ClewError_new StateCorrupt "CAS catalog snapshot is missing or unsafe") in
  if str_neqb (hash_bytes bytes) (ch_snapshot_digest head) then corrupt "CAS catalog snapshot digest mismatch"
  else
  let? snapshot := ok_or (from_slice decode_catalog_snapshot bytes) (ClewError_new StateCorrupt "CAS catalog snapshot is invalid") in
  if str_neqb (cs_schema snapshot) CATALOG_SNAPSHOT_SCHEMA
     || negb (bool_decide (catalog_bytes (catalog_snapshot_value snapshot) = bytes))
     || negb (cs_sequence snapshot =? ch_snapshot_sequence head)
     || negb (bool_decide (cs_last_record_digest snapshot = ch_last_record_digest head))
  then corrupt "CAS catalog snapshot authority mismatch"
  else Ok snapshot.
Definition load_snapshot (s : CasStore) (head : CatalogHead) : CasStore * Res unit :=
  do! s, snapshot := pure_on s (read_snapshot s head) in
  do! s, rebuilt := pure_on s (catalog_state_from_snapshot snapshot (ch_snapshot_digest head)) in
  let s := set_lookup (set_catalog s rebuilt) None in
  (set_snapshots s (lookup_publish (catalog_snapshots s) snapshot (ch_snapshot_digest head)), Ok tt).

Definition record_names (s : CasStore) : list string :=
  List.filter (has_extension "record") (bmap_keys (catalog_records s)).
Definition record_directory (s : CasStore) : gmap string (list byte) := list_to_map (catalog_records s).

Definition replay_records (s : CasStore) : CasStore * Res unit :=
  let '(c, r) := replay_catalog_records_locked (from_slice decode_catalog_record) (record_directory s)
                   (Some <$> record_names s) (pack_catalog s) in
  (set_catalog s c, r).

(** A store without a head is bootstrapped from its verified packs. *)
Definition ensure_head (s : CasStore) : CasStore * Res unit :=
  match catalog_head s with
  | Some _ => (s, Ok tt)
  | None =>
      if existsb (has_extension "snapshot") (bmap_keys (catalog_snapshots s))
         || existsb (has_extension "record") (bmap_keys (catalog_records s))
      then (s, corrupt "CAS catalog head is missing from non-empty metadata")
      else
        do! s, snapshot := bootstrap_catalog_snapshot s in
        publish_catalog_snapshot_locked s snapshot
  end.

Definition needs_snapshot (s : CasStore) (head : CatalogHead) : bool :=
  negb (initialized (pack_catalog s)) || is_some (lookup s) || (sequence (pack_catalog s) <? ch_snapshot_sequence head).

Definition sync_catalog_locked (s : CasStore) : CasStore * Res unit :=
  do! s, ensured := ensure_head s in
  do! s, head := pure_on s (read_catalog_head s) in
  if initialized (pack_catalog s) && (ch_snapshot_sequence head =? snapshot_sequence (pack_catalog s))
     && negb (bool_decide (snapshot_digest (pack_catalog s) = Some (ch_snapshot_digest head)))
  then (s, corrupt "CAS catalog head changed snapshot authority")
  else
  do! s, loaded := (if needs_snapshot s head then load_snapshot s head else (s, Ok tt)) in
  do! s, replayed := replay_records s in
  do! s, deferred := load_catalog_deferred_locked s head in
  do! s, pruned := prune_catalog_metadata_locked s (ch_snapshot_name head) (ch_snapshot_sequence head) in
  (prune_redundant_pack_metadata_locked s, Ok tt).

(* --------------------------------------------------------------------- *)
(** ** Opening a store *)

(** One record over an opened lookup; [None] when a removal asks for the whole map. *)
Fixpoint overlay_records (dir : gmap string (list byte)) (accelerator : Lookup) (names : list string) (st : CatalogState)
  : Res (option CatalogState) :=
  match names with
  | [] => Ok (Some st)
  | name :: names =>
      let? '(record, digest, len) := read_record (from_slice decode_catalog_record) dir (Some name) in
      if cr_sequence record <=? sequence st then overlay_records dir accelerator names st
      else if negb (cr_sequence record =? sequence st + 1)
              || negb (bool_decide (cr_previous_record_digest record = last_record_digest st))
      then corrupt "CAS catalog record chain is discontinuous"
      else match cr_operation record with
           | Remove => Ok None
           | Add =>
               if lookup_contains_pack accelerator (cp_data_name (cr_pack record))
               then corrupt "CAS catalog adds an existing pack"
               else
                 let '(st1, r) := apply_catalog_record st record in
                 r ;;? overlay_records dir accelerator names (set_tail st1 (cr_sequence record) digest len)
           end
  end.

Definition check_overlay (accelerator : Lookup) (locations : gmap string PackLocation) : Res unit :=
  try_for_each (fun digest =>
    let? base := lookup_find accelerator digest in
    match base, locations !! digest with
    | Some base, Some added =>
        if negb (bool_decide (pe_object (pl_entry base) = pe_object (pl_entry added)))
        then corrupt "CAS pack catalog has a digest collision" else Ok tt
    | _, _ => Ok tt
    end) (sort (map_to_list locations).*1).

Definition try_lookup_catalog_locked (s : CasStore) : CasStore * Res bool :=
  match catalog_head s with
  | None => (s, Ok false)
  | Some _ =>
      do! s, head := pure_on s (read_catalog_head s) in
      do! s, opened := pure_on s (lookup_open s head) in
      match opened with
      | None => (s, Ok false)
      | Some accelerator =>
          let st := {| initialized := true; sequence := ch_snapshot_sequence head; snapshot_sequence := ch_snapshot_sequence head;
                       last_record_digest := ch_last_record_digest head; snapshot_digest := Some (ch_snapshot_digest head);
                       tail_bytes := 0; deferred_since_sequence := None; deferred_snapshot_bytes := 0;
                       packs := []; locations := ∅ |} in
          do! s, overlay := pure_on s (overlay_records (record_directory s) accelerator (record_names s) st) in
          match overlay with
          | None => (s, Ok false)
          | Some st =>
              do! s, checked := pure_on s (check_overlay accelerator (locations st)) in
              do! s, deferred := load_catalog_deferred_locked (set_lookup (set_catalog s st) (Some accelerator)) head in
              (s, Ok true)
          end
      end
  end.

Definition ensure_catalog_initialized (s : CasStore) : CasStore * Res unit :=
  if initialized (pack_catalog s) then (s, Ok tt)
  else
    do! s, selective := try_lookup_catalog_locked s in
    if selective then (s, Ok tt) else sync_catalog_locked s.

(** The catalog of a new process: nothing in memory. *)
Definition forget (s : CasStore) : CasStore := set_lookup (set_catalog s default_state) None.
(** [CasStore::open] in a process that shares no catalog. *)
Definition open (s : CasStore) : CasStore * Res unit := ensure_catalog_initialized (forget s).
End CatalogStore.
