(* ===== verification/CatalogAuthority.v ===== *)
(** * What the catalog on disk says

    The authority of the store is on disk: the snapshot that the head names,
    advanced by the records of the journal.  [authority] states it as the result of
    a replay; the lemmas show that pruning, appending a record and publishing a
    snapshot keep it, so that a new process recovers the catalog of the old one. *)

From stdpp Require Import gmap.
From S2P Require Import Prelude Order Collections Text Json Canonical Instances JsonFormat JsonRead Paths Errors CasObject CasInterface.
From S2P Require Import Catalog CatalogTypes CatalogCodec CasStore CasCatalog.
Open Scope N_scope.

(* --------------------------------------------------------------------- *)
(** ** Record names *)

Lemma zeros_length n : String.length (zeros n) = n.
Proof. induction n; cbn; congruence. Qed.
Lemma zeros_value n : digits_value (zeros n) 0 = Some 0.
Proof. induction n as [|n IH]; [done|]. cbn [zeros digits_value]. done. Qed.

Lemma pad20_length n : str_len (pad20 n) = 20.
Proof. unfold pad20, str_len. rewrite str_length_app, zeros_length. pose proof (decimal_length n). lia. Qed.
Lemma pad20_value n : n <= u64_max -> digits_value (pad20 n) 0 = Some n.
Proof. intros Hn. unfold pad20. rewrite (digits_value_app _ _ _ 0) by apply zeros_value. by apply decimal_digits. Qed.

Lemma digits_no_char c s acc n : is_ascii_digit c = false -> digits_value s acc = Some n -> contains_char c s = false.
Proof.
  intros Hc. revert acc. unfold contains_char, str_any. induction s as [|a s IH]; intros acc; [done|]. cbn [digits_value str_all].
  destruct (is_ascii_digit a) eqn:Ea; [|done]. intros H. rewrite negb_andb, (IH _ H), orb_false_r, negb_involutive.
  destruct (Ascii.eqb_spec c a) as [->|]; [congruence|done].
Qed.

(** The names of records: ordered by sequence, parsed back to it. *)
Definition record_name (sequence : N) (component : string) : string := pad20 sequence +:+ "-" +:+ component +:+ ".record".

Lemma record_name_order n m c d : n < m -> m <= u64_max -> lt_ord (record_name n c) (record_name m d).
Proof.
  intros Hn Hm. unfold record_name. apply (digits_order _ _ _ _ 0 n m); [by rewrite !pad20_length|apply pad20_value; lia|by apply pad20_value|done].
Qed.

Lemma parse_padded n : n <= u64_max -> parse_u64 (pad20 n) = Some n.
Proof.
  intros Hn. unfold parse_u64. pose proof (pad20_value n Hn) as Hv. pose proof (pad20_length n) as Hl.
  destruct (pad20 n) as [|a s] eqn:E; [done|].
  assert (match String a s with String "+" s' => s' | _ => String a s end = String a s) as ->.
  { cbn [digits_value] in Hv. destruct (is_ascii_digit a) eqn:Ea; [|done].
    destruct a as [[] [] [] [] [] [] [] []]; try done. }
  cbn [str_is_empty]. by rewrite Hv, (proj2 (N.leb_le _ _) Hn).
Qed.

Lemma record_name_sequence n c : n <= u64_max -> catalog_record_sequence (record_name n c) = Some n.
Proof.
  intros Hn. unfold catalog_record_sequence, record_name.
  change ("-" +:+ c +:+ ".record") with (String "-" (c +:+ ".record")).
  rewrite split_once_first by (by eapply digits_no_char, pad20_value).
  rewrite pad20_length. unfold ends_with. rewrite strip_suffix_app. cbn [negb orb N.eqb Pos.eqb]. by apply parse_padded.
Qed.

Lemma record_name_extension n c : n <= u64_max -> has_extension "record" (record_name n c) = true.
Proof.
  intros Hn. unfold has_extension, record_name. apply bool_decide_eq_true.
  replace (pad20 n +:+ "-" +:+ c +:+ ".record") with ((pad20 n +:+ "-" +:+ c) +:+ "." +:+ "record").
  - apply dotted_name; [|done|].
    + intros E. apply (f_equal String.length) in E. rewrite str_length_app in E. pose proof (pad20_length n). unfold str_len in *. cbn in E. lia.
    + intros E. apply (f_equal String.length) in E. rewrite !str_length_app in E. cbn in E. lia.
  - by rewrite !str_app_assoc.
Qed.

Lemma record_name_kept n c : n <= u64_max -> starts_with ".tmp-" (record_name n c) = false.
Proof.
  intros Hn. unfold record_name. pose proof (pad20_value n Hn) as Hv. pose proof (pad20_length n) as Hl.
  destruct (pad20 n) as [|a s] eqn:E; [done|]. cbn [digits_value] in Hv. destruct (is_ascii_digit a) eqn:Ea; [|done].
  rewrite str_cons_app. unfold starts_with. cbn [strip_prefix]. destruct (Ascii.eqb_spec "." a) as [<-|]; [done|done].
Qed.

(* --------------------------------------------------------------------- *)
(** ** Directories *)

Lemma bmap_get_filter {V} (p : string -> bool) (m : BTreeMap string V) k : p k = true ->
  bmap_get k (List.filter (fun e => p e.1) m) = bmap_get k m.
Proof.
  intros Hp. induction m as [|[k' v] m IH]; [done|]. cbn [List.filter fst]. destruct (p k') eqn:E; cbn [bmap_get].
  - destruct (cmp k k'); congruence.
  - destruct (cmp k k') eqn:C; try done. apply cmp_eq_iff in C. congruence.
Qed.

Lemma filter_keys {V} (p : string -> bool) (m : BTreeMap string V) :
  (List.filter (fun e => p e.1) m).*1 = List.filter p m.*1.
Proof. induction m as [|[k v] m IH]; [done|]. cbn. destruct (p k); cbn; by rewrite IH. Qed.

Lemma sorted_filter {A} (R : A -> A -> Prop) (p : A -> bool) l : StronglySorted R l -> StronglySorted R (List.filter p l).
Proof.
  induction 1 as [|a l Hl IH Ha]; [constructor|]. cbn. destruct (p a); [|done]. constructor; [done|].
  rewrite list.Forall_forall in *. intros x Hx. apply Ha. apply list_elem_of_In in Hx. apply List.filter_In in Hx as [Hx _]. by apply list_elem_of_In.
Qed.

Lemma filter_wf {V} (p : string -> bool) (m : BTreeMap string V) : bmap_wf m -> bmap_wf (List.filter (fun e => p e.1) m).
Proof. unfold bmap_wf. rewrite filter_keys. apply sorted_filter. Qed.

Lemma directory_get {V} (m : BTreeMap string V) k : bmap_wf m -> (list_to_map m : gmap string V) !! k = bmap_get k m.
Proof.
  intros Hw. destruct (bmap_get k m) as [v|] eqn:E.
  - apply elem_of_list_to_map; [|by apply bmap_get_elem]. by apply bset_wf_NoDup.
  - apply not_elem_of_list_to_map. by apply bmap_get_none_key.
Qed.

(* --------------------------------------------------------------------- *)
(** ** Replays of the journal *)

Lemma decode_record_sequence v r : decode_catalog_record v = Some r -> cr_sequence r <= u64_max.
Proof.
  unfold decode_catalog_record. destruct (decode_record _ v) as [[|o [|p [|d [|s [|n [|]]]]]]|]; try done.
  repeat case_match; try done.
  intros [= <-]. cbn. match goal with H : decode_required decode_u64 ?o = Some _ |- _ => destruct o; [by eapply decode_u64_bound|done] end.
Qed.
Lemma decode_snapshot_sequence v r : decode_catalog_snapshot v = Some r -> cs_sequence r <= u64_max.
Proof.
  unfold decode_catalog_snapshot. destruct (decode_record _ v) as [[|l [|p [|s [|n [|]]]]]|]; try done.
  repeat case_match; try done.
  intros [= <-]. cbn. match goal with H : decode_required decode_u64 ?o = Some _ |- _ => destruct o; [by eapply decode_u64_bound|done] end.
Qed.

Section Journal.
Context {P : Primitives} {R : JsonReader}.
Notation parse := (from_slice decode_catalog_record).

(** What a readable record file is called. *)
Lemma read_record_named dir name r d len : read_record parse dir (Some name) = Ok (r, d, len) ->
  cr_sequence r <= u64_max /\ exists c, name = record_name (cr_sequence r) c.
Proof.
  unfold read_record. cbn [ok_or result_bind]. rewrite result_bind_ok. intros (bytes & _ & H). rewrite result_bind_ok in H.
  destruct H as (r' & Hr & H). destruct (parse bytes) as [r0|] eqn:Hp; [|done]. injection Hr as ->.
  unfold corrupt in H. rewrite guard_ok, result_bind_ok in H. destruct H as (_ & expected & He & H).
  rewrite guard_ok, str_neqb_false in H. destruct H as (<- & [= -> _ _]). split.
  - unfold from_slice in Hp. destruct (read_document bytes) as [v|]; [|done]. by eapply decode_record_sequence.
  - unfold catalog_record_name in He. rewrite result_bind_ok in He. destruct He as (c & _ & [= <-]). by exists c.
Qed.

Lemma apply_all_app dir l k : forall st, apply_all parse dir (l ++ k) st =
  (let '(st1, r) := apply_all parse dir l st in match r with Err e => (st1, Err e) | Ok _ => apply_all parse dir k st1 end).
Proof.
  induction l as [|n l IH]; intros st; [done|]. cbn [app apply_all]. destruct (apply_step parse dir n st) as [st1 [[]|]]; [apply IH|done].
Qed.

Lemma apply_all_dir dir dir' names : (forall n, Some n ∈ names -> dir' !! n = dir !! n) -> forall st,
  apply_all parse dir' names st = apply_all parse dir names st.
Proof.
  induction names as [|n names IH]; intros Hd st; [done|]. cbn [apply_all].
  assert (apply_step parse dir' n st = apply_step parse dir n st) as ->.
  { unfold apply_step, read_record. destruct n as [n|]; [|done]. cbn [ok_or result_bind]. by rewrite Hd by set_solver. }
  destruct (apply_step parse dir n st) as [st1 [[]|]]; [|done]. apply IH. intros m Hm. apply Hd. set_solver.
Qed.

(** One successful step, on a record that is ahead or behind. *)
Lemma apply_step_cases dir name st st' : apply_step parse dir (Some name) st = (st', Ok tt) ->
  exists r c, name = record_name (cr_sequence r) c /\ cr_sequence r <= u64_max /\ cr_sequence r <= sequence st' /\
    ((st' = st /\ cr_sequence r <= sequence st) \/ (sequence st' = sequence st + 1 /\ sequence st' = cr_sequence r)).
Proof.
  unfold apply_step. destruct (read_record parse dir (Some name)) as [[[r d] len]|] eqn:Hr; [|done].
  apply read_record_named in Hr as [Hu [c ->]]. destruct (N.leb_spec (cr_sequence r) (sequence st)) as [Hle|Hgt].
  { intros [= <-]. exists r, c. split_and!; auto. }
  unfold corrupt. rewrite store_guard_ok, orb_false_iff, !negb_false_iff, N.eqb_eq. intros [[Hs _] H].
  destruct (apply_catalog_record st r) as [st1 [[]|]]; [|done]. injection H as <-. exists r, c. cbn [set_tail sequence]. split_and!; auto; lia.
Qed.

Definition behind (bound : N) (name : option string) : Prop :=
  exists n c, name = Some (record_name n c) /\ n <= u64_max /\ n <= bound.

Lemma apply_all_behind dir names : forall st st', Forall (fun n => n <> None) names ->
  apply_all parse dir names st = (st', Ok tt) -> sequence st <= sequence st' /\ Forall (behind (sequence st')) names.
Proof.
  induction names as [|n names IH]; intros st st' Hn; cbn [apply_all]; [by intros [= <-]|].
  inversion_clear Hn as [|? ? Hn1 Hns]. destruct n as [n|]; [|done].
  destruct (apply_step parse dir (Some n) st) as [st1 [[]|]] eqn:E; [|done]. intros H.
  destruct (IH _ _ Hns H) as [Hle Hall]. apply apply_step_cases in E as (r & c & -> & Hu & Hb & Hc).
  split; [destruct Hc as [[-> _]|[? _]]; lia|]. constructor; [|done]. exists (cr_sequence r), c. split_and!; [done|done|lia].
Qed.

(** A replay bounded by 64 bits stays so. *)
Lemma apply_all_bound dir names : forall st st', Forall (fun n => n <> None) names -> sequence st <= u64_max ->
  apply_all parse dir names st = (st', Ok tt) -> sequence st' <= u64_max.
Proof.
  induction names as [|n names IH]; intros st st' Hn Hs; cbn [apply_all]; [by intros [= <-]|].
  inversion_clear Hn as [|? ? Hn1 Hns]. destruct n as [n|]; [|done].
  destruct (apply_step parse dir (Some n) st) as [st1 [[]|]] eqn:E; [|done]. intros H. apply (IH st1 st' Hns); [|done].
  apply apply_step_cases in E as (r & c & _ & Hu & _ & [[-> _]|[_ ->]]); done.
Qed.

Lemma apply_all_typed dir names : forall st st', catalog_typed st ->
  apply_all parse dir names st = (st', Ok tt) -> catalog_typed st'.
Proof.
  induction names as [|n names IH]; intros st st' Ht; cbn [apply_all]; [by intros [= <-]|].
  destruct (apply_step parse dir n st) as [st1 [[]|]] eqn:E; [|done]. apply IH. clear IH. revert E. unfold apply_step.
  destruct (read_record parse dir n) as [[[r d] len]|]; [|done]. destruct (_ <=? _); [by intros [= <-]|].
  unfold corrupt. rewrite store_guard_ok. intros [_ E]. destruct (apply_catalog_record st r) as [st2 [[]|]] eqn:Ea; [|done].
  injection E as <-. by apply (apply_typed st r st2 Ht) in Ea.
Qed.

(** Records that a state already covers do not matter. *)
Definition covered (bound : N) (name : string) : bool :=
  match catalog_record_sequence name with Some n => n <=? bound | None => false end.

Lemma apply_all_uncovered dir bound names : forall st st', bound <= sequence st ->
  apply_all parse dir (Some <$> names) st = (st', Ok tt) ->
  apply_all parse dir (Some <$> List.filter (fun n => negb (covered bound n)) names) st = (st', Ok tt).
Proof.
  induction names as [|n names IH]; intros st st' Hb; [done|]. rewrite fmap_cons. cbn [apply_all List.filter].
  destruct (apply_step parse dir (Some n) st) as [st1 [[]|]] eqn:E; [|done]. intros H.
  pose proof E as E'. apply apply_step_cases in E' as (r & c & -> & Hu & _ & Hc).
  unfold covered. rewrite record_name_sequence by done. destruct (N.leb_spec (cr_sequence r) bound) as [Hle|Hgt]; cbn [negb].
  - destruct Hc as [[-> _]|[? ?]]; [by apply IH|lia].
  - rewrite fmap_cons. cbn [apply_all]. rewrite E. apply IH; [|done]. destruct Hc as [[-> _]|[? _]]; lia.
Qed.
End Journal.

(* --------------------------------------------------------------------- *)
(** ** Pruning *)

Definition pruned_record (bound : N) (name : string) : bool :=
  starts_with ".tmp-" name || (has_extension "record" name && covered bound name).

(** Every record file has the name of a record. *)
Definition well_named (names : list string) : Prop :=
  Forall (fun name => exists n c, name = record_name n c /\ n <= u64_max) (List.filter (has_extension "record") names).

Lemma prune_records_ok bound entries : well_named entries.*1 ->
  prune_records bound entries = (List.filter (fun e => negb (pruned_record bound e.1)) entries, Ok tt).
Proof.
  unfold well_named. induction entries as [|[k b] entries IH]; [done|]. rewrite fmap_cons. cbn [prune_records List.filter fst].
  unfold pruned_record at 1. cbn [fst]. destruct (has_extension "record" k) eqn:He; cbn [negb andb].
  - intros Hall. apply list.Forall_cons in Hall as [(n & c & -> & Hn) Hrest]. rewrite IH by done.
    rewrite record_name_kept, record_name_sequence by done. unfold covered. rewrite record_name_sequence by done. cbn [orb].
    by destruct (n <=? bound).
  - intros Hall. rewrite IH by done. rewrite orb_false_r. by destruct (starts_with ".tmp-" k).
Qed.

Lemma pruned_names bound entries : well_named entries.*1 ->
  List.filter (has_extension "record") (List.filter (fun e : string * list byte => negb (pruned_record bound e.1)) entries).*1 =
  List.filter (fun n => negb (covered bound n)) (List.filter (has_extension "record") entries.*1).
Proof.
  rewrite (filter_keys (fun k => negb (pruned_record bound k))). generalize entries.*1. clear entries. unfold well_named.
  induction l as [|k l IH]; [done|]. cbn [List.filter]. unfold pruned_record at 1.
  destruct (has_extension "record" k) eqn:He; cbn [negb andb].
  - intros Hall. apply list.Forall_cons in Hall as [(n & c & -> & Hn) Hrest]. rewrite record_name_kept by done. cbn [orb List.filter].
    destruct (covered bound (record_name n c)); cbn [negb List.filter]; [by apply IH|]. rewrite ?He. f_equal. by apply IH.
  - intros Hall. rewrite orb_false_r. destruct (starts_with ".tmp-" k); cbn [negb List.filter]; rewrite ?He; by apply IH.
Qed.

(* --------------------------------------------------------------------- *)
(** ** The authority on disk *)

(** Object files are not touched. *)
Definition same_files (s s' : CasStore) : Prop :=
  objects s' = objects s /\ quarantine s' = quarantine s /\ pack_files s' = pack_files s.

Lemma same_files_refl s : same_files s s.
Proof. done. Qed.
Lemma same_files_trans s1 s2 s3 : same_files s1 s2 -> same_files s2 s3 -> same_files s1 s3.
Proof. unfold same_files. intros (-> & -> & ->) (-> & -> & ->). done. Qed.

Lemma prune_metadata_frame names : forall s, let s' := foldl prune_pack_metadata s names in
  s' = set_metadata s (pack_metadata s').
Proof. induction names as [|n names IH]; intros s; cbn [foldl]; [by destruct s|]. rewrite IH. by destruct s. Qed.

Section Authority.
Context {P : Primitives} {R : JsonReader}.

Definition base_of (s : CasStore) (head : CatalogHead) : Res CatalogState :=
  let? snapshot := read_snapshot s head in catalog_state_from_snapshot snapshot (ch_snapshot_digest head).
Definition journal (s : CasStore) (base : CatalogState) : CatalogState * Res unit :=
  apply_all (from_slice decode_catalog_record) (record_directory s) (Some <$> record_names s) base.

(** The disk of [s] spells the catalog [final]. *)
Record authority (s : CasStore) (head : CatalogHead) (base final : CatalogState) : Prop := mkAuthority {
  au_head : read_catalog_head s = Ok head;
  au_base : base_of s head = Ok base;
  au_final : journal s base = (final, Ok tt);
  au_records : bmap_wf (catalog_records s)
}.

Lemma names_present (s : CasStore) : Forall (fun n : option string => n <> None) (Some <$> record_names s).
Proof. apply list.Forall_fmap, list.Forall_true. done. Qed.

Lemma base_position s head base : base_of s head = Ok base ->
  sequence base = ch_snapshot_sequence head /\ snapshot_sequence base = ch_snapshot_sequence head /\
  snapshot_digest base = Some (ch_snapshot_digest head) /\ initialized base = true /\ sequence base <= u64_max /\ catalog_typed base.
Proof.
  unfold base_of. rewrite result_bind_ok. intros (snapshot & Hs & Hb). pose proof (CatalogTypes.snapshot_typed _ _ _ Hb) as Ht.
  unfold read_snapshot in Hs. rewrite result_bind_ok in Hs. destruct Hs as (bytes & _ & Hs). unfold corrupt in Hs.
  rewrite guard_ok, result_bind_ok in Hs. destruct Hs as (_ & snapshot' & Hd & Hs).
  destruct (from_slice decode_catalog_snapshot bytes) as [sn|] eqn:Hf; [|done]. injection Hd as ->.
  rewrite guard_ok, !orb_false_iff, !negb_false_iff, N.eqb_eq in Hs. destruct Hs as ((((_ & _) & Hseq) & _) & [= ->]).
  assert (cs_sequence snapshot <= u64_max) as Hu.
  { unfold from_slice in Hf. destruct (read_document bytes); [|done]. by eapply decode_snapshot_sequence. }
  unfold catalog_state_from_snapshot in Hb. rewrite result_bind_ok in Hb. destruct Hb as (acc & _ & Hb). rewrite result_bind_ok in Hb.
  destruct Hb as (l & _ & [= <-]). cbn. split_and!; try done; congruence.
Qed.

Lemma final_position s head base final : authority s head base final ->
  ch_snapshot_sequence head <= sequence final /\ sequence final <= u64_max /\ catalog_typed final /\ well_named (bmap_keys (catalog_records s)).
Proof.
  intros [_ Hb Hf _]. destruct (base_position _ _ _ Hb) as (Hs & _ & _ & _ & Hu & Ht). unfold journal in Hf.
  destruct (apply_all_behind _ _ _ _ (names_present s) Hf) as [Hle Hall]. split_and!.
  - lia.
  - by eapply apply_all_bound, Hf; [apply names_present|].
  - by eapply apply_all_typed, Hf.
  - unfold well_named. apply list.Forall_forall. intros name Hn. rewrite list.Forall_forall in Hall.
    destruct (Hall (Some name)) as (n & c & [= ->] & Hn' & _); [by apply list_elem_of_fmap; eauto|]. eauto.
Qed.

(** The snapshot fields of a replay are those of its base. *)
Lemma apply_record_fields st r : let st' := (apply_catalog_record st r).1 in
  initialized st' = initialized st /\ snapshot_sequence st' = snapshot_sequence st /\ snapshot_digest st' = snapshot_digest st /\
  sequence st' = sequence st /\ last_record_digest st' = last_record_digest st /\ tail_bytes st' = tail_bytes st /\
  deferred_since_sequence st' = deferred_since_sequence st /\ deferred_snapshot_bytes st' = deferred_snapshot_bytes st.
Proof.
  unfold apply_catalog_record, remove_catalog_pack. destruct (validate_pack_manifest _ _); [|done]. destruct (cr_operation r).
  - destruct (bmap_get _ _); [done|]. by destruct (add_pack_to_catalog _ _ _).
  - case_bool_decide; [|done]. by destruct (locations_from_packs _).
Qed.

Lemma apply_all_fields dir names : forall st st', apply_all (from_slice decode_catalog_record) dir names st = (st', Ok tt) ->
  initialized st' = initialized st /\ snapshot_sequence st' = snapshot_sequence st /\ snapshot_digest st' = snapshot_digest st /\
  deferred_since_sequence st' = deferred_since_sequence st /\ deferred_snapshot_bytes st' = deferred_snapshot_bytes st.
Proof.
  induction names as [|n names IH]; intros st st'; cbn [apply_all]; [by intros [= <-]|].
  destruct (apply_step _ dir n st) as [st1 [[]|]] eqn:E; [|done]. intros H. apply IH in H as (-> & -> & -> & -> & ->).
  revert E. unfold apply_step. destruct (read_record _ dir n) as [[[r d] len]|]; [|done]. destruct (_ <=? _); [by intros [= <-]|].
  unfold corrupt. rewrite store_guard_ok. intros [_ E]. pose proof (apply_record_fields st r) as Hf.
  destruct (apply_catalog_record st r) as [st2 [[]|]]; [|done]. injection E as <-. cbn in *. tauto.
Qed.

(** The authority depends on the head, its snapshot and the records only. *)
Lemma read_snapshot_frame s s' head :
  bmap_get (ch_snapshot_name head) (catalog_snapshots s') = bmap_get (ch_snapshot_name head) (catalog_snapshots s) ->
  read_snapshot s' head = read_snapshot s head.
Proof. intros H. unfold read_snapshot. by rewrite H. Qed.

Lemma authority_frame s s' head base final : authority s head base final ->
  catalog_head s' = catalog_head s -> catalog_records s' = catalog_records s ->
  bmap_get (ch_snapshot_name head) (catalog_snapshots s') = bmap_get (ch_snapshot_name head) (catalog_snapshots s) ->
  authority s' head base final.
Proof.
  intros [H1 H2 H3 H4] Eh Er Es. split.
  - unfold read_catalog_head. by rewrite Eh.
  - unfold base_of. by rewrite (read_snapshot_frame s).
  - unfold journal, record_directory, record_names. by rewrite Er.
  - by rewrite Er.
Qed.

(** What the name of a current snapshot is. *)
Lemma head_snapshot_name s head : read_catalog_head s = Ok head ->
  has_extension "snapshot" (ch_snapshot_name head) = true /\ exists c, ch_snapshot_name head = c +:+ ".snapshot" /\
    digest_component (ch_snapshot_digest head) = Ok c.
Proof.
  unfold read_catalog_head. rewrite result_bind_ok. intros (b & _ & H). rewrite result_bind_ok in H. destruct H as (h & _ & H).
  unfold corrupt in H. rewrite guard_ok, !orb_false_iff, !negb_false_iff in H. destruct H as (((_ & _) & He) & H).
  rewrite result_bind_ok in H. destruct H as (c & Hc & H). rewrite guard_ok, str_neqb_false in H. destruct H as (Hn & [= <-]). eauto.
Qed.

Lemma prune_authority s head base final : authority s head base final ->
  prunes_snapshot (ch_snapshot_name head) (ch_snapshot_name head) = false ->
  exists s', prune_catalog_metadata_locked s (ch_snapshot_name head) (ch_snapshot_sequence head) = (s', Ok tt) /\
    authority s' head base final /\ s' = set_records (set_snapshots s (catalog_snapshots s')) (catalog_records s').
Proof.
  intros Ha Hp. destruct (final_position _ _ _ _ Ha) as (Hle & Hu & Ht & Hw). pose proof Ha as [H1 H2 H3 H4].
  destruct (base_position _ _ _ H2) as (Hs & _).
  unfold prune_catalog_metadata_locked. cbn [set_snapshots catalog_records]. rewrite prune_records_ok by done.
  eexists. split; [done|]. split; [|done].
  set (snaps := List.filter (fun e => negb (prunes_snapshot (ch_snapshot_name head) e.1)) (catalog_snapshots s)).
  assert (authority (set_snapshots s snaps) head base final) as [G1 G2 G3 G4].
  { eapply authority_frame; [exact Ha|done|done|]. cbn. apply (bmap_get_filter (fun k => negb (prunes_snapshot (ch_snapshot_name head) k))). by rewrite Hp. }
  split; [done|done| |by apply (filter_wf (fun k => negb (pruned_record _ k)))].
  unfold journal, record_names, record_directory, bmap_keys in *. cbn [set_records set_snapshots catalog_records] in *.
  rewrite pruned_names by done. erewrite apply_all_dir; [apply apply_all_uncovered; [|exact H3]; lia|].
  intros n Hn. apply list_elem_of_fmap in Hn as (n' & [= <-] & Hn). apply list_elem_of_In, List.filter_In in Hn as [Hn Hcov].
  apply List.filter_In in Hn as [Hn He]. rewrite !directory_get by (done || by apply (filter_wf (fun k => negb (pruned_record _ k)))).
  apply (bmap_get_filter (fun k => negb (pruned_record _ k))). unfold pruned_record. apply negb_true_iff in Hcov. rewrite Hcov, andb_false_r, orb_false_r.
  unfold well_named in Hw. rewrite list.Forall_forall in Hw. destruct (Hw n) as (k & c & -> & Hk).
  { apply list_elem_of_In, List.filter_In. split; [|done]. done. }
  by rewrite record_name_kept.
Qed.
End Authority.

(* --------------------------------------------------------------------- *)
(** ** Catalogs up to their deferral *)

(** Whether a snapshot is deferred is advice about maintenance: catalogs are
    equivalent when they differ in nothing else. *)
#[export] Instance catalog_equiv : Equiv CatalogState := fun c c' => set_deferral c None 0 = set_deferral c' None 0.
#[export] Instance catalog_equivalence : Equivalence (≡@{CatalogState}).
Proof. unfold equiv, catalog_equiv. split; [intros x; reflexivity|intros x y; congruence|intros x y z; congruence]. Qed.

Lemma deferral_equiv c since bytes : set_deferral c since bytes ≡ c.
Proof. done. Qed.
Lemma equiv_deferral c c' : c ≡ c' -> c = set_deferral c' (deferred_since_sequence c) (deferred_snapshot_bytes c).
Proof. destruct c, c'. unfold equiv, catalog_equiv, set_deferral. cbn. by intros [= -> -> -> -> -> -> -> ->]. Qed.

#[export] Instance initialized_proper : Proper ((≡) ==> (=)) initialized.
Proof. intros c c' H. by rewrite (equiv_deferral _ _ H). Qed.
#[export] Instance sequence_proper : Proper ((≡) ==> (=)) sequence.
Proof. intros c c' H. by rewrite (equiv_deferral _ _ H). Qed.
#[export] Instance snapshot_sequence_proper : Proper ((≡) ==> (=)) snapshot_sequence.
Proof. intros c c' H. by rewrite (equiv_deferral _ _ H). Qed.
#[export] Instance snapshot_digest_proper : Proper ((≡) ==> (=)) snapshot_digest.
Proof. intros c c' H. by rewrite (equiv_deferral _ _ H). Qed.
#[export] Instance last_record_digest_proper : Proper ((≡) ==> (=)) last_record_digest.
Proof. intros c c' H. by rewrite (equiv_deferral _ _ H). Qed.
#[export] Instance packs_proper : Proper ((≡) ==> (=)) packs.
Proof. intros c c' H. by rewrite (equiv_deferral _ _ H). Qed.
#[export] Instance locations_proper : Proper ((≡) ==> (=)) locations.
Proof. intros c c' H. by rewrite (equiv_deferral _ _ H). Qed.
#[export] Instance snapshot_from_proper : Proper ((≡) ==> (=)) snapshot_from_catalog_state.
Proof. intros c c' H. by rewrite (equiv_deferral _ _ H). Qed.
#[export] Instance set_tail_proper n d b : Proper ((≡) ==> (≡)) (fun c => set_tail c n d b).
Proof. intros c c' H. by rewrite (equiv_deferral _ _ H). Qed.

Section DeferralBlind.
Context {P : Primitives}.

Lemma apply_deferral st r since bytes : apply_catalog_record (set_deferral st since bytes) r =
  (let '(st', o) := apply_catalog_record st r in (set_deferral st' since bytes, o)).
Proof.
  unfold apply_catalog_record, remove_catalog_pack. destruct (validate_pack_manifest _ _); [|done]. destruct (cr_operation r).
  - cbn [set_deferral packs]. destruct (bmap_get _ _); [done|]. cbn [set_packs locations set_deferral]. by destruct (add_pack_to_catalog _ _ _).
  - cbn [set_deferral packs]. case_bool_decide; [|done]. cbn [set_packs packs set_deferral]. by destruct (locations_from_packs _).
Qed.

(** Applying a record does not look at the deferral. *)
#[export] Instance apply_proper : Proper ((≡) ==> (=) ==> prod_relation (≡) (=)) apply_catalog_record.
Proof.
  intros c c' Hc r _ <-. rewrite (equiv_deferral _ _ Hc), apply_deferral. by destruct (apply_catalog_record c' r).
Qed.
#[export] Instance typed_proper : Proper ((≡) ==> iff) (catalog_typed (P := P)).
Proof. intros c c' Hc. rewrite (equiv_deferral _ _ Hc). done. Qed.
End DeferralBlind.

(** A digest that is missing or canonical. *)
Definition opt_digest (o : option string) : Prop := match o with Some d => is_ok (digest_component d) = true | None => True end.

(* --------------------------------------------------------------------- *)
(** ** Recovery *)

Lemma current_snapshot_kept c : str_all lower_hex_byte c = true -> c <> EmptyString ->
  prunes_snapshot (c +:+ ".snapshot") (c +:+ ".snapshot") = false.
Proof.
  intros Hc Hne. unfold prunes_snapshot. rewrite str_neqb_refl, andb_false_r, orb_false_r.
  assert (starts_with ".tmp-" (c +:+ ".snapshot") = false) as ->.
  { destruct c as [|a c]; [done|]. cbn [str_all] in Hc. apply andb_true_iff in Hc as [Ha _].
    rewrite str_cons_app. unfold starts_with. cbn [strip_prefix]. destruct (Ascii.eqb_spec "." a) as [<-|]; [done|done]. }
  unfold lookup_obsolete. cbn [existsb LOOKUP_SUFFIXES orb].
  assert (forall x e, x = "." +:+ e \/ (exists y, x = "." +:+ y +:+ "." +:+ e) -> contains_char "." e = false -> e <> "snapshot" ->
    strip_suffix x (c +:+ ".snapshot") = None) as Hno.
  { intros x e Hx He Hs. destruct (strip_suffix x (c +:+ ".snapshot")) as [r|] eqn:E; [|done]. exfalso.
    apply strip_suffix_spec in E. change ".snapshot" with ("." +:+ "snapshot") in E. destruct Hx as [->|[y ->]].
    - by apply different_extension in E.
    - replace (r +:+ "." +:+ y +:+ "." +:+ e) with ((r +:+ "." +:+ y) +:+ "." +:+ e) in E by (by rewrite !str_app_assoc).
      by apply different_extension in E. }
  rewrite (Hno ".lookup-v1" "lookup-v1"), (Hno ".lookup-v1.json" "json"), (Hno ".lookup-v1.receipt" "receipt"); try done.
  - right. by exists "lookup-v1".
  - right. by exists "lookup-v1".
  - by left.
Qed.

Lemma digest_component_lower value c : digest_component value = Ok c ->
  str_all lower_hex_byte c = true /\ c <> EmptyString /\ str_len c = 64.
Proof.
  intros H. apply digest_component_ok in H. unfold digest_by_prefix in H. destruct (strip_prefix "sha256:" value) as [x|]; [|done].
  destruct (_ && _) eqn:E; [|done]. injection H as ->. apply andb_true_iff in E as [Hl Hh]. apply N.eqb_eq in Hl.
  split_and!; [done| |done]. by intros ->.
Qed.

Section Recovery.
Context {P : Primitives} {R : JsonReader}.
Context (receipt_matches : CasStore -> string -> PackManifest -> bool).
Context (receipt_bytes : CasStore -> string -> PackManifest -> list byte).
Context (lookup_publish : BTreeMap string (list byte) -> CatalogSnapshot -> string -> BTreeMap string (list byte)).
(** The lookup accelerator writes no snapshot file. *)
Hypothesis lookup_publish_keeps : forall dir snapshot d name, has_extension "snapshot" name = true ->
  bmap_get name (lookup_publish dir snapshot d) = bmap_get name dir.
Notation sync := (sync_catalog_locked receipt_matches receipt_bytes lookup_publish).

(** A catalog in memory that is what the disk spells. *)
Record durable_by (s : CasStore) (head : CatalogHead) (base final : CatalogState) : Prop := mkDurable {
  du_authority : authority s head base final;
  du_deferral : is_ok (read_deferral (catalog_deferred s) head (sequence final)) = true;
  du_base : opt_digest (last_record_digest base);
  du_memory : pack_catalog s ≡ final;
  du_lookup : lookup s = None
}.
Definition durable (s : CasStore) : Prop := exists head base final, durable_by s head base final.

Lemma durable_ready s head base final : durable_by s head base final ->
  initialized (pack_catalog s) = true /\ catalog_typed (pack_catalog s) /\ sequence (pack_catalog s) <= u64_max /\
  ch_snapshot_sequence head <= sequence (pack_catalog s) /\ snapshot_digest (pack_catalog s) = Some (ch_snapshot_digest head) /\
  snapshot_sequence (pack_catalog s) = ch_snapshot_sequence head.
Proof.
  intros [Ha _ _ Hm _]. destruct (final_position _ _ _ _ Ha) as (Hle & Hu & Ht & _). rewrite Hm.
  destruct Ha as [_ Hb Hf _]. destruct (base_position _ _ _ Hb) as (_ & Hs & Hd & Hi & _). apply apply_all_fields in Hf as (Hi' & Hs' & Hd' & _).
  split_and!; try done; congruence.
Qed.

Lemma head_current_kept s head : read_catalog_head s = Ok head -> prunes_snapshot (ch_snapshot_name head) (ch_snapshot_name head) = false.
Proof.
  intros (_ & c & -> & Hc)%head_snapshot_name. apply digest_component_lower in Hc as (? & ? & _). by apply current_snapshot_kept.
Qed.

(** The end of a synchronization: the catalog is in place, the directories are pruned. *)
Lemma settle_spec s head base final : durable_by s head base final ->
  exists s', (do! s, pruned := prune_catalog_metadata_locked s (ch_snapshot_name head) (ch_snapshot_sequence head) in
              (prune_redundant_pack_metadata_locked s, Ok tt)) = (s', Ok tt) /\
    durable_by s' head base final /\ pack_catalog s' = pack_catalog s /\ same_files s s'.
Proof.
  intros [Ha Hd Hb Hc Hl]. destruct (prune_authority s head base final Ha (head_current_kept _ _ (au_head _ _ _ _ Ha))) as (s1 & -> & Ha1 & Hs1).
  cbn [store_bind]. eexists. split; [done|]. unfold prune_redundant_pack_metadata_locked. rewrite prune_metadata_frame.
  set (m := pack_metadata _). split_and!.
  - split; [eapply authority_frame; [exact Ha1|done..]|by rewrite Hs1|done|by rewrite Hs1|by rewrite Hs1].
  - by rewrite Hs1.
  - by rewrite Hs1.
Qed.

(** From the replay on. *)
Lemma replay_settles s head base final c : authority s head base final ->
  is_ok (read_deferral (catalog_deferred s) head (sequence final)) = true -> opt_digest (last_record_digest base) ->
  lookup s = None -> catalog_inv (pack_catalog s) -> journal s (pack_catalog s) = (c, Ok tt) -> c ≡ final ->
  exists s', (do! s, replayed := replay_records s in
              do! s, deferred := load_catalog_deferred_locked s head in
              do! s, pruned := prune_catalog_metadata_locked s (ch_snapshot_name head) (ch_snapshot_sequence head) in
              (prune_redundant_pack_metadata_locked s, Ok tt)) = (s', Ok tt) /\
    durable_by s' head base final /\ same_files s s'.
Proof.
  intros Ha Hd Hb Hl Hinv Hj Hc. unfold replay_records.
  pose proof (replay_simulates (from_slice decode_catalog_record) (record_directory s) (Some <$> record_names s) _ Hinv) as Hsim.
  destruct (replay_catalog_records_locked _ _ _ (pack_catalog s)) as [c' r]. unfold journal in Hj. rewrite Hj in Hsim.
  destruct Hsim as (-> & Heq & _). rewrite (Heq eq_refl). cbn [store_bind]. unfold load_catalog_deferred_locked. cbn [set_catalog pack_catalog catalog_deferred].
  rewrite (sequence_proper _ _ Hc). destruct (read_deferral _ _ _) as [[since bytes]|] eqn:Ed; [|done]. cbn [store_bind]. set (s2 := update_catalog _ _).
  destruct (settle_spec s2 head base final) as (s' & Hset & Hdur & _ & Hfiles).
  - split; [eapply authority_frame; [exact Ha|done..]|by change (catalog_deferred s2) with (catalog_deferred s); rewrite Ed|done|done|done].
  - exists s'. split_and!; [exact Hset|done|]. eapply same_files_trans; [|exact Hfiles]. done.
Qed.

(** Up to the replay: the head is read and agrees with the memory. *)
Lemma sync_start s head : read_catalog_head s = Ok head ->
  (initialized (pack_catalog s) = true -> snapshot_digest (pack_catalog s) = Some (ch_snapshot_digest head)) ->
  sync s = (do! s, loaded := (if needs_snapshot s head then load_snapshot lookup_publish s head else (s, Ok tt)) in
            do! s, replayed := replay_records s in
            do! s, deferred := load_catalog_deferred_locked s head in
            do! s, pruned := prune_catalog_metadata_locked s (ch_snapshot_name head) (ch_snapshot_sequence head) in
            (prune_redundant_pack_metadata_locked s, Ok tt)).
Proof.
  intros Hh Hi. unfold sync_catalog_locked.
  assert (ensure_head receipt_matches receipt_bytes lookup_publish s = (s, Ok tt)) as ->.
  { unfold ensure_head. destruct (catalog_head s) eqn:E; [done|]. unfold read_catalog_head in Hh. by rewrite E in Hh. }
  cbn [store_bind]. rewrite Hh. cbn [store_bind pure_on].
  assert (initialized (pack_catalog s) && (ch_snapshot_sequence head =? snapshot_sequence (pack_catalog s))
    && negb (bool_decide (snapshot_digest (pack_catalog s) = Some (ch_snapshot_digest head))) = false) as ->; [|done].
  destruct (initialized (pack_catalog s)) eqn:E; [|done]. rewrite bool_decide_eq_true_2 by auto. apply andb_false_r.
Qed.

(** A process without a materialized catalog gets the one on disk. *)
Lemma sync_reloads s head base final : authority s head base final ->
  is_ok (read_deferral (catalog_deferred s) head (sequence final)) = true -> opt_digest (last_record_digest base) ->
  needs_snapshot s head = true ->
  (initialized (pack_catalog s) = true -> snapshot_digest (pack_catalog s) = Some (ch_snapshot_digest head)) ->
  exists s', sync s = (s', Ok tt) /\ durable_by s' head base final /\ same_files s s'.
Proof.
  intros Ha Hd Hbd Hn Hi. pose proof Ha as [H1 H2 H3 H4]. rewrite (sync_start _ _ H1 Hi), Hn.
  unfold base_of in H2. rewrite result_bind_ok in H2. destruct H2 as (snapshot & Hs & Hb).
  unfold load_snapshot. rewrite Hs. cbn [store_bind pure_on]. rewrite Hb. cbn [store_bind pure_on].
  set (s1 := set_snapshots _ _). assert (authority s1 head base final) as Ha1.
  { eapply authority_frame; [exact Ha|done|done|]. cbn. apply lookup_publish_keeps. by apply head_snapshot_name in H1 as [? _]. }
  destruct (replay_settles s1 head base final final) as (s' & Hs' & Hdur & Hf); try done.
  - by apply CatalogTypes.snapshot_typed in Hb as [? _].
  - exists s'. split_and!; [exact Hs'|done|]. eapply same_files_trans; [|exact Hf]. done.
Qed.

(** Recovery: what a process has in memory, a new process finds on disk. *)
Lemma recovers s head base final : durable_by s head base final ->
  exists s', sync (forget s) = (s', Ok tt) /\ durable_by s' head base final /\ same_files s s'.
Proof.
  intros [Ha Hd Hb Hc Hl].
  destruct (sync_reloads (forget s) head base final) as (s' & Hs & Hdur & Hf); [eapply authority_frame; [exact Ha|done..]|done..|].
  exists s'. split_and!; done.
Qed.
End Recovery.
