(* ===== verification/CasBatch.v ===== *)
(** * Publication in packs (cas.rs: put_batch, write_pack)

    A batch is written as one pack file, announced by a journal record, and read
    back through the catalog before it is acknowledged.  The catalog operations are
    those of CasCatalog.  The temporary file of a pack has no pack name and is not
    part of the state. *)

From stdpp Require Import gmap.
From S2P Require Import Prelude Order Collections Text Json Canonical Instances JsonFormat JsonRead Paths Errors CasObject CasInterface.
From S2P Require Import Catalog CatalogTypes CatalogCodec CasStore CasCatalog CatalogAuthority.
Open Scope N_scope.

Section Batch.
Context {P : Primitives} {R : JsonReader}.
Context (receipt_matches : CasStore -> string -> PackManifest -> bool).
Context (receipt_bytes : CasStore -> string -> PackManifest -> list byte).
Context (lookup_publish : BTreeMap string (list byte) -> CatalogSnapshot -> string -> BTreeMap string (list byte)).
Notation verify_pack_data := (verify_pack_data receipt_matches receipt_bytes).
Notation verify_pack_pair := (verify_pack_pair receipt_matches receipt_bytes).
Notation sync_catalog_locked := (sync_catalog_locked receipt_matches receipt_bytes lookup_publish).
Notation ensure_catalog_add_capacity_locked := (ensure_catalog_add_capacity_locked lookup_publish).
Notation append_catalog_record_locked := (append_catalog_record_locked lookup_publish).

(** The entries of a pack and its size. *)
Definition pack_entries (objects : list (CasObject * list byte)) : Res (list PackEntry * N) :=
  try_fold (fun acc e =>
    let? next := ok_or (u64_checked_add acc.2 (size e.1)) (ClewError_new StateCorrupt "CAS pack size overflow") in
    Ok (acc.1 ++ [{| pe_object := e.1; pe_offset := acc.2 |}], next)) ([], 0) objects.

(** What is done about the files a pack name already has. *)
Definition place_pack (s : CasStore) (data_name index_name component : string) (manifest : PackManifest)
    (data index : list byte) : CasStore * Res unit :=
  match bmap_contains_key data_name (pack_files s), bmap_contains_key index_name (pack_metadata s) with
  | true, true => (s, Ok tt)
  | true, false =>
      do! s, verified := verify_pack_data s data_name component manifest in
      (set_metadata s (bmap_insert index_name index (pack_metadata s)), Ok tt)
  | false, true =>
      match bounded MAX_PACK_INDEX_BYTES (bmap_get index_name (pack_metadata s)) with
      | None => (s, corrupt "CAS orphan pack index is unsafe")
      | Some existing =>
          if negb (bool_decide (existing = index)) then (s, corrupt "CAS orphan pack index has another authority")
          else (set_pack_files s (bmap_insert data_name data (pack_files s)), Ok tt)
      end
  | false, false =>
      let s := set_pack_files s (bmap_insert data_name data (pack_files s)) in
      (set_metadata s (bmap_insert index_name index (pack_metadata s)), Ok tt)
  end.

Definition write_pack (s : CasStore) (objects : list (CasObject * list byte)) : CasStore * Res unit :=
  do! s, entries := pure_on s (pack_entries objects) in
  let data := concat (objects.*2) in
  let manifest := {| pm_data_sha256 := hash_bytes data; pm_data_size := entries.2; pm_objects := entries.1;
                     pm_schema := CAS_PACK_SCHEMA |} in
  let index := catalog_bytes (pack_manifest_value manifest) in
  if MAX_PACK_INDEX_BYTES <? vlen index then (s, resource_limit "CAS pack index exceeds its bounded size")
  else
  do! s, component := pure_on s (digest_component (hash_bytes index)) in
  let data_name := component +:+ ".pack" in
  let index_name := component +:+ ".json" in
  do! s, capacity := ensure_catalog_add_capacity_locked s data_name manifest in
  do! s, placed := place_pack s data_name index_name component manifest data index in
  do! s, verified := verify_pack_pair s data_name index_name (Some manifest) in
  do! s, appended := append_catalog_record_locked s Add data_name manifest true in
  (prune_pack_metadata s data_name, Ok tt).

(* --------------------------------------------------------------------- *)
(** ** Batches *)

Definition prepare (e : string * list byte) : CasObject * list byte :=
  ({| digest := object_digest e.1 e.2; object_schema := e.1; schema := CAS_OBJECT_SCHEMA; size := vlen e.2 |}, e.2).

(** The loop that collects what the catalog does not serve yet. *)
Definition collect_missing (s : CasStore) (st : list (CasObject * list byte) * BTreeSet string) (e : CasObject * list byte)
  : Res (list (CasObject * list byte) * BTreeSet string) :=
  let? existing := read_from_catalog s e.1 (vlen e.2) in
  if bool_decide (existing = Some e.2) then Ok st
  else if bset_contains (digest e.1) st.2 then Ok st
  else Ok (st.1 ++ [e], bset_insert (digest e.1) st.2).

Definition check_packed (s : CasStore) (e : CasObject * list byte) : Res unit :=
  let? existing := read_from_catalog s e.1 (vlen e.2) in
  if negb (bool_decide (existing = Some e.2)) then corrupt "CAS pack verification changed object bytes" else Ok tt.

Definition put_batch (s : CasStore) (objects : list (string * list byte)) : CasStore * Res (list CasObject) :=
  do! s, valid := pure_on s (try_for_each (fun e => validate_object_schema e.1) objects) in
  let prepared := prepare <$> objects in
  let references := prepared.*1 in
  match prepared with
  | [] => (s, Ok references)
  | _ =>
      do! s, synced := sync_catalog_locked s in
      do! s, missing := pure_on s (try_fold (collect_missing s) ([], []) prepared) in
      match missing.1 with
      | [] => (s, Ok references)
      | _ =>
          do! s, written := write_pack s missing.1 in
          do! s, checked := pure_on s (try_for_each (check_packed s) missing.1) in
          (s, Ok references)
      end
  end.

End Batch.

(* --------------------------------------------------------------------- *)
(** ** What a batch leaves alone *)

(** Everything the catalog of [s] serves is still served by [s'], except perhaps
    the digests [ds]. *)
Record keeps_serving (ds : list string) (s s' : CasStore) : Prop := mkKeepsServing {
  ks_lookup : lookup s' = lookup s;
  ks_files : forall name data, bmap_get name (pack_files s) = Some data -> bmap_get name (pack_files s') = Some data;
  ks_locations : forall d, d ∉ ds -> locations (pack_catalog s') !! d = locations (pack_catalog s) !! d
}.

Lemma keeps_refl ds s : keeps_serving ds s s.
Proof. done. Qed.
Lemma keeps_trans ds s1 s2 s3 : keeps_serving ds s1 s2 -> keeps_serving ds s2 s3 -> keeps_serving ds s1 s3.
Proof.
  intros [A1 B1 C1] [A2 B2 C2]. split; [congruence|auto|]. intros d Hd. by rewrite C2, C1.
Qed.
Lemma keeps_weaken ds s s' : keeps_serving [] s s' -> keeps_serving ds s s'.
Proof. intros [A B C]. split; [done|done|]. intros d _. apply C, not_elem_of_nil. Qed.

(** A catalog in memory that was read in full. *)
Record materialized {P : Primitives} (s : CasStore) : Prop := mkMaterialized {
  mat_lookup : lookup s = None;
  mat_typed : catalog_typed (pack_catalog s)
}.
(** What a process may have in memory: a full catalog, or an overlay of an accelerator. *)
Definition memory_ok {P : Primitives} (s : CasStore) : Prop := lookup s = None -> catalog_typed (pack_catalog s).

Section KeepsServing.
Context {P : Primitives} {R : JsonReader}.

Lemma keeps_read ds s s' o max b : keeps_serving ds s s' -> digest o ∉ ds ->
  read_from_catalog s o max = Ok (Some b) -> read_from_catalog s' o max = Ok (Some b).
Proof.
  intros [Hl Hf Hc] Hd. unfold read_from_catalog.
  assert (catalog_location s' o = catalog_location s o) as ->.
  { unfold catalog_location. by rewrite Hl, (Hc _ Hd). }
  rewrite !result_bind_ok. intros ([location|] & Hloc & H); [|done]. exists (Some location). split; [done|].
  unfold corrupt in *. rewrite guard_ok in *. destruct H as [Hg H]. split; [done|].
  rewrite result_bind_ok in *. destruct H as (file & Hfile & H). exists file. split; [|done].
  destruct (bmap_get (pl_data_name location) (pack_files s)) as [data|] eqn:E; [|done].
  by rewrite (Hf _ _ E).
Qed.

Lemma add_entries_other data_name d entries : forall cat, d ∉ (fun e => digest (pe_object e)) <$> entries ->
  (add_entries data_name entries cat).1 !! d = cat !! d.
Proof.
  induction entries as [|e entries IH]; intros cat; [done|]. rewrite fmap_cons, not_elem_of_cons. intros [Hne Hn]. cbn [add_entries].
  destruct (cat !! digest (pe_object e)) as [x|].
  - destruct (negb _); [done|]. destruct (leb _ _); rewrite IH by done; [done|]. by rewrite lookup_insert_ne.
  - rewrite IH by done. by rewrite lookup_insert_ne.
Qed.

Lemma pack_entries_objects objects : forall entries n, pack_entries objects = Ok (entries, n) -> pe_object <$> entries = objects.*1.
Proof.
  intros entries n H. change (pe_object <$> (entries, n).1 = objects.*1).
  refine (try_fold_inv _ (fun pre acc => pe_object <$> acc.1 = pre.*1) objects ([], 0) (entries, n) [] _ _ H); [done|].
  intros pre e acc acc' IH Hstep. rewrite result_bind_ok in Hstep. destruct Hstep as (next & _ & [= <-]). cbn [fst].
  by rewrite !fmap_app, IH.
Qed.

Context (receipt_matches : CasStore -> string -> PackManifest -> bool).
Context (receipt_bytes : CasStore -> string -> PackManifest -> list byte).
Context (lookup_publish : BTreeMap string (list byte) -> CatalogSnapshot -> string -> BTreeMap string (list byte)).
Notation sync := (sync_catalog_locked receipt_matches receipt_bytes lookup_publish).
Notation publish := (publish_catalog_snapshot_locked lookup_publish).
Notation maintain := (maybe_snapshot_catalog_locked lookup_publish).

(** Verifying packs writes receipts only. *)
Definition only_metadata (s s' : CasStore) : Prop := s' = set_metadata s (pack_metadata s').
Lemma only_metadata_refl s : only_metadata s s.
Proof. by destruct s. Qed.
Lemma only_metadata_trans s1 s2 s3 : only_metadata s1 s2 -> only_metadata s2 s3 -> only_metadata s1 s3.
Proof. unfold only_metadata. intros -> ->. done. Qed.
Lemma only_metadata_keeps ds s s' : only_metadata s s' -> keeps_serving ds s s'.
Proof. intros ->. done. Qed.
Lemma only_metadata_materialized s s' : only_metadata s s' -> materialized s -> materialized s'.
Proof. intros -> [? ?]. done. Qed.

Lemma verify_data_frame s data_name component manifest s' r :
  verify_pack_data receipt_matches receipt_bytes s data_name component manifest = (s', r) -> only_metadata s s'.
Proof.
  unfold verify_pack_data. destruct (bmap_get _ _); [|intros [= <- _]; apply only_metadata_refl].
  destruct (negb _); [intros [= <- _]; apply only_metadata_refl|]. destruct (receipt_matches _ _ _); [intros [= <- _]; apply only_metadata_refl|].
  destruct (str_neqb _ _); intros [= <- _]; [apply only_metadata_refl|done].
Qed.
Lemma verify_pair_frame s data_name index_name expected s' m :
  verify_pack_pair receipt_matches receipt_bytes s data_name index_name expected = (s', Ok m) -> only_metadata s s'.
Proof.
  unfold verify_pack_pair, corrupt. rewrite store_bind_ok. intros (s1 & bytes & [= <- _] & H).
  rewrite store_bind_ok in H. destruct H as (s1 & m' & [= <- _] & H). rewrite store_guard_ok in H. destruct H as [_ H].
  rewrite store_bind_ok in H. destruct H as (s1 & c & [= <- _] & H). rewrite store_bind_ok in H. destruct H as (s1 & v & [= <- _] & H).
  rewrite store_bind_ok in H. destruct H as (s1 & [] & Hv & [= <- _]). by eapply verify_data_frame.
Qed.
Lemma bootstrap_frame s s' snapshot : bootstrap_catalog_snapshot receipt_matches receipt_bytes s = (s', Ok snapshot) -> only_metadata s s'.
Proof.
  unfold bootstrap_catalog_snapshot. rewrite store_bind_ok. intros (s1 & verified & H & [= <- _]).
  eapply (store_fold_rel _ only_metadata); [apply only_metadata_refl|apply only_metadata_trans| |exact H].
  intros s0 acc n s2 acc'. rewrite store_bind_ok. intros (s3 & m & Hv & [= <- _]). by eapply verify_pair_frame.
Qed.

(** Publishing a snapshot leaves a catalog alone or replaces it by the snapshot's. *)
Lemma publish_catalog s snapshot s' : publish s snapshot = (s', Ok tt) ->
  pack_files s' = pack_files s /\
  ((pack_catalog s' = pack_catalog s /\ lookup s' = lookup s) \/
   (lookup s' = None /\ exists d, catalog_state_from_snapshot snapshot d = Ok (pack_catalog s'))).
Proof.
  unfold publish_catalog_snapshot_locked, resource_limit. rewrite store_guard_ok. intros [_ H].
  rewrite store_bind_ok in H. destruct H as (s1 & c & [= <- _] & H). rewrite store_bind_ok in H. destruct H as (s1 & [] & Hcr & H).
  assert (same_packs s s1) as (Hf & Hc & Hl).
  { destruct (bmap_get _ _); [|by injection Hcr as <-]. unfold corrupt in Hcr. rewrite store_guard_ok in Hcr. by destruct Hcr as [_ [= <-]]. }
  rewrite store_bind_ok in H. destruct H as (s2 & [] & Had & H). rewrite store_bind_ok in H. destruct H as (s3 & [] & Hpr & [= <-]).
  unfold prune_redundant_pack_metadata_locked. rewrite prune_metadata_frame.
  unfold prune_catalog_metadata_locked in Hpr. destruct (prune_records _ _) as [records r]. injection Hpr as <- ->. cbn in *.
  destruct (_ || _) in Had.
  - destruct (catalog_state_from_snapshot _ _) as [c'|] eqn:E; [|done]. injection Had as <-. cbn. split; [done|]. right. eauto.
  - injection Had as <-. cbn. split; [done|]. left. done.
Qed.

(** Snapshot maintenance rewrites the journal, not what the catalog serves. *)
Lemma maintain_keeps force s s' : materialized s -> maintain s force = (s', Ok tt) -> keeps_serving [] s s' /\ materialized s'.
Proof.
  intros [Hl Ht]. unfold maybe_snapshot_catalog_locked. destruct (_ && _); [by intros [= <-]|]. destruct (_ && _); [by intros [= <-]|].
  destruct (_ <? _).
  - unfold defer_catalog_snapshot_locked. rewrite store_bind_ok. intros (s1 & b & [= <- _] & [= <-]). done.
  - intros (Hf & [[Hc Hl']|[Hl' [d Hd]]])%publish_catalog.
    { split; split; rewrite ?Hf, ?Hc, ?Hl'; done. }
    destruct Ht as [Hi Ha]. destruct (snapshot_round_trip _ d Hi Ha) as (st & Hst & Hp & Hlo & _). rewrite Hd in Hst. injection Hst as <-.
    split; split; [congruence|by rewrite Hf|by rewrite Hlo|done|by eapply snapshot_typed].
Qed.

Lemma maintain_snapshot force s s' : materialized s -> maintain s force = (s', Ok tt) ->
  snapshot_from_catalog_state (pack_catalog s') = snapshot_from_catalog_state (pack_catalog s).
Proof.
  intros [Hl [Hi Ha]]. unfold maybe_snapshot_catalog_locked. destruct (_ && _); [by intros [= <-]|]. destruct (_ && _); [by intros [= <-]|].
  destruct (_ <? _).
  - unfold defer_catalog_snapshot_locked. rewrite store_bind_ok. intros (s1 & b & [= <- _] & [= <-]). done.
  - intros (_ & [[-> _]|[_ [d Hd]]])%publish_catalog; [done|].
    destruct (snapshot_round_trip _ d Hi Ha) as (st & Hst & Hp & _ & Hs & Hr & _). rewrite Hd in Hst. injection Hst as <-.
    unfold snapshot_from_catalog_state. by rewrite Hp, Hs, Hr.
Qed.

(** A successful synchronization materializes the catalog. *)
Lemma sync_materializes s s' : memory_ok s -> sync s = (s', Ok tt) -> materialized s'.
Proof.
  intros Hm H. unfold sync_catalog_locked in H. rewrite store_bind_ok in H. destruct H as (s1 & [] & He & H).
  assert (memory_ok s1) as Hm1.
  { unfold ensure_head in He. destruct (catalog_head s); [by injection He as <-|]. unfold corrupt in He. rewrite store_guard_ok in He. destruct He as [_ He].
    rewrite store_bind_ok in He. destruct He as (s2 & sn & Hb & Hp). apply bootstrap_frame in Hb. 
    apply publish_catalog in Hp as (_ & [[Hc Hl]|[Hl [d Hd]]]).
    - intros Hx. rewrite Hc, Hb. apply Hm. rewrite Hl, Hb in Hx. done.
    - intros _. by eapply snapshot_typed. }
  rewrite store_bind_ok in H. destruct H as (s2 & head & [= <- _] & H). unfold corrupt in H. rewrite store_guard_ok in H. destruct H as [_ H].
  rewrite store_bind_ok in H. destruct H as (s2 & [] & Hload & H).
  assert (materialized s2) as [Hl2 Ht2].
  { destruct (needs_snapshot s1 head) eqn:En.
    - unfold load_snapshot in Hload. rewrite store_bind_ok in Hload. destruct Hload as (s3 & sn & [= <- _] & Hload).
      rewrite store_bind_ok in Hload. destruct Hload as (s3 & c & [= <- Hc] & [= <-]). split; [done|]. by eapply snapshot_typed.
    - injection Hload as <-. unfold needs_snapshot in En. rewrite !orb_false_iff in En. destruct En as [[_ En] _].
      destruct (lookup s1) eqn:E; [done|]. split; [done|]. by apply Hm1. }
  rewrite store_bind_ok in H. destruct H as (s3 & [] & Hrep & H).
  assert (materialized s3) as [Hl3 Ht3].
  { unfold replay_records in Hrep. pose proof (replay_typed (from_slice decode_catalog_record) (record_directory s2) (Some <$> record_names s2) _ Ht2) as Hr.
    destruct (replay_catalog_records_locked _ _ _ _) as [c r]. by injection Hrep as <- ->. }
  rewrite store_bind_ok in H. destruct H as (s4 & [] & Hdef & H).
  assert (materialized s4) as [Hl4 Ht4].
  { unfold load_catalog_deferred_locked in Hdef. destruct (read_deferral _ _ _) as [[since bytes]|]; [|done]. by injection Hdef as <-. }
  rewrite store_bind_ok in H. destruct H as (s5 & [] & Hpr & [= <-]). unfold prune_redundant_pack_metadata_locked. rewrite prune_metadata_frame.
  unfold prune_catalog_metadata_locked in Hpr. destruct (prune_records _ _) as [records r]. by injection Hpr as <- ->.
Qed.

Lemma keeps_new_file ds s name data : bmap_contains_key name (pack_files s) = false ->
  keeps_serving ds s (set_pack_files s (bmap_insert name data (pack_files s))).
Proof.
  intros Hn. split; [done| |done]. intros name' data' Hd. cbn. rewrite bmap_get_insert_ne; [done|].
  intros ->. unfold bmap_contains_key in Hn. by rewrite Hd in Hn.
Qed.

Lemma capacity_keeps ds s data_name manifest s' : materialized s ->
  ensure_catalog_add_capacity_locked lookup_publish s data_name manifest = (s', Ok tt) -> keeps_serving ds s s' /\ materialized s'.
Proof.
  intros Hs. unfold ensure_catalog_add_capacity_locked. destruct (next_record s Add data_name manifest); [|done].
  destruct (tail_fits _ _); [by intros [= <-]|]. rewrite store_bind_ok. intros (s1 & [] & Hm & H).
  destruct (tail_fits _ _); [|done]. injection H as <-. apply maintain_keeps in Hm as [? ?]; [|done]. split; [by apply keeps_weaken|done].
Qed.

Lemma place_keeps ds s data_name index_name component manifest data index s' : materialized s ->
  place_pack receipt_matches receipt_bytes s data_name index_name component manifest data index = (s', Ok tt) ->
  keeps_serving ds s s' /\ materialized s'.
Proof.
  intros Hs. unfold place_pack. destruct (bmap_contains_key data_name _) eqn:Ed, (bmap_contains_key index_name _).
  - by intros [= <-].
  - rewrite store_bind_ok. intros (s1 & [] & Hv & [= <-]). apply verify_data_frame in Hv. rewrite Hv. by destruct Hs.
  - destruct (bounded _ _); [|done]. unfold corrupt. rewrite store_guard_ok. intros [_ [= <-]]. split; [by apply keeps_new_file|by destruct Hs].
  - intros [= <-]. split; [|by destruct Hs]. apply (keeps_trans _ _ (set_pack_files s (bmap_insert data_name data (pack_files s)))); [by apply keeps_new_file|by split].
Qed.

(** Applying an added pack changes the locations of its own objects only. *)
Lemma apply_add_keeps st record c d : cr_operation record = Add -> apply_catalog_record st record = (c, Ok tt) ->
  d ∉ (fun e => digest (pe_object e)) <$> pm_objects (cp_manifest (cr_pack record)) -> locations c !! d = locations st !! d.
Proof.
  intros Ho H Hd. unfold apply_catalog_record in H. rewrite Ho in H. destruct (validate_pack_manifest _ _); [|done].
  destruct (bmap_get _ _); [done|]. destruct (add_pack_to_catalog _ _ _) as [locs r] eqn:El. injection H as <- ->. cbn.
  unfold add_pack_to_catalog in El. pose proof (add_entries_other (cp_data_name (cr_pack record)) d _ (locations st) Hd) as Hx.
  cbn [set_packs locations] in El. by rewrite El in Hx.
Qed.

Lemma append_keeps s data_name manifest s' : materialized s ->
  append_catalog_record_locked lookup_publish s Add data_name manifest true = (s', Ok tt) ->
  keeps_serving ((fun e => digest (pe_object e)) <$> pm_objects manifest) s s' /\ materialized s'.
Proof.
  intros Hs. unfold append_catalog_record_locked, resource_limit. rewrite store_bind_ok. intros (s1 & record & [= <- Hrec] & H).
  rewrite store_guard_ok in H. destruct H as [_ H]. rewrite store_bind_ok in H. destruct H as (s1 & name & [= <- _] & H).
  rewrite store_bind_ok in H. destruct H as (s1 & [] & Hcreate & H).
  assert (pack_files s1 = pack_files s /\ lookup s1 = lookup s /\ pack_catalog s1 = pack_catalog s) as (Hf & Hl & Hcat).
  { destruct (bmap_get name (catalog_records s)); [|by injection Hcreate as <-].
    unfold corrupt in Hcreate. rewrite store_guard_ok in Hcreate. by destruct Hcreate as [_ [= <-]]. }
  unfold next_record in Hrec. rewrite result_bind_ok in Hrec. destruct Hrec as (n & _ & [= <-]).
  destruct (apply_catalog_record (pack_catalog s1) _) as [c [[]|]] eqn:Ea; [|done]. destruct Hs as [Hsl Hst]. rewrite Hcat in Ea.
  assert (catalog_typed c) as Htc by (by eapply apply_typed).
  apply maintain_keeps in H as [Hk Hm]; [|split; [cbn; congruence|exact Htc]].
  split; [|done]. eapply keeps_trans; [|by apply keeps_weaken]. split; cbn; [done|by rewrite Hf|]. intros d Hd.
  by eapply apply_add_keeps in Ea.
Qed.

Lemma write_pack_keeps s objects s' : materialized s ->
  write_pack receipt_matches receipt_bytes lookup_publish s objects = (s', Ok tt) ->
  keeps_serving (digest <$> objects.*1) s s' /\ materialized s'.
Proof.
  intros Hs. unfold write_pack, resource_limit. rewrite store_bind_ok. intros (s1 & [entries n] & [= <- He] & H). rewrite store_guard_ok in H. destruct H as [_ H].
  rewrite store_bind_ok in H. destruct H as (s1 & component & [= <- _] & H).
  rewrite store_bind_ok in H. destruct H as (s2 & [] & Hcap & H). apply (capacity_keeps (digest <$> objects.*1)) in Hcap as [Hcap Hs2]; [|done].
  rewrite store_bind_ok in H. destruct H as (s3 & [] & Hplace & H). apply (place_keeps (digest <$> objects.*1)) in Hplace as [Hplace Hs3]; [|done].
  rewrite store_bind_ok in H. destruct H as (s4 & m & Hver & H). apply verify_pair_frame in Hver.
  pose proof (only_metadata_materialized _ _ Hver Hs3) as Hs4. apply (only_metadata_keeps (digest <$> objects.*1)) in Hver.
  rewrite store_bind_ok in H. destruct H as (s5 & [] & Happ & [= <-]). apply append_keeps in Happ as [Happ Hs5]; [|done]. cbn [pm_objects fst] in Happ.
  apply pack_entries_objects in He.
  assert ((fun e => digest (pe_object e)) <$> entries = digest <$> objects.*1) as Hds by (rewrite <- He, <- list_fmap_compose; done).
  rewrite Hds in Happ. split; [|by destruct Hs5]. eapply keeps_trans; [exact Hcap|]. eapply keeps_trans; [exact Hplace|].
  eapply keeps_trans; [exact Hver|]. eapply keeps_trans; [exact Happ|by split].
Qed.
End KeepsServing.

(* --------------------------------------------------------------------- *)
(** ** A batch can be read back *)

(** No two objects of a batch share a digest without being the same object. *)
Definition no_collision (prepared : list (CasObject * list byte)) : Prop :=
  forall e e', e ∈ prepared -> e' ∈ prepared -> digest e.1 = digest e'.1 -> e = e'.

Lemma no_collision_alt prepared : no_collision prepared <->
  Forall (fun e : CasObject * list byte => Forall (fun e' : CasObject * list byte => digest e.1 = digest e'.1 -> e = e') prepared) prepared.
Proof.
  unfold no_collision. rewrite list.Forall_forall. setoid_rewrite list.Forall_forall. naive_solver.
Qed.
#[export] Instance no_collision_dec prepared : Decision (no_collision prepared).
Proof.
  destruct (decide (Forall (fun e : CasObject * list byte =>
    Forall (fun e' : CasObject * list byte => digest e.1 = digest e'.1 -> e = e') prepared) prepared)) as [H|H].
  - left. by apply no_collision_alt.
  - right. intros Hn. by apply H, no_collision_alt.
Defined.

Section ReadBack.
Context {P : Primitives} {L : PrimitivesLaws P} {R : JsonReader}.

Definition served (s : CasStore) (e : CasObject * list byte) : Prop :=
  read_from_catalog s e.1 (vlen e.2) = Ok (Some e.2).

Lemma read_from_catalog_max st o m m' b : m <= m' ->
  read_from_catalog st o m = Ok (Some b) -> read_from_catalog st o m' = Ok (Some b).
Proof.
  intros Hm. unfold read_from_catalog. rewrite !result_bind_ok. intros ([location|] & Hl & H); [|done]. exists (Some location). split; [done|].
  unfold corrupt in *. rewrite guard_ok, orb_false_iff, N.ltb_ge in *. destruct H as ((H1 & H2) & H). split_and!; [done|lia|done].
Qed.

(** A served object is read from its pack. *)
Lemma served_reads sync s k b o max : for_bytes k b = Ok o -> vlen b <= usize_max -> vlen b <= max ->
  served s (o, b) -> read sync s o max = (s, Ok b).
Proof.
  intros Hr Hl Hm Hs. pose proof (for_bytes_reference _ _ _ Hr Hl) as Hv. pose proof (for_bytes_names _ _ _ Hr) as [Hd Hsz].
  destruct (digest_component_of_digest (digest o)) as [name Hname]; [rewrite <- Hd; apply hash_bytes_digest|].
  rewrite (read_admitted sync _ _ _ name) by (done || lia).
  apply (read_from_catalog_max _ _ _ max) in Hs; [|done]. cbn [fst snd] in Hs. by rewrite Hs.
Qed.

(** Publishing a loose object leaves the packs alone. *)
Lemma put_same_packs s k b s' r : put s k b = (s', r) -> same_packs s s'.
Proof.
  unfold put.
  assert (forall st0 o name st' r, same_packs s st0 -> publish_loose st0 o name b = (st', r) -> same_packs s st') as Hpub.
  { intros st0 o name st' r0 Hp. unfold publish_loose. destruct (read_path _ _ _ _); [destruct (decide _)|]; by intros [= <- _]. }
  destruct (result_bind _ _) as [[o name]|]; [|by intros [= <- _]].
  destruct (bmap_contains_key _ _); [|by apply Hpub].
  destruct (read_path _ _ _ _); [destruct (decide _); [by intros [= <- _]|]|]; apply Hpub, quarantine_same_packs.
Qed.
Lemma put_serves s k b s' r e : put s k b = (s', r) -> served s e -> served s' e.
Proof. intros H%put_same_packs. unfold served. by rewrite (read_from_catalog_packs s s'). Qed.

(** The loop separates what is served from what must be written. *)
Record split_batch (s : CasStore) (pre : list (CasObject * list byte))
    (st : list (CasObject * list byte) * BTreeSet string) : Prop := mkSplitBatch {
  sb_from : forall e, e ∈ st.1 -> e ∈ pre;
  sb_digests : forall d, d ∈ st.2 <-> d ∈ digest <$> st.1.*1;
  sb_covers : forall e, e ∈ pre -> served s e \/ digest e.1 ∈ digest <$> st.1.*1
}.

Lemma collect_step s pre e st st' : split_batch s pre st -> collect_missing s st e = Ok st' -> split_batch s (pre ++ [e]) st'.
Proof.
  intros [Hf Hd Hc]. unfold collect_missing. rewrite result_bind_ok. intros (existing & He & H).
  destruct (bool_decide_reflect (existing = Some e.2)) as [->|_]; [|destruct (bset_contains (digest e.1) st.2) eqn:Hb];
    injection H as <-; split; cbn [fst snd].
  - intros x Hx. apply elem_of_app. left. by apply Hf.
  - done.
  - intros x [Hx| ->%list_elem_of_singleton]%elem_of_app; [by apply Hc|by left].
  - intros x Hx. apply elem_of_app. left. by apply Hf.
  - done.
  - intros x [Hx| ->%list_elem_of_singleton]%elem_of_app; [by apply Hc|]. right. by apply Hd, bset_contains_spec.
  - intros x [Hx|Hx]%elem_of_app; apply elem_of_app; [left; by apply Hf|by right].
  - intros d. rewrite bset_insert_elem, Hd, !fmap_app, elem_of_app. cbn. rewrite list_elem_of_singleton. tauto.
  - intros x Hx. rewrite !fmap_app, !elem_of_app. cbn. rewrite list_elem_of_singleton.
    apply elem_of_app in Hx as [Hx| ->%list_elem_of_singleton]; [|by right; right]. destruct (Hc x Hx); auto.
Qed.

Lemma collect_ok s prepared missing : try_fold (collect_missing s) ([], []) prepared = Ok missing ->
  split_batch s prepared missing.
Proof.
  intros H. apply (try_fold_inv (collect_missing s) (split_batch s) prepared ([], []) missing []); [|by intros; eapply collect_step|done].
  split; set_solver.
Qed.

Context (receipt_matches : CasStore -> string -> PackManifest -> bool).
Context (receipt_bytes : CasStore -> string -> PackManifest -> list byte).
Context (lookup_publish : BTreeMap string (list byte) -> CatalogSnapshot -> string -> BTreeMap string (list byte)).
Notation sync := (sync_catalog_locked receipt_matches receipt_bytes lookup_publish).

(** The references of a batch are those of its bytes, in order. *)
Lemma put_batch_references s l s' refs :
  put_batch receipt_matches receipt_bytes lookup_publish s l = (s', Ok refs) ->
  refs = (prepare <$> l).*1 /\ Forall2 (fun e o => for_bytes e.1 e.2 = Ok o) l refs.
Proof.
  intros H. assert (refs = (prepare <$> l).*1 /\ Forall (fun e => validate_object_schema e.1 = Ok tt) l) as [-> Hv].
  { unfold put_batch in H. rewrite store_bind_ok in H. destruct H as (s1 & [] & [= <- Hv] & H).
    split; [|by apply try_for_each_ok]. destruct (prepare <$> l) as [|e pr]; [by injection H|].
    rewrite store_bind_ok in H. destruct H as (s1 & u & _ & H). rewrite store_bind_ok in H. destruct H as (s2 & [ms ds] & _ & H).
    cbn [fst] in H. destruct ms; [by injection H|]. rewrite store_bind_ok in H. destruct H as (s3 & u3 & _ & H).
    rewrite store_bind_ok in H. destruct H as (s4 & u4 & _ & H). by injection H. }
  split; [done|]. clear H. induction Hv as [|e l He Hl IH]; [constructor|]. rewrite !fmap_cons. constructor; [|done].
  by apply for_bytes_ok.
Qed.

Lemma put_batch_serves s l s' refs : memory_ok s -> no_collision (prepare <$> l) ->
  put_batch receipt_matches receipt_bytes lookup_publish s l = (s', Ok refs) -> Forall (served s') (prepare <$> l).
Proof.
  intros Hmem Hn H. unfold put_batch in H. rewrite store_bind_ok in H. destruct H as (s1 & [] & [= <- Hv] & H).
  destruct (prepare <$> l) as [|e0 pr] eqn:Ep; [constructor|]. rewrite <- Ep in *. clear e0 pr Ep. set (prepared := prepare <$> l) in *.
  rewrite store_bind_ok in H. destruct H as (s1 & [] & Hsync & H). apply sync_materializes in Hsync; [|done]. rewrite store_bind_ok in H.
  destruct H as (s2 & [missing ds] & [= <- Hc] & H). apply collect_ok in Hc as [Hf Hd Hcov]. cbn [fst snd] in *.
  apply list.Forall_forall. intros e He. destruct missing as [|m0 ms] eqn:Em.
  { injection H as <- _. destruct (Hcov e He) as [?|Hx]; [done|set_solver]. }
  rewrite <- Em in *. clear Em m0 ms. rewrite store_bind_ok in H. destruct H as (s2 & [] & Hw & H). rewrite store_bind_ok in H.
  destruct H as (s3 & [] & [= <- Hchk] & [= <- _]).
  destruct (decide (digest e.1 ∈ digest <$> missing.*1)) as [Hin|Hout].
  - apply list_elem_of_fmap in Hin as (o & Hd' & Ho). apply list_elem_of_fmap in Ho as (e' & -> & He').
    assert (e = e') as -> by (apply Hn; auto). apply try_for_each_ok in Hchk. rewrite list.Forall_forall in Hchk.
    specialize (Hchk e' He'). unfold check_packed in Hchk. rewrite result_bind_ok in Hchk. destruct Hchk as (x & Hx & Hg).
    unfold corrupt in Hg. rewrite guard_ok, negb_false_iff, bool_decide_eq_true in Hg. destruct Hg as [-> _]. exact Hx.
  - destruct (Hcov e He) as [Hs|Hx]; [|done]. apply write_pack_keeps in Hw as [Hk _]; [|done]. by eapply keeps_read.
Qed.

(** Publication of a batch is durable and exact.  When [put_batch] returns, its
    references are the ones of the published bytes, in the order given, and every
    object of the batch reads back as published: those the catalog already served
    because writing the pack changes no other location and no existing file, the
    others because the pack was read back before it was acknowledged.  This holds
    whatever other processes published and whatever snapshot maintenance was due,
    for a catalog in memory that is well formed (the one of a new process is). *)
Theorem put_batch_reads_back s l s' refs :
  memory_ok s -> no_collision (prepare <$> l) -> Forall (fun e => vlen e.2 <= usize_max) l ->
  put_batch receipt_matches receipt_bytes lookup_publish s l = (s', Ok refs) ->
  Forall2 (fun e o => for_bytes e.1 e.2 = Ok o /\ read sync s' o (vlen e.2) = (s', Ok e.2)) l refs.
Proof.
  intros Hm Hn Hlen H. destruct (put_batch_references _ _ _ _ H) as [-> Hrefs]. pose proof (put_batch_serves _ _ _ _ Hm Hn H) as Hs. clear H Hn.
  induction l as [|e l IH]; [constructor|]. rewrite fmap_cons in Hs. rewrite !fmap_cons in Hrefs |- *.
  apply list.Forall_cons in Hlen as [Hl Hlen]. apply list.Forall_cons in Hs as [Hs Hss]. apply list.Forall2_cons in Hrefs as [Hr Hrs].
  constructor; [|by apply IH]. split; [done|]. by eapply served_reads.
Qed.
End ReadBack.

(** The store with packs implements the interface of the store. *)
Section BatchInterface.
Context {P : Primitives} {L : PrimitivesLaws P} {R : JsonReader}.
Context (receipt_matches : CasStore -> string -> PackManifest -> bool).
Context (receipt_bytes : CasStore -> string -> PackManifest -> list byte).
Context (lookup_publish : BTreeMap string (list byte) -> CatalogSnapshot -> string -> BTreeMap string (list byte)).
Notation sync := (sync_catalog_locked receipt_matches receipt_bytes lookup_publish).

Definition pack_ops : CasOps CasStore := cas_ops sync.
Definition pack_batch_ops : CasBatchOps CasStore :=
  {| cas_put_batch := put_batch receipt_matches receipt_bytes lookup_publish |}.

Lemma pack_laws : @CasLaws CasStore P pack_ops.
Proof. apply cas_laws. Qed.
Lemma pack_batch_laws : @CasBatchLaws CasStore P pack_batch_ops.
Proof. split. intros s l s' refs H. by apply put_batch_references in H as [_ H]. Qed.
End BatchInterface.

Module BatchExample.
(** No receipt is ever found, no lookup file is ever written. *)
Definition receipt_matches (s : CasStore) (component : string) (m : PackManifest) : bool := false.
Definition receipt_bytes (s : CasStore) (component : string) (m : PackManifest) : list byte := [].
Definition lookup_publish (dir : BTreeMap string (list byte)) (snapshot : CatalogSnapshot) (d : string) : BTreeMap string (list byte) := dir.
Definition batch : list (string * list byte) := [("test/1", [x01; x02]); ("test/1", []); ("test/1", [x01; x02])].
Definition publish := put_batch (P := toy) (R := toy_reader) receipt_matches receipt_bytes lookup_publish.
Definition sync := sync_catalog_locked (P := toy) (R := toy_reader) receipt_matches receipt_bytes lookup_publish.
Definition published : CasStore * Res (list CasObject) := publish empty_store batch.
Definition refs : list CasObject := ok_or_else [] published.2.
Lemma empty_memory : memory_ok (P := toy) empty_store.
Proof. intros _. split; [apply default_state_inv|constructor]. Qed.
Lemma publish_succeeds : is_ok published.2 = true.
Proof. vm_compute. reflexivity. Qed.
Lemma published_ok : published = (published.1, Ok refs).
Proof. exact (succeeds published [] published.1 eq_refl publish_succeeds). Qed.
End BatchExample.

Lemma put_batch_reads_back_witness :
  Forall2 (fun e o => for_bytes (P := toy) e.1 e.2 = Ok o /\
    read (P := toy) BatchExample.sync BatchExample.published.1 o (vlen e.2) = (BatchExample.published.1, Ok e.2))
    BatchExample.batch BatchExample.refs.
Proof.
  apply (put_batch_reads_back (P := toy) (R := toy_reader) BatchExample.receipt_matches
    BatchExample.receipt_bytes BatchExample.lookup_publish empty_store BatchExample.batch BatchExample.published.1 BatchExample.refs).
  - apply BatchExample.empty_memory.
  - apply (bool_decide_eq_true_1 _). vm_compute. reflexivity.
  - repeat constructor; vm_compute; discriminate.
  - rewrite <- BatchExample.published_ok. unfold BatchExample.published, BatchExample.publish. reflexivity.
Defined.
