(* ===== verification/CatalogDurable.v ===== *)
(** * What a process publishes survives it

    A catalog in memory is [durable] when the disk spells it.  Synchronizing,
    publishing a batch and maintaining snapshots keep a durable catalog durable; a
    new process then serves what the old one acknowledged. *)

From stdpp Require Import gmap.
From S2P Require Import Prelude Order Collections Text Json Canonical Instances JsonFormat JsonRead Paths Errors CasObject CasInterface.
From S2P Require Import Catalog CatalogTypes CatalogCodec CasStore CasCatalog CatalogAuthority CasBatch.
Open Scope N_scope.

(* --------------------------------------------------------------------- *)
(** ** The small documents are small *)

Lemma hex_plain s : str_all lower_hex_byte s = true -> str_all plain_byte s = true.
Proof.
  induction s as [|a s IH]; [done|]. cbn [str_all]. rewrite !andb_true_iff. intros [Ha Hs]. split; [|by apply IH].
  clear IH Hs. destruct a as [[] [] [] [] [] [] [] []]; revert Ha; vm_compute; congruence.
Qed.

(** Strings and documents of known size. *)
Definition short (s : string) : Prop := str_all plain_byte s = true /\ str_len s <= 80.
Lemma short_digest d c : digest_component d = Ok c -> short d.
Proof.
  intros H. pose proof (digest_component_lower _ _ H) as (Hh & _ & Hl). apply digest_component_ok in H. unfold digest_by_prefix in H.
  destruct (strip_prefix "sha256:" d) as [x|] eqn:Hx; [|done]. apply strip_prefix_spec in Hx as ->.
  destruct (_ && _); [|done]. injection H as ->. split.
  - rewrite str_all_app, (hex_plain _ Hh). done.
  - unfold str_len in *. rewrite str_length_app. cbn [String.length]. lia.
Qed.
Lemma short_snapshot_name d c : digest_component d = Ok c -> short (c +:+ ".snapshot").
Proof.
  intros H. pose proof (digest_component_lower _ _ H) as (Hh & _ & Hl). split.
  - rewrite str_all_app, (hex_plain _ Hh). done.
  - unfold str_len in *. rewrite str_length_app. cbn [String.length]. lia.
Qed.

Section Sizes.
Context {P : Primitives} {W : WriterLaws P}.

Definition compact (v : Value) : Prop := vlen (to_vec v) <= 100.
Lemma compact_string s : short s -> compact (JString s).
Proof. intros [Hp Hl]. unfold compact. rewrite plain_len by done. lia. Qed.
Lemma compact_natural n : n <= u64_max -> compact (JNumber (PosInt n)).
Proof.
  intros Hn. unfold compact. rewrite to_vec_natural, as_bytes_len by done. unfold str_len. pose proof (decimal_length n). lia.
Qed.
Lemma compact_null : compact JNull.
Proof. unfold compact. rewrite to_vec_null. vm_compute. discriminate. Qed.

Lemma compact_object m : Forall (fun e => compact (JString e.1) /\ compact e.2) m -> vlen (to_vec (JObject m)) <= 2 + 202 * vlen m.
Proof.
  intros Hm. rewrite to_vec_object, !vlen_app, join_bytes_len, !as_bytes_len. change (str_len ",") with 1. change (str_len "{") with 1.
  change (str_len "}") with 1. unfold vlen at 1. rewrite length_fmap. fold (vlen m).
  enough (total_len ((fun e => to_vec (JString e.1) ++ as_bytes ":" ++ to_vec e.2) <$> m) <= 201 * vlen m) by lia.
  unfold compact in Hm. induction Hm as [|e m [Hk Hv] Hm IH]; [done|]. rewrite fmap_cons, vlen_cons. cbn [total_len foldr].
  rewrite !vlen_app, as_bytes_len. change (str_len ":") with 1. fold (total_len ((fun e => to_vec (JString e.1) ++ as_bytes ":" ++ to_vec e.2) <$> m)).
  lia.
Qed.

Lemma compact_opt o : opt_digest o -> compact (opt_string_value o).
Proof.
  destruct o as [d|]; cbn; [|intros _; apply compact_null]. destruct (digest_component d) eqn:E; [|done]. intros _.
  by eapply compact_string, short_digest.
Qed.

Ltac compact_fields := repeat (apply list.Forall_cons; split; [split; cbn [fst snd]; [apply compact_string; split; [reflexivity|vm_compute; discriminate]|]|]);
  try apply list.Forall_nil; auto using compact_string, compact_natural, compact_opt.

Lemma head_bounded h : short (ch_schema h) -> short (ch_snapshot_name h) -> short (ch_snapshot_digest h) ->
  ch_snapshot_sequence h <= u64_max -> opt_digest (ch_last_record_digest h) ->
  vlen (value_bytes (catalog_head_value h)) <= MAX_CATALOG_HEAD_BYTES.
Proof.
  intros H1 H2 H3 H4 H5. unfold value_bytes. rewrite head_sorted. etransitivity; [apply compact_object; compact_fields|].
  vm_compute. discriminate.
Qed.
Lemma deferred_bounded d : short (cd_schema d) -> short (cd_base_snapshot_digest d) -> cd_base_snapshot_sequence d <= u64_max ->
  cd_deferred_sequence d <= u64_max -> cd_snapshot_bytes d <= u64_max ->
  vlen (value_bytes (catalog_deferred_value d)) <= MAX_CATALOG_DEFERRED_BYTES.
Proof.
  intros H1 H2 H3 H4 H5. unfold value_bytes. rewrite deferred_sorted. etransitivity; [apply compact_object; compact_fields|].
  vm_compute. discriminate.
Qed.
End Sizes.

(* --------------------------------------------------------------------- *)
(** ** Admitted manifests have their types *)

Section Widths.
Context {P : Primitives}.

Lemma admitted_sized name m : validate_pack_manifest name m = Ok tt -> manifest_sized m.
Proof.
  intros H. pose proof (pack_ranges_disjoint _ _ H) as (Hall & _ & Hu).
  assert (pm_data_size m <= u64_max) as Hs.
  { destruct (pm_objects m) eqn:E; [|by apply Hu]. unfold validate_pack_manifest in H. rewrite E in H. ok_inv H.
    cbn in Hok1. injection Hok1 as <-. apply negb_false_iff, N.eqb_eq in Hif1. rewrite <- Hif1. vm_compute. discriminate. }
  split; [done|]. eapply list.Forall_impl; [exact Hall|]. intros e He. unfold entry_sized. cbn in He. lia.
Qed.

Lemma typed_snapshot_sized st : catalog_typed st -> sequence st <= u64_max -> snapshot_sized (snapshot_from_catalog_state st).
Proof.
  intros [_ Ha] Hs. split; [done|]. unfold snapshot_from_catalog_state. cbn [cs_packs]. apply list.Forall_fmap.
  eapply list.Forall_impl; [exact Ha|]. intros [n m] Hm. by eapply admitted_sized.
Qed.
End Widths.

(* --------------------------------------------------------------------- *)
(** ** Records that were applied before *)

Section Replays.
Context {P : Primitives} {R : JsonReader}.
Notation parse := (from_slice decode_catalog_record).

Lemma apply_step_skips dir name st0 st0' st : apply_step parse dir name st0 = (st0', Ok tt) -> sequence st0' <= sequence st ->
  apply_step parse dir name st = (st, Ok tt).
Proof.
  intros H Hle. destruct name as [name|]; [|done]. pose proof H as (r & c & _ & _ & Hb & _)%apply_step_cases.
  unfold apply_step in *. destruct (read_record parse dir (Some name)) as [[[r' d] len]|] eqn:Hr; [|done].
  assert (cr_sequence r' <= sequence st0') as Hr'.
  { destruct (N.leb_spec (cr_sequence r') (sequence st0)) as [?|?]; [by injection H as <-|]. unfold corrupt in H. rewrite store_guard_ok in H.
    destruct H as [_ H]. destruct (apply_catalog_record st0 r') as [st1 [[]|]]; [|done]. by injection H as <-. }
  by rewrite (proj2 (N.leb_le _ _)) by lia.
Qed.

(** Replaying a journal again changes nothing. *)
Lemma apply_all_skips dir names : forall st0 st0' st, Forall (fun n => n <> None) names ->
  apply_all parse dir names st0 = (st0', Ok tt) -> sequence st0' <= sequence st -> apply_all parse dir names st = (st, Ok tt).
Proof.
  induction names as [|n names IH]; intros st0 st0' st Hn; cbn [apply_all]; [done|]. inversion_clear Hn as [|? ? Hn1 Hns].
  destruct (apply_step parse dir n st0) as [st1 [[]|]] eqn:E; [|done]. intros H Hle.
  pose proof (apply_all_behind _ _ _ _ Hns H) as [Hmono _]. rewrite (apply_step_skips _ _ _ _ st E) by lia. by eapply IH.
Qed.

Lemma filter_insert_last {V} (p : string -> bool) k (v : V) (m : BTreeMap string V) : bmap_wf m -> p k = true ->
  Forall (fun k' => lt_ord k' k) (List.filter p m.*1) ->
  List.filter p (bmap_insert k v m).*1 = List.filter p m.*1 ++ [k].
Proof.
  intros Hw Hp. induction m as [|[k' v'] m IH]; [cbn; by rewrite Hp|]. rewrite fmap_cons. cbn [List.filter bmap_insert fst].
  pose proof Hw as Hw'. unfold bmap_wf in Hw'. rewrite fmap_cons in Hw'. apply StronglySorted_inv in Hw' as [Hw1 Hlt]. cbn [fst] in Hlt.
  assert (Forall (fun k' => lt_ord k' k) (List.filter p m.*1) -> lt_ord k k' -> List.filter p m.*1 = []) as Hnil.
  { intros Hall Hkk. destruct (List.filter p m.*1) as [|j l] eqn:E; [done|]. exfalso. apply list.Forall_cons in Hall as [Hj _].
    assert (In j (List.filter p m.*1)) as Hin by (rewrite E; by left). apply List.filter_In in Hin as [Hin _]. apply list_elem_of_In in Hin.
    rewrite list.Forall_forall in Hlt. apply (lt_asym k j); [|done]. eapply lt_trans; [exact Hkk|by apply Hlt]. }
  destruct (p k') eqn:Ek'.
  - intros Hall. apply list.Forall_cons in Hall as [Hk Hall]. destruct (cmp k k') eqn:C.
    + apply cmp_eq_iff in C as ->. by apply lt_irrefl in Hk.
    + by apply lt_asym in C.
    + rewrite fmap_cons. cbn [List.filter fst]. rewrite Ek'. cbn. f_equal. by apply IH.
  - intros Hall. destruct (cmp k k') eqn:C.
    + apply cmp_eq_iff in C as ->. congruence.
    + rewrite !fmap_cons. cbn [List.filter fst]. rewrite Hp, Ek', (Hnil Hall C). done.
    + rewrite fmap_cons. cbn [List.filter fst]. rewrite Ek'. by apply IH.
Qed.
End Replays.

(* --------------------------------------------------------------------- *)
(** ** Operations on a durable store *)

Section Operations.
Context {P : Primitives} {R : JsonReader} {L : PrimitivesLaws P} {W : WriterLaws P} {RL : ReaderLaws P R}.
Context (receipt_matches : CasStore -> string -> PackManifest -> bool).
Context (receipt_bytes : CasStore -> string -> PackManifest -> list byte).
Context (lookup_publish : BTreeMap string (list byte) -> CatalogSnapshot -> string -> BTreeMap string (list byte)).
Hypothesis lookup_publish_keeps : forall dir snapshot d name, has_extension "snapshot" name = true ->
  bmap_get name (lookup_publish dir snapshot d) = bmap_get name dir.
Notation sync := (sync_catalog_locked receipt_matches receipt_bytes lookup_publish).
Notation publish := (publish_catalog_snapshot_locked lookup_publish).
Notation maintain := (maybe_snapshot_catalog_locked lookup_publish).

(** Synchronizing a durable store succeeds and leaves its catalog. *)
Lemma sync_durable s head base final : durable_by s head base final ->
  exists s', sync s = (s', Ok tt) /\ durable_by s' head base final /\ same_files s s'.
Proof.
  intros Hs. pose proof Hs as [Ha Hd Hb Hm Hl]. destruct (durable_ready _ _ _ _ Hs) as (Hi & Ht & _ & Hle & Hsd & _).
  rewrite (sync_start _ _ _ s head) by (done || apply Ha).
  assert (needs_snapshot s head = false) as ->.
  { unfold needs_snapshot. rewrite Hi, Hl. cbn. by apply N.ltb_ge. }
  cbn [store_bind]. eapply (replay_settles s head base final (pack_catalog s)); try done; [apply Ht|].
  eapply apply_all_skips; [apply names_present|apply (au_final _ _ _ _ Ha)|]. by rewrite Hm.
Qed.

Lemma snapshot_name_extension c : str_all lower_hex_byte c = true -> c <> EmptyString -> has_extension "snapshot" (c +:+ ".snapshot") = true.
Proof.
  intros Hc Hne. unfold has_extension. apply bool_decide_eq_true. apply (dotted_name c "snapshot"); [done|done|].
  intros E. apply (f_equal String.length) in E. rewrite !str_length_app in E. cbn in E. lia.
Qed.

Definition head_of (snapshot : CatalogSnapshot) (component : string) : CatalogHead :=
  {| ch_schema := CATALOG_HEAD_SCHEMA; ch_snapshot_name := component +:+ ".snapshot";
     ch_snapshot_digest := hash_bytes (catalog_bytes (catalog_snapshot_value snapshot));
     ch_snapshot_sequence := cs_sequence snapshot; ch_last_record_digest := cs_last_record_digest snapshot |}.

(** What the reader of a written head and of its snapshot finds. *)
Lemma head_written s snapshot component : cs_sequence snapshot <= u64_max -> opt_digest (cs_last_record_digest snapshot) ->
  digest_component (hash_bytes (catalog_bytes (catalog_snapshot_value snapshot))) = Ok component ->
  catalog_head s = Some (value_bytes (catalog_head_value (head_of snapshot component))) ->
  read_catalog_head s = Ok (head_of snapshot component).
Proof.
  intros Hs Hl Hc Hh. pose proof (digest_component_lower _ _ Hc) as (Hhex & Hne & _). unfold read_catalog_head. rewrite Hh. cbn [bounded].
  rewrite (proj2 (N.ltb_ge _ _)) by (apply head_bounded; try done; [by eapply short_snapshot_name|by eapply short_digest]).
  cbn [ok_or result_bind]. rewrite read_head_written by done. cbn [ok_or result_bind].
  assert (ch_schema (head_of snapshot component) = CATALOG_HEAD_SCHEMA) as -> by done. rewrite str_neqb_refl. rewrite bool_decide_eq_true_2 by done.
  cbn [ch_snapshot_digest head_of ch_snapshot_name]. rewrite Hc, snapshot_name_extension by done. cbn [negb orb is_err result_bind]. by rewrite str_neqb_refl.
Qed.

Lemma snapshot_written s snapshot component : snapshot_sized snapshot -> cs_schema snapshot = CATALOG_SNAPSHOT_SCHEMA ->
  vlen (catalog_bytes (catalog_snapshot_value snapshot)) <= MAX_CATALOG_SNAPSHOT_BYTES ->
  bmap_get (component +:+ ".snapshot") (catalog_snapshots s) = Some (catalog_bytes (catalog_snapshot_value snapshot)) ->
  read_snapshot s (head_of snapshot component) = Ok snapshot.
Proof.
  intros Hs Hsch Hb Hg. unfold read_snapshot. cbn [head_of ch_snapshot_name ch_snapshot_digest ch_snapshot_sequence ch_last_record_digest].
  rewrite Hg. unfold bounded. rewrite (proj2 (N.ltb_ge _ _)) by done. cbn [ok_or result_bind]. rewrite str_neqb_refl, read_snapshot_written by done.
  cbn [ok_or result_bind]. rewrite Hsch, str_neqb_refl, N.eqb_refl, !bool_decide_eq_true_2 by done. done.
Qed.

Lemma snapshot_position snapshot d base : catalog_state_from_snapshot snapshot d = Ok base ->
  sequence base = cs_sequence snapshot /\ last_record_digest base = cs_last_record_digest snapshot.
Proof.
  unfold catalog_state_from_snapshot. rewrite result_bind_ok. intros (acc & _ & H). rewrite result_bind_ok in H. by destruct H as (l & _ & [= <-]).
Qed.

(** Publishing a snapshot that covers the journal makes it the authority. *)
Lemma publish_establishes s snapshot s' : snapshot_sized snapshot -> cs_schema snapshot = CATALOG_SNAPSHOT_SCHEMA ->
  opt_digest (cs_last_record_digest snapshot) -> bmap_wf (catalog_records s) ->
  (forall st, sequence st = cs_sequence snapshot -> journal s st = (st, Ok tt)) ->
  (initialized (pack_catalog s) = true -> sequence (pack_catalog s) <= cs_sequence snapshot) ->
  publish s snapshot = (s', Ok tt) ->
  exists head base, durable_by s' head base base /\ same_files s s' /\
    catalog_state_from_snapshot snapshot (ch_snapshot_digest head) = Ok base.
Proof.
  intros Hsz Hsch Hld Hwf Hj Hseq H. unfold publish_catalog_snapshot_locked, resource_limit in H. rewrite store_guard_ok, N.ltb_ge in H.
  destruct H as [Hb H]. rewrite store_bind_ok in H. destruct H as (s0 & component & [= <- Hc] & H).
  rewrite store_bind_ok in H. destruct H as (s1 & [] & Hcr & H).
  assert (s1 = set_snapshots s (catalog_snapshots s1) /\
    bmap_get (component +:+ ".snapshot") (catalog_snapshots s1) = Some (catalog_bytes (catalog_snapshot_value snapshot))) as [Hs1 Hg].
  { destruct (bmap_get _ (catalog_snapshots s)) as [existing|] eqn:E.
    - unfold corrupt in Hcr. rewrite store_guard_ok, negb_false_iff, bool_decide_eq_true in Hcr. destruct Hcr as [-> [= <-]]. by destruct s.
    - injection Hcr as <-. split; [done|]. cbn. by rewrite bmap_get_insert_eq. }
  fold (head_of snapshot component) in H. rewrite store_bind_ok in H. destruct H as (s2 & [] & Had & H).
  set (head := head_of snapshot component) in *.
  assert (exists base, catalog_state_from_snapshot snapshot (ch_snapshot_digest head) = Ok base /\
    s2 = set_lookup (set_catalog (set_head s1 (Some (value_bytes (catalog_head_value head)))) base) None) as (base & Hbase & Hs2).
  { assert (negb (initialized (pack_catalog s1)) || (sequence (pack_catalog s1) <=? cs_sequence snapshot) = true) as Hg0.
    { rewrite Hs1. cbn. destruct (initialized (pack_catalog s)); [|done]. apply orb_true_iff. right. apply N.leb_le. by apply Hseq. }
    cbn [set_head pack_catalog] in Had. rewrite Hg0 in Had.
    destruct (catalog_state_from_snapshot snapshot _) as [c|] eqn:E; [|done]. injection Had as <-. by exists c. }
  set (s3 := set_snapshots s2 _) in H.
  assert (authority s3 head base base) as Ha.
  { assert (has_extension "snapshot" (component +:+ ".snapshot") = true) as Hext.
    { pose proof (digest_component_lower _ _ Hc) as (? & ? & _). by apply snapshot_name_extension. }
    split.
    - apply head_written; [apply Hsz|done|done|]. by unfold s3; rewrite Hs2.
    - unfold base_of, head. rewrite snapshot_written; [exact Hbase|done|done|done|]. unfold s3. cbn [set_snapshots catalog_snapshots].
      rewrite lookup_publish_keeps by done. by rewrite Hs2.
    - unfold journal, record_names, record_directory in *. unfold s3. rewrite Hs2, Hs1. cbn. apply Hj. by apply snapshot_position in Hbase as [-> _].
    - unfold s3. rewrite Hs2, Hs1. done. }
  destruct (prune_authority s3 head base base Ha (head_current_kept _ _ (au_head _ _ _ _ Ha))) as (s4 & Hp & Ha4 & Hs4).
  change (prune_catalog_metadata_locked s3 (component +:+ ".snapshot") (cs_sequence snapshot)) with
    (prune_catalog_metadata_locked s3 (ch_snapshot_name head) (ch_snapshot_sequence head)) in H. rewrite Hp in H.
  cbn [store_bind] in H. injection H as <-. exists head, base. unfold prune_redundant_pack_metadata_locked. rewrite prune_metadata_frame.
  assert (pack_catalog s4 = base /\ lookup s4 = None /\ same_files s s4) as (Hcat & Hlk & Hfs) by (by rewrite Hs4; unfold s3; rewrite Hs2, Hs1).
  split_and!; [|done|done]. split; [eapply authority_frame; [exact Ha4|done..]|done| |by cbn; rewrite Hcat|done].
  by apply snapshot_position in Hbase as [_ ->].
Qed.

Lemma apply_all_digest dir names : forall st st', opt_digest (last_record_digest st) ->
  apply_all (from_slice decode_catalog_record) dir names st = (st', Ok tt) -> opt_digest (last_record_digest st').
Proof.
  induction names as [|n names IH]; intros st st' Hd; cbn [apply_all]; [by intros [= <-]|].
  destruct (apply_step _ dir n st) as [st1 [[]|]] eqn:E; [|done]. apply IH. clear IH. revert E. unfold apply_step.
  destruct (read_record _ dir n) as [[[r d] len]|] eqn:Hr; [|done]. destruct (_ <=? _); [by intros [= <-]|].
  unfold corrupt. rewrite store_guard_ok. intros [_ E]. destruct (apply_catalog_record st r) as [st2 [[]|]]; [|done]. injection E as <-. cbn.
  unfold read_record in Hr. rewrite result_bind_ok in Hr. destruct Hr as (name & _ & Hr). rewrite result_bind_ok in Hr. destruct Hr as (bytes & _ & Hr).
  rewrite result_bind_ok in Hr. destruct Hr as (r' & _ & Hr). unfold corrupt in Hr. rewrite guard_ok, result_bind_ok in Hr.
  destruct Hr as (_ & e & _ & Hr). rewrite guard_ok in Hr. destruct Hr as (_ & [= _ <- _]).
  match goal with |- is_ok (digest_component (hash_bytes ?b)) = true => destruct (digest_component_of_digest (hash_bytes b)) as [c ->] end;
    [apply hash_bytes_digest|done].
Qed.

Lemma durable_digest s head base final : durable_by s head base final -> opt_digest (last_record_digest (pack_catalog s)).
Proof. intros [Ha _ Hb Hm _]. rewrite Hm. eapply apply_all_digest; [exact Hb|apply (au_final _ _ _ _ Ha)]. Qed.

(** The snapshot of a catalog can be written. *)
Definition catalog_fits (c : CatalogState) : Prop := vlen (catalog_bytes (catalog_snapshot_value (snapshot_from_catalog_state c))) <= u64_max.
(** What maintenance does not change. *)
Record maintained (s s' : CasStore) : Prop := mkMaintained {
  mt_snapshot : snapshot_from_catalog_state (pack_catalog s') = snapshot_from_catalog_state (pack_catalog s);
  mt_files : same_files s s'
}.

Lemma publish_durable s s' : durable s -> publish s (snapshot_from_catalog_state (pack_catalog s)) = (s', Ok tt) ->
  durable s' /\ maintained s s'.
Proof.
  intros (head & base & final & Hs) H. pose proof Hs as [Ha _ _ Hm _]. destruct (durable_ready _ _ _ _ Hs) as (_ & Ht & Hu & _).
  destruct (publish_establishes s (snapshot_from_catalog_state (pack_catalog s)) s') as (head' & base' & Hs' & Hf & Hb); try done.
  - by apply typed_snapshot_sized.
  - by eapply durable_digest.
  - apply Ha.
  - intros st Hst. eapply apply_all_skips; [apply names_present|apply (au_final _ _ _ _ Ha)|]. rewrite Hst. cbn. by rewrite Hm.
  - split; [by exists head', base', base'|]. split; [|done]. destruct Ht as [Hinv Hadm].
    destruct (snapshot_round_trip _ (ch_snapshot_digest head') Hinv Hadm) as (c & Hc & Hp & _ & Hseq & Hl & _).
    assert (c = base') as -> by congruence. rewrite (du_memory _ _ _ _ Hs'). unfold snapshot_from_catalog_state. by rewrite Hp, Hseq, Hl.
Qed.

Lemma defer_durable s s' : durable s -> catalog_fits (pack_catalog s) ->
  MAX_CATALOG_SNAPSHOT_BYTES < vlen (catalog_bytes (catalog_snapshot_value (snapshot_from_catalog_state (pack_catalog s)))) ->
  defer_catalog_snapshot_locked s (snapshot_from_catalog_state (pack_catalog s))
    (vlen (catalog_bytes (catalog_snapshot_value (snapshot_from_catalog_state (pack_catalog s))))) = (s', Ok tt) ->
  durable s' /\ maintained s s'.
Proof.
  intros (head & base & final & Hs) Hfit Hbig H. pose proof Hs as [Ha Hd Hb Hm Hl]. destruct (durable_ready _ _ _ _ Hs) as (_ & Ht & Hu & Hle & Hsd & Hss).
  unfold defer_catalog_snapshot_locked in H. rewrite Hsd in H. cbn [ok_or pure_on store_bind] in H. rewrite Hss in H. injection H as <-.
  set (len := vlen _) in *. split; [|split; [done|done]]. exists head, base, final.
  destruct (head_snapshot_name _ _ (au_head _ _ _ _ Ha)) as (_ & c & _ & Hc). split; try done; [eapply authority_frame; [exact Ha|done..]|].
  cbn [update_catalog set_catalog set_deferred_file catalog_deferred]. unfold read_deferral, bounded. set (marker := mkCatalogDeferred _ _ _ _ _).
  assert (ch_snapshot_sequence head <= u64_max) as Hhu by lia.
  rewrite (proj2 (N.ltb_ge _ _)) by (apply deferred_bounded; try done; by eapply short_digest). cbn [ok_or result_bind].
  rewrite read_deferred_written by done. cbn [ok_or result_bind]. cbn [marker cd_schema cd_base_snapshot_digest cd_snapshot_bytes cd_deferred_sequence cd_base_snapshot_sequence].
  rewrite str_neqb_refl, bool_decide_eq_true_2, Hc by done. cbn [is_err negb orb].
  assert ((len =? 0) = false) as -> by (apply N.eqb_neq; unfold MAX_CATALOG_SNAPSHOT_BYTES in Hbig; lia).
  destruct (_ <=? _); [done|]. rewrite str_neqb_refl, N.eqb_refl. cbn [negb orb cs_sequence snapshot_from_catalog_state].
  by rewrite (proj2 (N.ltb_ge _ _)) by (by rewrite Hm).
Qed.

Lemma maintain_durable force s s' : durable s -> catalog_fits (pack_catalog s) -> maintain s force = (s', Ok tt) -> durable s' /\ maintained s s'.
Proof.
  intros Hs Hfit. unfold maybe_snapshot_catalog_locked. destruct (_ && _); [by intros [= <-]|]. destruct (_ && _); [by intros [= <-]|].
  destruct (N.ltb_spec MAX_CATALOG_SNAPSHOT_BYTES (vlen (catalog_bytes (catalog_snapshot_value (snapshot_from_catalog_state (pack_catalog s)))))).
  - by apply defer_durable.
  - by apply publish_durable.
Qed.

(** A marker that holds at a position holds at every later one. *)
Lemma read_deferral_later file head n m : is_ok (read_deferral file head n) = true -> n <= m -> is_ok (read_deferral file head m) = true.
Proof.
  intros H Hle. unfold read_deferral in *. destruct file as [b|]; [|done]. destruct (ok_or _ _); [|done]. cbn [result_bind] in *.
  destruct (ok_or _ _) as [marker|]; [|done]. cbn [result_bind] in *. destruct (_ || _); [done|]. destruct (_ <=? _); [done|].
  destruct (str_neqb _ _); [done|]. destruct (negb _); [done|]. cbn [orb] in *. destruct (N.ltb_spec n (cd_deferred_sequence marker)); [done|].
  by rewrite (proj2 (N.ltb_ge _ _)) by lia.
Qed.

(** The name of the next record is not taken, and comes after all others. *)
Lemma next_name_last s head base final n c : durable_by s head base final -> sequence (pack_catalog s) < n -> n <= u64_max ->
  Forall (fun k => lt_ord k (record_name n c)) (record_names s) /\ bmap_get (record_name n c) (catalog_records s) = None.
Proof.
  intros [Ha _ _ Hm _] Hlt Hn. rewrite Hm in Hlt. pose proof (au_final _ _ _ _ Ha) as Hf. unfold journal in Hf.
  destruct (apply_all_behind _ _ _ _ (names_present s) Hf) as [_ Hall].
  assert (Forall (fun k => lt_ord k (record_name n c)) (record_names s)) as Hb.
  { apply list.Forall_forall. intros k Hk. rewrite list.Forall_forall in Hall.
    destruct (Hall (Some k)) as (m & d & [= ->] & Hm' & Hle); [apply list_elem_of_fmap; eauto|]. apply record_name_order; lia. }
  split; [done|]. destruct (bmap_get _ _) as [b|] eqn:E; [|done]. exfalso.
  rewrite list.Forall_forall in Hb. apply (lt_irrefl (record_name n c)), Hb. unfold record_names. apply list_elem_of_In, List.filter_In.
  split; [|by apply record_name_extension]. apply list_elem_of_In. unfold bmap_keys. apply bmap_get_elem in E; [|apply Ha].
  apply list_elem_of_fmap. by eexists (_, _).
Qed.

(** A record written after the journal extends it. *)
Lemma journal_extends s head base final record c : durable_by s head base final ->
  cr_sequence record = sequence (pack_catalog s) + 1 -> cr_previous_record_digest record = last_record_digest (pack_catalog s) ->
  cr_schema record = CATALOG_RECORD_SCHEMA -> cr_sequence record <= u64_max ->
  let bytes := catalog_bytes (catalog_record_value record) in vlen bytes <= MAX_CATALOG_RECORD_BYTES ->
  forall component, digest_component (hash_bytes bytes) = Ok component ->
  apply_catalog_record (pack_catalog s) record = (c, Ok tt) ->
  exists final', durable_by (set_catalog (set_records s (bmap_insert (record_name (cr_sequence record) component) bytes (catalog_records s)))
    (set_tail c (cr_sequence record) (hash_bytes bytes) (vlen bytes))) head base final'.
Proof.
  intros Hs Hseq Hprev Hsch Hu bytes Hb component Hc Hap. pose proof Hs as [Ha Hd Hbd Hm Hl]. pose proof (apply_proper _ _ Hm record record eq_refl) as Hp.
  pose proof (sequence_proper _ _ Hm) as Hsq. pose proof (last_record_digest_proper _ _ Hm) as Hlr.
  rewrite Hap in Hp. destruct (apply_catalog_record final record) as [c0 o] eqn:Ef. destruct Hp as [Hc0 Ho]. cbn in Hc0, Ho. subst o.
  set (name := record_name (cr_sequence record) component). set (final' := set_tail c0 (cr_sequence record) (hash_bytes bytes) (vlen bytes)).
  destruct (next_name_last s head base final (cr_sequence record) component Hs ltac:(lia) Hu) as [Hlast Hnone]. fold name in Hlast, Hnone.
  exists final'. set (s' := set_catalog _ _). pose proof Ha as [H1 H2 H3 H4].
  assert (record_names s' = record_names s ++ [name]) as Hnames.
  { unfold record_names, bmap_keys. cbn [s' set_catalog set_records catalog_records]. apply filter_insert_last; [done|by apply record_name_extension|done]. }
  assert (bmap_wf (catalog_records s')) as Hwf by (by apply bmap_insert_wf).
  assert (manifest_sized (cp_manifest (cr_pack record))) as Hsz.
  { unfold apply_catalog_record in Hap. destruct (validate_pack_manifest _ _) as [[]|] eqn:E; [|done]. by eapply admitted_sized. }
  assert (read_record (from_slice decode_catalog_record) (record_directory s') (Some name) = Ok (record, hash_bytes bytes, vlen bytes)) as Hread.
  { unfold read_record. cbn [ok_or result_bind]. unfold record_directory. rewrite directory_get by done. cbn [s' set_catalog set_records catalog_records].
    rewrite bmap_get_insert_eq. cbn. rewrite (proj2 (N.leb_le _ _) Hb). cbn [ok_or result_bind]. unfold bytes at 1. rewrite read_record_written by done.
    cbn [ok_or result_bind]. rewrite Hsch, str_neqb_refl, bool_decide_eq_true_2 by done. cbn [negb orb]. fold bytes. unfold catalog_record_name. rewrite Hc. cbn [result_bind].
    fold (record_name (cr_sequence record) component). fold name. by rewrite str_neqb_refl. }
  split; [|by eapply read_deferral_later; [exact Hd|cbn; lia]|done| |done].
  - split; [done|by unfold base_of; rewrite (read_snapshot_frame s)| |done].
    unfold journal in *. rewrite Hnames, fmap_app, apply_all_app.
    rewrite (apply_all_dir (record_directory s) (record_directory s')).
    + rewrite H3. cbn [fmap list_fmap apply_all]. unfold apply_step. rewrite Hread.
      rewrite (proj2 (N.leb_gt _ _)) by lia. rewrite Hseq, Hprev, Hlr, Hsq, N.eqb_refl, bool_decide_eq_true_2 by done. cbn [negb orb].
      rewrite Ef. unfold final'. by rewrite Hseq, Hsq.
    + intros k Hk. apply list_elem_of_fmap in Hk as (k' & [= <-] & Hk). unfold record_directory. rewrite !directory_get by done. cbn.
      rewrite bmap_get_insert_ne; [done|]. intros Heq. rewrite list.Forall_forall in Hlast. apply (lt_irrefl name), Hlast. by rewrite Heq.
  - exact (set_tail_proper _ _ _ _ _ Hc0).
Qed.

Lemma durable_materialized s : durable s -> materialized s.
Proof. intros (head & base & final & Hs). destruct (durable_ready _ _ _ _ Hs) as (_ & Ht & _). split; [apply Hs|done]. Qed.

Lemma durable_frame s s' : durable s -> catalog_head s' = catalog_head s -> catalog_records s' = catalog_records s ->
  catalog_snapshots s' = catalog_snapshots s -> catalog_deferred s' = catalog_deferred s -> pack_catalog s' = pack_catalog s ->
  lookup s' = lookup s -> durable s'.
Proof.
  intros (head & base & final & [Ha Hd Hb Hm Hl]) E1 E2 E3 E4 E5 E6. exists head, base, final.
  split; [eapply authority_frame; [exact Ha|done|done|by rewrite E3]|by rewrite E4|done|by rewrite E5|congruence].
Qed.

Lemma append_durable s operation data_name manifest after s' : durable s -> (after = true -> catalog_fits (pack_catalog s')) ->
  append_catalog_record_locked lookup_publish s operation data_name manifest after = (s', Ok tt) -> durable s' /\ same_files s s'.
Proof.
  intros Hs Hfit H. pose proof Hs as (head & base & final & Hd). unfold append_catalog_record_locked, resource_limit in H.
  rewrite store_bind_ok in H. destruct H as (s0 & record & [= <- Hrec] & H). rewrite store_guard_ok, N.ltb_ge in H. destruct H as [Hb H].
  rewrite store_bind_ok in H. destruct H as (s0 & name & [= <- Hname] & H). rewrite store_bind_ok in H. destruct H as (s1 & [] & Hcr & H).
  unfold next_record in Hrec. rewrite result_bind_ok in Hrec. destruct Hrec as (n & Hn & Hrec).
  destruct (u64_checked_add _ 1) as [n'|] eqn:Ha; [|done]. injection Hn as ->. apply u64_checked_add_some in Ha as [-> Hu].
  assert (cr_sequence record = sequence (pack_catalog s) + 1 /\ cr_previous_record_digest record = last_record_digest (pack_catalog s) /\
    cr_schema record = CATALOG_RECORD_SCHEMA) as (Hseq & Hprev & Hsch) by (by injection Hrec as <-). clear Hrec.
  unfold catalog_record_name in Hname. rewrite result_bind_ok in Hname. destruct Hname as (component & Hcomp & [= <-]).
  fold (record_name (cr_sequence record) component) in Hcr.
  destruct (next_name_last s head base final (cr_sequence record) component Hd) as [_ Hnone]; [lia|lia|]. rewrite Hnone in Hcr. injection Hcr as <-.
  cbn [set_records pack_catalog] in H. destruct (apply_catalog_record (pack_catalog s) record) as [c [[]|]] eqn:Hap; [|done].
  destruct (journal_extends s head base final record c Hd Hseq) with (component := component) as [final' Hd']; try done; [lia|].
  set (s2 := set_catalog _ _) in *. assert (durable s2) as Hs2 by (by exists head, base, final').
  change (set_catalog _ _) with s2 in H. destruct after; [|by injection H as <-].
  apply maintain_durable in H as [? [_ ?]]; [done|done|]. apply maintain_snapshot in H; [|by apply durable_materialized].
  specialize (Hfit eq_refl). unfold catalog_fits in *. by rewrite <- H.
Qed.

Lemma write_pack_durable s objects s' : durable s -> catalog_fits (pack_catalog s) -> catalog_fits (pack_catalog s') ->
  write_pack receipt_matches receipt_bytes lookup_publish s objects = (s', Ok tt) -> durable s'.
Proof.
  intros Hs Hfit Hfit' H. unfold write_pack, resource_limit in H. rewrite store_bind_ok in H. destruct H as (s0 & entries & [= <- _] & H).
  rewrite store_guard_ok in H. destruct H as [_ H]. rewrite store_bind_ok in H. destruct H as (s0 & component & [= <- _] & H).
  rewrite store_bind_ok in H. destruct H as (s1 & [] & Hcap & H).
  assert (durable s1) as Hs1.
  { unfold ensure_catalog_add_capacity_locked in Hcap. destruct (next_record _ _ _ _); [|done]. destruct (tail_fits _ _); [by injection Hcap as <-|].
    rewrite store_bind_ok in Hcap. destruct Hcap as (s2 & [] & Hm & Hcap). destruct (tail_fits _ _); [|done]. injection Hcap as <-.
    by apply maintain_durable in Hm as [? _]. }
  rewrite store_bind_ok in H. destruct H as (s2 & [] & Hplace & H).
  assert (durable s2) as Hs2.
  { unfold place_pack in Hplace. destruct (bmap_contains_key _ _), (bmap_contains_key _ _).
    - by injection Hplace as <-.
    - rewrite store_bind_ok in Hplace. destruct Hplace as (s3 & [] & Hv & [= <-]). apply verify_data_frame in Hv. rewrite Hv. by eapply durable_frame.
    - destruct (bounded _ _); [|done]. unfold corrupt in Hplace. rewrite store_guard_ok in Hplace. destruct Hplace as [_ [= <-]]. by eapply durable_frame.
    - injection Hplace as <-. by eapply durable_frame. }
  rewrite store_bind_ok in H. destruct H as (s3 & m & Hver & H). apply verify_pair_frame in Hver.
  assert (durable s3) as Hs3 by (rewrite Hver; by apply (durable_frame s2)).
  rewrite store_bind_ok in H. destruct H as (s4 & [] & Happ & [= <-]). apply append_durable in Happ as [Hs4 _]; [|done|done]. by apply (durable_frame s4).
Qed.

Lemma put_batch_durable s l s' refs : durable s -> catalog_fits (pack_catalog s) -> catalog_fits (pack_catalog s') ->
  put_batch receipt_matches receipt_bytes lookup_publish s l = (s', Ok refs) -> durable s'.
Proof.
  intros Hs Hfit Hfit' H. unfold put_batch in H. rewrite store_bind_ok in H. destruct H as (s0 & [] & [= <- _] & H).
  destruct (prepare <$> l) as [|e pr]; [by injection H as <- _|]. rewrite store_bind_ok in H. destruct H as (s1 & [] & Hsync & H).
  pose proof Hs as (head & base & final & Hd). destruct (sync_durable _ _ _ _ Hd) as (s1' & Hsync' & Hd1 & _). rewrite Hsync in Hsync'. injection Hsync' as <-.
  assert (durable s1) as Hs1 by (by exists head, base, final).
  assert (catalog_fits (pack_catalog s1)) as Hfit1.
  { unfold catalog_fits in *. by rewrite (snapshot_from_proper _ _ (du_memory _ _ _ _ Hd1)), <- (snapshot_from_proper _ _ (du_memory _ _ _ _ Hd)). }
  rewrite store_bind_ok in H. destruct H as (s2 & [missing ds] & [= <- _] & H). cbn [fst] in H. destruct missing; [by injection H as <- _|].
  rewrite store_bind_ok in H. destruct H as (s2 & [] & Hw & H). rewrite store_bind_ok in H. destruct H as (s3 & [] & [= <- _] & [= <- _]).
  by eapply write_pack_durable.
Qed.

(** The first synchronization of a store without a catalog founds one. *)
Lemma bootstrap_sized s s' snapshot : bootstrap_catalog_snapshot receipt_matches receipt_bytes s = (s', Ok snapshot) ->
  snapshot_sized snapshot /\ cs_schema snapshot = CATALOG_SNAPSHOT_SCHEMA /\ cs_last_record_digest snapshot = None /\ cs_sequence snapshot = 0.
Proof.
  unfold bootstrap_catalog_snapshot. rewrite store_bind_ok. intros (s1 & verified & H & [= <- <-]). split_and!; try done. split; [done|]. cbn.
  assert (Forall (fun p => manifest_sized (cp_manifest p)) verified) as Hall.
  { refine (store_fold_inv _ (fun _ acc => Forall (fun p => manifest_sized (cp_manifest p)) acc) _ [] _ _ _ _ _ _ H); [|constructor].
    intros pre n s0 acc s2 acc' Hacc Hstep. rewrite store_bind_ok in Hstep. destruct Hstep as (s3 & m & Hv & [= _ <-]).
    apply Forall_app. split; [done|]. constructor; [|constructor]. cbn. clear -Hv. unfold verify_pack_pair, corrupt in Hv.
    rewrite store_bind_ok in Hv. destruct Hv as (s4 & b & [= <- _] & Hv). rewrite store_bind_ok in Hv. destruct Hv as (s4 & m' & [= <- _] & Hv).
    rewrite store_guard_ok in Hv. destruct Hv as [_ Hv]. rewrite store_bind_ok in Hv. destruct Hv as (s4 & c & [= <- _] & Hv).
    rewrite store_bind_ok in Hv. destruct Hv as (s4 & [] & [= <- Hm] & Hv). rewrite store_bind_ok in Hv. destruct Hv as (s4 & u & _ & [= _ <-]).
    by eapply admitted_sized. }
  rewrite list.Forall_forall in *. intros p Hp. apply Hall. by rewrite sort_by_perm in Hp.
Qed.

Lemma sync_founds s s' : catalog_head s = None -> initialized (pack_catalog s) = false -> bmap_wf (catalog_records s) ->
  sync s = (s', Ok tt) -> durable s'.
Proof.
  intros Hh Hi Hw H. pose proof H as H'. unfold sync_catalog_locked in H'. rewrite store_bind_ok in H'. destruct H' as (s1 & [] & He & _).
  assert (durable s1) as Hs1.
  { unfold ensure_head, corrupt in He. rewrite Hh, store_guard_ok, orb_false_iff in He. destruct He as [[_ Hr] He].
    rewrite store_bind_ok in He. destruct He as (s2 & snapshot & Hb & Hp). pose proof (bootstrap_frame _ _ _ _ _ Hb) as Hf.
    apply bootstrap_sized in Hb as (Hsz & Hsch & Hl & Hz).
    apply publish_establishes in Hp as (head & base & Hd & _); [by exists head, base, base|done|done|by rewrite Hl|by rewrite Hf| |by rewrite Hf; cbn; rewrite Hi].
    intros st _. unfold journal. assert (record_names s2 = []) as ->; [|done]. rewrite Hf. change (List.filter (has_extension "record") (bmap_keys (catalog_records s)) = []).
    clear -Hr. induction (bmap_keys (catalog_records s)) as [|k l IH]; [done|]. cbn in *. apply orb_false_iff in Hr as [-> Hr]. by apply IH. }
  pose proof Hs1 as (head & base & final & Hd). destruct (sync_durable _ _ _ _ Hd) as (s2 & Hs2 & Hd2 & _).
  assert (sync s = sync s1) as Heq.
  { unfold sync_catalog_locked. rewrite He. unfold ensure_head. destruct (catalog_head s1) eqn:E; [done|].
    pose proof (au_head _ _ _ _ (du_authority _ _ _ _ Hd)) as Hx. unfold read_catalog_head in Hx. by rewrite E in Hx. }
  rewrite Heq, Hs2 in H. injection H as <-. by exists head, base, final.
Qed.

(** Catalogs that are the same up to deferral serve the same objects. *)
Lemma same_serving s s' o max : pack_catalog s' ≡ pack_catalog s -> lookup s' = lookup s -> pack_files s' = pack_files s ->
  read_from_catalog s' o max = read_from_catalog s o max.
Proof. intros Hc Hl Hf. unfold read_from_catalog, catalog_location. by rewrite Hl, Hf, (locations_proper _ _ Hc). Qed.

Lemma sync_serving s s' o max : durable s -> sync s = (s', Ok tt) -> durable s' /\ read_from_catalog s' o max = read_from_catalog s o max.
Proof.
  intros (head & base & final & Hd) H. destruct (sync_durable _ _ _ _ Hd) as (s1 & Hs1 & Hd1 & _ & _ & Hf). rewrite H in Hs1. injection Hs1 as <-.
  split; [by exists head, base, final|]. apply same_serving; [|by rewrite (du_lookup _ _ _ _ Hd), (du_lookup _ _ _ _ Hd1)|done].
  rewrite (du_memory _ _ _ _ Hd1). symmetry. apply Hd.
Qed.
Lemma restart_serving s : durable s -> exists s', sync (forget s) = (s', Ok tt) /\ durable s' /\ pack_catalog s' ≡ pack_catalog s /\
  forall o max, read_from_catalog s' o max = read_from_catalog s o max.
Proof.
  intros (head & base & final & Hd). destruct (recovers receipt_matches receipt_bytes _ lookup_publish_keeps _ _ _ _ Hd) as (s' & Hs' & Hd' & _ & _ & Hf).
  assert (pack_catalog s' ≡ pack_catalog s) as Heq by (rewrite (du_memory _ _ _ _ Hd'); symmetry; apply Hd).
  exists s'. split_and!; [done|by exists head, base, final|done|]. intros o max. apply same_serving; [done| |done].
  by rewrite (du_lookup _ _ _ _ Hd), (du_lookup _ _ _ _ Hd').
Qed.

(** Batches keep what was served under other digests. *)
Lemma put_batch_keeps s l s' refs o max b : durable s ->
  put_batch receipt_matches receipt_bytes lookup_publish s l = (s', Ok refs) -> digest o ∉ digest <$> (prepare <$> l).*1 ->
  read_from_catalog s o max = Ok (Some b) -> read_from_catalog s' o max = Ok (Some b).
Proof.
  intros Hs H Hd Hr. unfold put_batch in H. rewrite store_bind_ok in H. destruct H as (s0 & [] & [= <- _] & H).
  destruct (prepare <$> l) as [|e pr] eqn:Ep; [by injection H as <- _|]. rewrite <- Ep in *. clear Ep. rewrite store_bind_ok in H. destruct H as (s1 & [] & Hsync & H).
  destruct (sync_serving s s1 o max Hs Hsync) as [Hs1 Hr1]. rewrite <- Hr1 in Hr.
  rewrite store_bind_ok in H. destruct H as (s2 & [missing ds] & [= <- Hc] & H). cbn [fst] in H. apply collect_ok in Hc as [Hf _ _]. cbn [fst] in Hf.
  destruct missing as [|m ms] eqn:Em; [by injection H as <- _|]. rewrite <- Em in *. clear Em.
  rewrite store_bind_ok in H. destruct H as (s2 & [] & Hw & H). rewrite store_bind_ok in H. destruct H as (s3 & [] & [= <- _] & [= <- _]).
  apply write_pack_keeps in Hw as [Hk _]; [|by apply durable_materialized]. eapply keeps_read; [exact Hk| |done].
  intros Hin. apply Hd. apply list_elem_of_fmap in Hin as (o' & -> & Ho'). apply list_elem_of_fmap in Ho' as (x & -> & Hx).
  apply list_elem_of_fmap. exists x.1. split; [done|]. apply list_elem_of_fmap. exists x. split; [done|]. by apply Hf.
Qed.

(* --------------------------------------------------------------------- *)
(** ** Histories of a store *)

Notation put_batch := (put_batch receipt_matches receipt_bytes lookup_publish).

(** The store after a sequence of operations and restarts, with the objects that
    acknowledged batches published.  A restart is a process with an empty memory. *)
Inductive history : list (string * list byte) -> CasStore -> Prop :=
| hist_found s s' : catalog_head s = None -> initialized (pack_catalog s) = false -> bmap_wf (catalog_records s) ->
    sync s = (s', Ok tt) -> history [] s'
| hist_restart acked s s' : history acked s -> sync (forget s) = (s', Ok tt) -> history acked s'
| hist_sync acked s s' : history acked s -> sync s = (s', Ok tt) -> history acked s'
| hist_put acked s k b s' r : history acked s -> put s k b = (s', r) -> history acked s'
| hist_read acked s o max s' r : history acked s -> read sync s o max = (s', r) -> history acked s'
| hist_batch acked s l s' refs : history acked s -> catalog_fits (pack_catalog s) -> catalog_fits (pack_catalog s') ->
    put_batch s l = (s', Ok refs) -> history (acked ++ l) s'.

Lemma put_durable s k b s' r : durable s -> put s k b = (s', r) -> durable s'.
Proof.
  intros Hs. unfold put.
  assert (forall st o name st' r, durable st -> publish_loose st o name b = (st', r) -> durable st') as Hpub.
  { intros st o name st' r0 Hst. unfold publish_loose. destruct (read_path _ _ _ _); [destruct (decide _)|]; intros [= <- _]; by apply (durable_frame st). }
  assert (forall name, durable (quarantine_locked s name)) as Hq.
  { intros name. unfold quarantine_locked. destruct (bmap_get _ _); [by apply (durable_frame s)|done]. }
  destruct (result_bind _ _) as [[o name]|]; [|by intros [= <- _]]. destruct (bmap_contains_key _ _); [|by apply Hpub].
  destruct (read_path _ _ _ _); [destruct (decide _); [by intros [= <- _]|]|]; apply Hpub, Hq.
Qed.

Lemma read_keeps s o max s' r : durable s -> read sync s o max = (s', r) ->
  durable s' /\ forall o' max', read_from_catalog s' o' max' = read_from_catalog s o' max'.
Proof.
  intros Hs. unfold read. destruct (result_bind _ _) as [[name [b|]]|]; [by intros [= <- _]| |by intros [= <- _]].
  destruct (read_path _ _ _ _) as [b|e]; [by intros [= <- _]|]. intros H. pose proof (read_after_failure_state _ _ _ _ _ _ _ _ H) as ->. clear H.
  assert (durable (quarantine_locked s name)) as Hq by (unfold quarantine_locked; destruct (bmap_get _ _); [by apply (durable_frame s)|done]).
  pose proof Hq as (head & base & final & Hd). destruct (sync_durable _ _ _ _ Hd) as (s1 & Hs1 & Hd1 & _). rewrite Hs1. cbn [fst].
  split; [by exists head, base, final|]. intros o' max'. destruct (sync_serving _ s1 o' max' Hq Hs1) as [_ ->].
  apply read_from_catalog_packs, quarantine_same_packs.
Qed.

Lemma no_collision_app p q : no_collision (p ++ q) -> no_collision p /\ no_collision q.
Proof. intros H. split; intros e e' He He'; apply H; apply elem_of_app; auto. Qed.

(** What holds of every history. *)
Record kept (acked : list (string * list byte)) (s : CasStore) : Prop := mkKept {
  kp_durable : durable s;
  kp_named : Forall (fun e => exists o, for_bytes e.1 e.2 = Ok o) acked;
  kp_served : no_collision (prepare <$> acked) -> Forall (served s) (prepare <$> acked)
}.

Lemma kept_serving acked s s' : kept acked s -> durable s' -> (forall o max, read_from_catalog s' o max = read_from_catalog s o max) -> kept acked s'.
Proof.
  intros [Hd Hv Hs] Hd' Heq. split; [done|done|]. intros Hn. eapply list.Forall_impl; [by apply Hs|]. intros e He. unfold served in *. by rewrite Heq.
Qed.

Lemma kept_batch acked s l s' refs : kept acked s -> catalog_fits (pack_catalog s) -> catalog_fits (pack_catalog s') ->
  put_batch s l = (s', Ok refs) -> kept (acked ++ l) s'.
Proof.
  intros [Hd Hv Hs] Hf Hf' Hb. split; [by eapply put_batch_durable| |].
  - apply Forall_app. split; [done|]. apply put_batch_references in Hb as [_ Hall]. clear -Hall.
    induction Hall as [|e o l refs He Hall IH]; constructor; eauto.
  - rewrite fmap_app. intros Hn. destruct (no_collision_app _ _ Hn) as [Hn1 Hn2].
    assert (Forall (served s') (prepare <$> l)) as Hl.
    { eapply put_batch_serves; [|exact Hn2|exact Hb]. intros _. by apply durable_materialized. }
    apply Forall_app. split; [|done]. specialize (Hs Hn1). rewrite list.Forall_forall in *. intros e He.
    destruct (decide (digest e.1 ∈ digest <$> (prepare <$> l).*1)) as [Hin|Hout].
    + apply list_elem_of_fmap in Hin as (o & Heq & Ho). apply list_elem_of_fmap in Ho as (e' & -> & He').
      assert (e = e') as -> by (apply Hn; [apply elem_of_app; by left|apply elem_of_app; by right|done]). by apply Hl.
    + unfold served. eapply put_batch_keeps; [exact Hd|exact Hb|done|]. by apply Hs.
Qed.

Lemma history_inv acked s : history acked s -> kept acked s.
Proof.
  induction 1 as [s s' Hh Hi Hw Hs|acked s s' _ IH Hs|acked s s' _ IH Hs|acked s k b s' r _ IH Hp|acked s o max s' r _ IH Hr
    |acked s l s' refs _ IH Hf Hf' Hb].
  - split; [by eapply sync_founds|constructor|constructor].
  - destruct (restart_serving s (kp_durable _ _ IH)) as (s1 & Hs1 & Hd1 & _ & Heq). rewrite Hs in Hs1. injection Hs1 as <-. by eapply kept_serving.
  - eapply kept_serving; [exact IH|by eapply (sync_serving s s' (mkCasObject "" "" "" 0) 0); [apply IH|]|].
    intros o max. eapply sync_serving; [apply IH|done].
  - eapply kept_serving; [exact IH|eapply put_durable; [apply IH|done]|]. intros o max. apply read_from_catalog_packs. by eapply put_same_packs.
  - destruct (read_keeps _ _ _ _ _ (kp_durable _ _ IH) Hr) as [Hd' Heq]. by eapply kept_serving.
  - by eapply kept_batch.
Qed.

(** C4: nothing that was acknowledged is ever lost.  After any sequence of loose
    writes, reads, synchronizations, batches and restarts, starting from the
    synchronization that founds the catalog of a store, a new process can always
    open the store, it finds the catalog of the old process, and every object that
    an acknowledged batch published reads back with its bytes, in the old process
    and in the new one.  Batches append to the journal, and snapshots, their
    deferral and pruning rewrite it, without changing what it says. *)
Theorem acknowledged_batches_survive acked s : history acked s -> no_collision (prepare <$> acked) ->
  Forall (fun e => vlen e.2 <= usize_max) acked ->
  exists s', sync (forget s) = (s', Ok tt) /\ pack_catalog s' ≡ pack_catalog s /\
    Forall (fun e => exists o, for_bytes e.1 e.2 = Ok o /\
      read sync s o (vlen e.2) = (s, Ok e.2) /\ read sync s' o (vlen e.2) = (s', Ok e.2)) acked.
Proof.
  intros Hh Hn Hlen. destruct (history_inv _ _ Hh) as [Hd Hv Hs]. specialize (Hs Hn). destruct (restart_serving s Hd) as (s' & Hs' & _ & Hc & Heq).
  exists s'. split_and!; [done|done|]. rewrite list.Forall_forall in *. intros e He. destruct (Hv e He) as [o Ho]. exists o.
  assert (served s (o, e.2)) as Hse.
  { apply for_bytes_ok in Ho as Ho'. destruct Ho' as [_ ->]. apply (proj1 (list.Forall_forall _ _) Hs (prepare e)). by apply list_elem_of_fmap_2. }
  split_and!; [done|by eapply served_reads; [|apply Hlen| |]|]. eapply served_reads; [done|by apply Hlen|done|]. unfold served in *. by rewrite Heq.
Qed.
End Operations.

Module HistoryExample.
Notation sync := (sync_catalog_locked (P := toy) (R := toy_reader) BatchExample.receipt_matches BatchExample.receipt_bytes BatchExample.lookup_publish).
Definition founded : CasStore * Res unit := sync empty_store.
Definition published : CasStore * Res (list CasObject) := BatchExample.publish founded.1 BatchExample.batch.
Definition restarted : CasStore * Res unit := sync (forget published.1).
Definition again : CasStore * Res (list CasObject) := BatchExample.publish restarted.1 [("test/2", [x03])].
Definition acked : list (string * list byte) := ([] ++ BatchExample.batch) ++ [("test/2", [x03])].

Lemma all_succeed : is_ok founded.2 && is_ok published.2 && is_ok restarted.2 && is_ok again.2 = true.
Proof. vm_compute. reflexivity. Qed.
Lemma succeeds_unit {S} (r : S * Res unit) : is_ok r.2 = true -> r = (r.1, Ok tt).
Proof. by destruct r as [s [[]|]]. Qed.
Lemma example_fits : catalog_fits (P := toy) (pack_catalog founded.1) /\ catalog_fits (P := toy) (pack_catalog published.1) /\
  catalog_fits (P := toy) (pack_catalog restarted.1) /\ catalog_fits (P := toy) (pack_catalog again.1).
Proof. unfold catalog_fits. split_and!; vm_compute; discriminate. Qed.

Lemma example_history : history (P := toy) (R := toy_reader) BatchExample.receipt_matches BatchExample.receipt_bytes
  BatchExample.lookup_publish acked again.1.
Proof.
  destruct example_fits as (F1 & F2 & F3 & F4). pose proof all_succeed as H. rewrite !andb_true_iff in H. destruct H as [[[H1 H2] H3] H4]. unfold acked.
  eapply (hist_batch _ _ _ _ restarted.1); [|exact F3|exact F4|].
  2:{ etransitivity; [|exact (succeeds again [] again.1 eq_refl H4)]. unfold again, BatchExample.publish. reflexivity. }
  eapply (hist_restart _ _ _ _ published.1).
  2:{ etransitivity; [|exact (succeeds_unit restarted H3)]. unfold restarted. reflexivity. }
  eapply (hist_batch _ _ _ _ founded.1); [|exact F1|exact F2|].
  2:{ etransitivity; [|exact (succeeds published [] published.1 eq_refl H2)]. unfold published, BatchExample.publish. reflexivity. }
  eapply (hist_found _ _ _ empty_store); [reflexivity|reflexivity|constructor|].
  etransitivity; [|exact (succeeds_unit founded H1)]. unfold founded. reflexivity.
Qed.
End HistoryExample.

Lemma acknowledged_batches_survive_witness :
  exists s', HistoryExample.sync (forget HistoryExample.again.1) = (s', Ok tt) /\
    Forall (fun e => exists o, for_bytes (P := toy) e.1 e.2 = Ok o /\ read (P := toy) HistoryExample.sync s' o (vlen e.2) = (s', Ok e.2)) HistoryExample.acked.
Proof.
  destruct (acknowledged_batches_survive (P := toy) (R := toy_reader) BatchExample.receipt_matches BatchExample.receipt_bytes BatchExample.lookup_publish
    (fun _ _ _ _ _ => eq_refl) HistoryExample.acked HistoryExample.again.1 HistoryExample.example_history) as (s' & Hs' & _ & Hall).
  - apply (bool_decide_eq_true_1 _). vm_compute. reflexivity.
  - repeat constructor; vm_compute; discriminate.
  - exists s'. split; [exact Hs'|]. eapply list.Forall_impl; [exact Hall|]. intros e (o & H1 & _ & H2). exists o. split; [exact H1|exact H2].
Defined.
