(* ===== verification/CatalogLookup.v ===== *)
(** * The lookup accelerator of a snapshot (cas/lookup.rs)

    A snapshot with many objects gets three derived files: sorted fixed-width rows in
    pages, a manifest that hashes every page, and a receipt that is the commit point.
    An opened lookup answers a digest from one page, through a small cache of pages.

    What the bytes of a file do not determine is its metadata: [stat] stands for the
    answers of [fstat] by file name.  The crate [hex] is a class with its documented
    behaviour.  [sort_unstable_by_key] is modelled by the stable sort; the theorems
    ask that no two rows have equal keys. *)

From stdpp Require Import gmap.
From S2P Require Import Prelude Order Collections Text Json Canonical Instances JsonFormat JsonRead Paths Errors CasObject CasInterface.
From S2P Require Import Catalog CatalogTypes CatalogCodec CasStore CasCatalog.
Open Scope N_scope.

Definition LOOKUP_SCHEMA : string := "codeclew-catalog-lookup/1.0".
Definition RECEIPT_SCHEMA : string := "codeclew-catalog-lookup-receipt/1.0".
Definition MIN_OBJECTS : N := 1024.
Definition ROW_BYTES : N := 56.
Definition PAGE_ROWS : N := 256.
Definition CACHE_PAGES : N := 32.
Definition MAX_MANIFEST_BYTES : N := 16 * 1024 * 1024.
Definition MAX_DATA_BYTES : N := 256 * 1024 * 1024.
Definition MAX_RECEIPT_BYTES : N := 4096.

Record LookupPack : Type := mkLookupPack { lp_data_name : string; lp_data_size : N }.
Record Page : Type := mkPage { pg_first : string; pg_last : string; pg_digest : string; pg_offset : N; pg_rows : N }.
Record LookupManifest : Type := mkLookupManifest {
  lm_schema : string;
  lm_snapshot_digest : string;
  lm_sequence : N;
  lm_last_record_digest : option string;
  lm_object_count : N;
  lm_data_bytes : N;
  lm_packs : list LookupPack;
  lm_object_schemas : list string;
  lm_pages : list Page
}.
Record Fingerprint : Type := mkFingerprint {
  fp_device : N;
  fp_inode : N;
  fp_bytes : N;
  fp_modified_seconds : Z;
  fp_modified_nanoseconds : Z;
  fp_changed_seconds : Z;
  fp_changed_nanoseconds : Z
}.
Record Receipt : Type := mkReceipt {
  rc_schema : string;
  rc_snapshot_digest : string;
  rc_snapshot : Fingerprint;
  rc_manifest_digest : string;
  rc_data : Fingerprint
}.
Record Row : Type := mkRow { row_digest : list byte; row_pack : N; row_schema : N; row_size : N; row_offset : N }.
(** [Lookup]: the pages read last are at the end of the cache. *)
Record OpenLookup : Type := mkOpenLookup { lk_manifest : LookupManifest; lk_file : list byte; lk_cache : list (nat * list Row) }.
Definition set_cache (lk : OpenLookup) (c : list (nat * list Row)) : OpenLookup :=
  {| lk_manifest := lk_manifest lk; lk_file := lk_file lk; lk_cache := c |}.

#[export] Instance Fingerprint_eq_dec : EqDecision Fingerprint.
Proof. solve_decision. Defined.

(* --------------------------------------------------------------------- *)
(** ** Bytes *)

#[export] Instance Ord_byte : Ord byte := fun a b => Byte.to_N a ?= Byte.to_N b.

(** The crate [hex]; [hex_decode] is [decode_to_slice] into 32 bytes. *)
Class HexCodec := { hex_encode : list byte -> string; hex_decode : string -> option (list byte) }.

(** [u32::to_le_bytes] and [u64::to_le_bytes], by width, and their inverses. *)
Fixpoint le_bytes (width : nat) (n : N) : list byte :=
  match width with
  | O => []
  | S w => default x00 (Byte.of_N (n mod 256)) :: le_bytes w (n / 256)
  end.
Fixpoint from_le (b : list byte) : N := match b with [] => 0 | x :: b' => Byte.to_N x + 256 * from_le b' end.
(** [bytes[from..to]]. *)
Definition slice_of {A} (from to_ : N) (l : list A) : list A := take (N.to_nat (to_ - from)) (drop (N.to_nat from) l).
Definition u64_checked_mul (a b : N) : option N := if a * b <=? u64_max then Some (a * b) else None.
(** [slice.get(n)]. *)
Definition get {A} (l : list A) (n : N) : option A := if n <? vlen l then l !! N.to_nat n else None.

(** [slice.chunks(n)]; fuel: the length. *)
Fixpoint chunks_upto {A} (fuel n : nat) (l : list A) : list (list A) :=
  match fuel, l with
  | S fuel, _ :: _ => take n l :: chunks_upto fuel n (drop n l)
  | _, _ => []
  end.
Definition chunks {A} (n : N) (l : list A) : list (list A) := chunks_upto (length l) (N.to_nat n) l.
Definition chunks_exact {A} (n : N) (l : list A) : list (list A) := List.filter (fun c => vlen c =? n) (chunks n l).

(** [partition_point] of a slice that is partitioned: the length of its prefix. *)
Fixpoint partition_point {A} (p : A -> bool) (l : list A) : nat :=
  match l with [] => O | a :: l' => if p a then S (partition_point p l') else O end.

(* --------------------------------------------------------------------- *)
(** ** Documents *)

Definition number (n : N) : Value := JNumber (PosInt n).
Definition lookup_pack_value (p : LookupPack) : Value :=
  JObject [("dataName", JString (lp_data_name p)); ("dataSize", number (lp_data_size p))].
Definition page_value (p : Page) : Value :=
  JObject [("first", JString (pg_first p)); ("last", JString (pg_last p)); ("digest", JString (pg_digest p));
           ("offset", number (pg_offset p)); ("rows", number (pg_rows p))].
Definition lookup_manifest_value (m : LookupManifest) : Value :=
  JObject [("schema", JString (lm_schema m)); ("snapshotDigest", JString (lm_snapshot_digest m)); ("sequence", number (lm_sequence m));
           ("lastRecordDigest", opt_string_value (lm_last_record_digest m)); ("objectCount", number (lm_object_count m));
           ("dataBytes", number (lm_data_bytes m)); ("packs", JArray (lookup_pack_value <$> lm_packs m));
           ("objectSchemas", JArray (JString <$> lm_object_schemas m)); ("pages", JArray (page_value <$> lm_pages m))].
Definition fingerprint_value (f : Fingerprint) : Value :=
  JObject [("device", number (fp_device f)); ("inode", number (fp_inode f)); ("bytes", number (fp_bytes f));
           ("modifiedSeconds", JNumber (number_from_i64 (fp_modified_seconds f)));
           ("modifiedNanoseconds", JNumber (number_from_i64 (fp_modified_nanoseconds f)));
           ("changedSeconds", JNumber (number_from_i64 (fp_changed_seconds f)));
           ("changedNanoseconds", JNumber (number_from_i64 (fp_changed_nanoseconds f)))].
Definition receipt_value (r : Receipt) : Value :=
  JObject [("schema", JString (rc_schema r)); ("snapshotDigest", JString (rc_snapshot_digest r));
           ("snapshot", fingerprint_value (rc_snapshot r)); ("manifestDigest", JString (rc_manifest_digest r));
           ("data", fingerprint_value (rc_data r))].

Definition i64_max : N := 2 ^ 63 - 1.
Definition decode_i64 (v : Value) : option Z :=
  match v with
  | JNumber (PosInt n) => if n <=? i64_max then Some (Z.of_N n) else None
  | JNumber (NegInt z) => if (- 2 ^ 63 <=? z)%Z then Some z else None
  | _ => None
  end.
Definition decode_lookup_pack (v : Value) : option LookupPack :=
  match decode_struct ["dataName"; "dataSize"] v with
  | Some [n; s] => n ← decode_string n; s ← decode_u64 s; Some {| lp_data_name := n; lp_data_size := s |}
  | _ => None
  end.
Definition decode_page (v : Value) : option Page :=
  match decode_struct ["first"; "last"; "digest"; "offset"; "rows"] v with
  | Some [f; l; d; o; r] =>
      f ← decode_string f; l ← decode_string l; d ← decode_string d; o ← decode_u64 o; r ← decode_u32 r;
      Some {| pg_first := f; pg_last := l; pg_digest := d; pg_offset := o; pg_rows := r |}
  | _ => None
  end.
Definition decode_lookup_manifest (v : Value) : option LookupManifest :=
  match decode_record [("schema", true); ("snapshotDigest", true); ("sequence", true); ("lastRecordDigest", false);
                       ("objectCount", true); ("dataBytes", true); ("packs", true); ("objectSchemas", true); ("pages", true)] v with
  | Some [s; d; q; l; c; b; p; o; g] =>
      s ← decode_required decode_string s; d ← decode_required decode_string d; q ← decode_required decode_u64 q;
      l ← decode_option decode_string l; c ← decode_required decode_u64 c; b ← decode_required decode_u64 b;
      p ← decode_required (decode_vec decode_lookup_pack) p; o ← decode_required (decode_vec decode_string) o;
      g ← decode_required (decode_vec decode_page) g;
      Some {| lm_schema := s; lm_snapshot_digest := d; lm_sequence := q; lm_last_record_digest := l; lm_object_count := c;
              lm_data_bytes := b; lm_packs := p; lm_object_schemas := o; lm_pages := g |}
  | _ => None
  end.
Definition decode_fingerprint (v : Value) : option Fingerprint :=
  match decode_struct ["device"; "inode"; "bytes"; "modifiedSeconds"; "modifiedNanoseconds"; "changedSeconds"; "changedNanoseconds"] v with
  | Some [d; i; b; ms; mn; cs; cn] =>
      d ← decode_u64 d; i ← decode_u64 i; b ← decode_u64 b; ms ← decode_i64 ms; mn ← decode_i64 mn; cs ← decode_i64 cs; cn ← decode_i64 cn;
      Some {| fp_device := d; fp_inode := i; fp_bytes := b; fp_modified_seconds := ms; fp_modified_nanoseconds := mn;
              fp_changed_seconds := cs; fp_changed_nanoseconds := cn |}
  | _ => None
  end.
Definition decode_receipt (v : Value) : option Receipt :=
  match decode_struct ["schema"; "snapshotDigest"; "snapshot"; "manifestDigest"; "data"] v with
  | Some [s; d; n; m; f] =>
      s ← decode_string s; d ← decode_string d; n ← decode_fingerprint n; m ← decode_string m; f ← decode_fingerprint f;
      Some {| rc_schema := s; rc_snapshot_digest := d; rc_snapshot := n; rc_manifest_digest := m; rc_data := f |}
  | _ => None
  end.

(* --------------------------------------------------------------------- *)
(** ** Finding an object *)

Section Lookup.
Context {P : Primitives} {R : JsonReader} {H : HexCodec}.
Notation Directory := (BTreeMap string (list byte)).

Definition binary_digest (digest : string) : Res (list byte) :=
  let? component := digest_component digest in
  ok_or (hex_decode component) (ClewError_new StateCorrupt "catalog lookup digest is invalid").

Definition contains_pack (lk : OpenLookup) (name : string) : bool :=
  existsb (fun pack => str_eqb (lp_data_name pack) name) (lm_packs (lk_manifest lk)).

Definition decode_row (bytes : list byte) : Row :=
  {| row_digest := take 32 bytes; row_pack := from_le (slice_of 32 36 bytes); row_schema := from_le (slice_of 36 40 bytes);
     row_size := from_le (slice_of 40 48 bytes); row_offset := from_le (slice_of 48 56 bytes) |}.
Definition admit_row (m : LookupManifest) (rows : list Row) (bytes : list byte) : Res (list Row) :=
  let row := decode_row bytes in
  let? pack := ok_or (get (lm_packs m) (row_pack row)) (ClewError_new StateCorrupt "catalog lookup pack ordinal is invalid") in
  if (vlen (lm_object_schemas m) <=? row_schema row)
     || match u64_checked_add (row_offset row) (row_size row) with Some end_ => lp_data_size pack <? end_ | None => true end
     || match list.last rows with Some previous => geb (row_digest previous) (row_digest row) | None => false end
  then corrupt "catalog lookup row authority is invalid"
  else Ok (rows ++ [row]).
Definition page_range (page : Page) (rows : list Row) : Res unit :=
  let? first := binary_digest (pg_first page) in
  if negb (bool_decide (row_digest <$> head rows = Some first)) then corrupt "catalog lookup page range is invalid"
  else
  let? last_ := binary_digest (pg_last page) in
  if negb (bool_decide (row_digest <$> list.last rows = Some last_)) then corrupt "catalog lookup page range is invalid" else Ok tt.
(** The part of [read_page] after a miss of the cache. *)
Definition load_page (m : LookupManifest) (file : list byte) (index : nat) : Res (list Row) :=
  match lm_pages m !! index with
  | None => internal "index out of bounds"
  | Some page =>
      let? bytes := ok_or (read_exact_at file (pg_offset page) (pg_rows page * ROW_BYTES))
                      (ClewError_new StateCorrupt "catalog lookup page is truncated") in
      if str_neqb (hash_bytes bytes) (pg_digest page) then corrupt "catalog lookup page digest mismatch"
      else
      let? rows := try_fold (admit_row m) [] (chunks_exact ROW_BYTES bytes) in
      page_range page rows ;;? Ok rows
  end.
Definition cached (cache : list (nat * list Row)) (index : nat) : option (list Row) :=
  snd <$> List.find (fun e => Nat.eqb e.1 index) cache.
Definition remember (cache : list (nat * list Row)) (index : nat) (rows : list Row) : list (nat * list Row) :=
  (if vlen cache =? CACHE_PAGES then tail cache else cache) ++ [(index, rows)].
Definition read_page (lk : OpenLookup) (index : nat) : OpenLookup * Res (list Row) :=
  match cached (lk_cache lk) index with
  | Some rows => (lk, Ok rows)
  | None =>
      match load_page (lk_manifest lk) (lk_file lk) index with
      | Ok rows => (set_cache lk (remember (lk_cache lk) index rows), Ok rows)
      | Err e => (lk, Err e)
      end
  end.

(** The page that may hold [digest]. *)
Definition select_page (m : LookupManifest) (digest : string) : option nat :=
  let page := partition_point (fun page => ltb (pg_last page) digest) (lm_pages m) in
  match lm_pages m !! page with
  | Some reference => if ltb digest (pg_first reference) then None else Some page
  | None => None
  end.
Definition row_location (m : LookupManifest) (digest : string) (row : Row) : Res PackLocation :=
  match get (lm_packs m) (row_pack row), get (lm_object_schemas m) (row_schema row) with
  | Some pack, Some object_schema =>
      Ok {| pl_data_name := lp_data_name pack;
            pl_entry := {| pe_object := {| schema := CAS_OBJECT_SCHEMA; object_schema := object_schema; digest := digest;
                                           size := row_size row |};
                           pe_offset := row_offset row |} |}
  | _, _ => internal "index out of bounds"
  end.
Definition find_row (wanted : list byte) (rows : list Row) : option Row :=
  List.find (fun row => bool_decide (row_digest row = wanted)) rows.
Definition answer (m : LookupManifest) (digest : string) (wanted : list byte) (rows : list Row) : Res (option PackLocation) :=
  match find_row wanted rows with
  | None => Ok None
  | Some row => let? location := row_location m digest row in Ok (Some location)
  end.
Definition find (lk : OpenLookup) (digest : string) : OpenLookup * Res (option PackLocation) :=
  do! lk, wanted := pure_on lk (binary_digest digest) in
  match select_page (lk_manifest lk) digest with
  | None => (lk, Ok None)
  | Some page =>
      do! lk, rows := read_page lk page in
      (lk, answer (lk_manifest lk) digest wanted rows)
  end.

(** The accelerator that the catalog sees; the cache is internal. *)
Definition as_lookup (lk : OpenLookup) : Lookup :=
  {| lookup_find := fun digest => (find lk digest).2; lookup_contains_pack := contains_pack lk |}.

(* --------------------------------------------------------------------- *)
(** ** Opening *)

Definition names (digest : string) : Res (string * string * string) :=
  let? component := digest_component digest in
  Ok (component +:+ ".lookup-v1", component +:+ ".lookup-v1.json", component +:+ ".lookup-v1.receipt").

(** [ManagedDirectory::open_file] and [read_file]. *)
Definition open_file (dir : Directory) (name : string) : Res (list byte) :=
  match bmap_get name dir with Some bytes => Ok bytes | None => internal "No such file or directory" end.
Definition read_managed (dir : Directory) (name : string) (max_bytes : N) : Res (list byte) :=
  let? bytes := open_file dir name in
  if max_bytes <? vlen bytes then invalid "managed state file exceeds its read bound" else Ok bytes.

Definition page_admitted (pages : N) (state : N * N * option string) (page : Page) : Res (N * N * option string) :=
  let '(index, count, previous) := state in
  let? _ := binary_digest (pg_first page) in
  let? _ := binary_digest (pg_last page) in
  let? _ := binary_digest (pg_digest page) in
  if (pg_rows page =? 0) || (PAGE_ROWS <? pg_rows page)
     || ((index + 1 <? pages) && negb (pg_rows page =? PAGE_ROWS))
     || negb (leb (pg_first page) (pg_last page))
     || match previous with Some last_ => geb last_ (pg_first page) | None => false end
     || negb (bool_decide (u64_checked_mul count ROW_BYTES = Some (pg_offset page)))
  then corrupt "catalog lookup page directory is invalid"
  else Ok (index + 1, u64_wrapping_add count (pg_rows page), Some (pg_last page)).
Definition pack_name_admitted (pack : LookupPack) : Res unit :=
  let? component := ok_or (strip_suffix ".pack" (lp_data_name pack))
                      (ClewError_new StateCorrupt "catalog lookup pack name is invalid") in
  let? _ := digest_component ("sha256:" +:+ component) in Ok tt.
Definition validate_manifest (m : LookupManifest) (head : CatalogHead) : Res unit :=
  if str_neqb (lm_schema m) LOOKUP_SCHEMA
     || str_neqb (lm_snapshot_digest m) (ch_snapshot_digest head)
     || negb (lm_sequence m =? ch_snapshot_sequence head)
     || negb (bool_decide (lm_last_record_digest m = ch_last_record_digest head))
     || (lm_object_count m =? 0)
     || (MAX_DATA_BYTES <? lm_data_bytes m)
     || negb (bool_decide (u64_checked_mul (lm_object_count m) ROW_BYTES = Some (lm_data_bytes m)))
     || (vlen (lm_packs m) =? 0)
     || (vlen (lm_object_schemas m) =? 0)
     || negb (windows_all (fun a b => ltb (lp_data_name a) (lp_data_name b)) (lm_packs m))
     || negb (windows_all ltb (lm_object_schemas m))
  then corrupt "catalog lookup manifest authority mismatch"
  else
  try_for_each pack_name_admitted (lm_packs m) ;;?
  try_for_each validate_object_schema (lm_object_schemas m) ;;?
  let? '(_, count, _) := try_fold (page_admitted (vlen (lm_pages m))) (0, 0, None) (lm_pages m) in
  if negb (count =? lm_object_count m) then corrupt "catalog lookup page count is invalid" else Ok tt.

Definition open_lookup (stat : string -> Fingerprint) (dir : Directory) (head : CatalogHead) : Res (option OpenLookup) :=
  let? '(data_name, manifest_name, receipt_name) := names (ch_snapshot_digest head) in
  if negb (bmap_contains_key receipt_name dir) then Ok None
  else
  let? receipt_bytes := read_managed dir receipt_name MAX_RECEIPT_BYTES in
  let? receipt := ok_or (from_slice decode_receipt receipt_bytes) (ClewError_new StateCorrupt "catalog lookup receipt is invalid") in
  if str_neqb (rc_schema receipt) RECEIPT_SCHEMA
     || str_neqb (rc_snapshot_digest receipt) (ch_snapshot_digest head)
     || negb (bool_decide (value_bytes (receipt_value receipt) = receipt_bytes))
  then corrupt "catalog lookup receipt authority mismatch"
  else
  let? _ := open_file dir (ch_snapshot_name head) in
  if negb (bool_decide (stat (ch_snapshot_name head) = rc_snapshot receipt)) then Ok None
  else
  let? bytes := read_managed dir manifest_name MAX_MANIFEST_BYTES in
  if str_neqb (hash_bytes bytes) (rc_manifest_digest receipt) then corrupt "catalog lookup manifest digest mismatch"
  else
  let? m := ok_or (from_slice decode_lookup_manifest bytes) (ClewError_new StateCorrupt "catalog lookup manifest is invalid") in
  if negb (bool_decide (value_bytes (lookup_manifest_value m) = bytes)) then corrupt "catalog lookup manifest is not canonical"
  else
  validate_manifest m head ;;?
  let? file := open_file dir data_name in
  if negb (bool_decide (stat data_name = rc_data receipt)) || negb (fp_bytes (rc_data receipt) =? lm_data_bytes m)
  then corrupt "catalog lookup data identity changed"
  else Ok (Some {| lk_manifest := m; lk_file := file; lk_cache := [] |}).

(* --------------------------------------------------------------------- *)
(** ** Publication *)

Definition snapshot_entries (snapshot : CatalogSnapshot) : list PackEntry :=
  flat_map (fun pack => pm_objects (cp_manifest pack)) (cs_packs snapshot).
Definition object_schemas_of (snapshot : CatalogSnapshot) : list string :=
  bset_of_list ((fun entry => object_schema (pe_object entry)) <$> snapshot_entries snapshot).
(** [binary_search] of a strictly sorted slice. *)
Fixpoint ordinal (x : string) (l : list string) : option N :=
  match l with [] => None | y :: l' => if str_eqb x y then Some 0 else N.succ <$> ordinal x l' end.
Definition row_of (schemas : list string) (pack_index : N) (entry : PackEntry) : Res Row :=
  let? d := binary_digest (digest (pe_object entry)) in
  let? pack := (if pack_index <=? u32_max then Ok pack_index else internal "out of range integral type conversion attempted") in
  let? schema := ok_or (ordinal (object_schema (pe_object entry)) schemas) (ClewError_new Internal "collected schema") in
  Ok {| row_digest := d; row_pack := pack; row_schema := schema mod 2 ^ 32; row_size := size (pe_object entry);
        row_offset := pe_offset entry |}.
Definition rows_of (schemas : list string) (pack : nat * CatalogPack) : Res (list Row) :=
  try_map (row_of schemas (N.of_nat pack.1)) (pm_objects (cp_manifest pack.2)).
Definition row_key (row : Row) : list byte * N := (row_digest row, row_pack row).
Definition collides (a b : Row) : bool :=
  bool_decide (row_digest a = row_digest b) && (negb (row_schema a =? row_schema b) || negb (row_size a =? row_size b)).
(** [rows.dedup_by_key(|row| row.digest)]. *)
Fixpoint dedup_from_row (previous : Row) (rows : list Row) : list Row :=
  match rows with
  | [] => []
  | row :: rows => if bool_decide (row_digest row = row_digest previous) then dedup_from_row previous rows
                   else row :: dedup_from_row row rows
  end.
Definition dedup_rows (rows : list Row) : list Row := match rows with [] => [] | row :: rows => row :: dedup_from_row row rows end.
Definition collect_rows (snapshot : CatalogSnapshot) : Res (list Row) :=
  let packs := cs_packs snapshot in
  let? rows := try_map (rows_of (object_schemas_of snapshot)) (zip (seq 0 (length packs)) packs) in
  let rows := sort_by (cmp_on row_key) (concat rows) in
  if windows_any collides rows then corrupt "catalog lookup contains a digest collision" else Ok (dedup_rows rows).

Definition encode_row (row : Row) : list byte :=
  row_digest row ++ le_bytes 4 (row_pack row) ++ le_bytes 4 (row_schema row) ++ le_bytes 8 (row_size row) ++ le_bytes 8 (row_offset row).
Definition encode_rows (rows : list Row) : list byte := flat_map encode_row rows.
Definition row_name (row : option Row) : string := "sha256:" +:+ hex_encode (match row with Some row => row_digest row | None => [] end).
Definition add_page (acc : list byte * list Page) (rows : list Row) : list byte * list Page :=
  let '(data, pages) := acc in
  let data' := data ++ encode_rows rows in
  (data', pages ++ [{| pg_first := row_name (List.hd_error rows); pg_last := row_name (list.last rows);
                       pg_digest := hash_bytes (drop (length data) data'); pg_offset := vlen data; pg_rows := vlen rows |}]).
Definition paginate (rows : list Row) : list byte * list Page := foldl add_page ([], []) (chunks PAGE_ROWS rows).

Definition make_manifest (snapshot : CatalogSnapshot) (digest : string) (rows : list Row) (data : list byte) (pages : list Page) : LookupManifest :=
  {| lm_schema := LOOKUP_SCHEMA; lm_snapshot_digest := digest; lm_sequence := cs_sequence snapshot;
     lm_last_record_digest := cs_last_record_digest snapshot; lm_object_count := vlen rows; lm_data_bytes := vlen data;
     lm_packs := (fun pack => {| lp_data_name := cp_data_name pack; lp_data_size := pm_data_size (cp_manifest pack) |}) <$> cs_packs snapshot;
     lm_object_schemas := object_schemas_of snapshot; lm_pages := pages |}.

(** The data and the manifest, or [None] when the manifest is too large. *)
Definition prepare_lookup (snapshot : CatalogSnapshot) (digest : string) : Res (option (list byte * list byte)) :=
  let? rows := collect_rows snapshot in
  let '(data, pages) := paginate rows in
  let bytes := value_bytes (lookup_manifest_value (make_manifest snapshot digest rows data pages)) in
  if MAX_MANIFEST_BYTES <? vlen bytes then Ok None else Ok (Some (data, bytes)).
Definition make_receipt (digest : string) (snapshot data : Fingerprint) (manifest_bytes : list byte) : Receipt :=
  {| rc_schema := RECEIPT_SCHEMA; rc_snapshot_digest := digest; rc_snapshot := snapshot; rc_manifest_digest := hash_bytes manifest_bytes;
     rc_data := data |}.

(** The directory after each write of [publish]; an interruption leaves one of them. *)
Definition lookup_writes (stat : string -> Fingerprint) (dir : Directory) (digest snapshot_name : string) (files : string * string * string)
    (data bytes : list byte) : list Directory :=
  let '(data_name, manifest_name, receipt_name) := files in
  let removed := bmap_remove receipt_name dir in
  let with_data := bmap_insert data_name data removed in
  let with_manifest := bmap_insert manifest_name bytes with_data in
  let receipt := make_receipt digest (stat snapshot_name) (stat data_name) bytes in
  [removed; with_data; with_manifest; bmap_insert receipt_name (value_bytes (receipt_value receipt)) with_manifest].
Definition publish_lookup (stat : string -> Fingerprint) (dir : Directory) (snapshot : CatalogSnapshot) (digest : string)
  : Directory * Res unit :=
  let count := vlen (snapshot_entries snapshot) in
  if count <? MIN_OBJECTS then (dir, Ok tt)
  else if MAX_DATA_BYTES / ROW_BYTES <? count then (dir, Ok tt)
  else
  do! dir, files := pure_on dir (names digest) in
  do! dir, component := pure_on dir (digest_component digest) in
  do! dir, _opened := pure_on dir (open_file dir (component +:+ ".snapshot")) in
  do! dir, prepared := pure_on dir (prepare_lookup snapshot digest) in
  match prepared with
  | None => (dir, Ok tt)
  | Some (data, bytes) => (List.last (lookup_writes stat dir digest (component +:+ ".snapshot") files data bytes) dir, Ok tt)
  end.
End Lookup.
