(* ===== verification/LookupSpec.v ===== *)
(** * Theorems on the lookup accelerator

    Rows and pages read back what was written, the accelerator answers a digest as
    the verified snapshot does, the cache is invisible and bounded, and an
    interrupted publication is never admitted. *)

From stdpp Require Import gmap.
From S2P Require Import Prelude Order Collections Text Json Canonical Instances JsonFormat JsonRead Paths Errors CasObject CasInterface.
From S2P Require Import Catalog CatalogTypes CatalogCodec CasStore CasCatalog CatalogLookup.
Open Scope N_scope.

(* --------------------------------------------------------------------- *)
(** ** Bytes and digits *)

#[export] Instance LawfulOrd_byte : LawfulOrd byte.
Proof.
  split; unfold cmp, Ord_byte; intros.
  - rewrite N.compare_eq_iff. split; [|by intros ->]. intros H. apply (f_equal Byte.of_N) in H. rewrite !Byte.of_to_N in H. congruence.
  - apply N.compare_antisym.
  - rewrite N.compare_lt_iff in *. lia.
Qed.

Lemma byte_of_small n : n < 256 -> Byte.to_N (default x00 (Byte.of_N n)) = n.
Proof.
  intros Hn. destruct (Byte.of_N n) as [b|] eqn:E; [by apply Byte.to_of_N in E|]. apply Byte.of_N_None_iff in E. lia.
Qed.
Lemma le_bytes_length w n : length (le_bytes w n) = w.
Proof. revert n. induction w as [|w IH]; intros n; cbn; [done|]. by rewrite IH. Qed.
Lemma from_le_bytes w : forall n, n < 256 ^ N.of_nat w -> from_le (le_bytes w n) = n.
Proof.
  induction w as [|w IH]; intros n Hn; [cbn in *; lia|]. cbn [le_bytes from_le].
  rewrite byte_of_small by (apply N.mod_lt; lia).
  rewrite IH by (rewrite Nat2N.inj_succ, N.pow_succ_r' in Hn; apply N.Div0.div_lt_upper_bound; lia).
  pose proof (N.div_mod n 256). lia.
Qed.

(** Lower-case hexadecimal, two digits for a byte. *)
Fixpoint hex_of (b : list byte) : string :=
  match b with
  | [] => EmptyString
  | x :: b' => String (hex_digit (Byte.to_N x / 16)) (String (hex_digit (Byte.to_N x mod 16)) (hex_of b'))
  end.
Definition spelled (w : list byte) : string := "sha256:" +:+ hex_of w.

Class HexLaws (H : HexCodec) : Prop := {
  hex_encode_spec : forall b, hex_encode b = hex_of b;
  hex_decode_spec : forall b, length b = 32%nat -> hex_decode (hex_of b) = Some b
}.

(** An instance of the crate. *)
Definition digit_value (a : ascii) : option N :=
  let n := N_of_ascii a in
  if (48 <=? n) && (n <=? 57) then Some (n - 48) else if (97 <=? n) && (n <=? 102) then Some (n - 87) else None.
Fixpoint bytes_of_hex (s : string) : option (list byte) :=
  match s with
  | EmptyString => Some []
  | String hi (String lo s') => h ← digit_value hi; l ← digit_value lo; b ← bytes_of_hex s'; Some (default x00 (Byte.of_N (16 * h + l)) :: b)
  | _ => None
  end.
#[export] Instance toy_hex : HexCodec := {| hex_encode := hex_of; hex_decode := bytes_of_hex |}.
Lemma digit_value_digit n : n < 16 -> digit_value (hex_digit n) = Some n.
Proof.
  intros Hn. assert (forallb (fun k => bool_decide (digit_value (hex_digit (N.of_nat k)) = Some (N.of_nat k))) (seq 0 16) = true) as H by (vm_compute; reflexivity).
  rewrite forallb_forall in H. specialize (H (N.to_nat n)). rewrite N2Nat.id in H. apply bool_decide_eq_true_1 in H; [done|]. apply in_seq. lia.
Qed.
#[export] Instance toy_hex_laws : HexLaws toy_hex.
Proof.
  split; [done|]. intros b _. cbn [hex_decode toy_hex]. induction b as [|x b IH]; [done|]. cbn [hex_of bytes_of_hex].
  pose proof (Byte.to_N_bounded x) as Hx. rewrite !digit_value_digit by ((apply N.mod_lt; lia) || (apply N.Div0.div_lt_upper_bound; lia)). cbn [mbind option_bind].
  rewrite IH. cbn [mbind option_bind]. rewrite <- N.div_mod by lia. by rewrite Byte.of_to_N.
Qed.

Definition all_bytes : list byte := (fun n => default x00 (Byte.of_N (N.of_nat n))) <$> seq 0 256.
Lemma all_bytes_spec x : x ∈ all_bytes.
Proof.
  apply list_elem_of_fmap. exists (N.to_nat (Byte.to_N x)). rewrite N2Nat.id, Byte.of_to_N. split; [done|].
  apply elem_of_seq. pose proof (Byte.to_N_bounded x). lia.
Qed.
Definition two_digits (x y : byte) : comparison :=
  match Ascii.compare (hex_digit (Byte.to_N x / 16)) (hex_digit (Byte.to_N y / 16)) with
  | Eq => Ascii.compare (hex_digit (Byte.to_N x mod 16)) (hex_digit (Byte.to_N y mod 16))
  | c => c
  end.
Lemma two_digits_compare x y : two_digits x y = cmp x y.
Proof.
  assert (forallb (fun x => forallb (fun y => match two_digits x y, cmp x y with Eq, Eq | Lt, Lt | Gt, Gt => true | _, _ => false end) all_bytes) all_bytes = true) as H
    by (vm_compute; reflexivity).
  rewrite forallb_forall in H. specialize (H x (proj1 (list_elem_of_In _ _) (all_bytes_spec x))). cbn beta in H.
  rewrite forallb_forall in H. specialize (H y (proj1 (list_elem_of_In _ _) (all_bytes_spec y))). cbn beta in H.
  by destruct (two_digits x y), (cmp x y).
Qed.
Lemma hex_compare a : forall b, cmp (hex_of a) (hex_of b) = cmp a b.
Proof.
  induction a as [|x a IH]; intros [|y b]; try done. pose proof (two_digits_compare x y) as H. unfold two_digits in H.
  change (cmp (x :: a) (y :: b)) with (match cmp x y with Eq => cmp a b | c => c end). rewrite <- H, <- IH.
  unfold cmp, Ord_string. cbn [hex_of String.compare].
  destruct (Ascii.compare (hex_digit (Byte.to_N x / 16)) (hex_digit (Byte.to_N y / 16))); try done.
Qed.
Lemma spelled_compare a b : cmp (spelled a) (spelled b) = cmp a b.
Proof. rewrite <- hex_compare. done. Qed.
Lemma spelled_lt a b : ltb (spelled a) (spelled b) = ltb a b.
Proof. unfold ltb. by rewrite spelled_compare. Qed.
Lemma spelled_inj a b : spelled a = spelled b -> a = b.
Proof. intros H. apply cmp_eq_iff. rewrite <- spelled_compare, H. apply cmp_refl. Qed.

Lemma lower_hex_digit a : lower_hex_byte a = true -> exists n, n < 16 /\ hex_digit n = a.
Proof.
  intros Ha. exists (if N_of_ascii a <? 58 then N_of_ascii a - 48 else N_of_ascii a - 87).
  destruct a as [[] [] [] [] [] [] [] []]; vm_compute in Ha; try discriminate Ha; vm_compute; done.
Qed.
Lemma unhex n : forall c, String.length c = (2 * n)%nat -> str_all lower_hex_byte c = true -> exists b, length b = n /\ hex_of b = c.
Proof.
  induction n as [|n IH]; intros c Hl Hc; [destruct c; [|done]; by exists []|].
  destruct c as [|hi [|lo c]]; cbn in Hl; [lia..|]. cbn [str_all] in Hc. bool_split.
  destruct (IH c) as (b & Hb & <-); [lia|done|]. destruct (lower_hex_digit hi) as (h & Hh & <-), (lower_hex_digit lo) as (l & Hll & <-); try done.
  exists (default x00 (Byte.of_N (16 * h + l)) :: b). split; [cbn; lia|]. cbn [hex_of]. rewrite byte_of_small by lia.
  replace ((16 * h + l) / 16) with h by (apply (N.div_unique _ 16 _ l); lia).
  replace ((16 * h + l) mod 16) with l by (apply (N.mod_unique _ 16 h); lia). done.
Qed.

Section Digests.
Context {H : HexCodec} {HL : HexLaws H}.

Lemma component_bytes d c : digest_component d = Ok c -> exists w, length w = 32%nat /\ c = hex_of w /\ d = spelled w.
Proof.
  rewrite digest_component_ok. unfold digest_by_prefix. destruct (strip_prefix "sha256:" d) as [s|] eqn:Hp; [|done].
  apply strip_prefix_spec in Hp as ->. destruct ((str_len s =? 64) && str_all lower_hex_byte s) eqn:E; [|done]. intros [= <-].
  apply andb_true_iff in E as [Hl Hs]. apply N.eqb_eq in Hl. unfold str_len in Hl.
  destruct (unhex 32 s) as (w & Hw & <-); [lia|done|]. by exists w.
Qed.
Lemma hex_of_length w : String.length (hex_of w) = (2 * length w)%nat.
Proof. induction w as [|x w IH]; [done|]. cbn. rewrite IH. lia. Qed.
Lemma hex_of_lower w : str_all lower_hex_byte (hex_of w) = true.
Proof.
  induction w as [|x w IH]; [done|]. cbn. pose proof (Byte.to_N_bounded x). rewrite !hex_digit_lower; [done|apply N.mod_lt; lia|].
  apply N.Div0.div_lt_upper_bound. lia.
Qed.
Lemma spelled_component w : length w = 32%nat -> digest_component (spelled w) = Ok (hex_of w).
Proof.
  intros Hw. apply digest_component_ok. unfold digest_by_prefix, spelled.
  rewrite (proj2 (strip_prefix_spec "sha256:" _ (hex_of w)) eq_refl). unfold str_len. by rewrite hex_of_length, Hw, hex_of_lower.
Qed.
Lemma binary_spelled w : length w = 32%nat -> binary_digest (spelled w) = Ok w.
Proof. intros Hw. unfold binary_digest. rewrite spelled_component by done. cbn. by rewrite hex_decode_spec. Qed.
Lemma binary_digest_ok d c : digest_component d = Ok c -> exists w, length w = 32%nat /\ d = spelled w /\ binary_digest d = Ok w.
Proof. intros (w & Hw & _ & ->)%component_bytes. exists w. split_and!; [done|done|by apply binary_spelled]. Qed.
End Digests.

(* --------------------------------------------------------------------- *)
(** ** Chunks *)

Section Chunks.
Context {A : Type}.
Implicit Types l : list A.

Lemma chunks_upto_fuel n l : forall f f', (0 < n)%nat -> (length l <= f)%nat -> (length l <= f')%nat -> chunks_upto f n l = chunks_upto f' n l.
Proof.
  remember (length l) as k eqn:Hk. revert l Hk. induction k as [k IH] using lt_wf_ind. intros l -> f f' Hn Hf Hf'.
  destruct l as [|a l]; [by destruct f, f'|]. destruct f as [|f]; [cbn in Hf; lia|]. destruct f' as [|f']; [cbn in Hf'; lia|].
  cbn [chunks_upto]. f_equal. pose proof (length_drop (a :: l) n) as Hd. cbn in Hd, Hf, Hf'. eapply IH; [|done|done|lia|lia]. cbn in *. lia.
Qed.
Lemma chunks_cons n l : 0 < n -> l <> [] -> chunks n l = take (N.to_nat n) l :: chunks n (drop (N.to_nat n) l).
Proof.
  intros Hn Hl. unfold chunks. destruct l as [|a l]; [done|]. cbn [length chunks_upto]. f_equal.
  apply chunks_upto_fuel; [lia| |done]. rewrite length_drop. cbn. lia.
Qed.
Lemma chunks_nil n : chunks n ([] : list A) = [].
Proof. done. Qed.

(** Full chunks, except that the last one may be short. *)
Fixpoint chunked (n : N) (cs : list (list A)) : Prop :=
  match cs with
  | [] => True
  | c :: cs' => c <> [] /\ vlen c <= n /\ (cs' <> [] -> vlen c = n) /\ chunked n cs'
  end.
Lemma chunks_spec n l : 0 < n -> concat (chunks n l) = l /\ chunked n (chunks n l).
Proof.
  intros Hn. remember (length l) as k eqn:Hk. revert l Hk. induction k as [k IH] using lt_wf_ind. intros l ->.
  destruct (decide (l = [])) as [->|Hl]; [done|]. rewrite chunks_cons by done.
  assert (length (drop (N.to_nat n) l) < length l)%nat as Hlt by (rewrite length_drop; destruct l; [done|cbn; lia]).
  destruct (IH _ Hlt _ eq_refl) as [Hc Hk]. cbn [concat chunked]. rewrite Hc, take_drop. split; [done|].
  assert (vlen (take (N.to_nat n) l) = N.min n (vlen l)) as Hlen by (unfold vlen; rewrite length_take; lia).
  split_and!; [|lia| |done].
  - intros E. rewrite E in Hlen. unfold vlen in Hlen. destruct l; [done|cbn in Hlen; lia].
  - intros Hne. rewrite Hlen. destruct (decide (vlen l <= n)); [|lia]. exfalso. apply Hne. rewrite drop_ge by (unfold vlen in *; lia). done.
Qed.

(** Pieces of the same length are found again. *)
Lemma chunks_pieces n (ps : list (list A)) : 0 < n -> Forall (fun p => vlen p = n) ps -> chunks n (concat ps) = ps.
Proof.
  intros Hn. induction 1 as [|p ps Hp Hps IH]; [done|]. cbn [concat].
  rewrite chunks_cons; [|done|]. 2: { intros E. apply app_eq_nil in E as [-> _]. unfold vlen in Hp. cbn in Hp. lia. }
  rewrite take_app_length', drop_app_length' by (unfold vlen in Hp; lia). by rewrite IH.
Qed.
Lemma chunks_exact_pieces n (ps : list (list A)) : 0 < n -> Forall (fun p => vlen p = n) ps -> chunks_exact n (concat ps) = ps.
Proof.
  intros Hn Hps. unfold chunks_exact. rewrite chunks_pieces by done. induction Hps as [|p ps Hp Hps IH]; [done|].
  cbn. rewrite Hp, N.eqb_refl. by rewrite IH.
Qed.
End Chunks.

Lemma lookup_first {A} (x : A) l : (x :: l) !! 0%nat = Some x.
Proof. done. Qed.
Lemma lookup_next {A} (x : A) l i : (x :: l) !! S i = l !! i.
Proof. done. Qed.
Lemma get_lookup {A} (l : list A) n : get l n = l !! N.to_nat n.
Proof.
  unfold get. destruct (N.ltb_spec n (vlen l)); [done|]. symmetry. apply lookup_ge_None_2. unfold vlen in *. lia.
Qed.

(* --------------------------------------------------------------------- *)
(** ** Rows *)

Record row_ok (r : Row) : Prop := mkRowOk {
  ro_digest : length (row_digest r) = 32%nat;
  ro_pack : row_pack r <= u32_max;
  ro_schema : row_schema r <= u32_max;
  ro_size : row_size r <= u64_max;
  ro_offset : row_offset r <= u64_max
}.

Lemma encode_row_length r : row_ok r -> vlen (encode_row r) = ROW_BYTES.
Proof. intros [Hd _ _ _ _]. unfold encode_row, vlen. rewrite !length_app, !le_bytes_length, Hd. done. Qed.

Lemma slice_middle {A} (a b c : list A) i j : length a = N.to_nat i -> length b = N.to_nat (j - i) -> slice_of i j (a ++ b ++ c) = b.
Proof. intros Ha Hb. unfold slice_of. by rewrite drop_app_length', take_app_length' by done. Qed.

Lemma decode_encode_row r : row_ok r -> decode_row (encode_row r) = r.
Proof.
  intros [Hd Hp Hs Hz Ho]. unfold decode_row, encode_row. destruct r as [d p s z o]. cbn [row_digest row_pack row_schema row_size row_offset] in *.
  f_equal.
  - by rewrite take_app_length'.
  - rewrite slice_middle by (rewrite ?le_bytes_length, ?Hd; done). apply from_le_bytes. unfold u32_max in Hp. cbn in *. lia.
  - rewrite app_assoc, slice_middle by (rewrite ?length_app, ?le_bytes_length, ?Hd; done). apply from_le_bytes. unfold u32_max in Hs. cbn in *. lia.
  - rewrite (app_assoc d), (app_assoc (d ++ _)), slice_middle by (rewrite ?length_app, ?le_bytes_length, ?Hd; done).
    apply from_le_bytes. unfold u64_max in Hz. cbn in *. lia.
  - rewrite (app_assoc d), (app_assoc (d ++ _)), (app_assoc ((d ++ _) ++ _)), <- (app_nil_r (le_bytes 8 o)).
    rewrite slice_middle by (rewrite ?length_app, ?le_bytes_length, ?Hd; done). apply from_le_bytes. unfold u64_max in Ho. cbn in *. lia.
Qed.

Lemma encode_rows_pieces rows : encode_rows rows = concat (encode_row <$> rows).
Proof. induction rows as [|r rows IH]; [done|]. cbn. by rewrite <- IH. Qed.
Lemma encode_rows_app a b : encode_rows (a ++ b) = encode_rows a ++ encode_rows b.
Proof. apply flat_map_app. Qed.
Lemma encode_rows_length rows : Forall row_ok rows -> vlen (encode_rows rows) = vlen rows * ROW_BYTES.
Proof.
  induction 1 as [|r rows Hr Hrows IH]; [done|]. cbn [encode_rows flat_map]. rewrite vlen_app, vlen_cons, encode_row_length by done.
  fold (encode_rows rows). rewrite IH. lia.
Qed.
Lemma encoded_chunks rows : Forall row_ok rows -> chunks_exact ROW_BYTES (encode_rows rows) = encode_row <$> rows.
Proof.
  intros Hr. rewrite encode_rows_pieces. apply chunks_exact_pieces; [done|]. apply list.Forall_fmap. eapply list.Forall_impl; [exact Hr|].
  intros r. apply encode_row_length.
Qed.

(* --------------------------------------------------------------------- *)
(** ** Pages *)

Definition before (a b : Row) : Prop := lt_ord (row_digest a) (row_digest b).

Lemma find_row_none w rows : find_row w rows = None <-> Forall (fun r => row_digest r <> w) rows.
Proof.
  unfold find_row. induction rows as [|r rows IH]; [done|]. cbn. case_bool_decide; [|rewrite IH, list.Forall_cons; naive_solver].
  split; [done|]. intros [Hr _]%list.Forall_cons. done.
Qed.
Lemma find_row_some w rows r : find_row w rows = Some r -> r ∈ rows /\ row_digest r = w.
Proof. intros [Hin Hb]%find_some. apply bool_decide_eq_true_1 in Hb. split; [by apply list_elem_of_In|done]. Qed.
Lemma find_row_app w a b : find_row w (a ++ b) = match find_row w a with Some r => Some r | None => find_row w b end.
Proof. unfold find_row. induction a as [|r a IH]; [done|]. cbn. by destruct (bool_decide _). Qed.
Lemma find_row_skip w a b : Forall (fun r => row_digest r <> w) a -> find_row w (a ++ b) = find_row w b.
Proof. intros Ha%find_row_none. by rewrite find_row_app, Ha. Qed.
Lemma find_row_keep w a b : Forall (fun r => row_digest r <> w) b -> find_row w (a ++ b) = find_row w a.
Proof. intros Hb%find_row_none. rewrite find_row_app, Hb. by destruct (find_row w a). Qed.

Lemma sorted_bounds rows r : StronglySorted before rows -> r ∈ rows ->
  (forall f, List.hd_error rows = Some f -> ~ lt_ord (row_digest r) (row_digest f)) /\
  (forall l, list.last rows = Some l -> ~ lt_ord (row_digest l) (row_digest r)).
Proof.
  induction 1 as [|x rows Hs IH Hall]; intros Hin; [set_solver|]. rewrite list.Forall_forall in Hall.
  apply elem_of_cons in Hin as [->|Hin].
  - split; [intros f [= <-]; apply lt_irrefl|]. intros l Hl. destruct rows as [|y rows]; [injection Hl as <-; apply lt_irrefl|].
    rewrite last_cons_cons in Hl. apply last_Some_elem_of in Hl. apply lt_asym. by apply Hall.
  - destruct (IH Hin) as [_ Hlast]. split.
    + intros f [= <-]. apply lt_asym. by apply Hall.
    + intros l Hl. destruct rows as [|y rows]; [set_solver|]. rewrite last_cons_cons in Hl. by apply Hlast.
Qed.

Section Pages.
Context {P : Primitives} {PL : PrimitivesLaws P} {R : JsonReader} {H : HexCodec} {HL : HexLaws H}.

Fixpoint pages_from (offset : N) (cs : list (list Row)) : list Page :=
  match cs with
  | [] => []
  | c :: cs' => {| pg_first := row_name (List.hd_error c); pg_last := row_name (list.last c); pg_digest := hash_bytes (encode_rows c);
                   pg_offset := offset; pg_rows := vlen c |} :: pages_from (offset + vlen (encode_rows c)) cs'
  end.
Lemma add_pages cs : forall data pages, foldl add_page (data, pages) cs = (data ++ encode_rows (concat cs), pages ++ pages_from (vlen data) cs).
Proof.
  induction cs as [|c cs IH]; intros data pages; [by rewrite !app_nil_r|]. cbn [foldl]. cbn [add_page]. rewrite IH.
  cbn [concat pages_from]. rewrite encode_rows_app, !app_assoc, <- (app_assoc pages), vlen_app, drop_app_length. done.
Qed.
Lemma paginate_spec rows : paginate rows = (encode_rows rows, pages_from 0 (chunks PAGE_ROWS rows)).
Proof. unfold paginate. rewrite add_pages. cbn [app]. by rewrite (proj1 (chunks_spec PAGE_ROWS rows eq_refl)). Qed.

Lemma row_name_spelled r : row_name (Some r) = spelled (row_digest r).
Proof. unfold row_name. by rewrite hex_encode_spec. Qed.

Lemma chunk_ends (c : list Row) : c <> [] -> exists f l, List.hd_error c = Some f /\ list.last c = Some l /\ f ∈ c /\ l ∈ c.
Proof.
  intros Hc. destruct (list.last c) as [l|] eqn:Hl; [|by apply last_None in Hl]. destruct c as [|f c]; [done|].
  exists f, l. split_and!; [done|done|by left|by apply last_Some_elem_of].
Qed.

Lemma pages_lookup cs : forall offset i c, cs !! i = Some c -> exists page, pages_from offset cs !! i = Some page /\
  pg_first page = row_name (List.hd_error c) /\ pg_last page = row_name (list.last c) /\ pg_digest page = hash_bytes (encode_rows c) /\
  pg_rows page = vlen c /\ exists a b, concat cs = a ++ c ++ b /\ pg_offset page = offset + vlen (encode_rows a).
Proof.
  induction cs as [|x cs IH]; intros offset i c Hi; [done|]. destruct i as [|i]; cbn in Hi.
  - injection Hi as ->. eexists. split; [done|]. cbn. split_and!; try done. exists [], (concat cs). split; [done|]. unfold vlen. cbn. lia.
  - destruct (IH (offset + vlen (encode_rows x)) i c Hi) as (page & Hp & ? & ? & ? & ? & a & b & Hcat & Hoff). exists page.
    split_and!; try done. exists (x ++ a), b. cbn [concat]. rewrite Hcat, <- app_assoc. split; [done|].
    rewrite Hoff, encode_rows_app, vlen_app. lia.
Qed.
Lemma pages_length cs : forall offset, length (pages_from offset cs) = length cs.
Proof. induction cs as [|c cs IH]; intros offset; [done|]. cbn. by rewrite IH. Qed.

Section Written.
Context (m : LookupManifest) (rows : list Row).
Notation cs := (chunks PAGE_ROWS rows).
(** A row that the manifest admits. *)
Definition row_fits (r : Row) : Prop := row_ok r /\ row_schema r < vlen (lm_object_schemas m) /\
  exists pack, get (lm_packs m) (row_pack r) = Some pack /\ row_offset r + row_size r <= lp_data_size pack /\ lp_data_size pack <= u64_max.
Hypothesis Hfits : Forall row_fits rows.
Hypothesis Hsorted : StronglySorted before rows.
Hypothesis Hpages : lm_pages m = pages_from 0 cs.

Lemma admit_rows l : forall acc, Forall row_fits l -> StronglySorted before (acc ++ l) -> try_fold (admit_row m) acc (encode_row <$> l) = Ok (acc ++ l).
Proof.
  induction l as [|r l IH]; intros acc Hl Hs; [by rewrite app_nil_r|]. apply list.Forall_cons in Hl as [(Hr & Hsch & pack & Hp & Hend & Hmax) Hl].
  cbn [fmap list_fmap try_fold]. unfold admit_row at 1. rewrite decode_encode_row, Hp by done. cbn [ok_or result_bind].
  rewrite (proj2 (N.leb_gt _ _) Hsch). rewrite (proj2 (u64_checked_add_some _ _ _) (conj eq_refl (N.le_trans _ _ _ Hend Hmax))).
  rewrite (proj2 (N.ltb_ge _ _) Hend). cbn [orb].
  assert (match list.last acc with Some previous => geb (row_digest previous) (row_digest r) | None => false end = false) as ->.
  { destruct (list.last acc) as [x|] eqn:Hx; [|done]. apply geb_false. apply StronglySorted_app in Hs as (_ & _ & Hlt).
    apply Hlt; [by apply last_Some_elem_of|by left]. }
  cbn [result_bind]. rewrite IH; [by rewrite <- app_assoc|done|]. by rewrite <- app_assoc.
Qed.

Lemma chunk_rows i c : cs !! i = Some c -> c <> [] /\ Forall row_fits c /\ StronglySorted before c.
Proof.
  intros Hi. destruct (chunks_spec PAGE_ROWS rows eq_refl) as [Hcat Hch]. split.
  - clear -Hi Hch. revert i Hi. induction cs as [|x l IH]; intros [|i] Hi; cbn in Hi; [done..| |]; destruct Hch as (? & _ & _ & ?); [naive_solver|by eapply IH].
  - assert (exists a b, rows = a ++ c ++ b) as (a & b & Heq).
    { destruct (pages_lookup cs 0 i c Hi) as (_ & _ & _ & _ & _ & _ & a & b & Hab & _). exists a, b. by rewrite <- Hab. }
    rewrite Heq in Hfits, Hsorted. apply list.Forall_app in Hfits as [_ Hf]. apply list.Forall_app in Hf as [Hf _]. split; [done|].
    apply StronglySorted_app in Hsorted as (_ & Hs & _). apply StronglySorted_app in Hs as (Hs & _ & _). done.
Qed.

(** A page reads back. *)
Lemma load_written i c : cs !! i = Some c -> load_page m (encode_rows rows) i = Ok c.
Proof.
  intros Hi. destruct (chunk_rows i c Hi) as (Hne & Hf & Hs). destruct (pages_lookup cs 0 i c Hi) as (page & Hp & Hfirst & Hlast & Hd & Hn & a & b & Hcat & Hoff).
  rewrite (proj1 (chunks_spec PAGE_ROWS rows eq_refl)) in Hcat. assert (Forall row_ok rows) as Hall.
  { eapply list.Forall_impl; [exact Hfits|]. by intros r (? & _). }
  assert (Forall row_ok c) as Hc by (eapply list.Forall_impl; [exact Hf|]; by intros r (? & _)).
  unfold load_page. rewrite Hpages, Hp. unfold read_exact_at.
  assert (take (N.to_nat (pg_rows page * ROW_BYTES)) (drop (N.to_nat (pg_offset page)) (encode_rows rows)) = encode_rows c) as ->.
  { rewrite Hcat, !encode_rows_app, Hoff, Hn, <- encode_rows_length by done. unfold vlen. rewrite drop_app_length' by lia.
    apply take_app_length'. lia. }
  rewrite Hn, encode_rows_length, N.eqb_refl by done. cbn [ok_or result_bind]. rewrite Hd, str_neqb_refl, encoded_chunks by done.
  rewrite (admit_rows c []) by done. cbn [app result_bind]. unfold page_range.
  destruct (chunk_ends c Hne) as (f & l & Hhd & Hl & Hfin & Hlin). rewrite list.Forall_forall in Hc.
  rewrite Hfirst, Hlast, Hhd, Hl, !row_name_spelled, !binary_spelled by (by apply Hc).
  cbn [result_bind]. destruct c as [|f' c]; [done|]. injection Hhd as ->. cbn [List.hd_error head fmap option_fmap option_map]. by rewrite !bool_decide_eq_true_2.
Qed.
End Written.

(** The selected page is the only one that can hold a digest. *)
Lemma select_rows w cs : forall n offset, chunked n cs -> StronglySorted before (concat cs) ->
  let k := partition_point (fun page => ltb (pg_last page) (spelled w)) (pages_from offset cs) in
  match pages_from offset cs !! k, cs !! k with
  | Some page, Some c => find_row w (concat cs) = if ltb (spelled w) (pg_first page) then None else find_row w c
  | None, None => find_row w (concat cs) = None
  | _, _ => False
  end.
Proof.
  induction cs as [|c cs IH]; intros n offset Hch Hs k; [done|]. destruct Hch as (Hne & _ & _ & Hch).
  cbn [concat] in Hs |- *. pose proof Hs as (Hsc & Hsr & Hcross)%StronglySorted_app.
  destruct (chunk_ends c Hne) as (f & l & Hhd & Hl & Hfin & Hlin). subst k. cbn [pages_from partition_point pg_last]. rewrite Hl, row_name_spelled, spelled_lt.
  destruct (ltb (row_digest l) w) eqn:Hlt.
  - rewrite !lookup_next, find_row_skip; [by eapply IH|]. rewrite list.Forall_forall. intros r Hr <-. apply ltb_lt in Hlt.
    by apply (proj2 (sorted_bounds c r Hsc Hr) l Hl).
  - rewrite !lookup_first. cbn [pg_first]. apply ltb_ge in Hlt. rewrite Hhd, row_name_spelled, spelled_lt.
    rewrite find_row_keep.
    2: { rewrite list.Forall_forall. intros r Hr <-. apply Hlt. by apply Hcross. }
    destruct (ltb w (row_digest f)) eqn:Hw; [|done]. apply find_row_none. rewrite list.Forall_forall. intros r Hr <-. apply ltb_lt in Hw.
    by apply (proj1 (sorted_bounds c r Hsc Hr) f Hhd).
Qed.
End Pages.

(* --------------------------------------------------------------------- *)
(** ** Rows of a snapshot *)

Notation le_row := (fun x y => ~ lt_ord (row_key y) (row_key x)).

Lemma le_row_digest x y : le_row x y -> ~ lt_ord (row_digest y) (row_digest x).
Proof. intros Hle Hlt. apply Hle. unfold lt_ord, row_key, cmp, Ord_pair. cbn [fst snd]. unfold lt_ord in Hlt. by rewrite Hlt. Qed.
Lemma le_row_pack x y : le_row x y -> row_digest x = row_digest y -> row_pack x <= row_pack y.
Proof.
  intros Hle Heq. apply N.le_ngt. intros Hlt. apply Hle. unfold lt_ord, row_key, cmp at 1, Ord_pair. cbn [fst snd].
  rewrite Heq, cmp_refl. by apply N.compare_lt_iff.
Qed.

(** The first row of every run of equal digests is kept. *)
Record deduplicated (rows out : list Row) : Prop := mkDeduplicated {
  dd_sorted : StronglySorted before out;
  dd_least : forall r, r ∈ out -> r ∈ rows /\ forall r', r' ∈ rows -> row_digest r' = row_digest r -> row_pack r <= row_pack r';
  dd_covers : forall r', r' ∈ rows -> exists r, r ∈ out /\ row_digest r = row_digest r'
}.

Lemma dedup_from_spec l : forall x, StronglySorted le_row (x :: l) -> deduplicated (x :: l) (x :: dedup_from_row x l).
Proof.
  induction l as [|y l IH]; intros x Hs.
  { split; [repeat constructor| |]; intros r Hr%list_elem_of_singleton; subst.
    - split; [by left|]. intros r' Hr'%list_elem_of_singleton _. subst. lia.
    - exists x. split; [by left|done]. }
  inversion Hs as [|? ? Hs' Hx]; subst. apply list.Forall_cons in Hx as [Hxy Hxl]. cbn [dedup_from_row]. case_bool_decide as Heq.
  - destruct (IH x) as [H1 H2 H3]. { constructor; [by inversion Hs'|done]. } split; [done| |].
    + intros r Hr. destruct (H2 r Hr) as [Hin Hle]. split; [set_solver|]. intros r' [->|[->|Hr']%elem_of_cons]%elem_of_cons Hd.
      * apply Hle; [by left|done].
      * transitivity (row_pack x); [apply Hle; [by left|congruence]|]. by apply le_row_pack.
      * apply Hle; [by right|done].
    + intros r' [->|[->|Hr']%elem_of_cons]%elem_of_cons; [exists x; split; [by left|done]..|]. apply H3. by right.
  - destruct (IH y Hs') as [H1 H2 H3].
    assert (forall r, r ∈ y :: l -> before x r) as Hlt.
    { intros r Hr. pose proof (le_row_digest _ _ Hxy) as Hle. apply nlt_cases in Hle as [Hd|Hd]; [congruence|].
      apply elem_of_cons in Hr as [->|Hr]; [done|]. inversion Hs' as [|? ? _ Hyl]; subst. rewrite list.Forall_forall in Hyl.
      pose proof (le_row_digest _ _ (Hyl r Hr)) as Hle. unfold before. apply nlt_cases in Hle as [->|Hd']; [done|by eapply lt_trans]. }
    split.
    + constructor; [done|]. rewrite list.Forall_forall. intros r Hr. apply Hlt. by destruct (H2 r Hr).
    + intros r [->|Hr]%elem_of_cons.
      * split; [by left|]. intros r' [->|Hr']%elem_of_cons Hd; [lia|]. exfalso. apply Hlt in Hr'. unfold before in Hr'. rewrite Hd in Hr'. exact (lt_irrefl _ Hr').
      * destruct (H2 r Hr) as [Hin Hle]. split; [by right|]. intros r' [->|Hr']%elem_of_cons Hd; [|by apply Hle].
        exfalso. apply Hlt in Hin. unfold before in Hin. rewrite Hd in Hin. exact (lt_irrefl _ Hin).
    + intros r' [->|Hr']%elem_of_cons; [exists x; split; [by left|done]|]. destruct (H3 r' Hr') as (r & Hr & Hd). exists r. split; [by right|done].
Qed.
Lemma dedup_rows_spec rows : StronglySorted le_row rows -> deduplicated rows (dedup_rows rows).
Proof. destruct rows as [|x l]; intros Hs; [|by apply dedup_from_spec]. split; [constructor|set_solver..]. Qed.

Lemma ordinal_get x l n : ordinal x l = Some n -> get l n = Some x /\ n < vlen l.
Proof.
  revert n. induction l as [|y l IH]; intros n Hn; [done|]. cbn in Hn. rewrite vlen_cons. destruct (str_eqb x y) eqn:E.
  - injection Hn as <-. apply str_eqb_eq in E as ->. split; [|lia]. by rewrite get_lookup.
  - apply fmap_Some in Hn as (k & Hk & ->). destruct (IH k Hk) as [Hg Hlt]. split; [|lia]. rewrite get_lookup in *. by rewrite N2Nat.inj_succ.
Qed.

Section Snapshots.
Context {P : Primitives} {PL : PrimitivesLaws P} {H : HexCodec} {HL : HexLaws H}.
Context (snapshot : CatalogSnapshot) (st : CatalogState) (d : string).
Hypothesis Hst : catalog_state_from_snapshot snapshot d = Ok st.
Notation ps := (cs_packs snapshot).
Notation schemas := (object_schemas_of snapshot).
Definition pack_entry (p : CatalogPack) : string * PackManifest := (cp_data_name p, cp_manifest p).

Lemma packs_of_snapshot : packs st = pack_entry <$> ps /\ bmap_wf (packs st) /\ Forall pack_admitted (packs st).
Proof.
  pose proof (snapshot_typed _ _ _ Hst) as [[Hw _] Ha]. split; [|done]. unfold catalog_state_from_snapshot in Hst.
  apply result_bind_ok in Hst as ([qs prev] & Hfold & Hst'). apply result_bind_ok in Hst' as (L & _ & [= <-]). cbn [fst packs].
  refine (proj1 (try_fold_inv snapshot_step (fun pre acc => acc.1 = pack_entry <$> pre /\ bmap_wf acc.1 /\
    Forall (fun k => exists name, acc.2 = Some name /\ (k = name \/ lt_ord k name)) acc.1.*1) ps ([], None) (qs, prev) [] _ _ Hfold)).
  - split_and!; [done|constructor..].
  - intros pre pack [rs q] acc' (Hrs & Hwf & Hq) Hstep. unfold snapshot_step in Hstep. cbn [fst snd] in *. destruct (match q with Some _ => _ | None => _ end) eqn:Hprev; [done|].
    rewrite seq_ok in Hstep. destruct Hstep as [_ Hstep]. destruct (bmap_get _ _); [done|]. injection Hstep as <-. cbn [fst snd].
    assert (Forall (fun k => lt_ord k (cp_data_name pack)) rs.*1) as Hlt.
    { eapply list.Forall_impl; [exact Hq|]. intros k (name & -> & Hk). apply geb_false in Hprev. destruct Hk as [->|Hk]; [done|by eapply lt_trans]. }
    pose proof (bmap_insert_wf (cp_data_name pack) (cp_manifest pack) rs Hwf) as Hwf'. rewrite bmap_insert_snoc in * by done. split_and!; [|done|].
    + by rewrite Hrs, fmap_app.
    + rewrite fmap_app. apply list.Forall_app. split; [|repeat constructor; eexists; by eauto].
      eapply list.Forall_impl; [exact Hlt|]. intros k Hk. eexists. by eauto.
Qed.

(** Row [r] stands for entry [e] of pack [i]. *)
Definition stands_for (r : Row) (i : nat) (p : CatalogPack) (e : PackEntry) : Prop :=
  ps !! i = Some p /\ e ∈ pm_objects (cp_manifest p) /\ row_of schemas (N.of_nat i) e = Ok r.

Lemma collected rows : collect_rows snapshot = Ok rows -> StronglySorted before rows /\
  (forall r, r ∈ rows -> exists i p e, stands_for r i p e /\
     forall j q e', ps !! j = Some q -> e' ∈ pm_objects (cp_manifest q) -> digest (pe_object e') = digest (pe_object e) -> (i <= j)%nat) /\
  (forall j q e', ps !! j = Some q -> e' ∈ pm_objects (cp_manifest q) ->
     exists r, r ∈ rows /\ binary_digest (digest (pe_object e')) = Ok (row_digest r)).
Proof.
  unfold collect_rows. intros Hc. apply result_bind_ok in Hc as (rowss & Hmap & Hc). destruct (windows_any _ _); [done|]. injection Hc as <-.
  apply try_map_ok in Hmap. set (all := sort_by (cmp_on row_key) (concat rowss)).
  assert (forall r, r ∈ all <-> exists i p e, stands_for r i p e) as Hall.
  { intros r. unfold all. rewrite (elem_of_Permutation_proper r _ _ (sort_by_perm _ _)). rewrite list_elem_of_In, in_concat. split.
    - intros (rs & Hrs & Hr). apply list_elem_of_In, list_elem_of_lookup in Hrs as [k Hk]. destruct (Forall2_lookup_r _ _ _ _ _ Hmap Hk) as ([i p] & Hz & Hrow).
      apply lookup_zip_Some in Hz as [Hi Hp]. apply lookup_seq in Hi as [-> _]. apply try_map_ok in Hrow.
      apply list_elem_of_In, list_elem_of_lookup in Hr as [n Hn]. destruct (Forall2_lookup_r _ _ _ _ _ Hrow Hn) as (e & He & Hre).
      exists k, p, e. split_and!; [done|by eapply list_elem_of_lookup_2|done].
    - intros (i & p & e & Hp & He & Hre). assert (zip (seq 0 (length ps)) ps !! i = Some (i, p)) as Hz.
      { apply lookup_zip_Some. split; [|done]. apply lookup_seq. split; [done|by apply lookup_lt_Some in Hp]. }
      destruct (Forall2_lookup_l _ _ _ _ _ Hmap Hz) as (rs & Hrs & Hrow). apply try_map_ok in Hrow. cbn [fst snd] in Hrow.
      apply list_elem_of_lookup in He as [n Hn]. destruct (Forall2_lookup_l _ _ _ _ _ Hrow Hn) as (r' & Hr' & Hre').
      rewrite Hre in Hre'. injection Hre' as <-. exists rs. split; apply list_elem_of_In; by eapply list_elem_of_lookup_2. }
  assert (forall r i p e, stands_for r i p e -> row_pack r = N.of_nat i /\ binary_digest (digest (pe_object e)) = Ok (row_digest r)) as Hfields.
  { intros r i p e (_ & _ & Hr). unfold row_of in Hr. ok_inv Hr. destruct (N.of_nat i <=? u32_max); [|discriminate Hok0]. injection Hok0 as <-. done. }
  assert (forall j q e', ps !! j = Some q -> e' ∈ pm_objects (cp_manifest q) -> exists r', stands_for r' j q e') as Hmade.
  { intros j q e' Hq He'. assert (zip (seq 0 (length ps)) ps !! j = Some (j, q)) as Hz.
    { apply lookup_zip_Some. split; [|done]. apply lookup_seq. split; [done|by apply lookup_lt_Some in Hq]. }
    destruct (Forall2_lookup_l _ _ _ _ _ Hmap Hz) as (rs & _ & Hrow). apply try_map_ok in Hrow.
    apply list_elem_of_lookup in He' as [n Hn]. destruct (Forall2_lookup_l _ _ _ _ _ Hrow Hn) as (r' & _ & Hre'). exists r'.
    split_and!; [done|by eapply list_elem_of_lookup_2|done]. }
  destruct (dedup_rows_spec all (sort_by_sorted row_key _)) as [Hs Hleast Hcov]. split_and!; [done| |].
  - intros r Hr. destruct (Hleast r Hr) as [Hin Hmin]. apply Hall in Hin as (i & p & e & Hre). exists i, p, e. split; [done|].
    intros j q e' Hq He' Hd. destruct (Hmade j q e' Hq He') as (r' & Hr'). destruct (Hfields _ _ _ _ Hre) as [Hpi Hdi], (Hfields _ _ _ _ Hr') as [Hpj Hdj].
    assert (row_pack r <= row_pack r') as Hle by (apply Hmin; [apply Hall; by exists j, q, e'|]; congruence). lia.
  - intros j q e' Hq He'. destruct (Hmade j q e' Hq He') as (r' & Hr'). destruct (Hcov r') as (r & Hr & Hd); [apply Hall; by exists j, q, e'|].
    exists r. split; [done|]. destruct (Hfields _ _ _ _ Hr') as [_ ->]. by rewrite Hd.
Qed.
End Snapshots.

Lemma bset_of_list_length (l : list string) : vlen (bset_of_list l) <= vlen l.
Proof.
  assert (length (bset_of_list l) <= length l)%nat; [|unfold vlen; lia]. apply submseteq_length, NoDup_submseteq.
  - apply bset_wf_NoDup, bset_of_list_wf.
  - intros x. by rewrite bset_of_list_elem.
Qed.
Lemma entries_validated es : forall a b, try_fold validate_entry a es = Ok b -> Forall (fun e => validate_reference (pe_object e) = Ok tt) es.
Proof.
  induction es as [|e es IH]; intros a b Hf; [constructor|]. cbn [try_fold] in Hf. ok_step Hf. constructor; [|by eapply IH].
  unfold validate_entry in Hok. apply result_bind_ok in Hok as ([] & Hv & _). done.
Qed.
Lemma admitted_entries {P : Primitives} n m : validate_pack_manifest n m = Ok tt -> Forall (fun e => validate_reference (pe_object e) = Ok tt) (pm_objects m).
Proof. unfold validate_pack_manifest. intros Hv. ok_inv Hv. by eapply entries_validated. Qed.
Lemma reference_fields o : validate_reference o = Ok tt -> schema o = CAS_OBJECT_SCHEMA /\ validate_object_schema (object_schema o) = Ok tt /\
  exists c, digest_component (digest o) = Ok c.
Proof.
  unfold validate_reference. intros Hv. ok_inv Hv; apply orb_false_iff in Hif as [Hs _]; apply str_neqb_false in Hs. split_and!; [done| |by eexists].
  by destruct a.
Qed.

Section Answers.
Context {P : Primitives} {PL : PrimitivesLaws P} {H : HexCodec} {HL : HexLaws H}.
Context (snapshot : CatalogSnapshot) (st : CatalogState) (d : string) (rows : list Row) (data : list byte) (pages : list Page).
Hypothesis Hst : catalog_state_from_snapshot snapshot d = Ok st.
Hypothesis Hsized : snapshot_sized snapshot.
Hypothesis Hcount : vlen (snapshot_entries snapshot) <= MAX_DATA_BYTES / ROW_BYTES.
Hypothesis Hrows : collect_rows snapshot = Ok rows.
Notation ps := (cs_packs snapshot).
Notation m := (make_manifest snapshot d rows data pages).

Lemma schemas_small : vlen (object_schemas_of snapshot) < 2 ^ 32.
Proof.
  unfold object_schemas_of. eapply N.le_lt_trans; [apply bset_of_list_length|]. unfold vlen. rewrite length_fmap.
  unfold vlen in Hcount. eapply N.le_lt_trans; [exact Hcount|]. done.
Qed.

Lemma pack_validated i p : ps !! i = Some p -> validate_pack_manifest (cp_data_name p) (cp_manifest p) = Ok tt /\ manifest_sized (cp_manifest p).
Proof.
  intros Hp. apply list_elem_of_lookup_2 in Hp. destruct (packs_of_snapshot _ _ _ Hst) as (Hps & _ & Ha). split.
  - rewrite list.Forall_forall in Ha. apply (Ha (pack_entry p)). rewrite Hps. by apply list_elem_of_fmap_2.
  - destruct Hsized as [_ Hs]. rewrite list.Forall_forall in Hs. by apply Hs.
Qed.

(** A row is the entry it stands for. *)
Lemma row_entry r i p e : stands_for snapshot r i p e -> row_fits m r /\ (exists w, length w = 32%nat /\ digest (pe_object e) = spelled w /\ row_digest r = w) /\
  row_location m (digest (pe_object e)) r = Ok {| pl_data_name := cp_data_name p; pl_entry := e |}.
Proof.
  intros (Hp & He & Hr). destruct (pack_validated _ _ Hp) as [Hv [Hpsz Hsz]]. rewrite list.Forall_forall in Hsz. destruct (Hsz e He) as [Hos Hof].
  pose proof (admitted_entries _ _ Hv) as Hval. rewrite list.Forall_forall in Hval. destruct (reference_fields _ (Hval e He)) as (Hschema & _ & c & Hc).
  destruct (binary_digest_ok _ _ Hc) as (w & Hw & Hd & Hb). destruct (pack_ranges_disjoint _ _ Hv) as (Hend & _ & _). rewrite list.Forall_forall in Hend.
  unfold row_of in Hr. rewrite Hb in Hr. cbn [result_bind] in Hr. destruct (N.of_nat i <=? u32_max) eqn:Hi; [|discriminate Hr]. apply N.leb_le in Hi. cbn [result_bind] in Hr.
  destruct (ordinal (object_schema (pe_object e)) (object_schemas_of snapshot)) as [k|] eqn:Hk; [|discriminate Hr]. cbn [ok_or result_bind] in Hr.
  apply Ok_inj in Hr. subst r. destruct (ordinal_get _ _ _ Hk) as [Hg Hlt]. pose proof schemas_small as Hsmall.
  rewrite (N.mod_small k) by lia.
  assert (get (lm_packs m) (N.of_nat i) = Some {| lp_data_name := cp_data_name p; lp_data_size := pm_data_size (cp_manifest p) |}) as Hpack.
  { rewrite get_lookup, Nat2N.id. cbn [make_manifest lm_packs]. by rewrite list_lookup_fmap, Hp. }
  split_and!.
  - split; [split; cbn [row_digest row_pack row_schema row_size row_offset]; try done; unfold u32_max; lia|]. split; [done|].
    eexists. split; [exact Hpack|]. split; [exact (Hend e He)|done].
  - by exists w.
  - unfold row_location. cbn [row_pack row_schema row_size row_offset]. rewrite Hpack. cbn [make_manifest lm_object_schemas]. rewrite Hg. cbn [lp_data_name].
    rewrite <- Hschema. by destruct e as [[os oh od osz] off].
Qed.

Lemma rows_fit : Forall (row_fits m) rows.
Proof.
  destruct (collected snapshot rows Hrows) as (_ & Hsound & _). rewrite list.Forall_forall. intros r Hr.
  destruct (Hsound r Hr) as (i & p & e & Hre & _). by destruct (row_entry _ _ _ _ Hre).
Qed.

Hypothesis Hdistinct : Forall (fun p => NoDup ((fun e => digest (pe_object e)) <$> pm_objects (cp_manifest p))) ps.

Lemma entries_packs l : l ∈ entries_of (packs st) <-> exists i p e, ps !! i = Some p /\ e ∈ pm_objects (cp_manifest p) /\ l = mkPackLocation (cp_data_name p) e.
Proof.
  destruct (packs_of_snapshot _ _ _ Hst) as (-> & _ & _). unfold entries_of. rewrite list_elem_of_In, in_flat_map. split.
  - intros (x & Hx & Hl). apply list_elem_of_In, list_elem_of_fmap in Hx as (p & -> & Hp). apply list_elem_of_In, list_elem_of_fmap in Hl as (e & -> & He).
    apply list_elem_of_lookup in Hp as [i Hi]. by exists i, p, e.
  - intros (i & p & e & Hp & He & ->). exists (pack_entry p). split; apply list_elem_of_In, list_elem_of_fmap_2; [by eapply list_elem_of_lookup_2|done].
Qed.

Lemma same_pack i j p q : ps !! i = Some p -> ps !! j = Some q -> (i < j)%nat -> lt_ord (cp_data_name p) (cp_data_name q).
Proof.
  intros Hp Hq Hij. destruct (packs_of_snapshot _ _ _ Hst) as (Hps & Hwf & _). rewrite Hps in Hwf. unfold bmap_wf in Hwf.
  rewrite <- list_fmap_compose in Hwf. apply (StronglySorted_fmap lt_ord (fst ∘ pack_entry)) in Hwf.
  assert (ps = take j ps ++ drop j ps) as Hsplit by (by rewrite take_drop). rewrite Hsplit in Hwf. apply StronglySorted_app in Hwf as (_ & _ & Hcross).
  apply Hcross.
  - apply list_elem_of_lookup. exists i. by rewrite lookup_take_lt.
  - apply list_elem_of_lookup. exists O. by rewrite lookup_drop, Nat.add_0_r.
Qed.

(** The rows answer as the location map of the catalog. *)
Lemma rows_answer w : length w = 32%nat ->
  match find_row w rows with
  | None => locations st !! spelled w = None
  | Some r => exists l, row_location m (spelled w) r = Ok l /\ locations st !! spelled w = Some l
  end.
Proof.
  intros Hw. destruct (collected snapshot rows Hrows) as (_ & Hsound & Hcomplete). pose proof (snapshot_typed _ _ _ Hst) as [[_ Hloc] _].
  destruct (winning_location _ _ (spelled w) Hloc) as [Hnone Hsome]. destruct (find_row w rows) as [r|] eqn:Hf.
  - apply find_row_some in Hf as [Hr Hdw]. destruct (Hsound r Hr) as (i & p & e & Hre & Hmin). destruct (row_entry _ _ _ _ Hre) as (_ & (w' & _ & Hde & Hdr) & Hrl).
    assert (digest (pe_object e) = spelled w) as Hdig by congruence. rewrite Hdig in *. eexists. split; [exact Hrl|]. destruct Hre as (Hp & He & _).
    destruct (locations st !! spelled w) as [l|] eqn:Hl.
    2: { exfalso. eapply (proj1 Hnone eq_refl); [apply entries_packs; by exists i, p, e|done]. }
    destruct (Hsome l eq_refl) as (Hin & Hd & Hleast). apply entries_packs in Hin as (j & q & e' & Hq & He' & ->). cbn in Hd.
    assert (i <= j)%nat as Hij by (by eapply Hmin).
    assert (leb (cp_data_name q) (cp_data_name p) = true) as Hle.
    { apply (Hleast (mkPackLocation (cp_data_name p) e)); [apply entries_packs; by exists i, p, e|done]. }
    assert (i = j) as <-.
    { destruct (decide (i = j)) as [|Hne]; [done|]. exfalso. pose proof (same_pack _ _ _ _ Hp Hq ltac:(lia)) as Hlt.
      unfold leb in Hle. apply negb_true_iff, ltb_ge in Hle. done. }
    rewrite Hp in Hq. injection Hq as <-. assert (e' = e) as ->; [|done].
    rewrite list.Forall_forall in Hdistinct. pose proof (Hdistinct p (list_elem_of_lookup_2 _ _ _ Hp)) as Hnd.
    apply list_elem_of_lookup in He as [a Ha], He' as [b Hb]. assert (a = b) as <-; [|congruence].
    apply (NoDup_lookup _ _ _ (spelled w) Hnd); rewrite list_lookup_fmap; [by rewrite Ha, <- Hdig|by rewrite Hb, <- Hd].
  - apply Hnone. intros l (i & p & e & Hp & He & ->)%entries_packs Hd. cbn in Hd. destruct (Hcomplete i p e Hp He) as (r & Hr & Hb).
    rewrite Hd, binary_spelled in Hb by done. injection Hb as Hdr. apply find_row_none in Hf. rewrite list.Forall_forall in Hf. by apply (Hf r Hr).
Qed.
End Answers.

(* --------------------------------------------------------------------- *)
(** ** Documents *)

(** Metadata of a file written after 1970. *)
Definition time_ok (z : Z) : Prop := (0 <= z < 2 ^ 63)%Z.
Record stat_ok (f : Fingerprint) : Prop := mkStatOk {
  sk_widths : fp_device f <= u64_max /\ fp_inode f <= u64_max /\ fp_bytes f <= u64_max;
  sk_times : time_ok (fp_modified_seconds f) /\ time_ok (fp_modified_nanoseconds f) /\ time_ok (fp_changed_seconds f) /\
    time_ok (fp_changed_nanoseconds f)
}.

Lemma decode_time z : time_ok z -> decode_i64 (JNumber (number_from_i64 z)) = Some z.
Proof.
  intros [H0 H1]. unfold number_from_i64. rewrite (proj2 (Z.leb_le _ _) H0). cbn [decode_i64]. destruct (N.leb_spec (Z.to_N z) i64_max) as [_|Hn].
  - by rewrite Z2N.id.
  - unfold i64_max in Hn. lia.
Qed.
Lemma shallow_time n z : time_ok z -> shallow n (JNumber (number_from_i64 z)).
Proof. intros [H0 H1]. unfold number_from_i64. rewrite (proj2 (Z.leb_le _ _) H0). apply shallow_natural. unfold u64_max. lia. Qed.
#[local] Hint Resolve shallow_time : core.

Lemma fingerprint_sorted f : sort_value (fingerprint_value f) =
  JObject [("bytes", number (fp_bytes f)); ("changedNanoseconds", JNumber (number_from_i64 (fp_changed_nanoseconds f)));
           ("changedSeconds", JNumber (number_from_i64 (fp_changed_seconds f))); ("device", number (fp_device f)); ("inode", number (fp_inode f));
           ("modifiedNanoseconds", JNumber (number_from_i64 (fp_modified_nanoseconds f)));
           ("modifiedSeconds", JNumber (number_from_i64 (fp_modified_seconds f)))].
Proof. reflexivity. Qed.
Lemma decode_fingerprint_written f : stat_ok f -> decode_fingerprint (sort_value (fingerprint_value f)) = Some f.
Proof.
  intros [(H1 & H2 & H3) (H4 & H5 & H6 & H7)]. rewrite fingerprint_sorted. unfold decode_fingerprint, number. cbn -[u64_max decode_u64 decode_i64 number_from_i64].
  rewrite !decode_u64_natural by done. cbn -[decode_i64 number_from_i64]. rewrite (decode_time _ H4), (decode_time _ H5), (decode_time _ H6), (decode_time _ H7).
  by destruct f.
Qed.
Lemma shallow_fingerprint f : stat_ok f -> shallow 1 (sort_value (fingerprint_value f)).
Proof.
  intros [(H1 & H2 & H3) (H4 & H5 & H6 & H7)]. rewrite fingerprint_sorted. apply (shallow_object 0). unfold number. shallow_fields.
Qed.

Lemma receipt_sorted r : sort_value (receipt_value r) =
  JObject [("data", sort_value (fingerprint_value (rc_data r))); ("manifestDigest", JString (rc_manifest_digest r)); ("schema", JString (rc_schema r));
           ("snapshot", sort_value (fingerprint_value (rc_snapshot r))); ("snapshotDigest", JString (rc_snapshot_digest r))].
Proof. reflexivity. Qed.
Lemma decode_receipt_written r : stat_ok (rc_snapshot r) -> stat_ok (rc_data r) -> decode_receipt (sort_value (receipt_value r)) = Some r.
Proof.
  intros H1 H2. rewrite receipt_sorted. unfold decode_receipt. cbn -[fingerprint_value sort_value decode_fingerprint].
  rewrite (decode_fingerprint_written _ H1), (decode_fingerprint_written _ H2). by destruct r.
Qed.

Lemma page_sorted p : sort_value (page_value p) =
  JObject [("digest", JString (pg_digest p)); ("first", JString (pg_first p)); ("last", JString (pg_last p)); ("offset", number (pg_offset p)); ("rows", number (pg_rows p))].
Proof. reflexivity. Qed.
Definition page_sized (p : Page) : Prop := pg_offset p <= u64_max /\ pg_rows p <= u32_max.
Lemma decode_page_written p : page_sized p -> decode_page (sort_value (page_value p)) = Some p.
Proof.
  intros [H1 H2]. rewrite page_sorted. unfold decode_page, number. cbn -[u64_max u32_max decode_u64 decode_u32].
  rewrite decode_u64_natural, decode_u32_natural by done. by destruct p.
Qed.
Lemma decode_lookup_pack_written p : lp_data_size p <= u64_max -> decode_lookup_pack (sort_value (lookup_pack_value p)) = Some p.
Proof.
  intros H1. change (sort_value (lookup_pack_value p)) with (lookup_pack_value p). unfold decode_lookup_pack, lookup_pack_value, number.
  cbn -[u64_max decode_u64]. rewrite decode_u64_natural by done. by destruct p.
Qed.

Record manifest_small (m : LookupManifest) : Prop := mkManifestSmall {
  ms_numbers : lm_sequence m <= u64_max /\ lm_object_count m <= u64_max /\ lm_data_bytes m <= u64_max;
  ms_packs : Forall (fun p => lp_data_size p <= u64_max) (lm_packs m);
  ms_pages : Forall page_sized (lm_pages m)
}.
Lemma manifest_sorted m : sort_value (lookup_manifest_value m) =
  JObject [("dataBytes", number (lm_data_bytes m)); ("lastRecordDigest", opt_string_value (lm_last_record_digest m));
           ("objectCount", number (lm_object_count m)); ("objectSchemas", JArray (JString <$> lm_object_schemas m));
           ("packs", JArray ((fun p => sort_value (lookup_pack_value p)) <$> lm_packs m)); ("pages", JArray ((fun p => sort_value (page_value p)) <$> lm_pages m));
           ("schema", JString (lm_schema m)); ("sequence", number (lm_sequence m)); ("snapshotDigest", JString (lm_snapshot_digest m))].
Proof.
  destruct m as [s d q l c b p o g]. cbn [lm_schema lm_snapshot_digest lm_sequence lm_last_record_digest lm_object_count lm_data_bytes lm_packs lm_object_schemas lm_pages].
  assert (forall O K G, map sort_value (JString <$> o) = O -> map sort_value (lookup_pack_value <$> p) = K -> map sort_value (page_value <$> g) = G ->
    sort_value (lookup_manifest_value (mkLookupManifest s d q l c b p o g)) =
    JObject [("dataBytes", number b); ("lastRecordDigest", opt_string_value l); ("objectCount", number c); ("objectSchemas", JArray O);
             ("packs", JArray K); ("pages", JArray G); ("schema", JString s); ("sequence", number q); ("snapshotDigest", JString d)]) as Hgen
    by (intros O K G <- <- <-; by destruct l).
  apply Hgen; [|apply (eq_sym (list_fmap_compose _ sort_value _))..]. clear Hgen. induction o as [|x o IH]; [done|]. cbn [fmap list_fmap map sort_value]. by rewrite IH.
Qed.
Lemma decode_manifest_document m : manifest_small m -> decode_lookup_manifest (sort_value (lookup_manifest_value m)) = Some m.
Proof.
  intros [(H1 & H2 & H3) Hp Hg]. rewrite manifest_sorted. unfold decode_lookup_manifest, number.
  cbn -[u64_max decode_u64 decode_option opt_string_value decode_vec sort_value lookup_pack_value page_value].
  rewrite !decode_u64_natural by done. cbn -[u64_max decode_u64 decode_option opt_string_value decode_vec sort_value lookup_pack_value page_value].
  rewrite decode_opt_written. unfold decode_vec.
  rewrite (decode_list_fmap decode_lookup_pack (fun p => sort_value (lookup_pack_value p))) by (eapply list.Forall_impl; [exact Hp|]; intros; by apply decode_lookup_pack_written).
  rewrite (decode_list_fmap decode_string JString) by (by apply Forall_true).
  rewrite (decode_list_fmap decode_page (fun p => sort_value (page_value p))) by (eapply list.Forall_impl; [exact Hg|]; intros; by apply decode_page_written).
  by destruct m.
Qed.
Lemma shallow_manifest_document m : manifest_small m -> shallow 3 (sort_value (lookup_manifest_value m)).
Proof.
  intros [(H1 & H2 & H3) Hp Hg]. rewrite manifest_sorted. unfold number. apply (shallow_object 2). shallow_fields.
  - apply (shallow_array 1). apply list.Forall_fmap. by apply Forall_true.
  - apply (shallow_array 1). apply list.Forall_fmap. eapply list.Forall_impl; [exact Hp|]. intros p Hsz.
    change (sort_value (lookup_pack_value p)) with (lookup_pack_value p). unfold lookup_pack_value, number. apply (shallow_object 0). shallow_fields.
  - apply (shallow_array 1). apply list.Forall_fmap. eapply list.Forall_impl; [exact Hg|]. intros p [Ho Hr]. change (shallow 1 (sort_value (page_value p))). rewrite page_sorted. unfold number.
    apply (shallow_object 0). shallow_fields. apply shallow_natural. unfold u32_max, u64_max in *. lia.
Qed.

Section Documents.
Context {P : Primitives} {R : JsonReader} {RL : ReaderLaws P R}.
Lemma read_receipt_written r : stat_ok (rc_snapshot r) -> stat_ok (rc_data r) -> from_slice decode_receipt (value_bytes (receipt_value r)) = Some r.
Proof.
  intros H1 H2. unfold value_bytes. eapply (from_slice_written _ _ _ 2); [|done|by apply decode_receipt_written].
  rewrite receipt_sorted. apply (shallow_object 1). shallow_fields; by apply shallow_fingerprint.
Qed.
Lemma read_lookup_manifest_written m : manifest_small m -> from_slice decode_lookup_manifest (value_bytes (lookup_manifest_value m)) = Some m.
Proof.
  intros Hm. unfold value_bytes. eapply (from_slice_written _ _ _ 3); [by apply shallow_manifest_document|done|by apply decode_manifest_document].
Qed.
End Documents.

(* --------------------------------------------------------------------- *)
(** ** The cache *)

Section Cache.
Context {P : Primitives} {H : HexCodec}.

(** A search that reads its page from the file. *)
Definition find_uncached (m : LookupManifest) (file : list byte) (digest : string) : Res (option PackLocation) :=
  let? wanted := binary_digest digest in
  match select_page m digest with
  | None => Ok None
  | Some page => let? rows := load_page m file page in answer m digest wanted rows
  end.
(** What is in the cache was read from the file, and the cache is bounded. *)
Definition cache_ok (lk : OpenLookup) : Prop :=
  Forall (fun e => load_page (lk_manifest lk) (lk_file lk) e.1 = Ok e.2) (lk_cache lk) /\ vlen (lk_cache lk) <= CACHE_PAGES.
Definition same_file (a b : OpenLookup) : Prop := lk_manifest a = lk_manifest b /\ lk_file a = lk_file b.

Lemma read_page_ok lk page lk' r : cache_ok lk -> read_page lk page = (lk', r) -> r = load_page (lk_manifest lk) (lk_file lk) page /\ cache_ok lk' /\ same_file lk lk'.
Proof.
  intros [Hc Hl] Hr. unfold read_page in Hr. destruct (cached (lk_cache lk) page) as [rows|] eqn:Hf.
  - injection Hr as <- <-. unfold cached in Hf. apply fmap_Some in Hf as ([i rows'] & Hf & ->). apply find_some in Hf as [Hin Hi]. apply Nat.eqb_eq in Hi.
    cbn in Hi. subst i. apply list_elem_of_In in Hin. pose proof (proj1 (list.Forall_forall _ _) Hc _ Hin) as Hp. cbn in Hp. by rewrite Hp.
  - destruct (load_page (lk_manifest lk) (lk_file lk) page) as [rows|e] eqn:Hp; injection Hr as <- <-; [|done]. split_and!; [done| |done]. split.
    + cbn [lk_cache set_cache lk_manifest lk_file]. unfold remember. apply list.Forall_app. split; [|by repeat constructor].
      destruct (_ =? _); [|done]. destruct (lk_cache lk); [done|]. by apply list.Forall_cons in Hc as [_ ?].
    + cbn [lk_cache set_cache]. unfold remember. rewrite vlen_app. change (vlen [(page, rows)]) with 1. destruct (N.eqb_spec (vlen (lk_cache lk)) CACHE_PAGES) as [He|He]; [|lia].
      destruct (lk_cache lk) as [|e c]; [discriminate He|]. rewrite vlen_cons in He. cbn [tail]. lia.
Qed.
Lemma find_ok lk d lk' r : cache_ok lk -> find lk d = (lk', r) -> r = find_uncached (lk_manifest lk) (lk_file lk) d /\ cache_ok lk' /\ same_file lk lk'.
Proof.
  intros Hc Hf. unfold find, find_uncached in *. destruct (binary_digest d) as [w|e]; cbn in Hf |- *; [|by injection Hf as <- <-].
  destruct (select_page (lk_manifest lk) d) as [page|]; [|by injection Hf as <- <-].
  destruct (read_page lk page) as [lk1 r1] eqn:Hr. destruct (read_page_ok _ _ _ _ Hc Hr) as (-> & Hc1 & Hs1). destruct Hs1 as [Hm1 Hf1].
  destruct (load_page (lk_manifest lk) (lk_file lk) page) as [rows|e]; cbn in Hf |- *; injection Hf as <- <-; rewrite ?Hm1; done.
Qed.

(** A sequence of searches. *)
Fixpoint find_all (lk : OpenLookup) (ds : list string) : OpenLookup * list (Res (option PackLocation)) :=
  match ds with
  | [] => (lk, [])
  | d :: ds => let '(lk, r) := find lk d in let '(lk, rs) := find_all lk ds in (lk, r :: rs)
  end.
Lemma find_all_ok ds : forall lk lk' rs, cache_ok lk -> find_all lk ds = (lk', rs) ->
  rs = find_uncached (lk_manifest lk) (lk_file lk) <$> ds /\ cache_ok lk'.
Proof.
  induction ds as [|d ds IH]; intros lk lk' rs Hc Hf; [by injection Hf as <- <-|]. cbn [find_all] in Hf.
  destruct (find lk d) as [lk1 r] eqn:Hd. destruct (find_ok _ _ _ _ Hc Hd) as (-> & Hc1 & Hm & Hfl).
  destruct (find_all lk1 ds) as [lk2 rs2] eqn:Hds. injection Hf as <- <-. destruct (IH _ _ _ Hc1 Hds) as [-> ?]. by rewrite Hm, Hfl.
Qed.
End Cache.

(* --------------------------------------------------------------------- *)
(** ** Publication *)

Lemma dedup_rows_length rows : vlen (dedup_rows rows) <= vlen rows.
Proof.
  assert (forall l x, length (dedup_from_row x l) <= length l)%nat as Hd.
  { induction l as [|y l IH]; intros x; cbn; [lia|]. case_bool_decide; [pose proof (IH x)|pose proof (IH y)]; cbn; lia. }
  destruct rows as [|x l]; [done|]. unfold vlen. cbn. pose proof (Hd l x). lia.
Qed.

Section Publish.
Context {P : Primitives} {PL : PrimitivesLaws P} {R : JsonReader} {RL : ReaderLaws P R} {H : HexCodec} {HL : HexLaws H}.

Lemma rows_count snapshot rows : collect_rows snapshot = Ok rows -> vlen rows <= vlen (snapshot_entries snapshot).
Proof.
  unfold collect_rows. intros Hc. apply result_bind_ok in Hc as (rowss & Hmap & Hc). destruct (windows_any _ _); [done|]. injection Hc as <-.
  etransitivity; [apply dedup_rows_length|]. unfold vlen. rewrite (Permutation_length (sort_by_perm _ _)). apply try_map_ok in Hmap.
  assert (forall (l : list (nat * CatalogPack)) rowss, Forall2 (fun a b => rows_of (object_schemas_of snapshot) a = Ok b) l rowss ->
    length (concat rowss) = length (flat_map (fun p => pm_objects (cp_manifest p)) l.*2)) as Hlen.
  { intros l rs. induction 1 as [|a b l rs Hab Hrest IH]; [done|]. cbn. rewrite !length_app, IH. f_equal. apply try_map_ok in Hab. symmetry. by eapply Forall2_length. }
  rewrite (Hlen _ _ Hmap). unfold snapshot_entries. rewrite snd_zip by (by rewrite length_seq). done.
Qed.

Lemma binary_hash b : exists w, length w = 32%nat /\ binary_digest (hash_bytes b) = Ok w.
Proof.
  destruct (digest_component_of_digest (hash_bytes b) (hash_bytes_digest b)) as [c Hc]. destruct (binary_digest_ok _ _ Hc) as (w & ? & _ & ?). by exists w.
Qed.

(** The page directory is admitted. *)
Lemma pages_admitted total cs : forall index count prev, chunked PAGE_ROWS cs -> Forall row_ok (concat cs) -> StronglySorted before (concat cs) ->
  index + vlen cs = total -> (count + vlen (concat cs)) * ROW_BYTES <= u64_max ->
  match prev with Some s => exists r, s = spelled (row_digest r) /\ Forall (before r) (concat cs) | None => True end ->
  exists last_, try_fold (page_admitted total) (index, count, prev) (pages_from (count * ROW_BYTES) cs) = Ok (total, count + vlen (concat cs), last_).
Proof.
  induction cs as [|c cs IH]; intros index count prev Hch Hok Hs Htotal Hmax Hprev.
  { exists prev. cbn [try_fold pages_from concat]. unfold vlen in Htotal |- *. cbn in Htotal |- *. rewrite !N.add_0_r in *. by subst. }
  destruct Hch as (Hne & Hle & Hfull & Hch). cbn [concat] in *. apply list.Forall_app in Hok as [Hokc Hok]. pose proof Hs as (Hsc & Hsr & Hcross)%StronglySorted_app.
  destruct (chunk_ends c Hne) as (f & l & Hhd & Hl & Hfin & Hlin). rewrite vlen_app in *. rewrite vlen_cons in Htotal. rewrite list.Forall_forall in Hokc.
  assert (0 < vlen c) as Hpos by (unfold vlen; destruct c; [done|cbn; lia]).
  assert (forall r, r ∈ c -> length (row_digest r) = 32%nat) as Hlen by (intros r Hr; apply Hokc, Hr).
  destruct (binary_hash (encode_rows c)) as (wd & _ & Hwd). cbn [pages_from try_fold]. unfold page_admitted at 1.
  cbn [pg_first pg_last pg_digest pg_rows pg_offset]. rewrite Hhd, Hl, !row_name_spelled, !binary_spelled, Hwd by (by apply Hlen). cbn [result_bind].
  rewrite (proj2 (N.eqb_neq _ _)) by lia. rewrite (proj2 (N.ltb_ge _ _)) by done.
  assert ((index + 1 <? total) && negb (vlen c =? PAGE_ROWS) = false) as ->.
  { destruct (N.ltb_spec (index + 1) total) as [Hlt|]; [|done]. rewrite Hfull; [by rewrite N.eqb_refl|]. intros ->. rewrite vlen_nil in Htotal. lia. }
  assert (leb (spelled (row_digest f)) (spelled (row_digest l)) = true) as ->.
  { unfold leb. rewrite spelled_lt. apply negb_true_iff, ltb_ge. by apply (proj1 (sorted_bounds c l Hsc Hlin) f Hhd). }
  assert (match prev with Some last_ => geb last_ (spelled (row_digest f)) | None => false end = false) as ->.
  { destruct prev as [s|]; [|done]. destruct Hprev as (r & -> & Hr). unfold geb. rewrite spelled_lt. apply negb_false_iff, ltb_lt.
    rewrite list.Forall_forall in Hr. apply Hr. apply elem_of_app. by left. }
  unfold u64_checked_mul. rewrite (proj2 (N.leb_le _ _)) by lia. rewrite bool_decide_eq_true_2 by done. cbn [negb orb result_bind].
  assert (u64_wrapping_add count (vlen c) = count + vlen c) as ->.
  { unfold u64_wrapping_add. apply N.mod_small. unfold ROW_BYTES, u64_max in Hmax. lia. }
  rewrite encode_rows_length by (by apply list.Forall_forall). replace (count * ROW_BYTES + vlen c * ROW_BYTES) with ((count + vlen c) * ROW_BYTES) by lia.
  destruct (IH (index + 1) (count + vlen c) (Some (spelled (row_digest l)))) as (last_ & ->); try done; [lia|lia| |exists last_; do 3 f_equal; lia].
  exists l. split; [done|]. rewrite list.Forall_forall. intros r Hr. by apply Hcross.
Qed.
End Publish.

(** What [publish_lookup] writes for a snapshot. *)
Section Written.
Context {P : Primitives} {PL : PrimitivesLaws P} {R : JsonReader} {RL : ReaderLaws P R} {H : HexCodec} {HL : HexLaws H}.
Context (snapshot : CatalogSnapshot) (st : CatalogState) (d : string) (rows : list Row).
Hypothesis Hst : catalog_state_from_snapshot snapshot d = Ok st.
Hypothesis Hsized : snapshot_sized snapshot.
Hypothesis Hsome : snapshot_entries snapshot <> [].
Hypothesis Hcount : vlen (snapshot_entries snapshot) <= MAX_DATA_BYTES / ROW_BYTES.
Hypothesis Hrows : collect_rows snapshot = Ok rows.
Notation m := (make_manifest snapshot d rows (encode_rows rows) (pages_from 0 (chunks PAGE_ROWS rows))).

Lemma some_entry : exists i p e, cs_packs snapshot !! i = Some p /\ e ∈ pm_objects (cp_manifest p).
Proof.
  destruct (snapshot_entries snapshot) as [|e l] eqn:He; [done|]. assert (e ∈ snapshot_entries snapshot) as Hin by (rewrite He; by left).
  apply list_elem_of_In, in_flat_map in Hin as (p & Hp & He'). apply list_elem_of_In, list_elem_of_lookup in Hp as [i Hp]. exists i, p, e.
  split; [done|by apply list_elem_of_In].
Qed.
Lemma rows_nonempty : vlen rows <> 0.
Proof.
  destruct (collected snapshot rows Hrows) as (_ & _ & Hc). destruct some_entry as (i & p & e & Hp & He). destruct (Hc i p e Hp He) as (r & Hr & _).
  unfold vlen. destruct rows; [set_solver|]. cbn. lia.
Qed.
Lemma packs_nonempty : vlen (cs_packs snapshot) <> 0.
Proof. destruct some_entry as (i & p & _ & Hp & _). apply lookup_lt_Some in Hp. unfold vlen. lia. Qed.
Lemma schema_of_entry s : s ∈ object_schemas_of snapshot <-> exists i p e, cs_packs snapshot !! i = Some p /\ e ∈ pm_objects (cp_manifest p) /\ s = object_schema (pe_object e).
Proof.
  unfold object_schemas_of. rewrite bset_of_list_elem, list_elem_of_fmap. split.
  - intros (e & -> & Hin). apply list_elem_of_In, in_flat_map in Hin as (p & Hp & He'). apply list_elem_of_In, list_elem_of_lookup in Hp as [i Hp]. exists i, p, e.
    split_and!; [done|by apply list_elem_of_In|done].
  - intros (i & p & e & Hp & He & ->). exists e. split; [done|]. apply list_elem_of_In, in_flat_map. exists p. split; apply list_elem_of_In; [by eapply list_elem_of_lookup_2|done].
Qed.

Lemma rows_fit_written : Forall (row_fits m) rows.
Proof. by apply (rows_fit snapshot st d rows _ _). Qed.
Lemma rows_ok : Forall row_ok rows.
Proof. eapply list.Forall_impl; [exact rows_fit_written|]. by intros r (? & _). Qed.
Lemma rows_sorted : StronglySorted before rows.
Proof. by destruct (collected snapshot rows Hrows). Qed.
Lemma data_bound : vlen rows * ROW_BYTES <= MAX_DATA_BYTES.
Proof.
  pose proof (rows_count _ _ Hrows). assert (vlen rows <= MAX_DATA_BYTES / ROW_BYTES) as Hr by lia.
  apply (N.mul_le_mono_r _ _ ROW_BYTES) in Hr. etransitivity; [exact Hr|]. rewrite N.mul_comm. by apply N.Div0.mul_div_le.
Qed.

Lemma pack_name_written p : p ∈ cs_packs snapshot -> pack_name_admitted {| lp_data_name := cp_data_name p; lp_data_size := pm_data_size (cp_manifest p) |} = Ok tt.
Proof.
  intros [i Hi]%list_elem_of_lookup. destruct (pack_validated _ _ _ Hst Hsized _ _ Hi) as [Hv _]. unfold validate_pack_manifest in Hv.
  ok_inv Hv. apply str_neqb_false in Hif0. unfold pack_name_admitted. cbn [lp_data_name]. rewrite Hif0, strip_suffix_app. cbn [ok_or result_bind].
  destruct (component_bytes _ _ Hok) as (w & Hw & -> & _). fold (spelled w). by rewrite spelled_component.
Qed.

Lemma written_validates head : ch_snapshot_digest head = d -> ch_snapshot_sequence head = cs_sequence snapshot ->
  ch_last_record_digest head = cs_last_record_digest snapshot -> validate_manifest m head = Ok tt.
Proof.
  intros Hd Hq Hl. pose proof rows_nonempty. pose proof packs_nonempty. pose proof data_bound as Hb.
  unfold validate_manifest. cbn [make_manifest lm_schema lm_snapshot_digest lm_sequence lm_last_record_digest lm_object_count lm_data_bytes lm_packs lm_object_schemas lm_pages].
  rewrite encode_rows_length by apply rows_ok. rewrite Hd, Hq, Hl, !str_neqb_refl, N.eqb_refl, bool_decide_eq_true_2 by done.
  rewrite (proj2 (N.eqb_neq _ _)) by done. rewrite (proj2 (N.ltb_ge _ _)) by done.
  unfold u64_checked_mul. rewrite (proj2 (N.leb_le _ u64_max)) by (etransitivity; [exact Hb|done]). rewrite bool_decide_eq_true_2 by done.
  assert (vlen ((fun pack => {| lp_data_name := cp_data_name pack; lp_data_size := pm_data_size (cp_manifest pack) |}) <$> cs_packs snapshot) =? 0 = false) as ->.
  { apply N.eqb_neq. unfold vlen in *. by rewrite length_fmap. }
  assert (vlen (object_schemas_of snapshot) =? 0 = false) as ->.
  { apply N.eqb_neq. destruct some_entry as (i & p & e & Hp & He). assert (object_schema (pe_object e) ∈ object_schemas_of snapshot) as Hin.
    { apply schema_of_entry. by exists i, p, e. } unfold vlen. destruct (object_schemas_of snapshot); [set_solver|cbn; lia]. }
  assert (windows_all (fun a b => ltb (lp_data_name a) (lp_data_name b)) ((fun pack => {| lp_data_name := cp_data_name pack; lp_data_size := pm_data_size (cp_manifest pack) |}) <$> cs_packs snapshot) = true) as ->.
  { apply (windows_all_strict lp_data_name). apply (StronglySorted_fmap lt_ord lp_data_name). rewrite <- list_fmap_compose.
    destruct (packs_of_snapshot _ _ _ Hst) as (Hps & Hwf & _). rewrite Hps in Hwf. unfold bmap_wf in Hwf. by rewrite <- list_fmap_compose in Hwf. }
  rewrite (proj2 (windows_lt_wf (object_schemas_of snapshot)) (bset_of_list_wf _)). cbn [negb orb].
  rewrite (proj2 (try_for_each_ok _ _)).
  2: { rewrite list.Forall_forall. intros x (p & -> & Hp)%list_elem_of_fmap. by apply pack_name_written. }
  cbn [result_bind]. rewrite (proj2 (try_for_each_ok _ _)).
  2: { rewrite list.Forall_forall. intros s (i & p & e & Hp & He & ->)%schema_of_entry. destruct (pack_validated _ _ _ Hst Hsized _ _ Hp) as [Hv _].
    pose proof (admitted_entries _ _ Hv) as Hval. rewrite list.Forall_forall in Hval. by destruct (reference_fields _ (Hval e He)) as (_ & ? & _). }
  cbn [result_bind]. destruct (chunks_spec PAGE_ROWS rows eq_refl) as [Hcat Hch].
  destruct (pages_admitted (vlen (chunks PAGE_ROWS rows)) (chunks PAGE_ROWS rows) 0 0 None) as (last_ & Hpages); rewrite ?Hcat; try done.
  - apply rows_ok.
  - apply rows_sorted.
  - cbn. etransitivity; [exact Hb|done].
  - assert (vlen (pages_from 0 (chunks PAGE_ROWS rows)) = vlen (chunks PAGE_ROWS rows)) as -> by (unfold vlen; by rewrite pages_length).
    change (0 * ROW_BYTES) with 0 in Hpages. rewrite Hpages. cbn [result_bind]. rewrite Hcat, N.eqb_refl. done.
Qed.
End Written.
