(* ===== verification/LookupResults.v ===== *)
(** * What the lookup accelerator promises

    A published accelerator opens, answers every digest as the verified snapshot
    does, and is refused or ignored once its files change; an interrupted
    publication leaves the catalog without one; a store that opens through an
    accelerator serves what a store that reads the whole snapshot serves. *)

From stdpp Require Import gmap.
From S2P Require Import Prelude Order Collections Text Json Canonical Instances JsonFormat JsonRead Paths Errors CasObject CasInterface.
From S2P Require Import Catalog CatalogTypes CatalogCodec CasStore CasCatalog CatalogAuthority CasBatch CatalogDurable CatalogLookup LookupSpec.
Open Scope N_scope.

(* --------------------------------------------------------------------- *)
(** ** The receipt is small *)

Section Sizes.
Context {P : Primitives} {W : WriterLaws P}.

Definition fields_len (m : list (string * Value)) : N := foldr (fun e n => 102 + vlen (to_vec e.2) + n) 0 m.
Lemma object_len m : Forall (fun e => compact (JString e.1)) m -> vlen (to_vec (JObject m)) <= 2 + fields_len m.
Proof.
  intros Hm. rewrite to_vec_object, !vlen_app, join_bytes_len, !as_bytes_len. change (str_len ",") with 1. change (str_len "{") with 1.
  change (str_len "}") with 1. unfold vlen at 1. rewrite length_fmap. fold (vlen m).
  enough (total_len ((fun e => to_vec (JString e.1) ++ as_bytes ":" ++ to_vec e.2) <$> m) + vlen m <= fields_len m) by lia.
  unfold compact in Hm. induction Hm as [|e m Hk Hm IH]; [done|]. rewrite fmap_cons, vlen_cons. cbn [total_len foldr fields_len].
  rewrite !vlen_app, as_bytes_len. change (str_len ":") with 1. fold (total_len ((fun e => to_vec (JString e.1) ++ as_bytes ":" ++ to_vec e.2) <$> m)).
  fold (fields_len m). lia.
Qed.

Lemma compact_time z : time_ok z -> compact (JNumber (number_from_i64 z)).
Proof. intros [H0 H1]. unfold number_from_i64. rewrite (proj2 (Z.leb_le _ _) H0). apply compact_natural. unfold u64_max. lia. Qed.
Ltac compact_names := repeat (apply list.Forall_cons; split; [cbn [fst snd]; apply compact_string; split; [reflexivity|vm_compute; discriminate]|]); apply list.Forall_nil; done.

Lemma fingerprint_len f : stat_ok f -> vlen (to_vec (sort_value (fingerprint_value f))) <= 1500.
Proof.
  intros [(H1 & H2 & H3) (H4 & H5 & H6 & H7)]. rewrite fingerprint_sorted. etransitivity; [apply object_len; compact_names|].
  cbn [fields_len foldr snd]. unfold number.
  pose proof (compact_natural _ H1) as K1. pose proof (compact_natural _ H2) as K2. pose proof (compact_natural _ H3) as K3.
  pose proof (compact_time _ H4) as K4. pose proof (compact_time _ H5) as K5. pose proof (compact_time _ H6) as K6. pose proof (compact_time _ H7) as K7.
  unfold compact in *. lia.
Qed.
Lemma receipt_len r : short (rc_schema r) -> short (rc_snapshot_digest r) -> short (rc_manifest_digest r) -> stat_ok (rc_snapshot r) -> stat_ok (rc_data r) ->
  vlen (value_bytes (receipt_value r)) <= MAX_RECEIPT_BYTES.
Proof.
  intros H1 H2 H3 H4 H5. unfold value_bytes. rewrite receipt_sorted. etransitivity; [apply object_len; compact_names|].
  cbn [fields_len foldr snd]. apply compact_string in H1, H2, H3. apply fingerprint_len in H4, H5. unfold compact, MAX_RECEIPT_BYTES in *. lia.
Qed.
End Sizes.

(* --------------------------------------------------------------------- *)
(** ** What is published *)

Section Publish.
Context {P : Primitives} {PL : PrimitivesLaws P} {W : WriterLaws P} {R : JsonReader} {RL : ReaderLaws P R} {H : HexCodec} {HL : HexLaws H}.
Notation Directory := (BTreeMap string (list byte)).

Definition written_manifest (snapshot : CatalogSnapshot) (d : string) (rows : list Row) : LookupManifest :=
  make_manifest snapshot d rows (encode_rows rows) (pages_from 0 (chunks PAGE_ROWS rows)).
Definition manifest_bytes (snapshot : CatalogSnapshot) (d : string) (rows : list Row) : list byte :=
  value_bytes (lookup_manifest_value (written_manifest snapshot d rows)).

(** A publication that writes, and what it has checked by then. *)
Record publication (dir : Directory) (snapshot : CatalogSnapshot) (d c : string) (rows : list Row) : Prop := mkPublication {
  pu_component : digest_component d = Ok c;
  pu_rows : collect_rows snapshot = Ok rows;
  pu_some : snapshot_entries snapshot <> [];
  pu_count : vlen (snapshot_entries snapshot) <= MAX_DATA_BYTES / ROW_BYTES;
  pu_snapshot : bmap_get (c +:+ ".snapshot") dir <> None;
  pu_bytes : vlen (manifest_bytes snapshot d rows) <= MAX_MANIFEST_BYTES
}.
Definition files_of (c : string) : string * string * string := (c +:+ ".lookup-v1", c +:+ ".lookup-v1.json", c +:+ ".lookup-v1.receipt").
Definition writes_of (stat : string -> Fingerprint) (dir : Directory) (snapshot : CatalogSnapshot) (d c : string) (rows : list Row) : list Directory :=
  lookup_writes stat dir d (c +:+ ".snapshot") (files_of c) (encode_rows rows) (manifest_bytes snapshot d rows).

Lemma names_of d c : digest_component d = Ok c -> names d = Ok (files_of c).
Proof. intros Hc. unfold names. by rewrite Hc. Qed.

Lemma publish_cases stat dir snapshot d dir' : publish_lookup stat dir snapshot d = (dir', Ok tt) ->
  dir' = dir \/ exists c rows, publication dir snapshot d c rows /\ dir' = List.last (writes_of stat dir snapshot d c rows) dir.
Proof.
  unfold publish_lookup. intros Hp. destruct (N.ltb_spec (vlen (snapshot_entries snapshot)) MIN_OBJECTS) as [_|Hmin]; [by injection Hp as <-; left|].
  destruct (N.ltb_spec (MAX_DATA_BYTES / ROW_BYTES) (vlen (snapshot_entries snapshot))) as [_|Hmax]; [by injection Hp as <-; left|].
  destruct (digest_component d) as [c|] eqn:Hc; [|by unfold names in Hp; rewrite Hc in Hp]. rewrite (names_of _ _ Hc) in Hp. cbn [pure_on store_bind] in Hp.
  unfold open_file in Hp. destruct (bmap_get (c +:+ ".snapshot") dir) as [b|] eqn:Hs; [|done]. cbn [pure_on store_bind] in Hp.
  unfold prepare_lookup in Hp. destruct (collect_rows snapshot) as [rows|] eqn:Hr; [|done]. cbn [result_bind] in Hp. rewrite paginate_spec in Hp.
  fold (written_manifest snapshot d rows) in Hp. fold (manifest_bytes snapshot d rows) in Hp.
  destruct (N.ltb_spec MAX_MANIFEST_BYTES (vlen (manifest_bytes snapshot d rows))) as [_|Hb]; [by injection Hp as <-; left|].
  right. exists c, rows. split; [|by injection Hp as <-]. split; try done; [|by rewrite Hs]. intros E. rewrite E in Hmin. done.
Qed.

Lemma pages_sized cs : forall offset, (forall c, c ∈ cs -> vlen c <= u32_max) -> offset + vlen (encode_rows (concat cs)) <= u64_max ->
  Forall page_sized (pages_from offset cs).
Proof.
  induction cs as [|c cs IH]; intros offset Hc Ho; [constructor|]. cbn [concat] in Ho. rewrite encode_rows_app, vlen_app in Ho. cbn [pages_from]. constructor.
  - split; cbn [pg_offset pg_rows]; [lia|]. apply Hc. by left.
  - apply IH; [|lia]. intros x Hx. apply Hc. by right.
Qed.

Section Published.
Context (stat : string -> Fingerprint) (dir : Directory) (snapshot : CatalogSnapshot) (st : CatalogState) (d c : string) (rows : list Row).
Hypothesis Hst : catalog_state_from_snapshot snapshot d = Ok st.
Hypothesis Hsized : snapshot_sized snapshot.
Hypothesis Hpub : publication dir snapshot d c rows.
Notation m := (written_manifest snapshot d rows).

Lemma published_fit : Forall (row_fits m) rows.
Proof. destruct Hpub. by apply (rows_fit_written snapshot st d rows). Qed.
Lemma written_rows_ok : Forall row_ok rows.
Proof. destruct Hpub. by apply (rows_ok snapshot st d rows). Qed.
Lemma published_data : vlen (encode_rows rows) <= MAX_DATA_BYTES.
Proof. destruct Hpub. rewrite encode_rows_length by apply written_rows_ok. by eapply data_bound. Qed.
Lemma published_small : manifest_small m.
Proof.
  pose proof published_data as Hd. destruct Hpub as [_ Hr _ _ _ _]. destruct Hsized as [Hq Hp]. rewrite encode_rows_length in Hd by apply written_rows_ok. split.
  - cbn [written_manifest make_manifest lm_sequence lm_object_count lm_data_bytes]. split_and!; [done| |]; rewrite ?encode_rows_length by apply written_rows_ok;
      unfold MAX_DATA_BYTES, ROW_BYTES, u64_max in *; lia.
  - cbn [written_manifest make_manifest lm_packs]. apply list.Forall_fmap. eapply list.Forall_impl; [exact Hp|]. by intros p [? _].
  - cbn [written_manifest make_manifest lm_pages]. destruct (chunks_spec PAGE_ROWS rows eq_refl) as [Hcat Hch]. apply pages_sized.
    + intros x Hx. transitivity (vlen rows); [|unfold MAX_DATA_BYTES, ROW_BYTES, u32_max in *; lia]. rewrite <- Hcat.
      apply list_elem_of_split in Hx as (a & b & ->). rewrite concat_app. cbn [concat]. rewrite !vlen_app. lia.
    + rewrite Hcat, encode_rows_length by apply written_rows_ok. unfold MAX_DATA_BYTES, ROW_BYTES, u64_max in *. lia.
Qed.

Lemma names_distinct a b : String.eqb a b = false -> c +:+ a <> c +:+ b.
Proof. intros Hne Heq. apply (inj (String.append c)) in Heq as ->. by rewrite String.eqb_refl in Hne. Qed.

(** The directory after the last write. *)
Notation dir' := (List.last (writes_of stat dir snapshot d c rows) dir).
Lemma published_files : bmap_get (c +:+ ".lookup-v1") dir' = Some (encode_rows rows) /\
  bmap_get (c +:+ ".lookup-v1.json") dir' = Some (manifest_bytes snapshot d rows) /\
  bmap_get (c +:+ ".lookup-v1.receipt") dir' =
    Some (value_bytes (receipt_value (make_receipt d (stat (c +:+ ".snapshot")) (stat (c +:+ ".lookup-v1")) (manifest_bytes snapshot d rows)))).
Proof.
  unfold writes_of, lookup_writes, files_of. cbn [List.last]. split_and!.
  - rewrite bmap_get_insert_ne, bmap_get_insert_ne, bmap_get_insert_eq by (by apply names_distinct). done.
  - rewrite bmap_get_insert_ne, bmap_get_insert_eq by (by apply names_distinct). done.
  - by rewrite bmap_get_insert_eq.
Qed.
End Published.

(** A name outside the three files is not touched. *)
Lemma writes_keep stat dir snapshot d c rows name : (forall suffix, suffix ∈ LOOKUP_SUFFIXES -> name <> c +:+ suffix) ->
  Forall (fun dir' => bmap_get name dir' = bmap_get name dir) (writes_of stat dir snapshot d c rows).
Proof.
  intros Hn. unfold LOOKUP_SUFFIXES in Hn. unfold writes_of, lookup_writes, files_of.
  assert (name <> c +:+ ".lookup-v1" /\ name <> c +:+ ".lookup-v1.json" /\ name <> c +:+ ".lookup-v1.receipt") as (N1 & N2 & N3) by (split_and!; apply Hn; set_solver).
  pose proof (bmap_get_remove_ne _ _ dir N3) as Hr.
  repeat (apply list.Forall_cons; split; [rewrite ?bmap_get_insert_ne by done; exact Hr|]). constructor.
Qed.

(** The receipt is written last: an interrupted publication leaves none. *)
Lemma writes_uncommitted stat dir snapshot d c rows dir' : bmap_wf dir -> dir' ∈ removelast (writes_of stat dir snapshot d c rows) ->
  bmap_contains_key (c +:+ ".lookup-v1.receipt") dir' = false.
Proof.
  intros Hw Hin. assert (bmap_get (c +:+ ".lookup-v1.receipt") (bmap_remove (c +:+ ".lookup-v1.receipt") dir) = None) as Hr by (by rewrite bmap_get_remove, cmp_refl).
  unfold writes_of, lookup_writes, files_of in Hin. cbn [removelast] in Hin. unfold bmap_contains_key.
  repeat (apply elem_of_cons in Hin as [->|Hin]); [..|by apply not_elem_of_nil in Hin];
    rewrite ?bmap_get_insert_ne by (by apply names_distinct); by rewrite Hr.
Qed.

(* --------------------------------------------------------------------- *)
(** ** Opening what was published *)

(** The head of the snapshot that was published. *)
Definition heads (head : CatalogHead) (snapshot : CatalogSnapshot) (d c : string) : Prop :=
  ch_snapshot_digest head = d /\ ch_snapshot_name head = c +:+ ".snapshot" /\ ch_snapshot_sequence head = cs_sequence snapshot /\
  ch_last_record_digest head = cs_last_record_digest snapshot.
(** What [fstat] answers at the publication. *)
Definition stat_admitted (stat : string -> Fingerprint) (c : string) (rows : list Row) : Prop :=
  stat_ok (stat (c +:+ ".snapshot")) /\ stat_ok (stat (c +:+ ".lookup-v1")) /\ fp_bytes (stat (c +:+ ".lookup-v1")) = vlen (encode_rows rows).
Definition opened (snapshot : CatalogSnapshot) (d : string) (rows : list Row) : OpenLookup :=
  {| lk_manifest := written_manifest snapshot d rows; lk_file := encode_rows rows; lk_cache := [] |}.
(** A later directory that still has the files of a publication. *)
Definition still_has (c : string) (dir dir2 : Directory) : Prop :=
  forall suffix, suffix ∈ ".snapshot" :: LOOKUP_SUFFIXES -> bmap_get (c +:+ suffix) dir2 = bmap_get (c +:+ suffix) dir.

Lemma snapshot_remains stat dir snapshot d c rows :
  bmap_get (c +:+ ".snapshot") (List.last (writes_of stat dir snapshot d c rows) dir) = bmap_get (c +:+ ".snapshot") dir.
Proof.
  assert (List.last (writes_of stat dir snapshot d c rows) dir ∈ writes_of stat dir snapshot d c rows) as Hin by (unfold writes_of, lookup_writes, files_of; cbn [List.last]; set_solver).
  pose proof (writes_keep stat dir snapshot d c rows (c +:+ ".snapshot")) as Hk. rewrite list.Forall_forall in Hk. apply Hk; [|done].
  intros suffix Hs. apply names_distinct. unfold LOOKUP_SUFFIXES in Hs.
  repeat (apply elem_of_cons in Hs as [->|Hs]; [done|]). by apply not_elem_of_nil in Hs.
Qed.

Section Opening.
Context (stat : string -> Fingerprint) (dir : Directory) (snapshot : CatalogSnapshot) (st : CatalogState) (d c : string) (rows : list Row).
Hypothesis Hst : catalog_state_from_snapshot snapshot d = Ok st.
Hypothesis Hsized : snapshot_sized snapshot.
Hypothesis Hpub : publication dir snapshot d c rows.
Hypothesis Hstat : stat_admitted stat c rows.
Notation dir' := (List.last (writes_of stat dir snapshot d c rows) dir).

Lemma open_published stat2 dir2 head : heads head snapshot d c -> still_has c dir' dir2 ->
  open_lookup stat2 dir2 head =
    if decide (stat2 (c +:+ ".snapshot") = stat (c +:+ ".snapshot"))
    then if decide (stat2 (c +:+ ".lookup-v1") = stat (c +:+ ".lookup-v1")) then Ok (Some (opened snapshot d rows))
         else corrupt "catalog lookup data identity changed"
    else Ok None.
Proof.
  intros (Hd & Hn & Hq & Hl) Hstill. destruct (published_files stat dir snapshot d c rows) as (F1 & F2 & F3). pose proof (snapshot_remains stat dir snapshot d c rows) as F0.
  rewrite <- Hstill in F0, F1, F2, F3 by (unfold LOOKUP_SUFFIXES; set_solver). destruct Hstat as (S1 & S2 & S3). pose proof Hpub as [Hc Hr Hsome Hcount Hsn Hb].
  unfold open_lookup. rewrite Hd, (names_of _ _ Hc). cbn [result_bind]. unfold files_of. unfold bmap_contains_key. rewrite F3. cbn [negb].
  unfold read_managed at 1. unfold open_file at 1. rewrite F3. cbn [result_bind]. set (receipt := make_receipt _ _ _ _).
  rewrite (proj2 (N.ltb_ge _ _)).
  2: { apply receipt_len; cbn [receipt make_receipt rc_schema rc_snapshot_digest rc_manifest_digest rc_snapshot rc_data]; try done.
    - by eapply short_digest.
    - destruct (digest_component_of_digest (hash_bytes (manifest_bytes snapshot d rows)) (hash_bytes_digest _)) as [k Hk]. by eapply short_digest. }
  cbn [result_bind]. rewrite read_receipt_written by done. cbn [ok_or result_bind]. rewrite bool_decide_eq_true_2 by done.
  assert (rc_schema receipt = RECEIPT_SCHEMA /\ rc_snapshot_digest receipt = d) as [-> ->] by done. rewrite !str_neqb_refl. cbn [negb orb].
  unfold open_file at 1. rewrite Hn, F0. destruct (bmap_get (c +:+ ".snapshot") dir) as [bs|] eqn:Hbs; [|done]. cbn [result_bind].
  destruct (decide (stat2 (c +:+ ".snapshot") = stat (c +:+ ".snapshot"))) as [He|Hne]; [|by rewrite bool_decide_eq_false_2].
  rewrite bool_decide_eq_true_2 by done. cbn [negb]. unfold read_managed, open_file at 1. rewrite F2. cbn [result_bind].
  rewrite (proj2 (N.ltb_ge _ _)) by done. cbn [result_bind]. assert (rc_manifest_digest receipt = hash_bytes (manifest_bytes snapshot d rows)) as -> by done.
  rewrite str_neqb_refl. unfold manifest_bytes at 1. rewrite read_lookup_manifest_written by (by apply (published_small dir snapshot st d c)). cbn [ok_or result_bind].
  rewrite bool_decide_eq_true_2 by done. cbn [negb].
  unfold written_manifest at 1. rewrite (written_validates snapshot st d rows Hst Hsized Hsome Hcount Hr head Hd Hq Hl). cbn [result_bind].
  unfold open_file. rewrite F1. cbn [result_bind]. assert (rc_data receipt = stat (c +:+ ".lookup-v1")) as -> by done.
  assert (fp_bytes (stat (c +:+ ".lookup-v1")) =? lm_data_bytes (written_manifest snapshot d rows) = true) as -> by (rewrite S3; apply N.eqb_refl).
  destruct (decide (stat2 (c +:+ ".lookup-v1") = stat (c +:+ ".lookup-v1"))); [by rewrite bool_decide_eq_true_2|by rewrite bool_decide_eq_false_2].
Qed.

Hypothesis Hdistinct : Forall (fun p => NoDup ((fun e => digest (pe_object e)) <$> pm_objects (cp_manifest p))) (cs_packs snapshot).

(** Every digest is answered from one page as the location map answers it. *)
Lemma uncached_answers digest comp : digest_component digest = Ok comp ->
  find_uncached (written_manifest snapshot d rows) (encode_rows rows) digest = Ok (locations st !! digest).
Proof.
  intros (w & Hw & -> & Hb)%binary_digest_ok. pose proof Hpub as [Hc Hr Hsome Hcount Hsn Hby]. unfold find_uncached. rewrite Hb. cbn [result_bind].
  pose proof (rows_answer snapshot st d rows (encode_rows rows) (pages_from 0 (chunks PAGE_ROWS rows)) Hst Hsized Hcount Hr Hdistinct w Hw) as Ha. fold (written_manifest snapshot d rows) in Ha.
  destruct (chunks_spec PAGE_ROWS rows eq_refl) as [Hcat Hch]. pose proof (rows_sorted snapshot rows Hr) as Hs.
  pose proof (select_rows w (chunks PAGE_ROWS rows) PAGE_ROWS 0 Hch) as Hsel. rewrite Hcat in Hsel. specialize (Hsel Hs). cbv zeta in Hsel.
  unfold select_page. cbn [written_manifest make_manifest lm_pages] in *. set (k := partition_point _ _) in *.
  destruct (pages_from 0 (chunks PAGE_ROWS rows) !! k) as [page|] eqn:Hp, (chunks PAGE_ROWS rows !! k) as [rs|] eqn:Hk; try done.
  - destruct (ltb (spelled w) (pg_first page)) eqn:Hlt; [by rewrite Hsel in Ha; rewrite Ha|].
    rewrite (load_written (written_manifest snapshot d rows) rows) with (c := rs); try done.
    + cbn [result_bind]. unfold answer. rewrite <- Hsel. destruct (find_row w rows) as [r|]; [|by rewrite Ha]. destruct Ha as (l & Hl & ->).
      fold (written_manifest snapshot d rows). by rewrite Hl.
    + by apply (published_fit dir snapshot st d c).
  - rewrite Hsel in Ha. by rewrite Ha.
Qed.

Lemma opened_packs name : contains_pack (opened snapshot d rows) name = true <-> name ∈ (packs st).*1.
Proof.
  destruct (packs_of_snapshot _ _ _ Hst) as (-> & _ & _). unfold contains_pack. rewrite existsb_exists, <- list_fmap_compose, list_elem_of_fmap.
  cbn [opened lk_manifest written_manifest make_manifest lm_packs]. split.
  - intros (x & Hx & He). apply str_eqb_eq in He. apply list_elem_of_In, list_elem_of_fmap in Hx as (p & -> & Hp). by exists p.
  - intros (p & -> & Hp). eexists. split; [apply list_elem_of_In, list_elem_of_fmap_2, Hp|]. by apply str_eqb_eq.
Qed.
End Opening.

(* --------------------------------------------------------------------- *)
(** ** A verified snapshot can be published *)

Lemma windows_any_none {A} (p : A -> A -> bool) (l : list A) : (forall a b, a ∈ l -> b ∈ l -> p a b = false) -> windows_any p l = false.
Proof.
  intros Hp. unfold windows_any. apply negb_false_iff. induction l as [|a [|b l] IH]; [done|done|]. rewrite windows_all_cons, Hp by (by repeat constructor). apply IH.
  intros x y Hx Hy. apply Hp; by right.
Qed.
Lemma try_map_total {A B E} (f : A -> Result E B) l : (forall a, a ∈ l -> exists b, f a = Ok b) -> exists bs, try_map f l = Ok bs.
Proof.
  induction l as [|a l IH]; intros Hf; [by exists []|]. destruct (Hf a) as [b Hb]; [by left|]. destruct IH as [bs Hbs]; [set_solver|].
  exists (b :: bs). apply try_map_ok. constructor; [done|by apply try_map_ok].
Qed.
Lemma ordinal_total x l : x ∈ l -> exists n, ordinal x l = Some n.
Proof.
  induction l as [|y l IH]; intros Hx; [set_solver|]. cbn. destruct (str_eqb x y) eqn:E; [by eexists|].
  apply elem_of_cons in Hx as [->|Hx]; [by rewrite (proj2 (str_eqb_eq y y) eq_refl) in E|]. destruct (IH Hx) as [n ->]. by eexists.
Qed.

Lemma row_spelled schemas i e r : row_of schemas i e = Ok r -> digest (pe_object e) = spelled (row_digest r).
Proof.
  unfold row_of. destruct (binary_digest (digest (pe_object e))) as [x|] eqn:Hb; [|done]. cbn [result_bind]. pose proof Hb as Hb'.
  unfold binary_digest in Hb'. destruct (digest_component (digest (pe_object e))) as [c|] eqn:Hc; [|done]. clear Hb'.
  destruct (binary_digest_ok _ _ Hc) as (w & _ & Hs & Hw). rewrite Hw in Hb. injection Hb as ->. destruct (i <=? u32_max); [|done]. cbn [result_bind].
  destruct (ordinal _ _); [|done]. cbn [ok_or result_bind]. by intros [= <-].
Qed.

Section Total.
Context (snapshot : CatalogSnapshot) (st : CatalogState) (d : string).
Hypothesis Hst : catalog_state_from_snapshot snapshot d = Ok st.
Hypothesis Hsized : snapshot_sized snapshot.
Hypothesis Hpacks : vlen (cs_packs snapshot) <= 2 ^ 32.

Lemma row_of_total i p e : cs_packs snapshot !! i = Some p -> e ∈ pm_objects (cp_manifest p) ->
  exists r, row_of (object_schemas_of snapshot) (N.of_nat i) e = Ok r.
Proof.
  intros Hp He. destruct (pack_validated _ _ _ Hst Hsized _ _ Hp) as [Hv _]. pose proof (admitted_entries _ _ Hv) as Hval. rewrite list.Forall_forall in Hval.
  destruct (reference_fields _ (Hval e He)) as (_ & _ & c & Hc). destruct (binary_digest_ok _ _ Hc) as (w & _ & _ & Hb). unfold row_of. rewrite Hb. cbn [result_bind].
  apply lookup_lt_Some in Hp as Hi. assert (N.of_nat i <=? u32_max = true) as -> by (apply N.leb_le; unfold vlen, u32_max in *; lia). cbn [result_bind].
  destruct (ordinal_total (object_schema (pe_object e)) (object_schemas_of snapshot)) as [n ->]; [|by eexists]. apply schema_of_entry. by exists i, p, e.
Qed.

Lemma collect_rows_total : exists rows, collect_rows snapshot = Ok rows.
Proof.
  destruct (try_map_total (rows_of (object_schemas_of snapshot)) (zip (seq 0 (length (cs_packs snapshot))) (cs_packs snapshot))) as [rowss Hrows].
  { intros [i p] [k Hk]%list_elem_of_lookup. apply lookup_zip_Some in Hk as [Hi Hp]. apply lookup_seq in Hi as [-> _]. apply try_map_total. intros e He. by apply (row_of_total k p). }
  unfold collect_rows. rewrite Hrows. cbn [result_bind]. rewrite windows_any_none; [by eexists|]. apply try_map_ok in Hrows.
  assert (forall r, r ∈ sort_by (cmp_on row_key) (concat rowss) -> exists i p e, stands_for snapshot r i p e) as Hall.
  { intros r Hr. rewrite (elem_of_Permutation_proper r _ _ (sort_by_perm _ _)), list_elem_of_In, in_concat in Hr. destruct Hr as (rs & Hrs & Hr).
    apply list_elem_of_In, list_elem_of_lookup in Hrs as [k Hk]. destruct (Forall2_lookup_r _ _ _ _ _ Hrows Hk) as ([i p] & Hz & Hrow).
    apply lookup_zip_Some in Hz as [Hi Hp]. apply lookup_seq in Hi as [-> _]. apply try_map_ok in Hrow.
    apply list_elem_of_In, list_elem_of_lookup in Hr as [n Hn]. destruct (Forall2_lookup_r _ _ _ _ _ Hrow Hn) as (e & He & Hre).
    exists k, p, e. split_and!; [done|by eapply list_elem_of_lookup_2|done]. }
  intros a b (i & p & e & Hp & He & Ha)%Hall (j & q & e' & Hq & He' & Hb)%Hall. unfold collides. case_bool_decide as Hd; [|done]. cbn.
  pose proof (snapshot_typed _ _ _ Hst) as [[_ Hloc] _]. apply locations_from_packs_ok in Hloc as [Hfree _].
  pose proof (row_spelled _ _ _ _ Ha) as Hwa. pose proof (row_spelled _ _ _ _ Hb) as Hwb.
  assert (pe_object e = pe_object e') as Hobj.
  { apply (Hfree (mkPackLocation (cp_data_name p) e) (mkPackLocation (cp_data_name q) e')).
    - apply (entries_packs snapshot st d Hst). by exists i, p, e.
    - apply (entries_packs snapshot st d Hst). by exists j, q, e'.
    - cbn [pl_entry]. by rewrite Hwa, Hwb, Hd. }
  unfold row_of in Ha, Hb. rewrite Hobj in Ha. destruct (binary_digest _) as [w2|]; [|done]. cbn [result_bind] in *.
  destruct (N.of_nat i <=? u32_max); [|done]. destruct (N.of_nat j <=? u32_max); [|done]. cbn [result_bind] in *.
  destruct (ordinal _ _) as [n|]; [|done]. cbn [ok_or result_bind] in *. injection Ha as <-. injection Hb as <-. cbn. by rewrite !N.eqb_refl.
Qed.
End Total.

(* --------------------------------------------------------------------- *)
(** ** The promises *)

Lemma publish_commits stat dir snapshot d c rows : publication dir snapshot d c rows -> MIN_OBJECTS <= vlen (snapshot_entries snapshot) ->
  publish_lookup stat dir snapshot d = (List.last (writes_of stat dir snapshot d c rows) dir, Ok tt).
Proof.
  intros [Hc Hr _ Hcount Hs Hb] Hmin. unfold publish_lookup. rewrite (proj2 (N.ltb_ge _ _) Hmin), (proj2 (N.ltb_ge _ _) Hcount), (names_of _ _ Hc), Hc.
  cbn [pure_on store_bind]. unfold open_file. destruct (bmap_get (c +:+ ".snapshot") dir) as [bs|]; [|done]. cbn [pure_on store_bind].
  unfold prepare_lookup. rewrite Hr. cbn [result_bind]. rewrite paginate_spec. fold (written_manifest snapshot d rows). fold (manifest_bytes snapshot d rows).
  by rewrite (proj2 (N.ltb_ge _ _) Hb).
Qed.

(** C9: the accelerator answers as the verified snapshot.  Once [publish] has passed
    its checks, a directory that still holds the files it wrote opens to a lookup
    that answers every digest, from one page, exactly as the location map of the
    verified snapshot does, misses included, and knows exactly its packs.  When the
    metadata of the snapshot file has changed since, there is no lookup and the
    snapshot is read in full; when that of the row file has changed, it is an error. *)
Theorem published_lookup_answers stat dir snapshot st d c rows stat2 dir2 head :
  catalog_state_from_snapshot snapshot d = Ok st -> snapshot_sized snapshot ->
  Forall (fun p => NoDup ((fun e => digest (pe_object e)) <$> pm_objects (cp_manifest p))) (cs_packs snapshot) ->
  publication dir snapshot d c rows -> stat_admitted stat c rows -> heads head snapshot d c ->
  let dir' := List.last (writes_of stat dir snapshot d c rows) dir in
  still_has c dir' dir2 ->
  (MIN_OBJECTS <= vlen (snapshot_entries snapshot) -> publish_lookup stat dir snapshot d = (dir', Ok tt)) /\
  if decide (stat2 (c +:+ ".snapshot") = stat (c +:+ ".snapshot"))
  then if decide (stat2 (c +:+ ".lookup-v1") = stat (c +:+ ".lookup-v1"))
       then exists lk, open_lookup stat2 dir2 head = Ok (Some lk) /\
         (forall digest comp, digest_component digest = Ok comp -> (find lk digest).2 = Ok (locations st !! digest)) /\
         (forall name, contains_pack lk name = true <-> name ∈ (packs st).*1)
       else open_lookup stat2 dir2 head = corrupt "catalog lookup data identity changed"
  else open_lookup stat2 dir2 head = Ok None.
Proof.
  intros Hst Hsz Hd Hp Hs Hh dir' Hstill. split; [by apply publish_commits|].
  rewrite (open_published stat dir snapshot st d c rows Hst Hsz Hp Hs stat2 dir2 head Hh Hstill).
  destruct (decide _); [|done]. destruct (decide _); [|done]. exists (opened snapshot d rows). split_and!; [done| |].
  - intros digest comp Hc. destruct (find (opened snapshot d rows) digest) as [lk r] eqn:Hf. destruct (find_ok (opened snapshot d rows) digest lk r) as (-> & _ & _); [|done|].
    + split; [constructor|by vm_compute].
    + by apply (uncached_answers dir snapshot st d c rows) with (comp := comp).
  - intros name. by apply (opened_packs snapshot st d rows).
Qed.

(** C11: the cache is invisible and bounded.  Any sequence of searches of an opened
    lookup gives the answers of searches that read, hash and decode their page from
    the file every time, and never holds more than 32 pages. *)
Theorem cache_is_invisible stat dir head lk digests lk' answers :
  open_lookup stat dir head = Ok (Some lk) -> find_all lk digests = (lk', answers) ->
  answers = find_uncached (lk_manifest lk) (lk_file lk) <$> digests /\ vlen (lk_cache lk') <= CACHE_PAGES.
Proof.
  intros Ho Hf. assert (lk_cache lk = []) as He.
  { unfold open_lookup in Ho. ok_inv Ho; try done; by injection Ho as <-. }
  destruct (find_all_ok digests lk lk' answers) as [Ha [_ Hl]]; [|done|done]. unfold cache_ok. rewrite He. split; [constructor|by vm_compute].
Qed.

(** C10: publishing an accelerator is safe to interrupt and never fails on a snapshot
    that was verified and is on disk.  It either leaves the directory alone (too few
    or too many objects, or too large a manifest) or makes its four changes; after
    any of them but the last there is no lookup, so the snapshot is read in full, and
    no other file of the directory ever changes. *)
Theorem publication_interruptible stat dir snapshot st d c head :
  catalog_state_from_snapshot snapshot d = Ok st -> snapshot_sized snapshot -> vlen (cs_packs snapshot) <= 2 ^ 32 ->
  bmap_wf dir -> digest_component d = Ok c -> bmap_get (c +:+ ".snapshot") dir <> None -> ch_snapshot_digest head = d ->
  exists rows, collect_rows snapshot = Ok rows /\
    let writes := writes_of stat dir snapshot d c rows in
    publish_lookup stat dir snapshot d =
      (if (MIN_OBJECTS <=? vlen (snapshot_entries snapshot)) && (vlen (snapshot_entries snapshot) <=? MAX_DATA_BYTES / ROW_BYTES)
          && (vlen (manifest_bytes snapshot d rows) <=? MAX_MANIFEST_BYTES)
       then List.last writes dir else dir, Ok tt) /\
    Forall (fun dir1 => forall stat1, open_lookup stat1 dir1 head = Ok None) (removelast writes) /\
    Forall (fun dir1 => forall name, (forall suffix, suffix ∈ LOOKUP_SUFFIXES -> name <> c +:+ suffix) -> bmap_get name dir1 = bmap_get name dir) writes.
Proof.
  intros Hst Hsz Hpk Hw Hc Hs Hh. destruct (collect_rows_total snapshot st d Hst Hsz Hpk) as [rows Hr]. exists rows. split; [done|]. cbv zeta. split_and!.
  - destruct (N.leb_spec MIN_OBJECTS (vlen (snapshot_entries snapshot))) as [Hmin|Hmin]; cbn [andb].
    2: { unfold publish_lookup. by rewrite (proj2 (N.ltb_lt _ _) Hmin). }
    destruct (N.leb_spec (vlen (snapshot_entries snapshot)) (MAX_DATA_BYTES / ROW_BYTES)) as [Hmax|Hmax]; cbn [andb].
    2: { unfold publish_lookup. by rewrite (proj2 (N.ltb_ge _ _) Hmin), (proj2 (N.ltb_lt _ _) Hmax). }
    destruct (N.leb_spec (vlen (manifest_bytes snapshot d rows)) MAX_MANIFEST_BYTES) as [Hb|Hb].
    + apply publish_commits; [|done]. split; try done. intros E. by rewrite E in Hmin.
    + unfold publish_lookup. rewrite (proj2 (N.ltb_ge _ _) Hmin), (proj2 (N.ltb_ge _ _) Hmax), (names_of _ _ Hc), Hc. cbn [pure_on store_bind]. unfold open_file.
      destruct (bmap_get (c +:+ ".snapshot") dir) as [bs|]; [|done]. cbn [pure_on store_bind]. unfold prepare_lookup. rewrite Hr. cbn [result_bind].
      rewrite paginate_spec. fold (written_manifest snapshot d rows). fold (manifest_bytes snapshot d rows). by rewrite (proj2 (N.ltb_lt _ _) Hb).
  - rewrite list.Forall_forall. intros dir1 Hin stat1. unfold open_lookup. rewrite Hh, (names_of _ _ Hc). cbn [result_bind]. unfold files_of.
    by rewrite (writes_uncommitted stat dir snapshot d c rows dir1 Hw Hin).
  - rewrite list.Forall_forall. intros dir1 Hin name Hn. pose proof (writes_keep stat dir snapshot d c rows name Hn) as Hk. rewrite list.Forall_forall in Hk. by apply Hk.
Qed.
End Publish.

(* --------------------------------------------------------------------- *)
(** ** An example *)

Module LookupExample.
#[local] Existing Instance toy.
#[local] Existing Instance toy_reader.
#[local] Existing Instance toy_hex.
(** The store of [HistoryExample] after a forced snapshot: three objects, two packs. *)
Definition compacted : CasStore * Res unit := maybe_snapshot_catalog_locked BatchExample.lookup_publish HistoryExample.again.1 true.
Definition store : CasStore := Eval vm_compute in compacted.1.
Definition head : CatalogHead := Eval vm_compute in ok_or_else (mkCatalogHead "" "" "" 0 None) (read_catalog_head store).
Notation d := (ch_snapshot_digest head).
Definition c : string := Eval vm_compute in ok_or_else "" (digest_component d).
Definition snapshot : CatalogSnapshot := Eval vm_compute in ok_or_else (snapshot_from_catalog_state default_state) (read_snapshot store head).
Definition rows : list Row := Eval vm_compute in ok_or_else [] (collect_rows snapshot).
Definition dir : BTreeMap string (list byte) := catalog_snapshots store.
Definition stat (name : string) : Fingerprint :=
  {| fp_device := 1; fp_inode := str_len name; fp_bytes := vlen (encode_rows rows); fp_modified_seconds := 1700000000; fp_modified_nanoseconds := 5;
     fp_changed_seconds := 1700000000; fp_changed_nanoseconds := 5 |}.
Definition published : BTreeMap string (list byte) := List.last (writes_of stat dir snapshot d c rows) dir.

Lemma compacts : compacted = (store, Ok tt).
Proof. vm_compute. reflexivity. Qed.
Lemma head_read : read_catalog_head store = Ok head.
Proof. vm_compute. reflexivity. Qed.
Lemma snapshot_read : read_snapshot store head = Ok snapshot.
Proof. vm_compute. reflexivity. Qed.
Lemma component_ok : digest_component d = Ok c.
Proof. vm_compute. reflexivity. Qed.
Lemma rows_collected : collect_rows snapshot = Ok rows.
Proof. vm_compute. reflexivity. Qed.
Lemma three_rows : vlen rows = 3.
Proof. vm_compute. reflexivity. Qed.
Lemma example_publication : publication dir snapshot d c rows.
Proof. split; [exact component_ok|exact rows_collected|vm_compute; discriminate..]. Qed.
Lemma example_stat : stat_admitted stat c rows.
Proof.
  assert (vlen (encode_rows rows) <= u64_max) as Hb by (vm_compute; discriminate).
  assert (forall name, str_len name <= u64_max -> stat_ok (stat name)) as Hok.
  { intros name Hi. split; cbn [stat fp_device fp_inode fp_bytes fp_modified_seconds fp_modified_nanoseconds fp_changed_seconds fp_changed_nanoseconds].
    - split_and!; [vm_compute; discriminate|exact Hi|exact Hb].
    - unfold time_ok. lia. }
  split_and!; [apply Hok; vm_compute; discriminate..|reflexivity].
Qed.
Lemma example_heads : heads head snapshot d c.
Proof. split_and!; vm_compute; reflexivity. Qed.
Lemma example_distinct : Forall (fun p => NoDup ((fun e => digest (pe_object e)) <$> pm_objects (cp_manifest p))) (cs_packs snapshot).
Proof. apply (bool_decide_eq_true_1 _). vm_compute. reflexivity. Qed.
Lemma published_keeps : bmap_get (ch_snapshot_name head) published = bmap_get (ch_snapshot_name head) (catalog_snapshots store).
Proof.
  assert (ch_snapshot_name head = c +:+ ".snapshot") as -> by (vm_compute; reflexivity). unfold published.
  transitivity (bmap_get (c +:+ ".snapshot") dir); [exact (snapshot_remains stat dir snapshot d c rows)|unfold dir; reflexivity].
Qed.
Definition base : CatalogState := Eval vm_compute in ok_or_else default_state (catalog_state_from_snapshot snapshot d).
Lemma base_ok : catalog_state_from_snapshot snapshot d = Ok base.
Proof. vm_compute. reflexivity. Qed.
Lemma example_sized : snapshot_sized snapshot.
Proof. split; [vm_compute; discriminate|]. apply (bool_decide_eq_true_1 _). vm_compute. reflexivity. Qed.

(** The accelerator that was opened, and searches of it: every object twice, and a miss. *)
Definition lk : OpenLookup := {| lk_manifest := written_manifest snapshot d rows; lk_file := encode_rows rows; lk_cache := [] |}.
Lemma opens : open_lookup stat published head = Ok (Some lk).
Proof.
  rewrite (open_published stat dir snapshot base d c rows base_ok example_sized example_publication example_stat stat published head example_heads) by done.
  by rewrite !decide_True.
Qed.
Definition digests : list string := ((fun r => spelled (row_digest r)) <$> (rows ++ rows)) ++ ["sha256:" +:+ c].
Definition searched : OpenLookup * list (Res (option PackLocation)) := find_all lk digests.
Lemma searched_ok : find_all lk digests = (searched.1, searched.2).
Proof. unfold searched. apply surjective_pairing. Qed.
Lemma searches : forallb is_ok searched.2 && (vlen (lk_cache searched.1) =? 1) = true.
Proof. vm_compute. reflexivity. Qed.
End LookupExample.

Lemma published_lookup_answers_witness :
  exists lk, open_lookup (P := toy) LookupExample.stat LookupExample.published LookupExample.head = Ok (Some lk) /\
    forall digest comp, digest_component digest = Ok comp -> (find (P := toy) lk digest).2 = Ok (locations LookupExample.base !! digest).
Proof.
  destruct (published_lookup_answers (P := toy) (R := toy_reader) (H := toy_hex) LookupExample.stat LookupExample.dir LookupExample.snapshot LookupExample.base
    LookupExample.d LookupExample.c LookupExample.rows LookupExample.stat LookupExample.published LookupExample.head LookupExample.base_ok LookupExample.example_sized
    LookupExample.example_distinct LookupExample.example_publication LookupExample.example_stat LookupExample.example_heads) as [_ H]; [intros suffix _; reflexivity|].
  rewrite !decide_True in H by reflexivity. destruct H as (lk & Ho & Hf & _). exists lk. split; [exact Ho|exact Hf].
Defined.

Lemma cache_is_invisible_witness :
  LookupExample.searched.2 = find_uncached (P := toy) (lk_manifest LookupExample.lk) (lk_file LookupExample.lk) <$> LookupExample.digests /\
  vlen (lk_cache LookupExample.searched.1) <= CACHE_PAGES.
Proof.
  exact (cache_is_invisible (P := toy) (R := toy_reader) LookupExample.stat LookupExample.published LookupExample.head LookupExample.lk LookupExample.digests
    LookupExample.searched.1 LookupExample.searched.2 LookupExample.opens LookupExample.searched_ok).
Defined.

Lemma publication_interruptible_witness :
  exists rows, collect_rows LookupExample.snapshot = Ok rows /\
    publish_lookup (P := toy) LookupExample.stat LookupExample.dir LookupExample.snapshot LookupExample.d = (LookupExample.dir, Ok tt) /\
    Forall (fun dir1 => forall stat1, open_lookup (P := toy) stat1 dir1 LookupExample.head = Ok None)
      (removelast (writes_of (P := toy) LookupExample.stat LookupExample.dir LookupExample.snapshot LookupExample.d LookupExample.c rows)).
Proof.
  destruct (publication_interruptible (P := toy) (R := toy_reader) (H := toy_hex) LookupExample.stat LookupExample.dir LookupExample.snapshot LookupExample.base
    LookupExample.d LookupExample.c LookupExample.head LookupExample.base_ok LookupExample.example_sized) as (rows & Hr & Hp & Hi & _).
  - vm_compute. discriminate.
  - apply windows_lt_wf. vm_compute. reflexivity.
  - exact LookupExample.component_ok.
  - vm_compute. discriminate.
  - exact (proj1 LookupExample.example_heads).
  - exists rows. split; [exact Hr|]. split; [|exact Hi]. refine (eq_trans Hp _).
    assert (MIN_OBJECTS <=? vlen (snapshot_entries LookupExample.snapshot) = false) as -> by (vm_compute; reflexivity). reflexivity.
Defined.
