(* ===== verification/LookupServing.v ===== *)
(** * A store that opens through an accelerator (cas.rs: try_lookup_catalog_locked)

    The catalog in memory then holds only what the journal adds to the snapshot; the
    snapshot is consulted through the accelerator.  Such a store serves what a store
    serves that has read the whole snapshot. *)

From stdpp Require Import gmap.
From S2P Require Import Prelude Order Collections Text Json Canonical Instances JsonFormat JsonRead Paths Errors CasObject CasInterface.
From S2P Require Import Catalog CatalogTypes CatalogCodec CasStore CasCatalog CatalogAuthority CasBatch CatalogDurable CatalogLookup LookupSpec LookupResults.
Open Scope N_scope.

(* --------------------------------------------------------------------- *)
(** ** Overlay and whole catalog *)


Section Overlay.
Context {P : Primitives} {R : JsonReader}.
Notation parse := (from_slice decode_catalog_record).







End Overlay.

(* --------------------------------------------------------------------- *)
(** ** Opening a store *)

Section Serving.
Context {P : Primitives} {R : JsonReader}.
Context (receipt_matches : CasStore -> string -> PackManifest -> bool).
Context (receipt_bytes : CasStore -> string -> PackManifest -> list byte).
Context (lookup_open : CasStore -> CatalogHead -> Res (option Lookup)).
Context (lookup_publish : BTreeMap string (list byte) -> CatalogSnapshot -> string -> BTreeMap string (list byte)).
Hypothesis lookup_publish_keeps : forall dir snapshot d name, has_extension "snapshot" name = true ->
  bmap_get name (lookup_publish dir snapshot d) = bmap_get name dir.





End Serving.


(* --------------------------------------------------------------------- *)
(** ** The store over the published accelerator *)

Section Accelerated.
Context {P : Primitives} {PL : PrimitivesLaws P} {W : WriterLaws P} {R : JsonReader} {RL : ReaderLaws P R} {H : HexCodec} {HL : HexLaws H}.
Context (receipt_matches : CasStore -> string -> PackManifest -> bool).
Context (receipt_bytes : CasStore -> string -> PackManifest -> list byte).

(** [lookup::open] and [lookup::publish] as cas.rs calls them. *)
Definition accelerator_of (stat : string -> Fingerprint) (s : CasStore) (head : CatalogHead) : Res (option Lookup) :=
  let? opened := open_lookup stat (catalog_snapshots s) head in Ok (as_lookup <$> opened).
Definition publish_accelerator (stat : string -> Fingerprint) (dir : BTreeMap string (list byte)) (snapshot : CatalogSnapshot) (digest : string)
  : BTreeMap string (list byte) := (publish_lookup stat dir snapshot digest).1.



End Accelerated.

(* --------------------------------------------------------------------- *)
(** ** An example *)

Module ServingExample.
#[local] Existing Instance toy.
#[local] Existing Instance toy_reader.
#[local] Existing Instance toy_hex.
(** The compacted store with its accelerator, and a batch after the snapshot. *)
Definition with_lookup : CasStore := set_snapshots LookupExample.store LookupExample.published.
Definition grown : CasStore * Res (list CasObject) := BatchExample.publish with_lookup [("test/3", [x04])].
Definition opened_store : CasStore * Res unit :=
  open BatchExample.receipt_matches BatchExample.receipt_bytes (accelerator_of LookupExample.stat) (publish_accelerator LookupExample.stat) grown.1.
(** The accelerator was used, and the new object is in the overlay alone. *)
Lemma opens_selectively : is_ok opened_store.2 && is_some (lookup opened_store.1) && (vlen (packs (pack_catalog opened_store.1)) =? 1) = true.
Proof. vm_compute. reflexivity. Qed.

End ServingExample.

