(* ===== verification/StorageGc.v ===== *)
(** * Garbage collection of the store (cas.rs: storage_plan, garbage_collect_storage)

    Objects live as long as a managed-state file refers to them, directly or through
    other objects.  The roots are read from a tree of directories; a loop marks what
    they reach; a plan lists packs, loose objects and crash leftovers to remove, and
    nothing when an object is missing; the collection removes them and compacts the
    catalog.

    The managed directories are trees of files.  The identities of released sessions
    and runs, which session.rs decides, are an argument.  Loose objects keep the keys
    of [objects]: the two characters of the prefix directory followed by the file
    name.  Files of the pack directory are the keys of [pack_files] and
    [pack_metadata].  Non-UTF-8 names and directories in the place of files do not
    occur in these maps.  The scratch report of java_analysis_scratch.rs is left out. *)

From stdpp Require Import gmap.
From S2P Require Import Prelude Order Collections Text Json Canonical Instances JsonFormat JsonRead Paths Errors CasObject CasInterface.
From S2P Require Import Catalog CatalogTypes CatalogCodec CasStore CasCatalog.
Open Scope N_scope.

Definition MAX_REACHABILITY_ROOT_FILE_BYTES : N := 256 * 1024 * 1024.
Definition MAX_REACHABILITY_OBJECT_BYTES : N := 512 * 1024 * 1024.
Definition MAX_REACHABILITY_ROOT_FILES : N := 1000000.
Definition MAX_REACHABILITY_ROOT_BYTES : N := 8 * 1024 * 1024 * 1024.
Definition MAX_REACHABILITY_DEPTH : N := 64.
Definition STORAGE_REPORT_SCHEMA : string := "codeclew-storage-report/2.1".

Definition u64_saturating_add (a b : N) : N := N.min u64_max (a + b).

(* --------------------------------------------------------------------- *)
(** ** Names *)

Definition is_lower_hex (value : string) (length : N) : bool := (str_len value =? length) && str_all lower_hex_byte value.

(** The bytes of a canonical UUID by position. *)
Definition uuid_byte (index : N) (byte : ascii) : bool :=
  if bool_decide (index ∈ [8; 13; 18; 23]) then Ascii.eqb byte "-"
  else if index =? 14 then Ascii.eqb byte "4"
  else if index =? 19 then bool_decide (byte ∈ ["8"; "9"; "a"; "b"]%char)
  else lower_hex_byte byte.
Fixpoint uuid_bytes (index : N) (value : string) : bool :=
  match value with
  | EmptyString => true
  | String byte rest => uuid_byte index byte && uuid_bytes (index + 1) rest
  end.
Definition is_canonical_uuid_v4 (value : string) : bool := (str_len value =? 36) && uuid_bytes 0 value.

Definition is_reclaimable_orphan_loose_file (name : string) : bool :=
  existsb (fun prefix => match strip_prefix prefix name with Some value => is_canonical_uuid_v4 value | None => false end)
    [".tmp-"; ".derived-"].
Definition is_reclaimable_orphan_pack_file (name : string) : bool :=
  starts_with ".pack-" name || starts_with ".tmp-" name
  || existsb (fun extension =>
       match strip_suffix ("." +:+ extension) name with Some component => is_lower_hex component 64 | None => false end)
       ["pack"; "json"; "verified"].

(* --------------------------------------------------------------------- *)
(** ** References in documents *)

Definition admit_reference (value : Value) (st : BTreeMap string CasObject * list CasObject)
  : Res (BTreeMap string CasObject * list CasObject) :=
  let? object := ok_or (decode_cas_object value) (ClewError_new StateCorrupt "embedded CAS reference is invalid") in
  validate_reference object ;;?
  match bmap_get (digest object) st.1 with
  | Some existing =>
      if negb (bool_decide (existing = object)) then corrupt "embedded CAS digest has conflicting authority" else Ok st
  | None => Ok (bmap_insert (digest object) object st.1, st.2 ++ [object])
  end.

Definition is_reference (m : list (string * Value)) : bool :=
  match map_get "schema" m with Some (JString s) => String.eqb s CAS_OBJECT_SCHEMA | _ => false end.

Fixpoint collect_cas_references (value : Value) (st : BTreeMap string CasObject * list CasObject)
  : Res (BTreeMap string CasObject * list CasObject) :=
  match value with
  | JObject m =>
      if is_reference m then admit_reference value st
      else try_fold (fun st e => collect_cas_references e.2 st) st m
  | JArray items => try_fold (fun st nested => collect_cas_references nested st) st items
  | _ => Ok st
  end.

(* --------------------------------------------------------------------- *)
(** ** Roots *)

Inductive Entry : Type :=
| EFile (bytes : list byte)
| EDir (identity : N * N) (entries : list (string * Entry)).

Section EntryInd.
Context (Q : Entry -> Prop).
Hypothesis Hfile : forall bytes, Q (EFile bytes).
Hypothesis Hdir : forall identity entries, Forall (fun e => Q e.2) entries -> Q (EDir identity entries).
Fixpoint Entry_ind' (e : Entry) : Q e :=
  match e with
  | EFile bytes => Hfile bytes
  | EDir identity entries =>
      Hdir identity entries ((fix go (l : list (string * Entry)) : Forall (fun e => Q e.2) l :=
        match l with
        | [] => Forall_nil _
        | (n, e) :: l => Forall_cons (fun e => Q e.2) (n, e) l (Entry_ind' e) (go l)
        end) entries)
  end.
End EntryInd.

Record ReleasedSessionCasRoots : Type := mkReleased {
  session_components : BTreeMap string (N * N);
  run_components : BTreeMap string (N * N);
  retained_legacy_recovery_sessions : N;
  retained_legacy_recovery_runs : N
}.

Record ManagedRootScan : Type := mkScan {
  files_scanned : N;
  bytes_scanned : N;
  references : BTreeMap string CasObject
}.

Definition is_opaque_reachability_subtree (root : string) (components : list string) : bool :=
  if String.eqb root "sessions" then
    match components with
    | [_; b] => String.eqb b "source"
    | [_; b; _; d] => String.eqb b "candidates" && String.eqb d "worktree"
    | _ => false
    end
  else if String.eqb root "generations" then match components with [a] => String.eqb a "compiler-store" | _ => false end
  else false.

(** The identity a released directory must have. *)
Definition released_identity (released : ReleasedSessionCasRoots) (root : string) (relative : list string) (name : string) : option (N * N) :=
  match relative with
  | [] => if String.eqb root "sessions" then bmap_get name (session_components released)
          else if String.eqb root "runs" then bmap_get name (run_components released) else None
  | _ => None
  end.

Definition is_ascii_whitespace (b : byte) : bool := bool_decide (b ∈ [x20; x09; x0a; x0c; x0d]).
(** [bytes.split(|byte| *byte == b'\n')]. *)
Fixpoint split_lines (bytes : list byte) : list (list byte) :=
  match bytes with
  | [] => [[]]
  | b :: rest =>
      match split_lines rest with
      | line :: lines => if bool_decide (b = x0a) then [] :: line :: lines else (b :: line) :: lines
      | [] => [[b]]
      end
  end.

Section Roots.
Context {R : JsonReader}.

Definition collect_document (message : string) (bytes : list byte) (references : BTreeMap string CasObject) : Res (BTreeMap string CasObject) :=
  let? value := ok_or (read_document bytes) (ClewError_new StateCorrupt message) in
  let? st := collect_cas_references value (references, []) in Ok st.1.

Definition scan_file (name : string) (bytes : list byte) (scan : ManagedRootScan) : Res ManagedRootScan :=
  let json := bool_decide (extension name = Some "json") in
  let jsonl := bool_decide (extension name = Some "jsonl") in
  if negb json && negb jsonl then Ok scan
  else
  let files := u64_saturating_add (files_scanned scan) 1 in
  if MAX_REACHABILITY_ROOT_FILES <? files then resource_limit "managed-state reachability file count exceeds its bound"
  else if MAX_REACHABILITY_ROOT_FILE_BYTES <? vlen bytes then corrupt "managed-state reachability root is unsafe"
  else
  let total := u64_saturating_add (bytes_scanned scan) (vlen bytes) in
  if MAX_REACHABILITY_ROOT_BYTES <? total then resource_limit "managed-state reachability bytes exceed the 8 GiB bound"
  else
  let? found :=
    (if jsonl
     then try_fold (fun references line =>
            if forallb is_ascii_whitespace line then Ok references
            else collect_document "managed-state JSONL reachability root is invalid" line references)
            (references scan) (split_lines bytes)
     else collect_document "managed-state JSON reachability root is invalid" bytes (references scan)) in
  Ok {| files_scanned := files; bytes_scanned := total; references := found |}.

(** One entry of a directory at [depth]; [scan_managed_roots] is the loop over the
    entries of a directory, so a subdirectory is checked at [depth + 1]. *)
Fixpoint scan_entry (released : ReleasedSessionCasRoots) (root : string) (relative : list string) (depth : N) (scan : ManagedRootScan)
    (name : string) (e : Entry) : Res ManagedRootScan :=
  match e with
  | EDir identity entries =>
      match released_identity released root relative name with
      | Some expected =>
          if negb (bool_decide (identity = expected)) then corrupt "released root directory changed after lifecycle validation"
          else Ok scan
      | None =>
          if is_opaque_reachability_subtree root (relative ++ [name]) then Ok scan
          else if MAX_REACHABILITY_DEPTH <? depth + 1 then resource_limit "managed-state reachability depth exceeds its bound"
          else try_fold (fun scan e => scan_entry released root (relative ++ [name]) (depth + 1) scan e.1 e.2) scan entries
      end
  | EFile bytes => scan_file name bytes scan
  end.

Definition scan_managed_roots (released : ReleasedSessionCasRoots) (root : string) (entries : list (string * Entry)) (scan : ManagedRootScan)
  : Res ManagedRootScan := try_fold (fun scan e => scan_entry released root [] 0 scan e.1 e.2) scan entries.

Definition ROOTS : list string := ["repos"; "sessions"; "missions"; "workspaces"; "threads"; "runs"; "generations"; "changes"].

(** The managed directories by name; [authority.directory] creates a missing one. *)
Definition scan_roots (managed : BTreeMap string (list (string * Entry))) (released : ReleasedSessionCasRoots) : Res ManagedRootScan :=
  try_fold (fun scan name => scan_managed_roots released name (default [] (bmap_get name managed)) scan)
    {| files_scanned := 0; bytes_scanned := 0; references := [] |} ROOTS.
End Roots.

(* --------------------------------------------------------------------- *)
(** ** Marking *)

Record Mark : Type := mkMark {
  reachable : BTreeSet string;
  dangling : BTreeSet string;
  authorities : BTreeMap string CasObject;
  pending : list CasObject
}.

Record StorageReport : Type := mkStorageReport {
  sr_schema : string;
  applied : bool;                            (* StorageAction *)
  root_files_scanned : N;
  root_bytes_scanned : N;
  reachable_objects : N;
  packed_objects : N;
  loose_objects : N;
  pack_bytes : N;
  loose_bytes : N;
  sr_catalog_metadata_bytes : N;
  reclaimable_packs : N;
  reclaimable_loose_objects : N;
  reclaimable_orphan_loose_files : N;
  reclaimable_orphan_pack_files : N;
  reclaimable_bytes : N;
  reclaimed_bytes : N;
  retained_mixed_packs : N;
  released_sessions : N;
  released_runs : N;
  sr_retained_legacy_recovery_sessions : N;
  sr_retained_legacy_recovery_runs : N;
  dangling_objects : N;
  collection_blocked : bool;
  catalog_snapshot_deferred : bool;
  sr_deferred_snapshot_bytes : N;
  catalog_snapshot_limit_bytes : N;
  catalog_tail_bytes : N;
  catalog_tail_limit_bytes : N
}.

Record StoragePlan : Type := mkStoragePlan {
  report : StorageReport;
  dead_packs : list CatalogPack;
  dead_loose : list string;
  orphan_loose_files : list string;          (* prefix and name, as in [objects] *)
  orphan_pack_files : list string
}.

(** The loop over the packs of the catalog. *)
Record PackScan : Type := mkPackScan {
  ps_dead : list CatalogPack;
  ps_objects : N;
  ps_bytes : N;
  ps_reclaimable : N;
  ps_mixed : N;
  ps_expected : BTreeSet string
}.
(** The loop over the loose objects. *)
Record LooseScan : Type := mkLooseScan {
  ls_objects : N;
  ls_bytes : N;
  ls_reclaimable : N;
  ls_dead : list string;
  ls_orphans : list string
}.

Section Collection.
Context {P : Primitives} {R : JsonReader}.
Context (receipt_matches : CasStore -> string -> PackManifest -> bool).
Context (receipt_bytes : CasStore -> string -> PackManifest -> list byte).
Context (lookup_open : CasStore -> CatalogHead -> Res (option Lookup)).
Context (lookup_publish : BTreeMap string (list byte) -> CatalogSnapshot -> string -> BTreeMap string (list byte)).
Notation sync_catalog_locked := (sync_catalog_locked receipt_matches receipt_bytes lookup_publish).

(** The body of the loop for the object taken from the queue. *)
Definition mark_object (s : CasStore) (m : Mark) (object : CasObject) : CasStore * Res Mark :=
  do! s, valid := pure_on s (validate_reference object) in
  if bset_contains (digest object) (reachable m) then (s, Ok m)
  else
  let m := {| reachable := bset_insert (digest object) (reachable m); dangling := dangling m; authorities := authorities m; pending := pending m |} in
  if usize_max <? size object then (s, resource_limit "CAS reachability object exceeds host size")
  else if MAX_REACHABILITY_OBJECT_BYTES <? size object
  then (s, resource_limit "CAS reachability object exceeds the 512 MiB safety bound")
  else
  do! s, located := pure_on s (object_has_authoritative_location s object) in
  if negb located
  then (s, Ok {| reachable := reachable m; dangling := bset_insert (digest object) (dangling m); authorities := authorities m; pending := pending m |})
  else
  do! s, bytes := read sync_catalog_locked s object (size object) in
  match read_document bytes with
  | None => (s, Ok m)
  | Some value =>
      do! s, st := pure_on s (collect_cas_references value (authorities m, pending m)) in
      (s, Ok {| reachable := reachable m; dangling := dangling m; authorities := st.1; pending := st.2 |})
  end.

(** [while let Some(object) = pending.pop_front()]; [None] when the fuel runs out. *)
Fixpoint mark (fuel : nat) (s : CasStore) (m : Mark) : option (CasStore * Res Mark) :=
  match pending m, fuel with
  | [], _ => Some (s, Ok m)
  | _ :: _, O => None
  | object :: rest, S fuel =>
      let m := {| reachable := reachable m; dangling := dangling m; authorities := authorities m; pending := rest |} in
      match mark_object s m object with
      | (s, Ok m) => mark fuel s m
      | (s, Err e) => Some (s, Err e)
      end
  end.

Definition initial_mark (roots : BTreeMap string CasObject) : Mark :=
  {| reachable := []; dangling := []; authorities := roots; pending := roots.*2 |}.

(** Enough fuel: one round per root and per reference in a stored object. *)
Definition stored_contents (s : CasStore) : list (list byte) :=
  (objects s).*2 ++
  omap (fun e : string * PackLocation =>
    file ← bmap_get (pl_data_name e.2) (pack_files s);
    read_exact_at file (pe_offset (pl_entry e.2)) (size (pe_object (pl_entry e.2)))) (map_to_list (locations (pack_catalog s))).
Fixpoint value_references (value : Value) : list CasObject :=
  match value with
  | JObject m =>
      if is_reference m then match decode_cas_object value with Some o => [o] | None => [] end
      else flat_map (fun e => value_references e.2) m
  | JArray items => flat_map value_references items
  | _ => []
  end.
Definition content_references (bytes : list byte) : list CasObject :=
  match read_document bytes with Some value => value_references value | None => [] end.
Definition mark_fuel (s : CasStore) (roots : BTreeMap string CasObject) : nat :=
  (length roots + length (flat_map content_references (stored_contents s)))%nat.

(* --------------------------------------------------------------------- *)
(** ** The plan *)

Definition pack_file (s : CasStore) (name : string) : option (list byte) :=
  match bmap_get name (pack_files s) with Some b => Some b | None => bmap_get name (pack_metadata s) end.
Definition optional_file_len (s : CasStore) (name : string) : N := match pack_file s name with Some b => vlen b | None => 0 end.

Definition scan_pack (s : CasStore) (reachable : BTreeSet string) (acc : PackScan) (e : string * PackManifest) : PackScan :=
  let '(data_name, manifest) := e in
  let component := file_stem data_name in
  let index_name := component +:+ ".json" in
  let receipt_name := component +:+ ".verified" in
  let physical := optional_file_len s data_name + optional_file_len s index_name + optional_file_len s receipt_name in
  let live := List.filter (fun entry => bset_contains (digest (pe_object entry)) reachable) (pm_objects manifest) in
  {| ps_dead := if vlen live =? 0 then ps_dead acc ++ [{| cp_data_name := data_name; cp_manifest := manifest |}] else ps_dead acc;
     ps_objects := u64_saturating_add (ps_objects acc) (vlen (pm_objects manifest));
     ps_bytes := u64_saturating_add (ps_bytes acc) physical;
     ps_reclaimable := if vlen live =? 0 then u64_saturating_add (ps_reclaimable acc) physical else ps_reclaimable acc;
     ps_mixed := if negb (vlen live =? 0) && (vlen live <? vlen (pm_objects manifest)) then ps_mixed acc + 1 else ps_mixed acc;
     ps_expected := bset_insert receipt_name (bset_insert index_name (bset_insert data_name (ps_expected acc))) |}.
Definition scan_packs (s : CasStore) (reachable : BTreeSet string) : PackScan :=
  foldl (scan_pack s reachable) {| ps_dead := []; ps_objects := 0; ps_bytes := 0; ps_reclaimable := 0; ps_mixed := 0; ps_expected := [] |}
    (packs (pack_catalog s)).

Definition orphan_pack_names (s : CasStore) (expected : BTreeSet string) : list string :=
  List.filter (fun name => negb (bset_contains name expected) && is_reclaimable_orphan_pack_file name)
    (bmap_keys (pack_files s) ++ bmap_keys (pack_metadata s)).
Definition orphan_pack_len (s : CasStore) (names : list string) : N :=
  foldl (fun n name => u64_saturating_add n (optional_file_len s name)) 0 names.

Definition loose_prefix (key : string) : string := String.substring 0 2 key.
Definition loose_name (key : string) : string := String.substring 2 (String.length key - 2) key.

Definition scan_loose_file (reachable : BTreeSet string) (packed : gmap string PackLocation) (acc : LooseScan) (e : string * list byte) : Res LooseScan :=
  let '(key, content) := e in
  if negb (is_lower_hex (loose_prefix key) 2) then corrupt "CAS loose-object prefix is invalid"
  else if negb (is_lower_hex (loose_name key) 62) then
    if negb (is_reclaimable_orphan_loose_file (loose_name key)) then corrupt "CAS loose-object name is invalid"
    else Ok {| ls_objects := ls_objects acc; ls_bytes := u64_saturating_add (ls_bytes acc) (vlen content);
               ls_reclaimable := u64_saturating_add (ls_reclaimable acc) (vlen content);
               ls_dead := ls_dead acc; ls_orphans := ls_orphans acc ++ [key] |}
  else
    let digest := "sha256:" +:+ loose_prefix key +:+ loose_name key in
    let dead := negb (bset_contains digest reachable) || bool_decide (is_Some (packed !! digest)) in
    Ok {| ls_objects := ls_objects acc + 1; ls_bytes := u64_saturating_add (ls_bytes acc) (vlen content);
          ls_reclaimable := if dead then u64_saturating_add (ls_reclaimable acc) (vlen content) else ls_reclaimable acc;
          ls_dead := if dead then ls_dead acc ++ [digest] else ls_dead acc; ls_orphans := ls_orphans acc |}.

Definition catalog_metadata_bytes (s : CasStore) : N :=
  let len (f : option (list byte)) := match f with Some b => vlen b | None => 0 end in
  foldl (fun n e => u64_saturating_add n (vlen e.2)) (u64_saturating_add (len (catalog_head s)) (len (catalog_deferred s)))
    (catalog_snapshots s ++ catalog_records s).

(** The plan for a store that was marked. *)
Definition make_plan (s : CasStore) (released : ReleasedSessionCasRoots) (scan : ManagedRootScan) (m : Mark) : Res StoragePlan :=
  let catalog := pack_catalog s in
  let packed := scan_packs s (reachable m) in
  let orphans := orphan_pack_names s (ps_expected packed) in
  let? loose := try_fold (scan_loose_file (reachable m) (locations catalog))
                  {| ls_objects := 0; ls_bytes := 0; ls_reclaimable := u64_saturating_add (ps_reclaimable packed) (orphan_pack_len s orphans);
                     ls_dead := []; ls_orphans := [] |} (objects s) in
  let blocked := negb (bool_decide (dangling m = [])) in
  let dead_packs := if blocked then [] else ps_dead packed in
  let dead_loose := if blocked then [] else ls_dead loose in
  let orphan_loose := if blocked then [] else ls_orphans loose in
  let orphan_packs := if blocked then [] else orphans in
  let reclaimable := if blocked then 0 else ls_reclaimable loose in
  Ok {| report :=
          {| sr_schema := STORAGE_REPORT_SCHEMA; applied := false; root_files_scanned := files_scanned scan; root_bytes_scanned := bytes_scanned scan;
             reachable_objects := vlen (reachable m); packed_objects := ps_objects packed; loose_objects := ls_objects loose;
             pack_bytes := ps_bytes packed; loose_bytes := ls_bytes loose; sr_catalog_metadata_bytes := catalog_metadata_bytes s;
             reclaimable_packs := vlen dead_packs; reclaimable_loose_objects := vlen dead_loose;
             reclaimable_orphan_loose_files := vlen orphan_loose; reclaimable_orphan_pack_files := vlen orphan_packs;
             reclaimable_bytes := reclaimable; reclaimed_bytes := 0; retained_mixed_packs := ps_mixed packed;
             released_sessions := vlen (session_components released); released_runs := vlen (run_components released);
             sr_retained_legacy_recovery_sessions := retained_legacy_recovery_sessions released;
             sr_retained_legacy_recovery_runs := retained_legacy_recovery_runs released;
             dangling_objects := vlen (dangling m); collection_blocked := blocked;
             catalog_snapshot_deferred := is_some (deferred_since_sequence catalog); sr_deferred_snapshot_bytes := deferred_snapshot_bytes catalog;
             catalog_snapshot_limit_bytes := MAX_CATALOG_SNAPSHOT_BYTES; catalog_tail_bytes := tail_bytes catalog;
             catalog_tail_limit_bytes := MAX_CATALOG_RECOVERY_TAIL_BYTES |};
        dead_packs := dead_packs; dead_loose := dead_loose; orphan_loose_files := orphan_loose; orphan_pack_files := orphan_packs |}.

Definition storage_plan (s : CasStore) (managed : BTreeMap string (list (string * Entry))) (released : ReleasedSessionCasRoots)
  : option (CasStore * Res StoragePlan) :=
  match sync_catalog_locked s with
  | (s, Err e) => Some (s, Err e)
  | (s, Ok _) =>
      match scan_roots managed released with
      | Err e => Some (s, Err e)
      | Ok scan =>
          match mark (mark_fuel s (references scan)) s (initial_mark (references scan)) with
          | None => None
          | Some (s, Err e) => Some (s, Err e)
          | Some (s, Ok m) => Some (s, make_plan s released scan m)
          end
      end
  end.

(* --------------------------------------------------------------------- *)
(** ** The collection *)

Definition remove_pack_file (s : CasStore) (name : string) : CasStore :=
  set_metadata (set_pack_files s (bmap_remove name (pack_files s))) (bmap_remove name (pack_metadata s)).

Definition remove_dead_pack (s : CasStore) (pack : CatalogPack) : CasStore * Res unit :=
  do! s, appended := append_catalog_record_locked lookup_publish s Remove (cp_data_name pack) (cp_manifest pack) false in
  let component := file_stem (cp_data_name pack) in
  (foldl remove_pack_file s [cp_data_name pack; component +:+ ".json"; component +:+ ".verified"], Ok tt).

Definition remove_loose (s : CasStore) (digest : string) : CasStore * Res unit :=
  do! s, name := pure_on s (digest_component digest) in
  (set_objects s (bmap_remove name (objects s)), Ok tt).

Definition apply_plan (s : CasStore) (plan : StoragePlan) : CasStore * Res unit :=
  do! s, synced := sync_catalog_locked s in
  do! s, packs := store_fold (fun s _ pack => remove_dead_pack s pack) s tt (dead_packs plan) in
  do! s, loose := store_fold (fun s _ digest => remove_loose s digest) s tt (dead_loose plan) in
  let s := foldl (fun s key => set_objects s (bmap_remove key (objects s))) s (orphan_loose_files plan) in
  let s := foldl remove_pack_file s (orphan_pack_files plan) in
  maybe_snapshot_catalog_locked lookup_publish s true.

Definition applied_report (s : CasStore) (r : StorageReport) : StorageReport :=
  {| sr_schema := sr_schema r; applied := true; root_files_scanned := root_files_scanned r; root_bytes_scanned := root_bytes_scanned r;
     reachable_objects := reachable_objects r; packed_objects := packed_objects r; loose_objects := loose_objects r; pack_bytes := pack_bytes r;
     loose_bytes := loose_bytes r; sr_catalog_metadata_bytes := sr_catalog_metadata_bytes r; reclaimable_packs := reclaimable_packs r;
     reclaimable_loose_objects := reclaimable_loose_objects r; reclaimable_orphan_loose_files := reclaimable_orphan_loose_files r;
     reclaimable_orphan_pack_files := reclaimable_orphan_pack_files r; reclaimable_bytes := reclaimable_bytes r;
     reclaimed_bytes := reclaimable_bytes r; retained_mixed_packs := retained_mixed_packs r; released_sessions := released_sessions r;
     released_runs := released_runs r; sr_retained_legacy_recovery_sessions := sr_retained_legacy_recovery_sessions r;
     sr_retained_legacy_recovery_runs := sr_retained_legacy_recovery_runs r; dangling_objects := dangling_objects r;
     collection_blocked := collection_blocked r; catalog_snapshot_deferred := is_some (deferred_since_sequence (pack_catalog s));
     sr_deferred_snapshot_bytes := deferred_snapshot_bytes (pack_catalog s); catalog_snapshot_limit_bytes := catalog_snapshot_limit_bytes r;
     catalog_tail_bytes := tail_bytes (pack_catalog s); catalog_tail_limit_bytes := catalog_tail_limit_bytes r |}.

Definition garbage_collect_storage (s : CasStore) (managed : BTreeMap string (list (string * Entry))) (released : ReleasedSessionCasRoots)
  : option (CasStore * Res StorageReport) :=
  match open receipt_matches receipt_bytes lookup_open lookup_publish s with
  | (s, Err e) => Some (s, Err e)
  | (s, Ok _) =>
      match storage_plan s managed released with
      | None => None
      | Some (s, Err e) => Some (s, Err e)
      | Some (s, Ok plan) =>
          if collection_blocked (report plan)
          then Some (s, Err (ClewError_new PreconditionFailed
            "CAS collection is blocked by dangling retained references; release or repair their owning state before applying GC"))
          else
          match apply_plan s plan with
          | (s, Err e) => Some (s, Err e)
          | (s, Ok _) => Some (s, Ok (applied_report s (report plan)))
          end
      end
  end.

(** [storage_status]. *)
Definition storage_status (s : CasStore) (managed : BTreeMap string (list (string * Entry))) (released : ReleasedSessionCasRoots)
  : option (CasStore * Res StorageReport) :=
  match open receipt_matches receipt_bytes lookup_open lookup_publish s with
  | (s, Err e) => Some (s, Err e)
  | (s, Ok _) =>
      match storage_plan s managed released with
      | None => None
      | Some (s, r) => Some (s, let? plan := r in Ok (report plan))
      end
  end.
End Collection.
