(* ===== verification/StorageReach.v ===== *)
(** * Marking finds what the roots reach

    On a durable store the marking loop of the collector terminates within its fuel,
    leaves the store alone when it succeeds, and then has marked exactly the objects
    that the roots reach, each of which it has read or found missing. *)

From stdpp Require Import gmap.
From S2P Require Import Prelude Order Collections Text Json Canonical Instances JsonFormat JsonRead Paths Errors CasObject CasInterface Worklist.
From S2P Require Import Catalog CatalogTypes CatalogCodec CasStore CasCatalog CatalogAuthority CasBatch CatalogDurable StorageGc.
Open Scope N_scope.

(* --------------------------------------------------------------------- *)
(** ** Collecting references *)

(** Digests of a universe that have no authority yet. *)
Definition unknown (U : list string) (authorities : BTreeMap string CasObject) : nat :=
  length (List.filter (fun d => negb (bmap_contains_key d authorities)) U).

Lemma filter_shorter {A} (p q : A -> bool) d U : (forall x, p x = true -> q x = true) -> d ∈ U -> p d = false -> q d = true ->
  (length (List.filter p U) < length (List.filter q U))%nat.
Proof.
  intros Hpq Hd Hp Hq. assert (forall l, length (List.filter p l) <= length (List.filter q l))%nat as Hle.
  { induction l as [|x l IH]; [done|]. cbn. specialize (Hpq x). destruct (p x), (q x); cbn; naive_solver lia. }
  apply list_elem_of_split in Hd as (l1 & l2 & ->). rewrite !List.filter_app, !length_app. cbn [List.filter]. rewrite Hp, Hq. cbn.
  pose proof (Hle l1). pose proof (Hle l2). lia.
Qed.
Lemma unknown_insert U authorities o : digest o ∈ U -> bmap_get (digest o) authorities = None ->
  (unknown U (bmap_insert (digest o) o authorities) < unknown U authorities)%nat.
Proof.
  intros HU Hn. unfold unknown, bmap_contains_key. apply (filter_shorter _ _ (digest o)); [|done|by rewrite bmap_get_insert_eq|by rewrite Hn].
  intros x. destruct (decide (x = digest o)) as [->|Hne]; [by rewrite bmap_get_insert_eq|by rewrite bmap_get_insert_ne].
Qed.

(** What collecting the references [refs] does to the authorities and the queue. *)
Record collected (refs : list CasObject) (st st' : BTreeMap string CasObject * list CasObject) : Prop := mkCollected {
  co_keeps : forall d o, bmap_get d st.1 = Some o -> bmap_get d st'.1 = Some o;
  co_refs : forall o, o ∈ refs -> bmap_get (digest o) st'.1 = Some o /\ validate_reference o = Ok tt;
  co_only : forall d o, bmap_get d st'.1 = Some o -> bmap_get d st.1 = Some o \/ (o ∈ refs /\ o ∈ st'.2 /\ digest o = d);
  co_queue : forall o, o ∈ st.2 -> o ∈ st'.2;
  co_new : forall o, o ∈ st'.2 -> o ∈ st.2 \/ (o ∈ refs /\ bmap_get (digest o) st'.1 = Some o);
  co_wf : bmap_wf st.1 -> bmap_wf st'.1;
  co_measure : forall U, (forall o, o ∈ refs -> digest o ∈ U) -> (length st'.2 + unknown U st'.1 <= length st.2 + unknown U st.1)%nat
}.

Lemma collected_refl st : collected [] st st.
Proof. split; auto. intros o Ho. by apply elem_of_nil in Ho. Qed.
Lemma collected_trans r1 r2 st1 st2 st3 : collected r1 st1 st2 -> collected r2 st2 st3 -> collected (r1 ++ r2) st1 st3.
Proof.
  intros [K1 R1 O1 Q1 N1 W1 M1] [K2 R2 O2 Q2 N2 W2 M2]. split.
  - auto.
  - intros o [Ho|Ho]%elem_of_app; [|by apply R2]. destruct (R1 o Ho). auto.
  - intros d o H. destruct (O2 d o H) as [H2|(H2 & H3 & H4)]; [|right; split_and!; [apply elem_of_app; auto|done|done]].
    destruct (O1 d o H2) as [?|(? & ? & ?)]; [by left|]. right. split_and!; [apply elem_of_app; auto|auto|done].
  - auto.
  - intros o H. destruct (N2 o H) as [H2|[H2 H3]]; [|right; split; [apply elem_of_app; auto|done]].
    destruct (N1 o H2) as [?|[? ?]]; [by left|]. right. split; [apply elem_of_app; auto|auto].
  - auto.
  - intros U HU. etransitivity; [apply M2|apply M1]; intros o Ho; apply HU, elem_of_app; auto.
Qed.

Lemma collected_fold {A} (f : BTreeMap string CasObject * list CasObject -> A -> Res (BTreeMap string CasObject * list CasObject))
    (refs : A -> list CasObject) (l : list A) : (forall a st st', a ∈ l -> f st a = Ok st' -> collected (refs a) st st') ->
  forall st st', try_fold f st l = Ok st' -> collected (flat_map refs l) st st'.
Proof.
  induction l as [|a l IH]; intros Hf st st' H; cbn in H |- *; [injection H as <-; apply collected_refl|].
  rewrite result_bind_ok in H. destruct H as (st1 & H1 & H). eapply collected_trans; [eapply Hf; [by left|done]|].
  apply IH; [|done]. intros b s1 s2 Hb. apply Hf. by right.
Qed.

Lemma admit_collected v o st st' : decode_cas_object v = Some o -> admit_reference v st = Ok st' -> collected [o] st st'.
Proof.
  intros Hd H. unfold admit_reference in H. rewrite Hd in H. cbn [ok_or result_bind] in H. rewrite seq_ok in H. destruct H as [Hv H].
  destruct (bmap_get (digest o) st.1) as [e|] eqn:E.
  - unfold corrupt in H. rewrite guard_ok, negb_false_iff, bool_decide_eq_true in H. destruct H as [-> [= <-]].
    split; auto. intros x ->%list_elem_of_singleton. done.
  - injection H as <-. split; cbn [fst snd].
    + intros d x Hx. rewrite bmap_get_insert_ne; [done|]. congruence.
    + intros x ->%list_elem_of_singleton. by rewrite bmap_get_insert_eq.
    + intros d x Hx. destruct (decide (d = digest o)) as [->|Hne].
      * rewrite bmap_get_insert_eq in Hx. injection Hx as <-. right. set_solver.
      * rewrite bmap_get_insert_ne in Hx by done. by left.
    + set_solver.
    + intros x [Hx| ->%list_elem_of_singleton]%elem_of_app; [by left|]. right. rewrite bmap_get_insert_eq. set_solver.
    + apply bmap_insert_wf.
    + intros U HU. rewrite length_app. cbn [length]. pose proof (unknown_insert U st.1 o) as Hlt. specialize (HU o). set_solver by lia.
Qed.

Lemma collect_collected v : forall st st', collect_cas_references v st = Ok st' -> collected (value_references v) st st'.
Proof.
  induction v as [| | | |l IH|m IH] using Value_ind'; intros st st' H; cbn [collect_cas_references value_references] in *;
    try (injection H as <-; apply collected_refl).
  - rewrite list.Forall_forall in IH. refine (collected_fold _ _ l _ _ _ H). intros a s1 s2 Ha. by apply IH.
  - destruct (is_reference m).
    + destruct (decode_cas_object (JObject m)) as [o|] eqn:E; [by eapply admit_collected|]. unfold admit_reference in H. by rewrite E in H.
    + rewrite list.Forall_forall in IH. refine (collected_fold _ (fun e => value_references e.2) m _ _ _ H). intros a s1 s2 Ha. by apply IH.
Qed.


(* --------------------------------------------------------------------- *)
(** ** Reading on a durable store *)

Section Reach.
Context {P : Primitives} {R : JsonReader} {L : PrimitivesLaws P} {W : WriterLaws P} {RL : ReaderLaws P R}.
Context (receipt_matches : CasStore -> string -> PackManifest -> bool).
Context (receipt_bytes : CasStore -> string -> PackManifest -> list byte).
Context (lookup_publish : BTreeMap string (list byte) -> CatalogSnapshot -> string -> BTreeMap string (list byte)).
Hypothesis lookup_publish_keeps : forall dir snapshot d name, has_extension "snapshot" name = true ->
  bmap_get name (lookup_publish dir snapshot d) = bmap_get name dir.
Notation sync := (sync_catalog_locked receipt_matches receipt_bytes lookup_publish).
Notation mark := (mark receipt_matches receipt_bytes lookup_publish).
Notation mark_object := (mark_object receipt_matches receipt_bytes lookup_publish).

(** The bytes the store holds for a reference: packed, or else loose. *)
Definition content (s : CasStore) (o : CasObject) : option (list byte) :=
  match read_from_catalog s o (size o) with
  | Ok (Some b) => Some b
  | Ok None =>
      match digest_component (digest o) with
      | Ok name => match read_path s o name (size o) with Ok b => Some b | Err _ => None end
      | Err _ => None
      end
  | Err _ => None
  end.

Lemma read_content s o s' b : durable s -> validate_reference o = Ok tt ->
  read sync s o (size o) = (s', Ok b) -> s' = s /\ content s o = Some b.
Proof.
  intros Hs Hv H. destruct (digest_component_of_reference o Hv) as [name Hn]. rewrite (read_admitted sync s o (size o) name) in H by (done || lia).
  unfold content. rewrite Hn. destruct (read_from_catalog s o (size o)) as [[x|]|] eqn:Ec; [by injection H as <- <-| |done].
  destruct (read_path s o name (size o)) as [x|e] eqn:Ep; [by injection H as <- <-|]. exfalso.
  pose proof (read_keeps receipt_matches receipt_bytes lookup_publish s o (size o) s' (Ok b) Hs) as Hk.
  rewrite (read_admitted sync s o (size o) name) in Hk by (done || lia). rewrite Ec, Ep in Hk. destruct (Hk H) as [_ Heq].
  unfold read_after_failure in H. destruct (sync (quarantine_locked s name)) as [s1 r]. destruct r as [u|]; [|done]. cbn [result_bind] in H.
  destruct (read_from_catalog s1 o (size o)) as [[x|]|] eqn:E1; try done. injection H as <- ->. rewrite Heq, Ec in E1. done.
Qed.

Lemma content_read s o b : validate_reference o = Ok tt -> content s o = Some b -> read sync s o (size o) = (s, Ok b).
Proof.
  intros Hv H. destruct (digest_component_of_reference o Hv) as [name Hn]. rewrite (read_admitted sync s o (size o) name) by (done || lia).
  unfold content in H. rewrite Hn in H. destruct (read_from_catalog s o (size o)) as [[x|]|]; [by injection H as ->| |done].
  destruct (read_path s o name (size o)); [by injection H as ->|done].
Qed.

(** What is read is in a file of the store. *)
Lemma content_stored s o b : lookup s = None -> bmap_wf (objects s) -> content s o = Some b -> b ∈ stored_contents s.
Proof.
  intros Hl Hw H. unfold content in H. unfold stored_contents. apply elem_of_app.
  destruct (read_from_catalog s o (size o)) as [[x|]|] eqn:Ec; [| |done].
  - injection H as ->. right. unfold read_from_catalog, catalog_location in Ec. rewrite Hl in Ec. cbn [result_bind] in Ec.
    destruct (locations (pack_catalog s) !! digest o) as [l|] eqn:E; [|done]. unfold corrupt in Ec. rewrite guard_ok, orb_false_iff, negb_false_iff, bool_decide_eq_true in Ec.
    destruct Ec as [[Ho _] Ec]. rewrite result_bind_ok in Ec. destruct Ec as (file & Hf & Ec). rewrite result_bind_ok in Ec.
    destruct Ec as (b' & Hb & Ec). rewrite guard_ok in Ec. destruct Ec as [_ [= ->]].
    apply list_elem_of_omap. exists (digest o, l). split; [by apply elem_of_map_to_list|]. cbn.
    destruct (bmap_get (pl_data_name l) (pack_files s)) as [f|]; [|done]. injection Hf as ->. cbn. rewrite Ho.
    by destruct (read_exact_at file _ _); [injection Hb as ->|].
  - left. destruct (digest_component (digest o)) as [name|]; [|done]. destruct (read_path s o name (size o)) as [x|] eqn:Ep; [|done]. injection H as ->.
    apply read_path_ok in Ep as (Hg & _ & _). apply bmap_get_elem in Hg; [|done]. apply list_elem_of_fmap. by exists (name, b).
Qed.

(* --------------------------------------------------------------------- *)
(** ** The marking loop *)

(** The objects that the roots reach through the contents of the store. *)
Inductive reaches (s : CasStore) (root : CasObject -> Prop) : CasObject -> Prop :=
| reaches_root o : root o -> reaches s root o
| reaches_reference o b r : reaches s root o -> content s o = Some b -> r ∈ content_references b -> reaches s root r.
Definition root_of (roots : BTreeMap string CasObject) (o : CasObject) : Prop := exists d, bmap_get d roots = Some o.

Lemma reaches_mono s s' (r r' : CasObject -> Prop) o : (forall x, content s x = content s' x) -> (forall x, r x -> r' x) -> reaches s r o -> reaches s' r' o.
Proof.
  intros Hc Hr. induction 1 as [o Ho|o b x _ IH Hb Hx]; [by apply reaches_root, Hr|]. eapply reaches_reference; [exact IH|by rewrite <- Hc|done].
Qed.

(** An object whose content and references are known. *)
Definition processed (s : CasStore) (authorities : BTreeMap string CasObject) (o : CasObject) : Prop :=
  validate_reference o = Ok tt /\ exists b, content s o = Some b /\ forall r, r ∈ content_references b -> bmap_get (digest r) authorities = Some r.

Record mark_inv (s : CasStore) (roots : BTreeMap string CasObject) (m : Mark) : Prop := mkMarkInv {
  mi_roots : forall d o, bmap_get d roots = Some o -> bmap_get d (authorities m) = Some o;
  mi_named : forall d o, bmap_get d (authorities m) = Some o -> digest o = d /\ reaches s (root_of roots) o;
  mi_queue : forall o, o ∈ pending m -> bmap_get (digest o) (authorities m) = Some o;
  mi_marked : forall d, d ∈ reachable m -> exists o, bmap_get d (authorities m) = Some o /\ (d ∈ dangling m \/ processed s (authorities m) o);
  mi_done : forall d o, bmap_get d (authorities m) = Some o -> o ∈ pending m \/ d ∈ reachable m
}.

Definition pop (m : Mark) (rest : list CasObject) : Mark :=
  {| reachable := reachable m; dangling := dangling m; authorities := authorities m; pending := rest |}.

Lemma processed_mono s a a' o : (forall d x, bmap_get d a = Some x -> bmap_get d a' = Some x) -> processed s a o -> processed s a' o.
Proof. intros Ha (Hv & b & Hb & Hr). split; [done|]. exists b. split; [done|]. auto. Qed.

(** An object that is skipped or missing. *)
Lemma mark_settled s roots m o rest rs ds : mark_inv s roots m -> pending m = o :: rest ->
  (digest o ∈ reachable m \/ digest o ∈ ds) -> (forall d, d ∈ rs <-> d = digest o \/ d ∈ reachable m) -> (forall d, d ∈ dangling m -> d ∈ ds) ->
  mark_inv s roots {| reachable := rs; dangling := ds; authorities := authorities m; pending := rest |}.
Proof.
  intros [H1 H2 H3 H4 H5] Hp Ho Hrs Hds. rewrite Hp in *. split; cbn.
  - done.
  - done.
  - intros x Hx. apply H3. by right.
  - intros d [->|Hd]%Hrs.
    + destruct Ho as [Ho|Ho].
      * destruct (H4 _ Ho) as (x & Hx & [?|?]); exists x; split; auto.
      * exists o. split; [apply H3; by left|by left].
    + destruct (H4 _ Hd) as (x & Hx & [?|?]); exists x; split; auto.
  - intros d x Hx. destruct (H5 d x Hx) as [[->|Hr]%elem_of_cons|Hd]; [right|by left|right]; apply Hrs; [left|by right].
    by destruct (H2 _ _ Hx) as [-> _].
Qed.

(** An object that was read. *)
Lemma mark_read s roots m o rest b a q : mark_inv s roots m -> pending m = o :: rest -> validate_reference o = Ok tt ->
  content s o = Some b -> collected (content_references b) (authorities m, rest) (a, q) ->
  mark_inv s roots {| reachable := bset_insert (digest o) (reachable m); dangling := dangling m; authorities := a; pending := q |}.
Proof.
  intros [H1 H2 H3 H4 H5] Hp Hv Hb [K Rf On Q Nw _ _]. cbn [fst snd] in *. rewrite Hp in *.
  assert (reaches s (root_of roots) o) as Hreach by (apply (H2 (digest o)), H3; by left). split; cbn.
  - auto.
  - intros d x Hx. destruct (On d x Hx) as [?|(Hr & _ & Hd)]; [auto|]. split; [done|]. by eapply reaches_reference.
  - intros x Hx. destruct (Nw x Hx) as [?|[_ ?]]; [|done]. apply K, H3. by right.
  - intros d [->|Hd]%bset_insert_elem.
    + exists o. split; [apply K, H3; by left|]. right. split; [done|]. exists b. split; [done|]. intros r Hr. by apply Rf.
    + destruct (H4 _ Hd) as (x & Hx & [?|?]); exists x; (split; [auto|]); [by left|right]. by eapply processed_mono.
  - intros d x Hx. destruct (On d x Hx) as [Hx'|(_ & ? & _)]; [|by left].
    destruct (H5 d x Hx') as [[->|Hr]%elem_of_cons|Hd]; [right|left; auto|right]; apply bset_insert_elem; [left|by right].
    by destruct (H2 _ _ Hx') as [-> _].
Qed.

(** The universe of digests that marking can meet. *)
Definition universe (s : CasStore) : list string := digest <$> flat_map content_references (stored_contents s).


(** One round: it fails, or keeps the store and the invariant and uses up fuel. *)
Lemma mark_object_ok s roots m o rest s' m' : durable s -> bmap_wf (objects s) -> mark_inv s roots m -> pending m = o :: rest ->
  mark_object s (pop m rest) o = (s', Ok m') ->
  s' = s /\ mark_inv s roots m' /\
  (length (pending m') + unknown (universe s) (authorities m') <= length rest + unknown (universe s) (authorities m))%nat.
Proof.
  intros Hd Hw Hi Hp H. unfold mark_object, resource_limit, corrupt in H. rewrite store_bind_ok in H. destruct H as (s1 & [] & [= <- Hv] & H).
  cbn [pop reachable dangling authorities pending] in H. destruct (bset_contains (digest o) (reachable m)) eqn:Ec.
  { injection H as <- <-. apply bset_contains_spec in Ec. split_and!; [done| |done].
    apply (mark_settled s roots m o rest (reachable m) (dangling m)); auto. intros d. naive_solver. }
  rewrite store_guard_ok in H. destruct H as [_ H]. rewrite store_guard_ok in H. destruct H as [_ H].
  rewrite store_bind_ok in H. destruct H as (s1 & located & [= <- Hloc] & H). destruct located; cbn [negb] in H.
  - rewrite store_bind_ok in H. destruct H as (s1 & b & Hr & H). apply read_content in Hr as [-> Hb]; [|done|done].
    assert (b ∈ stored_contents s) as Hst by (eapply content_stored; [apply durable_materialized|..]; done).
    destruct (read_document b) as [v|] eqn:Ev.
    + rewrite store_bind_ok in H. destruct H as (s1 & [a q] & [= <- Hc] & [= <- <-]). apply collect_collected in Hc.
      assert (content_references b = value_references v) as Hrefs by (unfold content_references; by rewrite Ev).
      split_and!; [done|by eapply mark_read; [..|rewrite Hrefs]|]. cbn. apply (co_measure _ _ _ Hc). intros x Hx. unfold universe.
      apply list_elem_of_fmap. exists x. split; [done|]. apply list_elem_of_In, List.in_flat_map. exists b. rewrite Hrefs. by split; apply list_elem_of_In.
    + injection H as <- <-. split_and!; [done| |done].
      apply (mark_read s roots m o rest b (authorities m) rest); try done. unfold content_references. rewrite Ev. apply collected_refl.
  - injection H as <- <-. split_and!; [done| |done]. apply (mark_settled s roots m o rest); try done.
    + right. apply bset_insert_elem. by left.
    + intros d. apply bset_insert_elem.
    + intros d Hd'. apply bset_insert_elem. by right.
Qed.

Lemma mark_ok fuel s roots : durable s -> bmap_wf (objects s) -> forall m, mark_inv s roots m ->
  (length (pending m) + unknown (universe s) (authorities m) <= fuel)%nat ->
  exists s' r, mark fuel s m = Some (s', r) /\ (forall m', r = Ok m' -> s' = s /\ mark_inv s roots m' /\ pending m' = []).
Proof.
  intros Hd Hw. induction fuel as [|fuel IH]; intros m Hi Hle; cbn [StorageGc.mark].
  - destruct (pending m) eqn:E; [|cbn in Hle; lia]. exists s, (Ok m). split; [done|]. by intros m' [= <-].
  - destruct (pending m) as [|o rest] eqn:E; [exists s, (Ok m); split; [done|]; by intros m' [= <-]|].
    fold (pop m rest). destruct (mark_object s (pop m rest) o) as [s1 [m1|e]] eqn:Em.
    + destruct (mark_object_ok s roots m o rest s1 m1 Hd Hw Hi E Em) as (-> & Hi1 & Hle1). apply IH; [done|]. cbn in Hle. lia.
    + exists s1, (Err e). split; [done|]. by intros m' [=].
Qed.

(* --------------------------------------------------------------------- *)
(** ** The roots *)

(** The references of the scanned files. *)
Definition file_references (name : string) (bytes : list byte) : list CasObject :=
  if bool_decide (extension name = Some "jsonl")
  then flat_map content_references (List.filter (fun line => negb (forallb is_ascii_whitespace line)) (split_lines bytes))
  else if bool_decide (extension name = Some "json") then content_references bytes else [].
Fixpoint entry_references (released : ReleasedSessionCasRoots) (root : string) (relative : list string) (name : string) (e : Entry) : list CasObject :=
  match e with
  | EFile bytes => file_references name bytes
  | EDir _ entries =>
      if is_some (released_identity released root relative name) || is_opaque_reachability_subtree root (relative ++ [name]) then []
      else flat_map (fun e => entry_references released root (relative ++ [name]) e.1 e.2) entries
  end.
Definition managed_references (managed : BTreeMap string (list (string * Entry))) (released : ReleasedSessionCasRoots) : list CasObject :=
  flat_map (fun root => flat_map (fun e => entry_references released root [] e.1 e.2) (default [] (bmap_get root managed))) ROOTS.

Record gathered (refs : list CasObject) (a a' : BTreeMap string CasObject) : Prop := mkGathered {
  ga_keeps : forall d o, bmap_get d a = Some o -> bmap_get d a' = Some o;
  ga_refs : forall o, o ∈ refs -> bmap_get (digest o) a' = Some o;
  ga_only : forall d o, bmap_get d a' = Some o -> bmap_get d a = Some o \/ (o ∈ refs /\ digest o = d);
  ga_wf : bmap_wf a -> bmap_wf a'
}.
Lemma gathered_refl a : gathered [] a a.
Proof. split; auto. intros o Ho. by apply elem_of_nil in Ho. Qed.
Lemma gathered_trans r1 r2 a1 a2 a3 : gathered r1 a1 a2 -> gathered r2 a2 a3 -> gathered (r1 ++ r2) a1 a3.
Proof.
  intros [K1 R1 O1 W1] [K2 R2 O2 W2]. split; auto.
  - intros o [Ho|Ho]%elem_of_app; auto.
  - intros d o H. destruct (O2 d o H) as [H2|[? ?]]; [|right; split; [apply elem_of_app; auto|done]].
    destruct (O1 d o H2) as [?|[? ?]]; [by left|]. right. split; [apply elem_of_app; auto|done].
Qed.
Lemma gathered_fold {A B} (f : B -> A -> Res B) (g : B -> BTreeMap string CasObject) (refs : A -> list CasObject) (l : list A) :
  (forall a b b', a ∈ l -> f b a = Ok b' -> gathered (refs a) (g b) (g b')) ->
  forall b b', try_fold f b l = Ok b' -> gathered (flat_map refs l) (g b) (g b').
Proof.
  induction l as [|a l IH]; intros Hf b b' H; cbn in H |- *; [injection H as <-; apply gathered_refl|].
  rewrite result_bind_ok in H. destruct H as (b1 & H1 & H). eapply gathered_trans; [eapply Hf; [by left|done]|].
  apply IH; [|done]. intros c s1 s2 Hc. apply Hf. by right.
Qed.

Lemma document_gathered message bytes a a' : collect_document message bytes a = Ok a' -> gathered (content_references bytes) a a'.
Proof.
  unfold collect_document. rewrite result_bind_ok. intros (v & Hv & H). rewrite result_bind_ok in H. destruct H as (st & Hc & [= <-]).
  destruct (read_document bytes) as [v'|] eqn:E; [|done]. injection Hv as ->. unfold content_references. rewrite E.
  apply collect_collected in Hc as [K Rf On _ _ Wf _]. split; [done|by intros o Ho; apply Rf| |done].
  intros d o Ho. destruct (On d o Ho) as [?|(? & _ & ?)]; auto.
Qed.

Lemma lines_filter (p : list byte -> bool) lines :
  flat_map (fun line => if p line then [] else content_references line) lines =
  flat_map content_references (List.filter (fun line => negb (p line)) lines).
Proof. induction lines as [|l lines IH]; [done|]. cbn. destruct (p l); cbn; by rewrite IH. Qed.

Lemma file_gathered name bytes scan scan' : scan_file name bytes scan = Ok scan' ->
  gathered (file_references name bytes) (references scan) (references scan').
Proof.
  unfold scan_file, file_references, corrupt, resource_limit. destruct (bool_decide (extension name = Some "jsonl")) eqn:El.
  - rewrite andb_false_r. rewrite !guard_ok. intros (_ & _ & _ & H). rewrite result_bind_ok in H. destruct H as (found & Hf & [= <-]). cbn [references].
    rewrite <- lines_filter. refine (gathered_fold _ id (fun line => if forallb is_ascii_whitespace line then [] else content_references line) _ _ _ _ Hf).
    intros line b b' _ H. destruct (forallb _ line); [injection H as <-; apply gathered_refl|]. by eapply document_gathered.
  - rewrite andb_true_r. destruct (bool_decide (extension name = Some "json")); cbn [negb]; [|intros [= <-]; apply gathered_refl].
    rewrite !guard_ok. intros (_ & _ & _ & H). rewrite result_bind_ok in H. destruct H as (found & Hf & [= <-]). by eapply document_gathered.
Qed.

Lemma entry_gathered released root e : forall relative depth scan name scan', scan_entry released root relative depth scan name e = Ok scan' ->
  gathered (entry_references released root relative name e) (references scan) (references scan').
Proof.
  induction e as [bytes|identity entries IH] using Entry_ind'; intros relative depth scan name scan' H; cbn [scan_entry entry_references] in *.
  - by eapply file_gathered.
  - destruct (released_identity released root relative name) as [expected|]; cbn [is_some orb].
    + unfold corrupt in H. rewrite guard_ok in H. destruct H as [_ [= <-]]. apply gathered_refl.
    + destruct (is_opaque_reachability_subtree _ _); [injection H as <-; apply gathered_refl|].
      unfold resource_limit in H. rewrite guard_ok in H. destruct H as [_ H]. rewrite list.Forall_forall in IH.
      refine (gathered_fold _ references (fun e => entry_references released root (relative ++ [name]) e.1 e.2) entries _ _ _ H).
      intros a b b' Ha. by apply IH.
Qed.

Lemma scan_roots_ok managed released scan : scan_roots managed released = Ok scan -> gathered (managed_references managed released) [] (references scan).
Proof.
  intros H. unfold managed_references, scan_roots in *.
  refine (gathered_fold _ references (fun root => flat_map (fun e => entry_references released root [] e.1 e.2) (default [] (bmap_get root managed))) ROOTS _ _ _ H).
  intros root b b' _ Hs. unfold scan_managed_roots in Hs.
  refine (gathered_fold _ references (fun e => entry_references released root [] e.1 e.2) _ _ _ _ Hs). intros e c c' _ He. by eapply entry_gathered.
Qed.

Lemma initial_mark_inv s managed released scan : scan_roots managed released = Ok scan -> mark_inv s (references scan) (initial_mark (references scan)).
Proof.
  intros [_ _ Hon Hw]%scan_roots_ok. specialize (Hw ltac:(constructor)).
  assert (forall d o, bmap_get d (references scan) = Some o -> digest o = d) as Hd.
  { intros d o Ho. destruct (Hon d o Ho) as [Hx|[_ ?]]; [by cbn in Hx|done]. }
  split; cbn.
  - done.
  - intros d o Ho. split; [auto|by apply reaches_root; exists d].
  - intros o Ho. apply list_elem_of_fmap in Ho as ([d o'] & -> & Hin). cbn. apply bmap_get_elem in Hin; [|done]. by rewrite (Hd _ _ Hin).
  - intros d Hx. by apply elem_of_nil in Hx.
  - intros d o Ho. left. apply list_elem_of_fmap. exists (d, o). split; [done|]. by apply bmap_get_elem.
Qed.

(** What a finished marking has found. *)
Record marked (s : CasStore) (roots : BTreeMap string CasObject) (m : Mark) : Prop := mkMarked {
  md_complete : dangling m = [] -> forall o, reaches s (root_of roots) o -> bmap_get (digest o) (authorities m) = Some o /\ digest o ∈ reachable m;
  md_sound : forall d, d ∈ reachable m -> exists o, digest o = d /\ reaches s (root_of roots) o;
  md_read : dangling m = [] -> forall o, reaches s (root_of roots) o -> validate_reference o = Ok tt /\ is_Some (content s o)
}.

Lemma mark_finished s roots m : (forall d o, bmap_get d roots = Some o -> digest o = d) -> mark_inv s roots m -> pending m = [] -> marked s roots m.
Proof.
  intros Hroots [H1 H2 H3 H4 H5] Hp. rewrite Hp in *.
  assert (dangling m = [] -> forall o, reaches s (root_of roots) o -> bmap_get (digest o) (authorities m) = Some o) as Hauth.
  { intros Hd o Ho. induction Ho as [o [d Ho]|o b r Ho IH Hb Hr].
    - rewrite (Hroots _ _ Ho). auto.
    - destruct (H5 _ _ IH) as [Hx|Hx]; [by apply elem_of_nil in Hx|]. destruct (H4 _ Hx) as (o' & Ho' & [Hbad|(_ & b' & Hb' & Hrefs)]).
      { rewrite Hd in Hbad. by apply elem_of_nil in Hbad. }
      assert (o' = o) as -> by congruence. assert (b' = b) as -> by congruence. auto. }
  split.
  - intros Hd o Ho. specialize (Hauth Hd o Ho). split; [done|].
    by destruct (H5 _ _ Hauth) as [Hx|Hx]; [apply elem_of_nil in Hx|].
  - intros d Hd. destruct (H4 _ Hd) as (o & Ho & _). exists o. by destruct (H2 _ _ Ho).
  - intros Hd o Ho. specialize (Hauth Hd o Ho). destruct (H5 _ _ Hauth) as [Hx|Hx]; [by apply elem_of_nil in Hx|].
    destruct (H4 _ Hx) as (o' & Ho' & [Hbad|(Hv & b & Hb & _)]); [rewrite Hd in Hbad; by apply elem_of_nil in Hbad|].
    assert (o' = o) as -> by congruence. split; [done|by exists b].
Qed.

(** Every authority of the roots comes from a scanned file. *)
Lemma roots_named managed released scan : scan_roots managed released = Ok scan ->
  forall d o, bmap_get d (references scan) = Some o <-> o ∈ managed_references managed released /\ digest o = d.
Proof.
  intros [_ Hrf Hon _]%scan_roots_ok d o. split.
  - intros Ho. destruct (Hon d o Ho) as [Hx|?]; [by cbn in Hx|done].
  - intros [Ho <-]. auto.
Qed.

Lemma live_roots managed released scan s : scan_roots managed released = Ok scan ->
  forall o, reaches s (root_of (references scan)) o <-> reaches s (fun o => o ∈ managed_references managed released) o.
Proof.
  intros Hs o. pose proof (roots_named _ _ _ Hs) as Hn. split; apply reaches_mono; try done.
  - intros x [d Hx]. by apply Hn in Hx as [? _].
  - intros x Hx. exists (digest x). by apply Hn.
Qed.

Lemma mark_from_roots s managed released scan : durable s -> bmap_wf (objects s) -> scan_roots managed released = Ok scan ->
  exists s' r, mark (mark_fuel s (references scan)) s (initial_mark (references scan)) = Some (s', r) /\
    forall m, r = Ok m -> s' = s /\ marked s (references scan) m.
Proof.
  intros Hd Hw Hs. destruct (mark_ok (mark_fuel s (references scan)) s (references scan) Hd Hw (initial_mark (references scan))) as (s' & r & Hm & Hr).
  - by eapply initial_mark_inv.
  - unfold initial_mark, mark_fuel, unknown. cbn. rewrite length_fmap. apply Nat.add_le_mono_l.
    etransitivity; [apply List.filter_length_le|]. unfold universe. by rewrite length_fmap.
  - exists s', r. split; [done|]. intros m Hok. destruct (Hr m Hok) as (-> & Hi & Hp). split; [done|]. apply mark_finished; [|done|done].
    intros d o Ho. by apply (roots_named _ _ _ Hs) in Ho as [_ ?].
Qed.

(** C7: marking terminates and marks exactly what the managed state reaches.  On a
    durable store the loop always finishes: every round consumes an object whose
    digest was not known before, so one round per root and per reference in a stored
    object is enough.  When it succeeds it has not changed the store, everything it
    marked is reachable from a reference in a scanned file, and if nothing is
    missing, everything reachable is marked and can be read. *)
Theorem marking_finds_reachable s managed released scan : durable s -> bmap_wf (objects s) -> scan_roots managed released = Ok scan ->
  let roots := references scan in let root o := o ∈ managed_references managed released in
  (forall d o, bmap_get d roots = Some o <-> o ∈ managed_references managed released /\ digest o = d) /\
  exists s' r, mark (mark_fuel s roots) s (initial_mark roots) = Some (s', r) /\
    forall m, r = Ok m -> s' = s /\
      (forall d, d ∈ reachable m -> exists o, digest o = d /\ reaches s root o) /\
      (dangling m = [] -> forall o, reaches s root o -> digest o ∈ reachable m /\ exists b, read sync s o (size o) = (s, Ok b)).
Proof.
  intros Hd Hw Hs roots root. split; [by apply roots_named|]. destruct (mark_from_roots s managed released scan Hd Hw Hs) as (s' & r & Hm & Hr).
  exists s', r. split; [done|]. intros m Hok. destruct (Hr m Hok) as [-> [Hc Hsound Hread]]. pose proof (live_roots _ _ _ s Hs) as Hlive.
  split_and!; [done|intros d Hd'; destruct (Hsound d Hd') as (o & ? & ?); exists o; split; [done|by apply Hlive]|].
  intros Hdang o Ho. apply Hlive in Ho. split; [by apply Hc|]. destruct (Hread Hdang o Ho) as (Hv & b & Hb). exists b. by apply content_read.
Qed.
End Reach.
