(* ===== verification/StorageSafety.v ===== *)
(** * Collection keeps what is reachable

    The plan lists packs without a reachable object, loose objects that are not
    reachable or are packed as well, and crash leftovers.  Carrying it out keeps the
    catalog durable and every reachable object readable with its bytes. *)

From stdpp Require Import gmap.
From S2P Require Import Prelude Order Collections Text Json Canonical Instances JsonFormat JsonRead Paths Errors CasObject CasInterface.
From S2P Require Import Catalog CatalogTypes CatalogCodec CasStore CasCatalog CatalogAuthority CasBatch CatalogDurable StorageGc StorageReach.
Open Scope N_scope.

(* --------------------------------------------------------------------- *)
(** ** The plan *)

Definition entry_digests (m : PackManifest) : list string := (fun e => digest (pe_object e)) <$> pm_objects m.
Definition has_live (reachable : BTreeSet string) (m : PackManifest) : Prop := exists d, d ∈ entry_digests m /\ d ∈ reachable.

Lemma no_live_spec (reachable : BTreeSet string) (m : PackManifest) :
  vlen (List.filter (fun entry => bset_contains (digest (pe_object entry)) reachable) (pm_objects m)) =? 0 = true <-> ~ has_live reachable m.
Proof.
  unfold has_live, entry_digests. rewrite N.eqb_eq. split.
  - intros Hn (d & Hd & Hr). apply list_elem_of_fmap in Hd as (e & -> & He).
    assert (In e (List.filter (fun entry => bset_contains (digest (pe_object entry)) reachable) (pm_objects m))) as Hin.
    { apply List.filter_In. split; [by apply list_elem_of_In|by apply bset_contains_spec]. }
    destruct (List.filter _ _); [done|]. unfold vlen in Hn. cbn in Hn. lia.
  - intros Hno. destruct (List.filter _ _) as [|e l] eqn:E; [done|]. exfalso. apply Hno.
    assert (In e (List.filter (fun entry => bset_contains (digest (pe_object entry)) reachable) (pm_objects m))) as Hin by (rewrite E; by left).
    apply List.filter_In in Hin as [He Hr]. exists (digest (pe_object e)). split; [apply list_elem_of_fmap; exists e; split; [done|by apply list_elem_of_In]|].
    by apply bset_contains_spec.
Qed.

(** The dead packs and the expected files after a part of the loop. *)
Lemma scan_packs_spec s reachable l : forall acc, let acc' := foldl (scan_pack s reachable) acc l in
  (forall p, p ∈ ps_dead acc' <-> p ∈ ps_dead acc \/ ((cp_data_name p, cp_manifest p) ∈ l /\ ~ has_live reachable (cp_manifest p))) /\
  (forall n, n ∈ ps_expected acc \/ n ∈ l.*1 -> n ∈ ps_expected acc').
Proof.
  induction l as [|[n m] l IH]; intros acc; cbn [foldl].
  { split; [intros p; rewrite elem_of_nil; tauto|intros n [?|Hn]; [done|by apply elem_of_nil in Hn]]. }
  destruct (IH (scan_pack s reachable acc (n, m))) as [H1 H2]. split.
  - intros p. rewrite H1, elem_of_cons. cbn [scan_pack ps_dead].
    pose proof (no_live_spec reachable m) as Hl. destruct (_ =? 0).
    + rewrite elem_of_app, list_elem_of_singleton. destruct p as [dn mn]. cbn. split.
      * intros [[?|[= -> ->]]|[? ?]]; [by left|right; split; [by left|by apply Hl]|right; split; [by right|done]].
      * intros [?|[[[= -> ->]|?] ?]]; [left; by left|left; by right|by right].
    + assert (has_live reachable m) as Hm.
      { destruct (decide (Exists (fun d => d ∈ reachable) (entry_digests m))) as [He|He].
        - apply list.Exists_exists in He as (d & ? & ?). by exists d.
        - exfalso. assert (false = true) as [=]. apply Hl. intros (d & Hd & Hr). apply He, list.Exists_exists. eauto. }
      destruct p as [dn mn]. cbn. split.
      * intros [?|[? ?]]; [by left|right; split; [by right|done]].
      * intros [?|[[[= -> ->]|?] ?]]; [by left|done|by right].
  - intros k Hk. apply H2. rewrite fmap_cons, elem_of_cons in Hk. cbn [fst] in Hk. destruct Hk as [Hk|[->|Hk]]; [left|left|by right];
      cbn [scan_pack ps_expected]; rewrite !bset_insert_elem; auto.
Qed.

Lemma dead_packs_spec s reachable p : p ∈ ps_dead (scan_packs s reachable) <->
  (cp_data_name p, cp_manifest p) ∈ packs (pack_catalog s) /\ ~ has_live reachable (cp_manifest p).
Proof.
  unfold scan_packs. destruct (scan_packs_spec s reachable (packs (pack_catalog s)) {| ps_dead := []; ps_objects := 0; ps_bytes := 0;
    ps_reclaimable := 0; ps_mixed := 0; ps_expected := [] |}) as [H _]. rewrite H. cbn. rewrite elem_of_nil. tauto.
Qed.
Lemma expected_spec s reachable n : n ∈ (packs (pack_catalog s)).*1 -> n ∈ ps_expected (scan_packs s reachable).
Proof.
  intros Hn. unfold scan_packs. apply (scan_packs_spec s reachable (packs (pack_catalog s)) {| ps_dead := []; ps_objects := 0; ps_bytes := 0;
    ps_reclaimable := 0; ps_mixed := 0; ps_expected := [] |}). by right.
Qed.

Lemma substring_all s : String.substring 0 (String.length s) s = s.
Proof. induction s as [|a s IH]; [done|]. cbn. by rewrite IH. Qed.
Lemma loose_split key : loose_prefix key +:+ loose_name key = key.
Proof.
  destruct key as [|a [|b rest]]; [done|done|]. unfold loose_prefix, loose_name. cbn [String.length Nat.sub String.substring].
  rewrite Nat.sub_0_r. assert (String.substring 0 0 rest = EmptyString) as -> by (by destruct rest). cbn. by rewrite substring_all.
Qed.
(** A canonical name is the component of its digest. *)
Lemma loose_component key : is_lower_hex (loose_prefix key) 2 = true -> is_lower_hex (loose_name key) 62 = true ->
  digest_component ("sha256:" +:+ loose_prefix key +:+ loose_name key) = Ok key.
Proof.
  unfold is_lower_hex. rewrite !andb_true_iff, !N.eqb_eq. intros [Hl1 Hh1] [Hl2 Hh2]. apply digest_component_ok. unfold digest_by_prefix.
  rewrite (proj2 (strip_prefix_spec _ _ _) eq_refl), loose_split.
  assert (str_len key = 64) as -> by (rewrite <- (loose_split key); unfold str_len in *; rewrite str_length_app; lia).
  by rewrite <- (loose_split key), str_all_app, Hh1, Hh2.
Qed.
Lemma component_canonical d key : digest_component d = Ok key -> is_lower_hex (loose_name key) 62 = true.
Proof.
  intros (Hh & _ & Hl)%digest_component_lower. unfold is_lower_hex. rewrite <- (loose_split key), str_all_app, andb_true_iff in Hh.
  destruct Hh as [_ Hh]. rewrite Hh, andb_true_r. apply N.eqb_eq. destruct key as [|a [|b rest]]; [by cbn in Hl..|].
  unfold loose_name, str_len in *. cbn [String.length Nat.sub String.substring] in *. rewrite Nat.sub_0_r, substring_all in *. lia.
Qed.

(** A loose object that is not needed. *)
Definition loose_dead (reachable : BTreeSet string) (packed : gmap string PackLocation) (d : string) : Prop :=
  d ∉ reachable \/ is_Some (packed !! d).

Record loose_found (reachable : BTreeSet string) (packed : gmap string PackLocation) (files : list (string * list byte)) (acc : LooseScan) : Prop :=
  mkLooseFound {
  lf_dead : forall d, d ∈ ls_dead acc <-> exists key content, (key, content) ∈ files /\ digest_component d = Ok key /\ loose_dead reachable packed d;
  lf_orphans : forall key, key ∈ ls_orphans acc -> is_lower_hex (loose_name key) 62 = false;
  lf_names : forall key content, (key, content) ∈ files -> key ∈ ls_orphans acc \/ exists d, digest_component d = Ok key
}.

Lemma digest_component_inj d d' key : digest_component d = Ok key -> digest_component d' = Ok key -> d = d'.
Proof.
  rewrite !digest_component_ok. unfold digest_by_prefix. destruct (strip_prefix "sha256:" d) as [x|] eqn:E; [|done].
  destruct (strip_prefix "sha256:" d') as [x'|] eqn:E'; [|done]. apply strip_prefix_spec in E as ->. apply strip_prefix_spec in E' as ->.
  destruct (_ && _); [|done]. destruct (_ && _); [|done]. by intros [= ->] [= ->].
Qed.

Lemma loose_step reachable packed pre e acc acc' : loose_found reachable packed pre acc ->
  scan_loose_file reachable packed acc e = Ok acc' -> loose_found reachable packed (pre ++ [e]) acc'.
Proof.
  intros [Hd Ho Hn] H. destruct e as [key content]. unfold scan_loose_file, corrupt in H. rewrite guard_ok, negb_false_iff in H. destruct H as [Hp H].
  destruct (is_lower_hex (loose_name key) 62) eqn:Hx; cbn [negb] in H.
  - pose proof (loose_component key Hp Hx) as Hc. set (d0 := "sha256:" +:+ loose_prefix key +:+ loose_name key) in *.
    assert (negb (bset_contains d0 reachable) || bool_decide (is_Some (packed !! d0)) = true <-> loose_dead reachable packed d0) as Hdead.
    { unfold loose_dead. rewrite orb_true_iff, negb_true_iff, bool_decide_eq_true, bset_contains_false. done. }
    injection H as <-. split; cbn [ls_dead ls_orphans].
    + intros d. assert (d ∈ ls_dead acc \/ (d = d0 /\ loose_dead reachable packed d0) <->
        exists k c, (k, c) ∈ pre ++ [(key, content)] /\ digest_component d = Ok k /\ loose_dead reachable packed d) as <-.
      { rewrite Hd. split.
        - intros [(k & c & Hin & ? & ?)|[-> ?]]; [exists k, c; split_and!; [apply elem_of_app; by left|done|done]|].
          exists key, content. split_and!; [apply elem_of_app; right; by left|done|done].
        - intros (k & c & [Hin|[= -> ->]%list_elem_of_singleton]%elem_of_app & Hk & Hl); [left; eauto 6|]. right.
          assert (d = d0) as -> by (by eapply digest_component_inj). done. }
      destruct (negb _ || _); [rewrite elem_of_app, list_elem_of_singleton|]; naive_solver.
    + done.
    + intros k c [Hin|[= -> ->]%list_elem_of_singleton]%elem_of_app; [by eapply Hn|]. right. by exists d0.
  - rewrite guard_ok in H. destruct H as [_ [= <-]]. split; cbn [ls_dead ls_orphans].
    + intros d. rewrite Hd. split; intros (k & c & Hin & Hk & Hl).
      * exists k, c. split_and!; [apply elem_of_app; by left|done|done].
      * apply elem_of_app in Hin as [Hin|[= -> ->]%list_elem_of_singleton]; [eauto 6|]. apply component_canonical in Hk. congruence.
    + intros k [Hin| ->%list_elem_of_singleton]%elem_of_app; auto.
    + intros k c [Hin|[= -> ->]%list_elem_of_singleton]%elem_of_app.
      * destruct (Hn k c Hin); [left; apply elem_of_app; by left|by right].
      * left. apply elem_of_app. right. by left.
Qed.

Lemma loose_scanned reachable packed files acc acc' : ls_dead acc = [] -> ls_orphans acc = [] ->
  try_fold (scan_loose_file reachable packed) acc files = Ok acc' -> loose_found reachable packed files acc'.
Proof.
  intros Hd Ho H. apply (try_fold_inv (scan_loose_file reachable packed) (loose_found reachable packed) files acc acc' []); [|by intros; eapply loose_step|done].
  split; rewrite ?Hd, ?Ho; [|intros k Hk; by apply elem_of_nil in Hk|].
  - intros d. rewrite elem_of_nil. split; [done|]. intros (k & c & Hin & _). by apply elem_of_nil in Hin.
  - intros k c Hin. by apply elem_of_nil in Hin.
Qed.

(* --------------------------------------------------------------------- *)
(** ** Contents that survive *)

Record keeps_content (keep : string -> Prop) (s s' : CasStore) : Prop := mkKeepsContent {
  kc_lookup : lookup s' = lookup s;
  kc_locations : forall d, keep d -> locations (pack_catalog s') !! d = locations (pack_catalog s) !! d;
  kc_files : forall d l, keep d -> locations (pack_catalog s) !! d = Some l ->
    bmap_get (pl_data_name l) (pack_files s') = bmap_get (pl_data_name l) (pack_files s);
  kc_loose : forall d name, keep d -> locations (pack_catalog s) !! d = None -> digest_component d = Ok name ->
    bmap_get name (objects s') = bmap_get name (objects s)
}.
Lemma keeps_content_refl keep s : keeps_content keep s s.
Proof. done. Qed.
Lemma keeps_content_trans keep s1 s2 s3 : keeps_content keep s1 s2 -> keeps_content keep s2 s3 -> keeps_content keep s1 s3.
Proof.
  intros [A1 B1 C1 D1] [A2 B2 C2 D2]. split.
  - congruence.
  - intros d Hd. by rewrite B2, B1.
  - intros d l Hd Hl. rewrite C2 with (d := d); [by eapply C1|done|by rewrite B1].
  - intros d n Hd Hl Hn. rewrite D2 with (d := d); [by eapply D1|done|by rewrite B1|done].
Qed.

Section Contents.
Context {P : Primitives} {R : JsonReader}.

Lemma keeps_content_content keep s s' o : lookup s = None -> keeps_content keep s s' -> keep (digest o) -> content s' o = content s o.
Proof.
  intros Hl [A B C D] Ho. destruct (locations (pack_catalog s) !! digest o) as [l|] eqn:E.
  - assert (read_from_catalog s' o (size o) = read_from_catalog s o (size o)) as Heq.
    { unfold read_from_catalog, catalog_location. rewrite A, Hl, (B _ Ho), E. cbn [result_bind]. by rewrite (C _ _ Ho E). }
    unfold content. rewrite Heq. destruct (read_from_catalog s o (size o)) as [[b|]|] eqn:Er; [done| |done]. exfalso. revert Er.
    unfold read_from_catalog, catalog_location. rewrite Hl, E. cbn [result_bind]. unfold corrupt. rewrite guard_ok, result_bind_ok.
    intros (_ & file & _ & Hr). rewrite result_bind_ok in Hr. destruct Hr as (b & _ & Hr). rewrite guard_ok in Hr. by destruct Hr.
  - unfold content, read_from_catalog, catalog_location. rewrite A, Hl, (B _ Ho), E. cbn [result_bind].
    destruct (digest_component (digest o)) as [name|] eqn:En; [|done]. unfold read_path. by rewrite (D _ _ Ho E En).
Qed.

(** Removing a pack leaves the locations of all other digests. *)
Lemma best_app_none d es1 es2 : (forall l, l ∈ es1 -> loc_digest l <> d) -> best d (es1 ++ es2) = best d es2.
Proof.
  intros H. rewrite best_app. destruct (best d es1) as [l|] eqn:E; [|done]. apply best_in in E as [Hin Hd]. by destruct (H l Hin).
Qed.
Lemma remove_locations st record c d : catalog_inv st -> cr_operation record = Remove -> apply_catalog_record st record = (c, Ok tt) ->
  d ∉ entry_digests (cp_manifest (cr_pack record)) -> locations c !! d = locations st !! d.
Proof.
  intros [_ Hl] Ho H Hd. unfold apply_catalog_record in H. rewrite Ho in H. destruct (validate_pack_manifest _ _); [|done].
  unfold remove_catalog_pack in H. case_bool_decide as Hg; [|done]. cbn [packs set_packs] in H.
  destruct (locations_from_packs (bmap_remove _ _)) as [L|] eqn:Er; [|done]. injection H as <-. cbn.
  apply locations_from_packs_ok in Hl as [_ Hl]. apply locations_from_packs_ok in Er as [_ Er]. rewrite (Hl d), (Er d).
  destruct (bmap_remove_split _ _ _ Hg) as (p1 & p2 & Heq & ->). rewrite Heq, !entries_of_app, entries_of_cons, !best_app.
  assert (best d (pack_locations (cp_data_name (cr_pack record), cp_manifest (cr_pack record))) = None) as ->; [|done].
  destruct (best d (pack_locations _)) as [l|] eqn:E; [|done]. apply best_in in E as [Hin Hx]. exfalso. apply Hd.
  unfold pack_locations in Hin. apply list_elem_of_In, List.in_map_iff in Hin as (e & <- & He). apply list_elem_of_In in He.
  unfold entry_digests. apply list_elem_of_fmap. exists e. split; [|done]. done.
Qed.

(** The pack of a location is in the catalog and lists the digest. *)
Lemma location_pack st d l : catalog_inv st -> locations st !! d = Some l ->
  exists m, (pl_data_name l, m) ∈ packs st /\ d ∈ entry_digests m.
Proof.
  intros [_ HL] Hl. apply locations_from_packs_ok in HL as [_ Hrep]. rewrite (Hrep d) in Hl. apply best_in in Hl as [Hin Hd].
  unfold entries_of in Hin. apply list_elem_of_In, List.in_flat_map in Hin as ([n m] & Hnm & Hin). apply list_elem_of_In in Hnm, Hin.
  unfold pack_locations in Hin. apply list_elem_of_In, List.in_map_iff in Hin as (e & <- & He). apply list_elem_of_In in He.
  exists m. split; [done|]. unfold entry_digests. apply list_elem_of_fmap. exists e. split; [by rewrite <- Hd|done].
Qed.

(** Data names are not names of metadata. *)
Lemma admitted_name n m : validate_pack_manifest n m = Ok tt -> exists c, n = c +:+ ".pack".
Proof.
  unfold validate_pack_manifest, corrupt. rewrite guard_ok, result_bind_ok. intros (_ & c & _ & H). rewrite guard_ok, str_neqb_false in H.
  destruct H as [-> _]. by exists c.
Qed.
Lemma pack_not_metadata c c' e : e = "json" \/ e = "verified" -> c +:+ ".pack" <> c' +:+ "." +:+ e.
Proof.
  intros He. change ".pack" with ("." +:+ "pack"). by destruct He as [-> | ->]; apply different_extension.
Qed.
End Contents.

(** The directories are maps. *)
Definition files_wf (s : CasStore) : Prop := bmap_wf (objects s) /\ bmap_wf (pack_files s).

Lemma get_remove_ne {V} (m : BTreeMap string V) n k : bmap_wf m -> n <> k -> bmap_get n (bmap_remove k m) = bmap_get n m.
Proof. intros Hw Hne. rewrite bmap_get_remove by done. destruct (cmp n k) eqn:C; [by apply cmp_eq_iff in C|done|done]. Qed.

Lemma remove_files_spec names : forall s, files_wf s -> let s' := foldl remove_pack_file s names in
  s' = set_metadata (set_pack_files s (pack_files s')) (pack_metadata s') /\ files_wf s' /\
  forall n, n ∉ names -> bmap_get n (pack_files s') = bmap_get n (pack_files s).
Proof.
  induction names as [|k names IH]; intros s Hw; cbn [foldl]; [by destruct s|].
  assert (files_wf (remove_pack_file s k)) as Hw1 by (destruct Hw; split; [done|by apply bmap_remove_wf]).
  destruct (IH _ Hw1) as (H1 & H2 & H3). split_and!; [|done|].
  - rewrite H1 at 1. done.
  - intros n Hn. apply not_elem_of_cons in Hn as [Hne Hn]. rewrite H3 by done. apply get_remove_ne; [apply Hw|done].
Qed.

Lemma remove_keys_spec keys : forall s, files_wf s -> let s' := foldl (fun s key => set_objects s (bmap_remove key (objects s))) s keys in
  s' = set_objects s (objects s') /\ files_wf s' /\ forall n, n ∉ keys -> bmap_get n (objects s') = bmap_get n (objects s).
Proof.
  induction keys as [|k keys IH]; intros s Hw; cbn [foldl]; [by destruct s|].
  assert (files_wf (set_objects s (bmap_remove k (objects s)))) as Hw1 by (destruct Hw; split; [by apply bmap_remove_wf|done]).
  destruct (IH _ Hw1) as (H1 & H2 & H3). split_and!; [|done|].
  - rewrite H1 at 1. done.
  - intros n Hn. apply not_elem_of_cons in Hn as [Hne Hn]. rewrite H3 by done. apply get_remove_ne; [apply Hw|done].
Qed.

Section Applying.
Context {P : Primitives} {R : JsonReader} {L : PrimitivesLaws P} {W : WriterLaws P} {RL : ReaderLaws P R}.
Context (receipt_matches : CasStore -> string -> PackManifest -> bool).
Context (receipt_bytes : CasStore -> string -> PackManifest -> list byte).
Context (lookup_open : CasStore -> CatalogHead -> Res (option Lookup)).
Context (lookup_publish : BTreeMap string (list byte) -> CatalogSnapshot -> string -> BTreeMap string (list byte)).
Hypothesis lookup_publish_keeps : forall dir snapshot d name, has_extension "snapshot" name = true ->
  bmap_get name (lookup_publish dir snapshot d) = bmap_get name dir.
Notation sync := (sync_catalog_locked receipt_matches receipt_bytes lookup_publish).

(** The durable stores with well-formed directories, and what a step keeps. *)
Definition sound (s : CasStore) : Prop := durable s /\ files_wf s.

Lemma append_applies s operation data_name manifest s' :
  append_catalog_record_locked lookup_publish s operation data_name manifest false = (s', Ok tt) ->
  exists record c, cr_operation record = operation /\ cr_pack record = {| cp_data_name := data_name; cp_manifest := manifest |} /\
    apply_catalog_record (pack_catalog s) record = (c, Ok tt) /\ packs (pack_catalog s') = packs c /\ locations (pack_catalog s') = locations c.
Proof.
  intros H. unfold append_catalog_record_locked, resource_limit in H. rewrite store_bind_ok in H. destruct H as (s0 & record & [= <- Hrec] & H).
  rewrite store_guard_ok in H. destruct H as [_ H]. rewrite store_bind_ok in H. destruct H as (s0 & name & [= <- _] & H).
  rewrite store_bind_ok in H. destruct H as (s1 & [] & Hcr & H).
  assert (pack_catalog s1 = pack_catalog s) as Hc.
  { destruct (bmap_get name _); [|by injection Hcr as <-]. unfold corrupt in Hcr. rewrite store_guard_ok in Hcr. by destruct Hcr as [_ [= <-]]. }
  rewrite Hc in H. unfold next_record in Hrec. rewrite result_bind_ok in Hrec. destruct Hrec as (n & _ & [= <-]).
  destruct (apply_catalog_record _ _) as [c [[]|]] eqn:Ea; [|done]. injection H as <-. eexists _, c. split_and!; [| |exact Ea|..]; done.
Qed.

Lemma append_remove_ok s data_name manifest s' : durable s ->
  append_catalog_record_locked lookup_publish s Remove data_name manifest false = (s', Ok tt) ->
  durable s' /\ same_files s s' /\ lookup s' = lookup s /\ bmap_get data_name (packs (pack_catalog s)) = Some manifest /\
  packs (pack_catalog s') = bmap_remove data_name (packs (pack_catalog s)) /\
  forall d, d ∉ entry_digests manifest -> locations (pack_catalog s') !! d = locations (pack_catalog s) !! d.
Proof.
  intros Hs H. pose proof (append_applies _ _ _ _ _ H) as (record & c & Ho & Hp & Ha & Hpacks & Hlocs).
  apply append_durable in H as [Hs' Hf]; [|done|done|done]. rewrite Hpacks, Hlocs.
  assert (bmap_get data_name (packs (pack_catalog s)) = Some manifest /\ packs c = bmap_remove data_name (packs (pack_catalog s))) as [Hg Hc].
  { unfold apply_catalog_record, remove_catalog_pack in Ha. rewrite Ho, Hp in Ha. cbn in Ha. destruct (validate_pack_manifest _ _); [|done].
    case_bool_decide as Hg; [|done]. cbn in Ha. destruct (add_packs _ _); [|done]. by injection Ha as <-. }
  split_and!; [done|done|by rewrite (mat_lookup _ (durable_materialized _ Hs)), (mat_lookup _ (durable_materialized _ Hs'))|done|done|].
  intros d Hd. eapply remove_locations; [apply (mat_typed _ (durable_materialized _ Hs))|exact Ho|exact Ha|by rewrite Hp].
Qed.

Lemma remove_dead_pack_keeps keep s pack s' : sound s -> (forall d, keep d -> d ∉ entry_digests (cp_manifest pack)) ->
  remove_dead_pack lookup_publish s pack = (s', Ok tt) -> sound s' /\ keeps_content keep s s'.
Proof.
  intros [Hs Hw] Hk H. unfold remove_dead_pack in H. rewrite store_bind_ok in H. destruct H as (s1 & [] & Ha & H).
  destruct (append_remove_ok _ _ _ _ Hs Ha) as (Hs1 & (Ho & _ & Hf) & Hl & Hg & _ & Hloc).
  assert (files_wf s1) as Hw1 by (destruct Hw; split; congruence).
  set (names := [cp_data_name pack; file_stem (cp_data_name pack) +:+ ".json"; file_stem (cp_data_name pack) +:+ ".verified"]).
  assert (s' = foldl remove_pack_file s1 names) as Hs2 by (by injection H). clear H.
  pose proof (remove_files_spec names s1 Hw1) as Hspec. cbv zeta in Hspec. rewrite <- Hs2 in Hspec. destruct Hspec as (E & Hw2 & Hn). clear Hs2.
  split; [split; [apply (durable_frame s1); [done|by rewrite E..]|done]|]. destruct (mat_typed _ (durable_materialized _ Hs)) as [Hinv Hadm].
  split; [by rewrite E|rewrite E; cbn| |rewrite E; cbn].
  - intros d Hd. by apply Hloc, Hk.
  - intros d l Hd Hld. rewrite Hn, Hf; [done|]. destruct (location_pack _ _ _ Hinv Hld) as (m & Hm & Hdm).
    rewrite list.Forall_forall in Hadm. pose proof (Hadm _ Hm) as Hv. apply admitted_name in Hv as [c Hc]. cbn [fst] in Hc.
    unfold names. rewrite !elem_of_cons, elem_of_nil. intros [Heq|[Heq|[Heq|[]]]].
    + rewrite Heq in Hm. apply bmap_get_elem in Hm; [|apply Hinv]. rewrite Hg in Hm. injection Hm as <-. by apply (Hk d).
    + rewrite Hc in Heq. by eapply (pack_not_metadata c _ "json"); [left|].
    + rewrite Hc in Heq. by eapply (pack_not_metadata c _ "verified"); [right|].
  - intros d name _ _ _. by rewrite Ho.
Qed.

Lemma fold_keeps {A} (f : CasStore -> A -> CasStore * Res unit) keep s0 (l : list A) :
  (forall a s s', a ∈ l -> sound s -> keeps_content keep s0 s -> f s a = (s', Ok tt) -> sound s' /\ keeps_content keep s s') ->
  forall s s', sound s -> keeps_content keep s0 s -> store_fold (fun s _ a => f s a) s tt l = (s', Ok tt) -> sound s' /\ keeps_content keep s0 s'.
Proof.
  induction l as [|a l IH]; intros Hf s s' Hs Hk H; cbn in H; [by injection H as <-|]. rewrite store_bind_ok in H. destruct H as (s1 & [] & H1 & H).
  destruct (Hf a s s1 ltac:(by left) Hs Hk H1) as [Hs1 Hk1]. apply (IH) with (s := s1); [|done|by eapply keeps_content_trans|done].
  intros b t t' Hb. apply Hf. by right.
Qed.

Lemma remove_loose_keeps keep s d s' : sound s -> (keep d -> is_Some (locations (pack_catalog s) !! d)) ->
  remove_loose s d = (s', Ok tt) -> sound s' /\ keeps_content keep s s'.
Proof.
  intros [Hs Hw] Hk H. unfold remove_loose in H. rewrite store_bind_ok in H. destruct H as (s1 & name & [= <- Hn] & [= <-]).
  split; [split; [by apply (durable_frame s)|destruct Hw; split; [by apply bmap_remove_wf|done]]|]. split; try done.
  intros d' name' Hd' Hl Hn'. cbn. apply get_remove_ne; [apply Hw|]. intros ->. rewrite (digest_component_inj _ _ _ Hn' Hn) in *.
  rewrite Hl in Hk. by destruct (Hk Hd').
Qed.

(** Synchronization and maintenance keep everything. *)
Lemma sync_keeps_content keep s s' : sound s -> sync s = (s', Ok tt) -> sound s' /\ keeps_content keep s s'.
Proof.
  intros [(head & base & final & Hd) Hw] H. destruct (sync_durable receipt_matches receipt_bytes lookup_publish _ _ _ _ Hd) as (s1 & Hs1 & Hd1 & Ho & _ & Hf).
  rewrite H in Hs1. injection Hs1 as <-.
  assert (pack_catalog s' ≡ pack_catalog s) as Heq by (rewrite (du_memory _ _ _ _ Hd1); symmetry; apply Hd).
  split; [split; [by exists head, base, final|destruct Hw; split; congruence]|].
  split; [by rewrite (du_lookup _ _ _ _ Hd), (du_lookup _ _ _ _ Hd1)|by intros d _; rewrite (locations_proper _ _ Heq)|by intros; rewrite Hf|by intros; rewrite Ho].
Qed.
Lemma maintain_keeps_content keep s s' : sound s -> catalog_fits (pack_catalog s') ->
  maybe_snapshot_catalog_locked lookup_publish s true = (s', Ok tt) -> sound s' /\ keeps_content keep s s'.
Proof.
  intros [Hs Hw] Hfit H. pose proof (durable_materialized _ Hs) as Hm. pose proof (maintain_snapshot _ _ _ _ Hm H) as Hsn.
  assert (catalog_fits (pack_catalog s)) as Hfit' by (unfold catalog_fits in *; by rewrite <- Hsn).
  pose proof (maintain_keeps _ _ _ _ Hm H) as [[Hl _ Hloc] _]. destruct (maintain_durable _ lookup_publish_keeps _ _ _ Hs Hfit' H) as [Hs' [_ (Ho & _ & Hf)]].
  split; [split; [done|destruct Hw; split; congruence]|].
  split; [done|intros d _; apply Hloc, not_elem_of_nil|by intros; rewrite Hf|by intros; rewrite Ho].
Qed.

(** A plan that spares the digests [keep]. *)
Record spares (keep : string -> Prop) (s : CasStore) (plan : StoragePlan) : Prop := mkSpares {
  sp_packs : forall p d, p ∈ dead_packs plan -> keep d -> d ∉ entry_digests (cp_manifest p);
  sp_loose : forall d, d ∈ dead_loose plan -> keep d -> is_Some (locations (pack_catalog s) !! d);
  sp_orphan_loose : forall key, key ∈ orphan_loose_files plan -> is_lower_hex (loose_name key) 62 = false;
  sp_orphan_packs : forall n d l, n ∈ orphan_pack_files plan -> keep d -> locations (pack_catalog s) !! d = Some l -> pl_data_name l <> n
}.

Lemma apply_plan_keeps keep s plan s' : sound s -> spares keep s plan -> catalog_fits (pack_catalog s') ->
  apply_plan receipt_matches receipt_bytes lookup_publish s plan = (s', Ok tt) -> sound s' /\ keeps_content keep s s'.
Proof.
  intros Hs [Sp Sl Sol Sop] Hfit H. unfold apply_plan in H. rewrite store_bind_ok in H. destruct H as (s1 & [] & Hsync & H).
  destruct (sync_keeps_content keep _ _ Hs Hsync) as [Hs1 Hk1]. rewrite store_bind_ok in H. destruct H as (s2 & [] & Hp & H).
  apply (fold_keeps _ keep s) in Hp as [Hs2 Hk2]; [|intros p t t' Hin Ht _; apply remove_dead_pack_keeps; [done|by intros d; apply Sp]|done|done].
  rewrite store_bind_ok in H. destruct H as (s3 & [] & Hl & H). apply (fold_keeps _ keep s) in Hl as [Hs3 Hk3].
  2:{ intros d t t' Hin Ht Hkt. apply remove_loose_keeps; [done|]. intros Hd. rewrite (kc_locations _ _ _ Hkt _ Hd). by apply Sl. }
  2,3: done.
  destruct Hs3 as [Hd3 Hw3]. pose proof (remove_keys_spec (orphan_loose_files plan) s3 Hw3) as Hspec. cbv zeta in Hspec.
  set (s4 := foldl _ s3 (orphan_loose_files plan)) in *. destruct Hspec as (E4 & Hw4 & Hn4).
  assert (durable s4) as Hd4 by (apply (durable_frame s3); [done|by rewrite E4..]).
  assert (keeps_content keep s3 s4) as Hk4.
  { split; [by rewrite E4|by rewrite E4|by rewrite E4|]. intros d name Hd _ Hn. apply Hn4. intros Hin. apply Sol in Hin. apply component_canonical in Hn. congruence. }
  pose proof (remove_files_spec (orphan_pack_files plan) s4 Hw4) as Hspec. cbv zeta in Hspec.
  set (s5 := foldl remove_pack_file s4 (orphan_pack_files plan)) in *. destruct Hspec as (E5 & Hw5 & Hn5).
  assert (durable s5) as Hd5 by (apply (durable_frame s4); [done|by rewrite E5..]).
  pose proof (keeps_content_trans _ _ _ _ Hk3 Hk4) as Hk04.
  assert (keeps_content keep s4 s5) as Hk5.
  { split; [by rewrite E5|by rewrite E5| |by rewrite E5]. intros d l Hd Hld. apply Hn5. intros Hin. rewrite (kc_locations _ _ _ Hk04 _ Hd) in Hld. by eapply Sop. }
  apply (maintain_keeps_content keep) in H as [Hs' Hk']; [|done|done]. split; [done|].
  exact (keeps_content_trans _ _ _ _ (keeps_content_trans _ _ _ _ Hk04 Hk5) Hk').
Qed.

Lemma plan_spares s released scan m plan : durable s -> make_plan s released scan m = Ok plan -> spares (fun d => d ∈ reachable m) s plan.
Proof.
  intros Hs H. destruct (mat_typed _ (durable_materialized _ Hs)) as [Hinv _]. unfold make_plan in H. rewrite result_bind_ok in H. destruct H as (loose & Hl & [= <-]).
  apply loose_scanned in Hl as [Ld Lo _]; [|done|done]. split; cbn [dead_packs dead_loose orphan_loose_files orphan_pack_files];
    destruct (negb (bool_decide (dangling m = []))); try (intros ? Hx; by apply elem_of_nil in Hx); try (intros ? ? Hx; by apply elem_of_nil in Hx);
    try (intros ? ? ? Hx; by apply elem_of_nil in Hx).
  - intros p d [_ Hp]%dead_packs_spec Hd Hin. apply Hp. by exists d.
  - intros d Hd Hr. apply Ld in Hd as (key & c & _ & _ & [Hn|?]); [done|done].
  - exact Lo.
  - intros n d l Hn Hd Hld Heq. unfold orphan_pack_names in Hn. apply list_elem_of_In, List.filter_In in Hn as [_ Hn]. apply andb_true_iff in Hn as [Hn _].
    apply negb_true_iff, bset_contains_false in Hn. apply Hn, expected_spec. destruct (location_pack _ _ _ Hinv Hld) as (mf & Hm & _). rewrite Heq in Hm.
    apply list_elem_of_fmap. by exists (n, mf).
Qed.

(** The overlay of an accelerator stays on the snapshot of the head. *)
Lemma overlay_snapshot dir accelerator names : forall st st', overlay_records dir accelerator names st = Ok (Some st') ->
  snapshot_digest st' = snapshot_digest st.
Proof.
  induction names as [|n names IH]; intros st st' H; cbn [overlay_records] in H; [by injection H as <-|]. rewrite result_bind_ok in H.
  destruct H as ([[record d] len] & _ & H). destruct (_ <=? _); [by apply IH|]. unfold corrupt in H. rewrite guard_ok in H. destruct H as [_ H].
  destruct (cr_operation record); [|done]. rewrite guard_ok in H. destruct H as [_ H]. pose proof (apply_record_fields st record) as Hf.
  destruct (apply_catalog_record st record) as [st1 r]. rewrite seq_ok in H. destruct H as [_ H].
  apply IH in H. cbn in *. rewrite H. tauto.
Qed.

(** Whatever [open] starts from, the next synchronization has the catalog on disk. *)
Lemma open_sync s s1 : durable s -> open receipt_matches receipt_bytes lookup_open lookup_publish s = (s1, Ok tt) ->
  exists s2, sync s1 = (s2, Ok tt) /\ durable s2 /\ same_files s s2 /\ pack_catalog s2 ≡ pack_catalog s /\ lookup s2 = lookup s.
Proof.
  intros (head & base & final & Hd) H. pose proof Hd as [Ha Hdef Hbd Hm Hl].
  assert (forall t, durable_by t head base final -> same_files s t -> exists s2, sync t = (s2, Ok tt) /\ durable s2 /\ same_files s s2 /\
    pack_catalog s2 ≡ pack_catalog s /\ lookup s2 = lookup s) as Hdone.
  { intros t Ht Hf. destruct (sync_durable receipt_matches receipt_bytes lookup_publish _ _ _ _ Ht) as (s2 & Hs2 & Hd2 & Hf2). exists s2.
    split_and!; [done|by exists head, base, final|by eapply same_files_trans| |by rewrite Hl, (du_lookup _ _ _ _ Hd2)].
    rewrite (du_memory _ _ _ _ Hd2). by symmetry. }
  unfold open, ensure_catalog_initialized in H. change (initialized (pack_catalog (forget s))) with false in H. cbv iota in H.
  rewrite store_bind_ok in H. destruct H as (s0 & selective & Ht & H).
  assert (forall r, sync (forget s) = r -> exists s', r = (s', Ok tt) /\ durable_by s' head base final /\ same_files s s') as Hcold.
  { intros r <-. destruct (recovers receipt_matches receipt_bytes lookup_publish lookup_publish_keeps _ _ _ _ Hd) as (s' & Hs' & ? & ?). by exists s'. }
  unfold try_lookup_catalog_locked in Ht. change (catalog_head (forget s)) with (catalog_head s) in Ht.
  pose proof (au_head _ _ _ _ Ha) as Hh. destruct (catalog_head s) eqn:Ehead; [|by unfold read_catalog_head in Hh; rewrite Ehead in Hh].
  rewrite store_bind_ok in Ht. destruct Ht as (t0 & head' & [= <- Hh'] & Ht).
  assert (head' = head) as -> by (unfold read_catalog_head in *; cbn in Hh'; congruence).
  rewrite store_bind_ok in Ht. destruct Ht as (t0 & opened & [= <- _] & Ht). destruct opened as [accelerator|].
  2:{ injection Ht as <- <-. destruct (Hcold _ H) as (s' & [= <-] & Hd' & Hf'). by apply Hdone. }
  rewrite store_bind_ok in Ht. destruct Ht as (t0 & overlay & [= <- Ho] & Ht). destruct overlay as [st|].
  2:{ injection Ht as <- <-. destruct (Hcold _ H) as (s' & [= <-] & Hd' & Hf'). by apply Hdone. }
  rewrite store_bind_ok in Ht. destruct Ht as (t0 & [] & [= <- _] & Ht). rewrite store_bind_ok in Ht. destruct Ht as (t1 & [] & Hload & [= <- <-]).
  injection H as <-. unfold load_catalog_deferred_locked in Hload. destruct (read_deferral _ _ _) as [[since bytes]|]; [|done]. injection Hload as <-.
  apply overlay_snapshot in Ho. cbn in Ho.
  match goal with |- exists s2, sync ?t = _ /\ _ => destruct (sync_reloads receipt_matches receipt_bytes lookup_publish lookup_publish_keeps t head base final) as (s2 & Hs2 & Hd2 & Hf2) end.
  - eapply authority_frame; [exact Ha|done..].
  - done.
  - done.
  - unfold needs_snapshot. cbn. by rewrite orb_true_r.
  - intros _. exact Ho.
  - exists s2. split_and!; [done|by exists head, base, final|done| |by rewrite Hl, (du_lookup _ _ _ _ Hd2)].
    rewrite (du_memory _ _ _ _ Hd2). by symmetry.
Qed.

(* --------------------------------------------------------------------- *)
(** ** The collection as a whole *)

Notation mark := (mark receipt_matches receipt_bytes lookup_publish).
Notation collect := (garbage_collect_storage receipt_matches receipt_bytes lookup_open lookup_publish).
Definition live (s : CasStore) (managed : BTreeMap string (list (string * Entry))) (released : ReleasedSessionCasRoots) : CasObject -> Prop :=
  reaches s (fun o => o ∈ managed_references managed released).

(** What a successful collection did: from the store [s2] of the last synchronization
    before marking, which has the contents of [s], the plan of a complete marking was carried out. *)
Record collection (s : CasStore) (managed : BTreeMap string (list (string * Entry))) (released : ReleasedSessionCasRoots)
    (s' : CasStore) (s2 : CasStore) (m : Mark) (plan : StoragePlan) : Prop := mkCollection {
  cl_sound : sound s2;
  cl_catalog : pack_catalog s2 ≡ pack_catalog s;
  cl_files : same_files s s2;
  cl_content : forall o, content s2 o = content s o;
  cl_marked : exists scan, scan_roots managed released = Ok scan /\ marked s2 (references scan) m /\ make_plan s2 released scan m = Ok plan;
  cl_complete : dangling m = [];
  cl_applied : apply_plan receipt_matches receipt_bytes lookup_publish s2 plan = (s', Ok tt)
}.

Lemma collection_ok s managed released : sound s -> exists s' r, collect s managed released = Some (s', r) /\
  forall report, r = Ok report -> exists s2 m plan, collection s managed released s' s2 m plan /\ report = applied_report s' (StorageGc.report plan).
Proof.
  intros [Hs Hw]. unfold garbage_collect_storage.
  destruct (open receipt_matches receipt_bytes lookup_open lookup_publish s) as [s1 [[]|e]] eqn:Eo; [|by exists s1, (Err e)].
  destruct (open_sync s s1 Hs Eo) as (s2 & Es & Hd2 & Hf2 & Hc2 & Hl2). unfold storage_plan. rewrite Es.
  assert (sound s2) as Hs2.
  { split; [done|]. destruct Hw as [Hwo Hwp], Hf2 as (Ho & _ & Hf). unfold files_wf. by rewrite Ho, Hf. }
  destruct (scan_roots managed released) as [scan|e] eqn:Er; [|by exists s2, (Err e)].
  destruct (mark_from_roots receipt_matches receipt_bytes lookup_publish s2 managed released scan Hd2 (proj1 (proj2 Hs2)) Er) as (s3 & r & Hm & Hr).
  rewrite Hm. destruct r as [m|e]; [|by exists s3, (Err e)]. destruct (Hr m eq_refl) as [-> Hmarked].
  destruct (make_plan s2 released scan m) as [plan|e] eqn:Ep; [|by exists s2, (Err e)].
  destruct (collection_blocked (report plan)) eqn:Eb; [by eexists _, (Err _)|].
  destruct (apply_plan _ _ _ s2 plan) as [s4 [[]|e]] eqn:Ea; [|by exists s4, (Err e)]. eexists s4, _. split; [done|].
  intros report [= <-]. exists s2, m, plan. split; [|done]. split; try done; [|by exists scan|].
  - intros o. apply (keeps_content_content (fun _ => True) s s2); [apply (mat_lookup _ (durable_materialized _ Hs))| |done].
    destruct Hf2 as (Ho & _ & Hf). split; [done|by intros; rewrite (locations_proper _ _ Hc2)|by intros; rewrite Hf|by intros; rewrite Ho].
  - unfold make_plan in Ep. rewrite result_bind_ok in Ep. destruct Ep as (loose & _ & [= <-]). cbn in Eb. by apply negb_false_iff, bool_decide_eq_true in Eb.
Qed.

Lemma collection_live s managed released s' s2 m plan o : collection s managed released s' s2 m plan -> live s managed released o ->
  validate_reference o = Ok tt /\ digest o ∈ reachable m /\ exists b, content s o = Some b.
Proof.
  intros [_ _ _ Hc (scan & Hscan & [Hcomp _ Hread] & _) Hd _] Ho.
  assert (reaches s2 (root_of (references scan)) o) as Ho2.
  { apply (live_roots _ _ _ _ Hscan). refine (reaches_mono s s2 _ _ o _ _ Ho); [intros x; by rewrite Hc|done]. }
  destruct (Hread Hd o Ho2) as (Hv & b & Hb). split_and!; [done|by apply Hcomp|]. exists b. by rewrite <- Hc.
Qed.

(** C5: garbage collection never loses a reachable object.  On a durable store the
    collection terminates with an outcome.  When it succeeds, every object that the
    managed state refers to, directly or through the documents of other objects, can
    be read afterwards with the bytes it had before, from its pack or its loose file,
    and the catalog on disk is still the one in memory, so that later processes read
    it as well.  A reachable object that is missing stops the collection instead. *)
Theorem collection_keeps_reachable s managed released : sound s ->
  exists s' r, collect s managed released = Some (s', r) /\
    forall report, r = Ok report -> catalog_fits (pack_catalog s') ->
      sound s' /\ forall o, live s managed released o -> exists b, read sync s o (size o) = (s, Ok b) /\ read sync s' o (size o) = (s', Ok b).
Proof.
  intros Hs. destruct (collection_ok s managed released Hs) as (s' & r & Hc & Hr). exists s', r. split; [done|]. intros report Hok Hfit.
  destruct (Hr report Hok) as (s2 & m & plan & Hcl & _). pose proof Hcl as [Hs2 _ _ Hcont (scan & _ & _ & Hplan) _ Happ].
  destruct (apply_plan_keeps (fun d => d ∈ reachable m) s2 plan s' Hs2) as [Hs' Hk]; [by eapply plan_spares, Hplan; apply Hs2|done|done|].
  split; [done|]. intros o Ho. destruct (collection_live _ _ _ _ _ _ _ _ Hcl Ho) as (Hv & Hin & b & Hb). exists b.
  split; [by apply content_read|]. apply content_read; [done|].
  rewrite (keeps_content_content _ s2 s' o (mat_lookup _ (durable_materialized _ (proj1 Hs2))) Hk Hin). by rewrite Hcont.
Qed.

(* --------------------------------------------------------------------- *)
(** ** Exactness *)

Definition remove_all {V} (m : BTreeMap string V) (keys : list string) : BTreeMap string V := foldl (fun m k => bmap_remove k m) m keys.
Lemma remove_all_get {V} keys : forall (m : BTreeMap string V) n, bmap_wf m ->
  bmap_get n (remove_all m keys) = if bool_decide (n ∈ keys) then None else bmap_get n m.
Proof.
  induction keys as [|k keys IH]; intros m n Hw; cbn [remove_all foldl]; [done|]. unfold remove_all in IH. rewrite IH by (by apply bmap_remove_wf).
  rewrite bmap_get_remove by done. destruct (decide (n = k)) as [->|Hne].
  - rewrite cmp_refl. rewrite (bool_decide_eq_true_2 (k ∈ k :: keys)) by left. by case_bool_decide.
  - destruct (cmp n k) eqn:C; [by apply cmp_eq_iff in C|..]; repeat case_bool_decide; set_solver.
Qed.

(** What carrying out a plan leaves of the packs and of the loose files. *)
Lemma dead_packs_removed l : forall s s', sound s -> store_fold (fun s _ pack => remove_dead_pack lookup_publish s pack) s tt l = (s', Ok tt) ->
  sound s' /\ packs (pack_catalog s') = remove_all (packs (pack_catalog s)) (cp_data_name <$> l) /\ objects s' = objects s.
Proof.
  induction l as [|p l IH]; intros s s' Hs H; cbn [store_fold] in H; [by injection H as <-|]. rewrite store_bind_ok in H. destruct H as (s1 & [] & H1 & H).
  destruct (remove_dead_pack_keeps (fun _ => False) s p s1 Hs ltac:(done) H1) as [Hs1 _]. destruct (IH s1 s' Hs1 H) as (Hs' & Hp & Ho).
  unfold remove_dead_pack in H1. rewrite store_bind_ok in H1. destruct H1 as (t & [] & Ha & H1).
  destruct (append_remove_ok _ _ _ _ (proj1 Hs) Ha) as (_ & (Hto & _ & _) & _ & _ & Hpk & _).
  assert (pack_catalog s1 = pack_catalog t /\ objects s1 = objects t) as [Hc1 Ho1] by (by injection H1 as <-).
  split_and!; [done| |congruence]. rewrite Hp, Hc1, Hpk. done.
Qed.
Lemma dead_loose_removed l : forall s s', store_fold (fun s _ digest => remove_loose s digest) s tt l = (s', Ok tt) ->
  exists keys, Forall2 (fun d key => digest_component d = Ok key) l keys /\ s' = set_objects s (remove_all (objects s) keys).
Proof.
  induction l as [|d l IH]; intros s s' H; cbn [store_fold] in H; [injection H as <-; exists []; split; [constructor|by destruct s]|].
  rewrite store_bind_ok in H. destruct H as (s1 & [] & H1 & H). unfold remove_loose in H1. rewrite store_bind_ok in H1.
  destruct H1 as (t & key & [= <- Hk] & [= <-]). destruct (IH _ _ H) as (keys & Hall & ->). exists (key :: keys). by split; [constructor|].
Qed.

Lemma snapshot_packs c c' : snapshot_from_catalog_state c = snapshot_from_catalog_state c' -> packs c = packs c'.
Proof.
  intros H. apply (f_equal (fun s => map (fun p => (cp_data_name p, cp_manifest p)) (cs_packs s))) in H. unfold snapshot_from_catalog_state in H. cbn [cs_packs] in H.
  rewrite !List.map_map in H. cbn in H. rewrite !(List.map_ext (fun e : string * PackManifest => (e.1, e.2)) id), !List.map_id in H by (by intros []). done.
Qed.

Lemma apply_plan_effect s plan s' : sound s -> apply_plan receipt_matches receipt_bytes lookup_publish s plan = (s', Ok tt) ->
  catalog_fits (pack_catalog s') ->
  packs (pack_catalog s') = remove_all (packs (pack_catalog s)) (cp_data_name <$> dead_packs plan) /\
  exists keys, Forall2 (fun d key => digest_component d = Ok key) (dead_loose plan) keys /\
    objects s' = remove_all (remove_all (objects s) keys) (orphan_loose_files plan).
Proof.
  intros Hs H Hfit. unfold apply_plan in H. rewrite store_bind_ok in H. destruct H as (s1 & [] & Hsync & H).
  destruct Hs as [(head & base & final & Hd) Hw]. destruct (sync_durable receipt_matches receipt_bytes lookup_publish _ _ _ _ Hd) as (t & Ht & Hd1 & Ho1 & _ & Hf1).
  rewrite Hsync in Ht. injection Ht as <-. assert (sound s1) as Hs1 by (split; [by exists head, base, final|unfold files_wf; by rewrite Ho1, Hf1]).
  assert (packs (pack_catalog s1) = packs (pack_catalog s)) as Hp1 by (apply packs_proper; rewrite (du_memory _ _ _ _ Hd1); symmetry; apply Hd).
  rewrite store_bind_ok in H. destruct H as (s2 & [] & Hp & H). destruct (dead_packs_removed _ _ _ Hs1 Hp) as (Hs2 & Hp2 & Ho2).
  rewrite store_bind_ok in H. destruct H as (s3 & [] & Hl & H). destruct (dead_loose_removed _ _ _ Hl) as (keys & Hall & Hs3).
  assert (files_wf s3) as Hw3.
  { apply (fold_keeps _ (fun _ => False) s2) in Hl as [[_ ?] _]; [done| |done|done]. intros d t t' _ Ht _. by apply remove_loose_keeps. }
  pose proof (remove_keys_spec (orphan_loose_files plan) s3 Hw3) as (E4 & Hw4 & _). cbv zeta in *. set (s4 := foldl _ s3 (orphan_loose_files plan)) in *.
  assert (objects s4 = remove_all (objects s3) (orphan_loose_files plan)) as Ho4.
  { unfold s4. clear. generalize s3. induction (orphan_loose_files plan) as [|k l IH]; intros t; [done|]. cbn [foldl]. by rewrite IH. }
  pose proof (remove_files_spec (orphan_pack_files plan) s4 Hw4) as (E5 & Hw5 & _). set (s5 := foldl remove_pack_file s4 (orphan_pack_files plan)) in *.
  assert (sound s5) as Hs5.
  { split; [|done]. apply (durable_frame s2); [apply Hs2|rewrite E5, E4, Hs3..]; done. }
  pose proof (maintain_snapshot _ _ _ _ (durable_materialized _ (proj1 Hs5)) H) as Hsn.
  assert (catalog_fits (pack_catalog s5)) as Hfit5 by (unfold catalog_fits in *; by rewrite <- Hsn).
  destruct (maintain_durable _ lookup_publish_keeps _ _ _ (proj1 Hs5) Hfit5 H) as [_ [_ (Ho & _ & _)]].
  split.
  - assert (packs (pack_catalog s') = packs (pack_catalog s5)) as ->.
    { by apply snapshot_packs. }
    rewrite E5, E4, Hs3. cbn. by rewrite Hp2, Hp1.
  - exists keys. split; [done|]. rewrite Ho, E5. cbn. by rewrite Ho4, Hs3; cbn; rewrite Ho2, Ho1.
Qed.

Lemma has_live_dec reachable m : has_live reachable m \/ ~ has_live reachable m.
Proof.
  destruct (decide (Exists (fun d => d ∈ reachable) (entry_digests m))) as [He|He].
  - left. apply list.Exists_exists in He as (d & ? & ?). by exists d.
  - right. intros (d & ? & ?). apply He, list.Exists_exists. eauto.
Qed.

Lemma loose_live_dec (reachable : BTreeSet string) (packed : gmap string PackLocation) d :
  ~ loose_dead reachable packed d -> d ∈ reachable /\ packed !! d = None.
Proof.
  unfold loose_dead. intros Hn. split; [destruct (decide (d ∈ reachable)); tauto|]. destruct (packed !! d) eqn:E; [|done]. exfalso. apply Hn. right. eauto.
Qed.

(** The marked digests are those of live objects. *)
Lemma collection_marks s managed released s' s2 m plan d : collection s managed released s' s2 m plan ->
  d ∈ reachable m <-> exists o, digest o = d /\ live s managed released o.
Proof.
  intros Hcl. split.
  - destruct Hcl as [_ _ _ Hc (scan & Hscan & [_ Hsound _] & _) _ _]. intros Hd. destruct (Hsound d Hd) as (o & Ho & Hr). exists o. split; [done|].
    apply (live_roots _ _ _ _ Hscan) in Hr. refine (reaches_mono s2 s _ _ o _ _ Hr); [intros x; by rewrite Hc|done].
  - intros (o & <- & Ho). by destruct (collection_live _ _ _ _ _ _ _ _ Hcl Ho) as (_ & ? & _).
Qed.

(** The lists of a plan that is not blocked. *)
Lemma plan_lists s released scan m plan : make_plan s released scan m = Ok plan -> dangling m = [] ->
  dead_packs plan = ps_dead (scan_packs s (reachable m)) /\
  exists acc, loose_found (reachable m) (locations (pack_catalog s)) (objects s) acc /\ dead_loose plan = ls_dead acc /\ orphan_loose_files plan = ls_orphans acc.
Proof.
  intros H Hd. unfold make_plan in H. rewrite result_bind_ok in H. destruct H as (loose & Hl & [= <-]). rewrite bool_decide_eq_true_2 by done. cbn.
  split; [done|]. exists loose. apply loose_scanned in Hl; done.
Qed.

Lemma components_keys l keys : Forall2 (fun d key => digest_component d = Ok key) l keys ->
  forall key, key ∈ keys <-> exists d, d ∈ l /\ digest_component d = Ok key.
Proof.
  induction 1 as [|d k l keys Hk Hall IH]; intros key; [rewrite elem_of_nil; split; [done|]; intros (d & Hd & _); by apply elem_of_nil in Hd|].
  rewrite elem_of_cons, IH. split.
  - intros [->|(d' & ? & ?)]; [exists d; split; [by left|done]|exists d'; split; [by right|done]].
  - intros (d' & [->|Hd']%elem_of_cons & Hd); [left; congruence|right; eauto].
Qed.
Lemma remove_all_wf {V} keys : forall (m : BTreeMap string V), bmap_wf m -> bmap_wf (remove_all m keys).
Proof. induction keys as [|k l IH]; intros m Hw; [done|]. apply IH. by apply bmap_remove_wf. Qed.

Lemma collection_packs s managed released s' s2 m plan : collection s managed released s' s2 m plan -> catalog_fits (pack_catalog s') ->
  forall n mf, bmap_get n (packs (pack_catalog s')) = Some mf <->
    bmap_get n (packs (pack_catalog s)) = Some mf /\ exists o, live s managed released o /\ digest o ∈ entry_digests mf.
Proof.
  intros Hcl Hfit n mf. pose proof (fun d => collection_marks _ _ _ _ _ _ _ d Hcl) as Hmarks. destruct Hcl as [Hs2 Hcat _ _ (scan & _ & _ & Hplan) Hdang Happ].
  destruct (apply_plan_effect _ _ _ Hs2 Happ Hfit) as (Hp & _). destruct (plan_lists _ _ _ _ _ Hplan Hdang) as (Hdp & _).
  rewrite <- (packs_proper _ _ Hcat). destruct (mat_typed _ (durable_materialized _ (proj1 Hs2))) as [[Hwp _] _].
  rewrite Hp, remove_all_get by done. rewrite Hdp. case_bool_decide as Hin.
  - apply list_elem_of_fmap in Hin as (p & -> & [Hpm Hno]%dead_packs_spec). apply bmap_get_elem in Hpm; [|done]. rewrite Hpm. split; [done|].
    intros ([= <-] & o & Hlive & Hdig). exfalso. apply Hno. exists (digest o). split; [done|]. apply Hmarks. eauto.
  - split; [|by intros [? _]]. intros Hg. split; [done|]. destruct (has_live_dec (reachable m) mf) as [(d & Hd & Hrd)|Hno].
    + apply Hmarks in Hrd as (o & <- & ?). eauto.
    + exfalso. apply Hin, list_elem_of_fmap. exists {| cp_data_name := n; cp_manifest := mf |}. split; [done|]. apply dead_packs_spec. split; [|done]. by apply bmap_get_elem.
Qed.

Lemma collection_loose s managed released s' s2 m plan : collection s managed released s' s2 m plan -> catalog_fits (pack_catalog s') ->
  forall key, is_Some (bmap_get key (objects s')) <-> is_Some (bmap_get key (objects s)) /\
    exists o, live s managed released o /\ digest_component (digest o) = Ok key /\ locations (pack_catalog s) !! digest o = None.
Proof.
  intros Hcl Hfit key. pose proof (fun d => collection_marks _ _ _ _ _ _ _ d Hcl) as Hmarks.
  destruct Hcl as [Hs2 Hcat (Hof & _) _ (scan & _ & _ & Hplan) Hdang Happ].
  destruct (apply_plan_effect _ _ _ Hs2 Happ Hfit) as (_ & keys & Hkeys & Ho). destruct (plan_lists _ _ _ _ _ Hplan Hdang) as (_ & acc & [Ld Lo Ln] & Hdl & Hol).
  pose proof (components_keys _ _ Hkeys) as Hk. rewrite Hdl in Hk. destruct Hs2 as [_ [Hwo _]].
  rewrite <- (locations_proper _ _ Hcat), <- Hof, Ho, Hol, remove_all_get, remove_all_get by (done || by apply remove_all_wf). split.
  - case_bool_decide as Hk1; [by intros [? ?]|]. case_bool_decide as Hk2; [by intros [? ?]|]. intros [b Hb]. split; [by exists b|].
    apply bmap_get_elem in Hb; [|done]. destruct (Ln key b Hb) as [?|[d Hd]]; [done|].
    destruct (loose_live_dec (reachable m) (locations (pack_catalog s2)) d) as [Hrd Hnone].
    { intros Hdead. apply Hk2, Hk. exists d. split; [|done]. apply Ld. eauto. }
    apply Hmarks in Hrd as (o & <- & ?). eauto.
  - intros [[b Hb] (o & Hlive & Hko & Hnone)]. rewrite bool_decide_eq_false_2; [rewrite bool_decide_eq_false_2; [by exists b|]|].
    + intros (d & Hd & Hkd)%Hk. rewrite (digest_component_inj _ _ _ Hkd Hko) in Hd. apply Ld in Hd as (_ & _ & _ & _ & [Hn|[l Hl]]); [|congruence].
      apply Hn, Hmarks. eauto.
    + intros Hin. apply Lo in Hin. apply component_canonical in Hko. congruence.
Qed.

(** C6: garbage collection reclaims exactly what it may.  After a successful
    collection the catalog has the packs, and only those, that hold the digest of a
    reachable object, and the loose objects that remain are those that are reachable
    and not packed; in particular unreachable packs, unreachable loose objects and
    redundant loose copies are gone. *)
Theorem collection_is_exact s managed released : sound s ->
  exists s' r, collect s managed released = Some (s', r) /\
    forall report, r = Ok report -> catalog_fits (pack_catalog s') ->
      (forall n m, bmap_get n (packs (pack_catalog s')) = Some m <->
        bmap_get n (packs (pack_catalog s)) = Some m /\ exists o, live s managed released o /\ digest o ∈ entry_digests m) /\
      (forall key, is_Some (bmap_get key (objects s')) <-> is_Some (bmap_get key (objects s)) /\
        exists o, live s managed released o /\ digest_component (digest o) = Ok key /\ locations (pack_catalog s) !! digest o = None).
Proof.
  intros Hs. destruct (collection_ok s managed released Hs) as (s' & r & Hc & Hr). exists s', r. split; [done|]. intros report Hok Hfit.
  destruct (Hr report Hok) as (s2 & m & plan & Hcl & _). split; [by eapply collection_packs|by eapply collection_loose].
Qed.
End Applying.

(* --------------------------------------------------------------------- *)
(** ** An example *)

Module GcExample.
Definition lookup_open (s : CasStore) (head : CatalogHead) : Res (option Lookup) := Ok None.
Definition packed : CasObject := default (mkCasObject "" "" "" 0) (head BatchExample.refs).
(** A loose document that refers to a packed object, and a loose object nobody needs. *)
Definition document : list byte := to_vec (Primitives := toy) (cas_object_value packed).
Definition with_document : CasStore * Res CasObject := put (P := toy) HistoryExample.again.1 "test/document" document.
Definition loose : CasObject := ok_or_else packed with_document.2.
Definition with_garbage : CasStore * Res CasObject := put (P := toy) with_document.1 "test/garbage" [x07].
Definition store : CasStore := with_garbage.1.
(** A session that refers to the document. *)
Definition managed : BTreeMap string (list (string * Entry)) :=
  [("sessions", [("s1", EDir (1, 1) [("state.json", EFile (to_vec (Primitives := toy) (JObject [("document", cas_object_value loose)])))])])].
Definition released : ReleasedSessionCasRoots := mkReleased [] [] 0 0.
Definition scan : ManagedRootScan := ok_or_else (mkScan 0 0 []) (scan_roots (R := toy_reader) managed released).

Notation collected := (garbage_collect_storage (P := toy) (R := toy_reader) BatchExample.receipt_matches BatchExample.receipt_bytes
  lookup_open BatchExample.lookup_publish store managed released).
(** What holds of the result of a run holds of the run. *)
Lemma run_result {A B} (x : option (A * Res B)) (d : A) (p : A -> bool) :
  (match x with Some (a, Ok _) => p a | _ => false end) = true -> forall a r, x = Some (a, r) -> is_ok r = true /\ p a = true.
Proof. intros H a r ->. by destruct r. Qed.

Lemma store_history : history (P := toy) (R := toy_reader) BatchExample.receipt_matches BatchExample.receipt_bytes
  BatchExample.lookup_publish HistoryExample.acked store.
Proof.
  unfold store. apply (hist_put _ _ _ _ with_document.1 "test/garbage" [x07] with_garbage.1 with_garbage.2).
  2:{ etransitivity; [|apply (surjective_pairing with_garbage)]. unfold with_garbage. reflexivity. }
  apply (hist_put _ _ _ _ HistoryExample.again.1 "test/document" document with_document.1 with_document.2).
  2:{ etransitivity; [|apply (surjective_pairing with_document)]. unfold with_document. reflexivity. }
  apply HistoryExample.example_history.
Qed.
Lemma store_durable : durable (P := toy) (R := toy_reader) store.
Proof. eapply kp_durable, history_inv, store_history. intros. reflexivity. Qed.

Fixpoint ascending (l : list string) : bool :=
  match l with a :: (b :: _) as l' => ltb a b && ascending l' | _ => true end.
Lemma ascending_wf {V} (m : BTreeMap string V) : ascending m.*1 = true -> bmap_wf m.
Proof.
  unfold bmap_wf. induction m.*1 as [|a [|b l] IH]; [constructor|repeat constructor|]. cbn [ascending]. intros [Hab Hl]%andb_true_iff.
  apply Sorted_StronglySorted; [intros x y z; apply lt_trans|]. constructor; [by apply StronglySorted_Sorted, IH|constructor; by apply ltb_lt].
Qed.
Lemma store_sound : sound (P := toy) (R := toy_reader) store.
Proof. split; [apply store_durable|]. split; apply ascending_wf; vm_compute; reflexivity. Qed.
Lemma example_scan_ok : scan_roots (R := toy_reader) managed released = Ok scan.
Proof. vm_compute. reflexivity. Qed.
Lemma loose_live : live (P := toy) (R := toy_reader) store managed released loose.
Proof. apply reaches_root. apply (bool_decide_eq_true_1 _). vm_compute. reflexivity. Qed.
Lemma loose_content : content (P := toy) store loose = Some document.
Proof. vm_compute. reflexivity. Qed.
Lemma packed_live : live (P := toy) (R := toy_reader) store managed released packed.
Proof.
  apply (reaches_reference _ _ loose document packed loose_live loose_content). apply (bool_decide_eq_true_1 _). vm_compute. reflexivity.
Qed.
Lemma collection_succeeds s' r : collected = Some (s', r) -> is_ok r = true /\ catalog_fits (P := toy) (pack_catalog s').
Proof.
  intros H. destruct (run_result collected store (fun s => vlen (catalog_bytes (P := toy) (catalog_snapshot_value (snapshot_from_catalog_state (pack_catalog s)))) <=? u64_max)
    ltac:(vm_compute; reflexivity) _ _ H) as [Hok Hf]. split; [done|]. by apply N.leb_le in Hf.
Qed.
End GcExample.

Lemma collection_keeps_reachable_witness :
  exists s' report, GcExample.collected = Some (s', Ok report) /\
    exists b, read (P := toy) HistoryExample.sync s' GcExample.packed (size GcExample.packed) = (s', Ok b).
Proof.
  destruct (collection_keeps_reachable (P := toy) (R := toy_reader) BatchExample.receipt_matches BatchExample.receipt_bytes GcExample.lookup_open
    BatchExample.lookup_publish (fun _ _ _ _ _ => eq_refl) GcExample.store GcExample.managed GcExample.released GcExample.store_sound) as (s' & r & Hc & H).
  destruct (GcExample.collection_succeeds s' r Hc) as [Hok Hfit]. destruct r as [report|]; [|discriminate Hok].
  exists s', report. split; [exact Hc|].
  destruct (H report eq_refl Hfit) as [_ Hlive]. destruct (Hlive _ GcExample.packed_live) as (b & _ & Hb). exists b. exact Hb.
Defined.

Lemma collection_is_exact_witness :
  exists s' report, GcExample.collected = Some (s', Ok report) /\
    forall key, is_Some (bmap_get key (objects s')) -> is_Some (bmap_get key (objects GcExample.store)).
Proof.
  destruct (collection_is_exact (P := toy) (R := toy_reader) BatchExample.receipt_matches BatchExample.receipt_bytes GcExample.lookup_open
    BatchExample.lookup_publish (fun _ _ _ _ _ => eq_refl) GcExample.store GcExample.managed GcExample.released GcExample.store_sound) as (s' & r & Hc & H).
  destruct (GcExample.collection_succeeds s' r Hc) as [Hok Hfit]. destruct r as [report|]; [|discriminate Hok].
  exists s', report. split; [exact Hc|].
  destruct (H report eq_refl Hfit) as [_ Hloose]. intros key Hkey. exact (proj1 (proj1 (Hloose key) Hkey)).
Defined.

Lemma marking_finds_reachable_witness :
  exists s' r, mark (P := toy) (R := toy_reader) BatchExample.receipt_matches BatchExample.receipt_bytes BatchExample.lookup_publish
    (mark_fuel GcExample.store (references GcExample.scan)) GcExample.store (initial_mark (references GcExample.scan)) = Some (s', r).
Proof.
  destruct (marking_finds_reachable (P := toy) (R := toy_reader) BatchExample.receipt_matches BatchExample.receipt_bytes BatchExample.lookup_publish
    GcExample.store GcExample.managed GcExample.released GcExample.scan GcExample.store_durable (proj1 (proj2 GcExample.store_sound)) GcExample.example_scan_ok)
    as [_ (s' & r & H & _)]. exists s', r. exact H.
Defined.
