(* ===== verification/AdapterV2.v ===== *)
(** * Messages of providers and adapters (adapter_v2.rs)

    Compilation descriptors, handshakes, requests, facts and stream events with
    their admission checks.  The registry and the fact stream protocol are in
    AnalysisStream. *)

From S2P Require Import Prelude Order Collections Text Json Canonical Errors CasObject.

Definition PROVIDER_PROTOCOL : string := "codeclew-build-model-provider/2.0".
Definition ADAPTER_PROTOCOL : string := "codeclew-language-adapter/2.0".
Definition COMPILATION_SCHEMA : string := "codeclew-compilation-descriptor/2.0".
Definition ANALYSIS_REQUEST_SCHEMA : string := "codeclew-analyze-generation-request/2.0".

(* --------------------------------------------------------------------- *)
(** ** Field validators *)

Definition digest_component (value : string) : Res string :=
  let? component := ok_or (strip_prefix "sha256:" value)
                      (ClewError_new InvalidInput "authority digest has no sha256 prefix") in
  if negb (str_len component =? 64) || negb (str_all lower_hex_byte component)
  then invalid "authority digest is not canonical sha256"
  else Ok component.

Definition id_byte (a : ascii) : bool :=
  is_ascii_alphanumeric a || Ascii.eqb a "-" || Ascii.eqb a "_" || Ascii.eqb a "." || Ascii.eqb a ":".
Definition safe_id (value : string) : bool :=
  negb (str_is_empty value) && (str_len value <=? 128) && str_all id_byte value.

Definition safe_fact_key (value : string) : bool :=
  negb (str_is_empty value) && (str_len value <=? 4096)
  && negb (str_any (fun a => Ascii.eqb a nul || is_ascii_control a) value).

Definition uri_bad_byte (a : ascii) : bool := is_ascii_control a || Ascii.eqb a " ".
Definition validate_uri (value label : string) : Res unit :=
  if (256 <? str_len value) || negb (contains_char ":" value) || str_any uri_bad_byte value
  then invalid (label +:+ " is invalid")
  else Ok tt.

Definition validate_cas (object : CasObject) : Res unit :=
  if str_neqb (schema object) CAS_OBJECT_SCHEMA || str_is_empty (object_schema object)
  then invalid "CAS reference schema is invalid"
  else let? _ := digest_component (digest object) in Ok tt.

(** A pass over a list that keeps the keys it has seen in a [BTreeSet]. *)
Definition validate_unique_cas (objects : list CasObject) (label : string) : Res unit :=
  if 65536 <? vlen objects then invalid ("compilation " +:+ label +:+ " exceeds its bound")
  else
    let? _ := try_fold (fun digests object =>
      validate_cas object ;;?
      if bset_contains (digest object) digests
      then invalid ("compilation " +:+ label +:+ " contains duplicate CAS objects")
      else Ok (bset_insert (digest object) digests)) [] objects in
    Ok tt.

(** URIs are strings accepted by [LanguageUri::parse] and [CapabilityUri::parse]. *)
Definition LanguageUri := string.
Definition CapabilityUri := string.
Definition LanguageUri_parse (value : string) : Res LanguageUri :=
  validate_uri value "language URI" ;;? Ok value.
Definition CapabilityUri_parse (value : string) : Res CapabilityUri :=
  validate_uri value "capability URI" ;;? Ok value.

(* --------------------------------------------------------------------- *)
(** ** Descriptors and messages *)

Record ToolchainConstraint : Type := mkToolchainConstraint {
  authority_digest : string;
  minimum_version : option string;
  maximum_version_exclusive : option string
}.
Inductive DescriptorOrigin : Type := ProjectNative | SealedExternal.
Inductive DescriptorCompleteness : Type := Complete | Partial | Unknown.
Record SourceRootDescriptor : Type := mkSourceRoot { logical_name : string; tree : CasObject }.
Record OperationDescriptor : Type := mkOperation { operation_uri : CapabilityUri; arguments : list string }.

Record CompilationDescriptor : Type := mkCompilation {
  cd_schema : string;
  compilation_id : string;
  language_uri : LanguageUri;
  source_roots : list SourceRootDescriptor;
  generated_source_roots : list SourceRootDescriptor;
  classpath : list CasObject;
  toolchain : CasObject;
  plugins : list CasObject;
  canonical_options : CasObject;
  dependency_compilation_ids : list string;
  operations : list OperationDescriptor;
  origin : DescriptorOrigin;
  completeness : DescriptorCompleteness
}.

#[export] Instance SourceRoot_eq_dec : EqDecision SourceRootDescriptor.
Proof. solve_decision. Defined.
#[export] Instance Operation_eq_dec : EqDecision OperationDescriptor.
Proof. solve_decision. Defined.
#[export] Instance Origin_eq_dec : EqDecision DescriptorOrigin.
Proof. solve_decision. Defined.
#[export] Instance Completeness_eq_dec : EqDecision DescriptorCompleteness.
Proof. solve_decision. Defined.
#[export] Instance Compilation_eq_dec : EqDecision CompilationDescriptor.
Proof. solve_decision. Defined.

Definition unsafe_argument (argument : string) : bool :=
  (4096 <? str_len argument) || contains_char nul argument || starts_with "/" argument
  || existsb (fun component => str_eqb component "..") (split_char "/" argument).

(** [CompilationDescriptor::validate]. *)
Definition compilation_validate (c : CompilationDescriptor) : Res unit :=
  if str_neqb (cd_schema c) COMPILATION_SCHEMA || negb (safe_id (compilation_id c))
  then invalid "compilation descriptor identity is invalid"
  else
    validate_cas (toolchain c) ;;?
    validate_cas (canonical_options c) ;;?
    if (match source_roots c with [] => true | _ => false end) || (4096 <? vlen (source_roots c))
    then invalid "compilation source root set is invalid"
    else
      let? _ := try_fold (fun root_names root =>
        if negb (safe_id (logical_name root)) || bset_contains (logical_name root) root_names
        then invalid "compilation source roots are not uniquely named"
        else validate_cas (tree root) ;;? Ok (bset_insert (logical_name root) root_names))
        [] (source_roots c ++ generated_source_roots c) in
      validate_unique_cas (classpath c) "classpath" ;;?
      validate_unique_cas (plugins c) "plugins" ;;?
      let? _ := try_fold (fun dependencies dependency =>
        if negb (safe_id dependency) || str_eqb dependency (compilation_id c)
           || bset_contains dependency dependencies
        then invalid "compilation dependency set is invalid"
        else Ok (bset_insert dependency dependencies))
        [] (dependency_compilation_ids c) in
      let? _ := try_fold (fun seen operation =>
        if bset_contains (operation_uri operation) seen || (1024 <? vlen (arguments operation))
           || existsb unsafe_argument (arguments operation)
        then invalid "compilation operation is unsafe or duplicated"
        else Ok (bset_insert (operation_uri operation) seen))
        [] (operations c) in
      Ok tt.

Record ProviderHandshake : Type := mkProviderHandshake {
  ph_protocol : string;
  provider_id : string;
  provider_digest : string;
  build_system_uris : list string
}.
Record AdapterHandshake : Type := mkAdapterHandshake {
  ah_protocol : string;
  adapter_id : string;
  adapter_digest : string;
  languages : list LanguageUri;
  capabilities : list CapabilityUri;
  toolchains : list ToolchainConstraint
}.
Record ProbeRequest : Type := mkProbeRequest { pr_repository_snapshot : CasObject }.
Inductive ProbeDecision : Type := Supported | Unsupported.
Record ModelRequest : Type := mkModelRequest {
  mr_repository_snapshot : CasObject;
  requested_compilations : list string
}.
Record BuildModel : Type := mkBuildModel {
  bm_provider_id : string;
  bm_model : CasObject;
  compilations : list CompilationDescriptor
}.
Record ProviderModel : Type := mkProviderModel {
  pm_handshake : ProviderHandshake;
  build_model : BuildModel
}.

#[export] Instance ProviderHandshake_eq_dec : EqDecision ProviderHandshake.
Proof. solve_decision. Defined.
#[export] Instance BuildModel_eq_dec : EqDecision BuildModel.
Proof. solve_decision. Defined.
#[export] Instance ProviderModel_eq_dec : EqDecision ProviderModel.
Proof. solve_decision. Defined.

Record AnalyzeGenerationRequest : Type := mkAnalyzeRequest {
  ar_schema : string;
  attempt_id : string;
  generation_key : string;
  capability : CapabilityUri;
  compilation : CompilationDescriptor;
  derived_input_manifest : CasObject;
  parent_generation : option CasObject
}.

(** [AnalyzeGenerationRequest::validate]. *)
Definition request_validate (r : AnalyzeGenerationRequest) : Res unit :=
  if str_neqb (ar_schema r) ANALYSIS_REQUEST_SCHEMA || negb (safe_id (attempt_id r))
  then invalid "analysis request identity is invalid"
  else
    let? _ := digest_component (generation_key r) in
    compilation_validate (compilation r) ;;?
    validate_cas (derived_input_manifest r) ;;?
    match parent_generation r with Some parent => validate_cas parent | None => Ok tt end.

Record FactRecord : Type := mkFactRecord {
  fact_key : string;
  domain_uri : CapabilityUri;
  payload : CasObject
}.
#[export] Instance FactRecord_eq_dec : EqDecision FactRecord.
Proof. solve_decision. Defined.

(** [FactRecord::validate]. *)
Definition fact_validate (f : FactRecord) : Res unit :=
  if negb (safe_fact_key (fact_key f)) then invalid "fact key is invalid"
  else validate_cas (payload f).

Record FactShard : Type := mkFactShard { fs_sequence : N; facts : list FactRecord }.
Record AnalysisAttemptComplete : Type := mkAttemptComplete {
  scope_digest : string;
  completeness_receipt : CasObject;
  fact_count : N
}.
Inductive AnalysisEvent : Type :=
| EvFactShard (shard : FactShard)
| EvAttemptComplete (complete : AnalysisAttemptComplete).

Definition validate_build_model (id : string) (model : BuildModel) : Res unit :=
  if str_neqb (bm_provider_id model) id
  then protocol "provider returned a model with another identity"
  else
    validate_cas (bm_model model) ;;?
    if (match compilations model with [] => true | _ => false end) || (65536 <? vlen (compilations model))
    then protocol "provider returned an invalid compilation set"
    else
      let? _ := try_fold (fun ids c =>
        compilation_validate c ;;?
        if bset_contains (compilation_id c) ids
        then protocol "provider returned duplicate compilation ids"
        else Ok (bset_insert (compilation_id c) ids)) [] (compilations model) in
      Ok tt.

(** The handshake validators canonicalize the handshake they are given. *)
Definition validate_provider_handshake (h : ProviderHandshake) : Res ProviderHandshake :=
  if str_neqb (ph_protocol h) PROVIDER_PROTOCOL || negb (safe_id (provider_id h))
     || is_err (digest_component (provider_digest h))
     || (match build_system_uris h with [] => true | _ => false end)
  then protocol "build-model provider handshake is invalid"
  else
    let h' := {| ph_protocol := ph_protocol h; provider_id := provider_id h;
                 provider_digest := provider_digest h;
                 build_system_uris := dedup (sort (build_system_uris h)) |} in
    try_for_each (fun uri => validate_uri uri "build system URI") (build_system_uris h') ;;?
    Ok h'.

Definition bad_version (version : string) : bool :=
  str_is_empty version || (128 <? str_len version) || str_any uri_bad_byte version.

(** The body of the loop over the bounds of a toolchain range. *)
Definition check_version (version : option string) : Res unit :=
  match version with
  | Some v => if bad_version v then protocol "language adapter toolchain range is invalid" else Ok tt
  | None => Ok tt
  end.

Definition validate_adapter_handshake (h : AdapterHandshake) : Res AdapterHandshake :=
  if str_neqb (ah_protocol h) ADAPTER_PROTOCOL || negb (safe_id (adapter_id h))
     || is_err (digest_component (adapter_digest h))
     || (match languages h with [] => true | _ => false end)
     || (match capabilities h with [] => true | _ => false end)
     || (match toolchains h with [] => true | _ => false end)
  then protocol "language adapter handshake is invalid"
  else
    let h' := {| ah_protocol := ah_protocol h; adapter_id := adapter_id h;
                 adapter_digest := adapter_digest h;
                 languages := dedup (sort (languages h));
                 capabilities := dedup (sort (capabilities h)); toolchains := toolchains h |} in
    let? _ := try_fold (fun seen constraint =>
      let? _ := digest_component (authority_digest constraint) in
      try_for_each check_version [minimum_version constraint; maximum_version_exclusive constraint] ;;?
      if bset_contains (authority_digest constraint) seen
      then protocol "language adapter toolchain authority is duplicated"
      else Ok (bset_insert (authority_digest constraint) seen)) [] (toolchains h') in
    Ok h'.

(* --------------------------------------------------------------------- *)
(** ** What admission means *)

Lemma adapter_digest_component_ok value c :
  digest_component value = Ok c <-> digest_by_prefix value = Some c.
Proof.
  unfold digest_component, digest_by_prefix.
  destruct (strip_prefix "sha256:" value) as [s|]; cbn; [|done].
  destruct (str_len s =? 64), (str_all lower_hex_byte s); cbn; naive_solver.
Qed.

(** [value] is the spelling of a SHA-256 digest. *)
Definition is_digest (value : string) : Prop := digest_by_slice value = true.

Lemma digest_component_is_digest value :
  (exists c, digest_component value = Ok c) <-> is_digest value.
Proof.
  unfold is_digest. rewrite digest_spellings_agree. by setoid_rewrite adapter_digest_component_ok.
Qed.

Lemma digest_component_is_err value : is_err (digest_component value) = false <-> is_digest value.
Proof.
  rewrite <- digest_component_is_digest. unfold is_err.
  destruct (digest_component value) as [c|]; cbn; [|naive_solver]. split; [by exists c|done].
Qed.

(** A reference an adapter may name. *)
Record cas_reference_ok (o : CasObject) : Prop := mkCasReferenceOk {
  reference_schema : schema o = CAS_OBJECT_SCHEMA;
  reference_object_schema : object_schema o <> "";
  reference_digest : is_digest (digest o)
}.

Lemma validate_cas_ok o : validate_cas o = Ok tt <-> cas_reference_ok o.
Proof.
  unfold validate_cas. destruct (_ || _) eqn:E.
  - split; [done|]. intros [Hs Ho _]. apply orb_true_iff in E as [E|E].
    + unfold str_neqb in E. by rewrite Hs, String.eqb_refl in E.
    + by apply str_is_empty_false in Ho; congruence.
  - bool_split. apply str_neqb_false in H. apply str_is_empty_false in H0.
    rewrite result_bind_ok. split.
    + intros (c & Hc & _). split; [done..|]. apply digest_component_is_digest. by exists c.
    + intros [_ _ Hd]. apply digest_component_is_digest in Hd as (c & Hc). by exists c.
Qed.

(** The loops of this file share one shape: guards, then an insertion. *)
Ltac unique_loop key P :=
  rewrite (try_fold_unique_ok key P);
  [|intros s a s'; unfold invalid, protocol;
    rewrite ?seq_ok, ?guard_ok, ?seq_ok, ?ignore_ok, ?seq_ok, ?guard_ok, ?orb_false_iff, ?negb_false_iff, ?bset_contains_false].

(** Regroups the guards of a loop body as the element's predicate. *)
Ltac unique_step :=
  split; [intros Hg; destruct_and? Hg; simplify_eq|intros ([] & ? & ->)];
  split_and!; done || by constructor.

Lemma validate_unique_cas_ok objects label :
  validate_unique_cas objects label = Ok tt <->
  vlen objects <= 65536 /\ Forall cas_reference_ok objects /\ NoDup (digest <$> objects).
Proof.
  unfold validate_unique_cas. unfold invalid at 1. rewrite guard_ok, N.ltb_ge, ignore_ok.
  unique_loop digest cas_reference_ok; [naive_solver|]. rewrite validate_cas_ok. naive_solver.
Qed.

Record source_root_ok (r : SourceRootDescriptor) : Prop := mkSourceRootOk {
  root_name : safe_id (logical_name r) = true;
  root_tree : cas_reference_ok (tree r)
}.
Record operation_ok (o : OperationDescriptor) : Prop := mkOperationOk {
  operation_bound : vlen (arguments o) <= 1024;
  operation_arguments : Forall (fun a => unsafe_argument a = false) (arguments o)
}.

Record compilation_admissible (c : CompilationDescriptor) : Prop := mkAdmissible {
  admissible_schema : cd_schema c = COMPILATION_SCHEMA;
  admissible_id : safe_id (compilation_id c) = true;
  admissible_toolchain : cas_reference_ok (toolchain c);
  admissible_options : cas_reference_ok (canonical_options c);
  admissible_has_root : source_roots c <> [];
  admissible_root_bound : vlen (source_roots c) <= 4096;
  admissible_roots : Forall source_root_ok (source_roots c ++ generated_source_roots c);
  admissible_root_names : NoDup (logical_name <$> source_roots c ++ generated_source_roots c);
  admissible_classpath :
    vlen (classpath c) <= 65536 /\ Forall cas_reference_ok (classpath c)
    /\ NoDup (digest <$> classpath c);
  admissible_plugins :
    vlen (plugins c) <= 65536 /\ Forall cas_reference_ok (plugins c)
    /\ NoDup (digest <$> plugins c);
  admissible_dependencies :
    Forall (fun d => safe_id d = true /\ d <> compilation_id c) (dependency_compilation_ids c);
  admissible_dependency_set : NoDup (dependency_compilation_ids c);
  admissible_operations : Forall operation_ok (operations c);
  admissible_operation_set : NoDup (operation_uri <$> operations c)
}.

Lemma compilation_admissible_iff c :
  compilation_validate c = Ok tt <-> compilation_admissible c.
Proof.
  unfold compilation_validate, invalid.
  rewrite guard_ok, !seq_ok, guard_ok, ignore_ok, !seq_ok, !ignore_ok, !validate_cas_ok,
    !validate_unique_cas_ok, !orb_false_iff, negb_false_iff, str_neqb_false, empty_match, N.ltb_ge.
  unique_loop logical_name source_root_ok.
  2: { rewrite validate_cas_ok. unique_step. }
  unique_loop (fun d : string => d) (fun d => safe_id d = true /\ d <> compilation_id c).
  2: { rewrite str_eqb_false. unique_step. }
  unique_loop operation_uri operation_ok.
  2: { rewrite N.ltb_ge, existsb_false. unique_step. }
  rewrite list_fmap_id. split; [|by intros []]. intros Hc. destruct_and! Hc. by constructor.
Qed.

(** Admission of a compilation descriptor accepts exactly the descriptors
    with the current schema and a safe id, valid CAS references everywhere, a
    non-empty bounded set of source roots whose names are unique across source
    and generated roots, duplicate-free classpath and plugins, dependencies that
    are safe, unique and not the compilation itself, and unique operations whose
    arguments are bounded, relative and free of parent components. *)
Theorem compilation_validate_spec c :
  compilation_validate c = Ok tt <-> compilation_admissible c.
Proof. apply compilation_admissible_iff. Qed.

Record build_model_ok (id : string) (model : BuildModel) : Prop := mkBuildModelOk {
  model_identity : bm_provider_id model = id;
  model_reference : cas_reference_ok (bm_model model);
  model_nonempty : compilations model <> [];
  model_bound : vlen (compilations model) <= 65536;
  model_compilations : Forall (fun c => compilation_validate c = Ok tt) (compilations model);
  model_ids : NoDup (compilation_id <$> compilations model)
}.

Lemma validate_build_model_ok id model :
  validate_build_model id model = Ok tt <-> build_model_ok id model.
Proof.
  unfold validate_build_model, protocol.
  rewrite guard_ok, seq_ok, guard_ok, ignore_ok, orb_false_iff, str_neqb_false, validate_cas_ok,
    empty_match, N.ltb_ge.
  unique_loop compilation_id (fun c => compilation_validate c = Ok tt); [|naive_solver].
  split; [|by intros []]. intros Hm. destruct_and! Hm. by constructor.
Qed.

(** What a canonicalized handshake guarantees to the registry. *)
Record adapter_handshake_ok (h : AdapterHandshake) : Prop := mkAdapterHandshakeOk {
  handshake_protocol : ah_protocol h = ADAPTER_PROTOCOL;
  handshake_id : safe_id (adapter_id h) = true;
  handshake_digest : is_digest (adapter_digest h);
  handshake_languages : languages h <> [] /\ bset_wf (languages h);
  handshake_capabilities : capabilities h <> [] /\ bset_wf (capabilities h);
  handshake_toolchains : toolchains h <> [] /\ NoDup (authority_digest <$> toolchains h);
  handshake_authorities : Forall (fun t => is_digest (authority_digest t)) (toolchains h)
}.

Lemma validate_adapter_handshake_ok h h' :
  validate_adapter_handshake h = Ok h' ->
  adapter_handshake_ok h' /\ adapter_id h' = adapter_id h /\ toolchains h' = toolchains h /\
  (forall l, l ∈ languages h' <-> l ∈ languages h) /\
  (forall c, c ∈ capabilities h' <-> c ∈ capabilities h).
Proof.
  unfold validate_adapter_handshake, protocol.
  rewrite guard_ok, ignore_ok, !orb_false_iff, negb_false_iff, str_neqb_false, digest_component_is_err,
    !empty_match.
  unique_loop authority_digest (fun t => is_digest (authority_digest t) /\
    Forall (fun v => check_version v = Ok tt) [minimum_version t; maximum_version_exclusive t]).
  2: { rewrite <- try_for_each_ok, <- digest_component_is_digest.
       destruct (try_for_each _ _) as [[]|]; naive_solver. }
  cbn [toolchains]. intros ((((((Hp & Hi) & Hd) & Hl) & Hc) & Ht) & (Ho & Hn) & [= <-]).
  split_and!; [|done|done|intros; apply sort_dedup_elem..].
  constructor; cbn; try done; try (split; [by apply sort_dedup_nonempty|apply sort_dedup_wf]).
  eapply list.Forall_impl; [done|]. by intros t [Hk _].
Qed.

Record provider_handshake_ok (h : ProviderHandshake) : Prop := mkProviderHandshakeOk {
  provider_protocol : ph_protocol h = PROVIDER_PROTOCOL;
  provider_id_ok : safe_id (provider_id h) = true;
  provider_digest_ok : is_digest (provider_digest h);
  provider_uris : build_system_uris h <> [] /\ bset_wf (build_system_uris h);
  provider_uris_ok : Forall (fun u => validate_uri u "build system URI" = Ok tt) (build_system_uris h)
}.

Lemma validate_provider_handshake_ok h h' :
  validate_provider_handshake h = Ok h' ->
  provider_handshake_ok h' /\ provider_id h' = provider_id h /\
  (forall u, u ∈ build_system_uris h' <-> u ∈ build_system_uris h).
Proof.
  unfold validate_provider_handshake, protocol.
  rewrite guard_ok, seq_ok, !orb_false_iff, negb_false_iff, str_neqb_false, digest_component_is_err,
    !empty_match, try_for_each_ok.
  intros ((((Hp & Hi) & Hd) & Hu) & Ho & [= <-]).
  split_and!; [|done|intros; apply sort_dedup_elem].
  constructor; cbn; try done. split; [by apply sort_dedup_nonempty|apply sort_dedup_wf].
Qed.
