(* ===== verification/AnalysisStream.v ===== *)
(** * Registry and fact stream protocol (adapter_v2.rs)

    The registry of build-model providers and language adapters, and the sink
    that checks an adapter's fact stream before it reaches the store.  A language
    adapter is foreign code that emits events to a sink and sees the sink's
    answers: it is a tree of emissions whose continuation depends on the answer,
    so the theorems hold for adapters that ignore refusals or read the
    cancellation flag at any point.  A downstream sink is any state with an
    [accept] operation.  The parallel collection of provider results is a
    parameter with the documented law of rayon's [collect]. *)

From S2P Require Import Prelude Order Collections Text Json Canonical Errors CasObject AdapterV2.

(* --------------------------------------------------------------------- *)
(** ** Adapters and sinks *)

(** One run of [LanguageAdapter::analyze_generation] against [&mut dyn AnalysisSink]. *)
Inductive AdapterRun : Type :=
| RunReturn (r : Res unit)
| RunEmit (event : AnalysisEvent) (k : Res unit -> AdapterRun).

Section Run.
Context {S : Type} (accept : S -> AnalysisEvent -> S * Res unit).

Fixpoint run_adapter (sink : S) (p : AdapterRun) : S * Res unit :=
  match p with
  | RunReturn r => (sink, r)
  | RunEmit event k => let '(sink', answer) := accept sink event in run_adapter sink' (k answer)
  end.
End Run.

Record ConformanceSink : Type := mkConformanceSink {
  next_sequence : N;
  cs_fact_count : N;
  last_fact_key : option string;
  allowed_capabilities : option (BTreeSet CapabilityUri);
  complete : option AnalysisAttemptComplete
}.

Definition ConformanceSink_default : ConformanceSink :=
  {| next_sequence := 0; cs_fact_count := 0; last_fact_key := None;
     allowed_capabilities := None; complete := None |}.

Definition for_capabilities (capabilities : list CapabilityUri) : ConformanceSink :=
  {| next_sequence := 0; cs_fact_count := 0; last_fact_key := None;
     allowed_capabilities := Some (bset_of_list capabilities); complete := None |}.

Definition finish (s : ConformanceSink) : Res AnalysisAttemptComplete :=
  let? done := ok_or (complete s) (ClewError_new WorkerProtocolMismatch
                  "adapter stream ended without AnalysisAttemptComplete") in
  if negb (fact_count done =? cs_fact_count s)
  then Err (ClewError_new WorkerProtocolMismatch
              "adapter completion fact count differs from streamed facts")
  else Ok done.

(** The loop over the facts of a shard: [last_fact_key] keeps what was written
    before a refusal. *)
Fixpoint accept_facts (allowed : option (BTreeSet CapabilityUri)) (last : option string)
    (facts : list FactRecord) : option string * Res unit :=
  match facts with
  | [] => (last, Ok tt)
  | fact :: rest =>
      if negb (safe_fact_key (fact_key fact))
         || (match last with Some value => geb value (fact_key fact) | None => false end)
      then (last, protocol "adapter facts are not strictly sorted")
      else if (match allowed with Some a => negb (bset_contains (domain_uri fact) a) | None => false end)
      then (last, protocol "adapter emitted a fact outside its declared capabilities")
      else match validate_cas (payload fact) with
           | Err e => (last, Err e)
           | Ok _ => accept_facts allowed (Some (fact_key fact)) rest
           end
  end.

(** [ConformanceSink::accept]. *)
Definition conformance_accept (s : ConformanceSink) (event : AnalysisEvent) : ConformanceSink * Res unit :=
  match complete s with
  | Some _ => (s, Err (ClewError_new WorkerProtocolMismatch
                         "adapter emitted data after AnalysisAttemptComplete"))
  | None =>
      match event with
      | EvFactShard shard =>
          if negb (fs_sequence shard =? next_sequence s)
             || (match facts shard with [] => true | _ => false end)
          then (s, protocol "adapter shard sequence or size is invalid")
          else
            let '(last, r) := accept_facts (allowed_capabilities s) (last_fact_key s) (facts shard) in
            match r with
            | Err e =>
                ({| next_sequence := next_sequence s; cs_fact_count := cs_fact_count s;
                    last_fact_key := last; allowed_capabilities := allowed_capabilities s;
                    complete := complete s |}, Err e)
            | Ok _ =>
                ({| next_sequence := u32_wrapping_add (next_sequence s) 1;
                    cs_fact_count := u64_wrapping_add (cs_fact_count s) (vlen (facts shard));
                    last_fact_key := last; allowed_capabilities := allowed_capabilities s;
                    complete := complete s |}, Ok tt)
            end
      | EvAttemptComplete done =>
          match digest_component (scope_digest done) with
          | Err e => (s, Err e)
          | Ok _ =>
              match validate_cas (completeness_receipt done) with
              | Err e => (s, Err e)
              | Ok _ =>
                  ({| next_sequence := next_sequence s; cs_fact_count := cs_fact_count s;
                      last_fact_key := last_fact_key s;
                      allowed_capabilities := allowed_capabilities s;
                      complete := Some done |}, Ok tt)
              end
          end
      end
  end.

(** [DiscardAnalysisSink]. *)
Definition discard_accept (s : unit) (event : AnalysisEvent) : unit * Res unit := (s, Ok tt).

Section Forwarding.
Context {D : Type} (downstream : D -> AnalysisEvent -> D * Res unit).

(** [ForwardingAnalysisSink::accept]: an event the protocol refuses is not forwarded. *)
Definition forwarding_accept (s : ConformanceSink * D) (event : AnalysisEvent)
  : (ConformanceSink * D) * Res unit :=
  let '(c, r) := conformance_accept s.1 event in
  match r with
  | Err e => ((c, s.2), Err e)
  | Ok _ => let '(d, r') := downstream s.2 event in ((c, d), r')
  end.

(** The downstream state after it has been handed the given events. *)
Definition deliver (d : D) (events : list AnalysisEvent) : D :=
  foldl (fun d e => (downstream d e).1) d events.
End Forwarding.

(* --------------------------------------------------------------------- *)
(** ** The registry *)

(** [trait BuildModelProvider] and [trait LanguageAdapter]. *)
Record BuildModelProvider : Type := mkProvider {
  provider_handshake : Res ProviderHandshake;
  provider_probe : ProbeRequest -> Res ProbeDecision;
  provider_extract_model : ModelRequest -> Res BuildModel
}.
Record LanguageAdapter : Type := mkAdapter {
  adapter_handshake : Res AdapterHandshake;
  adapter_analyze_generation : AnalyzeGenerationRequest -> AdapterRun
}.
Record RegisteredProvider : Type := mkRegisteredProvider {
  rp_handshake : ProviderHandshake;
  rp_provider : BuildModelProvider
}.
Record RegisteredAdapter : Type := mkRegisteredAdapter {
  ra_handshake : AdapterHandshake;
  ra_adapter : LanguageAdapter
}.
Record AdapterRegistry : Type := mkRegistry {
  providers : BTreeMap string RegisteredProvider;
  adapters : BTreeMap string RegisteredAdapter
}.
Definition AdapterRegistry_default : AdapterRegistry := {| providers := []; adapters := [] |}.

Definition register_provider (r : AdapterRegistry) (p : BuildModelProvider) : Res AdapterRegistry :=
  let? h := provider_handshake p in
  let? h := validate_provider_handshake h in
  if bmap_contains_key (provider_id h) (providers r)
  then invalid "build-model provider id is already registered"
  else Ok {| providers := bmap_insert (provider_id h)
               {| rp_handshake := h; rp_provider := p |} (providers r);
             adapters := adapters r |}.

Definition register_adapter (r : AdapterRegistry) (a : LanguageAdapter) : Res AdapterRegistry :=
  let? h := adapter_handshake a in
  let? h := validate_adapter_handshake h in
  if bmap_contains_key (adapter_id h) (adapters r)
  then invalid "language adapter id is already registered"
  else Ok {| providers := providers r;
             adapters := bmap_insert (adapter_id h)
               {| ra_handshake := h; ra_adapter := a |} (adapters r) |}.

Definition registry_provider (r : AdapterRegistry) (id : string) : Res BuildModelProvider :=
  ok_or (option_map rp_provider (bmap_get id (providers r)))
    (ClewError_new UnsupportedProjectConfiguration "build-model provider is not registered").

Definition extract_model (r : AdapterRegistry) (id : string) (request : ModelRequest) : Res BuildModel :=
  validate_cas (mr_repository_snapshot request) ;;?
  let? p := registry_provider r id in
  let? model := provider_extract_model p request in
  validate_build_model id model ;;?
  Ok model.

(** The filter of [select_registered]. *)
Definition adapter_matches (language : LanguageUri) (capability : CapabilityUri) (toolchain : string)
    (a : RegisteredAdapter) : bool :=
  existsb (str_eqb language) (languages (ra_handshake a))
  && existsb (str_eqb capability) (capabilities (ra_handshake a))
  && existsb (fun t => str_eqb (authority_digest t) toolchain) (toolchains (ra_handshake a)).

Definition select_registered (r : AdapterRegistry) (language : LanguageUri)
    (capability : CapabilityUri) (toolchain : string) : Res RegisteredAdapter :=
  let? _ := digest_component toolchain in
  match List.filter (adapter_matches language capability toolchain) (bmap_values (adapters r)) with
  | [registered] => Ok registered
  | [] => Err (ClewError_new UnsupportedLanguage
                 "no language adapter satisfies the language, capability, and toolchain authority")
  | _ => invalid "multiple language adapters satisfy one exact authority"
  end.

Definition select_adapter (r : AdapterRegistry) (language : LanguageUri)
    (capability : CapabilityUri) (toolchain : string) : Res LanguageAdapter :=
  let? _ := digest_component toolchain in
  let? registered := select_registered r language capability toolchain in
  Ok (ra_adapter registered).

Section Analyze.
Context {D : Type} (downstream : D -> AnalysisEvent -> D * Res unit).

(** [analyze_generation_into]: the sink's state and the result. *)
Definition analyze_generation_into (r : AdapterRegistry) (request : AnalyzeGenerationRequest) (d : D)
  : D * Res AnalysisAttemptComplete :=
  match request_validate request with
  | Err e => (d, Err e)
  | Ok _ =>
      match select_registered r (language_uri (compilation request)) (capability request)
              (digest (toolchain (compilation request))) with
      | Err e => (d, Err e)
      | Ok registered =>
          let conformance := for_capabilities (capabilities (ra_handshake registered)) in
          let '((c, d'), answer) :=
            run_adapter (forwarding_accept downstream) (conformance, d)
              (adapter_analyze_generation (ra_adapter registered) request) in
          match answer with
          | Err e => (d', Err e)
          | Ok _ => (d', finish c)
          end
      end
  end.
End Analyze.

(** [analyze_generation]: the events are checked and dropped. *)
Definition analyze_generation (r : AdapterRegistry) (request : AnalyzeGenerationRequest)
  : Res AnalysisAttemptComplete :=
  (analyze_generation_into discard_accept r request tt).2.

(** What one provider task of [extract_supported_models_sealed] observes.  Tasks
    run in parallel against a shared store, so each task has observations of its
    own. *)
Record Observation : Type := mkObservation {
  seen_before : Res (list byte);
  seen_probe : Res ProbeDecision;
  seen_model : Res BuildModel;
  seen_after : Res (list byte)
}.

Definition mutated {A} : Res A :=
  Err (ClewError_new InputMutated
         "repository snapshot authority changed during provider execution").

(** The closure mapped over the registrations. *)
Definition provider_task (h : ProviderHandshake) (o : Observation) : Res (option ProviderModel) :=
  let? before := seen_before o in
  let? probe := seen_probe o in
  let? model :=
    match probe with
    | Unsupported => Ok None
    | Supported =>
        let? m := seen_model o in
        validate_build_model (provider_id h) m ;;?
        Ok (Some {| pm_handshake := h; build_model := m |})
    end in
  let? after := match seen_after o with Ok a => Ok a | Err _ => mutated end in
  if decide (before = after) then Ok model else mutated.

(** rayon's [collect::<Result<Vec<_>, _>>]: every item's value in order, or the
    error of one of the items that failed. *)
Class ParCollect : Type := par_collect : forall {A}, list (Res A) -> Res (list A).
Class ParCollectLaws (C : ParCollect) : Prop := {
  par_collect_ok : forall A (l : list (Res A)) vs, Forall2 (fun r v => r = Ok v) l vs -> par_collect l = Ok vs;
  par_collect_err : forall A (l : list (Res A)), Exists (fun r => is_err r = true) l ->
    exists e, par_collect l = Err e /\ Err e ∈ l
}.

Section Extract.
Context {C : ParCollect}.

Definition extract_supported_models_sealed (r : AdapterRegistry) (repository_snapshot : CasObject)
    (observe : ProviderHandshake -> Observation) : Res (list ProviderModel) :=
  validate_cas repository_snapshot ;;?
  let registrations := rp_handshake <$> bmap_values (providers r) in
  let? results := par_collect ((fun h => provider_task h (observe h)) <$> registrations) in
  let models := sort_by (cmp_on (fun m => provider_id (pm_handshake m))) (omap id results) in
  match models with
  | [] => Err (ClewError_new UnsupportedProjectConfiguration
                 "no build-model provider supports the sealed repository snapshot")
  | _ => Ok models
  end.
End Extract.

(* --------------------------------------------------------------------- *)
(** ** What a conforming stream is *)

Record fact_ok (allowed : list CapabilityUri) (f : FactRecord) : Prop := mkFactOk {
  fact_key_ok : safe_fact_key (fact_key f) = true;
  fact_declared : domain_uri f ∈ allowed;
  fact_payload : cas_reference_ok (payload f)
}.

Definition all_facts (shards : list FactShard) : list FactRecord := shards ≫= facts.

Record shards_conform (allowed : list CapabilityUri) (shards : list FactShard) : Prop := mkShardsConform {
  shards_sequence : forall i s, shards !! i = Some s -> fs_sequence s = N.of_nat i mod 2 ^ 32;
  shards_nonempty : Forall (fun s => facts s <> []) shards;
  shards_sorted : StronglySorted lt_ord (fact_key <$> all_facts shards);
  shards_facts : Forall (fact_ok allowed) (all_facts shards)
}.

Record completion_ok (c : AnalysisAttemptComplete) : Prop := mkCompletionOk {
  completion_scope : is_digest (scope_digest c);
  completion_receipt : cas_reference_ok (completeness_receipt c)
}.

(** What may have been handed downstream before the stream ended. *)
Inductive stream_prefix (allowed : list CapabilityUri) : list AnalysisEvent -> Prop :=
| prefix_shards shards :
    shards_conform allowed shards -> stream_prefix allowed (EvFactShard <$> shards)
| prefix_complete shards c :
    shards_conform allowed shards -> completion_ok c ->
    stream_prefix allowed ((EvFactShard <$> shards) ++ [EvAttemptComplete c]).

(** A whole stream with the completion it ends in. *)
Definition stream_conforms (allowed : list CapabilityUri) (events : list AnalysisEvent)
    (c : AnalysisAttemptComplete) : Prop :=
  exists shards, events = (EvFactShard <$> shards) ++ [EvAttemptComplete c] /\
    shards_conform allowed shards /\ completion_ok c /\
    fact_count c = vlen (all_facts shards) mod 2 ^ 64.

(* --------------------------------------------------------------------- *)
(** ** One accepted event *)

(** [k] is at most the last accepted key. *)
Definition covers (last : option string) (k : string) : Prop :=
  exists v, last = Some v /\ ~ lt_ord v k.

Lemma covers_lt last k k' :
  (match last with Some value => geb value k' | None => false end) = false -> covers last k -> lt_ord k k'.
Proof.
  intros Hg (v & -> & Hv). apply geb_false in Hg. destruct (nlt_cases _ _ Hv) as [->|]; [done|].
  by eapply lt_trans.
Qed.

Lemma covers_step last k k' :
  (match last with Some value => geb value k' | None => false end) = false ->
  covers last k -> covers (Some k') k.
Proof. intros Hg Hc. exists k'. split; [done|]. apply lt_asym. by eapply covers_lt. Qed.

Lemma covers_self k : covers (Some k) k.
Proof. exists k. split; [done|apply lt_irrefl]. Qed.

Lemma accept_facts_spec allowed fs : forall last last' r,
  accept_facts (Some allowed) last fs = (last', r) ->
  (forall k, covers last k -> covers last' k) /\
  (is_ok r = true ->
     StronglySorted lt_ord (fact_key <$> fs) /\ Forall (fact_ok allowed) fs /\
     Forall (fun f => covers last' (fact_key f)) fs /\
     (forall k f, covers last k -> f ∈ fs -> lt_ord k (fact_key f))).
Proof.
  induction fs as [|f fs IH]; intros last last' r; cbn [accept_facts].
  - intros [= <- <-]. split; [done|]. intros _. split_and!; try constructor. intros k f _ []%elem_of_nil.
  - destruct (_ || _) eqn:E1; [by intros [= <- <-]|]. bool_split.
    destruct (negb _) eqn:E2; [by intros [= <- <-]|].
    destruct (validate_cas (payload f)) as [[]|] eqn:E3; [|by intros [= <- <-]].
    intros Hr. destruct (IH _ _ _ Hr) as [Hc Ho].
    split; [intros k Hk; by eapply Hc, covers_step|].
    intros Hok. destruct (Ho Hok) as (Hs & Hf & Hl & Hlt). split_and!.
    + rewrite fmap_cons. constructor; [done|]. rewrite Forall_fmap, list.Forall_forall. intros f' Hf'.
      apply Hlt; [apply covers_self|done].
    + constructor; [|done]. bool_split. split; [done| |by apply validate_cas_ok].
      by apply bset_contains_spec.
    + constructor; [apply Hc, covers_self|done].
    + intros k f' Hk [->|Hf']%elem_of_cons; [by eapply covers_lt|].
      eapply Hlt; [|done]. by eapply covers_step.
Qed.

Record sink_inv (allowed : list CapabilityUri) (events : list AnalysisEvent) (s : ConformanceSink)
    (shards : list FactShard) : Prop := mkSinkInv {
  inv_allowed : allowed_capabilities s = Some (bset_of_list allowed);
  inv_conform : shards_conform allowed shards;
  inv_sequence : next_sequence s = vlen shards mod 2 ^ 32;
  inv_count : cs_fact_count s = vlen (all_facts shards) mod 2 ^ 64;
  inv_last : Forall (fun f => covers (last_fact_key s) (fact_key f)) (all_facts shards);
  inv_events :
    match complete s with
    | None => events = EvFactShard <$> shards
    | Some c => events = (EvFactShard <$> shards) ++ [EvAttemptComplete c] /\ completion_ok c
    end
}.

Lemma sink_inv_init allowed : sink_inv allowed [] (for_capabilities allowed) [].
Proof. repeat constructor. done. Qed.

Lemma fact_ok_bset allowed f : fact_ok (bset_of_list allowed) f <-> fact_ok allowed f.
Proof. split; intros []; split; try done; by apply bset_of_list_elem. Qed.

Lemma all_facts_snoc shards shard : all_facts (shards ++ [shard]) = all_facts shards ++ facts shard.
Proof. unfold all_facts. rewrite bind_app. cbn. by rewrite app_nil_r. Qed.

Lemma shards_conform_snoc allowed shards shard :
  shards_conform allowed shards ->
  fs_sequence shard = vlen shards mod 2 ^ 32 -> facts shard <> [] ->
  StronglySorted lt_ord (fact_key <$> facts shard) -> Forall (fact_ok allowed) (facts shard) ->
  (forall f f', f ∈ all_facts shards -> f' ∈ facts shard -> lt_ord (fact_key f) (fact_key f')) ->
  shards_conform allowed (shards ++ [shard]).
Proof.
  intros [Hq Hn Hs Hf] Hseq Hne Hs' Hf' Hlt.
  split; [| |rewrite all_facts_snoc..].
  - intros i s [Hi|[Hi He]]%lookup_app_Some; [by apply Hq|].
    apply list_lookup_singleton_Some in He as [He ->].
    unfold vlen in Hseq. by replace i with (length shards) by lia.
  - apply list.Forall_app. split; [done|by repeat constructor].
  - rewrite fmap_app, StronglySorted_app. split_and!; [done..|].
    intros ? ? (f & -> & ?)%list_elem_of_fmap (f' & -> & ?)%list_elem_of_fmap. by apply Hlt.
  - by apply list.Forall_app.
Qed.

Lemma conformance_step allowed events s shards e s' r :
  sink_inv allowed events s shards -> conformance_accept s e = (s', r) ->
  exists shards', sink_inv allowed (if is_ok r then events ++ [e] else events) s' shards'.
Proof.
  intros [Ha Hc Hq Hn Hl He]. unfold conformance_accept.
  destruct (complete s) as [c|] eqn:Ec.
  { intros [= <- <-]. exists shards. split; try done. by rewrite Ec. }
  destruct e as [shard|done_].
  - destruct (_ || _) eqn:E1; [intros [= <- <-]; exists shards; split; try done; by rewrite Ec|].
    bool_split. destruct (accept_facts _ _ _) as [last r'] eqn:E2.
    rewrite Ha in E2. destruct (accept_facts_spec _ _ _ _ _ E2) as [Hcov Hok].
    destruct r' as [u|err]; intros [= <- <-].
    + destruct (Hok eq_refl) as (Hs & Hf & Hcl & Hlt). exists (shards ++ [shard]).
      rewrite list.Forall_forall in Hl.
      split; cbn [allowed_capabilities next_sequence cs_fact_count last_fact_key complete is_ok].
      * done.
      * apply shards_conform_snoc; try done.
        -- rewrite <- Hq. by apply N.eqb_eq.
        -- by apply empty_match.
        -- eapply list.Forall_impl; [exact Hf|]. intros f Hx. by apply fact_ok_bset.
        -- intros f f' Hf1 Hf2. eapply Hlt; [by apply Hl|done].
      * unfold u32_wrapping_add. rewrite Hq, vlen_app, N.Div0.add_mod_idemp_l. done.
      * unfold u64_wrapping_add. rewrite Hn, all_facts_snoc, vlen_app, N.Div0.add_mod_idemp_l. done.
      * rewrite all_facts_snoc. apply list.Forall_app. split; [|done].
        rewrite list.Forall_forall. intros f Hf'. by apply Hcov, Hl.
      * by rewrite fmap_app, He.
    + exists shards. split; try done. cbn. eapply list.Forall_impl; [done|]. intros f. apply Hcov.
  - destruct (digest_component _) as [d|] eqn:E1.
    2: { intros [= <- <-]. exists shards. split; try done. by rewrite Ec. }
    destruct (validate_cas _) as [[]|] eqn:E2; intros [= <- <-].
    2: { exists shards. split; try done. by rewrite Ec. }
    exists shards. split; try done. cbn. split; [by rewrite He|].
    split; [|by apply validate_cas_ok]. apply digest_component_is_digest. by exists d.
Qed.

(* --------------------------------------------------------------------- *)
(** ** Whole runs *)

Section Soundness.
Context {D : Type} (downstream : D -> AnalysisEvent -> D * Res unit).

Lemma run_forwarded allowed d0 (p : AdapterRun) : forall events shards c d c' d' r,
  sink_inv allowed events c shards -> d = deliver downstream d0 events ->
  run_adapter (forwarding_accept downstream) (c, d) p = ((c', d'), r) ->
  exists events' shards', sink_inv allowed events' c' shards' /\ d' = deliver downstream d0 events'.
Proof.
  induction p as [r0|e k IH]; intros events shards c d c' d' r Hinv Hd; cbn [run_adapter].
  - intros [= <- <- <-]. eauto.
  - unfold forwarding_accept; cbn [fst snd].
    destruct (conformance_accept c e) as [c1 r1] eqn:Hc.
    destruct (conformance_step _ _ _ _ _ _ _ Hinv Hc) as [shards1 Hinv1].
    destruct r1 as [u|err]; cbn [is_ok] in Hinv1; [|by eapply IH].
    destruct (downstream d e) as [d1 r2] eqn:Hd1. eapply IH; [done|].
    unfold deliver. rewrite foldl_app. cbn. fold (deliver downstream d0 events). by rewrite <- Hd, Hd1.
Qed.

Lemma sink_inv_prefix allowed events s shards :
  sink_inv allowed events s shards -> stream_prefix allowed events.
Proof.
  intros [_ Hc _ _ _ He]. destruct (complete s) as [c|].
  - destruct He as [-> Hok]. by constructor.
  - rewrite He. by constructor.
Qed.

Lemma finish_conforms allowed events s shards c :
  sink_inv allowed events s shards -> finish s = Ok c -> stream_conforms allowed events c.
Proof.
  intros [_ Hc _ Hn _ He] Hf. unfold finish in Hf. destruct (complete s) as [c'|]; [|done].
  cbn in Hf. ok_inv Hf. bool_split. destruct He as [He Hok]. exists shards. split_and!; try done.
  apply N.eqb_eq in Hif. congruence.
Qed.

(** C3: whatever the adapter emits and however it reacts to refusals, the
    events handed to the downstream sink are a prefix of a conforming stream of
    the selected adapter's declared capabilities: shards numbered from zero,
    non-empty, with facts that are strictly sorted across the whole stream, have
    safe keys, declared domains and valid payload references, and nothing after
    a completion.  If the analysis succeeds they are a whole conforming stream
    ending in the completion it returns, whose fact count is the number of
    facts delivered (modulo the 64-bit counter). *)
Theorem analyze_generation_into_sound r request d d' result :
  analyze_generation_into downstream r request d = (d', result) ->
  (d' = d /\ is_err result = true) \/
  exists registered events,
    select_registered r (language_uri (compilation request)) (capability request)
      (digest (toolchain (compilation request))) = Ok registered /\
    d' = deliver downstream d events /\
    stream_prefix (capabilities (ra_handshake registered)) events /\
    (forall c, result = Ok c -> stream_conforms (capabilities (ra_handshake registered)) events c).
Proof.
  unfold analyze_generation_into.
  destruct (request_validate request) as [[]|]; [|intros [= <- <-]; by left].
  destruct (select_registered _ _ _ _) as [reg|] eqn:Hs; [|intros [= <- <-]; by left].
  destruct (run_adapter _ _ _) as [[c1 d1] answer] eqn:Hr.
  destruct (run_forwarded _ d _ _ _ _ _ _ _ _ (sink_inv_init _) eq_refl Hr)
    as (events & shards & Hinv & Hd).
  intros H. right. exists reg, events. pose proof (sink_inv_prefix _ _ _ _ Hinv).
  destruct answer as [[]|]; injection H as <- <-; split_and!; try done.
  intros c Hf. by eapply finish_conforms.
Qed.
End Soundness.

(* --------------------------------------------------------------------- *)
(** ** Conforming adapters succeed *)

(** An adapter that emits a stream and returns its first refusal. *)
Fixpoint emit_all (events : list AnalysisEvent) : AdapterRun :=
  match events with
  | [] => RunReturn (Ok tt)
  | e :: rest => RunEmit e (fun answer =>
      match answer with Ok _ => emit_all rest | Err err => RunReturn (Err err) end)
  end.

Lemma accept_facts_complete allowed fs : forall last,
  StronglySorted lt_ord (fact_key <$> fs) -> Forall (fact_ok allowed) fs ->
  (forall k f, last = Some k -> f ∈ fs -> lt_ord k (fact_key f)) ->
  exists last', accept_facts (Some (bset_of_list allowed)) last fs = (last', Ok tt) /\
    (forall k, last' = Some k -> last = Some k \/ k ∈ fact_key <$> fs).
Proof.
  induction fs as [|f fs IH]; intros last Hs Hf Hl; [exists last; naive_solver|]. cbn [accept_facts].
  rewrite fmap_cons in Hs. apply StronglySorted_inv in Hs as [Hs Hlt].
  apply Forall_cons_iff in Hf as [[Hk Hd Hp] Hf].
  rewrite Hk. cbn [negb orb].
  replace (match last with Some value => geb value (fact_key f) | None => false end) with false.
  2: { destruct last as [v|]; [|done]. symmetry. apply geb_false. eapply Hl; [done|left]. }
  replace (bset_contains (domain_uri f) (bset_of_list allowed)) with true.
  2: { symmetry. apply bset_contains_spec. by apply bset_of_list_elem. }
  apply validate_cas_ok in Hp. rewrite Hp. cbn [negb].
  destruct (IH (Some (fact_key f))) as (last' & He & Hk'); [done|done| |].
  - intros k f' [= <-] Hf'. rewrite Forall_fmap, list.Forall_forall in Hlt. by apply Hlt.
  - exists last'. split; [done|]. intros k Hkk. rewrite fmap_cons, elem_of_cons.
    destruct (Hk' k Hkk) as [[= ->]|]; auto.
Qed.

(** The shards still to come fit the state of the sink. *)
Record shards_fit (allowed : list CapabilityUri) (s : ConformanceSink) (n : nat)
    (shards : list FactShard) : Prop := mkShardsFit {
  fit_open : complete s = None;
  fit_allowed : allowed_capabilities s = Some (bset_of_list allowed);
  fit_sequence : next_sequence s = N.of_nat n mod 2 ^ 32;
  fit_shards : forall i sh, shards !! i = Some sh -> fs_sequence sh = N.of_nat (n + i) mod 2 ^ 32;
  fit_nonempty : Forall (fun sh => facts sh <> []) shards;
  fit_sorted : StronglySorted lt_ord (fact_key <$> all_facts shards);
  fit_facts : Forall (fact_ok allowed) (all_facts shards);
  fit_last : forall k f, last_fact_key s = Some k -> f ∈ all_facts shards -> lt_ord k (fact_key f)
}.

Lemma shards_fit_step allowed s n shard shards :
  shards_fit allowed s n (shard :: shards) ->
  exists s', conformance_accept s (EvFactShard shard) = (s', Ok tt) /\
    shards_fit allowed s' (S n) shards /\
    cs_fact_count s' = u64_wrapping_add (cs_fact_count s) (vlen (facts shard)).
Proof.
  intros [Hc Ha Hq Hsh Hn Hs Hf Hl].
  change (all_facts (shard :: shards)) with (facts shard ++ all_facts shards) in *.
  rewrite fmap_app, StronglySorted_app in Hs. destruct Hs as (Hs1 & Hs2 & Hlt).
  apply list.Forall_app in Hf as [Hf1 Hf2]. apply Forall_cons_iff in Hn as [Hn1 Hn2].
  destruct (accept_facts_complete allowed (facts shard) (last_fact_key s)) as (last & He & Hlast).
  { done. } { done. } { intros k f Hk Hin. eapply Hl; [done|]. apply elem_of_app. by left. }
  unfold conformance_accept. rewrite Hc, Ha, He.
  rewrite (Hsh 0%nat shard eq_refl), Nat.add_0_r, Hq, N.eqb_refl. cbn [negb orb].
  apply empty_match in Hn1. rewrite Hn1.
  eexists; split_and!; [done| |done]. split; cbn; try done.
  - unfold u32_wrapping_add. rewrite N.Div0.add_mod_idemp_l. f_equal. lia.
  - intros i sh Hi. rewrite (Hsh (S i) sh) by done. do 2 f_equal. lia.
  - intros k f [Hk|Hk]%Hlast Hin.
    + eapply Hl; [done|]. apply elem_of_app. by right.
    + apply Hlt; [done|]. by apply list_elem_of_fmap_2.
Qed.

Section Completeness.
Context {D : Type} (downstream : D -> AnalysisEvent -> D * Res unit).
Hypothesis downstream_accepts : forall d e, exists d', downstream d e = (d', Ok tt).

Lemma run_emit_step c d e rest c' :
  conformance_accept c e = (c', Ok tt) ->
  run_adapter (forwarding_accept downstream) (c, d) (emit_all (e :: rest)) =
  run_adapter (forwarding_accept downstream) (c', deliver downstream d [e]) (emit_all rest).
Proof.
  intros Hc. cbn [emit_all run_adapter]. unfold forwarding_accept at 1. cbn [fst snd]. rewrite Hc.
  unfold deliver; cbn [foldl]. by destruct (downstream_accepts d e) as [d' ->].
Qed.

Lemma run_emit_shards allowed rest shards : forall s n m d,
  shards_fit allowed s n shards -> cs_fact_count s = m mod 2 ^ 64 ->
  exists s' n', shards_fit allowed s' n' [] /\
    cs_fact_count s' = (m + vlen (all_facts shards)) mod 2 ^ 64 /\
    run_adapter (forwarding_accept downstream) (s, d) (emit_all ((EvFactShard <$> shards) ++ rest)) =
    run_adapter (forwarding_accept downstream)
      (s', deliver downstream d (EvFactShard <$> shards)) (emit_all rest).
Proof.
  induction shards as [|sh shards IH]; intros s n m d Hfit Hm.
  { exists s, n. split_and!; [done| |done]. change (all_facts []) with (@nil FactRecord). by rewrite vlen_nil, N.add_0_r. }
  destruct (shards_fit_step _ _ _ _ _ Hfit) as (s1 & Hacc & Hfit1 & Hcount).
  destruct (IH s1 _ (m + vlen (facts sh)) (deliver downstream d [EvFactShard sh]) Hfit1)
    as (s' & n' & Hf & Hc & Hrun).
  { rewrite Hcount, Hm. apply N.Div0.add_mod_idemp_l. }
  exists s', n'. split_and!; [done| |].
  - change (all_facts (sh :: shards)) with (facts sh ++ all_facts shards).
    rewrite Hc, vlen_app. f_equal. lia.
  - rewrite fmap_cons, <- app_comm_cons, (run_emit_step _ _ _ _ _ Hacc). exact Hrun.
Qed.

Lemma run_emit_conforming allowed events c d :
  stream_conforms allowed events c ->
  exists s', run_adapter (forwarding_accept downstream) (for_capabilities allowed, d) (emit_all events)
      = ((s', deliver downstream d events), Ok tt) /\ finish s' = Ok c.
Proof.
  intros (shards & -> & [Hq Hn Hs Hf] & [Hd Hr] & Hcount).
  destruct (run_emit_shards allowed [EvAttemptComplete c] shards (for_capabilities allowed) 0 0 d)
    as (s & n & [Hopen Ha _ _ _ _ _ _] & Hc & ->); [by split|done|].
  apply digest_component_is_digest in Hd as [dg Hd]. apply validate_cas_ok in Hr.
  eassert (conformance_accept s (EvAttemptComplete c) = (_, Ok tt)) as Hacc.
  { unfold conformance_accept. by rewrite Hopen, Hd, Hr. }
  rewrite (run_emit_step _ _ _ _ _ Hacc). cbn [emit_all run_adapter]. eexists. split.
  - unfold deliver. by rewrite foldl_app.
  - unfold finish. cbn. rewrite Hc, Hcount, N.add_0_l, N.eqb_refl. done.
Qed.

(** An adapter that emits a conforming stream for its declared
    capabilities is never refused: the whole stream reaches the downstream sink
    and the analysis returns the completion it ends in. *)
Theorem analyze_generation_into_complete r request registered events c d :
  request_validate request = Ok tt ->
  select_registered r (language_uri (compilation request)) (capability request)
    (digest (toolchain (compilation request))) = Ok registered ->
  adapter_analyze_generation (ra_adapter registered) request = emit_all events ->
  stream_conforms (capabilities (ra_handshake registered)) events c ->
  analyze_generation_into downstream r request d = (deliver downstream d events, Ok c).
Proof.
  intros Hv Hs Ha Hc. unfold analyze_generation_into. rewrite Hv, Hs, Ha.
  destruct (run_emit_conforming _ _ _ d Hc) as (s' & -> & Hf). by rewrite Hf.
Qed.
End Completeness.

(* --------------------------------------------------------------------- *)
(** ** The registry *)

Record registry_ok (r : AdapterRegistry) : Prop := mkRegistryOk {
  providers_wf : bmap_wf (providers r);
  adapters_wf : bmap_wf (adapters r);
  providers_entry : forall k p, bmap_get k (providers r) = Some p ->
    provider_id (rp_handshake p) = k /\ provider_handshake_ok (rp_handshake p);
  adapters_entry : forall k a, bmap_get k (adapters r) = Some a ->
    adapter_id (ra_handshake a) = k /\ adapter_handshake_ok (ra_handshake a)
}.

Inductive registry_step : AdapterRegistry -> AdapterRegistry -> Prop :=
| step_provider r p r' : register_provider r p = Ok r' -> registry_step r r'
| step_adapter r a r' : register_adapter r a = Ok r' -> registry_step r r'.

Definition registry_reachable : AdapterRegistry -> Prop :=
  rtc registry_step AdapterRegistry_default.

Lemma registry_step_ok r r' : registry_step r r' -> registry_ok r -> registry_ok r'.
Proof.
  intros [r1 p r2 H|r1 a r2 H] [Hpw Haw Hp Ha].
  - unfold register_provider in H. ok_inv H.
    apply validate_provider_handshake_ok in Hok0 as (Hh & _). split; cbn; try done; [by apply bmap_insert_wf|].
    intros k p'. rewrite bmap_get_insert. destruct (cmp k _) eqn:E; [|by apply Hp..].
    apply cmp_eq_iff in E as ->. by intros [= <-].
  - unfold register_adapter in H. ok_inv H.
    apply validate_adapter_handshake_ok in Hok0 as (Hh & _). split; cbn; try done; [by apply bmap_insert_wf|].
    intros k a'. rewrite bmap_get_insert. destruct (cmp k _) eqn:E; [|by apply Ha..].
    apply cmp_eq_iff in E as ->. by intros [= <-].
Qed.

Lemma registry_reachable_ok r : registry_reachable r -> registry_ok r.
Proof.
  intros Hr. unfold registry_reachable in Hr.
  assert (registry_ok AdapterRegistry_default) as H0 by (split; [constructor|constructor|done|done]).
  revert H0. induction Hr as [|? ? ? Hs _ IH]; [done|]. intros. eapply IH, registry_step_ok; eauto.
Qed.

Lemma select_registered_ok r language capability toolchain a :
  registry_ok r ->
  select_registered r language capability toolchain = Ok a <->
  is_digest toolchain /\
  exists id, bmap_get id (adapters r) = Some a /\ adapter_matches language capability toolchain a = true /\
    (forall id' a', bmap_get id' (adapters r) = Some a' ->
       adapter_matches language capability toolchain a' = true -> id' = id).
Proof.
  intros [_ Hw _ _]. unfold select_registered. rewrite ignore_ok, digest_component_is_digest.
  rewrite <- (bmap_values_filter_unique (adapters r)) by done.
  destruct (List.filter _ _) as [|b [|]]; naive_solver.
Qed.

(** In a registry built by registrations from the empty one, selection
    returns an adapter exactly when the toolchain digest is canonical and that
    adapter is the only registered one that declares the language, the
    capability and the toolchain authority; an ambiguous authority never
    selects. *)
Theorem select_registered_unique r language capability toolchain a :
  registry_reachable r ->
  select_registered r language capability toolchain = Ok a <->
  is_digest toolchain /\
  exists id, bmap_get id (adapters r) = Some a /\ adapter_matches language capability toolchain a = true /\
    (forall id' a', bmap_get id' (adapters r) = Some a' ->
       adapter_matches language capability toolchain a' = true -> id' = id).
Proof. intros Hr. by apply select_registered_ok, registry_reachable_ok. Qed.

(** A task that yields a model saw the same snapshot bytes before and after. *)
Record sealed_model (h : ProviderHandshake) (o : Observation) (m : ProviderModel) : Prop := mkSealedModel {
  sealed_snapshot : exists bytes, seen_before o = Ok bytes /\ seen_after o = Ok bytes;
  sealed_probe : seen_probe o = Ok Supported;
  sealed_answer : seen_model o = Ok (build_model m);
  sealed_handshake : pm_handshake m = h;
  sealed_valid : build_model_ok (provider_id h) (build_model m)
}.

Lemma provider_task_some h o m : provider_task h o = Ok (Some m) <-> sealed_model h o m.
Proof.
  unfold provider_task, mutated. split.
  - intros H. destruct (seen_before o) as [b|] eqn:Eb; [|done].
    destruct (seen_probe o) as [[]|] eqn:Ep; cbn in H; [| |done].
    2: { by destruct (seen_after o); cbn in H; [destruct (decide _)|]. }
    destruct (seen_model o) as [bm|] eqn:Em; cbn in H; [|done].
    destruct (validate_build_model _ bm) as [[]|] eqn:Ev; cbn in H; [|done].
    destruct (seen_after o) as [a|] eqn:Ea; cbn in H; [|done].
    destruct (decide (b = a)) as [->|]; [|done]. injection H as <-.
    apply validate_build_model_ok in Ev. split; eauto.
  - intros [(b & -> & ->) -> -> <- Hv]. apply validate_build_model_ok in Hv. cbn. rewrite Hv. cbn.
    destruct (decide (b = b)); [|done]. by destruct m.
Qed.

Section Sealed.
Context {C : ParCollect} {L : ParCollectLaws C}.

Lemma par_collect_inv {A} (l : list (Res A)) vs :
  par_collect l = Ok vs -> Forall2 (fun r v => r = Ok v) l vs.
Proof.
  intros H. destruct (decide (Exists (fun r => is_err r = true) l)) as [He|He].
  - destruct (par_collect_err _ _ He) as (e & He' & _). congruence.
  - rewrite <- List.Forall_Exists_neg in He.
    assert (exists ws, Forall2 (fun r v => r = Ok v) l ws) as [ws Hws].
    { clear H. induction He as [|[a|e] l Ha _ [ws IH]]; [by exists []|exists (a :: ws); by constructor|done]. }
    pose proof (par_collect_ok _ _ _ Hws) as Hp. rewrite H in Hp. by injection Hp as ->.
Qed.

Lemma sealed_models_elem (task : ProviderHandshake -> Res (option ProviderModel)) hs results :
  Forall2 (fun r v => r = Ok v) (task <$> hs) results ->
  (forall m, m ∈ omap id results <-> exists h, h ∈ hs /\ task h = Ok (Some m)) /\
  Forall (fun h => is_ok (task h) = true) hs.
Proof.
  revert results; induction hs as [|h hs IH]; intros results; cbn.
  - inversion 1; subst. split; [set_solver|constructor].
  - inversion 1 as [|? o ? results' Ho Hr]; subst. destruct (IH _ Hr) as [Hm Hf].
    split; [|constructor; [by rewrite Ho|done]].
    intros m. transitivity (o = Some m \/ m ∈ omap id results').
    { destruct o as [m'|]; cbn; [rewrite elem_of_cons|]; naive_solver. }
    rewrite Hm. setoid_rewrite elem_of_cons. split.
    + intros [->|(h' & Hh & Ht)]; eauto.
    + intros (h' & [->|Hh] & Ht); [left; congruence|eauto].
Qed.

Lemma sealed_ids_nodup (task : ProviderHandshake -> Res (option ProviderModel)) hs results :
  (forall h m, task h = Ok (Some m) -> pm_handshake m = h) ->
  Forall2 (fun r v => r = Ok v) (task <$> hs) results -> NoDup (provider_id <$> hs) ->
  NoDup ((fun m => provider_id (pm_handshake m)) <$> omap id results).
Proof.
  intros Hh. revert results; induction hs as [|h hs IH]; intros results Hf Hd.
  - inversion Hf; subst. constructor.
  - rewrite fmap_cons in Hf. inversion Hf as [|? o ? results' Ho Hr]; subst.
    rewrite fmap_cons, list.NoDup_cons in Hd. destruct Hd as [Hn Hd].
    destruct o as [m|]; [|exact (IH _ Hr Hd)]. cbn. constructor; [|exact (IH _ Hr Hd)].
    rewrite (Hh _ _ Ho), list_elem_of_fmap. intros (m' & He & Hm').
    apply (proj1 (sealed_models_elem _ _ _ Hr)) in Hm' as (h' & Hh' & Ht). apply Hn.
    rewrite He, (Hh _ _ Ht). by apply list_elem_of_fmap_2.
Qed.

(** When the sealed extraction succeeds, every registered provider's task
    succeeded, the models are exactly those of the providers that support the
    snapshot, each valid under its provider's identity and computed while the
    snapshot's bytes were the same before and after, and they are in strict
    provider order whatever the schedule of the parallel tasks. *)
Theorem extract_supported_models_sealed_sound r snapshot observe models :
  registry_reachable r ->
  extract_supported_models_sealed r snapshot observe = Ok models ->
  (forall m, m ∈ models <-> exists k p, bmap_get k (providers r) = Some p /\
     sealed_model (rp_handshake p) (observe (rp_handshake p)) m) /\
  (forall k p, bmap_get k (providers r) = Some p ->
     is_ok (provider_task (rp_handshake p) (observe (rp_handshake p))) = true) /\
  models <> [] /\
  StronglySorted lt_ord ((fun m => provider_id (pm_handshake m)) <$> models).
Proof.
  intros Hr%registry_reachable_ok H. destruct Hr as [Hw _ Hp _].
  unfold extract_supported_models_sealed in H. rewrite seq_ok, result_bind_ok in H.
  destruct H as (_ & results & Hc & H). apply par_collect_inv in Hc.
  set (task h := provider_task h (observe h)) in Hc.
  destruct (sealed_models_elem task _ _ Hc) as [Hm Hf].
  assert (forall h, h ∈ rp_handshake <$> bmap_values (providers r) <->
    exists k p, bmap_get k (providers r) = Some p /\ h = rp_handshake p) as Hh.
  { intros h. rewrite list_elem_of_fmap. setoid_rewrite list_elem_of_fmap.
    split; [intros (p & -> & [k p'] & -> & Hin)|intros (k & p & Hin & ->)].
    - exists k, p'. by rewrite bmap_get_elem.
    - apply bmap_get_elem in Hin; [|done]. exists p. split; [done|]. by exists (k, p). }
  assert (models = sort_by (cmp_on (fun m => provider_id (pm_handshake m))) (omap id results)) as Hs.
  { by destruct (sort_by _ _); [|injection H]. }
  rewrite list.Forall_forall in Hf. split_and!.
  - intros m. rewrite Hs, sort_by_perm, Hm. setoid_rewrite Hh. unfold task.
    setoid_rewrite provider_task_some. naive_solver.
  - intros k p Hk. apply Hf, Hh. eauto.
  - destruct (sort_by _ _); [done|by injection H as <-].
  - rewrite Hs, StronglySorted_fmap. apply sort_by_strict. eapply sealed_ids_nodup; [|done|].
    + intros h m Ht%provider_task_some. apply Ht.
    + assert (provider_id <$> (rp_handshake <$> bmap_values (providers r)) = (providers r).*1) as ->.
      { unfold bmap_values. rewrite <- !list_fmap_compose. apply list_fmap_ext.
        intros i [k p] Hi. cbn. apply list_elem_of_lookup_2 in Hi. apply bmap_get_elem in Hi; [|done].
        by apply Hp. }
      by apply bset_wf_NoDup.
Qed.
End Sealed.

(* --------------------------------------------------------------------- *)
(** ** A registry with one provider and one adapter *)

Module StreamExample.

Definition sample_digest (c : ascii) : string :=
  "sha256:" +:+ String.string_of_list_ascii (replicate 64 c).
Definition sample_object (s : string) (c : ascii) : CasObject :=
  {| schema := CAS_OBJECT_SCHEMA; object_schema := s; digest := sample_digest c; size := 1 |}.

Definition zeta_compilation : CompilationDescriptor :=
  {| cd_schema := COMPILATION_SCHEMA; compilation_id := "zeta-main"; language_uri := "language:zeta";
     source_roots := [mkSourceRoot "main" (sample_object "tree/1" "1")];
     generated_source_roots := []; classpath := []; toolchain := sample_object "toolchain/1" "2";
     plugins := []; canonical_options := sample_object "options/1" "3";
     dependency_compilation_ids := [];
     operations := [mkOperation "operation:test" ["zetaTest"]];
     origin := ProjectNative; completeness := Complete |}.

Definition zeta_model : BuildModel :=
  {| bm_provider_id := "fake-build"; bm_model := sample_object "model/1" "b";
     compilations := [zeta_compilation] |}.
Definition zeta_provider : BuildModelProvider :=
  {| provider_handshake := Ok (mkProviderHandshake PROVIDER_PROTOCOL "fake-build" (sample_digest "a")
                                 ["build:fake"]);
     provider_probe := fun _ => Ok Supported;
     provider_extract_model := fun _ => Ok zeta_model |}.

Definition zeta_fact (k : string) : FactRecord := mkFactRecord k "analysis:facts" (sample_object "fact/1" "4").
Definition zeta_shards : list FactShard :=
  [mkFactShard 0 [zeta_fact "a"; zeta_fact "b"]; mkFactShard 1 [zeta_fact "c"]].
Definition zeta_completion : AnalysisAttemptComplete :=
  mkAttemptComplete (sample_digest "5") (sample_object "receipt/1" "6") 3.
Definition zeta_events : list AnalysisEvent :=
  (EvFactShard <$> zeta_shards) ++ [EvAttemptComplete zeta_completion].

(** It also emits a stale shard that is refused, and goes on. *)
Definition zeta_adapter (run : AdapterRun) : LanguageAdapter :=
  {| adapter_handshake := Ok (mkAdapterHandshake ADAPTER_PROTOCOL "fake-zeta" (sample_digest "c")
       ["language:zeta"] ["analysis:facts"] [mkToolchainConstraint (sample_digest "2") None None]);
     adapter_analyze_generation := fun _ => run |}.
Definition stubborn : AdapterRun :=
  RunEmit (EvFactShard (mkFactShard 9 [zeta_fact "zz"])) (fun _ => emit_all zeta_events).

Definition zeta_registry (run : AdapterRun) : Res AdapterRegistry :=
  let? r := register_provider AdapterRegistry_default zeta_provider in
  register_adapter r (zeta_adapter run).
Definition built (run : AdapterRun) : AdapterRegistry :=
  match zeta_registry run with Ok r => r | Err _ => AdapterRegistry_default end.
Definition zeta_request : AnalyzeGenerationRequest :=
  {| ar_schema := ANALYSIS_REQUEST_SCHEMA; attempt_id := "attempt-1"; generation_key := sample_digest "7";
     capability := "analysis:facts"; compilation := zeta_compilation;
     derived_input_manifest := sample_object "manifest/1" "8"; parent_generation := None |}.
Definition recording (d : list AnalysisEvent) (e : AnalysisEvent) : list AnalysisEvent * Res unit :=
  (d ++ [e], Ok tt).

Lemma built_reachable run : registry_reachable (built run).
Proof.
  eapply rtc_l; [eapply (step_provider _ zeta_provider); reflexivity|].
  eapply rtc_l; [eapply (step_adapter _ (zeta_adapter run)); reflexivity|]. apply rtc_refl.
Qed.

Definition zeta_registered (run : AdapterRun) : RegisteredAdapter :=
  {| ra_handshake := mkAdapterHandshake ADAPTER_PROTOCOL "fake-zeta" (sample_digest "c")
       ["language:zeta"] ["analysis:facts"] [mkToolchainConstraint (sample_digest "2") None None];
     ra_adapter := zeta_adapter run |}.

Lemma zeta_conforms : stream_conforms ["analysis:facts"] zeta_events zeta_completion.
Proof.
  assert (forall k, safe_fact_key k = true -> fact_ok ["analysis:facts"] (zeta_fact k)) as Hf.
  { intros k Hk. split; [done|left|]. by apply validate_cas_ok. }
  exists zeta_shards. split_and!; [done| | |done].
  - split.
    + intros [|[|i]] s; cbn; [by intros [= <-]..|done].
    + by repeat constructor.
    + repeat constructor.
    + repeat constructor; by apply Hf.
  - split; [reflexivity|]. by apply validate_cas_ok.
Qed.

#[export] Instance sequential_collect : ParCollect := fun A l => try_map (fun r => r) l.
#[export] Instance sequential_laws : ParCollectLaws sequential_collect.
Proof.
  split; unfold par_collect, sequential_collect.
  - intros A l vs Hv. by apply try_map_ok.
  - intros A l. induction 1 as [r l Hr|[a|e] l _ (e' & IH & Hin)].
    + destruct r as [|e]; [done|]. exists e. split; [done|left].
    + exists e'. cbn. rewrite IH. split; [done|by right].
    + exists e. split; [done|left].
Qed.
Definition zeta_observe (h : ProviderHandshake) : Observation :=
  {| seen_before := Ok [x01]; seen_probe := Ok Supported; seen_model := Ok zeta_model; seen_after := Ok [x01] |}.
End StreamExample.
Import StreamExample.

Lemma analyze_generation_into_sound_witness :
  exists registered events,
    select_registered (built stubborn) "language:zeta" "analysis:facts" (sample_digest "2") = Ok registered /\
    stream_conforms (capabilities (ra_handshake registered)) events zeta_completion.
Proof.
  destruct (analyze_generation_into_sound recording (built stubborn) zeta_request []
              zeta_events (Ok zeta_completion)) as [[_ H]|(reg & events & Hs & _ & _ & Hc)].
  - vm_compute. reflexivity.
  - discriminate H.
  - exists reg, events. split; [exact Hs|]. exact (Hc _ eq_refl).
Defined.

Lemma analyze_generation_into_complete_witness :
  analyze_generation_into recording (built (emit_all zeta_events)) zeta_request [] =
  (deliver recording [] zeta_events, Ok zeta_completion).
Proof.
  apply (analyze_generation_into_complete recording) with (registered := zeta_registered (emit_all zeta_events)).
  - intros d e. eexists. reflexivity.
  - vm_compute. reflexivity.
  - vm_compute. reflexivity.
  - reflexivity.
  - exact zeta_conforms.
Defined.

Lemma select_registered_unique_witness :
  is_digest (sample_digest "2").
Proof.
  apply (select_registered_unique (built stubborn) "language:zeta" "analysis:facts" (sample_digest "2")
           (zeta_registered stubborn)); [apply built_reachable|vm_compute; reflexivity].
Defined.

Lemma extract_supported_models_sealed_sound_witness :
  exists models, extract_supported_models_sealed (built stubborn) (sample_object "snapshot/1" "9") zeta_observe
    = Ok models /\ models <> [] /\
    StronglySorted lt_ord ((fun m => provider_id (pm_handshake m)) <$> models).
Proof.
  eexists. split; [vm_compute; reflexivity|].
  eapply (extract_supported_models_sealed_sound (built stubborn) (sample_object "snapshot/1" "9") zeta_observe);
    [apply built_reachable|vm_compute; reflexivity].
Defined.
