(* ===== verification/FactRun.v ===== *)
(** * Fact runs (generation_v2.rs: FactRunWriter, FactRun, RunReader)

    A run is a temporary file of length-prefixed canonical fact records.  The
    writer admits strictly increasing keys; the reader checks every record again.
    A writer owns its file, so the file is a field of the writer and the run; the
    deletion of the file when either is dropped and failures of the disk are not
    part of the model. *)

From S2P Require Import Prelude Order Collections Text Json Canonical Instances JsonFormat JsonRead Errors CasObject CatalogCodec AdapterV2.

Definition MAX_FACT_BYTES : N := 1024 * 1024.

(* --------------------------------------------------------------------- *)
(** ** Records as documents *)

(** The derived [Serialize] of [FactRecord] and the derived [Deserialize]s. *)
Definition fact_value (f : FactRecord) : Value :=
  JObject [("factKey", JString (fact_key f)); ("domainUri", JString (domain_uri f));
           ("payload", cas_object_value (payload f))].

Definition decode_capability (v : Value) : option CapabilityUri :=
  match decode_string v with
  | Some s => match CapabilityUri_parse s with Ok u => Some u | Err _ => None end
  | None => None
  end.

Definition decode_fact (v : Value) : option FactRecord :=
  match decode_struct ["factKey"; "domainUri"; "payload"] v with
  | Some [k; d; p] =>
      match decode_string k, decode_capability d, decode_cas_object p with
      | Some k, Some d, Some p => Some {| fact_key := k; domain_uri := d; payload := p |}
      | _, _, _ => None
      end
  | _ => None
  end.

(** What the types guarantee of a record: a capability URI was parsed, a size is
    an unsigned 64-bit integer. *)
Definition uri_typed (u : CapabilityUri) : Prop := validate_uri u "capability URI" = Ok tt.
Definition fact_typed (f : FactRecord) : Prop := uri_typed (domain_uri f) /\ size (payload f) <= u64_max.

(* --------------------------------------------------------------------- *)
(** ** The file format *)

Definition byte_of_N (n : N) : byte := byte_of_ascii (ascii_of_N n).
Definition u32_to_be_bytes (n : N) : list byte :=
  [byte_of_N (n / 2 ^ 24 mod 256); byte_of_N (n / 2 ^ 16 mod 256);
   byte_of_N (n / 2 ^ 8 mod 256); byte_of_N (n mod 256)].
Definition u32_from_be_bytes (b : list byte) : N := foldl (fun n x => n * 256 + Byte.to_N x) 0 b.

Section Runs.
Context {P : Primitives} {R : JsonReader}.

Record FactRunWriter : Type := mkWriter { wr_file : list byte; wr_last_key : option string; wr_count : N }.
Record FactRun : Type := mkRun { run_file : list byte; run_count : N }.

Definition writer_create : FactRunWriter := {| wr_file := []; wr_last_key := None; wr_count := 0 |}.

(** [last_key.as_deref().is_some_and(|previous| previous >= key)]. *)
Definition not_after (last_key : option string) (key : string) : bool :=
  match last_key with Some previous => geb previous key | None => false end.

Definition fact_bytes (f : FactRecord) : list byte := value_bytes (fact_value f).

Definition push (w : FactRunWriter) (fact : FactRecord) : FactRunWriter * Res unit :=
  match fact_validate fact with
  | Err e => (w, Err e)
  | Ok _ =>
      if not_after (wr_last_key w) (fact_key fact)
      then (w, protocol "fact run is not strictly sorted")
      else
        let bytes := fact_bytes fact in
        if (MAX_FACT_BYTES <? vlen bytes) || (u32_max <? vlen bytes)
        then (w, Err (ClewError_new ResourceLimit "fact exceeds the run record limit"))
        else ({| wr_file := wr_file w ++ u32_to_be_bytes (vlen bytes) ++ bytes;
                 wr_last_key := Some (fact_key fact);
                 wr_count := u64_wrapping_add (wr_count w) 1 |}, Ok tt)
  end.

Definition finish (w : FactRunWriter) : FactRun := {| run_file := wr_file w; run_count := wr_count w |}.

Record EncodedFact : Type := mkEncoded { record : FactRecord; bytes : list byte }.
Record RunReader : Type := mkReader { rd_rest : list byte; remaining : N }.

Definition reader_open (run : FactRun) : RunReader := {| rd_rest := run_file run; remaining := run_count run |}.

(** [Read::read_exact]. *)
Definition read_exact (n : nat) (file : list byte) : Res (list byte * list byte) :=
  if Nat.leb n (length file) then Ok (take n file, drop n file)
  else Err (ClewError_new Internal "failed to fill whole buffer").

Definition next (r : RunReader) : Res (option EncodedFact * RunReader) :=
  if remaining r =? 0
  then match rd_rest r with
       | [] => Ok (None, r)
       | _ => protocol "fact run contains trailing bytes"
       end
  else
    let? '(length_bytes, rest) := read_exact 4 (rd_rest r) in
    let length := u32_from_be_bytes length_bytes in
    if (length =? 0) || (MAX_FACT_BYTES <? length)
    then protocol "fact run record length is invalid"
    else
      let? '(bytes, rest) := read_exact (N.to_nat length) rest in
      let? record := ok_or (match read_document bytes with Some v => decode_fact v | None => None end)
                       (ClewError_new WorkerProtocolMismatch "fact run record is invalid") in
      fact_validate record ;;?
      if negb (bool_decide (fact_bytes record = bytes))
      then protocol "fact run record is not canonical"
      else Ok (Some {| record := record; bytes := bytes |}, {| rd_rest := rest; remaining := remaining r - 1 |}).

(* --------------------------------------------------------------------- *)
(** ** Whole runs *)

Fixpoint push_all (w : FactRunWriter) (l : list FactRecord) : FactRunWriter * Res unit :=
  match l with
  | [] => (w, Ok tt)
  | f :: l' => let '(w', r) := push w f in match r with Ok _ => push_all w' l' | Err e => (w', Err e) end
  end.

Definition encode (f : FactRecord) : EncodedFact := {| record := f; bytes := fact_bytes f |}.

(** [drains r es]: the reader returns the records [es] and then the end. *)
Inductive drains : RunReader -> list EncodedFact -> Prop :=
| drains_end r r' : next r = Ok (None, r') -> drains r []
| drains_next r e r' es : next r = Ok (Some e, r') -> drains r' es -> drains r (e :: es).
End Runs.

(* --------------------------------------------------------------------- *)
(** ** Lemmas *)

Lemma byte_of_N_to_N n : n < 256 -> Byte.to_N (byte_of_N n) = n.
Proof.
  intros Hn. assert (In (N.to_nat n) (seq 0 256)) as Hin by (apply List.in_seq; lia).
  assert (forall k, In k (seq 0 256) -> (Byte.to_N (byte_of_N (N.of_nat k)) =? N.of_nat k) = true) as Hall.
  { apply List.forallb_forall. vm_compute. done. }
  specialize (Hall _ Hin). rewrite N2Nat.id in Hall. by apply N.eqb_eq.
Qed.

Lemma u32_be_round_trip n : n <= u32_max -> u32_from_be_bytes (u32_to_be_bytes n) = n.
Proof.
  intros Hn. unfold u32_from_be_bytes, u32_to_be_bytes. cbn [foldl].
  rewrite !byte_of_N_to_N by (by apply N.mod_lt).
  assert (n / 2 ^ 24 < 256) as H24 by (apply N.Div0.div_lt_upper_bound; unfold u32_max in Hn; cbn in *; lia).
  rewrite (N.mod_small (n / 2 ^ 24)) by done.
  pose proof (N.div_mod (n / 2 ^ 16) 256 ltac:(done)) as H16.
  pose proof (N.div_mod (n / 2 ^ 8) 256 ltac:(done)) as H8.
  pose proof (N.div_mod n 256 ltac:(done)) as H0.
  rewrite N.Div0.div_div in H16, H8. change (2 ^ 16 * 256) with (2 ^ 24) in H16.
  change (2 ^ 8 * 256) with (2 ^ 16) in H8. change (2 ^ 8) with 256 in *. lia.
Qed.

(** Keys of a canonical fact: domainUri, factKey, payload. *)
Lemma fact_sorted f :
  sort_value (fact_value f) =
  JObject [("domainUri", JString (domain_uri f)); ("factKey", JString (fact_key f));
           ("payload", cas_object_value (payload f))].
Proof. reflexivity. Qed.

Lemma decode_fact_written f : fact_typed f -> decode_fact (sort_value (fact_value f)) = Some f.
Proof.
  intros [Hu Hs]. rewrite fact_sorted. unfold decode_fact. cbn -[decode_capability decode_cas_object cas_object_value].
  unfold decode_capability, CapabilityUri_parse. cbn -[decode_cas_object cas_object_value validate_uri].
  rewrite Hu. cbn -[decode_cas_object cas_object_value].
  pose proof (decode_cas_object_written (payload f) Hs) as Hp.
  change (sort_value (cas_object_value (payload f))) with (cas_object_value (payload f)) in Hp. rewrite Hp.
  by destruct f.
Qed.

Lemma fact_plain f : fact_typed f ->
  plain (sort_value (fact_value f)) = true /\ nesting (sort_value (fact_value f)) = 2.
Proof.
  intros [_ Hs]. rewrite fact_sorted. split; [|reflexivity].
  unfold cas_object_value. cbn -[u64_max N.leb]. by rewrite (proj2 (N.leb_le _ _) Hs).
Qed.

Lemma decode_capability_typed v u : decode_capability v = Some u -> uri_typed u.
Proof.
  unfold decode_capability, CapabilityUri_parse, uri_typed. destruct (decode_string v) as [s|]; [|done].
  destruct (validate_uri s "capability URI") as [[]|] eqn:E; [|done]. by intros [= <-].
Qed.

Lemma decode_fact_typed v f : decode_fact v = Some f -> fact_typed f.
Proof.
  unfold decode_fact. destruct (decode_struct _ v) as [[|a [|b [|c [|]]]]|]; try done.
  destruct (decode_string a); [|done]. destruct (decode_capability b) as [u|] eqn:Hu; [|done].
  destruct (decode_cas_object c) as [o|] eqn:Ho; [|done]. intros [= <-].
  split; [by eapply decode_capability_typed|by eapply decode_cas_object_size].
Qed.

Section RunLemmas.
Context {P : Primitives} {R : JsonReader}.

Lemma not_after_false last key : not_after last key = false <-> forall k, last = Some k -> lt_ord k key.
Proof. destruct last as [k|]; cbn; [|naive_solver]. rewrite geb_false. naive_solver. Qed.

Lemma read_exact_ok n file b rest :
  read_exact n file = Ok (b, rest) <-> file = b ++ rest /\ length b = n.
Proof.
  unfold read_exact. destruct (Nat.leb_spec n (length file)) as [Hn|Hn].
  - split.
    + intros [= <- <-]. rewrite take_drop, length_take. split; [done|lia].
    + intros [-> <-]. by rewrite take_app_length, drop_app_length.
  - split; [done|]. intros [-> <-]. rewrite length_app in Hn. lia.
Qed.

(** What a record that was read is known to be. *)
Record next_post (r : RunReader) (e : EncodedFact) (r' : RunReader) : Prop := mkNextPost {
  post_bytes : bytes e = fact_bytes (record e);
  post_valid : fact_validate (record e) = Ok tt;
  post_typed : fact_typed (record e);
  post_len : 0 < vlen (bytes e) <= MAX_FACT_BYTES;
  post_remaining : remaining r = remaining r' + 1;
  post_consumed : (length (rd_rest r') < length (rd_rest r))%nat
}.

Lemma next_some r e r' : next r = Ok (Some e, r') -> next_post r e r'.
Proof.
  unfold next, protocol. destruct (N.eqb_spec (remaining r) 0) as [|Hr].
  { destruct (rd_rest r); [|done]. by intros [=]. }
  rewrite result_bind_ok. intros ([lb rest] & Hl & H). apply read_exact_ok in Hl as [Hl Hlen].
  rewrite guard_ok in H. destruct H as [Hlim H]. apply orb_false_iff in Hlim as [Hz Hm].
  apply N.eqb_neq in Hz. apply N.ltb_ge in Hm.
  rewrite result_bind_ok in H. destruct H as ([b rest'] & Hb & H). apply read_exact_ok in Hb as [Hb Hbl].
  rewrite result_bind_ok in H. destruct H as (rec & Hrec & H). rewrite seq_ok, guard_ok in H.
  destruct H as (Hv & Hc & [= <- <-]). apply negb_false_iff, bool_decide_eq_true_1 in Hc.
  assert (vlen b = u32_from_be_bytes lb) as Hvl by (unfold vlen; lia).
  assert (fact_typed rec) as Ht.
  { destruct (read_document b) as [v|]; [|done]. destruct (decode_fact v) as [f|] eqn:Hd; [|done].
    injection Hrec as <-. by eapply decode_fact_typed. }
  split; cbn [record bytes remaining rd_rest]; [done|done|done|lia|lia|].
  rewrite Hl, Hb, !length_app. lia.
Qed.

Lemma next_none r r' : next r = Ok (None, r') <-> remaining r = 0 /\ rd_rest r = [] /\ r' = r.
Proof.
  unfold next, protocol. destruct (N.eqb_spec (remaining r) 0) as [Hz|Hr].
  - destruct (rd_rest r); naive_solver.
  - split; [|naive_solver]. rewrite result_bind_ok. intros ([lb rest] & _ & H). rewrite guard_ok in H.
    destruct H as [_ H]. rewrite result_bind_ok in H. destruct H as ([b rest'] & _ & H).
    rewrite result_bind_ok in H. destruct H as (rec & _ & H). rewrite seq_ok, guard_ok in H. naive_solver.
Qed.

Lemma drains_det r es : drains r es -> forall es', drains r es' -> es = es'.
Proof.
  induction 1 as [r r' H|r e r' es H Hd IH]; intros es' H'; inversion H' as [? ? Hn|? ? ? ? Hn Hd']; subst;
    rewrite H in Hn; simplify_eq; [done|]. f_equal. by apply IH.
Qed.

(** A run that reads to its end holds as many records as it claims. *)
Lemma drains_spec r es : drains r es ->
  Forall (fun e => bytes e = fact_bytes (record e) /\ fact_validate (record e) = Ok tt /\ fact_typed (record e)) es /\
  vlen es = remaining r /\ (length es <= length (rd_rest r))%nat.
Proof.
  induction 1 as [r r' H|r e r' es H Hd (IHf & IHl & IHb)].
  - apply next_none in H as (Hz & _ & _). rewrite Hz. split_and!; [constructor|done|cbn; lia].
  - destruct (next_some _ _ _ H) as [? ? ? ? Hrem Hc]. rewrite vlen_cons, Hrem. cbn [length].
    split_and!; [by constructor|lia|lia].
Qed.
End RunLemmas.

Section RoundTrip.
Context {P : Primitives} {R : JsonReader} {W : WriterLaws P} {L : ReaderLaws P R}.

Lemma object_bytes_nonempty m : 0 < vlen (to_vec (JObject m)).
Proof. rewrite to_vec_object, vlen_app. change (vlen (as_bytes "{")) with 1. lia. Qed.

Lemma fact_bytes_nonempty f : 0 < vlen (fact_bytes f).
Proof. unfold fact_bytes, value_bytes. rewrite fact_sorted. apply object_bytes_nonempty. Qed.

Lemma read_fact_bytes f : fact_typed f ->
  match read_document (fact_bytes f) with Some v => decode_fact v | None => None end = Some f.
Proof.
  intros Hf. destruct (fact_plain f Hf) as [Hp Hn]. unfold fact_bytes, value_bytes.
  rewrite read_written; [by apply decode_fact_written|done|lia].
Qed.

(** A fact that may stand in a run. *)
Record fact_admissible (f : FactRecord) : Prop := mkFactAdmissible {
  admissible_valid : fact_validate f = Ok tt;
  admissible_size : vlen (fact_bytes f) <= MAX_FACT_BYTES
}.

Lemma next_encoded f rest n : fact_typed f -> fact_admissible f -> 0 < n ->
  next {| rd_rest := u32_to_be_bytes (vlen (fact_bytes f)) ++ fact_bytes f ++ rest; remaining := n |} =
  Ok (Some (encode f), {| rd_rest := rest; remaining := n - 1 |}).
Proof.
  intros Ht [Hv Hs] Hn. unfold next. cbn [remaining rd_rest].
  destruct (N.eqb_spec n 0) as [->|_]; [lia|].
  assert (forall a b : list byte, read_exact (length a) (a ++ b) = Ok (a, b)) as Hre.
  { intros a b. by apply read_exact_ok. }
  change 4%nat with (length (u32_to_be_bytes (vlen (fact_bytes f)))). rewrite Hre. cbn [result_bind].
  rewrite u32_be_round_trip by (unfold MAX_FACT_BYTES, u32_max in *; lia).
  pose proof (fact_bytes_nonempty f).
  destruct (N.eqb_spec (vlen (fact_bytes f)) 0); [lia|]. destruct (N.ltb_spec MAX_FACT_BYTES (vlen (fact_bytes f))); [lia|].
  unfold vlen at 1. rewrite Nat2N.id, Hre. cbn [orb result_bind]. rewrite read_fact_bytes by done.
  cbn [ok_or result_bind]. rewrite Hv. cbn [result_bind]. rewrite bool_decide_eq_true_2 by done. done.
Qed.

Lemma push_ok w f w' :
  push w f = (w', Ok tt) <->
  fact_admissible f /\ (forall k, wr_last_key w = Some k -> lt_ord k (fact_key f)) /\
  w' = {| wr_file := wr_file w ++ u32_to_be_bytes (vlen (fact_bytes f)) ++ fact_bytes f;
          wr_last_key := Some (fact_key f); wr_count := u64_wrapping_add (wr_count w) 1 |}.
Proof.
  unfold push. rewrite <- not_after_false. destruct (fact_validate f) as [[]|e] eqn:Hv.
  2: { split; [done|]. intros ([Hv' _] & _). congruence. }
  destruct (not_after _ _); [split; [done|naive_solver]|].
  destruct (_ || _) eqn:E.
  - split; [done|]. intros ([_ Hs] & _). apply orb_true_iff in E as [E|E]; apply N.ltb_lt in E;
      unfold MAX_FACT_BYTES, u32_max in *; lia.
  - apply orb_false_iff in E as [E _]. apply N.ltb_ge in E. split; [|by intros (_ & _ & ->)].
    intros [= <-]. split_and!; done.
Qed.

(** The bytes of a run of the given facts. *)
Definition run_bytes (l : list FactRecord) : list byte :=
  flat_map (fun f => u32_to_be_bytes (vlen (fact_bytes f)) ++ fact_bytes f) l.

Lemma drains_run_bytes l : Forall fact_typed l -> Forall fact_admissible l ->
  drains {| rd_rest := run_bytes l; remaining := vlen l |} (encode <$> l).
Proof.
  intros Ht Ha. induction l as [|f l IH]; [by eapply drains_end|].
  inversion_clear Ht. inversion_clear Ha. rewrite fmap_cons, vlen_cons. cbn [run_bytes flat_map].
  rewrite <- app_assoc. eapply drains_next; [apply next_encoded; [done|done|lia]|].
  rewrite N.add_sub. by apply IH.
Qed.

Definition sorted_above (last : option string) (l : list FactRecord) : Prop :=
  StronglySorted (fun f g => lt_ord (fact_key f) (fact_key g)) l /\
  Forall (fun f => forall k, last = Some k -> lt_ord k (fact_key f)) l.

Lemma sorted_above_cons last f l :
  sorted_above last (f :: l) <->
  (forall k, last = Some k -> lt_ord k (fact_key f)) /\ sorted_above (Some (fact_key f)) l.
Proof.
  unfold sorted_above. rewrite Forall_cons_iff. split.
  - intros [Hs [Hf Hl]]. inversion_clear Hs. split_and!; [done|done|].
    eapply list.Forall_impl; [done|]. cbn. naive_solver.
  - intros (Hf & Hs & Hl). assert (Forall (fun g => lt_ord (fact_key f) (fact_key g)) l) as Hlt.
    { eapply list.Forall_impl; [exact Hl|]. cbn. naive_solver. }
    split_and!; [by constructor|done|]. eapply list.Forall_impl; [exact Hlt|]. cbn. intros g Hg k Hk.
    eapply lt_trans; [by apply Hf|done].
Qed.

(** The key of the last fact. *)
Definition last_after (last : option string) (l : list FactRecord) : option string :=
  foldl (fun _ f => Some (fact_key f)) last l.

Lemma push_all_ok l : forall w w',
  wr_count w + vlen l <= u64_max ->
  push_all w l = (w', Ok tt) <->
  Forall fact_admissible l /\ sorted_above (wr_last_key w) l /\
  wr_file w' = wr_file w ++ run_bytes l /\ wr_count w' = wr_count w + vlen l /\
  wr_last_key w' = last_after (wr_last_key w) l.
Proof.
  induction l as [|f l IH]; intros w w' Hc.
  - cbn. rewrite app_nil_r, N.add_0_r. split.
    + intros [= <-]. split_and!; try done. split; constructor.
    + intros (_ & _ & Hf & Hn & Hl). f_equal. destruct w, w'. cbn in *. congruence.
  - rewrite vlen_cons in *. rewrite Forall_cons_iff, sorted_above_cons. cbn [push_all].
    destruct (push w f) as [w1 r] eqn:Hp. destruct r as [[]|e].
    + apply push_ok in Hp as (Ha & Hk & Hw1).
      assert (wr_count w1 = wr_count w + 1) as Hc1.
      { rewrite Hw1. cbn. unfold u64_wrapping_add. apply N.mod_small. unfold u64_max in Hc. lia. }
      rewrite IH by lia. rewrite Hc1, Hw1. cbn [wr_file wr_last_key run_bytes flat_map].
      rewrite <- !app_assoc.
      assert (wr_count w + 1 + vlen l = wr_count w + (vlen l + 1)) as -> by lia.
      change (last_after (wr_last_key w) (f :: l)) with (last_after (Some (fact_key f)) l). tauto.
    + split; [done|]. intros ([Ha _] & [Hk _] & _).
      assert (push w f = (w1, Ok tt)) as Hp'; [|congruence].
      exfalso. pose proof (proj2 (push_ok w f _) (conj Ha (conj Hk eq_refl))). congruence.
Qed.

(** C28: a run returns what was written to it.  Writing a list of facts succeeds
    exactly when every fact is valid and at most a mebibyte long and the keys
    strictly increase; the finished run then reads back exactly those facts, each
    with its canonical bytes, and ends. *)
Theorem run_round_trip l :
  Forall fact_typed l -> vlen l <= u64_max ->
  let '(w, r) := push_all writer_create l in
  (r = Ok tt <-> Forall fact_admissible l /\ StronglySorted (fun f g => lt_ord (fact_key f) (fact_key g)) l) /\
  (r = Ok tt -> drains (reader_open (finish w)) (encode <$> l)).
Proof.
  intros Ht Hn. destruct (push_all writer_create l) as [w r] eqn:E.
  assert (r = Ok tt -> Forall fact_admissible l /\ sorted_above None l /\ wr_file w = run_bytes l /\ wr_count w = vlen l) as Hok.
  { intros ->. apply push_all_ok in E as (? & ? & ? & ? & _); [done|done]. }
  split; [split|].
  - intros Hr. destruct (Hok Hr) as (Ha & [Hs _] & _). done.
  - intros [Ha Hs]. assert (sorted_above None l) as Hsa by (split; [done|by apply list.Forall_true]).
    pose proof (proj2 (push_all_ok l writer_create
      {| wr_file := run_bytes l; wr_count := vlen l;
         wr_last_key := last_after None l |} Hn)) as Hw.
    rewrite Hw in E; [by injection E|]. done.
  - intros Hr. destruct (Hok Hr) as (Ha & _ & Hf & Hc). unfold reader_open, finish. cbn. rewrite Hf, Hc.
    by apply drains_run_bytes.
Qed.
End RoundTrip.

(* --------------------------------------------------------------------- *)
(** ** Two facts *)

Module FactExample.
Definition object : CasObject :=
  match for_bytes (P := toy) "test/1" [x01] with Ok o => o | Err _ => mkCasObject "" "" "" 0 end.
Definition fact (k : string) : FactRecord := {| fact_key := k; domain_uri := "analysis:facts"; payload := object |}.
Definition pair : list FactRecord := [fact "a"; fact "b"].
End FactExample.

Lemma run_round_trip_witness :
  Forall fact_typed FactExample.pair /\
  exists w, push_all (P := toy) writer_create FactExample.pair = (w, Ok tt) /\
    drains (P := toy) (R := toy_reader) (reader_open (finish w)) (encode (P := toy) <$> FactExample.pair).
Proof.
  assert (Forall fact_typed FactExample.pair) as Ht by (repeat constructor; vm_compute; discriminate).
  split; [exact Ht|].
  pose proof (run_round_trip (P := toy) (R := toy_reader) FactExample.pair Ht ltac:(vm_compute; discriminate)) as H.
  destruct (push_all (P := toy) writer_create FactExample.pair) as [w r] eqn:E. destruct H as [_ H].
  assert (r = Ok tt) as -> by (vm_compute in E; injection E as _ <-; reflexivity).
  exists w. split; [reflexivity|]. apply H. reflexivity.
Defined.
