(* ===== verification/JvmIdentity.v ===== *)
(** * JVM descriptors and compiler identities (semantic_validation.rs)

    The hand-written parser of JVM method descriptors and the admission of
    compiler symbol identities built on it.  The parser only peeks and advances,
    so its state is the unread rest of the descriptor. *)

From S2P Require Import Prelude Order Collections Text Errors.

Definition payload_invalid {A} (m : string) : Res A := invalid m.

Definition is_control_byte (a : ascii) : bool := ascii_between 0 31 a || ascii_between 127 127 a.
Definition bad_class_byte (a : ascii) : bool :=
  Ascii.eqb a "." || Ascii.eqb a "[" || Ascii.eqb a "(" || Ascii.eqb a ")" || is_control_byte a.

(** [object_type], after the leading [L]. *)
Fixpoint object_type (segment_length : N) (s : string) : Res string :=
  match s with
  | EmptyString => payload_invalid "JVM method descriptor has an unterminated object type"
  | String byte rest =>
      if Ascii.eqb byte ";" && (0 <? segment_length) then Ok rest
      else if (Ascii.eqb byte ";" || Ascii.eqb byte "/") && (segment_length =? 0)
      then payload_invalid "JVM method descriptor object type has an empty name segment"
      else if Ascii.eqb byte "/" then object_type 0 rest
      else if bad_class_byte byte
      then payload_invalid "JVM method descriptor object type has an invalid class name"
      else object_type (segment_length + 1) rest
  end.

(** The loop over [\[]. *)
Fixpoint array_dimensions (dimensions : N) (s : string) : Res (N * string) :=
  match s with
  | String byte rest =>
      if Ascii.eqb byte "["
      then if 255 <? dimensions + 1
           then payload_invalid "JVM method descriptor array has more than 255 dimensions"
           else array_dimensions (dimensions + 1) rest
      else Ok (dimensions, s)
  | EmptyString => Ok (dimensions, s)
  end.

Definition is_base_byte (a : ascii) : bool :=
  existsb (Ascii.eqb a) ["B"; "C"; "D"; "F"; "I"; "J"; "S"; "Z"]%char.
Definition is_wide_byte (a : ascii) : bool := Ascii.eqb a "D" || Ascii.eqb a "J".

(** [field_type]: the slots of the type and the rest. *)
Definition field_type (s : string) : Res (N * string) :=
  let? '(dimensions, s) := array_dimensions 0 s in
  match s with
  | String token rest =>
      if is_base_byte token
      then Ok (if (dimensions =? 0) && is_wide_byte token then 2 else 1, rest)
      else if Ascii.eqb token "L" then let? rest := object_type 0 rest in Ok (1, rest)
      else if Ascii.eqb token "V" && (0 <? dimensions)
      then payload_invalid "JVM method descriptor array component cannot be void"
      else if Ascii.eqb token "V" then payload_invalid "JVM method descriptor parameter cannot be void"
      else payload_invalid "JVM method descriptor contains an unknown field type"
  | EmptyString => payload_invalid "JVM method descriptor has an incomplete field type"
  end.

Record ParsedJvmMethodDescriptor : Type := mkParsed { returns_void : bool; parameter_count : N }.

Definition u16_checked_add (a b : N) : option N := if a + b <=? 65535 then Some (a + b) else None.

(** The loop over the parameters; every round reads at least one byte. *)
Fixpoint parameters (fuel : nat) (s : string) (slots count : N) : Res (N * string) :=
  match s with
  | EmptyString => payload_invalid "JVM method descriptor has no closing parameter delimiter"
  | String byte rest =>
      if Ascii.eqb byte ")" then Ok (count, rest)
      else
        match fuel with
        | O => payload_invalid "JVM method descriptor has no closing parameter delimiter"
        | S fuel' =>
            let? '(used, s') := field_type s in
            let? slots' := ok_or (u16_checked_add slots used)
              (ClewError_new InvalidInput "JVM method descriptor parameter length overflow") in
            if 255 <? slots'
            then payload_invalid "JVM method descriptor parameter length exceeds 255 units"
            else
              let? count' := ok_or (u64_checked_add count 1)
                (ClewError_new InvalidInput "JVM method descriptor parameter count overflow") in
              parameters fuel' s' slots' count'
        end
  end.

(** [V], or a field type. *)
Definition return_type (s : string) : Res (bool * string) :=
  if (match s with String byte _ => Ascii.eqb byte "V" | EmptyString => false end)
  then Ok (true, str_drop 1 s)
  else let? '(_, rest) := field_type s in Ok (false, rest).

Definition parse_jvm_method_descriptor (descriptor : string) : Res ParsedJvmMethodDescriptor :=
  match descriptor with
  | String byte rest =>
      if negb (Ascii.eqb byte "(")
      then payload_invalid "JVM method descriptor has no opening parameter delimiter"
      else
        let? '(count, rest) := parameters (String.length rest) rest 0 0 in
        let? '(void, rest) := return_type rest in
        if negb (str_is_empty rest) then payload_invalid "JVM method descriptor has trailing bytes"
        else Ok {| returns_void := void; parameter_count := count |}
  | EmptyString => payload_invalid "JVM method descriptor has no opening parameter delimiter"
  end.

Definition validate_jvm_method_descriptor (descriptor : string) : Res unit :=
  let? _ := parse_jvm_method_descriptor descriptor in Ok tt.

(* --------------------------------------------------------------------- *)
(** ** Compiler identities *)

(** [s.contains(p)] and [s.split_once(p)] for a substring. *)
Fixpoint str_contains (p s : string) : bool :=
  starts_with p s || match s with EmptyString => false | String _ s' => str_contains p s' end.
Fixpoint split_once (p s : string) : option (string * string) :=
  match strip_prefix p s with
  | Some after => Some (EmptyString, after)
  | None =>
      match s with
      | EmptyString => None
      | String a s' => match split_once p s' with Some (b, c) => Some (String a b, c) | None => None end
      end
  end.
(** [signature.split_at(signature.find('(')?)]. *)
Fixpoint split_at_paren (s : string) : option (string * string) :=
  match s with
  | EmptyString => None
  | String a s' =>
      if Ascii.eqb a "(" then Some (EmptyString, s)
      else match split_at_paren s' with Some (b, c) => Some (String a b, c) | None => None end
  end.

Definition bad_method_name_byte (a : ascii) : bool :=
  existsb (Ascii.eqb a) ["."; ";"; "["; "/"; "<"; ">"]%char || is_control_byte a.

Definition validate_jvm_function_signature (signature : string) : Res unit :=
  if starts_with "(" signature then validate_jvm_method_descriptor signature
  else
    let? '(name, descriptor) := ok_or (split_at_paren signature)
      (ClewError_new InvalidInput "JVM function signature has no method descriptor") in
    if str_is_empty name || str_any bad_method_name_byte name
    then payload_invalid "JVM function signature has an invalid method name"
    else validate_jvm_method_descriptor descriptor.

Definition validate_raw_compiler_identity (identity label : string) (allow_root_package_callable : bool)
  : Res unit :=
  let identity :=
    match strip_prefix "/" identity with
    | Some root => if allow_root_package_callable && negb (contains_char "/" root) then root else identity
    | None => identity
    end in
  if str_is_empty identity || has_control_char identity || starts_with "/" identity
     || str_any (fun a => existsb (Ascii.eqb a) [":"; "\"; "@"]%char) identity
     || existsb (fun segment => str_is_empty segment || str_eqb segment "." || str_eqb segment "..")
          (split_char "/" identity)
     || str_contains "#jvm:" identity || str_contains "<unknown>" identity
     || str_contains "<unresolved>" identity || str_eqb identity "UNKNOWN"
     || existsb (fun prefix => starts_with prefix identity)
          ["callable:"; "constructor:"; "property:"; "class:"; "package:"]%string
  then payload_invalid (label +:+ " is not a raw K2 compiler identity")
  else Ok tt.

Definition validate_relation_endpoint (identity label : string) : Res unit :=
  match strip_prefix "callable:" identity with
  | Some tagged =>
      let? '(callable, signature) := ok_or (split_once "#jvm:" tagged)
        (ClewError_new InvalidInput (label +:+ " callable symbol has no JVM signature")) in
      validate_raw_compiler_identity callable label true ;;?
      validate_jvm_function_signature signature
  | None =>
  match strip_prefix "constructor:" identity with
  | Some tagged =>
      let? '(callable, descriptor) := ok_or (split_once "#jvm:" tagged)
        (ClewError_new InvalidInput (label +:+ " constructor symbol has no JVM descriptor")) in
      validate_raw_compiler_identity callable label false ;;?
      let? parsed := parse_jvm_method_descriptor descriptor in
      if negb (returns_void parsed)
      then payload_invalid (label +:+ " constructor descriptor does not return void")
      else Ok tt
  | None =>
  match strip_prefix "property:" identity with
  | Some raw => validate_raw_compiler_identity raw label true
  | None =>
  match strip_prefix "class:" identity with
  | Some raw => validate_raw_compiler_identity raw label false
  | None =>
  match strip_prefix "package:" identity with
  | Some raw => validate_raw_compiler_identity raw label false
  | None => validate_raw_compiler_identity identity label true
  end end end end end.

Definition validate_kotlin_full_symbol_identity (identity : string) : Res unit :=
  if str_contains "://" identity || contains_char "\" identity || contains_char "@" identity
  then payload_invalid "Kotlin full symbol identity contains URL or credential syntax"
  else if negb (existsb (fun prefix => starts_with prefix identity)
                  ["callable:"; "constructor:"; "property:"; "class:"]%string)
  then payload_invalid "Kotlin full symbol identity has no supported declaration tag"
  else validate_relation_endpoint identity "Kotlin full symbol identity".

(* --------------------------------------------------------------------- *)
(** ** The grammar of method descriptors *)

Inductive BaseType : Type :=
| Primitive (letter : ascii)
| ClassType (name : string).
Record JType : Type := mkJType { dimensions : nat; base : BaseType }.
Record MethodType : Type := mkMethodType { params : list JType; result : option JType }.

(** A byte of a class name, [/] between segments included. *)
Definition name_byte (a : ascii) : bool := negb (Ascii.eqb a ";") && negb (bad_class_byte a).
Definition class_name_ok (name : string) : Prop :=
  str_all name_byte name = true /\ Forall (fun w => w <> EmptyString) (split_char "/" name).
Definition base_ok (b : BaseType) : Prop :=
  match b with Primitive letter => is_base_byte letter = true | ClassType name => class_name_ok name end.
Record jtype_ok (t : JType) : Prop := mkJTypeOk { jtype_dims : (dimensions t <= 255)%nat; jtype_base : base_ok (base t) }.

Fixpoint brackets (n : nat) : string := match n with O => EmptyString | S n' => String "[" (brackets n') end.
Definition print_base (b : BaseType) : string :=
  match b with
  | Primitive letter => String letter EmptyString
  | ClassType name => String "L" (name +:+ ";")
  end.
Definition print_type (t : JType) : string := brackets (dimensions t) +:+ print_base (base t).
Fixpoint print_types (ts : list JType) : string :=
  match ts with [] => EmptyString | t :: ts' => print_type t +:+ print_types ts' end.
Definition print_method (m : MethodType) : string :=
  String "(" (print_types (params m) +:+
    String ")" (match result m with Some t => print_type t | None => "V" end)).

(** Units a parameter takes: two for [long] and [double], one otherwise. *)
Definition slots (t : JType) : N :=
  match dimensions t, base t with
  | O, Primitive letter => if is_wide_byte letter then 2 else 1
  | _, _ => 1
  end.
Fixpoint total_slots (ts : list JType) : N :=
  match ts with [] => 0 | t :: ts' => slots t + total_slots ts' end.

Record method_ok (m : MethodType) : Prop := mkMethodOk {
  method_params : Forall jtype_ok (params m);
  method_result : match result m with Some t => jtype_ok t | None => True end;
  method_slots : total_slots (params m) <= 255
}.

(* --------------------------------------------------------------------- *)
(** ** Object types *)

(** The segments still to be read when the current one already has [len] bytes. *)
Definition segments_ok (len : N) (segments : list string) : Prop :=
  match segments with
  | [] => False
  | w :: ws => 0 < len + str_len w /\ Forall (fun w => w <> EmptyString) ws
  end.

Lemma segments_ok_zero name : segments_ok 0 (split_char "/" name) <-> Forall (fun w => w <> EmptyString) (split_char "/" name).
Proof.
  destruct (split_char "/" name) as [|w ws] eqn:E; [by apply split_char_nonempty in E|]. cbn [segments_ok].
  rewrite Forall_cons_iff. destruct w; unfold str_len; cbn; naive_solver lia.
Qed.

Lemma object_type_ok s : forall len rest,
  object_type len s = Ok rest <->
  exists name, s = name +:+ String ";" rest /\ str_all name_byte name = true /\
    segments_ok len (split_char "/" name).
Proof.
  induction s as [|a s IH]; intros len rest; cbn [object_type]; unfold payload_invalid, invalid.
  { split; [done|]. intros ([|? ?] & ? & _); done. }
  destruct (Ascii.eqb_spec a ";") as [->|Ha]; cbn [andb orb].
  { assert (forall name, String ";" s = name +:+ String ";" rest -> str_all name_byte name = true -> name = EmptyString) as Hn.
    { intros [|b name]; [done|]. intros [= <- _]. cbn. done. }
    destruct (N.ltb_spec 0 len).
    - split.
      + intros [= <-]. exists EmptyString. split_and!; [done|done|]. cbn. split; [lia|constructor].
      + intros (name & He & Hall & _). rewrite (Hn name He Hall) in He. by injection He as ->.
    - assert (len = 0) as -> by lia. cbn. split; [done|]. intros (name & He & Hall & Hs).
      rewrite (Hn name He Hall) in Hs. cbn in Hs. unfold str_len in Hs. cbn in Hs. lia. }
  destruct (Ascii.eqb_spec a "/") as [->|Hs]; cbn [andb].
  { destruct (N.eqb_spec len 0) as [->|Hlen].
    - split; [done|]. intros ([|b name] & He & Hall & Hsg); [done|].
      rewrite str_cons_app in He. injection He as <- He. cbn in Hsg. unfold str_len in Hsg. cbn in Hsg. lia.
    - rewrite IH. split.
      + intros (name & -> & Hall & Hsg). exists (String "/" name). split_and!; [done|done|].
        cbn [split_char segments_ok]. change (Ascii.eqb "/" "/") with true. cbn [segments_ok].
        split; [unfold str_len; cbn; lia|]. by apply segments_ok_zero.
      + intros ([|b name] & He & Hall & Hsg); [done|]. rewrite str_cons_app in He. injection He as <- ->.
        exists name. cbn [str_all] in Hall. apply andb_true_iff in Hall as [_ Hall]. split_and!; [done|done|].
        cbn [split_char] in Hsg. change (Ascii.eqb "/" "/") with true in Hsg. cbn [segments_ok] in Hsg.
        apply segments_ok_zero, Hsg. }
  destruct (bad_class_byte a) eqn:Hbad.
  { split; [done|]. intros ([|b name] & He & Hall & _); [by injection He as -> _|]. rewrite str_cons_app in He.
    injection He as <- _. cbn [str_all] in Hall. apply andb_true_iff in Hall as [Hall _].
    unfold name_byte in Hall. rewrite Hbad, andb_false_r in Hall. done. }
  assert (name_byte a = true) as Hna.
  { unfold name_byte. rewrite Hbad. apply Ascii.eqb_neq in Ha. by rewrite Ha. }
  assert (forall name, segments_ok (len + 1) (split_char "/" name) <-> segments_ok len (split_char "/" (String a name))) as Hsp.
  { intros name. cbn [split_char]. apply Ascii.eqb_neq in Hs. rewrite Hs.
    destruct (split_char "/" name) as [|w ws] eqn:E; [by apply split_char_nonempty in E|]. cbn [segments_ok].
    unfold str_len. cbn [String.length]. split; intros [? ?]; (split; [lia|done]). }
  rewrite IH. split.
  - intros (name & -> & Hall & Hsg). exists (String a name). cbn [str_all]. rewrite Hna, Hall.
    split_and!; [done|done|]. by apply Hsp.
  - intros ([|b name] & He & Hall & Hsg); [by injection He as -> _|]. rewrite str_cons_app in He. injection He as <- ->.
    exists name. cbn [str_all] in Hall. apply andb_true_iff in Hall as [_ Hall]. split_and!; [done|done|]. by apply Hsp.
Qed.

(* --------------------------------------------------------------------- *)
(** ** Field types *)

Definition no_bracket (s : string) : Prop := forall rest, s <> String "[" rest.

Lemma array_dimensions_ok s : forall n d rest,
  array_dimensions n s = Ok (d, rest) <->
  no_bracket rest /\ exists k, s = brackets k +:+ rest /\ d = n + N.of_nat k /\ (k <> 0%nat -> d <= 255).
Proof.
  induction s as [|a s IH]; intros n d rest; cbn [array_dimensions]; unfold payload_invalid, invalid.
  - split.
    + intros [= <- <-]. split; [done|]. exists 0%nat. split_and!; [done|lia|done].
    + intros (_ & [|k] & He & -> & _); [|done]. change (brackets 0 +:+ rest) with rest in He. subst. change (N.of_nat 0) with 0. by rewrite N.add_0_r.
  - destruct (Ascii.eqb_spec a "[") as [->|Ha].
    + rewrite guard_ok, N.ltb_ge, IH. split.
      * intros (Hn & Hb & k & -> & -> & Hd). split; [done|]. exists (S k). split_and!; [done|lia|].
        intros _. destruct k; [lia|]. specialize (Hd ltac:(done)). lia.
      * intros (Hb & [|k] & He & -> & Hd); [change (brackets 0 +:+ rest) with rest in He; by destruct (Hb s)|].
        change (brackets (S k) +:+ rest) with (String "[" (brackets k +:+ rest)) in He. injection He as ->. specialize (Hd ltac:(done)). split_and!; [lia|done|].
        exists k. split_and!; [done|lia|intros _; lia].
    + split.
      * intros [= <- <-]. split; [intros r [= ->]; done|]. exists 0%nat. split_and!; [done|lia|done].
      * intros (_ & [|k] & He & -> & _); [|by injection He as -> _]. change (brackets 0 +:+ rest) with rest in He. subst. change (N.of_nat 0) with 0. by rewrite N.add_0_r.
Qed.


Lemma base_byte_not_L a : is_base_byte a = true -> Ascii.eqb a "L" = false /\ Ascii.eqb a "[" = false.
Proof. unfold is_base_byte. cbn. intros H. split; destruct (Ascii.eqb_spec a "L"), (Ascii.eqb_spec a "["); subst; done. Qed.

Lemma print_base_no_bracket b rest : base_ok b -> no_bracket (print_base b +:+ rest).
Proof.
  destruct b as [c|name]; cbn [base_ok print_base]; intros Hb r He; rewrite str_cons_app in He; [|done].
  injection He as -> _. done.
Qed.

Lemma slots_of_dims d b :
  slots (mkJType d b) =
  match b with Primitive c => if (N.of_nat d =? 0) && is_wide_byte c then 2 else 1 | ClassType _ => 1 end.
Proof. destruct d, b; cbn; try done. Qed.

Lemma field_type_ok s n rest :
  field_type s = Ok (n, rest) <->
  exists t, jtype_ok t /\ s = print_type t +:+ rest /\ n = slots t.
Proof.
  unfold field_type. rewrite result_bind_ok. split.
  - intros ([d s'] & Hd & H). apply array_dimensions_ok in Hd as (Hb & k & -> & -> & Hle). rewrite N.add_0_l in *.
    assert (k <= 255)%nat as Hk by (destruct k; [lia|specialize (Hle ltac:(done)); lia]).
    destruct s' as [|c s']; [done|]. destruct (is_base_byte c) eqn:Ec.
    + injection H as <- <-. exists (mkJType k (Primitive c)). split_and!; [done| |by rewrite slots_of_dims].
      unfold print_type. cbn [dimensions base print_base]. by rewrite str_app_assoc.
    + destruct (Ascii.eqb_spec c "L") as [->|]; [|by repeat destruct (_ && _); try destruct (Ascii.eqb _ _)].
      rewrite result_bind_ok in H. destruct H as (r & Hr & [= <- <-]).
      apply object_type_ok in Hr as (name & -> & Hall & Hsg). exists (mkJType k (ClassType name)).
      split_and!; [|unfold print_type; cbn [dimensions base print_base]; by rewrite str_app_assoc, str_cons_app, str_app_assoc|].
      * split; [done|]. split; [done|]. by apply segments_ok_zero.
      * by rewrite slots_of_dims.
  - intros ([k b] & [Hk Hb] & -> & ->). cbn [dimensions base] in *.
    exists (N.of_nat k, print_base b +:+ rest). split.
    { apply array_dimensions_ok. split; [by apply print_base_no_bracket|]. exists k.
      unfold print_type. cbn [dimensions base]. split_and!; [by rewrite str_app_assoc|lia|lia]. }
    rewrite slots_of_dims. destruct b as [c|name]; cbn [print_base base_ok] in *.
    + rewrite str_cons_app, Hb. done.
    + rewrite str_cons_app. change (is_base_byte "L") with false. change (Ascii.eqb "L" "L") with true.
      cbv iota. rewrite str_app_assoc. change (";" +:+ rest) with (String ";" rest).
      rewrite (proj2 (object_type_ok _ 0 rest)); [done|]. exists name. split_and!; [done|apply Hb|].
      apply segments_ok_zero, Hb.
Qed.

(* --------------------------------------------------------------------- *)
(** ** Parameters and methods *)

Lemma print_type_head t : jtype_ok t -> exists a r, print_type t = String a r /\ a <> ")"%char /\ a <> "V"%char.
Proof.
  destruct t as [[|k] b]; intros [_ Hb]; unfold print_type; cbn [dimensions base] in *.
  - destruct b as [c|name]; cbn [print_base base_ok] in *; eexists _, _; (split; [reflexivity|]); [|done].
    split; intros ->; vm_compute in Hb; discriminate Hb.
  - eexists _, _. split; [reflexivity|done].
Qed.

Lemma slots_positive t : 1 <= slots t.
Proof. unfold slots. destruct (dimensions t), (base t); try lia. destruct (is_wide_byte _); lia. Qed.

Lemma str_len_app s t : String.length (s +:+ t) = (String.length s + String.length t)%nat.
Proof. apply str_length_app. Qed.

Lemma parameters_ok fuel : forall s used n c rest,
  (String.length s <= fuel)%nat -> n <= used -> used <= 255 ->
  parameters fuel s used n = Ok (c, rest) <->
  exists ts, Forall jtype_ok ts /\ s = print_types ts +:+ String ")" rest /\
    used + total_slots ts <= 255 /\ c = n + vlen ts.
Proof.
  induction fuel as [|fuel IH]; intros [|a s] used n c rest Hf Hn Hu; cbn [parameters];
    unfold payload_invalid, invalid.
  1, 3: split; [done|]; intros ([|t ts] & Hts & He & _); [done|]; apply Forall_cons_iff in Hts as [Ht _];
    destruct (print_type_head t Ht) as (b & r & Hp & _); cbn [print_types] in He; by rewrite Hp in He.
  1: cbn in Hf; lia.
  assert (forall ts, Forall jtype_ok ts -> String ")" s = print_types ts +:+ String ")" rest -> ts = [] /\ s = rest) as Hclose.
  { intros [|t ts] Hts He; [by injection He|]. apply Forall_cons_iff in Hts as [Ht _].
    destruct (print_type_head t Ht) as (b & r & Hp & Hb & _). cbn [print_types] in He.
    rewrite Hp, !str_cons_app in He. by injection He as <- _. }
  destruct (Ascii.eqb_spec a ")") as [->|Ha].
  { split.
    - intros [= <- <-]. exists []. split_and!; [constructor|done|cbn; lia|unfold vlen; cbn; lia].
    - intros (ts & Hts & He & _ & ->). destruct (Hclose ts Hts He) as [-> ->].
      unfold vlen. cbn. by rewrite N.add_0_r. }
  rewrite result_bind_ok. split.
  - intros ([m s'] & Hft & H). apply field_type_ok in Hft as (t & Ht & Hs & ->).
    rewrite result_bind_ok in H. destruct H as (u' & Hu' & H). rewrite guard_ok, N.ltb_ge, result_bind_ok in H.
    destruct H as (Hle & n' & Hn' & H).
    unfold u16_checked_add in Hu'. destruct (_ <=? 65535); [|done]. injection Hu' as <-.
    destruct (u64_checked_add n 1) as [n1|] eqn:En; [|done]. injection Hn' as <-.
    apply u64_checked_add_some in En as [-> _]. pose proof (slots_positive t).
    apply IH in H as (ts & Hts & -> & Htot & ->); [|rewrite Hs, str_len_app in Hf|lia|lia].
    + exists (t :: ts). split_and!; [by constructor|cbn [print_types]; by rewrite str_app_assoc|cbn [total_slots]; lia|].
      rewrite vlen_cons. lia.
    + destruct (print_type_head t Ht) as (b & r & Hp & _). rewrite Hp in Hf. cbn in Hf. lia.
  - intros ([|t ts] & Hts & He & Htot & ->); [by injection He as -> _|].
    apply Forall_cons_iff in Hts as [Ht Hts]. cbn [print_types total_slots] in He, Htot.
    rewrite str_app_assoc in He. exists (slots t, print_types ts +:+ String ")" rest).
    split; [apply field_type_ok; by exists t|]. pose proof (slots_positive t).
    unfold u16_checked_add. destruct (N.leb_spec (used + slots t) 65535); [|lia]. cbn [ok_or result_bind].
    destruct (N.ltb_spec 255 (used + slots t)); [lia|].
    rewrite (proj2 (u64_checked_add_some n 1 (n + 1))) by (unfold u64_max; split; [done|lia]). cbn [ok_or result_bind].
    apply IH; [|lia|lia|exists ts; split_and!; [done|done|lia|rewrite vlen_cons; lia]].
    destruct (print_type_head t Ht) as (b & r & Hp & _). rewrite He, str_len_app, Hp in Hf. cbn in Hf. lia.
Qed.

Lemma return_type_ok s v :
  return_type s = Ok (v, EmptyString) <->
  exists res, match res with Some t => jtype_ok t | None => True end /\
    s = match res with Some t => print_type t | None => "V" end /\ (v = true <-> res = None).
Proof.
  unfold return_type. destruct s as [|a s].
  { split; [done|]. intros ([t|] & Ht & He & _); [|done].
    destruct (print_type_head t Ht) as (b & r & Hp & _). by rewrite Hp in He. }
  destruct (Ascii.eqb_spec a "V") as [->|Ha].
  { cbn [str_drop]. split.
    - intros [= <- ->]. exists None. done.
    - intros ([t|] & Ht & He & Hv).
      + destruct (print_type_head t Ht) as (b & r & Hp & _ & Hb). rewrite Hp in He. by injection He as <- _.
      + injection He as ->. by rewrite (proj2 Hv eq_refl). }
  rewrite result_bind_ok. split.
  - intros ([n r] & Hf & [= <- ->]). apply field_type_ok in Hf as (t & Ht & He & _). exists (Some t).
    split_and!; [done| |done]. rewrite He. clear. induction (print_type t) as [|b s IH]; [done|].
    by rewrite str_cons_app, IH.
  - intros ([t|] & Ht & He & Hv); [|by injection He as -> _]. exists (slots t, EmptyString).
    split; [apply field_type_ok; exists t; split_and!; [done| |done]|].
    + rewrite He. clear. induction (print_type t) as [|b s IH]; [done|]. by rewrite str_cons_app, <- IH.
    + destruct v; [naive_solver|done].
Qed.

(** C40: the method descriptor parser accepts exactly the descriptors of the JVM
    grammar: it succeeds on a string exactly when the string is the rendering of
    a method type whose types are well formed, with at most 255 array dimensions
    each and at most 255 parameter units in total, and it then reports that
    method's parameter count and whether it returns void. *)
Theorem parse_jvm_method_descriptor_spec s parsed :
  parse_jvm_method_descriptor s = Ok parsed <->
  exists m, method_ok m /\ s = print_method m /\
    parameter_count parsed = vlen (params m) /\
    (returns_void parsed = true <-> result m = None).
Proof.
  unfold parse_jvm_method_descriptor. destruct s as [|a s]; [split; [done|by intros (m & _ & ? & _)]|].
  unfold payload_invalid, invalid. rewrite guard_ok, negb_false_iff, result_bind_ok, Ascii.eqb_eq. split.
  - intros (-> & [c rest] & Hp & H). rewrite result_bind_ok in H. destruct H as ([v r] & Hr & H).
    rewrite guard_ok, negb_false_iff in H. destruct H as [He [= <-]]. destruct r; [|done].
    apply parameters_ok in Hp as (ts & Hts & -> & Htot & ->); [|lia..].
    apply return_type_ok in Hr as (res & Hres & -> & Hv). exists (mkMethodType ts res).
    split_and!; [by split|done|cbn [params parameter_count]; lia|done].
  - intros ([ts res] & [Hts Hres Htot] & He & Hc & Hv). unfold print_method in He. cbn [params result] in *.
    injection He as -> ->. split; [done|].
    exists (vlen ts, match res with Some t => print_type t | None => "V" end). split.
    { apply parameters_ok; [lia|lia|lia|]. exists ts. split_and!; [done|done|lia|lia]. }
    destruct parsed as [v n]. cbn [parameter_count returns_void] in *. subst n.
    rewrite (proj2 (return_type_ok _ v)); [done|]. by exists res.
Qed.

Lemma parse_jvm_method_descriptor_witness :
  exists m, method_ok m /\ "(I[JLa/B;)V" = print_method m /\ vlen (params m) = 3.
Proof.
  destruct (proj1 (parse_jvm_method_descriptor_spec "(I[JLa/B;)V" (mkParsed true 3))) as (m & Hm & Hs & Hc & _).
  - vm_compute. reflexivity.
  - exists m. split; [exact Hm|]. split; [exact Hs|]. symmetry. exact Hc.
Defined.
