(* ===== verification/LocalCfg.v ===== *)
(** * Local control-flow graphs (thread_flow_cfg.rs)

    The closed contract of compiler-produced graphs: authority fields, canonical
    node and edge lists, one entry, and every node that is not marked dead
    reachable from it.  A graph is identified by the hash of its content. *)

From S2P Require Import Prelude Order Collections Text Json Canonical Instances Errors CasObject Worklist JvmIdentity.

Definition LOCAL_CFG_SCHEMA : string := "local-cfg/0.1".
Definition LOCAL_CFG_BOUNDARY_SCHEMA : string := "local-cfg-boundary/0.1".
Definition LOCAL_CFG_PAYLOAD_SCHEMA : string := "codeclew-kotlin-semantic-fact/3.0".
Definition MAX_LOCAL_CFG_NODES : N := 4096.
Definition MAX_LOCAL_CFG_EDGES : N := 8192.
Definition MAX_CFG_TEXT_BYTES : N := 512.

Inductive LocalCfgNodeRole : Type :=
| REntry | RExit | ROperation | RDecision | RMerge | RReturn | RThrow | RCatch | RFinally
| RLoopCondition | RLoopExit | RDead.
Inductive LocalCfgEdgeKind : Type :=
| KNext | KTrue | KFalse | KWhenCase | KException | KReturn | KLoopBack | KBreak | KContinue | KFinally | KDead.
Record LocalCfgSourceRange : Type := mkRange { range_start : N; range_end : N }.
Record LocalCfgNode : Type := mkNode { node_id : N; role : LocalCfgNodeRole; source : option LocalCfgSourceRange }.
Record LocalCfgEdge : Type := mkEdge {
  source_node_id : N; target_node_id : N; kind : LocalCfgEdgeKind; label : option string }.
Record LocalCfgPayload : Type := mkPayload {
  lc_schema : string;
  graph_id : string;
  owner_symbol_identity : string;
  file : string;
  compiler_graph_name : string;
  provider : string;
  source_provenance : string;
  nodes : list LocalCfgNode;
  edges : list LocalCfgEdge
}.
Record LocalCfgSupport : Type := mkSupport {
  member_alias : string; ls_compilation_id : string; generation_ref : CasObject; payload_ref : CasObject }.
Record PreparedLocalCfg : Type := mkPrepared { payload : LocalCfgPayload; support : LocalCfgSupport }.

#[export] Instance role_eq_dec : EqDecision LocalCfgNodeRole.
Proof. solve_decision. Defined.
#[export] Instance kind_eq_dec : EqDecision LocalCfgEdgeKind.
Proof. solve_decision. Defined.

(** The derived order: kinds in declaration order, edges field by field. *)
Definition kind_rank (k : LocalCfgEdgeKind) : N :=
  match k with
  | KNext => 0 | KTrue => 1 | KFalse => 2 | KWhenCase => 3 | KException => 4 | KReturn => 5
  | KLoopBack => 6 | KBreak => 7 | KContinue => 8 | KFinally => 9 | KDead => 10
  end.
Definition edge_key (e : LocalCfgEdge) : N * (N * (N * option string)) :=
  (source_node_id e, (target_node_id e, (kind_rank (kind e), label e))).

(* --------------------------------------------------------------------- *)
(** ** Serialization *)

Definition role_name (r : LocalCfgNodeRole) : string :=
  match r with
  | REntry => "ENTRY" | RExit => "EXIT" | ROperation => "OPERATION" | RDecision => "DECISION"
  | RMerge => "MERGE" | RReturn => "RETURN" | RThrow => "THROW" | RCatch => "CATCH" | RFinally => "FINALLY"
  | RLoopCondition => "LOOP_CONDITION" | RLoopExit => "LOOP_EXIT" | RDead => "DEAD"
  end.
Definition kind_name (k : LocalCfgEdgeKind) : string :=
  match k with
  | KNext => "NEXT" | KTrue => "TRUE" | KFalse => "FALSE" | KWhenCase => "WHEN_CASE"
  | KException => "EXCEPTION" | KReturn => "RETURN" | KLoopBack => "LOOP_BACK" | KBreak => "BREAK"
  | KContinue => "CONTINUE" | KFinally => "FINALLY" | KDead => "DEAD"
  end.
Definition jnat (n : N) : Value := JNumber (PosInt n).
Definition node_value (n : LocalCfgNode) : Value :=
  JObject ([("nodeId", jnat (node_id n)); ("role", JString (role_name (role n)))]
    ++ match source n with
       | Some r => [("source", JObject [("start", jnat (range_start r)); ("end", jnat (range_end r))])]
       | None => []
       end).
Definition edge_value (e : LocalCfgEdge) : Value :=
  JObject ([("sourceNodeId", jnat (source_node_id e)); ("targetNodeId", jnat (target_node_id e));
            ("kind", JString (kind_name (kind e)))]
    ++ match label e with Some l => [("label", JString l)] | None => [] end).
Definition payload_value (p : LocalCfgPayload) : Value :=
  JObject [("schema", JString (lc_schema p)); ("graphId", JString (graph_id p));
           ("ownerSymbolIdentity", JString (owner_symbol_identity p)); ("file", JString (file p));
           ("compilerGraphName", JString (compiler_graph_name p)); ("provider", JString (provider p));
           ("sourceProvenance", JString (source_provenance p));
           ("nodes", JArray (node_value <$> nodes p)); ("edges", JArray (edge_value <$> edges p))].
Definition with_graph_id (p : LocalCfgPayload) (id : string) : LocalCfgPayload :=
  {| lc_schema := lc_schema p; graph_id := id; owner_symbol_identity := owner_symbol_identity p;
     file := file p; compiler_graph_name := compiler_graph_name p; provider := provider p;
     source_provenance := source_provenance p; nodes := nodes p; edges := edges p |}.

(* --------------------------------------------------------------------- *)
(** ** Validation *)

Definition budget {A} (m : string) : Res A := Err (ClewError_new SliceBudgetExceeded m).

Definition bad_path_part (part : string) : bool :=
  str_is_empty part || str_eqb part "." || str_eqb part "..".

(** Locals of the loop over the nodes. *)
Record NodeScan : Type := mkNodeScan {
  node_ids : BTreeSet N; previous : option N; entry_count : nat; terminal_count : nat }.

Definition is_terminal (r : LocalCfgNodeRole) : bool :=
  match r with RExit | RReturn | RThrow => true | _ => false end.
Definition is_entry (r : LocalCfgNodeRole) : bool := match r with REntry => true | _ => false end.

Definition scan_node (st : NodeScan) (node : LocalCfgNode) : Res NodeScan :=
  if (match previous st with Some v => geb v (node_id node) | None => false end)
     || bset_contains (node_id node) (node_ids st)
  then invalid "local CFG nodes are not canonical and unique"
  else if (match source node with Some r => range_end r <=? range_start r | None => false end)
  then invalid "local CFG node source range is invalid"
  else Ok {| node_ids := bset_insert (node_id node) (node_ids st); previous := Some (node_id node);
             entry_count := entry_count st + (if is_entry (role node) then 1 else 0);
             terminal_count := terminal_count st + (if is_terminal (role node) then 1 else 0) |}.

(** [adjacency.entry(source).or_default().push(target)]. *)
Definition targets (adjacency : BTreeMap N (list N)) (n : N) : list N :=
  match bmap_get n adjacency with Some l => l | None => [] end.
Definition push_target (adjacency : BTreeMap N (list N)) (e : LocalCfgEdge) : BTreeMap N (list N) :=
  bmap_insert (source_node_id e) (targets adjacency (source_node_id e) ++ [target_node_id e]) adjacency.

Section Validate.
Context {P : Primitives}.

Definition validate_text (value label : string) (max_bytes : N) : Res unit :=
  if str_is_empty value || (max_bytes <? str_len value) || has_control_char value || negb (is_nfc value)
  then invalid (label +:+ " is empty, oversized, non-NFC, or unsafe")
  else Ok tt.

Definition scan_edge (ids : BTreeSet N) (st : option LocalCfgEdge * BTreeMap N (list N)) (edge : LocalCfgEdge)
  : Res (option LocalCfgEdge * BTreeMap N (list N)) :=
  if negb (bset_contains (source_node_id edge) ids) || negb (bset_contains (target_node_id edge) ids)
  then invalid "local CFG edge has a dangling endpoint"
  else if (match st.1 with Some v => geb (edge_key v) (edge_key edge) | None => false end)
  then invalid "local CFG edges are not canonical and unique"
  else
    (match label edge with
     | Some l => validate_text l "local CFG edge label" MAX_CFG_TEXT_BYTES
     | None => Ok tt
     end) ;;?
    Ok (Some edge, push_target st.2 edge).

(** The graph part of [validate]. *)
Definition validate_graph (p : LocalCfgPayload) : Res unit :=
  let? scan := try_fold scan_node (mkNodeScan [] None 0 0) (nodes p) in
  if negb (Nat.eqb (entry_count scan) 1) || Nat.eqb (terminal_count scan) 0
  then invalid "local CFG must have one entry and a terminal node"
  else
    let? '(_, adjacency) := try_fold (scan_edge (node_ids scan)) (None, []) (edges p) in
    match List.find (fun n => is_entry (role n)) (nodes p) with
    | None => invalid "validated entry"
    | Some entry =>
        let start := [node_id entry] in
        match bfs (targets adjacency) (S (length (edges p))) start start with
        | None => invalid "out of fuel"
        | Some reachable =>
            if existsb (fun n => negb (bool_decide (role n = RDead)) && negb (bset_contains (node_id n) reachable))
                 (nodes p)
            then invalid "local CFG has an unreachable non-dead node"
            else Ok tt
        end
    end.

(** [validate]. *)
Definition validate (p : LocalCfgPayload) : Res unit :=
  if str_neqb (lc_schema p) LOCAL_CFG_SCHEMA || str_neqb (provider p) "K2_FIR_CFG"
     || str_neqb (source_provenance p) "COMPILER_UTF16_RANGE_TO_UTF8_BYTES"
  then invalid "local CFG authority fields are invalid"
  else
    validate_kotlin_full_symbol_identity (owner_symbol_identity p) ;;?
    validate_text (file p) "local CFG file" 4096 ;;?
    if starts_with "/" (file p) || existsb bad_path_part (split_char "/" (file p))
    then invalid "local CFG file is not repository-relative"
    else
      validate_text (compiler_graph_name p) "local CFG compiler graph name" MAX_CFG_TEXT_BYTES ;;?
      if (match nodes p with [] => true | _ => false end) || (MAX_LOCAL_CFG_NODES <? vlen (nodes p))
         || (MAX_LOCAL_CFG_EDGES <? vlen (edges p))
      then budget "local CFG exceeds its node or edge budget"
      else
        validate_graph p ;;?
        if str_neqb (graph_id p) (hash (payload_value (with_graph_id p EmptyString)))
        then invalid "local CFG graph identity is invalid"
        else Ok tt.

Definition seal (p : LocalCfgPayload) : Res LocalCfgPayload :=
  let p := with_graph_id p EmptyString in
  let p := with_graph_id p (hash (payload_value p)) in
  validate p ;;?
  Ok p.

(* --------------------------------------------------------------------- *)
(** ** The catalog of graphs *)

Definition LocalCfgCatalog : Type := BTreeMap (string * string) PreparedLocalCfg.

(** [LocalCfgCatalog::insert]: a repeated owner is reported after the new graph
    has replaced the old one. *)
Definition catalog_insert (c : LocalCfgCatalog) (graph : PreparedLocalCfg) : LocalCfgCatalog * Res unit :=
  match validate (payload graph) with
  | Err e => (c, Err e)
  | Ok _ =>
      if str_neqb (object_schema (payload_ref (support graph))) LOCAL_CFG_PAYLOAD_SCHEMA
      then (c, corrupt "local CFG payload has another CAS schema")
      else
        let key := (member_alias (support graph), owner_symbol_identity (payload graph)) in
        (bmap_insert key graph c,
         if bmap_contains_key key c then corrupt "local CFG owner is duplicated in one member" else Ok tt)
  end.
Definition catalog_get (c : LocalCfgCatalog) (alias owner : string) : option PreparedLocalCfg :=
  bmap_get (alias, owner) c.

(* --------------------------------------------------------------------- *)
(** ** Boundaries *)

Definition boundary_fields : list string :=
  ["schema"; "file"; "ownerSymbolIdentity"; "compilerGraphName"; "stage"; "code"; "resolution";
   "provider"; "sourceProvenance"; "rawRowHash"].
Definition worker_codes : list string :=
  ["INVALID_LOCAL_CFG_IDENTITY"; "UNSUPPORTED_LOCAL_CFG_NODE"; "UNSUPPORTED_LOCAL_CFG_EDGE";
   "LOCAL_CFG_BUDGET_EXCEEDED"; "INVALID_LOCAL_CFG_TOPOLOGY"; "NO_SOURCE_FUNCTION";
   "LOCAL_CFG_NORMALIZATION_FAILED"; "DUPLICATE_LOCAL_CFG_OWNER"].
Definition normalizer_codes : list string := ["INVALID_LOCAL_CFG"; "UNPROVEN_LOCAL_CFG_OWNER"].

(** [value.get(k).and_then(Value::as_str)]. *)
Definition get_str (value : Value) (k : string) : option string :=
  match value_get k value with Some v => as_str v | None => None end.
Definition get_is (value : Value) (k expected : string) : bool :=
  match get_str value k with Some v => str_eqb v expected | None => false end.
Definition code_in (code : option string) (l : list string) : bool :=
  match code with Some c => existsb (str_eqb c) l | None => false end.

(** [byte.is_ascii_digit() || (b'a'..=b'f').contains(&byte)]. *)
Definition canonical_sha256 (value : string) : bool :=
  match strip_prefix "sha256:" value with
  | Some d => (str_len d =? 64) && str_all (fun a => is_ascii_digit a || ascii_between 97 102 a) d
  | None => false
  end.

(** An optional field: checked when it is a string, refused when it is not. *)
Definition optional_str (value : Value) (k : string) (check : string -> Res unit) (malformed : string) : Res unit :=
  match get_str value k with
  | Some v => check v
  | None => match value_get k value with Some _ => invalid malformed | None => Ok tt end
  end.

Definition check_boundary_file (v : string) : Res unit :=
  validate_text v "local CFG boundary file" 4096 ;;?
  if starts_with "/" v || contains_char "\" v || existsb bad_path_part (split_char "/" v)
  then invalid "local CFG boundary file is not repository-relative"
  else Ok tt.

Definition validate_boundary (value : Value) : Res unit :=
  match value with
  | JObject entries =>
      if existsb (fun key => negb (existsb (str_eqb key) boundary_fields)) entries.*1
      then invalid "local CFG boundary has a field outside its exact contract"
      else
        let provider := get_str value "provider" in
        let code := get_str value "code" in
        let worker_code := code_in code worker_codes in
        let normalizer_code := code_in code normalizer_codes in
        let provider_ok :=
          match provider with
          | Some p => (str_eqb p "K2_FIR_CFG" && worker_code && negb normalizer_code)
                      || (str_eqb p "CODECLEW_LOCAL_CFG_NORMALIZER" && negb worker_code && normalizer_code)
          | None => false
          end in
        if negb (get_is value "schema" LOCAL_CFG_BOUNDARY_SCHEMA) || negb (get_is value "stage" "NORMALIZE")
           || negb (get_is value "resolution" "UNKNOWN")
           || negb (get_is value "sourceProvenance" "COMPILER_UTF16_RANGE_TO_UTF8_BYTES") || negb provider_ok
        then invalid "malformed local CFG UNKNOWN boundary"
        else
          let? raw_hash := ok_or (get_str value "rawRowHash")
            (ClewError_new InvalidInput "local CFG boundary has no raw row hash") in
          if negb (canonical_sha256 raw_hash) then invalid "local CFG boundary raw row hash is invalid"
          else
            optional_str value "file" check_boundary_file "local CFG boundary file is malformed" ;;?
            optional_str value "ownerSymbolIdentity" validate_kotlin_full_symbol_identity
              "local CFG boundary owner is malformed" ;;?
            optional_str value "compilerGraphName"
              (fun v => validate_text v "local CFG boundary compiler graph name" MAX_CFG_TEXT_BYTES)
              "local CFG boundary compiler graph name is malformed"
  | _ => invalid "local CFG boundary is not an object"
  end.
End Validate.

(* --------------------------------------------------------------------- *)
(** ** What an admitted graph is *)

Definition range_ok (n : LocalCfgNode) : Prop :=
  match source n with Some r => range_start r < range_end r | None => True end.
Definition flow (p : LocalCfgPayload) (a b : N) : Prop :=
  exists e, e ∈ edges p /\ source_node_id e = a /\ target_node_id e = b.
Definition endpoints_ok (ids : list N) (e : LocalCfgEdge) : Prop :=
  source_node_id e ∈ ids /\ target_node_id e ∈ ids.

Section Graph.
Context {P : Primitives}.

Definition label_ok (e : LocalCfgEdge) : Prop :=
  match label e with
  | Some l => validate_text l "local CFG edge label" MAX_CFG_TEXT_BYTES = Ok tt
  | None => True
  end.

Record graph_ok (p : LocalCfgPayload) : Prop := mkGraphOk {
  graph_nodes : StronglySorted lt_ord (node_id <$> nodes p);
  graph_ranges : Forall range_ok (nodes p);
  graph_edges : StronglySorted lt_ord (edge_key <$> edges p);
  graph_endpoints : Forall (endpoints_ok (node_id <$> nodes p)) (edges p);
  graph_labels : Forall label_ok (edges p);
  graph_terminal : exists t, t ∈ nodes p /\ is_terminal (role t) = true;
  graph_entry : exists entry, List.filter (fun n => is_entry (role n)) (nodes p) = [entry] /\
    forall n, n ∈ nodes p -> role n <> RDead -> rtc (flow p) (node_id entry) (node_id n)
}.

(** [x] is below everything a strictly sorted rest may hold. *)
Definition above {K} `{Ord K} (previous : option K) (k : K) : Prop :=
  match previous with Some v => lt_ord v k | None => True end.

Lemma above_check {K} `{LawfulOrd K} (previous : option K) k :
  (match previous with Some v => geb v k | None => false end) = false <-> above previous k.
Proof. destruct previous; cbn; [apply geb_false|done]. Qed.

(* --------------------------------------------------------------------- *)
(** ** The loop over the nodes *)

Definition nodes_good (previous : option N) (l : list LocalCfgNode) : Prop :=
  StronglySorted lt_ord (node_id <$> l) /\ Forall (fun n => above previous (node_id n)) l /\ Forall range_ok l.

Definition scan_covered (st : NodeScan) : Prop :=
  bset_wf (node_ids st) /\ forall i, i ∈ node_ids st -> exists v, previous st = Some v /\ ~ lt_ord v i.

Lemma scan_node_cases st n : scan_covered st ->
  match scan_node st n with
  | Ok st' => above (previous st) (node_id n) /\ range_ok n /\ scan_covered st' /\
      previous st' = Some (node_id n) /\ node_ids st' = bset_insert (node_id n) (node_ids st) /\
      entry_count st' = (entry_count st + if is_entry (role n) then 1 else 0)%nat /\
      terminal_count st' = (terminal_count st + if is_terminal (role n) then 1 else 0)%nat
  | Err _ => ~ (above (previous st) (node_id n) /\ range_ok n)
  end.
Proof.
  intros [Hw Hc]. unfold scan_node, invalid.
  destruct (match previous st with Some v => geb v (node_id n) | None => false end) eqn:E1; cbn [orb].
  { intros [Ha _]. apply above_check in Ha. congruence. }
  apply above_check in E1.
  assert (bset_contains (node_id n) (node_ids st) = false) as ->.
  { apply bset_contains_false. intros Hin. destruct (Hc _ Hin) as (v & Hv & Hn). rewrite Hv in E1. by apply Hn. }
  unfold range_ok. destruct (source n) as [r|]; [destruct (N.leb_spec (range_end r) (range_start r))|].
  1: { intros [_ Hr]. lia. }
  all: (split_and!; [done|done || lia| |done..]); (split; [by apply bset_insert_wf|]); cbn [node_ids previous];
    intros i [->|Hi]%bset_insert_elem; eexists; (split; [reflexivity|]); [apply lt_irrefl|];
    destruct (Hc i Hi) as (v & Hv & Hn); rewrite Hv in E1; cbn in E1; intros Hlt; apply Hn; by eapply lt_trans.
Qed.

Lemma scan_nodes_cases l : forall st, scan_covered st ->
  match try_fold scan_node st l with
  | Ok st' => nodes_good (previous st) l /\
      node_ids st' = bset_extend (node_ids st) (node_id <$> l) /\
      entry_count st' = (entry_count st + length (List.filter (fun n => is_entry (role n)) l))%nat /\
      terminal_count st' = (terminal_count st + length (List.filter (fun n => is_terminal (role n)) l))%nat
  | Err _ => ~ nodes_good (previous st) l
  end.
Proof.
  induction l as [|n l IH]; intros st Hst; cbn [try_fold].
  { split_and!; [split_and!; constructor|done|cbn; lia|cbn; lia]. }
  pose proof (scan_node_cases st n Hst) as Hn. destruct (scan_node st n) as [st1|e]; cbn [result_bind].
  2: { intros (_ & Ha%Forall_inv & Hr%Forall_inv). by apply Hn. }
  destruct Hn as (Ha & Hr & Hst1 & Hp & Hi & He & Ht). specialize (IH st1 Hst1).
  rewrite Hp in IH. destruct (try_fold scan_node st1 l) as [st'|e].
  - destruct IH as ((Hs & Hab & Hrs) & Hi' & He' & Ht'). split_and!.
    + split_and!; [|constructor; [done|]|by constructor].
      * rewrite fmap_cons. constructor; [done|]. apply Forall_fmap. exact Hab.
      * eapply list.Forall_impl; [exact Hab|]. intros x Hx. destruct (previous st); [|done]. by eapply lt_trans.
    + by rewrite Hi', Hi.
    + rewrite He', He. cbn. destruct (is_entry (role n)); cbn; lia.
    + rewrite Ht', Ht. cbn. destruct (is_terminal (role n)); cbn; lia.
  - intros (Hs & _ & Hrs). apply IH. rewrite fmap_cons in Hs. apply StronglySorted_inv in Hs as [Hs Hlt].
    split_and!; [done|rewrite Forall_fmap in Hlt; exact Hlt|by apply Forall_inv_tail in Hrs].
Qed.

(* --------------------------------------------------------------------- *)
(** ** The loop over the edges *)

Definition edges_good (ids : list N) (previous : option LocalCfgEdge) (l : list LocalCfgEdge) : Prop :=
  StronglySorted lt_ord (edge_key <$> l) /\ Forall (fun e => above (edge_key <$> previous) (edge_key e)) l /\
  Forall (endpoints_ok ids) l /\ Forall label_ok l.

Lemma push_target_spec adjacency e n t :
  t ∈ targets (push_target adjacency e) n <->
  t ∈ targets adjacency n \/ (source_node_id e = n /\ target_node_id e = t).
Proof.
  unfold push_target. unfold targets at 1. rewrite bmap_get_insert. destruct (cmp n (source_node_id e)) eqn:E.
  - apply cmp_eq_iff in E as ->. rewrite elem_of_app, list_elem_of_singleton. naive_solver.
  - assert (source_node_id e <> n) by (intros <-; by rewrite cmp_refl in E). fold (targets adjacency n). naive_solver.
  - assert (source_node_id e <> n) by (intros <-; by rewrite cmp_refl in E). fold (targets adjacency n). naive_solver.
Qed.

Lemma scan_edge_cases ids st e :
  match scan_edge ids st e with
  | Ok st' => above (edge_key <$> st.1) (edge_key e) /\ endpoints_ok ids e /\ label_ok e /\
      st' = (Some e, push_target st.2 e)
  | Err _ => ~ (above (edge_key <$> st.1) (edge_key e) /\ endpoints_ok ids e /\ label_ok e)
  end.
Proof.
  unfold scan_edge, invalid, endpoints_ok.
  destruct (bset_contains (source_node_id e) ids) eqn:E1; cbn [negb orb].
  2: { apply bset_contains_false in E1. naive_solver. }
  apply bset_contains_spec in E1. destruct (bset_contains (target_node_id e) ids) eqn:E2; cbn [negb].
  2: { apply bset_contains_false in E2. naive_solver. }
  apply bset_contains_spec in E2.
  assert ((match st.1 with Some v => geb (edge_key v) (edge_key e) | None => false end) =
    (match edge_key <$> st.1 with Some v => geb v (edge_key e) | None => false end)) as -> by (by destruct (st.1)).
  destruct (match edge_key <$> st.1 with Some v => _ | None => _ end) eqn:E3.
  { intros [Ha _]. apply above_check in Ha. congruence. }
  apply above_check in E3. unfold label_ok. destruct (label e) as [lb|]; cbn [result_bind]; [|done].
  destruct (validate_text lb _ _) as [[]|]; cbn [result_bind]; [done|]. intros (_ & _ & ?). done.
Qed.

Lemma scan_edges_cases ids l : forall st,
  match try_fold (scan_edge ids) st l with
  | Ok st' => edges_good ids st.1 l /\
      forall n t, t ∈ targets st'.2 n <->
        t ∈ targets st.2 n \/ exists e, e ∈ l /\ source_node_id e = n /\ target_node_id e = t
  | Err _ => ~ edges_good ids st.1 l
  end.
Proof.
  induction l as [|e l IH]; intros st; cbn [try_fold].
  { split; [split_and!; constructor|]. intros n t. rewrite exists_elem_nil. tauto. }
  pose proof (scan_edge_cases ids st e) as Hn. destruct (scan_edge ids st e) as [st1|err]; cbn [result_bind].
  2: { intros (_ & Ha%Forall_inv & Hp%Forall_inv & Hl%Forall_inv). by apply Hn. }
  destruct Hn as (Ha & Hp & Hl & ->). specialize (IH (Some e, push_target st.2 e)). cbn [fst snd] in IH.
  change (edge_key <$> Some e) with (Some (edge_key e)) in *.
  destruct (try_fold _ _ l) as [st'|err].
  - destruct IH as ((Hs & Hab & Hps & Hls) & Ht). split; [split_and!|].
    + rewrite fmap_cons. constructor; [done|]. apply Forall_fmap. exact Hab.
    + constructor; [done|]. eapply list.Forall_impl; [exact Hab|]. intros x Hx.
      destruct (edge_key <$> st.1); [|done]. by eapply lt_trans.
    + by constructor.
    + by constructor.
    + intros n t. rewrite Ht, push_target_spec, exists_elem_cons. tauto.
  - intros (Hs & _ & Hps & Hls). apply IH. rewrite fmap_cons in Hs. apply StronglySorted_inv in Hs as [Hs Hlt].
    split_and!; [done|rewrite Forall_fmap in Hlt; exact Hlt|by apply Forall_inv_tail in Hps|by apply Forall_inv_tail in Hls].
Qed.

(* --------------------------------------------------------------------- *)
(** ** The whole graph *)

Lemma filter_find {A} (f : A -> bool) l a r : List.filter f l = a :: r -> List.find f l = Some a.
Proof. induction l as [|x l IH]; cbn; [done|]. destruct (f x); [by intros [= -> _]|exact IH]. Qed.

Lemma filter_nonempty {A} (f : A -> bool) l : length (List.filter f l) <> 0%nat <-> exists a, a ∈ l /\ f a = true.
Proof.
  setoid_rewrite list_elem_of_In. setoid_rewrite <- filter_In.
  destruct (List.filter f l) as [|a r]; cbn; [naive_solver|]. split; [by exists a; left|done].
Qed.

Lemma reachable_check p adjacency entry :
  (forall n t, t ∈ targets adjacency n <-> flow p n t) ->
  exists r, bfs (targets adjacency) (S (length (edges p))) [node_id entry] [node_id entry] = Some r /\
    forall x, x ∈ r <-> rtc (flow p) (node_id entry) x.
Proof.
  intros Ht. destruct (bfs_reach (targets adjacency) (target_node_id <$> edges p) [node_id entry]
    (S (length (edges p)))) as (r & Hr & _ & He).
  - intros y d (e & Hin & _ & <-)%Ht. by apply list_elem_of_fmap_2.
  - rewrite length_fmap. cbn. lia.
  - exists r. split; [exact Hr|]. intros x. rewrite He. unfold reach. setoid_rewrite list_elem_of_singleton.
    assert (rtc (edge (targets adjacency)) (node_id entry) x <-> rtc (flow p) (node_id entry) x) as Hf.
    { split; apply rtc_subrel; intros a b; unfold edge; by rewrite Ht. }
    rewrite <- Hf. split; [by intros (s & -> & ?)|]. intros H. by exists (node_id entry).
Qed.

Lemma unreachable_check p r :
  existsb (fun n => negb (bool_decide (role n = RDead)) && negb (bset_contains (node_id n) r)) (nodes p) = false <->
  forall n, n ∈ nodes p -> role n <> RDead -> node_id n ∈ r.
Proof.
  rewrite existsb_false, list.Forall_forall. apply forall_proper. intros n.
  rewrite andb_false_iff, !negb_false_iff, bool_decide_eq_true, bset_contains_spec.
  destruct (decide (role n = RDead)); tauto.
Qed.

Lemma edges_good_iff p ids : (forall i, i ∈ ids <-> i ∈ node_id <$> nodes p) ->
  edges_good ids None (edges p) <->
  StronglySorted lt_ord (edge_key <$> edges p) /\ Forall (endpoints_ok (node_id <$> nodes p)) (edges p) /\
  Forall label_ok (edges p).
Proof.
  intros Hi. unfold edges_good, endpoints_ok. setoid_rewrite Hi. split; [naive_solver|].
  intros (? & ? & ?). split_and!; try done. by apply list.Forall_true.
Qed.

(** The part of [validate_graph] after the node loop, on the node ids it found. *)
Lemma graph_rest_iff p ids entry :
  (forall i, i ∈ ids <-> i ∈ node_id <$> nodes p) ->
  List.find (fun n => is_entry (role n)) (nodes p) = Some entry ->
  (let? '(_, adjacency) := try_fold (scan_edge ids) (None, []) (edges p) in
   match List.find (fun n => is_entry (role n)) (nodes p) with
   | None => invalid "validated entry"
   | Some entry =>
       match bfs (targets adjacency) (S (length (edges p))) [node_id entry] [node_id entry] with
       | None => invalid "out of fuel"
       | Some reachable =>
           if existsb (fun n => negb (bool_decide (role n = RDead)) && negb (bset_contains (node_id n) reachable))
                (nodes p)
           then invalid "local CFG has an unreachable non-dead node"
           else Ok tt
       end
   end) = Ok tt <->
  edges_good ids None (edges p) /\
  forall n, n ∈ nodes p -> role n <> RDead -> rtc (flow p) (node_id entry) (node_id n).
Proof.
  intros Hi Hf. rewrite Hf. pose proof (scan_edges_cases ids (edges p) (None, [])) as He. cbn [fst snd] in He.
  destruct (try_fold (scan_edge ids) _ (edges p)) as [[o adjacency]|e]; cbn [result_bind]; [|split; [done|tauto]].
  destruct He as [Hg Ht]. cbn [snd] in Ht.
  destruct (reachable_check p adjacency entry) as (r & -> & Hr).
  { intros n t. rewrite Ht. unfold flow. rewrite elem_of_nil. tauto. }
  unfold invalid. rewrite guard_ok, unreachable_check. setoid_rewrite Hr. tauto.
Qed.

Lemma graph_ok_iff p : validate_graph p = Ok tt <-> graph_ok p.
Proof.
  unfold validate_graph. rewrite result_bind_ok.
  pose proof (scan_nodes_cases (nodes p) (mkNodeScan [] None 0 0)) as Hn.
  assert (scan_covered (mkNodeScan [] None 0 0)) as H0 by (split; [constructor|by intros i ?%elem_of_nil]).
  specialize (Hn H0). destruct (try_fold scan_node _ (nodes p)) as [scan|e].
  2: { split; [by intros (? & ? & _)|]. intros [Hs Hr _ _ _ _ _]. destruct Hn. split_and!; [done| |done].
       by apply list.Forall_true. }
  destruct Hn as ((Hs & _ & Hr) & Hids & Hec & Htc). cbn [node_ids entry_count terminal_count] in *.
  assert (forall i, i ∈ node_ids scan <-> i ∈ node_id <$> nodes p) as Hi.
  { intros i. rewrite Hids. apply bset_of_list_elem. }
  split.
  - intros (scan' & [= <-] & H). unfold invalid at 1 in H.
    rewrite guard_ok, orb_false_iff, negb_false_iff, Nat.eqb_eq, Nat.eqb_neq, Hec, Htc in H.
    destruct H as ((He1 & Ht1%filter_nonempty) & H). cbn in He1.
    destruct (List.filter (fun n => is_entry (role n)) (nodes p)) as [|entry [|]] eqn:Hfe; try discriminate He1.
    rewrite (graph_rest_iff p _ entry Hi (filter_find _ _ _ _ Hfe)), (edges_good_iff p _ Hi) in H.
    destruct H as ((? & ? & ?) & Hreach). split; try done. exists entry. done.
  - intros [_ _ Hse Hep Hl Ht1%filter_nonempty (entry & Hfe & Hreach)]. exists scan. split; [done|].
    unfold invalid at 1. rewrite guard_ok, orb_false_iff, negb_false_iff, Nat.eqb_eq, Nat.eqb_neq, Hec, Htc, Hfe.
    split; [done|].
    rewrite (graph_rest_iff p _ entry Hi (filter_find _ _ _ _ Hfe)), (edges_good_iff p _ Hi). done.
Qed.

Record cfg_ok (p : LocalCfgPayload) : Prop := mkCfgOk {
  cfg_schema : lc_schema p = LOCAL_CFG_SCHEMA;
  cfg_provider : provider p = "K2_FIR_CFG";
  cfg_provenance : source_provenance p = "COMPILER_UTF16_RANGE_TO_UTF8_BYTES";
  cfg_owner : validate_kotlin_full_symbol_identity (owner_symbol_identity p) = Ok tt;
  cfg_file : validate_text (file p) "local CFG file" 4096 = Ok tt;
  cfg_relative : starts_with "/" (file p) = false /\
    Forall (fun part => bad_path_part part = false) (split_char "/" (file p));
  cfg_name : validate_text (compiler_graph_name p) "local CFG compiler graph name" MAX_CFG_TEXT_BYTES = Ok tt;
  cfg_budget : nodes p <> [] /\ vlen (nodes p) <= MAX_LOCAL_CFG_NODES /\ vlen (edges p) <= MAX_LOCAL_CFG_EDGES;
  cfg_graph : graph_ok p;
  cfg_identity : graph_id p = hash (payload_value (with_graph_id p EmptyString))
}.

Lemma cfg_ok_iff p : validate p = Ok tt <-> cfg_ok p.
Proof.
  unfold validate, budget. unfold invalid.
  rewrite guard_ok, !seq_ok, guard_ok, !seq_ok, guard_ok, seq_ok, guard_ok, graph_ok_iff,
    !orb_false_iff, existsb_false, !str_neqb_false, empty_match, !N.ltb_ge.
  split; [|by intros [? ? ? ? ? [? ?] ? (? & ? & ?) ? ?]]. intros H. destruct_and! H. by constructor.
Qed.

(** C38: a local control-flow graph is admitted exactly when its authority
    fields, owner, file and name are well formed, it is within the node and edge
    budgets, node ids and edges are strictly ordered, source ranges are
    non-empty, edges join existing nodes, there is a terminal node and exactly one
    entry, every node that is not dead is reachable from the entry along edges,
    and the graph id is the hash of the rest of the payload. *)
Theorem local_cfg_validate_spec p : validate p = Ok tt <-> cfg_ok p.
Proof. apply cfg_ok_iff. Qed.

Lemma with_graph_id_twice p a b : with_graph_id (with_graph_id p a) b = with_graph_id p b.
Proof. done. Qed.
Lemma with_graph_id_same p : with_graph_id p (graph_id p) = p.
Proof. by destruct p. Qed.

(** Sealing gives a graph its identity: what it returns is admitted, differs
    from the input at most in the graph id, and is a fixed point of sealing; an
    admitted graph is sealed already. *)
Theorem seal_spec p :
  (forall q, seal p = Ok q ->
     validate q = Ok tt /\ with_graph_id q EmptyString = with_graph_id p EmptyString /\ seal q = Ok q) /\
  (validate p = Ok tt -> seal p = Ok p).
Proof.
  assert (forall p, validate p = Ok tt -> seal p = Ok p) as Hfix.
  { intros q Hq. pose proof (cfg_identity _ (proj1 (cfg_ok_iff q) Hq)) as Hid. unfold seal.
    rewrite with_graph_id_twice, <- Hid, with_graph_id_same, Hq. done. }
  split; [|apply Hfix]. intros q Hq. unfold seal in Hq. rewrite seq_ok in Hq. destruct Hq as [Hv [= <-]].
  split_and!; [done|done|]. by apply Hfix.
Qed.

(** An admitted graph can be looked up under its member and owner and under
    nothing else new; a graph for an owner that is already present is refused, and
    the refused graph has then taken the place of the old one. *)
Theorem catalog_insert_get (c : LocalCfgCatalog) graph alias owner :
  validate (payload graph) = Ok tt ->
  object_schema (payload_ref (support graph)) = LOCAL_CFG_PAYLOAD_SCHEMA ->
  let key := (member_alias (support graph), owner_symbol_identity (payload graph)) in
  let '(c', r) := catalog_insert c graph in
  (is_ok r = true <-> catalog_get c key.1 key.2 = None) /\
  catalog_get c' alias owner = if decide ((alias, owner) = key) then Some graph else catalog_get c alias owner.
Proof.
  intros Hv Hs key. unfold catalog_insert. rewrite Hv, Hs, str_neqb_refl. fold key. split.
  - unfold catalog_get. rewrite <- surjective_pairing. unfold bmap_contains_key. destruct (bmap_get key c); cbn; naive_solver.
  - unfold catalog_get. rewrite bmap_get_insert. destruct (cmp (alias, owner) key) eqn:E.
    + apply cmp_eq_iff in E. by rewrite decide_True.
    + rewrite decide_False; [done|]. intros He. rewrite He, cmp_refl in E. done.
    + rewrite decide_False; [done|]. intros He. rewrite He, cmp_refl in E. done.
Qed.
End Graph.

(* --------------------------------------------------------------------- *)
(** ** A branch with a dead node *)

Module CfgExample.
Definition diamond (id : string) : LocalCfgPayload :=
  {| lc_schema := LOCAL_CFG_SCHEMA; graph_id := id; owner_symbol_identity := "callable:a/f#jvm:f(I)V";
     file := "src/A.kt"; compiler_graph_name := "f"; provider := "K2_FIR_CFG";
     source_provenance := "COMPILER_UTF16_RANGE_TO_UTF8_BYTES";
     nodes := [mkNode 0 REntry None; mkNode 1 RDecision (Some (mkRange 3 9)); mkNode 2 ROperation None;
               mkNode 3 RExit None; mkNode 4 RDead None];
     edges := [mkEdge 0 1 KNext None; mkEdge 1 2 KTrue (Some "then"); mkEdge 1 3 KFalse None;
               mkEdge 2 3 KNext None; mkEdge 4 3 KDead None] |}.
Definition sealed : LocalCfgPayload :=
  match seal (P := toy) (diamond "") with Ok q => q | Err _ => diamond "" end.
Definition prepared : PreparedLocalCfg :=
  {| payload := sealed;
     support := {| member_alias := "m"; ls_compilation_id := "c";
                   generation_ref := mkCasObject "" "" "" 0;
                   payload_ref := mkCasObject "" LOCAL_CFG_PAYLOAD_SCHEMA "" 0 |} |}.
(** Without the edge into node 2 the graph is refused. *)
Definition broken : LocalCfgPayload :=
  {| lc_schema := LOCAL_CFG_SCHEMA; graph_id := ""; owner_symbol_identity := "callable:a/f#jvm:f(I)V";
     file := "src/A.kt"; compiler_graph_name := "f"; provider := "K2_FIR_CFG";
     source_provenance := "COMPILER_UTF16_RANGE_TO_UTF8_BYTES";
     nodes := nodes (diamond ""); edges := [mkEdge 0 1 KNext None; mkEdge 1 3 KFalse None] |}.
Example broken_refused : is_err (seal (P := toy) broken) = true.
Proof. vm_compute. reflexivity. Qed.
End CfgExample.
Import CfgExample.

Lemma seal_spec_witness : seal (P := toy) sealed = Ok sealed.
Proof. apply (seal_spec (P := toy) sealed). vm_compute. reflexivity. Defined.

Lemma catalog_insert_get_witness :
  catalog_get (catalog_insert (P := toy) [] prepared).1 "m" "callable:a/f#jvm:f(I)V" = Some prepared.
Proof.
  pose proof (catalog_insert_get (P := toy) [] prepared "m" "callable:a/f#jvm:f(I)V") as H.
  destruct (catalog_insert (P := toy) [] prepared) as [c' r] eqn:E. destruct H as [_ H].
  - vm_compute. reflexivity.
  - reflexivity.
  - exact H.
Defined.
