(* ===== verification/Completeness.v ===== *)
(** * Completeness vectors (incremental_v2.rs, generation_service.rs)

    The evidence an analysis carries about its own coverage and certainty, how
    evidence is combined ([meet]) and when it is good enough to publish. *)

From S2P Require Import Prelude Order Collections Text Json Canonical Instances Errors.

Definition COMPLETENESS_VECTOR_SCHEMA : string := "codeclew-completeness-vector/2.0".

(** [fn digest] of incremental_v2.rs. *)
Definition digest (value : string) : bool := digest_by_slice value.

Inductive Support : Type := Supported | Unsupported.
Inductive Coverage : Type :=
| Complete (scope_digest : string)
| Partial (observed_scopes boundaries : list string)
| Unknown.
Inductive Certainty : Type :=
| Verified
| Unsure (check_set : list string).
Record VerificationObligation : Type := mkObligation {
  ob_code : string;
  subject : list string;
  publication_blocking : bool
}.
Record CompletenessVector : Type := mkCompleteness {
  cv_schema : string;
  support : Support;
  coverage : Coverage;
  certainty : Certainty;
  obligations : list VerificationObligation
}.

#[export] Instance Support_eq_dec : EqDecision Support.
Proof. solve_decision. Defined.
#[export] Instance Coverage_eq_dec : EqDecision Coverage.
Proof. solve_decision. Defined.
#[export] Instance Certainty_eq_dec : EqDecision Certainty.
Proof. solve_decision. Defined.
#[export] Instance Obligation_eq_dec : EqDecision VerificationObligation.
Proof. solve_decision. Defined.
#[export] Instance CompletenessVector_eq_dec : EqDecision CompletenessVector.
Proof. solve_decision. Defined.

(** The tuple obligations are ordered by. *)
Definition obligation_key (o : VerificationObligation) : string * (list string * bool) :=
  (ob_code o, (subject o, publication_blocking o)).
#[export] Instance Ord_Obligation : Ord VerificationObligation := cmp_on obligation_key.
#[export] Instance LawfulOrd_Obligation : LawfulOrd VerificationObligation.
Proof. apply lawful_on. intros [] []; cbn. by intros [= -> -> ->]. Qed.

Definition bad_obligation (o : VerificationObligation) : bool :=
  str_is_empty (ob_code o) || (128 <? str_len (ob_code o))
  || (match subject o with [] => true | _ => false end).

Definition bad_coverage (c : Coverage) : Res unit :=
  match c with
  | Complete scope_digest =>
      if negb (digest scope_digest) then invalid "complete coverage scope is invalid" else Ok tt
  | Partial observed boundaries =>
      if (match observed with [] => true | _ => false end)
         || (match boundaries with [] => true | _ => false end)
         || windows_any geb observed || windows_any geb boundaries
      then invalid "partial coverage sets are not canonical" else Ok tt
  | Unknown => Ok tt
  end.

(** [CompletenessVector::validate]. *)
Definition completeness_validate (v : CompletenessVector) : Res unit :=
  if str_neqb (cv_schema v) COMPLETENESS_VECTOR_SCHEMA
  then invalid "completeness vector schema is invalid"
  else
    bad_coverage (coverage v) ;;?
    if (match certainty v with
        | Unsure checks => (match checks with [] => true | _ => false end) || windows_any geb checks
        | Verified => false
        end)
    then invalid "UNSURE evidence has no canonical check set"
    else if windows_any geb (obligations v) || existsb bad_obligation (obligations v)
    then invalid "verification obligations are not canonical"
    else Ok tt.

Definition verified_complete (scope_digest : string) : Res CompletenessVector :=
  let value := {| cv_schema := COMPLETENESS_VECTOR_SCHEMA; support := Supported;
                  coverage := Complete scope_digest; certainty := Verified; obligations := [] |} in
  completeness_validate value ;;?
  Ok value.

Definition coverage_scopes (c : Coverage) : BTreeSet string :=
  match c with
  | Complete scope_digest => bset_of_list [scope_digest]
  | Partial observed _ => bset_of_list observed
  | Unknown => []
  end.
Definition coverage_boundaries (c : Coverage) : BTreeSet string :=
  match c with Partial _ boundaries => bset_of_list boundaries | _ => [] end.
Definition certainty_checks (c : Certainty) : BTreeSet string :=
  match c with Verified => [] | Unsure checks => bset_of_list checks end.

Definition is_complete (c : Coverage) : bool := match c with Complete _ => true | _ => false end.

Definition meet_coverage (left right : Coverage) : Coverage :=
  let partial :=
    let observed := bset_extend (coverage_scopes left) (coverage_scopes right) in
    let boundaries := bset_extend (coverage_boundaries left) (coverage_boundaries right) in
    let boundaries := if is_complete left && is_complete right
                      then bset_insert "SCOPE_MISMATCH" boundaries else boundaries in
    Partial observed boundaries in
  match left, right with
  | Complete l, Complete r => if str_eqb l r then Complete l else partial
  | Unknown, _ | _, Unknown => Unknown
  | _, _ => partial
  end.

Definition meet_certainty (left right : Certainty) : Certainty :=
  match left, right with
  | Verified, Verified => Verified
  | _, _ => Unsure (bset_extend (certainty_checks left) (certainty_checks right))
  end.

Definition meet_support (left right : Support) : Support :=
  match left, right with Supported, Supported => Supported | _, _ => Unsupported end.

(** [CompletenessVector::meet]. *)
Definition meet (self other : CompletenessVector) : Res CompletenessVector :=
  completeness_validate self ;;?
  completeness_validate other ;;?
  let value :=
    {| cv_schema := COMPLETENESS_VECTOR_SCHEMA;
       support := meet_support (support self) (support other);
       coverage := meet_coverage (coverage self) (coverage other);
       certainty := meet_certainty (certainty self) (certainty other);
       obligations := dedup (sort (obligations self ++ obligations other)) |} in
  completeness_validate value ;;?
  Ok value.

Definition publishable (v : CompletenessVector) : bool :=
  bool_decide (support v = Supported) && is_complete (coverage v)
  && bool_decide (certainty v = Verified)
  && (match obligations v with [] => true | _ => false end).

Definition publishable_for (v : CompletenessVector) (expected_scope_digest : string) : bool :=
  digest expected_scope_digest && publishable v
  && (match coverage v with
      | Complete scope_digest => str_eqb scope_digest expected_scope_digest
      | _ => false
      end).

(** The derived [Serialize] of [Coverage], tagged by [status]. *)
Definition coverage_value (c : Coverage) : Value :=
  match c with
  | Complete scope_digest => JObject [("status", JString "COMPLETE"); ("scope_digest", JString scope_digest)]
  | Partial observed boundaries =>
      JObject [("status", JString "PARTIAL"); ("observed_scopes", JArray (JString <$> observed));
               ("boundaries", JArray (JString <$> boundaries))]
  | Unknown => JObject [("status", JString "UNKNOWN")]
  end.

(** The fields of [ReadyGeneration] that the aggregation reads. *)
Record ReadyGeneration : Type := mkReady { rg_compilation : string; rg_completeness : CompletenessVector }.

Section Aggregate.
Context {P : Primitives}.

Definition scope_entry (ready : ReadyGeneration) : Value :=
  JObject [("compilation", JString (rg_compilation ready));
           ("coverage", coverage_value (coverage (rg_completeness ready)))].

Definition aggregate_completeness (compilations : list ReadyGeneration) : Res CompletenessVector :=
  match compilations with
  | [] => corrupt "ready generation set is empty"
  | _ =>
      try_for_each (fun ready => completeness_validate (rg_completeness ready)) compilations ;;?
      if forallb (fun ready => publishable (rg_completeness ready)) compilations
      then verified_complete (hash (JArray (scope_entry <$> compilations)))
      else
        match rg_completeness <$> compilations with
        | [] => corrupt "ready generation set is empty"
        | first :: values => try_fold meet first values
        end
  end.
End Aggregate.

(* --------------------------------------------------------------------- *)
(** ** Well-formed evidence *)

Definition coverage_wf (c : Coverage) : Prop :=
  match c with
  | Complete scope_digest => digest scope_digest = true
  | Partial observed boundaries =>
      observed <> [] /\ boundaries <> [] /\ bset_wf observed /\ bset_wf boundaries
  | Unknown => True
  end.
Definition certainty_wf (c : Certainty) : Prop :=
  match c with Verified => True | Unsure checks => checks <> [] /\ bset_wf checks end.
Record completeness_wf (v : CompletenessVector) : Prop := mkCompletenessWf {
  wf_schema : cv_schema v = COMPLETENESS_VECTOR_SCHEMA;
  wf_coverage : coverage_wf (coverage v);
  wf_certainty : certainty_wf (certainty v);
  wf_obligations : bset_wf (obligations v);
  wf_obligation : Forall (fun o => bad_obligation o = false) (obligations v)
}.

Lemma bad_coverage_ok c : bad_coverage c = Ok tt <-> coverage_wf c.
Proof.
  destruct c as [s|o b|]; cbn [bad_coverage coverage_wf]; unfold invalid; rewrite ?guard_ok.
  - rewrite negb_false_iff. naive_solver.
  - rewrite !orb_false_iff, !empty_match, !windows_ge_wf. naive_solver.
  - naive_solver.
Qed.

Lemma completeness_validate_ok v : completeness_validate v = Ok tt <-> completeness_wf v.
Proof.
  unfold completeness_validate, invalid.
  rewrite guard_ok, seq_ok, !guard_ok, bad_coverage_ok, str_neqb_false, orb_false_iff, windows_ge_wf, existsb_false.
  assert ((match certainty v with
           | Unsure checks => (match checks with [] => true | _ => false end) || windows_any geb checks
           | Verified => false end) = false <-> certainty_wf (certainty v)) as ->.
  { destruct (certainty v); cbn; [done|]. by rewrite orb_false_iff, empty_match, windows_ge_wf. }
  split; [|by intros []]. intros H. destruct_and! H. by constructor.
Qed.

Lemma coverage_scopes_wf c : bset_wf (coverage_scopes c).
Proof. destruct c; cbn [coverage_scopes]; try apply bset_of_list_wf. constructor. Qed.
Lemma coverage_boundaries_wf c : bset_wf (coverage_boundaries c).
Proof. destruct c; cbn [coverage_boundaries]; try apply bset_of_list_wf; constructor. Qed.
Lemma certainty_checks_wf c : bset_wf (certainty_checks c).
Proof. destruct c; cbn [certainty_checks]; try apply bset_of_list_wf; constructor. Qed.
#[export] Hint Resolve coverage_scopes_wf coverage_boundaries_wf certainty_checks_wf : rust.

(** The partial coverage two vectors are combined into. *)
Lemma partial_wf l r :
  coverage_wf l -> coverage_wf r -> l <> Unknown -> r <> Unknown ->
  let b := bset_extend (coverage_boundaries l) (coverage_boundaries r) in
  coverage_wf (Partial (bset_extend (coverage_scopes l) (coverage_scopes r))
    (if is_complete l && is_complete r then bset_insert "SCOPE_MISMATCH" b else b)).
Proof.
  intros Hl Hr Hul Hur. cbn [coverage_wf]. split_and!.
  - apply extend_nonempty. left. destruct l; cbn [coverage_scopes]; [| |done]; apply of_list_nonempty; naive_solver.
  - destruct (is_complete l && is_complete r) eqn:E; [apply insert_nonempty|]. apply extend_nonempty.
    destruct l as [|o b|], r as [|o' b'|]; try done; cbn [coverage_boundaries];
      [right|left|left]; apply of_list_nonempty; naive_solver.
  - apply bset_extend_wf, coverage_scopes_wf.
  - destruct (_ && _); [apply bset_insert_wf|]; apply bset_extend_wf, coverage_boundaries_wf.
Qed.

Lemma meet_coverage_cases l r :
  (exists s, l = Complete s /\ r = Complete s /\ meet_coverage l r = Complete s) \/
  ((l = Unknown \/ r = Unknown) /\ meet_coverage l r = Unknown) \/
  (l <> Unknown /\ r <> Unknown /\ ~ (exists s, l = Complete s /\ r = Complete s) /\
   meet_coverage l r =
   let b := bset_extend (coverage_boundaries l) (coverage_boundaries r) in
   Partial (bset_extend (coverage_scopes l) (coverage_scopes r))
     (if is_complete l && is_complete r then bset_insert "SCOPE_MISMATCH" b else b)).
Proof.
  destruct l as [s|o b|], r as [s'|o' b'|]; unfold meet_coverage; try (right; left; naive_solver);
    try (right; right; split_and!; [done|done|naive_solver|done]).
  destruct (str_eqb s s') eqn:E.
  - apply str_eqb_eq in E as ->. left. by exists s'.
  - right; right. split_and!; [done|done| |done]. intros (? & [= ->] & [= ->]). by rewrite str_eqb_refl in E.
Qed.

Lemma meet_coverage_wf l r : coverage_wf l -> coverage_wf r -> coverage_wf (meet_coverage l r).
Proof.
  intros Hl Hr. destruct (meet_coverage_cases l r) as [(s & -> & -> & ->)|[[_ ->]|(? & ? & _ & ->)]]; try done.
  by apply partial_wf.
Qed.

Lemma meet_coverage_comm l r : meet_coverage l r = meet_coverage r l.
Proof.
  destruct (meet_coverage_cases l r) as [(s & Hl & Hr & He)|[[Hu He]|(Hl & Hr & Hn & He)]];
    destruct (meet_coverage_cases r l) as [(s' & Hr' & Hl' & He')|[[Hu' He']|(Hr' & Hl' & Hn' & He')]];
    rewrite He, He'; try congruence;
    try (exfalso; (destruct_or?; congruence) || (apply Hn; by eexists) || (apply Hn'; by eexists)).
  cbn zeta. rewrite (extend_comm (coverage_scopes l)), (extend_comm (coverage_boundaries l)), andb_comm;
    auto using coverage_scopes_wf, coverage_boundaries_wf.
Qed.

Lemma meet_coverage_idemp c : coverage_wf c -> meet_coverage c c = c.
Proof.
  intros Hc. destruct (meet_coverage_cases c c) as [(s & -> & _ & ->)|[[[->| ->] ->]|(Hu & _ & Hn & ->)]]; try done.
  destruct c as [s|o b|]; [naive_solver| |done]. cbn [coverage_wf] in Hc. destruct Hc as (_ & _ & Ho & Hb).
  cbn [coverage_scopes coverage_boundaries is_complete andb].
  rewrite (bset_of_list_id o), (bset_of_list_id b), !extend_idemp by done. done.
Qed.

Lemma meet_certainty_wf l r : certainty_wf l -> certainty_wf r -> certainty_wf (meet_certainty l r).
Proof.
  intros Hl Hr. destruct l as [|c], r as [|c']; cbn [meet_certainty certainty_wf] in *; try done;
    (split; [|apply bset_extend_wf, certainty_checks_wf]); apply extend_nonempty; cbn [certainty_checks];
    [right|left|left]; apply of_list_nonempty; naive_solver.
Qed.

Lemma meet_certainty_comm l r : meet_certainty l r = meet_certainty r l.
Proof.
  destruct l as [|c], r as [|c']; cbn [meet_certainty]; try done; f_equal;
    apply extend_comm; apply certainty_checks_wf.
Qed.

Lemma meet_certainty_idemp c : certainty_wf c -> meet_certainty c c = c.
Proof.
  destruct c as [|c]; cbn [meet_certainty certainty_checks certainty_wf]; [done|]. intros [_ Hc].
  by rewrite bset_of_list_id, extend_idemp.
Qed.

(** The vector [meet] computes, before its last check. *)
Definition meet_value (a b : CompletenessVector) : CompletenessVector :=
  {| cv_schema := COMPLETENESS_VECTOR_SCHEMA;
     support := meet_support (support a) (support b);
     coverage := meet_coverage (coverage a) (coverage b);
     certainty := meet_certainty (certainty a) (certainty b);
     obligations := dedup (sort (obligations a ++ obligations b)) |}.

Lemma meet_value_wf a b : completeness_wf a -> completeness_wf b -> completeness_wf (meet_value a b).
Proof.
  intros [_ Hc Hu Ho Hf] [_ Hc' Hu' Ho' Hf'].
  split; cbn [meet_value cv_schema coverage certainty obligations]; auto using meet_coverage_wf, meet_certainty_wf.
  - apply sort_dedup_wf.
  - rewrite list.Forall_forall in *. intros o. rewrite sort_dedup_elem, elem_of_app. naive_solver.
Qed.

(** [meet] never fails on valid evidence: its last check is redundant. *)
Lemma meet_ok a b c :
  meet a b = Ok c <-> completeness_wf a /\ completeness_wf b /\ c = meet_value a b.
Proof.
  unfold meet. fold (meet_value a b). rewrite !seq_ok, !completeness_validate_ok.
  split; [intros (? & ? & ? & [= <-]); done|]. intros (Ha & Hb & ->).
  split_and!; try done. by apply meet_value_wf.
Qed.

Lemma meet_value_comm a b : meet_value a b = meet_value b a.
Proof.
  unfold meet_value. f_equal.
  - by destruct (support a), (support b).
  - apply meet_coverage_comm.
  - apply meet_certainty_comm.
  - apply bset_ext; [apply sort_dedup_wf..|]. intros o. rewrite !sort_dedup_elem, !elem_of_app. tauto.
Qed.

Lemma meet_value_idemp a : completeness_wf a -> meet_value a a = a.
Proof.
  destruct a as [s p c u o]. intros [Hs Hc Hu Ho Hf].
  cbn [cv_schema support coverage certainty obligations] in *.
  unfold meet_value. cbn [cv_schema support coverage certainty obligations]. f_equal.
  - done.
  - by destruct p.
  - by apply meet_coverage_idemp.
  - by apply meet_certainty_idemp.
  - apply bset_ext; [apply sort_dedup_wf|done|]. intros x. rewrite sort_dedup_elem, elem_of_app. tauto.
Qed.

(** On valid evidence [meet] always succeeds with valid evidence, does not
    depend on the order of its arguments and is idempotent; on invalid evidence
    it fails. *)
Theorem meet_laws a b :
  (is_ok (meet a b) = true <-> completeness_validate a = Ok tt /\ completeness_validate b = Ok tt) /\
  (forall c, meet a b = Ok c -> completeness_validate c = Ok tt /\ meet b a = Ok c) /\
  (completeness_validate a = Ok tt -> meet a a = Ok a).
Proof.
  rewrite !completeness_validate_ok. split_and!.
  - split.
    + destruct (meet a b) as [c|] eqn:E; [|done]. by apply meet_ok in E as (? & ? & _).
    + intros [Ha Hb]. by rewrite (proj2 (meet_ok a b _) (conj Ha (conj Hb eq_refl))).
  - intros c (Ha & Hb & ->)%meet_ok. rewrite completeness_validate_ok. split; [by apply meet_value_wf|].
    apply meet_ok. by rewrite meet_value_comm.
  - intros Ha. apply meet_ok. by rewrite meet_value_idemp.
Qed.

Lemma meet_laws_witness :
  meet (mkCompleteness COMPLETENESS_VECTOR_SCHEMA Supported Unknown Verified [])
       (mkCompleteness COMPLETENESS_VECTOR_SCHEMA Supported Unknown Verified []) =
  Ok (mkCompleteness COMPLETENESS_VECTOR_SCHEMA Supported Unknown Verified []).
Proof.
  apply (meet_laws (mkCompleteness COMPLETENESS_VECTOR_SCHEMA Supported Unknown Verified [])
                   (mkCompleteness COMPLETENESS_VECTOR_SCHEMA Supported Unknown Verified [])).
  reflexivity.
Defined.

Lemma publishable_for_ok v s :
  publishable_for v s = true <->
  digest s = true /\ support v = Supported /\ coverage v = Complete s /\ certainty v = Verified /\
  obligations v = [].
Proof.
  unfold publishable_for, publishable.
  destruct (coverage v) as [s'| |], (obligations v) as [|o l];
    rewrite ?andb_true_r, ?andb_false_r; cbn [is_complete];
    rewrite ?andb_true_r, ?andb_false_r; rewrite ?andb_true_iff, ?bool_decide_eq_true, ?str_eqb_eq;
    naive_solver.
Qed.

Lemma meet_certainty_verified l r : meet_certainty l r = Verified <-> l = Verified /\ r = Verified.
Proof. destruct l, r; naive_solver. Qed.
Lemma meet_support_supported l r : meet_support l r = Supported <-> l = Supported /\ r = Supported.
Proof. destruct l, r; naive_solver. Qed.
Lemma meet_coverage_complete l r s : meet_coverage l r = Complete s <-> l = Complete s /\ r = Complete s.
Proof.
  destruct (meet_coverage_cases l r) as [(s' & -> & -> & ->)|[[Hu ->]|(_ & _ & Hn & ->)]].
  - naive_solver.
  - split; [done|]. intros [-> ->]. by destruct Hu.
  - split; [done|]. intros Hs. exfalso. apply Hn. by exists s.
Qed.
Lemma meet_obligations_nil a b :
  obligations (meet_value a b) = [] <-> obligations a = [] /\ obligations b = [].
Proof.
  cbn [meet_value obligations]. split; [|by intros [-> ->]]. intros He.
  assert (forall o, o ∉ obligations a ++ obligations b) as Hn.
  { intros o Ho. apply (sort_dedup_elem (A := VerificationObligation)) in Ho. rewrite He in Ho. by apply elem_of_nil in Ho. }
  destruct (obligations a) as [|o l]; [|by destruct (Hn o); left].
  destruct (obligations b) as [|o l]; [done|by destruct (Hn o); left].
Qed.

Lemma meet_value_publishable_for a b s :
  publishable_for (meet_value a b) s = true <-> publishable_for a s = true /\ publishable_for b s = true.
Proof.
  rewrite !publishable_for_ok, meet_obligations_nil. cbn [meet_value support coverage certainty].
  rewrite meet_support_supported, meet_coverage_complete, meet_certainty_verified. naive_solver.
Qed.

(** Combining evidence never upgrades it: the combination is publishable for
    a scope exactly when both parts are, it carries exactly the obligations and
    the open checks of the two parts, and unless it is unknown it names exactly
    the observed scopes of the two parts and at least their boundaries. *)
Theorem meet_never_upgrades a b c :
  meet a b = Ok c ->
  (forall s, publishable_for c s = true <-> publishable_for a s = true /\ publishable_for b s = true) /\
  (forall o, o ∈ obligations c <-> o ∈ obligations a \/ o ∈ obligations b) /\
  (forall k, k ∈ certainty_checks (certainty c) <->
     k ∈ certainty_checks (certainty a) \/ k ∈ certainty_checks (certainty b)) /\
  (coverage c <> Unknown -> forall k,
     (k ∈ coverage_scopes (coverage c) <->
        k ∈ coverage_scopes (coverage a) \/ k ∈ coverage_scopes (coverage b)) /\
     (k ∈ coverage_boundaries (coverage a) \/ k ∈ coverage_boundaries (coverage b) ->
        k ∈ coverage_boundaries (coverage c))).
Proof.
  intros (Ha & Hb & ->)%meet_ok. split_and!.
  - intros s. apply meet_value_publishable_for.
  - intros o. cbn [meet_value obligations]. by rewrite sort_dedup_elem, elem_of_app.
  - intros k. cbn [meet_value certainty].
    destruct (certainty a), (certainty b); cbn [meet_certainty certainty_checks];
      rewrite ?bset_of_list_elem, ?bset_extend_elem, ?bset_of_list_elem; set_solver.
  - cbn [meet_value coverage]. intros Hu k.
    destruct (meet_coverage_cases (coverage a) (coverage b))
      as [(s & -> & -> & ->)|[[_ He]|(_ & _ & _ & ->)]]; [naive_solver|done|].
    cbn [coverage_scopes coverage_boundaries]. rewrite !bset_of_list_elem, bset_extend_elem.
    split; [done|]. intros Hk. destruct (_ && _); [apply bset_insert_elem; right|]; by apply bset_extend_elem.
Qed.

Lemma meet_never_upgrades_witness :
  exists c, meet (mkCompleteness COMPLETENESS_VECTOR_SCHEMA Supported Unknown Verified [])
                 (mkCompleteness COMPLETENESS_VECTOR_SCHEMA Supported Unknown (Unsure ["x"]) []) = Ok c /\
    "x" ∈ certainty_checks (certainty c).
Proof.
  eexists. split; [vm_compute; reflexivity|].
  eapply (meet_never_upgrades
    (mkCompleteness COMPLETENESS_VECTOR_SCHEMA Supported Unknown Verified [])
    (mkCompleteness COMPLETENESS_VECTOR_SCHEMA Supported Unknown (Unsure ["x"]) []));
    [vm_compute; reflexivity|]. right. cbn. left.
Defined.

(** [meet] is not associative: two different complete scopes leave a
    [SCOPE_MISMATCH] boundary only when they meet each other first. *)
Example meet_not_associative :
  let d (c : ascii) := "sha256:" +:+ String.string_of_list_ascii (replicate 64 c) in
  let v (c : Coverage) := mkCompleteness COMPLETENESS_VECTOR_SCHEMA Supported c Verified [] in
  let a := v (Complete (d "1"%char)) in let b := v (Complete (d "2"%char)) in let c := v (Partial ["s"] ["b"]) in
  (let? ab := meet a b in meet ab c) <> (let? bc := meet b c in meet a bc).
Proof. vm_compute. discriminate. Qed.

(* --------------------------------------------------------------------- *)
(** ** Aggregation over the compilations of a generation *)

Lemma publishable_scope v : publishable v = true -> completeness_wf v -> exists s, publishable_for v s = true.
Proof.
  intros Hp [_ Hc _ _ _]. unfold publishable_for. destruct (coverage v) as [s| |] eqn:E.
  - exists s. rewrite Hp. cbn in Hc. by rewrite Hc, str_eqb_refl.
  - unfold publishable in Hp. rewrite E in Hp. by rewrite andb_false_r in Hp.
  - unfold publishable in Hp. rewrite E in Hp. by rewrite andb_false_r in Hp.
Qed.

Lemma publishable_of_scope v s : publishable_for v s = true -> publishable v = true.
Proof. unfold publishable_for. rewrite !andb_true_iff. tauto. Qed.

Lemma fold_meet_ok l : forall a v,
  try_fold meet a l = Ok v -> completeness_wf a ->
  completeness_wf v /\ Forall completeness_wf l /\
  (forall s, publishable_for v s = true -> Forall (fun c => publishable_for c s = true) (a :: l)) /\
  (forall o, o ∈ obligations v <-> exists c, c ∈ a :: l /\ o ∈ obligations c).
Proof.
  induction l as [|b l IH]; intros a v; cbn [try_fold].
  - intros [= <-] Ha. split_and!; [done|constructor|by repeat constructor|].
    intros o. setoid_rewrite list_elem_of_singleton. naive_solver.
  - rewrite result_bind_ok. intros (ab & Hm & Hf) Ha. apply meet_ok in Hm as (_ & Hb & ->).
    destruct (IH _ _ Hf (meet_value_wf _ _ Ha Hb)) as (Hv & Hl & Hp & Ho). split_and!.
    + done.
    + by constructor.
    + intros s Hs. apply Hp in Hs. apply Forall_cons_iff in Hs as [[Hsa Hsb]%meet_value_publishable_for Hs].
      by repeat constructor.
    + intros o. rewrite Ho. setoid_rewrite elem_of_cons.
      assert (o ∈ obligations (meet_value a b) <-> o ∈ obligations a \/ o ∈ obligations b) as Hob.
      { cbn [meet_value obligations]. by rewrite sort_dedup_elem, elem_of_app. }
      split.
      * intros (c & [->|Hc] & Hin); [|by exists c; rewrite elem_of_cons; auto].
        apply Hob in Hin as [|]; [exists a|exists b; rewrite elem_of_cons]; auto.
      * intros (c & [->|[->|Hc]%elem_of_cons] & Hin).
        -- exists (meet_value a b). rewrite Hob. auto.
        -- exists (meet_value a b). rewrite Hob. auto.
        -- exists c. auto.
Qed.

Lemma fold_meet_total l : forall a,
  completeness_wf a -> Forall completeness_wf l -> is_ok (try_fold meet a l) = true.
Proof.
  induction l as [|b l IH]; intros a Ha Hl; cbn [try_fold]; [done|].
  apply Forall_cons_iff in Hl as [Hb Hl].
  rewrite (proj2 (meet_ok a b _) (conj Ha (conj Hb eq_refl))). cbn. apply IH; [by apply meet_value_wf|done].
Qed.

Section AggregateTheorems.
Context {P : Primitives} {L : PrimitivesLaws P}.

Lemma verified_complete_ok s v :
  verified_complete s = Ok v <->
  digest s = true /\ v = {| cv_schema := COMPLETENESS_VECTOR_SCHEMA; support := Supported;
    coverage := Complete s; certainty := Verified; obligations := [] |}.
Proof.
  unfold verified_complete. rewrite seq_ok, completeness_validate_ok. split.
  - intros [[_ Hc _ _ _] [= <-]]. done.
  - intros [Hd ->]. split; [|done]. split; cbn; try done; constructor.
Qed.

Lemma aggregate_eq r rs :
  Forall (fun r => completeness_wf (rg_completeness r)) (r :: rs) ->
  aggregate_completeness (r :: rs) =
  if forallb (fun ready => publishable (rg_completeness ready)) (r :: rs)
  then verified_complete (hash (JArray (scope_entry <$> r :: rs)))
  else try_fold meet (rg_completeness r) (rg_completeness <$> rs).
Proof.
  intros Hw. unfold aggregate_completeness.
  rewrite (proj2 (try_for_each_ok _ _)); [done|].
  eapply list.Forall_impl; [exact Hw|]. intros x Hx. by apply completeness_validate_ok.
Qed.

Lemma aggregate_valid ready v :
  aggregate_completeness ready = Ok v ->
  ready <> [] /\ Forall (fun r => completeness_wf (rg_completeness r)) ready.
Proof.
  unfold aggregate_completeness. destruct ready as [|r rs]; [done|]. rewrite seq_ok.
  intros [Hv _]. split; [done|]. apply try_for_each_ok in Hv.
  eapply list.Forall_impl; [exact Hv|]. intros x Hx. by apply completeness_validate_ok.
Qed.

Lemma publishable_obligations v : publishable v = true -> obligations v = [].
Proof. unfold publishable. destruct (obligations v); [done|]. by rewrite andb_false_r. Qed.

Lemma aggregate_meet_branch r rs v :
  Forall (fun r => completeness_wf (rg_completeness r)) (r :: rs) ->
  ~ Forall (fun r => publishable (rg_completeness r) = true) (r :: rs) ->
  try_fold meet (rg_completeness r) (rg_completeness <$> rs) = Ok v ->
  completeness_wf v /\ publishable v <> true /\
  (forall o, o ∈ obligations v <-> exists x, x ∈ r :: rs /\ o ∈ obligations (rg_completeness x)).
Proof.
  intros Hw Hn Hf. pose proof (Forall_inv Hw) as Hr.
  destruct (fold_meet_ok _ _ _ Hf Hr) as (Hv & _ & Hp & Ho). split_and!; [done| |].
  - intros Hpub. destruct (publishable_scope v Hpub Hv) as [s Hs]. apply Hn.
    apply Hp in Hs. rewrite <- fmap_cons, Forall_fmap in Hs.
    eapply list.Forall_impl; [exact Hs|]. intros x Hx. by eapply publishable_of_scope.
  - intros o. rewrite Ho, <- fmap_cons. setoid_rewrite list_elem_of_fmap. naive_solver.
Qed.

(** The evidence of a set of compilations exists exactly when the set is
    non-empty and every part is valid; it is valid, it is publishable exactly
    when every part is, and it keeps every obligation of every part. *)
Theorem aggregate_completeness_sound ready :
  (is_ok (aggregate_completeness ready) = true <->
     ready <> [] /\ Forall (fun r => completeness_validate (rg_completeness r) = Ok tt) ready) /\
  (forall v, aggregate_completeness ready = Ok v ->
     completeness_validate v = Ok tt /\
     (publishable v = true <-> Forall (fun r => publishable (rg_completeness r) = true) ready) /\
     (forall o, o ∈ obligations v <-> exists r, r ∈ ready /\ o ∈ obligations (rg_completeness r))).
Proof.
  setoid_rewrite completeness_validate_ok. split.
  - split; [destruct (aggregate_completeness ready) as [v|] eqn:E; [intros _; by eapply aggregate_valid|done]|].
    intros [Hn Hw]. destruct ready as [|r rs]; [done|]. rewrite aggregate_eq by done.
    destruct (forallb _ _); [|apply fold_meet_total; [exact (Forall_inv Hw)|by apply Forall_fmap, (Forall_inv_tail Hw)]].
    unfold hash. by rewrite (proj2 (verified_complete_ok _ _) (conj (hash_bytes_digest _) eq_refl)).
  - intros v Hv. destruct (aggregate_valid _ _ Hv) as [Hn Hw]. destruct ready as [|r rs]; [done|].
    rewrite aggregate_eq in Hv by done. destruct (forallb _ _) eqn:Hall.
    + apply forallb_iff in Hall. apply verified_complete_ok in Hv as [Hd ->]. split_and!.
      * split; cbn; try done; constructor.
      * done.
      * intros o. cbn [obligations]. rewrite elem_of_nil. split; [done|]. intros (x & Hx & Ho).
        rewrite list.Forall_forall in Hall. apply Hall, publishable_obligations in Hx.
        rewrite Hx in Ho. by apply elem_of_nil in Ho.
    + assert (~ Forall (fun x => publishable (rg_completeness x) = true) (r :: rs)) as Hnot.
      { intros Hf. apply forallb_iff in Hf. congruence. }
      destruct (aggregate_meet_branch r rs v Hw Hnot Hv) as (Hwv & Hp & Ho). split_and!; [done|tauto|done].
Qed.
End AggregateTheorems.

Lemma aggregate_completeness_sound_witness :
  is_ok (aggregate_completeness (P := toy)
    [mkReady "main" (mkCompleteness COMPLETENESS_VECTOR_SCHEMA Supported Unknown Verified [])]) = true.
Proof.
  apply (aggregate_completeness_sound (P := toy) (L := toy_laws)
    [mkReady "main" (mkCompleteness COMPLETENESS_VECTOR_SCHEMA Supported Unknown Verified [])]).
  split; [done|]. repeat constructor.
Defined.
