(* ===== verification/IncrementalV2.v ===== *)
(** * Incremental analysis planning (incremental_v2.rs)

    The key of a compiler store, the receipt an analysis leaves behind, and the
    plan for the next analysis: reuse, re-analyse the files whose inputs changed
    and everything that depends on them, or start over. *)

From S2P Require Import Prelude Order Collections Text Json Canonical Instances Errors CasObject Worklist.
From S2P Require AdapterV2 Completeness.
Import Completeness(CompletenessVector, completeness_validate, publishable).
Import AdapterV2(CompilationDescriptor, compilation_validate).

Definition COMPILER_STORE_KEY_SCHEMA : string := "codeclew-compiler-store-key/2.0".
Definition INCREMENTAL_RECEIPT_SCHEMA : string := "codeclew-incremental-receipt/2.0".

Definition digest_ok (value : string) : bool := Completeness.digest value.

Definition id_byte (a : ascii) : bool :=
  is_ascii_alphanumeric a || Ascii.eqb a "-" || Ascii.eqb a "_" || Ascii.eqb a ".".
Definition safe_id (value : string) : bool :=
  negb (str_is_empty value) && (str_len value <=? 128) && str_all id_byte value.

Definition bad_component (component : string) : bool :=
  str_is_empty component || str_eqb component "." || str_eqb component "..".
Definition safe_path (value : string) : bool :=
  negb (str_is_empty value) && (str_len value <=? 4096) && negb (starts_with "/" value)
  && negb (contains_char nul value) && negb (existsb bad_component (split_char "/" value)).

(* --------------------------------------------------------------------- *)
(** ** Compiler store keys *)

Record CompilerStoreKey : Type := mkStoreKey {
  sk_schema : string;
  key : string;
  sk_adapter_id : string;
  sk_adapter_digest : string;
  sk_language_uri : string;
  sk_toolchain : CasObject;
  sk_canonical_options : CasObject;
  sk_classpath : list CasObject;
  sk_plugins : list CasObject
}.

Definition cas_key (o : CasObject) : string * (string * N) := (object_schema o, (digest o, size o)).
Definition cas_order (left right : CasObject) : comparison := cmp_on cas_key left right.

(** The derived [Serialize], camelCase. *)
Definition store_key_value (k : CompilerStoreKey) : Value :=
  JObject [("schema", JString (sk_schema k)); ("key", JString (key k));
           ("adapterId", JString (sk_adapter_id k)); ("adapterDigest", JString (sk_adapter_digest k));
           ("languageUri", JString (sk_language_uri k)); ("toolchain", cas_object_value (sk_toolchain k));
           ("canonicalOptions", cas_object_value (sk_canonical_options k));
           ("classpath", JArray (cas_object_value <$> sk_classpath k));
           ("plugins", JArray (cas_object_value <$> sk_plugins k))].

Definition with_key (v : CompilerStoreKey) (k : string) : CompilerStoreKey :=
  {| sk_schema := sk_schema v; key := k; sk_adapter_id := sk_adapter_id v;
     sk_adapter_digest := sk_adapter_digest v; sk_language_uri := sk_language_uri v;
     sk_toolchain := sk_toolchain v; sk_canonical_options := sk_canonical_options v;
     sk_classpath := sk_classpath v; sk_plugins := sk_plugins v |}.

Section StoreKey.
Context {P : Primitives}.

(** [CompilerStoreKey::create]. *)
Definition store_key_create (adapter_id adapter_digest : string) (c : CompilationDescriptor)
  : Res CompilerStoreKey :=
  compilation_validate c ;;?
  let value :=
    {| sk_schema := COMPILER_STORE_KEY_SCHEMA; key := EmptyString; sk_adapter_id := adapter_id;
       sk_adapter_digest := adapter_digest; sk_language_uri := AdapterV2.language_uri c;
       sk_toolchain := AdapterV2.toolchain c; sk_canonical_options := AdapterV2.canonical_options c;
       sk_classpath := sort_by cas_order (AdapterV2.classpath c);
       sk_plugins := sort_by cas_order (AdapterV2.plugins c) |} in
  if negb (safe_id (sk_adapter_id value)) || negb (digest_ok (sk_adapter_digest value))
  then invalid "compiler store adapter authority is invalid"
  else Ok (with_key value (hash (store_key_value value))).
End StoreKey.

(** [CompilerStoreKey::path_component]. *)
Definition path_component (k : CompilerStoreKey) : Res string :=
  ok_or (match strip_prefix "sha256:" (key k) with
         | Some value => if str_len value =? 64 then Some value else None
         | None => None
         end) (ClewError_new InvalidInput "compiler store key is invalid").

(* --------------------------------------------------------------------- *)
(** ** Receipts *)

Record FileReceipt : Type := mkFileReceipt {
  path : string;
  content_digest : string;
  exported_surface_digest : string;
  dependencies : list string
}.
Record BoundaryReceipt : Type := mkBoundaryReceipt {
  source_path : string;
  target_path : string;
  boundary_digest : string
}.
Record IncrementalReceipt : Type := mkReceipt {
  ir_schema : string;
  compiler_store_key : string;
  generation_id : string;
  files : list FileReceipt;
  boundaries : list BoundaryReceipt;
  completeness : CompletenessVector
}.

Definition file_bad (f : FileReceipt) : bool :=
  negb (safe_path (path f)) || negb (digest_ok (content_digest f))
  || negb (digest_ok (exported_surface_digest f))
  || negb (windows_all ltb (dependencies f)) || existsb (fun p => negb (safe_path p)) (dependencies f).
Definition boundary_bad (b : BoundaryReceipt) : bool :=
  negb (safe_path (source_path b)) || negb (safe_path (target_path b))
  || negb (digest_ok (boundary_digest b)).

(** [IncrementalReceipt::validate]. *)
Definition receipt_validate (r : IncrementalReceipt) : Res unit :=
  if str_neqb (ir_schema r) INCREMENTAL_RECEIPT_SCHEMA || negb (digest_ok (compiler_store_key r))
     || negb (digest_ok (generation_id r))
     || negb (windows_all (fun a b => ltb (path a) (path b)) (files r))
     || negb (windows_all (fun a b => ltb (source_path a, target_path a) (source_path b, target_path b))
                (boundaries r))
  then invalid "incremental receipt identity is invalid"
  else
    try_for_each (fun f => if file_bad f then invalid "incremental file receipt is invalid" else Ok tt)
      (files r) ;;?
    try_for_each (fun b => if boundary_bad b then invalid "incremental boundary receipt is invalid" else Ok tt)
      (boundaries r) ;;?
    completeness_validate (completeness r).

(* --------------------------------------------------------------------- *)
(** ** Plans *)

Inductive FullAnalysisReason : Type :=
| NoParent | ConfigurationChanged | UnknownInvalidation | IncompleteParent | InvalidReceipt.
Inductive IncrementalPlan : Type :=
| UnchangedHit (parent_generation_id : string)
| Delta (parent_generation_id : string) (changed_files invalidated_files : list string)
| Full (reason : FullAnalysisReason).

(** [entry(k).or_default().insert(v)]. *)
Definition multimap_insert (m : BTreeMap string (BTreeSet string)) (k v : string)
  : BTreeMap string (BTreeSet string) :=
  bmap_insert k (bset_insert v (match bmap_get k m with Some s => s | None => [] end)) m.

(** Who depends on a file. *)
Definition reverse_dependencies (fs : list FileReceipt) : BTreeMap string (BTreeSet string) :=
  foldl (fun m f => foldl (fun m d => multimap_insert m d (path f)) m (dependencies f)) [] fs.
Definition dependents_of (reverse : BTreeMap string (BTreeSet string)) (p : string) : list string :=
  match bmap_get p reverse with Some s => s | None => [] end.

Definition changed_paths (fs : list FileReceipt) (current_files : BTreeMap string string) : BTreeSet string :=
  let parent_files := bmap_of_list ((fun f => (path f, f)) <$> fs) in
  let changed := foldl (fun changed entry =>
    match bmap_get entry.1 parent_files with
    | Some receipt => if str_neqb (content_digest receipt) entry.2 then bset_insert entry.1 changed else changed
    | None => bset_insert entry.1 changed
    end) [] current_files in
  foldl (fun changed p => if bmap_contains_key p current_files then changed else bset_insert p changed)
    changed (bmap_keys parent_files).

Definition plan_incremental (compiler_store : CompilerStoreKey) (parent : option IncrementalReceipt)
    (current_files : BTreeMap string string) (invalidation_is_authoritative : bool) : Res IncrementalPlan :=
  match parent with
  | None => Ok (Full NoParent)
  | Some parent =>
      if is_err (receipt_validate parent) then Ok (Full InvalidReceipt)
      else if str_neqb (compiler_store_key parent) (key compiler_store) then Ok (Full ConfigurationChanged)
      else if negb (publishable (completeness parent)) then Ok (Full IncompleteParent)
      else if negb invalidation_is_authoritative then Ok (Full UnknownInvalidation)
      else if existsb (fun e => negb (safe_path e.1) || negb (digest_ok e.2)) current_files
      then invalid "current incremental inputs are invalid"
      else
        let changed := changed_paths (files parent) current_files in
        match changed with
        | [] => Ok (UnchangedHit (generation_id parent))
        | _ =>
            let reverse := reverse_dependencies (files parent) in
            let fuel := (length changed + length (files parent))%nat in
            (* the queue is empty within the fuel: [invalidation_terminates] *)
            match bfs (dependents_of reverse) fuel changed changed with
            | Some invalidated => Ok (Delta (generation_id parent) changed invalidated)
            | None => internal "out of fuel"
            end
        end
  end.

(* --------------------------------------------------------------------- *)
(** ** What the plan promises *)

(** [y] was compiled against [x]. *)
Definition depends_on (fs : list FileReceipt) (x y : string) : Prop :=
  exists f, f ∈ fs /\ path f = y /\ x ∈ dependencies f.

(** The content digest the receipt records for a path. *)
Definition recorded (fs : list FileReceipt) (p d : string) : Prop :=
  exists f, f ∈ fs /\ path f = p /\ content_digest f = d.

(** The path has the content the receipt records, or is absent from both sides. *)
Definition unchanged (fs : list FileReceipt) (current : BTreeMap string string) (p : string) : Prop :=
  forall d, bmap_get p current = Some d <-> recorded fs p d.

Lemma dependents_insert m k v p x :
  x ∈ dependents_of (multimap_insert m k v) p <-> x ∈ dependents_of m p \/ (p = k /\ x = v).
Proof.
  unfold dependents_of, multimap_insert. rewrite bmap_get_insert. destruct (cmp p k) eqn:E.
  - apply cmp_eq_iff in E as ->. rewrite bset_insert_elem. destruct (bmap_get k m); set_solver.
  - assert (p <> k) by (intros ->; by rewrite cmp_refl in E). naive_solver.
  - assert (p <> k) by (intros ->; by rewrite cmp_refl in E). naive_solver.
Qed.

Lemma dependents_insert_all ds v p x : forall m,
  x ∈ dependents_of (foldl (fun m d => multimap_insert m d v) m ds) p <->
  x ∈ dependents_of m p \/ (p ∈ ds /\ x = v).
Proof.
  induction ds as [|d ds IH]; intros m; cbn [foldl]; [rewrite elem_of_nil; naive_solver|].
  rewrite IH, dependents_insert, elem_of_cons. naive_solver.
Qed.

Lemma reverse_dependencies_spec fs p x :
  x ∈ dependents_of (reverse_dependencies fs) p <-> depends_on fs p x.
Proof.
  unfold reverse_dependencies, depends_on.
  assert (forall m, x ∈ dependents_of
      (foldl (fun m f => foldl (fun m d => multimap_insert m d (path f)) m (dependencies f)) m fs) p <->
    x ∈ dependents_of m p \/ exists f, f ∈ fs /\ path f = x /\ p ∈ dependencies f) as Hg.
  { induction fs as [|f fs IH]; intros m; cbn [foldl]; [rewrite exists_elem_nil; tauto|].
    rewrite IH, dependents_insert_all, exists_elem_cons. naive_solver. }
  rewrite Hg. unfold dependents_of at 1. cbn. rewrite elem_of_nil. tauto.
Qed.

Section Changed.
Context (fs : list FileReceipt) (current : BTreeMap string string).
Hypothesis paths_unique : NoDup (path <$> fs).
Hypothesis current_wf : bmap_wf current.

Lemma parent_files_get p f :
  bmap_get p (bmap_of_list ((fun f => (path f, f)) <$> fs)) = Some f <-> f ∈ fs /\ path f = p.
Proof.
  rewrite bmap_of_list_get by (by rewrite <- list_fmap_compose). rewrite list_elem_of_fmap. naive_solver.
Qed.

Lemma recorded_get p d :
  recorded fs p d <->
  exists f, bmap_get p (bmap_of_list ((fun f => (path f, f)) <$> fs)) = Some f /\ content_digest f = d.
Proof. unfold recorded. setoid_rewrite parent_files_get. naive_solver. Qed.

Let parents := bmap_of_list ((fun f => (path f, f)) <$> fs).
Let differs (e : string * string) : bool :=
  match bmap_get e.1 parents with Some r => str_neqb (content_digest r) e.2 | None => true end.

Lemma changed_paths_elem :
  bset_wf (changed_paths fs current) /\
  (forall p, p ∈ changed_paths fs current <->
     (exists d, bmap_get p current = Some d /\ differs (p, d) = true) \/
     (bmap_get p current = None /\ exists f, bmap_get p parents = Some f)).
Proof.
  unfold changed_paths. fold parents.
  set (first := foldl _ [] current).
  assert (first = foldl (fun s e => if differs e then bset_insert e.1 s else s) [] current) as Hf.
  { unfold first. apply foldl_eq. intros s e. unfold differs.
    by destruct (bmap_get e.1 parents) as [r|]; [destruct (str_neqb _ _)|]. }
  destruct (foldl_insert_if differs fst current []) as [Hw1 He1]. rewrite <- Hf in Hw1, He1.
  set (second := foldl _ first (bmap_keys parents)).
  assert (second = foldl (fun s p => if negb (bmap_contains_key p current) then bset_insert p s else s)
            first (bmap_keys parents)) as Hs.
  { unfold second. apply foldl_eq. intros s p. by destruct (bmap_contains_key p current). }
  destruct (foldl_insert_if (fun p => negb (bmap_contains_key p current)) (fun p => p) (bmap_keys parents) first)
    as [Hw2 He2]. rewrite <- Hs in Hw2, He2.
  split; [apply Hw2, Hw1; constructor|]. intros p. rewrite He2, He1, elem_of_nil.
  assert ((exists e, e ∈ current /\ differs e = true /\ e.1 = p) <->
          exists d, bmap_get p current = Some d /\ differs (p, d) = true) as ->.
  { setoid_rewrite bmap_get_elem; [|done]. split; [intros ([k d] & ? & ? & <-); eauto|].
    intros (d & ? & ?). by exists (p, d). }
  assert ((exists q, q ∈ bmap_keys parents /\ negb (bmap_contains_key q current) = true /\ q = p) <->
          bmap_get p current = None /\ exists f, bmap_get p parents = Some f) as ->; [|tauto].
  unfold bmap_contains_key. rewrite <- bmap_get_some_key. split.
  - intros (q & Hq & Hn & ->). by destruct (bmap_get p current).
  - intros [Hn Hq]. exists p. by rewrite Hn.
Qed.

Lemma changed_paths_spec p : p ∈ changed_paths fs current <-> ~ unchanged fs current p.
Proof.
  destruct changed_paths_elem as [_ ->]. unfold unchanged, differs. setoid_rewrite recorded_get.
  fold parents. cbn [fst snd].
  destruct (bmap_get p current) as [d|], (bmap_get p parents) as [f|].
  - destruct (str_neqb (content_digest f) d) eqn:E.
    + split; [|intros _; left; by exists d]. intros _ Hu. destruct (proj1 (Hu d) eq_refl) as (? & [= <-] & Hd).
      apply str_neqb_false in Hd. congruence.
    + pose proof E as Hd. apply str_neqb_false in Hd. split; [intros [(? & [= <-] & ?)|[? _]]; congruence|].
      intros Hn. destruct Hn. intros d'. split; [intros [= <-]; by exists f|intros (? & [= <-] & <-); by rewrite Hd].
  - split; [|intros _; left; by exists d]. intros _ Hu. by destruct (proj1 (Hu d) eq_refl) as (? & ? & _).
  - split; [|intros _; right; split; [done|by exists f]].
    intros _ Hu. discriminate (proj2 (Hu (content_digest f)) (ex_intro _ f (conj eq_refl eq_refl))).
  - split; [intros [(? & ? & _)|[_ [? ?]]]; done|]. intros Hn. destruct Hn. intros d. naive_solver.
Qed.

Lemma unchanged_stable p : ~ ~ unchanged fs current p -> unchanged fs current p.
Proof.
  intros Hnn d. assert (recorded fs p d <-> content_digest <$> bmap_get p parents = Some d) as Hr.
  { rewrite recorded_get. fold parents. destruct (bmap_get p parents); cbn; naive_solver. }
  rewrite Hr. destruct (decide (bmap_get p current = Some d)) as [Hc|Hc],
    (decide (content_digest <$> bmap_get p parents = Some d)) as [Hd|Hd]; try tauto;
    exfalso; apply Hnn; intros Hu; specialize (Hu d); tauto.
Qed.
End Changed.

(* --------------------------------------------------------------------- *)
(** ** Receipts and plans *)

Record receipt_ok (r : IncrementalReceipt) : Prop := mkReceiptOk {
  receipt_schema : ir_schema r = INCREMENTAL_RECEIPT_SCHEMA;
  receipt_store_key : digest_ok (compiler_store_key r) = true;
  receipt_generation : digest_ok (generation_id r) = true;
  receipt_files : StronglySorted lt_ord (path <$> files r);
  receipt_boundaries :
    StronglySorted lt_ord ((fun b => (source_path b, target_path b)) <$> boundaries r);
  receipt_file : Forall (fun f => file_bad f = false) (files r);
  receipt_boundary : Forall (fun b => boundary_bad b = false) (boundaries r);
  receipt_completeness : completeness_validate (completeness r) = Ok tt
}.

Lemma try_guard_ok {A} (bad : A -> bool) (m : string) l :
  try_for_each (fun a => if bad a then invalid m else Ok tt) l = Ok tt <->
  Forall (fun a => bad a = false) l.
Proof.
  rewrite try_for_each_ok. apply list.Forall_proper; [|done]. intros a. unfold invalid. rewrite guard_ok. tauto.
Qed.

Lemma receipt_validate_ok r : receipt_validate r = Ok tt <-> receipt_ok r.
Proof.
  unfold receipt_validate. unfold invalid at 1.
  rewrite guard_ok, !seq_ok, !try_guard_ok, !orb_false_iff, !negb_false_iff, str_neqb_false.
  rewrite (windows_all_strict path), (windows_all_strict (fun b => (source_path b, target_path b))).
  rewrite <- (StronglySorted_fmap lt_ord path),
    <- (StronglySorted_fmap lt_ord (fun b => (source_path b, target_path b))).
  split; [|by intros []]. intros H. destruct_and! H. by constructor.
Qed.

Lemma receipt_paths_unique r : receipt_ok r -> NoDup (path <$> files r).
Proof. intros Hr. apply bset_wf_NoDup, Hr. Qed.

(** Every file a change reaches is a file of the receipt, so the search ends. *)
Lemma invalidation_terminates fs changed :
  bset_wf changed ->
  exists invalidated,
    bfs (dependents_of (reverse_dependencies fs)) (length changed + length fs) changed changed = Some invalidated /\
    bset_wf invalidated /\
    (forall p, p ∈ invalidated <-> exists c, c ∈ changed /\ rtc (depends_on fs) c p).
Proof.
  intros Hw. destruct (bfs_reach (dependents_of (reverse_dependencies fs)) (path <$> fs) changed
    (length changed + length fs)) as (r & Hr & Hrw & He).
  - intros y d. rewrite reverse_dependencies_spec. intros (f & Hf & <- & _). by apply list_elem_of_fmap_2.
  - rewrite length_fmap. lia.
  - exists r. rewrite bset_of_list_id in Hr by done. split_and!; [done|done|].
    intros p. rewrite He. unfold reach.
    assert (forall c, rtc (edge (dependents_of (reverse_dependencies fs))) c p <-> rtc (depends_on fs) c p) as Hrt.
    { intros c. split; apply rtc_subrel; intros x y; unfold edge; by rewrite reverse_dependencies_spec. }
    setoid_rewrite Hrt. done.
Qed.

(** The parent can serve as the base of an incremental analysis. *)
Record reusable (store : CompilerStoreKey) (parent : IncrementalReceipt)
    (current : BTreeMap string string) : Prop := mkReusable {
  reusable_receipt : receipt_validate parent = Ok tt;
  reusable_store : compiler_store_key parent = key store;
  reusable_complete : publishable (completeness parent) = true;
  reusable_inputs : Forall (fun e => safe_path e.1 = true /\ digest_ok e.2 = true) current
}.

Lemma plan_reusable store parent current :
  reusable store parent current ->
  plan_incremental store (Some parent) current true =
  match changed_paths (files parent) current with
  | [] => Ok (UnchangedHit (generation_id parent))
  | _ => match bfs (dependents_of (reverse_dependencies (files parent)))
                 (length (changed_paths (files parent) current) + length (files parent))
                 (changed_paths (files parent) current) (changed_paths (files parent) current) with
         | Some invalidated => Ok (Delta (generation_id parent) (changed_paths (files parent) current) invalidated)
         | None => internal "out of fuel"
         end
  end.
Proof.
  intros [Hr Hk Hp Hi]. unfold plan_incremental. rewrite Hr, Hp, Hk, str_neqb_refl. cbn [is_err is_ok negb].
  assert (existsb (fun e => negb (safe_path e.1) || negb (digest_ok e.2)) current = false) as ->; [|done].
  clear -Hi. induction Hi as [|e l [H1 H2] _ IH]; cbn [existsb]; [done|]. rewrite H1, H2. exact IH.
Qed.

Lemma plan_reusable_exact store parent current :
  reusable store parent current -> bmap_wf current ->
  (plan_incremental store (Some parent) current true = Ok (UnchangedHit (generation_id parent)) /\
     forall p, unchanged (files parent) current p) \/
  (exists changed invalidated,
     plan_incremental store (Some parent) current true = Ok (Delta (generation_id parent) changed invalidated) /\
     changed <> [] /\ StronglySorted lt_ord changed /\ StronglySorted lt_ord invalidated /\
     (forall p, p ∈ changed <-> ~ unchanged (files parent) current p) /\
     (forall p, p ∈ invalidated <-> exists c, c ∈ changed /\ rtc (depends_on (files parent)) c p)).
Proof.
  intros Hu Hc. rewrite plan_reusable by done.
  assert (NoDup (path <$> files parent)) as Hn.
  { apply receipt_paths_unique, receipt_validate_ok, Hu. }
  destruct (changed_paths_elem (files parent) current Hc) as [Hw _].
  pose proof (changed_paths_spec (files parent) current Hn Hc) as Hs.
  destruct (invalidation_terminates (files parent) _ Hw) as (inv & Hb & Hiw & Hi).
  rewrite Hb. destruct (changed_paths (files parent) current) as [|c cs].
  - left. split; [done|]. intros p. apply (unchanged_stable _ _ Hn). rewrite <- Hs. apply not_elem_of_nil.
  - right. exists (c :: cs), inv. split_and!; done.
Qed.

(** C33: on a usable parent the planner always answers, with a reuse of the
    parent exactly when every path has the recorded content; otherwise it names
    exactly the paths that were added, removed or modified and, as invalidated,
    exactly those plus every file that transitively depends on one of them. *)
Theorem plan_incremental_exact store parent current :
  reusable store parent current -> bmap_wf current ->
  (plan_incremental store (Some parent) current true = Ok (UnchangedHit (generation_id parent)) /\
     forall p, unchanged (files parent) current p) \/
  (exists changed invalidated,
     plan_incremental store (Some parent) current true = Ok (Delta (generation_id parent) changed invalidated) /\
     changed <> [] /\ StronglySorted lt_ord changed /\ StronglySorted lt_ord invalidated /\
     (forall p, p ∈ changed <-> ~ unchanged (files parent) current p) /\
     (forall p, p ∈ invalidated <-> exists c, c ∈ changed /\ rtc (depends_on (files parent)) c p)).
Proof. apply plan_reusable_exact. Qed.

(** C34: whatever the parent and the inputs, a plan that reuses results is
    sound: reuse of the whole parent happens only with a valid, complete receipt
    of the same compiler store, under authoritative invalidation and with every
    path unchanged; in a delta every file left out of the invalidated set, and
    everything it transitively depends on, has the recorded content. *)
Theorem plan_incremental_reuse_sound store parent current authoritative plan :
  bmap_wf current ->
  plan_incremental store parent current authoritative = Ok plan ->
  match plan with
  | Full _ => True
  | UnchangedHit g =>
      exists r, parent = Some r /\ g = generation_id r /\ authoritative = true /\
        reusable store r current /\ forall p, unchanged (files r) current p
  | Delta g changed invalidated =>
      exists r, parent = Some r /\ g = generation_id r /\ authoritative = true /\
        reusable store r current /\
        forall p, p ∉ invalidated -> forall q, rtc (depends_on (files r)) q p -> unchanged (files r) current q
  end.
Proof.
  intros Hw Hp. destruct parent as [r|]; [|by injection Hp as <-].
  assert (plan = Full InvalidReceipt \/ plan = Full ConfigurationChanged \/ plan = Full IncompleteParent \/
    plan = Full UnknownInvalidation \/ (authoritative = true /\ reusable store r current)) as Hcases.
  { unfold plan_incremental in Hp. destruct (is_err _) eqn:E1; [left; by injection Hp|].
    destruct (str_neqb _ _) eqn:E2; [right; left; by injection Hp|].
    destruct (negb (publishable _)) eqn:E3; [right; right; left; by injection Hp|].
    destruct (negb authoritative) eqn:E4; [right; right; right; left; by injection Hp|].
    destruct (existsb _ _) eqn:E5; [done|]. do 4 right. bool_split. split; [done|]. split.
    - by destruct (receipt_validate r) as [[]|].
    - by apply str_neqb_false.
    - done.
    - clear -E5. induction current as [|e l IH]; cbn in E5; constructor; bool_split; [done|by apply IH]. }
  destruct Hcases as [->|[->|[->|[->|[-> Hu]]]]]; try done.
  pose proof (receipt_paths_unique r (proj1 (receipt_validate_ok r) (reusable_receipt _ _ _ Hu))) as Hn.
  destruct (plan_reusable_exact store r current Hu Hw) as [[He Hall]|(ch & inv & He & _ & _ & _ & Hc & Hi)];
    rewrite He in Hp; injection Hp as <-; exists r; split_and!; try done.
  intros p Hout q Hr. apply (unchanged_stable _ _ Hn). rewrite <- Hc.
  intros Hq. apply Hout, Hi. by exists q.
Qed.

(* --------------------------------------------------------------------- *)
(** ** Store keys *)

Lemma cas_sort_arrival l k :
  NoDup (digest <$> l) -> Permutation l k -> sort_by cas_order l = sort_by cas_order k.
Proof.
  intros Hd Hp. apply (sort_by_arrival cas_key); [done|].
  apply (NoDup_fmap_1 (fun x : string * (string * N) => x.2.1)). rewrite <- list_fmap_compose. exact Hd.
Qed.

Section StoreKeyTheorems.
Context {P : Primitives} {L : PrimitivesLaws P}.

(** The compiler store key of an admissible compilation depends only on the
    adapter, the language, the toolchain, the options and the sets of classpath
    and plugin objects, not on the order they are listed in, and it always yields
    a store directory name. *)
Theorem store_key_create_stable adapter_id adapter_digest c c' :
  compilation_validate c = Ok tt -> compilation_validate c' = Ok tt ->
  AdapterV2.language_uri c = AdapterV2.language_uri c' ->
  AdapterV2.toolchain c = AdapterV2.toolchain c' ->
  AdapterV2.canonical_options c = AdapterV2.canonical_options c' ->
  Permutation (AdapterV2.classpath c) (AdapterV2.classpath c') ->
  Permutation (AdapterV2.plugins c) (AdapterV2.plugins c') ->
  store_key_create adapter_id adapter_digest c = store_key_create adapter_id adapter_digest c' /\
  (forall k, store_key_create adapter_id adapter_digest c = Ok k -> exists p, path_component k = Ok p).
Proof.
  intros Hc Hc' Hl Ht Ho Hcp Hpl. split.
  - unfold store_key_create. rewrite Hc, Hc', Hl, Ht, Ho. cbn [result_bind].
    apply AdapterV2.compilation_admissible_iff in Hc as [].
    destruct admissible_classpath as (_ & _ & Hd), admissible_plugins as (_ & _ & Hd').
    by rewrite (cas_sort_arrival _ _ Hd Hcp), (cas_sort_arrival _ _ Hd' Hpl).
  - unfold store_key_create. rewrite Hc. cbn [result_bind]. intros k Hk. ok_inv Hk.
    unfold path_component. cbn [key with_key].
    match goal with |- context [hash ?value] => pose proof (hash_bytes_digest (value_bytes value)) as Hh;
      change (hash_bytes (value_bytes value)) with (hash value) in Hh; generalize dependent (hash value) end.
    clear. intros h (comp & Hcomp)%digest_spellings_agree.
    unfold digest_by_prefix in Hcomp. destruct (strip_prefix "sha256:" h) as [v|]; [|done].
    destruct (str_len v =? 64); [|done]. by exists v.
Qed.
End StoreKeyTheorems.

(* --------------------------------------------------------------------- *)
(** ** A store key, a receipt and three plans *)

Module IncrementalExample.
Definition d (c : ascii) : string := "sha256:" +:+ String.string_of_list_ascii (replicate 64 c).
Definition store : CompilerStoreKey :=
  {| sk_schema := COMPILER_STORE_KEY_SCHEMA; key := d "1"; sk_adapter_id := "a"; sk_adapter_digest := d "2";
     sk_language_uri := "language:zeta"; sk_toolchain := mkCasObject (d "3") "t/1" CAS_OBJECT_SCHEMA 1;
     sk_canonical_options := mkCasObject (d "4") "o/1" CAS_OBJECT_SCHEMA 1; sk_classpath := []; sk_plugins := [] |}.
Definition receipt : IncrementalReceipt :=
  {| ir_schema := INCREMENTAL_RECEIPT_SCHEMA; compiler_store_key := d "1"; generation_id := d "5";
     files := [mkFileReceipt "a.kt" (d "a") (d "b") []; mkFileReceipt "b.kt" (d "a") (d "b") ["a.kt"];
               mkFileReceipt "c.kt" (d "a") (d "b") ["b.kt"]; mkFileReceipt "d.kt" (d "a") (d "b") []];
     boundaries := [];
     completeness := Completeness.mkCompleteness Completeness.COMPLETENESS_VECTOR_SCHEMA
       Completeness.Supported (Completeness.Complete (d "6")) Completeness.Verified [] |}.
Definition same : BTreeMap string string := [("a.kt", d "a"); ("b.kt", d "a"); ("c.kt", d "a"); ("d.kt", d "a")].
Definition edited : BTreeMap string string := [("a.kt", d "e"); ("b.kt", d "a"); ("c.kt", d "a"); ("d.kt", d "a")].

Example plan_same : plan_incremental store (Some receipt) same true = Ok (UnchangedHit (d "5")).
Proof. vm_compute. reflexivity. Qed.
Example plan_edited :
  plan_incremental store (Some receipt) edited true = Ok (Delta (d "5") ["a.kt"] ["a.kt"; "b.kt"; "c.kt"]).
Proof. vm_compute. reflexivity. Qed.

Lemma reusable_edited : reusable store receipt edited.
Proof. split; [reflexivity|reflexivity|reflexivity|]. repeat constructor. Qed.
Lemma edited_wf : bmap_wf edited.
Proof. repeat constructor. Qed.
Definition o (c : ascii) : CasObject := mkCasObject (d c) "object/1" CAS_OBJECT_SCHEMA 1.
Definition zeta_with (cp : list CasObject) : CompilationDescriptor :=
  {| AdapterV2.cd_schema := AdapterV2.COMPILATION_SCHEMA; AdapterV2.compilation_id := "zeta-main";
     AdapterV2.language_uri := "language:zeta"; AdapterV2.source_roots := [AdapterV2.mkSourceRoot "main" (o "1")];
     AdapterV2.generated_source_roots := []; AdapterV2.classpath := cp; AdapterV2.toolchain := o "2";
     AdapterV2.plugins := []; AdapterV2.canonical_options := o "3"; AdapterV2.dependency_compilation_ids := [];
     AdapterV2.operations := []; AdapterV2.origin := AdapterV2.ProjectNative;
     AdapterV2.completeness := AdapterV2.Complete |}.
Definition zeta : CompilationDescriptor := zeta_with [o "8"; o "9"].
Definition zeta_reordered : CompilationDescriptor := zeta_with [o "9"; o "8"].
End IncrementalExample.
Import IncrementalExample.

Lemma plan_incremental_exact_witness :
  plan_incremental store (Some receipt) edited true = Ok (UnchangedHit (d "5")) \/
  exists changed invalidated,
    plan_incremental store (Some receipt) edited true = Ok (Delta (d "5") changed invalidated) /\
    StronglySorted lt_ord invalidated.
Proof.
  destruct (plan_incremental_exact store receipt edited reusable_edited edited_wf)
    as [[H _]|(ch & inv & H & _ & _ & Hs & _)]; [left; exact H|right; exists ch, inv; exact (conj H Hs)].
Defined.

Lemma plan_incremental_reuse_sound_witness :
  exists r, Some receipt = Some r /\
    forall p, p ∉ ["a.kt"; "b.kt"; "c.kt"] ->
      forall q, rtc (depends_on (files r)) q p -> unchanged (files r) edited q.
Proof.
  destruct (plan_incremental_reuse_sound store (Some receipt) edited true
              (Delta (d "5") ["a.kt"] ["a.kt"; "b.kt"; "c.kt"]) edited_wf) as (r & Hr & _ & _ & _ & H).
  - vm_compute. reflexivity.
  - exists r. exact (conj Hr H).
Defined.

Lemma store_key_create_stable_witness :
  store_key_create (P := toy) "adapter" (d "7") zeta = store_key_create (P := toy) "adapter" (d "7") zeta_reordered.
Proof.
  apply (store_key_create_stable (P := toy) (L := toy_laws) "adapter" (d "7") zeta zeta_reordered);
    try reflexivity. apply Permutation_swap.
Defined.
