(* ===== verification/DerivedManifest.v ===== *)
(** * Derived analysis input manifests (derived_manifest.rs)

    The provider models of a repository snapshot, put in canonical order, checked
    for unique identities and an acyclic dependency graph, and sealed with every
    CAS object the analysis may read.  The store is used through [CasOps]. *)

From S2P Require Import Prelude Order Collections Text Json Canonical Instances Errors CasObject CasInterface AdapterV2.

Definition DERIVED_MANIFEST_SCHEMA : string := "codeclew-derived-analysis-input-manifest/2.0".
(** [repository_snapshot::SNAPSHOT_SCHEMA]. *)
Definition SNAPSHOT_SCHEMA : string := "codeclew-repository-input-snapshot/2.0".

Record DerivedAnalysisInputManifest : Type := mkManifest {
  dm_schema : string;
  manifest_id : string;
  repository_snapshot : CasObject;
  provider_models : list ProviderModel;
  sealed_inputs : list CasObject
}.

(* --------------------------------------------------------------------- *)
(** ** Canonical order *)

Definition object_key (o : CasObject) : string * (string * N) := (digest o, (object_schema o, size o)).
Definition object_order (left right : CasObject) : comparison := cmp_on object_key left right.

Definition canonicalize_compilation (c : CompilationDescriptor) : CompilationDescriptor :=
  {| cd_schema := cd_schema c; compilation_id := compilation_id c; language_uri := language_uri c;
     source_roots := sort_by (cmp_on logical_name) (source_roots c);
     generated_source_roots := sort_by (cmp_on logical_name) (generated_source_roots c);
     classpath := sort_by object_order (classpath c);
     toolchain := toolchain c;
     plugins := sort_by object_order (plugins c);
     canonical_options := canonical_options c;
     dependency_compilation_ids := sort (dependency_compilation_ids c);
     operations := sort_by (cmp_on operation_uri) (operations c);
     origin := origin c; completeness := completeness c |}.

Definition canonicalize_model (p : ProviderModel) : ProviderModel :=
  {| pm_handshake := pm_handshake p;
     build_model :=
       {| bm_provider_id := bm_provider_id (build_model p); bm_model := bm_model (build_model p);
          compilations := canonicalize_compilation <$>
            sort_by (cmp_on compilation_id) (compilations (build_model p)) |} |}.

Definition model_id (p : ProviderModel) : string := provider_id (pm_handshake p).

Definition canonicalize_models (models : list ProviderModel) : list ProviderModel :=
  sort_by (cmp_on model_id) (canonicalize_model <$> models).

(* --------------------------------------------------------------------- *)
(** ** The dependency graph *)

Definition count_of (incoming : BTreeMap string nat) (id : string) : nat :=
  match bmap_get id incoming with Some n => n | None => 0%nat end.
Definition dependents_get (dependents : BTreeMap string (list string)) (id : string) : list string :=
  match bmap_get id dependents with Some l => l | None => [] end.

(** [dependents.entry(dependency).or_default().push(id)] for every dependency. *)
Definition collect_dependents (compilations : BTreeMap string CompilationDescriptor)
  : BTreeMap string (list string) :=
  foldl (fun dependents e =>
    foldl (fun dependents dependency =>
      bmap_insert dependency (dependents_get dependents dependency ++ [e.1]) dependents)
      dependents (dependency_compilation_ids e.2)) [] compilations.

(** One pass over the dependents of a visited compilation. *)
Definition release (st : BTreeMap string nat * BTreeSet string) (dependent : string)
  : BTreeMap string nat * BTreeSet string :=
  let count := pred (count_of st.1 dependent) in
  (bmap_insert dependent count st.1,
   if Nat.eqb count 0 then bset_insert dependent st.2 else st.2).

(** [while let Some(id) = ready.iter().next()], at most one round per compilation. *)
Fixpoint kahn (dependents : BTreeMap string (list string)) (fuel : nat)
    (incoming : BTreeMap string nat) (ready : BTreeSet string) (visited : nat) : nat :=
  match fuel, ready with
  | S fuel', id :: _ =>
      let st := foldl release (incoming, bset_remove id ready) (dependents_get dependents id) in
      kahn dependents fuel' st.1 st.2 (S visited)
  | _, _ => visited
  end.

Definition validate_acyclic (compilations : BTreeMap string CompilationDescriptor) : Res unit :=
  let incoming := bmap_of_list
    ((fun e => (e.1, length (dependency_compilation_ids e.2))) <$> compilations) in
  let dependents := collect_dependents compilations in
  let ready := bset_of_list (omap (fun e => if Nat.eqb e.2 0 then Some e.1 else None) incoming) in
  let visited := kahn dependents (length compilations) incoming ready 0 in
  if negb (Nat.eqb visited (length compilations))
  then invalid "compilation dependency graph contains a cycle"
  else Ok tt.

(* --------------------------------------------------------------------- *)
(** ** Admission of the models *)

Definition canonical_digest (value : string) : bool := digest_by_slice value.

Definition bad_uri (uri : string) : bool :=
  negb (contains_char ":" uri) || (256 <? str_len uri) || str_any uri_bad_byte uri.

Definition bad_provider (p : ProviderModel) : bool :=
  str_neqb (ph_protocol (pm_handshake p)) PROVIDER_PROTOCOL
  || negb (safe_id (provider_id (pm_handshake p)))
  || negb (canonical_digest (provider_digest (pm_handshake p)))
  || (match build_system_uris (pm_handshake p) with [] => true | _ => false end)
  || negb (windows_all ltb (build_system_uris (pm_handshake p)))
  || existsb bad_uri (build_system_uris (pm_handshake p))
  || str_neqb (provider_id (pm_handshake p)) (bm_provider_id (build_model p)).

(** The inner loop: compilations of one provider. *)
Definition admit_compilations (known : BTreeMap string CompilationDescriptor)
    (cs : list CompilationDescriptor) : Res (BTreeMap string CompilationDescriptor) :=
  try_fold (fun known c =>
    compilation_validate c ;;?
    if bmap_contains_key (compilation_id c) known
    then invalid "compilation identity is duplicated across providers"
    else Ok (bmap_insert (compilation_id c) c known)) known cs.

Definition admit_provider (st : BTreeSet string * BTreeMap string CompilationDescriptor) (p : ProviderModel)
  : Res (BTreeSet string * BTreeMap string CompilationDescriptor) :=
  if bad_provider p || bset_contains (model_id p) st.1
  then invalid "derived analysis provider identity is duplicated or mismatched"
  else
    let? known := admit_compilations st.2 (compilations (build_model p)) in
    Ok (bset_insert (model_id p) st.1, known).

Definition validate_models (models : list ProviderModel) : Res unit :=
  if (match models with [] => true | _ => false end) || (4096 <? vlen models)
  then invalid "derived analysis provider model set is invalid"
  else
    let? st := try_fold admit_provider ([], []) models in
    try_for_each (fun c =>
      try_for_each (fun dependency =>
        if bmap_contains_key dependency st.2 then Ok tt
        else invalid "compilation dependency is missing from the sealed model")
        (dependency_compilation_ids c)) (bmap_values st.2) ;;?
    validate_acyclic st.2.

(* --------------------------------------------------------------------- *)
(** ** Sealed inputs *)

Definition compilation_objects (c : CompilationDescriptor) : list CasObject :=
  (tree <$> source_roots c ++ generated_source_roots c) ++ classpath c ++ [toolchain c]
  ++ plugins c ++ [canonical_options c].
Definition input_objects (repository_snapshot : CasObject) (models : list ProviderModel) : list CasObject :=
  repository_snapshot :: (models ≫= fun p =>
    bm_model (build_model p) :: (compilations (build_model p) ≫= compilation_objects)).

(** The loop that drops repeated objects and refuses one digest with two descriptions. *)
Fixpoint unique_objects (previous : option CasObject) (objects : list CasObject) : Res (list CasObject) :=
  match objects with
  | [] => Ok []
  | object :: rest =>
      if (match previous with Some p => str_eqb (digest p) (digest object) | None => false end)
      then
        if (match previous with Some p => negb (bool_decide (p = object)) | None => false end)
        then corrupt "one CAS digest has conflicting metadata"
        else unique_objects previous rest
      else let? u := unique_objects (Some object) rest in Ok (object :: u)
  end.

Definition collect_inputs (repository_snapshot : CasObject) (models : list ProviderModel) : Res (list CasObject) :=
  unique_objects None (sort_by object_order (input_objects repository_snapshot models)).

(* --------------------------------------------------------------------- *)
(** ** Serialization: the derived [Serialize], camelCase, declaration order *)

Definition source_root_value (r : SourceRootDescriptor) : Value :=
  JObject [("logicalName", JString (logical_name r)); ("tree", cas_object_value (tree r))].
Definition operation_value (o : OperationDescriptor) : Value :=
  JObject [("operationUri", JString (operation_uri o)); ("arguments", JArray (JString <$> arguments o))].
Definition origin_value (o : DescriptorOrigin) : Value :=
  JString (match o with ProjectNative => "PROJECT_NATIVE" | SealedExternal => "SEALED_EXTERNAL" end).
Definition descriptor_completeness_value (c : DescriptorCompleteness) : Value :=
  JString (match c with Complete => "COMPLETE" | Partial => "PARTIAL" | Unknown => "UNKNOWN" end).
Definition compilation_value (c : CompilationDescriptor) : Value :=
  JObject [("schema", JString (cd_schema c)); ("compilationId", JString (compilation_id c));
           ("languageUri", JString (language_uri c));
           ("sourceRoots", JArray (source_root_value <$> source_roots c));
           ("generatedSourceRoots", JArray (source_root_value <$> generated_source_roots c));
           ("classpath", JArray (cas_object_value <$> classpath c));
           ("toolchain", cas_object_value (toolchain c));
           ("plugins", JArray (cas_object_value <$> plugins c));
           ("canonicalOptions", cas_object_value (canonical_options c));
           ("dependencyCompilationIds", JArray (JString <$> dependency_compilation_ids c));
           ("operations", JArray (operation_value <$> operations c));
           ("origin", origin_value (origin c)); ("completeness", descriptor_completeness_value (completeness c))].
Definition provider_handshake_value (h : ProviderHandshake) : Value :=
  JObject [("protocol", JString (ph_protocol h)); ("providerId", JString (provider_id h));
           ("providerDigest", JString (provider_digest h));
           ("buildSystemUris", JArray (JString <$> build_system_uris h))].
Definition provider_model_value (p : ProviderModel) : Value :=
  JObject [("handshake", provider_handshake_value (pm_handshake p));
           ("buildModel", JObject [("providerId", JString (bm_provider_id (build_model p)));
              ("model", cas_object_value (bm_model (build_model p)));
              ("compilations", JArray (compilation_value <$> compilations (build_model p)))])].
Definition manifest_value (m : DerivedAnalysisInputManifest) : Value :=
  JObject [("schema", JString (dm_schema m)); ("manifestId", JString (manifest_id m));
           ("repositorySnapshot", cas_object_value (repository_snapshot m));
           ("providerModels", JArray (provider_model_value <$> provider_models m));
           ("sealedInputs", JArray (cas_object_value <$> sealed_inputs m))].

Definition with_manifest_id (m : DerivedAnalysisInputManifest) (id : string) : DerivedAnalysisInputManifest :=
  {| dm_schema := dm_schema m; manifest_id := id; repository_snapshot := repository_snapshot m;
     provider_models := provider_models m; sealed_inputs := sealed_inputs m |}.

(* --------------------------------------------------------------------- *)
(** ** Create and verify *)

Section Manifest.
Context {P : Primitives} {S : Type} {O : CasOps S}.

Definition verify_object (s : S) (object : CasObject) : S * Res unit :=
  if usize_max <? size object then (s, resource_limit "derived input exceeds host size")
  else let '(s', r) := cas_read s object (size object) in
       match r with Ok _ => (s', Ok tt) | Err e => (s', Err e) end.
Definition verify_objects (s : S) (objects : list CasObject) : S * Res unit :=
  store_for_each verify_object s objects.

(** The checks of [create] before the store is used. *)
Definition create_inputs (snapshot : CasObject) (models : list ProviderModel) : Res (list CasObject) :=
  (if str_neqb (object_schema snapshot) SNAPSHOT_SCHEMA
   then invalid "derived manifest requires a repository snapshot v2 object" else Ok tt) ;;?
  validate_models (canonicalize_models models) ;;?
  collect_inputs snapshot (canonicalize_models models).

(** [DerivedAnalysisInputManifest::create]. *)
Definition create (s : S) (snapshot : CasObject) (models : list ProviderModel)
  : S * Res (DerivedAnalysisInputManifest * CasObject) :=
  match create_inputs snapshot models with
  | Err e => (s, Err e)
  | Ok sealed =>
      let '(s1, verified) := verify_objects s sealed in
      match verified with
      | Err e => (s1, Err e)
      | Ok _ =>
          let manifest := {| dm_schema := DERIVED_MANIFEST_SCHEMA; manifest_id := EmptyString;
                             repository_snapshot := snapshot;
                             provider_models := canonicalize_models models; sealed_inputs := sealed |} in
          let manifest := with_manifest_id manifest (hash (manifest_value manifest)) in
          let '(s2, object) := cas_put s1 DERIVED_MANIFEST_SCHEMA (value_bytes (manifest_value manifest)) in
          match object with Ok o => (s2, Ok (manifest, o)) | Err e => (s2, Err e) end
      end
  end.

(** The checks of [verify] before the store is used. *)
Definition verify_manifest (m : DerivedAnalysisInputManifest) : Res unit :=
  if str_neqb (dm_schema m) DERIVED_MANIFEST_SCHEMA
     || str_neqb (object_schema (repository_snapshot m)) SNAPSHOT_SCHEMA
     || str_neqb (manifest_id m) (hash (manifest_value (with_manifest_id m EmptyString)))
  then corrupt "derived analysis input manifest identity is invalid"
  else if negb (bool_decide (canonicalize_models (provider_models m) = provider_models m))
  then corrupt "derived analysis provider models are not canonical"
  else
    validate_models (provider_models m) ;;?
    let? inputs := collect_inputs (repository_snapshot m) (provider_models m) in
    if negb (bool_decide (inputs = sealed_inputs m))
    then corrupt "derived analysis sealed input set is incomplete"
    else Ok tt.

(** [DerivedAnalysisInputManifest::verify]. *)
Definition verify (s : S) (m : DerivedAnalysisInputManifest) : S * Res unit :=
  match verify_manifest m with
  | Err e => (s, Err e)
  | Ok _ => verify_objects s (sealed_inputs m)
  end.
End Manifest.
