(* ===== verification/Acyclic.v ===== *)
(** * Correctness of the dependency check (derived_manifest.rs: validate_acyclic)

    The loop is Kahn's algorithm.  [topo] records the order in which compilations
    were visited; the invariant ties the remaining counts and the ready set to
    it. *)

From S2P Require Import Prelude Order Collections Text Errors AdapterV2 DerivedManifest.

Lemma tc_impl {A} (R Q : A -> A -> Prop) x y : (forall a b, R a b -> Q a b) -> tc R x y -> tc Q x y.
Proof. intros H. induction 1; [by apply tc_once, H|]. eapply tc_l; [by apply H|done]. Qed.

(* --------------------------------------------------------------------- *)
(** ** Counting occurrences *)

Fixpoint occ (x : string) (l : list string) : nat :=
  match l with [] => 0 | y :: l' => (if decide (x = y) then 1 else 0) + occ x l' end.
(** Entries of [l] that are not in [V]. *)
Fixpoint pend (V l : list string) : nat :=
  match l with [] => 0 | y :: l' => (if decide (y ∈ V) then 0 else 1) + pend V l' end.

Lemma occ_app x l k : occ x (l ++ k) = (occ x l + occ x k)%nat.
Proof. induction l as [|y l IH]; cbn; [done|]. rewrite IH. lia. Qed.

Lemma occ_elem x l : x ∈ l <-> (0 < occ x l)%nat.
Proof.
  induction l as [|y l IH]; cbn; [rewrite elem_of_nil; split; [done|lia]|].
  rewrite elem_of_cons, IH. destruct (decide (x = y)); split; intros; try lia; [by left|naive_solver lia].
Qed.

Lemma pend_cons V v l : v ∉ V -> (pend (v :: V) l + occ v l)%nat = pend V l.
Proof.
  intros Hv. induction l as [|y l IH]; cbn; [done|].
  destruct (decide (y ∈ v :: V)) as [Hy|Hy], (decide (v = y)) as [<-|Hne], (decide (_ ∈ V)) as [HV|HV];
    try done; try lia; rewrite elem_of_cons in Hy; naive_solver.
Qed.

Lemma pend_zero V l : pend V l = 0%nat <-> forall d, d ∈ l -> d ∈ V.
Proof.
  induction l as [|y l IH]; cbn; [split; [by intros _ d ?%elem_of_nil|done]|].
  destruct (decide (y ∈ V)) as [Hy|Hy].
  - cbn. rewrite IH. setoid_rewrite elem_of_cons. naive_solver.
  - split; [lia|]. intros Hd. exfalso. apply Hy, Hd. left.
Qed.

Lemma pend_nil l : pend [] l = length l.
Proof.
  induction l as [|y l IH]; cbn; [done|]. destruct (decide (y ∈ [])) as [[]%elem_of_nil|]. by rewrite IH.
Qed.

(* --------------------------------------------------------------------- *)
(** ** Dependents *)

Lemma dependents_push id ds d x : forall m,
  occ x (dependents_get (foldl (fun m dep => bmap_insert dep (dependents_get m dep ++ [id]) m) m ds) d) =
  (occ x (dependents_get m d) + if decide (id = x) then occ d ds else 0)%nat.
Proof.
  induction ds as [|dep ds IH]; intros m; cbn [foldl occ]; [by destruct (decide (id = x)); rewrite Nat.add_0_r|].
  rewrite IH. unfold dependents_get at 1. rewrite bmap_get_insert. destruct (cmp d dep) eqn:E.
  - apply cmp_eq_iff in E as ->. rewrite occ_app. cbn. destruct (decide (dep = dep)); [|done].
    destruct (decide (id = x)) as [->|Hne]; [destruct (decide (x = x)); [lia|done]|].
    destruct (decide (x = id)) as [->|]; [done|lia].
  - destruct (decide (d = dep)) as [->|]; [by rewrite cmp_refl in E|]. fold (dependents_get m d).
    destruct (decide (id = x)); lia.
  - destruct (decide (d = dep)) as [->|]; [by rewrite cmp_refl in E|]. fold (dependents_get m d).
    destruct (decide (id = x)); lia.
Qed.

Fixpoint total (l : list (string * CompilationDescriptor)) (d x : string) : nat :=
  match l with
  | [] => 0
  | e :: l' => (if decide (e.1 = x) then occ d (dependency_compilation_ids e.2) else 0) + total l' d x
  end.

Lemma collect_dependents_total l d x :
  occ x (dependents_get (collect_dependents l) d) = total l d x.
Proof.
  unfold collect_dependents.
  assert (forall m, occ x (dependents_get (foldl (fun dependents e =>
    foldl (fun dependents dep => bmap_insert dep (dependents_get dependents dep ++ [e.1]) dependents)
      dependents (dependency_compilation_ids e.2)) m l) d) = (occ x (dependents_get m d) + total l d x)%nat) as Hg.
  { induction l as [|e l IH]; intros m; cbn [foldl total]; [lia|]. rewrite IH, dependents_push. lia. }
  rewrite Hg. done.
Qed.

Section Graph.
Context (comps : list (string * CompilationDescriptor)).
Hypothesis comps_wf : bmap_wf comps.

(** What a compilation depends on. *)
Definition deps (x : string) : list string :=
  match bmap_get x comps with Some c => dependency_compilation_ids c | None => [] end.
Definition keys : list string := comps.*1.
Definition depends (x y : string) : Prop := y ∈ deps x.
Hypothesis closed : forall x y, depends x y -> y ∈ keys.

Lemma total_deps d x : total comps d x = occ d (deps x).
Proof.
  unfold deps. clear closed. pose proof comps_wf as Hw. unfold bmap_wf in Hw.
  induction comps as [|[k c] l IH]; cbn [total bmap_get fst snd]; [done|].
  rewrite fmap_cons in Hw. apply StronglySorted_inv in Hw as [Hw Hlt]. cbn [fst] in Hlt.
  destruct (decide (k = x)) as [->|Hne].
  - rewrite cmp_refl, IH by done. replace (bmap_get x l) with (@None CompilationDescriptor); [cbn; lia|].
    symmetry. apply bmap_get_none_key. intros Hin. rewrite list.Forall_forall in Hlt. by eapply lt_irrefl, Hlt.
  - destruct (cmp x k) eqn:E; [by apply cmp_eq_iff in E|by rewrite IH..].
Qed.

Lemma dependents_occ d x : occ x (dependents_get (collect_dependents comps) d) = occ d (deps x).
Proof. rewrite collect_dependents_total. apply total_deps. Qed.

Lemma deps_key x y : depends x y -> x ∈ keys.
Proof.
  unfold depends, deps. destruct (bmap_get x comps) as [c|] eqn:E; [|by intros ?%elem_of_nil].
  intros _. apply bmap_get_some_key. by exists c.
Qed.

(* --------------------------------------------------------------------- *)
(** ** One round *)

Lemma release_all ds : forall st,
  (forall x, (occ x ds <= count_of st.1 x)%nat) ->
  let st' := foldl release st ds in
  (forall x, count_of st'.1 x = (count_of st.1 x - occ x ds)%nat) /\
  (bset_wf st.2 -> bset_wf st'.2) /\
  (forall x, x ∈ st'.2 <-> x ∈ st.2 \/ ((0 < occ x ds)%nat /\ count_of st'.1 x = 0%nat)).
Proof.
  induction ds as [|d ds IH]; intros [I R] Hle; cbn [foldl].
  { cbn. split_and!; [intros; lia|done|]. intros x. split; [by left|intros [|[? _]]; [done|lia]]. }
  set (st1 := release (I, R) d).
  assert (forall x, count_of st1.1 x = if decide (x = d) then pred (count_of I d) else count_of I x) as Hc.
  { intros x. unfold st1, release, count_of at 1. cbn [fst]. rewrite bmap_get_insert.
    destruct (cmp x d) eqn:E, (decide (x = d)) as [->|Hne]; try done;
      [by apply cmp_eq_iff in E|by rewrite cmp_refl in E..]. }
  assert (forall x, x ∈ st1.2 <-> x ∈ R \/ (x = d /\ pred (count_of I d) = 0%nat)) as Hr.
  { intros x. unfold st1, release. cbn [fst snd].
    destruct (Nat.eqb_spec (pred (count_of I d)) 0); [rewrite bset_insert_elem|]; naive_solver. }
  assert (forall x, (occ x ds <= count_of st1.1 x)%nat) as Hle1.
  { intros x. rewrite Hc. specialize (Hle x). cbn [occ fst] in Hle. destruct (decide (x = d)) as [->|]; lia. }
  destruct (IH st1 Hle1) as (H1 & H2 & H3). cbv zeta. split_and!.
  - intros x. rewrite H1, Hc. cbn [occ fst]. destruct (decide (x = d)) as [->|]; lia.
  - intros Hw. apply H2. unfold st1, release. cbn [snd]. destruct (Nat.eqb _ 0); [by apply bset_insert_wf|done].
  - intros x. rewrite H3, Hr. cbn [occ snd]. specialize (Hle1 d). specialize (H1 x) as H1x.
    revert H1x Hle1. rewrite !Hc. destruct (decide (d = d)); [|done].
    destruct (decide (x = d)) as [->|Hne]; intros H1x Hle1; [|naive_solver lia].
    destruct (decide (pred (count_of I d) = 0%nat)) as [Hz|Hz].
    + split; [intros _; right; split; lia|auto].
    + split; [intros [[|[_ ?]]|[? ?]]; [by left|done|right; split; lia]|].
      intros [|[_ Hz']]; [by left; left|right; split; [lia|done]].
Qed.

(** Visited compilations, latest first: each after everything it depends on. *)
Inductive topo : list string -> Prop :=
| topo_nil : topo []
| topo_cons v V : topo V -> v ∉ V -> v ∈ keys -> (forall d, depends v d -> d ∈ V) -> topo (v :: V).

Record kahn_inv (V : list string) (I : BTreeMap string nat) (R : BTreeSet string) : Prop := mkKahnInv {
  kahn_topo : topo V;
  kahn_count : forall x, x ∈ keys -> count_of I x = pend V (deps x);
  kahn_wf : bset_wf R;
  kahn_ready : forall x, x ∈ R <-> x ∈ keys /\ x ∉ V /\ pend V (deps x) = 0%nat
}.

Lemma topo_nodup V : topo V -> NoDup V.
Proof. induction 1; constructor; done. Qed.
Lemma topo_keys V : topo V -> forall v, v ∈ V -> v ∈ keys.
Proof. induction 1; intros w; rewrite ?elem_of_nil, ?elem_of_cons; naive_solver. Qed.
Lemma topo_length V : topo V -> (length V <= length keys)%nat.
Proof.
  intros Ht. apply submseteq_length, NoDup_submseteq; [by apply topo_nodup|]. by apply topo_keys.
Qed.
Lemma topo_closed V : topo V -> forall v d, v ∈ V -> depends v d -> d ∈ V.
Proof.
  induction 1 as [|v V _ IH Hn Hk Hd]; intros w d; rewrite ?elem_of_nil, ?elem_of_cons; [done|].
  intros [->|Hw] Hdep; right; [by apply Hd|by eapply IH].
Qed.

Lemma kahn_step V I id R :
  kahn_inv V I (id :: R) ->
  let st := foldl release (I, bset_remove id (id :: R)) (dependents_get (collect_dependents comps) id) in
  kahn_inv (id :: V) st.1 st.2.
Proof.
  intros [Ht Hc Hw Hr]. assert (id ∈ keys /\ id ∉ V /\ pend V (deps id) = 0%nat) as (Hk & Hn & Hz)
    by (apply Hr; left).
  set (ds := dependents_get (collect_dependents comps) id). cbv zeta.
  assert (forall x, occ x ds = occ id (deps x)) as Ho by apply dependents_occ.
  assert (forall x, (0 < occ id (deps x))%nat -> x ∈ keys) as Hok.
  { intros x. rewrite <- occ_elem. apply deps_key. }
  destruct (release_all ds (I, bset_remove id (id :: R))) as (H1 & H2 & H3).
  { intros x. rewrite Ho. cbn [fst]. destruct (decide (occ id (deps x) = 0%nat)); [lia|].
    rewrite Hc by (apply Hok; lia). rewrite <- (pend_cons V id) by done. lia. }
  cbn [fst snd] in H1, H2, H3. assert (forall x, x ∈ keys ->
    count_of (foldl release (I, bset_remove id (id :: R)) ds).1 x = pend (id :: V) (deps x)) as Hcount.
  { intros x Hx. rewrite H1, Ho, Hc by done. rewrite <- (pend_cons V id) by done. lia. }
  split.
  - constructor; try done. by apply pend_zero.
  - done.
  - apply H2. by apply bset_remove_wf.
  - intros x. rewrite H3, bset_remove_elem, Hr, Ho, elem_of_cons by done. split.
    + intros [[(Hx & Hxn & Hxz) Hne]|[Hpos Hzero]].
      * split_and!; [done|naive_solver|]. rewrite <- (pend_cons V id) in Hxz by done. lia.
      * assert (x ∈ keys) as Hx by auto. split_and!; [done| |by rewrite <- Hcount].
        apply occ_elem in Hpos. intros [->|Hxv].
        -- apply Hn. rewrite pend_zero in Hz. by apply Hz.
        -- apply Hn. by eapply topo_closed.
    + intros (Hx & Hxn & Hxz). destruct (decide (occ id (deps x) = 0%nat)) as [Hoz|].
      * left. split_and!; [done|naive_solver| |naive_solver]. rewrite <- (pend_cons V id) by done. lia.
      * right. split; [lia|]. by rewrite Hcount.
Qed.

Lemma kahn_visits fuel : forall V I R,
  kahn_inv V I R -> (length keys <= fuel + length V)%nat ->
  exists V', topo V' /\ kahn (collect_dependents comps) fuel I R (length V) = length V' /\
    (forall x, x ∈ keys -> x ∉ V' -> exists d, depends x d /\ d ∉ V').
Proof.
  assert (forall V I, kahn_inv V I [] -> forall x, x ∈ keys -> x ∉ V -> exists d, depends x d /\ d ∉ V) as Hend.
  { intros V I [_ _ _ Hr] x Hk Hn. assert (pend V (deps x) <> 0%nat) as Hp.
    { intros Hz. assert (x ∈ []) as []%elem_of_nil by by apply Hr. }
    unfold depends. induction (deps x) as [|d l IH]; cbn in Hp; [done|].
    destruct (decide (d ∈ V)); [|exists d; split; [left|done]].
    destruct IH as (d' & ? & ?); [lia|]. exists d'. split; [by right|done]. }
  induction fuel as [|fuel IH]; intros V I R Hinv Hle; destruct R as [|id R]; cbn [kahn];
    try (exists V; split_and!; [apply Hinv|done|by eapply Hend]).
  - exfalso. assert (topo (id :: V)) as Ht%topo_length by apply (kahn_step _ _ _ _ Hinv). cbn in Ht. lia.
  - destruct (IH _ _ _ (kahn_step _ _ _ _ Hinv)) as (V' & Ht & Hk & Hd); [cbn; lia|].
    exists V'. split_and!; done.
Qed.

(* --------------------------------------------------------------------- *)
(** ** Cycles *)

Definition acyclic : Prop := forall x, ~ tc depends x x.

Lemma topo_acyclic V : topo V -> forall x y, x ∈ V -> tc depends x y -> y ∈ V /\ x <> y.
Proof.
  induction 1 as [|v V Ht IH Hn _ Hd]; intros x y; [by intros ?%elem_of_nil|].
  assert (forall a b, a ∈ V -> tc depends a b -> b ∈ V) as HV by (intros a b ? ?; by eapply IH).
  intros [->|Hx]%elem_of_cons Hxy.
  - assert (y ∈ V) as Hy; [|split; [by right|by intros <-]].
    destruct Hxy as [x y Hxy|x z y Hvz Hzy]; [by apply Hd|]. by eapply HV; [apply Hd|].
  - destruct (IH x y Hx Hxy). split; [by right|done].
Qed.

Lemma tc_key x y : tc depends x y -> x ∈ keys.
Proof. destruct 1; by eapply deps_key. Qed.

(** In a finite acyclic graph some element of a non-empty set points outside it. *)
Lemma no_infinite_chain (U : list string) :
  acyclic -> U <> [] -> (forall x, x ∈ U -> exists d, depends x d /\ d ∈ U) -> False.
Proof.
  intros Ha Hne Hs.
  assert (forall n, exists l, length l = S n /\ (forall x, x ∈ l -> x ∈ U) /\
    StronglySorted (fun a b => tc depends b a) l) as Hchain.
  { induction n as [|n (l & Hl & Hin & Hsort)].
    - destruct U as [|u U]; [done|]. exists [u]. split_and!; [done|set_solver|repeat constructor].
    - destruct l as [|h l]; [done|]. destruct (Hs h) as (d & Hhd & Hd); [apply Hin; left|].
      exists (d :: h :: l). split_and!; [cbn in *; lia|set_solver|]. constructor; [exact Hsort|].
      apply StronglySorted_inv in Hsort as [_ Hf]. apply Forall_cons_iff. split; [apply tc_once; exact Hhd|].
      eapply list.Forall_impl; [exact Hf|]. intros b Hb. exact (tc_r _ _ _ Hb Hhd). }
  destruct (Hchain (length U)) as (l & Hl & Hin & Hsort).
  assert (NoDup l) as Hd.
  { clear -Hsort Ha. induction Hsort as [|a l _ IH Hf]; constructor; [|done].
    rewrite list.Forall_forall in Hf. intros Hin. by apply (Ha a), Hf. }
  assert (length l <= length U)%nat by (by apply submseteq_length, NoDup_submseteq). lia.
Qed.
End Graph.

Section Spec.
Context (comps : list (string * CompilationDescriptor)).
Hypothesis comps_wf : bmap_wf comps.
Hypothesis comps_closed : forall x y, depends comps x y -> y ∈ keys comps.

Let incoming := bmap_of_list ((fun e => (e.1, length (dependency_compilation_ids e.2))) <$> comps).

Lemma incoming_get x n :
  bmap_get x incoming = Some n <-> exists c, bmap_get x comps = Some c /\ n = length (dependency_compilation_ids c).
Proof.
  assert (NoDup ((fun e : string * CompilationDescriptor => (e.1, length (dependency_compilation_ids e.2))) <$> comps).*1) as Hd.
  { rewrite <- list_fmap_compose. by apply bset_wf_NoDup. }
  unfold incoming. rewrite bmap_of_list_get by done. rewrite list_elem_of_fmap.
  setoid_rewrite bmap_get_elem; [|done]. split; [intros ([k c] & [= -> ->] & Hin); eauto|].
  intros (c & Hc & ->). by exists (x, c).
Qed.

Lemma kahn_start :
  kahn_inv comps [] incoming
    (bset_of_list (omap (fun e => if Nat.eqb e.2 0 then Some e.1 else None) incoming)).
Proof.
  assert (forall x, x ∈ keys comps -> count_of incoming x = length (deps comps x)) as Hc.
  { intros x (c & Hx)%bmap_get_some_key. unfold count_of, deps. rewrite Hx.
    by rewrite (proj2 (incoming_get x _) (ex_intro _ c (conj Hx eq_refl))). }
  split.
  - constructor.
  - intros x Hx. rewrite pend_nil. by apply Hc.
  - apply bset_of_list_wf.
  - intros x. rewrite bset_of_list_elem, list_elem_of_omap, pend_nil. split.
    + intros ([k n] & Hin & He). cbn in He. destruct (Nat.eqb_spec n 0) as [->|]; [|done]. injection He as ->.
      apply bmap_get_elem in Hin; [|apply bmap_of_list_wf]. apply incoming_get in Hin as (c & Hx & Hl).
      split_and!; [apply bmap_get_some_key; by exists c|apply not_elem_of_nil|]. unfold deps. by rewrite Hx.
    + intros (Hx & _ & Hz). exists (x, 0%nat). split; [|done].
      apply bmap_get_elem; [apply bmap_of_list_wf|]. apply incoming_get.
      apply bmap_get_some_key in Hx as [c Hx]. exists c. split; [done|]. unfold deps in Hz. by rewrite Hx in Hz.
Qed.

Lemma validate_acyclic_iff : validate_acyclic comps = Ok tt <-> acyclic comps.
Proof.
  unfold validate_acyclic, invalid. rewrite guard_ok, negb_false_iff, Nat.eqb_eq.
  destruct (kahn_visits comps comps_wf (length comps) [] incoming _ kahn_start) as (V & Ht & Hk & Hrest).
  { unfold keys. rewrite length_fmap. cbn. lia. }
  cbn [length] in Hk. fold incoming. rewrite Hk.
  assert (length comps = length (keys comps)) as -> by (unfold keys; by rewrite length_fmap).
  split.
  - intros [Hl _] x Hx. assert (x ∈ keys comps) as Hin.
    { by eapply tc_key. }
    assert (V ≡ₚ keys comps) as Hp.
    { apply submseteq_length_Permutation; [|lia].
      apply NoDup_submseteq; [by eapply topo_nodup|by eapply topo_keys]. }
    rewrite <- Hp in Hin. by destruct (topo_acyclic comps V Ht x x Hin Hx).
  - intros Ha. split; [|done].
    destruct (decide (length V = length (keys comps))) as [|Hne]; [done|exfalso].
    eapply no_infinite_chain with (U := filter (fun k => k ∉ V) (keys comps)); [done..| |].
    + intros He. apply Hne. apply Nat.le_antisymm; [by apply topo_length|].
      apply submseteq_length, NoDup_submseteq; [by apply bset_wf_NoDup|].
      intros k Hkey. destruct (decide (k ∈ V)); [done|].
      assert (k ∈ filter (fun k => k ∉ V) (keys comps)) as Hf by (by apply list_elem_of_filter).
      rewrite He in Hf. by apply elem_of_nil in Hf.
    + intros x [Hxv Hxk]%list_elem_of_filter. destruct (Hrest x Hxk Hxv) as (d & Hd & Hdv).
      exists d. split; [done|]. apply list_elem_of_filter. split; [done|by eapply comps_closed].
Qed.
End Spec.
