(* ===== verification/SealedManifest.v ===== *)
(** * What a sealed manifest guarantees (derived_manifest.rs)

    Admission of the provider models, independence of the order in which
    providers list things, and create followed by verify. *)

From S2P Require Import Prelude Order Collections Text Json Canonical Instances Errors CasObject CasInterface AdapterV2 DerivedManifest Acyclic.
From S2P Require CasStore.

Definition all_compilations (models : list ProviderModel) : list CompilationDescriptor :=
  models ≫= fun p => compilations (build_model p).

(** [x] needs [y] somewhere in the models. *)
Definition needs (models : list ProviderModel) (x y : string) : Prop :=
  exists c, c ∈ all_compilations models /\ compilation_id c = x /\ y ∈ dependency_compilation_ids c.

Record models_admissible (models : list ProviderModel) : Prop := mkModelsAdmissible {
  admissible_nonempty : models <> [];
  admissible_bound : vlen models <= 4096;
  admissible_providers : Forall (fun p => bad_provider p = false) models;
  admissible_provider_ids : NoDup (model_id <$> models);
  admissible_compilations : Forall (fun c => compilation_validate c = Ok tt) (all_compilations models);
  admissible_compilation_ids : NoDup (compilation_id <$> all_compilations models);
  admissible_closed : forall x y, needs models x y -> y ∈ compilation_id <$> all_compilations models;
  admissible_acyclic : forall x, ~ tc (needs models) x x
}.

(* --------------------------------------------------------------------- *)
(** ** The admission loops *)

Definition index (cs : list CompilationDescriptor) : BTreeMap string CompilationDescriptor :=
  bmap_of_list ((fun c => (compilation_id c, c)) <$> cs).

Lemma admit_compilations_ok cs : forall known known',
  admit_compilations known cs = Ok known' <->
  Forall (fun c => compilation_validate c = Ok tt) cs /\ NoDup (compilation_id <$> cs) /\
  Forall (fun c => compilation_id c ∉ known.*1) cs /\
  known' = foldl (fun m c => bmap_insert (compilation_id c) c m) known cs.
Proof.
  induction cs as [|c cs IH]; intros known known'; unfold admit_compilations; cbn [try_fold].
  { split; [intros [= <-]; split_and!; done || constructor|by intros (_ & _ & _ & ->)]. }
  rewrite result_bind_ok. setoid_rewrite IH. unfold invalid.
  rewrite !Forall_cons_iff, fmap_cons, list.NoDup_cons. cbn [foldl].
  assert (forall k, ((compilation_validate c ;;?
      if bmap_contains_key (compilation_id c) known
      then Err (ClewError_new InvalidInput "compilation identity is duplicated across providers")
      else Ok (bmap_insert (compilation_id c) c known)) = Ok k) <->
    compilation_validate c = Ok tt /\ compilation_id c ∉ known.*1 /\ k = bmap_insert (compilation_id c) c known) as Hstep.
  { intros k. rewrite seq_ok, guard_ok, <- bmap_contains_spec, not_true_iff_false. naive_solver. }
  setoid_rewrite Hstep.
  assert (Forall (fun c' => compilation_id c' ∉ (bmap_insert (compilation_id c) c known).*1) cs <->
    compilation_id c ∉ compilation_id <$> cs /\ Forall (fun c' => compilation_id c' ∉ known.*1) cs) as Hf.
  { rewrite !list.Forall_forall, list_elem_of_fmap. setoid_rewrite bmap_insert_keys. naive_solver. }
  split.
  - intros (k & (Hv & Hn & ->) & Hl & Hd & Hk & ->). apply Hf in Hk as [Hk1 Hk2]. done.
  - intros ((Hv & Hl) & (Hk1 & Hd) & (Hn & Hk2) & ->). eexists. split_and!; try done. by apply Hf.
Qed.

Lemma admit_compilations_app known cs1 cs2 :
  admit_compilations known (cs1 ++ cs2) = (let? k := admit_compilations known cs1 in admit_compilations k cs2).
Proof. apply try_fold_app. Qed.

Lemma admit_providers_ok models : forall ps known st,
  try_fold admit_provider (ps, known) models = Ok st ->
  Forall (fun p => bad_provider p = false) models /\ NoDup (model_id <$> models) /\
  Forall (fun p => model_id p ∉ ps) models /\ admit_compilations known (all_compilations models) = Ok st.2.
Proof.
  induction models as [|p models IH]; intros ps known st; cbn [try_fold].
  { intros [= <-]. split_and!; [constructor..|done]. }
  rewrite result_bind_ok. intros (st1 & H1 & H2). unfold admit_provider, invalid in H1.
  rewrite guard_ok, orb_false_iff, bset_contains_false, result_bind_ok in H1. cbn [fst snd] in H1.
  destruct H1 as ((Hb & Hn) & k & Hk & [= <-]). destruct (IH _ _ _ H2) as (Hbs & Hd & Hps & Hadm).
  assert (model_id p ∉ model_id <$> models /\ Forall (fun p' => model_id p' ∉ ps) models) as [Hp1 Hp2].
  { rewrite list.Forall_forall in Hps. setoid_rewrite bset_insert_elem in Hps. split.
    - rewrite list_elem_of_fmap. naive_solver.
    - rewrite list.Forall_forall. naive_solver. }
  split_and!; [by constructor|rewrite fmap_cons; by constructor|by constructor|].
  change (all_compilations (p :: models)) with (compilations (build_model p) ++ all_compilations models).
  rewrite admit_compilations_app, Hk. exact Hadm.
Qed.

Lemma admit_providers_complete models : forall ps known known',
  Forall (fun p => bad_provider p = false) models -> NoDup (model_id <$> models) ->
  Forall (fun p => model_id p ∉ ps) models -> admit_compilations known (all_compilations models) = Ok known' ->
  exists ps', try_fold admit_provider (ps, known) models = Ok (ps', known').
Proof.
  induction models as [|p models IH]; intros ps known known' Hb Hd Hps Hadm; cbn [try_fold].
  { exists ps. cbn in Hadm. by injection Hadm as <-. }
  apply Forall_cons_iff in Hb as [Hbp Hb], Hps as [Hpp Hps]. rewrite fmap_cons in Hd. apply list.NoDup_cons in Hd as [Hnp Hd].
  change (all_compilations (p :: models)) with (compilations (build_model p) ++ all_compilations models) in Hadm.
  rewrite admit_compilations_app, result_bind_ok in Hadm. destruct Hadm as (k & Hk & Hadm).
  apply bset_contains_false in Hpp. unfold admit_provider at 1. cbn [fst snd]. rewrite Hbp, Hpp, Hk.
  cbn [orb result_bind]. apply IH; try done.
  rewrite list.Forall_forall in *. intros q Hq [He|Hin]%bset_insert_elem; [|by eapply Hps].
  apply Hnp. rewrite <- He. by apply list_elem_of_fmap_2.
Qed.

Lemma index_foldl cs : index cs = foldl (fun m c => bmap_insert (compilation_id c) c m) [] cs.
Proof.
  unfold index, bmap_of_list. generalize (@nil (string * CompilationDescriptor)).
  induction cs as [|c cs IH]; intros m; cbn; [done|]. apply IH.
Qed.

Lemma index_get cs x c : NoDup (compilation_id <$> cs) ->
  bmap_get x (index cs) = Some c <-> c ∈ cs /\ compilation_id c = x.
Proof.
  intros Hd. unfold index. rewrite bmap_of_list_get by (by rewrite <- list_fmap_compose).
  rewrite list_elem_of_fmap. naive_solver.
Qed.

Lemma index_key cs x : NoDup (compilation_id <$> cs) -> x ∈ (index cs).*1 <-> x ∈ compilation_id <$> cs.
Proof.
  intros Hd. rewrite bmap_get_some_key, list_elem_of_fmap. setoid_rewrite index_get; [|done]. naive_solver.
Qed.

(** The graph the dependency check walks is the one the models describe. *)
Lemma index_depends models x y : NoDup (compilation_id <$> all_compilations models) ->
  depends (index (all_compilations models)) x y <-> needs models x y.
Proof.
  intros Hd. unfold depends, deps, needs. split.
  - destruct (bmap_get x (index _)) as [c|] eqn:E; [|by intros ?%elem_of_nil].
    apply index_get in E as [? ?]; [|done]. eauto.
  - intros (c & Hc & Hx & Hy). by rewrite (proj2 (index_get _ x c Hd)).
Qed.

Lemma try_for_each_missing (known : BTreeMap string CompilationDescriptor) cs :
  try_for_each (fun c => try_for_each (fun d => if bmap_contains_key d known then Ok tt
     else invalid "compilation dependency is missing from the sealed model") (dependency_compilation_ids c)) cs
    = Ok tt <-> forall c d, c ∈ cs -> d ∈ dependency_compilation_ids c -> d ∈ known.*1.
Proof.
  rewrite try_for_each_ok, list.Forall_forall. setoid_rewrite try_for_each_ok.
  setoid_rewrite list.Forall_forall. setoid_rewrite <- bmap_contains_spec. split.
  - intros H c d Hc Hd. specialize (H c Hc d Hd). by destruct (bmap_contains_key d known).
  - intros H c Hc d Hd. by rewrite (H c d Hc Hd).
Qed.

Lemma values_elem cs c : NoDup (compilation_id <$> cs) -> c ∈ bmap_values (index cs) <-> c ∈ cs.
Proof.
  intros Hd. unfold bmap_values. rewrite list_elem_of_fmap. split.
  - intros ([k c'] & -> & Hin). apply bmap_get_elem in Hin; [|apply bmap_of_list_wf].
    by apply index_get in Hin as [? _].
  - intros Hc. exists (compilation_id c, c). split; [done|]. apply bmap_get_elem; [apply bmap_of_list_wf|].
    by apply index_get.
Qed.

Lemma models_admissible_iff models : validate_models models = Ok tt <-> models_admissible models.
Proof.
  unfold validate_models. unfold invalid at 1.
  rewrite guard_ok, orb_false_iff, empty_match, N.ltb_ge, result_bind_ok. split.
  - intros ((Hne & Hle) & st & Hst & H). rewrite seq_ok, try_for_each_missing in H. destruct H as [Hmiss Hac].
    destruct (admit_providers_ok _ _ _ _ Hst) as (Hb & Hd & _ & Hadm).
    apply admit_compilations_ok in Hadm as (Hv & Hcd & _ & Hk). rewrite <- index_foldl in Hk. rewrite Hk in *.
    assert (forall x y, needs models x y -> y ∈ compilation_id <$> all_compilations models) as Hcl.
    { intros x y (c & Hc & _ & Hy). apply index_key; [done|]. eapply Hmiss; [|done]. by apply values_elem. }
    split; try done. apply validate_acyclic_iff in Hac; [|apply bmap_of_list_wf|].
    + intros x Hx. apply (Hac x). revert Hx. apply tc_impl. intros a b. by apply index_depends.
    + intros x y Hxy. apply index_key; [done|]. eapply Hcl. by apply index_depends.
  - intros [Hne Hle Hb Hd Hv Hcd Hcl Hac]. split; [done|].
    destruct (admit_providers_complete models [] [] (index (all_compilations models))) as [ps Hst]; try done.
    { apply list.Forall_true. intros p. apply not_elem_of_nil. }
    { apply admit_compilations_ok. rewrite index_foldl. split_and!; try done.
      apply list.Forall_true. intros c. apply not_elem_of_nil. }
    eexists. split; [exact Hst|]. cbn [snd]. rewrite seq_ok, try_for_each_missing. split.
    + intros c d Hc Hdd. apply index_key; [done|]. apply (values_elem _ _ Hcd) in Hc.
      apply (Hcl (compilation_id c)). by exists c.
    + apply validate_acyclic_iff; [apply bmap_of_list_wf| |].
      * intros x y Hxy. apply index_key; [done|]. eapply Hcl. by apply index_depends.
      * intros x Hx. apply (Hac x). revert Hx. apply tc_impl. intros a b. by apply index_depends.
Qed.

(** C35: the models of a manifest are admitted exactly when there are between one
    and 4096 of them, provider and compilation identities are well formed and
    unique, every dependency names a compilation of the models, and no
    compilation depends on itself, directly or through others. *)
Theorem validate_models_spec models : validate_models models = Ok tt <-> models_admissible models.
Proof. apply models_admissible_iff. Qed.

(* --------------------------------------------------------------------- *)
(** ** Sealed inputs *)

Definition digest_le (a b : CasObject) : Prop := ~ lt_ord (digest b) (digest a).
Definition digest_lt (a b : CasObject) : Prop := lt_ord (digest a) (digest b).

Lemma object_sorted_digest l : StronglySorted digest_le (sort_by object_order l).
Proof.
  eapply StronglySorted_impl; [|apply (sort_by_sorted object_key)]. intros a b _ _ Hk Hd. apply Hk.
  unfold lt_ord, object_key. rewrite cmp_pair. unfold lt_ord in Hd. by rewrite Hd.
Qed.

Lemma digest_le_lt_trans a b c : digest_le a b -> digest_lt b c -> digest_lt a c.
Proof. unfold digest_le, digest_lt. intros [->|]%nlt_cases ?; [done|]. by eapply lt_trans. Qed.

Lemma unique_objects_spec l : forall prev u,
  StronglySorted digest_le (option_list prev ++ l) -> unique_objects prev l = Ok u ->
  (forall x, x ∈ u -> x ∈ l) /\ (forall x, x ∈ l -> x ∈ u \/ prev = Some x) /\
  StronglySorted digest_lt (option_list prev ++ u).
Proof.
  induction l as [|o l IH]; intros prev u Hs; cbn [unique_objects].
  { intros [= <-]. split_and!; [done|by intros x ?%elem_of_nil|]. rewrite app_nil_r.
    destruct prev; cbn; repeat constructor. }
  destruct (match prev with Some p => str_eqb (digest p) (digest o) | None => false end) eqn:E.
  - destruct prev as [p|]; [|done]. destruct (bool_decide (p = o)) eqn:Eo; cbn [negb]; [|done].
    apply bool_decide_eq_true in Eo as <-. intros Hu.
    destruct (IH (Some p) u) as (H1 & H2 & H3); [|done|].
    { cbn in Hs |- *. by apply StronglySorted_inv in Hs as [? _]. }
    split_and!; [intros x Hx; right; by apply H1| |done].
    intros x [->|Hx]%elem_of_cons; [by right|by apply H2].
  - rewrite result_bind_ok. intros (u' & Hu & [= <-]).
    assert (StronglySorted digest_le (o :: l)) as Hs'.
    { destruct prev; cbn in Hs; [by apply StronglySorted_inv in Hs as [? _]|done]. }
    destruct (IH (Some o) u') as (H1 & H2 & H3); [done|done|]. cbn [option_list app] in H3.
    split_and!.
    + intros x [->|Hx]%elem_of_cons; [left|right; by apply H1].
    + intros x [->|Hx]%elem_of_cons; [left; left|]. destruct (H2 x Hx) as [|[= ->]]; left; [by right|left].
    + destruct prev as [p|]; [|done]. cbn [option_list app] in *.
      apply StronglySorted_inv in Hs as [_ Hp]. apply Forall_cons_iff in Hp as [Hpo _].
      assert (digest_lt p o) as Hlt.
      { apply str_eqb_false in E. destruct (nlt_cases _ _ Hpo) as [He|]; [by rewrite He in E|done]. }
      constructor; [exact H3|]. apply Forall_cons_iff. split; [exact Hlt|]. apply StronglySorted_inv in H3 as [_ Ho].
      apply (list.Forall_impl (digest_lt o)); [exact Ho|]. intros x Hx. exact (lt_trans _ _ _ Hlt Hx).
Qed.

Lemma unique_objects_total l : forall prev,
  (forall a b, a ∈ option_list prev ++ l -> b ∈ option_list prev ++ l -> digest a = digest b -> a = b) ->
  exists u, unique_objects prev l = Ok u.
Proof.
  induction l as [|o l IH]; intros prev Hc; cbn [unique_objects]; [by exists []|].
  destruct (match prev with Some p => str_eqb (digest p) (digest o) | None => false end) eqn:E.
  - destruct prev as [p|]; [|done]. apply str_eqb_eq in E.
    rewrite (Hc p o); [|cbn; left|cbn; right; left|done]. rewrite bool_decide_true by done. cbn [negb].
    apply IH. intros a b Ha Hb. cbn in *. apply Hc; set_solver.
  - destruct (IH (Some o)) as [u ->]; [|by exists (o :: u)]. intros a b Ha Hb. apply Hc; cbn in *; set_solver.
Qed.

Lemma strict_digest_unique u :
  StronglySorted digest_lt u -> forall a b, a ∈ u -> b ∈ u -> digest a = digest b -> a = b.
Proof.
  induction 1 as [|o u _ IH Ho]; intros a b Ha Hb Hd; [by apply elem_of_nil in Ha|].
  rewrite list.Forall_forall in Ho. unfold digest_lt in Ho.
  apply elem_of_cons in Ha as [->|Ha], Hb as [->|Hb]; [done|..|by apply IH].
  - specialize (Ho b Hb). rewrite Hd in Ho. by apply lt_irrefl in Ho.
  - specialize (Ho a Ha). rewrite Hd in Ho. by apply lt_irrefl in Ho.
Qed.

Definition inputs_consistent (snapshot : CasObject) (models : list ProviderModel) : Prop :=
  forall a b, a ∈ input_objects snapshot models -> b ∈ input_objects snapshot models ->
    digest a = digest b -> a = b.

Lemma collect_inputs_ok snapshot models u :
  collect_inputs snapshot models = Ok u ->
  (forall x, x ∈ u <-> x ∈ input_objects snapshot models) /\
  StronglySorted lt_ord (digest <$> u) /\ inputs_consistent snapshot models.
Proof.
  intros Hu. destruct (unique_objects_spec _ None u (object_sorted_digest _) Hu) as (H1 & H2 & H3).
  cbn [option_list app] in H3.
  assert (forall x, x ∈ u <-> x ∈ input_objects snapshot models) as He.
  { intros x. rewrite <- (sort_by_perm object_order (input_objects snapshot models)).
    split; [apply H1|]. intros Hx. by destruct (H2 x Hx). }
  split_and!; [done|by apply StronglySorted_fmap|].
  intros a b Ha%He Hb%He. by apply (strict_digest_unique u).
Qed.

(** The sealed inputs exist exactly when no digest is described in two ways,
    and they are then every object the models name and the snapshot, once each,
    in strict digest order. *)
Theorem collect_inputs_spec snapshot models :
  (is_ok (collect_inputs snapshot models) = true <-> inputs_consistent snapshot models) /\
  (forall u, collect_inputs snapshot models = Ok u ->
     (forall x, x ∈ u <-> x ∈ input_objects snapshot models) /\ StronglySorted lt_ord (digest <$> u)).
Proof.
  split.
  - split.
    + destruct (collect_inputs snapshot models) as [u|] eqn:E; [|done]. intros _. by apply collect_inputs_ok in E as (_ & _ & ?).
    + intros Hc. unfold collect_inputs.
      destruct (unique_objects_total (sort_by object_order (input_objects snapshot models)) None) as [u ->]; [|done].
      cbn [option_list app]. intros a b. rewrite !sort_by_perm. apply Hc.
  - intros u Hu. apply collect_inputs_ok in Hu as (H1 & H2 & _). done.
Qed.

(* --------------------------------------------------------------------- *)
(** ** Canonical order *)

Lemma canonicalize_compilation_idemp c :
  canonicalize_compilation (canonicalize_compilation c) = canonicalize_compilation c.
Proof.
  unfold canonicalize_compilation. f_equal; cbn [cd_schema source_roots generated_source_roots classpath plugins
    dependency_compilation_ids operations]; apply sort_by_idemp || apply (sort_by_idemp (fun d : string => d)).
Qed.

Lemma canonicalize_model_idemp p : canonicalize_model (canonicalize_model p) = canonicalize_model p.
Proof.
  unfold canonicalize_model. cbn [pm_handshake build_model bm_provider_id bm_model compilations]. do 2 f_equal.
  rewrite sort_by_fmap, sort_by_idemp, <- list_fmap_compose by done.
  apply list_fmap_ext. intros i c _. apply canonicalize_compilation_idemp.
Qed.

Lemma canonicalize_models_idemp models :
  canonicalize_models (canonicalize_models models) = canonicalize_models models.
Proof.
  unfold canonicalize_models. rewrite sort_by_fmap, sort_by_idemp, <- sort_by_fmap, <- list_fmap_compose by done.
  f_equal. apply list_fmap_ext. intros i p _. apply canonicalize_model_idemp.
Qed.

(** Descriptors that list the same things in another order. *)
Record compilation_equiv (c c' : CompilationDescriptor) : Prop := mkCompilationEquiv {
  equiv_schema : cd_schema c = cd_schema c';
  equiv_id : compilation_id c = compilation_id c';
  equiv_language : language_uri c = language_uri c';
  equiv_roots : Permutation (source_roots c) (source_roots c');
  equiv_generated : Permutation (generated_source_roots c) (generated_source_roots c');
  equiv_classpath : Permutation (classpath c) (classpath c');
  equiv_toolchain : toolchain c = toolchain c';
  equiv_plugins : Permutation (plugins c) (plugins c');
  equiv_options : canonical_options c = canonical_options c';
  equiv_dependencies : Permutation (dependency_compilation_ids c) (dependency_compilation_ids c');
  equiv_operations : Permutation (operations c) (operations c');
  equiv_origin : origin c = origin c';
  equiv_completeness : completeness c = completeness c'
}.
Record model_equiv (p p' : ProviderModel) : Prop := mkModelEquiv {
  equiv_handshake : pm_handshake p = pm_handshake p';
  equiv_provider : bm_provider_id (build_model p) = bm_provider_id (build_model p');
  equiv_model : bm_model (build_model p) = bm_model (build_model p');
  equiv_compilations : exists cs, Permutation (compilations (build_model p)) cs /\
    Forall2 compilation_equiv cs (compilations (build_model p'))
}.
Definition models_equiv (ms ms' : list ProviderModel) : Prop :=
  exists ks, Permutation ms ks /\ Forall2 model_equiv ks ms'.

Lemma object_sort_arrival l k :
  NoDup (digest <$> l) -> Permutation l k -> sort_by object_order l = sort_by object_order k.
Proof.
  intros Hd Hp. apply (sort_by_arrival object_key); [done|].
  apply (NoDup_fmap_1 (fun x : string * (string * N) => x.1)). rewrite <- list_fmap_compose. exact Hd.
Qed.

Lemma canonicalize_compilation_equiv c c' :
  compilation_validate c = Ok tt -> compilation_equiv c c' ->
  canonicalize_compilation c = canonicalize_compilation c'.
Proof.
  intros [? ? ? ? ? ? ? Hrn (_ & _ & Hcp) (_ & _ & Hpl) ? Hdn ? Hon]%compilation_admissible_iff [].
  rewrite fmap_app, list.NoDup_app in Hrn. destruct Hrn as (Hr1 & _ & Hr2).
  unfold canonicalize_compilation. f_equal; try done; try (by apply object_sort_arrival);
    try (apply sort_by_arrival; done).
  apply (sort_by_arrival (fun d : string => d)); [done|]. by rewrite list_fmap_id.
Qed.

Lemma canonicalize_model_equiv p p' :
  Forall (fun c => compilation_validate c = Ok tt) (compilations (build_model p)) ->
  NoDup (compilation_id <$> compilations (build_model p)) ->
  model_equiv p p' -> canonicalize_model p = canonicalize_model p'.
Proof.
  intros Hv Hd [Hh Hp Hm (cs & Hperm & Hcs)]. unfold canonicalize_model. rewrite Hh, Hp, Hm. do 2 f_equal.
  rewrite <- !sort_by_fmap by done.
  transitivity (sort_by (cmp_on compilation_id) (canonicalize_compilation <$> cs)).
  - apply sort_by_arrival; [by rewrite Hperm|]. rewrite <- list_fmap_compose. exact Hd.
  - f_equal. rewrite Hperm in Hv. clear -Hv Hcs. induction Hcs as [|c c' cs cs' Hc _ IH]; [done|].
    apply Forall_cons_iff in Hv as [Hvc Hv]. cbn. rewrite IH by done. f_equal.
    by apply canonicalize_compilation_equiv.
Qed.

Lemma admissible_model models p : models_admissible models -> p ∈ models ->
  Forall (fun c => compilation_validate c = Ok tt) (compilations (build_model p)) /\
  NoDup (compilation_id <$> compilations (build_model p)).
Proof.
  intros [_ _ _ _ Hv Hd _ _] (l & k & ->)%list_elem_of_split. unfold all_compilations in Hv, Hd.
  rewrite bind_app in Hv, Hd. cbn in Hv, Hd. rewrite !Forall_app in Hv.
  rewrite !fmap_app, !list.NoDup_app in Hd. naive_solver.
Qed.

Lemma canonicalize_models_equiv models models' :
  models_admissible models -> models_equiv models models' ->
  canonicalize_models models = canonicalize_models models'.
Proof.
  intros Ha (ks & Hperm & Hks). unfold canonicalize_models.
  transitivity (sort_by (cmp_on model_id) (canonicalize_model <$> ks)).
  - apply sort_by_arrival; [by rewrite Hperm|]. rewrite <- list_fmap_compose. exact (admissible_provider_ids _ Ha).
  - f_equal. assert (forall p, p ∈ ks -> p ∈ models) as Hin by (intros p; by rewrite Hperm).
    clear Hperm. induction Hks as [|p p' ks ks' Hp _ IH]; [done|]. cbn. rewrite IH by (intros q Hq; apply Hin; by right).
    f_equal. destruct (admissible_model models p Ha (Hin p (list_elem_of_here _ _))). by apply canonicalize_model_equiv.
Qed.

(* --------------------------------------------------------------------- *)
(** ** Create and verify *)

Section Sealing.
Context {P : Primitives} {S : Type} {O : CasOps S}.

(** The manifest of an admissible set of models does not depend on the order
    in which providers report models, compilations, source roots, classpath,
    plugins, dependencies or operations: creating it from any reordering does the
    same to the store and returns the same manifest and object, or the same
    error. *)
Theorem create_order_independent s snapshot models models' :
  validate_models models = Ok tt -> models_equiv models models' ->
  create s snapshot models = create s snapshot models'.
Proof.
  intros Ha%models_admissible_iff He. unfold create, create_inputs.
  by rewrite (canonicalize_models_equiv models models').
Qed.

Context {L : CasLaws S}.

(** What [create] has checked when it succeeds. *)
Lemma create_ok s snapshot models s' m o :
  create s snapshot models = (s', Ok (m, o)) ->
  verify_manifest m = Ok tt /\ for_bytes DERIVED_MANIFEST_SCHEMA (value_bytes (manifest_value m)) = Ok o /\
  Forall (fun i => exists b, for_bytes (object_schema i) b = Ok i) (sealed_inputs m) /\
  provider_models m = canonicalize_models models.
Proof.
  unfold create. destruct (create_inputs snapshot models) as [sealed|] eqn:Hi; [|done].
  destruct (verify_objects s sealed) as [s1 [[]|]] eqn:Hv; [|done].
  destruct (cas_put _ _ _) as [s2 [o'|]] eqn:Hput; [|done]. intros [= <- <- <-].
  unfold create_inputs in Hi. rewrite !seq_ok in Hi. destruct Hi as (Hs & Hm & Hin).
  split_and!.
  - unfold verify_manifest. cbn [with_manifest_id dm_schema repository_snapshot manifest_id provider_models sealed_inputs].
    assert (str_neqb (object_schema snapshot) SNAPSHOT_SCHEMA = false) as ->.
    { by destruct (str_neqb (object_schema snapshot) SNAPSHOT_SCHEMA). }
    rewrite !str_neqb_refl, canonicalize_models_idemp, bool_decide_true, Hm, Hin by done. cbn [orb negb result_bind].
    by rewrite bool_decide_true.
  - by apply cas_put_sound in Hput.
  - cbn [with_manifest_id sealed_inputs]. eapply store_for_each_ok; [|exact Hv].
    intros t i t' Hr. unfold verify_object in Hr. destruct (usize_max <? size i); [done|].
    destruct (cas_read t i (size i)) as [t1 [b|]] eqn:Er; [|done]. exists b. by eapply cas_read_sound.
  - done.
Qed.

(** A manifest that was created passes verification: its identity, canonical
    order, admission and sealed inputs check against any store, so verification
    succeeds exactly when every sealed input can be read there; its object is the
    reference derived from its canonical bytes, and at creation every sealed input
    was present with the bytes its reference names. *)
Theorem created_manifest_verifies s snapshot models s' m o :
  create s snapshot models = (s', Ok (m, o)) ->
  (forall t, verify t m = verify_objects t (sealed_inputs m)) /\
  for_bytes DERIVED_MANIFEST_SCHEMA (value_bytes (manifest_value m)) = Ok o /\
  Forall (fun i => exists b, for_bytes (object_schema i) b = Ok i) (sealed_inputs m) /\
  provider_models m = canonicalize_models models.
Proof.
  intros H. destruct (create_ok _ _ _ _ _ _ H) as (Hv & Hrest). split; [|done].
  intros t. unfold verify. by rewrite Hv.
Qed.
End Sealing.

(* --------------------------------------------------------------------- *)
(** ** Two providers over a small store *)

Module ManifestExample.
Import CasStore.
#[export] Instance ops : CasOps CasStore := cas_ops (P := toy) no_sync.
#[export] Instance laws : @CasLaws CasStore toy ops := cas_laws (P := toy) no_sync.

Definition content (k : string) : list byte := as_bytes k.
Definition reference (sch k : string) : CasObject :=
  match for_bytes (P := toy) sch (content k) with Ok o => o | Err _ => mkCasObject "" "" "" 0 end.
Definition filled (l : list (string * string)) : CasStore :=
  foldl (fun st e => (put (P := toy) st e.1 (content e.2)).1) empty_store l.

Definition snapshot : CasObject := reference SNAPSHOT_SCHEMA "snapshot".
Definition store : CasStore :=
  filled [(SNAPSHOT_SCHEMA, "snapshot"); ("model/1", "m1"); ("model/1", "m2"); ("tree/1", "t");
          ("toolchain/1", "k"); ("options/1", "o")].
Definition compilation_of (id : string) (ds : list string) : CompilationDescriptor :=
  {| cd_schema := COMPILATION_SCHEMA; compilation_id := id; language_uri := "language:zeta";
     source_roots := [mkSourceRoot "main" (reference "tree/1" "t")]; generated_source_roots := [];
     classpath := []; toolchain := reference "toolchain/1" "k"; plugins := [];
     canonical_options := reference "options/1" "o"; dependency_compilation_ids := ds;
     operations := []; origin := ProjectNative; completeness := Complete |}.
Definition model_of (id mk : string) (cs : list CompilationDescriptor) : ProviderModel :=
  {| pm_handshake := mkProviderHandshake PROVIDER_PROTOCOL id (digest snapshot) ["build:fake"];
     build_model := {| bm_provider_id := id; bm_model := reference "model/1" mk; compilations := cs |} |}.
Definition models : list ProviderModel :=
  [model_of "p2" "m2" [compilation_of "b" ["a"]; compilation_of "c" ["b"; "a"]];
   model_of "p1" "m1" [compilation_of "a" []]].
Definition reordered : list ProviderModel :=
  [model_of "p1" "m1" [compilation_of "a" []];
   model_of "p2" "m2" [compilation_of "c" ["a"; "b"]; compilation_of "b" ["a"]]].
Definition cyclic : list ProviderModel :=
  [model_of "p1" "m1" [compilation_of "a" ["b"]; compilation_of "b" ["a"]]].

Example cyclic_refused : err_code (validate_models cyclic) = Some InvalidInput.
Proof. vm_compute. reflexivity. Qed.

Lemma compilation_equiv_refl c : compilation_equiv c c.
Proof. by split. Qed.

Lemma reordered_equiv : models_equiv models reordered.
Proof.
  eexists. split; [apply Permutation_swap|]. constructor; [|constructor; [|constructor]].
  - split; try done. eexists. split; [done|]. constructor; [apply compilation_equiv_refl|constructor].
  - split; try done. eexists. split; [apply Permutation_swap|].
    constructor; [|constructor; [apply compilation_equiv_refl|constructor]].
    split; try done. apply Permutation_swap.
Qed.
End ManifestExample.
Import ManifestExample.

Lemma create_order_independent_witness :
  create (P := toy) ManifestExample.store ManifestExample.snapshot ManifestExample.models =
  create (P := toy) ManifestExample.store ManifestExample.snapshot ManifestExample.reordered.
Proof.
  apply (create_order_independent (P := toy)); [vm_compute; reflexivity|exact ManifestExample.reordered_equiv].
Defined.

Lemma created_manifest_verifies_witness :
  exists s' m o, create (P := toy) ManifestExample.store ManifestExample.snapshot ManifestExample.models
      = (s', Ok (m, o)) /\
    Forall (fun i => exists b, for_bytes (P := toy) (object_schema i) b = Ok i) (sealed_inputs m).
Proof.
  destruct (create (P := toy) ManifestExample.store ManifestExample.snapshot ManifestExample.models)
    as [s' [[m o]|e]] eqn:E.
  - exists s', m, o. split; [reflexivity|].
    exact (proj1 (proj2 (proj2 (created_manifest_verifies (P := toy) (L := ManifestExample.laws) _ _ _ _ _ _ E)))).
  - exfalso. assert (is_ok (create (P := toy) ManifestExample.store ManifestExample.snapshot
      ManifestExample.models).2 = true) as Hok by (vm_compute; reflexivity).
    rewrite E in Hok. discriminate Hok.
Defined.

Lemma collect_inputs_spec_witness :
  exists u, collect_inputs snapshot models = Ok u /\ StronglySorted lt_ord (digest <$> u).
Proof.
  destruct (collect_inputs snapshot models) as [u|e] eqn:E.
  - exists u. split; [reflexivity|]. exact (proj2 (proj2 (collect_inputs_spec snapshot models) u E)).
  - exfalso. assert (is_ok (collect_inputs snapshot models) = true) as Hok by (vm_compute; reflexivity).
    rewrite E in Hok. discriminate Hok.
Defined.
