(* ===== verification/GenerationV2.v ===== *)
(** * Generations (generation_v2.rs)

    [finalize_generation] merges sorted fact runs through a heap, cuts the merged
    stream into canonical shards below a size limit, publishes the shards and then
    the manifest that names them; [verify] and [visit_facts] read a generation
    back.  The store is used through CasInterface.  The heap is the list of its
    elements in the order in which [pop] returns them: its elements have distinct
    (key, run) pairs, so that order is unique. *)

From S2P Require Import Prelude Order Collections Text Json Canonical JsonFormat Errors CasObject CasInterface AdapterV2 FactRun.
From S2P Require DerivedManifest.

Definition FACT_SHARD_SCHEMA : string := "codeclew-canonical-fact-shard/2.0".
Definition GENERATION_SCHEMA : string := "codeclew-generation-manifest/2.0".
Definition MAX_SHARD_BYTES : N := 8 * 1024 * 1024.

Record AttemptAuthority : Type := mkAttempt {
  at_compilation_id : string;
  at_capability : CapabilityUri;
  completion : AnalysisAttemptComplete
}.
Inductive GenerationKind : Type := Full | Delta.
Record GenerationManifest : Type := mkGeneration {
  gm_schema : string;
  generation_id : string;
  gm_derived : CasObject;
  gm_parent : option CasObject;
  generation_kind : GenerationKind;
  attempts : list AttemptAuthority;
  shards : list CasObject;
  gm_fact_count : N
}.
Record CanonicalFactShard : Type := mkShard {
  sh_schema : string;
  sh_sequence : N;
  first_key : string;
  last_key : string;
  sh_facts : list FactRecord
}.

#[export] Instance GenerationKind_eq_dec : EqDecision GenerationKind.
Proof. solve_decision. Defined.

(* --------------------------------------------------------------------- *)
(** ** Documents *)

Definition completion_value (c : AnalysisAttemptComplete) : Value :=
  JObject [("scopeDigest", JString (scope_digest c)); ("completenessReceipt", cas_object_value (completeness_receipt c));
           ("factCount", JNumber (PosInt (fact_count c)))].
Definition attempt_value (a : AttemptAuthority) : Value :=
  JObject [("compilationId", JString (at_compilation_id a)); ("capability", JString (at_capability a));
           ("completion", completion_value (completion a))].
Definition kind_value (k : GenerationKind) : Value :=
  JString (match k with Full => "FULL" | Delta => "DELTA" end).
Definition manifest_value (m : GenerationManifest) : Value :=
  JObject [("schema", JString (gm_schema m)); ("generationId", JString (generation_id m));
           ("derivedInputManifest", cas_object_value (gm_derived m));
           ("parentGeneration", match gm_parent m with Some p => cas_object_value p | None => JNull end);
           ("generationKind", kind_value (generation_kind m));
           ("attempts", JArray (attempt_value <$> attempts m)); ("shards", JArray (cas_object_value <$> shards m));
           ("factCount", JNumber (PosInt (gm_fact_count m)))].
Definition with_generation_id (m : GenerationManifest) (id : string) : GenerationManifest :=
  {| gm_schema := gm_schema m; generation_id := id; gm_derived := gm_derived m; gm_parent := gm_parent m;
     generation_kind := generation_kind m; attempts := attempts m; shards := shards m;
     gm_fact_count := gm_fact_count m |}.
Definition shard_value (s : CanonicalFactShard) : Value :=
  JObject [("schema", JString (sh_schema s)); ("sequence", JNumber (PosInt (sh_sequence s)));
           ("firstKey", JString (first_key s)); ("lastKey", JString (last_key s));
           ("facts", JArray (fact_value <$> sh_facts s))].

Definition decode_shard (v : Value) : option CanonicalFactShard :=
  match decode_struct ["schema"; "sequence"; "firstKey"; "lastKey"; "facts"] v with
  | Some [s; n; f; l; x] =>
      match decode_string s, decode_u32 n, decode_string f, decode_string l, decode_vec decode_fact x with
      | Some s, Some n, Some f, Some l, Some x =>
          Some {| sh_schema := s; sh_sequence := n; first_key := f; last_key := l; sh_facts := x |}
      | _, _, _, _, _ => None
      end
  | _ => None
  end.

Section Generation.
Context {P : Primitives} {R : JsonReader} {S : Type} {C : CasOps S}.

(* --------------------------------------------------------------------- *)
(** ** Shards *)

Definition shard_bytes (s : CanonicalFactShard) : list byte := value_bytes (shard_value s).

Definition encoded_shard_len (sequence : N) (first_key last_key : string) (records_bytes count : N) : N :=
  let first := vlen (to_vec (JString first_key)) in
  let last := vlen (to_vec (JString last_key)) in
  vlen (as_bytes "{" ++ quote_bytes ++ as_bytes "facts" ++ quote_bytes ++ as_bytes ":[")
  + records_bytes + (count - 1)
  + vlen (as_bytes "]," ++ quote_bytes ++ as_bytes "firstKey" ++ quote_bytes ++ as_bytes ":") + first
  + vlen (as_bytes "," ++ quote_bytes ++ as_bytes "lastKey" ++ quote_bytes ++ as_bytes ":") + last
  + vlen (as_bytes "," ++ quote_bytes ++ as_bytes "schema" ++ quote_bytes ++ as_bytes ":" ++ quote_bytes
          ++ as_bytes FACT_SHARD_SCHEMA ++ quote_bytes ++ as_bytes "," ++ quote_bytes ++ as_bytes "sequence"
          ++ quote_bytes ++ as_bytes ":")
  + str_len (decimal sequence) + 1.

(** The shard of a non-empty list of records. *)
Definition shard_of (sequence : N) (first : FactRecord) (rest : list FactRecord) : CanonicalFactShard :=
  {| sh_schema := FACT_SHARD_SCHEMA; sh_sequence := sequence; first_key := fact_key first;
     last_key := fact_key (List.last rest first); sh_facts := first :: rest |}.

(** [expect("non-empty shard")] would panic; callers never pass an empty shard. *)
Definition publish_shard (s : S) (sequence : N) (facts : list EncodedFact) (limit : N) : S * Res CasObject :=
  match facts with
  | [] => (s, Err (ClewError_new Internal "non-empty shard"))
  | first :: rest =>
      let bytes := shard_bytes (shard_of sequence (record first) (record <$> rest)) in
      if limit <? vlen bytes
      then (s, Err (ClewError_new Internal "canonical shard size calculation disagrees with encoding"))
      else cas_put s FACT_SHARD_SCHEMA bytes
  end.

Record ShardState : Type := mkShardState {
  sequence : N;
  current : list EncodedFact;
  current_records_bytes : N;
  published : list CasObject;
  merged_count : N;
  merged_last_key : option string
}.
Definition initial_state : ShardState :=
  {| sequence := 0; current := []; current_records_bytes := 0; published := []; merged_count := 0;
     merged_last_key := None |}.

(** The body of the merge loop, up to [fact_count += 1]. *)
Definition absorb (limit : N) (s : S) (st : ShardState) (fact : EncodedFact) : S * Res ShardState :=
  let key := fact_key (record fact) in
  if not_after (merged_last_key st) key
  then (s, protocol "merged fact keys are duplicated or out of order")
  else
    do! s, st :=
      (match current st with
       | first :: _ =>
           if limit <? encoded_shard_len (sequence st) (fact_key (record first)) key
                         (current_records_bytes st + vlen (bytes fact)) (vlen (current st) + 1)
           then
             do! s, shard := publish_shard s (sequence st) (current st) limit in
             match u32_checked_add (sequence st) 1 with
             | None => (s, Err (ClewError_new ResourceLimit "shard sequence overflow"))
             | Some sequence' =>
                 (s, Ok {| sequence := sequence'; current := []; current_records_bytes := 0;
                           published := published st ++ [shard]; merged_count := merged_count st;
                           merged_last_key := merged_last_key st |})
             end
           else (s, Ok st)
       | [] => (s, Ok st)
       end) in
    if (match current st with [] => true | _ => false end)
       && (limit <? encoded_shard_len (sequence st) key key (vlen (bytes fact)) 1)
    then (s, Err (ClewError_new ResourceLimit "one fact cannot fit in a canonical shard"))
    else
      (s, Ok {| sequence := sequence st; current := current st ++ [fact];
                current_records_bytes := current_records_bytes st + vlen (bytes fact);
                published := published st; merged_count := u64_wrapping_add (merged_count st) 1;
                merged_last_key := Some key |}).

(* --------------------------------------------------------------------- *)
(** ** The merge *)

Record HeapFact : Type := mkHeapFact { hf_run : nat; hf_fact : EncodedFact }.
Definition heap_key (h : HeapFact) : string * nat := (fact_key (record (hf_fact h)), hf_run h).
Definition heap_push (h : HeapFact) (heap : list HeapFact) : list HeapFact := insert_by (cmp_on heap_key) h heap.

(** The first record of every run. *)
Fixpoint prime (index : nat) (todo : list RunReader) (readers : list RunReader) (heap : list HeapFact)
  : Res (list RunReader * list HeapFact) :=
  match todo with
  | [] => Ok (readers, heap)
  | r :: todo' =>
      let? '(o, r') := next r in
      prime (Datatypes.S index) todo' (readers ++ [r'])
        (match o with Some fact => heap_push {| hf_run := index; hf_fact := fact |} heap | None => heap end)
  end.

(** [while let Some(item) = heap.pop()].  Every round returns a record that took
    at least one byte of a run, so the bytes of the runs bound the rounds. *)
Fixpoint merge (fuel : nat) (limit : N) (s : S) (st : ShardState) (heap : list HeapFact) (readers : list RunReader)
  : S * Res ShardState :=
  match heap with
  | [] => (s, Ok st)
  | item :: heap' =>
      match fuel with
      | O => (s, Err (ClewError_new Internal "merge fuel"))
      | Datatypes.S fuel' =>
          do! s, st := absorb limit s st (hf_fact item) in
          match readers !! hf_run item with
          | None => (s, Err (ClewError_new Internal "index out of bounds"))
          | Some reader =>
              match next reader with
              | Err e => (s, Err e)
              | Ok (o, reader') =>
                  merge fuel' limit s st
                    (match o with
                     | Some fact => heap_push {| hf_run := hf_run item; hf_fact := fact |} heap'
                     | None => heap'
                     end)
                    (<[hf_run item := reader']> readers)
              end
          end
      end
  end.

Definition run_bytes_total (runs : list FactRun) : nat := foldr (fun r n => length (run_file r) + n)%nat O runs.

Definition merge_runs (s : S) (runs : list FactRun) (limit : N) : S * Res ShardState :=
  do! s, opened := pure_on s (prime 0 (reader_open <$> runs) [] []) in
  merge (run_bytes_total runs) limit s initial_state opened.2 opened.1.

(* --------------------------------------------------------------------- *)
(** ** Publication *)

(** The last shard is published after the loop. *)
Definition publish_rest (s : S) (st : ShardState) (limit : N) : S * Res (list CasObject) :=
  match current st with
  | [] => (s, Ok (published st))
  | _ => do! s, shard := publish_shard s (sequence st) (current st) limit in
         (s, Ok (published st ++ [shard]))
  end.

Definition canonical_digest (value : string) : bool := digest_by_slice value.

Definition attempt_key (a : AttemptAuthority) : string * string := (at_compilation_id a, at_capability a).
Definition scope_key (a : AttemptAuthority) : string * (string * string) :=
  (at_compilation_id a, (at_capability a, scope_digest (completion a))).

(** [usize::try_from] of a size does not fail on the 64-bit targets of the code. *)
Definition check_attempt (s : S) (scopes : BTreeSet (string * (string * string))) (attempt : AttemptAuthority)
  : S * Res (BTreeSet (string * (string * string))) :=
  if str_is_empty (at_compilation_id attempt) || (128 <? str_len (at_compilation_id attempt))
     || negb (canonical_digest (scope_digest (completion attempt))) || bset_contains (scope_key attempt) scopes
  then (s, invalid "generation attempt identity is invalid")
  else
    let receipt := completeness_receipt (completion attempt) in
    do! s, bytes := cas_read s receipt (size receipt) in
    (s, Ok (bset_insert (scope_key attempt) scopes)).

Definition verify_attempts (s : S) (l : list AttemptAuthority) : S * Res unit :=
  do! s, scopes := store_fold check_attempt s [] l in
  (s, Ok tt).

Definition checked_total (counts : list N) (message : string) : Res N :=
  try_fold (fun total count =>
    ok_or (u64_checked_add total count) (ClewError_new ResourceLimit message)) 0 counts.

Definition finalize_with_limit (s : S) (derived_input_manifest : CasObject) (attempts : list AttemptAuthority)
    (runs : list FactRun) (parent_generation : option CasObject) (shard_limit : N)
  : S * Res (GenerationManifest * CasObject) :=
  if str_neqb (object_schema derived_input_manifest) DerivedManifest.DERIVED_MANIFEST_SCHEMA
  then (s, invalid "generation requires a derived input manifest v2")
  else
  do! s, parent :=
    (match parent_generation with
     | Some parent =>
         if str_neqb (object_schema parent) GENERATION_SCHEMA
         then (s, invalid "generation parent has the wrong schema")
         else cas_read s parent (size parent)
     | None => (s, Ok [])
     end) in
  if (match runs with [] => true | _ => false end) || (shard_limit =? 0) || (MAX_SHARD_BYTES <? shard_limit)
  then (s, invalid "generation run set or shard limit is invalid")
  else
  let attempts := sort_by (cmp_on attempt_key) attempts in
  if (match attempts with [] => true | _ => false end)
     || negb (windows_all (fun a b => ltb (attempt_key a) (attempt_key b)) attempts)
  then (s, invalid "generation attempt authority is empty or duplicated")
  else
  do! s, verified := verify_attempts s attempts in
  do! s, expected_count := pure_on s (checked_total (run_count <$> runs) "fact count overflow") in
  do! s, completed_count := pure_on s
    (checked_total ((fun a => fact_count (completion a)) <$> attempts) "completion fact count overflow") in
  if negb (completed_count =? expected_count)
  then (s, protocol "attempt completion count differs from sealed fact runs")
  else
  do! s, st := merge_runs s runs shard_limit in
  do! s, shards := publish_rest s st shard_limit in
  if negb (merged_count st =? expected_count) || (merged_count st =? 0)
  then (s, protocol "merged generation fact count is incomplete")
  else
  let unsigned := {| gm_schema := GENERATION_SCHEMA; generation_id := EmptyString; gm_derived := derived_input_manifest;
                     gm_parent := parent_generation;
                     generation_kind := match parent_generation with Some _ => Delta | None => Full end;
                     attempts := attempts; shards := shards; gm_fact_count := merged_count st |} in
  let manifest := with_generation_id unsigned (hash (manifest_value unsigned)) in
  do! s, object := cas_put s GENERATION_SCHEMA (value_bytes (manifest_value manifest)) in
  (s, Ok (manifest, object)).

Definition finalize_generation_with_parent (s : S) derived attempts runs parent :=
  finalize_with_limit s derived attempts runs parent MAX_SHARD_BYTES.
Definition finalize_generation (s : S) derived attempts runs :=
  finalize_generation_with_parent s derived attempts runs None.

(* --------------------------------------------------------------------- *)
(** ** Reading a generation *)

(** [store.read(o, size).map_err(|_| corrupt(message))]. *)
Definition read_as (s : S) (o : CasObject) (message : string) : S * Res (list byte) :=
  let '(s, r) := cas_read s o (size o) in
  (s, map_err (fun _ => ClewError_new StateCorrupt message) r).

(** The parent of a delta generation must be readable. *)
Definition verify_parent (s : S) (m : GenerationManifest) : S * Res (list byte) :=
  match gm_parent m with
  | Some parent =>
      if negb (bool_decide (generation_kind m = Delta)) || str_neqb (object_schema parent) GENERATION_SCHEMA
      then (s, corrupt "generation parent authority is invalid")
      else read_as s parent "parent generation is unavailable"
  | None =>
      if negb (bool_decide (generation_kind m = Full))
      then (s, corrupt "delta generation has no parent")
      else (s, Ok [])
  end.

Definition verify_manifest (s : S) (m : GenerationManifest) : S * Res unit :=
  if str_neqb (gm_schema m) GENERATION_SCHEMA
     || str_neqb (object_schema (gm_derived m)) DerivedManifest.DERIVED_MANIFEST_SCHEMA
     || str_neqb (generation_id m) (hash (manifest_value (with_generation_id m EmptyString)))
  then (s, corrupt "generation manifest identity is invalid")
  else
  do! s, parent := verify_parent s m in
  do! s, verified := verify_attempts s (attempts m) in
  do! s, derived := read_as s (gm_derived m) "generation derived manifest is unavailable" in
  if (match shards m with [] => true | _ => false end) || (gm_fact_count m =? 0)
     || existsb (fun reference => str_neqb (object_schema reference) FACT_SHARD_SCHEMA
                                  || (MAX_SHARD_BYTES <? size reference)) (shards m)
  then (s, corrupt "generation shard references are invalid")
  else (s, Ok tt).

Record VerifyState : Type := mkVerifyState {
  expected_sequence : N;
  observed_count : N;
  verified_last_key : option string
}.

Definition check_fact (st : VerifyState) (fact : FactRecord) : Res VerifyState :=
  fact_validate fact ;;?
  if not_after (verified_last_key st) (fact_key fact)
  then corrupt "generation fact order is invalid"
  else Ok {| expected_sequence := expected_sequence st;
             observed_count := u64_wrapping_add (observed_count st) 1;
             verified_last_key := Some (fact_key fact) |}.

Definition read_shard (bytes : list byte) : Res CanonicalFactShard :=
  ok_or (match read_document bytes with Some v => decode_shard v | None => None end)
    (ClewError_new StateCorrupt "generation shard is not a closed canonical object").

Definition check_shard (st : VerifyState) (bytes : list byte) : Res VerifyState :=
  let? shard := read_shard bytes in
  if negb (bool_decide (shard_bytes shard = bytes)) || str_neqb (sh_schema shard) FACT_SHARD_SCHEMA
     || negb (sh_sequence shard =? expected_sequence st)
     || (match sh_facts shard with
         | [] => true
         | first :: rest => str_neqb (first_key shard) (fact_key first)
                            || str_neqb (last_key shard) (fact_key (List.last rest first))
         end)
  then corrupt "generation shard authority is invalid"
  else
    let? st := try_fold check_fact st (sh_facts shard) in
    let? next := ok_or (u32_checked_add (expected_sequence st) 1)
                   (ClewError_new StateCorrupt "generation shard sequence overflow") in
    Ok {| expected_sequence := next; observed_count := observed_count st; verified_last_key := verified_last_key st |}.

Definition verify_shard (s : S) (st : VerifyState) (reference : CasObject) : S * Res VerifyState :=
  do! s, bytes := cas_read s reference MAX_SHARD_BYTES in
  pure_on s (check_shard st bytes).

Definition verify (s : S) (m : GenerationManifest) : S * Res unit :=
  do! s, verified := verify_manifest s m in
  do! s, st := store_fold verify_shard
    s {| expected_sequence := 0; observed_count := 0; verified_last_key := None |} (shards m) in
  if negb (observed_count st =? gm_fact_count m)
  then (s, corrupt "generation fact count is incomplete")
  else (s, Ok tt).

(** [visit_facts]: the visitor shares the store and has a state of its own. *)
Section Visit.
Context {V : Type} (visitor : S -> V -> FactRecord -> (S * V) * Res unit).

Fixpoint visit_all (s : S) (v : V) (l : list FactRecord) : (S * V) * Res unit :=
  match l with
  | [] => ((s, v), Ok tt)
  | f :: l' => let '((s', v'), r) := visitor s v f in
               match r with Ok _ => visit_all s' v' l' | Err e => ((s', v'), Err e) end
  end.

Fixpoint visit_shards (s : S) (v : V) (l : list CasObject) : (S * V) * Res unit :=
  match l with
  | [] => ((s, v), Ok tt)
  | reference :: l' =>
      match cas_read s reference MAX_SHARD_BYTES with
      | (s, Err e) => ((s, v), Err e)
      | (s, Ok bytes) =>
          match read_shard bytes with
          | Err e => ((s, v), Err e)
          | Ok shard =>
              match visit_all s v (sh_facts shard) with
              | ((s, v), Err e) => ((s, v), Err e)
              | ((s, v), Ok _) => visit_shards s v l'
              end
          end
      end
  end.

Definition visit_facts (s : S) (v : V) (m : GenerationManifest) : (S * V) * Res unit :=
  match verify s m with
  | (s, Err e) => ((s, v), Err e)
  | (s, Ok _) => visit_shards s v (shards m)
  end.
End Visit.
End Generation.
