(* ===== verification/FactMerge.v ===== *)
(** * The k-way merge of fact runs

    [merge] pops the smallest head, feeds it to the sharder and refills the heap
    from the run it came from.  [pops] is the sequence of popped facts; the lemmas
    show that a merge is the sharder's loop over that sequence, that the sequence
    holds every record of every run exactly once, and that it is sorted when the
    runs are. *)

From S2P Require Import Prelude Order Collections Text Json Canonical JsonFormat Errors CasObject CasInterface AdapterV2 FactRun GenerationV2.

Section Merge.
Context {P : Primitives} {R : JsonReader} {S : Type} {C : CasOps S}.

(** The heap after its run has been asked for another record. *)
Definition refill (run : nat) (o : option EncodedFact) (heap : list HeapFact) : list HeapFact :=
  match o with Some fact => heap_push {| hf_run := run; hf_fact := fact |} heap | None => heap end.

Inductive pops : list HeapFact -> list RunReader -> list EncodedFact -> Prop :=
| pops_nil readers : pops [] readers []
| pops_cons item heap readers reader o reader' l :
    readers !! hf_run item = Some reader -> next reader = Ok (o, reader') ->
    pops (refill (hf_run item) o heap) (<[hf_run item := reader']> readers) l ->
    pops (item :: heap) readers (hf_fact item :: l).

Lemma pops_det heap readers l : pops heap readers l -> forall l', pops heap readers l' -> l = l'.
Proof.
  induction 1 as [|item heap readers reader o reader' l Hl Hn Hp IH]; intros l' H';
    inversion H' as [|? ? ? ? ? ? ? Hl' Hn' Hp']; subst; [done|].
  rewrite Hl in Hl'. injection Hl' as <-. rewrite Hn in Hn'. injection Hn' as <- <-. f_equal. by apply IH.
Qed.

Lemma merge_pops limit heap readers l : pops heap readers l -> forall fuel s st,
  (length l <= fuel)%nat -> merge fuel limit s st heap readers = store_fold (absorb limit) s st l.
Proof.
  induction 1 as [|item heap readers reader o reader' l Hl Hn Hp IH]; intros fuel s st Hf; [by destruct fuel|].
  destruct fuel as [|fuel]; [cbn in Hf; lia|]. cbn [merge store_fold].
  destruct (absorb limit s st (hf_fact item)) as [s1 [st1|]]; cbn [store_bind]; [|done].
  rewrite Hl, Hn. apply IH. cbn in Hf. lia.
Qed.

Lemma merge_ok_pops limit fuel : forall s st heap readers s' st',
  merge fuel limit s st heap readers = (s', Ok st') ->
  exists l, pops heap readers l /\ store_fold (absorb limit) s st l = (s', Ok st').
Proof.
  induction fuel as [|fuel IH]; intros s st [|item heap] readers s' st' H;
    try (cbn in H; injection H as <- <-; exists []; split; [constructor|done]); [done|].
  cbn [merge] in H. rewrite store_bind_ok in H. destruct H as (s1 & st1 & Ha & H).
  destruct (readers !! hf_run item) as [reader|] eqn:Hl; [|done].
  destruct (next reader) as [[o reader']|] eqn:Hn; [|done].
  apply IH in H as (l & Hp & Hs). exists (hf_fact item :: l). split; [by econstructor|].
  cbn [store_fold]. by rewrite Ha.
Qed.

(* --------------------------------------------------------------------- *)
(** ** Contents *)

Definition in_heap (i : nat) (heap : list HeapFact) : Prop := exists h, h ∈ heap /\ hf_run h = i.

Lemma heap_push_elem h heap x : x ∈ heap_push h heap <-> x = h \/ x ∈ heap.
Proof. unfold heap_push. rewrite insert_by_perm. apply elem_of_cons. Qed.

Lemma in_refill i run o heap :
  in_heap i (refill run o heap) <-> in_heap i heap \/ (i = run /\ o <> None).
Proof.
  unfold in_heap. destruct o as [e|]; cbn [refill]; [|naive_solver]. setoid_rewrite heap_push_elem.
  split.
  - intros (h & [->|Hh] & Hi); [right; naive_solver|eauto].
  - intros [(h & Hh & Hi)|[-> _]]; eauto.
Qed.

Lemma refill_perm run o heap :
  Permutation (hf_fact <$> refill run o heap) (option_list o ++ (hf_fact <$> heap)).
Proof. destruct o; cbn; [|done]. unfold heap_push. by rewrite insert_by_perm. Qed.

(** Every run with unread records has its next record in the heap. *)
Record content_inv (heap : list HeapFact) (readers : list RunReader) (rests : list (list EncodedFact)) : Prop := {
  inv_drains : Forall2 drains readers rests;
  inv_bounds : forall i, in_heap i heap -> (i < length readers)%nat;
  inv_covered : forall i e es, rests !! i = Some (e :: es) -> in_heap i heap
}.

Lemma elem_of_concat {A} (x : A) ls : x ∈ concat ls <-> exists l, l ∈ ls /\ x ∈ l.
Proof. rewrite list_elem_of_In, List.in_concat. by setoid_rewrite list_elem_of_In. Qed.

Lemma concat_insert {A} (rests : list (list A)) i old new x :
  rests !! i = Some old -> Permutation old (x ++ new) ->
  Permutation (concat rests) (x ++ concat (<[i := new]> rests)).
Proof.
  revert i; induction rests as [|r rests IH]; intros [|i] Hl Hp; try done; cbn in *.
  - injection Hl as ->. by rewrite Hp, app_assoc.
  - rewrite (IH i) by done. by rewrite !app_assoc, (Permutation_app_comm r x).
Qed.

(** One step of a run. *)
Lemma drains_step reader es : drains reader es ->
  exists o reader' es', next reader = Ok (o, reader') /\ drains reader' es' /\ es = option_list o ++ es' /\
    (o = None -> es' = []).
Proof.
  inversion 1 as [? r' Hn|? e r' es' Hn Hd]; subst.
  - exists None, r', []. pose proof Hn as (_ & _ & ->)%next_none. done.
  - exists (Some e), r', es'. done.
Qed.

Lemma content_step item heap readers rests :
  content_inv (item :: heap) readers rests ->
  exists reader o reader' rest rest',
    readers !! hf_run item = Some reader /\ next reader = Ok (o, reader') /\
    rests !! hf_run item = Some rest /\ rest = option_list o ++ rest' /\ (o = None -> rest' = []) /\
    content_inv (refill (hf_run item) o heap) (<[hf_run item := reader']> readers) (<[hf_run item := rest']> rests).
Proof.
  intros [Hd Hb Hc]. set (i := hf_run item) in *.
  assert (i < length readers)%nat as Hi by (apply Hb; exists item; split; [left|done]).
  apply lookup_lt_is_Some_2 in Hi as (reader & Hr).
  destruct (Forall2_lookup_l _ _ _ _ _ Hd Hr) as (rest & Hrest & Hdr).
  destruct (drains_step _ _ Hdr) as (o & reader' & rest' & Hn & Hd' & -> & Hnone).
  exists reader, o, reader', (option_list o ++ rest'), rest'. split_and!; try done. split.
  - by apply Forall2_insert.
  - intros j. rewrite in_refill, length_insert. intros [(h & Hh & Hj)|[-> _]].
    + apply Hb. exists h. split; [by right|done].
    + by eapply lookup_lt_Some.
  - intros j e es. destruct (decide (j = i)) as [->|Hne].
    + rewrite list_lookup_insert_eq by (by eapply lookup_lt_Some). intros [= ->]. apply in_refill. right.
      split; [done|]. intros Ho. specialize (Hnone Ho). done.
    + rewrite list_lookup_insert_ne by done. intros Hj. apply in_refill. left.
      apply Hc in Hj as (h & Hh & Hhj). apply elem_of_cons in Hh as [->|Hh]; [by unfold i in Hne; congruence|].
      exists h. done.
Qed.

Lemma pops_content n : forall heap readers rests,
  n = (length heap + length (concat rests))%nat -> content_inv heap readers rests ->
  exists l, pops heap readers l /\ Permutation l ((hf_fact <$> heap) ++ concat rests).
Proof.
  induction n as [|n IH]; intros [|item heap] readers rests Hlen Hinv; try discriminate Hlen.
  - exists []. split; [constructor|]. by destruct (concat rests).
  - (* every unread record needs a heap entry, so an empty heap leaves nothing *)
    exists []. split; [constructor|]. cbn. destruct (concat rests) as [|e l] eqn:Hcr; [done|]. exfalso.
    assert (e ∈ concat rests) as He by (rewrite Hcr; left).
    apply elem_of_concat in He as (es & Hes & He). apply list_elem_of_lookup in Hes as (i & Hi).
    destruct es as [|e' es']; [by apply elem_of_nil in He|].
    destruct (inv_covered _ _ _ Hinv i e' es' Hi) as (h & Hh & _). by apply elem_of_nil in Hh.
  - destruct (content_step _ _ _ _ Hinv) as (reader & o & reader' & rest & rest' & Hr & Hn & Hrest & -> & _ & Hinv').
    pose proof (concat_insert rests (hf_run item) _ rest' (option_list o) Hrest ltac:(done)) as Hp.
    edestruct (fun H => IH _ _ _ H Hinv') as (l & Hl & Hperm).
    { pose proof (Permutation_length Hp) as Hpl. pose proof (Permutation_length (refill_perm (hf_run item) o heap)) as Hrl.
      rewrite !length_app, ?length_fmap in *. cbn [length] in Hlen. lia. }
    exists (hf_fact item :: l). split; [by econstructor|]. rewrite fmap_cons. cbn [app].
    apply perm_skip. rewrite Hperm, refill_perm, Hp. rewrite !app_assoc.
    by rewrite (Permutation_app_comm (option_list o)).
Qed.

(** A merge that ends has read every run to its end. *)
Lemma pops_drained heap readers l : pops heap readers l ->
  (forall i r, readers !! i = Some r -> in_heap i heap \/ drains r []) ->
  exists rests, Forall2 drains readers rests.
Proof.
  induction 1 as [readers|item heap readers reader o reader' l Hl Hn Hp IH]; intros Hcov.
  - exists (replicate (length readers) []). apply Forall2_replicate_r; [done|].
    apply list.Forall_forall. intros r Hr. apply list_elem_of_lookup in Hr as (i & Hi).
    destruct (Hcov i r Hi) as [(h & Hh & _)|?]; [by apply elem_of_nil in Hh|done].
  - destruct IH as (rests & Hd).
    { intros i r Hi. rewrite in_refill. destruct (decide (i = hf_run item)) as [->|Hne].
      - rewrite list_lookup_insert_eq in Hi by (by eapply lookup_lt_Some). injection Hi as <-.
        destruct o as [e|]; [left; by right|]. right. pose proof Hn as (_ & _ & ->)%next_none.
        by eapply drains_end.
      - rewrite list_lookup_insert_ne in Hi by done. destruct (Hcov i r Hi) as [(h & Hh & Hi')|?]; [|by right].
        left; left. apply elem_of_cons in Hh as [->|Hh]; [congruence|]. by exists h. }
    pose proof (lookup_lt_Some _ _ _ Hl) as Hlt.
    assert (exists es, drains reader es) as (es & Hes).
    { destruct (Forall2_lookup_l _ _ _ (hf_run item) reader' Hd) as (es & _ & Hes).
      { by apply list_lookup_insert_eq. }
      destruct o as [e|]; [exists (e :: es); by eapply drains_next|exists []; by eapply drains_end]. }
    exists (<[hf_run item := es]> rests).
    rewrite <- (list_insert_id readers (hf_run item) reader) by done.
    rewrite <- (list_insert_insert_eq readers (hf_run item) reader reader').
    by apply Forall2_insert.
Qed.

(* --------------------------------------------------------------------- *)
(** ** Order *)

Definition key_of (e : EncodedFact) : string := fact_key (record e).
Definition increasing (l : list EncodedFact) : Prop := StronglySorted (fun a b => lt_ord (key_of a) (key_of b)) l.
Definition heap_sorted (heap : list HeapFact) : Prop :=
  StronglySorted (fun x y => ~ lt_ord (heap_key y) (heap_key x)) heap.

Lemma heap_push_sorted h heap : heap_sorted heap -> heap_sorted (heap_push h heap).
Proof. apply insert_by_key_spec. Qed.

(** The head of the heap has the smallest key. *)
Lemma heap_min h heap x : heap_sorted (h :: heap) -> x ∈ heap ->
  key_of (hf_fact h) = key_of (hf_fact x) \/ lt_ord (key_of (hf_fact h)) (key_of (hf_fact x)).
Proof.
  intros Hs Hx. inversion_clear Hs as [|? ? _ Hh]. rewrite list.Forall_forall in Hh. specialize (Hh x Hx).
  apply nlt_cases in Hh as [He|Hlt].
  - left. unfold heap_key in He. by injection He.
  - unfold heap_key, lt_ord in Hlt. rewrite cmp_pair in Hlt. unfold key_of.
    destruct (cmp (fact_key (record (hf_fact h))) (fact_key (record (hf_fact x)))) eqn:E; [|by right|done].
    left. by apply cmp_eq_iff.
Qed.

(** The heap is sorted and holds a smaller key for every unread record. *)
Record order_inv (heap : list HeapFact) (rests : list (list EncodedFact)) : Prop := {
  order_heap : heap_sorted heap;
  order_rests : forall i es, rests !! i = Some es -> increasing es /\
    (forall e, e ∈ es -> exists h, h ∈ heap /\ hf_run h = i /\ lt_ord (key_of (hf_fact h)) (key_of e))
}.

Lemma order_head item heap rests e :
  order_inv (item :: heap) rests -> NoDup (key_of <$> (hf_fact <$> item :: heap) ++ concat rests) ->
  e ∈ (hf_fact <$> heap) ++ concat rests -> lt_ord (key_of (hf_fact item)) (key_of e).
Proof.
  intros [Hh Hr] Hd He.
  assert (key_of (hf_fact item) <> key_of e) as Hne.
  { rewrite fmap_cons in Hd. cbn [app] in Hd. rewrite fmap_cons in Hd. inversion_clear Hd as [|? ? Hn _].
    intros Heq. apply Hn. rewrite Heq. by apply list_elem_of_fmap_2. }
  apply elem_of_app in He as [He|He].
  - apply list_elem_of_fmap in He as (x & -> & Hx). destruct (heap_min _ _ _ Hh Hx); done.
  - apply elem_of_concat in He as (es & Hes & He). apply list_elem_of_lookup in Hes as (i & Hi).
    destruct (proj2 (Hr i es Hi) e He) as (h & Hin & _ & Hlt). apply elem_of_cons in Hin as [->|Hin]; [done|].
    destruct (heap_min _ _ _ Hh Hin) as [->|?]; [done|]. by eapply lt_trans.
Qed.

Lemma order_step item heap rests o rest' :
  order_inv (item :: heap) rests -> rests !! hf_run item = Some (option_list o ++ rest') ->
  (o = None -> rest' = []) ->
  order_inv (refill (hf_run item) o heap) (<[hf_run item := rest']> rests).
Proof.
  intros [Hh Hr] Hi Hnone. split.
  - inversion_clear Hh. destruct o; cbn [refill]; [by apply heap_push_sorted|done].
  - intros j es. destruct (decide (j = hf_run item)) as [->|Hne].
    + rewrite list_lookup_insert_eq by (by eapply lookup_lt_Some). intros [= <-].
      destruct (Hr _ _ Hi) as [Hs _]. destruct o as [x|].
      * cbn [option_list app] in Hs. inversion_clear Hs as [|? ? Hs' Hx]. split; [done|]. intros e He.
        exists {| hf_run := hf_run item; hf_fact := x |}. cbn [refill]. rewrite heap_push_elem. split_and!; [by left|done|].
        rewrite list.Forall_forall in Hx. by apply Hx.
      * rewrite Hnone by done. split; [constructor|]. intros e He. by apply elem_of_nil in He.
    + rewrite list_lookup_insert_ne by done. intros Hj. destruct (Hr _ _ Hj) as [Hs He]. split; [done|].
      intros e Hee. destruct (He e Hee) as (h & Hin & Hrun & Hlt). exists h. split_and!; [|done|done].
      apply elem_of_cons in Hin as [->|Hin]; [congruence|]. destruct o; cbn [refill]; [apply heap_push_elem; by right|done].
Qed.

Lemma pops_increasing heap readers l : pops heap readers l -> forall rests,
  content_inv heap readers rests -> order_inv heap rests ->
  NoDup (key_of <$> (hf_fact <$> heap) ++ concat rests) -> increasing l.
Proof.
  induction 1 as [readers|item heap readers reader o reader' l Hl Hn Hp IH]; intros rests Hc Ho Hd; [constructor|].
  destruct (content_step _ _ _ _ Hc) as (reader1 & o1 & reader1' & rest & rest' & Hr & Hn1 & Hrest & -> & Hnone & Hc').
  rewrite Hl in Hr. injection Hr as <-. rewrite Hn in Hn1. injection Hn1 as <- <-.
  pose proof (concat_insert rests (hf_run item) _ rest' (option_list o) Hrest ltac:(done)) as Hperm.
  destruct (pops_content _ _ _ _ eq_refl Hc') as (l' & Hl' & Hpl). rewrite <- (pops_det _ _ _ Hp _ Hl') in Hpl.
  assert (Permutation l ((hf_fact <$> heap) ++ concat rests)) as Hall.
  { rewrite Hpl, refill_perm, Hperm, !app_assoc. by rewrite (Permutation_app_comm (option_list o)). }
  constructor.
  - apply (IH _ Hc'); [by apply order_step|]. rewrite <- Hpl, Hall.
    rewrite fmap_cons in Hd. cbn [app] in Hd. rewrite fmap_cons in Hd. by inversion_clear Hd.
  - rewrite Hall. apply list.Forall_forall. intros e He. by eapply order_head.
Qed.

(* --------------------------------------------------------------------- *)
(** ** The first records *)

(** The heap entries of the first records of [ls], numbered from [index]. *)
Definition head_entry (index : nat) (ls : list (list EncodedFact)) (h : HeapFact) : Prop :=
  exists j e es, ls !! j = Some (e :: es) /\ h = {| hf_run := index + j; hf_fact := e |}.

Lemma head_entry_cons index o es ls h : (o = None -> es = []) ->
  head_entry index ((option_list o ++ es) :: ls) h <->
  (exists e, o = Some e /\ h = {| hf_run := index; hf_fact := e |}) \/ head_entry (Datatypes.S index) ls h.
Proof.
  intros Hnone. unfold head_entry. split.
  - intros ([|j] & e & es' & Hj & ->).
    + cbn in Hj. destruct o as [x|]; [|by rewrite Hnone in Hj]. injection Hj as -> _. left. exists e.
      by rewrite Nat.add_0_r.
    + right. exists j, e, es'. split; [done|]. by rewrite Nat.add_succ_r.
  - intros [(e & -> & ->)|(j & e & es' & Hj & ->)].
    + exists O, e, es. by rewrite Nat.add_0_r.
    + exists (Datatypes.S j), e, es'. split; [done|]. by rewrite Nat.add_succ_r.
Qed.

Lemma prime_content todo ls : Forall2 drains todo ls -> forall index readers heap,
  exists rs heap', prime index todo readers heap = Ok (readers ++ rs, heap') /\
    Forall2 drains rs (tail <$> ls) /\ (heap_sorted heap -> heap_sorted heap') /\
    (forall h, h ∈ heap' <-> h ∈ heap \/ head_entry index ls h) /\
    Permutation ((hf_fact <$> heap') ++ concat (tail <$> ls)) ((hf_fact <$> heap) ++ concat ls).
Proof.
  induction 1 as [|r es todo ls Hd Hds IH]; intros index readers heap.
  - exists [], heap. rewrite app_nil_r. split_and!; try done. intros h. split; [by left|].
    intros [?|(j & e & es & Hj & _)]; done.
  - destruct (drains_step _ _ Hd) as (o & r' & es' & Hn & Hd' & -> & Hnone). cbn [prime].
    rewrite Hn. cbn [result_bind]. fold (refill index o heap).
    destruct (IH (Datatypes.S index) (readers ++ [r']) (refill index o heap)) as (rs & heap' & -> & Hrs & Hs & He & Hp).
    exists (r' :: rs), heap'. rewrite <- app_assoc.
    assert (tail (option_list o ++ es') = es') as Ht by (destruct o; cbn; [done|by rewrite Hnone]).
    rewrite fmap_cons, Ht. split_and!; [done|by constructor| |..].
    + intros Hh. apply Hs. destruct o; cbn [refill]; [by apply heap_push_sorted|done].
    + intros h. rewrite He, (head_entry_cons _ _ _ _ _ Hnone).
      destruct o as [x|]; cbn [refill]; [rewrite heap_push_elem; naive_solver|naive_solver].
    + cbn [concat]. rewrite (Permutation_app_swap_app _ es'), Hp, refill_perm, <- !app_assoc.
      rewrite (Permutation_app_swap_app es'), (Permutation_app_swap_app (hf_fact <$> heap)).
      apply Permutation_app_head, Permutation_app_swap_app.
Qed.

(** The merge of runs that read to their ends holds their records, in order when
    the runs are in order. *)
Lemma runs_merge readers ls : Forall2 drains readers ls ->
  exists readers' heap l, prime 0 readers [] [] = Ok (readers', heap) /\ pops heap readers' l /\
    Permutation l (concat ls) /\
    (Forall increasing ls -> NoDup (key_of <$> concat ls) -> increasing l).
Proof.
  intros Hd. destruct (prime_content _ _ Hd 0 [] []) as (rs & heap & Hprime & Hrs & Hs & He & Hp).
  assert (heap_sorted heap) as Hsorted by (apply Hs; constructor).
  assert (content_inv heap rs (tail <$> ls)) as Hc.
  { split; [done|..].
    - intros i (h & Hh & <-). apply He in Hh as [Hh|(j & e & es & Hj & ->)]; [by apply elem_of_nil in Hh|]. cbn.
      apply Forall2_length in Hrs. rewrite length_fmap in Hrs. rewrite Hrs. by eapply lookup_lt_Some.
    - intros i e es Hi. rewrite list_lookup_fmap in Hi. destruct (ls !! i) as [[|x xs]|] eqn:Hx; [done| |done].
      exists {| hf_run := i; hf_fact := x |}. split; [|done]. apply He. right. by exists i, x, xs. }
  destruct (pops_content _ _ _ _ eq_refl Hc) as (l & Hl & Hperm).
  exists rs, heap, l. split_and!; [done|done|by rewrite Hperm, Hp|]. intros Hinc Hnd.
  eapply pops_increasing; [done|done| |].
  - split; [done|]. intros i es Hi. rewrite list_lookup_fmap in Hi.
    destruct (ls !! i) as [[|x xs]|] eqn:Hx; [..|done]; injection Hi as <-.
    + split; [constructor|]. intros e Hee. by apply elem_of_nil in Hee.
    + rewrite list.Forall_forall in Hinc.
      pose proof (Hinc (x :: xs) (list_elem_of_lookup_2 _ _ _ Hx)) as Hxs. inversion_clear Hxs as [|? ? Hxs' Hfx].
      split; [done|]. intros e Hee. exists {| hf_run := i; hf_fact := x |}. rewrite list.Forall_forall in Hfx.
      split_and!; [|done|by apply Hfx]. apply He. right. by exists i, x, xs.
  - rewrite Hp. done.
Qed.

Lemma prime_drained todo : forall index readers heap readers' heap',
  prime index todo readers heap = Ok (readers', heap') ->
  (forall h, h ∈ heap -> h ∈ heap') /\
  exists rs, readers' = readers ++ rs /\ length rs = length todo /\
    forall j r r', todo !! j = Some r -> rs !! j = Some r' ->
      exists o, next r = Ok (o, r') /\ (o = None \/ in_heap (index + j) heap').
Proof.
  induction todo as [|r todo IH]; intros index readers heap readers' heap' H; cbn [prime] in H.
  - injection H as <- <-. split; [done|]. exists []. rewrite app_nil_r. done.
  - rewrite result_bind_ok in H. destruct H as ([o r'] & Hn & H). fold (refill index o heap) in H.
    apply IH in H as (Hsub & rs & -> & Hlen & Hrs). split.
    { intros h Hh. apply Hsub. destruct o; cbn [refill]; [apply heap_push_elem; by right|done]. }
    exists (r' :: rs). rewrite <- app_assoc. split_and!; [done|cbn; lia|]. intros [|j] r1 r1' Hr Hr'.
    + injection Hr as <-. injection Hr' as <-. exists o. split; [done|]. destruct o as [e|]; [right|by left].
      exists {| hf_run := index; hf_fact := e |}. rewrite Nat.add_0_r. split; [|done]. apply Hsub.
      apply heap_push_elem. by left.
    + rewrite Nat.add_succ_r. by eapply Hrs.
Qed.

Lemma runs_drained readers readers' heap l :
  prime 0 readers [] [] = Ok (readers', heap) -> pops heap readers' l -> exists ls, Forall2 drains readers ls.
Proof.
  intros Hp Hl. apply prime_drained in Hp as (_ & rs & -> & Hlen & Hrs). cbn [app] in Hl.
  destruct (pops_drained _ _ _ Hl) as (rests & Hd).
  { intros i r' Hi. destruct (lookup_lt_is_Some_2 readers i) as (r & Hr).
    { rewrite <- Hlen. by eapply lookup_lt_Some. }
    destruct (Hrs i r r' Hr Hi) as (o & Hn & [->|Hin]); [right|by left].
    pose proof Hn as (_ & _ & ->)%next_none. by eapply drains_end. }
  assert (forall r, r ∈ readers -> exists es, drains r es) as Hall.
  { intros r Hr. apply list_elem_of_lookup in Hr as (j & Hj).
    destruct (lookup_lt_is_Some_2 rs j) as (r' & Hr'); [rewrite Hlen; by eapply lookup_lt_Some|].
    destruct (Forall2_lookup_l _ _ _ _ _ Hd Hr') as (es & _ & Hes).
    destruct (Hrs j r r' Hj Hr') as (o & Hn & _).
    destruct o as [e|]; [exists (e :: es); by eapply drains_next|exists []; by eapply drains_end]. }
  clear -Hall. induction readers as [|r readers IH]; [by exists []|].
  destruct (Hall r) as (es & Hes); [left|]. destruct IH as (ls & Hls); [intros; apply Hall; by right|].
  exists (es :: ls). by constructor.
Qed.
End Merge.
