(* ===== verification/GenerationSpec.v ===== *)
(** * What a published generation is

    Specification and theorems of GenerationV2: the size prediction of the
    sharder, what a finalized generation contains, that verification accepts
    exactly such generations, and that the result depends on the runs only
    through the facts they hold. *)

From S2P Require Import Prelude Order Collections Text Json Canonical Instances JsonFormat JsonRead Errors CasObject.
From S2P Require Import CasInterface CasStore AdapterV2 FactRun GenerationV2 FactMerge.
From S2P Require DerivedManifest.

(* --------------------------------------------------------------------- *)
(** ** Sizes *)

Section Sizes.
Context {P : Primitives} {R : JsonReader} {W : WriterLaws P}.

Lemma shard_sorted s :
  sort_value (shard_value s) =
  JObject [("facts", JArray (map sort_value (fact_value <$> sh_facts s))); ("firstKey", JString (first_key s));
           ("lastKey", JString (last_key s)); ("schema", JString (sh_schema s));
           ("sequence", JNumber (PosInt (sh_sequence s)))].
Proof. reflexivity. Qed.

Lemma facts_written l : to_vec <$> map sort_value (fact_value <$> l) = fact_bytes <$> l.
Proof. induction l as [|f l IH]; [done|]. cbn. f_equal. exact IH. Qed.

Lemma shard_bytes_len n f fs : n <= u32_max ->
  vlen (shard_bytes (shard_of n f fs)) =
  encoded_shard_len n (fact_key f) (fact_key (List.last fs f)) (total_len (fact_bytes <$> f :: fs)) (vlen (f :: fs)).
Proof.
  intros Hn. unfold shard_bytes, value_bytes. rewrite shard_sorted, to_vec_object. unfold shard_of.
  cbn [sh_facts first_key last_key sh_schema sh_sequence].
  generalize (fact_key (List.last fs f)). intros lk. generalize (fact_key f). intros fk.
  generalize (f :: fs). clear f fs. intros l.
  rewrite !vlen_app, join_bytes_len, !fmap_cons, fmap_nil. unfold total_len at 1. cbn [foldr].
  cbn [fst snd]. rewrite !vlen_app, (plain_len "facts"), (plain_len "firstKey"), (plain_len "lastKey"), (plain_len "schema"),
    (plain_len "sequence"), (plain_len FACT_SHARD_SCHEMA) by reflexivity.
  rewrite to_vec_array, facts_written, !vlen_app, join_bytes_len, to_vec_natural
    by (unfold u32_max, u64_max in *; lia).
  rewrite as_bytes_len. unfold encoded_shard_len. rewrite !vlen_app, !as_bytes_len.
  assert (vlen (fact_bytes <$> l) = vlen l) as -> by (unfold vlen; by rewrite length_fmap).
  change (vlen quote_bytes) with 1.
  change (str_len "facts") with 5. change (str_len "firstKey") with 8. change (str_len "lastKey") with 7.
  change (str_len "schema") with 6. change (str_len "sequence") with 8. change (str_len FACT_SHARD_SCHEMA) with 33.
  change (str_len "{") with 1. change (str_len ":[") with 2. change (str_len "],") with 2. change (str_len ":") with 1.
  change (str_len ",") with 1. change (str_len "[") with 1. change (str_len "]") with 1. change (str_len "}") with 1.
  rewrite !vlen_cons. change (vlen (@nil (list byte))) with 0. lia.
Qed.

Lemma total_len_count l : vlen l <= total_len (fact_bytes <$> l).
Proof.
  induction l as [|f l IH]; [done|]. rewrite fmap_cons, vlen_cons.
  change (total_len (fact_bytes f :: (fact_bytes <$> l))) with (vlen (fact_bytes f) + total_len (fact_bytes <$> l)).
  pose proof (fact_bytes_nonempty f). lia.
Qed.

Lemma shard_holds_fewer n f fs : n <= u32_max -> vlen (f :: fs) <= vlen (shard_bytes (shard_of n f fs)).
Proof.
  intros Hn. rewrite shard_bytes_len by done. unfold encoded_shard_len. pose proof (total_len_count (f :: fs)). lia.
Qed.
End Sizes.

(* --------------------------------------------------------------------- *)
(** ** The specification *)

Section Spec.
Context {P : Primitives}.

Definition before (f g : FactRecord) : Prop := lt_ord (fact_key f) (fact_key g).

(** [o] names the shard number [n] that holds the records of [chunk]. *)
Definition shard_names (limit n : N) (chunk : list FactRecord) (o : CasObject) : Prop :=
  match chunk with
  | [] => False
  | f :: fs => for_bytes FACT_SHARD_SCHEMA (shard_bytes (shard_of n f fs)) = Ok o /\
               vlen (shard_bytes (shard_of n f fs)) <= limit
  end.

Fixpoint published_from (limit n : N) (chunks : list (list FactRecord)) (objects : list CasObject) : Prop :=
  match chunks, objects with
  | [], [] => True
  | c :: chunks', o :: objects' => shard_names limit n c o /\ published_from limit (n + 1) chunks' objects'
  | _, _ => False
  end.

Record attempt_ok (a : AttemptAuthority) : Prop := mkAttemptOk {
  attempt_id_ok : at_compilation_id a <> "" /\ str_len (at_compilation_id a) <= 128;
  attempt_scope_ok : canonical_digest (scope_digest (completion a)) = true
}.

Record fact_ok (f : FactRecord) : Prop := mkFactOk {
  fact_ok_valid : fact_validate f = Ok tt;
  fact_ok_typed : fact_typed f
}.

(** A generation: its facts are the records of [chunks], one shard per chunk. *)
Record generation_ok (m : GenerationManifest) (chunks : list (list FactRecord)) : Prop := mkGenerationOk {
  gen_schema : gm_schema m = GENERATION_SCHEMA;
  gen_derived : object_schema (gm_derived m) = DerivedManifest.DERIVED_MANIFEST_SCHEMA;
  gen_identity : generation_id m = hash (manifest_value (with_generation_id m EmptyString));
  gen_parent : match gm_parent m with
               | Some p => generation_kind m = Delta /\ object_schema p = GENERATION_SCHEMA
               | None => generation_kind m = Full
               end;
  gen_attempts : Forall attempt_ok (attempts m) /\ NoDup (scope_key <$> attempts m);
  gen_shards : published_from MAX_SHARD_BYTES 0 chunks (shards m);
  gen_facts : Forall fact_ok (concat chunks);
  gen_order : StronglySorted before (concat chunks);
  gen_count : gm_fact_count m = vlen (concat chunks);
  gen_nonempty : concat chunks <> []
}.

Lemma published_from_snoc limit chunks : forall n objects c o,
  published_from limit n chunks objects -> shard_names limit (n + vlen chunks) c o ->
  published_from limit n (chunks ++ [c]) (objects ++ [o]).
Proof.
  induction chunks as [|d chunks IH]; intros n [|p objects] c o Hp Hc; try done.
  - cbn. rewrite vlen_nil, N.add_0_r in Hc. done.
  - destruct Hp as [Hd Hp]. split; [done|]. apply IH; [done|]. rewrite vlen_cons in Hc.
    by replace (n + 1 + vlen chunks) with (n + (vlen chunks + 1)) by lia.
Qed.

Lemma published_from_length limit chunks : forall n objects,
  published_from limit n chunks objects -> vlen chunks = vlen objects.
Proof.
  induction chunks as [|c chunks IH]; intros n [|o objects] H; try done. destruct H as [_ H].
  rewrite !vlen_cons. by rewrite (IH _ _ H).
Qed.

Lemma published_from_mono limit limit' chunks : limit <= limit' -> forall n objects,
  published_from limit n chunks objects -> published_from limit' n chunks objects.
Proof.
  intros Hl. induction chunks as [|c chunks IH]; intros n [|o objects] H; try done. destruct H as [Hc H].
  split; [|by apply IH]. destruct c; [done|]. destruct Hc. split; [done|lia].
Qed.
End Spec.


(* --------------------------------------------------------------------- *)
(** ** The sharder *)

Section Sharder.
Context {P : Primitives} {S : Type} {C : CasOps S} {L : @CasLaws S P C}.
Context (limit : N).

Record absorbed (l : list EncodedFact) (st : ShardState) : Prop := mkAbsorbed {
  ab_chunks : exists chunks, record <$> l = concat chunks ++ (record <$> current st) /\
    published_from limit 0 chunks (published st) /\ vlen chunks = sequence st;
  ab_sequence : sequence st <= u32_max;
  ab_count : merged_count st = vlen l mod 2 ^ 64;
  ab_last : merged_last_key st = last_after None (record <$> l);
  ab_sorted : StronglySorted before (record <$> l);
  ab_current : current st = [] -> l = []
}.

Lemma absorbed_initial : absorbed [] initial_state.
Proof. split; try done; [by exists []|constructor]. Qed.

Lemma publish_shard_ok s n facts s' o :
  publish_shard s n facts limit = (s', Ok o) -> shard_names limit n (record <$> facts) o.
Proof.
  unfold publish_shard. destruct facts as [|e es]; [done|]. rewrite fmap_cons. cbn [shard_names].
  rewrite store_guard_ok, N.ltb_ge. intros [Hl Hp]. split; [by eapply cas_put_sound|done].
Qed.

Lemma sorted_snoc l f :
  StronglySorted before l -> not_after (last_after None l) (fact_key f) = false -> StronglySorted before (l ++ [f]).
Proof.
  intros Hs Hn. apply StronglySorted_app. split_and!; [done|repeat constructor|]. intros x y Hx Hy.
  apply list_elem_of_singleton in Hy as ->. rewrite not_after_false in Hn.
  induction l as [|g l _] using rev_ind; [by apply elem_of_nil in Hx|].
  unfold last_after in Hn. rewrite foldl_app in Hn. specialize (Hn (fact_key g) eq_refl).
  apply StronglySorted_app in Hs as (_ & _ & Hs). apply elem_of_app in Hx as [Hx|Hx].
  - apply (lt_trans (fact_key x) (fact_key g)); [apply (Hs x g Hx); left|done].
  - by apply list_elem_of_singleton in Hx as ->.
Qed.

(** Cutting a full shard keeps the invariant and leaves nothing pending. *)
Lemma absorbed_cut s l st s' o n :
  absorbed l st -> current st <> [] -> publish_shard s (sequence st) (current st) limit = (s', Ok o) ->
  u32_checked_add (sequence st) 1 = Some n ->
  exists chunks, record <$> l = concat chunks /\ published_from limit 0 chunks (published st ++ [o]) /\
    vlen chunks = n /\ n <= u32_max.
Proof.
  intros [(chunks & Hc & Hp & Hn) _ _ _ _ _] Hne Hpub Hadd.
  apply u32_checked_add_some in Hadd as [-> Hle]. apply publish_shard_ok in Hpub.
  exists (chunks ++ [record <$> current st]). split_and!.
  - rewrite concat_app. cbn. by rewrite app_nil_r.
  - apply published_from_snoc; [done|]. by rewrite Hn.
  - rewrite vlen_app, vlen_cons, vlen_nil, Hn. lia.
  - done.
Qed.

Lemma wrapping_succ n : u64_wrapping_add (n mod 2 ^ 64) 1 = (n + 1) mod 2 ^ 64.
Proof. unfold u64_wrapping_add. by rewrite N.Div0.add_mod_idemp_l. Qed.

Lemma absorb_absorbed l fact s st s' st' :
  absorbed l st -> absorb limit s st fact = (s', Ok st') -> absorbed (l ++ [fact]) st'.
Proof.
  intros Hab H. unfold absorb, protocol in H. rewrite store_guard_ok, store_bind_ok in H.
  destruct H as (Hna & s1 & st1 & Hcut & H). rewrite store_guard_ok in H. destruct H as (_ & [= <- <-]).
  assert (exists chunks, record <$> l = concat chunks ++ (record <$> current st1) /\
            published_from limit 0 chunks (published st1) /\ vlen chunks = sequence st1 /\
            sequence st1 <= u32_max /\ merged_count st1 = merged_count st) as (chunks & Hc & Hp & Hn & Hle & Hmc).
  { destruct (current st) as [|e es] eqn:Hcur.
    { injection Hcut as <- <-. destruct Hab as [(chunks & Hc) ? ? ? ? ?]. exists chunks. rewrite Hcur in *. naive_solver. }
    destruct (limit <? _).
    - rewrite store_bind_ok in Hcut. destruct Hcut as (s2 & o & Hpub & Hcut).
      destruct (u32_checked_add (sequence st) 1) as [n|] eqn:Hadd; [|done]. injection Hcut as <- <-.
      rewrite <- Hcur in Hpub. destruct (absorbed_cut s l st s2 o n Hab ltac:(by rewrite Hcur) Hpub Hadd)
        as (chunks & Hc & Hp & Hn & Hle).
      exists chunks. cbn. rewrite app_nil_r. done.
    - injection Hcut as <- <-. destruct Hab as [(chunks & Hc) ? ? ? ? ?]. exists chunks. rewrite Hcur in *. naive_solver. }
  destruct Hab as [_ _ Hcount Hlast Hsorted _]. split; cbn.
  - exists chunks. rewrite !fmap_app, Hc, app_assoc. done.
  - done.
  - rewrite Hmc, Hcount, vlen_app. apply wrapping_succ.
  - rewrite fmap_app. unfold last_after. by rewrite foldl_app.
  - rewrite fmap_app. apply sorted_snoc; [done|]. by rewrite <- Hlast.
  - by destruct (current st1).
Qed.

Lemma absorb_all l s s' st :
  store_fold (absorb limit) s initial_state l = (s', Ok st) -> absorbed l st.
Proof.
  intros H. refine (store_fold_inv (absorb limit) absorbed l [] s initial_state s' st _ absorbed_initial H).
  intros. by eapply absorb_absorbed.
Qed.
End Sharder.

(* --------------------------------------------------------------------- *)
(** ** Attempts and totals *)

Lemma checked_total_spec counts message :
  checked_total counts message =
  let total := foldr N.add 0 counts in
  if total <=? u64_max then Ok total else Err (ClewError_new ResourceLimit message).
Proof.
  unfold checked_total.
  enough (forall t, t <= u64_max -> try_fold (fun total count =>
      ok_or (u64_checked_add total count) (ClewError_new ResourceLimit message)) t counts =
    (if t + foldr N.add 0 counts <=? u64_max then Ok (t + foldr N.add 0 counts)
     else Err (ClewError_new ResourceLimit message))) as H by (apply (H 0); unfold u64_max; lia).
  induction counts as [|c counts IH]; intros t Ht; cbn [try_fold foldr].
  - rewrite N.add_0_r. by rewrite (proj2 (N.leb_le _ _) Ht).
  - unfold u64_checked_add. destruct (N.leb_spec (t + c) u64_max) as [Hle|Hgt]; cbn [ok_or result_bind].
    + rewrite IH by done. by rewrite <- N.add_assoc.
    + destruct (N.leb_spec (t + (c + foldr N.add 0 counts)) u64_max); [lia|done].
Qed.

Lemma sum_lengths {A} (ls : list (list A)) : foldr N.add 0 (vlen <$> ls) = vlen (concat ls).
Proof. induction ls as [|l ls IH]; [done|]. cbn [concat]. rewrite fmap_cons, vlen_app, <- IH. done. Qed.

Section Attempts.
Context {P : Primitives} {S : Type} {C : CasOps S}.

Lemma verify_attempts_ok s l s' :
  verify_attempts s l = (s', Ok tt) -> Forall attempt_ok l /\ NoDup (scope_key <$> l).
Proof.
  unfold verify_attempts. rewrite store_bind_ok. intros (s1 & scopes & H & _).
  eapply (store_fold_inv _ (fun pre scopes => (Forall attempt_ok pre /\ NoDup (scope_key <$> pre)) /\
    forall x, x ∈ scopes <-> x ∈ scope_key <$> pre) l []) in H; [by destruct H| |].
  - clear. intros pre a s t s' t' [[Hok Hnd] Hel] Ha. unfold check_attempt, invalid in Ha. rewrite store_guard_ok, store_bind_ok in Ha.
    destruct Ha as (Hg & s1 & b & _ & [= _ <-]). rewrite !orb_false_iff, negb_false_iff, bset_contains_false, N.ltb_ge, Hel in Hg.
    destruct Hg as (((He & Hl) & Hd) & Hn). rewrite !fmap_app. change (scope_key <$> [a]) with [scope_key a]. split; [split|].
    + apply Forall_app. split; [done|]. constructor; [|done]. split; [by apply str_is_empty_false in He|done].
    + apply list.NoDup_app. split_and!; [done| |apply NoDup_singleton].
      intros x Hx Hx'. by apply list_elem_of_singleton in Hx' as ->.
    + intros x. rewrite bset_insert_elem, Hel, elem_of_app, list_elem_of_singleton. tauto.
  - split; [split; constructor|done].
Qed.

(** Receipts that the store serves without changing. *)
Definition serves (s : S) (o : CasObject) (m : N) : Prop := exists b, cas_read s o m = (s, Ok b).

Lemma verify_attempts_complete s l :
  Forall attempt_ok l -> NoDup (scope_key <$> l) ->
  Forall (fun a => serves s (completeness_receipt (completion a)) (size (completeness_receipt (completion a)))) l ->
  verify_attempts s l = (s, Ok tt).
Proof.
  intros Hok Hnd Hs. unfold verify_attempts.
  enough (forall scopes, Forall (fun a => scope_key a ∉ scopes) l ->
    exists scopes', store_fold check_attempt s scopes l = (s, Ok scopes')) as H.
  { destruct (H []) as (scopes' & ->); [|done]. apply list.Forall_true. intros a. apply not_elem_of_nil. }
  induction l as [|a l IH]; intros scopes Hf; [by exists scopes|].
  inversion_clear Hok as [|? ? [[He Hlen] Hd] Hok']. inversion_clear Hs as [|? ? [b Hb] Hs'].
  inversion_clear Hf as [|? ? Hn Hf']. rewrite fmap_cons in Hnd. inversion_clear Hnd as [|? ? Hna Hnd'].
  cbn [store_fold]. unfold check_attempt at 1. rewrite (proj2 (str_is_empty_false _) He), (proj2 (N.ltb_ge _ _) Hlen), Hd,
    (proj2 (bset_contains_false _ _) Hn). cbn [orb negb store_bind]. rewrite Hb. cbn [store_bind].
  apply IH; [done..|]. apply list.Forall_forall. intros y Hy. rewrite list.Forall_forall in Hf'.
  rewrite bset_insert_elem. intros [Heq|Hin]; [|by apply (Hf' y)]. apply Hna. rewrite <- Heq. by apply list_elem_of_fmap_2.
Qed.
End Attempts.

(* --------------------------------------------------------------------- *)
(** ** Finalization *)

Section Finalize.
Context {P : Primitives} {R : JsonReader} {S : Type} {C : CasOps S}.

(** The records of a run, in file order. *)
Definition holds (run : FactRun) (es : list EncodedFact) : Prop := drains (reader_open run) es.

Lemma holds_readers runs ls : Forall2 holds runs ls <-> Forall2 drains (reader_open <$> runs) ls.
Proof. by rewrite Forall2_fmap_l. Qed.

Lemma holds_counts runs ls : Forall2 holds runs ls ->
  foldr N.add 0 (run_count <$> runs) = vlen (concat ls) /\
  (length (concat ls) <= run_bytes_total runs)%nat /\
  Forall (fun e => bytes e = fact_bytes (record e) /\ fact_ok (record e)) (concat ls).
Proof.
  induction 1 as [|run es runs ls Hd Hds (IHc & IHl & IHf)]; [done|].
  destruct (drains_spec _ _ Hd) as (Hf & Hc & Hl). cbn [concat].
  rewrite fmap_cons, vlen_app, length_app, Forall_app. cbn [foldr].
  change (run_bytes_total (run :: runs)) with (length (run_file run) + run_bytes_total runs)%nat.
  cbn [reader_open remaining rd_rest] in Hc, Hl. split_and!; [lia|lia| |done].
  eapply list.Forall_impl; [exact Hf|]. cbn. intros e (? & ? & ?). split; [done|by split].
Qed.

Lemma merge_runs_spec runs ls : Forall2 holds runs ls ->
  exists l, Permutation l (concat ls) /\
    (Forall increasing ls -> NoDup (key_of <$> concat ls) -> increasing l) /\
    forall s limit, merge_runs s runs limit = store_fold (absorb limit) s initial_state l.
Proof.
  intros Hh. destruct (holds_counts _ _ Hh) as (_ & Hlen & _). apply holds_readers in Hh.
  destruct (runs_merge _ _ Hh) as (readers & heap & l & Hp & Hl & Hperm & Hinc).
  exists l. split_and!; [done|done|]. intros s limit. unfold merge_runs. rewrite Hp. cbn [pure_on store_bind fst snd].
  apply merge_pops; [done|]. rewrite (Permutation_length Hperm). done.
Qed.

Lemma merge_runs_ok s runs limit s' st :
  merge_runs s runs limit = (s', Ok st) -> exists ls, Forall2 holds runs ls.
Proof.
  unfold merge_runs. rewrite store_bind_ok. intros (s1 & [readers heap] & Hp & Hm).
  unfold pure_on in Hp. injection Hp as <- Hp. apply merge_ok_pops in Hm as (l & Hl & _).
  destruct (runs_drained _ _ _ _ Hp Hl) as (ls & Hls). exists ls. by apply holds_readers.
Qed.

Context {L : @CasLaws S P C}.

Lemma publish_rest_ok s st limit s' shards l :
  absorbed limit l st -> publish_rest s st limit = (s', Ok shards) ->
  exists chunks, concat chunks = record <$> l /\ published_from limit 0 chunks shards.
Proof.
  intros [(chunks & Hc & Hp & Hn) _ _ _ _ _] H. unfold publish_rest in H.
  destruct (current st) as [|e es] eqn:Hcur.
  - injection H as <- <-. exists chunks. rewrite Hc. cbn. by rewrite app_nil_r.
  - rewrite store_bind_ok in H. destruct H as (s1 & o & Hpub & [= <- <-]).
    exists (chunks ++ [record <$> e :: es]). rewrite concat_app. cbn [concat]. rewrite app_nil_r. split; [done|].
    apply published_from_snoc; [done|]. rewrite Hn. cbn [N.add]. by apply publish_shard_ok in Hpub.
Qed.

Lemma pure_ok {A} (s s' : S) (r : Res A) a : pure_on s r = (s', Ok a) <-> s' = s /\ r = Ok a.
Proof. unfold pure_on. naive_solver. Qed.

Record finalized (d : CasObject) (ats : list AttemptAuthority) (runs : list FactRun) (parent : option CasObject)
    (limit : N) (m : GenerationManifest) (o : CasObject) (ls : list (list EncodedFact)) (chunks : list (list FactRecord))
  : Prop := mkFinalized {
  fin_runs : Forall2 holds runs ls;
  fin_facts : Permutation (concat chunks) (record <$> concat ls);
  fin_generation : generation_ok m chunks;
  fin_limit : published_from limit 0 chunks (shards m);
  fin_inputs : gm_derived m = d /\ gm_parent m = parent /\ attempts m = sort_by (cmp_on attempt_key) ats;
  fin_object : for_bytes GENERATION_SCHEMA (value_bytes (manifest_value m)) = Ok o
}.

(** The merged facts of a successful merge. *)
Lemma merged_ok s runs limit s1 st s2 shards count :
  merge_runs s runs limit = (s1, Ok st) -> publish_rest s1 st limit = (s2, Ok shards) ->
  checked_total (run_count <$> runs) "fact count overflow" = Ok count -> merged_count st = count -> count <> 0 ->
  exists ls chunks, Forall2 holds runs ls /\ Permutation (concat chunks) (record <$> concat ls) /\
    published_from limit 0 chunks shards /\ Forall fact_ok (concat chunks) /\
    StronglySorted before (concat chunks) /\ vlen (concat chunks) = count /\ concat chunks <> [].
Proof.
  intros Hm Hp Ht Hc Hz. destruct (merge_runs_ok _ _ _ _ _ Hm) as (ls & Hls).
  destruct (merge_runs_spec _ _ Hls) as (l & Hperm & _ & Heq). rewrite Heq in Hm.
  pose proof (absorb_all limit _ _ _ _ Hm) as Hab. destruct (publish_rest_ok _ _ _ _ _ _ Hab Hp) as (chunks & Hch & Hpub).
  destruct (holds_counts _ _ Hls) as (Hsum & _ & Hf). rewrite checked_total_spec in Ht. cbv zeta in Ht.
  rewrite Hsum in Ht. destruct (N.leb_spec (vlen (concat ls)) u64_max) as [Hle|]; [|done]. apply Ok_inj in Ht.
  destruct Hab as [_ _ _ _ Hs _]. rewrite <- Hch in Hs.
  assert (Permutation (concat chunks) (record <$> concat ls)) as Hpc by (by rewrite Hch, Hperm).
  assert (vlen (concat chunks) = count) as Hv.
  { rewrite <- Ht. unfold vlen. by rewrite (Permutation_length Hpc), length_fmap. }
  exists ls, chunks. split_and!; try done.
  - rewrite Hpc, Forall_fmap. eapply list.Forall_impl; [exact Hf|]. by intros e [_ ?].
  - intros He. rewrite He in Hv. by rewrite <- Hv in Hz.
Qed.

Lemma finalize_ok s d ats runs parent limit s' m o :
  finalize_with_limit s d ats runs parent limit = (s', Ok (m, o)) ->
  exists ls chunks, finalized d ats runs parent limit m o ls chunks.
Proof.
  unfold finalize_with_limit, invalid, protocol. rewrite store_guard_ok, str_neqb_false. intros [Hd H].
  rewrite store_bind_ok in H. destruct H as (s1 & pb & Hparent & H).
  rewrite store_guard_ok, !orb_false_iff, N.ltb_ge in H. destruct H as (((_ & _) & Hlim) & H). cbv zeta in H.
  rewrite store_guard_ok in H. destruct H as (_ & H). rewrite store_bind_ok in H.
  destruct H as (s2 & [] & Hat & H). rewrite store_bind_ok in H. destruct H as (s3 & count & Hcount & H).
  rewrite store_bind_ok in H. destruct H as (s4 & done & _ & H). rewrite store_guard_ok in H. destruct H as (_ & H).
  rewrite store_bind_ok in H. destruct H as (s5 & st & Hm & H). rewrite store_bind_ok in H.
  destruct H as (s6 & shards & Hp & H). rewrite store_guard_ok, orb_false_iff, negb_false_iff, N.eqb_eq, N.eqb_neq in H.
  destruct H as ((Hmc & Hz) & H). rewrite store_bind_ok in H. destruct H as (s7 & o' & Hput & [= _ <- <-]).
  apply pure_ok in Hcount as [_ Hcount].
  destruct (merged_ok _ _ _ _ _ _ _ _ Hm Hp Hcount Hmc ltac:(congruence)) as (ls & chunks & Hls & Hpc & Hpub & Hf & Hs & Hv & Hne).
  exists ls, chunks. split; try done; [|by apply cas_put_sound in Hput].
  split; try done; cbn.
  - destruct parent as [p|]; [|done]. rewrite store_guard_ok, str_neqb_false in Hparent. by destruct Hparent.
  - by eapply verify_attempts_ok.
  - eapply published_from_mono; [|exact Hpub]. done.
  - by rewrite Hmc.
Qed.
End Finalize.

(* --------------------------------------------------------------------- *)
(** ** Verification *)

Section Verify.
Context {P : Primitives} {R : JsonReader}.

Lemma check_fact_ok st f st' :
  check_fact st f = Ok st' <->
  fact_validate f = Ok tt /\ (forall k, verified_last_key st = Some k -> lt_ord k (fact_key f)) /\
  st' = {| expected_sequence := expected_sequence st; observed_count := u64_wrapping_add (observed_count st) 1;
           verified_last_key := Some (fact_key f) |}.
Proof. unfold check_fact, corrupt. rewrite seq_ok, guard_ok, not_after_false. naive_solver. Qed.

Lemma check_facts_ok l : forall st st',
  try_fold check_fact st l = Ok st' <->
  Forall (fun f => fact_validate f = Ok tt) l /\ sorted_above (verified_last_key st) l /\
  st' = {| expected_sequence := expected_sequence st;
           observed_count := foldl (fun n (_ : FactRecord) => u64_wrapping_add n 1) (observed_count st) l;
           verified_last_key := last_after (verified_last_key st) l |}.
Proof.
  induction l as [|f l IH]; intros st st'; cbn [try_fold].
  - split.
    + intros [= <-]. split_and!; [constructor|split; constructor|by destruct st].
    + intros (_ & _ & ->). by destruct st.
  - rewrite result_bind_ok, Forall_cons_iff, sorted_above_cons. split.
    + intros (st1 & (Hv & Hn & ->)%check_fact_ok & (Hf & Hs & ->)%IH). done.
    + intros ((Hv & Hf) & (Hn & Hs) & ->). eexists. split; [by apply check_fact_ok|]. by apply IH.
Qed.

Lemma wrapping_count l : forall n,
  foldl (fun n (_ : FactRecord) => u64_wrapping_add n 1) (n mod 2 ^ 64) l = (n + vlen l) mod 2 ^ 64.
Proof.
  induction l as [|f l IH]; intros n; cbn [foldl]; [by rewrite vlen_nil, N.add_0_r|].
  rewrite wrapping_succ, IH, vlen_cons. f_equal. lia.
Qed.

Lemma decode_list_typed l fs : decode_list decode_fact l = Some fs -> Forall fact_typed fs.
Proof.
  revert fs; induction l as [|v l IH]; intros fs; cbn; [by intros [= <-]|].
  destruct (decode_fact v) as [f|] eqn:Hf; [|done]. destruct (decode_list decode_fact l) as [gs|]; [|done].
  intros [= <-]. constructor; [by eapply decode_fact_typed|by apply IH].
Qed.

Lemma decode_shard_typed v s : decode_shard v = Some s -> Forall fact_typed (sh_facts s).
Proof.
  unfold decode_shard. destruct (decode_struct _ v) as [[|a [|b [|c [|d [|e [|]]]]]]|]; try done.
  destruct (decode_string a), (decode_u32 b), (decode_string c), (decode_string d); try done.
  destruct (decode_vec decode_fact e) as [fs|] eqn:He; [|done]. intros [= <-]. cbn.
  unfold decode_vec in He. destruct e; try done. by eapply decode_list_typed.
Qed.

(** What a shard that passes the checks is. *)
Lemma check_shard_sound st b st' :
  check_shard st b = Ok st' ->
  exists f fs, b = shard_bytes (shard_of (expected_sequence st) f fs) /\ Forall fact_ok (f :: fs) /\
    sorted_above (verified_last_key st) (f :: fs) /\ expected_sequence st + 1 <= u32_max /\
    st' = {| expected_sequence := expected_sequence st + 1;
             observed_count := foldl (fun n (_ : FactRecord) => u64_wrapping_add n 1) (observed_count st) (f :: fs);
             verified_last_key := last_after (verified_last_key st) (f :: fs) |}.
Proof.
  unfold check_shard, read_shard, corrupt. rewrite result_bind_ok. intros (shard & Hr & H).
  assert (Forall fact_typed (sh_facts shard)) as Ht.
  { destruct (read_document b) as [v|]; [|done]. destruct (decode_shard v) as [s|] eqn:Hd; [|done].
    injection Hr as <-. by eapply decode_shard_typed. }
  rewrite guard_ok, !orb_false_iff, !negb_false_iff, str_neqb_false, N.eqb_eq in H.
  destruct H as ((((Hb & Hschema) & Hseq) & Hfl) & H). apply bool_decide_eq_true_1 in Hb.
  destruct (sh_facts shard) as [|f fs] eqn:Hfs; [done|]. rewrite orb_false_iff, !str_neqb_false in Hfl.
  destruct Hfl as [Hfk Hlk]. rewrite result_bind_ok in H. destruct H as (st1 & Hc & H).
  apply check_facts_ok in Hc as (Hv & Hs & ->). rewrite result_bind_ok in H. destruct H as (n & Hn & [= <-]).
  cbn [expected_sequence observed_count verified_last_key] in *.
  destruct (u32_checked_add (expected_sequence st) 1) as [n'|] eqn:Hadd; [|done]. injection Hn as ->.
  apply u32_checked_add_some in Hadd as [-> Hle]. exists f, fs. split_and!; try done.
  - rewrite <- Hb. f_equal. destruct shard. cbn in *. subst. done.
  - apply list.Forall_forall. intros g Hg. rewrite list.Forall_forall in Hv, Ht. split; auto.
Qed.

Context {W : WriterLaws P} {RL : ReaderLaws P R}.

Lemma shard_plain s : Forall fact_typed (sh_facts s) -> sh_sequence s <= u32_max ->
  plain (sort_value (shard_value s)) = true /\ nesting (sort_value (shard_value s)) <= 64.
Proof.
  intros Ht Hn. rewrite shard_sorted. split.
  - cbn -[u64_max N.leb]. rewrite andb_true_r.
    rewrite (proj2 (N.leb_le _ _)) by (unfold u32_max, u64_max in *; lia). rewrite andb_true_r.
    apply forallb_iff. change (map sort_value ?l) with (sort_value <$> l). rewrite Forall_fmap, Forall_fmap.
    eapply list.Forall_impl; [exact Ht|]. cbn. intros f Hf. by destruct (fact_plain f Hf).
  - cbn -[N.max N.add fmap]. rewrite !N.max_0_r. change (0 + 1) with 1.
    enough (foldr (fun a acc => N.max (nesting a + 1) acc) 0 (map sort_value (fact_value <$> sh_facts s)) <= 3) as Hle by lia.
    apply (foldr_max_le (fun a => nesting a + 1)).
    change (map sort_value ?l) with (sort_value <$> l). rewrite Forall_fmap, Forall_fmap.
    eapply list.Forall_impl; [exact Ht|]. cbn. intros f Hf. destruct (fact_plain f Hf) as [_ Hn']. cbn in *. lia.
Qed.

Lemma decode_shard_written s : Forall fact_typed (sh_facts s) -> sh_sequence s <= u32_max ->
  decode_shard (sort_value (shard_value s)) = Some s.
Proof.
  intros Ht Hn. rewrite shard_sorted. unfold decode_shard.
  cbn -[decode_u32 decode_fact u32_max map fmap decode_list]. rewrite decode_u32_natural by done.
  replace (decode_list decode_fact (map sort_value (fact_value <$> sh_facts s))) with (Some (sh_facts s)); [by destruct s|].
  symmetry. change (map sort_value ?l) with (sort_value <$> l). rewrite <- list_fmap_compose.
  apply (decode_list_fmap decode_fact (sort_value ∘ fact_value)). eapply list.Forall_impl; [exact Ht|].
  intros f Hf. by apply decode_fact_written.
Qed.

Lemma read_shard_written s : Forall fact_typed (sh_facts s) -> sh_sequence s <= u32_max ->
  read_shard (shard_bytes s) = Ok s.
Proof.
  intros Ht Hn. destruct (shard_plain s Ht Hn) as [Hp Hd]. unfold read_shard, shard_bytes, value_bytes.
  rewrite read_written by done. by rewrite decode_shard_written.
Qed.

Lemma check_shard_complete st f fs :
  Forall fact_ok (f :: fs) -> sorted_above (verified_last_key st) (f :: fs) -> expected_sequence st + 1 <= u32_max ->
  check_shard st (shard_bytes (shard_of (expected_sequence st) f fs)) =
  Ok {| expected_sequence := expected_sequence st + 1;
        observed_count := foldl (fun n (_ : FactRecord) => u64_wrapping_add n 1) (observed_count st) (f :: fs);
        verified_last_key := last_after (verified_last_key st) (f :: fs) |}.
Proof.
  intros Hf Hs Hn. unfold check_shard. rewrite read_shard_written.
  2: { eapply list.Forall_impl; [exact Hf|]. by intros g []. }
  2: { cbn. lia. }
  cbn [result_bind shard_of sh_schema sh_sequence sh_facts first_key last_key].
  rewrite bool_decide_eq_true_2 by done. rewrite !str_neqb_refl, N.eqb_refl. cbn [negb orb].
  assert (Forall (fun f => fact_validate f = Ok tt) (f :: fs)) as Hv.
  { eapply list.Forall_impl; [exact Hf|]. by intros g []. }
  rewrite (proj2 (check_facts_ok (f :: fs) st {| expected_sequence := expected_sequence st; observed_count := _;
    verified_last_key := _ |}) (conj Hv (conj Hs eq_refl))).
  cbn [result_bind expected_sequence]. rewrite (proj2 (u32_checked_add_some _ _ _) (conj eq_refl Hn)). done.
Qed.
End Verify.

(* --------------------------------------------------------------------- *)
(** ** The loop over the shards *)

Lemma sorted_above_app l k : forall last,
  sorted_above last (l ++ k) <-> sorted_above last l /\ sorted_above (last_after last l) k.
Proof.
  induction l as [|f l IH]; intros last.
  - cbn. split; [|naive_solver]. intros H. split; [split; constructor|done].
  - cbn [app]. rewrite !sorted_above_cons, IH. change (last_after last (f :: l)) with (last_after (Some (fact_key f)) l). tauto.
Qed.

Lemma sorted_above_none l : sorted_above None l <-> StronglySorted before l.
Proof. unfold sorted_above. split; [by intros []|]. intros Hs. split; [done|]. by apply list.Forall_true. Qed.

Lemma last_after_app last l k : last_after last (l ++ k) = last_after (last_after last l) k.
Proof. unfold last_after. apply foldl_app. Qed.

Section VerifyLoop.
Context {P : Primitives} {R : JsonReader} {S : Type} {C : CasOps S} {L : @CasLaws S P C}.

Record verified (pre : list CasObject) (st : VerifyState) (chunks : list (list FactRecord)) : Prop := mkVerified {
  ver_shards : published_from MAX_SHARD_BYTES 0 chunks pre;
  ver_facts : Forall fact_ok (concat chunks);
  ver_order : sorted_above None (concat chunks);
  ver_sequence : expected_sequence st = vlen chunks;
  ver_bound : vlen chunks <= u32_max;
  ver_count : observed_count st = vlen (concat chunks) mod 2 ^ 64;
  ver_last : verified_last_key st = last_after None (concat chunks)
}.

Lemma verified_step pre o s st s' st' chunks :
  object_schema o = FACT_SHARD_SCHEMA -> verified pre st chunks -> verify_shard s st o = (s', Ok st') ->
  exists chunks', verified (pre ++ [o]) st' chunks'.
Proof.
  intros Ho [Hp Hf Hs Hn Hb Hc Hl] H. unfold verify_shard in H. rewrite store_bind_ok in H.
  destruct H as (s1 & b & Hr & H). apply pure_ok in H as [_ H].
  apply cas_read_sound in Hr as [Hr Hlen]. rewrite Ho in Hr.
  apply check_shard_sound in H as (f & fs & -> & Hfs & Hss & Hle & ->).
  rewrite Hc, wrapping_count, Hl, Hn in *. exists (chunks ++ [f :: fs]).
  assert (concat (chunks ++ [f :: fs]) = concat chunks ++ f :: fs) as Hcat.
  { rewrite concat_app. cbn [concat]. by rewrite app_nil_r. }
  split; rewrite ?Hcat; cbn [expected_sequence observed_count verified_last_key].
  - by apply published_from_snoc.
  - by apply Forall_app.
  - by apply sorted_above_app.
  - by rewrite vlen_app.
  - by rewrite vlen_app.
  - by rewrite vlen_app.
  - by rewrite last_after_app.
Qed.

Lemma verify_loop_sound s st objects s' :
  Forall (fun o => object_schema o = FACT_SHARD_SCHEMA) objects ->
  store_fold verify_shard s {| expected_sequence := 0; observed_count := 0; verified_last_key := None |} objects
    = (s', Ok st) ->
  exists chunks, verified objects st chunks.
Proof.
  intros Ho H. revert Ho.
  refine (store_fold_inv verify_shard (fun pre st => Forall (fun o => object_schema o = FACT_SHARD_SCHEMA) pre ->
    exists chunks, verified pre st chunks) objects [] s _ s' st _ _ H).
  - intros pre o s1 st1 s1' st1' IH Hv Hall. apply Forall_app in Hall as [Hpre Ho]. inversion_clear Ho.
    destruct (IH Hpre) as (chunks & Hc). by eapply verified_step.
  - intros _. exists []. split; try done. split; constructor.
Qed.

(** What a store has to serve for a generation to be readable. *)
Fixpoint shards_readable (t : S) (n : N) (chunks : list (list FactRecord)) (objects : list CasObject) : Prop :=
  match chunks, objects with
  | (f :: fs) :: chunks', o :: objects' =>
      cas_read t o MAX_SHARD_BYTES = (t, Ok (shard_bytes (shard_of n f fs))) /\
      shards_readable t (n + 1) chunks' objects'
  | _, _ => True
  end.
Record readable (t : S) (m : GenerationManifest) (chunks : list (list FactRecord)) : Prop := mkReadable {
  readable_parent : match gm_parent m with Some p => serves t p (size p) | None => True end;
  readable_derived : serves t (gm_derived m) (size (gm_derived m));
  readable_receipts : Forall (fun a => serves t (completeness_receipt (completion a))
                                         (size (completeness_receipt (completion a)))) (attempts m);
  readable_shards : shards_readable t 0 chunks (shards m)
}.

Context {W : WriterLaws P} {RL : ReaderLaws P R}.

Lemma verify_loop_complete t chunks : forall n objects st,
  published_from MAX_SHARD_BYTES n chunks objects -> shards_readable t n chunks objects ->
  expected_sequence st = n -> n + vlen chunks <= u32_max ->
  Forall fact_ok (concat chunks) -> sorted_above (verified_last_key st) (concat chunks) ->
  store_fold verify_shard t st objects =
  (t, Ok {| expected_sequence := n + vlen chunks;
            observed_count := foldl (fun n (_ : FactRecord) => u64_wrapping_add n 1) (observed_count st) (concat chunks);
            verified_last_key := last_after (verified_last_key st) (concat chunks) |}).
Proof.
  induction chunks as [|c chunks IH]; intros n [|o objects] st Hp Hr Hn Hb Hf Hs; try done.
  - cbn. rewrite vlen_nil, N.add_0_r, <- Hn. by destruct st.
  - destruct Hp as [Hc Hp]. destruct c as [|f fs]; [done|]. destruct Hr as [Hread Hr]. cbn [concat] in Hf, Hs |- *.
    apply Forall_app in Hf as [Hf1 Hf2]. apply sorted_above_app in Hs as [Hs1 Hs2]. rewrite vlen_cons in Hb |- *.
    cbn [store_fold]. unfold verify_shard at 1. rewrite Hread. cbn [store_bind]. rewrite <- Hn, check_shard_complete by (done || lia).
    cbn [pure_on store_bind]. rewrite (IH (n + 1)); cbn [expected_sequence observed_count verified_last_key]; try done.
    + rewrite Hn. f_equal. f_equal. f_equal; [lia|by rewrite foldl_app|by rewrite last_after_app].
    + by rewrite Hn.
    + lia.
Qed.

Lemma read_available t o message : serves t o (size o) -> exists b, read_as t o message = (t, Ok b).
Proof. intros [b Hb]. exists b. unfold read_as. by rewrite Hb. Qed.

Lemma verify_parent_complete t m chunks :
  generation_ok m chunks -> readable t m chunks -> exists b, verify_parent t m = (t, Ok b).
Proof.
  intros Hg Hr. pose proof (gen_parent _ _ Hg) as Hp. pose proof (readable_parent _ _ _ Hr) as Hs.
  unfold verify_parent. destruct (gm_parent m) as [p|].
  - destruct Hp as [-> ->]. rewrite str_neqb_refl. by apply read_available.
  - rewrite Hp. by exists [].
Qed.

Lemma published_reference limit chunks : forall n objects,
  published_from limit n chunks objects ->
  Forall (fun o => object_schema o = FACT_SHARD_SCHEMA /\ size o <= limit) objects.
Proof.
  induction chunks as [|c chunks IH]; intros n [|o objects] H; try done. destruct H as [Hc H]. constructor; [|by eapply IH].
  destruct c as [|f fs]; [done|]. destruct Hc as [Hc Hlen]. apply for_bytes_ok in Hc as [_ ->]. done.
Qed.

Lemma verify_manifest_complete t m chunks :
  generation_ok m chunks -> readable t m chunks -> verify_manifest t m = (t, Ok tt).
Proof.
  intros Hg Hr. destruct (verify_parent_complete t m chunks Hg Hr) as (b & Hb).
  destruct Hg as [Hsch Hder Hid _ [Ha1 Ha2] Hsh _ _ Hc Hne]. destruct Hr as [_ Hrd Hrr _].
  unfold verify_manifest. rewrite Hsch, Hder, <- Hid, !str_neqb_refl. cbn [orb]. rewrite Hb. cbn [store_bind].
  rewrite verify_attempts_complete by done. cbn [store_bind].
  destruct (read_available t _ "generation derived manifest is unavailable" Hrd) as (b2 & ->). cbn [store_bind].
  destruct (shards m) as [|o os] eqn:Hos; [by destruct chunks|].
  destruct (N.eqb_spec (gm_fact_count m) 0) as [Hz|_]; [rewrite Hc in Hz; by destruct (concat chunks)|].
  cbn [orb]. rewrite (proj2 (existsb_false _ _)); [done|].
  eapply list.Forall_impl; [apply (published_reference _ _ _ _ Hsh)|]. cbn. intros x [-> Hx].
  rewrite str_neqb_refl. by apply N.ltb_ge.
Qed.

Lemma verify_complete t m chunks :
  generation_ok m chunks -> readable t m chunks -> vlen (shards m) <= u32_max -> gm_fact_count m <= u64_max ->
  verify t m = (t, Ok tt).
Proof.
  intros Hg Hr Hb Hcb. unfold verify. rewrite (verify_manifest_complete t m chunks) by done. cbn [store_bind].
  destruct Hg as [_ _ _ _ _ Hsh Hf Ho Hc _].
  rewrite (verify_loop_complete t chunks 0 (shards m)); cbn [expected_sequence observed_count verified_last_key]; try done.
  - pose proof (wrapping_count (concat chunks) 0) as Hw. change (0 mod 2 ^ 64) with 0 in Hw.
    rewrite N.add_0_l, <- Hc, N.mod_small in Hw by (unfold u64_max in Hcb; lia).
    cbn [store_bind observed_count]. by rewrite Hw, N.eqb_refl.
  - by destruct Hr.
  - by rewrite (published_from_length _ _ _ _ Hsh).
  - by apply sorted_above_none.
Qed.

Lemma verify_manifest_ok s m s' :
  verify_manifest s m = (s', Ok tt) ->
  gm_schema m = GENERATION_SCHEMA /\ object_schema (gm_derived m) = DerivedManifest.DERIVED_MANIFEST_SCHEMA /\
  generation_id m = hash (manifest_value (with_generation_id m EmptyString)) /\
  match gm_parent m with
  | Some p => generation_kind m = Delta /\ object_schema p = GENERATION_SCHEMA
  | None => generation_kind m = Full
  end /\ (Forall attempt_ok (attempts m) /\ NoDup (scope_key <$> attempts m)) /\
  gm_fact_count m <> 0 /\ Forall (fun o => object_schema o = FACT_SHARD_SCHEMA) (shards m).
Proof.
  unfold verify_manifest, corrupt. rewrite store_guard_ok, !orb_false_iff, !str_neqb_false. intros (((Hs & Hd) & Hi) & H).
  rewrite store_bind_ok in H. destruct H as (s1 & pb & Hp & H). rewrite store_bind_ok in H.
  destruct H as (s2 & [] & Ha & H). rewrite store_bind_ok in H. destruct H as (s3 & db & _ & H).
  rewrite store_guard_ok, !orb_false_iff, N.eqb_neq, existsb_false in H. destruct H as (((_ & Hz) & Ho) & _).
  split_and!; try done.
  - unfold verify_parent, corrupt in Hp. destruct (gm_parent m) as [p|]; rewrite store_guard_ok in Hp; destruct Hp as [Hg _].
    + rewrite orb_false_iff, negb_false_iff, str_neqb_false in Hg. destruct Hg as [Hk ?].
      by apply bool_decide_eq_true_1 in Hk.
    + apply negb_false_iff in Hg. by apply bool_decide_eq_true_1 in Hg.
  - apply (verify_attempts_ok _ _ _ Ha).
  - apply (verify_attempts_ok _ _ _ Ha).
  - eapply list.Forall_impl; [exact Ho|]. cbn. intros o Hx. rewrite orb_false_iff, str_neqb_false in Hx. by destruct Hx.
Qed.

(** Shards are small, so a generation cannot hold 2^64 facts. *)
Lemma published_count chunks : forall n objects,
  published_from MAX_SHARD_BYTES n chunks objects -> n + vlen chunks <= u32_max + 1 ->
  vlen (concat chunks) <= MAX_SHARD_BYTES * vlen chunks.
Proof.
  induction chunks as [|c chunks IH]; intros n [|o objects] H Hn; try done. destruct H as [Hc H].
  destruct c as [|f fs]; [done|]. destruct Hc as [_ Hc]. rewrite vlen_cons in Hn |- *. cbn [concat].
  rewrite vlen_app. pose proof (shard_holds_fewer n f fs ltac:(lia)). specialize (IH _ _ H ltac:(lia)). lia.
Qed.

Lemma verify_ok s m s' : verify s m = (s', Ok tt) -> exists chunks, generation_ok m chunks.
Proof.
  unfold verify, corrupt. rewrite store_bind_ok. intros (s1 & [] & Hm & H).
  apply verify_manifest_ok in Hm as (? & ? & ? & ? & ? & Hz & Ho). rewrite store_bind_ok in H.
  destruct H as (s2 & st & Hl & H). rewrite store_guard_ok, negb_false_iff, N.eqb_eq in H. destruct H as [Hc _].
  destruct (verify_loop_sound _ _ _ _ Ho Hl) as (chunks & [Hp Hf Hs Hn Hb Hoc _]). exists chunks.
  pose proof (published_count chunks 0 _ Hp ltac:(lia)) as Hsmall.
  assert (gm_fact_count m = vlen (concat chunks)) as Hcount.
  { rewrite <- Hc, Hoc. apply N.mod_small. unfold u32_max, MAX_SHARD_BYTES in *. lia. }
  split; try done; [exact (proj1 (sorted_above_none _) Hs)|]. intros He. rewrite He in Hcount. done.
Qed.
End VerifyLoop.

(* --------------------------------------------------------------------- *)
(** ** Publication *)

Section Publication.
Context {P : Primitives} {R : JsonReader} {S : Type} {C : CasOps S} {L : @CasLaws S P C}.

(** C24: a published generation holds exactly the facts of its runs.  Every run
    reads to its end; the records of all runs, each once, strictly ordered by key,
    are cut into non-empty shards numbered from zero, each at most the limit long
    and named by the hash of its canonical bytes; the manifest counts the facts,
    carries the sorted attempts and its own hash, and is stored under the
    reference of its canonical bytes. *)
Theorem finalize_sound s d ats runs parent limit s' m o :
  finalize_with_limit s d ats runs parent limit = (s', Ok (m, o)) ->
  exists ls chunks, finalized d ats runs parent limit m o ls chunks.
Proof. apply finalize_ok. Qed.

(** C25: what is published does not depend on how the facts were spread over
    runs, nor on the order of runs and attempts: for runs that each hold facts in
    key order and together hold the same distinctly keyed facts, finalization
    does the same to the store and returns the same result, success or error. *)
Theorem finalize_depends_on_facts_only s d ats ats' runs runs' ls ls' parent limit :
  Forall2 holds runs ls -> Forall2 holds runs' ls' -> runs <> [] -> runs' <> [] ->
  Forall increasing ls -> Forall increasing ls' ->
  NoDup (key_of <$> concat ls) -> Permutation (concat ls) (concat ls') ->
  NoDup (attempt_key <$> ats) -> Permutation ats ats' ->
  finalize_with_limit s d ats runs parent limit = finalize_with_limit s d ats' runs' parent limit.
Proof.
  intros Hh Hh' Hne Hne' Hi Hi' Hd Hp Hda Hpa.
  destruct (merge_runs_spec _ _ Hh) as (l & Hl & Hinc & Heq). destruct (merge_runs_spec _ _ Hh') as (l' & Hl' & Hinc' & Heq').
  assert (l = l') as <-.
  { apply (strict_sorted_unique key_of); [by apply Hinc|apply Hinc'; [done|by rewrite <- Hp]|].
    intros x. by rewrite Hl, Hl', Hp. }
  destruct (holds_counts _ _ Hh) as (Hc & _ & _). destruct (holds_counts _ _ Hh') as (Hc' & _ & _).
  assert (checked_total (run_count <$> runs) "fact count overflow" =
          checked_total (run_count <$> runs') "fact count overflow") as Ht.
  { rewrite !checked_total_spec, Hc, Hc'. unfold vlen. by rewrite (Permutation_length Hp). }
  unfold finalize_with_limit. rewrite (sort_by_arrival attempt_key ats ats') by done. rewrite Ht.
  destruct runs as [|r rs]; [done|]. destruct runs' as [|r' rs']; [done|].
  cbn [orb]. destruct (str_neqb _ _); [done|].
  match goal with |- store_bind ?x _ = _ => destruct x as [s1 [pb|]] end; [|done]. cbn [store_bind].
  destruct (_ || _); [done|]. destruct (_ || _); [done|].
  destruct (verify_attempts s1 _) as [s2 [[]|]]; [|done]. cbn [store_bind].
  destruct (pure_on s2 _) as [s3 [n|]]; [|done]. cbn [store_bind].
  destruct (pure_on s3 _) as [s4 [k|]]; [|done]. cbn [store_bind].
  destruct (negb _); [done|]. by rewrite Heq, Heq'.
Qed.
End Publication.

(* --------------------------------------------------------------------- *)
(** ** Reading back *)

Section Reading.
Context {P : Primitives} {R : JsonReader} {S : Type} {C : CasOps S} {L : @CasLaws S P C}.
Context {W : WriterLaws P} {RL : ReaderLaws P R}.

(** C27: verification accepts only generations: whatever the store contains, a
    manifest that verifies has its own hash as identity, a well-formed parent and
    attempts, and its shards are canonical, numbered from zero without gaps, and
    hold exactly as many valid facts as the manifest counts, in strict key order
    across all shards. *)
Theorem verify_sound s m s' :
  verify s m = (s', Ok tt) -> exists chunks, generation_ok m chunks.
Proof. apply verify_ok. Qed.

Section Visitor.
Context {V : Type} (visitor : S -> V -> FactRecord -> (S * V) * Res unit).

Lemma visit_all_app l k : forall s v,
  visit_all visitor s v (l ++ k) =
  match visit_all visitor s v l with ((s', v'), Ok _) => visit_all visitor s' v' k | (sv, Err e) => (sv, Err e) end.
Proof.
  induction l as [|f l IH]; intros s v; cbn; [done|]. destruct (visitor s v f) as [[s' v'] [[]|]]; [apply IH|done].
Qed.

(** The visitor leaves the store as it is on the facts of [l]. *)
Definition only_reads (t : S) (l : list FactRecord) : Prop := forall v f, f ∈ l -> (visitor t v f).1.1 = t.

Lemma visit_all_reads t l : only_reads t l -> forall v, (visit_all visitor t v l).1.1 = t.
Proof.
  induction l as [|f l IH]; intros Ht v; [done|]. cbn. pose proof (Ht v f ltac:(set_solver)) as Hf.
  destruct (visitor t v f) as [[s' v'] [[]|]]; cbn in Hf; subst s'; [|done]. apply IH. intros w g Hg. apply Ht. set_solver.
Qed.

Lemma visit_shards_readable t chunks : forall n objects v,
  published_from MAX_SHARD_BYTES n chunks objects -> shards_readable t n chunks objects ->
  n + vlen chunks <= u32_max + 1 -> Forall fact_ok (concat chunks) -> only_reads t (concat chunks) ->
  visit_shards visitor t v objects = visit_all visitor t v (concat chunks).
Proof.
  induction chunks as [|c chunks IH]; intros n [|o objects] v Hp Hr Hn Hf Ht; try done.
  destruct Hp as [Hc Hp]. destruct c as [|f fs]; [done|]. destruct Hr as [Hread Hr]. rewrite vlen_cons in Hn.
  change (concat ((f :: fs) :: chunks)) with ((f :: fs) ++ concat chunks) in *. apply Forall_app in Hf as [Hf1 Hf2].
  cbn [visit_shards]. rewrite Hread, read_shard_written.
  2: { eapply list.Forall_impl; [exact Hf1|]. by intros g []. }
  2: { change (sh_sequence (shard_of n f fs)) with n. lia. }
  change (sh_facts (shard_of n f fs)) with (f :: fs). rewrite visit_all_app.
  pose proof (visit_all_reads t (f :: fs) ltac:(intros w g Hg; apply Ht; set_solver) v) as Hs.
  destruct (visit_all visitor t v (f :: fs)) as [[s' v'] [[]|]]; cbn in Hs; subst s'; [|done].
  apply (IH (n + 1)); [done|done|lia|done|]. intros w g Hg. apply Ht. set_solver.
Qed.

Lemma visit_facts_readable t m chunks v :
  generation_ok m chunks -> readable t m chunks -> vlen (shards m) <= u32_max -> gm_fact_count m <= u64_max ->
  only_reads t (concat chunks) -> visit_facts visitor t v m = visit_all visitor t v (concat chunks).
Proof.
  intros Hg Hr Hb Hc Ht. unfold visit_facts. rewrite (verify_complete t m chunks) by done.
  destruct Hg as [_ _ _ _ _ Hsh Hf _ _ _]. apply (visit_shards_readable t chunks 0); [done|by destruct Hr| |done|done].
  rewrite (published_from_length _ _ _ _ Hsh). lia.
Qed.
End Visitor.

(** C26: a published generation reads back.  In any store that serves the
    parent, the input manifest, the receipts and the published shards, the
    manifest returned by finalization verifies, and a visitor that leaves the store
    as it is is handed exactly the facts of the runs in strict key order, up to the
    first fact it refuses.
    The bound on the number of shards is real: finalization admits one shard more
    than verification can count. *)
Theorem finalized_generation_reads_back s d ats runs parent limit s' m o :
  finalize_with_limit s d ats runs parent limit = (s', Ok (m, o)) -> vlen (shards m) <= u32_max ->
  exists ls chunks, Forall2 holds runs ls /\ Permutation (concat chunks) (record <$> concat ls) /\
    StronglySorted before (concat chunks) /\
    forall t, readable t m chunks ->
      verify t m = (t, Ok tt) /\
      forall (V : Type) (visitor : S -> V -> FactRecord -> (S * V) * Res unit) v,
        only_reads visitor t (concat chunks) -> visit_facts visitor t v m = visit_all visitor t v (concat chunks).
Proof.
  intros Hfin Hb. destruct (finalize_ok _ _ _ _ _ _ _ _ _ Hfin) as (ls & chunks & [Hls Hp Hg _ _ _]).
  exists ls, chunks. split_and!; [done|done|by destruct Hg|]. intros t Ht.
  assert (gm_fact_count m <= u64_max) as Hc.
  { rewrite (gen_count _ _ Hg). pose proof (gen_shards _ _ Hg) as Hsh.
    pose proof (published_count chunks 0 _ Hsh) as Hle. rewrite (published_from_length _ _ _ _ Hsh) in Hle.
    specialize (Hle ltac:(lia)). unfold MAX_SHARD_BYTES, u32_max, u64_max in *. lia. }
  split; [by eapply verify_complete|]. intros V visitor v Hv. by apply visit_facts_readable.
Qed.
End Reading.

(* --------------------------------------------------------------------- *)
(** ** A generation of two runs *)

Module GenerationExample.
#[export] Instance ops : CasOps CasStore := cas_ops (P := toy) no_sync.
#[export] Instance laws : @CasLaws CasStore toy ops := cas_laws (P := toy) no_sync.
#[export] Existing Instance toy.

Definition put_ok (st : CasStore) (k : string) (b : list byte) : CasStore * CasObject :=
  match put (P := toy) st k b with (st', Ok o) => (st', o) | (st', Err _) => (st', mkCasObject "" "" "" 0) end.
Definition with_derived : CasStore * CasObject :=
  put_ok empty_store DerivedManifest.DERIVED_MANIFEST_SCHEMA (as_bytes "derived").
Definition with_receipt : CasStore * CasObject := put_ok with_derived.1 "test/receipt/1" (as_bytes "complete").
Definition store : CasStore := with_receipt.1.

Definition attempt (n : N) : AttemptAuthority :=
  {| at_compilation_id := "main"; at_capability := "analysis:facts";
     completion := {| scope_digest := hash_bytes (P := toy) []; completeness_receipt := with_receipt.2; fact_count := n |} |}.
Definition run_of (keys : list string) : FactRun :=
  finish (push_all (P := toy) writer_create (FactExample.fact <$> keys)).1.
(** A limit of 600 bytes makes several shards. *)
Definition finalized_from (runs : list FactRun) : CasStore * Res (GenerationManifest * CasObject) :=
  finalize_with_limit store with_derived.2 [attempt 4] runs None 600.
Definition split : list FactRun := [run_of ["b"; "d"]; run_of ["a"; "c"]].
Definition whole : list FactRun := [run_of ["a"; "b"; "c"; "d"]].
Definition result : CasStore * Res (GenerationManifest * CasObject) := finalized_from split.
Definition manifest_of (r : Res (GenerationManifest * CasObject)) : GenerationManifest * CasObject :=
  match r with
  | Ok p => p
  | Err _ => (mkGeneration "" "" (mkCasObject "" "" "" 0) None Full [] [] 0, mkCasObject "" "" "" 0)
  end.
Definition manifest : GenerationManifest := (manifest_of result.2).1.
Definition object : CasObject := (manifest_of result.2).2.

Lemma result_ok : finalize_with_limit store with_derived.2 [attempt 4] split None 600 = (result.1, Ok (manifest, object)).
Proof. vm_compute. reflexivity. Qed.
Example two_shards : (1 < length (shards manifest))%nat.
Proof. vm_compute. lia. Qed.
Example store_reads_back : (verify result.1 manifest).2 = Ok tt.
Proof. vm_compute. reflexivity. Qed.
Example visits_in_order :
  (visit_facts (fun s seen f => ((s, seen ++ [fact_key f]), Ok tt)) result.1 [] manifest) =
  ((result.1, ["a"; "b"; "c"; "d"]), Ok tt).
Proof. vm_compute. reflexivity. Qed.
(** A key that occurs in two runs is refused. *)
Example duplicate_refused : is_ok (finalized_from [run_of ["a"; "b"]; run_of ["b"; "c"]]).2 = false.
Proof. vm_compute. reflexivity. Qed.
End GenerationExample.
Import GenerationExample.

Lemma encoded_run keys :
  Forall fact_typed (FactExample.fact <$> keys) -> Forall fact_admissible (FactExample.fact <$> keys) ->
  StronglySorted before (FactExample.fact <$> keys) -> vlen keys <= u64_max ->
  holds (run_of keys) (encode <$> (FactExample.fact <$> keys)).
Proof.
  intros Ht Ha Hs Hn. unfold run_of, holds.
  rewrite (proj2 (push_all_ok (FactExample.fact <$> keys) writer_create
    {| wr_file := run_bytes (FactExample.fact <$> keys); wr_count := vlen (FactExample.fact <$> keys);
       wr_last_key := last_after None (FactExample.fact <$> keys) |} ltac:(cbn; unfold vlen in *; rewrite length_fmap; lia))).
  - by apply drains_run_bytes.
  - split_and!; try done. by apply sorted_above_none.
Qed.

Lemma interleave {A} (a b c d : A) : Permutation [b; d; a; c] [a; b; c; d].
Proof.
  rewrite (perm_swap a d). rewrite (perm_swap a b). rewrite (perm_swap c d). done.
Qed.

Ltac run_example :=
  apply encoded_run;
  [repeat constructor; vm_compute; discriminate
  |repeat constructor; vm_compute; first [reflexivity|discriminate]
  |repeat constructor
  |vm_compute; discriminate].

Lemma finalize_sound_witness :
  exists ls chunks, finalized with_derived.2 [attempt 4] split None 600 manifest object ls chunks.
Proof. apply (finalize_sound store with_derived.2 [attempt 4] split None 600 result.1). exact result_ok. Defined.

Lemma finalize_depends_on_facts_only_witness : finalized_from split = finalized_from whole.
Proof.
  unfold finalized_from.
  apply (finalize_depends_on_facts_only (P := toy) (R := toy_reader) (C := ops) store with_derived.2 [attempt 4] [attempt 4] split whole
    [encode <$> (FactExample.fact <$> ["b"; "d"]); encode <$> (FactExample.fact <$> ["a"; "c"])]
    [encode <$> (FactExample.fact <$> ["a"; "b"; "c"; "d"])] None 600).
  - repeat constructor; run_example.
  - repeat constructor; run_example.
  - discriminate.
  - discriminate.
  - repeat constructor.
  - repeat constructor.
  - apply NoDup_ListNoDup. vm_compute. repeat constructor; cbn; intuition discriminate.
  - apply interleave.
  - apply NoDup_singleton.
  - reflexivity.
Defined.

Lemma finalized_generation_reads_back_witness :
  exists ls chunks, Forall2 holds split ls /\ Permutation (concat chunks) (record <$> concat ls).
Proof.
  destruct (finalized_generation_reads_back store with_derived.2 [attempt 4] split None 600 result.1 manifest object)
    as (ls & chunks & H1 & H2 & _); [exact result_ok|vm_compute; discriminate|].
  exists ls, chunks. split; [exact H1|exact H2].
Defined.

Lemma verify_sound_witness : exists chunks, generation_ok manifest chunks.
Proof. apply (verify_sound result.1 manifest result.1). vm_compute. reflexivity. Defined.
