(* ===== verification/ShardSize.v ===== *)
(** * The size prediction of the sharder (generation_v2.rs: encoded_shard_len)

    Shards are cut by predicting the length of their encoding without encoding
    them.  The prediction is exact, so the check that guards it never fails. *)

From S2P Require Import Prelude Order Collections Text Json Canonical Instances JsonFormat JsonRead Errors CasObject.
From S2P Require Import CasInterface CasStore AdapterV2 FactRun GenerationV2 FactMerge GenerationSpec.

(* --------------------------------------------------------------------- *)
(** ** The pending shard *)

Section Prediction.
Context {P : Primitives} {R : JsonReader} {W : WriterLaws P} {S : Type} {C : CasOps S}.
Context (limit : N).

Definition canonical_fact (e : EncodedFact) : Prop := bytes e = fact_bytes (record e).

(** The pending shard as the sharder accounts for it. *)
Record fits (st : ShardState) : Prop := mkFits {
  fit_sequence : sequence st <= u32_max;
  fit_canonical : Forall canonical_fact (current st);
  fit_bytes : current_records_bytes st = total_len (bytes <$> current st);
  fit_predicted : match current st with
                  | [] => True
                  | e :: es => encoded_shard_len (sequence st) (key_of e) (key_of (List.last es e))
                                 (current_records_bytes st) (vlen (current st)) <= limit
                  end
}.

Lemma canonical_total l : Forall canonical_fact l -> bytes <$> l = fact_bytes <$> (record <$> l).
Proof. induction 1 as [|e l He Hl IH]; [done|]. by rewrite !fmap_cons, IH, He. Qed.

Lemma last_record es e : List.last (record <$> es) (record e) = record (List.last es e).
Proof. revert e; induction es as [|x [|y es] IH]; intros e; [done|done|]. apply (IH e). Qed.

Lemma fits_publish s st e es : fits st -> current st = e :: es ->
  publish_shard s (sequence st) (current st) limit =
  cas_put s FACT_SHARD_SCHEMA (shard_bytes (shard_of (sequence st) (record e) (record <$> es))).
Proof.
  intros [Hn Hc Hb Hp] He. rewrite He in *. unfold publish_shard.
  rewrite (proj2 (N.ltb_ge _ _)); [done|]. rewrite shard_bytes_len, last_record by done.
  rewrite Hb, canonical_total in Hp by done. rewrite <- fmap_cons. revert Hp. unfold key_of, vlen. by rewrite !length_fmap.
Qed.

Lemma fits_push st fact : sequence st <= u32_max -> Forall canonical_fact (current st) ->
  current_records_bytes st = total_len (bytes <$> current st) -> canonical_fact fact ->
  encoded_shard_len (sequence st) (key_of (List.hd fact (current st))) (key_of fact)
    (current_records_bytes st + vlen (bytes fact)) (vlen (current st) + 1) <= limit ->
  fits {| sequence := sequence st; current := current st ++ [fact];
          current_records_bytes := current_records_bytes st + vlen (bytes fact); published := published st;
          merged_count := u64_wrapping_add (merged_count st) 1; merged_last_key := Some (key_of fact) |}.
Proof.
  intros Hn Hc Hb Hf Hp. split; cbn; [done|by apply Forall_app; split; [|constructor]| |].
  - rewrite Hb, fmap_app, total_len_app. cbn. by rewrite N.add_0_r.
  - destruct (current st) as [|e es]; [done|]. cbn [app]. rewrite List.last_last. change (e :: es ++ [fact]) with ((e :: es) ++ [fact]).
    rewrite vlen_app. done.
Qed.

Lemma absorb_fits s st fact s' st' :
  fits st -> canonical_fact fact -> absorb limit s st fact = (s', Ok st') -> fits st'.
Proof.
  intros [Hn Hc Hb Hp] Hf H. unfold absorb, protocol in H. rewrite store_guard_ok, store_bind_ok in H.
  destruct H as (_ & s1 & st1 & Hcut & H). rewrite store_guard_ok in H. destruct H as (Hone & [= <- <-]).
  destruct (current st) as [|e es] eqn:Hcur.
  - injection Hcut as <- <-. rewrite Hcur in Hone. cbn [andb] in Hone. apply N.ltb_ge in Hone.
    apply fits_push; rewrite ?Hcur; try done. rewrite Hb. exact Hone.
  - destruct (limit <? _) eqn:Hlt.
    + rewrite store_bind_ok in Hcut. destruct Hcut as (s2 & o & _ & Hcut).
      destruct (u32_checked_add (sequence st) 1) as [n|] eqn:Hadd; [|done]. injection Hcut as <- <-.
      apply u32_checked_add_some in Hadd as [-> Hle]. cbn [current andb sequence] in Hone. apply N.ltb_ge in Hone.
      apply (fits_push {| sequence := sequence st + 1; current := []; current_records_bytes := 0;
        published := published st ++ [o]; merged_count := merged_count st; merged_last_key := merged_last_key st |});
        done.
    + injection Hcut as <- <-. apply N.ltb_ge in Hlt. apply fits_push; rewrite ?Hcur; done.
Qed.

(** C29: the sharder's size prediction is exact.  After any number of merged
    facts the pending shard is predicted to stay within the limit and does: its
    publication never ends in the internal error of a size that disagrees with the
    encoding, but stores the canonical shard. *)
Theorem shard_size_prediction_exact s l s' st e es :
  Forall canonical_fact l -> store_fold (absorb limit) s initial_state l = (s', Ok st) -> current st = e :: es ->
  vlen (shard_bytes (shard_of (sequence st) (record e) (record <$> es))) =
    encoded_shard_len (sequence st) (key_of e) (key_of (List.last es e)) (current_records_bytes st) (vlen (current st)) /\
  publish_shard s' (sequence st) (current st) limit =
    cas_put s' FACT_SHARD_SCHEMA (shard_bytes (shard_of (sequence st) (record e) (record <$> es))).
Proof.
  intros Hl H He. assert (fits st) as Hfit.
  { revert Hl. refine (store_fold_inv (absorb limit) (fun pre st => Forall canonical_fact pre -> fits st) l [] s
      initial_state s' st _ _ H).
    - intros pre a s1 st1 s2 st2 IH Ha Hall. apply Forall_app in Hall as [Hpre Hlast]. inversion_clear Hlast.
      eapply absorb_fits; [by apply IH|done|done].
    - intros _. split; cbn; try done. }
  split; [|by apply fits_publish]. destruct Hfit as [Hn Hc Hb _]. rewrite He in *.
  rewrite shard_bytes_len, last_record by done. rewrite Hb, canonical_total by done. unfold key_of, vlen. cbn [length].
  by rewrite length_fmap.
Qed.
End Prediction.

Import GenerationExample.

Lemma shard_size_prediction_exact_witness :
  publish_shard store 0 [encode (FactExample.fact "a")] 600 =
  cas_put store FACT_SHARD_SCHEMA (shard_bytes (shard_of 0 (FactExample.fact "a") [])).
Proof.
  apply (shard_size_prediction_exact 600 store [encode (FactExample.fact "a")] store
    {| sequence := 0; current := [encode (FactExample.fact "a")];
       current_records_bytes := vlen (fact_bytes (FactExample.fact "a")); published := []; merged_count := 1;
       merged_last_key := Some "a" |} (encode (FactExample.fact "a")) []).
  - repeat constructor.
  - vm_compute. reflexivity.
  - reflexivity.
Defined.
