(* ===== verification/QueryShards.v ===== *)
(** * Query shards (query_v2.rs: FactHit, TermPosting, QueryShard, build_bucket)

    The postings of a bucket are cut into shards whose canonical encoding stays
    below a limit.  Sizes are predicted from the size of an empty header; a posting
    that does not fit alone is split into the widest prefixes that fit, found by
    binary search.  Lengths of buffers in memory are added without wrap-around
    where the code adds without a check: a buffer has at most [isize::MAX] bytes. *)

From S2P Require Import Prelude Order Collections Text Json Canonical Instances JsonFormat JsonRead Errors CasObject.
From S2P Require Import CatalogCodec AdapterV2 FactRun.

Definition QUERY_SHARD_SCHEMA : string := "codeclew-query-shard/2.0".
Definition MAX_QUERY_SHARD_BYTES : N := 8 * 1024 * 1024.

Record FactHit : Type := mkFactHit {
  hit_key : string;
  hit_domain : CapabilityUri;
  hit_payload : CasObject
}.
Record TermPosting : Type := mkTermPosting { tp_term : string; tp_facts : list FactHit }.
Record QueryShard : Type := mkQueryShard {
  qs_schema : string;
  qs_bucket : string;
  qs_sequence : N;
  qs_first_term : string;
  qs_last_term : string;
  qs_postings : list TermPosting
}.

(** [Ord for FactHit]: the schema of the reference itself is not compared. *)
Definition HitOrder : Type := string * (string * (string * (string * N))).
Definition hit_order (h : FactHit) : HitOrder :=
  (hit_key h, (hit_domain h, (object_schema (hit_payload h), (digest (hit_payload h), size (hit_payload h))))).
#[export] Instance Ord_FactHit : Ord FactHit := cmp_on hit_order.
#[export] Instance FactHit_eq_dec : EqDecision FactHit.
Proof. solve_decision. Defined.
#[export] Instance TermPosting_eq_dec : EqDecision TermPosting.
Proof. solve_decision. Defined.

(* --------------------------------------------------------------------- *)
(** ** Documents *)

Definition hit_value (h : FactHit) : Value :=
  JObject [("factKey", JString (hit_key h)); ("domainUri", JString (hit_domain h));
           ("payload", cas_object_value (hit_payload h))].
Definition posting_value (p : TermPosting) : Value :=
  JObject [("term", JString (tp_term p)); ("facts", JArray (hit_value <$> tp_facts p))].
Definition query_shard_value (s : QueryShard) : Value :=
  JObject [("schema", JString (qs_schema s)); ("bucket", JString (qs_bucket s));
           ("sequence", JNumber (PosInt (qs_sequence s))); ("firstTerm", JString (qs_first_term s));
           ("lastTerm", JString (qs_last_term s)); ("postings", JArray (posting_value <$> qs_postings s))].

Definition decode_hit (v : Value) : option FactHit :=
  match decode_struct ["factKey"; "domainUri"; "payload"] v with
  | Some [k; d; p] =>
      match decode_string k, decode_capability d, decode_cas_object p with
      | Some k, Some d, Some p => Some {| hit_key := k; hit_domain := d; hit_payload := p |}
      | _, _, _ => None
      end
  | _ => None
  end.
Definition decode_posting (v : Value) : option TermPosting :=
  match decode_struct ["term"; "facts"] v with
  | Some [t; f] =>
      match decode_string t, decode_vec decode_hit f with
      | Some t, Some f => Some {| tp_term := t; tp_facts := f |}
      | _, _ => None
      end
  | _ => None
  end.
Definition decode_query_shard (v : Value) : option QueryShard :=
  match decode_struct ["schema"; "bucket"; "sequence"; "firstTerm"; "lastTerm"; "postings"] v with
  | Some [s; b; n; f; l; p] =>
      match decode_string s, decode_string b, decode_u32 n, decode_string f, decode_string l,
            decode_vec decode_posting p with
      | Some s, Some b, Some n, Some f, Some l, Some p =>
          Some {| qs_schema := s; qs_bucket := b; qs_sequence := n; qs_first_term := f; qs_last_term := l;
                  qs_postings := p |}
      | _, _, _, _, _, _ => None
      end
  | _ => None
  end.

Section Packing.
Context {P : Primitives}.

Definition hit_bytes (h : FactHit) : list byte := value_bytes (hit_value h).
Definition posting_bytes (p : TermPosting) : list byte := value_bytes (posting_value p).
Definition query_shard_bytes (s : QueryShard) : list byte := value_bytes (query_shard_value s).

Definition next_sequence (sequence : N) : Res N :=
  ok_or (u32_checked_add sequence 1) (ClewError_new InvalidInput "query shard sequence overflow").

(** [shard]; the [expect]s hold because callers pass a non-empty list. *)
Definition shard (bucket : string) (sequence : N) (postings : list TermPosting) : QueryShard :=
  {| qs_schema := QUERY_SHARD_SCHEMA; qs_bucket := bucket; qs_sequence := sequence;
     qs_first_term := default EmptyString (tp_term <$> head postings);
     qs_last_term := default EmptyString (tp_term <$> list.last postings);
     qs_postings := postings |}.

Definition encoded_query_shard_len (bucket : string) (sequence : N) (first_term last_term : string)
    (postings_bytes count : N) : Res N :=
  let header := {| qs_schema := QUERY_SHARD_SCHEMA; qs_bucket := bucket; qs_sequence := sequence;
                   qs_first_term := first_term; qs_last_term := last_term; qs_postings := [] |} in
  ok_or (match u64_checked_add (vlen (query_shard_bytes header)) postings_bytes with
         | Some size => u64_checked_add size (count - 1)
         | None => None
         end) (ClewError_new InvalidInput "query shard size overflow").

(* --------------------------------------------------------------------- *)
(** ** Splitting one posting *)

(** The running sizes of the facts: [prefix_bytes[i]] is the size of the first [i]. *)
Definition prefix_sizes (facts : list FactHit) : Res (list N) :=
  try_fold (fun prefix fact =>
    let? next := ok_or (u64_checked_add (default 0 (list.last prefix)) (vlen (hit_bytes fact)))
                   (ClewError_new InvalidInput "query posting size overflow") in
    Ok (prefix ++ [next])) [0] facts.

(** [while low <= high]; the interval shrinks in every round. *)
Fixpoint widest_fitting (fuel : nat) (size : N -> Res N) (limit low high fitting : N) : Res N :=
  if high <? low then Ok fitting else
  match fuel with
  | O => internal "search fuel"
  | S fuel' =>
      let middle := low + (high - low) / 2 in
      let? n := size middle in
      if n <=? limit
      then widest_fitting fuel' size limit (middle + 1) high middle
      else widest_fitting fuel' size limit low (middle - 1) fitting
  end.

Section Split.
Context (bucket : string) (limit : N) (posting : TermPosting).

(** The size of the shard that holds [middle] facts from [start] on. *)
Definition chunk_size (header : N) (prefix : list N) (sequence start middle : N) : Res N :=
  encoded_query_shard_len bucket sequence (tp_term posting) (tp_term posting)
    (header + default 0 (prefix !! N.to_nat (start + middle)) - default 0 (prefix !! N.to_nat start) + middle - 1) 1.

(** [while start < posting.facts.len()]; a round consumes at least one fact. *)
Fixpoint split_from (fuel : nat) (header : N) (prefix : list N) (sequence start : N) (shards : list QueryShard)
  : Res (N * list QueryShard) :=
  let remaining := vlen (tp_facts posting) - start in
  if remaining =? 0 then Ok (sequence, shards) else
  match fuel with
  | O => internal "split fuel"
  | S fuel' =>
      let? fitting := widest_fitting (N.to_nat remaining) (chunk_size header prefix sequence start) limit 1 remaining 0 in
      if fitting =? 0 then resource_limit "one query fact reference exceeds the shard limit"
      else
        let chunk := {| tp_term := tp_term posting;
                        tp_facts := take (N.to_nat fitting) (drop (N.to_nat start) (tp_facts posting)) |} in
        let? sequence' := next_sequence sequence in
        split_from fuel' header prefix sequence' (start + fitting) (shards ++ [shard bucket sequence [chunk]])
  end.

Definition build_split_posting (sequence : N) (shards : list QueryShard) : Res (N * list QueryShard) :=
  let header := vlen (posting_bytes {| tp_term := tp_term posting; tp_facts := [] |}) in
  let? prefix := prefix_sizes (tp_facts posting) in
  split_from (length (tp_facts posting)) header prefix sequence 0 shards.
End Split.

(* --------------------------------------------------------------------- *)
(** ** Packing a bucket *)

Record BucketState : Type := mkBucketState {
  pending : list TermPosting;
  pending_bytes : N;
  cut_shards : list QueryShard;
  next_number : N
}.
Definition bucket_start : BucketState :=
  {| pending := []; pending_bytes := 0; cut_shards := []; next_number := 0 |}.

(** Publishes the pending postings, if any, and starts an empty shard. *)
Definition flush_pending (bucket : string) (st : BucketState) : Res BucketState :=
  match pending st with
  | [] => Ok st
  | _ => let? n := next_sequence (next_number st) in
         Ok {| pending := []; pending_bytes := 0; cut_shards := cut_shards st ++ [shard bucket (next_number st) (pending st)];
               next_number := n |}
  end.

Definition split_into (bucket : string) (limit : N) (st : BucketState) (posting : TermPosting) : Res BucketState :=
  let? '(n, shards) := build_split_posting bucket limit posting (next_number st) (cut_shards st) in
  Ok {| pending := pending st; pending_bytes := pending_bytes st; cut_shards := shards; next_number := n |}.

(** The body of the loop over the postings. *)
Definition pack_posting (bucket : string) (limit : N) (st : BucketState) (posting : TermPosting) : Res BucketState :=
  let bytes := vlen (posting_bytes posting) in
  let alone n := encoded_query_shard_len bucket n (tp_term posting) (tp_term posting) bytes 1 in
  let? single := alone (next_number st) in
  if limit <? single
  then let? st := flush_pending bucket st in split_into bucket limit st posting
  else
    let? st :=
      (match pending st with
       | [] => Ok st
       | first :: _ =>
           let? joint := encoded_query_shard_len bucket (next_number st) (tp_term first) (tp_term posting)
                           (pending_bytes st + bytes) (vlen (pending st) + 1) in
           if limit <? joint then flush_pending bucket st else Ok st
       end) in
    let? oversized :=
      (match pending st with
       | [] => let? single := alone (next_number st) in Ok (limit <? single)
       | _ => Ok false
       end) in
    if oversized then split_into bucket limit st posting
    else Ok {| pending := pending st ++ [posting]; pending_bytes := pending_bytes st + bytes;
               cut_shards := cut_shards st; next_number := next_number st |}.

Definition build_bucket_with_limit (bucket : string) (postings : list TermPosting) (limit : N) : Res (list QueryShard) :=
  let? st := try_fold (pack_posting bucket limit) bucket_start postings in
  match pending st with
  | [] => Ok (cut_shards st)
  | _ => Ok (cut_shards st ++ [shard bucket (next_number st) (pending st)])
  end.

Definition build_bucket (bucket : string) (postings : list TermPosting) : Res (list QueryShard) :=
  build_bucket_with_limit bucket postings MAX_QUERY_SHARD_BYTES.
End Packing.

(* --------------------------------------------------------------------- *)
(** ** The predicted sizes are the sizes *)

Section Sizes.
Context {P : Primitives} {W : WriterLaws P}.

(** The size of the shard header and of the header of a posting. *)
Definition header_len (bucket : string) (n : N) (first last : string) : N :=
  vlen (query_shard_bytes {| qs_schema := QUERY_SHARD_SCHEMA; qs_bucket := bucket; qs_sequence := n;
                             qs_first_term := first; qs_last_term := last; qs_postings := [] |}).
Definition posting_header_len (term : string) : N := vlen (posting_bytes {| tp_term := term; tp_facts := [] |}).

Lemma array_len {A} (encode : A -> Value) l :
  vlen (to_vec (JArray (map sort_value (encode <$> l)))) =
  vlen (to_vec (JArray [])) + total_len ((fun a => value_bytes (encode a)) <$> l) + (vlen l - 1).
Proof.
  rewrite !to_vec_array, !vlen_app, !join_bytes_len.
  replace (to_vec <$> map sort_value (encode <$> l)) with ((fun a => value_bytes (encode a)) <$> l).
  2: { induction l as [|a l IH]; [done|]. rewrite !fmap_cons, IH. done. }
  replace (vlen ((fun a => value_bytes (encode a)) <$> l)) with (vlen l) by (unfold vlen; by rewrite length_fmap).
  change (vlen (as_bytes ",")) with 1. change (vlen (to_vec <$> [])) with 0. cbn [fmap list_fmap total_len foldr]. lia.
Qed.

Lemma total_len_cons b l : total_len (b :: l) = vlen b + total_len l.
Proof. done. Qed.

Lemma posting_sorted p :
  sort_value (posting_value p) =
  JObject [("facts", JArray (map sort_value (hit_value <$> tp_facts p))); ("term", JString (tp_term p))].
Proof. reflexivity. Qed.

Lemma query_shard_sorted s :
  sort_value (query_shard_value s) =
  JObject [("bucket", JString (qs_bucket s)); ("firstTerm", JString (qs_first_term s));
           ("lastTerm", JString (qs_last_term s)); ("postings", JArray (map sort_value (posting_value <$> qs_postings s)));
           ("schema", JString (qs_schema s)); ("sequence", JNumber (PosInt (qs_sequence s)))].
Proof. reflexivity. Qed.

Lemma posting_len term facts :
  vlen (posting_bytes {| tp_term := term; tp_facts := facts |}) =
  posting_header_len term + total_len (hit_bytes <$> facts) + (vlen facts - 1).
Proof.
  unfold posting_header_len, posting_bytes, value_bytes. rewrite !posting_sorted.
  cbn [tp_facts tp_term]. rewrite !to_vec_object, !vlen_app, !join_bytes_len, !fmap_cons. rewrite !total_len_cons.
  cbn [fst snd]. rewrite !vlen_app. pose proof (array_len hit_value facts) as Ha. unfold hit_bytes. rewrite Ha.
  change (map sort_value (hit_value <$> [])) with (@nil Value). rewrite !vlen_cons. lia.
Qed.

Lemma query_shard_len bucket n first last ps :
  vlen (query_shard_bytes {| qs_schema := QUERY_SHARD_SCHEMA; qs_bucket := bucket; qs_sequence := n;
    qs_first_term := first; qs_last_term := last; qs_postings := ps |}) =
  header_len bucket n first last + total_len (posting_bytes <$> ps) + (vlen ps - 1).
Proof.
  unfold header_len, query_shard_bytes, value_bytes. rewrite !query_shard_sorted.
  cbn [qs_bucket qs_first_term qs_last_term qs_postings qs_schema qs_sequence].
  rewrite !to_vec_object, !vlen_app, !join_bytes_len, !fmap_cons. rewrite !total_len_cons.
  cbn [fst snd]. rewrite !vlen_app. pose proof (array_len posting_value ps) as Ha. unfold posting_bytes. rewrite Ha.
  change (map sort_value (posting_value <$> [])) with (@nil Value). rewrite !vlen_cons. lia.
Qed.

Lemma encoded_len_ok bucket n first last b c k :
  encoded_query_shard_len bucket n first last b c = Ok k <->
  k = header_len bucket n first last + b + (c - 1) /\ k <= u64_max.
Proof.
  unfold encoded_query_shard_len. change (vlen (query_shard_bytes _)) with (header_len bucket n first last).
  destruct (u64_checked_add (header_len bucket n first last) b) as [x|] eqn:Hx.
  - apply u64_checked_add_some in Hx as [-> Hx]. cbn [ok_or].
    destruct (u64_checked_add _ (c - 1)) as [y|] eqn:Hy; cbn.
    + apply u64_checked_add_some in Hy as [-> Hy]. split; [intros [= <-]; split; lia|intros [-> _]; done].
    + split; [done|]. intros [-> Hk]. assert (u64_checked_add (header_len bucket n first last + b) (c - 1) =
        Some (header_len bucket n first last + b + (c - 1))) by (by apply u64_checked_add_some). congruence.
  - cbn. split; [done|]. intros [-> Hk].
    assert (u64_checked_add (header_len bucket n first last) b = Some (header_len bucket n first last + b))
      by (apply u64_checked_add_some; split; [done|lia]). congruence.
Qed.

(** Whether the shard number [n] that holds [ps] respects the limit. *)
Definition fits_shard (bucket : string) (limit n : N) (ps : list TermPosting) : Prop :=
  vlen (query_shard_bytes (shard bucket n ps)) <= limit.

Lemma shard_len_cons bucket n p ps :
  vlen (query_shard_bytes (shard bucket n (p :: ps))) =
  header_len bucket n (tp_term p) (tp_term (default p (list.last ps))) + total_len (posting_bytes <$> (p :: ps)) + vlen ps.
Proof.
  unfold shard. rewrite query_shard_len. cbn [head fmap option_fmap option_map default from_option].
  rewrite list.last_cons, vlen_cons. destruct (list.last ps); cbn; lia.
Qed.

Lemma decimal_aux_len f : forall n m a b, n <= m -> (String.length a <= String.length b)%nat ->
  (String.length a <= String.length (decimal_aux f n a) <= String.length (decimal_aux f m b))%nat.
Proof.
  induction f as [|f IH]; intros n m a b Hle Hab; [done|]. cbn [decimal_aux].
  destruct (N.ltb_spec n 10), (N.ltb_spec m 10); cbn [String.length].
  - lia.
  - pose proof (IH (m / 10) (m / 10) (String (ascii_of_N (48 + m mod 10)) b) (String (ascii_of_N (48 + m mod 10)) b)
      (N.le_refl _) (le_n _)) as Hm. cbn [String.length] in Hm. lia.
  - lia.
  - pose proof (IH (n / 10) (m / 10) (String (ascii_of_N (48 + n mod 10)) a) (String (ascii_of_N (48 + m mod 10)) b)) as Hm.
    cbn [String.length] in Hm. specialize (Hm (N.Div0.div_le_mono _ _ _ Hle)). lia.
Qed.

(** A later shard has at least as long a header. *)
Lemma header_len_mono bucket n m first last : n <= m -> m <= u32_max ->
  header_len bucket n first last <= header_len bucket m first last.
Proof.
  intros Hle Hm. assert (str_len (decimal n) <= str_len (decimal m)) as Hd.
  { unfold str_len. pose proof (decimal_aux_len 20 n m EmptyString EmptyString Hle (le_n _)) as Hl. unfold decimal. lia. }
  unfold header_len, query_shard_bytes, value_bytes. rewrite !query_shard_sorted, !to_vec_object, !vlen_app, !join_bytes_len, !fmap_cons.
  cbn [qs_bucket qs_first_term qs_last_term qs_postings qs_schema qs_sequence fst snd].
  rewrite !total_len_cons, !vlen_app, !to_vec_natural, !as_bytes_len by (unfold u32_max, u64_max in *; lia).
  rewrite !vlen_cons. lia.
Qed.

Lemma fits_shard_mono bucket limit n m ps : n <= m -> m <= u32_max ->
  fits_shard bucket limit m ps -> fits_shard bucket limit n ps.
Proof.
  intros Hle Hm. unfold fits_shard, shard. rewrite !query_shard_len.
  pose proof (header_len_mono bucket n m (default EmptyString (tp_term <$> head ps))
    (default EmptyString (tp_term <$> list.last ps)) Hle Hm). lia.
Qed.

Lemma shard_len_one bucket n term facts :
  vlen (query_shard_bytes (shard bucket n [{| tp_term := term; tp_facts := facts |}])) =
  header_len bucket n term term + (posting_header_len term + total_len (hit_bytes <$> facts) + (vlen facts - 1)).
Proof. rewrite shard_len_cons, fmap_cons, total_len_cons, posting_len. change (total_len (posting_bytes <$> [])) with 0. change (vlen (@nil TermPosting)) with 0. cbn [tp_term list.last default from_option]. lia. Qed.

Lemma shard_len_snoc bucket n p ps q :
  vlen (query_shard_bytes (shard bucket n ((p :: ps) ++ [q]))) =
  header_len bucket n (tp_term p) (tp_term q) +
  (total_len (posting_bytes <$> (p :: ps)) + vlen (posting_bytes q)) + (vlen (p :: ps) + 1 - 1).
Proof.
  cbn [app]. rewrite shard_len_cons, list.last_snoc. cbn [default from_option]. rewrite app_comm_cons, fmap_app, total_len_app.
  cbn [fmap list_fmap]. rewrite (total_len_cons (posting_bytes q)). change (total_len []) with 0.
  rewrite vlen_app, (vlen_cons p). change (vlen [q]) with 1. unfold id. lia.
Qed.
End Sizes.

(* --------------------------------------------------------------------- *)
(** ** The search for the widest prefix *)

Lemma midpoint low high : low <= high -> low <= low + (high - low) / 2 <= high.
Proof.
  intros Hle. assert ((high - low) / 2 <= high - low) as Hhalf by (apply N.Div0.div_le_upper_bound; lia).
  revert Hhalf. generalize ((high - low) / 2). intros. lia.
Qed.

(** The result fits, and one more does not. *)
Lemma widest_fitting_ok size limit total fuel : forall low high fitting r,
  low = fitting + 1 -> fitting <= high <= total ->
  (fitting = 0 \/ exists n, size fitting = Ok n /\ n <= limit) ->
  (high = total \/ exists n, size (high + 1) = Ok n /\ limit < n) ->
  widest_fitting fuel size limit low high fitting = Ok r ->
  r <= total /\ (r = 0 \/ exists n, size r = Ok n /\ n <= limit) /\
  (r = total \/ exists n, size (r + 1) = Ok n /\ limit < n).
Proof.
  induction fuel as [|fuel IH]; intros low high fitting r -> Hr Hf Hh; cbn [widest_fitting];
    destruct (N.ltb_spec high (fitting + 1)) as [Hlt|Hge].
  - intros [= <-]. replace high with fitting in * by lia. split_and!; [lia|done|done].
  - done.
  - intros [= <-]. replace high with fitting in * by lia. split_and!; [lia|done|done].
  - set (middle := fitting + 1 + (high - (fitting + 1)) / 2).
    assert (fitting + 1 <= middle <= high) as Hm.
    { by apply midpoint. }
    rewrite result_bind_ok. intros (n & Hn & H). destruct (N.leb_spec n limit).
    + eapply IH; [reflexivity| | | |exact H]; [lia|eauto|done].
    + eapply IH; [reflexivity| | | |exact H]; [lia|done|]. right. exists n. by replace (middle - 1 + 1) with middle by lia.
Qed.

(** The interval shrinks, so the search returns whenever the sizes are defined. *)
Lemma widest_fitting_total size limit total fuel : forall low high fitting,
  (forall k, 1 <= k <= total -> exists n, size k = Ok n) -> 1 <= low -> high <= total ->
  (N.to_nat (high + 1 - low) <= fuel)%nat ->
  exists r, widest_fitting fuel size limit low high fitting = Ok r.
Proof.
  induction fuel as [|fuel IH]; intros low high fitting Hs Hl Hh Hfuel; cbn [widest_fitting];
    destruct (N.ltb_spec high low) as [Hlt|Hge]; try by eexists.
  - lia.
  - set (middle := low + (high - low) / 2).
    assert (low <= middle <= high) as Hm.
    { by apply midpoint. }
    destruct (Hs middle) as [n Hn]; [lia|]. rewrite Hn. cbn [result_bind]. destruct (n <=? limit); apply IH; try done; lia.
Qed.

(* --------------------------------------------------------------------- *)
(** ** What packing produces *)

Section Cut.
Context {P : Primitives} (bucket : string) (limit : N).

(** The facts of one term in consecutive shards, each as full as the limit allows. *)
Inductive split_facts (term : string) : N -> list FactHit -> list QueryShard -> N -> Prop :=
| split_done n : split_facts term n [] [] n
| split_chunk n chunk rest shards m :
    chunk <> [] -> n + 1 <= u32_max ->
    fits_shard bucket limit n [{| tp_term := term; tp_facts := chunk |}] ->
    (forall h, head rest = Some h -> ~ fits_shard bucket limit n [{| tp_term := term; tp_facts := chunk ++ [h] |}]) ->
    split_facts term (n + 1) rest shards m ->
    split_facts term n (chunk ++ rest) (shard bucket n [{| tp_term := term; tp_facts := chunk |}] :: shards) m.

(** A list of postings in consecutive shards: whole postings share a shard, a
    posting that does not fit alone has its own. *)
Inductive cut : N -> list TermPosting -> list QueryShard -> N -> Prop :=
| cut_nil n : cut n [] [] n
| cut_whole n ps rest shards m :
    ps <> [] -> n <= u32_max -> fits_shard bucket limit n ps -> cut (n + 1) rest shards m ->
    cut n (ps ++ rest) (shard bucket n ps :: shards) m
| cut_split n p rest shards k shards' m :
    ~ fits_shard bucket limit n [p] -> split_facts (tp_term p) n (tp_facts p) shards k -> cut k rest shards' m ->
    cut n (p :: rest) (shards ++ shards') m.

Lemma cut_app a s m b t k n : cut n a s m -> cut m b t k -> cut n (a ++ b) (s ++ t) k.
Proof.
  induction 1 as [|n ps rest shards m Hne Hn Hf Hc IH|n p rest shards j shards' m Hf Hs Hc IH]; intros Hb; [done|..].
  - rewrite <- app_assoc. cbn. constructor; auto.
  - rewrite <- app_assoc. cbn. econstructor; eauto.
Qed.

Lemma cut_one n ps : ps <> [] -> n <= u32_max -> fits_shard bucket limit n ps -> cut n ps [shard bucket n ps] (n + 1).
Proof. intros. rewrite <- (app_nil_r ps) at 1. constructor; [done..|constructor]. Qed.
End Cut.

Section PackingLemmas.
Context {P : Primitives} {W : WriterLaws P} (bucket : string) (limit : N).

Lemma prefix_sizes_length facts prefix : prefix_sizes facts = Ok prefix -> length prefix = S (length facts).
Proof.
  intros H. refine (try_fold_inv _ (fun pre prefix => length prefix = S (length pre)) facts [0] prefix [] _ _ H); [done|].
  intros pre a s s' Hs Hstep. rewrite result_bind_ok in Hstep. destruct Hstep as (n & _ & [= <-]).
  rewrite !length_app. cbn. lia.
Qed.

Lemma prefix_sizes_snoc facts h prefix : prefix_sizes facts = Ok prefix ->
  prefix_sizes (facts ++ [h]) =
  (let? next := ok_or (u64_checked_add (default 0 (list.last prefix)) (vlen (hit_bytes h)))
                  (ClewError_new InvalidInput "query posting size overflow") in Ok (prefix ++ [next])).
Proof.
  intros H. unfold prefix_sizes in *. rewrite try_fold_app, H. cbn [result_bind try_fold].
  by destruct (ok_or _ _).
Qed.

Lemma prefix_sizes_ok facts : forall prefix i,
  prefix_sizes facts = Ok prefix -> (i <= length facts)%nat ->
  prefix !! i = Some (total_len (hit_bytes <$> take i facts)).
Proof.
  induction facts as [|h facts IH] using rev_ind; intros prefix i H Hi.
  { injection H as <-. cbn in Hi. by replace i with O by lia. }
  destruct (prefix_sizes facts) as [q|e] eqn:Hq.
  2: { unfold prefix_sizes in *. rewrite try_fold_app, Hq in H. done. }
  rewrite (prefix_sizes_snoc _ _ _ Hq), result_bind_ok in H. destruct H as (n & Hn & [= <-]).
  destruct (u64_checked_add _ _) as [k|] eqn:Hk; [|done]. injection Hn as ->. apply u64_checked_add_some in Hk as [-> _].
  pose proof (prefix_sizes_length _ _ Hq) as Hl. rewrite list.last_lookup, Hl, Nat.pred_succ, (IH q) by done.
  rewrite firstn_all. cbn [default from_option]. rewrite length_app in Hi. cbn in Hi. unfold id.
  destruct (decide (i = S (length facts))) as [->|].
  - rewrite lookup_app_r, Hl, Nat.sub_diag by lia. rewrite take_ge by (rewrite length_app; cbn; lia).
    rewrite fmap_app, total_len_app. change (hit_bytes <$> [h]) with [hit_bytes h]. rewrite total_len_cons.
    change (total_len []) with 0. by rewrite N.add_0_r.
  - rewrite lookup_app_l, take_app_le by lia. apply IH; [done|lia].
Qed.

Lemma prefix_sizes_total facts : total_len (hit_bytes <$> facts) <= u64_max -> exists prefix, prefix_sizes facts = Ok prefix.
Proof.
  induction facts as [|h facts IH] using rev_ind; [by eexists|]. rewrite fmap_app, total_len_app. intros Hb.
  change (hit_bytes <$> [h]) with [hit_bytes h] in Hb. rewrite total_len_cons in Hb. change (total_len []) with 0 in Hb.
  destruct IH as [prefix Hp]; [lia|]. rewrite (prefix_sizes_snoc _ _ _ Hp).
  pose proof (prefix_sizes_length _ _ Hp) as Hl.
  rewrite list.last_lookup, Hl, Nat.pred_succ, (prefix_sizes_ok facts prefix (length facts)), firstn_all by done.
  cbn [default from_option]. unfold id.
  rewrite (proj2 (u64_checked_add_some _ _ _)) by (split; [reflexivity|lia]). by eexists.
Qed.

Lemma next_sequence_ok n m : next_sequence n = Ok m <-> m = n + 1 /\ n + 1 <= u32_max.
Proof.
  unfold next_sequence. rewrite <- u32_checked_add_some. destruct (u32_checked_add n 1); cbn; naive_solver.
Qed.

(** The predicted size of a chunk is its size. *)
Lemma chunk_size_ok posting prefix n start middle k :
  prefix_sizes (tp_facts posting) = Ok prefix -> 1 <= middle -> start + middle <= vlen (tp_facts posting) ->
  chunk_size bucket posting (posting_header_len (tp_term posting)) prefix n start middle = Ok k <->
  k = vlen (query_shard_bytes (shard bucket n [{| tp_term := tp_term posting;
        tp_facts := take (N.to_nat middle) (drop (N.to_nat start) (tp_facts posting)) |}])) /\ k <= u64_max.
Proof.
  intros Hp Hm Hle. unfold chunk_size. rewrite encoded_len_ok, shard_len_one. unfold vlen in Hle.
  rewrite !(prefix_sizes_ok _ _ _ Hp) by lia. cbn [default from_option]. unfold id.
  replace (N.to_nat (start + middle)) with (N.to_nat start + N.to_nat middle)%nat by lia.
  rewrite <- take_take_drop, fmap_app, total_len_app. unfold vlen. rewrite length_take, length_drop.
  set (a := total_len _). set (b := total_len _). set (h := posting_header_len _).
  replace (h + (a + b) - a + middle - 1) with (h + b + (middle - 1)) by lia.
  replace (N.of_nat (N.to_nat middle `min` (length (tp_facts posting) - N.to_nat start))) with middle by lia.
  rewrite N.sub_diag, N.add_0_r. done.
Qed.

Lemma split_from_ok posting prefix shards' m fuel : prefix_sizes (tp_facts posting) = Ok prefix ->
  forall n start shards, start <= vlen (tp_facts posting) ->
  split_from bucket limit posting fuel (posting_header_len (tp_term posting)) prefix n start shards = Ok (m, shards') ->
  exists new, shards' = shards ++ new /\
    split_facts bucket limit (tp_term posting) n (drop (N.to_nat start) (tp_facts posting)) new m.
Proof.
  intros Hp. induction fuel as [|fuel IH]; intros n start shards Hstart; cbn [split_from];
    destruct (N.eqb_spec (vlen (tp_facts posting) - start) 0) as [Hz|Hnz].
  1, 3: intros [= <- <-]; exists []; rewrite app_nil_r, drop_ge by (unfold vlen in *; lia); split; [done|constructor].
  { done. }
  rewrite result_bind_ok. intros (fitting & Hfit & H). apply widest_fitting_ok with (total := vlen (tp_facts posting) - start) in Hfit as (Hle & Hf & Hmax); [|lia|lia|by left|by left].
  unfold resource_limit in H. rewrite guard_ok, N.eqb_neq, result_bind_ok in H. destruct H as (Hne & n' & Hn & H).
  apply next_sequence_ok in Hn as [-> Hx].
  destruct Hf as [?|(k & Hk & Hkl)]; [contradiction|]. apply chunk_size_ok in Hk as [-> _]; [|done|lia|lia].
  apply IH in H as (new & -> & Hnew); [|lia]. rewrite <- app_assoc. eexists. split; [done|]. cbn [app].
  replace (N.to_nat (start + fitting)) with (N.to_nat start + N.to_nat fitting)%nat in Hnew by lia.
  rewrite <- drop_drop in Hnew. rewrite <- (take_drop (N.to_nat fitting) (drop (N.to_nat start) (tp_facts posting))) at 1.
  assert (length (drop (N.to_nat start) (tp_facts posting)) = N.to_nat (vlen (tp_facts posting) - start)) as Hlen.
  { rewrite length_drop. unfold vlen. lia. }
  constructor; [|done|done| |done].
  - intros Hnil%(f_equal length). rewrite length_take, Hlen in Hnil. cbn in Hnil. lia.
  - intros h Hh Hfits. destruct Hmax as [->|(k & Hk & Hkm)].
    { rewrite drop_ge in Hh by lia. done. }
    assert (fitting + 1 <= vlen (tp_facts posting) - start) as Hroom.
    { destruct (decide (fitting = vlen (tp_facts posting) - start)); [|lia]. subst. rewrite drop_ge in Hh by lia. done. }
    apply chunk_size_ok in Hk as [-> _]; [|done|lia|lia]. unfold fits_shard in Hfits.
    replace (N.to_nat (fitting + 1)) with (S (N.to_nat fitting)) in Hkm by lia.
    rewrite head_lookup, lookup_drop, Nat.add_0_r in Hh. rewrite (take_S_r _ _ h) in Hkm by done. lia.
Qed.

Lemma build_split_posting_ok posting n shards m shards' :
  build_split_posting bucket limit posting n shards = Ok (m, shards') ->
  exists new, shards' = shards ++ new /\ split_facts bucket limit (tp_term posting) n (tp_facts posting) new m.
Proof.
  unfold build_split_posting. rewrite result_bind_ok. intros (prefix & Hp & H).
  apply split_from_ok in H as (new & -> & Hs); [|done|lia]. by exists new.
Qed.

Lemma split_facts_sequence term n facts shards m :
  split_facts bucket limit term n facts shards m -> n <= u32_max -> m = n + vlen shards /\ m <= u32_max.
Proof.
  induction 1 as [n|n chunk rest shards m Hne Hn Hf Hmax Hs IH]; intros Hle; [rewrite vlen_nil; lia|].
  rewrite vlen_cons. specialize (IH Hn). lia.
Qed.

(** What the loop maintains about the postings it consumed. *)
Record packed (consumed : list TermPosting) (st : BucketState) : Prop := mkPacked {
  packed_cut : exists done, consumed = done ++ pending st /\ cut bucket limit 0 done (cut_shards st) (next_number st);
  packed_bytes : pending_bytes st = total_len (posting_bytes <$> pending st);
  packed_fits : pending st <> [] -> fits_shard bucket limit (next_number st) (pending st);
  packed_number : next_number st <= u32_max
}.

Lemma flush_pending_packed consumed st st' :
  packed consumed st -> flush_pending bucket st = Ok st' ->
  packed consumed st' /\ pending st' = [] /\ next_number st <= next_number st'.
Proof.
  intros [(done & -> & Hc) Hb Hf Hn]. unfold flush_pending. destruct (pending st) as [|p ps] eqn:Hp.
  { intros [= <-]. split; [|done]. split; rewrite ?Hp; eauto. }
  rewrite result_bind_ok. intros (n & [-> Hle]%next_sequence_ok & [= <-]). split; [|split; [done|cbn; lia]].
  split; cbn [pending pending_bytes cut_shards next_number]; try done.
  exists (done ++ p :: ps). rewrite app_nil_r. split; [done|]. eapply cut_app; [exact Hc|]. apply cut_one; [done|done|auto].
Qed.

Lemma split_into_packed consumed st posting st' :
  packed consumed st -> pending st = [] -> ~ fits_shard bucket limit (next_number st) [posting] ->
  split_into bucket limit st posting = Ok st' -> packed (consumed ++ [posting]) st'.
Proof.
  intros [(done & -> & Hc) Hb Hf Hn] Hp Hno. unfold split_into. rewrite result_bind_ok.
  intros ([n shards] & Hs & [= <-]). apply build_split_posting_ok in Hs as (new & -> & Hs).
  pose proof (split_facts_sequence _ _ _ _ _ Hs Hn) as [_ Hm]. rewrite Hp in *.
  split; cbn [pending pending_bytes cut_shards next_number]; try done.
  exists (done ++ [posting]). rewrite !app_nil_r. split; [done|]. eapply cut_app; [exact Hc|].
  rewrite <- (app_nil_r new). econstructor; [done|done|constructor].
Qed.

Lemma push_packed consumed st posting :
  packed consumed st -> fits_shard bucket limit (next_number st) (pending st ++ [posting]) ->
  packed (consumed ++ [posting])
    {| pending := pending st ++ [posting]; pending_bytes := pending_bytes st + vlen (posting_bytes posting);
       cut_shards := cut_shards st; next_number := next_number st |}.
Proof.
  intros [(done & -> & Hc) Hb Hf Hn] Hfit. split; cbn [pending pending_bytes cut_shards next_number]; try done.
  - exists done. by rewrite app_assoc.
  - rewrite Hb, fmap_app, total_len_app. change (posting_bytes <$> [posting]) with [posting_bytes posting].
    rewrite total_len_cons. change (total_len []) with 0. lia.
Qed.

Lemma alone_fits n posting k :
  encoded_query_shard_len bucket n (tp_term posting) (tp_term posting) (vlen (posting_bytes posting)) 1 = Ok k ->
  (limit <? k) = false <-> fits_shard bucket limit n [posting].
Proof.
  rewrite encoded_len_ok. intros [-> _]. unfold fits_shard. rewrite shard_len_cons, N.ltb_ge, fmap_cons, total_len_cons.
  change (total_len (posting_bytes <$> [])) with 0. change (vlen (@nil TermPosting)) with 0.
  cbn [list.last default from_option]. rewrite !N.sub_diag, !N.add_0_r. done.
Qed.

Lemma alone_not_fits n posting k :
  encoded_query_shard_len bucket n (tp_term posting) (tp_term posting) (vlen (posting_bytes posting)) 1 = Ok k ->
  (limit <? k) = true -> ~ fits_shard bucket limit n [posting].
Proof. intros Hk Ht Hf%(alone_fits _ _ _ Hk). congruence. Qed.

Lemma joint_fits st first rest posting k :
  pending st = first :: rest -> pending_bytes st = total_len (posting_bytes <$> pending st) ->
  encoded_query_shard_len bucket (next_number st) (tp_term first) (tp_term posting)
    (pending_bytes st + vlen (posting_bytes posting)) (vlen (pending st) + 1) = Ok k ->
  (limit <? k) = false -> fits_shard bucket limit (next_number st) (pending st ++ [posting]).
Proof.
  intros Hp Hb. rewrite encoded_len_ok. intros [-> _]. rewrite N.ltb_ge, Hb, Hp. unfold fits_shard.
  by rewrite shard_len_snoc.
Qed.

Lemma pack_posting_packed consumed st posting st' :
  packed consumed st -> pack_posting bucket limit st posting = Ok st' -> packed (consumed ++ [posting]) st'.
Proof.
  intros Hst. unfold pack_posting. rewrite result_bind_ok. intros (single & Hsingle & H).
  destruct (limit <? single) eqn:Hbig.
  { rewrite result_bind_ok in H. destruct H as (st1 & Hflush & H).
    destruct (flush_pending_packed _ _ _ Hst Hflush) as (Hst1 & Hnil & Hle).
    eapply split_into_packed; [done|done| |done]. intros Hfit. eapply alone_not_fits; [done|done|].
    eapply fits_shard_mono; [exact Hle|apply Hst1|done]. }
  rewrite result_bind_ok in H. destruct H as (st1 & Hst1 & H).
  rewrite result_bind_ok in H. destruct H as (oversized & Hover & H).
  assert (packed consumed st1 /\ (pending st1 <> [] -> fits_shard bucket limit (next_number st1) (pending st1 ++ [posting])))
    as [Hst1' Hjoint].
  { destruct (pending st) as [|first rest] eqn:Hp; [injection Hst1 as <-; by rewrite Hp|].
    rewrite result_bind_ok in Hst1. destruct Hst1 as (joint & Hj & Hst1). rewrite <- Hp in Hj.
    destruct (limit <? joint) eqn:Hjl.
    - destruct (flush_pending_packed _ _ _ Hst Hst1) as (? & -> & _). done.
    - injection Hst1 as <-. split; [done|]. intros _. eapply joint_fits; [done|apply Hst|done|done]. }
  destruct (pending st1) as [|first rest] eqn:Hp.
  - rewrite result_bind_ok in Hover. destruct Hover as (single' & Hsingle' & [= <-]).
    destruct (limit <? single') eqn:Hb'.
    + eapply split_into_packed; [done|done| |done]. by eapply alone_not_fits.
    + injection H as <-. pose proof (push_packed consumed st1 posting Hst1') as Hpush. rewrite Hp in Hpush. apply Hpush.
      by eapply alone_fits.
  - injection Hover as <-. injection H as <-. pose proof (push_packed consumed st1 posting Hst1') as Hpush.
    rewrite Hp in Hpush. apply Hpush. by apply Hjoint.
Qed.

(** The shards of a bucket are a cut of its postings. *)
Lemma build_bucket_cut postings shards :
  build_bucket_with_limit bucket postings limit = Ok shards -> exists m, cut bucket limit 0 postings shards m.
Proof.
  unfold build_bucket_with_limit. rewrite result_bind_ok. intros (st & Hfold & H).
  assert (packed postings st) as [(done & -> & Hc) _ Hf Hn].
  { refine (try_fold_inv _ packed postings bucket_start st [] _ _ Hfold).
    - split; cbn; try done. exists []. split; [done|constructor].
    - intros pre a s s'. apply pack_posting_packed. }
  destruct (pending st) as [|p ps] eqn:Hp; injection H as <-.
  - rewrite app_nil_r. eauto.
  - eexists. eapply cut_app; [exact Hc|]. apply cut_one; [done|done|auto].
Qed.

(* --------------------------------------------------------------------- *)
(** ** Packing succeeds *)

Lemma total_len_elem b (l : list (list byte)) : b ∈ l -> vlen b <= total_len l.
Proof. induction 1 as [b l|b c l _ IH]; rewrite total_len_cons; lia. Qed.

Lemma total_len_chunk (facts : list FactHit) k j : total_len (hit_bytes <$> take k (drop j facts)) <= total_len (hit_bytes <$> facts).
Proof.
  rewrite <- (take_drop j facts) at 2. rewrite <- (take_drop k (drop j facts)) at 2. rewrite !fmap_app, !total_len_app. lia.
Qed.

Definition weight (ps : list TermPosting) : N := foldr (fun p n => vlen (tp_facts p) + 1 + n) 0 ps.

Lemma weight_app a b : weight (a ++ b) = weight a + weight b.
Proof. unfold weight. induction a as [|p a IH]; cbn; [done|]. rewrite IH. lia. Qed.

Lemma split_facts_count term n facts shards m :
  split_facts bucket limit term n facts shards m -> vlen shards <= vlen facts.
Proof.
  induction 1 as [n|n chunk rest shards m Hne Hn Hf Hmax Hs IH]; [done|]. rewrite vlen_cons, vlen_app.
  destruct chunk; [done|]. rewrite vlen_cons. lia.
Qed.

(** Every fact of a posting fits into a shard of its own, whatever its number. *)
Definition facts_fit (p : TermPosting) : Prop :=
  Forall (fun h => fits_shard bucket limit u32_max [{| tp_term := tp_term p; tp_facts := [h] |}]) (tp_facts p).

Lemma split_from_total posting prefix : prefix_sizes (tp_facts posting) = Ok prefix -> facts_fit posting ->
  header_len bucket u32_max (tp_term posting) (tp_term posting) + vlen (posting_bytes posting) <= u64_max ->
  forall fuel n start shards, start <= vlen (tp_facts posting) -> n + (vlen (tp_facts posting) - start) <= u32_max ->
  (length (tp_facts posting) <= fuel + N.to_nat start)%nat ->
  exists r, split_from bucket limit posting fuel (posting_header_len (tp_term posting)) prefix n start shards = Ok r.
Proof.
  intros Hp Hfit Hmem. induction fuel as [|fuel IH]; intros n start shards Hstart Hn Hfuel; cbn [split_from];
    destruct (N.eqb_spec (vlen (tp_facts posting) - start) 0) as [Hz|Hnz]; try by eexists.
  { unfold vlen in *. lia. }
  assert (forall k, 1 <= k <= vlen (tp_facts posting) - start -> exists x,
    chunk_size bucket posting (posting_header_len (tp_term posting)) prefix n start k = Ok x) as Hsize.
  { intros k Hk. eexists. apply chunk_size_ok; [done|lia|lia|]. split; [done|]. rewrite shard_len_one.
    pose proof (header_len_mono bucket n u32_max (tp_term posting) (tp_term posting)) as Hh.
    pose proof (total_len_chunk (tp_facts posting) (N.to_nat k) (N.to_nat start)) as Ht.
    destruct posting as [term facts]. cbn [tp_term tp_facts] in *. rewrite posting_len in Hmem.
    assert (vlen (take (N.to_nat k) (drop (N.to_nat start) facts)) <= vlen facts) as Hv.
    { unfold vlen. rewrite length_take, length_drop. lia. }
    lia. }
  destruct (widest_fitting_total (chunk_size bucket posting (posting_header_len (tp_term posting)) prefix n start) limit
    (vlen (tp_facts posting) - start) (N.to_nat (vlen (tp_facts posting) - start)) 1 (vlen (tp_facts posting) - start) 0)
    as [fitting Hw]; [done|lia|lia|lia|].
  rewrite Hw. cbn [result_bind].
  apply widest_fitting_ok with (total := vlen (tp_facts posting) - start) in Hw as (Hle & _ & Hmax); [|lia|lia|by left|by left].
  destruct (N.eqb_spec fitting 0) as [->|Hne].
  - exfalso. destruct Hmax as [?|(k & Hk & Hkl)]; [lia|]. rewrite N.add_0_l in Hk.
    apply chunk_size_ok in Hk as [-> _]; [|done|lia|lia].
    destruct (drop (N.to_nat start) (tp_facts posting)) as [|h rest] eqn:Hd.
    { apply (f_equal length) in Hd. rewrite length_drop in Hd. unfold vlen in *. cbn in Hd. lia. }
    change (take (N.to_nat 1) (h :: rest)) with [h] in Hkl.
    assert (h ∈ tp_facts posting) as Hin by (rewrite <- (take_drop (N.to_nat start) (tp_facts posting)), Hd; set_solver).
    unfold facts_fit in Hfit. rewrite list.Forall_forall in Hfit. specialize (Hfit h Hin).
    apply (fits_shard_mono _ _ n) in Hfit; [|lia|lia]. unfold fits_shard in Hfit. lia.
  - rewrite (proj2 (next_sequence_ok n (n + 1))) by (split; [done|lia]). cbn [result_bind]. apply IH; lia.
Qed.

Lemma build_split_posting_total posting n shards :
  facts_fit posting -> n + vlen (tp_facts posting) <= u32_max ->
  header_len bucket u32_max (tp_term posting) (tp_term posting) + vlen (posting_bytes posting) <= u64_max ->
  exists r, build_split_posting bucket limit posting n shards = Ok r.
Proof.
  intros Hf Hn Hm. unfold build_split_posting. destruct (prefix_sizes_total (tp_facts posting)) as [prefix Hp].
  { destruct posting as [term facts]. cbn [tp_term tp_facts] in *. rewrite posting_len in Hm. lia. }
  rewrite Hp. cbn [result_bind]. apply split_from_total; [done|done|done|lia|lia|lia].
Qed.

(** The bucket can be encoded in memory and its shards can be numbered. *)
Record addressable (postings : list TermPosting) : Prop := mkAddressable {
  addr_facts : Forall facts_fit postings;
  addr_count : weight postings <= u32_max;
  addr_bytes : forall p q, p ∈ postings -> q ∈ postings ->
    header_len bucket u32_max (tp_term p) (tp_term q) + total_len (posting_bytes <$> postings) + vlen postings <= u64_max
}.

(** The shards cut so far and the pending one are numbered by what was consumed. *)
Definition numbered (consumed : list TermPosting) (st : BucketState) : Prop :=
  next_number st + (match pending st with [] => 0 | _ => 1 end) <= weight consumed.

Lemma flush_pending_total consumed st :
  packed consumed st -> numbered consumed st -> weight consumed <= u32_max ->
  exists st', flush_pending bucket st = Ok st' /\ packed consumed st' /\ pending st' = [] /\ numbered consumed st'.
Proof.
  intros Hp Hn Hw. assert (exists st', flush_pending bucket st = Ok st' /\ numbered consumed st') as (st' & Hf & Hn').
  { unfold flush_pending, numbered in *. destruct (pending st) as [|p ps] eqn:E; [exists st; by rewrite E|].
    rewrite (proj2 (next_sequence_ok _ (next_number st + 1))) by (split; [done|lia]). cbn [result_bind].
    eexists. split; [done|]. cbn. lia. }
  exists st'. destruct (flush_pending_packed _ _ _ Hp Hf) as (? & ? & _). done.
Qed.

Lemma split_into_total consumed st posting :
  packed consumed st -> pending st = [] -> numbered consumed st -> weight (consumed ++ [posting]) <= u32_max ->
  facts_fit posting ->
  header_len bucket u32_max (tp_term posting) (tp_term posting) + vlen (posting_bytes posting) <= u64_max ->
  exists st', split_into bucket limit st posting = Ok st' /\ numbered (consumed ++ [posting]) st'.
Proof.
  intros Hp Hnil Hn Hw Hf Hm. unfold numbered in *. rewrite Hnil in Hn. rewrite weight_app in *. cbn [weight foldr] in *.
  destruct (build_split_posting_total posting (next_number st) (cut_shards st)) as [[m shards] Hs]; [done|lia|done|].
  unfold split_into. rewrite Hs. cbn [result_bind]. eexists. split; [done|]. cbn [pending next_number]. rewrite Hnil.
  apply build_split_posting_ok in Hs as (new & _ & Hs). pose proof (split_facts_count _ _ _ _ _ Hs).
  apply split_facts_sequence in Hs as [-> _]; [|apply Hp]. lia.
Qed.

Lemma encoded_total n a b bytes count : n <= u32_max ->
  header_len bucket u32_max a b + bytes + count <= u64_max -> exists k, encoded_query_shard_len bucket n a b bytes count = Ok k.
Proof.
  intros Hn Hle. eexists. apply encoded_len_ok. split; [done|]. pose proof (header_len_mono bucket n u32_max a b Hn). lia.
Qed.

Lemma pack_posting_total pre posting post st :
  addressable (pre ++ posting :: post) -> packed pre st -> numbered pre st ->
  exists st', pack_posting bucket limit st posting = Ok st' /\ numbered (pre ++ [posting]) st'.
Proof.
  intros [Hfit Hcount Hbytes] Hst Hnum. pose proof (packed_number _ _ Hst) as Hn.
  assert (weight (pre ++ [posting]) <= u32_max) as Hw.
  { rewrite weight_app in *. cbn [weight foldr] in *. fold weight in Hcount. lia. }
  assert (weight pre <= u32_max) as Hw' by (rewrite weight_app in Hw; lia).
  assert (facts_fit posting) as Hf by (apply Forall_app in Hfit as [_ Hfit]; by inversion Hfit).
  assert (posting ∈ pre ++ posting :: post) as Hin by set_solver.
  assert (forall p, p ∈ pre ++ posting :: post -> header_len bucket u32_max (tp_term p) (tp_term posting) +
    (total_len (posting_bytes <$> pre) + vlen (posting_bytes posting)) + (vlen pre + 1) <= u64_max) as Hroom.
  { intros p Hpin. specialize (Hbytes p posting Hpin Hin). rewrite fmap_app, fmap_cons, total_len_app, total_len_cons,
      vlen_app, vlen_cons in Hbytes. lia. }
  pose proof (Hroom posting Hin) as Halone.
  assert (forall n, n <= u32_max -> exists k, encoded_query_shard_len bucket n (tp_term posting) (tp_term posting)
    (vlen (posting_bytes posting)) 1 = Ok k) as Hone by (intros; apply encoded_total; [done|lia]).
  unfold pack_posting. destruct (Hone (next_number st) Hn) as [single Hsingle]. rewrite Hsingle. cbn [result_bind].
  destruct (flush_pending_total pre st Hst Hnum Hw') as (st1 & Hflush & Hst1 & Hnil1 & Hnum1).
  destruct (limit <? single).
  { rewrite Hflush. cbn [result_bind]. apply split_into_total; try done. lia. }
  assert (exists st2, (match pending st with
     | [] => Ok st
     | first :: _ =>
         let? joint := encoded_query_shard_len bucket (next_number st) (tp_term first) (tp_term posting)
                         (pending_bytes st + vlen (posting_bytes posting)) (vlen (pending st) + 1) in
         if limit <? joint then flush_pending bucket st else Ok st
     end) = Ok st2 /\ packed pre st2 /\ numbered pre st2) as (st2 & -> & Hst2 & Hnum2).
  { destruct (pending st) as [|first rest] eqn:Hp; [by exists st|].
    destruct (packed_cut _ _ Hst) as (done & Hpre & _). rewrite Hp in Hpre.
    assert (total_len (posting_bytes <$> (first :: rest)) <= total_len (posting_bytes <$> pre) /\ vlen (first :: rest) <= vlen pre)
      as [Hb Hv] by (rewrite Hpre, fmap_app, total_len_app, vlen_app; lia).
    destruct (encoded_total (next_number st) (tp_term first) (tp_term posting)
      (pending_bytes st + vlen (posting_bytes posting)) (vlen (first :: rest) + 1)) as [joint ->]; [done| |].
    { rewrite (packed_bytes _ _ Hst), Hp. specialize (Hroom first). rewrite Hpre in Hroom at 1.
      specialize (Hroom ltac:(set_solver)). lia. }
    cbn [result_bind]. destruct (limit <? joint); [by exists st1|by exists st]. }
  cbn [result_bind]. pose proof (packed_number _ _ Hst2) as Hn2. destruct (Hone (next_number st2) Hn2) as [single' Hs'].
  destruct (pending st2) as [|first rest] eqn:Hp.
  - rewrite Hs'. cbn [result_bind]. destruct (limit <? single').
    + apply split_into_total; try done. lia.
    + eexists. split; [done|]. unfold numbered in *. rewrite Hp in Hnum2. rewrite weight_app. cbn. lia.
  - eexists. split; [done|]. unfold numbered in *. rewrite Hp in Hnum2. rewrite weight_app. cbn. lia.
Qed.

Lemma build_bucket_succeeds postings :
  addressable postings -> exists shards, build_bucket_with_limit bucket postings limit = Ok shards.
Proof.
  intros Ha. assert (forall post pre st, postings = pre ++ post -> packed pre st -> numbered pre st ->
    exists st', try_fold (pack_posting bucket limit) st post = Ok st') as Hall.
  { induction post as [|a post IH]; intros pre st Hpost Hst Hnum; [by eexists|]. cbn [try_fold]. rewrite Hpost in Ha.
    destruct (pack_posting_total pre a post st Ha Hst Hnum) as (st1 & H1 & Hnum1). rewrite H1. cbn [result_bind].
    apply (IH (pre ++ [a])); [by rewrite <- app_assoc|by eapply pack_posting_packed|done]. }
  unfold build_bucket_with_limit. destruct (Hall postings [] bucket_start) as [st ->]; [done| |done|].
  { split; cbn; try done. exists []. split; [done|constructor]. }
  cbn [result_bind]. destruct (pending st); by eexists.
Qed.
End PackingLemmas.

(* --------------------------------------------------------------------- *)
(** ** What the shards of a bucket hold *)

(** The term and hit pairs of a list of postings, in order. *)
Definition pairs (ps : list TermPosting) : list (string * FactHit) :=
  concat ((fun p => pair (tp_term p) <$> tp_facts p) <$> ps).
(** The hits of one term. *)
Definition hits (term : string) (ps : list TermPosting) : list FactHit :=
  (filter (fun e => e.1 = term) (pairs ps)).*2.

Record posting_ok (p : TermPosting) : Prop := mkPostingOk {
  po_term : tp_term p <> EmptyString;
  po_facts : tp_facts p <> [];
  po_sorted : StronglySorted lt_ord (tp_facts p)
}.
Definition term_lt (p q : TermPosting) : Prop := lt_ord (tp_term p) (tp_term q).
Definition postings_ok (ps : list TermPosting) : Prop := StronglySorted term_lt ps /\ Forall posting_ok ps.
Definition shard_order (s : QueryShard) : string * (string * (string * N)) :=
  (qs_bucket s, (qs_first_term s, (qs_last_term s, qs_sequence s))).

Lemma pairs_app a b : pairs (a ++ b) = pairs a ++ pairs b.
Proof. unfold pairs. by rewrite fmap_app, concat_app. Qed.
Lemma pairs_cons p ps : pairs (p :: ps) = (pair (tp_term p) <$> tp_facts p) ++ pairs ps.
Proof. done. Qed.
Lemma hits_app t a b : hits t (a ++ b) = hits t a ++ hits t b.
Proof. unfold hits. by rewrite pairs_app, list.filter_app, fmap_app. Qed.

Lemma filter_term_one (t u : string) (l : list FactHit) :
  (filter (fun e : string * FactHit => e.1 = t) (pair u <$> l)).*2 = if decide (u = t) then l else [].
Proof.
  induction l as [|h l IH]; [by destruct (decide (u = t))|]. rewrite fmap_cons, list.filter_cons. cbn [fst].
  destruct (decide (u = t)); [|done]. rewrite fmap_cons, IH. done.
Qed.

Lemma hits_cons t p ps : hits t (p :: ps) = (if decide (tp_term p = t) then tp_facts p else []) ++ hits t ps.
Proof. unfold hits. by rewrite pairs_cons, list.filter_app, fmap_app, filter_term_one. Qed.

Lemma hits_absent t ps : t ∉ tp_term <$> ps -> hits t ps = [].
Proof.
  induction ps as [|p ps IH]; [done|]. rewrite fmap_cons, not_elem_of_cons, hits_cons. intros [Hne Hn].
  rewrite decide_False by done. by apply IH.
Qed.

Lemma postings_ok_cons p ps : postings_ok (p :: ps) <-> posting_ok p /\ Forall (term_lt p) ps /\ postings_ok ps.
Proof.
  unfold postings_ok. rewrite Forall_cons_iff. split.
  - intros [Hs [Hp Hps]]. inversion_clear Hs. done.
  - intros (Hp & Hl & Hs & Hps). split; [by constructor|done].
Qed.
Lemma postings_ok_app a b :
  postings_ok (a ++ b) <-> postings_ok a /\ postings_ok b /\ (forall p q, p ∈ a -> q ∈ b -> term_lt p q).
Proof. unfold postings_ok. rewrite StronglySorted_app, Forall_app. tauto. Qed.

Lemma postings_distinct p ps : postings_ok (p :: ps) -> tp_term p ∉ tp_term <$> ps.
Proof.
  rewrite postings_ok_cons, list.Forall_forall. intros (_ & Hl & _) (q & Heq & Hq)%list_elem_of_fmap.
  specialize (Hl q Hq). unfold term_lt in Hl. rewrite Heq in Hl. by apply lt_irrefl in Hl.
Qed.

(** [binary_search_by] on a strictly increasing slice finds the only row of a term. *)
Definition find_posting (term : string) (ps : list TermPosting) : option TermPosting :=
  List.find (fun p => str_eqb (tp_term p) term) ps.

Lemma find_posting_hits t ps : postings_ok ps -> default [] (tp_facts <$> find_posting t ps) = hits t ps.
Proof.
  induction ps as [|p ps IH]; [done|]. intros Hok. rewrite hits_cons. unfold find_posting. cbn [List.find].
  destruct (str_eqb (tp_term p) t) eqn:E.
  - apply str_eqb_eq in E as <-. rewrite decide_True by done. rewrite (hits_absent (tp_term p)) by by apply postings_distinct.
    by rewrite app_nil_r.
  - apply str_eqb_false in E. rewrite decide_False by done. apply IH. by apply postings_ok_cons in Hok as (_ & _ & ?).
Qed.

Section CutLemmas.
Context {P : Primitives} (bucket : string) (limit : N).

Lemma split_facts_pairs term n facts shards m :
  split_facts bucket limit term n facts shards m -> pairs (concat (qs_postings <$> shards)) = pair term <$> facts.
Proof.
  induction 1 as [n|n chunk rest shards m Hne Hn Hf Hmax Hs IH]; [done|].
  rewrite fmap_cons. cbn [concat shard qs_postings]. rewrite pairs_app, IH, pairs_cons, fmap_app. cbn [tp_term tp_facts].
  by rewrite app_nil_r.
Qed.

Lemma cut_pairs n ps shards m : cut bucket limit n ps shards m -> pairs (concat (qs_postings <$> shards)) = pairs ps.
Proof.
  induction 1 as [n|n ps rest shards m Hne Hn Hf Hc IH|n p rest shards k shards' m Hf Hs Hc IH]; [done|..].
  - rewrite fmap_cons. cbn [concat shard qs_postings]. by rewrite !pairs_app, IH.
  - rewrite fmap_app, concat_app, pairs_app, IH, (split_facts_pairs _ _ _ _ _ Hs). done.
Qed.

(** A shard of the cut of [ps]. *)
Record shard_of_cut (n : N) (ps : list TermPosting) (s : QueryShard) : Prop := mkShardOfCut {
  soc_shape : s = shard bucket (qs_sequence s) (qs_postings s);
  soc_nonempty : qs_postings s <> [];
  soc_ok : postings_ok (qs_postings s);
  soc_number : n <= qs_sequence s <= u32_max;
  soc_fits : fits_shard bucket limit (qs_sequence s) (qs_postings s);
  soc_terms : tp_term <$> qs_postings s ⊆ tp_term <$> ps;
  soc_hits : forall p h, p ∈ qs_postings s -> h ∈ tp_facts p -> (tp_term p, h) ∈ pairs ps
}.

Lemma shard_of_cut_weaken n n' ps ps' s : n' <= n -> (forall p, p ∈ ps -> p ∈ ps') ->
  shard_of_cut n ps s -> shard_of_cut n' ps' s.
Proof.
  intros Hn Hps [H1 H2 H3 H4 H5 H6 H7]. split; try done; [lia| |].
  - intros t Ht%H6. apply list_elem_of_fmap in Ht as (p & -> & Hp). apply list_elem_of_fmap. eauto.
  - intros p h Hp Hh. specialize (H7 p h Hp Hh). unfold pairs in *. apply list_elem_of_In, in_concat in H7 as (x & Hx & Hin).
    apply list_elem_of_In, in_concat. exists x. split; [|done]. apply list_elem_of_In.
    apply list_elem_of_In, list_elem_of_fmap in Hx as (q & -> & Hq). apply list_elem_of_fmap. eauto.
Qed.

Lemma one_posting_ok term chunk : term <> EmptyString -> chunk <> [] -> StronglySorted lt_ord chunk ->
  postings_ok [{| tp_term := term; tp_facts := chunk |}].
Proof. intros. split; repeat constructor; done. Qed.

Lemma split_facts_shards term n facts shards m :
  term <> EmptyString -> split_facts bucket limit term n facts shards m -> StronglySorted lt_ord facts ->
  Forall (shard_of_cut n [{| tp_term := term; tp_facts := facts |}]) shards /\ n <= m.
Proof.
  intros Ht. induction 1 as [n|n chunk rest shards m Hne Hn Hf Hmax Hs IH]; intros Hsort; [split; [constructor|lia]|].
  apply StronglySorted_app in Hsort as (Hc & Hr & _). destruct (IH Hr) as [Hall Hle]. split; [|lia]. constructor.
  - split; cbn; try done; [by apply one_posting_ok|lia|].
    intros p h ->%list_elem_of_singleton Hh. change ((term, h) ∈ pairs [{| tp_term := term; tp_facts := chunk ++ rest |}]).
    rewrite pairs_cons. apply elem_of_app. left. apply list_elem_of_fmap. exists h. set_solver.
  - eapply list.Forall_impl; [exact Hall|]. intros s [H1 H2 H3 H4 H5 H6 H7]. split; try done; [lia|].
    intros p h Hp Hh. specialize (H7 p h Hp Hh). rewrite pairs_cons in *. cbn in *. rewrite fmap_app. set_solver.
Qed.

Lemma cut_shards_ok n ps shards m : postings_ok ps -> cut bucket limit n ps shards m ->
  Forall (shard_of_cut n ps) shards /\ n <= m.
Proof.
  intros Hok. induction 1 as [n|n ps rest shards m Hne Hn Hf Hc IH|n p rest shards k shards' m Hf Hs Hc IH].
  - split; [constructor|lia].
  - apply postings_ok_app in Hok as (Ha & Hb & _). destruct (IH Hb) as [Hall Hle]. split; [|lia]. constructor.
    + split; cbn; try done; [rewrite fmap_app; set_solver|]. intros p h Hp Hh. rewrite pairs_app. apply elem_of_app. left.
      unfold pairs. apply list_elem_of_In, in_concat. exists (pair (tp_term p) <$> tp_facts p). split.
      * apply list_elem_of_In, list_elem_of_fmap. eauto.
      * apply list_elem_of_In, list_elem_of_fmap. eauto.
    + eapply list.Forall_impl; [exact Hall|]. intros s. apply shard_of_cut_weaken; [lia|set_solver].
  - apply postings_ok_cons in Hok as ([Ht Hfa Hsort] & _ & Hr). destruct (IH Hr) as [Hall Hle].
    destruct (split_facts_shards _ _ _ _ _ Ht Hs Hsort) as [Hnew Hk]. split; [|lia]. apply Forall_app. split.
    + eapply list.Forall_impl; [exact Hnew|]. intros s. apply shard_of_cut_weaken; [lia|]. destruct p. set_solver.
    + eapply list.Forall_impl; [exact Hall|]. intros s. apply shard_of_cut_weaken; [lia|set_solver].
Qed.

Lemma first_term_in n ps s : shard_of_cut n ps s -> qs_first_term s ∈ tp_term <$> ps.
Proof.
  intros [H1 H2 _ _ _ H6 _]. apply H6. rewrite H1. cbn [shard qs_first_term qs_postings].
  destruct (qs_postings s) as [|p q]; [done|]. cbn. set_solver.
Qed.

Lemma last_term_in n ps s : shard_of_cut n ps s -> qs_last_term s ∈ tp_term <$> ps.
Proof.
  intros [H1 H2 _ _ _ H6 _]. apply H6. rewrite H1. cbn [shard qs_last_term qs_postings].
  destruct (list.last (qs_postings s)) as [p|] eqn:E; [|by apply list.last_None in E].
  cbn. apply list_elem_of_fmap. exists p. split; [done|]. apply list.last_Some in E as [l ->]. set_solver.
Qed.

Lemma shard_order_lt s s' : qs_bucket s = qs_bucket s' ->
  lt_ord (qs_first_term s) (qs_first_term s') -> lt_ord (shard_order s) (shard_order s').
Proof. intros Hb Hlt. unfold lt_ord, shard_order. rewrite !cmp_pair, Hb, cmp_refl. by rewrite Hlt. Qed.

Lemma bucket_of_cut n ps s : shard_of_cut n ps s -> qs_bucket s = bucket.
Proof. intros [-> _ _ _ _ _ _]. done. Qed.

Lemma split_facts_order term n facts shards m :
  term <> EmptyString -> split_facts bucket limit term n facts shards m -> StronglySorted lt_ord facts ->
  StronglySorted (fun s s' => lt_ord (shard_order s) (shard_order s')) shards.
Proof.
  intros Ht. induction 1 as [n|n chunk rest shards m Hne Hn Hf Hmax Hs IH]; intros Hsort; [constructor|].
  apply StronglySorted_app in Hsort as (_ & Hr & _). constructor; [by apply IH|].
  destruct (split_facts_shards _ _ _ _ _ Ht Hs Hr) as [Hall _]. eapply list.Forall_impl; [exact Hall|].
  intros s Hsc. pose proof (first_term_in _ _ _ Hsc) as Hfirst. pose proof (last_term_in _ _ _ Hsc) as Hlast.
  cbn in Hfirst, Hlast. apply list_elem_of_singleton in Hfirst, Hlast. unfold lt_ord, shard_order.
  rewrite !cmp_pair, (bucket_of_cut _ _ _ Hsc), Hfirst, Hlast. cbn. unfold cmp, Ord_string. rewrite !string_cmp_refl.
  destruct Hsc. apply N.compare_lt_iff. lia.
Qed.

(** The shards of a bucket come in the order of the index. *)
Lemma cut_order n ps shards m : postings_ok ps -> cut bucket limit n ps shards m ->
  StronglySorted (fun s s' => lt_ord (shard_order s) (shard_order s')) shards.
Proof.
  intros Hok. induction 1 as [n|n ps rest shards m Hne Hn Hf Hc IH|n p rest shards k shards' m Hf Hs Hc IH]; [constructor|..].
  - apply postings_ok_app in Hok as (Ha & Hb & Hlt). constructor; [by apply IH|].
    destruct (cut_shards_ok _ _ _ _ Hb Hc) as [Hall _]. eapply list.Forall_impl; [exact Hall|]. intros s Hsc.
    apply shard_order_lt; [by rewrite (bucket_of_cut _ _ _ Hsc)|]. apply first_term_in in Hsc.
    apply list_elem_of_fmap in Hsc as (q & -> & Hq). destruct ps as [|p ps]; [done|]. apply (Hlt p q); set_solver.
  - apply postings_ok_cons in Hok as ([Ht Hfa Hsort] & Hl & Hr). apply StronglySorted_app. split_and!.
    + by eapply split_facts_order.
    + by apply IH.
    + intros s s' Hin Hin'. destruct (cut_shards_ok _ _ _ _ Hr Hc) as [Hall _].
      destruct (split_facts_shards _ _ _ _ _ Ht Hs Hsort) as [Hnew _]. rewrite list.Forall_forall in Hall. rewrite list.Forall_forall in Hnew. rewrite list.Forall_forall in Hl.
      specialize (Hall s' Hin'). specialize (Hnew s Hin).
      apply shard_order_lt; [by rewrite (bucket_of_cut _ _ _ Hall), (bucket_of_cut _ _ _ Hnew)|].
      apply first_term_in in Hall, Hnew. cbn in Hnew. apply list_elem_of_singleton in Hnew as ->.
      apply list_elem_of_fmap in Hall as (q & -> & Hq). by apply (Hl q).
Qed.
End CutLemmas.

(* --------------------------------------------------------------------- *)
(** ** Packing a bucket is correct *)

Record bucket_shards (bucket : string) {P : Primitives} (limit : N) (postings : list TermPosting) (shards : list QueryShard) : Prop := mkBucketShards {
  (** The shards hold the postings, in order and nothing else. *)
  bs_pairs : pairs (concat (qs_postings <$> shards)) = pairs postings;
  (** Every shard is well formed and within the limit. *)
  bs_shards : Forall (shard_of_cut bucket limit 0 postings) shards;
  (** They come in the order of the index. *)
  bs_order : StronglySorted (fun s s' => lt_ord (shard_order s) (shard_order s')) shards;
  (** Split postings are cut at the widest prefixes that fit. *)
  bs_cut : exists m, cut bucket limit 0 postings shards m
}.

Section Correct.
Context {P : Primitives} {W : WriterLaws P}.

Lemma build_bucket_shards bucket limit postings shards : postings_ok postings ->
  build_bucket_with_limit bucket postings limit = Ok shards -> bucket_shards bucket limit postings shards.
Proof.
  intros Hok (m & Hc)%build_bucket_cut. split; [by eapply cut_pairs| |by eapply cut_order|by exists m].
  by destruct (cut_shards_ok _ _ _ _ _ _ Hok Hc).
Qed.

(** Packing a bucket succeeds when every fact fits a shard of its own, and then
    the shards hold exactly the postings in order, each shard is canonical, numbered
    and within the limit, shards come in index order, and postings are split at the
    widest prefixes that fit. *)
Theorem build_bucket_packs bucket limit postings : postings_ok postings ->
  (forall shards, build_bucket_with_limit bucket postings limit = Ok shards -> bucket_shards bucket limit postings shards) /\
  (addressable bucket limit postings -> exists shards, build_bucket_with_limit bucket postings limit = Ok shards).
Proof. intros Hok. split; [intros shards; by apply build_bucket_shards|apply build_bucket_succeeds]. Qed.
End Correct.

Module ShardExample.
Definition hit (k : string) : FactHit :=
  {| hit_key := k; hit_domain := "analysis:facts"; hit_payload := FactExample.object |}.
Definition postings : list TermPosting :=
  [ {| tp_term := "alpha"; tp_facts := [hit "a"; hit "b"; hit "c"] |};
    {| tp_term := "beta"; tp_facts := [hit "a"] |}; {| tp_term := "gamma"; tp_facts := [hit "b"] |} ].

Lemma ok : postings_ok postings.
Proof. split; repeat constructor; try done. Qed.

Lemma fits : addressable (P := toy) "0a" 640 postings.
Proof.
  split.
  - repeat constructor; vm_compute; discriminate.
  - vm_compute. discriminate.
  - assert (Forall (fun p => Forall (fun q => (header_len (P := toy) "0a" u32_max (tp_term p) (tp_term q)
      + total_len (posting_bytes (P := toy) <$> postings) + vlen postings <=? u64_max) = true) postings) postings) as H
      by (repeat constructor; vm_compute; reflexivity).
    intros p q Hp Hq. rewrite list.Forall_forall in H. specialize (H p Hp). rewrite list.Forall_forall in H.
    apply N.leb_le, H, Hq.
Qed.

(** A posting that is too wide is split, small ones share a shard. *)
Example packed_example :
  match build_bucket_with_limit (P := toy) "0a" postings 640 with
  | Ok l => (fun s => (qs_sequence s, (fun p => (tp_term p, length (tp_facts p))) <$> qs_postings s)) <$> l
  | Err _ => []
  end = [(0, [("alpha", 2%nat)]); (1, [("alpha", 1%nat)]); (2, [("beta", 1%nat); ("gamma", 1%nat)])].
Proof. vm_compute. reflexivity. Qed.
End ShardExample.

Lemma build_bucket_packs_witness :
  exists shards, build_bucket_with_limit (P := toy) "0a" ShardExample.postings 640 = Ok shards /\
    bucket_shards (P := toy) "0a" 640 ShardExample.postings shards.
Proof.
  destruct (build_bucket_packs (P := toy) "0a" 640 ShardExample.postings ShardExample.ok) as [Hsound Htotal].
  destruct (Htotal ShardExample.fits) as [shards H]. exists shards. split; [exact H|by apply Hsound].
Defined.
