(* ===== verification/QueryTerms.v ===== *)
(** * Query terms (query_v2.rs: normalization, aliases, metadata of facts)

    A fact is found by words: the words of its key, domain and payload strings in
    lower case, the parts of its identifiers, and postings reserved for declaration
    names and identities.  Characters are Unicode code points decoded from the UTF-8
    bytes of a [str]; the Unicode tables of the standard library are parameters. *)

From S2P Require Import Prelude Order Collections Text Json Canonical Errors AdapterV2 FactRun CasObject Paths.

Definition MAX_QUERY_METADATA_PAYLOAD_BYTES : N := 64 * 1024.

(* --------------------------------------------------------------------- *)
(** ** Characters *)

Definition of_byte (n : N) (s : string) : string := String (ascii_of_N n) s.

(** [char::encode_utf8]. *)
Definition utf8 (c : N) : string :=
  if c <? 128 then of_byte c EmptyString
  else if c <? 2048 then of_byte (192 + c / 64) (of_byte (128 + c mod 64) EmptyString)
  else if c <? 65536
  then of_byte (224 + c / 4096) (of_byte (128 + c / 64 mod 64) (of_byte (128 + c mod 64) EmptyString))
  else of_byte (240 + c / 262144) (of_byte (128 + c / 4096 mod 64)
         (of_byte (128 + c / 64 mod 64) (of_byte (128 + c mod 64) EmptyString))).

(** [str::chars]; the bytes of a [str] are always well-formed UTF-8. *)
Fixpoint chars (s : string) : list N :=
  match s with
  | EmptyString => []
  | String a s1 =>
      let x := N_of_ascii a in
      if x <? 128 then x :: chars s1 else
      match s1 with
      | EmptyString => []
      | String b s2 =>
          let y := N_of_ascii b - 128 in
          if x <? 224 then ((x - 192) * 64 + y) :: chars s2 else
          match s2 with
          | EmptyString => []
          | String c s3 =>
              let z := N_of_ascii c - 128 in
              if x <? 240 then ((x - 224) * 4096 + y * 64 + z) :: chars s3 else
              match s3 with
              | EmptyString => []
              | String d s4 => ((x - 240) * 262144 + y * 4096 + z * 64 + (N_of_ascii d - 128)) :: chars s4
              end
          end
      end
  end.

(** [iter.collect::<String>()]. *)
Definition of_chars (l : list N) : string := foldr (fun c s => utf8 c +:+ s) EmptyString l.

Class Unicode := {
  to_lowercase : N -> list N;
  is_alphanumeric : N -> bool;
  is_uppercase : N -> bool;
  is_lowercase : N -> bool;
  is_numeric : N -> bool
}.

Definition underscore : N := 95.

Section Terms.
Context {U : Unicode}.

Definition word_char (c : N) : bool := is_alphanumeric c || (c =? underscore).
(** [value.chars().flat_map(char::to_lowercase)]. *)
Definition lower (value : string) : list N := concat (to_lowercase <$> chars value).

(* --------------------------------------------------------------------- *)
(** ** Normalization *)

(** [current.push(character)]; a word that outgrows 256 bytes starts over. *)
Definition push_bounded (current : string) (c : N) : string :=
  let current := current +:+ utf8 c in
  if 256 <? str_len current then EmptyString else current.

Definition normalize_char (st : BTreeSet string * string) (c : N) : BTreeSet string * string :=
  let '(terms, current) := st in
  if word_char c then (terms, push_bounded current c)
  else if negb (str_is_empty current)
  then if 2 <=? str_len current then (bset_insert current terms, EmptyString) else (terms, EmptyString)
  else (terms, current).

Definition normalize_value (terms : BTreeSet string) (value : string) : BTreeSet string :=
  let '(terms, current) := foldl normalize_char (terms, EmptyString) (lower value) in
  if 2 <=? str_len current then bset_insert current terms else terms.

Definition normalize_terms (values : list string) : list string := foldl normalize_value [] values.

(* --------------------------------------------------------------------- *)
(** ** Parts of identifiers *)

Definition insert_identifier_alias (characters : list N) (output : BTreeSet string) : BTreeSet string :=
  let alias := of_chars (concat (to_lowercase <$> characters)) in
  if (2 <=? str_len alias) && (str_len alias <=? 256) then bset_insert alias output else output.

Definition boundary (previous current : N) (next : option N) : bool :=
  is_uppercase current
  && (is_lowercase previous || is_numeric previous
      || (is_uppercase previous && match next with Some n => is_lowercase n | None => false end)).

(** The loop over the characters of a component: [run] is [characters[start..index]]. *)
Fixpoint split_words (run : list N) (previous : N) (rest : list N) : list (list N) :=
  match rest with
  | [] => [run]
  | current :: rest' =>
      if boundary previous current (head rest')
      then run :: split_words [current] current rest'
      else split_words (run ++ [current]) current rest'
  end.

Definition split_component (characters : list N) : list (list N) :=
  match characters with [] => [] | c :: rest => split_words [c] c rest end.

Definition split_identifier (token : string) (output : BTreeSet string) : BTreeSet string :=
  foldl (fun output component =>
    foldl (fun output run => insert_identifier_alias run output) output (split_component (chars component)))
    output (split_char (ascii_of_N underscore) token).

(** The state of the scan: token, whether it overflowed, output. *)
Definition scan_char (st : (string * bool) * BTreeSet string) (c : N) : (string * bool) * BTreeSet string :=
  let '((token, overflowed), output) := st in
  if word_char c
  then if overflowed then st
       else let token := token +:+ utf8 c in
            if 256 <? str_len token then ((EmptyString, true), output) else ((token, false), output)
  else ((EmptyString, false), if overflowed then output else split_identifier token output).

Definition collect_identifier_aliases (output : BTreeSet string) (value : string) : BTreeSet string :=
  let '((token, overflowed), output) := foldl scan_char ((EmptyString, false), output) (chars value) in
  if overflowed then output else split_identifier token output.

Definition normalize_index_terms (values : list string) : list string :=
  foldl collect_identifier_aliases (bset_of_list (normalize_terms values)) values.

(* --------------------------------------------------------------------- *)
(** ** Reserved terms and aliases *)

Definition direct_name_term (term : string) : string := "codeclewdirectname_" +:+ term.

Definition exact_identity_term {P : Primitives} (identity : string) : string :=
  "codeclewexactidentity_" +:+ sha256_hex (as_bytes identity).

(** [term.replace('_', "")]. *)
Fixpoint without_char (c : ascii) (s : string) : string :=
  match s with
  | EmptyString => EmptyString
  | String a s' => if Ascii.eqb a c then without_char c s' else String a (without_char c s')
  end.

Definition query_aliases (term : string) : list string :=
  if contains_char (ascii_of_N underscore) term then
    let collapsed := without_char (ascii_of_N underscore) term in
    if (2 <=? str_len collapsed) && str_neqb collapsed term then [collapsed] else []
  else [].

(* --------------------------------------------------------------------- *)
(** ** Metadata of a fact *)

Definition is_canonical_digest (value : string) : bool := digest_by_slice value.

Definition semantic_fact_key (value : string) : string :=
  match rsplit_once ":" value with
  | None => value
  | Some (prefix, suffix) =>
      if (str_len suffix =? 64) && str_all lower_hex_byte suffix then prefix else value
  end.

(** [value.rsplit(['/', '.']).next()]: what follows the last separator. *)
Fixpoint after_last (sep : ascii -> bool) (s : string) : string :=
  match s with
  | EmptyString => EmptyString
  | String a s' => if str_any sep s' then after_last sep s' else if sep a then s' else s
  end.

Definition get_str (key : string) (payload : list (string * Value)) : option string :=
  match map_get key payload with Some v => as_str v | None => None end.

Definition kotlin_compiler_identity (payload : list (string * Value)) : option string :=
  match get_str "declarationKind" payload with
  | Some kind =>
      if str_eqb kind "CLASS" then get_str "compilerClassId" payload
      else if str_eqb kind "FUNCTION" || str_eqb kind "CONSTRUCTOR" || str_eqb kind "PROPERTY"
              || str_eqb kind "MUTABLE_PROPERTY"
      then get_str "compilerCallableId" payload
      else None
  | None => None
  end.

Definition kotlin_declaration_name (payload : list (string * Value)) : option string :=
  match kotlin_compiler_identity payload with
  | Some identity =>
      let name := after_last (fun a => Ascii.eqb a "/" || Ascii.eqb a ".") identity in
      if str_is_empty name then None else Some name
  | None => None
  end.

Definition option_list {A} (o : option A) : list A := match o with Some a => [a] | None => [] end.

Definition declaration_identifiers (payload : list (string * Value)) : BTreeSet string :=
  bset_extend
    (bset_of_list (filter (fun value => str_is_empty value = false)
      (concat ((fun key => option_list (get_str key payload)) <$> ["name"; "qualifiedName"; "symbolIdentity"]))))
    (option_list (kotlin_compiler_identity payload) ++ option_list (kotlin_declaration_name payload)).

Fixpoint collect_json_strings (value : Value) (output : BTreeSet string) (depth : N) : Res (BTreeSet string) :=
  if (64 <? depth) || (65536 <? vlen output)
  then resource_limit "fact payload query metadata exceeds limits"
  else
    match value with
    | JString s => Ok (if is_canonical_digest s then output else bset_insert s output)
    | JArray values => try_fold (fun output v => collect_json_strings v output (depth + 1)) output values
    | JObject values => try_fold (fun output e => collect_json_strings e.2 output (depth + 1)) output values
    | _ => Ok output
    end.

(** The terms reserved for the names and identities a payload declares. *)
Definition direct_terms {P : Primitives} (payload : list (string * Value)) : list string :=
  dedup (sort (
    (exact_identity_term <$> declaration_identifiers payload)
    ++ concat ((fun name => direct_name_term <$> normalize_index_terms [name])
               <$> (option_list (get_str "name" payload) ++ option_list (kotlin_declaration_name payload))))).

(** What [fact_query_terms] computes from the payload bytes once they are read. *)
Definition document_terms {P : Primitives} (values : BTreeSet string) (document : option Value)
  : Res (list string * list string) :=
  let? '(values, direct) :=
    (match document with
     | Some value =>
         let? values := collect_json_strings value values 0 in
         Ok (values, match value with JObject payload => direct_terms payload | _ => [] end)
     | None => Ok (values, [])
     end) in
  Ok (normalize_index_terms values, direct).
End Terms.

(* --------------------------------------------------------------------- *)
(** ** Encoding round trip *)

Definition is_char (c : N) : Prop := c < 1114112.

Lemma byte_back n : n < 256 -> N_of_ascii (ascii_of_N n) = n.
Proof. apply N_ascii_embedding. Qed.

Lemma div_lt_of a b c : b <> 0 -> a < b * c -> a / b < c.
Proof. intros Hb Ha. apply N.Div0.div_lt_upper_bound. lia. Qed.

Lemma digit_lt a : a mod 64 < 64.
Proof. by apply N.mod_lt. Qed.

Lemma combine2 c : c / 64 * 64 + c mod 64 = c.
Proof. pose proof (N.Div0.div_mod c 64). lia. Qed.

Lemma chars_utf8 c s : is_char c -> chars (utf8 c +:+ s) = c :: chars s.
Proof.
  unfold is_char, utf8. intros Hc. pose proof (digit_lt c) as Hd0. pose proof (digit_lt (c / 64)) as Hd1.
  pose proof (digit_lt (c / 4096)) as Hd2. pose proof (combine2 c) as E0. pose proof (combine2 (c / 64)) as E1.
  pose proof (combine2 (c / 4096)) as E2. rewrite N.Div0.div_div in E1, E2.
  change (64 * 64) with 4096 in E1. change (4096 * 64) with 262144 in E2.
  assert (c < 2048 -> c / 64 < 32) as B1 by (intros; apply div_lt_of; lia).
  assert (c < 65536 -> c / 4096 < 16) as B2 by (intros; apply div_lt_of; lia).
  assert (c / 262144 < 5) as B3 by (apply div_lt_of; lia).
  revert Hd0 Hd1 Hd2 E0 E1 E2 B1 B2 B3. generalize (c / 64) (c / 4096) (c / 262144) (c mod 64) (c / 64 mod 64) (c / 4096 mod 64).
  intros q1 q2 q3 d0 d1 d2 Hd0 Hd1 Hd2 E0 E1 E2 B1 B2 B3.
  destruct (N.ltb_spec c 128) as [H1|H1]; [|destruct (N.ltb_spec c 2048) as [H2|H2]; [|destruct (N.ltb_spec c 65536) as [H3|H3]]];
    unfold of_byte; rewrite !str_cons_app; cbn [chars].
  - rewrite byte_back by lia. by rewrite (proj2 (N.ltb_lt _ _) H1).
  - rewrite !byte_back by lia. rewrite (proj2 (N.ltb_ge (192 + q1) 128)), (proj2 (N.ltb_lt (192 + q1) 224)) by lia.
    f_equal. lia.
  - rewrite !byte_back by lia. rewrite (proj2 (N.ltb_ge (224 + q2) 128)), (proj2 (N.ltb_ge (224 + q2) 224)),
      (proj2 (N.ltb_lt (224 + q2) 240)) by lia.
    f_equal. lia.
  - rewrite !byte_back by lia. rewrite (proj2 (N.ltb_ge (240 + q3) 128)), (proj2 (N.ltb_ge (240 + q3) 224)),
      (proj2 (N.ltb_ge (240 + q3) 240)) by lia.
    f_equal. lia.
Qed.

Lemma chars_of_chars l : Forall is_char l -> chars (of_chars l) = l.
Proof. induction 1 as [|c l Hc Hl IH]; [done|]. cbn [of_chars foldr]. fold (of_chars l). by rewrite chars_utf8, IH. Qed.

Lemma utf8_len c : (1 <= String.length (utf8 c) <= 4)%nat.
Proof. unfold utf8. destruct (c <? 128), (c <? 2048), (c <? 65536); cbn; lia. Qed.


Lemma of_chars_app a b : of_chars (a ++ b) = of_chars a +:+ of_chars b.
Proof.
  unfold of_chars. induction a as [|c a IH]; [done|]. cbn [app foldr]. by rewrite IH, str_app_assoc.
Qed.
Lemma of_chars_snoc a c : of_chars (a ++ [c]) = of_chars a +:+ utf8 c.
Proof. rewrite of_chars_app. cbn. by rewrite str_app_nil. Qed.

(* --------------------------------------------------------------------- *)
(** ** Words *)

Section Words.
Context {U : Unicode}.

(** The maximal runs of word characters, with empty runs between separators. *)
Fixpoint words (run : list N) (l : list N) : list (list N) :=
  match l with
  | [] => [run]
  | c :: l' => if word_char c then words (run ++ [c]) l' else run :: words [] l'
  end.

(** What is left of a run: a run that outgrows 256 bytes starts over. *)
Definition residue (run : list N) : string := foldl push_bounded EmptyString run.
Definition add_word (terms : BTreeSet string) (run : list N) : BTreeSet string :=
  if 2 <=? str_len (residue run) then bset_insert (residue run) terms else terms.

Lemma residue_snoc run c : residue (run ++ [c]) = push_bounded (residue run) c.
Proof. unfold residue. by rewrite foldl_app. Qed.

Lemma normalize_chars l : forall run terms,
  (let '(terms, current) := foldl normalize_char (terms, residue run) l in
   if 2 <=? str_len current then bset_insert current terms else terms) =
  foldl add_word terms (words run l).
Proof.
  induction l as [|c l IH]; intros run terms; [done|]. cbn [foldl words]. unfold normalize_char at 2.
  destruct (word_char c); [by rewrite <- residue_snoc, IH|]. cbn [foldl]. rewrite <- IH. change (residue []) with EmptyString.
  unfold add_word. destruct (str_is_empty (residue run)) eqn:E; cbn [negb].
  - destruct (residue run); [|done]. done.
  - by destruct (2 <=? str_len (residue run)).
Qed.

Lemma normalize_value_words terms value : normalize_value terms value = foldl add_word terms (words [] (lower value)).
Proof. unfold normalize_value. change EmptyString with (residue []). apply normalize_chars. Qed.

Lemma add_words_elem t ws : forall terms, t ∈ foldl add_word terms ws <->
  t ∈ terms \/ exists w, w ∈ ws /\ t = residue w /\ 2 <= str_len t.
Proof.
  induction ws as [|w ws IH]; intros terms; cbn [foldl]; [set_solver|]. rewrite IH. unfold add_word.
  setoid_rewrite elem_of_cons. destruct (N.leb_spec 2 (str_len (residue w))) as [H|H].
  - rewrite bset_insert_elem. split; [|naive_solver]. intros [[->|?]|?]; naive_solver.
  - split; [naive_solver|]. intros [?|(w' & [->|?] & -> & ?)]; [by left|lia|naive_solver].
Qed.

Lemma add_words_wf ws : forall terms, bset_wf terms -> bset_wf (foldl add_word terms ws).
Proof.
  induction ws as [|w ws IH]; intros terms Hw; cbn [foldl]; [done|]. apply IH. unfold add_word.
  destruct (_ <=? _); [by apply bset_insert_wf|done].
Qed.

Lemma normalize_terms_wf values : bset_wf (normalize_terms values).
Proof.
  unfold normalize_terms. assert (forall terms, bset_wf terms -> bset_wf (foldl normalize_value terms values)) as H.
  { induction values as [|v values IH]; intros terms Hw; cbn; [done|]. apply IH. rewrite normalize_value_words. by apply add_words_wf. }
  apply H, bset_nil_wf.
Qed.

(** Membership: a term is what is left of a run of one of the values. *)
Definition has_word (values : list string) (t : string) : Prop :=
  exists v w, v ∈ values /\ w ∈ words [] (lower v) /\ t = residue w /\ 2 <= str_len t.

Lemma normalize_terms_elem values t : t ∈ normalize_terms values <-> has_word values t.
Proof.
  unfold normalize_terms, has_word. assert (forall terms, t ∈ foldl normalize_value terms values <->
    t ∈ terms \/ exists v w, v ∈ values /\ w ∈ words [] (lower v) /\ t = residue w /\ 2 <= str_len t) as H.
  { induction values as [|v values IH]; intros terms; cbn [foldl]; [set_solver|].
    rewrite IH, normalize_value_words, add_words_elem. setoid_rewrite elem_of_cons. naive_solver. }
  rewrite H. set_solver.
Qed.

Lemma residue_suffix run : exists pre suf, run = pre ++ suf /\ residue run = of_chars suf /\ str_len (of_chars suf) <= 256.
Proof.
  induction run as [|c run IH] using rev_ind; [by exists [], []|]. destruct IH as (pre & suf & -> & Hr & Hl).
  rewrite residue_snoc, Hr. unfold push_bounded. rewrite <- of_chars_snoc.
  destruct (N.ltb_spec 256 (str_len (of_chars (suf ++ [c])))).
  - exists ((pre ++ suf) ++ [c]), []. by rewrite app_nil_r.
  - exists pre, (suf ++ [c]). by rewrite app_assoc.
Qed.

Lemma residue_short run : str_len (of_chars run) <= 256 -> residue run = of_chars run.
Proof.
  induction run as [|c run IH] using rev_ind; [done|]. intros H. rewrite residue_snoc, IH.
  - unfold push_bounded. rewrite <- of_chars_snoc. by rewrite (proj2 (N.ltb_ge _ _)).
  - rewrite of_chars_snoc in H. unfold str_len in *. rewrite str_length_app in H. lia.
Qed.

Lemma words_chars l : forall run w, w ∈ words run l -> forall c, c ∈ w -> c ∈ run \/ (c ∈ l /\ word_char c = true).
Proof.
  induction l as [|c l IH]; intros run w; cbn [words]; [set_solver|]. destruct (word_char c) eqn:E.
  - intros Hw d Hd. destruct (IH _ _ Hw d Hd) as [Hin|[Hin ?]]; [|set_solver]. apply elem_of_app in Hin as [?|Hin]; [by left|].
    apply list_elem_of_singleton in Hin as ->. set_solver.
  - rewrite elem_of_cons. intros [->|Hw] d Hd; [by left|]. destruct (IH _ _ Hw d Hd); set_solver.
Qed.

Lemma words_whole l run : Forall (fun c => word_char c = true) l -> words run l = [run ++ l].
Proof.
  revert run; induction l as [|c l IH]; intros run; cbn [words]; [by rewrite app_nil_r|].
  inversion_clear 1 as [|? ? Hc Hl]. rewrite Hc, IH by done. by rewrite <- app_assoc.
Qed.
End Words.

(* --------------------------------------------------------------------- *)
(** ** Normal terms *)

(** What the code relies on of the Unicode tables: lower case yields characters, is
    idempotent, and agrees with ASCII below 128. *)
Class UnicodeLaws (U : Unicode) : Prop := {
  lower_char : forall c d, d ∈ to_lowercase c -> is_char d;
  lower_stable : forall c d, d ∈ to_lowercase c -> to_lowercase d = [d];
  ascii_alphanumeric : forall c, c < 128 -> is_alphanumeric c = is_ascii_alphanumeric (ascii_of_N c);
  ascii_lowercase : forall c, c < 128 -> to_lowercase c = [if is_ascii_uppercase (ascii_of_N c) then c + 32 else c]
}.

Section Normal.
Context {U : Unicode}.

(** A character that may occur in a normalized term. *)
Definition term_char (c : N) : Prop := is_char c /\ to_lowercase c = [c] /\ word_char c = true.

Lemma lower_of_chars l : Forall term_char l -> lower (of_chars l) = l.
Proof.
  intros H. unfold lower. rewrite chars_of_chars by (eapply list.Forall_impl; [exact H|]; by intros c (? & _)).
  induction H as [|c l (_ & Hc & _) _ IH]; [done|]. rewrite fmap_cons. cbn [concat]. by rewrite Hc, IH.
Qed.

Lemma normal_of_chars l : Forall term_char l -> 2 <= str_len (of_chars l) <= 256 ->
  normalize_terms [of_chars l] = [of_chars l].
Proof.
  intros Hl [Hlo Hhi]. unfold normalize_terms. cbn [foldl]. rewrite normalize_value_words, lower_of_chars by done.
  rewrite words_whole by (eapply list.Forall_impl; [exact Hl|]; by intros c (_ & _ & ?)). cbn [app foldl]. unfold add_word.
  rewrite residue_short by done. by rewrite (proj2 (N.leb_le _ _) Hlo).
Qed.

Lemma residue_len run : str_len (residue run) <= 256.
Proof. by destruct (residue_suffix run) as (_ & suf & _ & -> & ?). Qed.

Lemma normalized_len values t : t ∈ normalize_terms values -> 2 <= str_len t <= 256.
Proof. rewrite normalize_terms_elem. intros (v & w & _ & _ & -> & Hlen). split; [done|apply residue_len]. Qed.

(** A string of more than 256 bytes is not normal. *)
Lemma overlong_not_normal t : 256 < str_len t -> normalize_terms [t] <> [t].
Proof. intros Hlen Heq. assert (t ∈ normalize_terms [t]) as Hin by (rewrite Heq; set_solver). apply normalized_len in Hin. lia. Qed.

Context {L : UnicodeLaws U}.

Lemma lower_elem v c : c ∈ lower v -> exists d, c ∈ to_lowercase d.
Proof.
  unfold lower. intros Hc. apply list_elem_of_In, in_concat in Hc as (x & Hx & Hc).
  apply list_elem_of_In, list_elem_of_fmap in Hx as (d & -> & _). exists d. by apply list_elem_of_In.
Qed.

(** A normalized term is made of term characters. *)
Lemma normalized_chars values t : t ∈ normalize_terms values ->
  exists l, t = of_chars l /\ Forall term_char l /\ 2 <= str_len t <= 256.
Proof.
  intros Ht. pose proof (normalized_len _ _ Ht) as Hlen. apply normalize_terms_elem in Ht as (v & w & _ & Hw & -> & _).
  destruct (residue_suffix w) as (pre & suf & -> & Hr & _). exists suf. split; [done|]. split; [|done].
  apply list.Forall_forall. intros c Hc. destruct (words_chars _ _ _ Hw c) as [Hin|[Hin Hword]]; [set_solver|set_solver|].
  apply lower_elem in Hin as [d Hd]. split_and!; [by eapply lower_char|by eapply lower_stable|done].
Qed.

Lemma normalized_normal values t : t ∈ normalize_terms values -> normalize_terms [t] = [t].
Proof. intros (l & -> & Hl & Hlen)%normalized_chars. by apply normal_of_chars. Qed.

Lemma normalize_terms_pointwise values t : t ∈ normalize_terms values <-> exists v, v ∈ values /\ t ∈ normalize_terms [v].
Proof.
  rewrite normalize_terms_elem. setoid_rewrite normalize_terms_elem. unfold has_word. split.
  - intros (v & w & Hv & ?). exists v. split; [done|]. exists v, w. set_solver.
  - intros (v & Hv & v' & w & ->%list_elem_of_singleton & ?). eauto.
Qed.

(** Terms that are each normal are normalized as they are. *)
Lemma normalize_normal l : bset_wf l -> Forall (fun t => normalize_terms [t] = [t]) l -> normalize_terms l = l.
Proof.
  intros Hw Hl. apply bset_ext; [apply normalize_terms_wf|done|]. intros t. rewrite normalize_terms_pointwise.
  rewrite list.Forall_forall in Hl. split.
  - intros (v & Hv & Ht). rewrite (Hl v Hv) in Ht. apply list_elem_of_singleton in Ht. by subst.
  - intros Ht. exists t. split; [done|]. rewrite (Hl t Ht). set_solver.
Qed.

Lemma normalize_idempotent values : normalize_terms (normalize_terms values) = normalize_terms values.
Proof.
  apply normalize_normal; [apply normalize_terms_wf|]. apply list.Forall_forall. intros t. apply normalized_normal.
Qed.

Definition direct_prefix : list N := N_of_ascii <$> String.list_ascii_of_string "codeclewdirectname_".

Lemma direct_prefix_chars : Forall term_char direct_prefix.
Proof.
  assert (forall c, c < 128 -> is_ascii_alphanumeric (ascii_of_N c) || (c =? underscore) = true ->
    is_ascii_uppercase (ascii_of_N c) = false -> term_char c) as H.
  { intros c Hc Hw Hu. split; [unfold is_char; lia|]. unfold word_char. rewrite ascii_lowercase, ascii_alphanumeric, Hu by done. done. }
  unfold direct_prefix. cbn [String.list_ascii_of_string fmap list_fmap]. repeat constructor; apply H; reflexivity.
Qed.

(** The reserved term of a short name is normal. *)
Lemma direct_name_normal values t : t ∈ normalize_terms values -> str_len t <= 237 ->
  normalize_terms [direct_name_term t] = [direct_name_term t].
Proof.
  intros (l & -> & Hl & Hlen)%normalized_chars Hshort.
  replace (direct_name_term (of_chars l)) with (of_chars (direct_prefix ++ l)).
  2: { rewrite of_chars_app. reflexivity. }
  apply normal_of_chars; [apply Forall_app; split; [apply direct_prefix_chars|done]|].
  rewrite of_chars_app. unfold str_len in *. rewrite str_length_app.
  change (String.length (of_chars direct_prefix)) with 19%nat. lia.
Qed.
End Normal.

Lemma direct_name_len t : str_len (direct_name_term t) = str_len t + 19.
Proof. unfold direct_name_term, str_len. rewrite str_length_app. change (String.length "codeclewdirectname_") with 19%nat. lia. Qed.

(* --------------------------------------------------------------------- *)
(** ** Index terms *)

Section IndexTerms.
Context {U : Unicode}.

Definition term_len_ok (t : string) : Prop := 2 <= str_len t <= 256.

(** An operation that only adds terms of bounded length. *)
Definition extends (f : BTreeSet string -> BTreeSet string) : Prop :=
  forall s, (bset_wf s -> bset_wf (f s)) /\ (forall t, t ∈ s -> t ∈ f s) /\
            (Forall term_len_ok s -> Forall term_len_ok (f s)).

Lemma extends_id : extends (fun s => s).
Proof. by intros s. Qed.
Lemma extends_compose f g : extends f -> extends g -> extends (fun s => g (f s)).
Proof. intros Hf Hg s. destruct (Hf s) as (? & ? & ?), (Hg (f s)) as (? & ? & ?). split_and!; auto. Qed.
Lemma extends_foldl {A} (f : BTreeSet string -> A -> BTreeSet string) l :
  (forall a, extends (fun s => f s a)) -> extends (fun s => foldl f s l).
Proof.
  intros Hf. induction l as [|a l IH]; [apply extends_id|]. cbn [foldl]. exact (extends_compose (fun s => f s a) (fun s => foldl f s l) (Hf a) IH).
Qed.

Lemma insert_alias_extends run : extends (insert_identifier_alias run).
Proof.
  intros s. unfold insert_identifier_alias.
  destruct (N.leb_spec 2 (str_len (of_chars (concat (to_lowercase <$> run))))) as [H1|]; cbn [andb]; [|done].
  destruct (N.leb_spec (str_len (of_chars (concat (to_lowercase <$> run)))) 256) as [H2|]; [|done]. split_and!.
  - apply bset_insert_wf.
  - intros t Ht. apply bset_insert_elem. by right.
  - intros Hs. rewrite list.Forall_forall in *. intros t [->|Ht]%bset_insert_elem; [done|by apply Hs].
Qed.

Lemma split_identifier_extends token : extends (split_identifier token).
Proof.
  unfold split_identifier. apply (extends_foldl (fun output component => foldl _ output _)). intros component.
  apply (extends_foldl (fun output run => insert_identifier_alias run output)). intros run. apply insert_alias_extends.
Qed.

Lemma scan_extends l : forall token overflowed,
  extends (fun s => let '((token, overflowed), s) := foldl scan_char ((token, overflowed), s) l in
                    if overflowed then s else split_identifier token s).
Proof.
  induction l as [|c l IH]; intros token overflowed; cbn [foldl].
  - destruct overflowed; [apply extends_id|apply split_identifier_extends].
  - unfold scan_char at 2. destruct (word_char c).
    + destruct overflowed; [apply IH|]. destruct (256 <? _); apply IH.
    + destruct overflowed; [apply IH|].
      exact (extends_compose (split_identifier token) _ (split_identifier_extends token) (IH EmptyString false)).
Qed.

Lemma collect_aliases_extends value : extends (fun s => collect_identifier_aliases s value).
Proof. apply scan_extends. Qed.

Lemma index_terms_extend values :
  bset_wf (normalize_index_terms values) /\ (forall t, t ∈ normalize_terms values -> t ∈ normalize_index_terms values) /\
  Forall term_len_ok (normalize_index_terms values).
Proof.
  unfold normalize_index_terms. rewrite bset_of_list_id by apply normalize_terms_wf.
  destruct (extends_foldl collect_identifier_aliases values collect_aliases_extends (normalize_terms values)) as (H1 & H2 & H3).
  split_and!; [by apply H1, normalize_terms_wf|done|]. apply H3, list.Forall_forall. intros t. apply normalized_len.
Qed.

(** The parts of a component are its characters, cut and nothing lost. *)
Lemma split_words_concat rest : forall run previous, concat (split_words run previous rest) = run ++ rest.
Proof.
  induction rest as [|c rest IH]; intros run previous; cbn [split_words]; [done|].
  destruct (boundary previous c (head rest)); cbn [concat]; rewrite IH; [done|by rewrite <- app_assoc].
Qed.
End IndexTerms.

(** Normalization is exact and idempotent.  The terms of a list of values are, in
    strict order, what is left of the maximal runs of word characters of the values in
    lower case when it has at least two bytes; no term has more than 256 bytes, a run of
    2 to 256 bytes is a term as a whole, every term is also an index term, and
    normalizing terms again changes nothing. *)
Theorem normalize_terms_spec {U : Unicode} {L : UnicodeLaws U} values :
  bset_wf (normalize_terms values) /\
  (forall t, t ∈ normalize_terms values <-> has_word values t) /\
  Forall term_len_ok (normalize_terms values) /\
  (forall v w, v ∈ values -> w ∈ words [] (lower v) -> term_len_ok (of_chars w) -> of_chars w ∈ normalize_terms values) /\
  (forall t, t ∈ normalize_terms values -> t ∈ normalize_index_terms values) /\
  normalize_terms (normalize_terms values) = normalize_terms values.
Proof.
  split_and!; [apply normalize_terms_wf|apply normalize_terms_elem| | |apply index_terms_extend|apply normalize_idempotent].
  - apply list.Forall_forall. intros t. apply normalized_len.
  - intros v w Hv Hw [Hlo Hhi]. apply normalize_terms_elem. exists v, w. by rewrite residue_short.
Qed.

(** The tables restricted to ASCII. *)
Module AsciiTables.
Definition lower_ascii (c : N) : N := if is_ascii_uppercase (ascii_of_N c) && (c <? 128) then c + 32 else c.
Definition tables : Unicode := {|
  to_lowercase c := if c <? 1114112 then [lower_ascii c] else [];
  is_alphanumeric c := (c <? 128) && is_ascii_alphanumeric (ascii_of_N c);
  is_uppercase c := (c <? 128) && is_ascii_uppercase (ascii_of_N c);
  is_lowercase c := (c <? 128) && is_ascii_lowercase (ascii_of_N c);
  is_numeric c := (c <? 128) && is_ascii_digit (ascii_of_N c)
|}.

Lemma lower_ascii_bound c : c < 1114112 -> lower_ascii c < 1114112 /\ lower_ascii (lower_ascii c) = lower_ascii c.
Proof.
  intros Hc. unfold lower_ascii at 1 3 4. destruct (is_ascii_uppercase (ascii_of_N c)) eqn:E; cbn [andb]; [|unfold lower_ascii; by rewrite E].
  destruct (N.ltb_spec c 128) as [Hlt|Hge].
  2: { unfold lower_ascii. rewrite E. cbn [andb]. by rewrite (proj2 (N.ltb_ge _ _) Hge). }
  split; [lia|]. unfold is_ascii_uppercase, ascii_between in E. rewrite N_ascii_embedding in E by lia.
  apply andb_true_iff in E as [E1%N.leb_le E2%N.leb_le]. unfold lower_ascii, is_ascii_uppercase, ascii_between.
  rewrite N_ascii_embedding by lia. by rewrite (proj2 (N.leb_gt (c + 32) 90)), andb_false_r by lia.
Qed.
End AsciiTables.

#[export] Instance ascii_tables_laws : UnicodeLaws AsciiTables.tables.
Proof.
  split; cbn [to_lowercase is_alphanumeric AsciiTables.tables].
  - intros c d. destruct (N.ltb_spec c 1114112); [|set_solver]. intros ->%list_elem_of_singleton. by apply AsciiTables.lower_ascii_bound.
  - intros c d. destruct (N.ltb_spec c 1114112); [|set_solver]. intros ->%list_elem_of_singleton.
    destruct (AsciiTables.lower_ascii_bound c) as [Hb ->]; [done|]. by rewrite (proj2 (N.ltb_lt _ _) Hb).
  - intros c Hc. by rewrite (proj2 (N.ltb_lt _ _) Hc).
  - intros c Hc. rewrite (proj2 (N.ltb_lt c 1114112)) by lia. unfold AsciiTables.lower_ascii.
    rewrite (proj2 (N.ltb_lt _ _) Hc), andb_true_r. done.
Qed.

Example normalized_example :
  normalize_terms (U := AsciiTables.tables) ["Order.findById(x)"; "HTTP_Server2Go a"] = ["findbyid"; "http_server2go"; "order"].
Proof. vm_compute. reflexivity. Qed.
Example index_example :
  normalize_index_terms (U := AsciiTables.tables) ["HTTPServer_findById"] =
  ["by"; "find"; "http"; "httpserver_findbyid"; "id"; "server"].
Proof. vm_compute. reflexivity. Qed.
Example semantic_example : semantic_fact_key "jvm:decl:0123" = "jvm:decl:0123".
Proof. vm_compute. reflexivity. Qed.

Lemma normalize_terms_spec_witness :
  "findbyid" ∈ normalize_terms (U := AsciiTables.tables) ["Order.findById(x)"].
Proof.
  destruct (normalize_terms_spec (U := AsciiTables.tables) ["Order.findById(x)"]) as (_ & _ & _ & Hwhole & _ & _).
  assert ("findbyid" = of_chars (N_of_ascii <$> String.list_ascii_of_string "findbyid")) as -> by (vm_compute; reflexivity).
  apply (Hwhole "Order.findById(x)" (N_of_ascii <$> String.list_ascii_of_string "findbyid")).
  - set_solver.
  - vm_compute. apply list_elem_of_further, list_elem_of_here.
  - vm_compute. split; discriminate.
Defined.
