(* ===== verification/QuerySelect.v ===== *)
(** * Fair selection of facts (query_v2.rs: fair_fact_selection, diversify_fact_families)

    Matches come in one lane per term.  A lane is first rearranged so that its fact
    families alternate; then the lanes are drained in turn into a set until the
    limit is reached.  The definitions are over any ordered element type; a cursor
    of the code is kept as the part of its lane that is not consumed yet. *)

From S2P Require Import Prelude Order Collections Text.

Section Selection.
Context {A : Type} {OA : Ord A} (family : A -> string).

(** [families.entry(key).or_default().insert(fact)]. *)
Definition add_to_family (families : BTreeMap string (BTreeSet A)) (fact : A) : BTreeMap string (BTreeSet A) :=
  bmap_insert (family fact) (bset_insert fact (default [] (bmap_get (family fact) families))) families.

(** [loop]: one fact of every family per round, until a round adds nothing. *)
Fixpoint family_rounds (fuel : nat) (round : nat) (families : list (list A)) (diversified : list A) : list A :=
  match fuel with
  | O => diversified
  | S fuel' =>
      match omap (fun members => members !! round) families with
      | [] => diversified
      | row => family_rounds fuel' (S round) families (diversified ++ row)
      end
  end.

(** A round adds a fact, so there are at most as many rounds as matches. *)
Definition diversify_fact_families (matches : list A) : list A :=
  family_rounds (S (length matches)) 0 (bmap_values (foldl add_to_family [] matches)) [].

(** The inner [while]: skips facts that are selected already. *)
Fixpoint take_next (lane : list A) (selected : BTreeSet A) : (list A * BTreeSet A) * bool :=
  match lane with
  | [] => (([], selected), false)
  | fact :: lane' =>
      if bset_contains fact selected then take_next lane' selected
      else ((lane', bset_insert fact selected), true)
  end.

(** One pass over the lanes; it ends early when the limit is reached. *)
Fixpoint pass (limit : N) (lanes : list (list A)) (selected : BTreeSet A) (progressed : bool)
  : (list (list A) * BTreeSet A) * bool :=
  match lanes with
  | [] => (([], selected), progressed)
  | lane :: rest =>
      let '((lane', selected), more) := take_next lane selected in
      if vlen selected =? limit then ((lane' :: rest, selected), progressed || more)
      else let '((rest', selected), progressed) := pass limit rest selected (progressed || more) in
           ((lane' :: rest', selected), progressed)
  end.

Fixpoint select_rounds (fuel : nat) (limit : N) (lanes : list (list A)) (selected : BTreeSet A) : BTreeSet A :=
  if limit <=? vlen selected then selected else
  match fuel with
  | O => selected
  | S fuel' =>
      let '((lanes, selected), progressed) := pass limit lanes selected false in
      if progressed then select_rounds fuel' limit lanes selected else selected
  end.

(** A pass that progressed consumed a fact, so the facts bound the passes. *)
Definition fair_fact_selection (matches_by_term : list (list A)) (limit : N) : list A :=
  let diversified := diversify_fact_families <$> matches_by_term in
  select_rounds (S (length (concat diversified))) limit diversified [].
End Selection.

(* --------------------------------------------------------------------- *)
(** ** Sizes of sets *)

Section SetSizes.
Context {A : Type} {OA : Ord A}.

Lemma bset_insert_len x (s : list A) : (length s <= length (bset_insert x s) <= S (length s))%nat.
Proof. induction s as [|y s IH]; cbn; [lia|]. destruct (cmp x y); cbn; lia. Qed.

Lemma bset_extend_len (l : list A) : forall s, (length (bset_extend s l) <= length s + length l)%nat.
Proof.
  unfold bset_extend. induction l as [|x l IH]; intros s; cbn; [lia|]. specialize (IH (bset_insert x s)).
  pose proof (bset_insert_len x s). lia.
Qed.

Lemma bset_of_list_len (l : list A) : (length (bset_of_list l) <= length l)%nat.
Proof. apply (bset_extend_len l []). Qed.
End SetSizes.

(* --------------------------------------------------------------------- *)
(** ** Alternating families loses nothing *)

Section Rounds.
Context {A : Type}.

Lemma heads_tails (families : list (list A)) :
  Permutation (omap head families ++ concat (tail <$> families)) (concat families).
Proof.
  induction families as [|[|x f] fs IH]; [done|done|]. cbn. rewrite <- IH. rewrite Permutation_app_swap_app. done.
Qed.

Lemma row_head (families : list (list A)) round : omap (fun members : list A => members !! round) families = omap head (drop round <$> families).
Proof.
  induction families as [|f fs IH]; [done|]. cbn. rewrite IH. by rewrite head_lookup, lookup_drop, Nat.add_0_r.
Qed.

Lemma tail_drop (families : list (list A)) round : tail <$> (drop round <$> families) = drop (S round) <$> families.
Proof.
  rewrite <- list_fmap_compose. apply list_fmap_ext. intros i f _. cbn. change (tail (drop round f)) with (drop 1 (drop round f)).
  by rewrite drop_drop, Nat.add_1_r.
Qed.

Lemma omap_head_nil (fs : list (list A)) : omap head fs = [] -> concat fs = [].
Proof. induction fs as [|[|x f] fs IH]; [done|done|done]. Qed.

Lemma family_rounds_perm (families : list (list A)) : forall fuel round acc,
  (length (concat (drop round <$> families)) < fuel)%nat ->
  Permutation (family_rounds fuel round families acc) (acc ++ concat (drop round <$> families)).
Proof.
  induction fuel as [|fuel IH]; intros round acc Hf; [lia|]. cbn [family_rounds]. rewrite row_head.
  destruct (omap head (drop round <$> families)) as [|x row] eqn:E.
  { rewrite (omap_head_nil _ E). by rewrite app_nil_r. }
  pose proof (heads_tails (drop round <$> families)) as Hp. rewrite E, tail_drop in Hp.
  rewrite IH.
  - rewrite <- app_assoc. by rewrite Hp.
  - apply Permutation_length in Hp. rewrite length_app in Hp. cbn in Hp. lia.
Qed.
End Rounds.

Section Diversify.
Context {A : Type} {OA : Ord A} {L : LawfulOrd A} (family : A -> string).

(** The families of a list of facts. *)
Record families_of (matches : list A) (m : BTreeMap string (BTreeSet A)) : Prop := mkFamiliesOf {
  fo_wf : bmap_wf m;
  fo_sets : forall k s, (k, s) ∈ m -> bset_wf s /\ Forall (fun a => family a = k) s;
  fo_elem : forall a, a ∈ concat (bmap_values m) <-> a ∈ matches
}.

Lemma elem_values a (m : BTreeMap string (BTreeSet A)) : a ∈ concat (bmap_values m) <-> exists k s, (k, s) ∈ m /\ a ∈ s.
Proof.
  unfold bmap_values. rewrite list_elem_of_In, in_concat. split.
  - intros (s & Hs & Ha). apply list_elem_of_In, list_elem_of_fmap in Hs as ([k s'] & -> & Hin). apply list_elem_of_In in Ha. eauto.
  - intros (k & s & Hin & Ha). exists s. split; [|by apply list_elem_of_In]. apply list_elem_of_In, list_elem_of_fmap. by exists (k, s).
Qed.

Lemma add_to_family_spec matches m a : families_of matches m -> families_of (matches ++ [a]) (add_to_family family m a).
Proof.
  intros [Hw Hs He]. unfold add_to_family. set (s0 := default [] (bmap_get (family a) m)).
  assert (bset_wf s0 /\ Forall (fun x => family x = family a) s0 /\
    (forall x, x ∈ s0 <-> exists s, (family a, s) ∈ m /\ x ∈ s)) as (Hw0 & Hf0 & He0).
  { unfold s0. destruct (bmap_get (family a) m) as [s|] eqn:E; cbn.
    - apply bmap_get_elem in E; [|done]. destruct (Hs _ _ E) as [? ?]. split_and!; [done|done|]. intros x. split; [eauto|].
      intros (s' & Hin & Hx). assert (s' = s) as ->; [|done].
      apply bmap_get_elem in E, Hin; [|done..]. congruence.
    - split_and!; [apply bset_nil_wf|constructor|]. intros x. split; [set_solver|]. intros (s & Hin & _).
      apply bmap_get_elem in Hin; [|done]. congruence. }
  pose proof (bmap_insert_wf (family a) (bset_insert a s0) m Hw) as Hw'. split; [done|..].
  - intros k s Hin. apply bmap_get_elem in Hin; [|done]. destruct (decide (k = family a)) as [->|Hne].
    + rewrite bmap_get_insert_eq in Hin. injection Hin as <-. split; [by apply bset_insert_wf|].
      apply list.Forall_forall. intros x [->|Hx]%bset_insert_elem; [done|]. rewrite list.Forall_forall in Hf0. by apply Hf0.
    + rewrite bmap_get_insert_ne in Hin by done. apply bmap_get_elem in Hin; [|done]. by apply Hs.
  - intros x. rewrite elem_of_app, list_elem_of_singleton, <- He, !elem_values. split.
    + intros (k & s & Hin & Hx). apply bmap_get_elem in Hin; [|done]. destruct (decide (k = family a)) as [->|Hne].
      * rewrite bmap_get_insert_eq in Hin. injection Hin as <-. apply bset_insert_elem in Hx as [->|Hx]; [by right|].
        left. apply He0 in Hx as (s & ? & ?). eauto.
      * rewrite bmap_get_insert_ne in Hin by done. apply bmap_get_elem in Hin; [|done]. left; eauto.
    + intros [(k & s & Hin & Hx)| ->].
      * destruct (decide (k = family a)) as [->|Hne].
        -- exists (family a), (bset_insert a s0). split; [apply bmap_get_elem; [done|apply bmap_get_insert_eq]|].
           apply bset_insert_elem. right. apply He0. eauto.
        -- exists k, s. split; [|done]. apply bmap_get_elem; [done|]. rewrite bmap_get_insert_ne by done. by apply bmap_get_elem.
      * exists (family a), (bset_insert a s0). split; [apply bmap_get_elem; [done|apply bmap_get_insert_eq]|].
        apply bset_insert_elem. by left.
Qed.

Lemma families_spec matches : families_of matches (foldl (add_to_family family) [] matches).
Proof.
  induction matches as [|a l IH] using rev_ind.
  - split; [constructor|set_solver|set_solver].
  - rewrite foldl_app. by apply add_to_family_spec.
Qed.

Lemma families_NoDup matches m : families_of matches m -> NoDup (concat (bmap_values m)).
Proof.
  intros [Hw Hs _]. clear matches. induction m as [|[k s] m IH]; [constructor|]. cbn.
  assert (bmap_wf m) as Hwm by (unfold bmap_wf in *; cbn in Hw; by inversion Hw).
  apply list.NoDup_app. split_and!.
  - apply bset_wf_NoDup. apply (Hs k). set_solver.
  - intros a Ha Hin. apply elem_values in Hin as (k' & s' & Hin & Ha').
    destruct (Hs k s) as [_ Hf]; [set_solver|]. destruct (Hs k' s') as [_ Hf']; [set_solver|].
    rewrite list.Forall_forall in Hf. rewrite list.Forall_forall in Hf'. specialize (Hf a Ha). specialize (Hf' a Ha').
    unfold bmap_wf in Hw. cbn in Hw. inversion_clear Hw as [|? ? _ Hlt]. rewrite list.Forall_forall in Hlt.
    assert (k' ∈ m.*1) as Hk' by (apply list_elem_of_fmap; by exists (k', s')). specialize (Hlt k' Hk').
    assert (k' = k) as -> by congruence. by apply lt_irrefl in Hlt.
  - apply IH; [done|]. intros k' s' Hin. apply Hs. set_solver.
Qed.

(** The rearranged lane holds each match once. *)
Lemma diversify_perm matches : Permutation (diversify_fact_families family matches) (bset_of_list matches).
Proof.
  pose proof (families_spec matches) as Hf. set (m := foldl (add_to_family family) [] matches) in *.
  assert (Permutation (concat (bmap_values m)) (bset_of_list matches)) as Hset.
  { apply NoDup_Permutation; [by eapply families_NoDup|apply bset_wf_NoDup, bset_of_list_wf|].
    intros a. rewrite bset_of_list_elem. apply Hf. }
  unfold diversify_fact_families. fold m. rewrite family_rounds_perm; cbn [app].
  - replace (drop 0 <$> bmap_values m) with (bmap_values m); [done|]. symmetry. etransitivity; [|apply list_fmap_id].
    apply list_fmap_ext. by intros i s _.
  - replace (drop 0 <$> bmap_values m) with (bmap_values m).
    2: { symmetry. etransitivity; [|apply list_fmap_id]. apply list_fmap_ext. by intros i s _. }
    apply Permutation_length in Hset. rewrite Hset.
    assert (length (bset_of_list matches) <= length matches)%nat; [|lia].
    apply bset_of_list_len.
Qed.
End Diversify.

(* --------------------------------------------------------------------- *)
(** ** Draining the lanes *)

Section Draining.
Context {A : Type} {OA : Ord A} {L : LawfulOrd A}.
Implicit Types (lane : list A) (lanes : list (list A)) (selected : list A).

(** What one operation on the lanes does: it moves facts from the lanes to the set. *)
Record drained lanes selected lanes' selected' : Prop := mkDrained {
  dr_wf : bset_wf selected -> bset_wf selected';
  dr_grows : forall a, a ∈ selected -> a ∈ selected';
  dr_sound : forall a, a ∈ selected' -> a ∈ selected \/ a ∈ concat lanes;
  dr_rest : forall a, a ∈ concat lanes' -> a ∈ concat lanes;
  dr_keeps : forall a, a ∈ concat lanes -> a ∈ concat lanes' \/ a ∈ selected'
}.

Lemma drained_refl lanes selected : drained lanes selected lanes selected.
Proof. split; auto. Qed.

Lemma drained_trans l1 s1 l2 s2 l3 s3 : drained l1 s1 l2 s2 -> drained l2 s2 l3 s3 -> drained l1 s1 l3 s3.
Proof.
  intros [A1 B1 C1 D1 E1] [A2 B2 C2 D2 E2]. split; [auto..| | |].
  - intros a [Ha|Ha]%C2; [auto|]. right. auto.
  - auto.
  - intros a [Ha|Ha]%E1; [|right; auto]. apply E2 in Ha. tauto.
Qed.

Lemma drained_cons lane rest selected lane' rest' selected1 selected2 :
  drained [lane] selected [lane'] selected1 -> drained rest selected1 rest' selected2 ->
  drained (lane :: rest) selected (lane' :: rest') selected2.
Proof.
  intros [A1 B1 C1 D1 E1] [A2 B2 C2 D2 E2]. cbn [concat] in *. rewrite !app_nil_r in *.
  split; cbn [concat]; [auto|auto| | |].
  - intros a [Ha|Ha]%C2; [apply C1 in Ha; set_solver|set_solver].
  - set_solver.
  - intros a [Ha|Ha]%elem_of_app; [apply E1 in Ha|apply E2 in Ha]; set_solver.
Qed.

(** A lane gives its first fact that is new, or is used up. *)
Lemma take_next_spec lane : forall selected lane' selected' more,
  take_next lane selected = ((lane', selected'), more) ->
  drained [lane] selected [lane'] selected' /\
  (length selected <= length selected' <= S (length selected))%nat /\
  (if more then (length lane' < length lane)%nat else lane' = [] /\ selected' = selected) /\
  (lane <> [] -> exists a, a ∈ lane /\ a ∈ selected').
Proof.
  induction lane as [|x lane IH]; intros selected lane' selected' more; cbn [take_next].
  { intros [= <- <- <-]. split; [apply drained_refl|]. split; [lia|done]. }
  destruct (bset_contains x selected) eqn:E.
  - apply bset_contains_spec in E. intros H. destruct (IH _ _ _ _ H) as ([A1 B1 C1 D1 E1] & Hlen & Hm & _).
    cbn [concat] in *. rewrite !app_nil_r in *. split; [|split; [done|split]].
    + split; cbn [concat]; rewrite ?app_nil_r; [done|done|set_solver|set_solver|]. intros a [->|Ha]%elem_of_cons; [right; auto|auto].
    + destruct more; [cbn; lia|done].
    + intros _. exists x. split; [set_solver|auto].
  - apply bset_contains_false in E. intros [= <- <- <-]. split; [|split; [|split]].
    + split; cbn [concat]; rewrite ?app_nil_r; [apply bset_insert_wf|..]; intros a; rewrite ?bset_insert_elem; set_solver.
    + apply bset_insert_len.
    + cbn. lia.
    + intros _. exists x. rewrite bset_insert_elem. set_solver.
Qed.

Lemma pass_spec limit lanes : forall selected progressed lanes' selected' progressed',
  vlen selected < limit -> pass limit lanes selected progressed = ((lanes', selected'), progressed') ->
  drained lanes selected lanes' selected' /\
  vlen selected' <= limit /\ (length selected' <= length selected + length lanes)%nat /\
  (length (concat lanes') <= length (concat lanes))%nat /\
  (progressed = false -> progressed' = true -> (length (concat lanes') < length (concat lanes))%nat) /\
  (progressed' = false -> vlen selected' < limit -> concat lanes' = []) /\
  (vlen selected' < limit \/ (N.to_nat limit >= length selected + length lanes)%nat ->
    Forall (fun lane => lane <> [] -> exists a, a ∈ lane /\ a ∈ selected') lanes).
Proof.
  induction lanes as [|lane rest IH]; intros selected progressed lanes' selected' progressed' Hlt; cbn [pass].
  { intros [= <- <- <-]. split; [apply drained_refl|]. cbn. split_and!; try done; try lia; congruence. }
  destruct (take_next lane selected) as [[lane' selected1] more] eqn:Et.
  destruct (take_next_spec _ _ _ _ _ Et) as (Hd & Hlen & Hm & Hfair).
  assert (length lane' <= length lane)%nat as Hshort by (destruct more; [lia|destruct Hm as [-> _]; cbn; lia]).
  destruct (N.eqb_spec (vlen selected1) limit) as [Heq|Hne].
  - intros [= <- <- <-]. split; [eapply drained_cons; [exact Hd|apply drained_refl]|].
    unfold vlen in *. cbn [concat length]. rewrite !length_app. split_and!; [lia|lia|lia| |lia|].
    + intros -> Hp. cbn in Hp. subst more. lia.
    + intros [?|Hge]; [lia|]. assert (rest = []) as -> by (apply nil_length_inv; cbn in *; lia). by repeat constructor.
  - destruct (pass limit rest selected1 (progressed || more)) as [[rest' selected2] p2] eqn:Ep. intros [= <- <- <-].
    assert (vlen selected1 < limit) as Hlt1 by (unfold vlen in *; lia).
    destruct (IH _ _ _ _ _ Hlt1 Ep) as (Hd2 & Hl2 & Hn2 & Hc2 & Hp2 & Hf2 & Hfair2).
    split; [by eapply drained_cons|]. cbn [concat length]. rewrite !length_app. split_and!; [done|lia|lia| | |].
    + intros -> Ht. destruct more; cbn in *; [lia|]. specialize (Hp2 eq_refl Ht). lia.
    + intros -> Hlim. rewrite (Hf2 eq_refl Hlim), app_nil_r. destruct more; [|by destruct Hm].
      exfalso. clear -Ep. rewrite orb_true_r in Ep. revert selected1 rest' selected2 Ep.
      induction rest as [|x rest IH]; intros; cbn [pass] in Ep; [congruence|].
      destruct (take_next x selected1) as [[x' s1] m1]. destruct (vlen s1 =? limit); [by injection Ep|]. cbn [orb] in Ep.
      destruct (pass limit rest s1 true) as [[r2 s2] p2] eqn:E. injection Ep as _ _ ->. by eapply IH.
    + intros Hcase. constructor.
      * intros Hne'. destruct (Hfair Hne') as (a & ? & ?). exists a. split; [done|]. by apply Hd2.
      * apply Hfair2. destruct Hcase as [?|Hge]; [by left|right]. cbn in *. lia.
Qed.

Lemma select_rounds_spec limit : forall fuel lanes selected,
  vlen selected <= limit -> (length (concat lanes) < fuel)%nat ->
  exists lanes', drained lanes selected lanes' (select_rounds fuel limit lanes selected) /\
    vlen (select_rounds fuel limit lanes selected) <= limit /\
    (vlen (select_rounds fuel limit lanes selected) = limit \/ concat lanes' = []) /\
    ((N.to_nat limit >= length selected + length lanes)%nat ->
      Forall (fun lane => lane <> [] -> exists a, a ∈ lane /\ a ∈ select_rounds fuel limit lanes selected) lanes \/
      vlen selected = limit).
Proof.
  induction fuel as [|fuel IH]; intros lanes selected Hle Hf; [lia|]. cbn [select_rounds].
  destruct (N.leb_spec limit (vlen selected)) as [Hge|Hlt].
  { exists lanes. split; [apply drained_refl|]. split; [done|]. split; [left; lia|]. intros _. right. lia. }
  destruct (pass limit lanes selected false) as [[lanes1 selected1] progressed] eqn:Ep.
  destruct (pass_spec _ _ _ _ _ _ _ Hlt Ep) as (Hd & Hl & Hn & Hc & Hp & Hstop & Hfair).
  destruct progressed.
  - specialize (Hp eq_refl eq_refl). destruct (IH lanes1 selected1 Hl ltac:(lia)) as (lanes2 & Hd2 & Hl2 & Hend & _).
    exists lanes2. split; [by eapply drained_trans|]. split; [done|]. split; [done|]. intros Hge. left.
    eapply list.Forall_impl; [apply Hfair; by right|]. intros lane Hlane Hne. destruct (Hlane Hne) as (a & ? & ?).
    exists a. split; [done|]. by apply Hd2.
  - exists lanes1. split; [done|]. split; [done|]. split.
    + destruct (N.eq_dec (vlen selected1) limit); [by left|right]. apply Hstop; [done|lia].
    + intros Hge. left. apply Hfair. by right.
Qed.
End Draining.

Section Selected.
Context {A : Type} {OA : Ord A} {L : LawfulOrd A} (family : A -> string).

Lemma diversify_elem matches a : a ∈ diversify_fact_families family matches <-> a ∈ matches.
Proof. by rewrite diversify_perm, bset_of_list_elem. Qed.

Lemma diversified_elem lanes a : a ∈ concat (diversify_fact_families family <$> lanes) <-> a ∈ concat lanes.
Proof.
  induction lanes as [|lane lanes IH]; [done|]. rewrite fmap_cons. cbn [concat]. by rewrite !elem_of_app, IH, diversify_elem.
Qed.

Lemma subset_len (s t : list A) : bset_wf s -> (forall a, a ∈ s -> a ∈ t) -> (length s <= length t)%nat.
Proof.
  intros Hw Hs. apply (NoDup_incl_length (l := s)); [apply NoDup_ListNoDup, bset_wf_NoDup, Hw|].
  intros a Ha. apply list_elem_of_In, Hs, list_elem_of_In, Ha.
Qed.

(** What a selection promises: distinct matches in order, as many as the limit
    allows, and a fact of every lane when the limit admits one per lane. *)
Record fair_selection (lanes : list (list A)) (limit : N) (r : list A) : Prop := mkFairSelection {
  fs_set : bset_wf r;
  fs_sound : forall a, a ∈ r -> a ∈ concat lanes;
  fs_size : vlen r = N.min limit (vlen (bset_of_list (concat lanes)));
  fs_fair : vlen lanes <= limit -> forall lane, lane ∈ lanes -> lane <> [] -> exists a, a ∈ lane /\ a ∈ r
}.

Lemma fair_selection_ok lanes limit : fair_selection lanes limit (fair_fact_selection family lanes limit).
Proof.
  unfold fair_fact_selection. set (lanes0 := diversify_fact_families family <$> lanes).
  destruct (select_rounds_spec limit (S (length (concat lanes0))) lanes0 [] (N.le_0_l _) (le_n _))
    as (lanes' & [Dw _ Ds _ Dk] & Hle & Hend & Hfair).
  set (r := select_rounds (S (length (concat lanes0))) limit lanes0 []) in *.
  assert (bset_wf r) as Hw by (apply Dw, bset_nil_wf).
  assert (forall a, a ∈ r -> a ∈ concat lanes) as Hs.
  { intros a [Ha|Ha]%Ds; [set_solver|]. apply diversified_elem. exact Ha. }
  split; [done|done| |].
  - assert (length r <= length (bset_of_list (concat lanes)))%nat as Hsub.
    { apply subset_len; [done|]. intros a Ha. by apply bset_of_list_elem, Hs. }
    unfold vlen in *. destruct Hend as [Hlim|Hnil]; [lia|].
    assert (length (bset_of_list (concat lanes)) <= length r)%nat; [|lia].
    apply subset_len; [apply bset_of_list_wf|]. intros a Ha. rewrite bset_of_list_elem, <- diversified_elem in Ha.
    destruct (Dk a Ha) as [Hin|]; [|done]. rewrite Hnil in Hin. set_solver.
  - intros Hn lane Hlane Hne. unfold vlen in Hn. destruct Hfair as [Hall|Hz].
    + unfold lanes0. rewrite length_fmap. cbn. lia.
    + rewrite list.Forall_forall in Hall. destruct (Hall (diversify_fact_families family lane)) as (a & Ha & Hr).
      * apply list_elem_of_fmap. eauto.
      * intros Hnil. destruct lane as [|x lane]; [done|]. assert (x ∈ diversify_fact_families family (x :: lane)) as Hx
          by (apply diversify_elem; set_solver). rewrite Hnil in Hx. set_solver.
      * exists a. split; [apply diversify_elem; exact Ha|exact Hr].
    + exfalso. change (vlen (@nil A)) with 0 in Hz. subst limit. assert (lanes = []) as -> by (apply nil_length_inv; lia). set_solver.
Qed.
End Selected.

(* --------------------------------------------------------------------- *)
(** ** Selection only looks at the order *)

Section Embedding.
Context {A B : Type} {OA : Ord A} {OB : Ord B} (f : A -> B) (Hcmp : forall x y : A, cmp (f x) (f y) = cmp x y).

Lemma bset_insert_fmap x (s : list A) : bset_insert (f x) (f <$> s) = f <$> bset_insert x s.
Proof. induction s as [|y s IH]; [done|]. cbn. rewrite Hcmp. destruct (cmp x y); [done|done|]. by rewrite IH. Qed.

Lemma bset_contains_fmap x (s : list A) : bset_contains (f x) (f <$> s) = bset_contains x s.
Proof. induction s as [|y s IH]; [done|]. cbn. rewrite Hcmp. by rewrite IH. Qed.

Lemma bset_extend_fmap (l : list A) : forall s, bset_extend (f <$> s) (f <$> l) = f <$> bset_extend s l.
Proof.
  unfold bset_extend. induction l as [|x l IH]; intros s; [done|]. cbn [foldl fmap list_fmap]. by rewrite bset_insert_fmap, <- IH.
Qed.

Lemma bset_of_list_fmap (l : list A) : bset_of_list (f <$> l) = f <$> bset_of_list l.
Proof. apply (bset_extend_fmap l []). Qed.

Context (family : A -> string) (family' : B -> string) (Hfam : forall x, family' (f x) = family x).

Definition map_members (e : string * list A) : string * list B := (e.1, f <$> e.2).

Lemma bmap_get_fmap k (m : list (string * list A)) : bmap_get k (map_members <$> m) = (fun s : list A => f <$> s) <$> bmap_get k m.
Proof. induction m as [|[k' s] m IH]; [done|]. cbn. destruct (cmp k k'); [done|apply IH|apply IH]. Qed.

Lemma bmap_insert_fmap k s (m : list (string * list A)) :
  bmap_insert k (f <$> s) (map_members <$> m) = map_members <$> bmap_insert k s m.
Proof. induction m as [|[k' s'] m IH]; [done|]. cbn. destruct (cmp k k'); [done|done|]. by rewrite IH. Qed.

Lemma families_fmap (l : list A) : forall m,
  foldl (add_to_family family') (map_members <$> m) (f <$> l) = map_members <$> foldl (add_to_family family) m l.
Proof.
  induction l as [|x l IH]; intros m; [done|]. cbn [foldl fmap list_fmap]. unfold add_to_family at 2 4. fold (@fmap list _).
  rewrite Hfam, bmap_get_fmap. rewrite <- IH, <- bmap_insert_fmap, <- bset_insert_fmap. do 3 f_equal.
  by destruct (bmap_get (family x) m).
Qed.

Lemma family_rounds_fmap fuel : forall round (families : list (list A)) acc,
  family_rounds fuel round ((fun s : list A => f <$> s) <$> families) (f <$> acc) = f <$> family_rounds fuel round families acc.
Proof.
  induction fuel as [|fuel IH]; intros round families acc; [done|]. cbn [family_rounds].
  assert (omap (fun members => members !! round) ((fun s : list A => f <$> s) <$> families) =
    f <$> omap (fun members => members !! round) families) as ->.
  { induction families as [|s fs IHf]; [done|]. cbn. rewrite list_lookup_fmap. destruct (s !! round); cbn; by rewrite IHf. }
  destruct (omap (fun members => members !! round) families) as [|x row]; [done|].
  change (f <$> x :: row) with (f x :: (f <$> row)). cbn iota. rewrite <- IH, fmap_app. done.
Qed.

Lemma diversify_fmap (l : list A) : diversify_fact_families family' (f <$> l) = f <$> diversify_fact_families family l.
Proof.
  unfold diversify_fact_families. rewrite length_fmap. rewrite <- (family_rounds_fmap _ _ _ []). f_equal.
  pose proof (families_fmap l []) as H. cbn [fmap list_fmap] in H. unfold bmap_values. rewrite H.
  rewrite <- !list_fmap_compose. apply list_fmap_ext. by intros i [k s] _.
Qed.

Lemma take_next_fmap (lane : list A) : forall selected,
  take_next (f <$> lane) (f <$> selected) =
  let '((lane', selected'), more) := take_next lane selected in ((f <$> lane', f <$> selected'), more).
Proof.
  induction lane as [|x lane IH]; intros selected; [done|]. rewrite fmap_cons. cbn [take_next]. rewrite bset_contains_fmap.
  destruct (bset_contains x selected); [apply IH|]. by rewrite bset_insert_fmap.
Qed.

Lemma pass_fmap limit (lanes : list (list A)) : forall selected progressed,
  pass limit ((fun s : list A => f <$> s) <$> lanes) (f <$> selected) progressed =
  let '((lanes', selected'), p) := pass limit lanes selected progressed in (((fun s : list A => f <$> s) <$> lanes', f <$> selected'), p).
Proof.
  induction lanes as [|lane rest IH]; intros selected progressed; [done|]. rewrite fmap_cons. cbn [pass]. rewrite take_next_fmap.
  destruct (take_next lane selected) as [[lane' selected1] more]. unfold vlen. rewrite length_fmap.
  destruct (N.of_nat (length selected1) =? limit); [done|]. rewrite IH.
  by destruct (pass limit rest selected1 (progressed || more)) as [[rest' selected2] p2].
Qed.

Lemma select_rounds_fmap limit fuel : forall (lanes : list (list A)) selected,
  select_rounds fuel limit ((fun s : list A => f <$> s) <$> lanes) (f <$> selected) = f <$> select_rounds fuel limit lanes selected.
Proof.
  induction fuel as [|fuel IH]; intros lanes selected; cbn [select_rounds]; unfold vlen; rewrite length_fmap;
    destruct (limit <=? N.of_nat (length selected)); try done.
  rewrite pass_fmap. destruct (pass limit lanes selected false) as [[lanes1 selected1] progressed].
  destruct progressed; [apply IH|done].
Qed.

Lemma fair_fact_selection_fmap (lanes : list (list A)) limit :
  fair_fact_selection family' ((fun s : list A => f <$> s) <$> lanes) limit = f <$> fair_fact_selection family lanes limit.
Proof.
  unfold fair_fact_selection.
  assert (diversify_fact_families family' <$> ((fun s : list A => f <$> s) <$> lanes) = (fun s : list A => f <$> s) <$> (diversify_fact_families family <$> lanes)) as ->.
  { induction lanes as [|lane lanes IH]; [done|]. rewrite !fmap_cons, IH. by rewrite diversify_fmap. }
  assert (length (concat ((fun s : list A => f <$> s) <$> (diversify_fact_families family <$> lanes))) =
    length (concat (diversify_fact_families family <$> lanes))) as ->.
  { induction lanes as [|lane lanes IH]; [done|]. rewrite !fmap_cons. cbn [concat]. rewrite !length_app, length_fmap. by rewrite IH. }
  apply (select_rounds_fmap limit _ _ []).
Qed.
End Embedding.
