(* ===== verification/QueryIndex.v ===== *)
(** * The query index (query_v2.rs)

    [build_query_index] visits the facts of a generation, collects a bounded set of
    hits per term, packs them into shards and publishes the shards and a manifest.
    [verify_index], [query], [exact_name_query] and [expand] read it back.  The
    store is used through CasInterface.  Buckets are packed in parallel and
    collected in order, so a success does not depend on the schedule. *)

From S2P Require Import Prelude Order Collections Text Json Canonical JsonFormat Errors CasObject CasInterface AdapterV2 FactRun.
From S2P Require Import QueryShards QueryTerms QuerySelect.
From S2P Require GenerationV2.

Definition QUERY_INDEX_SCHEMA : string := "codeclew-query-index/6.0".
Definition QUERY_CONTEXT_SCHEMA : string := "codeclew-query-context/2.0".
Definition MAX_QUERY_TERMS : N := 256.
Definition MAX_CONTEXT_FACTS : N := 4096.
Definition MAX_QUERY_FACTS_PER_TERM : N := 1024.

Record QueryShardReference : Type := mkShardReference {
  qr_bucket : string;
  qr_sequence : N;
  qr_first_term : string;
  qr_last_term : string;
  qr_object : CasObject
}.
Record QueryIndexManifest : Type := mkIndexManifest {
  qi_schema : string;
  index_id : string;
  qi_generation : CasObject;
  qi_shards : list QueryShardReference;
  term_count : N;
  posting_count : N;
  overflow_terms : BTreeSet string
}.
Record QueryContext : Type := mkQueryContext {
  qc_schema : string;
  qc_index_id : string;
  requested_terms : list string;
  unmatched_terms : list string;
  qc_facts : list FactHit;
  query_shards_read : N;
  truncated : bool
}.
Record ExactNameQuery : Type := mkExactNameQuery {
  en_facts : list FactHit;
  en_shards_read : N;
  en_truncated : bool
}.

Definition reference_value (r : QueryShardReference) : Value :=
  JObject [("bucket", JString (qr_bucket r)); ("sequence", JNumber (PosInt (qr_sequence r)));
           ("firstTerm", JString (qr_first_term r)); ("lastTerm", JString (qr_last_term r));
           ("object", cas_object_value (qr_object r))].
Definition index_value (m : QueryIndexManifest) : Value :=
  JObject [("schema", JString (qi_schema m)); ("indexId", JString (index_id m));
           ("generation", cas_object_value (qi_generation m));
           ("shards", JArray (reference_value <$> qi_shards m));
           ("termCount", JNumber (PosInt (term_count m))); ("postingCount", JNumber (PosInt (posting_count m)));
           ("overflowTerms", JArray (JString <$> overflow_terms m))].
Definition with_index_id (m : QueryIndexManifest) (id : string) : QueryIndexManifest :=
  {| qi_schema := qi_schema m; index_id := id; qi_generation := qi_generation m; qi_shards := qi_shards m;
     term_count := term_count m; posting_count := posting_count m; overflow_terms := overflow_terms m |}.

Definition reference_order (r : QueryShardReference) : string * (string * (string * N)) :=
  (qr_bucket r, (qr_first_term r, (qr_last_term r, qr_sequence r))).

(** [serde_json::from_slice::<Value>]: an object is collected into an ordered map. *)
Fixpoint collected (v : Value) : Value :=
  match v with
  | JArray l => JArray (map collected l)
  | JObject m => JObject (map_collect (map (fun e => (e.1, collected e.2)) m))
  | other => other
  end.

(** Postings under construction. *)
Notation Postings := (BTreeMap string (BTreeSet FactHit)) (only parsing).

(** [BTreeSet::pop_last] on a set that has grown past the bound. *)
Definition insert_bounded_posting (st : Postings * BTreeSet string) (term : string) (hit : FactHit)
  : Postings * BTreeSet string :=
  let '(postings, overflow) := st in
  let facts := bset_insert hit (default [] (bmap_get term postings)) in
  if MAX_QUERY_FACTS_PER_TERM <? vlen facts
  then (bmap_insert term (removelast facts) postings, bset_insert term overflow)
  else (bmap_insert term facts postings, overflow).

Definition hit_of (fact : FactRecord) : FactHit :=
  {| hit_key := fact_key fact; hit_domain := domain_uri fact; hit_payload := payload fact |}.

Section Index.
Context {P : Primitives} {U : Unicode} {R : JsonReader} {S : Type} {C : CasOps S} {B : CasBatchOps S}.

(** The first byte of the digest in hexadecimal. *)
Definition bucket (term : string) : string := String.substring 0 2 (sha256_hex (as_bytes term)).

(* --------------------------------------------------------------------- *)
(** ** Building *)

Definition fact_query_terms (s : S) (fact : FactRecord) : S * Res (list string * list string) :=
  let values := bset_of_list [semantic_fact_key (fact_key fact); domain_uri fact] in
  if MAX_QUERY_METADATA_PAYLOAD_BYTES <? size (payload fact)
  then (s, Ok (normalize_index_terms values, []))
  else
    do! s, bytes := cas_read s (payload fact) (size (payload fact)) in
    (s, document_terms values (collected <$> read_document bytes)).

(** The terms of a fact in the order in which they are posted. *)
Definition posted_terms (terms : list string * list string) : list string := dedup (sort terms.1) ++ terms.2.

Definition index_fact (s : S) (st : Postings * BTreeSet string) (fact : FactRecord)
  : (S * (Postings * BTreeSet string)) * Res unit :=
  match fact_query_terms s fact with
  | (s, Err e) => ((s, st), Err e)
  | (s, Ok terms) =>
      ((s, foldl (fun st term => insert_bounded_posting st term (hit_of fact)) st (posted_terms terms)), Ok tt)
  end.

(** [buckets.entry(bucket(&term)).or_default().push(..)]. *)
Definition add_to_bucket (buckets : BTreeMap string (list TermPosting)) (e : string * BTreeSet FactHit)
  : BTreeMap string (list TermPosting) :=
  bmap_insert (bucket e.1)
    (default [] (bmap_get (bucket e.1) buckets) ++ [{| tp_term := e.1; tp_facts := e.2 |}]) buckets.

Definition reference_of (shard : QueryShard) (object : CasObject) : QueryShardReference :=
  {| qr_bucket := qs_bucket shard; qr_sequence := qs_sequence shard; qr_first_term := qs_first_term shard;
     qr_last_term := qs_last_term shard; qr_object := object |}.

Definition encode_shard (shard : QueryShard) : Res (string * list byte) :=
  let bytes := query_shard_bytes shard in
  if MAX_QUERY_SHARD_BYTES <? vlen bytes then resource_limit "query shard exceeds the limit"
  else Ok (QUERY_SHARD_SCHEMA, bytes).

Definition publish_query_shards (s : S) (shards : list QueryShard) : S * Res (list QueryShardReference) :=
  do! s, encoded := pure_on s (try_map encode_shard shards) in
  do! s, objects := cas_put_batch s encoded in
  (s, Ok (zip_with reference_of shards objects)).

Definition build_query_index (s : S) (generation : GenerationV2.GenerationManifest) (generation_object : CasObject)
  : S * Res (QueryIndexManifest * CasObject) :=
  if str_neqb (object_schema generation_object) GenerationV2.GENERATION_SCHEMA
  then (s, invalid "query index requires a generation manifest object")
  else
  match GenerationV2.visit_facts index_fact s ([], []) generation with
  | ((s, _), Err e) => (s, Err e)
  | ((s, (postings, overflow)), Ok _) =>
      if (match postings with [] => true | _ => false end)
      then (s, invalid "generation produced no queryable terms")
      else
      let buckets := foldl add_to_bucket [] postings in
      do! s, built := pure_on s (try_map (fun e => build_bucket e.1 e.2) buckets) in
      let shards := sort_by (cmp_on shard_order) (concat built) in
      do! s, references := publish_query_shards s shards in
      let unsigned := {| qi_schema := QUERY_INDEX_SCHEMA; index_id := EmptyString; qi_generation := generation_object;
                         qi_shards := sort_by (cmp_on reference_order) references;
                         term_count := vlen postings;
                         posting_count := foldr (fun e n => vlen e.2 + n) 0 postings;
                         overflow_terms := overflow |} in
      let manifest := with_index_id unsigned (hash (index_value unsigned)) in
      do! s, object := cas_put s QUERY_INDEX_SCHEMA (value_bytes (index_value manifest)) in
      (s, Ok (manifest, object))
  end.

(* --------------------------------------------------------------------- *)
(** ** Verification *)

(** [previous.is_some_and(|value| value >= order)]. *)
Definition out_of_order (previous : option (string * (string * (string * N)))) (order : string * (string * (string * N))) : bool :=
  match previous with Some value => geb value order | None => false end.

Definition check_reference (previous : option (string * (string * (string * N)))) (reference : QueryShardReference)
  : Res (option (string * (string * (string * N)))) :=
  if out_of_order previous (reference_order reference) then corrupt "query shard reference order is invalid"
  else if str_neqb (object_schema (qr_object reference)) QUERY_SHARD_SCHEMA then corrupt "query shard reference schema is invalid"
  else if MAX_QUERY_SHARD_BYTES <? size (qr_object reference) then corrupt "query shard reference size is invalid"
  else Ok (Some (reference_order reference)).

Definition verify_index_manifest (s : S) (index : QueryIndexManifest) : S * Res unit :=
  if str_neqb (qi_schema index) QUERY_INDEX_SCHEMA
     || str_neqb (object_schema (qi_generation index)) GenerationV2.GENERATION_SCHEMA
     || str_neqb (index_id index) (hash (index_value (with_index_id index EmptyString)))
     || (match qi_shards index with [] => true | _ => false end)
     || (term_count index =? 0) || (posting_count index =? 0)
     || existsb (fun term => str_is_empty term || negb (bool_decide (normalize_terms [term] = [term]))) (overflow_terms index)
  then (s, corrupt "query index identity is invalid")
  else
    do! s, generation := cas_read s (qi_generation index) (size (qi_generation index)) in
    do! s, previous := pure_on s (try_fold check_reference None (qi_shards index)) in
    (s, Ok tt).

Definition bad_posting (bucket' : string) (posting : TermPosting) : bool :=
  str_is_empty (tp_term posting) || str_neqb (bucket (tp_term posting)) bucket'
  || (match tp_facts posting with [] => true | _ => false end)
  || negb (windows_all ltb (tp_facts posting)).

Definition verify_shard (reference : QueryShardReference) (shard : QueryShard) (bytes : list byte) : Res unit :=
  if negb (bool_decide (query_shard_bytes shard = bytes))
     || str_neqb (qs_schema shard) QUERY_SHARD_SCHEMA
     || str_neqb (qs_bucket shard) (qr_bucket reference)
     || negb (qs_sequence shard =? qr_sequence reference)
     || str_neqb (qs_first_term shard) (qr_first_term reference)
     || str_neqb (qs_last_term shard) (qr_last_term reference)
     || (match head (qs_postings shard), list.last (qs_postings shard) with
         | Some first, Some last => str_neqb (qs_first_term shard) (tp_term first)
                                    || str_neqb (qs_last_term shard) (tp_term last)
         | _, _ => true
         end)
     || negb (windows_all (fun p q => ltb (tp_term p) (tp_term q)) (qs_postings shard))
     || existsb (bad_posting (qs_bucket shard)) (qs_postings shard)
  then corrupt "query shard authority is invalid"
  else Ok tt.

(** Reading the shard a reference names. *)
Definition load_shard (s : S) (reference : QueryShardReference) : S * Res QueryShard :=
  do! s, bytes := cas_read s (qr_object reference) MAX_QUERY_SHARD_BYTES in
  pure_on s (
    let? shard := ok_or (match read_document bytes with Some v => decode_query_shard v | None => None end)
                    (ClewError_new StateCorrupt "query shard is not a closed object") in
    verify_shard reference shard bytes ;;? Ok shard).

Record IndexCheck : Type := mkIndexCheck {
  ic_previous : option (string * (string * (string * N)));
  ic_terms : BTreeSet string;
  ic_last_fact : BTreeMap string FactHit;
  ic_postings : N;
  ic_by_term : BTreeMap string N
}.

Definition check_posting (st : IndexCheck) (posting : TermPosting) : Res IndexCheck :=
  match head (tp_facts posting), list.last (tp_facts posting) with
  | Some first, Some last =>
      if (match bmap_get (tp_term posting) (ic_last_fact st) with Some l => geb l first | None => false end)
      then corrupt "query posting chunks overlap or are out of order"
      else Ok {| ic_previous := ic_previous st; ic_terms := bset_insert (tp_term posting) (ic_terms st);
                 ic_last_fact := bmap_insert (tp_term posting) last (ic_last_fact st);
                 ic_postings := u64_wrapping_add (ic_postings st) (vlen (tp_facts posting));
                 ic_by_term := bmap_insert (tp_term posting)
                   (u64_wrapping_add (default 0 (bmap_get (tp_term posting) (ic_by_term st))) (vlen (tp_facts posting)))
                   (ic_by_term st) |}
  | _, _ => internal "verified non-empty"
  end.

Definition check_index_shard (s : S) (st : IndexCheck) (reference : QueryShardReference) : S * Res IndexCheck :=
  if out_of_order (ic_previous st) (reference_order reference)
  then (s, corrupt "query shard reference order is invalid")
  else
    do! s, shard := load_shard s reference in
    do! s, st := pure_on s (try_fold check_posting st (qs_postings shard)) in
    (s, Ok {| ic_previous := Some (reference_order reference); ic_terms := ic_terms st; ic_last_fact := ic_last_fact st;
              ic_postings := ic_postings st; ic_by_term := ic_by_term st |}).

Definition verify_index (s : S) (index : QueryIndexManifest) : S * Res unit :=
  do! s, verified := verify_index_manifest s index in
  do! s, st := store_fold check_index_shard s
    {| ic_previous := None; ic_terms := []; ic_last_fact := []; ic_postings := 0; ic_by_term := [] |} (qi_shards index) in
  if negb (vlen (ic_terms st) =? term_count index) || negb (ic_postings st =? posting_count index)
     || existsb (fun term => negb (bool_decide (bmap_get term (ic_by_term st) = Some MAX_QUERY_FACTS_PER_TERM)))
          (overflow_terms index)
  then (s, corrupt "query index counts are incomplete")
  else (s, Ok tt).

(* --------------------------------------------------------------------- *)
(** ** Queries *)

(** The references whose range of terms may hold a term. *)
Definition routed (term : string) (reference : QueryShardReference) : bool :=
  str_eqb (qr_bucket reference) (bucket term) && leb (qr_first_term reference) term && leb term (qr_last_term reference).

Definition read_term_shard (term : string) (s : S) (st : BTreeSet FactHit * BTreeSet string) (reference : QueryShardReference)
  : S * Res (BTreeSet FactHit * BTreeSet string) :=
  do! s, shard := load_shard s reference in
  (s, Ok (match find_posting term (qs_postings shard) with
          | Some row => bset_extend st.1 (tp_facts row)
          | None => st.1
          end, bset_insert (digest (qr_object reference)) st.2)).

(** Returns the matches and the digests of the shards read so far. *)
Definition read_term_matches (s : S) (index : QueryIndexManifest) (term : string) (shards_read : BTreeSet string)
  : S * Res (list FactHit * BTreeSet string) :=
  store_fold (read_term_shard term) s ([], shards_read) (List.filter (routed term) (qi_shards index)).

Record QueryState : Type := mkQueryState {
  exact_direct : list (list FactHit);
  exact_matched : list (list FactHit);
  alias_direct : list (list FactHit);
  alias_matched : list (list FactHit);
  unmatched : list string;
  shards_read : BTreeSet string;
  alias_overflow : bool
}.

Definition overflowed (index : QueryIndexManifest) (term : string) : bool :=
  bset_contains term (overflow_terms index) || bset_contains (direct_name_term term) (overflow_terms index).

Record AliasState : Type := mkAliasState {
  as_direct : BTreeSet FactHit;
  as_matches : BTreeSet FactHit;
  as_read : BTreeSet string;
  as_overflow : bool
}.
Definition query_alias (index : QueryIndexManifest) (s : S) (st : AliasState) (alias : string) : S * Res AliasState :=
  do! s, direct := read_term_matches s index (direct_name_term alias) (as_read st) in
  do! s, matches := read_term_matches s index alias direct.2 in
  (s, Ok {| as_direct := bset_extend (as_direct st) direct.1; as_matches := bset_extend (as_matches st) matches.1;
            as_read := matches.2; as_overflow := as_overflow st || overflowed index alias |}).

Definition query_term (index : QueryIndexManifest) (s : S) (st : QueryState) (term : string) : S * Res QueryState :=
  do! s, direct := read_term_matches s index (direct_name_term term) (shards_read st) in
  do! s, matches := read_term_matches s index term direct.2 in
  do! s, aliases := store_fold (query_alias index) s
    {| as_direct := []; as_matches := []; as_read := matches.2; as_overflow := alias_overflow st || overflowed index term |}
    (query_aliases term) in
  (s, Ok {| exact_direct := exact_direct st ++ [direct.1]; exact_matched := exact_matched st ++ [matches.1];
            alias_direct := alias_direct st ++ [as_direct aliases]; alias_matched := alias_matched st ++ [as_matches aliases];
            unmatched := (match matches.1, as_matches aliases with
                          | [], [] => unmatched st ++ [term]
                          | _, _ => unmatched st
                          end);
            shards_read := as_read aliases; alias_overflow := as_overflow aliases |}).

Definition query_start : QueryState :=
  {| exact_direct := []; exact_matched := []; alias_direct := []; alias_matched := []; unmatched := [];
     shards_read := []; alias_overflow := false |}.
Definition selection_lanes (st : QueryState) : list (list FactHit) :=
  exact_direct st ++ exact_matched st ++ alias_direct st ++ alias_matched st.
Definition fact_family (hit : FactHit) : string := semantic_fact_key (hit_key hit).

Definition query (s : S) (index : QueryIndexManifest) (terms : list string) (max_facts : N) : S * Res QueryContext :=
  do! s, verified := verify_index_manifest s index in
  if (match terms with [] => true | _ => false end) || (MAX_QUERY_TERMS <? vlen terms) || (max_facts =? 0)
  then (s, invalid "query term or result limit is invalid")
  else
    let limit := N.min max_facts MAX_CONTEXT_FACTS in
    let requested := normalize_terms terms in
    match requested with
    | [] => (s, invalid "query has no normalized terms")
    | _ =>
        do! s, st := store_fold (query_term index) s query_start requested in
        let unique_match_count := vlen (bset_of_list (concat (selection_lanes st))) in
        let facts := fair_fact_selection fact_family (selection_lanes st) limit in
        (s, Ok {| qc_schema := QUERY_CONTEXT_SCHEMA; qc_index_id := index_id index; requested_terms := requested;
                  unmatched_terms := unmatched st; qc_facts := facts;
                  query_shards_read := vlen (shards_read st);
                  truncated := (vlen facts <? unique_match_count) || alias_overflow st |})
    end.

Definition exact_name_query (s : S) (index : QueryIndexManifest) (term : string) : S * Res ExactNameQuery :=
  do! s, verified := verify_index_manifest s index in
  if str_is_empty term || (4096 <? str_len term) || has_control_char term
  then (s, invalid "exact declaration lookup requires a nonempty name or full symbol identity of at most 4096 bytes")
  else
    let direct_term := exact_identity_term term in
    do! s, matches := read_term_matches s index direct_term [] in
    (s, Ok {| en_facts := matches.1; en_shards_read := vlen matches.2;
              en_truncated := bset_contains direct_term (overflow_terms index) |}).

Definition expand (s : S) (index : QueryIndexManifest) (parent : QueryContext) (additional_terms : list string)
    (max_facts : N) : S * Res QueryContext :=
  if str_neqb (qc_schema parent) QUERY_CONTEXT_SCHEMA || str_neqb (qc_index_id parent) (index_id index)
  then (s, invalid "parent context is not bound to the query index")
  else
    let requested := dedup (sort (requested_terms parent ++ normalize_terms additional_terms)) in
    if bool_decide (requested = requested_terms parent) then (s, Ok parent)
    else query s index requested max_facts.
End Index.
