(* ===== verification/QuerySpec.v ===== *)
(** * What the query index promises

    Theorems of QueryIndex: bounded postings keep the smallest hits and record what
    was dropped; a built index verifies shard by shard and returns for every term
    exactly its posting; an untruncated query is complete. *)

From S2P Require Import Prelude Order Collections Text Json Canonical Instances JsonFormat JsonRead Errors CasObject.
From S2P Require Import CasInterface AdapterV2 CatalogCodec FactRun QueryShards QueryTerms QuerySelect QueryIndex.
From S2P Require GenerationV2 GenerationSpec.

(* --------------------------------------------------------------------- *)
(** ** Bounded sets *)

Section Bounded.
Context {A : Type} {OA : Ord A} (n : nat).

Lemma take_insert x (s : list A) : forall k, take k (bset_insert x (take k s)) = take k (bset_insert x s).
Proof.
  induction s as [|y s IH]; intros [|k]; cbn; [done..|]. destruct (cmp x y); cbn.
  - by rewrite firstn_firstn, Nat.min_id.
  - destruct k as [|k]; [done|]. cbn. by rewrite firstn_firstn, (Nat.min_l k (S k)) by lia.
  - f_equal. apply IH.
Qed.

Lemma removelast_take (l : list A) : length l = S n -> removelast l = take n l.
Proof. intros Hl. rewrite removelast_firstn_len. by rewrite Hl. Qed.

(** Inserting into a bounded set keeps the smallest elements. *)
Lemma bounded_step x (s : list A) :
  (if (n <? length (bset_insert x (take n s)))%nat then removelast (bset_insert x (take n s)) else bset_insert x (take n s)) =
  take n (bset_insert x s).
Proof.
  rewrite <- take_insert. pose proof (bset_insert_len x (take n s)) as Hl. rewrite length_take in Hl.
  destruct (Nat.ltb_spec n (length (bset_insert x (take n s)))).
  - apply removelast_take. lia.
  - by rewrite (take_ge (bset_insert x (take n s))) by lia.
Qed.

Lemma bounded_overflow x (s : list A) : (n < length (bset_insert x (take n s)) \/ n < length s <-> n < length (bset_insert x s))%nat.
Proof.
  pose proof (bset_insert_len x s) as Hl. destruct (Nat.le_gt_cases (length s) n) as [Hle|Hgt].
  - rewrite (take_ge s) by done. split; [intros [?|?]; lia|by left].
  - split; [lia|]. by right.
Qed.
End Bounded.

Lemma hits_snoc (term : string) (l : list (string * FactHit)) e :
  (filter (fun e => e.1 = term) (l ++ [e])).*2 =
  (filter (fun e => e.1 = term) l).*2 ++ (if decide (e.1 = term) then [e.2] else []).
Proof.
  rewrite list.filter_app, fmap_app. f_equal. rewrite list.filter_cons. destruct (decide (e.1 = term)); done.
Qed.

(** The hits posted under a term. *)
Definition posted (term : string) (l : list (string * FactHit)) : list FactHit := (filter (fun e => e.1 = term) l).*2.
Definition post_all (l : list (string * FactHit)) : Postings * BTreeSet string :=
  foldl (fun st e => insert_bounded_posting st e.1 e.2) ([], []) l.

Definition MAX_HITS : nat := N.to_nat MAX_QUERY_FACTS_PER_TERM.

Record postings_of (l : list (string * FactHit)) (st : Postings * BTreeSet string) : Prop := mkPostingsOf {
  pof_wf : bmap_wf st.1;
  pof_terms : forall t, t ∈ st.1.*1 <-> posted t l <> [];
  pof_get : forall t, default [] (bmap_get t st.1) = take MAX_HITS (bset_of_list (posted t l));
  pof_overflow_wf : bset_wf st.2;
  pof_overflow : forall t, t ∈ st.2 <-> (MAX_HITS < length (bset_of_list (posted t l)))%nat
}.

Lemma bset_of_list_snoc {A} `{Ord A} (l : list A) x : bset_of_list (l ++ [x]) = bset_insert x (bset_of_list l).
Proof. unfold bset_of_list, bset_extend. by rewrite foldl_app. Qed.

Lemma insert_bounded_posting_eq st term hit facts :
  facts = bset_insert hit (default [] (bmap_get term st.1)) ->
  insert_bounded_posting st term hit =
  (bmap_insert term (if (MAX_HITS <? length facts)%nat then removelast facts else facts) st.1,
   if (MAX_HITS <? length facts)%nat then bset_insert term st.2 else st.2).
Proof.
  intros ->. destruct st as [postings overflow]. unfold insert_bounded_posting. cbn [fst snd].
  set (facts := bset_insert hit _).
  assert ((MAX_QUERY_FACTS_PER_TERM <? vlen facts) = (MAX_HITS <? length facts)%nat) as ->.
  { unfold vlen, MAX_HITS. destruct (N.ltb_spec MAX_QUERY_FACTS_PER_TERM (N.of_nat (length facts))),
      (Nat.ltb_spec (N.to_nat MAX_QUERY_FACTS_PER_TERM) (length facts)); lia. }
  by destruct (MAX_HITS <? length facts)%nat.
Qed.

Lemma post_step l st e : postings_of l st -> postings_of (l ++ [e]) (insert_bounded_posting st e.1 e.2).
Proof.
  intros [Hw Ht Hg Hov Ho]. destruct e as [term hit]. cbn [fst snd].
  rewrite (insert_bounded_posting_eq _ _ _ _ eq_refl), Hg. set (s := bset_of_list (posted term l)).
  assert (forall t, posted t (l ++ [(term, hit)]) = posted t l ++ if decide (term = t) then [hit] else []) as Hposted
    by (intros t; apply (hits_snoc t l (term, hit))).
  split; cbn [fst snd].
  - by apply bmap_insert_wf.
  - intros t. rewrite bmap_insert_keys, Ht, Hposted. destruct (decide (term = t)) as [->|Hne].
    + split; [intros _ Hnil; by destruct (posted t l)|by left].
    + rewrite app_nil_r. split; [intros [->|?]; done|by right].
  - intros t. rewrite Hposted. destruct (decide (term = t)) as [<-|Hne].
    + rewrite bmap_get_insert_eq, bset_of_list_snoc. cbn [default from_option]. unfold id. apply bounded_step.
    + rewrite bmap_get_insert_ne, app_nil_r by done. apply Hg.
  - destruct (_ <? _)%nat; [by apply bset_insert_wf|done].
  - intros t. rewrite Hposted. destruct (decide (term = t)) as [<-|Hne].
    + rewrite bset_of_list_snoc, <- bounded_overflow, <- Ho. fold s.
      destruct (Nat.ltb_spec MAX_HITS (length (bset_insert hit (take MAX_HITS s)))); rewrite ?bset_insert_elem; intuition lia.
    + rewrite app_nil_r, <- Ho. destruct (_ <? _)%nat; [|done]. rewrite bset_insert_elem. intuition congruence.
Qed.

Lemma post_all_spec l : postings_of l (post_all l).
Proof.
  unfold post_all. induction l as [|e l IH] using rev_ind.
  - split; cbn; [constructor|intros t; by rewrite elem_of_nil|done|constructor|]. intros t. rewrite elem_of_nil. cbn. lia.
  - rewrite foldl_app. by apply post_step.
Qed.

(* --------------------------------------------------------------------- *)
(** ** The order of hits *)

Lemma hit_cmp (x y : FactHit) : cmp (hit_order x) (hit_order y) = cmp x y.
Proof. done. Qed.

Lemma sorted_hits (l : list FactHit) : StronglySorted lt_ord l <-> bset_wf (hit_order <$> l).
Proof. unfold bset_wf. by rewrite StronglySorted_fmap. Qed.

Lemma hit_set_sorted (l : list FactHit) : StronglySorted lt_ord (bset_of_list l).
Proof. apply sorted_hits. rewrite <- (bset_of_list_fmap hit_order hit_cmp). apply bset_of_list_wf. Qed.

Lemma hit_insert_last x (s : list FactHit) : Forall (fun y => lt_ord y x) s -> bset_insert x s = s ++ [x].
Proof.
  induction 1 as [|y s Hy Hs IH]; [done|]. cbn. assert (cmp x y = Gt) as -> by by apply (cmp_gt_lt (hit_order x)). by rewrite IH.
Qed.

(** A sorted list is its own set. *)
Lemma hit_set_id (l : list FactHit) : StronglySorted lt_ord l -> bset_of_list l = l.
Proof.
  induction l as [|x l IH] using rev_ind; [done|]. intros (Hl & _ & Hx)%StronglySorted_app. rewrite bset_of_list_snoc, IH by done.
  apply hit_insert_last, list.Forall_forall. intros y Hy. apply Hx; set_solver.
Qed.

Lemma StronglySorted_take {A} (Q : A -> A -> Prop) k l : StronglySorted Q l -> StronglySorted Q (take k l).
Proof. rewrite <- (take_drop k l) at 1. by intros (? & _ & _)%StronglySorted_app. Qed.

(* --------------------------------------------------------------------- *)
(** ** Buckets *)

Definition posting_of (e : string * BTreeSet FactHit) : TermPosting := {| tp_term := e.1; tp_facts := e.2 |}.

Lemma posting_of_terms (m : Postings) : tp_term <$> (posting_of <$> m) = m.*1.
Proof. rewrite <- list_fmap_compose. by apply list_fmap_ext. Qed.

Lemma entries_ok l st : postings_of l st -> Forall (fun e => e.1 <> EmptyString) l -> postings_ok (posting_of <$> st.1).
Proof.
  intros [Hw Ht Hg _ _] Hne. split.
  - unfold term_lt. apply (StronglySorted_fmap lt_ord tp_term). by rewrite posting_of_terms.
  - apply list.Forall_forall. intros p (e & -> & He)%list_elem_of_fmap. destruct e as [t s].
    assert (t ∈ st.1.*1) as Hkey by (apply list_elem_of_fmap; by exists (t, s)). pose proof (proj1 (Ht t) Hkey) as Hp.
    apply bmap_get_elem in He; [|done]. specialize (Hg t). rewrite He in Hg. cbn in Hg. unfold id in Hg. subst s.
    split; cbn [tp_term tp_facts posting_of fst snd].
    + destruct (posted t l) as [|h hs] eqn:E; [done|]. assert (h ∈ posted t l) as Hin by (rewrite E; set_solver).
      unfold posted in Hin. apply list_elem_of_fmap in Hin as ([t' h'] & _ & [Heq Hin]%list_elem_of_filter). cbn in Heq. subst t'.
      rewrite list.Forall_forall in Hne. by apply (Hne _ Hin).
    + intros Hnil%(f_equal length). rewrite length_take in Hnil. unfold MAX_HITS, MAX_QUERY_FACTS_PER_TERM in Hnil.
      destruct (posted t l) as [|h hs] eqn:E; [done|]. rewrite <- E in Hnil.
      assert (bset_of_list (posted t l) <> []) as Hb.
      { intros Hb%(f_equal (fmap hit_order)). rewrite <- (bset_of_list_fmap hit_order hit_cmp), E in Hb.
        apply of_list_nonempty in Hb; [done|done]. }
      destruct (bset_of_list (posted t l)); [done|]. cbn in Hnil. lia.
    + apply StronglySorted_take, hit_set_sorted.
Qed.

Section Buckets.
Context {P : Primitives}.

Definition bucketed (k : string) (entries : Postings) : list TermPosting :=
  posting_of <$> filter (fun e => bucket e.1 = k) entries.

Record buckets_of (entries : Postings) (m : BTreeMap string (list TermPosting)) : Prop := mkBucketsOf {
  bo_wf : bmap_wf m;
  bo_get : forall k, default [] (bmap_get k m) = bucketed k entries;
  bo_some : forall k ps, bmap_get k m = Some ps -> ps <> []
}.

Lemma add_to_bucket_spec entries m e : buckets_of entries m -> buckets_of (entries ++ [e]) (add_to_bucket m e).
Proof.
  intros [Hw Hg Hs]. unfold add_to_bucket. rewrite Hg.
  assert (forall k, bucketed k (entries ++ [e]) = bucketed k entries ++ if decide (bucket e.1 = k) then [posting_of e] else []) as Hb.
  { intros k. unfold bucketed. rewrite list.filter_app, fmap_app. f_equal. rewrite list.filter_cons. destruct (decide _); done. }
  split.
  - by apply bmap_insert_wf.
  - intros k. rewrite Hb. destruct (decide (bucket e.1 = k)) as [<-|Hne].
    + by rewrite bmap_get_insert_eq.
    + rewrite bmap_get_insert_ne, app_nil_r by done. apply Hg.
  - intros k ps. destruct (decide (k = bucket e.1)) as [->|Hne].
    + rewrite bmap_get_insert_eq. intros [= <-]. by destruct (bucketed (bucket e.1) entries).
    + rewrite bmap_get_insert_ne by done. apply Hs.
Qed.

Lemma buckets_spec entries : buckets_of entries (foldl add_to_bucket [] entries).
Proof.
  induction entries as [|e entries IH] using rev_ind.
  - split; [constructor|done|done].
  - rewrite foldl_app. by apply add_to_bucket_spec.
Qed.

Lemma bucketed_ok k (entries : Postings) : postings_ok (posting_of <$> entries) -> postings_ok (bucketed k entries).
Proof.
  unfold bucketed. induction entries as [|e entries IH]; [done|]. rewrite fmap_cons, postings_ok_cons. intros (He & Hl & Hok).
  rewrite list.filter_cons. destruct (decide (bucket e.1 = k)); [|by apply IH]. rewrite fmap_cons, postings_ok_cons.
  split_and!; [done| |by apply IH]. rewrite list.Forall_forall in *. intros p (x & -> & Hx)%list_elem_of_fmap.
  apply list_elem_of_filter in Hx as [_ Hx]. apply Hl, list_elem_of_fmap. eauto.
Qed.

Lemma bucketed_terms k (entries : Postings) p : p ∈ bucketed k entries -> bucket (tp_term p) = k.
Proof. unfold bucketed. intros (e & -> & [He _]%list_elem_of_filter)%list_elem_of_fmap. done. Qed.

Lemma bucketed_hits k t (entries : Postings) :
  hits t (bucketed k entries) = if decide (bucket t = k) then hits t (posting_of <$> entries) else [].
Proof.
  unfold bucketed. induction entries as [|e entries IH]; [by destruct (decide _)|]. rewrite list.filter_cons.
  destruct (decide (bucket e.1 = k)) as [He|He].
  - rewrite !fmap_cons, !hits_cons, IH. destruct (decide (bucket t = k)); [done|].
    rewrite decide_False; [done|]. cbn. intros <-. done.
  - rewrite fmap_cons, hits_cons, IH. destruct (decide (bucket t = k)) as [Ht|]; [|done].
    rewrite decide_False; [done|]. cbn. intros <-. done.
Qed.

Lemma hits_entries t (m : Postings) : bmap_wf m -> hits t (posting_of <$> m) = default [] (bmap_get t m).
Proof.
  intros Hw. destruct (bmap_get t m) as [s|] eqn:E; cbn.
  - apply bmap_get_elem in E; [|done]. apply list_elem_of_split in E as (m1 & m2 & ->).
    unfold bmap_wf in Hw. rewrite fmap_app, fmap_cons in Hw. cbn in Hw.
    apply (strict_sorted_NoDup (fun k : string => k)) in Hw. rewrite list_fmap_id in Hw.
    apply list.NoDup_app in Hw as (_ & Hd & [Hn _]%list.NoDup_cons).
    rewrite fmap_app, fmap_cons, hits_app, hits_cons. cbn [posting_of tp_term tp_facts fst snd]. rewrite decide_True by done.
    rewrite !hits_absent by (rewrite posting_of_terms; set_solver). by rewrite app_nil_r.
  - apply hits_absent. rewrite posting_of_terms. by apply bmap_get_none_key.
Qed.
End Buckets.

(* --------------------------------------------------------------------- *)
(** ** The shards of an index *)

Section BuiltShards.
Context {P : Primitives} {W : WriterLaws P}.

(** A shard that any store may serve for this index. *)
Record index_shard (s : QueryShard) : Prop := mkIndexShard {
  is_shape : s = shard (qs_bucket s) (qs_sequence s) (qs_postings s);
  is_nonempty : qs_postings s <> [];
  is_postings : postings_ok (qs_postings s);
  is_sequence : qs_sequence s <= u32_max;
  is_size : vlen (query_shard_bytes s) <= MAX_QUERY_SHARD_BYTES;
  is_bucket : Forall (fun p => bucket (tp_term p) = qs_bucket s) (qs_postings s)
}.

Definition hit_in (entries : Postings) (h : FactHit) : Prop := exists t s, (t, s) ∈ entries /\ h ∈ s.

Record index_shards (entries : Postings) (shards : list QueryShard) : Prop := mkIndexShards {
  ix_each : Forall index_shard shards;
  ix_order : StronglySorted (fun s s' => lt_ord (shard_order s) (shard_order s')) shards;
  ix_hits : forall t, hits t (concat (qs_postings <$> shards)) = default [] (bmap_get t entries);
  ix_from : forall s p h, s ∈ shards -> p ∈ qs_postings s -> h ∈ tp_facts p -> hit_in entries h
}.

(** What the shards of a list of buckets are, bucket by bucket. *)
Lemma bucket_shards_each (entries : Postings) k ps shards :
  postings_ok (posting_of <$> entries) -> ps = bucketed k entries -> build_bucket k ps = Ok shards ->
  Forall index_shard shards /\ Forall (fun s => qs_bucket s = k) shards /\
  StronglySorted (fun s s' => lt_ord (shard_order s) (shard_order s')) shards /\
  (forall t, hits t (concat (qs_postings <$> shards)) = hits t ps) /\
  (forall s p h, s ∈ shards -> p ∈ qs_postings s -> h ∈ tp_facts p -> hit_in entries h).
Proof.
  intros Hok -> Hb. destruct (build_bucket_shards _ _ _ _ (bucketed_ok k entries Hok) Hb) as [Hpairs Hall Hord _].
  split_and!.
  - eapply list.Forall_impl; [exact Hall|]. intros s Hs. pose proof (bucket_of_cut _ _ _ _ _ Hs) as Hbk.
    destruct Hs as [H1 H2 H3 H4 H5 H6 _]. split; rewrite ?Hbk; try done; [lia| |].
    + unfold fits_shard in H5. by rewrite <- H1 in H5.
    + apply list.Forall_forall. intros p Hp. assert (tp_term p ∈ tp_term <$> bucketed k entries) as Hin.
      { apply H6, list_elem_of_fmap. eauto. }
      apply list_elem_of_fmap in Hin as (q & -> & Hq). by apply (bucketed_terms _ entries).
  - eapply list.Forall_impl; [exact Hall|]. intros s. apply bucket_of_cut.
  - done.
  - intros t. unfold hits. by rewrite Hpairs.
  - intros s p h Hs Hp Hh. rewrite list.Forall_forall in Hall. destruct (Hall s Hs) as [_ _ _ _ _ _ H7].
    specialize (H7 p h Hp Hh). unfold pairs in H7. apply list_elem_of_In, in_concat in H7 as (x & Hx & Hin).
    apply list_elem_of_In, list_elem_of_fmap in Hx as (q & -> & Hq). apply list_elem_of_In, list_elem_of_fmap in Hin as (h' & [= _ ->] & Hh').
    unfold bucketed in Hq. apply list_elem_of_fmap in Hq as ([t s'] & -> & [_ Hq]%list_elem_of_filter). by exists t, s'.
Qed.

Lemma try_map_cons_inv {E A C} (f : A -> Result E C) a l bs : try_map f (a :: l) = Ok bs ->
  exists b bs', bs = b :: bs' /\ f a = Ok b /\ try_map f l = Ok bs'.
Proof.
  cbn. rewrite result_bind_ok. intros (b & Hb & H). rewrite result_bind_ok in H. destruct H as (bs' & Hbs & [= <-]). eauto.
Qed.

Lemma built_shards (entries : Postings) : postings_ok (posting_of <$> entries) -> forall m built,
  bmap_wf m -> (forall k ps, (k, ps) ∈ m -> ps = bucketed k entries) ->
  try_map (fun e => build_bucket e.1 e.2) m = Ok built ->
  Forall index_shard (concat built) /\ Forall (fun s => qs_bucket s ∈ m.*1) (concat built) /\
  StronglySorted (fun s s' => lt_ord (shard_order s) (shard_order s')) (concat built) /\
  (forall t, hits t (concat (qs_postings <$> concat built)) = if decide (bucket t ∈ m.*1) then hits t (posting_of <$> entries) else []) /\
  (forall s p h, s ∈ concat built -> p ∈ qs_postings s -> h ∈ tp_facts p -> hit_in entries h).
Proof.
  intros Hok. induction m as [|[k ps] m IH]; intros built Hw Hm H.
  { injection H as <-. cbn. split_and!; try constructor; set_solver. }
  apply try_map_cons_inv in H as (shards & built' & -> & Hb & H). cbn [fst snd] in Hb.
  unfold bmap_wf in Hw. cbn in Hw. inversion_clear Hw as [|? ? Hw' Hlt]. rewrite list.Forall_forall in Hlt.
  destruct (bucket_shards_each entries k ps shards Hok (Hm k ps ltac:(set_solver)) Hb) as (A1 & A2 & A3 & A4 & A5).
  destruct (IH built' Hw' ltac:(intros; apply Hm; set_solver) H) as (B1 & B2 & B3 & B4 & B5). cbn [concat fmap list_fmap fst].
  split_and!.
  - by apply Forall_app.
  - apply Forall_app. split; [eapply list.Forall_impl; [exact A2|]; set_solver|eapply list.Forall_impl; [exact B2|]; set_solver].
  - apply StronglySorted_app. split_and!; [done|done|]. intros s s' Hs Hs'. rewrite list.Forall_forall in A2. rewrite list.Forall_forall in B2.
    unfold lt_ord, shard_order. rewrite cmp_pair, (A2 s Hs). specialize (Hlt _ (B2 s' Hs')). by rewrite Hlt.
  - intros t. rewrite fmap_app, concat_app, hits_app, A4, B4, (Hm k ps) by set_solver. rewrite bucketed_hits.
    destruct (decide (bucket t = k)) as [<-|Hne].
    + rewrite (decide_True (P := bucket t ∈ bucket t :: m.*1)) by set_solver.
      rewrite decide_False; [by rewrite app_nil_r|]. intros Hin. by apply Hlt, lt_irrefl in Hin.
    + cbn [app]. destruct (decide (bucket t ∈ m.*1)); [by rewrite decide_True by set_solver|by rewrite decide_False by set_solver].
  - intros s p h [Hs|Hs]%elem_of_app; [by apply A5|by apply B5].
Qed.

Lemma index_shards_built l st built :
  postings_of l st -> Forall (fun e => e.1 <> EmptyString) l ->
  try_map (fun e => build_bucket e.1 e.2) (foldl add_to_bucket [] st.1) = Ok built ->
  index_shards st.1 (concat built).
Proof.
  intros Hst Hne H. pose proof (entries_ok _ _ Hst Hne) as Hok. destruct (buckets_spec st.1) as [Hw Hg Hs].
  destruct (built_shards st.1 Hok _ built Hw) with (2 := H) as (A1 & A2 & A3 & A4 & A5).
  { intros k ps Hin. apply bmap_get_elem in Hin; [|done]. rewrite <- Hg, Hin. done. }
  split; [done|done| |done]. intros t. rewrite A4, <- hits_entries by apply Hst.
  destruct (decide (bucket t ∈ (foldl add_to_bucket [] st.1).*1)) as [|Hn]; [done|].
  apply bmap_get_none_key in Hn. specialize (Hg (bucket t)). rewrite Hn in Hg. cbn in Hg.
  pose proof (bucketed_hits (bucket t) t st.1) as Hb. rewrite <- Hg, decide_True in Hb by done. by rewrite <- Hb.
Qed.
End BuiltShards.

(* --------------------------------------------------------------------- *)
(** ** A stored shard reads back *)

(** A hit is written like the record of its fact. *)
Definition record_of (h : FactHit) : FactRecord :=
  {| fact_key := hit_key h; domain_uri := hit_domain h; payload := hit_payload h |}.
Definition hit_typed (h : FactHit) : Prop := fact_typed (record_of h).
Definition shard_typed (s : QueryShard) : Prop := Forall (fun p => Forall hit_typed (tp_facts p)) (qs_postings s).

Lemma decode_hit_record v : decode_hit v = hit_of <$> decode_fact v.
Proof.
  unfold decode_hit, decode_fact. destruct (decode_struct _ v) as [[|a [|b [|c [|]]]]|]; try done.
  destruct (decode_string a), (decode_capability b), (decode_cas_object c); done.
Qed.

Lemma decode_hit_written h : hit_typed h -> decode_hit (sort_value (hit_value h)) = Some h.
Proof.
  intros Ht. rewrite decode_hit_record. change (hit_value h) with (fact_value (record_of h)).
  rewrite decode_fact_written by done. by destruct h.
Qed.

Lemma decode_list_written {A} (decode : Value -> option A) (encode : A -> Value) (Q : A -> Prop) l :
  (forall a, Q a -> decode (sort_value (encode a)) = Some a) -> Forall Q l ->
  decode_list decode (map sort_value (encode <$> l)) = Some l.
Proof.
  intros Hd Hl. change (map sort_value ?x) with (sort_value <$> x). rewrite <- list_fmap_compose.
  apply (decode_list_fmap decode (sort_value ∘ encode)). eapply list.Forall_impl; [exact Hl|]. intros a. apply Hd.
Qed.

Lemma decode_posting_written p : Forall hit_typed (tp_facts p) -> decode_posting (sort_value (posting_value p)) = Some p.
Proof.
  intros Ht. rewrite posting_sorted. unfold decode_posting. cbn -[map fmap decode_list decode_hit].
  rewrite (decode_list_written decode_hit hit_value hit_typed) by (try done; apply decode_hit_written). by destruct p.
Qed.

Lemma decode_query_shard_written s : shard_typed s -> qs_sequence s <= u32_max ->
  decode_query_shard (sort_value (query_shard_value s)) = Some s.
Proof.
  intros Ht Hn. rewrite query_shard_sorted. unfold decode_query_shard.
  cbn -[map fmap decode_list decode_posting decode_u32 u32_max]. rewrite decode_u32_natural by done.
  rewrite (decode_list_written decode_posting posting_value (fun p => Forall hit_typed (tp_facts p)))
    by (try done; apply decode_posting_written).
  by destruct s.
Qed.

(** A list of written values is plain and shallow when its elements are. *)
Lemma list_plain {A} (encode : A -> Value) (Q : A -> Prop) k l :
  (forall a, Q a -> plain (sort_value (encode a)) = true /\ nesting (sort_value (encode a)) <= k) -> Forall Q l ->
  forallb plain (map sort_value (encode <$> l)) = true /\
  foldr (fun a acc => N.max (nesting a + 1) acc) 0 (map sort_value (encode <$> l)) <= k + 1.
Proof.
  intros Hq. change (map sort_value ?x) with (sort_value <$> x). induction 1 as [|a l Ha Hl [IH1 IH2]]; [by split; cbn; [|lia]|].
  destruct (Hq a Ha) as [H1 H2]. rewrite !fmap_cons. cbn [forallb foldr]. rewrite H1, IH1. split; [done|lia].
Qed.

Lemma posting_plain p : Forall hit_typed (tp_facts p) ->
  plain (sort_value (posting_value p)) = true /\ nesting (sort_value (posting_value p)) <= 4.
Proof.
  intros Ht. rewrite posting_sorted. destruct (list_plain hit_value hit_typed 2 (tp_facts p)) as [H1 H2]; [|done|].
  { intros h Hh. change (hit_value h) with (fact_value (record_of h)). destruct (fact_plain (record_of h) Hh) as [? ->]. done. }
  cbn -[N.max N.add fmap map]. rewrite H1. split; [done|]. lia.
Qed.

Lemma query_shard_plain s : shard_typed s -> qs_sequence s <= u32_max ->
  plain (sort_value (query_shard_value s)) = true /\ nesting (sort_value (query_shard_value s)) <= 64.
Proof.
  intros Ht Hn. rewrite query_shard_sorted.
  destruct (list_plain posting_value (fun p => Forall hit_typed (tp_facts p)) 4 (qs_postings s)) as [H1 H2];
    [apply posting_plain|done|].
  cbn -[N.max N.add fmap map u64_max N.leb]. rewrite H1, (proj2 (N.leb_le _ _)) by (unfold u32_max, u64_max in *; lia).
  split; [done|]. lia.
Qed.

Section Loading.
Context {P : Primitives} {R : JsonReader} {S : Type} {C : CasOps S}.
Context {W : WriterLaws P} {RL : ReaderLaws P R}.

Lemma windows_terms ps : windows_all (fun p q => ltb (tp_term p) (tp_term q)) ps = true <-> StronglySorted term_lt ps.
Proof. apply (windows_all_strict tp_term). Qed.

Lemma windows_hits (l : list FactHit) : windows_all ltb l = true <-> StronglySorted lt_ord l.
Proof. apply (windows_all_strict hit_order l). Qed.

Lemma posting_accepted b p : posting_ok p -> bucket (tp_term p) = b -> bad_posting b p = false.
Proof.
  intros [H1 H2 H3] Hb. unfold bad_posting. bool_split.
  - by apply str_is_empty_false.
  - by apply str_neqb_false.
  - by destruct (tp_facts p).
  - by apply windows_hits.
Qed.

Lemma verify_shard_ok s o : index_shard s -> verify_shard (reference_of s o) s (query_shard_bytes s) = Ok tt.
Proof.
  intros [H1 H2 [H3 H3'] H4 H5 H6]. unfold verify_shard, corrupt. rewrite guard_ok. split; [|done].
  cbn [reference_of qr_bucket qr_sequence qr_first_term qr_last_term]. rewrite bool_decide_eq_true_2 by done.
  rewrite N.eqb_refl, !str_neqb_refl. cbn [negb orb].
  assert (qs_schema s = QUERY_SHARD_SCHEMA) as -> by (by rewrite H1). rewrite str_neqb_refl. cbn [orb].
  bool_split.
  - assert (qs_first_term s = default EmptyString (tp_term <$> head (qs_postings s))) as -> by (by rewrite H1 at 1).
    assert (qs_last_term s = default EmptyString (tp_term <$> list.last (qs_postings s))) as -> by (by rewrite H1 at 1).
    destruct (qs_postings s) as [|p ps] eqn:E; [done|].
    destruct (list.last (p :: ps)) as [q|] eqn:El; [|by apply list.last_None in El]. cbn. by rewrite !str_neqb_refl.
  - by apply windows_terms.
  - apply existsb_false. rewrite list.Forall_forall in *. intros p Hp. apply posting_accepted; [by apply H3'|by apply H6].
Qed.

Lemma load_shard_served u s o : index_shard s -> shard_typed s ->
  cas_read u o MAX_QUERY_SHARD_BYTES = (u, Ok (query_shard_bytes s)) ->
  load_shard u (reference_of s o) = (u, Ok s).
Proof.
  intros Hs Ht Hr. unfold load_shard. cbn [reference_of qr_object]. rewrite Hr. cbn [store_bind].
  destruct (query_shard_plain s Ht (is_sequence _ Hs)) as [Hp Hd].
  unfold query_shard_bytes, value_bytes at 1. rewrite read_written by done.
  rewrite decode_query_shard_written by (try done; apply Hs). cbn [ok_or result_bind].
  change (to_vec (sort_value (query_shard_value s))) with (query_shard_bytes s). by rewrite verify_shard_ok.
Qed.
End Loading.

(* --------------------------------------------------------------------- *)
(** ** Reading the posting of a term *)

Lemma not_after_le (x y : string) : ~ lt_ord y x -> leb x y = true.
Proof. intros H. unfold leb. apply negb_true_iff. by apply ltb_ge. Qed.

Lemma first_term_le ps p : postings_ok ps -> p ∈ ps -> leb (default EmptyString (tp_term <$> head ps)) (tp_term p) = true.
Proof.
  intros Hok Hp. apply not_after_le. destruct ps as [|q ps]; [set_solver|]. cbn.
  apply postings_ok_cons in Hok as (_ & Hl & _). rewrite list.Forall_forall in Hl.
  apply elem_of_cons in Hp as [->|Hp]; [apply lt_irrefl|]. apply lt_asym. by apply (Hl p).
Qed.

Lemma last_term_ge ps p : postings_ok ps -> p ∈ ps -> leb (tp_term p) (default EmptyString (tp_term <$> list.last ps)) = true.
Proof.
  intros Hok Hp. apply not_after_le. destruct (list.last ps) as [q|] eqn:E.
  2: { apply list.last_None in E as ->. set_solver. }
  cbn. apply list.last_Some in E as [l ->]. apply postings_ok_app in Hok as (_ & _ & Hlt).
  apply elem_of_app in Hp as [Hp| ->%list_elem_of_singleton]; [|apply lt_irrefl]. apply lt_asym, (Hlt p q); set_solver.
Qed.

Lemma hits_elem t ps h : h ∈ hits t ps -> exists p, p ∈ ps /\ tp_term p = t /\ h ∈ tp_facts p.
Proof.
  induction ps as [|p ps IH]; [set_solver|]. rewrite hits_cons, elem_of_app. intros [Hh|Hh].
  - destruct (decide (tp_term p = t)); [|set_solver]. exists p. set_solver.
  - destruct (IH Hh) as (q & ? & ? & ?). exists q. set_solver.
Qed.

Lemma bset_extend_app {A} `{Ord A} (s a b : list A) : bset_extend (bset_extend s a) b = bset_extend s (a ++ b).
Proof. unfold bset_extend. by rewrite foldl_app. Qed.

Section Matches.
Context {P : Primitives} {U : Unicode} {R : JsonReader} {S : Type} {C : CasOps S}.
Context {W : WriterLaws P} {RL : ReaderLaws P R}.

(** A store that serves the shards of an index and does not change when read. *)
Definition serves_shards (u : S) (shards : list QueryShard) (references : list QueryShardReference) : Prop :=
  Forall2 (fun s r => exists o, r = reference_of s o /\
    cas_read u o MAX_QUERY_SHARD_BYTES = (u, Ok (query_shard_bytes s))) shards references.

Lemma unrouted_hits t s o : index_shard s -> routed t (reference_of s o) = false -> hits t (qs_postings s) = [].
Proof.
  intros [H1 H2 H3 H4 H5 H6] Hr. destruct (hits t (qs_postings s)) as [|h l] eqn:E; [done|]. exfalso.
  destruct (hits_elem t (qs_postings s) h) as (p & Hp & <- & _); [rewrite E; set_solver|].
  rewrite list.Forall_forall in H6. unfold routed in Hr. cbn [reference_of qr_bucket qr_first_term qr_last_term] in Hr.
  rewrite <- (H6 p Hp), str_eqb_refl in Hr.
  assert (qs_first_term s = default EmptyString (tp_term <$> head (qs_postings s))) as Hf by (by rewrite H1 at 1).
  assert (qs_last_term s = default EmptyString (tp_term <$> list.last (qs_postings s))) as Hl by (by rewrite H1 at 1).
  rewrite Hf, Hl, first_term_le, last_term_ge in Hr by done. done.
Qed.

Lemma read_shards_served u t shards : forall references acc read,
  Forall index_shard shards -> Forall shard_typed shards -> serves_shards u shards references ->
  store_fold (read_term_shard t) u (acc, read) (List.filter (routed t) references) =
  (u, Ok (bset_extend acc (hits t (concat (qs_postings <$> shards))),
          bset_extend read ((fun r => digest (qr_object r)) <$> List.filter (routed t) references))).
Proof.
  induction shards as [|s shards IH]; intros references acc read Hi Ht Hu; inversion Hu as [|? r ? rs (o & -> & Hr) Hrs]; subst; [done|].
  inversion_clear Hi. inversion_clear Ht. rewrite fmap_cons. cbn [concat List.filter]. rewrite hits_app.
  destruct (routed t (reference_of s o)) eqn:Er.
  - cbn [store_fold]. unfold read_term_shard at 1. rewrite load_shard_served by done. cbn [store_bind fst snd].
    rewrite IH by done. do 3 f_equal. rewrite <- bset_extend_app. f_equal.
    rewrite <- find_posting_hits by (destruct H; done). by destruct (find_posting t (qs_postings s)).
  - rewrite (unrouted_hits t s o) by done. by apply IH.
Qed.

(** What a posting holds in an index. *)
Definition posting_in (entries : Postings) (t : string) : list FactHit := default [] (bmap_get t entries).

(** An index together with a store that serves it. *)
Record index_in (u : S) (entries : Postings) (index : QueryIndexManifest) : Prop := mkIndexIn {
  in_shards : exists shards, index_shards entries shards /\ Forall shard_typed shards /\ serves_shards u shards (qi_shards index);
  in_sorted : forall t, StronglySorted lt_ord (posting_in entries t);
  in_manifest : verify_index_manifest u index = (u, Ok tt)
}.

(** Reading a term needs the shards alone, not a manifest that verifies. *)
Lemma read_term_matches_shards u entries shards index t read : index_shards entries shards -> Forall shard_typed shards ->
  serves_shards u shards (qi_shards index) -> StronglySorted lt_ord (posting_in entries t) ->
  exists read', read_term_matches u index t read = (u, Ok (posting_in entries t, read')).
Proof.
  intros [H1 H2 H3 H4] Ht Hu Hs. eexists. unfold read_term_matches.
  rewrite (read_shards_served u t shards) by done. rewrite H3. do 3 f_equal. apply hit_set_id, Hs.
Qed.
Lemma read_term_matches_served u entries index t read : index_in u entries index ->
  exists read', read_term_matches u index t read = (u, Ok (posting_in entries t, read')).
Proof. intros [(shards & Hi & Ht & Hu) Hs _]. by eapply read_term_matches_shards. Qed.

(* --------------------------------------------------------------------- *)
(** ** Queries *)

Definition lanes_for (entries : Postings) (requested : list string) : list (list FactHit) :=
  ((fun t => posting_in entries (direct_name_term t)) <$> requested) ++
  (posting_in entries <$> requested) ++
  ((fun t => bset_of_list (concat ((fun a => posting_in entries (direct_name_term a)) <$> query_aliases t))) <$> requested) ++
  ((fun t => bset_of_list (concat (posting_in entries <$> query_aliases t))) <$> requested).

Definition overflow_for (index : QueryIndexManifest) (requested : list string) : bool :=
  existsb (fun t => existsb (overflowed index) (t :: query_aliases t)) requested.

Lemma query_aliases_served u entries index : index_in u entries index -> forall aliases st,
  exists read, store_fold (query_alias index) u st aliases =
    (u, Ok {| as_direct := bset_extend (as_direct st) (concat ((fun a => posting_in entries (direct_name_term a)) <$> aliases));
              as_matches := bset_extend (as_matches st) (concat (posting_in entries <$> aliases));
              as_read := read; as_overflow := as_overflow st || existsb (overflowed index) aliases |}).
Proof.
  intros Hi. induction aliases as [|a aliases IH]; intros st.
  { exists (as_read st). cbn. rewrite orb_false_r. by destruct st. }
  cbn [store_fold]. unfold query_alias at 1.
  destruct (read_term_matches_served u entries index (direct_name_term a) (as_read st) Hi) as [r1 ->]. cbn [store_bind fst snd].
  destruct (read_term_matches_served u entries index a r1 Hi) as [r2 ->]. cbn [store_bind fst snd].
  destruct (IH {| as_direct := bset_extend (as_direct st) (posting_in entries (direct_name_term a));
    as_matches := bset_extend (as_matches st) (posting_in entries a); as_read := r2;
    as_overflow := as_overflow st || overflowed index a |}) as [read ->].
  exists read. cbn [as_direct as_matches as_overflow fmap list_fmap concat existsb]. by rewrite !bset_extend_app, orb_assoc.
Qed.

Lemma query_terms_served u entries index : index_in u entries index -> forall requested st,
  exists st', store_fold (query_term index) u st requested = (u, Ok st') /\
    exact_direct st' = exact_direct st ++ ((fun t => posting_in entries (direct_name_term t)) <$> requested) /\
    exact_matched st' = exact_matched st ++ (posting_in entries <$> requested) /\
    alias_direct st' = alias_direct st ++
      ((fun t => bset_of_list (concat ((fun a => posting_in entries (direct_name_term a)) <$> query_aliases t))) <$> requested) /\
    alias_matched st' = alias_matched st ++ ((fun t => bset_of_list (concat (posting_in entries <$> query_aliases t))) <$> requested) /\
    alias_overflow st' = alias_overflow st || overflow_for index requested.
Proof.
  intros Hi. induction requested as [|t requested IH]; intros st.
  { exists st. cbn. by rewrite !app_nil_r, orb_false_r. }
  cbn [store_fold]. unfold query_term at 1.
  destruct (read_term_matches_served u entries index (direct_name_term t) (shards_read st) Hi) as [r1 ->]. cbn [store_bind fst snd].
  destruct (read_term_matches_served u entries index t r1 Hi) as [r2 ->]. cbn [store_bind fst snd].
  destruct (query_aliases_served u entries index Hi (query_aliases t) {| as_direct := []; as_matches := []; as_read := r2;
    as_overflow := alias_overflow st || overflowed index t |}) as [read ->]. cbn [store_bind as_direct as_matches as_read as_overflow].
  match goal with |- context [store_fold (query_term index) u ?x requested] => destruct (IH x) as (st' & -> & E1 & E2 & E3 & E4 & E5) end.
  exists st'. rewrite E1, E2, E3, E4, E5.
  cbn [exact_direct exact_matched alias_direct alias_matched alias_overflow fmap list_fmap overflow_for existsb].
  rewrite <- !app_assoc. unfold overflow_for. by rewrite !orb_assoc.
Qed.

(** The answer to a query on a served index. *)
Lemma query_served u entries index terms max_facts : index_in u entries index ->
  terms <> [] -> vlen terms <= MAX_QUERY_TERMS -> max_facts <> 0 -> normalize_terms terms <> [] ->
  exists context, query u index terms max_facts = (u, Ok context) /\
    qc_index_id context = index_id index /\ qc_schema context = QUERY_CONTEXT_SCHEMA /\
    requested_terms context = normalize_terms terms /\
    qc_facts context = fair_fact_selection fact_family (lanes_for entries (normalize_terms terms)) (N.min max_facts MAX_CONTEXT_FACTS) /\
    truncated context = (vlen (qc_facts context) <? vlen (bset_of_list (concat (lanes_for entries (normalize_terms terms)))))
      || overflow_for index (normalize_terms terms).
Proof.
  intros Hi Hne Hle Hmax Hreq. unfold query. rewrite (in_manifest _ _ _ Hi). cbn [store_bind].
  destruct terms as [|t0 ts]; [done|]. rewrite (proj2 (N.ltb_ge _ _) Hle), (proj2 (N.eqb_neq _ _) Hmax). cbn [orb].
  set (terms := t0 :: ts) in *. destruct (query_terms_served u entries index Hi (normalize_terms terms) query_start)
    as (st & Hst & E1 & E2 & E3 & E4 & E5).
  destruct (normalize_terms terms) as [|r rs] eqn:En; [done|]. rewrite <- En in *. rewrite Hst. cbn [store_bind].
  eexists. split; [reflexivity|]. cbn [qc_index_id qc_schema requested_terms qc_facts truncated].
  assert (selection_lanes st = lanes_for entries (normalize_terms terms)) as ->.
  { unfold selection_lanes, lanes_for. by rewrite E1, E2, E3, E4. }
  by rewrite E5.
Qed.
End Matches.
