(* ===== verification/QueryAnswers.v ===== *)
(** * Answers of a built index

    The theorems that tie the query index together: selection over hits is fair and
    bounded, an index built from a generation verifies, answers every term with its
    bounded posting, and an untruncated query finds every fact; and the way an index
    becomes unusable. *)

From S2P Require Import Prelude Order Collections Text Json Canonical Instances JsonFormat JsonRead Errors CasObject.
From S2P Require Import CasInterface AdapterV2 FactRun QueryShards QueryTerms QuerySelect QueryIndex QuerySpec.
From S2P Require GenerationV2 GenerationSpec.

(* --------------------------------------------------------------------- *)
(** ** Selection over hits *)

(** The references of facts that verified carry the schema of references, so the
    order of hits identifies them. *)
Definition sealed (h : FactHit) : Prop := schema (hit_payload h) = CAS_OBJECT_SCHEMA.
Definition hit_of_order (o : HitOrder) : FactHit :=
  let '(key, (domain, (object_schema, (digest, size)))) := o in
  {| hit_key := key; hit_domain := domain;
     hit_payload := {| digest := digest; object_schema := object_schema; schema := CAS_OBJECT_SCHEMA; size := size |} |}.

Lemma hit_of_order_cmp x y : cmp (hit_of_order x) (hit_of_order y) = cmp x y.
Proof. destruct x as (? & ? & ? & ? & ?), y as (? & ? & ? & ? & ?). done. Qed.
Lemma order_hit_of_order x : hit_order (hit_of_order x) = x.
Proof. by destruct x as (? & ? & ? & ? & ?). Qed.
Lemma hit_of_order_sealed x : sealed (hit_of_order x).
Proof. by destruct x as (? & ? & ? & ? & ?). Qed.
Lemma sealed_hit_order h : sealed h -> hit_of_order (hit_order h) = h.
Proof. destruct h as [k d [dg os sc sz]]. unfold sealed. cbn. by intros ->. Qed.

Lemma sealed_list l : Forall sealed l -> hit_of_order <$> (hit_order <$> l) = l.
Proof.
  induction 1 as [|h l Hh Hl IH]; [done|]. rewrite !fmap_cons, IH. by rewrite sealed_hit_order.
Qed.

Lemma sealed_lanes lanes : Forall sealed (concat lanes) ->
  lanes = (fun s : list HitOrder => hit_of_order <$> s) <$> ((fun s : list FactHit => hit_order <$> s) <$> lanes).
Proof.
  induction lanes as [|lane lanes IH]; [done|]. cbn [concat]. intros [Hl Hls]%Forall_app. rewrite !fmap_cons, <- IH by done.
  by rewrite sealed_list.
Qed.

Lemma hit_set_elem l h : Forall sealed l -> h ∈ bset_of_list l <-> h ∈ l.
Proof.
  intros Hl. rewrite <- (sealed_list l Hl), (bset_of_list_fmap hit_of_order hit_of_order_cmp), !list_elem_of_fmap.
  by setoid_rewrite bset_of_list_elem.
Qed.

(** What a selection of hits promises. *)
Record fair_hits (lanes : list (list FactHit)) (limit : N) (r : list FactHit) : Prop := mkFairHits {
  fh_sorted : StronglySorted lt_ord r;
  fh_sound : forall h, h ∈ r -> h ∈ concat lanes;
  fh_size : vlen r = N.min limit (vlen (bset_of_list (concat lanes)));
  fh_complete : vlen r = vlen (bset_of_list (concat lanes)) -> forall h, h ∈ concat lanes -> h ∈ r;
  fh_fair : vlen lanes <= limit -> forall lane, lane ∈ lanes -> lane <> [] -> exists h, h ∈ lane /\ h ∈ r
}.

Lemma concat_fmap_hits (lanes : list (list HitOrder)) :
  concat ((fun s : list HitOrder => hit_of_order <$> s) <$> lanes) = hit_of_order <$> concat lanes.
Proof. induction lanes as [|lane lanes IH]; [done|]. rewrite fmap_cons. cbn [concat]. by rewrite fmap_app, IH. Qed.

Lemma select_hits lanes limit : Forall sealed (concat lanes) ->
  fair_hits lanes limit (fair_fact_selection fact_family lanes limit).
Proof.
  intros Hs. rewrite (sealed_lanes lanes Hs). set (keys := (fun s : list FactHit => hit_order <$> s) <$> lanes). clearbody keys. clear lanes Hs.
  rewrite (fair_fact_selection_fmap hit_of_order hit_of_order_cmp (fun o => semantic_fact_key o.1) fact_family)
    by (intros x; by destruct x as (? & ? & ? & ? & ?)).
  destruct (fair_selection_ok (fun o : HitOrder => semantic_fact_key o.1) keys limit) as [Hw Hsound Hsize Hfair].
  set (r := fair_fact_selection _ keys limit) in *.
  assert (forall l : list HitOrder, vlen (hit_of_order <$> l) = vlen l) as Hlen by (intros; unfold vlen; by rewrite length_fmap).
  split.
  - apply sorted_hits. rewrite <- list_fmap_compose.
    replace (hit_order ∘ hit_of_order <$> r) with r; [done|]. symmetry. etransitivity; [|apply list_fmap_id].
    apply list_fmap_ext. intros i x _. apply order_hit_of_order.
  - rewrite concat_fmap_hits. intros h (x & -> & Hx)%list_elem_of_fmap. apply list_elem_of_fmap. eauto.
  - rewrite concat_fmap_hits, (bset_of_list_fmap hit_of_order hit_of_order_cmp), !Hlen. done.
  - rewrite concat_fmap_hits, (bset_of_list_fmap hit_of_order hit_of_order_cmp), !Hlen.
    intros Heq h (x & -> & Hx)%list_elem_of_fmap. apply list_elem_of_fmap. exists x. split; [done|].
    assert (Permutation r (bset_of_list (concat keys))) as Hp.
    { apply Permutation.NoDup_Permutation_bis; [by apply NoDup_ListNoDup, bset_wf_NoDup|unfold vlen in Heq; lia|].
      intros a Ha. apply list_elem_of_In, bset_of_list_elem, Hsound, list_elem_of_In, Ha. }
    rewrite Hp. by apply bset_of_list_elem.
  - intros Hn lane (k & -> & Hk)%list_elem_of_fmap Hne. unfold vlen in Hn. rewrite length_fmap in Hn.
    destruct (Hfair Hn k Hk) as (x & Hx & Hr); [by intros ->|]. exists (hit_of_order x). split; apply list_elem_of_fmap; eauto.
Qed.

(** Selection is fair and bounded.  From lanes of sealed hits it returns distinct
    hits of the lanes in order, as many as the limit and the distinct matches allow;
    when the limit admits one fact per lane, every non-empty lane is represented; and
    the search ends within one pass per match. *)
Theorem fair_fact_selection_spec lanes limit : Forall sealed (concat lanes) ->
  fair_hits lanes limit (fair_fact_selection fact_family lanes limit) /\
  Forall (fun lane => Permutation (hit_order <$> diversify_fact_families fact_family lane) (bset_of_list (hit_order <$> lane))) lanes.
Proof.
  intros Hs. split; [by apply select_hits|]. apply list.Forall_forall. intros lane _.
  rewrite <- (diversify_fmap hit_order hit_cmp fact_family (fun o => semantic_fact_key o.1)) by done. apply diversify_perm.
Qed.

Module SelectExample.
Definition hit (k : string) : FactHit := ShardExample.hit k.
Definition lanes : list (list FactHit) := [[hit "a"; hit "b"; hit "c"]; []; [hit "a"]; [hit "z"]].
End SelectExample.

Lemma fair_fact_selection_spec_witness :
  exists h, h ∈ [SelectExample.hit "z"] /\ h ∈ fair_fact_selection fact_family SelectExample.lanes 4.
Proof.
  destruct (fair_fact_selection_spec SelectExample.lanes 4) as [[_ _ _ _ Hfair] _].
  - repeat constructor.
  - apply Hfair; [vm_compute; discriminate| |discriminate]. do 3 apply list_elem_of_further. apply list_elem_of_here.
Defined.

(* --------------------------------------------------------------------- *)
(** ** Building from a generation *)

(** What the facts of a generation post. *)
Definition posted_by (terms : FactRecord -> list string) (facts : list FactRecord) : list (string * FactHit) :=
  concat ((fun f => (fun t => (t, hit_of f)) <$> terms f) <$> facts).
(** The hits of the facts that have a term. *)
Definition facts_with (terms : FactRecord -> list string) (t : string) (facts : list FactRecord) : list FactHit :=
  concat ((fun f => (fun _ => hit_of f) <$> filter (fun x => x = t) (terms f)) <$> facts).

Lemma posted_facts_with terms t facts : posted t (posted_by terms facts) = facts_with terms t facts.
Proof.
  unfold posted, posted_by, facts_with. induction facts as [|f facts IH]; [done|]. rewrite !fmap_cons. cbn [concat].
  rewrite list.filter_app, fmap_app, IH. f_equal. clear IH. induction (terms f) as [|x l IH]; [done|].
  rewrite fmap_cons, !list.filter_cons. cbn [fst]. destruct (decide (x = t)); [|done]. by rewrite !fmap_cons, IH.
Qed.

Lemma facts_with_elem terms t facts h : h ∈ facts_with terms t facts <-> exists f, f ∈ facts /\ h = hit_of f /\ t ∈ terms f.
Proof.
  unfold facts_with. rewrite list_elem_of_In, in_concat. split.
  - intros (x & Hx & Hh). apply list_elem_of_In, list_elem_of_fmap in Hx as (f & -> & Hf).
    apply list_elem_of_In, list_elem_of_fmap in Hh as (y & -> & [-> Hy]%list_elem_of_filter). eauto.
  - intros (f & Hf & -> & Ht). eexists. split; [apply list_elem_of_In, list_elem_of_fmap; eauto|].
    apply list_elem_of_In, list_elem_of_fmap. exists t. split; [done|]. by apply list_elem_of_filter.
Qed.

Section Building.
Context {P : Primitives} {U : Unicode} {R : JsonReader} {S : Type} {C : CasOps S} {B : CasBatchOps S}.

(** A generation that the store serves, whose facts have the given terms. *)
Record indexable (t : S) (g : GenerationV2.GenerationManifest) (facts : list FactRecord) (terms : FactRecord -> list string)
  : Prop := mkIndexable {
  ib_generation : exists chunks, GenerationSpec.generation_ok g chunks /\ GenerationSpec.readable t g chunks /\ facts = concat chunks;
  ib_shards : vlen (GenerationV2.shards g) <= u32_max;
  ib_count : GenerationV2.gm_fact_count g <= u64_max;
  ib_terms : forall f, f ∈ facts -> exists ts, fact_query_terms t f = (t, Ok ts) /\ terms f = posted_terms ts
}.

Lemma index_fact_reads t g facts terms st f : indexable t g facts terms -> f ∈ facts ->
  index_fact t st f = ((t, foldl (fun st e => insert_bounded_posting st e.1 e.2) st ((fun x => (x, hit_of f)) <$> terms f)), Ok tt).
Proof.
  intros Hi Hf. destruct (ib_terms _ _ _ _ Hi f Hf) as (ts & Hts & ->). unfold index_fact. rewrite Hts. do 2 f_equal.
  revert st. induction (posted_terms ts) as [|x l IH]; intros st; [done|]. rewrite fmap_cons. cbn [foldl fst snd]. by rewrite IH.
Qed.

Lemma visit_posts t g facts terms : indexable t g facts terms -> forall l st, (forall f, f ∈ l -> f ∈ facts) ->
  GenerationV2.visit_all index_fact t st l =
  ((t, foldl (fun st e => insert_bounded_posting st e.1 e.2) st (posted_by terms l)), Ok tt).
Proof.
  intros Hi. induction l as [|f l IH]; intros st Hl; [done|]. cbn [GenerationV2.visit_all].
  rewrite (index_fact_reads t g facts terms) by (try done; apply Hl; set_solver). rewrite IH by (intros; apply Hl; set_solver).
  unfold posted_by. rewrite fmap_cons. cbn [concat]. by rewrite foldl_app.
Qed.

Context {W : WriterLaws P} {RL : ReaderLaws P R} {L : @CasLaws S P C}.

Lemma visit_indexable t g facts terms : indexable t g facts terms ->
  GenerationV2.visit_facts index_fact t ([], []) g = ((t, post_all (posted_by terms facts)), Ok tt).
Proof.
  intros Hi. destruct (ib_generation _ _ _ _ Hi) as (chunks & Hg & Hr & ->).
  rewrite (GenerationSpec.visit_facts_readable index_fact t g chunks).
  - apply (visit_posts t g (concat chunks) terms Hi). done.
  - done.
  - done.
  - apply Hi.
  - apply Hi.
  - intros v f Hf. by rewrite (index_fact_reads t g (concat chunks) terms).
Qed.

Lemma indexable_facts t g facts terms f : indexable t g facts terms -> f ∈ facts -> hit_typed (hit_of f) /\ sealed (hit_of f).
Proof.
  intros Hi Hf. destruct (ib_generation _ _ _ _ Hi) as (chunks & Hg & _ & ->). pose proof (GenerationSpec.gen_facts _ _ Hg) as Hall.
  rewrite list.Forall_forall in Hall. destruct (Hall f Hf) as [Hv Ht]. split; [by destruct f|].
  unfold fact_validate, invalid in Hv. rewrite guard_ok, validate_cas_ok in Hv. by destruct Hv as [_ [? _ _]].
Qed.

Lemma direct_terms_nonempty payload t : t ∈ direct_terms payload -> t <> EmptyString.
Proof.
  unfold direct_terms. rewrite sort_dedup_elem, elem_of_app. intros [Ht|Ht].
  - apply list_elem_of_fmap in Ht as (x & -> & _). done.
  - apply list_elem_of_In, in_concat in Ht as (l & Hl & Ht). apply list_elem_of_In, list_elem_of_fmap in Hl as (name & -> & _).
    apply list_elem_of_In, list_elem_of_fmap in Ht as (x & -> & _). done.
Qed.

Lemma index_term_nonempty values t : t ∈ normalize_index_terms values -> t <> EmptyString.
Proof.
  intros Ht. destruct (index_terms_extend values) as (_ & _ & Hall). rewrite list.Forall_forall in Hall.
  destruct (Hall t Ht) as [Hlo _]. by intros ->.
Qed.

Lemma posted_terms_nonempty t f t' ts : fact_query_terms t f = (t', Ok ts) -> Forall (fun x => x <> EmptyString) (posted_terms ts).
Proof.
  unfold fact_query_terms, posted_terms. set (values := bset_of_list _). intros H. apply list.Forall_forall. intros x Hx.
  rewrite elem_of_app, sort_dedup_elem in Hx. destruct (_ <? _).
  { injection H as _ <-. destruct Hx as [Hx|Hx]; [by eapply index_term_nonempty|set_solver]. }
  rewrite store_bind_ok in H. destruct H as (s1 & bytes & _ & [= _ H]). unfold document_terms in H. rewrite result_bind_ok in H.
  destruct H as ([vs direct] & Hd & [= <-]). destruct Hx as [Hx|Hx]; [by eapply index_term_nonempty|].
  destruct (collected <$> read_document bytes) as [v|]; [|injection Hd as <- <-; set_solver].
  rewrite result_bind_ok in Hd. destruct Hd as (vs' & _ & [= <- <-]). destruct v; try set_solver. by eapply direct_terms_nonempty.
Qed.

Lemma posted_nonempty t g facts terms : indexable t g facts terms ->
  Forall (fun e => e.1 <> EmptyString) (posted_by terms facts).
Proof.
  intros Hi. apply list.Forall_forall. intros e He. unfold posted_by in He. apply list_elem_of_In, in_concat in He as (l & Hl & He).
  apply list_elem_of_In, list_elem_of_fmap in Hl as (f & -> & Hf). apply list_elem_of_In, list_elem_of_fmap in He as (x & -> & Hx).
  destruct (ib_terms _ _ _ _ Hi f Hf) as (ts & Hts & Heq). rewrite Heq in Hx. apply posted_terms_nonempty in Hts.
  rewrite list.Forall_forall in Hts. by apply Hts.
Qed.

(** The shards a build packs what was posted into. *)
Definition packed_shards (l : list (string * FactHit)) : Res (list QueryShard) :=
  let? packed := try_map (fun e => build_bucket e.1 e.2) (foldl add_to_bucket [] (post_all l).1) in Ok (concat packed).

(** What a successful build produced. *)
Record built (go : CasObject) (l : list (string * FactHit)) (m : QueryIndexManifest) (o : CasObject)
    (shards : list QueryShard) (objects : list CasObject) : Prop := mkBuilt {
  bt_generation : object_schema go = GenerationV2.GENERATION_SCHEMA;
  bt_packed : packed_shards l = Ok shards;
  bt_shards : index_shards (post_all l).1 shards;
  bt_objects : Forall2 (fun s o => for_bytes QUERY_SHARD_SCHEMA (query_shard_bytes s) = Ok o) shards objects;
  bt_nonempty : (post_all l).1 <> [];
  bt_manifest : m = with_index_id m (hash (index_value (with_index_id m EmptyString)));
  bt_fields : qi_schema m = QUERY_INDEX_SCHEMA /\ qi_generation m = go /\
    qi_shards m = zip_with reference_of shards objects /\ term_count m = vlen (post_all l).1 /\
    posting_count m = foldr (fun e n => vlen e.2 + n) 0 (post_all l).1 /\ overflow_terms m = (post_all l).2;
  bt_object : for_bytes QUERY_INDEX_SCHEMA (value_bytes (index_value m)) = Ok o
}.

Context {BL : @CasBatchLaws S P B}.

Lemma encode_shards_ok shards encoded : try_map encode_shard shards = Ok encoded ->
  encoded = (fun s => (QUERY_SHARD_SCHEMA, query_shard_bytes s)) <$> shards.
Proof.
  rewrite try_map_ok. induction 1 as [|s e shards encoded He Hs IH]; [done|]. rewrite fmap_cons, <- IH.
  unfold encode_shard, resource_limit in He. rewrite guard_ok in He. by destruct He as [_ [= <-]].
Qed.

Lemma sorted_references shards objects : length shards = length objects ->
  StronglySorted (fun s s' => lt_ord (shard_order s) (shard_order s')) shards ->
  StronglySorted (fun r r' => lt_ord (reference_order r) (reference_order r')) (zip_with reference_of shards objects).
Proof.
  intros Hlen Hs. apply (StronglySorted_fmap lt_ord reference_order).
  replace (reference_order <$> zip_with reference_of shards objects) with (shard_order <$> shards).
  - by apply StronglySorted_fmap.
  - clear Hs. revert objects Hlen. induction shards as [|s shards IH]; intros [|o objects] Hlen; try done. cbn in *.
    f_equal. apply IH. lia.
Qed.

(** The store operations behind a build: one batch of shards, then the manifest. *)
Definition publication (t t' : S) (m : QueryIndexManifest) (o : CasObject) (shards : list QueryShard) (objects : list CasObject) : Prop :=
  exists s, cas_put_batch t ((fun s => (QUERY_SHARD_SCHEMA, query_shard_bytes s)) <$> shards) = (s, Ok objects) /\
    cas_put s QUERY_INDEX_SCHEMA (value_bytes (index_value m)) = (t', Ok o).

Lemma build_publishes t g go facts terms t' m o : indexable t g facts terms ->
  build_query_index t g go = (t', Ok (m, o)) ->
  exists shards objects, built go (posted_by terms facts) m o shards objects /\ publication t t' m o shards objects.
Proof.
  intros Hi. unfold build_query_index, invalid. rewrite store_guard_ok, str_neqb_false. intros [Hgo H].
  rewrite (visit_indexable t g facts terms Hi) in H. set (l := posted_by terms facts) in *.
  pose proof (post_all_spec l) as Hl. destruct (post_all l) as [postings overflow] eqn:Epost. rewrite store_guard_ok in H. destruct H as [Hne H].
  rewrite store_bind_ok in H. destruct H as (s1 & built' & [= <- Hbuilt] & H).
  pose proof (index_shards_built _ _ _ Hl (posted_nonempty _ _ _ _ Hi) Hbuilt) as Hix. cbn [fst] in Hix.
  rewrite (sort_by_id shard_order) in H by (apply (strict_sorted_le shard_order), Hix).
  rewrite store_bind_ok in H. destruct H as (s2 & references & Hpub & H). unfold publish_query_shards in Hpub.
  rewrite store_bind_ok in Hpub. destruct Hpub as (s3 & encoded & [= <- Henc%encode_shards_ok] & Hpub).
  rewrite store_bind_ok in Hpub. destruct Hpub as (s4 & objects & Hput & [= <- <-]).
  pose proof Hput as Hbatch. rewrite Henc in Hbatch.
  apply cas_put_batch_sound in Hput. rewrite Henc, Forall2_fmap_l in Hput. cbn [fst snd] in Hput.
  rewrite (sort_by_id reference_order) in H.
  2: { apply (strict_sorted_le reference_order), sorted_references; [by eapply Forall2_length|apply Hix]. }
  rewrite store_bind_ok in H. destruct H as (s5 & object & Hobj & [= <- <- <-]). pose proof Hobj as Hm. apply cas_put_sound in Hobj.
  exists (concat built'), objects. split; [|by exists s4]. split; unfold packed_shards; rewrite ?Epost; cbn [fst snd]; try done.
  - by rewrite Hbuilt.
  - by destruct postings.
Qed.

Lemma build_ok t g go facts terms t' m o : indexable t g facts terms ->
  build_query_index t g go = (t', Ok (m, o)) -> exists shards objects, built go (posted_by terms facts) m o shards objects.
Proof. intros Hi H. destruct (build_publishes _ _ _ _ _ _ _ _ Hi H) as (shards & objects & Hb & _). eauto. Qed.

(** The posted hits come from verified facts. *)
Definition posted_ok (l : list (string * FactHit)) : Prop :=
  Forall (fun e => e.1 <> EmptyString /\ hit_typed e.2 /\ sealed e.2) l.

Lemma posted_elem t (l : list (string * FactHit)) h : h ∈ posted t l <-> (t, h) ∈ l.
Proof.
  unfold posted. rewrite list_elem_of_fmap. split.
  - intros ([t' h'] & -> & [Heq Hin]%list_elem_of_filter). cbn in *. by subst.
  - intros Hin. exists (t, h). split; [done|]. by apply list_elem_of_filter.
Qed.

Lemma posted_sealed l t : posted_ok l -> Forall sealed (posted t l).
Proof.
  unfold posted_ok. rewrite !list.Forall_forall. intros H h Hh%posted_elem. by destruct (H _ Hh) as (_ & _ & ?).
Qed.

Lemma posting_in_elem l t h : posted_ok l -> h ∈ posting_in (post_all l).1 t -> (t, h) ∈ l.
Proof.
  intros Hl. unfold posting_in. rewrite (pof_get _ _ (post_all_spec l)). intros Hh. apply posted_elem.
  apply hit_set_elem; [by apply posted_sealed|]. rewrite <- (take_drop MAX_HITS (bset_of_list (posted t l))). set_solver.
Qed.

Lemma indexable_posted t g facts terms : indexable t g facts terms -> posted_ok (posted_by terms facts).
Proof.
  intros Hi. apply list.Forall_forall. intros [x h] He. pose proof (posted_nonempty _ _ _ _ Hi) as Hne.
  rewrite list.Forall_forall in Hne. split; [by apply (Hne _ He)|]. apply posted_elem in He. rewrite posted_facts_with in He.
  apply facts_with_elem in He as (f & Hf & -> & _). by eapply indexable_facts.
Qed.

Lemma built_typed go l m o shards objects : posted_ok l -> built go l m o shards objects -> Forall shard_typed shards.
Proof.
  intros Hl Hb. apply list.Forall_forall. intros s Hs. apply list.Forall_forall. intros p Hp. apply list.Forall_forall. intros h Hh.
  destruct (ix_from _ _ (bt_shards _ _ _ _ _ _ Hb) s p h Hs Hp Hh) as (t & set & Hin & Hset).
  apply bmap_get_elem in Hin; [|apply (pof_wf _ _ (post_all_spec l))].
  assert ((t, h) ∈ l) as Hth by (apply posting_in_elem; [done|unfold posting_in; by rewrite Hin]).
  unfold posted_ok in Hl. rewrite list.Forall_forall in Hl. by destruct (Hl _ Hth) as (_ & ? & _).
Qed.

Lemma built_nonempty go l m o shards objects : posted_ok l -> built go l m o shards objects ->
  qi_shards m <> [] /\ posting_count m <> 0 /\ term_count m <> 0.
Proof.
  intros Hl Hb. destruct (bt_fields _ _ _ _ _ _ Hb) as (_ & _ & -> & -> & -> & _).
  pose proof (bt_nonempty _ _ _ _ _ _ Hb) as Hne. pose proof (post_all_spec l) as Hp.
  assert (Forall (fun e => e.1 <> EmptyString) l) as Hterms by (eapply list.Forall_impl; [exact Hl|]; by intros e (? & _)).
  pose proof (entries_ok _ _ Hp Hterms) as [_ Hok].
  destruct ((post_all l).1) as [|[t s] rest] eqn:E; [done|]. rewrite fmap_cons in Hok. inversion_clear Hok as [|? ? [_ Hs _] _].
  cbn in Hs. split_and!.
  - pose proof (ix_hits _ _ (bt_shards _ _ _ _ _ _ Hb) t) as Hh. rewrite E in Hh. cbn in Hh. unfold cmp, Ord_string in Hh.
    rewrite string_cmp_refl in Hh. cbn in Hh. destruct shards as [|x shards]; [by rewrite <- Hh in Hs|].
    pose proof (bt_objects _ _ _ _ _ _ Hb) as Ho. by inversion Ho.
  - cbn. destruct s; [done|]. unfold vlen. cbn. lia.
  - unfold vlen. cbn. lia.
Qed.

Lemma check_references_ok l : forall previous,
  StronglySorted (fun r r' => lt_ord (reference_order r) (reference_order r')) l ->
  Forall (fun r => out_of_order previous (reference_order r) = false) l ->
  Forall (fun r => object_schema (qr_object r) = QUERY_SHARD_SCHEMA /\ size (qr_object r) <= MAX_QUERY_SHARD_BYTES) l ->
  exists p, try_fold check_reference previous l = Ok p.
Proof.
  induction l as [|r l IH]; intros previous Hs Hp Hr; [by eexists|]. cbn [try_fold]. unfold check_reference at 1.
  inversion_clear Hs as [|? ? Hs' Hlt]. inversion_clear Hp as [|? ? Hp' _]. inversion_clear Hr as [|? ? [H1 H2] Hr'].
  rewrite Hp', H1, str_neqb_refl, (proj2 (N.ltb_ge _ _) H2). cbn [result_bind]. apply IH; [done| |done].
  eapply list.Forall_impl; [exact Hlt|]. intros r' Hlt'. cbn. by apply geb_false.
Qed.

Lemma built_references go l m o shards objects : built go l m o shards objects ->
  Forall (fun r => object_schema (qr_object r) = QUERY_SHARD_SCHEMA /\ size (qr_object r) <= MAX_QUERY_SHARD_BYTES) (qi_shards m).
Proof.
  intros Hb. destruct (bt_fields _ _ _ _ _ _ Hb) as (_ & _ & -> & _). pose proof (ix_each _ _ (bt_shards _ _ _ _ _ _ Hb)) as He.
  pose proof (bt_objects _ _ _ _ _ _ Hb) as Ho. clear Hb. induction Ho as [|s x shards objects Hx Hall IH]; [constructor|].
  inversion_clear He as [|? ? Hs He']. cbn. constructor; [|by apply IH]. cbn. apply for_bytes_ok in Hx as [_ ->]. cbn.
  split; [done|apply Hs].
Qed.

(** The terms that overflowed pass the check of the manifest. *)
Definition overflow_normal (m : QueryIndexManifest) : Prop := Forall (fun t => normalize_terms [t] = [t]) (overflow_terms m).

#[export] Instance overflow_normal_dec m : Decision (overflow_normal m).
Proof. unfold overflow_normal. apply _. Defined.

Lemma overflow_posted l t : t ∈ (post_all l).2 -> posted t l <> [].
Proof. rewrite (pof_overflow _ _ (post_all_spec l)). intros H Hnil. rewrite Hnil in H. cbn in H. lia. Qed.

Lemma manifest_verifies u go l m o shards objects : posted_ok l -> built go l m o shards objects ->
  GenerationSpec.serves u go (size go) -> overflow_normal m -> verify_index_manifest u m = (u, Ok tt).
Proof.
  intros Hl Hb [b Hgo] Hov. destruct (built_nonempty _ _ _ _ _ _ Hl Hb) as (Hsh & Hpc & Htc).
  destruct (bt_fields _ _ _ _ _ _ Hb) as (F1 & F2 & F3 & F4 & F5 & F6).
  unfold verify_index_manifest, corrupt. rewrite F2, Hgo. cbn [store_bind].
  destruct (check_references_ok (qi_shards m) None) as [p Hp].
  { rewrite F3. apply sorted_references; [by eapply Forall2_length, (bt_objects _ _ _ _ _ _ Hb)|apply (bt_shards _ _ _ _ _ _ Hb)]. }
  { by apply list.Forall_true. }
  { by eapply built_references. }
  rewrite Hp. cbn [store_bind pure_on]. apply store_guard_ok. split; [|done].
  rewrite F1, (bt_generation _ _ _ _ _ _ Hb), !str_neqb_refl. cbn [orb].
  assert (index_id m = hash (index_value (with_index_id m EmptyString))) as <- by (by rewrite (bt_manifest _ _ _ _ _ _ Hb) at 1).
  rewrite str_neqb_refl, (proj2 (N.eqb_neq _ _) Hpc), (proj2 (N.eqb_neq _ _) Htc). cbn [orb].
  bool_split; try done; [by destruct (qi_shards m)|]. apply existsb_false, list.Forall_forall. intros t Ht.
  unfold overflow_normal in Hov. rewrite list.Forall_forall in Hov. rewrite bool_decide_eq_true_2 by by apply Hov.
  cbn [negb]. rewrite orb_false_r. apply str_is_empty_false. rewrite F6 in Ht. apply overflow_posted in Ht.
  destruct (posted t l) as [|h hs] eqn:E; [done|]. assert ((t, h) ∈ l) as Hin by (apply posted_elem; rewrite E; set_solver).
  unfold posted_ok in Hl. rewrite list.Forall_forall in Hl. by destruct (Hl _ Hin) as (? & _).
Qed.

Lemma built_sorted l t : StronglySorted lt_ord (posting_in (post_all l).1 t).
Proof. unfold posting_in. rewrite (pof_get _ _ (post_all_spec l)). apply StronglySorted_take, hit_set_sorted. Qed.

Lemma built_index_in u go l m o shards objects : posted_ok l -> built go l m o shards objects ->
  serves_shards u shards (qi_shards m) -> GenerationSpec.serves u go (size go) -> overflow_normal m ->
  index_in u (post_all l).1 m.
Proof.
  intros Hl Hb Hu Hgo Hov. split.
  - exists shards. split_and!; [apply Hb|by eapply built_typed|done].
  - apply built_sorted.
  - by eapply manifest_verifies.
Qed.
End Building.

(* --------------------------------------------------------------------- *)
(** ** The whole index verifies *)

(** Equal hits for every term: the same pairs up to order. *)
Lemma posted_cons t k h (l : list (string * FactHit)) : posted t ((k, h) :: l) = (if decide (k = t) then [h] else []) ++ posted t l.
Proof. unfold posted. rewrite list.filter_cons. cbn [fst]. by destruct (decide (k = t)). Qed.
Lemma posted_app t (a b : list (string * FactHit)) : posted t (a ++ b) = posted t a ++ posted t b.
Proof. unfold posted. by rewrite list.filter_app, fmap_app. Qed.

Lemma posted_split k x xs (l : list (string * FactHit)) : posted k l = x :: xs ->
  exists a b, l = a ++ (k, x) :: b /\ posted k a = [] /\ posted k b = xs.
Proof.
  induction l as [|[k' y] l IH]; [done|]. rewrite posted_cons. destruct (decide (k' = k)) as [->|Hne].
  - intros [= -> <-]. by exists [], l.
  - cbn [app]. intros (a & b & -> & Ha & Hb)%IH. exists ((k', y) :: a), b. rewrite posted_cons, decide_False by done. done.
Qed.

Lemma posted_perm (l1 : list (string * FactHit)) : forall l2, (forall t, posted t l1 = posted t l2) -> Permutation l1 l2.
Proof.
  induction l1 as [|[k x] l1 IH]; intros l2 H.
  { destruct l2 as [|[k y] l2]; [done|]. specialize (H k). rewrite posted_cons, decide_True in H by done. done. }
  pose proof (H k) as Hk. rewrite posted_cons, decide_True in Hk by done. symmetry in Hk.
  apply posted_split in Hk as (a & b & -> & Ha & Hb). rewrite <- Permutation_middle. constructor. apply IH. intros t.
  specialize (H t). rewrite posted_cons, posted_app, posted_cons in H. rewrite posted_app.
  destruct (decide (k = t)) as [<-|]; [|done]. by rewrite Ha, Hb.
Qed.

Section VerifyIndex.
Context {P : Primitives} {U : Unicode} {R : JsonReader} {S : Type} {C : CasOps S} {B : CasBatchOps S}.
Context {W : WriterLaws P} {RL : ReaderLaws P R}.

(** What the counters hold after the postings [pre]. *)
Record counted (pre : list TermPosting) (st : IndexCheck) : Prop := mkCounted {
  ct_terms : ic_terms st = bset_of_list (tp_term <$> pre);
  ct_postings : ic_postings st = vlen (pairs pre) mod 2 ^ 64;
  ct_last : forall t, bmap_get t (ic_last_fact st) = list.last (hits t pre);
  ct_by_term : forall t, bmap_get t (ic_by_term st) =
    match hits t pre with [] => None | _ => Some (vlen (hits t pre) mod 2 ^ 64) end
}.

Lemma wrapping_mod a b : u64_wrapping_add (a mod 2 ^ 64) b = (a + b) mod 2 ^ 64.
Proof. unfold u64_wrapping_add. by rewrite N.Div0.add_mod_idemp_l. Qed.

Lemma last_before_first t pre facts x y : StronglySorted lt_ord (hits t pre ++ facts) ->
  list.last (hits t pre) = Some x -> head facts = Some y -> geb x y = false.
Proof.
  intros (_ & _ & H)%StronglySorted_app Hx Hy. apply (geb_false (hit_order x)). apply (H x y).
  - apply list.last_Some in Hx as [l' ->]. set_solver.
  - destruct facts; [done|]. injection Hy as ->. set_solver.
Qed.

Lemma check_posting_ok pre st p : counted pre st -> tp_facts p <> [] ->
  StronglySorted lt_ord (hits (tp_term p) (pre ++ [p])) ->
  exists st', check_posting st p = Ok st' /\ counted (pre ++ [p]) st'.
Proof.
  intros [H1 H2 H3 H4] Hne Hs. unfold check_posting.
  assert (forall t, hits t (pre ++ [p]) = hits t pre ++ if decide (tp_term p = t) then tp_facts p else []) as Hh.
  { intros t. rewrite hits_app, hits_cons. change (hits t []) with (@nil FactHit). by rewrite app_nil_r. }
  destruct (head (tp_facts p)) as [first|] eqn:Ef; [|by destruct (tp_facts p)].
  destruct (list.last (tp_facts p)) as [last|] eqn:El; [|by apply list.last_None in El].
  assert ((match bmap_get (tp_term p) (ic_last_fact st) with Some l => geb l first | None => false end) = false) as ->.
  { rewrite H3. destruct (list.last (hits (tp_term p) pre)) as [x|] eqn:Ex; [|done].
    eapply last_before_first; [|exact Ex|exact Ef]. rewrite Hh, decide_True in Hs by done. done. }
  eexists. split; [done|]. split; cbn [ic_terms ic_postings ic_last_fact ic_by_term].
  - rewrite H1, fmap_app. change (tp_term <$> [p]) with [tp_term p]. by rewrite bset_of_list_snoc.
  - rewrite H2, wrapping_mod, pairs_app, vlen_app, pairs_cons, vlen_app. unfold vlen. rewrite length_fmap. cbn. by rewrite N.add_0_r.
  - intros t. rewrite Hh. destruct (decide (tp_term p = t)) as [<-|Hn].
    + rewrite bmap_get_insert_eq. symmetry. apply list.last_Some in El as [l' ->]. rewrite app_assoc. apply list.last_snoc.
    + rewrite bmap_get_insert_ne, app_nil_r by done. apply H3.
  - intros t. rewrite Hh. destruct (decide (tp_term p = t)) as [<-|Hn].
    + rewrite bmap_get_insert_eq, H4. rewrite vlen_app.
      destruct (hits (tp_term p) pre ++ tp_facts p) as [|x xs] eqn:E; [apply app_eq_nil in E as [_ ?]; done|].
      f_equal. destruct (hits (tp_term p) pre) as [|y ys].
      * reflexivity.
      * cbn [default from_option]. unfold id. by rewrite wrapping_mod.
    + rewrite bmap_get_insert_ne, app_nil_r by done. apply H4.
Qed.

Lemma check_postings_ok all : (forall t, StronglySorted lt_ord (hits t all)) -> forall ps pre st,
  counted pre st -> Forall (fun p => tp_facts p <> []) ps -> (exists post, all = pre ++ ps ++ post) ->
  exists st', try_fold check_posting st ps = Ok st' /\ counted (pre ++ ps) st'.
Proof.
  intros Hall. induction ps as [|p ps IH]; intros pre st Hst Hne [post Heq].
  { exists st. by rewrite app_nil_r. }
  inversion_clear Hne as [|? ? Hp Hps]. cbn [try_fold].
  destruct (check_posting_ok pre st p Hst Hp) as (st1 & -> & Hst1).
  { specialize (Hall (tp_term p)). rewrite Heq in Hall. cbn [app] in Hall.
    replace (pre ++ p :: ps ++ post) with ((pre ++ [p]) ++ ps ++ post) in Hall by by rewrite <- app_assoc.
    rewrite hits_app in Hall. by apply StronglySorted_app in Hall as (? & _). }
  cbn [result_bind]. destruct (IH (pre ++ [p]) st1 Hst1 Hps) as (st' & H & Hc).
  { exists post. rewrite Heq. by rewrite <- app_assoc. }
  exists st'. split; [done|]. by rewrite <- app_assoc in Hc.
Qed.

Lemma counted_previous pre st previous : counted pre st ->
  counted pre {| ic_previous := previous; ic_terms := ic_terms st; ic_last_fact := ic_last_fact st;
                 ic_postings := ic_postings st; ic_by_term := ic_by_term st |}.
Proof. by intros [? ? ? ?]. Qed.

Lemma check_shards_ok u all : (forall t, StronglySorted lt_ord (hits t all)) -> forall shards references pre st,
  Forall index_shard shards -> Forall shard_typed shards -> serves_shards u shards references ->
  StronglySorted (fun r r' => lt_ord (reference_order r) (reference_order r')) references ->
  Forall (fun r => out_of_order (ic_previous st) (reference_order r) = false) references ->
  counted pre st -> all = pre ++ concat (qs_postings <$> shards) ->
  exists st', store_fold check_index_shard u st references = (u, Ok st') /\ counted all st'.
Proof.
  intros Hall. induction shards as [|s shards IH]; intros references pre st Hi Ht Hu Hord Hprev Hst Heq;
    inversion Hu as [|? r ? rs (o & -> & Hr) Hrs]; subst references.
  { exists st. split; [done|]. rewrite Heq. cbn. by rewrite app_nil_r. }
  inversion_clear Hi as [|? ? Hs Hi']. inversion_clear Ht as [|? ? Hts Ht']. inversion_clear Hord as [|? ? Hord' Hlt].
  inversion_clear Hprev as [|? ? Hp _]. cbn [store_fold]. unfold check_index_shard at 1. rewrite Hp.
  rewrite load_shard_served by done. cbn [store_bind].
  destruct (check_postings_ok all Hall (qs_postings s) pre st Hst) as (st1 & Hst1 & Hc1).
  { destruct Hs as [_ _ [_ Hok] _ _ _]. eapply list.Forall_impl; [exact Hok|]. by intros p []. }
  { exists (concat (qs_postings <$> shards)). by rewrite Heq. }
  rewrite Hst1. cbn [store_bind pure_on]. eapply (IH rs (pre ++ qs_postings s)); [done|done|done|done| | |].
  - eapply list.Forall_impl; [exact Hlt|]. cbn [ic_previous]. intros r' Hr'. cbn. by apply geb_false.
  - by apply counted_previous.
  - rewrite Heq. cbn. by rewrite <- app_assoc.
Qed.

Lemma terms_with_hits all : Forall (fun p => tp_facts p <> []) all -> forall t, t ∈ tp_term <$> all <-> hits t all <> [].
Proof.
  intros Hne t. split.
  - intros (p & -> & Hp)%list_elem_of_fmap. apply list_elem_of_split in Hp as (a & b & ->). rewrite hits_app, hits_cons, decide_True by done.
    rewrite list.Forall_forall in Hne. specialize (Hne p ltac:(set_solver)). intros [_ [? _]%app_eq_nil]%app_eq_nil. done.
  - intros Hh. destruct (hits t all) as [|h l] eqn:E; [done|]. destruct (hits_elem t all h) as (p & Hp & <- & _); [rewrite E; set_solver|].
    apply list_elem_of_fmap. eauto.
Qed.

Lemma posting_count_pairs (entries : Postings) : foldr (fun e n => vlen e.2 + n) 0 entries = vlen (pairs (posting_of <$> entries)).
Proof.
  induction entries as [|[t s] entries IH]; [done|]. rewrite fmap_cons, pairs_cons, vlen_app. cbn [foldr snd posting_of tp_facts tp_term].
  rewrite IH. unfold vlen. by rewrite length_fmap.
Qed.
End VerifyIndex.

(* --------------------------------------------------------------------- *)
(** ** A built index answers *)

Section Answers.
Context {P : Primitives} {U : Unicode} {R : JsonReader} {S : Type} {C : CasOps S} {B : CasBatchOps S}.
Context {W : WriterLaws P} {RL : ReaderLaws P R} {L : @CasLaws S P C} {BL : @CasBatchLaws S P B}.

Lemma built_verifies u go l m o shards objects : posted_ok l -> built go l m o shards objects ->
  serves_shards u shards (qi_shards m) -> GenerationSpec.serves u go (size go) -> overflow_normal m ->
  posting_count m <= u64_max -> verify_index u m = (u, Ok tt).
Proof.
  intros Hl Hb Hu Hgo Hov Hpc. destruct (built_index_in _ _ _ _ _ _ _ Hl Hb Hu Hgo Hov) as [_ Hsort Hm].
  destruct (bt_fields _ _ _ _ _ _ Hb) as (_ & _ & F3 & F4 & F5 & F6). pose proof (bt_shards _ _ _ _ _ _ Hb) as [X1 X2 X3 X4].
  set (all := concat (qs_postings <$> shards)) in *. set (entries := (post_all l).1) in *.
  assert (Forall (fun p => tp_facts p <> []) all) as Hne.
  { unfold all. clear -X1. induction X1 as [|s shards Hs _ IH]; [constructor|]. cbn. apply Forall_app. split; [|done].
    destruct Hs as [_ _ [_ Hok] _ _ _]. eapply list.Forall_impl; [exact Hok|]. by intros p []. }
  destruct (check_shards_ok u all) with (shards := shards) (references := qi_shards m) (pre := @nil TermPosting)
    (st := {| ic_previous := None; ic_terms := []; ic_last_fact := []; ic_postings := 0; ic_by_term := [] |}) as (st & Hst & Hc).
  { intros t. rewrite X3. apply Hsort. }
  { done. }
  { by eapply built_typed. }
  { done. }
  { rewrite F3. apply sorted_references; [by eapply Forall2_length, (bt_objects _ _ _ _ _ _ Hb)|done]. }
  { by apply list.Forall_true. }
  { by split. }
  { done. }
  destruct Hc as [C1 C2 C3 C4]. unfold verify_index. rewrite Hm. cbn [store_bind]. rewrite Hst. cbn [store_bind].
  unfold corrupt. apply store_guard_ok. split; [|done]. pose proof (post_all_spec l) as Hp. bool_split.
  - apply N.eqb_eq. rewrite C1, F4. fold entries. replace (bset_of_list (tp_term <$> all)) with (entries.*1).
    { unfold vlen. by rewrite length_fmap. }
    apply bset_ext; [apply (pof_wf _ _ Hp)|apply bset_of_list_wf|]. intros t.
    rewrite bset_of_list_elem, terms_with_hits, X3 by done. split.
    + intros Hk Hnil. destruct (proj1 (bmap_get_some_key _ _) Hk) as [s Hs]. rewrite Hs in Hnil. cbn in Hnil. unfold id in Hnil. subst s.
      pose proof (pof_get _ _ Hp t) as Hg. fold entries in Hg. rewrite Hs in Hg. cbn in Hg.
      apply (pof_terms _ _ Hp) in Hk. symmetry in Hg. apply (f_equal (fmap hit_order)) in Hg. rewrite fmap_take, <- (bset_of_list_fmap hit_order hit_cmp) in Hg.
      destruct (posted t l) as [|h hs]; [done|]. destruct (bset_of_list (hit_order <$> h :: hs)) eqn:E; [by apply of_list_nonempty in E|done].
    + intros Hn. apply bmap_get_some_key. destruct (bmap_get t entries); [eauto|done].
  - apply N.eqb_eq. rewrite C2, F5, posting_count_pairs. fold entries.
    assert (vlen (pairs all) = vlen (pairs (posting_of <$> entries))) as Hv.
    { unfold vlen. f_equal. apply Permutation_length, posted_perm. intros t. change (hits t all = hits t (posting_of <$> entries)).
      rewrite X3. symmetry. apply hits_entries, (pof_wf _ _ Hp). }
    rewrite Hv. apply N.mod_small. rewrite F5, posting_count_pairs in Hpc. fold entries in Hpc. unfold u64_max in Hpc. lia.
  - apply existsb_false, list.Forall_forall. intros t Ht. rewrite F6 in Ht. apply (pof_overflow _ _ Hp) in Ht.
    rewrite bool_decide_eq_true_2; [done|]. rewrite C4, X3. fold entries. pose proof (pof_get _ _ Hp t) as Hg. fold entries in Hg. rewrite Hg.
    assert (length (take MAX_HITS (bset_of_list (posted t l))) = MAX_HITS) as Hlen by (rewrite length_take; lia).
    destruct (take MAX_HITS (bset_of_list (posted t l))) as [|x xs] eqn:E; [done|]. f_equal. unfold vlen. by rewrite Hlen.
Qed.

(** In any store that serves the packed shards a term reads as the first 1024 facts
    that have it. *)
Lemma built_answers t g go facts terms t' m o : indexable t g facts terms ->
  build_query_index t g go = (t', Ok (m, o)) ->
  for_bytes QUERY_INDEX_SCHEMA (value_bytes (index_value m)) = Ok o /\
  (forall x, x ∈ overflow_terms m <-> (MAX_HITS < length (bset_of_list (facts_with terms x facts)))%nat) /\
  exists shards, packed_shards (posted_by terms facts) = Ok shards /\ Forall index_shard shards /\ forall u,
    serves_shards u shards (qi_shards m) -> forall x read, exists read',
      read_term_matches u m x read = (u, Ok (take MAX_HITS (bset_of_list (facts_with terms x facts)), read')).
Proof.
  intros Hi H. destruct (build_ok _ _ _ _ _ _ _ _ Hi H) as (shards & objects & Hb). pose proof (indexable_posted _ _ _ _ Hi) as Hl.
  destruct (bt_fields _ _ _ _ _ _ Hb) as (_ & _ & _ & _ & _ & F6). pose proof (post_all_spec (posted_by terms facts)) as Hp.
  split_and!; [apply Hb| |].
  - intros x. by rewrite F6, (pof_overflow _ _ Hp), posted_facts_with.
  - exists shards. split_and!; [apply Hb|apply Hb|]. intros u Hu x read.
    destruct (read_term_matches_shards u (post_all (posted_by terms facts)).1 shards m x read) as [read' ->];
      [apply Hb|by eapply built_typed|done|by apply built_sorted|].
    exists read'. do 3 f_equal. unfold posting_in. by rewrite (pof_get _ _ Hp), posted_facts_with.
Qed.

(** The terms under which a query looks for a requested term. *)
Definition looked_up (requested : list string) (x : string) : Prop :=
  exists r, r ∈ requested /\ (x = r \/ x = direct_name_term r \/ exists a, a ∈ query_aliases r /\ (x = a \/ x = direct_name_term a)).

Lemma concat_fmap_elem {A} (f : A -> list FactHit) l h : h ∈ concat (f <$> l) <-> exists a, a ∈ l /\ h ∈ f a.
Proof.
  rewrite list_elem_of_In, in_concat. split.
  - intros (x & Hx & Hh). apply list_elem_of_In, list_elem_of_fmap in Hx as (a & -> & Ha). apply list_elem_of_In in Hh. eauto.
  - intros (a & Ha & Hh). exists (f a). split; [apply list_elem_of_In, list_elem_of_fmap; eauto|by apply list_elem_of_In].
Qed.

Lemma lanes_elem (entries : Postings) requested h : (forall x, Forall sealed (posting_in entries x)) ->
  h ∈ concat (lanes_for entries requested) <-> exists x, looked_up requested x /\ h ∈ posting_in entries x.
Proof.
  intros Hs. assert (forall (f : string -> string) aliases, h ∈ bset_of_list (concat ((fun a => posting_in entries (f a)) <$> aliases)) <->
    exists a, a ∈ aliases /\ h ∈ posting_in entries (f a)) as Hset.
  { intros f aliases. rewrite hit_set_elem, concat_fmap_elem; [done|]. apply list.Forall_forall. intros x Hx.
    apply concat_fmap_elem in Hx as (a & _ & Hx). specialize (Hs (f a)). rewrite list.Forall_forall in Hs. by apply Hs. }
  unfold lanes_for. rewrite !concat_app, !elem_of_app, !concat_fmap_elem.
  setoid_rewrite (Hset direct_name_term). setoid_rewrite (Hset id). unfold looked_up, id. split.
  - intros [(r & Hr & Hh)|[(r & Hr & Hh)|[(r & Hr & a & Ha & Hh)|(r & Hr & a & Ha & Hh)]]].
    + exists (direct_name_term r). split; [|done]. exists r. auto.
    + exists r. split; [|done]. exists r. auto.
    + exists (direct_name_term a). split; [|done]. exists r. split; [done|]. right; right. eauto.
    + exists a. split; [|done]. exists r. split; [done|]. right; right. eauto.
  - intros (x & (r & Hr & [->|[->|(a & Ha & [->| ->])]]) & Hh); [right; left|left|right; right; right|right; right; left]; eauto.
Qed.

Lemma overflow_for_false m requested : overflow_for m requested = false ->
  forall x, looked_up requested x -> x ∉ overflow_terms m.
Proof.
  unfold overflow_for. rewrite existsb_false, list.Forall_forall. intros H x (r & Hr & Hx). specialize (H r Hr).
  rewrite existsb_false, list.Forall_forall in H.
  assert (forall y, y ∈ r :: query_aliases r -> y ∉ overflow_terms m /\ direct_name_term y ∉ overflow_terms m) as Hy.
  { intros y Hy. specialize (H y Hy). unfold overflowed in H. rewrite orb_false_iff, !bset_contains_false in H. done. }
  destruct Hx as [->|[->|(a & Ha & [->| ->])]]; apply Hy; set_solver.
Qed.

(** C31: an untruncated query is complete.  On an index built from a generation a
    query of 1 to 256 terms that normalize to something returns a context bound to
    the index: its facts are distinct facts of the generation that have one of the
    looked-up terms, at most as many as asked for and at most 4096; and unless the
    context says that it is truncated, it holds every fact of the generation that has
    one of them.  This is so in every store that serves the shards of the index and
    the generation, when every term recorded as overflowed is its own normalization
    (otherwise the query is refused, see [abnormal_overflow_refused]). *)
Theorem untruncated_query_complete t g go facts terms t' m o : indexable t g facts terms ->
  build_query_index t g go = (t', Ok (m, o)) ->
  exists shards, packed_shards (posted_by terms facts) = Ok shards /\ Forall index_shard shards /\ forall u requested max_facts,
    serves_shards u shards (qi_shards m) -> GenerationSpec.serves u go (size go) -> overflow_normal m ->
    requested <> [] -> vlen requested <= MAX_QUERY_TERMS -> max_facts <> 0 -> normalize_terms requested <> [] ->
    exists context, query u m requested max_facts = (u, Ok context) /\
      qc_index_id context = index_id m /\ requested_terms context = normalize_terms requested /\
      StronglySorted lt_ord (qc_facts context) /\
      vlen (qc_facts context) <= N.min max_facts MAX_CONTEXT_FACTS /\
      (forall h, h ∈ qc_facts context ->
        exists f x, f ∈ facts /\ h = hit_of f /\ looked_up (requested_terms context) x /\ x ∈ terms f) /\
      (truncated context = false -> forall f x, f ∈ facts -> looked_up (requested_terms context) x -> x ∈ terms f ->
        hit_of f ∈ qc_facts context).
Proof.
  intros Hi H. destruct (build_ok _ _ _ _ _ _ _ _ Hi H) as (shards & objects & Hb). pose proof (indexable_posted _ _ _ _ Hi) as Hl.
  set (l := posted_by terms facts) in *. pose proof (post_all_spec l) as Hp.
  destruct (bt_fields _ _ _ _ _ _ Hb) as (_ & _ & _ & _ & _ & F6).
  exists shards. split_and!; [apply Hb|apply Hb|]. intros u requested max_facts Hu Hgo Hov Hne Hle Hmax Hnorm.
  pose proof (built_index_in _ _ _ _ _ _ _ Hl Hb Hu Hgo Hov) as Hin.
  destruct (query_served u _ m requested max_facts Hin Hne Hle Hmax Hnorm) as (context & Hq & Hid & _ & Hreq & Hfacts & Htr).
  exists context. rewrite Hreq. set (lanes := lanes_for (post_all l).1 (normalize_terms requested)) in *.
  assert (forall x, Forall sealed (posting_in (post_all l).1 x)) as Hsealed.
  { intros x. apply list.Forall_forall. intros h Hh. apply posting_in_elem in Hh; [|done]. unfold posted_ok in Hl.
    rewrite list.Forall_forall in Hl. by destruct (Hl _ Hh) as (_ & _ & ?). }
  assert (forall h, h ∈ concat lanes <-> exists x, looked_up (normalize_terms requested) x /\ h ∈ posting_in (post_all l).1 x) as Hlanes
    by (intros h; by apply lanes_elem).
  destruct (select_hits lanes (N.min max_facts MAX_CONTEXT_FACTS)) as [S1 S2 S3 S4 _].
  { apply list.Forall_forall. intros h Hh. apply Hlanes in Hh as (x & _ & Hh). specialize (Hsealed x). rewrite list.Forall_forall in Hsealed. auto. }
  rewrite <- Hfacts in *. split_and!; try done; [lia| |].
  - intros h (x & Hx & Hh)%S2%Hlanes. apply posting_in_elem in Hh; [|done]. apply posted_elem in Hh. unfold l in Hh.
    rewrite posted_facts_with, facts_with_elem in Hh. destruct Hh as (f & Hf & -> & Ht). by exists f, x.
  - intros Hfalse f x Hf Hx Ht. rewrite Htr, orb_false_iff, N.ltb_ge in Hfalse. destruct Hfalse as [Hall Hovf].
    apply S4; [lia|]. apply Hlanes. exists x. split; [done|]. unfold posting_in. rewrite (pof_get _ _ Hp).
    apply overflow_for_false with (x := x) in Hovf; [|done]. rewrite F6, (pof_overflow _ _ Hp) in Hovf.
    rewrite take_ge by lia. apply hit_set_elem; [by apply posted_sealed|]. unfold l. rewrite posted_facts_with. apply facts_with_elem. eauto.
Qed.
End Answers.

(* --------------------------------------------------------------------- *)
(** ** Exact names and expansion *)

Section More.
Context {P : Primitives} {U : Unicode} {R : JsonReader} {S : Type} {C : CasOps S}.
Context {W : WriterLaws P} {RL : ReaderLaws P R}.

(** An exact lookup reads the posting reserved for the identity and no other. *)
Lemma exact_name_served u entries m term : index_in u entries m ->
  term <> EmptyString -> str_len term <= 4096 -> has_control_char term = false ->
  exists n, exact_name_query u m term =
    (u, Ok {| en_facts := posting_in entries (exact_identity_term term); en_shards_read := n;
              en_truncated := bset_contains (exact_identity_term term) (overflow_terms m) |}).
Proof.
  intros Hi Hne Hlen Hc. unfold exact_name_query. rewrite (in_manifest _ _ _ Hi). cbn [store_bind].
  rewrite (proj2 (str_is_empty_false _) Hne), (proj2 (N.ltb_ge _ _) Hlen), Hc. cbn [orb].
  destruct (read_term_matches_served u entries m (exact_identity_term term) [] Hi) as [read ->]. by eexists.
Qed.

Context {UL : UnicodeLaws U}.

(** Expanding a context asks for its terms and the new ones together. *)
Lemma expand_served u entries m parent terms additional max_facts : index_in u entries m ->
  qc_schema parent = QUERY_CONTEXT_SCHEMA -> qc_index_id parent = index_id m -> requested_terms parent = normalize_terms terms ->
  let union := bset_extend (normalize_terms terms) (normalize_terms additional) in
  union <> [] -> vlen union <= MAX_QUERY_TERMS -> max_facts <> 0 ->
  exists context, expand u m parent additional max_facts = (u, Ok context) /\ requested_terms context = union /\
    (union = requested_terms parent -> context = parent).
Proof.
  intros Hi Hs Hid Hreq union Hne Hle Hmax. unfold expand. rewrite Hs, Hid, !str_neqb_refl. cbn [orb].
  assert (dedup (sort (requested_terms parent ++ normalize_terms additional)) = union) as ->.
  { apply bset_ext; [apply sort_dedup_wf|apply bset_extend_wf, normalize_terms_wf|]. intros x. unfold union.
    by rewrite sort_dedup_elem, elem_of_app, bset_extend_elem, Hreq. }
  destruct (bool_decide_reflect (union = requested_terms parent)) as [Heq|Hneq].
  { exists parent. split_and!; try done. }
  assert (normalize_terms union = union) as Hnorm.
  { apply normalize_normal; [apply bset_extend_wf, normalize_terms_wf|]. apply list.Forall_forall. intros x. unfold union.
    rewrite bset_extend_elem. intros [Hx|Hx]; by eapply normalized_normal. }
  destruct (query_served u entries m union max_facts Hi Hne Hle Hmax) as (context & Hq & _ & _ & Hr & _); [by rewrite Hnorm|].
  exists context. rewrite Hr, Hnorm. done.
Qed.
End More.

(* --------------------------------------------------------------------- *)
(** ** An index that refuses itself *)

Section Refused.
Context {P : Primitives} {U : Unicode} {R : JsonReader} {S : Type} {C : CasOps S}.

Lemma abnormal_overflow_refused u m x : x ∈ overflow_terms m -> normalize_terms [x] <> [x] ->
  verify_index_manifest u m = (u, corrupt "query index identity is invalid").
Proof.
  intros Hx Hn. unfold verify_index_manifest.
  assert (existsb (fun term => str_is_empty term || negb (bool_decide (normalize_terms [term] = [term]))) (overflow_terms m) = true) as ->.
  { apply existsb_exists. exists x. split; [by apply list_elem_of_In|]. rewrite bool_decide_eq_false_2 by done. apply orb_true_r. }
  by rewrite orb_true_r.
Qed.

Lemma abnormal_index_refused u m : ~ overflow_normal m -> verify_index u m = (u, corrupt "query index identity is invalid").
Proof.
  intros Hn. apply (list.not_Forall_Exists _), list.Exists_exists in Hn as (x & Hx & Hn).
  unfold verify_index. by rewrite (abnormal_overflow_refused u m x Hx Hn).
Qed.

End Refused.

Module OverflowExample.
Definition name : string := String.concat EmptyString (replicate 24 "abcdefghij").
End OverflowExample.

