(* ===== verification/QueryPacked.v ===== *)
(** * The query index in the store with packs

    The composition of the query index with the store: what [build_query_index]
    publishes in one batch is served by the store it returns, so the index answers
    there.  The example carries a generation with one fact through finalization,
    indexing and a query. *)

From stdpp Require Import gmap.
From S2P Require Import Prelude Order Collections Text Json Canonical Instances JsonFormat JsonRead Errors CasObject.
From S2P Require Import CasInterface Catalog CatalogTypes CasStore CasCatalog CasBatch AdapterV2 FactRun QueryShards QueryTerms QuerySelect QueryIndex QuerySpec QueryAnswers.
From S2P Require GenerationV2 GenerationSpec DerivedManifest.

(** The batch a build publishes. *)
Definition shard_batch {P : Primitives} (shards : list QueryShard) : list (CasObject * list byte) :=
  prepare <$> ((fun s => (QUERY_SHARD_SCHEMA, query_shard_bytes s)) <$> shards).

Section Packed.
Context {P : Primitives} {U : Unicode} {R : JsonReader}.
Context {W : WriterLaws P} {RL : ReaderLaws P R} {L : PrimitivesLaws P}.
Context (receipt_matches : CasStore -> string -> PackManifest -> bool).
Context (receipt_bytes : CasStore -> string -> PackManifest -> list byte).
Context (lookup_publish : BTreeMap string (list byte) -> CatalogSnapshot -> string -> BTreeMap string (list byte)).

#[local] Instance ops : CasOps CasStore := pack_ops receipt_matches receipt_bytes lookup_publish.
#[local] Instance laws : @CasLaws CasStore P ops := pack_laws receipt_matches receipt_bytes lookup_publish.
#[local] Instance batch_ops : CasBatchOps CasStore := pack_batch_ops receipt_matches receipt_bytes lookup_publish.
#[local] Instance batch_laws : @CasBatchLaws CasStore P batch_ops :=
  pack_batch_laws receipt_matches receipt_bytes lookup_publish.

(** The store a build returns serves its shards. *)
Lemma build_serves t t' l go m o shards objects : built go l m o shards objects -> publication t t' m o shards objects ->
  memory_ok t -> no_collision (shard_batch shards) -> serves_shards t' shards (qi_shards m).
Proof.
  intros Hb (s & Hbatch & Hput) Hm Hn. cbn [cas_put_batch batch_ops pack_batch_ops] in Hbatch. cbn [cas_put ops pack_ops cas_ops] in Hput.
  pose proof (put_batch_serves _ _ _ _ _ _ _ Hm Hn Hbatch) as Hs.
  apply put_batch_references in Hbatch as [Hrefs Hall].
  destruct (bt_fields _ _ _ _ _ _ Hb) as (_ & _ & -> & _). pose proof (ix_each _ _ (bt_shards _ _ _ _ _ _ Hb)) as Heach.
  unfold serves_shards. rewrite Hrefs in *. clear Hrefs Hb Hn. induction shards as [|x shards IH]; [constructor|].
  rewrite !fmap_cons in Hs, Hall |- *. apply list.Forall_cons in Heach as [Hx Heach]. apply list.Forall_cons in Hs as [Hs1 Hs].
  apply list.Forall2_cons in Hall as [Hr Hall]. constructor; [|by apply IH]. eexists. split; [done|].
  cbn [cas_read ops pack_ops cas_ops]. apply (served_reads _ _ _ _ _ _ Hr).
  - pose proof (is_size _ Hx) as Hz. unfold MAX_QUERY_SHARD_BYTES in Hz. unfold usize_max, u64_max. cbn [snd fst] in *. lia.
  - apply Hx.
  - by eapply put_serves.
Qed.

(** C30: an index built from a generation answers every term in the store that the build
    returns.  Its shards, published in one pack, are served from there: reading a term
    returns, in order, the first 1024 of the facts of the generation that have the
    term, and the terms with more facts are exactly the recorded overflows.  The index
    verifies exactly when every recorded overflow is its own normalization, and is
    refused as corrupt otherwise (which happens for overlong names).  The assumptions:
    the generation reads back and its facts have terms ([indexable]); the catalog in
    memory is well formed ([memory_ok]); no two written shards have the same digest and
    different bytes ([no_collision]); the store still serves the generation manifest;
    and there are fewer than 2^64 postings. *)
Theorem built_index_answers t g go facts terms t' m o shards : indexable t g facts terms ->
  build_query_index t g go = (t', Ok (m, o)) ->
  packed_shards (posted_by terms facts) = Ok shards -> memory_ok t -> no_collision (shard_batch shards) ->
  GenerationSpec.serves t' go (size go) -> posting_count m <= u64_max ->
  (forall x read, exists read',
    read_term_matches t' m x read = (t', Ok (take MAX_HITS (bset_of_list (facts_with terms x facts)), read'))) /\
  (forall x, x ∈ overflow_terms m <-> (MAX_HITS < length (bset_of_list (facts_with terms x facts)))%nat) /\
  verify_index t' m = (t', if decide (overflow_normal m) then Ok tt else corrupt "query index identity is invalid").
Proof.
  intros Hi H Hp Hmem Hn Hgo Hpc. destruct (built_answers _ _ _ _ _ _ _ _ Hi H) as (_ & Hover & shards' & Hp' & _ & Hans).
  assert (shards' = shards) as -> by congruence. destruct (build_publishes _ _ _ _ _ _ _ _ Hi H) as (s1 & objects & Hb & Hpub).
  assert (s1 = shards) as -> by (pose proof (bt_packed _ _ _ _ _ _ Hb); congruence).
  pose proof (build_serves _ _ _ _ _ _ _ _ Hb Hpub Hmem Hn) as Hu. split_and!; [by apply Hans|done|].
  destruct (decide (overflow_normal m)) as [Hov|Hov]; [|by apply abnormal_index_refused].
  eapply built_verifies; [by eapply indexable_posted|done..].
Qed.
End Packed.

(* --------------------------------------------------------------------- *)
(** ** An example *)

Module IndexExample.
#[export] Existing Instance toy.
#[export] Existing Instance toy_reader.
#[export] Existing Instance AsciiTables.tables.
#[export] Instance ops : CasOps CasStore := pack_ops BatchExample.receipt_matches BatchExample.receipt_bytes BatchExample.lookup_publish.
#[export] Instance laws : @CasLaws CasStore toy ops := pack_laws BatchExample.receipt_matches BatchExample.receipt_bytes BatchExample.lookup_publish.
#[export] Instance batch_ops : CasBatchOps CasStore :=
  pack_batch_ops BatchExample.receipt_matches BatchExample.receipt_bytes BatchExample.lookup_publish.
#[export] Instance batch_laws : @CasBatchLaws CasStore toy batch_ops :=
  pack_batch_laws BatchExample.receipt_matches BatchExample.receipt_bytes BatchExample.lookup_publish.

Definition put_ok (s : CasStore) (k : string) (b : list byte) : CasStore * CasObject :=
  match cas_put s k b with (s, Ok o) => (s, o) | (s, Err _) => (s, mkCasObject "" "" "" 0) end.
Definition with_derived : CasStore * CasObject :=
  put_ok empty_store DerivedManifest.DERIVED_MANIFEST_SCHEMA (as_bytes "derived").
Definition with_receipt : CasStore * CasObject := put_ok with_derived.1 "test/receipt/1" (as_bytes "complete").
Definition document (name : string) : list byte := to_vec (JObject [("name", JString name)]).
Definition with_payload : CasStore * CasObject := put_ok with_receipt.1 "test/1" (document "run").
Definition store : CasStore := with_payload.1.

Definition fact (k : string) (o : CasObject) : FactRecord := {| fact_key := k; domain_uri := "analysis:facts"; payload := o |}.
Definition facts : list FactRecord := [fact "run" with_payload.2].
Definition attempt : GenerationV2.AttemptAuthority :=
  {| GenerationV2.at_compilation_id := "main"; GenerationV2.at_capability := "analysis:facts";
     GenerationV2.completion := {| scope_digest := hash_bytes []; completeness_receipt := with_receipt.2; fact_count := 1 |} |}.
Definition runs : list FactRun := [finish (push_all writer_create facts).1].
Definition generation_result := GenerationV2.finalize_with_limit store with_derived.2 [attempt] runs None 4096.
Definition generation : GenerationV2.GenerationManifest := (GenerationSpec.GenerationExample.manifest_of generation_result.2).1.
Definition generation_object : CasObject := (GenerationSpec.GenerationExample.manifest_of generation_result.2).2.
Definition terms (f : FactRecord) : list string :=
  posted_terms (ok_or_else ([], []) (fact_query_terms generation_result.1 f).2).
Definition index_result := build_query_index generation_result.1 generation generation_object.
Definition index : QueryIndexManifest * CasObject :=
  ok_or_else (mkIndexManifest "" "" generation_object [] 0 0 [], generation_object) index_result.2.
Definition shards : list QueryShard := ok_or_else [] (packed_shards (posted_by terms facts)).

Lemma index_built : build_query_index generation_result.1 generation generation_object = (index_result.1, Ok index).
Proof. apply succeeds; [reflexivity|]. vm_compute. reflexivity. Qed.
Lemma shards_packed : packed_shards (posted_by terms facts) = Ok shards.
Proof. vm_compute. reflexivity. Qed.

Lemma generation_attempts : GenerationV2.attempts generation = [attempt].
Proof. vm_compute. reflexivity. Qed.
Definition shard_object : CasObject :=
  default generation_object (head (GenerationV2.shards generation)).
Definition shard_content : list byte := GenerationV2.shard_bytes (GenerationV2.shard_of 0 (fact "run" with_payload.2) []).
Lemma generation_shards : GenerationV2.shards generation = [shard_object].
Proof. vm_compute. reflexivity. Qed.
Lemma shard_named : for_bytes GenerationV2.FACT_SHARD_SCHEMA shard_content = Ok shard_object.
Proof. vm_compute. reflexivity. Qed.
Lemma shard_read : cas_read generation_result.1 shard_object GenerationV2.MAX_SHARD_BYTES = (generation_result.1, Ok shard_content).
Proof. vm_compute. reflexivity. Qed.

Lemma generation_holds : GenerationSpec.generation_ok generation [facts].
Proof.
  split; rewrite ?generation_attempts, ?generation_shards.
  - vm_compute. reflexivity.
  - vm_compute. reflexivity.
  - vm_compute. reflexivity.
  - vm_compute. reflexivity.
  - split; [|apply NoDup_singleton]. constructor; [|constructor]. split; [split; [discriminate|vm_compute; discriminate]|vm_compute; reflexivity].
  - split; [|exact I]. split; [exact shard_named|vm_compute; discriminate].
  - constructor; [|constructor]. split; [vm_compute; reflexivity|]. repeat constructor; vm_compute; discriminate.
  - repeat constructor.
  - vm_compute. reflexivity.
  - discriminate.
Qed.
Lemma serves_ok (t : CasStore) o m : (cas_read t o m).1 = t -> is_ok (cas_read t o m).2 = true -> GenerationSpec.serves t o m.
Proof. intros Hs Ho. eexists. exact (succeeds _ [] t Hs Ho). Qed.
Lemma generation_readable : GenerationSpec.readable generation_result.1 generation [facts].
Proof.
  split; rewrite ?generation_attempts, ?generation_shards.
  - vm_compute. exact I.
  - apply serves_ok; vm_compute; reflexivity.
  - constructor; [|constructor]. apply serves_ok; vm_compute; reflexivity.
  - split; [exact shard_read|exact I].
Qed.
Lemma generation_indexable : indexable generation_result.1 generation facts terms.
Proof.
  split.
  - exists [facts]. split_and!; [apply generation_holds|apply generation_readable|reflexivity].
  - vm_compute. discriminate.
  - vm_compute. discriminate.
  - intros f Hf. apply list_elem_of_singleton in Hf as ->. unfold terms.
    eexists. split; [|reflexivity]. apply succeeds; vm_compute; reflexivity.
Qed.
Lemma no_overflow : overflow_normal index.1.
Proof. unfold overflow_normal. assert (overflow_terms index.1 = []) as -> by (vm_compute; reflexivity). constructor. Qed.
Lemma generation_served : GenerationSpec.serves index_result.1 generation_object (size generation_object).
Proof. apply serves_ok; vm_compute; reflexivity. Qed.
Lemma generation_memory : memory_ok generation_result.1.
Proof.
  intros _. assert (pack_catalog generation_result.1 = default_state) as -> by (vm_compute; reflexivity).
  split; [apply default_state_inv|constructor].
Qed.
Lemma no_shard_collision : no_collision (shard_batch shards).
Proof. apply (bool_decide_eq_true_1 _). vm_compute. reflexivity. Qed.
End IndexExample.

Import IndexExample.

Lemma built_index_answers_witness : verify_index index_result.1 index.1 = (index_result.1, Ok tt).
Proof.
  rewrite <- (decide_True (P := overflow_normal index.1) (Ok (E := ClewError) tt) (corrupt "query index identity is invalid") no_overflow).
  refine (proj2 (proj2 (built_index_answers BatchExample.receipt_matches BatchExample.receipt_bytes BatchExample.lookup_publish
    generation_result.1 generation generation_object facts terms index_result.1 index.1 index.2 shards
    generation_indexable _ shards_packed generation_memory no_shard_collision generation_served _))).
  - rewrite <- (surjective_pairing index). exact index_built.
  - vm_compute. discriminate.
Defined.

Lemma untruncated_query_complete_witness :
  exists context, query index_result.1 index.1 ["run"] 10 = (index_result.1, Ok context) /\ requested_terms context = normalize_terms ["run"].
Proof.
  assert (build_query_index generation_result.1 generation generation_object = (index_result.1, Ok (index.1, index.2))) as Hbuilt
    by (rewrite <- (surjective_pairing index); exact index_built).
  destruct (untruncated_query_complete generation_result.1 generation generation_object facts terms index_result.1 index.1 index.2
    generation_indexable Hbuilt) as (packed & Hp & _ & Hq).
  assert (packed = shards) as -> by (rewrite shards_packed in Hp; congruence).
  destruct (Hq index_result.1 ["run"] 10) as (context & H1 & _ & H2 & _).
  - destruct (build_publishes _ _ _ _ _ _ _ _ generation_indexable Hbuilt) as (s1 & objects & Hb & Hpub).
    assert (s1 = shards) as -> by (pose proof (bt_packed _ _ _ _ _ _ Hb) as Hs; rewrite shards_packed in Hs; congruence).
    exact (build_serves BatchExample.receipt_matches BatchExample.receipt_bytes BatchExample.lookup_publish _ _ _ _ _ _ _ _ Hb Hpub generation_memory no_shard_collision).
  - exact generation_served.
  - exact no_overflow.
  - discriminate.
  - vm_compute. discriminate.
  - discriminate.
  - vm_compute. discriminate.
  - exists context. split; [exact H1|exact H2].
Defined.
