(* ===== verification/ProcessReachability.v ===== *)
(** * Outcome reachability (documentation/process_reachability.rs)

    [outcome_masks] computes, for every retained method, a 32-bit mask of the
    requested outcomes it can reach along call edges between retained methods.
    The code first scans the edges at most twice when a single outcome is asked
    for, and otherwise propagates masks backwards with a worklist that holds a
    node at most once ([pending]).  The worklist takes fuel; [rounds] bounds it. *)

From S2P Require Import Prelude Order Collections Text.

#[export] Instance N_inhabited : Inhabited N := populate 0.

Record Propagation : Type := mkPropagation {
  masks : list N;
  pending : list bool;
  queue : list nat
}.

Definition mask_at (st : Propagation) (i : nat) : N := masks st !!! i.
Definition pending_at (st : Propagation) (i : nat) : bool := pending st !!! i.

(** [masks\[node\] |= mask; if !pending\[node\] \{ .. push_back(node) \}]. *)
Definition enqueue (st : Propagation) (node : nat) (mask : N) : Propagation :=
  let masks' : list N := <[node := N.lor (mask_at st node) mask]> (masks st) in
  if pending_at st node
  then {| masks := masks'; pending := pending st; queue := queue st |}
  else {| masks := masks'; pending := <[node := true]> (pending st); queue := queue st ++ [node] |}.

(** The body of the loop over the callers of a node. *)
Definition relax (incoming : N) (st : Propagation) (caller : nat) : Propagation :=
  let updated := N.lor (mask_at st caller) incoming in
  if updated =? mask_at st caller then st
  else
    let masks' : list N := <[caller := updated]> (masks st) in
    if pending_at st caller
    then {| masks := masks'; pending := pending st; queue := queue st |}
    else {| masks := masks'; pending := <[caller := true]> (pending st); queue := queue st ++ [caller] |}.

(** [while let Some(node) = queue.pop_front()]; [None] when the fuel runs out. *)
Fixpoint propagate (predecessors : list (list nat)) (fuel : nat) (st : Propagation) : option (list N) :=
  match queue st, fuel with
  | [], _ => Some (masks st)
  | _ :: _, O => None
  | node :: rest, S fuel' =>
      let st := {| masks := masks st; pending := <[node := false]> (pending st); queue := rest |} in
      propagate predecessors fuel' (foldl (relax (mask_at st node)) st (predecessors !!! node : list nat))
  end.

Definition contains (methods : list string) (id : string) : bool := existsb (String.eqb id) methods.

(** One scan of the edges in the warm-up. *)
Definition warm_scan (methods : list string) (edges : list (string * string)) (warm : BTreeMap string N)
  : BTreeMap string N :=
  foldl (fun warm e =>
    if bmap_contains_key e.2 warm && negb (bmap_contains_key e.1 warm) && contains methods e.1
    then bmap_insert e.1 1 warm else warm) warm edges.

(** [for _ in 0..2]: [inl] is an early return. *)
Fixpoint warm_up (rounds : nat) (methods : list string) (edges : list (string * string)) (warm : BTreeMap string N)
  : BTreeMap string N + BTreeMap string N :=
  match rounds with
  | O => inr warm
  | S rounds' =>
      let warm' := warm_scan methods edges warm in
      if Nat.eqb (length warm') (length warm) || Nat.eqb (length warm') (length methods)
      then inl warm' else warm_up rounds' methods edges warm'
  end.

Definition method_ids (methods : list string) : BTreeMap string nat :=
  bmap_of_list (imap (fun i id => (id, i)) methods).

Definition index_edges (ids : BTreeMap string nat) (n : nat) (edges : list (string * string)) : list (list nat) :=
  foldl (fun predecessors e =>
    match bmap_get e.1 ids, bmap_get e.2 ids with
    | Some from, Some to => <[to := (predecessors !!! to : list nat) ++ [from]]> predecessors
    | _, _ => predecessors
    end) (replicate n []) edges.

Definition seed_masks (ids : BTreeMap string nat) (seeds : list (option string)) (st : Propagation) : Propagation :=
  foldl (fun st bs =>
    match bs.2 with
    | Some id => match bmap_get id ids with
                 | Some node => enqueue st node (N.shiftl 1 (N.of_nat bs.1))
                 | None => st
                 end
    | None => st
    end) st (imap pair seeds).

(** [ids\[id\]] would panic on a missing key; warm keys are methods. *)
Definition warm_masks (ids : BTreeMap string nat) (warm : BTreeMap string N) (st : Propagation) : Propagation :=
  foldl (fun st e => match bmap_get e.1 ids with Some node => enqueue st node e.2 | None => st end) st warm.

(** A node enters the queue once at first and then only when its mask gains a bit. *)
Definition rounds (n : nat) : nat := (n + n * 32)%nat.

Definition collect_masks (ids : BTreeMap string nat) (ms : list N) : BTreeMap string N :=
  omap (fun e => let mask : N := ms !!! e.2 in if mask =? 0 then None else Some (e.1, mask)) ids.

(** The indexed propagation after the warm-up. *)
Definition indexed_masks (methods : list string) (edges : list (string * string)) (seeds : list (option string))
    (warm : BTreeMap string N) : option (BTreeMap string N) :=
  let ids := method_ids methods in
  let n := length methods in
  let st := {| masks := replicate n 0; pending := replicate n false; queue := [] |} in
  let st := warm_masks ids warm (seed_masks ids seeds st) in
  match propagate (index_edges ids n edges) (rounds n) st with
  | Some ms => Some (collect_masks ids ms)
  | None => None
  end.

(** [None] stands for the failed assertion on the number of outcomes. *)
Definition outcome_masks (methods : list string) (edges : list (string * string)) (seeds : list (option string))
  : option (BTreeMap string N) :=
  if Nat.ltb 32 (length seeds) then None
  else if forallb (fun s => match s with None => true | Some _ => false end) seeds then Some []
  else
    match seeds with
    | [Some seed] =>
        if negb (contains methods seed) then Some []
        else match warm_up 2 methods edges [(seed, 1)] with
             | inl warm => Some warm
             | inr warm => indexed_masks methods edges seeds warm
             end
    | _ => indexed_masks methods edges seeds []
    end.

(* --------------------------------------------------------------------- *)
(** ** Bits *)

Definition has (mask : N) (b : nat) : bool := N.testbit mask (N.of_nat b).
Definition weight (mask : N) : nat := length (List.filter (has mask) (seq 0 32)).
Definition small (mask : N) : Prop := forall b, has mask b = true -> (b < 32)%nat.

Lemma has_lor a c b : has (N.lor a c) b = has a b || has c b.
Proof. apply N.lor_spec. Qed.

Lemma mask_ext a c : (forall b, has a b = has c b) -> a = c.
Proof. intros H. apply N.bits_inj. intros k. specialize (H (N.to_nat k)). unfold has in H. by rewrite N2Nat.id in H. Qed.

Lemma filter_length_mono {A} (p q : A -> bool) l :
  (forall x, x ∈ l -> p x = true -> q x = true) ->
  (length (List.filter p l) <= length (List.filter q l))%nat /\
  (forall x, x ∈ l -> p x = false -> q x = true -> (length (List.filter p l) < length (List.filter q l))%nat).
Proof.
  induction l as [|y l IH]; intros Hpq; [split; [done|]; by intros x ?%elem_of_nil|].
  destruct IH as [IHle IHlt]; [intros x Hx; apply Hpq; by right|].
  pose proof (Hpq y (list_elem_of_here _ _)) as Hy. cbn [List.filter]. split.
  - destruct (p y), (q y); cbn; naive_solver lia.
  - intros x [->|Hx]%elem_of_cons Hp Hq; [rewrite Hp, Hq; cbn; lia|].
    specialize (IHlt x Hx Hp Hq). destruct (p y), (q y); cbn; naive_solver lia.
Qed.

Lemma weight_bound a : (weight a <= 32)%nat.
Proof. pose proof (List.filter_length_le (has a) (seq 0 32)) as H. by rewrite length_seq in H. Qed.

Lemma weight_grows a c : small (N.lor a c) -> N.lor a c <> a -> (weight a < weight (N.lor a c))%nat.
Proof.
  intros Hs Hne. unfold weight.
  destruct (filter_length_mono (has a) (has (N.lor a c)) (seq 0 32)) as [Hle Hlt].
  { intros b _ Hb. rewrite has_lor, Hb. done. }
  destruct (decide (Forall (fun b => has a b = has (N.lor a c) b) (seq 0 32))) as [Hall|Hn].
  - exfalso. apply Hne, mask_ext. intros b. rewrite list.Forall_forall in Hall. symmetry.
    destruct (decide (b < 32)%nat) as [Hb|Hb]; [apply Hall, elem_of_seq; lia|].
    destruct (has (N.lor a c) b) eqn:E; [by apply Hs in E|]. rewrite has_lor in E. by apply orb_false_iff in E as [-> _].
  - apply list.not_Forall_Exists, list.Exists_exists in Hn as (b & Hb & Hd); [|apply _].
    assert (has a b = true -> has (N.lor a c) b = true) as Hor by (rewrite has_lor; by intros ->).
    unfold compose in Hd. specialize (Hlt b Hb). revert Hor Hd Hlt.
    destruct (has a b), (has (N.lor a c) b); intros Hor Hd Hlt;
      [by destruct Hd|by specialize (Hor eq_refl)|by apply Hlt|by destruct Hd].
Qed.

(* --------------------------------------------------------------------- *)
(** ** The worklist *)

Lemma total_insert {A} `{Inhabited A} (l : list A) i j x :
  (i < length l)%nat -> (<[i := x]> l) !!! j = if decide (j = i) then x else l !!! j.
Proof.
  intros Hi. destruct (decide (j = i)) as [->|Hne].
  - by rewrite list_lookup_total_insert_eq.
  - by rewrite list_lookup_total_insert_ne.
Qed.

Section Worklist.
(** [gain] bounds how often a mask can still grow. *)
Context (gain : N -> nat).
Hypothesis gain_shrinks : forall a c, small (N.lor a c) -> N.lor a c <> a -> (gain (N.lor a c) < gain a)%nat.
Context (n : nat) (predecessors : list (list nat)) (good : nat -> nat -> Prop).
(** Outcomes travel from a node to its callers. *)
Hypothesis good_step : forall i c b, c ∈ (predecessors !!! i : list nat) -> good b i -> good b c.
Hypothesis callers_bound : forall i c, c ∈ (predecessors !!! i : list nat) -> (c < n)%nat.
Hypothesis good_small : forall b i, good b i -> (b < 32)%nat.

(** [X] are the nodes whose callers may still miss bits. *)
Record closed_but (X : nat -> Prop) (st : Propagation) : Prop := mkClosed {
  pr_masks : length (masks st) = n;
  pr_pending : length (pending st) = n;
  pr_queue : forall i, i ∈ queue st -> (i < n)%nat;
  pr_nodup : NoDup (queue st);
  pr_flag : forall i, (i < n)%nat -> pending_at st i = true <-> i ∈ queue st;
  pr_sound : forall i b, has (mask_at st i) b = true -> good b i;
  pr_closed : forall i, i ∉ queue st -> ~ X i ->
    forall c, c ∈ (predecessors !!! i : list nat) -> forall b, has (mask_at st i) b = true -> has (mask_at st c) b = true
}.

(** Bits that can still be gained, plus the queue. *)
Definition measure (st : Propagation) : nat := (length (queue st) + sum_list_with gain (masks st))%nat.

Lemma sum_insert (f : N -> nat) (l : list N) i m : (i < length l)%nat ->
  (sum_list_with f (<[i := m]> l) + f (l !!! i) = sum_list_with f l + f m)%nat.
Proof.
  revert i; induction l as [|x l IH]; intros [|i] Hi; cbn [length] in Hi; [lia|lia| |].
  - change (f m + sum_list_with f l + f x = f x + sum_list_with f l + f m)%nat. lia.
  - specialize (IH i ltac:(lia)).
    change (f x + sum_list_with f (<[i := m]> l) + f (l !!! i) = f x + sum_list_with f l + f m)%nat. lia.
Qed.

(** A node whose mask gains bits is queued. *)
Record grown (st st' : Propagation) (c : nat) (incoming : N) : Prop := mkGrown {
  grown_mask : forall j, mask_at st' j = if decide (j = c) then N.lor (mask_at st c) incoming else mask_at st j;
  grown_queue : forall j, j ∈ queue st' <-> j ∈ queue st \/ (j = c /\ mask_at st' c <> mask_at st c);
  grown_flag : forall j, (j < n)%nat -> pending_at st' j = true <-> j ∈ queue st';
  grown_lengths : length (masks st') = n /\ length (pending st') = n;
  grown_nodup : NoDup (queue st');
  grown_measure : (measure st' <= measure st)%nat
}.

Lemma relax_grown X st c incoming :
  closed_but X st -> (c < n)%nat -> small (N.lor (mask_at st c) incoming) ->
  grown st (relax incoming st c) c incoming.
Proof.
  intros [Hm Hp Hq Hd Hf Hs Hc] Hcn Hsmall. unfold relax.
  destruct (N.eqb_spec (N.lor (mask_at st c) incoming) (mask_at st c)) as [He|Hne].
  - split; try done.
    + intros j. destruct (decide (j = c)) as [->|]; [by rewrite He|done].
    + intros j. split; [by left|]. by intros [|[_ ?]].
  - pose proof (gain_shrinks _ _ Hsmall Hne) as Hw.
    pose proof (sum_insert gain (masks st) c (N.lor (mask_at st c) incoming) ltac:(lia)) as Hg.
    change (masks st !!! c) with (mask_at st c) in Hg.
    assert (forall p q, forall j, mask_at (mkPropagation (<[c := N.lor (mask_at st c) incoming]> (masks st)) p q) j =
      if decide (j = c) then N.lor (mask_at st c) incoming else mask_at st j) as Hmask.
    { intros p q j. apply total_insert. lia. }
    destruct (pending_at st c) eqn:Hpc; split; try done.
    + intros j. rewrite Hmask, decide_True by done. cbn [queue]. split; [by left|]. intros [?|[-> _]]; [done|].
      by apply Hf.
    + cbn. by rewrite length_insert.
    + unfold measure. cbn [queue masks]. lia.
    + intros j. rewrite Hmask, decide_True by done. cbn [queue]. rewrite elem_of_app, list_elem_of_singleton. naive_solver.
    + intros j Hj. unfold pending_at. cbn [pending queue]. rewrite total_insert by lia. rewrite elem_of_app, list_elem_of_singleton.
      destruct (decide (j = c)) as [->|Hnej]; [naive_solver|]. change (pending st !!! j) with (pending_at st j).
      rewrite Hf by done. naive_solver.
    + cbn. by rewrite !length_insert.
    + cbn [queue]. apply list.NoDup_app. split_and!; [done| |apply NoDup_singleton].
      intros j Hj Hjc. apply list_elem_of_singleton in Hjc as ->. apply Hf in Hj; [congruence|done].
    + unfold measure. cbn [queue masks]. rewrite length_app. cbn. lia.
Qed.

Lemma good_lor st i c incoming b :
  (forall j b, has (mask_at st j) b = true -> good b j) -> (forall b, has incoming b = true -> good b i) ->
  c ∈ (predecessors !!! i : list nat) -> has (N.lor (mask_at st c) incoming) b = true -> good b c.
Proof. intros Hs Hi Hc. rewrite has_lor, orb_true_iff. intros [Hb|Hb]; [by apply Hs|]. eapply good_step; [done|by apply Hi]. Qed.

(** One caller of node [i], whose mask is [incoming]. *)
Lemma relax_step i st c :
  closed_but (eq i) st -> c ∈ (predecessors !!! i : list nat) ->
  let st' := relax (mask_at st i) st c in
  closed_but (eq i) st' /\ mask_at st' i = mask_at st i /\
  (forall j b, has (mask_at st j) b = true -> has (mask_at st' j) b = true) /\
  (forall b, has (mask_at st i) b = true -> has (mask_at st' c) b = true) /\ (measure st' <= measure st)%nat.
Proof.
  intros Hst Hc st'. pose proof (callers_bound _ _ Hc) as Hcn. pose proof Hst as [Hm Hp Hq Hd Hf Hs Hcl].
  assert (grown st st' c (mask_at st i)) as [Gm Gq Gf [Gl1 Gl2] Gd Gme].
  { apply (relax_grown (eq i)); [done|done|]. intros b Hb. eapply good_small.
    eapply (good_lor st i c (mask_at st i)); [done| |done|done]. intros b'. apply Hs. }
  assert (forall j b, has (mask_at st j) b = true -> has (mask_at st' j) b = true) as Hmono.
  { intros j b Hb. rewrite Gm. destruct (decide (j = c)) as [->|]; [|done]. by rewrite has_lor, Hb. }
  split_and!; [|..|done].
  - split; try done.
    + intros j [Hj|[-> _]]%Gq; [by apply Hq|done].
    + intros j b Hb. rewrite Gm in Hb. destruct (decide (j = c)) as [->|]; [|by apply Hs].
      eapply (good_lor st i c (mask_at st i)); [done| |done|done]. intros b'. apply Hs.
    + intros j Hj Hij d Hdj b Hb. assert (j ∉ queue st) as Hjq by (intros ?; apply Hj, Gq; by left).
      apply Hmono. apply (Hcl j Hjq Hij d Hdj). rewrite Gm in Hb. destruct (decide (j = c)) as [->|]; [|done].
      destruct (decide (mask_at st' c = mask_at st c)) as [He|Hne]; [|exfalso; apply Hj, Gq; by right].
      rewrite <- He, Gm, decide_True by done. done.
  - rewrite Gm. destruct (decide (i = c)) as [->|]; [apply N.lor_diag|done].
  - exact Hmono.
  - intros b Hb. rewrite Gm, decide_True, has_lor, Hb by done. apply orb_true_r.
Qed.

Lemma relax_all i l : forall st incoming, incoming = mask_at st i ->
  closed_but (eq i) st -> (forall c, c ∈ l -> c ∈ (predecessors !!! i : list nat)) ->
  let st' := foldl (relax incoming) st l in
  closed_but (eq i) st' /\ mask_at st' i = incoming /\
  (forall j b, has (mask_at st j) b = true -> has (mask_at st' j) b = true) /\
  (forall c b, c ∈ l -> has incoming b = true -> has (mask_at st' c) b = true) /\ (measure st' <= measure st)%nat.
Proof.
  induction l as [|c l IH]; intros st incoming -> Hst Hl; cbn [foldl].
  - split_and!; try done. by intros c b ?%elem_of_nil.
  - destruct (relax_step i st c Hst (Hl c (list_elem_of_here _ _))) as (H1 & H2 & H3 & H4 & H5).
    destruct (IH (relax (mask_at st i) st c) (mask_at st i) (eq_sym H2) H1) as (I1 & I2 & I3 & I4 & I5).
    { intros d Hd. apply Hl. by right. }
    split_and!; [done|done| | |lia].
    + intros j b Hb. by apply I3, H3.
    + intros d b [->|Hd]%elem_of_cons Hb; [by apply I3, H4|by apply I4].
Qed.

Lemma pop_closed st i rest :
  closed_but (fun _ => False) st -> queue st = i :: rest ->
  closed_but (eq i) {| masks := masks st; pending := <[i := false]> (pending st); queue := rest |}.
Proof.
  intros [Hm Hp Hq Hd Hf Hs Hc] He. rewrite He in *. inversion_clear Hd as [|? ? Hi Hd'].
  assert (i < n)%nat as Hin by (apply Hq; left).
  split; cbn [masks pending queue]; try done.
  - by rewrite length_insert.
  - intros j Hj. apply Hq. by right.
  - intros j Hj. unfold pending_at. cbn [pending]. rewrite total_insert by lia.
    destruct (decide (j = i)) as [->|Hne]; [naive_solver|]. change (pending st !!! j) with (pending_at st j).
    rewrite Hf, elem_of_cons by done. naive_solver.
  - intros j Hj Hij. apply Hc; [|tauto]. intros [->|?]%elem_of_cons; [by apply Hij|done].
Qed.

(** The loop ends within its measure, and its result is closed under callers. *)
Lemma propagate_spec fuel : forall st,
  closed_but (fun _ => False) st -> (measure st <= fuel)%nat ->
  exists ms, propagate predecessors fuel st = Some ms /\ length ms = n /\
    (forall i b, has (ms !!! i) b = true -> good b i) /\
    (forall i b, has (mask_at st i) b = true -> has (ms !!! i) b = true) /\
    (forall i c b, c ∈ (predecessors !!! i : list nat) -> has (ms !!! i) b = true -> has (ms !!! c) b = true).
Proof.
  induction fuel as [|fuel IH]; intros st Hst Hf.
  - unfold measure in Hf. destruct (queue st) as [|i rest] eqn:He; [|cbn in Hf; lia].
    exists (masks st). cbn. rewrite He. destruct Hst as [Hm Hp Hq Hd Hfl Hs Hc]. split_and!; try done.
    intros i c b Hci. apply Hc; [rewrite He; apply not_elem_of_nil|tauto|done].
  - cbn [propagate]. destruct (queue st) as [|i rest] eqn:He.
    { exists (masks st). destruct Hst as [Hm Hp Hq Hd Hfl Hs Hc]. split_and!; try done.
      intros i c b Hci. apply Hc; [rewrite He; apply not_elem_of_nil|tauto|done]. }
    pose proof (pop_closed st i rest Hst He) as Hpop. set (st1 := mkPropagation _ _ rest) in *.
    destruct (relax_all i (predecessors !!! i) st1 (mask_at st1 i) eq_refl Hpop ltac:(done)) as (H1 & H2 & H3 & H4 & H5).
    destruct (IH (foldl (relax (mask_at st1 i)) st1 (predecessors !!! i))) as (ms & -> & Hl & Hs & Hmono & Hcl).
    + destruct H1 as [Hm Hp Hq Hd Hfl Hs Hc]. split; try done. intros j Hj _ c Hcj b Hb.
      destruct (decide (i = j)) as [<-|Hne]; [apply H4; [done|by rewrite <- H2]|by apply (Hc j Hj Hne c Hcj b)].
    + assert (measure st1 < measure st)%nat; [|lia]. unfold measure. rewrite He. cbn. lia.
    + exists ms. split_and!; try done. intros j b Hb. apply Hmono, H3. exact Hb.
Qed.
End Worklist.

(* --------------------------------------------------------------------- *)
(** ** Indices *)

Lemma foldl_insert_get {K V} `{LawfulOrd K} (l : list (K * V)) : forall m k v,
  bmap_get k (foldl (fun m e => bmap_insert e.1 e.2 m) m l) = Some v ->
  (k, v) ∈ l \/ (k ∉ l.*1 /\ bmap_get k m = Some v).
Proof.
  induction l as [|[k0 v0] l IH]; intros m k v Hg; [right; split; [apply not_elem_of_nil|done]|].
  cbn [foldl fst snd] in Hg. apply IH in Hg as [Hin|[Hn Hg]]; [left; by right|]. rewrite bmap_get_insert in Hg.
  rewrite fmap_cons, not_elem_of_cons, elem_of_cons. destruct (cmp k k0) eqn:E.
  - apply cmp_eq_iff in E as ->. left; left. congruence.
  - right. split_and!; [|done|done]. cbn. intros ->. by rewrite cmp_refl in E.
  - right. split_and!; [|done|done]. cbn. intros ->. by rewrite cmp_refl in E.
Qed.

Lemma foldl_insert_keys {K V} `{LawfulOrd K} (l : list (K * V)) : forall m k,
  k ∈ (foldl (fun m e => bmap_insert e.1 e.2 m) m l).*1 <-> k ∈ m.*1 \/ k ∈ l.*1.
Proof.
  induction l as [|[k0 v0] l IH]; intros m k; cbn [foldl fst snd]; [rewrite fmap_nil, elem_of_nil; tauto|].
  rewrite IH, bmap_insert_keys, fmap_cons, elem_of_cons. cbn. tauto.
Qed.

Section Indices.
Context (methods : list string).
Notation ids := (method_ids methods).

Lemma ids_lookup id i : bmap_get id ids = Some i -> methods !! i = Some id.
Proof.
  intros H. apply foldl_insert_get in H as [Hin|[_ H]]; [|done].
  apply elem_of_lookup_imap_1 in Hin as (j & x & [= -> ->] & Hj). done.
Qed.

Lemma ids_total id : id ∈ methods -> exists i, bmap_get id ids = Some i.
Proof.
  intros Hin. apply bmap_get_some_key, foldl_insert_keys. right. apply list_elem_of_lookup in Hin as (i & Hi).
  apply list_elem_of_fmap. exists (id, i). split; [done|]. by apply (elem_of_lookup_imap_2 (fun i id => (id, i))).
Qed.

Lemma ids_wf : bmap_wf ids.
Proof. apply bmap_of_list_wf. Qed.

Lemma contains_spec id : contains methods id = true <-> id ∈ methods.
Proof.
  unfold contains. rewrite List.existsb_exists. setoid_rewrite <- list_elem_of_In. setoid_rewrite String.eqb_eq.
  split; [by intros (x & ? & ->)|eauto].
Qed.

Lemma index_edges_spec edges i c :
  length (index_edges ids (length methods) edges) = length methods /\
  (c ∈ (index_edges ids (length methods) edges !!! i : list nat) <->
   exists e, e ∈ edges /\ bmap_get e.1 ids = Some c /\ bmap_get e.2 ids = Some i).
Proof.
  unfold index_edges.
  enough (forall acc, length acc = length methods ->
    let r := foldl (fun predecessors e =>
      match bmap_get e.1 ids, bmap_get e.2 ids with
      | Some from, Some to => <[to := (predecessors !!! to : list nat) ++ [from]]> predecessors
      | _, _ => predecessors
      end) acc edges in
    length r = length methods /\
    (c ∈ (r !!! i : list nat) <-> c ∈ (acc !!! i : list nat) \/
      exists e, e ∈ edges /\ bmap_get e.1 ids = Some c /\ bmap_get e.2 ids = Some i)) as Hgen.
  { destruct (Hgen (replicate (length methods) [])) as [Hl Hr]; [by rewrite length_replicate|]. split; [done|].
    rewrite Hr. split; [|by right]. intros [Hin|?]; [|done]. exfalso.
    destruct (decide (i < length methods)%nat) as [Hi|Hi].
    - rewrite lookup_total_replicate_2 in Hin by done. by apply elem_of_nil in Hin.
    - rewrite list_lookup_total_alt, lookup_ge_None_2 in Hin by (rewrite length_replicate; lia). by apply elem_of_nil in Hin. }
  induction edges as [|e edges IH]; intros acc Hacc; cbn [foldl]; [rewrite exists_elem_nil; tauto|].
  setoid_rewrite exists_elem_cons.
  destruct (bmap_get e.1 ids) as [from|] eqn:Hf; [|destruct (IH acc Hacc) as [Hl Hr]; split; [done|]; rewrite Hr; naive_solver].
  destruct (bmap_get e.2 ids) as [to|] eqn:Ht; [|destruct (IH acc Hacc) as [Hl Hr]; split; [done|]; rewrite Hr; naive_solver].
  destruct (IH (<[to := (acc !!! to : list nat) ++ [from]]> acc)) as [Hl Hr]; [by rewrite length_insert|].
  split; [done|]. rewrite Hr. apply ids_lookup, lookup_lt_Some in Ht as Hlt. rewrite total_insert by lia.
  destruct (decide (i = to)) as [->|Hne]; [rewrite elem_of_app, list_elem_of_singleton|]; naive_solver.
Qed.
End Indices.

(* --------------------------------------------------------------------- *)
(** ** What the masks mean *)

Definition missing (m : N) : nat := (32 - weight m)%nat.
Lemma missing_shrinks a c : small (N.lor a c) -> N.lor a c <> a -> (missing (N.lor a c) < missing a)%nat.
Proof.
  intros Hs Hne. pose proof (weight_grows a c Hs Hne) as Hw. pose proof (weight_bound (N.lor a c)) as Hb.
  unfold missing. revert Hw Hb. generalize (weight a), (weight (N.lor a c)). lia.
Qed.
Lemma missing_le m : (missing m <= 32)%nat.
Proof. unfold missing. generalize (weight m). lia. Qed.

Section Spec.
Context (methods : list string) (edges : list (string * string)) (seeds : list (option string)).

(** A call between retained methods. *)
Definition calls (a b : string) : Prop := (a, b) ∈ edges /\ a ∈ methods /\ b ∈ methods.
(** Method [id] reaches outcome number [b]. *)
Definition reaches (b : nat) (id : string) : Prop :=
  exists seed, seeds !! b = Some (Some seed) /\ seed ∈ methods /\ rtc calls id seed.

Record masks_ok (r : BTreeMap string N) : Prop := mkMasksOk {
  ok_wf : bmap_wf r;
  ok_nonzero : forall id m, bmap_get id r = Some m -> m <> 0;
  ok_bits : forall id b, has (default 0 (bmap_get id r)) b = true <-> reaches b id
}.

Lemma reaches_method b id : reaches b id -> id ∈ methods.
Proof. intros (seed & _ & Hs & Hr). inversion Hr as [|? ? ? (_ & ? & _)]; by subst. Qed.

Lemma reaches_call b a c : calls a c -> reaches b c -> reaches b a.
Proof. intros Hc (seed & Hb & Hs & Hr). exists seed. split_and!; [done|done|]. by eapply rtc_l. Qed.

Hypothesis bounded : (length seeds <= 32)%nat.
Notation ids := (method_ids methods).
Notation n := (length methods).
Notation preds := (index_edges ids n edges).

Definition good (b i : nat) : Prop := exists id, bmap_get id ids = Some i /\ reaches b id.

Lemma spec_good_step i c b : c ∈ (preds !!! i : list nat) -> good b i -> good b c.
Proof.
  intros Hc (id & Hid & Hr). apply (index_edges_spec methods edges i c) in Hc as ([x y] & He & Hx & Hy). cbn in *.
  apply ids_lookup in Hid. pose proof (ids_lookup _ _ _ Hy) as Hy'. assert (id = y) as -> by congruence.
  exists x. split; [done|]. eapply reaches_call; [|exact Hr]. split_and!; [done|..].
  - apply ids_lookup in Hx. by eapply list_elem_of_lookup_2.
  - by eapply list_elem_of_lookup_2.
Qed.

Lemma spec_callers_bound i c : c ∈ (preds !!! i : list nat) -> (c < n)%nat.
Proof. intros (e & _ & Hc & _)%(index_edges_spec methods edges i c). apply ids_lookup in Hc. by eapply lookup_lt_Some. Qed.

Lemma spec_good_small b i : good b i -> (b < 32)%nat.
Proof. intros (id & _ & seed & Hb & _). apply lookup_lt_Some in Hb. lia. Qed.

Notation closed := (closed_but n preds good (fun _ => False)).

Lemma closed_measure st : closed st -> (measure missing st <= rounds n)%nat.
Proof.
  intros [Hm Hp Hq Hd _ _ _]. unfold measure, rounds.
  assert (length (queue st) <= n)%nat as Hlen.
  { rewrite <- (length_seq n 0). apply List.NoDup_incl_length; [by apply NoDup_ListNoDup|].
    intros i Hi. apply list_elem_of_In in Hi. apply List.in_seq. specialize (Hq i Hi). lia. }
  assert (sum_list_with missing (masks st) <= n * 32)%nat; [|lia]. rewrite <- Hm. clear.
  induction (masks st) as [|m l IH]; [done|]. change (missing m + sum_list_with missing l <= 32 + length l * 32)%nat.
  pose proof (missing_le m). lia.
Qed.

Lemma enqueue_closed st node mask :
  closed st -> (node < n)%nat -> (forall b, has mask b = true -> good b node) ->
  closed (enqueue st node mask) /\
  (forall j b, has (mask_at (enqueue st node mask) j) b = true <->
     has (mask_at st j) b = true \/ (j = node /\ has mask b = true)).
Proof.
  intros [Hm Hp Hq Hd Hf Hs Hc] Hn Hg.
  assert (forall j, mask_at (enqueue st node mask) j =
    if decide (j = node) then N.lor (mask_at st node) mask else mask_at st j) as Hmask.
  { intros j. unfold enqueue. destruct (pending_at st node); unfold mask_at; cbn [masks]; apply total_insert; lia. }
  assert (forall j, j ∈ queue (enqueue st node mask) <-> j ∈ queue st \/ j = node) as Hqueue.
  { intros j. unfold enqueue. destruct (pending_at st node) eqn:E; cbn [queue].
    - apply Hf in E; [|done]. naive_solver.
    - rewrite elem_of_app, list_elem_of_singleton. done. }
  assert (forall j b, has (mask_at (enqueue st node mask) j) b = true <->
     has (mask_at st j) b = true \/ (j = node /\ has mask b = true)) as Hbits.
  { intros j b. rewrite Hmask. destruct (decide (j = node)) as [->|]; [rewrite has_lor, orb_true_iff|]; naive_solver. }
  split; [|done]. split.
  - unfold enqueue. destruct (pending_at st node); cbn; by rewrite length_insert.
  - unfold enqueue. destruct (pending_at st node); cbn; rewrite ?length_insert; done.
  - intros j [Hj| ->]%Hqueue; [by apply Hq|done].
  - unfold enqueue. destruct (pending_at st node) eqn:E; cbn [queue]; [done|]. apply list.NoDup_app.
    split_and!; [done| |apply NoDup_singleton]. intros j Hj Hjn. apply list_elem_of_singleton in Hjn as ->.
    apply Hf in Hj; [congruence|done].
  - intros j Hj. rewrite Hqueue. unfold enqueue. destruct (pending_at st node) eqn:E; unfold pending_at; cbn [pending].
    + change (pending st !!! j) with (pending_at st j). rewrite Hf by done. split; [by left|]. intros [?| ->]; [done|]. by apply Hf.
    + rewrite total_insert by lia. destruct (decide (j = node)); [naive_solver|].
      change (pending st !!! j) with (pending_at st j). rewrite Hf by done. naive_solver.
  - intros j b [Hb|[-> Hb]]%Hbits; [by apply Hs|by apply Hg].
  - intros j Hj _ c Hcj b Hb. rewrite Hqueue in Hj. apply Hbits in Hb as [Hb|[-> _]]; [|naive_solver].
    apply Hbits. left. apply (Hc j); [tauto|tauto|done|done].
Qed.

Lemma enqueue_all {A} (step : A -> option (nat * N)) l : forall st,
  closed st ->
  (forall a node m, a ∈ l -> step a = Some (node, m) -> (node < n)%nat /\ forall b, has m b = true -> good b node) ->
  let st' := foldl (fun st a => match step a with Some nm => enqueue st nm.1 nm.2 | None => st end) st l in
  closed st' /\ (forall j b, has (mask_at st j) b = true -> has (mask_at st' j) b = true) /\
  (forall a node m b, a ∈ l -> step a = Some (node, m) -> has m b = true -> has (mask_at st' node) b = true).
Proof.
  induction l as [|a l IH]; intros st Hst Hl; cbn [foldl].
  { split_and!; try done. by intros a node m b ?%elem_of_nil. }
  assert (forall a node m, a ∈ l -> step a = Some (node, m) -> (node < n)%nat /\ forall b, has m b = true -> good b node) as Hl'.
  { intros x node m Hx. apply Hl. by right. }
  destruct (step a) as [[node m]|] eqn:Ha; cbn [fst snd].
  - destruct (Hl a node m (list_elem_of_here _ _) Ha) as [Hn Hg].
    destruct (enqueue_closed st node m Hst Hn Hg) as [Hc Hb].
    destruct (IH _ Hc Hl') as (I1 & I2 & I3). split_and!; [done| |].
    + intros j b Hj. apply I2, Hb. by left.
    + intros x node' m' b [->|Hx]%elem_of_cons Hs Hm; [|by eapply I3]. rewrite Ha in Hs. injection Hs as <- <-.
      apply I2, Hb. by right.
  - destruct (IH _ Hst Hl') as (I1 & I2 & I3). split_and!; [done|done|].
    intros x node' m' b [->|Hx]%elem_of_cons Hs Hm; [congruence|by eapply I3].
Qed.

Lemma initial_closed : closed {| masks := replicate n 0; pending := replicate n false; queue := [] |}.
Proof.
  assert (forall i b, has (mask_at {| masks := replicate n 0; pending := replicate n false; queue := [] |} i) b = false) as Hz.
  { intros i b. unfold mask_at. cbn [masks]. destruct (decide (i < n)%nat) as [Hi|Hi].
    - rewrite lookup_total_replicate_2 by done. apply N.bits_0.
    - rewrite list_lookup_total_alt, lookup_ge_None_2 by (rewrite length_replicate; lia). apply N.bits_0. }
  split; cbn [masks pending queue]; rewrite ?length_replicate; try done.
  - intros i Hi. by apply elem_of_nil in Hi.
  - constructor.
  - intros i Hi. unfold pending_at. cbn [pending]. rewrite lookup_total_replicate_2, elem_of_nil by done. done.
  - intros i b. by rewrite Hz.
  - intros i _ _ c _ b. by rewrite Hz.
Qed.

Lemma has_bit k b : has (N.shiftl 1 (N.of_nat k)) b = true <-> b = k.
Proof. unfold has. rewrite N.shiftl_1_l, N.pow2_bits_eqb, N.eqb_eq. lia. Qed.

Lemma method_good id node b : bmap_get id ids = Some node -> reaches b id -> good b node.
Proof. intros Hid Hr. by exists id. Qed.

Lemma seeded st : closed st ->
  let st' := seed_masks ids seeds st in
  closed st' /\ forall b seed node, seeds !! b = Some (Some seed) -> bmap_get seed ids = Some node ->
    has (mask_at st' node) b = true.
Proof.
  intros Hst.
  pose (step := fun bs : nat * option string =>
    match bs.2 with
    | Some id => match bmap_get id ids with Some node => Some (node, N.shiftl 1 (N.of_nat bs.1)) | None => None end
    | None => None
    end).
  assert (seed_masks ids seeds st =
    foldl (fun st a => match step a with Some nm => enqueue st nm.1 nm.2 | None => st end) st (imap pair seeds)) as ->.
  { unfold seed_masks. apply foldl_eq. intros a [b o]. unfold step. cbn. destruct o as [id|]; [|done].
    by destruct (bmap_get id ids). }
  destruct (enqueue_all step (imap pair seeds) st Hst) as (H1 & _ & H3).
  - intros [k o] node m Hin Hs. apply elem_of_lookup_imap_1 in Hin as (j & x & [= -> ->] & Hj).
    unfold step in Hs. cbn in Hs. destruct x as [id|]; [|done]. destruct (bmap_get id ids) as [node'|] eqn:Hid; [|done].
    injection Hs as -> <-. pose proof (ids_lookup _ _ _ Hid) as Hl. split; [by eapply lookup_lt_Some|].
    intros b ->%has_bit. eapply method_good; [done|]. exists id. split_and!; [done|by eapply list_elem_of_lookup_2|done].
  - split; [done|]. intros b seed node Hb Hn. apply (H3 (b, Some seed) node (N.shiftl 1 (N.of_nat b)) b).
    + by apply (elem_of_lookup_imap_2 pair).
    + unfold step. cbn. by rewrite Hn.
    + by apply has_bit.
Qed.

(** Masks found by scanning: outcome 0 only, and only where it is reached. *)
Definition warm_ok (warm : BTreeMap string N) : Prop :=
  bmap_wf warm /\ forall id m, (id, m) ∈ warm -> m = 1 /\ reaches 0 id.

Lemma warmed warm st : closed st -> (forall id m, (id, m) ∈ warm -> m = 1 /\ reaches 0 id) ->
  let st' := warm_masks ids warm st in
  closed st' /\ forall j b, has (mask_at st j) b = true -> has (mask_at st' j) b = true.
Proof.
  intros Hst Hw.
  pose (step := fun e : string * N => match bmap_get e.1 ids with Some node => Some (node, e.2) | None => None end).
  assert (warm_masks ids warm st =
    foldl (fun st a => match step a with Some nm => enqueue st nm.1 nm.2 | None => st end) st warm) as ->.
  { unfold warm_masks. apply foldl_eq. intros a [id m]. unfold step. cbn. by destruct (bmap_get id ids). }
  destruct (enqueue_all step warm st Hst) as (H1 & H2 & _); [|done].
  intros [id m] node m' Hin Hs. unfold step in Hs. cbn in Hs. destruct (bmap_get id ids) as [node'|] eqn:Hid; [|done].
  injection Hs as -> <-. destruct (Hw id m Hin) as [-> Hr]. split; [by eapply lookup_lt_Some, ids_lookup|].
  intros b Hb. assert (b = 0%nat) as -> by (by apply (has_bit 0)). by eapply method_good.
Qed.

Lemma collect_wf ms : bmap_wf (collect_masks ids ms).
Proof.
  unfold bmap_wf, collect_masks. pose proof (ids_wf methods) as Hw. unfold bmap_wf in Hw.
  induction ids as [|[k i] l IH]; [constructor|]. cbn. inversion_clear Hw as [|? ? Hs Hx].
  destruct (ms !!! i =? 0); [by apply IH|]. cbn. constructor; [by apply IH|].
  rewrite list.Forall_forall in Hx |- *. intros y Hy. apply Hx. apply list_elem_of_fmap in Hy as ([k' v'] & -> & Hy).
  apply list_elem_of_omap in Hy as ([k2 i2] & Hin & He). cbn in He. destruct (ms !!! i2 =? 0); [done|]. injection He as <- _.
  apply list_elem_of_fmap. by exists (k2, i2).
Qed.

Lemma collect_get ms id m :
  bmap_get id (collect_masks ids ms) = Some m <-> exists i, bmap_get id ids = Some i /\ m = ms !!! i /\ m <> 0.
Proof.
  rewrite (bmap_get_elem id m _ (collect_wf ms)). unfold collect_masks. rewrite list_elem_of_omap. split.
  - intros ([k i] & Hin & He). cbn in He. destruct (N.eqb_spec (ms !!! i) 0); [done|]. injection He as -> <-.
    exists i. split_and!; try done. apply bmap_get_elem; [apply ids_wf|done].
  - intros (i & Hi & -> & Hne). exists (id, i). split; [apply bmap_get_elem; [apply ids_wf|done]|]. cbn.
    by destruct (N.eqb_spec (ms !!! i) 0).
Qed.

Lemma has_zero b : has 0 b = false.
Proof. apply N.bits_0. Qed.

Lemma collect_bits ms id b :
  has (default 0 (bmap_get id (collect_masks ids ms))) b = true <->
  exists i, bmap_get id ids = Some i /\ has (ms !!! i) b = true.
Proof.
  split.
  - destruct (bmap_get id (collect_masks ids ms)) as [m|] eqn:E; [|intros H; change (has 0 b = true) in H; by rewrite has_zero in H].
    apply collect_get in E as (i & Hi & -> & _). intros Hb. by exists i.
  - intros (i & Hi & Hb). rewrite (proj2 (collect_get ms id (ms !!! i))); [done|]. exists i. split_and!; try done.
    intros Hz. by rewrite Hz, has_zero in Hb.
Qed.

(** The propagation ends and computes reachability. *)
Lemma indexed_ok warm : (forall id m, (id, m) ∈ warm -> m = 1 /\ reaches 0 id) ->
  exists r, indexed_masks methods edges seeds warm = Some r /\ masks_ok r.
Proof.
  intros Hw. unfold indexed_masks. cbv zeta.
  destruct (seeded _ initial_closed) as [Hseed Hbits]. destruct (warmed warm _ Hseed Hw) as [Hwarm Hmono].
  destruct (propagate_spec missing missing_shrinks n preds good spec_good_step spec_callers_bound spec_good_small
    (rounds n) _ Hwarm (closed_measure _ Hwarm)) as (ms & -> & _ & Hsound & Hkeep & Hcl).
  exists (collect_masks ids ms). split; [done|]. split; [apply collect_wf| |].
  - intros id m (i & _ & -> & Hne)%collect_get. done.
  - intros id b. rewrite collect_bits. split.
    + intros (i & Hi & Hb). destruct (Hsound i b Hb) as (id' & Hi' & Hr). apply ids_lookup in Hi, Hi'. congruence.
    + intros (seed & Hb & Hs & Hr). induction Hr as [seed|x y seed (He & Hx & Hy) Hr IH].
      * destruct (ids_total _ _ Hs) as (i & Hi). exists i. split; [done|]. by eapply Hkeep, Hmono, Hbits.
      * destruct (IH Hb Hs) as (i & Hi & Hbi). destruct (ids_total _ _ Hx) as (j & Hj). exists j. split; [done|].
        apply (Hcl i j b); [|done]. apply (index_edges_spec methods edges i j). by exists (x, y).
Qed.

(* --------------------------------------------------------------------- *)
(** ** The warm-up *)

Definition scan_step (warm : BTreeMap string N) (e : string * string) : BTreeMap string N :=
  if bmap_contains_key e.2 warm && negb (bmap_contains_key e.1 warm) && contains methods e.1
  then bmap_insert e.1 1 warm else warm.

(** The scan may stop at this edge. *)
Definition settled (warm : BTreeMap string N) (e : string * string) : Prop :=
  e.2 ∈ warm.*1 -> e.1 ∈ methods -> e.1 ∈ warm.*1.

Lemma scan_step_cases warm e :
  (scan_step warm e = warm /\ settled warm e) \/
  (scan_step warm e = bmap_insert e.1 1 warm /\ e.2 ∈ warm.*1 /\ e.1 ∉ warm.*1 /\ e.1 ∈ methods).
Proof.
  unfold scan_step, settled.
  destruct (bmap_contains_key e.2 warm) eqn:E2; cbn [andb].
  2: { left. split; [done|]. intros H%bmap_contains_spec. congruence. }
  apply bmap_contains_spec in E2. destruct (bmap_contains_key e.1 warm) eqn:E1; cbn [negb andb].
  { left. split; [done|]. by apply bmap_contains_spec in E1. }
  assert (e.1 ∉ warm.*1) as Hn by (intros H%bmap_contains_spec; congruence).
  destruct (contains methods e.1) eqn:Em; [right; split_and!; [done..|by apply contains_spec]|].
  left. split; [done|]. intros _ Hm%contains_spec. congruence.
Qed.

Lemma insert_length_new k (m : BTreeMap string N) v : k ∉ m.*1 -> length (bmap_insert k v m) = S (length m).
Proof.
  induction m as [|[k' v'] m IH]; cbn; [done|]. rewrite not_elem_of_cons. intros [Hne Hn].
  destruct (cmp k k') eqn:E; cbn; [by apply cmp_eq_iff in E|done|by rewrite IH].
Qed.

Lemma scan_length l : forall warm,
  (length warm <= length (foldl scan_step warm l))%nat /\
  (length (foldl scan_step warm l) = length warm -> foldl scan_step warm l = warm /\ Forall (settled warm) l).
Proof.
  induction l as [|e l IH]; intros warm; cbn [foldl]; [done|].
  destruct (scan_step_cases warm e) as [[-> Hs]|(-> & _ & Hn & _)].
  - destruct (IH warm) as [Hle Heq]. split; [done|]. intros H. destruct (Heq H). split; [done|by constructor].
  - destruct (IH (bmap_insert e.1 1 warm)) as [Hle _]. rewrite insert_length_new in Hle by done. split; [lia|lia].
Qed.

Lemma scan_ok l : forall warm, (forall e, e ∈ l -> e ∈ edges) -> warm_ok warm -> warm_ok (foldl scan_step warm l).
Proof.
  induction l as [|e l IH]; intros warm Hl Hw; cbn [foldl]; [done|]. apply IH; [intros x Hx; apply Hl; by right|].
  destruct (scan_step_cases warm e) as [[-> _]|(-> & H2 & Hn & Hm)]; [done|]. destruct Hw as [Hwf Hw].
  split; [by apply bmap_insert_wf|]. intros id m Hin.
  apply bmap_get_elem in Hin; [|by apply bmap_insert_wf]. rewrite bmap_get_insert in Hin.
  destruct (cmp id e.1) eqn:E; [|apply Hw, bmap_get_elem; done..].
  apply cmp_eq_iff in E as ->. injection Hin as <-. split; [done|].
  apply list_elem_of_fmap in H2 as ([k v] & Hk & Hkv). cbn in Hk. destruct (Hw _ _ Hkv) as [_ Hr].
  eapply reaches_call; [|exact Hr]. split_and!; [|done|by eapply reaches_method].
  rewrite <- Hk. destruct e. apply Hl. left.
Qed.

Lemma warm_scan_fold warm : warm_scan methods edges warm = foldl scan_step warm edges.
Proof. done. Qed.

(** Nothing is left to scan when every edge is settled. *)
Lemma settled_complete seed warm : seeds = [Some seed] -> warm_ok warm -> seed ∈ warm.*1 ->
  (forall e, e ∈ edges -> settled warm e) -> masks_ok warm.
Proof.
  intros Hs [Hwf Hw] Hseed Hall. split; [done| |].
  - intros id m Hm%bmap_get_elem; [|done]. by destruct (Hw _ _ Hm) as [-> _].
  - intros id b. split.
    + destruct (bmap_get id warm) as [m|] eqn:E; cbn [default]; [|by rewrite has_zero].
      apply bmap_get_elem in E; [|done]. destruct (Hw _ _ E) as [-> Hr]. intros Hb. by apply (has_bit 0) in Hb as ->.
    + intros (seed' & Hb & _ & Hr). rewrite Hs in Hb. destruct b as [|b]; [|done]. cbn in Hb. injection Hb as <-.
      assert (id ∈ warm.*1) as Hid.
      { induction Hr as [x|x y z (He & Hx & _) _ IH]; [done|]. apply (Hall (x, y)); [done| |done]. by apply IH. }
      apply list_elem_of_fmap in Hid as ([k m] & -> & Hin). cbn [fst]. pose proof (Hw _ _ Hin) as [-> _].
      by rewrite (proj2 (bmap_get_elem k 1 warm Hwf) Hin).
Qed.

(** A map over retained methods with as many keys as there are methods has them all. *)
Lemma full_covers warm : warm_ok warm -> length warm = length methods -> forall id, id ∈ methods -> id ∈ warm.*1.
Proof.
  intros [Hwf Hw] Hlen id Hid.
  assert (NoDup warm.*1) as Hnd by (by apply bset_wf_NoDup).
  apply list_elem_of_In. eapply (List.NoDup_length_incl (l := warm.*1) (l' := methods)); [by apply NoDup_ListNoDup| | |by apply list_elem_of_In].
  - rewrite length_fmap. lia.
  - intros x Hx. apply list_elem_of_In, list_elem_of_fmap in Hx as ([k m] & -> & Hin). apply list_elem_of_In.
    destruct (Hw _ _ Hin) as [_ Hr]. by eapply reaches_method.
Qed.

Lemma scan_keeps l : forall warm id, id ∈ warm.*1 -> id ∈ (foldl scan_step warm l).*1.
Proof.
  induction l as [|e l IH]; intros warm id Hid; cbn [foldl]; [done|]. apply IH.
  destruct (scan_step_cases warm e) as [[-> _]|(-> & _)]; [done|]. apply bmap_insert_keys. by right.
Qed.

(** An early return is the answer; otherwise the masks found so far are right. *)
Lemma warm_up_ok seed k : forall warm, seeds = [Some seed] -> warm_ok warm -> seed ∈ warm.*1 ->
  match warm_up k methods edges warm with inl r => masks_ok r | inr r => warm_ok r end.
Proof.
  induction k as [|k IH]; intros warm Hs Hw Hseed; cbn [warm_up]; [done|]. rewrite warm_scan_fold.
  pose proof (scan_ok edges warm (fun _ H => H) Hw) as Hw'. pose proof (scan_keeps edges warm seed Hseed) as Hseed'.
  destruct (scan_length edges warm) as [_ Hsame].
  destruct (Nat.eqb_spec (length (foldl scan_step warm edges)) (length warm)) as [Heq|_]; cbn [orb].
  { destruct (Hsame Heq) as [Hfix Hset]. rewrite Hfix. rewrite list.Forall_forall in Hset. by eapply settled_complete. }
  destruct (Nat.eqb_spec (length (foldl scan_step warm edges)) (length methods)) as [Hfull|_]; [|by apply IH].
  eapply settled_complete; [done..|]. intros e _ _ Hm. by eapply full_covers.
Qed.
End Spec.

(** C39: For at most 32 outcomes the search returns, within the worklist's bound
    of one visit per method and gained bit, and the mask of a method has bit
    [b] exactly when the method reaches outcome [b] along call edges between
    retained methods; methods that reach nothing are absent.  The two early
    scans of a single outcome give the same answer as the indexed search. *)
Theorem outcome_masks_spec methods edges seeds :
  (length seeds <= 32)%nat ->
  exists r, outcome_masks methods edges seeds = Some r /\ masks_ok methods edges seeds r.
Proof.
  intros Hb. unfold outcome_masks. rewrite (proj2 (Nat.ltb_ge _ _) Hb).
  assert (forall r, (forall b id, ~ reaches methods edges seeds b id) -> r = [] -> masks_ok methods edges seeds r) as Hnone.
  { intros r Hn ->. split; [constructor|done|]. intros id b. change (has 0 b = true <-> reaches methods edges seeds b id).
    rewrite has_zero. split; [done|]. by intros ?%Hn. }
  destruct (forallb _ seeds) eqn:Eall.
  { exists []. split; [done|]. apply Hnone; [|done]. intros b id (seed & Hs & _).
    rewrite forallb_forall in Eall. specialize (Eall (Some seed)). 
    apply list_elem_of_lookup_2, list_elem_of_In in Hs. by apply Eall in Hs. }
  pose proof (indexed_ok methods edges seeds Hb) as Hidx.
  assert (forall id m, (id, m) ∈ [] -> m = 1 /\ reaches methods edges seeds 0 id) as Hempty by (by intros id m ?%elem_of_nil).
  destruct seeds as [|[seed|] [|s rest]]; try (by apply Hidx).
  destruct (contains methods seed) eqn:Ec; cbn [negb].
  - apply contains_spec in Ec.
    assert (warm_ok methods edges [Some seed] [(seed, 1)]) as Hw.
    { split; [repeat constructor|]. intros id m [= -> ->]%list_elem_of_singleton. split; [done|]. exists seed. by split_and!. }
    pose proof (warm_up_ok methods edges [Some seed] Hb seed 2 _ eq_refl Hw ltac:(left)) as Hup.
    destruct (warm_up 2 methods edges [(seed, 1)]) as [r|r]; [by exists r|]. apply Hidx, Hup.
  - exists []. split; [done|]. apply Hnone; [|done]. intros [|b] id (seed' & Hs & Hm & _); [|done]. cbn in Hs.
    injection Hs as <-. apply contains_spec in Hm. congruence.
Qed.

(** A diamond with a cycle and two outcomes, and a chain that outlasts the early scans. *)
Lemma outcome_masks_spec_witness :
  let edges := [("a", "b"); ("b", "c"); ("c", "d"); ("d", "b"); ("e", "c")] in
  let methods := ["a"; "b"; "c"; "d"; "e"] in
  outcome_masks methods edges [Some "b"; None; Some "e"] = Some [("a", 1); ("b", 1); ("c", 1); ("d", 1); ("e", 5)] /\
  exists r, outcome_masks methods edges [Some "b"; None; Some "e"] = Some r /\
            masks_ok methods edges [Some "b"; None; Some "e"] r.
Proof.
  cbv zeta. split; [vm_compute; reflexivity|]. apply outcome_masks_spec. cbn. lia.
Defined.
