(* ===== verification/PublicationLedger.v ===== *)
(** * Workspace publication (workspace_publish.rs): data and documents

    A publication is a directory with two files, the sealed authority (who is
    published, in which order, to which commit) and an append-only ledger of
    events, one canonical document per line.  This file has the records with the
    documents that serde derives for them, the validators, and every operation on
    the directory.  A document is written by [canonical::bytes]; the only
    conversion that can fail is that of the 128-bit event time, which a JSON value
    holds up to 64 bits.  Operations run under an exclusive file lock, so each is
    one step on the directory.  The clock is an argument ([now]), and so are the
    two loaders of prepared workspaces (workspace_prepare.rs). *)

From stdpp Require Import gmap.
From S2P Require Import Prelude Order Collections Text Json Canonical Instances JsonFormat JsonRead Errors CasObject CasInterface.
Open Scope string_scope.
Open Scope list_scope.
Open Scope N_scope.

Definition binding {A} (m : string) : Res A := Err (ClewError_new BindingChanged m).
Definition precondition {A} (m : string) : Res A := Err (ClewError_new PreconditionFailed m).

Definition WORKSPACE_PUBLISH_INPUT_SCHEMA : string := "codeclew-workspace-publish-input/1.0".
Definition WORKSPACE_PUBLICATION_AUTHORITY_SCHEMA : string := "codeclew-workspace-publication-authority/1.0".
Definition WORKSPACE_PUBLICATION_EVENT_SCHEMA : string := "codeclew-workspace-publication-event/1.0".
Definition MAX_WORKSPACE_PUBLISH_INPUT_BYTES : N := 256 * 1024.
Definition MAX_WORKSPACE_PUBLICATION_AUTHORITY_BYTES : N := 512 * 1024.
Definition MAX_WORKSPACE_PUBLICATION_LEDGER_BYTES : N := 4 * 1024 * 1024.

(* --------------------------------------------------------------------- *)
(** ** Records *)

Record WorkspacePublishInputMember : Type := mkInputMember {
  im_alias : string;
  im_prepared_authority_digest : string;
  im_allow_conditional : bool;
  im_acknowledge_obligations : list string
}.

Record WorkspacePublishInput : Type := mkInput {
  in_schema : string;
  in_preparation_id : string;
  in_after_workspace_id : string;
  in_after_workspace_authority_digest : string;
  in_policy : string;
  in_members : list WorkspacePublishInputMember
}.

Record WorkspacePublicationMemberAuthority : Type := mkMember {
  alias : string;
  session_id : string;
  run_id : string;
  target_ref : string;
  before_oid : string;
  candidate_oid : string;
  prepared_authority_digest : string;
  allow_conditional : bool;
  acknowledge_obligations : list string
}.

Record WorkspacePublicationAuthority : Type := mkAuthority {
  wa_schema : string;
  wa_publication_id : string;
  wa_authority_digest : string;
  wa_workspace_id : string;
  wa_workspace_authority_digest : string;
  wa_workspace_semantic_digest : string;
  wa_preparation_id : string;
  wa_after_workspace_id : string;
  wa_after_workspace_authority_digest : string;
  wa_policy : string;
  wa_members : list WorkspacePublicationMemberAuthority
}.

Inductive WorkspacePublicationStatus : Type :=
| PreparedAll | Publishing | PartiallyPublished | RecoveryRequired | PublishedAll.

Record PublishedWorkspaceMember : Type := mkPublished { pm_alias : string; pm_candidate_oid : string }.

Record WorkspacePublicationEvent : Type := mkEvent {
  ev_schema : string;
  ev_publication_id : string;
  ev_publication_authority_digest : string;
  ev_sequence : N;
  ev_previous_event_hash : option string;
  ev_status : WorkspacePublicationStatus;
  ev_completed : list PublishedWorkspaceMember;
  ev_active_alias : option string;
  ev_last_error_code : option ErrorCode;
  ev_updated_unix_ms : N;
  ev_event_hash : string
}.

Record WorkspacePublicationProjection : Type := mkProjection {
  pj_schema : string;
  pj_publication_id : string;
  pj_authority_digest : string;
  pj_workspace_id : string;
  pj_after_workspace_id : string;
  pj_policy : string;
  pj_status : WorkspacePublicationStatus;
  pj_completed : list PublishedWorkspaceMember;
  pj_active_alias : option string;
  pj_last_error_code : option ErrorCode;
  pj_remaining_aliases : list string;
  pj_sequence : N;
  pj_ledger_head : string
}.

#[export] Instance WorkspacePublicationStatus_eq_dec : EqDecision WorkspacePublicationStatus.
Proof. solve_decision. Defined.
#[export] Instance PublishedWorkspaceMember_eq_dec : EqDecision PublishedWorkspaceMember.
Proof. solve_decision. Defined.
#[export] Instance WorkspacePublicationMemberAuthority_eq_dec : EqDecision WorkspacePublicationMemberAuthority.
Proof. solve_decision. Defined.
#[export] Instance WorkspacePublicationAuthority_eq_dec : EqDecision WorkspacePublicationAuthority.
Proof. solve_decision. Defined.
#[export] Instance WorkspacePublicationEvent_eq_dec : EqDecision WorkspacePublicationEvent.
Proof. solve_decision. Defined.

(** The run states of session.rs. *)
Inductive RunStatus : Type :=
| RunCreated | RunPreparing | ReadyToPublish | ReadyToPublishConditional | ValidatedConditional
| RunPublishing | RunPublished | RunPublishedConditional | RunFailed | RunWorktreeRecoveryRequired | RunCancelled.

(** The fields of a prepared workspace that publication reads. *)
Record AfterWorkspaceMember : Type := mkAfterMember {
  am_alias : string;
  am_session_id : string;
  am_run_id : string;
  am_run_status : RunStatus;
  am_target_ref : string;
  am_before_oid : string;
  am_candidate_oid : string;
  am_prepared_authority_digest : string;
  am_obligation_count : N
}.

Record AfterWorkspace : Type := mkAfter {
  aw_after_workspace_id : string;
  aw_authority_digest : string;
  aw_preparation_id : string;
  aw_workspace_id : string;
  aw_workspace_authority_digest : string;
  aw_workspace_semantic_digest : string;
  aw_members : list AfterWorkspaceMember
}.

(* --------------------------------------------------------------------- *)
(** ** Derived serializers *)

(** [rename_all = "SCREAMING_SNAKE_CASE"]. *)
Definition status_name (s : WorkspacePublicationStatus) : string :=
  match s with
  | PreparedAll => "PREPARED_ALL" | Publishing => "PUBLISHING" | PartiallyPublished => "PARTIALLY_PUBLISHED"
  | RecoveryRequired => "RECOVERY_REQUIRED" | PublishedAll => "PUBLISHED_ALL"
  end.
Definition statuses : list WorkspacePublicationStatus :=
  [PreparedAll; Publishing; PartiallyPublished; RecoveryRequired; PublishedAll].

Definition error_code_name (c : ErrorCode) : string :=
  match c with
  | UnsupportedKotlinVersion => "UNSUPPORTED_KOTLIN_VERSION"
  | UnsupportedCompilerPluginAbi => "UNSUPPORTED_COMPILER_PLUGIN_ABI"
  | UnsupportedProjectConfiguration => "UNSUPPORTED_PROJECT_CONFIGURATION"
  | ProjectModelChanged => "PROJECT_MODEL_CHANGED"
  | WorkerProtocolMismatch => "WORKER_PROTOCOL_MISMATCH"
  | WorkerPreparationRequired => "WORKER_PREPARATION_REQUIRED"
  | WorkerCrashed => "WORKER_CRASHED"
  | SymbolNotFound => "SYMBOL_NOT_FOUND"
  | AmbiguousSymbol => "AMBIGUOUS_SYMBOL"
  | ExpressionNotFound => "EXPRESSION_NOT_FOUND"
  | StaleTarget => "STALE_TARGET"
  | AmbiguousTarget => "AMBIGUOUS_TARGET"
  | PreconditionFailed => "PRECONDITION_FAILED"
  | UnsupportedControlFlow => "UNSUPPORTED_CONTROL_FLOW"
  | IncompleteSemanticAnalysis => "INCOMPLETE_SEMANTIC_ANALYSIS"
  | SliceBudgetExceeded => "SLICE_BUDGET_EXCEEDED"
  | ReplacementParseError => "REPLACEMENT_PARSE_ERROR"
  | TypeMismatch => "TYPE_MISMATCH"
  | BindingChanged => "BINDING_CHANGED"
  | NewDiagnostics => "NEW_DIAGNOSTICS"
  | EffectChanged => "EFFECT_CHANGED"
  | WritesetExceeded => "WRITESET_EXCEEDED"
  | CompileFailed => "COMPILE_FAILED"
  | TestFailed => "TEST_FAILED"
  | AbiChanged => "ABI_CHANGED"
  | RwConflict => "RW_CONFLICT"
  | WwConflict => "WW_CONFLICT"
  | StaleRequiresReslice => "STALE_REQUIRES_RESLICE"
  | RefCompareAndSwapFailed => "REF_COMPARE_AND_SWAP_FAILED"
  | TransactionRecoveryRequired => "TRANSACTION_RECOVERY_REQUIRED"
  | WorktreeRecoveryRequired => "WORKTREE_RECOVERY_REQUIRED"
  | ResourceLimit => "RESOURCE_LIMIT"
  | StateCorrupt => "STATE_CORRUPT"
  | InputMutated => "INPUT_MUTATED"
  | UnsupportedLanguage => "UNSUPPORTED_LANGUAGE"
  | InvalidInput => "INVALID_INPUT"
  | Internal => "INTERNAL"
  end.
Definition error_codes : list ErrorCode :=
  [UnsupportedKotlinVersion; UnsupportedCompilerPluginAbi; UnsupportedProjectConfiguration; ProjectModelChanged;
   WorkerProtocolMismatch; WorkerPreparationRequired; WorkerCrashed; SymbolNotFound; AmbiguousSymbol;
   ExpressionNotFound; StaleTarget; AmbiguousTarget; PreconditionFailed; UnsupportedControlFlow;
   IncompleteSemanticAnalysis; SliceBudgetExceeded; ReplacementParseError; TypeMismatch; BindingChanged;
   NewDiagnostics; EffectChanged; WritesetExceeded; CompileFailed; TestFailed; AbiChanged; RwConflict; WwConflict;
   StaleRequiresReslice; RefCompareAndSwapFailed; TransactionRecoveryRequired; WorktreeRecoveryRequired;
   ResourceLimit; StateCorrupt; InputMutated; UnsupportedLanguage; InvalidInput; Internal].

Definition strings_value (l : list string) : Value := JArray (JString <$> l).
Definition natural_value (n : N) : Value := JNumber (PosInt n).

Definition member_value (m : WorkspacePublicationMemberAuthority) : Value :=
  JObject [("alias", JString (alias m)); ("sessionId", JString (session_id m)); ("runId", JString (run_id m));
           ("targetRef", JString (target_ref m)); ("beforeOid", JString (before_oid m));
           ("candidateOid", JString (candidate_oid m));
           ("preparedAuthorityDigest", JString (prepared_authority_digest m));
           ("allowConditional", JBool (allow_conditional m));
           ("acknowledgeObligations", strings_value (acknowledge_obligations m))].

Definition authority_value (a : WorkspacePublicationAuthority) : Value :=
  JObject [("schema", JString (wa_schema a)); ("publicationId", JString (wa_publication_id a));
           ("authorityDigest", JString (wa_authority_digest a)); ("workspaceId", JString (wa_workspace_id a));
           ("workspaceAuthorityDigest", JString (wa_workspace_authority_digest a));
           ("workspaceSemanticDigest", JString (wa_workspace_semantic_digest a));
           ("preparationId", JString (wa_preparation_id a));
           ("afterWorkspaceId", JString (wa_after_workspace_id a));
           ("afterWorkspaceAuthorityDigest", JString (wa_after_workspace_authority_digest a));
           ("policy", JString (wa_policy a)); ("members", JArray (member_value <$> wa_members a))].

Definition published_value (m : PublishedWorkspaceMember) : Value :=
  JObject [("alias", JString (pm_alias m)); ("candidateOid", JString (pm_candidate_oid m))].

Definition event_value (e : WorkspacePublicationEvent) : Value :=
  JObject ([("schema", JString (ev_schema e)); ("publicationId", JString (ev_publication_id e));
            ("publicationAuthorityDigest", JString (ev_publication_authority_digest e));
            ("sequence", natural_value (ev_sequence e))]
           ++ optional_field "previousEventHash" JString (ev_previous_event_hash e)
           ++ [("status", JString (status_name (ev_status e))); ("completed", JArray (published_value <$> ev_completed e))]
           ++ optional_field "activeAlias" JString (ev_active_alias e)
           ++ optional_field "lastErrorCode" (fun c => JString (error_code_name c)) (ev_last_error_code e)
           ++ [("updatedUnixMs", natural_value (ev_updated_unix_ms e)); ("eventHash", JString (ev_event_hash e))]).

(* --------------------------------------------------------------------- *)
(** ** Derived deserializers *)

Definition decode_input_member (v : Value) : option WorkspacePublishInputMember :=
  match decode_struct ["alias"; "preparedAuthorityDigest"; "allowConditional"; "acknowledgeObligations"] v with
  | Some [a; p; c; o] =>
      match decode_string a, decode_string p, decode_bool c, decode_vec decode_string o with
      | Some a, Some p, Some c, Some o => Some (mkInputMember a p c o)
      | _, _, _, _ => None
      end
  | _ => None
  end.

Definition decode_input (v : Value) : option WorkspacePublishInput :=
  match decode_struct ["schema"; "preparationId"; "afterWorkspaceId"; "afterWorkspaceAuthorityDigest"; "policy"; "members"] v with
  | Some [s; p; w; d; q; m] =>
      match decode_string s, decode_string p, decode_string w, decode_string d, decode_string q,
            decode_vec decode_input_member m with
      | Some s, Some p, Some w, Some d, Some q, Some m => Some (mkInput s p w d q m)
      | _, _, _, _, _, _ => None
      end
  | _ => None
  end.

Definition decode_member (v : Value) : option WorkspacePublicationMemberAuthority :=
  match decode_struct ["alias"; "sessionId"; "runId"; "targetRef"; "beforeOid"; "candidateOid";
                       "preparedAuthorityDigest"; "allowConditional"; "acknowledgeObligations"] v with
  | Some [a; s; r; t; b; c; p; o; k] =>
      match decode_string a, decode_string s, decode_string r, decode_string t, decode_string b, decode_string c,
            decode_string p, decode_bool o, decode_vec decode_string k with
      | Some a, Some s, Some r, Some t, Some b, Some c, Some p, Some o, Some k => Some (mkMember a s r t b c p o k)
      | _, _, _, _, _, _, _, _, _ => None
      end
  | _ => None
  end.

Definition decode_authority (v : Value) : option WorkspacePublicationAuthority :=
  match decode_struct ["schema"; "publicationId"; "authorityDigest"; "workspaceId"; "workspaceAuthorityDigest";
                       "workspaceSemanticDigest"; "preparationId"; "afterWorkspaceId";
                       "afterWorkspaceAuthorityDigest"; "policy"; "members"] v with
  | Some [a; b; c; d; e; f; g; h; i; j; k] =>
      match decode_string a, decode_string b, decode_string c, decode_string d, decode_string e, decode_string f,
            decode_string g, decode_string h, decode_string i, decode_string j, decode_vec decode_member k with
      | Some a, Some b, Some c, Some d, Some e, Some f, Some g, Some h, Some i, Some j, Some k =>
          Some (mkAuthority a b c d e f g h i j k)
      | _, _, _, _, _, _, _, _, _, _, _ => None
      end
  | _ => None
  end.

Definition decode_published (v : Value) : option PublishedWorkspaceMember :=
  match decode_struct ["alias"; "candidateOid"] v with
  | Some [a; c] =>
      match decode_string a, decode_string c with Some a, Some c => Some (mkPublished a c) | _, _ => None end
  | _ => None
  end.

Definition event_fields : list (string * bool) :=
  [("schema", true); ("publicationId", true); ("publicationAuthorityDigest", true); ("sequence", true);
   ("previousEventHash", false); ("status", true); ("completed", true); ("activeAlias", false);
   ("lastErrorCode", false); ("updatedUnixMs", true); ("eventHash", true)].

Definition decode_event (v : Value) : option WorkspacePublicationEvent :=
  match decode_record event_fields v with
  | Some [s; p; d; n; h; t; c; a; x; u; e] =>
      match decode_required decode_string s, decode_required decode_string p, decode_required decode_string d,
            decode_required decode_u64 n, decode_option decode_string h,
            decode_required (decode_variant status_name statuses) t,
            decode_required (decode_vec decode_published) c, decode_option decode_string a,
            decode_option (decode_variant error_code_name error_codes) x,
            decode_required decode_u128 u, decode_required decode_string e with
      | Some s, Some p, Some d, Some n, Some h, Some t, Some c, Some a, Some x, Some u, Some e =>
          Some (mkEvent s p d n h t c a x u e)
      | _, _, _, _, _, _, _, _, _, _, _ => None
      end
  | _ => None
  end.

(* --------------------------------------------------------------------- *)
(** ** Identities and validators *)

(** [b.split(|byte| *byte == sep).filter(|line| !line.is_empty())]. *)
Fixpoint split_bytes (sep : byte) (b : list byte) : list (list byte) :=
  match b with
  | [] => [[]]
  | x :: b' =>
      if decide (x = sep) then [] :: split_bytes sep b'
      else match split_bytes sep b' with w :: ws => (x :: w) :: ws | [] => [[x]] end
  end.
Definition lines (b : list byte) : list (list byte) :=
  List.filter (fun l => match l with [] => false | _ => true end) (split_bytes newline b).

Definition digest_component (value : string) : bool := (str_len value =? 64) && str_all lower_hex_byte value.
Definition digest (value : string) : bool :=
  match strip_prefix "sha256:" value with Some c => digest_component c | None => false end.
Definition git_oid (value : string) : bool := (str_len value =? 40) && str_all lower_hex_byte value.

Definition u64_saturating_add (a b : N) : N := N.min (a + b) u64_max.

Definition set_publication_id (a : WorkspacePublicationAuthority) (id : string) : WorkspacePublicationAuthority :=
  {| wa_schema := wa_schema a; wa_publication_id := id; wa_authority_digest := wa_authority_digest a;
     wa_workspace_id := wa_workspace_id a; wa_workspace_authority_digest := wa_workspace_authority_digest a;
     wa_workspace_semantic_digest := wa_workspace_semantic_digest a; wa_preparation_id := wa_preparation_id a;
     wa_after_workspace_id := wa_after_workspace_id a;
     wa_after_workspace_authority_digest := wa_after_workspace_authority_digest a;
     wa_policy := wa_policy a; wa_members := wa_members a |}.
Definition set_authority_digest (a : WorkspacePublicationAuthority) (d : string) : WorkspacePublicationAuthority :=
  {| wa_schema := wa_schema a; wa_publication_id := wa_publication_id a; wa_authority_digest := d;
     wa_workspace_id := wa_workspace_id a; wa_workspace_authority_digest := wa_workspace_authority_digest a;
     wa_workspace_semantic_digest := wa_workspace_semantic_digest a; wa_preparation_id := wa_preparation_id a;
     wa_after_workspace_id := wa_after_workspace_id a;
     wa_after_workspace_authority_digest := wa_after_workspace_authority_digest a;
     wa_policy := wa_policy a; wa_members := wa_members a |}.
Definition set_event_hash (e : WorkspacePublicationEvent) (h : string) : WorkspacePublicationEvent :=
  {| ev_schema := ev_schema e; ev_publication_id := ev_publication_id e;
     ev_publication_authority_digest := ev_publication_authority_digest e; ev_sequence := ev_sequence e;
     ev_previous_event_hash := ev_previous_event_hash e; ev_status := ev_status e; ev_completed := ev_completed e;
     ev_active_alias := ev_active_alias e; ev_last_error_code := ev_last_error_code e;
     ev_updated_unix_ms := ev_updated_unix_ms e; ev_event_hash := h |}.

(** The two files of a publication directory. *)
Record Directory : Type := mkDirectory { authority_json : option (list byte); ledger_jsonl : option (list byte) }.
Definition empty_directory : Directory := {| authority_json := None; ledger_jsonl := None |}.
(** Directories by the components of workspace and publication. *)
Notation State := (@gmap (string * string) prod_eq_dec prod_countable Directory).

(** [ManagedDirectory::read_file]. *)
Definition read_file (file : option (list byte)) (max_bytes : N) : Res (list byte) :=
  match file with
  | None => internal "No such file or directory"
  | Some bytes =>
      if max_bytes <? vlen bytes then invalid "managed state file exceeds its read bound" else Ok bytes
  end.

(** [managed_id_component]. *)
Definition managed_id_component (value prefix : string) : Res string :=
  let? component := ok_or (strip_prefix prefix value) (ClewError_new InvalidInput "managed identifier has the wrong prefix") in
  if str_is_empty component || (128 <? str_len component)
     || negb (str_all (fun a => is_ascii_alphanumeric a || Ascii.eqb a "-" || Ascii.eqb a "_") component)
  then invalid "managed identifier is not a safe path component" else Ok component.

Definition publication_directory (workspace_id publication_id : string) : Res (string * string) :=
  let? component :=
    match strip_prefix "workspace-publication:sha256:" publication_id with
    | Some c => if digest_component c then Ok c else invalid "workspace publication id is invalid"
    | None => invalid "workspace publication id is invalid"
    end in
  let? name := managed_id_component workspace_id "workspace:" in
  Ok (name, component).

Section Publication.
Context {P : Primitives} {R : JsonReader}.

Definition publication_id (a : WorkspacePublicationAuthority) : string :=
  "workspace-publication:" +:+
  hash (JObject [("schema", JString "codeclew-workspace-publication-request-authority/1.0");
                 ("workspaceId", JString (wa_workspace_id a));
                 ("workspaceAuthorityDigest", JString (wa_workspace_authority_digest a));
                 ("workspaceSemanticDigest", JString (wa_workspace_semantic_digest a));
                 ("preparationId", JString (wa_preparation_id a));
                 ("afterWorkspaceId", JString (wa_after_workspace_id a));
                 ("afterWorkspaceAuthorityDigest", JString (wa_after_workspace_authority_digest a));
                 ("policy", JString (wa_policy a));
                 ("members", JArray (member_value <$> wa_members a))]).

Definition authority_digest (a : WorkspacePublicationAuthority) : string :=
  hash (authority_value (set_authority_digest a "")).

(** [canonical::bytes(&event)]. *)
Definition event_bytes (e : WorkspacePublicationEvent) : Res (list byte) :=
  if u64_max <? ev_updated_unix_ms e then internal "number out of range" else Ok (value_bytes (event_value e)).

Definition event_hash (e : WorkspacePublicationEvent) : Res string :=
  let? bytes := event_bytes (set_event_hash e "") in Ok (hash_bytes bytes).

Definition member_invalid (m : WorkspacePublicationMemberAuthority) : bool :=
  str_is_empty (session_id m) || (128 <? str_len (session_id m))
  || str_is_empty (run_id m) || (128 <? str_len (run_id m))
  || str_is_empty (target_ref m) || (512 <? str_len (target_ref m))
  || negb (git_oid (before_oid m)) || negb (git_oid (candidate_oid m))
  || negb (digest (prepared_authority_digest m))
  || windows_any geb (acknowledge_obligations m)
  || Bool.eqb (allow_conditional m) (match acknowledge_obligations m with [] => true | _ => false end).

(** [members.iter().any(|member| !aliases.insert(member.alias) || ..)]. *)
Fixpoint members_invalid (aliases : BTreeSet string) (ms : list WorkspacePublicationMemberAuthority) : bool :=
  match ms with
  | [] => false
  | m :: ms' => bset_contains (alias m) aliases || member_invalid m || members_invalid (bset_insert (alias m) aliases) ms'
  end.

Definition validate_authority (a : WorkspacePublicationAuthority) : Res unit :=
  if str_neqb (wa_schema a) WORKSPACE_PUBLICATION_AUTHORITY_SCHEMA
     || str_neqb (wa_policy a) "ROLL_FORWARD_ONLY"
     || negb ((2 <=? vlen (wa_members a)) && (vlen (wa_members a) <=? 4))
     || str_neqb (wa_publication_id a) (publication_id a)
     || str_neqb (wa_authority_digest a) (authority_digest a)
     || negb (digest (wa_workspace_authority_digest a))
     || negb (digest (wa_workspace_semantic_digest a))
     || negb (digest (wa_after_workspace_authority_digest a))
     || members_invalid [] (wa_members a)
  then corrupt "workspace publication authority is invalid" else Ok tt.

(* --------------------------------------------------------------------- *)
(** ** The event chain *)

Definition prefix_mismatch (members : list WorkspacePublicationMemberAuthority) (completed : list PublishedWorkspaceMember) : bool :=
  existsb (fun im =>
    match members !! im.1 with
    | None => true
    | Some expected => str_neqb (alias expected) (pm_alias im.2) || str_neqb (candidate_oid expected) (pm_candidate_oid im.2)
    end) (imap pair completed).

Definition is_none {A} (o : option A) : bool := match o with None => true | Some _ => false end.
Definition is_status (s t : WorkspacePublicationStatus) : bool := bool_decide (s = t).
Definition startable (s : WorkspacePublicationStatus) : bool :=
  match s with PreparedAll | PartiallyPublished | RecoveryRequired => true | _ => false end.

(** The [match current.status] of a later event. *)
Definition step_valid (members : list WorkspacePublicationMemberAuthority) (previous current : WorkspacePublicationEvent) : bool :=
  let expected_next := alias <$> members !! length (ev_completed previous) in
  match ev_status current with
  | Publishing =>
      startable (ev_status previous)
      && bool_decide (ev_completed current = ev_completed previous)
      && bool_decide (ev_active_alias current = expected_next)
      && is_none (ev_last_error_code current)
  | RecoveryRequired =>
      is_status (ev_status previous) Publishing
      && bool_decide (ev_completed current = ev_completed previous)
      && bool_decide (ev_active_alias current = ev_active_alias previous)
      && negb (is_none (ev_last_error_code current))
  | PartiallyPublished | PublishedAll =>
      is_status (ev_status previous) Publishing
      && Nat.eqb (length (ev_completed current)) (length (ev_completed previous) + 1)
      && bool_decide (take (length (ev_completed previous)) (ev_completed current) = ev_completed previous)
      && match list.last (ev_completed current) with
         | Some member => bool_decide (Some (pm_alias member) = ev_active_alias previous)
         | None => false
         end
      && is_none (ev_active_alias current)
      && is_none (ev_last_error_code current)
      && Bool.eqb (is_status (ev_status current) PublishedAll) (Nat.eqb (length (ev_completed current)) (length members))
  | PreparedAll => false
  end.

Definition origin_valid (current : WorkspacePublicationEvent) : bool :=
  (ev_sequence current =? 0) && is_none (ev_previous_event_hash current) && is_status (ev_status current) PreparedAll
  && (match ev_completed current with [] => true | _ => false end)
  && is_none (ev_active_alias current) && is_none (ev_last_error_code current).

Definition validate_transition (a : WorkspacePublicationAuthority) (previous : option WorkspacePublicationEvent)
    (current : WorkspacePublicationEvent) : Res unit :=
  if (ev_updated_unix_ms current =? 0)
     || Nat.ltb (length (wa_members a)) (length (ev_completed current))
     || prefix_mismatch (wa_members a) (ev_completed current)
  then corrupt "workspace publication completion prefix is invalid"
  else
    let? valid :=
      match previous with
      | None => Ok (origin_valid current)
      | Some previous =>
          if negb (ev_sequence current =? u64_saturating_add (ev_sequence previous) 1)
             || negb (bool_decide (ev_previous_event_hash current = Some (ev_event_hash previous)))
             || (ev_updated_unix_ms current <? ev_updated_unix_ms previous)
          then corrupt "workspace publication ledger chain is discontinuous"
          else Ok (step_valid (wa_members a) previous current)
      end in
    if valid then Ok tt else corrupt "workspace publication transition is invalid".

(** The body of the loop over the lines of the ledger. *)
Definition load_line (a : WorkspacePublicationAuthority) (previous : option WorkspacePublicationEvent) (line : list byte)
  : Res (option WorkspacePublicationEvent) :=
  let? event := ok_or (match read_document line with Some v => decode_event v | None => None end)
                  (ClewError_new StateCorrupt "workspace publication event is not valid JSON") in
  let? bytes := event_bytes event in
  if negb (bool_decide (bytes = line)) || str_neqb (ev_schema event) WORKSPACE_PUBLICATION_EVENT_SCHEMA
     || str_neqb (ev_publication_id event) (wa_publication_id a)
     || str_neqb (ev_publication_authority_digest event) (wa_authority_digest a)
  then corrupt "workspace publication event authority is invalid"
  else
    let? h := event_hash event in
    if str_neqb (ev_event_hash event) h
    then corrupt "workspace publication event authority is invalid"
    else validate_transition a previous event ;;? Ok (Some event).

Definition load_event_chain (d : Directory) (a : WorkspacePublicationAuthority) : Res WorkspacePublicationEvent :=
  let? bytes := read_file (ledger_jsonl d) MAX_WORKSPACE_PUBLICATION_LEDGER_BYTES in
  if negb (bool_decide (list.last bytes = Some newline))
  then corrupt "workspace publication ledger is missing or incomplete"
  else
    let? previous := try_fold (load_line a) None (lines bytes) in
    ok_or previous (ClewError_new StateCorrupt "workspace publication ledger is empty").

Definition append_event (d : Directory) (event : WorkspacePublicationEvent) : Directory * Res unit :=
  do! d, h := pure_on d (event_hash event) in
  let event := set_event_hash event h in
  do! d, bytes := pure_on d (event_bytes event) in
  let bytes := bytes ++ [newline] in
  (* [open_append] creates the file. *)
  let file := default [] (ledger_jsonl d) in
  if MAX_WORKSPACE_PUBLICATION_LEDGER_BYTES <? N.min (vlen file + vlen bytes) u64_max
  then ({| authority_json := authority_json d; ledger_jsonl := Some file |},
        resource_limit "workspace publication ledger exceeds 4 MiB")
  else ({| authority_json := authority_json d; ledger_jsonl := Some (file ++ bytes) |}, Ok tt).

Definition next_event (now : N) (previous : WorkspacePublicationEvent) (status : WorkspacePublicationStatus)
    (completed : list PublishedWorkspaceMember) (active_alias : option string) (last_error_code : option ErrorCode)
  : WorkspacePublicationEvent :=
  {| ev_schema := WORKSPACE_PUBLICATION_EVENT_SCHEMA; ev_publication_id := ev_publication_id previous;
     ev_publication_authority_digest := ev_publication_authority_digest previous;
     ev_sequence := u64_saturating_add (ev_sequence previous) 1;
     ev_previous_event_hash := Some (ev_event_hash previous); ev_status := status; ev_completed := completed;
     ev_active_alias := active_alias; ev_last_error_code := last_error_code; ev_updated_unix_ms := now;
     ev_event_hash := "" |}.

Definition project (a : WorkspacePublicationAuthority) (current : WorkspacePublicationEvent) : WorkspacePublicationProjection :=
  {| pj_schema := "codeclew-workspace-publication-projection/1.0"; pj_publication_id := wa_publication_id a;
     pj_authority_digest := wa_authority_digest a; pj_workspace_id := wa_workspace_id a;
     pj_after_workspace_id := wa_after_workspace_id a; pj_policy := wa_policy a; pj_status := ev_status current;
     pj_completed := ev_completed current; pj_active_alias := ev_active_alias current;
     pj_last_error_code := ev_last_error_code current;
     pj_remaining_aliases := alias <$> drop (length (ev_completed current)) (wa_members a);
     pj_sequence := ev_sequence current; pj_ledger_head := ev_event_hash current |}.

(* --------------------------------------------------------------------- *)
(** ** The sealed authority *)

Definition authority_bytes (a : WorkspacePublicationAuthority) : list byte := value_bytes (authority_value a).

Definition persist_authority (d : Directory) (a : WorkspacePublicationAuthority) : Directory * Res unit :=
  do! d, _u := pure_on d (validate_authority a) in
  let bytes := authority_bytes a in
  if MAX_WORKSPACE_PUBLICATION_AUTHORITY_BYTES <? vlen bytes
  then (d, resource_limit "workspace publication authority exceeds 512 KiB")
  else
    match authority_json d with
    | None => ({| authority_json := Some bytes; ledger_jsonl := ledger_jsonl d |}, Ok tt)
    | Some _ =>
        do! d, existing := pure_on d (read_file (authority_json d) MAX_WORKSPACE_PUBLICATION_AUTHORITY_BYTES) in
        if bool_decide (existing = bytes) then (d, Ok tt)
        else (d, binding "workspace publication identity already has different authority")
    end.

Definition load_authority (d : Directory) : Res WorkspacePublicationAuthority :=
  let? bytes := read_file (authority_json d) MAX_WORKSPACE_PUBLICATION_AUTHORITY_BYTES in
  let? authority := ok_or (match read_document bytes with Some v => decode_authority v | None => None end)
                      (ClewError_new StateCorrupt "workspace publication authority is not valid JSON") in
  if negb (bool_decide (authority_bytes authority = bytes))
  then corrupt "workspace publication authority is not canonical"
  else validate_authority authority ;;? Ok authority.

(** What [serde_json::from_slice] makes of a document as a [Value]: a repeated
    key keeps its place and takes the later value. *)
Fixpoint collapse (v : Value) : Value :=
  match v with
  | JArray l => JArray (map collapse l)
  | JObject m => JObject (map_collect (map (fun e => (e.1, collapse e.2)) m))
  | other => other
  end.

Definition parse_input (source : list byte) : Res WorkspacePublishInput :=
  if (vlen source =? 0) || (MAX_WORKSPACE_PUBLISH_INPUT_BYTES <? vlen source)
  then invalid "workspace publish input is empty or exceeds 256 KiB"
  else
    let? value := ok_or (collapse <$> read_document source)
                    (ClewError_new InvalidInput "workspace publish input is not valid JSON") in
    if negb (bool_decide (value_bytes value = source))
    then invalid "workspace publish input must be canonical compact JSON with NFC strings"
    else ok_or (decode_input value) (ClewError_new InvalidInput "workspace publish input schema is invalid").

Definition require_publishable_member (prepared : AfterWorkspaceMember) (requested : WorkspacePublishInputMember) : Res unit :=
  let acknowledged := im_acknowledge_obligations requested in
  let empty := match acknowledged with [] => true | _ => false end in
  if str_neqb (im_prepared_authority_digest requested) (am_prepared_authority_digest prepared)
  then binding "publication request differs from prepared member authority"
  else
    match am_run_status prepared with
    | ReadyToPublish =>
        if negb (im_allow_conditional requested) && empty then Ok tt
        else precondition "publication mode or obligation count differs from prepared member"
    | ReadyToPublishConditional =>
        if im_allow_conditional requested && (vlen acknowledged =? am_obligation_count prepared) && negb empty then Ok tt
        else precondition "publication mode or obligation count differs from prepared member"
    | ValidatedConditional =>
        Err (ClewError_new IncompleteSemanticAnalysis "workspace member is conditional but not eligible for publication")
    | _ => precondition "publication mode or obligation count differs from prepared member"
    end.

(** The body of the loop over the requested members. *)
Definition admit_member (after : AfterWorkspace) (acc : BTreeSet string * list WorkspacePublicationMemberAuthority)
    (requested : WorkspacePublishInputMember) : Res (BTreeSet string * list WorkspacePublicationMemberAuthority) :=
  let '(aliases, members) := acc in
  if bset_contains (im_alias requested) aliases
     || (4096 <? vlen (im_acknowledge_obligations requested))
     || windows_any geb (im_acknowledge_obligations requested)
  then invalid "publication aliases and acknowledgements must be unique and ordered"
  else
    let? prepared := ok_or (List.find (fun m => str_eqb (am_alias m) (im_alias requested)) (aw_members after))
                       (ClewError_new InvalidInput "publication member is unknown") in
    require_publishable_member prepared requested ;;?
    Ok (bset_insert (im_alias requested) aliases,
        members ++ [{| alias := am_alias prepared; session_id := am_session_id prepared; run_id := am_run_id prepared;
                       target_ref := am_target_ref prepared; before_oid := am_before_oid prepared;
                       candidate_oid := am_candidate_oid prepared;
                       prepared_authority_digest := am_prepared_authority_digest prepared;
                       allow_conditional := im_allow_conditional requested;
                       acknowledge_obligations := im_acknowledge_obligations requested |}]).

Definition build_authority (after : AfterWorkspace) (input : WorkspacePublishInput) : Res WorkspacePublicationAuthority :=
  if str_neqb (in_schema input) WORKSPACE_PUBLISH_INPUT_SCHEMA || str_neqb (in_policy input) "ROLL_FORWARD_ONLY"
     || negb (Nat.eqb (length (in_members input)) (length (aw_members after)))
  then invalid "workspace publish input authority is invalid"
  else
    let? '(_, members) := try_fold (admit_member after) ([], []) (in_members input) in
    let authority := {| wa_schema := WORKSPACE_PUBLICATION_AUTHORITY_SCHEMA; wa_publication_id := ""; wa_authority_digest := "";
                        wa_workspace_id := aw_workspace_id after;
                        wa_workspace_authority_digest := aw_workspace_authority_digest after;
                        wa_workspace_semantic_digest := aw_workspace_semantic_digest after;
                        wa_preparation_id := aw_preparation_id after;
                        wa_after_workspace_id := aw_after_workspace_id after;
                        wa_after_workspace_authority_digest := aw_authority_digest after;
                        wa_policy := in_policy input; wa_members := members |} in
    let authority := set_publication_id authority (publication_id authority) in
    let authority := set_authority_digest authority (authority_digest authority) in
    validate_authority authority ;;? Ok authority.

(* --------------------------------------------------------------------- *)
(** ** Operations on the state *)

Definition directory (st : State) (key : string * string) : Directory := default empty_directory (st !! key).

(** A critical section under the ledger lock of one directory. *)
Definition locked {A : Type} (st : State) (key : string * string) (body : Directory -> Directory * Res A) : State * Res A :=
  let '(d, r) := body (directory st key) in (<[key := d]> st, r).

Definition foreign (a : WorkspacePublicationAuthority) (workspace_id publication_id : string) : bool :=
  str_neqb (wa_workspace_id a) workspace_id || str_neqb (wa_publication_id a) publication_id.

Definition transition_locked (workspace_id publication_id expected_ledger_head : string)
    (build : WorkspacePublicationAuthority -> WorkspacePublicationEvent -> Res WorkspacePublicationEvent)
    (d : Directory) : Directory * Res WorkspacePublicationProjection :=
  do! d, authority := pure_on d (load_authority d) in
  if foreign authority workspace_id publication_id
  then (d, binding "publication belongs to another workspace authority")
  else
    do! d, current := pure_on d (load_event_chain d authority) in
    if str_neqb (ev_event_hash current) expected_ledger_head
    then (d, precondition "publication ledger changed concurrently; reload before retrying")
    else
      do! d, next := pure_on d (build authority current) in
      if bool_decide (next = current) then (d, Ok (project authority current))
      else
        do! d, _u := append_event d next in
        do! d, current := pure_on d (load_event_chain d authority) in
        (d, Ok (project authority current)).

Definition transition (st : State) (workspace_id publication_id expected_ledger_head : string)
    (build : WorkspacePublicationAuthority -> WorkspacePublicationEvent -> Res WorkspacePublicationEvent)
  : State * Res WorkspacePublicationProjection :=
  do! st, key := pure_on st (publication_directory workspace_id publication_id) in
  locked st key (transition_locked workspace_id publication_id expected_ledger_head build).

Definition build_begin (now : N) (a : WorkspacePublicationAuthority) (current : WorkspacePublicationEvent)
  : Res WorkspacePublicationEvent :=
  match ev_status current with
  | Publishing | PublishedAll => Ok current
  | PreparedAll | PartiallyPublished | RecoveryRequired =>
      let? next := ok_or (wa_members a !! length (ev_completed current))
                     (ClewError_new StateCorrupt "publication has no remaining member") in
      Ok (next_event now current Publishing (ev_completed current) (Some (alias next)) None)
  end.

Definition is_active (current : WorkspacePublicationEvent) (member : string) : bool :=
  is_status (ev_status current) Publishing && bool_decide (ev_active_alias current = Some member).

Definition build_published (now : N) (member oid : string) (a : WorkspacePublicationAuthority)
    (current : WorkspacePublicationEvent) : Res WorkspacePublicationEvent :=
  if negb (is_active current member) then precondition "only the active publishing member can complete"
  else
    let? expected := ok_or (wa_members a !! length (ev_completed current))
                       (ClewError_new StateCorrupt "publication member order is exhausted") in
    if str_neqb (alias expected) member || str_neqb (candidate_oid expected) oid
    then binding "published candidate differs from sealed member authority"
    else
      let completed := ev_completed current ++ [{| pm_alias := member; pm_candidate_oid := oid |}] in
      let status := if Nat.eqb (length completed) (length (wa_members a)) then PublishedAll else PartiallyPublished in
      Ok (next_event now current status completed None None).

Definition build_failure (now : N) (member : string) (error_code : ErrorCode) (_ : WorkspacePublicationAuthority)
    (current : WorkspacePublicationEvent) : Res WorkspacePublicationEvent :=
  if negb (is_active current member) then precondition "only the active publishing member can fail"
  else Ok (next_event now current RecoveryRequired (ev_completed current) (Some member) (Some error_code)).

Definition begin_next (now : N) (st : State) (workspace_id publication_id head : string) :=
  transition st workspace_id publication_id head (build_begin now).
Definition record_published (now : N) (st : State) (workspace_id publication_id head member oid : string) :=
  transition st workspace_id publication_id head (build_published now member oid).
Definition record_failure (now : N) (st : State) (workspace_id publication_id head member : string) (error_code : ErrorCode) :=
  transition st workspace_id publication_id head (build_failure now member error_code).

Definition active_member (a : WorkspacePublicationAuthority) (p : WorkspacePublicationProjection)
  : Res (option WorkspacePublicationMemberAuthority) :=
  if str_neqb (pj_publication_id p) (wa_publication_id a) || str_neqb (pj_authority_digest p) (wa_authority_digest a)
  then binding "publication projection differs from authority"
  else
    match pj_status p with
    | PublishedAll => Ok None
    | status =>
        let? name :=
          if is_status status Publishing
          then ok_or (pj_active_alias p) (ClewError_new StateCorrupt "publishing projection has no active member")
          else ok_or (alias <$> wa_members a !! length (pj_completed p))
                 (ClewError_new StateCorrupt "publication has no remaining member") in
        let? member := ok_or (List.find (fun m => str_eqb (alias m) name) (wa_members a))
                         (ClewError_new StateCorrupt "publication active member is unknown") in
        Ok (Some member)
    end.

(** The event that opens a ledger. *)
Definition origin_event (now : N) (a : WorkspacePublicationAuthority) : WorkspacePublicationEvent :=
  {| ev_schema := WORKSPACE_PUBLICATION_EVENT_SCHEMA; ev_publication_id := wa_publication_id a;
     ev_publication_authority_digest := wa_authority_digest a; ev_sequence := 0; ev_previous_event_hash := None;
     ev_status := PreparedAll; ev_completed := []; ev_active_alias := None; ev_last_error_code := None;
     ev_updated_unix_ms := now; ev_event_hash := "" |}.

Section Loaders.
(** [load_retained_after_workspace] and [load_bound_after_workspace] of
    workspace_prepare.rs: workspace, preparation, prepared workspace and its digest. *)
Context (load_retained load_bound : string -> string -> string -> string -> Res AfterWorkspace).

Definition resolve_locked (now : N) (workspace_id : string) (a : WorkspacePublicationAuthority) (d : Directory)
  : Directory * Res WorkspacePublicationProjection :=
  match authority_json d with
  | Some _ =>
      do! d, existing := pure_on d (load_authority d) in
      if negb (bool_decide (existing = a))
      then (d, binding "workspace publication identity already has different authority")
      else
        do! d, current := pure_on d (load_event_chain d existing) in
        (d, Ok (project existing current))
  | None =>
      do! d, _u := pure_on d (load_bound workspace_id (wa_preparation_id a) (wa_after_workspace_id a)
                               (wa_after_workspace_authority_digest a)) in
      do! d, _u := persist_authority d a in
      do! d, _u := match ledger_jsonl d with
                   | Some _ => (d, Ok tt)
                   | None => append_event d (origin_event now a)
                   end in
      do! d, current := pure_on d (load_event_chain d a) in
      (d, Ok (project a current))
  end.

Definition resolve (now : N) (st : State) (workspace_id : string) (source : list byte)
  : State * Res WorkspacePublicationProjection :=
  do! st, input := pure_on st (parse_input source) in
  do! st, after := pure_on st (load_retained workspace_id (in_preparation_id input) (in_after_workspace_id input)
                                (in_after_workspace_authority_digest input)) in
  do! st, authority := pure_on st (build_authority after input) in
  do! st, key := pure_on st (publication_directory workspace_id (wa_publication_id authority)) in
  locked st key (resolve_locked now workspace_id authority).

Definition load (st : State) (workspace_id publication_id : string)
  : Res (WorkspacePublicationAuthority * WorkspacePublicationProjection) :=
  let? key := publication_directory workspace_id publication_id in
  let d := directory st key in
  let? authority := load_authority d in
  if foreign authority workspace_id publication_id
  then binding "publication belongs to another workspace authority"
  else
    load_retained workspace_id (wa_preparation_id authority) (wa_after_workspace_id authority)
      (wa_after_workspace_authority_digest authority) ;;?
    let? current := load_event_chain d authority in
    Ok (authority, project authority current).
End Loaders.
End Publication.
