(* ===== verification/PublicationCodec.v ===== *)
(** * Reading what a publication wrote

    Events and authorities written by [canonical::bytes] decode to themselves, and
    a ledger is read line by line: appending an event to a readable ledger
    appends one line and continues the chain. *)

From stdpp Require Import gmap.
From S2P Require Import Prelude Order Collections Text Json Canonical Instances JsonFormat JsonRead Errors CasObject CasInterface PublicationLedger.
Open Scope string_scope.
Open Scope list_scope.
Open Scope N_scope.

(* --------------------------------------------------------------------- *)
(** ** Events *)

Definition event_typed (e : WorkspacePublicationEvent) : Prop := ev_sequence e <= u64_max /\ ev_updated_unix_ms e <= u64_max.

Lemma published_sorted l : map sort_value (published_value <$> l) = published_value <$> l.
Proof. induction l as [|m l IH]; [done|]. cbn [fmap list_fmap map]. by rewrite IH. Qed.

Definition sorted_event (e : WorkspacePublicationEvent) : Value :=
  JObject (optional_field "activeAlias" JString (ev_active_alias e)
           ++ [("completed", JArray (published_value <$> ev_completed e)); ("eventHash", JString (ev_event_hash e))]
           ++ optional_field "lastErrorCode" (fun c => JString (error_code_name c)) (ev_last_error_code e)
           ++ optional_field "previousEventHash" JString (ev_previous_event_hash e)
           ++ [("publicationAuthorityDigest", JString (ev_publication_authority_digest e));
               ("publicationId", JString (ev_publication_id e)); ("schema", JString (ev_schema e));
               ("sequence", natural_value (ev_sequence e)); ("status", JString (status_name (ev_status e)));
               ("updatedUnixMs", natural_value (ev_updated_unix_ms e))]).

Lemma event_sorted e : sort_value (event_value e) = sorted_event e.
Proof.
  destruct e as [s p d n h t c a x u k]. unfold event_value, sorted_event. cbn [ev_schema ev_publication_id
    ev_publication_authority_digest ev_sequence ev_previous_event_hash ev_status ev_completed ev_active_alias
    ev_last_error_code ev_updated_unix_ms ev_event_hash].
  rewrite <- (published_sorted c) at 2.
  destruct h, a, x; reflexivity.
Qed.

Lemma status_written s : decode_variant status_name statuses (JString (status_name s)) = Some s.
Proof. by destruct s. Qed.
Lemma error_code_written c : decode_variant error_code_name error_codes (JString (error_code_name c)) = Some c.
Proof. by destruct c. Qed.
Lemma published_written l : decode_vec decode_published (JArray (published_value <$> l)) = Some l.
Proof. apply (decode_list_fmap decode_published published_value). apply list.Forall_forall. by intros [a c] _. Qed.

Lemma event_written e : event_typed e -> decode_event (sort_value (event_value e)) = Some e.
Proof.
  intros [Hn Hu]. rewrite event_sorted. destruct e as [s p d n h t c a x u k]. unfold sorted_event.
  cbn [ev_schema ev_publication_id ev_publication_authority_digest ev_sequence ev_previous_event_hash ev_status
    ev_completed ev_active_alias ev_last_error_code ev_updated_unix_ms ev_event_hash] in *.
  assert (decode_u128 (natural_value u) = Some u) as Hu128.
  { cbn. rewrite (proj2 (N.leb_le _ _)); [done|]. unfold u64_max, u128_max in *. lia. }
  assert (decode_u64 (natural_value n) = Some n) as Hn64 by (by apply decode_u64_natural).
  unfold decode_event.
  destruct h, a, x; cbn -[decode_variant decode_vec decode_u64 decode_u128 natural_value fmap];
    rewrite ?status_written, ?error_code_written, ?published_written, Hn64, Hu128; done.
Qed.

Lemma event_plain e : event_typed e ->
  plain (sort_value (event_value e)) = true /\ nesting (sort_value (event_value e)) <= 64.
Proof.
  intros [Hn Hu]. rewrite event_sorted. destruct e as [s p d n h t c a x u k]. unfold sorted_event, natural_value.
  cbn [ev_schema ev_publication_id ev_publication_authority_digest ev_sequence ev_previous_event_hash ev_status
    ev_completed ev_active_alias ev_last_error_code ev_updated_unix_ms ev_event_hash] in *.
  assert (plain (JArray (published_value <$> c)) = true) as Hp.
  { cbn [plain]. apply forallb_iff. apply Forall_fmap. apply list.Forall_forall. by intros m _. }
  assert (nesting (JArray (published_value <$> c)) <= 2) as Hd.
  { cbn [nesting]. apply (foldr_max_le (fun a => nesting a + 1)). apply Forall_fmap. apply list.Forall_forall. by intros m _. }
  apply N.leb_le in Hn, Hu. revert Hp Hd. generalize (JArray (published_value <$> c)). intros v Hp Hd. split.
  - destruct h, a, x; cbn -[u64_max N.leb]; by rewrite Hn, Hu, Hp.
  - destruct h, a, x; cbn -[N.max N.add]; lia.
Qed.

(* --------------------------------------------------------------------- *)
(** ** Authorities *)

Lemma strings_sorted l : sort_value (strings_value l) = strings_value l.
Proof. unfold strings_value. cbn [sort_value]. f_equal. induction l as [|s l IH]; [done|]. cbn [fmap list_fmap map]. by rewrite IH. Qed.

Lemma strings_written l : decode_vec decode_string (strings_value l) = Some l.
Proof. apply (decode_list_fmap decode_string JString). by apply list.Forall_forall. Qed.

Definition sorted_member (m : WorkspacePublicationMemberAuthority) : Value :=
  JObject [("acknowledgeObligations", strings_value (acknowledge_obligations m)); ("alias", JString (alias m));
           ("allowConditional", JBool (allow_conditional m)); ("beforeOid", JString (before_oid m));
           ("candidateOid", JString (candidate_oid m));
           ("preparedAuthorityDigest", JString (prepared_authority_digest m)); ("runId", JString (run_id m));
           ("sessionId", JString (session_id m)); ("targetRef", JString (target_ref m))].

Lemma member_sorted m : sort_value (member_value m) = sorted_member m.
Proof. unfold sorted_member. rewrite <- (strings_sorted (acknowledge_obligations m)). reflexivity. Qed.

Lemma members_sorted l : map sort_value (member_value <$> l) = sorted_member <$> l.
Proof. induction l as [|m l IH]; [done|]. cbn [fmap list_fmap map]. by rewrite IH, member_sorted. Qed.

Lemma members_written l : decode_vec decode_member (JArray (sorted_member <$> l)) = Some l.
Proof.
  apply (decode_list_fmap decode_member sorted_member). apply list.Forall_forall. intros [a s r t b c p o k] _.
  unfold decode_member, sorted_member. cbn -[decode_vec strings_value]. by rewrite strings_written.
Qed.

Definition sorted_authority (a : WorkspacePublicationAuthority) : Value :=
  JObject [("afterWorkspaceAuthorityDigest", JString (wa_after_workspace_authority_digest a));
           ("afterWorkspaceId", JString (wa_after_workspace_id a)); ("authorityDigest", JString (wa_authority_digest a));
           ("members", JArray (sorted_member <$> wa_members a)); ("policy", JString (wa_policy a));
           ("preparationId", JString (wa_preparation_id a)); ("publicationId", JString (wa_publication_id a));
           ("schema", JString (wa_schema a)); ("workspaceAuthorityDigest", JString (wa_workspace_authority_digest a));
           ("workspaceId", JString (wa_workspace_id a));
           ("workspaceSemanticDigest", JString (wa_workspace_semantic_digest a))].

Lemma authority_sorted a : sort_value (authority_value a) = sorted_authority a.
Proof. unfold sorted_authority. rewrite <- (members_sorted (wa_members a)). reflexivity. Qed.

Lemma authority_written a : decode_authority (sort_value (authority_value a)) = Some a.
Proof.
  rewrite authority_sorted. destruct a as [s p d w x y q z v o m]. unfold decode_authority, sorted_authority.
  cbn -[decode_vec fmap]. by rewrite members_written.
Qed.

Lemma member_plain m : plain (sorted_member m) = true /\ nesting (sorted_member m) <= 2.
Proof.
  unfold sorted_member.
  assert (plain (strings_value (acknowledge_obligations m)) = true) as Hp.
  { cbn [plain strings_value]. apply forallb_iff, Forall_fmap, list.Forall_forall. by intros s _. }
  assert (nesting (strings_value (acknowledge_obligations m)) <= 1) as Hd.
  { cbn [nesting strings_value]. apply (foldr_max_le (fun a => nesting a + 1)), Forall_fmap, list.Forall_forall. by intros s _. }
  revert Hp Hd. generalize (strings_value (acknowledge_obligations m)). intros v Hp Hd. split.
  - cbn. by rewrite Hp.
  - cbn -[N.max N.add]. lia.
Qed.

Lemma authority_plain a : plain (sort_value (authority_value a)) = true /\ nesting (sort_value (authority_value a)) <= 64.
Proof.
  rewrite authority_sorted. unfold sorted_authority.
  assert (plain (JArray (sorted_member <$> wa_members a)) = true) as Hp.
  { cbn [plain]. apply forallb_iff, Forall_fmap, list.Forall_forall. intros m _. apply member_plain. }
  assert (nesting (JArray (sorted_member <$> wa_members a)) <= 3) as Hd.
  { cbn [nesting]. apply (foldr_max_le (fun a => nesting a + 1)), Forall_fmap, list.Forall_forall. intros m _.
    pose proof (proj2 (member_plain m)). cbn -[sorted_member nesting N.add]. lia. }
  revert Hp Hd. generalize (JArray (sorted_member <$> wa_members a)). intros v Hp Hd. split.
  - cbn. by rewrite Hp.
  - cbn -[N.max N.add]. lia.
Qed.

(* --------------------------------------------------------------------- *)
(** ** Lines *)

Lemma split_bytes_nonempty sep b : split_bytes sep b <> [].
Proof. destruct b as [|x b]; cbn; [done|]. destruct (decide (x = sep)); [done|]. by destruct (split_bytes sep b). Qed.

Lemma split_bytes_app sep b c : split_bytes sep (b ++ sep :: c) = split_bytes sep b ++ split_bytes sep c.
Proof.
  induction b as [|x b IH]; cbn; [by rewrite decide_True|]. destruct (decide (x = sep)); [by rewrite IH|].
  rewrite IH. destruct (split_bytes sep b) as [|w ws] eqn:E; [by apply split_bytes_nonempty in E|]. done.
Qed.

Lemma split_bytes_none sep b : sep ∉ b -> split_bytes sep b = [b].
Proof.
  induction b as [|x b IH]; cbn; [done|]. rewrite not_elem_of_cons. intros [Hne Hb].
  rewrite decide_False by (by intros ->). by rewrite IH.
Qed.

Lemma lines_app b c : lines (b ++ newline :: c) = lines b ++ lines c.
Proof. unfold lines. by rewrite split_bytes_app, List.filter_app. Qed.

Lemma lines_one b : newline ∉ b -> b <> [] -> lines (b ++ [newline]) = [b].
Proof. intros Hb Hne. rewrite lines_app. unfold lines. rewrite split_bytes_none by done. by destruct b. Qed.

(** A file that is empty or ends its last line. *)
Definition line_ended (b : list byte) : Prop := b = [] \/ exists c, b = c ++ [newline].

Lemma line_ended_last b : list.last b = Some newline <-> exists c, b = c ++ [newline].
Proof. rewrite last_Some. done. Qed.

Lemma lines_snoc b l : line_ended b -> newline ∉ l -> l <> [] -> lines (b ++ l ++ [newline]) = lines b ++ [l].
Proof.
  intros [->|[c ->]] Hl Hne; [by apply lines_one|]. rewrite <- app_assoc.
  change (c ++ [newline] ++ l ++ [newline]) with (c ++ newline :: l ++ [newline]).
  rewrite lines_app, lines_one by done. change (c ++ [newline]) with (c ++ newline :: []). by rewrite lines_app, app_nil_r.
Qed.

Lemma lines_bound b : (length (lines b) <= length b)%nat.
Proof.
  unfold lines. induction b as [|x b IH]; cbn; [done|]. destruct (decide (x = newline)); cbn; [lia|].
  destruct (split_bytes newline b) as [|[|y w] ws]; cbn in *; lia.
Qed.

(* --------------------------------------------------------------------- *)
(** ** Appending to the chain *)

Section Chain.
Context {P : Primitives} {R : JsonReader} {RL : ReaderLaws P R} {LL : LineLaws P}.

(** The event as [append_event] signs it. *)
Definition signed (e : WorkspacePublicationEvent) : WorkspacePublicationEvent :=
  set_event_hash e (hash_bytes (value_bytes (event_value (set_event_hash e "")))).
Definition event_line (e : WorkspacePublicationEvent) : list byte := value_bytes (event_value e).

(** Room for one more event. *)
Definition fits (file : list byte) (e : WorkspacePublicationEvent) : Prop :=
  vlen file + vlen (event_line (signed e)) + 1 <= MAX_WORKSPACE_PUBLICATION_LEDGER_BYTES.

Lemma event_bytes_ok e : ev_updated_unix_ms e <= u64_max -> event_bytes e = Ok (event_line e).
Proof. intros H. unfold event_bytes. by rewrite (proj2 (N.ltb_ge _ _) H). Qed.

Lemma event_bytes_inv e b : event_bytes e = Ok b -> ev_updated_unix_ms e <= u64_max /\ b = event_line e.
Proof. unfold event_bytes, internal. rewrite guard_ok, N.ltb_ge. by intros [H [= <-]]. Qed.

Lemma event_hash_ok e : ev_updated_unix_ms e <= u64_max ->
  event_hash e = Ok (hash_bytes (value_bytes (event_value (set_event_hash e "")))).
Proof. intros H. unfold event_hash. by rewrite event_bytes_ok. Qed.

Lemma set_event_hash_twice e h k : set_event_hash (set_event_hash e h) k = set_event_hash e k.
Proof. done. Qed.

Lemma append_event_ok d e : ev_updated_unix_ms e <= u64_max -> fits (default [] (ledger_jsonl d)) e ->
  append_event d e =
  ({| authority_json := authority_json d; ledger_jsonl := Some (default [] (ledger_jsonl d) ++ event_line (signed e) ++ [newline]) |}, Ok tt).
Proof.
  intros Hu Hf. unfold append_event, pure_on. rewrite event_hash_ok by done. cbn [store_bind].
  fold (signed e). rewrite event_bytes_ok by done. cbn [store_bind].
  rewrite (proj2 (N.ltb_ge _ _)); [done|]. unfold fits in Hf. autorewrite with rust. lia.
Qed.

Lemma append_event_inv d e d' : append_event d e = (d', Ok tt) ->
  ev_updated_unix_ms e <= u64_max /\ fits (default [] (ledger_jsonl d)) e /\
  d' = {| authority_json := authority_json d; ledger_jsonl := Some (default [] (ledger_jsonl d) ++ event_line (signed e) ++ [newline]) |}.
Proof.
  unfold append_event, pure_on. rewrite store_bind_ok. intros (d1 & h & [= <- Hh] & H).
  unfold event_hash in Hh. apply result_bind_ok in Hh as (b & Hb & [= <-]).
  apply event_bytes_inv in Hb as [Hu ->]. change (ev_updated_unix_ms (set_event_hash e "")) with (ev_updated_unix_ms e) in Hu.
  fold (event_line (set_event_hash e "")) in H. unfold event_line in H at 1. fold (signed e) in H.
  rewrite store_bind_ok in H. destruct H as (d2 & b & [= <- Hb] & H). rewrite event_bytes_ok in Hb by done.
  injection Hb as <-. unfold resource_limit in H. revert H.
  destruct (MAX_WORKSPACE_PUBLICATION_LEDGER_BYTES <? _) eqn:E; [done|]. intros [= <-]. split_and!; [done| |done].
  apply N.ltb_ge in E. autorewrite with rust in E. unfold fits.
  unfold MAX_WORKSPACE_PUBLICATION_LEDGER_BYTES, u64_max in *. lia.
Qed.

(** The identity fields that every event of a ledger repeats. *)
Definition bound_to (a : WorkspacePublicationAuthority) (e : WorkspacePublicationEvent) : Prop :=
  ev_schema e = WORKSPACE_PUBLICATION_EVENT_SCHEMA /\ ev_publication_id e = wa_publication_id a /\
  ev_publication_authority_digest e = wa_authority_digest a.

Lemma load_line_signed a previous e : event_typed e -> bound_to a e ->
  load_line a previous (event_line (signed e)) = (validate_transition a previous (signed e) ;;? Ok (Some (signed e))).
Proof.
  intros Ht (Hs & Hp & Hd). assert (event_typed (signed e)) as Ht' by done.
  destruct (event_plain _ Ht') as [Hpl Hn]. unfold load_line, event_line at 1, value_bytes.
  rewrite read_written by done. rewrite event_written by done. cbn [ok_or result_bind].
  destruct Ht as [_ Hu]. rewrite event_bytes_ok by done. cbn [result_bind]. rewrite bool_decide_true by done.
  assert (str_neqb (ev_schema (signed e)) WORKSPACE_PUBLICATION_EVENT_SCHEMA = false) as -> by (by apply str_neqb_false).
  assert (str_neqb (ev_publication_id (signed e)) (wa_publication_id a) = false) as -> by (by apply str_neqb_false).
  assert (str_neqb (ev_publication_authority_digest (signed e)) (wa_authority_digest a) = false) as -> by (by apply str_neqb_false).
  cbn [orb negb]. rewrite event_hash_ok by done. cbn [result_bind].
  rewrite (proj2 (str_neqb_false _ _)); [done|]. done.
Qed.

Lemma load_line_inv a previous line r : load_line a previous line = Ok r ->
  exists e, r = Some e /\ line = event_line e /\ bound_to a e /\ signed e = e /\ ev_updated_unix_ms e <= u64_max /\
            validate_transition a previous e = Ok tt.
Proof.
  unfold load_line, corrupt. rewrite result_bind_ok. intros (e & _ & H). rewrite result_bind_ok in H.
  destruct H as (b & Hb & H). apply event_bytes_inv in Hb as [Hu ->]. rewrite guard_ok in H. destruct H as [Hg H].
  bool_split. apply bool_decide_eq_true in H0. rewrite !str_neqb_false in *.
  rewrite event_hash_ok in H by done. cbn [result_bind] in H. rewrite guard_ok in H. destruct H as [Hh H].
  rewrite str_neqb_false in Hh. rewrite seq_ok in H. destruct H as [Hv [= <-]]. exists e.
  split_and!; try done. unfold signed. rewrite <- Hh. by destruct e.
Qed.
End Chain.
