(* ===== verification/PublicationSpec.v ===== *)
(** * Ordered publication: the ledger implements an abstract machine

    The abstract machine counts the published members and knows whether the next
    one is idle, being published, or waiting for recovery.  A readable ledger is
    a run of that machine, one event per step; the operations of
    workspace_publish.rs perform its steps, append-only and under a
    compare-and-swap on the ledger head, and are enabled whenever the machine's
    are.  The last theorems say when a ledger stops being readable. *)

From stdpp Require Import gmap.
From S2P Require Import Prelude Order Collections Text Json Canonical Instances JsonFormat JsonRead Errors CasObject CasInterface PublicationLedger PublicationCodec.
Open Scope string_scope.
Open Scope list_scope.
Open Scope N_scope.

(* --------------------------------------------------------------------- *)
(** ** The abstract machine *)

Inductive Phase : Type := Idle | Active | Recovering.

(** [n] members; a state is how many are published and the phase of the next. *)
Inductive step (n : nat) : nat * Phase -> nat * Phase -> Prop :=
| step_begin k p : p <> Active -> (k < n)%nat -> step n (k, p) (k, Active)
| step_complete k : (k < n)%nat -> step n (k, Active) (S k, Idle)
| step_fail k : step n (k, Active) (k, Recovering).

Definition phase_of (s : WorkspacePublicationStatus) : Phase :=
  match s with Publishing => Active | RecoveryRequired => Recovering | _ => Idle end.

Definition abs (e : WorkspacePublicationEvent) : nat * Phase := (length (ev_completed e), phase_of (ev_status e)).

(** Published members never decrease along a run. *)
Lemma steps_monotone n s t : rtc (step n) s t -> (s.1 <= t.1)%nat.
Proof. induction 1 as [s|s t u Hst _ IH]; [done|]. destruct Hst; cbn in *; lia. Qed.

Definition published (m : WorkspacePublicationMemberAuthority) : PublishedWorkspaceMember :=
  {| pm_alias := alias m; pm_candidate_oid := candidate_oid m |}.

(** What every event of a readable ledger satisfies. *)
Record event_ok (members : list WorkspacePublicationMemberAuthority) (e : WorkspacePublicationEvent) : Prop := mkEventOk {
  (* a prefix of the members, in the sealed order, with the sealed commits *)
  eo_completed : ev_completed e = published <$> take (length (ev_completed e)) members;
  eo_bound : (length (ev_completed e) <= length members)%nat;
  eo_status : match ev_status e with
              | PreparedAll => length (ev_completed e) = 0%nat
              | Publishing | RecoveryRequired => (length (ev_completed e) < length members)%nat
              | PartiallyPublished => (0 < length (ev_completed e) < length members)%nat
              | PublishedAll => length (ev_completed e) = length members
              end;
  eo_active : ev_active_alias e =
    match ev_status e with
    | Publishing | RecoveryRequired => alias <$> members !! length (ev_completed e)
    | _ => None
    end;
  eo_error : is_none (ev_last_error_code e) = negb (is_status (ev_status e) RecoveryRequired)
}.

(* --------------------------------------------------------------------- *)
(** ** Valid transitions *)

Lemma prefix_mismatch_spec members completed : (length completed <= length members)%nat ->
  prefix_mismatch members completed = false <-> completed = published <$> take (length completed) members.
Proof.
  intros Hlen. unfold prefix_mismatch. rewrite existsb_false, list.Forall_forall. split.
  - intros H. apply list_eq. intros i. rewrite list_lookup_fmap. destruct (completed !! i) as [m|] eqn:Hi.
    + assert (i < length completed)%nat as Hlt by (by eapply lookup_lt_Some).
      rewrite lookup_take_lt by done. specialize (H (i, m)). cbn in H.
      destruct (members !! i) as [x|] eqn:Hx; [|apply lookup_ge_None in Hx; lia]. cbn.
      apply orb_false_iff in H as [Ha Ho]; [|by apply (elem_of_lookup_imap_2 pair)].
      rewrite !str_neqb_false in *. unfold published. rewrite Ha, Ho. by destruct m.
    + apply lookup_ge_None in Hi. by rewrite lookup_take_ge.
  - intros H [i m] Hin. apply elem_of_lookup_imap_1 in Hin as (j & x & [= -> ->] & Hj). cbn.
    pose proof (lookup_lt_Some _ _ _ Hj) as Hlt. rewrite H, list_lookup_fmap, lookup_take_lt in Hj by done.
    destruct (members !! j) as [y|]; [|done]. cbn in Hj. injection Hj as <-. cbn. by rewrite !str_neqb_refl.
Qed.

Section Refinement.
Context {P : Primitives} {R : JsonReader} {RL : ReaderLaws P R} {LL : LineLaws P}.
Context (a : WorkspacePublicationAuthority).
Notation members := (wa_members a).
Notation n := (length (wa_members a)).

Lemma validate_prefix e : (ev_updated_unix_ms e =? 0) || Nat.ltb n (length (ev_completed e)) || prefix_mismatch members (ev_completed e) = false ->
  ev_updated_unix_ms e <> 0 /\ (length (ev_completed e) <= n)%nat /\
  ev_completed e = published <$> take (length (ev_completed e)) members.
Proof.
  rewrite !orb_false_iff, N.eqb_neq, Nat.ltb_ge. intros [[Hu Hl] Hp]. split_and!; try done. by apply prefix_mismatch_spec.
Qed.

(** The first event. *)
Lemma origin_sound e : validate_transition a None e = Ok tt ->
  event_ok members e /\ abs e = (0%nat, Idle) /\ ev_sequence e = 0 /\ ev_updated_unix_ms e <> 0.
Proof.
  unfold validate_transition, corrupt. rewrite guard_ok. cbn [result_bind]. intros [Hg H].
  apply validate_prefix in Hg as (Hu & Hl & Hp). revert H. destruct (origin_valid e) eqn:E; [intros _|done].
  unfold origin_valid, is_status in E. rewrite !andb_true_iff, N.eqb_eq, bool_decide_eq_true in E.
  destruct E as (((((Hs & _) & Ht) & Hc) & Ha) & Hx).
  destruct (ev_completed e) as [|] eqn:Ec; [|done]. destruct (ev_active_alias e) eqn:Ea; [done|].
  split_and!; try done; [|by unfold abs; rewrite Ec, Ht].
  split; rewrite ?Ec, ?Ht; try done; by rewrite Hx.
Qed.

(** A later event is a step of the machine. *)
Lemma step_sound e f : (0 < n)%nat -> event_ok members e -> validate_transition a (Some e) f = Ok tt ->
  event_ok members f /\ step n (abs e) (abs f) /\ ev_sequence f = u64_saturating_add (ev_sequence e) 1 /\
  ev_updated_unix_ms e <= ev_updated_unix_ms f.
Proof.
  intros Hn [Hec Heb Hes Hea Hee]. unfold validate_transition, corrupt. rewrite guard_ok. intros [Hg H].
  apply validate_prefix in Hg as (Hu & Hl & Hp). rewrite result_bind_ok in H. destruct H as (v & Hv & H).
  destruct v; [clear H|done]. rewrite guard_ok in Hv. destruct Hv as [Hg Hv].
  rewrite !orb_false_iff, negb_false_iff, N.eqb_eq, N.ltb_ge in Hg. destruct Hg as [[Hseq _] Hle].
  injection Hv as Hv. unfold step_valid, is_status in Hv.
  enough (event_ok members f /\ step n (abs e) (abs f)) by tauto. unfold abs.
  destruct (ev_status f) eqn:Hf; [done|..]; rewrite !andb_true_iff, ?bool_decide_eq_true in Hv.
  - destruct Hv as (((Hst & Hc) & Ha) & Hx).
    assert (length (ev_completed e) < n)%nat as Hlt.
    { apply (f_equal is_none) in Ha. destruct (ev_status e); try done; lia. }
    split; [split; rewrite ?Hc, ?Hf, ?Hx; done|].
    rewrite Hc. destruct (ev_status e); try done; by constructor.
  - destruct Hv as [[[[[[Hst Hlen] Htake] Hlast] Ha] Hx] Hfin]. apply Nat.eqb_eq in Hlen. rewrite Hst in *.
    destruct (ev_active_alias f) eqn:Hfa; [done|]. rewrite bool_decide_eq_false_2 in Hfin by done.
    apply Bool.eqb_prop, symmetry, Nat.eqb_neq in Hfin.
    split; [split; rewrite ?Hf, ?Hx; try done; lia|].
    rewrite Hlen, Nat.add_1_r. by constructor.
  - destruct Hv as (((Hst & Hc) & Ha) & Hx). rewrite Hst in *.
    split; [split; rewrite ?Hc, ?Hf, ?Ha; try done; by apply negb_true_iff in Hx|]. rewrite Hc. constructor.
  - destruct Hv as [[[[[[Hst Hlen] Htake] Hlast] Ha] Hx] Hfin]. apply Nat.eqb_eq in Hlen. rewrite Hst in *.
    destruct (ev_active_alias f) eqn:Hfa; [done|]. rewrite bool_decide_eq_true_2 in Hfin by done.
    apply Bool.eqb_prop, symmetry, Nat.eqb_eq in Hfin.
    split; [split; rewrite ?Hf, ?Hx; done|].
    rewrite Hlen, Nat.add_1_r. by constructor.
Qed.

(* --------------------------------------------------------------------- *)
(** ** Readable ledgers *)

(** What reading the first lines of a ledger has established. *)
Definition chain_inv (pre : list (list byte)) (o : option WorkspacePublicationEvent) : Prop :=
  match o with
  | None => pre = []
  | Some e =>
      event_ok members e /\ bound_to a e /\ signed e = e /\ 0 < ev_updated_unix_ms e <= u64_max /\
      exists k, length pre = S k /\ nsteps (step n) k (0%nat, Idle) (abs e) /\
                (N.of_nat k <= u64_max -> ev_sequence e = N.of_nat k)
  end.

Lemma chain_step pre line o o' : (0 < n)%nat -> chain_inv pre o -> load_line a o line = Ok o' -> chain_inv (pre ++ [line]) o'.
Proof.
  intros Hn Hinv (e & -> & -> & Hb & Hs & Hu & Hv)%load_line_inv. destruct o as [f|].
  - destruct Hinv as (Hf & _ & _ & Hfu & k & Hk & Hsteps & Hseq).
    destruct (step_sound f e Hn Hf Hv) as (He & Hst & Hse & Hle). split_and!; try done; [lia|].
    exists (S k). rewrite length_app. cbn [length]. split_and!; [lia|by eapply nsteps_r|].
    intros Hb'. rewrite Hse, Hseq by lia. unfold u64_saturating_add. lia.
  - cbn in Hinv. subst pre. destruct (origin_sound e Hv) as (He & Habs & Hseq & Hne). split_and!; try done; [lia|].
    exists 0%nat. rewrite Habs. split_and!; [done|constructor|by rewrite Hseq].
Qed.

Lemma load_event_chain_inv d e : load_event_chain d a = Ok e ->
  exists file, ledger_jsonl d = Some file /\ vlen file <= MAX_WORKSPACE_PUBLICATION_LEDGER_BYTES /\
    (exists c, file = c ++ [newline]) /\ try_fold (load_line a) None (lines file) = Ok (Some e).
Proof.
  unfold load_event_chain. rewrite result_bind_ok. intros (file & Hr & H). unfold read_file, internal, invalid in Hr.
  destruct (ledger_jsonl d) as [b|]; [|done]. rewrite guard_ok, N.ltb_ge in Hr. destruct Hr as [Hlen [= <-]].
  unfold corrupt in H. rewrite guard_ok, negb_false_iff, bool_decide_eq_true, line_ended_last, result_bind_ok in H.
  destruct H as (Hlast & o & Ho & He). exists b. split_and!; try done. destruct o; [|done]. by injection He as ->.
Qed.

Lemma readable_inv d e : (0 < n)%nat -> load_event_chain d a = Ok e ->
  exists file, ledger_jsonl d = Some file /\ vlen file <= MAX_WORKSPACE_PUBLICATION_LEDGER_BYTES /\
    line_ended file /\ try_fold (load_line a) None (lines file) = Ok (Some e) /\ chain_inv (lines file) (Some e).
Proof.
  intros Hn (file & Hd & Hlen & Hend & Hf)%load_event_chain_inv. exists file. split_and!; try done; [by right|].
  change (lines file) with ([] ++ lines file). eapply (try_fold_inv (load_line a) chain_inv (lines file) None (Some e) []); [done| |done].
  intros pre line o o'. by apply chain_step.
Qed.

Lemma authority_members : validate_authority a = Ok tt -> (2 <= n <= 4)%nat.
Proof.
  unfold validate_authority, corrupt. rewrite guard_ok. intros [H _]. rewrite !orb_false_iff in H.
  destruct H as [[[[[[[[_ _] Hm] _] _] _] _] _] _]. apply negb_false_iff, andb_true_iff in Hm as [H1%N.leb_le H2%N.leb_le].
  unfold vlen in *. lia.
Qed.

(** The sequence number counts the steps: a ledger within its size bound has too
    few lines for it to saturate. *)
Lemma readable_steps d e : (0 < n)%nat -> load_event_chain d a = Ok e ->
  exists file, ledger_jsonl d = Some file /\ length (lines file) = S (N.to_nat (ev_sequence e)) /\
  nsteps (step n) (N.to_nat (ev_sequence e)) (0%nat, Idle) (abs e).
Proof.
  intros Hn (file & Hd & Hlen & _ & _ & _ & _ & _ & _ & k & Hk & Hst & Hseq)%readable_inv; [|done].
  pose proof (lines_bound file) as Hb. exists file.
  rewrite Hseq, Nat2N.id by (unfold MAX_WORKSPACE_PUBLICATION_LEDGER_BYTES, vlen, u64_max in *; lia). done.
Qed.

(** Appending a bound event continues the chain. *)
Lemma append_extends d e next d' : load_event_chain d a = Ok e -> append_event d next = (d', Ok tt) ->
  ev_sequence next <= u64_max -> bound_to a next ->
  load_event_chain d' a = (validate_transition a (Some e) (signed next) ;;? Ok (signed next)).
Proof.
  intros (file & Hd & _ & Hend & Hf)%load_event_chain_inv Happ Hs Hb.
  apply append_event_inv in Happ as (Hu & Hfits & ->). rewrite Hd in *. change (default [] (Some file)) with file in *.
  unfold load_event_chain. cbn [ledger_jsonl read_file].
  rewrite (proj2 (N.ltb_ge _ _)) by (unfold fits in Hfits; autorewrite with rust; lia). cbn [result_bind].
  rewrite bool_decide_true by (apply line_ended_last; exists (file ++ event_line (signed next)); by rewrite <- app_assoc).
  cbn [negb]. rewrite lines_snoc; [|by right|apply to_vec_one_line|apply to_vec_nonempty].
  rewrite try_fold_app, Hf. cbn [result_bind try_fold]. rewrite load_line_signed by done.
  by destruct (validate_transition a (Some e) (signed next)) as [[]|].
Qed.

(* --------------------------------------------------------------------- *)
(** ** The operations *)

Inductive Op : Type :=
| OpBegin
| OpPublished (member oid : string)
| OpFailure (member : string) (error_code : ErrorCode).

Definition build_of (now : N) (op : Op) : WorkspacePublicationAuthority -> WorkspacePublicationEvent -> Res WorkspacePublicationEvent :=
  match op with
  | OpBegin => build_begin now
  | OpPublished member oid => build_published now member oid
  | OpFailure member error_code => build_failure now member error_code
  end.

(** What an operation appends, seen by the validator. *)
Definition clock_verdict (now : N) (e : WorkspacePublicationEvent) : Res unit :=
  if now =? 0 then corrupt "workspace publication completion prefix is invalid"
  else if now <? ev_updated_unix_ms e then corrupt "workspace publication ledger chain is discontinuous"
  else Ok tt.

Lemma built_verdict now e next : event_ok members e ->
  ev_updated_unix_ms next = now -> ev_sequence next = u64_saturating_add (ev_sequence e) 1 ->
  ev_previous_event_hash next = Some (ev_event_hash e) ->
  (length (ev_completed next) <= n)%nat -> ev_completed next = published <$> take (length (ev_completed next)) members ->
  step_valid members e next = true ->
  validate_transition a (Some e) (signed next) = clock_verdict now e.
Proof.
  intros He Hu Hs Hh Hl Hc Hv. unfold validate_transition, clock_verdict.
  change (ev_completed (signed next)) with (ev_completed next). change (ev_updated_unix_ms (signed next)) with (ev_updated_unix_ms next).
  change (ev_sequence (signed next)) with (ev_sequence next). change (ev_previous_event_hash (signed next)) with (ev_previous_event_hash next).
  change (step_valid members e (signed next)) with (step_valid members e next).
  rewrite (proj2 (prefix_mismatch_spec _ _ Hl) Hc), (proj2 (Nat.ltb_ge _ _) Hl), !orb_false_r, Hu, Hs, N.eqb_refl, Hh, Hv.
  rewrite bool_decide_true by done. cbn [negb orb]. destruct (now =? 0); [done|]. by destruct (now <? ev_updated_unix_ms e).
Qed.

Lemma member_prefix e expected : event_ok members e -> members !! length (ev_completed e) = Some expected ->
  ev_completed e ++ [published expected] = published <$> take (S (length (ev_completed e))) members.
Proof. intros [Hc _ _ _ _] Hk. rewrite (take_S_r _ _ _ Hk), fmap_app. by rewrite Hc at 1. Qed.

(** Every built event is bound to the ledger; only the clock can invalidate it. *)
Lemma build_sound now op e next : event_ok members e -> bound_to a e -> build_of now op a e = Ok next -> next <> e ->
  bound_to a next /\ ev_sequence next <= u64_max /\ ev_updated_unix_ms next = now /\
  validate_transition a (Some e) (signed next) = clock_verdict now e.
Proof.
  intros He (_ & Hp & Hd) Hb Hne.
  assert (forall s c x y, bound_to a (next_event now e s c x y) /\ ev_sequence (next_event now e s c x y) <= u64_max /\
    ev_updated_unix_ms (next_event now e s c x y) = now) as Hnext.
  { intros s c x y. split_and!; try done. cbn. unfold u64_saturating_add. lia. }
  pose proof He as [Hec Heb Hes Hea Hee].
  destruct op as [|member oid|member error_code]; cbn [build_of] in Hb.
  - unfold build_begin in Hb.
    assert (exists m, members !! length (ev_completed e) = Some m /\ startable (ev_status e) = true /\
      next = next_event now e Publishing (ev_completed e) (Some (alias m)) None) as (m & Hm & Hst & ->).
    { destruct (ev_status e); try (by injection Hb as ->);
        apply result_bind_ok in Hb as (m & Hm & [= <-]); (destruct (members !! length (ev_completed e)) as [m'|]; [|done]);
        injection Hm as ->; by eauto. }
    destruct (Hnext Publishing (ev_completed e) (Some (alias m)) None) as (? & ? & ?). split_and!; try done.
    apply built_verdict; try done. unfold step_valid. cbn [ev_status next_event ev_completed ev_active_alias ev_last_error_code is_none].
    rewrite Hst, Hm, !bool_decide_true by done. done.
  - unfold build_published, binding, precondition in Hb. rewrite guard_ok, negb_false_iff in Hb. destruct Hb as [Hact Hb].
    unfold is_active, is_status in Hact. rewrite andb_true_iff, !bool_decide_eq_true in Hact. destruct Hact as [Hst Ha].
    apply result_bind_ok in Hb as (x & Hx & Hb). destruct (members !! length (ev_completed e)) as [m|] eqn:Hm; [|done].
    injection Hx as ->. rewrite guard_ok, orb_false_iff, !str_neqb_false in Hb. destruct Hb as [[<- <-] [= <-]].
    set (status := if Nat.eqb _ _ then PublishedAll else PartiallyPublished).
    destruct (Hnext status (ev_completed e ++ [published x]) None None) as (? & ? & ?). split_and!; try done.
    pose proof (lookup_lt_Some _ _ _ Hm) as Hlt.
    apply built_verdict; try done; cbn [next_event ev_completed].
    + rewrite length_app. cbn. lia.
    + rewrite length_app. cbn [length]. rewrite Nat.add_1_r. by apply member_prefix.
    + unfold step_valid. cbn [ev_status next_event ev_completed ev_active_alias ev_last_error_code is_none].
      unfold is_status. rewrite Hst, last_snoc, length_app. cbn [length].
      rewrite Nat.eqb_refl, take_app_length, !(bool_decide_true (Publishing = Publishing)) by done.
      rewrite (bool_decide_true (ev_completed e = ev_completed e)), (bool_decide_true (Some (pm_alias _) = _)) by done.
      subst status. rewrite length_app. cbn [length]. by destruct (Nat.eqb (length (ev_completed e) + 1) n).
  - unfold build_failure, precondition in Hb. rewrite guard_ok, negb_false_iff in Hb. destruct Hb as [Hact [= <-]].
    unfold is_active, is_status in Hact. rewrite andb_true_iff, !bool_decide_eq_true in Hact. destruct Hact as [Hst Ha].
    destruct (Hnext RecoveryRequired (ev_completed e) (Some member) (Some error_code)) as (? & ? & ?). split_and!; try done.
    apply built_verdict; try done. unfold step_valid, is_status.
    cbn [ev_status next_event ev_completed ev_active_alias ev_last_error_code is_none]. rewrite Hst, Ha, !bool_decide_true by done. done.
Qed.
End Refinement.

Section Operations.
Context {P : Primitives} {R : JsonReader} {RL : ReaderLaws P R} {LL : LineLaws P}.

Lemma load_authority_valid d a : load_authority d = Ok a -> validate_authority a = Ok tt.
Proof.
  unfold load_authority, corrupt. rewrite result_bind_ok. intros (b & _ & H). rewrite result_bind_ok in H.
  destruct H as (x & _ & H). rewrite guard_ok in H. destruct H as [_ H]. rewrite seq_ok in H. by destruct H as [H [= ->]].
Qed.

Lemma load_authority_nonempty d a : load_authority d = Ok a -> (0 < length (wa_members a))%nat.
Proof. intros H%load_authority_valid%authority_members. lia. Qed.

Lemma readable_facts d a e : load_authority d = Ok a -> load_event_chain d a = Ok e ->
  event_ok (wa_members a) e /\ bound_to a e /\ signed e = e /\ 0 < ev_updated_unix_ms e <= u64_max.
Proof.
  intros Ha He. destruct (readable_inv a d e (load_authority_nonempty d a Ha) He) as (file & _ & _ & _ & _ & Hi).
  by destruct Hi as (? & ? & ? & ? & _).
Qed.

Lemma append_event_authority d e d' r : append_event d e = (d', r) -> authority_json d' = authority_json d.
Proof.
  unfold append_event, pure_on, resource_limit. destruct (event_hash e); cbn [store_bind]; [|by intros [= <- _]].
  destruct (event_bytes _); cbn [store_bind]; [|by intros [= <- _]]. destruct (_ <? _); by intros [= <- _].
Qed.

Lemma load_authority_same d d' : authority_json d' = authority_json d -> load_authority d' = load_authority d.
Proof. intros H. unfold load_authority. by rewrite H. Qed.

(** An event was appended as one line. *)
Definition appended (d d' : Directory) : Prop :=
  authority_json d' = authority_json d /\
  exists file line, ledger_jsonl d = Some file /\ ledger_jsonl d' = Some (file ++ line ++ [newline]) /\ newline ∉ line.

(** The effect of a successful operation on a directory. *)
Record performed (now : N) (op : Op) (ws pid head : string) (d d' : Directory) (p : WorkspacePublicationProjection)
    (a : WorkspacePublicationAuthority) (e e' : WorkspacePublicationEvent) : Prop := mkPerformed {
  pf_authority : load_authority d = Ok a;
  pf_authority' : load_authority d' = Ok a;
  pf_ids : wa_workspace_id a = ws /\ wa_publication_id a = pid;
  pf_before : load_event_chain d a = Ok e;
  pf_head : ev_event_hash e = head;
  pf_after : load_event_chain d' a = Ok e';
  pf_result : p = project a e';
  pf_step : (d' = d /\ e' = e) \/ (appended d d' /\ step (length (wa_members a)) (abs e) (abs e'));
  pf_built : exists next, build_of now op a e = Ok next /\ (e' = e /\ next = e \/ e' = signed next)
}.

Lemma transition_locked_ok ws pid head now op d d' p :
  transition_locked ws pid head (build_of now op) d = (d', Ok p) ->
  exists a e e', performed now op ws pid head d d' p a e e'.
Proof.
  unfold transition_locked, pure_on, binding, precondition. rewrite store_bind_ok. intros (d1 & a & [= <- Ha] & H).
  rewrite store_guard_ok in H. destruct H as [Hfor H]. unfold foreign in Hfor.
  rewrite orb_false_iff, !str_neqb_false in Hfor. rewrite store_bind_ok in H. destruct H as (d1 & e & [= <- He] & H).
  rewrite store_guard_ok, str_neqb_false in H. destruct H as [Hh H]. rewrite store_bind_ok in H.
  destruct H as (d1 & next & [= <- Hb] & H). destruct (readable_facts d a e Ha He) as (Hok & Hbound & _ & _).
  case_bool_decide as Hn.
  - injection H as <- <-. exists a, e, e. split; try done; [by left|]. exists next. split; [done|by left].
  - rewrite store_bind_ok in H. destruct H as (d2 & [] & Happ & H). rewrite store_bind_ok in H.
    destruct H as (d3 & e' & [= <- He'] & [= <- <-]).
    destruct (build_sound a now op e next Hok Hbound Hb Hn) as (Hbn & Hs & _ & Hv).
    pose proof (append_extends a d e next d2 He Happ Hs Hbn) as Hload. rewrite He' in Hload.
    destruct (validate_transition a (Some e) (signed next)) as [[]|] eqn:Hval; [|done]. cbn in Hload. injection Hload as ->.
    exists a, e, (signed next). split; try done.
    + rewrite <- Ha. by apply load_authority_same, (append_event_authority d next d2 (Ok tt)).
    + right. split; [|by destruct (step_sound a e (signed next) (load_authority_nonempty d a Ha) Hok Hval) as (_ & ? & _)].
      split; [by eapply append_event_authority|]. apply append_event_inv in Happ as (_ & _ & ->).
      apply load_event_chain_inv in He as (file & -> & _). exists file, (event_line (signed next)).
      split_and!; [done|done|apply to_vec_one_line].
    + exists next. split; [done|by right].
Qed.

(** The three operations. *)
Definition run_op (now : N) (st : State) (ws pid head : string) (op : Op) : State * Res WorkspacePublicationProjection :=
  match op with
  | OpBegin => begin_next now st ws pid head
  | OpPublished member oid => record_published now st ws pid head member oid
  | OpFailure member error_code => record_failure now st ws pid head member error_code
  end.

Lemma run_op_transition now st ws pid head op : run_op now st ws pid head op = transition st ws pid head (build_of now op).
Proof. by destruct op. Qed.
End Operations.

Section Effects.
Context {P : Primitives} {R : JsonReader} {RL : ReaderLaws P R} {LL : LineLaws P}.

Lemma directory_insert (st : State) (key : string * string) (d : Directory) (k : string * string) : directory (<[key := d]> st) k = if decide (k = key) then d else directory st k.
Proof.
  unfold directory. destruct (decide (k = key)) as [->|Hne]; [by rewrite lookup_insert_eq|]. by rewrite lookup_insert_ne.
Qed.

Lemma locked_eq {A : Type} (st st' : State) (key : string * string) (body : Directory -> Directory * Res A) (r : Res A) :
  locked st key body = (st', r) -> body (directory st key) = (directory st' key, r) /\
  (forall k, k <> key -> directory st' k = directory st k).
Proof.
  unfold locked. destruct (body (directory st key)) as [d x]. intros [= <- <-]. rewrite directory_insert, decide_True by done.
  split; [done|]. intros k Hk. by rewrite directory_insert, decide_False.
Qed.

Lemma run_op_ok (now : N) (st st' : State) (ws pid head : string) (op : Op) (p : WorkspacePublicationProjection) : run_op now st ws pid head op = (st', Ok p) ->
  exists key a e e', publication_directory ws pid = Ok key /\
    performed now op ws pid head (directory st key) (directory st' key) p a e e' /\
    (forall k, k <> key -> directory st' k = directory st k).
Proof.
  rewrite run_op_transition. unfold transition, pure_on. rewrite store_bind_ok. intros (s1 & key & [= <- Hk] & H).
  apply locked_eq in H as [H Hother]. apply transition_locked_ok in H as (a & e & e' & H). exists key, a, e, e'. done.
Qed.

(** The operation that performs a step of the machine. *)
Definition op_of (members : list WorkspacePublicationMemberAuthority) (k : nat) (target : Phase) (error_code : ErrorCode) : option Op :=
  match members !! k with
  | None => None
  | Some m => Some (match target with
                    | Active => OpBegin
                    | Idle => OpPublished (alias m) (candidate_oid m)
                    | Recovering => OpFailure (alias m) error_code
                    end)
  end.

(** A readable publication directory. *)
Record readable (ws pid : string) (d : Directory) (a : WorkspacePublicationAuthority) (e : WorkspacePublicationEvent) : Prop := mkReadable {
  rb_authority : load_authority d = Ok a;
  rb_ids : wa_workspace_id a = ws /\ wa_publication_id a = pid;
  rb_chain : load_event_chain d a = Ok e
}.

(** The event that an operation builds for a step. *)
Lemma op_of_builds d a e s error_code ws pid now : readable ws pid d a e -> step (length (wa_members a)) (abs e) s ->
  exists op next, op_of (wa_members a) (length (ev_completed e)) s.2 error_code = Some op /\
    build_of now op a e = Ok next /\ next <> e /\ abs next = s.
Proof.
  intros [Ha _ He] Hst. destruct (readable_facts d a e Ha He) as (Hok & _ & Hsig & _). destruct Hok as [_ _ Hs Hact _].
  assert (length (ev_completed e) < length (wa_members a))%nat as Hlt.
  { unfold abs in Hst. inversion Hst; subst; try done. destruct (ev_status e); try done. }
  apply lookup_lt_is_Some in Hlt as [m Hm]. unfold op_of. rewrite Hm.
  assert (forall st c x y, next_event now e st c x y <> e) as Hne.
  { intros st c x y H. apply (f_equal ev_event_hash) in H. rewrite <- Hsig in H. cbn in H. done. }
  unfold abs in Hst. inversion Hst as [k p Hp Hlt' [Hk Hph]|k Hlt' [Hk Hph]|k [Hk Hph]]; subst; cbn [snd].
  - exists OpBegin, (next_event now e Publishing (ev_completed e) (Some (alias m)) None). split_and!; try done; try (by apply Hne).
    cbn [build_of]. unfold build_begin. rewrite Hm. destruct (ev_status e) eqn:E; try done. lia.
  - assert (ev_status e = Publishing) as Hpub by (by destruct (ev_status e)). rewrite Hpub, Hm in Hact. cbn in Hact.
    set (status := if Nat.eqb (length (ev_completed e ++ [published m])) (length (wa_members a)) then PublishedAll else PartiallyPublished).
    exists (OpPublished (alias m) (candidate_oid m)), (next_event now e status (ev_completed e ++ [published m]) None None).
    split_and!; try done; try (by apply Hne).
    + cbn [build_of]. unfold build_published, is_active, is_status. rewrite Hpub, Hact, Hm, !bool_decide_true by done.
      cbn [negb andb ok_or result_bind]. rewrite !str_neqb_refl. done.
    + unfold abs. cbn [next_event ev_completed ev_status]. rewrite length_app, Nat.add_1_r. subst status.
      by destruct (Nat.eqb _ _).
  - assert (ev_status e = Publishing) as Hpub by (by destruct (ev_status e)). rewrite Hpub, Hm in Hact. cbn in Hact.
    exists (OpFailure (alias m) error_code), (next_event now e RecoveryRequired (ev_completed e) (Some (alias m)) (Some error_code)).
    split_and!; try done; try (by apply Hne).
    cbn [build_of]. unfold build_failure, is_active, is_status. by rewrite Hpub, Hact, !bool_decide_true.
Qed.

(** An operation on a readable directory appends its event. *)
Lemma run_op_appends (st : State) (key : string * string) (ws pid : string) a e (now : N) (op : Op) next (file : list byte) :
  publication_directory ws pid = Ok key -> readable ws pid (directory st key) a e ->
  build_of now op a e = Ok next -> next <> e -> now <= u64_max ->
  ledger_jsonl (directory st key) = Some file -> fits file next ->
  let d' := {| authority_json := authority_json (directory st key); ledger_jsonl := Some (file ++ event_line (signed next) ++ [newline]) |} in
  run_op now st ws pid (ev_event_hash e) op =
    (<[key := d']> st, clock_verdict now e ;;? Ok (project a (signed next))) /\
  load_authority d' = Ok a /\
  load_event_chain d' a = (clock_verdict now e ;;? Ok (signed next)).
Proof.
  intros Hkey [Ha [Hws Hpid] He] Hb Hne Hnow Hfile Hfit d'. destruct (readable_facts _ a e Ha He) as (Hok & Hbound & _ & _).
  destruct (build_sound a now op e next Hok Hbound Hb Hne) as (Hbn & Hs & Hu & Hv).
  assert (append_event (directory st key) next = (d', Ok tt)) as Happ.
  { unfold d'. rewrite append_event_ok; rewrite ?Hfile, ?Hu; done. }
  pose proof (append_extends a _ e next d' He Happ Hs Hbn) as Hload. rewrite Hv in Hload.
  assert (load_authority d' = Ok a) as Ha' by (rewrite <- Ha; by apply load_authority_same).
  split_and!; [|done|done]. rewrite run_op_transition. unfold transition, pure_on. rewrite Hkey. cbn [store_bind].
  unfold locked, transition_locked, pure_on. rewrite Ha. cbn [store_bind].
  assert (foreign a ws pid = false) as ->.
  { unfold foreign. by rewrite Hws, Hpid, !str_neqb_refl. }
  rewrite He. cbn [store_bind]. rewrite str_neqb_refl, Hb. cbn [store_bind]. rewrite bool_decide_false by done.
  rewrite Happ. cbn [store_bind]. rewrite Hload. by destruct (clock_verdict now e) as [[]|].
Qed.
End Effects.

Section Stuck.
Context {P : Primitives} {R : JsonReader} {RL : ReaderLaws P R} {LL : LineLaws P}.

(** No operation on the publication succeeds or changes its files. *)
Definition stuck (st : State) (key : string * string) (ws pid : string) : Prop :=
  (forall now head op, exists err, run_op now st ws pid head op = (<[key := directory st key]> st, Err err)) /\
  (forall load_retained, exists err, load load_retained st ws pid = Err err) /\
  (forall load_bound now a, exists err, resolve_locked load_bound now ws a (directory st key) = (directory st key, Err err)).

Lemma unreadable_stuck (st : State) (key : string * string) (ws pid : string) a err :
  publication_directory ws pid = Ok key -> load_authority (directory st key) = Ok a ->
  load_event_chain (directory st key) a = Err err -> stuck st key ws pid.
Proof.
  intros Hkey Ha He. split_and!.
  - intros now head op. rewrite run_op_transition. unfold transition, pure_on. rewrite Hkey. cbn [store_bind].
    unfold locked, transition_locked, pure_on. rewrite Ha. cbn [store_bind]. destruct (foreign a ws pid); [eauto|].
    rewrite He. cbn [store_bind]. eauto.
  - intros load_retained. unfold load. rewrite Hkey. cbn [result_bind]. rewrite Ha. cbn [result_bind].
    destruct (foreign a ws pid); [unfold binding; eauto|]. destruct (load_retained _ _ _ _); cbn [result_bind]; [|eauto].
    rewrite He. cbn [result_bind]. eauto.
  - intros load_bound now b. unfold resolve_locked, pure_on.
    destruct (authority_json (directory st key)) eqn:Hj; [|by unfold load_authority in Ha; rewrite Hj in Ha].
    rewrite Ha. cbn [store_bind]. destruct (negb _); [unfold binding; eauto|]. rewrite He. cbn [store_bind]. eauto.
Qed.

(** A sealed authority reads back. *)
Lemma load_authority_written d a : authority_json d = Some (authority_bytes a) -> validate_authority a = Ok tt ->
  vlen (authority_bytes a) <= MAX_WORKSPACE_PUBLICATION_AUTHORITY_BYTES -> load_authority d = Ok a.
Proof.
  intros Hd Hv Hl. unfold load_authority, read_file. rewrite Hd, (proj2 (N.ltb_ge _ _) Hl). cbn [result_bind].
  destruct (authority_plain a) as [Hp Hn]. unfold authority_bytes at 1, value_bytes at 1. rewrite read_written by done.
  rewrite authority_written. cbn [ok_or result_bind]. rewrite bool_decide_true by done. cbn [negb]. by rewrite Hv.
Qed.

Lemma persist_authority_inv d a d' : authority_json d = None -> persist_authority d a = (d', Ok tt) ->
  validate_authority a = Ok tt /\ d' = {| authority_json := Some (authority_bytes a); ledger_jsonl := ledger_jsonl d |} /\
  load_authority d' = Ok a.
Proof.
  intros Hd. unfold persist_authority, pure_on. rewrite store_bind_ok. intros (d1 & [] & [= <- Hv] & H).
  unfold resource_limit in H. rewrite store_guard_ok, N.ltb_ge in H. destruct H as [Hl H]. rewrite Hd in H.
  injection H as <-. split_and!; [done|done|]. by apply load_authority_written.
Qed.
End Stuck.

(* --------------------------------------------------------------------- *)
(** ** A publication of two members *)

Module PublicationExample.
#[local] Existing Instance toy.
Fixpoint repeat_char (c : ascii) (n : nat) : string := match n with O => "" | S n' => String c (repeat_char c n') end.
Definition sha (c : ascii) : string := "sha256:" +:+ repeat_char c 64.
Definition prepared (name : string) (oid : ascii) : AfterWorkspaceMember :=
  {| am_alias := name; am_session_id := "session:" +:+ name; am_run_id := "run:" +:+ name; am_run_status := ReadyToPublish;
     am_target_ref := "refs/heads/main"; am_before_oid := repeat_char "a" 40; am_candidate_oid := repeat_char oid 40;
     am_prepared_authority_digest := sha "d"; am_obligation_count := 0 |}.
Definition after : AfterWorkspace :=
  {| aw_after_workspace_id := "after"; aw_authority_digest := sha "4"; aw_preparation_id := "prepare";
     aw_workspace_id := "workspace:w1"; aw_workspace_authority_digest := sha "f"; aw_workspace_semantic_digest := sha "1";
     aw_members := [prepared "api" "b"; prepared "worker" "c"] |}.
Definition request_member (name : string) : Value :=
  JObject [("acknowledgeObligations", JArray []); ("alias", JString name); ("allowConditional", JBool false);
           ("preparedAuthorityDigest", JString (sha "d"))].
Definition request : list byte :=
  value_bytes (JObject [("afterWorkspaceAuthorityDigest", JString (sha "4")); ("afterWorkspaceId", JString "after");
                        ("members", JArray [request_member "worker"; request_member "api"]);
                        ("policy", JString "ROLL_FORWARD_ONLY"); ("preparationId", JString "prepare");
                        ("schema", JString WORKSPACE_PUBLISH_INPUT_SCHEMA)]).
Definition loader (_ _ _ _ : string) : Res AfterWorkspace := Ok after.
Definition workspace : string := "workspace:w1".
Definition initial : State := ∅.

(** The worker is published first, as requested. *)
Definition opened : State * Res WorkspacePublicationProjection := resolve loader loader 10 initial workspace request.
Definition projection (r : State * Res WorkspacePublicationProjection) : WorkspacePublicationProjection :=
  match r.2 with Ok p => p | Err _ => mkProjection "" "" "" "" "" "" PreparedAll [] None None [] 0 "" end.
Definition pid : string := Eval vm_compute in pj_publication_id (projection opened).
Definition key : string * string := Eval vm_compute in
  match publication_directory workspace pid with Ok k => k | Err _ => ("", "") end.
Definition started := begin_next 20 opened.1 workspace pid (pj_ledger_head (projection opened)).
Definition half := record_published 30 started.1 workspace pid (pj_ledger_head (projection started)) "worker" (repeat_char "c" 40).
Definition dir (st : State) : Directory := directory st key.
Definition files : Directory := Eval vm_compute in dir half.1.
Definition sealed : WorkspacePublicationAuthority := Eval vm_compute in
  match load_authority files with Ok a => a | Err _ => mkAuthority "" "" "" "" "" "" "" "" "" "" [] end.
Definition head : WorkspacePublicationEvent := Eval vm_compute in
  match load_event_chain files sealed with Ok e => e | Err _ => origin_event 0 sealed end.

(** The state with that publication alone. *)
Definition state : State := {[key := files]}.

Example half_published :
  pj_status (projection half) = PartiallyPublished /\ pj_remaining_aliases (projection half) = ["api"] /\
  pj_sequence (projection half) = 2.
Proof. vm_compute. done. Qed.

Lemma pair_snd {A B : Type} (p : A * B) b : p.2 = b -> p = (p.1, b).
Proof. destruct p. by intros <-. Qed.

(** Starting the second member. *)
Definition resumed : State * Res WorkspacePublicationProjection :=
  run_op 40 state workspace pid (ev_event_hash head) OpBegin.
Definition resumed_projection : WorkspacePublicationProjection := Eval vm_compute in projection resumed.

Lemma resumed_ok : resumed = (resumed.1, Ok resumed_projection).
Proof. apply pair_snd. vm_compute. reflexivity. Qed.

Lemma state_files : directory state key = files.
Proof. unfold directory, state. by rewrite lookup_singleton_eq. Qed.

Lemma key_ok : publication_directory workspace pid = Ok key.
Proof. vm_compute. reflexivity. Qed.

Lemma state_readable : readable (P := toy) workspace pid (directory state key) sealed head.
Proof. rewrite state_files. split; [vm_compute; reflexivity|done|vm_compute; reflexivity]. Qed.
End PublicationExample.


(** C15: A readable ledger is a run of the abstract machine: its last event
    stands for the state reached from "nothing published" in as many steps as
    its sequence number says, the published members are a prefix of the sealed
    order with the sealed commits, the active member is the next one, and the
    status follows from the machine's state. *)
Theorem readable_ledger_refines (P : Primitives) (R : JsonReader) d a e :
  load_authority d = Ok a -> load_event_chain d a = Ok e ->
  event_ok (wa_members a) e /\
  nsteps (step (length (wa_members a))) (N.to_nat (ev_sequence e)) (0%nat, Idle) (abs e) /\
  (ev_status e = PublishedAll <-> length (ev_completed e) = length (wa_members a)).
Proof.
  intros Ha He. pose proof (load_authority_nonempty d a Ha) as Hn.
  destruct (readable_inv a d e Hn He) as (file & _ & _ & _ & _ & Hok & _).
  destruct (readable_steps a d e Hn He) as (file' & _ & _ & Hst). split_and!; try done.
  destruct Hok as [_ _ Hs _ _]. destruct (ev_status e); naive_solver lia.
Qed.

Lemma readable_ledger_refines_witness :
  nsteps (step 2) 2 (0%nat, Idle) (1%nat, Idle) /\ ev_completed PublicationExample.head = [mkPublished "worker" "cccccccccccccccccccccccccccccccccccccccc"].
Proof.
  split; [|reflexivity].
  destruct (readable_ledger_refines toy toy_reader PublicationExample.files PublicationExample.sealed PublicationExample.head)
    as (_ & H & _); [vm_compute; reflexivity..|]. exact H.
Defined.

(** C16: Every successful operation performs one step of the machine, or none
    (starting the member that is already active, or a finished publication): it
    required the caller to know the ledger head, appended one line to the ledger
    and left its earlier bytes, the sealed authority and every other publication
    alone, and reports the new state.  Published members are never taken back. *)
Theorem operations_refine (P : Primitives) (R : JsonReader) (RL : ReaderLaws P R) (LL : LineLaws P)
    (now : N) (st st' : State) (ws pid head : string) (op : Op) (p : WorkspacePublicationProjection) :
  run_op now st ws pid head op = (st', Ok p) ->
  exists key a e e', publication_directory ws pid = Ok key /\
    performed now op ws pid head (directory st key) (directory st' key) p a e e' /\
    ev_completed e `prefix_of` ev_completed e' /\
    (forall k, k <> key -> directory st' k = directory st k).
Proof.
  intros (key & a & e & e' & Hkey & Hp & Ho)%run_op_ok. exists key, a, e, e'. split_and!; try done.
  pose proof Hp as [Ha Ha' _ He _ He' _ Hstep _].
  destruct (readable_facts _ _ _ Ha He) as ([Hc _ _ _ _] & _). destruct (readable_facts _ _ _ Ha' He') as ([Hc' _ _ _ _] & _).
  destruct Hstep as [[_ ->]|[_ Hst]]; [done|]. apply rtc_once, steps_monotone in Hst. cbn in Hst.
  assert (ev_completed e = take (length (ev_completed e)) (ev_completed e')) as ->; [|apply prefix_take].
  rewrite Hc' , <- fmap_take, take_take, Nat.min_l by done. exact Hc.
Qed.

Lemma operations_refine_witness :
  pj_active_alias PublicationExample.resumed_projection = Some "api" /\
  exists key a e e', publication_directory PublicationExample.workspace PublicationExample.pid = Ok key /\
    performed (P := toy) 40 OpBegin PublicationExample.workspace PublicationExample.pid (ev_event_hash PublicationExample.head)
      (directory PublicationExample.state key) (directory PublicationExample.resumed.1 key)
      PublicationExample.resumed_projection a e e'.
Proof.
  split; [reflexivity|].
  destruct (operations_refine toy toy_reader toy_reader_laws toy_lines _ _ _ _ _ _ _ _ PublicationExample.resumed_ok)
    as (key & a & e & e' & Hk & Hp & _). by exists key, a, e, e'.
Defined.

(** C20: Whenever the machine can step, the matching operation with the current
    ledger head succeeds and performs that step, provided the clock has not gone
    back and the ledger has room for one more event. *)
Theorem operations_enabled (P : Primitives) (R : JsonReader) (RL : ReaderLaws P R) (LL : LineLaws P)
    (now : N) (st : State) (key : string * string) (ws pid : string) a e s (error_code : ErrorCode) :
  publication_directory ws pid = Ok key -> readable ws pid (directory st key) a e ->
  step (length (wa_members a)) (abs e) s ->
  ev_updated_unix_ms e <= now <= u64_max ->
  (forall op next, build_of now op a e = Ok next -> fits (default [] (ledger_jsonl (directory st key))) next) ->
  exists op st' e', op_of (wa_members a) (length (ev_completed e)) s.2 error_code = Some op /\
    run_op now st ws pid (ev_event_hash e) op = (st', Ok (project a e')) /\
    readable ws pid (directory st' key) a e' /\ abs e' = s.
Proof.
  intros Hkey Hr Hst Hnow Hfits. destruct (op_of_builds _ a e s error_code ws pid now Hr Hst) as (op & next & Hop & Hb & Hne & Habs).
  pose proof Hr as [Ha Hids He]. destruct (load_event_chain_inv a _ e He) as (file & Hfile & _).
  specialize (Hfits op next Hb). rewrite Hfile in Hfits.
  destruct (readable_facts _ a e Ha He) as (_ & _ & _ & Hpos & _).
  destruct (run_op_appends st key ws pid a e now op next file Hkey Hr Hb Hne ltac:(lia) Hfile Hfits) as (Hrun & Ha' & He').
  assert (clock_verdict now e = Ok tt) as Hc.
  { unfold clock_verdict. rewrite (proj2 (N.eqb_neq _ _)), (proj2 (N.ltb_ge _ _)) by lia. done. }
  rewrite Hc in *. cbn [result_bind] in *. eexists op, _, (signed next). split_and!; [done|exact Hrun| |done].
  rewrite directory_insert, decide_True by done. done.
Qed.

Lemma operations_enabled_witness :
  exists op st' e', op_of (wa_members PublicationExample.sealed) 1 Active Internal = Some op /\
    run_op (P := toy) 40 PublicationExample.state PublicationExample.workspace PublicationExample.pid
      (ev_event_hash PublicationExample.head) op = (st', Ok (project PublicationExample.sealed e')) /\
    abs e' = (1%nat, Active).
Proof.
  destruct (operations_enabled toy toy_reader toy_reader_laws toy_lines 40 PublicationExample.state PublicationExample.key
    PublicationExample.workspace PublicationExample.pid PublicationExample.sealed PublicationExample.head (1%nat, Active) Internal
    PublicationExample.key_ok PublicationExample.state_readable) as (op & st' & e' & Hop & Hrun & _ & Habs).
  - apply step_begin; [done|]. vm_compute. lia.
  - vm_compute. done.
  - rewrite PublicationExample.state_files. intros [| |] next H; vm_compute in H; [|discriminate..].
    injection H as <-. vm_compute. discriminate.
  - by exists op, st', e'.
Defined.



(** C22: between sealing the authority and opening the ledger there is no way
    back: a publication interrupted after the first and before the second is
    never resolved again, and no operation on it succeeds. *)
Theorem interrupted_resolve_is_fatal (P : Primitives) (R : JsonReader) (RL : ReaderLaws P R) (LL : LineLaws P)
    (st : State) (key : string * string) (ws pid : string) a d :
  publication_directory ws pid = Ok key -> persist_authority empty_directory a = (d, Ok tt) ->
  directory st key = d -> stuck st key ws pid.
Proof.
  intros Hkey Hp <-. apply persist_authority_inv in Hp as (_ & Hd & Ha); [|done].
  eapply unreadable_stuck; [done|exact Ha|]. by rewrite Hd.
Qed.

Lemma interrupted_resolve_is_fatal_witness :
  let d := {| authority_json := Some (authority_bytes (P := toy) PublicationExample.sealed); ledger_jsonl := None |} in
  stuck (P := toy) {[PublicationExample.key := d]} PublicationExample.key PublicationExample.workspace PublicationExample.pid.
Proof.
  intros d. apply (interrupted_resolve_is_fatal toy toy_reader toy_reader_laws toy_lines _ _ _ _ PublicationExample.sealed d).
  - exact PublicationExample.key_ok.
  - unfold d. vm_compute. reflexivity.
  - unfold directory. by rewrite lookup_singleton_eq.
Defined.
