(* ===== verification/PublicationResolve.v ===== *)
(** * Opening a publication (workspace_publish.rs: build_authority, resolve)

    What a request seals: the authority lists the prepared members in the order of
    the request, each with the commit that was prepared, and opening it is
    idempotent. *)

From stdpp Require Import gmap.
From S2P Require Import Prelude Order Collections Text Json Canonical Instances JsonFormat JsonRead Errors CasObject CasInterface PublicationLedger PublicationCodec PublicationSpec.
Open Scope string_scope.
Open Scope list_scope.
Open Scope N_scope.

(** A requested member is eligible: an unconditional run without
    acknowledgements, or a conditional one with all obligations acknowledged. *)
Definition eligible (prepared : AfterWorkspaceMember) (requested : WorkspacePublishInputMember) : Prop :=
  im_prepared_authority_digest requested = am_prepared_authority_digest prepared /\
  ((am_run_status prepared = ReadyToPublish /\ im_allow_conditional requested = false /\ im_acknowledge_obligations requested = []) \/
   (am_run_status prepared = ReadyToPublishConditional /\ im_allow_conditional requested = true /\
    vlen (im_acknowledge_obligations requested) = am_obligation_count prepared /\ im_acknowledge_obligations requested <> [])).

Lemma require_publishable_member_spec prepared requested :
  require_publishable_member prepared requested = Ok tt <-> eligible prepared requested.
Proof.
  unfold require_publishable_member, eligible, binding, precondition. rewrite guard_ok, str_neqb_false.
  destruct (am_run_status prepared); try (split; [by intros [_ ?]|by intros [_ [(? & _)|(? & _)]]]).
  - destruct (im_allow_conditional requested), (im_acknowledge_obligations requested); cbn [negb andb];
      (split; [intros [? ?]; first [done|split; [done|by left]]|intros [? [(_ & ? & ?)|(? & _)]]; done]).
  - destruct (im_allow_conditional requested), (im_acknowledge_obligations requested) as [|o l]; cbn [andb negb];
      try (split; [by intros [_ ?]|by intros [_ [(? & _)|(_ & ? & _ & ?)]]]).
    + rewrite andb_false_r. split; [by intros [_ ?]|by intros [_ [(? & _)|(_ & _ & _ & ?)]]].
    + rewrite andb_true_r. destruct (N.eqb_spec (vlen (o :: l)) (am_obligation_count prepared)).
      * split; [intros [? _]; split; [done|by right]|by intros [? _]].
      * split; [by intros [_ ?]|by intros [_ [(? & _)|(_ & _ & ? & _)]]].
Qed.

(** A sealed member is the prepared member of that alias, as requested. *)
Definition sealed_from (after : AfterWorkspace) (requested : WorkspacePublishInputMember) (m : WorkspacePublicationMemberAuthority) : Prop :=
  exists prepared, prepared ∈ aw_members after /\ am_alias prepared = im_alias requested /\ eligible prepared requested /\
    m = {| alias := am_alias prepared; session_id := am_session_id prepared; run_id := am_run_id prepared;
           target_ref := am_target_ref prepared; before_oid := am_before_oid prepared;
           candidate_oid := am_candidate_oid prepared;
           prepared_authority_digest := am_prepared_authority_digest prepared;
           allow_conditional := im_allow_conditional requested;
           acknowledge_obligations := im_acknowledge_obligations requested |}.

Lemma sealed_alias after requested m : sealed_from after requested m -> alias m = im_alias requested.
Proof. by intros (prepared & _ & Ha & _ & ->). Qed.

(** The loop over the request. *)
Lemma admit_members_inv after l acc : try_fold (admit_member after) ([], []) l = Ok acc ->
  Forall2 (sealed_from after) l acc.2 /\ NoDup (im_alias <$> l) /\ bset_wf acc.1 /\ (forall x, x ∈ acc.1 <-> x ∈ im_alias <$> l).
Proof.
  intros H. change l with ([] ++ l).
  eapply (try_fold_inv (admit_member after) (fun pre (acc : BTreeSet string * list WorkspacePublicationMemberAuthority) =>
    Forall2 (sealed_from after) pre acc.2 /\ NoDup (im_alias <$> pre) /\ bset_wf acc.1 /\
    (forall x, x ∈ acc.1 <-> x ∈ im_alias <$> pre)) l ([], []) acc []); [| |exact H].
  - split_and!; [constructor|constructor|constructor|done].
  - intros pre r [aliases ms] acc' (Hall & Hnd & Hwf & Hin) Hstep. unfold admit_member, invalid in Hstep.
    rewrite guard_ok, !orb_false_iff in Hstep. destruct Hstep as [[[Hnew _] _] Hstep].
    apply result_bind_ok in Hstep as (prepared & Hfind & Hstep). apply ignore_ok in Hstep as [[[] Hreq] [= <-]].
    apply require_publishable_member_spec in Hreq.
    destruct (List.find _ _) as [x|] eqn:Hf; [|done]. injection Hfind as ->. apply List.find_some in Hf as [Hmem Heq].
    apply str_eqb_eq in Heq. apply list_elem_of_In in Hmem. cbn [fst snd] in *. split_and!.
    + apply Forall2_app; [done|]. constructor; [|constructor]. by exists prepared.
    + rewrite fmap_app. apply list.NoDup_app. split_and!; [done| |apply NoDup_singleton].
      intros x Hx Hs. apply list_elem_of_singleton in Hs as ->. apply Hin, bset_contains_spec in Hx. congruence.
    + by apply bset_insert_wf.
    + intros x. rewrite bset_insert_elem, Hin, fmap_app, elem_of_app. change (im_alias <$> [r]) with [im_alias r].
      rewrite list_elem_of_singleton. tauto.
Qed.

Section Resolve.
Context {P : Primitives} {R : JsonReader} {RL : ReaderLaws P R} {LL : LineLaws P}.

Lemma build_authority_inv after input a : build_authority after input = Ok a ->
  validate_authority a = Ok tt /\ Forall2 (sealed_from after) (in_members input) (wa_members a) /\
  NoDup (im_alias <$> in_members input) /\ length (in_members input) = length (aw_members after) /\
  wa_workspace_id a = aw_workspace_id after /\ wa_after_workspace_id a = aw_after_workspace_id after.
Proof.
  unfold build_authority, invalid. rewrite guard_ok, !orb_false_iff, negb_false_iff, Nat.eqb_eq. intros [[_ Hlen] H].
  apply result_bind_ok in H as ([aliases ms] & Hfold & H). apply admit_members_inv in Hfold as (Hall & Hnd & _ & _).
  apply seq_ok in H as [Hv [= <-]]. done.
Qed.

(** The order of publication is the order of the request, over the prepared members. *)
Lemma sealed_order after input a : build_authority after input = Ok a ->
  alias <$> wa_members a = im_alias <$> in_members input /\
  (NoDup (am_alias <$> aw_members after) -> Permutation (alias <$> wa_members a) (am_alias <$> aw_members after)).
Proof.
  intros (_ & Hall & Hnd & Hlen & _ & _)%build_authority_inv.
  assert (alias <$> wa_members a = im_alias <$> in_members input) as Heq.
  { clear -Hall. induction Hall as [|r m l k Hrm _ IH]; [done|]. rewrite !fmap_cons, IH. f_equal. by apply sealed_alias in Hrm. }
  split; [done|]. intros Hnda. rewrite Heq. apply NoDup_ListNoDup in Hnd, Hnda.
  apply Permutation.NoDup_Permutation_bis; [done|rewrite !length_fmap; lia|]. intros x Hx. apply list_elem_of_In in Hx.
  apply list_elem_of_In. apply list_elem_of_fmap in Hx as (r & -> & Hr).
  apply list_elem_of_lookup in Hr as [i Hi]. destruct (Forall2_lookup_l _ _ _ _ _ Hall Hi) as (m & _ & prepared & Hp & Ha & _).
  rewrite <- Ha. by apply list_elem_of_fmap_2.
Qed.

Context (load_retained load_bound : string -> string -> string -> string -> Res AfterWorkspace).

(** A successful resolution leaves a directory that resolves to itself. *)
Lemma resolve_locked_ok now ws a d d' p : resolve_locked load_bound now ws a d = (d', Ok p) ->
  exists e, load_authority d' = Ok a /\ load_event_chain d' a = Ok e /\ p = project a e /\
    (forall now', resolve_locked load_bound now' ws a d' = (d', Ok p)) /\
    match authority_json d with
    | Some _ => d' = d
    | None => (exists w, load_bound ws (wa_preparation_id a) (wa_after_workspace_id a) (wa_after_workspace_authority_digest a) = Ok w) /\
              (ledger_jsonl d = None -> abs e = (0%nat, Idle) /\ ev_updated_unix_ms e = now)
    end.
Proof.
  assert (forall d e, load_authority d = Ok a -> load_event_chain d a = Ok e ->
    forall now', resolve_locked load_bound now' ws a d = (d, Ok (project a e))) as Hagain.
  { intros x e Ha He now'. unfold resolve_locked, pure_on.
    destruct (authority_json x) eqn:E; [|by unfold load_authority in Ha; rewrite E in Ha].
    rewrite Ha. cbn [store_bind]. rewrite bool_decide_true by done. cbn [negb]. by rewrite He. }
  unfold resolve_locked at 1, pure_on, binding. destruct (authority_json d) eqn:Hj.
  - rewrite store_bind_ok. intros (d1 & x & [= <- Hx] & H). rewrite store_guard_ok, negb_false_iff, bool_decide_eq_true in H.
    destruct H as [-> H]. rewrite store_bind_ok in H. destruct H as (d1 & e & [= <- He] & [= <- <-]).
    exists e. split_and!; try done. by apply Hagain.
  - rewrite store_bind_ok. intros (d1 & w & [= <- Hw] & H). rewrite store_bind_ok in H. destruct H as (d1 & [] & Hp & H).
    apply persist_authority_inv in Hp as (Hv & -> & Ha); [|done]. rewrite store_bind_ok in H. destruct H as (d2 & [] & Happ & H).
    rewrite store_bind_ok in H. destruct H as (d3 & e & [= <- He] & [= <- <-]). exists e.
    assert (authority_json d2 = Some (authority_bytes a)) as Hj2.
    { cbn [ledger_jsonl] in Happ. destruct (ledger_jsonl d); [by injection Happ as <-|]. by apply append_event_authority in Happ. }
    assert (load_authority d2 = Ok a) as Ha2 by (rewrite <- Ha; by apply load_authority_same).
    split_and!; try done; [by apply Hagain|by exists w|]. intros Hl. cbn [ledger_jsonl] in Happ. rewrite Hl in Happ.
    apply append_event_inv in Happ as (Hu & _ & ->). cbn [ledger_jsonl default] in He.
    apply load_event_chain_inv in He as (file & [= <-] & _ & _ & Hf).
    change (id [] ++ ?x) with x in Hf. rewrite lines_one in Hf; [|apply to_vec_one_line|apply to_vec_nonempty].
    cbn [try_fold] in Hf. rewrite load_line_signed in Hf by (by split).
    destruct (validate_transition a None (signed (origin_event now a))) as [[]|]; [|done]. cbn in Hf. by injection Hf as <-.
Qed.
End Resolve.

(** C19: A resolved request seals exactly what was prepared: every requested
    member is a prepared member of that alias that is eligible for publication,
    in the order of the request and without omissions; the directory then reads
    back that authority, a fresh one with nothing published; and resolving again,
    at any time, returns the same projection and changes no file. *)
Theorem resolve_seals_request (P : Primitives) (R : JsonReader) (RL : ReaderLaws P R) (LL : LineLaws P)
    (load_retained load_bound : string -> string -> string -> string -> Res AfterWorkspace)
    (now : N) (st st' : State) (ws : string) (source : list byte) (p : WorkspacePublicationProjection) :
  resolve load_retained load_bound now st ws source = (st', Ok p) ->
  exists input after a key e,
    parse_input source = Ok input /\
    load_retained ws (in_preparation_id input) (in_after_workspace_id input) (in_after_workspace_authority_digest input) = Ok after /\
    Forall2 (sealed_from after) (in_members input) (wa_members a) /\
    (NoDup (am_alias <$> aw_members after) -> Permutation (alias <$> wa_members a) (am_alias <$> aw_members after)) /\
    publication_directory ws (wa_publication_id a) = Ok key /\
    load_authority (directory st' key) = Ok a /\ load_event_chain (directory st' key) a = Ok e /\ p = project a e /\
    (directory st key = empty_directory -> abs e = (0%nat, Idle)) /\
    forall now', exists st'', resolve load_retained load_bound now' st' ws source = (st'', Ok p) /\
      forall k, directory st'' k = directory st' k.
Proof.
  unfold resolve at 1, pure_on. rewrite store_bind_ok. intros (s1 & input & [= <- Hin] & H). rewrite store_bind_ok in H.
  destruct H as (s1 & after & [= <- Haf] & H). rewrite store_bind_ok in H. destruct H as (s1 & a & [= <- Ha] & H).
  rewrite store_bind_ok in H. destruct H as (s1 & key & [= <- Hk] & H). apply locked_eq in H as [H Hother].
  pose proof (build_authority_inv _ _ _ Ha) as (_ & Hall & _). destruct (sealed_order _ _ _ Ha) as [_ Hperm].
  apply resolve_locked_ok in H as (e & Hla & Hle & Hp & Hagain & Hfresh).
  exists input, after, a, key, e. split_and!; try done.
  - intros Hempty. rewrite Hempty in Hfresh. by apply Hfresh.
  - intros now'. exists (<[key := directory st' key]> st'). split.
    + unfold resolve, pure_on. rewrite Hin. cbn [store_bind]. rewrite Haf. cbn [store_bind]. rewrite Ha. cbn [store_bind].
      rewrite Hk. cbn [store_bind]. unfold locked. by rewrite Hagain.
    + intros k. rewrite directory_insert. by destruct (decide (k = key)) as [->|].
Qed.

Definition opened_projection : WorkspacePublicationProjection := Eval vm_compute in
  PublicationExample.projection PublicationExample.opened.

Lemma resolve_seals_request_witness :
  let r := resolve (P := toy) PublicationExample.loader PublicationExample.loader 10 PublicationExample.initial
             PublicationExample.workspace PublicationExample.request in
  r.2 = Ok opened_projection /\
  exists input after a key e,
    parse_input (P := toy) PublicationExample.request = Ok input /\
    Forall2 (sealed_from after) (in_members input) (wa_members a) /\
    load_event_chain (P := toy) (directory r.1 key) a = Ok e /\
    opened_projection = project a e /\ pj_remaining_aliases opened_projection = ["worker"; "api"].
Proof.
  intros r. assert (r.2 = Ok opened_projection) as Hr by (vm_compute; reflexivity). split; [exact Hr|].
  destruct (resolve_seals_request toy toy_reader toy_reader_laws toy_lines PublicationExample.loader PublicationExample.loader
      10 PublicationExample.initial r.1 PublicationExample.workspace PublicationExample.request opened_projection
      (PublicationExample.pair_snd r (Ok opened_projection) Hr))
    as (input & after & a & key & e & H1 & H2 & H3 & _ & _ & _ & H7 & H8 & _).
  exists input, after, a, key, e. exact (conj H1 (conj H3 (conj H7 (conj H8 eq_refl)))).
Defined.
