(* ===== verification/PublicationDriver.v ===== *)
(** * Driving a publication (main.rs: publish_workspace)

    The command publishes the members of a workspace one after the other: it
    starts the next member, runs the member's own publication (or recovers an
    interrupted one), and records what the run's record says happened.  The runs
    and the refs they update are the parameters of [Runs], with a state of their
    own; the command's loop is bounded by 16 rounds. *)

From stdpp Require Import gmap.
From S2P Require Import Prelude Order Collections Text Json Canonical Instances JsonFormat JsonRead Errors CasObject CasInterface PublicationLedger PublicationCodec PublicationSpec.
Open Scope string_scope.
Open Scope list_scope.
Open Scope N_scope.

(** The fields of a run record that the command reads. *)
Record RunRecord : Type := mkRunRecord { rr_status : RunStatus; rr_final_commit : option string }.

(** The operations on runs (session.rs and main.rs). *)
Class Runs (W : Type) := {
  run_load : W -> string -> Res RunRecord;
  recover_task_run : W -> string -> string -> W * Res unit;
  publish_task_run : W -> string -> string -> bool -> option string -> list string -> W * Res unit
}.

Section Driver.
Context {P : Primitives} {R : JsonReader} {W : Type} {RN : Runs W}.
Context (load_retained load_bound : string -> string -> string -> string -> Res AfterWorkspace).
(** Two readings of the clock per round. *)
Context (clock : nat -> N).

(** The call on the member's run. *)
Definition run_member (w : W) (member : WorkspacePublicationMemberAuthority) (record : RunRecord) : W * Res unit :=
  match rr_status record with
  | RunPublishing | RunWorktreeRecoveryRequired => recover_task_run w (session_id member) (run_id member)
  | _ => publish_task_run w (session_id member) (run_id member) (allow_conditional member)
           (if allow_conditional member then Some (prepared_authority_digest member) else None)
           (acknowledge_obligations member)
  end.

Definition is_published (record : RunRecord) (member : WorkspacePublicationMemberAuthority) : bool :=
  (match rr_status record with RunPublished | RunPublishedConditional => true | _ => false end)
  && bool_decide (rr_final_commit record = Some (candidate_oid member)).

Inductive Outcome : Type :=
| Return (p : WorkspacePublicationProjection)
| Continue (p : WorkspacePublicationProjection).

Notation World := (State * W)%type.

(** An operation on the ledger inside the command. *)
Definition on_ledger (s : World) (r : State * Res WorkspacePublicationProjection) : World * Res WorkspacePublicationProjection :=
  ((r.1, s.2), r.2).

(** From the load of the member's run to the end of a round. *)
Definition settle (i : nat) (workspace_id : string) (a : WorkspacePublicationAuthority) (member : WorkspacePublicationMemberAuthority)
    (p : WorkspacePublicationProjection) (s : World) : World * Res Outcome :=
  do! s, record := pure_on s (run_load s.2 (run_id member)) in
  let '(w, result) := run_member s.2 member record in
  let s := (s.1, w) in
  match result with
  | Err error =>
      do! s, p := on_ledger s (record_failure (clock (2 * i + 1)) s.1 workspace_id (wa_publication_id a)
                                 (pj_ledger_head p) (alias member) (code error)) in
      (s, Ok (Return p))
  | Ok _ =>
      do! s, published := pure_on s (run_load s.2 (run_id member)) in
      if is_published published member
      then do! s, p := on_ledger s (record_published (clock (2 * i + 1)) s.1 workspace_id (wa_publication_id a)
                                      (pj_ledger_head p) (alias member) (candidate_oid member)) in
           (s, Ok (Continue p))
      else (s, Ok (Continue p))
  end.

(** The body of the [for] loop. *)
Definition publish_round (i : nat) (workspace_id : string) (s : World) (p : WorkspacePublicationProjection)
  : World * Res Outcome :=
  if is_status (pj_status p) PublishedAll then (s, Ok (Return p))
  else
    do! s, loaded := pure_on s (load load_retained s.1 workspace_id (pj_publication_id p)) in
    let authority := loaded.1 in
    let p := loaded.2 in
    do! s, p := if is_status (pj_status p) Publishing then (s, Ok p)
                else on_ledger s (begin_next (clock (2 * i)) s.1 workspace_id (wa_publication_id authority) (pj_ledger_head p)) in
    do! s, active := pure_on s (active_member authority p) in
    do! s, member := pure_on s (ok_or active (ClewError_new Internal "publication has no active member")) in
    settle i workspace_id authority member p s.

Fixpoint publish_loop (rounds : nat) (i : nat) (workspace_id : string) (s : World) (p : WorkspacePublicationProjection)
  : World * Res WorkspacePublicationProjection :=
  match rounds with
  | O => (s, resource_limit "workspace publication exceeded its bounded recovery transitions")
  | S rounds' =>
      do! s, outcome := publish_round i workspace_id s p in
      match outcome with
      | Return p => (s, Ok p)
      | Continue p => publish_loop rounds' (S i) workspace_id s p
      end
  end.

Definition projection_value (p : WorkspacePublicationProjection) : Value :=
  JObject ([("schema", JString (pj_schema p)); ("publicationId", JString (pj_publication_id p));
            ("authorityDigest", JString (pj_authority_digest p)); ("workspaceId", JString (pj_workspace_id p));
            ("afterWorkspaceId", JString (pj_after_workspace_id p)); ("policy", JString (pj_policy p));
            ("status", JString (status_name (pj_status p))); ("completed", JArray (published_value <$> pj_completed p))]
           ++ optional_field "activeAlias" JString (pj_active_alias p)
           ++ optional_field "lastErrorCode" (fun c => JString (error_code_name c)) (pj_last_error_code p)
           ++ [("remainingAliases", strings_value (pj_remaining_aliases p)); ("sequence", natural_value (pj_sequence p));
               ("ledgerHead", JString (pj_ledger_head p))]).

Definition bounded_workspace_publication (p : WorkspacePublicationProjection) : Res Value :=
  let value := projection_value p in
  if 64 * 1024 <? vlen (value_bytes value)
  then Err (ClewError_new SliceBudgetExceeded "workspace publication stdout exceeds 64 KiB") else Ok value.

(** Resuming by publication id ([now] is read by [resolve] alone). *)
Definition publish_workspace (now : N) (s : World) (workspace_id : string) (request : option (list byte))
    (publication_id : option string) : World * Res Value :=
  do! s, p := match request, publication_id with
              | Some source, None => on_ledger s (resolve load_retained load_bound now s.1 workspace_id source)
              | None, Some publication_id =>
                  (s, let? loaded := load load_retained s.1 workspace_id publication_id in Ok loaded.2)
              | _, _ => (s, invalid "workspace publication authority is ambiguous")
              end in
  do! s, p := publish_loop 16 0 workspace_id s p in
  pure_on s (bounded_workspace_publication p).
End Driver.

(* --------------------------------------------------------------------- *)
(** ** What a round does *)

Section Safety.
Context {P : Primitives} {R : JsonReader} {RL : ReaderLaws P R} {LL : LineLaws P} {W : Type} {RN : Runs W}.
Context (load_retained load_bound : string -> string -> string -> string -> Res AfterWorkspace) (clock : nat -> N).
Notation World := (State * W)%type.

(** The runs change only through the command's calls. *)
Inductive run_call : W -> W -> Prop :=
| call_recover w session run : run_call w (recover_task_run w session run).1
| call_publish w session run c d l : run_call w (publish_task_run w session run c d l).1.

Lemma run_member_call w member record : rtc run_call w (run_member w member record).1.
Proof. unfold run_member. destruct (rr_status record); apply rtc_once; constructor. Qed.

(** Between two states of the runs the member's record said it was published
    with the sealed commit. *)
Definition observed (w w' : W) (m : WorkspacePublicationMemberAuthority) : Prop :=
  exists x record, rtc run_call w x /\ rtc run_call x w' /\ run_load x (run_id m) = Ok record /\
    (rr_status record = RunPublished \/ rr_status record = RunPublishedConditional) /\
    rr_final_commit record = Some (candidate_oid m).

Lemma is_published_spec record m : is_published record m = true <->
  (rr_status record = RunPublished \/ rr_status record = RunPublishedConditional) /\ rr_final_commit record = Some (candidate_oid m).
Proof. unfold is_published. rewrite andb_true_iff, bool_decide_eq_true. destruct (rr_status record); naive_solver. Qed.

(** The machine moved, and every member it completed was observed. *)
Record advanced (ws pid : string) (key : string * string) (s s' : World) (a : WorkspacePublicationAuthority)
    (e e' : WorkspacePublicationEvent) : Prop := mkAdvanced {
  ad_before : readable ws pid (directory s.1 key) a e;
  ad_after : readable ws pid (directory s'.1 key) a e';
  ad_steps : rtc (step (length (wa_members a))) (abs e) (abs e');
  ad_runs : rtc run_call s.2 s'.2;
  ad_observed : forall j m, (length (ev_completed e) <= j < length (ev_completed e'))%nat -> wa_members a !! j = Some m ->
    observed s.2 s'.2 m
}.

Lemma advanced_refl ws pid key (s : World) a e : readable ws pid (directory s.1 key) a e -> advanced ws pid key s s a e e.
Proof. intros H. split; try done. intros j m Hj. lia. Qed.

Lemma observed_weaken w0 w w' w1 m : rtc run_call w0 w -> rtc run_call w' w1 -> observed w w' m -> observed w0 w1 m.
Proof. intros H0 H1 (x & r & Ha & Hb & Hc). exists x, r. split_and!; try apply Hc; by etrans. Qed.

Lemma advanced_trans ws pid key (s t u : World) a e f g :
  advanced ws pid key s t a e f -> advanced ws pid key t u a f g -> advanced ws pid key s u a e g.
Proof.
  intros [H1 H2 H3 H4 H5] [K1 K2 K3 K4 K5]. split; [done|done|by etrans|by etrans|]. intros j m Hj Hm.
  destruct (decide (j < length (ev_completed f))%nat).
  - apply (observed_weaken s.2 s.2 t.2 u.2); [done|done|]. apply (H5 j m); [lia|done].
  - apply (observed_weaken s.2 t.2 u.2 u.2); [done|done|]. apply (K5 j m); [lia|done].
Qed.

Lemma load_ok st ws pid r : load load_retained st ws pid = Ok r ->
  exists key e, publication_directory ws pid = Ok key /\ readable ws pid (directory st key) r.1 e /\ r.2 = project r.1 e.
Proof.
  unfold load, binding. rewrite result_bind_ok. intros (key & Hk & H). rewrite result_bind_ok in H. destruct H as (a & Ha & H).
  rewrite guard_ok in H. destruct H as [Hf H]. unfold foreign in Hf. rewrite orb_false_iff, !str_neqb_false in Hf.
  rewrite ignore_ok in H. destruct H as [_ H]. rewrite result_bind_ok in H. destruct H as (e & He & [= <-]). exists key, e. done.
Qed.

Lemma readable_unique ws pid d a a' e e' : readable ws pid d a e -> load_authority d = Ok a' -> load_event_chain d a' = Ok e' -> a' = a /\ e' = e.
Proof. intros [Ha _ He] Ha' He'. assert (a' = a) as -> by congruence. split; congruence. Qed.

(** An operation on a readable directory. *)
Lemma ledger_ok (now : N) (op : Op) (s s' : World) (ws pid : string) key a e (p : WorkspacePublicationProjection) :
  publication_directory ws pid = Ok key -> readable ws pid (directory s.1 key) a e ->
  on_ledger s (run_op now s.1 ws pid (ev_event_hash e) op) = (s', Ok p) ->
  exists e' next, s'.2 = s.2 /\ readable ws pid (directory s'.1 key) a e' /\ p = project a e' /\
    rtc (step (length (wa_members a))) (abs e) (abs e') /\
    build_of now op a e = Ok next /\ ev_completed e' = ev_completed next /\ ev_status e' = ev_status next.
Proof.
  intros Hkey Hr. unfold on_ledger. destruct (run_op now s.1 ws pid (ev_event_hash e) op) as [st r] eqn:E. cbn [fst snd].
  intros [= <- ->]. apply run_op_ok in E as (key' & a' & f & f' & Hk' & [Ha Ha' Hids Hb _ Haf -> Hst (next & Hnext & Hcase)] & _).
  assert (key' = key) as -> by congruence. destruct (readable_unique _ _ _ _ _ _ _ Hr Ha Hb) as [-> ->].
  exists f', next. split_and!; try done.
  - destruct Hst as [[_ ->]|[_ Hst]]; [done|by apply rtc_once].
  - by destruct Hcase as [[-> ->]| ->].
  - by destruct Hcase as [[-> ->]| ->].
Qed.

Lemma members_invalid_nodup ms : forall aliases, members_invalid aliases ms = false ->
  NoDup (alias <$> ms) /\ forall m, m ∈ ms -> alias m ∉ aliases.
Proof.
  induction ms as [|m ms IH]; intros aliases; cbn [members_invalid]; [split; [constructor|by intros m ?%elem_of_nil]|].
  rewrite !orb_false_iff, bset_contains_false. intros [[Hm _] H]. destruct (IH _ H) as [Hnd Hn]. split.
  - rewrite fmap_cons. apply list.NoDup_cons. split; [|done]. intros Hin. apply list_elem_of_fmap in Hin as (x & Hx & Hin).
    apply (Hn x Hin). rewrite bset_insert_elem. by left.
  - intros x [->|Hx]%elem_of_cons; [done|]. intros Ha. apply (Hn x Hx). rewrite bset_insert_elem. by right.
Qed.

Lemma aliases_unique a i j m m' : validate_authority a = Ok tt -> wa_members a !! i = Some m -> wa_members a !! j = Some m' ->
  alias m = alias m' -> m = m'.
Proof.
  unfold validate_authority, corrupt. rewrite guard_ok, !orb_false_iff. intros [[_ Hinv] _] Hi Hj He.
  apply members_invalid_nodup in Hinv as [Hnd _]. assert (i = j) as ->; [|congruence].
  eapply NoDup_lookup; [exact Hnd|by rewrite list_lookup_fmap, Hi|]. rewrite list_lookup_fmap, Hj. cbn. by rewrite He.
Qed.

(** The active member is the next one of the sealed order. *)
Lemma active_member_next ws pid d a e m : readable ws pid d a e -> ev_status e = Publishing ->
  active_member a (project a e) = Ok (Some m) -> wa_members a !! length (ev_completed e) = Some m.
Proof.
  intros [Ha _ He] Hs. destruct (readable_facts d a e Ha He) as ([_ _ _ Hact _] & _). rewrite Hs in Hact.
  unfold active_member, binding. rewrite guard_ok. intros [_ H]. cbn [pj_status project] in H. rewrite Hs in H.
  unfold is_status in H. rewrite bool_decide_true in H by done. rewrite result_bind_ok in H. destruct H as (name & Hn & H).
  cbn [pj_active_alias project] in Hn. rewrite Hact in Hn. destruct (wa_members a !! length (ev_completed e)) as [x|] eqn:Hx; [|done].
  cbn in Hn. injection Hn as <-. rewrite result_bind_ok in H. destruct H as (m' & Hm & [= ->]).
  destruct (List.find _ _) as [y|] eqn:Hf; [|done]. injection Hm as ->. apply List.find_some in Hf as [Hin Heq].
  apply str_eqb_eq in Heq. apply list_elem_of_In, list_elem_of_lookup in Hin as [j Hj]. f_equal. symmetry.
  exact (aliases_unique a j (length (ev_completed e)) m x (load_authority_valid d a Ha) Hj Hx Heq).
Qed.

(** Every round that succeeds advances the machine by what it observed. *)
Lemma settle_ok i (ws pid : string) key a e m (s s' : World) o :
  publication_directory ws pid = Ok key -> readable ws pid (directory s.1 key) a e -> ev_status e = Publishing ->
  wa_members a !! length (ev_completed e) = Some m ->
  settle clock i ws a m (project a e) s = (s', Ok o) ->
  exists e', advanced ws pid key s s' a e e' /\
    match o with Return p => p = project a e' /\ ev_status e' = RecoveryRequired | Continue p => p = project a e' end.
Proof.
  intros Hk Hr Hs Hm. pose proof (rb_ids _ _ _ _ _ Hr) as [_ Hpid]. unfold settle, pure_on. rewrite store_bind_ok.
  intros (t & record & [= <- Hrec] & H). pose proof (run_member_call s.2 m record) as Hcall.
  destruct (run_member s.2 m record) as [w [[]|err]] eqn:Erun; cbn [fst] in Hcall.
  - rewrite store_bind_ok in H. destruct H as (t & r & [= <- Hload] & H). cbn [snd] in Hload.
    destruct (is_published r m) eqn:Hp; [|injection H as <- <-; exists e; split; [|done]; split; try done; intros j x Hj; lia].
    rewrite store_bind_ok in H. destruct H as (t & p & Hop & [= <- <-]). rewrite Hpid in Hop.
    apply (ledger_ok _ (OpPublished (alias m) (candidate_oid m)) (s.1, w) t ws pid key a e p Hk Hr) in Hop
      as (e' & next & Hw & Hr' & -> & Hst & Hb & Hc & _). cbn [snd] in Hw. exists e'. split; [|done]. split; try done; [by rewrite Hw|].
    assert (length (ev_completed e') = S (length (ev_completed e))) as Hlen.
    { cbn [build_of] in Hb. unfold build_published, precondition, binding in Hb. rewrite guard_ok in Hb. destruct Hb as [_ Hb].
      apply result_bind_ok in Hb as (x & _ & Hb). rewrite guard_ok in Hb. destruct Hb as [_ [= <-]]. rewrite Hc. cbn.
      rewrite length_app. cbn. lia. }
    intros j x Hj Hx. assert (j = length (ev_completed e)) as -> by lia. assert (x = m) as -> by congruence.
    apply is_published_spec in Hp as [Hps Hpc]. exists w, r. rewrite Hw. refine (conj Hcall (conj (rtc_refl _ _) (conj Hload (conj Hps Hpc)))).
  - rewrite store_bind_ok in H. destruct H as (t & p & Hop & [= <- <-]). rewrite Hpid in Hop.
    apply (ledger_ok _ (OpFailure (alias m) (code err)) (s.1, w) t ws pid key a e p Hk Hr) in Hop
      as (e' & next & Hw & Hr' & -> & Hst & Hb & Hc & Hstat). cbn [snd] in Hw. cbn [build_of] in Hb.
    unfold build_failure, precondition in Hb. rewrite guard_ok in Hb. destruct Hb as [_ [= <-]].
    exists e'. split; [|done]. split; try done; [by rewrite Hw|]. intros j x Hj. rewrite Hc in Hj. cbn in Hj. lia.
Qed.

Lemma round_ok i (ws : string) (s s' : World) p o : publish_round load_retained clock i ws s p = (s', Ok o) ->
  (pj_status p = PublishedAll /\ s' = s /\ o = Return p) \/
  exists key a e e', publication_directory ws (pj_publication_id p) = Ok key /\
    advanced ws (pj_publication_id p) key s s' a e e' /\
    match o with Return q => q = project a e' /\ ev_status e' = RecoveryRequired | Continue q => q = project a e' end.
Proof.
  unfold publish_round, is_status at 1, pure_on. case_bool_decide as Hall; [by intros [= <- <-]; left|]. rewrite store_bind_ok.
  intros (t & [a q] & [= <- Hload] & H). apply load_ok in Hload as (key & e & Hk & Hr & Hq). cbn [fst snd] in *. subst q.
  right. rewrite store_bind_ok in H. destruct H as (t & q & Hbegin & H).
  assert (exists f, advanced ws (pj_publication_id p) key s t a e f /\ q = project a f /\
    (ev_status f = Publishing \/ ev_status f = PublishedAll)) as (f & Hadv & -> & Hstat).
  { unfold is_status in Hbegin. case_bool_decide as Hpub; cbn [pj_status project] in Hpub.
    - injection Hbegin as <- <-. exists e. split_and!; [by apply advanced_refl|done|by left].
    - rewrite (proj2 (rb_ids _ _ _ _ _ Hr)) in Hbegin. apply (ledger_ok _ OpBegin s t ws _ key a e q Hk Hr) in Hbegin
        as (f & next & Hw & Hr' & -> & Hst & Hb & Hc & Hs). exists f. cbn [build_of] in Hb. unfold build_begin in Hb.
      assert (ev_completed next = ev_completed e /\ (ev_status next = Publishing \/ ev_status next = PublishedAll)) as [Hce Hse].
      { destruct (ev_status e) eqn:E; try done; try (injection Hb as <-; by auto);
          apply result_bind_ok in Hb as (x & _ & [= <-]); (split; [done|by left]). }
      split_and!; [|done|by rewrite Hs]. split; try done; [by rewrite Hw|]. intros j x Hj. rewrite Hc, Hce in Hj. lia. }
  rewrite store_bind_ok in H. destruct H as (t2 & om & [= <- Hact] & H). rewrite store_bind_ok in H.
  destruct H as (t2 & m & [= <- Hm] & H). destruct om as [m'|]; [|done]. injection Hm as ->.
  pose proof (ad_after _ _ _ _ _ _ _ _ Hadv) as Hr'. destruct Hstat as [Hstat|Hstat].
  - pose proof (active_member_next _ _ _ _ _ _ Hr' Hstat Hact) as Hnext.
    destruct (settle_ok _ _ _ _ _ _ _ _ _ _ Hk Hr' Hstat Hnext H) as (g & Hadv' & Ho).
    exists key, a, e, g. split_and!; [done|by eapply advanced_trans|done].
  - unfold active_member, binding in Hact. rewrite guard_ok in Hact. cbn [pj_status project] in Hact. rewrite Hstat in Hact.
    by destruct Hact.
Qed.

Lemma loop_ok rounds : forall i (ws pid : string) (s s' : World) p p' key a e,
  publication_directory ws pid = Ok key -> readable ws pid (directory s.1 key) a e -> p = project a e ->
  publish_loop load_retained clock rounds i ws s p = (s', Ok p') ->
  exists e', advanced ws pid key s s' a e e' /\ p' = project a e' /\ (ev_status e' = PublishedAll \/ ev_status e' = RecoveryRequired).
Proof.
  induction rounds as [|rounds IH]; intros i ws pid s s' p p' key a e Hk Hr -> H; cbn [publish_loop] in H; [done|].
  rewrite store_bind_ok in H. destruct H as (t & o & Hround & H). pose proof (rb_ids _ _ _ _ _ Hr) as [_ Hpid].
  apply round_ok in Hround as [(Hall & -> & ->)|(key' & a' & f & f' & Hk' & Hadv & Ho)].
  - injection H as <- <-. exists e. split_and!; [by apply advanced_refl|done|by left].
  - cbn [pj_publication_id project] in Hk', Hadv. rewrite Hpid in Hk', Hadv. assert (key' = key) as -> by congruence.
    pose proof (ad_before _ _ _ _ _ _ _ _ Hadv) as [Hfa _ Hfe].
    destruct (readable_unique _ _ _ _ _ _ _ Hr Hfa Hfe) as [-> ->].
    destruct o as [q|q].
    + injection H as <- <-. destruct Ho as [-> Hrec]. exists f'. split_and!; [done|done|by right].
    + subst q. destruct (IH (S i) ws pid t s' _ p' key a f' Hk (ad_after _ _ _ _ _ _ _ _ Hadv) eq_refl H) as (g & Hg & -> & Hend).
      exists g. split_and!; [by eapply advanced_trans|done|done].
Qed.
End Safety.

(* --------------------------------------------------------------------- *)
(** ** Roll-forward *)

Section Progress.
Context {P : Primitives} {R : JsonReader} {RL : ReaderLaws P R} {LL : LineLaws P} {W : Type} {RN : Runs W}.
Context (load_retained load_bound : string -> string -> string -> string -> Res AfterWorkspace) (clock : nat -> N).
Context (ws pid : string) (key : string * string) (a : WorkspacePublicationAuthority).
Notation World := (State * W)%type.
Notation n := (length (wa_members a)).

(** The event that starts a member and the one that completes it. *)
Definition start_event (now : N) (e : WorkspacePublicationEvent) (m : WorkspacePublicationMemberAuthority) : WorkspacePublicationEvent :=
  next_event now e Publishing (ev_completed e) (Some (alias m)) None.
Definition finish_event (now : N) (e : WorkspacePublicationEvent) (m : WorkspacePublicationMemberAuthority) : WorkspacePublicationEvent :=
  let completed := ev_completed e ++ [published m] in
  next_event now e (if Nat.eqb (length completed) n then PublishedAll else PartiallyPublished) completed None None.

Definition with_line (file : list byte) (e : WorkspacePublicationEvent) : list byte := file ++ event_line e ++ [newline].

(** The ledger has room for the events of the next [r] rounds. *)
Fixpoint room (r i : nat) (e : WorkspacePublicationEvent) (file : list byte) : Prop :=
  match r, wa_members a !! length (ev_completed e) with
  | S r', Some m =>
      let started := is_status (ev_status e) Publishing in
      let b := start_event (clock (2 * i)) e m in
      let e1 := if started then e else signed b in
      let file1 := if started then file else with_line file (signed b) in
      let c := finish_event (clock (2 * i + 1)) e1 m in
      (started = true \/ fits file b) /\ fits file1 c /\ room r' (S i) (signed c) (with_line file1 (signed c))
  | _, _ => True
  end.

(** Every run of the publication can be brought to its sealed commit. *)
Definition cooperative : Prop := forall (w : W) m, m ∈ wa_members a ->
  exists record w' r, run_load w (run_id m) = Ok record /\ run_member w m record = (w', Ok tt) /\
    run_load w' (run_id m) = Ok r /\ is_published r m = true.

Hypothesis Hkey : publication_directory ws pid = Ok key.
Hypothesis Hretained : exists after, load_retained ws (wa_preparation_id a) (wa_after_workspace_id a) (wa_after_workspace_authority_digest a) = Ok after.
Hypothesis Hruns : cooperative.
Hypothesis Hclock : forall i, clock i <= clock (S i) <= u64_max.

Definition at_event (s : World) (e : WorkspacePublicationEvent) (file : list byte) : Prop :=
  readable ws pid (directory s.1 key) a e /\ ledger_jsonl (directory s.1 key) = Some file.

(** One event, with a clock that has not gone back. *)
Lemma append_ok (now : N) (op : Op) (s : World) e next file :
  at_event s e file -> build_of now op a e = Ok next -> next <> e -> ev_updated_unix_ms e <= now <= u64_max -> fits file next ->
  exists s', on_ledger s (run_op now s.1 ws pid (ev_event_hash e) op) = (s', Ok (project a (signed next))) /\
    at_event s' (signed next) (with_line file (signed next)) /\ s'.2 = s.2.
Proof.
  intros [Hr Hf] Hb Hne Hnow Hfit. pose proof Hr as [Ha Hids He]. destruct (readable_facts _ a e Ha He) as (_ & _ & _ & Hpos & _).
  destruct (run_op_appends s.1 key ws pid a e now op next file Hkey Hr Hb Hne (proj2 Hnow) Hf Hfit) as (Hrun & Ha' & He').
  assert (clock_verdict now e = Ok tt) as Hc.
  { unfold clock_verdict. rewrite (proj2 (N.eqb_neq _ _)), (proj2 (N.ltb_ge _ _)) by lia. done. }
  rewrite Hc in *. cbn [result_bind] in *. unfold on_ledger. rewrite Hrun. eexists. split; [done|]. cbn [fst snd].
  split; [|done]. unfold at_event. cbn [fst]. rewrite directory_insert, decide_True by done. done.
Qed.

Lemma event_ne now e st c x y : signed e = e -> next_event now e st c x y <> e.
Proof. intros Hs H. apply (f_equal ev_event_hash) in H. rewrite <- Hs in H. cbn in H. done. Qed.

Lemma load_readable (s : World) e file : at_event s e file -> load load_retained s.1 ws pid = Ok (a, project a e).
Proof.
  intros [[Ha [Hw Hp] He] _]. unfold load. rewrite Hkey. cbn [result_bind]. rewrite Ha. cbn [result_bind].
  unfold foreign. rewrite Hw, Hp, !str_neqb_refl. cbn [orb]. destruct Hretained as [after Hret]. rewrite Hret. cbn [result_bind].
  by rewrite He.
Qed.

(** The started member is found. *)
Lemma active_member_ok (s : World) e file m : at_event s e file -> ev_status e = Publishing ->
  wa_members a !! length (ev_completed e) = Some m -> active_member a (project a e) = Ok (Some m).
Proof.
  intros [[Ha _ He] _] Hs Hm. destruct (readable_facts _ a e Ha He) as ([_ _ _ Hact _] & _). rewrite Hs, Hm in Hact. cbn in Hact.
  unfold active_member. cbn [pj_publication_id pj_authority_digest pj_status pj_active_alias project]. rewrite !str_neqb_refl, Hs.
  cbn [orb]. unfold is_status. rewrite bool_decide_true by done. rewrite Hact. cbn [ok_or result_bind].
  destruct (List.find (fun x => str_eqb (alias x) (alias m)) (wa_members a)) as [y|] eqn:Hf; cbn [ok_or result_bind].
  - apply List.find_some in Hf as [Hin Heq]. apply str_eqb_eq in Heq. apply list_elem_of_In, list_elem_of_lookup in Hin as [j Hj].
    do 2 f_equal. exact (aliases_unique a j _ y m (load_authority_valid _ a Ha) Hj Hm Heq).
  - apply list_elem_of_lookup_2, list_elem_of_In in Hm. apply (List.find_none _ _ Hf) in Hm. by rewrite str_eqb_refl in Hm.
Qed.

(** A started member is completed by the end of the round. *)
Lemma settle_progress i (s : World) e file m : at_event s e file -> ev_status e = Publishing ->
  wa_members a !! length (ev_completed e) = Some m -> ev_updated_unix_ms e <= clock (2 * i + 1) <= u64_max ->
  fits file (finish_event (clock (2 * i + 1)) e m) ->
  let c := signed (finish_event (clock (2 * i + 1)) e m) in
  exists s', settle clock i ws a m (project a e) s = (s', Ok (Continue (project a c))) /\ at_event s' c (with_line file c).
Proof.
  intros Hat Hs Hm Hnow Hfit c. pose proof Hat as [[Ha [_ Hpid] He] _].
  destruct (Hruns s.2 m (list_elem_of_lookup_2 _ _ _ Hm)) as (record & w & r & H1 & H2 & H3 & H4).
  destruct (readable_facts _ a e Ha He) as ([_ _ _ Hact _] & _ & Hsig & _). rewrite Hs, Hm in Hact. cbn in Hact.
  assert (build_of (clock (2 * i + 1)) (OpPublished (alias m) (candidate_oid m)) a e = Ok (finish_event (clock (2 * i + 1)) e m)) as Hb.
  { cbn [build_of]. unfold build_published, is_active, is_status. rewrite Hs, Hact, Hm, !bool_decide_true by done.
    cbn [negb andb ok_or result_bind]. rewrite !str_neqb_refl. done. }
  destruct (append_ok _ _ (s.1, w) e _ file Hat Hb (event_ne _ _ _ _ _ _ Hsig) Hnow Hfit) as (s' & Hop & Hat' & _).
  exists s'. split; [|done]. unfold settle, pure_on. rewrite H1. cbn [store_bind]. rewrite H2. cbn [fst snd]. rewrite H3.
  cbn [store_bind fst snd]. rewrite H4, Hpid.
  change (record_published (clock (2 * i + 1)) s.1 ws pid (pj_ledger_head (project a e)) (alias m) (candidate_oid m))
    with (run_op (clock (2 * i + 1)) s.1 ws pid (ev_event_hash e) (OpPublished (alias m) (candidate_oid m))).
  cbn [fst] in Hop. rewrite Hop. done.
Qed.

Lemma start_built now d e m : readable ws pid d a e -> wa_members a !! length (ev_completed e) = Some m -> ev_status e <> Publishing ->
  build_of now OpBegin a e = Ok (start_event now e m).
Proof.
  intros [Ha _ He] Hm Hne. destruct (readable_facts _ a e Ha He) as ([_ _ Hs _ _] & _). apply lookup_lt_Some in Hm as Hlt.
  cbn [build_of]. unfold build_begin. rewrite Hm. destruct (ev_status e); try done. lia.
Qed.

Lemma round_progress i (s : World) e file m r : at_event s e file -> wa_members a !! length (ev_completed e) = Some m ->
  ev_updated_unix_ms e <= clock (2 * i) -> room (S r) i e file ->
  exists s' c file', publish_round load_retained clock i ws s (project a e) = (s', Ok (Continue (project a c))) /\
    at_event s' c file' /\ room r (S i) c file' /\ ev_completed c = ev_completed e ++ [published m] /\
    ev_updated_unix_ms c = clock (2 * i + 1).
Proof.
  intros Hat Hm Hnow Hroom. pose proof Hat as [Hr _]. pose proof Hr as [Ha [_ Hpid] He].
  destruct (readable_facts _ a e Ha He) as ([_ _ Hst _ _] & _ & Hsig & _).
  pose proof (Hclock (2 * i)) as [Hle Hmax]. replace (S (2 * i)) with (2 * i + 1)%nat in Hle, Hmax by lia.
  cbn [room] in Hroom. rewrite Hm in Hroom. destruct Hroom as (Hfit1 & Hfit2 & Hroom).
  unfold publish_round, pure_on. cbn [pj_status pj_publication_id project]. unfold is_status at 1.
  rewrite bool_decide_false by (intros Hall; rewrite Hall in Hst; apply lookup_lt_Some in Hm; lia). rewrite Hpid.
  rewrite (load_readable s e file Hat). cbn [store_bind fst snd pj_status project]. revert Hfit1 Hfit2 Hroom. unfold is_status.
  case_bool_decide as Hpub; intros Hfit1 Hfit2 Hroom.
  - cbn [store_bind]. rewrite (active_member_ok s e file m Hat Hpub Hm). cbn [store_bind ok_or].
    destruct (settle_progress i s e file m Hat Hpub Hm ltac:(lia) Hfit2) as (s' & Hrun & Hat').
    eexists s', _, _. split; [exact Hrun|]. by split_and!.
  - destruct Hfit1 as [|Hfit1]; [done|]. rewrite Hpid.
    destruct (append_ok _ _ s e _ file Hat (start_built (clock (2 * i)) _ e m Hr Hm Hpub) (event_ne _ _ _ _ _ _ Hsig) ltac:(lia) Hfit1)
      as (s1 & Hop & Hat1 & _).
    change (begin_next (clock (2 * i)) s.1 ws pid (pj_ledger_head (project a e)))
      with (run_op (clock (2 * i)) s.1 ws pid (ev_event_hash e) OpBegin). rewrite Hop. cbn [store_bind].
    rewrite (active_member_ok s1 _ _ m Hat1 eq_refl Hm). cbn [store_bind ok_or].
    destruct (settle_progress i s1 _ _ m Hat1 eq_refl Hm) as (s' & Hrun & Hat');
      [change (clock (2 * i) <= clock (2 * i + 1) <= u64_max); lia|exact Hfit2|].
    eexists s', _, _. split; [exact Hrun|]. by split_and!.
Qed.

Lemma loop_progress rounds : forall i (s : World) e file, at_event s e file -> ev_updated_unix_ms e <= clock (2 * i) ->
  (n - length (ev_completed e) < rounds)%nat -> room (n - length (ev_completed e)) i e file ->
  exists s' e', publish_loop load_retained clock rounds i ws s (project a e) = (s', Ok (project a e')) /\
    readable ws pid (directory s'.1 key) a e' /\ ev_status e' = PublishedAll.
Proof.
  induction rounds as [|rounds IH]; intros i s e file Hat Hnow Hrounds Hroom; [lia|]. cbn [publish_loop].
  pose proof Hat as [[Ha _ He] _]. destruct (readable_facts _ a e Ha He) as ([_ Hbound Hst _ _] & _).
  destruct (wa_members a !! length (ev_completed e)) as [m|] eqn:Hm.
  - pose proof (lookup_lt_Some _ _ _ Hm) as Hlt.
    replace (n - length (ev_completed e))%nat with (S (n - S (length (ev_completed e))))%nat in Hroom by lia.
    destruct (round_progress i s e file m _ Hat Hm Hnow Hroom) as (t & c & file' & Hround & Hat' & Hroom' & Hc & Hu).
    rewrite Hround. cbn [store_bind]. assert (length (ev_completed c) = S (length (ev_completed e))) as Hlen.
    { rewrite Hc, length_app. cbn. lia. }
    destruct (IH (S i) t c file' Hat') as (s' & e' & Hloop & Hend); [|lia|by rewrite Hlen|by exists s', e'].
    rewrite Hu. pose proof (Hclock (2 * i + 1)) as [Hle _]. by replace (2 * S i)%nat with (S (2 * i + 1)) by lia.
  - apply lookup_ge_None in Hm. assert (ev_status e = PublishedAll) as Hall.
    { pose proof (load_authority_nonempty _ a Ha). destruct (ev_status e); try done; lia. }
    exists s, e. split_and!; [|by destruct Hat|done]. unfold publish_round, is_status. cbn [pj_status project].
    by rewrite Hall, bool_decide_true.
Qed.
End Progress.

(** C17: However the runs behave, a resumed publication that returns a value has
    only moved forward: from a readable ledger to a readable ledger by steps of
    the machine, ending with everything published or with a member in recovery;
    and every member it newly reports as published was seen, during the command,
    as published with the commit that was sealed for it. *)
Theorem publish_workspace_sound (P : Primitives) (R : JsonReader) (RL : ReaderLaws P R) (LL : LineLaws P) (W : Type) (RN : Runs W)
    (load_retained load_bound : string -> string -> string -> string -> Res AfterWorkspace) (clock : nat -> N)
    (now : N) (s s' : State * W) (ws pid : string) (v : Value) :
  publish_workspace load_retained load_bound clock now s ws None (Some pid) = (s', Ok v) ->
  exists key a e e', publication_directory ws pid = Ok key /\ advanced ws pid key s s' a e e' /\
    v = projection_value (project a e') /\ (ev_status e' = PublishedAll \/ ev_status e' = RecoveryRequired).
Proof.
  unfold publish_workspace, pure_on. rewrite store_bind_ok. intros (t & p & [= <- Hp] & H).
  apply result_bind_ok in Hp as (r & Hload & [= <-]). apply load_ok in Hload as (key & e & Hk & Hr & Hq).
  rewrite store_bind_ok in H. destruct H as (t & p' & Hloop & H). destruct r as [a q]. cbn [fst snd] in *.
  destruct (loop_ok load_retained clock 16 0 ws pid s t q p' key a e Hk Hr Hq Hloop) as (e' & Hadv & -> & Hend).
  injection H as <- Hv. unfold bounded_workspace_publication in Hv. rewrite guard_ok in Hv. destruct Hv as [_ [= <-]].
  by exists key, a, e, e'.
Qed.

(** C18: Roll-forward: from any readable ledger, whatever was published or failed
    before, resuming the publication publishes all remaining members within the
    bound of 16 rounds, when the runs can be published, the clock does not go
    back and the ledger has room for the events. *)
Theorem publish_workspace_rolls_forward (P : Primitives) (R : JsonReader) (RL : ReaderLaws P R) (LL : LineLaws P) (W : Type)
    (RN : Runs W) (load_retained load_bound : string -> string -> string -> string -> Res AfterWorkspace) (clock : nat -> N)
    (now : N) (s : State * W) (ws pid : string) key a e file :
  publication_directory ws pid = Ok key ->
  readable ws pid (directory s.1 key) a e -> ledger_jsonl (directory s.1 key) = Some file ->
  (exists after, load_retained ws (wa_preparation_id a) (wa_after_workspace_id a) (wa_after_workspace_authority_digest a) = Ok after) ->
  cooperative (W := W) a -> (forall i : nat, clock i <= clock (S i) <= u64_max) -> ev_updated_unix_ms e <= clock 0%nat ->
  room clock a (length (wa_members a) - length (ev_completed e)) 0%nat e file ->
  exists s' e', publish_workspace load_retained load_bound clock now s ws None (Some pid) =
                  (s', bounded_workspace_publication (project a e')) /\
    readable ws pid (directory s'.1 key) a e' /\ ev_status e' = PublishedAll.
Proof.
  intros Hk Hr Hf Hret Hruns Hclock Hnow Hroom.
  assert (length (wa_members a) - length (ev_completed e) < 16)%nat as Hbound.
  { pose proof (authority_members a (load_authority_valid _ a (rb_authority _ _ _ _ _ Hr))). lia. }
  destruct (loop_progress load_retained clock ws pid key a Hk Hret Hruns Hclock 16 0 s e file (conj Hr Hf) Hnow Hbound Hroom)
    as (s' & e' & Hloop & Hr' & Hall).
  exists s', e'. split_and!; try done. unfold publish_workspace, pure_on.
  rewrite (load_readable load_retained ws pid key a Hk Hret s e file (conj Hr Hf)). cbn [result_bind store_bind snd].
  rewrite Hloop. done.
Qed.

(* --------------------------------------------------------------------- *)
(** ** A publication whose runs succeed *)

Module DriverExample.
#[local] Existing Instance toy.

(** Runs that publish what was prepared; the state is the set of published runs. *)
Definition commits : list (string * string) := [("run:worker", PublicationExample.repeat_char "c" 40); ("run:api", PublicationExample.repeat_char "b" 40)].
#[export] Instance easy_runs : Runs (list string) := {|
  run_load w run := Ok {| rr_status := if bool_decide (run ∈ w) then RunPublished else ReadyToPublish;
                          rr_final_commit := snd <$> List.find (fun c => String.eqb c.1 run) commits |};
  recover_task_run w _ run := (run :: w, Ok tt);
  publish_task_run w _ run _ _ _ := (run :: w, Ok tt)
|}.

Definition clock (i : nat) : N := 100.
Definition world : State * list string := (PublicationExample.state, ["run:worker"]).
Definition ledger : list byte := Eval vm_compute in default [] (ledger_jsonl PublicationExample.files).

Lemma easy_cooperative : cooperative (W := list string) PublicationExample.sealed.
Proof.
  intros w m Hm. eexists _, (run_id m :: w), _. split; [reflexivity|]. split.
  { unfold run_member. cbn. by case_bool_decide. }
  split; [reflexivity|]. unfold is_published. cbn [rr_status rr_final_commit]. rewrite (bool_decide_true (run_id m ∈ _)) by left.
  cbn [andb]. apply bool_decide_eq_true. unfold PublicationExample.sealed in Hm. cbn [wa_members] in Hm.
  rewrite !elem_of_cons in Hm. destruct Hm as [->|[->|?%elem_of_nil]]; [reflexivity..|done].
Qed.

Lemma world_room : room clock PublicationExample.sealed 1 0 PublicationExample.head ledger.
Proof. split_and!; [right; vm_compute; discriminate|vm_compute; discriminate|exact I]. Qed.

Lemma world_files : ledger_jsonl (directory world.1 PublicationExample.key) = Some ledger.
Proof. change (world.1) with PublicationExample.state. rewrite PublicationExample.state_files. reflexivity. Qed.

(** What the command prints. *)
Definition printed : Value := Eval vm_compute in
  match (publish_workspace PublicationExample.loader PublicationExample.loader clock 0 world PublicationExample.workspace None
           (Some PublicationExample.pid)).2 with Ok v => v | Err _ => JNull end.
End DriverExample.

Lemma publish_workspace_sound_witness :
  let r := publish_workspace (P := toy) (RN := DriverExample.easy_runs) PublicationExample.loader PublicationExample.loader
             DriverExample.clock 0 DriverExample.world PublicationExample.workspace None (Some PublicationExample.pid) in
  r.2 = Ok DriverExample.printed /\ value_get "status" DriverExample.printed = Some (JString "PUBLISHED_ALL") /\
  exists key a e e', advanced (P := toy) (RN := DriverExample.easy_runs) PublicationExample.workspace PublicationExample.pid key
    DriverExample.world r.1 a e e'.
Proof.
  intros r. assert (r.2 = Ok DriverExample.printed) as Hr by (vm_compute; reflexivity). split; [exact Hr|].
  split; [reflexivity|].
  destruct (publish_workspace_sound toy toy_reader toy_reader_laws toy_lines (list string) DriverExample.easy_runs
    PublicationExample.loader PublicationExample.loader DriverExample.clock 0 DriverExample.world r.1 PublicationExample.workspace
    PublicationExample.pid DriverExample.printed (PublicationExample.pair_snd r _ Hr)) as (key & a & e & e' & _ & Hadv & _).
  exists key, a, e, e'. exact Hadv.
Defined.

Lemma publish_workspace_rolls_forward_witness :
  exists s' e', publish_workspace (P := toy) (RN := DriverExample.easy_runs) PublicationExample.loader PublicationExample.loader DriverExample.clock 0
      DriverExample.world PublicationExample.workspace None (Some PublicationExample.pid) =
      (s', bounded_workspace_publication (P := toy) (project PublicationExample.sealed e')) /\
    readable (P := toy) PublicationExample.workspace PublicationExample.pid (directory s'.1 PublicationExample.key)
      PublicationExample.sealed e' /\ ev_status e' = PublishedAll.
Proof.
  apply (publish_workspace_rolls_forward toy toy_reader toy_reader_laws toy_lines (list string) DriverExample.easy_runs
    PublicationExample.loader PublicationExample.loader DriverExample.clock 0 DriverExample.world PublicationExample.workspace
    PublicationExample.pid PublicationExample.key PublicationExample.sealed PublicationExample.head DriverExample.ledger
    PublicationExample.key_ok PublicationExample.state_readable DriverExample.world_files).
  - exists PublicationExample.after. reflexivity.
  - exact DriverExample.easy_cooperative.
  - intros i. vm_compute. split; discriminate.
  - vm_compute. discriminate.
  - exact DriverExample.world_room.
Defined.
