(* ===== verification/ThreadCallables.v ===== *)
(** * Callable facts (thread_callables.rs)

    The closed data of the callable index: declarations, uses and boundaries with
    their provenance, the shards that hold them, the records of the query index, and the parts of a
    prepared fact set.  Serialization is the derived one: camelCase fields,
    absent options where the struct says so, upper-case variants, and facts tagged by
    [rowKind]. *)

From S2P Require Import Prelude Order Collections Text Json Canonical JsonFormat Errors CasObject CatalogCodec.

Inductive RelationshipAuthority : Type := VerifiedSameSnapshotCompilationDependency | DeclaredTopology | Unbound.
Inductive TargetResolution : Type := ExactSymbol | CallableFamily.
Inductive DeclarationKind : Type := DFunction | DConstructor | DClass | DProperty | DMutableProperty.
Inductive CallableFactSetCoverage : Type := SetComplete | SetPartial.
Inductive CallableFactSetCertainty : Type := SetVerified | SetUnsure.
Inductive GraphCoverage : Type := CompleteSupportedSubset | PartialGraph.

#[export] Instance RelationshipAuthority_eq_dec : EqDecision RelationshipAuthority.
Proof. solve_decision. Defined.
#[export] Instance TargetResolution_eq_dec : EqDecision TargetResolution.
Proof. solve_decision. Defined.
#[export] Instance DeclarationKind_eq_dec : EqDecision DeclarationKind.
Proof. solve_decision. Defined.
#[export] Instance CallableFactSetCoverage_eq_dec : EqDecision CallableFactSetCoverage.
Proof. solve_decision. Defined.
#[export] Instance CallableFactSetCertainty_eq_dec : EqDecision CallableFactSetCertainty.
Proof. solve_decision. Defined.
#[export] Instance GraphCoverage_eq_dec : EqDecision GraphCoverage.
Proof. solve_decision. Defined.

Record SourceAnchor : Type := mkSourceAnchor {
  sa_path : string;
  sa_start : option N;
  sa_end : option N;
  sa_content_ref : CasObject
}.
Record CallableFactProvenance : Type := mkProvenance {
  pv_member_alias : string;
  pv_repository_namespace : string;
  pv_session_id : string;
  pv_session_authority_digest : string;
  pv_base_revision : string;
  pv_compilation_id : string;
  pv_generation_id : string;
  pv_generation_ref : CasObject;
  pv_input_fact_key : string;
  pv_input_payload_ref : CasObject;
  pv_source : option SourceAnchor
}.
Record DeclarationFact : Type := mkDeclarationFact {
  df_schema : string;
  df_fact_id : string;
  df_provenance : CallableFactProvenance;
  df_declaration_kind : DeclarationKind;
  df_symbol_identity : string;
  df_compiler_callable_id : option string;
  df_compiler_class_id : option string;
  df_jvm_descriptor : option string;
  df_owner_identity : string;
  df_containment : list string;
  df_projected_shape : Value;
  df_shape_digest : option string;
  df_exact_eligible : bool;
  df_uncertainty_reasons : list string
}.
Record UseFact : Type := mkUseFact {
  uf_schema : string;
  uf_fact_id : string;
  uf_provenance : CallableFactProvenance;
  uf_relation_kind : string;
  uf_source_owner : string;
  uf_target_callable_id : string;
  uf_target_symbol_identity : option string;
  uf_target_repository_namespace : option string;
  uf_target_resolution : TargetResolution;
  uf_relationship_authority : RelationshipAuthority;
  uf_relation_evidence : Value;
  uf_exact_eligible : bool;
  uf_uncertainty_reasons : list string
}.
Record BoundaryFact : Type := mkBoundaryFact {
  bf_schema : string;
  bf_fact_id : string;
  bf_provenance : CallableFactProvenance;
  bf_stage : string;
  bf_code : string;
  bf_subject : option string;
  bf_required_checks : list string;
  bf_boundary_evidence : Value
}.
Inductive CallableFact : Type :=
| Declaration (row : DeclarationFact)
| Use (row : UseFact)
| Boundary (row : BoundaryFact).
Record CallableFactShard : Type := mkCallableFactShard {
  cfs_schema : string;
  cfs_sequence : N;
  cfs_first_fact_id : string;
  cfs_last_fact_id : string;
  cfs_facts : list CallableFact
}.

Definition fact_id (f : CallableFact) : string :=
  match f with Declaration row => df_fact_id row | Use row => uf_fact_id row | Boundary row => bf_fact_id row end.
Definition provenance (f : CallableFact) : CallableFactProvenance :=
  match f with Declaration row => df_provenance row | Use row => uf_provenance row | Boundary row => bf_provenance row end.

(* --------------------------------------------------------------------- *)
(** ** Prepared fact sets *)

Record CallableBudgets : Type := mkCallableBudgets {
  bu_max_members : N;
  bu_max_pair_bindings : N;
  bu_max_compilations : N;
  bu_max_input_facts_visited : N;
  bu_max_input_payload_bytes : N;
  bu_max_declarations : N;
  bu_max_uses : N;
  bu_max_boundaries : N;
  bu_max_normalized_facts : N;
  bu_max_parameters_per_callable : N;
  bu_max_type_parameters : N;
  bu_max_bounds_per_type_parameter : N;
  bu_max_containment_depth : N;
  bu_max_text_bytes : N;
  bu_max_shard_bytes : N;
  bu_max_derived_cas_objects : N;
  bu_max_direct_cas_closure_bytes : N;
  bu_max_query_terms : N;
  bu_max_query_results : N;
  bu_max_stdout_bytes : N
}.
Record CallableTaskBinding : Type := mkTaskBinding { tb_task_id : string; tb_pair_id : string; tb_terms : list string }.
Record CallablePairBinding : Type := mkPairBinding {
  pb_pair_id : string;
  pb_provider_member : string;
  pb_consumer_member : string;
  pb_relationship_authority : RelationshipAuthority;
  pb_dependency_evidence_ref : option CasObject
}.
Record CallableFactSetRequest : Type := mkFactSetRequest {
  fq_thread_id : string;
  fq_thread_authority_digest : string;
  fq_thread_context_id : string;
  fq_thread_context_authority_digest : string;
  fq_profile_digest : string;
  fq_tasks : list CallableTaskBinding;
  fq_pairs : list CallablePairBinding;
  fq_budgets : CallableBudgets
}.
Record CallableCompilationBinding : Type := mkCompilationBinding {
  cb_compilation_id : string;
  cb_generation_id : string;
  cb_generation_ref : CasObject;
  cb_semantic_authority : string;
  cb_extractor_id : string;
  cb_adapter_digest : string;
  cb_runtime_digest : string;
  cb_descriptor_coverage : GraphCoverage;
  cb_relation_coverage : GraphCoverage
}.
Record CallableMemberBinding : Type := mkMemberBinding {
  mb_member_alias : string;
  mb_service_alias : string;
  mb_session_id : string;
  mb_session_authority_digest : string;
  mb_repository_key : string;
  mb_repository_namespace : string;
  mb_base_revision : string;
  mb_snapshot_ref : CasObject;
  mb_compilations : list CallableCompilationBinding
}.
Record CallableFactCounts : Type := mkFactCounts {
  cn_visited_input_facts : N;
  cn_visited_input_payload_bytes : N;
  cn_declarations : N;
  cn_uses : N;
  cn_boundaries : N;
  cn_total : N;
  cn_exact_declarations : N;
  cn_exact_uses : N
}.
Record CallableCompleteness : Type := mkCallableCompleteness {
  cc_coverage : CallableFactSetCoverage;
  cc_certainty : CallableFactSetCertainty;
  cc_obligation_count : N
}.
Record CallableFactShardReference : Type := mkFactShardReference {
  fsr_sequence : N;
  fsr_first_fact_id : string;
  fsr_last_fact_id : string;
  fsr_object : CasObject
}.

(** The query index: what a fact is looked up by, and what a lookup finds. *)
Inductive CallableLookupKind : Type := KFullSymbol | KCallableFamily | KToken.
Inductive CallableFactKind : Type := FDeclaration | FUse | FBoundary.
Record CallableIndexKey : Type := mkIndexKey {
  ik_kind : CallableLookupKind;
  ik_repository_namespace : option string;
  ik_value : string
}.
Record CallablePosting : Type := mkPosting {
  po_fact_id : string;
  po_fact_kind : CallableFactKind;
  po_member_alias : string;
  po_repository_namespace : string;
  po_symbol_identity : option string;
  po_callable_id : option string;
  po_source_path : option string;
  po_source_start : option N;
  po_source_end : option N;
  po_exact_eligible : bool;
  po_uncertainty_reasons : list string
}.
Record CallableIndexRecord : Type := mkIndexRecord { ir_key : CallableIndexKey; ir_posting : CallablePosting }.
Record CallableQueryShard : Type := mkCallableQueryShard {
  cqs_schema : string;
  cqs_binding_digest : string;
  cqs_sequence : N;
  cqs_first_key : CallableIndexKey;
  cqs_last_key : CallableIndexKey;
  cqs_records : list CallableIndexRecord
}.
Record CallableQueryShardReference : Type := mkCallableQueryShardReference {
  csr_sequence : N;
  csr_first_key : CallableIndexKey;
  csr_last_key : CallableIndexKey;
  csr_object : CasObject
}.
Record CallableQueryIndexManifest : Type := mkCallableQueryIndex {
  cqi_schema : string;
  cqi_index_id : string;
  cqi_binding_digest : string;
  cqi_fact_shards : list CallableFactShardReference;
  cqi_shards : list CallableQueryShardReference;
  cqi_exact_symbol_key_count : N;
  cqi_callable_family_key_count : N;
  cqi_token_key_count : N;
  cqi_posting_count : N
}.

Record PreparedCasObject : Type := mkPreparedCasObject { pco_reference : CasObject; pco_bytes : list byte }.

(** What is known of a fact set, its evidence, and the summary for users. *)
Record CallableFactSetEvidence : Type := mkFactSetEvidence {
  ev_schema : string;
  ev_binding_digest : string;
  ev_counts : CallableFactCounts;
  ev_completeness : CallableCompleteness;
  ev_members : list CallableMemberBinding;
  ev_fact_shards : list CallableFactShardReference;
  ev_query_index_ref : CasObject;
  ev_boundary_fact_ids : list string
}.
Record CallableFactSetAuthority : Type := mkFactSetAuthority {
  fa_schema : string;
  fa_authority_digest : string;
  fa_binding_digest : string;
  fa_thread_id : string;
  fa_thread_authority_digest : string;
  fa_thread_context_id : string;
  fa_thread_context_authority_digest : string;
  fa_profile_digest : string;
  fa_tasks : list CallableTaskBinding;
  fa_pairs : list CallablePairBinding;
  fa_budgets : CallableBudgets;
  fa_members : list CallableMemberBinding;
  fa_counts : CallableFactCounts;
  fa_completeness : CallableCompleteness;
  fa_fact_shards : list CallableFactShardReference;
  fa_query_index_ref : CasObject;
  fa_evidence_ref : CasObject;
  fa_direct_cas_closure : list CasObject
}.
Record CallableProjectionMember : Type := mkProjectionMember {
  pm_member_alias : string;
  pm_service_alias : string;
  pm_repository_namespace : string;
  pm_compilations : list string
}.
Record CallableProjectionTask : Type := mkProjectionTask {
  pt_task_id : string;
  pt_pair_id : string;
  pt_term_count : N;
  pt_terms_digest : string
}.
Record CallableFactSetProjection : Type := mkFactSetProjection {
  fp_schema : string;
  fp_fact_set_id : string;
  fp_authority_digest : string;
  fp_binding_digest : string;
  fp_thread_id : string;
  fp_thread_context_id : string;
  fp_tasks : list CallableProjectionTask;
  fp_pairs : list CallablePairBinding;
  fp_members : list CallableProjectionMember;
  fp_counts : CallableFactCounts;
  fp_completeness : CallableCompleteness;
  fp_query_index_ref : CasObject;
  fp_evidence_ref : CasObject
}.
Record PreparedCallableFactSet : Type := mkPreparedFactSet {
  prepared_authority : CallableFactSetAuthority;
  prepared_evidence : CallableFactSetEvidence;
  prepared_projection : CallableFactSetProjection;
  prepared_fact_shards : list PreparedCasObject;
  prepared_query_shards : list PreparedCasObject;
  prepared_query_index : CallableQueryIndexManifest;
  prepared_query_index_object : PreparedCasObject;
  prepared_evidence_object : PreparedCasObject;
  prepared_authority_bytes : list byte;
  prepared_projection_bytes : list byte
}.

(** Decidable equality, for the comparisons of verification. *)
#[export] Instance LookupKind_eq_dec : EqDecision CallableLookupKind.
Proof. solve_decision. Defined.
#[export] Instance FactKind_eq_dec : EqDecision CallableFactKind.
Proof. solve_decision. Defined.
#[export] Instance Budgets_eq_dec : EqDecision CallableBudgets.
Proof. solve_decision. Defined.
#[export] Instance PairBinding_eq_dec : EqDecision CallablePairBinding.
Proof. solve_decision. Defined.
#[export] Instance CompilationBinding_eq_dec : EqDecision CallableCompilationBinding.
Proof. solve_decision. Defined.
#[export] Instance MemberBinding_eq_dec : EqDecision CallableMemberBinding.
Proof. solve_decision. Defined.
#[export] Instance FactCounts_eq_dec : EqDecision CallableFactCounts.
Proof. solve_decision. Defined.
#[export] Instance Completeness_eq_dec : EqDecision CallableCompleteness.
Proof. solve_decision. Defined.
#[export] Instance FactShardReference_eq_dec : EqDecision CallableFactShardReference.
Proof. solve_decision. Defined.
#[export] Instance IndexKey_eq_dec : EqDecision CallableIndexKey.
Proof. solve_decision. Defined.
#[export] Instance Posting_eq_dec : EqDecision CallablePosting.
Proof. solve_decision. Defined.
#[export] Instance IndexRecord_eq_dec : EqDecision CallableIndexRecord.
Proof. solve_decision. Defined.
#[export] Instance ProjectionMember_eq_dec : EqDecision CallableProjectionMember.
Proof. solve_decision. Defined.
#[export] Instance ProjectionTask_eq_dec : EqDecision CallableProjectionTask.
Proof. solve_decision. Defined.
#[export] Instance Projection_eq_dec : EqDecision CallableFactSetProjection.
Proof. solve_decision. Defined.

(* --------------------------------------------------------------------- *)
(** ** Serialization *)

Definition natural (n : N) : Value := JNumber (PosInt n).
Definition strings_value (l : list string) : Value := JArray (JString <$> l).

Definition authority_name (a : RelationshipAuthority) : string :=
  match a with
  | VerifiedSameSnapshotCompilationDependency => "VERIFIED_SAME_SNAPSHOT_COMPILATION_DEPENDENCY"
  | DeclaredTopology => "DECLARED_TOPOLOGY"
  | Unbound => "UNBOUND"
  end.
Definition resolution_name (r : TargetResolution) : string :=
  match r with ExactSymbol => "EXACT_SYMBOL" | CallableFamily => "CALLABLE_FAMILY" end.
Definition declaration_kind_name (k : DeclarationKind) : string :=
  match k with
  | DFunction => "FUNCTION" | DConstructor => "CONSTRUCTOR" | DClass => "CLASS" | DProperty => "PROPERTY"
  | DMutableProperty => "MUTABLE_PROPERTY"
  end.

Definition anchor_value (a : SourceAnchor) : Value :=
  JObject ([("path", JString (sa_path a))] ++ optional_field "start" natural (sa_start a) ++ optional_field "end" natural (sa_end a)
    ++ [("contentRef", cas_object_value (sa_content_ref a))]).
Definition provenance_value (p : CallableFactProvenance) : Value :=
  JObject ([("memberAlias", JString (pv_member_alias p)); ("repositoryNamespace", JString (pv_repository_namespace p));
            ("sessionId", JString (pv_session_id p)); ("sessionAuthorityDigest", JString (pv_session_authority_digest p));
            ("baseRevision", JString (pv_base_revision p)); ("compilationId", JString (pv_compilation_id p));
            ("generationId", JString (pv_generation_id p)); ("generationRef", cas_object_value (pv_generation_ref p));
            ("inputFactKey", JString (pv_input_fact_key p)); ("inputPayloadRef", cas_object_value (pv_input_payload_ref p))]
    ++ optional_field "source" anchor_value (pv_source p)).
Definition declaration_value (r : DeclarationFact) : Value :=
  JObject ([("schema", JString (df_schema r)); ("factId", JString (df_fact_id r)); ("provenance", provenance_value (df_provenance r));
            ("declarationKind", JString (declaration_kind_name (df_declaration_kind r))); ("symbolIdentity", JString (df_symbol_identity r))]
    ++ optional_field "compilerCallableId" JString (df_compiler_callable_id r)
    ++ optional_field "compilerClassId" JString (df_compiler_class_id r)
    ++ optional_field "jvmDescriptor" JString (df_jvm_descriptor r)
    ++ [("ownerIdentity", JString (df_owner_identity r)); ("containment", strings_value (df_containment r));
        ("projectedShape", df_projected_shape r)]
    ++ optional_field "shapeDigest" JString (df_shape_digest r)
    ++ [("exactEligible", JBool (df_exact_eligible r)); ("uncertaintyReasons", strings_value (df_uncertainty_reasons r))]).
Definition use_value (r : UseFact) : Value :=
  JObject ([("schema", JString (uf_schema r)); ("factId", JString (uf_fact_id r)); ("provenance", provenance_value (uf_provenance r));
            ("relationKind", JString (uf_relation_kind r)); ("sourceOwner", JString (uf_source_owner r));
            ("targetCallableId", JString (uf_target_callable_id r))]
    ++ optional_field "targetSymbolIdentity" JString (uf_target_symbol_identity r)
    ++ optional_field "targetRepositoryNamespace" JString (uf_target_repository_namespace r)
    ++ [("targetResolution", JString (resolution_name (uf_target_resolution r)));
        ("relationshipAuthority", JString (authority_name (uf_relationship_authority r)));
        ("relationEvidence", uf_relation_evidence r); ("exactEligible", JBool (uf_exact_eligible r));
        ("uncertaintyReasons", strings_value (uf_uncertainty_reasons r))]).
Definition boundary_fact_value (r : BoundaryFact) : Value :=
  JObject ([("schema", JString (bf_schema r)); ("factId", JString (bf_fact_id r)); ("provenance", provenance_value (bf_provenance r));
            ("stage", JString (bf_stage r)); ("code", JString (bf_code r))]
    ++ optional_field "subject" JString (bf_subject r)
    ++ [("requiredChecks", strings_value (bf_required_checks r)); ("boundaryEvidence", bf_boundary_evidence r)]).
Definition callable_fact_value (f : CallableFact) : Value :=
  match f with
  | Declaration row => JObject [("rowKind", JString "DECLARATION"); ("row", declaration_value row)]
  | Use row => JObject [("rowKind", JString "USE"); ("row", use_value row)]
  | Boundary row => JObject [("rowKind", JString "BOUNDARY"); ("row", boundary_fact_value row)]
  end.
Definition callable_shard_value (s : CallableFactShard) : Value :=
  JObject [("schema", JString (cfs_schema s)); ("sequence", natural (cfs_sequence s)); ("firstFactId", JString (cfs_first_fact_id s));
           ("lastFactId", JString (cfs_last_fact_id s)); ("facts", JArray (callable_fact_value <$> cfs_facts s))].

Definition lookup_kind_name (k : CallableLookupKind) : string :=
  match k with KFullSymbol => "FULL_SYMBOL" | KCallableFamily => "CALLABLE_FAMILY" | KToken => "TOKEN" end.
Definition fact_kind_name (k : CallableFactKind) : string :=
  match k with FDeclaration => "DECLARATION" | FUse => "USE" | FBoundary => "BOUNDARY" end.
Definition index_key_value (k : CallableIndexKey) : Value :=
  JObject ([("kind", JString (lookup_kind_name (ik_kind k)))] ++ optional_field "repositoryNamespace" JString (ik_repository_namespace k)
    ++ [("value", JString (ik_value k))]).
Definition posting_value (p : CallablePosting) : Value :=
  JObject ([("factId", JString (po_fact_id p)); ("factKind", JString (fact_kind_name (po_fact_kind p)));
            ("memberAlias", JString (po_member_alias p)); ("repositoryNamespace", JString (po_repository_namespace p))]
    ++ optional_field "symbolIdentity" JString (po_symbol_identity p) ++ optional_field "callableId" JString (po_callable_id p)
    ++ optional_field "sourcePath" JString (po_source_path p) ++ optional_field "sourceStart" natural (po_source_start p)
    ++ optional_field "sourceEnd" natural (po_source_end p)
    ++ [("exactEligible", JBool (po_exact_eligible p)); ("uncertaintyReasons", strings_value (po_uncertainty_reasons p))]).
Definition index_record_value (r : CallableIndexRecord) : Value :=
  JObject [("key", index_key_value (ir_key r)); ("posting", posting_value (ir_posting r))].
Definition query_shard_value (s : CallableQueryShard) : Value :=
  JObject [("schema", JString (cqs_schema s)); ("bindingDigest", JString (cqs_binding_digest s)); ("sequence", natural (cqs_sequence s));
           ("firstKey", index_key_value (cqs_first_key s)); ("lastKey", index_key_value (cqs_last_key s));
           ("records", JArray (index_record_value <$> cqs_records s))].

(* --------------------------------------------------------------------- *)
(** ** Deserialization *)

Definition decode_any (v : Value) : option Value := Some v.
Definition decode_strings : Value -> option (list string) := decode_vec decode_string.

Definition decode_anchor (v : Value) : option SourceAnchor :=
  match decode_record [("path", true); ("start", false); ("end", false); ("contentRef", true)] v with
  | Some [p; s; e; c] =>
      p ← decode_required decode_string p; s ← decode_option decode_u64 s; e ← decode_option decode_u64 e;
      c ← decode_required decode_cas_object c;
      Some {| sa_path := p; sa_start := s; sa_end := e; sa_content_ref := c |}
  | _ => None
  end.
Definition decode_provenance (v : Value) : option CallableFactProvenance :=
  match decode_record [("memberAlias", true); ("repositoryNamespace", true); ("sessionId", true); ("sessionAuthorityDigest", true);
                       ("baseRevision", true); ("compilationId", true); ("generationId", true); ("generationRef", true);
                       ("inputFactKey", true); ("inputPayloadRef", true); ("source", false)] v with
  | Some [m; n; s; d; b; c; g; r; k; p; a] =>
      m ← decode_required decode_string m; n ← decode_required decode_string n; s ← decode_required decode_string s;
      d ← decode_required decode_string d; b ← decode_required decode_string b; c ← decode_required decode_string c;
      g ← decode_required decode_string g; r ← decode_required decode_cas_object r; k ← decode_required decode_string k;
      p ← decode_required decode_cas_object p; a ← decode_option decode_anchor a;
      Some {| pv_member_alias := m; pv_repository_namespace := n; pv_session_id := s; pv_session_authority_digest := d;
              pv_base_revision := b; pv_compilation_id := c; pv_generation_id := g; pv_generation_ref := r;
              pv_input_fact_key := k; pv_input_payload_ref := p; pv_source := a |}
  | _ => None
  end.
Definition decode_declaration (v : Value) : option DeclarationFact :=
  match decode_record [("schema", true); ("factId", true); ("provenance", true); ("declarationKind", true); ("symbolIdentity", true);
                       ("compilerCallableId", false); ("compilerClassId", false); ("jvmDescriptor", false); ("ownerIdentity", true);
                       ("containment", true); ("projectedShape", true); ("shapeDigest", false); ("exactEligible", true);
                       ("uncertaintyReasons", true)] v with
  | Some [s; i; p; k; y; c; l; j; o; n; h; d; e; u] =>
      s ← decode_required decode_string s; i ← decode_required decode_string i; p ← decode_required decode_provenance p;
      k ← decode_required (decode_variant declaration_kind_name [DFunction; DConstructor; DClass; DProperty; DMutableProperty]) k;
      y ← decode_required decode_string y; c ← decode_option decode_string c; l ← decode_option decode_string l;
      j ← decode_option decode_string j; o ← decode_required decode_string o; n ← decode_required decode_strings n;
      h ← decode_required decode_any h; d ← decode_option decode_string d; e ← decode_required decode_bool e;
      u ← decode_required decode_strings u;
      Some {| df_schema := s; df_fact_id := i; df_provenance := p; df_declaration_kind := k; df_symbol_identity := y;
              df_compiler_callable_id := c; df_compiler_class_id := l; df_jvm_descriptor := j; df_owner_identity := o;
              df_containment := n; df_projected_shape := h; df_shape_digest := d; df_exact_eligible := e; df_uncertainty_reasons := u |}
  | _ => None
  end.
Definition decode_use (v : Value) : option UseFact :=
  match decode_record [("schema", true); ("factId", true); ("provenance", true); ("relationKind", true); ("sourceOwner", true);
                       ("targetCallableId", true); ("targetSymbolIdentity", false); ("targetRepositoryNamespace", false);
                       ("targetResolution", true); ("relationshipAuthority", true); ("relationEvidence", true); ("exactEligible", true);
                       ("uncertaintyReasons", true)] v with
  | Some [s; i; p; k; o; t; y; n; r; a; v; e; u] =>
      s ← decode_required decode_string s; i ← decode_required decode_string i; p ← decode_required decode_provenance p;
      k ← decode_required decode_string k; o ← decode_required decode_string o; t ← decode_required decode_string t;
      y ← decode_option decode_string y; n ← decode_option decode_string n;
      r ← decode_required (decode_variant resolution_name [ExactSymbol; CallableFamily]) r;
      a ← decode_required (decode_variant authority_name [VerifiedSameSnapshotCompilationDependency; DeclaredTopology; Unbound]) a;
      v ← decode_required decode_any v; e ← decode_required decode_bool e; u ← decode_required decode_strings u;
      Some {| uf_schema := s; uf_fact_id := i; uf_provenance := p; uf_relation_kind := k; uf_source_owner := o;
              uf_target_callable_id := t; uf_target_symbol_identity := y; uf_target_repository_namespace := n;
              uf_target_resolution := r; uf_relationship_authority := a; uf_relation_evidence := v; uf_exact_eligible := e;
              uf_uncertainty_reasons := u |}
  | _ => None
  end.
Definition decode_boundary_fact (v : Value) : option BoundaryFact :=
  match decode_record [("schema", true); ("factId", true); ("provenance", true); ("stage", true); ("code", true); ("subject", false);
                       ("requiredChecks", true); ("boundaryEvidence", true)] v with
  | Some [s; i; p; g; c; b; r; e] =>
      s ← decode_required decode_string s; i ← decode_required decode_string i; p ← decode_required decode_provenance p;
      g ← decode_required decode_string g; c ← decode_required decode_string c; b ← decode_option decode_string b;
      r ← decode_required decode_strings r; e ← decode_required decode_any e;
      Some {| bf_schema := s; bf_fact_id := i; bf_provenance := p; bf_stage := g; bf_code := c; bf_subject := b;
              bf_required_checks := r; bf_boundary_evidence := e |}
  | _ => None
  end.
Definition decode_callable_fact (v : Value) : option CallableFact :=
  match decode_struct ["rowKind"; "row"] v with
  | Some [k; r] =>
      k ← decode_string k;
      if String.eqb k "DECLARATION" then r ← decode_declaration r; Some (Declaration r)
      else if String.eqb k "USE" then r ← decode_use r; Some (Use r)
      else if String.eqb k "BOUNDARY" then r ← decode_boundary_fact r; Some (Boundary r)
      else None
  | _ => None
  end.
Definition decode_callable_shard (v : Value) : option CallableFactShard :=
  match decode_struct ["schema"; "sequence"; "firstFactId"; "lastFactId"; "facts"] v with
  | Some [s; n; f; l; facts] =>
      s ← decode_string s; n ← decode_u32 n; f ← decode_string f; l ← decode_string l; facts ← decode_vec decode_callable_fact facts;
      Some {| cfs_schema := s; cfs_sequence := n; cfs_first_fact_id := f; cfs_last_fact_id := l; cfs_facts := facts |}
  | _ => None
  end.
Definition decode_index_key (v : Value) : option CallableIndexKey :=
  match decode_record [("kind", true); ("repositoryNamespace", false); ("value", true)] v with
  | Some [k; n; v] =>
      k ← decode_required (decode_variant lookup_kind_name [KFullSymbol; KCallableFamily; KToken]) k;
      n ← decode_option decode_string n; v ← decode_required decode_string v;
      Some {| ik_kind := k; ik_repository_namespace := n; ik_value := v |}
  | _ => None
  end.
Definition decode_posting (v : Value) : option CallablePosting :=
  match decode_record [("factId", true); ("factKind", true); ("memberAlias", true); ("repositoryNamespace", true); ("symbolIdentity", false);
                       ("callableId", false); ("sourcePath", false); ("sourceStart", false); ("sourceEnd", false);
                       ("exactEligible", true); ("uncertaintyReasons", true)] v with
  | Some [i; k; m; n; y; c; p; s; e; x; u] =>
      i ← decode_required decode_string i; k ← decode_required (decode_variant fact_kind_name [FDeclaration; FUse; FBoundary]) k;
      m ← decode_required decode_string m; n ← decode_required decode_string n; y ← decode_option decode_string y;
      c ← decode_option decode_string c; p ← decode_option decode_string p; s ← decode_option decode_u64 s; e ← decode_option decode_u64 e;
      x ← decode_required decode_bool x; u ← decode_required decode_strings u;
      Some {| po_fact_id := i; po_fact_kind := k; po_member_alias := m; po_repository_namespace := n; po_symbol_identity := y;
              po_callable_id := c; po_source_path := p; po_source_start := s; po_source_end := e; po_exact_eligible := x;
              po_uncertainty_reasons := u |}
  | _ => None
  end.
Definition decode_index_record (v : Value) : option CallableIndexRecord :=
  match decode_struct ["key"; "posting"] v with
  | Some [k; p] => k ← decode_index_key k; p ← decode_posting p; Some {| ir_key := k; ir_posting := p |}
  | _ => None
  end.
Definition decode_query_shard (v : Value) : option CallableQueryShard :=
  match decode_struct ["schema"; "bindingDigest"; "sequence"; "firstKey"; "lastKey"; "records"] v with
  | Some [s; b; n; f; l; r] =>
      s ← decode_string s; b ← decode_string b; n ← decode_u32 n; f ← decode_index_key f; l ← decode_index_key l;
      r ← decode_vec decode_index_record r;
      Some {| cqs_schema := s; cqs_binding_digest := b; cqs_sequence := n; cqs_first_key := f; cqs_last_key := l; cqs_records := r |}
  | _ => None
  end.
