(* ===== verification/CallableIndex.v ===== *)
(** * The callable index and its verification (thread_callables.rs)

    From normalized facts the builder makes the documents of a fact set: shards of
    facts, the postings under which a fact is found, shards of postings, the index,
    the evidence, the authority and its projection.  [seal_fact_set] is [build_with_jobs]
    from the point where the rows are normalized; [verify_prepared] is the check that
    the builder and every reader apply.  Both kinds of shard are cut by one loop,
    [pack_step], which the source writes twice. *)

From S2P Require Import Prelude Order Collections Text Json Canonical JsonFormat Errors CasObject CatalogCodec ThreadCallables QueryTerms.
From S2P Require JvmIdentity.

Definition CALLABLE_FACT_SHARD_SCHEMA : string := "codeclew-kotlin-callable-fact-shard/1.0".
Definition CALLABLE_QUERY_SHARD_SCHEMA : string := "codeclew-kotlin-callable-query-shard/1.0".
Definition CALLABLE_QUERY_INDEX_SCHEMA : string := "codeclew-kotlin-callable-query-index/1.0".
Definition CALLABLE_FACT_SET_SCHEMA : string := "codeclew-kotlin-callable-fact-set/1.0".
Definition CALLABLE_FACT_SET_EVIDENCE_SCHEMA : string := "codeclew-kotlin-callable-fact-set-evidence/1.0".
Definition CALLABLE_FACT_SET_PROJECTION_SCHEMA : string := "codeclew-kotlin-callable-fact-set-projection/1.0".
Definition MAX_CALLABLE_TEXT_BYTES : N := 4096.
Definition MAX_CALLABLE_EVIDENCE_OBJECT_BYTES : N := 64 * 1024 * 1024.
Definition MAX_INDEX_TERMS_PER_FACT : N := 65536.

Definition frozen : CallableBudgets := {|
  bu_max_members := 8; bu_max_pair_bindings := 32; bu_max_compilations := 128; bu_max_input_facts_visited := 131072;
  bu_max_input_payload_bytes := 32 * 1024 * 1024; bu_max_declarations := 65536; bu_max_uses := 65536; bu_max_boundaries := 16384;
  bu_max_normalized_facts := 131072; bu_max_parameters_per_callable := 1024; bu_max_type_parameters := 256;
  bu_max_bounds_per_type_parameter := 64; bu_max_containment_depth := 64; bu_max_text_bytes := MAX_CALLABLE_TEXT_BYTES;
  bu_max_shard_bytes := 8 * 1024 * 1024; bu_max_derived_cas_objects := 64; bu_max_direct_cas_closure_bytes := 96 * 1024 * 1024;
  bu_max_query_terms := 256; bu_max_query_results := 4096; bu_max_stdout_bytes := 64 * 1024
|}.

Definition budget {A} (m : string) : Res A := Err (ClewError_new SliceBudgetExceeded m).
Definition validate_budgets (b : CallableBudgets) : Res unit :=
  if negb (bool_decide (b = frozen)) then invalid "Kotlin callable budgets differ from the frozen profile" else Ok tt.

Definition is_digest (value : string) : bool := match digest_by_prefix value with Some _ => true | None => false end.

(* --------------------------------------------------------------------- *)
(** ** Order of the records *)

Definition lookup_kind_rank (k : CallableLookupKind) : N := match k with KFullSymbol => 0 | KCallableFamily => 1 | KToken => 2 end.
Definition fact_kind_rank (k : CallableFactKind) : N := match k with FDeclaration => 0 | FUse => 1 | FBoundary => 2 end.
(** The fields in the order of the structs, for the derived [Ord]. *)
Definition key_fields (k : CallableIndexKey) : N * (option string * string) :=
  (lookup_kind_rank (ik_kind k), (ik_repository_namespace k, ik_value k)).
Definition posting_fields (p : CallablePosting)
  : string * (N * (string * (string * (option string * (option string * (option string * (option N * (option N * (bool * list string))))))))) :=
  (po_fact_id p, (fact_kind_rank (po_fact_kind p), (po_member_alias p, (po_repository_namespace p, (po_symbol_identity p,
    (po_callable_id p, (po_source_path p, (po_source_start p, (po_source_end p, (po_exact_eligible p, po_uncertainty_reasons p)))))))))).
#[export] Instance Ord_key : Ord CallableIndexKey := cmp_on key_fields.
#[export] Instance Ord_posting : Ord CallablePosting := cmp_on posting_fields.
#[export] Instance Ord_record : Ord CallableIndexRecord := cmp_on (fun r => (ir_key r, ir_posting r)).

(* --------------------------------------------------------------------- *)
(** ** Documents *)

Definition opt_object_value (o : option CasObject) : Value := match o with Some o => cas_object_value o | None => JNull end.
Definition coverage_name (c : GraphCoverage) : string :=
  match c with CompleteSupportedSubset => "COMPLETE_SUPPORTED_SUBSET" | PartialGraph => "PARTIAL" end.
Definition set_coverage_name (c : CallableFactSetCoverage) : string := match c with SetComplete => "COMPLETE" | SetPartial => "PARTIAL" end.
Definition set_certainty_name (c : CallableFactSetCertainty) : string := match c with SetVerified => "VERIFIED" | SetUnsure => "UNSURE" end.

Definition budgets_value (b : CallableBudgets) : Value :=
  JObject [("maxMembers", natural (bu_max_members b)); ("maxPairBindings", natural (bu_max_pair_bindings b));
           ("maxCompilations", natural (bu_max_compilations b)); ("maxInputFactsVisited", natural (bu_max_input_facts_visited b));
           ("maxInputPayloadBytes", natural (bu_max_input_payload_bytes b)); ("maxDeclarations", natural (bu_max_declarations b));
           ("maxUses", natural (bu_max_uses b)); ("maxBoundaries", natural (bu_max_boundaries b));
           ("maxNormalizedFacts", natural (bu_max_normalized_facts b));
           ("maxParametersPerCallable", natural (bu_max_parameters_per_callable b));
           ("maxTypeParameters", natural (bu_max_type_parameters b));
           ("maxBoundsPerTypeParameter", natural (bu_max_bounds_per_type_parameter b));
           ("maxContainmentDepth", natural (bu_max_containment_depth b)); ("maxTextBytes", natural (bu_max_text_bytes b));
           ("maxShardBytes", natural (bu_max_shard_bytes b)); ("maxDerivedCasObjects", natural (bu_max_derived_cas_objects b));
           ("maxDirectCasClosureBytes", natural (bu_max_direct_cas_closure_bytes b));
           ("maxQueryTerms", natural (bu_max_query_terms b)); ("maxQueryResults", natural (bu_max_query_results b));
           ("maxStdoutBytes", natural (bu_max_stdout_bytes b))].
Definition task_value (t : CallableTaskBinding) : Value :=
  JObject [("taskId", JString (tb_task_id t)); ("pairId", JString (tb_pair_id t)); ("terms", strings_value (tb_terms t))].
Definition pair_value (p : CallablePairBinding) : Value :=
  JObject [("pairId", JString (pb_pair_id p)); ("providerMember", JString (pb_provider_member p));
           ("consumerMember", JString (pb_consumer_member p));
           ("relationshipAuthority", JString (authority_name (pb_relationship_authority p)));
           ("dependencyEvidenceRef", opt_object_value (pb_dependency_evidence_ref p))].
Definition request_value (r : CallableFactSetRequest) : Value :=
  JObject [("threadId", JString (fq_thread_id r)); ("threadAuthorityDigest", JString (fq_thread_authority_digest r));
           ("threadContextId", JString (fq_thread_context_id r));
           ("threadContextAuthorityDigest", JString (fq_thread_context_authority_digest r));
           ("profileDigest", JString (fq_profile_digest r)); ("tasks", JArray (task_value <$> fq_tasks r));
           ("pairs", JArray (pair_value <$> fq_pairs r)); ("budgets", budgets_value (fq_budgets r))].
Definition compilation_value (c : CallableCompilationBinding) : Value :=
  JObject [("compilationId", JString (cb_compilation_id c)); ("generationId", JString (cb_generation_id c));
           ("generationRef", cas_object_value (cb_generation_ref c)); ("semanticAuthority", JString (cb_semantic_authority c));
           ("extractorId", JString (cb_extractor_id c)); ("adapterDigest", JString (cb_adapter_digest c));
           ("runtimeDigest", JString (cb_runtime_digest c)); ("descriptorCoverage", JString (coverage_name (cb_descriptor_coverage c)));
           ("relationCoverage", JString (coverage_name (cb_relation_coverage c)))].
Definition member_value (m : CallableMemberBinding) : Value :=
  JObject [("memberAlias", JString (mb_member_alias m)); ("serviceAlias", JString (mb_service_alias m));
           ("sessionId", JString (mb_session_id m)); ("sessionAuthorityDigest", JString (mb_session_authority_digest m));
           ("repositoryKey", JString (mb_repository_key m)); ("repositoryNamespace", JString (mb_repository_namespace m));
           ("baseRevision", JString (mb_base_revision m)); ("snapshotRef", cas_object_value (mb_snapshot_ref m));
           ("compilations", JArray (compilation_value <$> mb_compilations m))].
Definition counts_value (c : CallableFactCounts) : Value :=
  JObject [("visitedInputFacts", natural (cn_visited_input_facts c));
           ("visitedInputPayloadBytes", natural (cn_visited_input_payload_bytes c)); ("declarations", natural (cn_declarations c));
           ("uses", natural (cn_uses c)); ("boundaries", natural (cn_boundaries c)); ("total", natural (cn_total c));
           ("exactDeclarations", natural (cn_exact_declarations c)); ("exactUses", natural (cn_exact_uses c))].
Definition completeness_value (c : CallableCompleteness) : Value :=
  JObject [("coverage", JString (set_coverage_name (cc_coverage c))); ("certainty", JString (set_certainty_name (cc_certainty c)));
           ("obligationCount", natural (cc_obligation_count c))].
Definition fact_shard_reference_value (r : CallableFactShardReference) : Value :=
  JObject [("sequence", natural (fsr_sequence r)); ("firstFactId", JString (fsr_first_fact_id r));
           ("lastFactId", JString (fsr_last_fact_id r)); ("object", cas_object_value (fsr_object r))].
Definition query_shard_reference_value (r : CallableQueryShardReference) : Value :=
  JObject [("sequence", natural (csr_sequence r)); ("firstKey", index_key_value (csr_first_key r));
           ("lastKey", index_key_value (csr_last_key r)); ("object", cas_object_value (csr_object r))].
Definition query_index_value (i : CallableQueryIndexManifest) : Value :=
  JObject [("schema", JString (cqi_schema i)); ("indexId", JString (cqi_index_id i)); ("bindingDigest", JString (cqi_binding_digest i));
           ("factShards", JArray (fact_shard_reference_value <$> cqi_fact_shards i));
           ("shards", JArray (query_shard_reference_value <$> cqi_shards i));
           ("exactSymbolKeyCount", natural (cqi_exact_symbol_key_count i));
           ("callableFamilyKeyCount", natural (cqi_callable_family_key_count i)); ("tokenKeyCount", natural (cqi_token_key_count i));
           ("postingCount", natural (cqi_posting_count i))].
Definition evidence_value (e : CallableFactSetEvidence) : Value :=
  JObject [("schema", JString (ev_schema e)); ("bindingDigest", JString (ev_binding_digest e)); ("counts", counts_value (ev_counts e));
           ("completeness", completeness_value (ev_completeness e)); ("members", JArray (member_value <$> ev_members e));
           ("factShards", JArray (fact_shard_reference_value <$> ev_fact_shards e));
           ("queryIndexRef", cas_object_value (ev_query_index_ref e)); ("boundaryFactIds", strings_value (ev_boundary_fact_ids e))].
Definition authority_value (a : CallableFactSetAuthority) : Value :=
  JObject [("schema", JString (fa_schema a)); ("authorityDigest", JString (fa_authority_digest a));
           ("bindingDigest", JString (fa_binding_digest a)); ("threadId", JString (fa_thread_id a));
           ("threadAuthorityDigest", JString (fa_thread_authority_digest a)); ("threadContextId", JString (fa_thread_context_id a));
           ("threadContextAuthorityDigest", JString (fa_thread_context_authority_digest a));
           ("profileDigest", JString (fa_profile_digest a)); ("tasks", JArray (task_value <$> fa_tasks a));
           ("pairs", JArray (pair_value <$> fa_pairs a)); ("budgets", budgets_value (fa_budgets a));
           ("members", JArray (member_value <$> fa_members a)); ("counts", counts_value (fa_counts a));
           ("completeness", completeness_value (fa_completeness a));
           ("factShards", JArray (fact_shard_reference_value <$> fa_fact_shards a));
           ("queryIndexRef", cas_object_value (fa_query_index_ref a)); ("evidenceRef", cas_object_value (fa_evidence_ref a));
           ("directCasClosure", JArray (cas_object_value <$> fa_direct_cas_closure a))].
Definition projection_task_value (t : CallableProjectionTask) : Value :=
  JObject [("taskId", JString (pt_task_id t)); ("pairId", JString (pt_pair_id t)); ("termCount", natural (pt_term_count t));
           ("termsDigest", JString (pt_terms_digest t))].
Definition projection_member_value (m : CallableProjectionMember) : Value :=
  JObject [("memberAlias", JString (pm_member_alias m)); ("serviceAlias", JString (pm_service_alias m));
           ("repositoryNamespace", JString (pm_repository_namespace m)); ("compilations", strings_value (pm_compilations m))].
Definition projection_value (p : CallableFactSetProjection) : Value :=
  JObject [("schema", JString (fp_schema p)); ("factSetId", JString (fp_fact_set_id p));
           ("authorityDigest", JString (fp_authority_digest p)); ("bindingDigest", JString (fp_binding_digest p));
           ("threadId", JString (fp_thread_id p)); ("threadContextId", JString (fp_thread_context_id p));
           ("tasks", JArray (projection_task_value <$> fp_tasks p)); ("pairs", JArray (pair_value <$> fp_pairs p));
           ("members", JArray (projection_member_value <$> fp_members p)); ("counts", counts_value (fp_counts p));
           ("completeness", completeness_value (fp_completeness p)); ("queryIndexRef", cas_object_value (fp_query_index_ref p));
           ("evidenceRef", cas_object_value (fp_evidence_ref p))].

(** What the identity of a fact set is derived from. *)
Record InputPayloadBinding : Type := mkPayloadBinding {
  ip_member_alias : string;
  ip_compilation_id : string;
  ip_fact_key : string;
  ip_payload_ref : CasObject;
  ip_source_ref : option CasObject
}.
Definition payload_binding_value (b : InputPayloadBinding) : Value :=
  JObject [("memberAlias", JString (ip_member_alias b)); ("compilationId", JString (ip_compilation_id b));
           ("factKey", JString (ip_fact_key b)); ("payloadRef", cas_object_value (ip_payload_ref b));
           ("sourceRef", opt_object_value (ip_source_ref b))].
Definition binding_material (request : CallableFactSetRequest) (fact_count payload_bytes : N) (members : list CallableMemberBinding)
    (payloads : list InputPayloadBinding) : Value :=
  JObject [("schema", JString "codeclew-kotlin-callable-binding/1.0"); ("request", request_value request);
           ("inputVisit", JObject [("factCount", natural fact_count); ("payloadBytes", natural payload_bytes)]);
           ("members", JArray (member_value <$> members)); ("payloads", JArray (payload_binding_value <$> payloads))].
Definition payload_order (b : InputPayloadBinding) : string * (string * (string * string)) :=
  (ip_member_alias b, (ip_compilation_id b, (ip_fact_key b, digest (ip_payload_ref b)))).

Section Build.
Context {P : Primitives} {R : JsonReader} {U : Unicode}.

(* --------------------------------------------------------------------- *)
(** ** Admission of texts and references *)

Definition validate_text (value label : string) : Res unit :=
  if str_is_empty value || (MAX_CALLABLE_TEXT_BYTES <? str_len value) || negb (is_nfc value) || has_control_char value
  then invalid (label +:+ " is empty or outside text authority") else Ok tt.
Definition validate_cas_object (object : CasObject) : Res unit :=
  if str_neqb (schema object) CAS_OBJECT_SCHEMA || negb (is_digest (digest object)) then invalid "CAS reference identity is invalid"
  else validate_text (object_schema object) "CAS object schema".
Definition full_symbol_identity (value : string) : bool := is_ok (JvmIdentity.validate_kotlin_full_symbol_identity value).

(* --------------------------------------------------------------------- *)
(** ** Postings of a fact *)

Fixpoint collect_json_index_strings (value : Value) (output : BTreeSet string) (depth : N) : Res (BTreeSet string) :=
  if 64 <? depth then budget "callable index metadata nesting exceeds 64"
  else match value with
  | JString v => Ok (if is_digest v then output else bset_insert v output)
  | JArray values =>
      (fix each (output : BTreeSet string) (l : list Value) : Res (BTreeSet string) :=
         match l with
         | [] => Ok output
         | v :: l' => let? output := collect_json_index_strings v output (depth + 1) in each output l'
         end) output values
  | JObject fields =>
      (fix each (output : BTreeSet string) (l : list (string * Value)) : Res (BTreeSet string) :=
         match l with
         | [] => Ok output
         | (_, v) :: l' => let? output := collect_json_index_strings v output (depth + 1) in each output l'
         end) output fields
  | _ => Ok output
  end.

(** [flush]: a whole word and its parts. *)
Definition flush_token (token : string) (output : BTreeSet string) : BTreeSet string :=
  if (2 <=? str_len token) && (str_len token <=? 256)
  then split_identifier token (bset_insert (of_chars (lower token)) output) else output.
Definition identifier_char (st : BTreeSet string * string) (c : N) : BTreeSet string * string :=
  let '(output, token) := st in
  if word_char c then (output, push_bounded token c) else (flush_token token output, EmptyString).
Definition identifier_terms (value : string) : BTreeSet string :=
  let '(output, token) := foldl identifier_char ([], EmptyString) (chars value) in flush_token token output.

Definition full_symbol_key (namespace : option string) (value : string) : CallableIndexKey :=
  {| ik_kind := KFullSymbol; ik_repository_namespace := namespace; ik_value := value |}.
Definition family_key (namespace : option string) (value : string) : CallableIndexKey :=
  {| ik_kind := KCallableFamily; ik_repository_namespace := namespace; ik_value := value |}.
Definition token_key (term : string) : CallableIndexKey :=
  {| ik_kind := KToken; ik_repository_namespace := None; ik_value := term |}.

(** [a.or(b)]. *)
Definition option_or {A} (a b : option A) : option A := match a with Some _ => a | None => b end.

(** The keys and the searchable texts of a fact; an exact target without an identity is a panic. *)
Definition fact_keys (fact : CallableFact) : Res (BTreeSet CallableIndexKey * BTreeSet string) :=
  match fact with
  | Declaration row =>
      let namespace := Some (pv_repository_namespace (df_provenance row)) in
      let keys := bset_insert (full_symbol_key namespace (df_symbol_identity row)) [] in
      let '(keys, searchable) :=
        match option_or (df_compiler_callable_id row) (df_compiler_class_id row) with
        | Some callable => (bset_insert (family_key None callable) (bset_insert (family_key namespace callable) keys),
                            bset_insert callable [])
        | None => (keys, [])
        end in
      let searchable := bset_extend searchable [df_symbol_identity row; df_owner_identity row] in
      let searchable := bset_extend searchable (df_containment row) in
      let? searchable := collect_json_index_strings (df_projected_shape row) searchable 0 in
      Ok (keys, searchable)
  | Use row =>
      let namespace := uf_target_repository_namespace row in
      let? keys := if bool_decide (uf_target_resolution row = ExactSymbol)
                   then match uf_target_symbol_identity row with
                        | Some symbol => Ok (bset_insert (full_symbol_key namespace symbol) [])
                        | None => internal "exact target always has a full identity"
                        end
                   else Ok [] in
      let keys := bset_insert (family_key namespace (uf_target_callable_id row)) keys in
      let keys := match namespace with
                  | Some _ => bset_insert (family_key None (uf_target_callable_id row)) keys
                  | None => keys
                  end in
      let searchable := bset_extend [] [uf_source_owner row; uf_target_callable_id row; uf_relation_kind row] in
      let searchable := match uf_target_symbol_identity row with Some symbol => bset_insert symbol searchable | None => searchable end in
      let? searchable := collect_json_index_strings (uf_relation_evidence row) searchable 0 in
      Ok (keys, searchable)
  | Boundary row =>
      let searchable := bset_extend [] [bf_stage row; bf_code row] in
      Ok ([], match bf_subject row with Some subject => bset_insert subject searchable | None => searchable end)
  end.

Definition add_terms (terms : BTreeSet string) (value : string) : Res (BTreeSet string) :=
  let terms := if is_digest value then terms else bset_extend terms (identifier_terms value) in
  if MAX_INDEX_TERMS_PER_FACT <? vlen terms then budget "one callable fact produces too many index terms" else Ok terms.
Definition keys_of_fact (fact : CallableFact) : Res (BTreeSet CallableIndexKey) :=
  let? '(keys, searchable) := fact_keys fact in
  let? terms := try_fold add_terms [] searchable in
  Ok (bset_extend keys (token_key <$> terms)).

Definition posting_for_fact (fact : CallableFact) : CallablePosting :=
  let p := provenance fact in
  let base kind symbol callable exact reasons :=
    {| po_fact_id := fact_id fact; po_fact_kind := kind; po_member_alias := pv_member_alias p;
       po_repository_namespace := pv_repository_namespace p; po_symbol_identity := symbol; po_callable_id := callable;
       po_source_path := sa_path <$> pv_source p; po_source_start := pv_source p ≫= sa_start; po_source_end := pv_source p ≫= sa_end;
       po_exact_eligible := exact; po_uncertainty_reasons := reasons |} in
  match fact with
  | Declaration row =>
      base FDeclaration (Some (df_symbol_identity row)) (option_or (df_compiler_callable_id row) (df_compiler_class_id row))
        (df_exact_eligible row) (df_uncertainty_reasons row)
  | Use row => base FUse (uf_target_symbol_identity row) (Some (uf_target_callable_id row)) (uf_exact_eligible row) (uf_uncertainty_reasons row)
  | Boundary row =>
      base FBoundary (match bf_subject row with Some s => if full_symbol_identity s then Some s else None | None => None end) None false
        ["BOUNDARY_" +:+ bf_code row]
  end.

Definition add_index_records (records : BTreeSet CallableIndexRecord) (fact : CallableFact) : Res (BTreeSet CallableIndexRecord) :=
  let? keys := keys_of_fact fact in
  Ok (bset_extend records ((fun key => {| ir_key := key; ir_posting := posting_for_fact fact |}) <$> keys)).
Definition build_index_records (facts : list CallableFact) : Res (list CallableIndexRecord) := try_fold add_index_records [] facts.

Definition count_kind (kind : CallableLookupKind) (records : list CallableIndexRecord) : N :=
  vlen (bset_of_list (ir_key <$> List.filter (fun r => bool_decide (ik_kind (ir_key r) = kind)) records)).
Definition index_key_counts (records : list CallableIndexRecord) : N * N * N :=
  (count_kind KFullSymbol records, count_kind KCallableFamily records, count_kind KToken records).

(* --------------------------------------------------------------------- *)
(** ** Sizes of encoded documents *)

Definition encoded_array_len (encoded_items item_count : N) : Res N :=
  ok_or (match u64_checked_add encoded_items 2 with Some n => u64_checked_add n (item_count - 1) | None => None end)
    (ClewError_new SliceBudgetExceeded "canonical array size overflowed").
(** [byte.is_ascii() && !byte.is_ascii_control()], neither a quote nor a backslash. *)
Definition literal_byte (a : ascii) : bool :=
  (N_of_ascii a <? 128) && negb (is_ascii_control a) && negb (Ascii.eqb a (ascii_of_N 34) || Ascii.eqb a (ascii_of_N 92)).
Definition encoded_ascii_string_len (value : string) : Res N :=
  if negb (str_all literal_byte value) then invalid "canonical shard header contains a non-literal-safe identity"
  else ok_or (u64_checked_add (str_len value) 2) (ClewError_new SliceBudgetExceeded "canonical string size overflowed").
(** One field after [index] others. *)
Definition add_field (st : N * N) (field : string * N) : Res (N * N) :=
  let '(index, length) := st in
  let? key_len := encoded_ascii_string_len field.1 in
  let? length := ok_or (n ← u64_checked_add length (if 0 <? index then 1 else 0); n ← u64_checked_add n key_len;
                        n ← u64_checked_add n 1; u64_checked_add n field.2)
                   (ClewError_new SliceBudgetExceeded "canonical object size overflowed") in
  Ok (index + 1, length).
Definition encoded_closed_object_len (fields : list (string * N)) : Res N :=
  let? '(_, length) := try_fold add_field (0, 2) fields in Ok length.

Definition encoded_fact_shard_len (sequence : N) (first_fact_id last_fact_id : string) (encoded_rows row_count : N) : Res N :=
  let? facts := encoded_array_len encoded_rows row_count in
  let? first := encoded_ascii_string_len first_fact_id in
  let? last := encoded_ascii_string_len last_fact_id in
  let? schema := encoded_ascii_string_len CALLABLE_FACT_SHARD_SCHEMA in
  encoded_closed_object_len [("facts", facts); ("firstFactId", first); ("lastFactId", last); ("schema", schema);
                             ("sequence", str_len (decimal sequence))].
Definition encoded_query_shard_len (binding_digest : string) (sequence first_key_len last_key_len encoded_rows row_count : N) : Res N :=
  let? binding := encoded_ascii_string_len binding_digest in
  let? records := encoded_array_len encoded_rows row_count in
  let? schema := encoded_ascii_string_len CALLABLE_QUERY_SHARD_SCHEMA in
  encoded_closed_object_len [("bindingDigest", binding); ("firstKey", first_key_len); ("lastKey", last_key_len); ("records", records);
                             ("schema", schema); ("sequence", str_len (decimal sequence))].

(* --------------------------------------------------------------------- *)
(** ** Cutting shards *)

Section Packing.
Context {A Ref : Type} (encoded_len : A -> N) (shard_len : N -> A -> A -> N -> N -> Res N)
  (publish : N -> list A -> list PreparedCasObject * list Ref -> Res (list PreparedCasObject * list Ref))
  (max_shard_bytes : N) (rows_overflow one_too_large sequence_overflow : string).

(** [pk_pending] is [rows[start..end]]. *)
Record Packing : Type := mkPacking {
  pk_pending : list A;
  pk_encoded_rows : N;
  pk_sequence : N;
  pk_out : list PreparedCasObject * list Ref
}.
Definition pack_step (st : Packing) (row : A) : Res Packing :=
  let? candidate_rows := ok_or (u64_checked_add (pk_encoded_rows st) (encoded_len row)) (ClewError_new SliceBudgetExceeded rows_overflow) in
  let? length := shard_len (pk_sequence st) (hd row (pk_pending st)) row candidate_rows (vlen (pk_pending st) + 1) in
  if length <=? max_shard_bytes
  then Ok {| pk_pending := pk_pending st ++ [row]; pk_encoded_rows := candidate_rows; pk_sequence := pk_sequence st; pk_out := pk_out st |}
  else match pk_pending st with
  | [] => budget one_too_large
  | _ =>
      let? out := publish (pk_sequence st) (pk_pending st) (pk_out st) in
      let? sequence := ok_or (u32_checked_add (pk_sequence st) 1) (ClewError_new SliceBudgetExceeded sequence_overflow) in
      let? length := shard_len sequence row row (encoded_len row) 1 in
      if max_shard_bytes <? length then budget one_too_large
      else Ok {| pk_pending := [row]; pk_encoded_rows := encoded_len row; pk_sequence := sequence; pk_out := out |}
  end.
Definition pack (rows : list A) : Res (list PreparedCasObject * list Ref) :=
  let? st := try_fold pack_step {| pk_pending := []; pk_encoded_rows := 0; pk_sequence := 0; pk_out := ([], []) |} rows in
  match pk_pending st with [] => Ok (pk_out st) | _ => publish (pk_sequence st) (pk_pending st) (pk_out st) end.
End Packing.

Definition callable_fact_shard (sequence : N) (facts : list CallableFact) : Res CallableFactShard :=
  match facts with
  | [] => invalid "callable fact shard is empty"
  | first :: rest =>
      Ok {| cfs_schema := CALLABLE_FACT_SHARD_SCHEMA; cfs_sequence := sequence; cfs_first_fact_id := fact_id first;
            cfs_last_fact_id := fact_id (List.last rest first); cfs_facts := facts |}
  end.
Definition publish_prepared_fact_shard (max_shard_bytes sequence : N) (facts : list CallableFact)
    (out : list PreparedCasObject * list CallableFactShardReference) : Res (list PreparedCasObject * list CallableFactShardReference) :=
  let? shard := callable_fact_shard sequence facts in
  let bytes := value_bytes (callable_shard_value shard) in
  if max_shard_bytes <? vlen bytes then budget "callable fact shard exceeds 8 MiB"
  else
  let? object := for_bytes CALLABLE_FACT_SHARD_SCHEMA bytes in
  Ok (out.1 ++ [{| pco_reference := object; pco_bytes := bytes |}],
      out.2 ++ [{| fsr_sequence := sequence; fsr_first_fact_id := cfs_first_fact_id shard; fsr_last_fact_id := cfs_last_fact_id shard;
                   fsr_object := object |}]).
Definition build_fact_shards (facts : list CallableFact) (budgets : CallableBudgets)
  : Res (list PreparedCasObject * list CallableFactShardReference) :=
  pack (fun fact => vlen (value_bytes (callable_fact_value fact)))
    (fun sequence first last => encoded_fact_shard_len sequence (fact_id first) (fact_id last))
    (publish_prepared_fact_shard (bu_max_shard_bytes budgets)) (bu_max_shard_bytes budgets)
    "callable fact shard size overflowed" "one normalized callable fact exceeds the 8 MiB shard bound"
    "callable fact shard sequence overflowed" facts.

Definition callable_query_shard (binding_digest : string) (sequence : N) (records : list CallableIndexRecord) : Res CallableQueryShard :=
  match records with
  | [] => invalid "callable query shard is empty"
  | first :: rest =>
      Ok {| cqs_schema := CALLABLE_QUERY_SHARD_SCHEMA; cqs_binding_digest := binding_digest; cqs_sequence := sequence;
            cqs_first_key := ir_key first; cqs_last_key := ir_key (List.last rest first); cqs_records := records |}
  end.
Definition publish_prepared_query_shard (binding_digest : string) (max_shard_bytes sequence : N) (records : list CallableIndexRecord)
    (out : list PreparedCasObject * list CallableQueryShardReference) : Res (list PreparedCasObject * list CallableQueryShardReference) :=
  let? shard := callable_query_shard binding_digest sequence records in
  let bytes := value_bytes (query_shard_value shard) in
  if max_shard_bytes <? vlen bytes then budget "callable query shard exceeds 8 MiB"
  else
  let? object := for_bytes CALLABLE_QUERY_SHARD_SCHEMA bytes in
  Ok (out.1 ++ [{| pco_reference := object; pco_bytes := bytes |}],
      out.2 ++ [{| csr_sequence := sequence; csr_first_key := cqs_first_key shard; csr_last_key := cqs_last_key shard;
                   csr_object := object |}]).
Definition record_len (r : CallableIndexRecord) : N := vlen (value_bytes (index_record_value r)).
Definition key_len (r : CallableIndexRecord) : N := vlen (value_bytes (index_key_value (ir_key r))).
Definition build_query_shards (binding_digest : string) (records : list CallableIndexRecord) (budgets : CallableBudgets)
  : Res (list PreparedCasObject * list CallableQueryShardReference) :=
  match records with
  | [] => invalid "callable query index has no records"
  | _ =>
      pack record_len
        (fun sequence first last => encoded_query_shard_len binding_digest sequence (key_len first) (key_len last))
        (publish_prepared_query_shard binding_digest (bu_max_shard_bytes budgets)) (bu_max_shard_bytes budgets)
        "callable query shard size overflowed" "one callable query posting exceeds the 8 MiB shard bound"
        "callable query shard sequence overflowed" records
  end.

(* --------------------------------------------------------------------- *)
(** ** Identities and the closure *)

Definition query_index_id (index : CallableQueryIndexManifest) : string :=
  hash (query_index_value {| cqi_schema := cqi_schema index; cqi_index_id := EmptyString; cqi_binding_digest := cqi_binding_digest index;
    cqi_fact_shards := cqi_fact_shards index; cqi_shards := cqi_shards index;
    cqi_exact_symbol_key_count := cqi_exact_symbol_key_count index;
    cqi_callable_family_key_count := cqi_callable_family_key_count index; cqi_token_key_count := cqi_token_key_count index;
    cqi_posting_count := cqi_posting_count index |}).
Definition with_authority_digest (a : CallableFactSetAuthority) (authority_digest : string) : CallableFactSetAuthority :=
  {| fa_schema := fa_schema a; fa_authority_digest := authority_digest; fa_binding_digest := fa_binding_digest a;
     fa_thread_id := fa_thread_id a; fa_thread_authority_digest := fa_thread_authority_digest a;
     fa_thread_context_id := fa_thread_context_id a; fa_thread_context_authority_digest := fa_thread_context_authority_digest a;
     fa_profile_digest := fa_profile_digest a; fa_tasks := fa_tasks a; fa_pairs := fa_pairs a; fa_budgets := fa_budgets a;
     fa_members := fa_members a; fa_counts := fa_counts a; fa_completeness := fa_completeness a; fa_fact_shards := fa_fact_shards a;
     fa_query_index_ref := fa_query_index_ref a; fa_evidence_ref := fa_evidence_ref a;
     fa_direct_cas_closure := fa_direct_cas_closure a |}.
Definition authority_digest (a : CallableFactSetAuthority) : string := hash (authority_value (with_authority_digest a EmptyString)).

Definition declaration_fact_id (row : DeclarationFact) : string :=
  hash (callable_fact_value (Declaration {| df_schema := df_schema row; df_fact_id := EmptyString; df_provenance := df_provenance row;
    df_declaration_kind := df_declaration_kind row; df_symbol_identity := df_symbol_identity row;
    df_compiler_callable_id := df_compiler_callable_id row; df_compiler_class_id := df_compiler_class_id row;
    df_jvm_descriptor := df_jvm_descriptor row; df_owner_identity := df_owner_identity row; df_containment := df_containment row;
    df_projected_shape := df_projected_shape row; df_shape_digest := df_shape_digest row; df_exact_eligible := df_exact_eligible row;
    df_uncertainty_reasons := df_uncertainty_reasons row |})).
Definition use_fact_id (row : UseFact) : string :=
  hash (callable_fact_value (Use {| uf_schema := uf_schema row; uf_fact_id := EmptyString; uf_provenance := uf_provenance row;
    uf_relation_kind := uf_relation_kind row; uf_source_owner := uf_source_owner row; uf_target_callable_id := uf_target_callable_id row;
    uf_target_symbol_identity := uf_target_symbol_identity row; uf_target_repository_namespace := uf_target_repository_namespace row;
    uf_target_resolution := uf_target_resolution row; uf_relationship_authority := uf_relationship_authority row;
    uf_relation_evidence := uf_relation_evidence row; uf_exact_eligible := uf_exact_eligible row;
    uf_uncertainty_reasons := uf_uncertainty_reasons row |})).
Definition boundary_fact_id (row : BoundaryFact) : string :=
  hash (callable_fact_value (Boundary {| bf_schema := bf_schema row; bf_fact_id := EmptyString; bf_provenance := bf_provenance row;
    bf_stage := bf_stage row; bf_code := bf_code row; bf_subject := bf_subject row; bf_required_checks := bf_required_checks row;
    bf_boundary_evidence := bf_boundary_evidence row |})).
Definition fact_id_valid (fact : CallableFact) : bool :=
  match fact with
  | Declaration row => str_eqb (declaration_fact_id row) (df_fact_id row)
  | Use row => str_eqb (use_fact_id row) (uf_fact_id row)
  | Boundary row => str_eqb (boundary_fact_id row) (bf_fact_id row)
  end.

(** The table of sizes by schema in the error's message is left out. *)
Definition validate_direct_cas_closure_size (closure : list CasObject) (max_bytes : N) : Res N :=
  let? bytes := try_fold (fun total reference =>
                  validate_cas_object reference ;;?
                  ok_or (u64_checked_add total (size reference)) (ClewError_new SliceBudgetExceeded "direct CAS closure size overflowed"))
                  0 closure in
  if max_bytes <? bytes then budget "direct CAS closure exceeds its limit" else Ok bytes.
Definition add_reference (unique : BTreeMap (string * string) CasObject) (reference : CasObject)
  : Res (BTreeMap (string * string) CasObject) :=
  validate_cas_object reference ;;?
  match bmap_get (object_schema reference, digest reference) unique with
  | Some existing => if bool_decide (existing = reference) then Ok unique else invalid "direct CAS closure contains conflicting metadata"
  | None => Ok (bmap_insert (object_schema reference, digest reference) reference unique)
  end.
Definition canonical_cas_closure (references : list CasObject) (budgets : CallableBudgets) : Res (list CasObject) :=
  let? unique := try_fold add_reference [] references in
  let closure := bmap_values unique in
  let? _ := validate_direct_cas_closure_size closure (bu_max_direct_cas_closure_bytes budgets) in
  Ok closure.

Definition add_identity (identities : BTreeSet (string * string)) (row : DeclarationFact) : Res (BTreeSet (string * string)) :=
  let identity := (pv_repository_namespace (df_provenance row), df_symbol_identity row) in
  if bset_contains identity identities then invalid "repository namespace repeats a declaration symbol identity"
  else Ok (bset_insert identity identities).
Definition reject_duplicate_declarations (rows : list DeclarationFact) : Res unit :=
  let? _ := try_fold add_identity [] rows in Ok tt.

(* --------------------------------------------------------------------- *)
(** ** Authority and projection *)

Definition projection_from_authority (a : CallableFactSetAuthority) : CallableFactSetProjection :=
  {| fp_schema := CALLABLE_FACT_SET_PROJECTION_SCHEMA; fp_fact_set_id := "thread-callables:" +:+ fa_authority_digest a;
     fp_authority_digest := fa_authority_digest a; fp_binding_digest := fa_binding_digest a; fp_thread_id := fa_thread_id a;
     fp_thread_context_id := fa_thread_context_id a;
     fp_tasks := (fun t => {| pt_task_id := tb_task_id t; pt_pair_id := tb_pair_id t; pt_term_count := vlen (tb_terms t);
                              pt_terms_digest := hash (strings_value (tb_terms t)) |}) <$> fa_tasks a;
     fp_pairs := fa_pairs a;
     fp_members := (fun m => {| pm_member_alias := mb_member_alias m; pm_service_alias := mb_service_alias m;
                                pm_repository_namespace := mb_repository_namespace m;
                                pm_compilations := cb_compilation_id <$> mb_compilations m |}) <$> fa_members a;
     fp_counts := fa_counts a; fp_completeness := fa_completeness a; fp_query_index_ref := fa_query_index_ref a;
     fp_evidence_ref := fa_evidence_ref a |}.

Definition scan_compilation (st : option string * N) (compilation : CallableCompilationBinding) : Res (option string * N) :=
  let '(previous, total) := st in
  if match previous with Some p => geb p (cb_compilation_id compilation) | None => false end
  then corrupt "callable authority compilation bindings repeat or are unordered"
  else
  let? total := ok_or (u64_checked_add total 1) (ClewError_new StateCorrupt "callable authority compilation count overflowed") in
  Ok (Some (cb_compilation_id compilation), total).
Definition scan_member (st : option string * N) (member : CallableMemberBinding) : Res (option string * N) :=
  let '(previous, total) := st in
  if (match previous with Some p => geb p (mb_member_alias member) | None => false end)
     || bool_decide (mb_compilations member = [])
  then corrupt "callable authority member/compilation order is invalid"
  else
  let? '(_, total) := try_fold scan_compilation (None, total) (mb_compilations member) in
  Ok (Some (mb_member_alias member), total).
Definition validate_authority_compilation_bindings (a : CallableFactSetAuthority) : Res unit :=
  let? '(_, total) := try_fold scan_member (None, 0) (fa_members a) in
  if (total =? 0) || (bu_max_compilations (fa_budgets a) <? total)
  then corrupt ("callable authority selected compilation count exceeds " +:+ decimal 128) else Ok tt.
Definition verify_authority_projection (a : CallableFactSetAuthority) (projection : CallableFactSetProjection) : Res unit :=
  validate_budgets (fa_budgets a) ;;?
  validate_authority_compilation_bindings a ;;?
  if str_neqb (authority_digest a) (fa_authority_digest a) || negb (bool_decide (projection = projection_from_authority a))
  then corrupt "callable authority or its compact projection was substituted" else Ok tt.

(* --------------------------------------------------------------------- *)
(** ** Verification *)

Definition partial_compilation (c : CallableCompilationBinding) : bool :=
  bool_decide (cb_descriptor_coverage c = PartialGraph) || bool_decide (cb_relation_coverage c = PartialGraph).
Definition has_partial_compilation (members : list CallableMemberBinding) : bool :=
  existsb partial_compilation (flat_map mb_compilations members).

Definition declarations_of (facts : list CallableFact) : list DeclarationFact :=
  omap (fun f => match f with Declaration row => Some row | _ => None end) facts.
Definition uses_of_facts (facts : list CallableFact) : list UseFact :=
  omap (fun f => match f with Use row => Some row | _ => None end) facts.
Definition boundary_ids (facts : list CallableFact) : list string :=
  omap (fun f => match f with Boundary row => Some (bf_fact_id row) | _ => None end) facts.
Definition counts_of (visited_facts visited_bytes : N) (facts : list CallableFact) : CallableFactCounts :=
  {| cn_visited_input_facts := visited_facts; cn_visited_input_payload_bytes := visited_bytes;
     cn_declarations := vlen (declarations_of facts); cn_uses := vlen (uses_of_facts facts); cn_boundaries := vlen (boundary_ids facts);
     cn_total := vlen facts; cn_exact_declarations := vlen (List.filter df_exact_eligible (declarations_of facts));
     cn_exact_uses := vlen (List.filter uf_exact_eligible (uses_of_facts facts)) |}.
Definition completeness_of (facts : list CallableFact) (members : list CallableMemberBinding) : CallableCompleteness :=
  let complete := bool_decide (boundary_ids facts = []) && negb (has_partial_compilation members) in
  {| cc_coverage := if complete then SetComplete else SetPartial; cc_certainty := if complete then SetVerified else SetUnsure;
     cc_obligation_count := vlen (boundary_ids facts) |}.
Definition payload_binding_of (fact : CallableFact) : InputPayloadBinding :=
  let p := provenance fact in
  {| ip_member_alias := pv_member_alias p; ip_compilation_id := pv_compilation_id p; ip_fact_key := pv_input_fact_key p;
     ip_payload_ref := pv_input_payload_ref p; ip_source_ref := sa_content_ref <$> pv_source p |}.

Definition verify_prepared_object (object : PreparedCasObject) (schema : string) (max_bytes : N) : Res unit :=
  let mismatch := "prepared callable CAS bytes differ from their predicted identity" in
  if max_bytes <? vlen (pco_bytes object) then corrupt mismatch
  else
  let? reference := for_bytes schema (pco_bytes object) in
  if negb (bool_decide (pco_reference object = reference)) then corrupt mismatch else Ok tt.

(** One round of the loop over the fact shards: the last fact seen and the facts so far. *)
Definition check_fact (st : option string * list CallableFact) (fact : CallableFact) : Res (option string * list CallableFact) :=
  if (match st.1 with Some previous => geb previous (fact_id fact) | None => false end) || negb (fact_id_valid fact)
  then corrupt "prepared callable fact order or identity is invalid" else Ok (Some (fact_id fact), st.2 ++ [fact]).
Definition verify_fact_shard (max_shard_bytes : N) (st : option string * list CallableFact)
    (entry : CallableFactShardReference * PreparedCasObject) : Res (option string * list CallableFact) :=
  let '(expected, object) := entry in
  verify_prepared_object object CALLABLE_FACT_SHARD_SCHEMA max_shard_bytes ;;?
  let? shard := ok_or (from_slice decode_callable_shard (pco_bytes object))
                  (ClewError_new StateCorrupt "prepared callable fact shard is invalid") in
  if negb (bool_decide (fsr_object expected = pco_reference object)) || negb (fsr_sequence expected =? cfs_sequence shard)
     || str_neqb (fsr_first_fact_id expected) (cfs_first_fact_id shard) || str_neqb (fsr_last_fact_id expected) (cfs_last_fact_id shard)
     || str_neqb (cfs_schema shard) CALLABLE_FACT_SHARD_SCHEMA
     || negb (match cfs_facts shard with
              | [] => false
              | first :: rest => str_eqb (cfs_first_fact_id shard) (fact_id first)
                                 && str_eqb (cfs_last_fact_id shard) (fact_id (List.last rest first))
              end)
  then corrupt "prepared callable fact shard authority is invalid"
  else try_fold check_fact st (cfs_facts shard).

Definition check_record (st : option CallableIndexRecord * list CallableIndexRecord) (record : CallableIndexRecord)
  : Res (option CallableIndexRecord * list CallableIndexRecord) :=
  if match st.1 with Some previous => geb previous record | None => false end
  then corrupt "prepared callable query posting order is invalid" else Ok (Some record, st.2 ++ [record]).
Definition verify_query_shard (max_shard_bytes : N) (binding_digest : string)
    (st : option CallableIndexRecord * list CallableIndexRecord) (entry : CallableQueryShardReference * PreparedCasObject)
  : Res (option CallableIndexRecord * list CallableIndexRecord) :=
  let '(expected, object) := entry in
  verify_prepared_object object CALLABLE_QUERY_SHARD_SCHEMA max_shard_bytes ;;?
  let? shard := ok_or (from_slice decode_query_shard (pco_bytes object))
                  (ClewError_new StateCorrupt "prepared callable query shard is invalid") in
  if negb (bool_decide (csr_object expected = pco_reference object)) || negb (csr_sequence expected =? cqs_sequence shard)
     || negb (bool_decide (csr_first_key expected = cqs_first_key shard)) || negb (bool_decide (csr_last_key expected = cqs_last_key shard))
     || str_neqb (cqs_schema shard) CALLABLE_QUERY_SHARD_SCHEMA || str_neqb (cqs_binding_digest shard) binding_digest
     || negb (match cqs_records shard with
              | [] => false
              | first :: rest => bool_decide (cqs_first_key shard = ir_key first)
                                 && bool_decide (cqs_last_key shard = ir_key (List.last rest first))
              end)
  then corrupt "prepared callable query shard authority is invalid"
  else try_fold check_record st (cqs_records shard).

(** Everything that must be kept alive for the set. *)
Definition required_closure (prepared : PreparedCallableFactSet) (facts : list CallableFact) : list CasObject :=
  let a := prepared_authority prepared in
  flat_map (fun m => mb_snapshot_ref m :: (cb_generation_ref <$> mb_compilations m)) (fa_members a)
  ++ flat_map (fun f => pv_input_payload_ref (provenance f) :: option_list (sa_content_ref <$> pv_source (provenance f))) facts
  ++ omap pb_dependency_evidence_ref (fa_pairs a)
  ++ (pco_reference <$> prepared_fact_shards prepared) ++ (pco_reference <$> prepared_query_shards prepared)
  ++ [fa_query_index_ref a; fa_evidence_ref a].

Definition request_of (a : CallableFactSetAuthority) : CallableFactSetRequest :=
  {| fq_thread_id := fa_thread_id a; fq_thread_authority_digest := fa_thread_authority_digest a;
     fq_thread_context_id := fa_thread_context_id a; fq_thread_context_authority_digest := fa_thread_context_authority_digest a;
     fq_profile_digest := fa_profile_digest a; fq_tasks := fa_tasks a; fq_pairs := fa_pairs a; fq_budgets := fa_budgets a |}.

(** The two loops: all facts and all postings of the shards. *)
Definition verified_rows (prepared : PreparedCallableFactSet) : Res (list CallableFact * list CallableIndexRecord) :=
  let a := prepared_authority prepared in
  let index := prepared_query_index prepared in
  let max := bu_max_shard_bytes (fa_budgets a) in
  let? '(_, facts) := try_fold (verify_fact_shard max) (None, []) (zip (fa_fact_shards a) (prepared_fact_shards prepared)) in
  let? '(_, records) := try_fold (verify_query_shard max (fa_binding_digest a)) (None, [])
                          (zip (cqi_shards index) (prepared_query_shards prepared)) in
  Ok (facts, records).

Definition map_corrupt {A} (r : Res A) (m : string) : Res A := map_err (fun _ => ClewError_new StateCorrupt m) r.
(** What the rows must agree with. *)
Definition verify_content (prepared : PreparedCallableFactSet) (facts : list CallableFact) (records : list CallableIndexRecord) : Res unit :=
  let a := prepared_authority prepared in
  let index := prepared_query_index prepared in
  map_corrupt (reject_duplicate_declarations (declarations_of facts)) "prepared callable declarations repeat an identity" ;;?
  let? reconstructed_records := map_corrupt (build_index_records facts) "prepared callable query postings cannot be reconstructed" in
  let '(exact, family, token) := index_key_counts records in
  let payload_bindings := sort_by (cmp_on payload_order) (payload_binding_of <$> facts) in
  let visited_facts := cn_visited_input_facts (fa_counts a) in
  let visited_bytes := cn_visited_input_payload_bytes (fa_counts a) in
  if negb (bool_decide (counts_of visited_facts visited_bytes facts = fa_counts a))
     || negb (bool_decide (completeness_of facts (fa_members a) = fa_completeness a))
     || negb (bool_decide (boundary_ids facts = ev_boundary_fact_ids (prepared_evidence prepared)))
     || negb (bool_decide (reconstructed_records = records))
     || str_neqb (hash (binding_material (request_of a) visited_facts visited_bytes (fa_members a) payload_bindings)) (fa_binding_digest a)
     || negb (cqi_exact_symbol_key_count index =? exact) || negb (cqi_callable_family_key_count index =? family)
     || negb (cqi_token_key_count index =? token) || negb (cqi_posting_count index =? vlen records)
  then corrupt "prepared callable evidence/index content was substituted"
  else
  let? expected_closure := canonical_cas_closure (required_closure prepared facts) (fa_budgets a) in
  if negb (bool_decide (expected_closure = fa_direct_cas_closure a)) then corrupt "prepared callable direct CAS closure is invalid"
  else if bu_max_derived_cas_objects (fa_budgets a) <? vlen (prepared_fact_shards prepared) + vlen (prepared_query_shards prepared) + 2
  then corrupt "prepared callable derived CAS object count is invalid" else Ok tt.

Definition verify_prepared (prepared : PreparedCallableFactSet) : Res unit :=
  let a := prepared_authority prepared in
  let index := prepared_query_index prepared in
  let evidence := prepared_evidence prepared in
  verify_authority_projection a (prepared_projection prepared) ;;?
  if negb (bool_decide (value_bytes (authority_value a) = prepared_authority_bytes prepared))
     || negb (bool_decide (value_bytes (projection_value (prepared_projection prepared)) = prepared_projection_bytes prepared))
     || (bu_max_stdout_bytes (fa_budgets a) <? vlen (prepared_projection_bytes prepared) + 1)
  then corrupt "prepared callable authority or projection is inconsistent"
  else
  verify_prepared_object (prepared_query_index_object prepared) CALLABLE_QUERY_INDEX_SCHEMA (bu_max_shard_bytes (fa_budgets a)) ;;?
  verify_prepared_object (prepared_evidence_object prepared) CALLABLE_FACT_SET_EVIDENCE_SCHEMA MAX_CALLABLE_EVIDENCE_OBJECT_BYTES ;;?
  if negb (bool_decide (value_bytes (query_index_value index) = pco_bytes (prepared_query_index_object prepared)))
     || str_neqb (query_index_id index) (cqi_index_id index) || str_neqb (cqi_binding_digest index) (fa_binding_digest a)
     || negb (bool_decide (pco_reference (prepared_query_index_object prepared) = fa_query_index_ref a))
     || negb (bool_decide (value_bytes (evidence_value evidence) = pco_bytes (prepared_evidence_object prepared)))
     || negb (bool_decide (pco_reference (prepared_evidence_object prepared) = fa_evidence_ref a))
     || str_neqb (ev_binding_digest evidence) (fa_binding_digest a)
     || negb (bool_decide (ev_query_index_ref evidence = fa_query_index_ref a))
     || negb (bool_decide (ev_fact_shards evidence = fa_fact_shards a)) || negb (bool_decide (ev_counts evidence = fa_counts a))
     || negb (bool_decide (ev_completeness evidence = fa_completeness a)) || negb (bool_decide (ev_members evidence = fa_members a))
     || negb (bool_decide (cqi_fact_shards index = fa_fact_shards a))
  then corrupt "prepared callable index/evidence binding is inconsistent"
  else if negb (vlen (prepared_fact_shards prepared) =? vlen (fa_fact_shards a))
          || negb (vlen (prepared_query_shards prepared) =? vlen (cqi_shards index))
  then corrupt "prepared callable shard set is incomplete"
  else
  let? '(facts, records) := verified_rows prepared in
  verify_content prepared facts records.

(* --------------------------------------------------------------------- *)
(** ** Sealing normalized rows *)

(** What the first half of [build_with_jobs] computes. *)
Record NormalizedInput : Type := mkNormalizedInput {
  ni_request : CallableFactSetRequest;
  ni_members : list CallableMemberBinding;
  ni_payloads : list InputPayloadBinding;
  ni_visited_fact_count : N;
  ni_visited_payload_bytes : N;
  ni_compilation_refs : list CasObject;                          (* snapshot and generation of each selected compilation *)
  ni_declarations : list DeclarationFact;
  ni_uses : list UseFact;
  ni_boundaries : list BoundaryFact
}.

Definition seal_fact_set (input : NormalizedInput) : Res PreparedCallableFactSet :=
  let request := ni_request input in
  let members := ni_members input in
  let budgets := fq_budgets request in
  let visited_facts := ni_visited_fact_count input in
  let visited_bytes := ni_visited_payload_bytes input in
  let binding_digest := hash (binding_material request visited_facts visited_bytes members (ni_payloads input)) in
  let facts := (Declaration <$> ni_declarations input) ++ (Use <$> ni_uses input) ++ (Boundary <$> ni_boundaries input) in
  let counts := counts_of visited_facts visited_bytes facts in
  let completeness := completeness_of facts members in
  let facts := sort_by (cmp_on fact_id) facts in
  if windows_any (fun a b => geb (fact_id a) (fact_id b)) facts then invalid "normalized callable facts are not unique"
  else
  let? '(fact_shards, fact_shard_refs) := build_fact_shards facts budgets in
  let? index_records := build_index_records facts in
  let? '(query_shards, query_shard_refs) := build_query_shards binding_digest index_records budgets in
  let '(exact, family, token) := index_key_counts index_records in
  let unnamed := {| cqi_schema := CALLABLE_QUERY_INDEX_SCHEMA; cqi_index_id := EmptyString; cqi_binding_digest := binding_digest;
                    cqi_fact_shards := fact_shard_refs; cqi_shards := query_shard_refs; cqi_exact_symbol_key_count := exact;
                    cqi_callable_family_key_count := family; cqi_token_key_count := token; cqi_posting_count := vlen index_records |} in
  let query_index := {| cqi_schema := CALLABLE_QUERY_INDEX_SCHEMA; cqi_index_id := query_index_id unnamed;
                        cqi_binding_digest := binding_digest; cqi_fact_shards := fact_shard_refs; cqi_shards := query_shard_refs;
                        cqi_exact_symbol_key_count := exact; cqi_callable_family_key_count := family; cqi_token_key_count := token;
                        cqi_posting_count := vlen index_records |} in
  let query_index_bytes := value_bytes (query_index_value query_index) in
  let? query_index_ref := for_bytes CALLABLE_QUERY_INDEX_SCHEMA query_index_bytes in
  let evidence := {| ev_schema := CALLABLE_FACT_SET_EVIDENCE_SCHEMA; ev_binding_digest := binding_digest; ev_counts := counts;
                     ev_completeness := completeness; ev_members := members; ev_fact_shards := fact_shard_refs;
                     ev_query_index_ref := query_index_ref; ev_boundary_fact_ids := boundary_ids facts |} in
  let evidence_bytes := value_bytes (evidence_value evidence) in
  let? evidence_ref := for_bytes CALLABLE_FACT_SET_EVIDENCE_SCHEMA evidence_bytes in
  let direct_refs := ni_compilation_refs input
    ++ flat_map (fun b => ip_payload_ref b :: option_list (ip_source_ref b)) (ni_payloads input)
    ++ omap pb_dependency_evidence_ref (fq_pairs request)
    ++ (pco_reference <$> fact_shards) ++ (pco_reference <$> query_shards) ++ [query_index_ref; evidence_ref] in
  let? direct_cas_closure := canonical_cas_closure direct_refs budgets in
  if bu_max_derived_cas_objects budgets <? vlen fact_shards + vlen query_shards + 2
  then budget "callable derived CAS object count exceeds 64"
  else
  let unsigned :=
    {| fa_schema := CALLABLE_FACT_SET_SCHEMA; fa_authority_digest := EmptyString; fa_binding_digest := binding_digest;
       fa_thread_id := fq_thread_id request; fa_thread_authority_digest := fq_thread_authority_digest request;
       fa_thread_context_id := fq_thread_context_id request;
       fa_thread_context_authority_digest := fq_thread_context_authority_digest request;
       fa_profile_digest := fq_profile_digest request; fa_tasks := fq_tasks request; fa_pairs := fq_pairs request;
       fa_budgets := budgets; fa_members := members; fa_counts := counts; fa_completeness := completeness;
       fa_fact_shards := fact_shard_refs; fa_query_index_ref := query_index_ref; fa_evidence_ref := evidence_ref;
       fa_direct_cas_closure := direct_cas_closure |} in
  let authority := with_authority_digest unsigned (authority_digest unsigned) in
  let projection := projection_from_authority authority in
  let projection_bytes := value_bytes (projection_value projection) in
  if bu_max_stdout_bytes budgets <? vlen projection_bytes + 1 then budget "callable projection plus LF exceeds 64 KiB"
  else
  let prepared :=
    {| prepared_authority := authority; prepared_evidence := evidence; prepared_projection := projection;
       prepared_fact_shards := fact_shards; prepared_query_shards := query_shards; prepared_query_index := query_index;
       prepared_query_index_object := {| pco_reference := query_index_ref; pco_bytes := query_index_bytes |};
       prepared_evidence_object := {| pco_reference := evidence_ref; pco_bytes := evidence_bytes |};
       prepared_authority_bytes := value_bytes (authority_value authority); prepared_projection_bytes := projection_bytes |} in
  verify_prepared prepared ;;? Ok prepared.
End Build.
