(* ===== verification/CallableCodec.v ===== *)
(** * Query shards read back

    The canonical document of a shard of postings reads as that shard: the order of
    fields and the absent options of the derived serialization are undone by the
    derived deserializer. *)

From S2P Require Import Prelude Order Collections Text Json Canonical JsonFormat Errors CasObject CatalogCodec ThreadCallables QueryTerms CallableIndex.

(** Positions are unsigned 64-bit integers. *)
Definition position_typed (o : option N) : Prop := match o with Some n => n <= u64_max | None => True end.
Definition posting_typed (p : CallablePosting) : Prop := position_typed (po_source_start p) /\ position_typed (po_source_end p).
Definition shard_typed (s : CallableQueryShard) : Prop :=
  cqs_sequence s <= u32_max /\ Forall (fun r => posting_typed (ir_posting r)) (cqs_records s).

Lemma texts_sorted l : sort_value (strings_value l) = strings_value l.
Proof. unfold strings_value. cbn [sort_value]. f_equal. induction l as [|s l IH]; [done|]. cbn. by rewrite IH. Qed.
Lemma texts_decoded l : decode_strings (strings_value l) = Some l.
Proof. apply (decode_list_fmap decode_string JString). by apply list.Forall_forall. Qed.
Lemma shallow_texts n l : shallow (n + 1) (strings_value l).
Proof. apply shallow_array. apply list.Forall_fmap. apply list.Forall_forall. intros s _. apply shallow_string. Qed.

(** The fields of a document in alphabetical order. *)
Definition sorted_key (k : CallableIndexKey) : Value := index_key_value k.
Definition sorted_posting (p : CallablePosting) : Value :=
  JObject (optional_field "callableId" JString (po_callable_id p)
    ++ [("exactEligible", JBool (po_exact_eligible p)); ("factId", JString (po_fact_id p));
        ("factKind", JString (fact_kind_name (po_fact_kind p))); ("memberAlias", JString (po_member_alias p));
        ("repositoryNamespace", JString (po_repository_namespace p))]
    ++ optional_field "sourceEnd" natural (po_source_end p) ++ optional_field "sourcePath" JString (po_source_path p)
    ++ optional_field "sourceStart" natural (po_source_start p) ++ optional_field "symbolIdentity" JString (po_symbol_identity p)
    ++ [("uncertaintyReasons", strings_value (po_uncertainty_reasons p))]).
Definition sorted_record (r : CallableIndexRecord) : Value :=
  JObject [("key", index_key_value (ir_key r)); ("posting", sorted_posting (ir_posting r))].
Definition sorted_query_shard (s : CallableQueryShard) : Value :=
  JObject [("bindingDigest", JString (cqs_binding_digest s)); ("firstKey", index_key_value (cqs_first_key s));
           ("lastKey", index_key_value (cqs_last_key s)); ("records", JArray (sorted_record <$> cqs_records s));
           ("schema", JString (cqs_schema s)); ("sequence", natural (cqs_sequence s))].

Lemma key_sorted k : sort_value (index_key_value k) = index_key_value k.
Proof. destruct k as [kind [n|] v]; reflexivity. Qed.
Lemma callable_posting_sorted p : sort_value (posting_value p) = sorted_posting p.
Proof.
  destruct p as [i k m n [y|] [c|] [f|] [s|] [e|] x u]; unfold posting_value, sorted_posting; cbn -[strings_value]; by rewrite texts_sorted.
Qed.
Lemma record_sorted r : sort_value (index_record_value r) = sorted_record r.
Proof. unfold index_record_value, sorted_record. cbn -[index_key_value posting_value]. by rewrite key_sorted, callable_posting_sorted. Qed.
Lemma records_sorted l : map sort_value (index_record_value <$> l) = sorted_record <$> l.
Proof. induction l as [|r l IH]; [done|]. cbn [fmap list_fmap map]. by rewrite IH, record_sorted. Qed.
Lemma callable_shard_sorted s : sort_value (query_shard_value s) = sorted_query_shard s.
Proof.
  unfold sorted_query_shard. rewrite <- records_sorted, <- (key_sorted (cqs_first_key s)), <- (key_sorted (cqs_last_key s)). reflexivity.
Qed.

Lemma key_decoded k : decode_index_key (index_key_value k) = Some k.
Proof. destruct k as [[] [n|] v]; reflexivity. Qed.
Lemma posting_decoded p : posting_typed p -> decode_posting (sorted_posting p) = Some p.
Proof.
  destruct p as [i k m n y c f s e x u]. intros [Hs He]. cbn in Hs, He.
  assert (decode_required (decode_variant fact_kind_name [FDeclaration; FUse; FBoundary]) (Some (JString (fact_kind_name k))) = Some k) as Hk
    by (by destruct k).
  destruct y as [y|], c as [c|], f as [f|], s as [s|], e as [e|]; unfold decode_posting, sorted_posting;
    cbn -[strings_value decode_strings decode_u64 decode_variant]; cbn -[strings_value decode_strings decode_u64 decode_variant] in Hk;
    rewrite Hk; cbn -[strings_value decode_strings decode_u64]; unfold natural; rewrite ?decode_u64_natural by done; cbn -[strings_value decode_strings decode_u64];
    rewrite ?decode_u64_natural by done; rewrite texts_decoded; reflexivity.
Qed.
Lemma record_decoded r : posting_typed (ir_posting r) -> decode_index_record (sorted_record r) = Some r.
Proof.
  intros Hp. unfold decode_index_record, sorted_record. cbn -[decode_index_key decode_posting index_key_value sorted_posting].
  rewrite key_decoded. cbn -[decode_posting sorted_posting]. rewrite posting_decoded by done. by destruct r.
Qed.
Lemma query_shard_decoded s : shard_typed s -> decode_query_shard (sorted_query_shard s) = Some s.
Proof.
  intros [Hn Hr]. unfold decode_query_shard, sorted_query_shard.
  cbn -[decode_index_key decode_vec index_key_value sorted_record decode_u32 natural]. unfold natural. rewrite decode_u32_natural by done.
  cbn -[decode_index_key decode_vec index_key_value sorted_record]. rewrite !key_decoded. cbn -[decode_vec sorted_record].
  unfold decode_vec. rewrite (decode_list_fmap decode_index_record sorted_record); [by destruct s|].
  eapply list.Forall_impl; [exact Hr|]. intros r. apply record_decoded.
Qed.

Lemma shallow_optional n {A} k (encode : A -> Value) o : (forall a, o = Some a -> shallow n (encode a)) ->
  Forall (fun e => shallow n e.2) (optional_field k encode o).
Proof. intros H. destruct o as [a|]; [|constructor]. repeat constructor; by apply H. Qed.
Lemma shallow_key k : shallow 1 (index_key_value k).
Proof.
  apply (shallow_object 0). repeat (apply Forall_app; split); try apply shallow_optional; shallow_fields; by intros.
Qed.
Lemma shallow_posting p : posting_typed p -> shallow 2 (sorted_posting p).
Proof.
  intros [Hs He]. apply (shallow_object 1). repeat (apply Forall_app; split); try apply shallow_optional; shallow_fields.
  - by split; [|cbn; lia].
  - intros n Hn. apply shallow_natural. by rewrite Hn in He.
  - intros n Hn. apply shallow_natural. by rewrite Hn in Hs.
  - apply (shallow_texts 0).
Qed.
Lemma shallow_query_shard s : shard_typed s -> shallow 5 (sorted_query_shard s).
Proof.
  intros [Hn Hr]. apply (shallow_object 4). shallow_fields.
  - apply (shallow_mono 1); [lia|apply shallow_key].
  - apply (shallow_mono 1); [lia|apply shallow_key].
  - apply (shallow_array 3). apply list.Forall_fmap. eapply list.Forall_impl; [exact Hr|]. intros r Hp. apply (shallow_object 2).
    cbn beta. shallow_fields; [apply (shallow_mono 1); [lia|apply shallow_key]|by apply shallow_posting].
  - apply shallow_natural. unfold u32_max, u64_max in *. lia.
Qed.

Lemma query_shard_read {P : Primitives} {R : JsonReader} {RL : ReaderLaws P R} s : shard_typed s ->
  from_slice decode_query_shard (value_bytes (query_shard_value s)) = Some s.
Proof.
  intros Hs. unfold value_bytes. rewrite callable_shard_sorted.
  apply (from_slice_written _ _ _ 5); [by apply shallow_query_shard|done|by apply query_shard_decoded].
Qed.
