(* ===== verification/CallablePacking.v ===== *)
(** * Cutting the postings into shards (thread_callables.rs: build_query_shards)

    The size of a shard is computed before it is encoded.  The computation is exact,
    so cutting never fails on a shard that it predicted to fit, and every index whose
    postings fit one by one is cut into bounded shards that hold it in order. *)

From S2P Require Import Prelude Order Collections Text Json Canonical JsonFormat Errors CasObject CatalogCodec ThreadCallables QueryTerms CallableIndex CallableCodec.

(* --------------------------------------------------------------------- *)
(** ** The generic loop *)

Section Packing.
Context {A Ref : Type} (encoded_len : A -> N) (shard_len : N -> A -> A -> N -> N -> Res N)
  (publish : N -> list A -> list PreparedCasObject * list Ref -> Res (list PreparedCasObject * list Ref))
  (max : N) (m1 m2 m3 : string) (object_of : N -> list A -> PreparedCasObject) (reference_of : N -> list A -> Ref)
  (fits : N -> list A -> Prop).
Notation step := (pack_step encoded_len shard_len publish max m1 m2 m3).

Hypothesis publish_ok : forall sequence rows out out', publish sequence rows out = Ok out' ->
  out' = (out.1 ++ [object_of sequence rows], out.2 ++ [reference_of sequence rows]) /\ rows <> [] /\ fits sequence rows.

(** The shards cut so far and the rows that wait for one. *)
Record packed (rows : list A) (chunks : list (N * list A)) (st : Packing (A := A) (Ref := Ref)) : Prop := mkPacked {
  pd_rows : rows = concat chunks.*2 ++ pk_pending st;
  pd_out : pk_out st = ((fun c => object_of c.1 c.2) <$> chunks, (fun c => reference_of c.1 c.2) <$> chunks);
  pd_sequence : pk_sequence st = vlen chunks /\ vlen chunks <= u32_max;
  pd_numbers : forall i c, chunks !! i = Some c -> c.1 = N.of_nat i;
  pd_chunks : Forall (fun c => c.2 <> [] /\ fits c.1 c.2) chunks
}.

Lemma published_packed rows chunks st out : packed rows chunks st -> publish (pk_sequence st) (pk_pending st) (pk_out st) = Ok out ->
  out = ((fun c => object_of c.1 c.2) <$> (chunks ++ [(pk_sequence st, pk_pending st)]),
         (fun c => reference_of c.1 c.2) <$> (chunks ++ [(pk_sequence st, pk_pending st)])) /\
  rows = concat (chunks ++ [(pk_sequence st, pk_pending st)]).*2 /\
  (forall i c, (chunks ++ [(pk_sequence st, pk_pending st)]) !! i = Some c -> c.1 = N.of_nat i) /\
  Forall (fun c => c.2 <> [] /\ fits c.1 c.2) (chunks ++ [(pk_sequence st, pk_pending st)]).
Proof.
  intros [Hr Ho [Hs Hle] Hn Hc] H. apply publish_ok in H as (-> & Hne & Hf). rewrite Ho. cbn [fst snd].
  split_and!.
  - by rewrite !fmap_app.
  - rewrite fmap_app, concat_app. cbn. by rewrite app_nil_r.
  - intros i c [Hi|[Hi Hi']]%lookup_app_Some; [by apply Hn|]. apply list_lookup_singleton_Some in Hi' as [Hz <-]. cbn. rewrite Hs. unfold vlen. lia.
  - apply Forall_app. split; [done|]. by repeat constructor.
Qed.

Lemma step_packed rows chunks st row st' : packed rows chunks st -> step st row = Ok st' ->
  exists chunks', packed (rows ++ [row]) chunks' st'.
Proof.
  intros Hp H. unfold pack_step in H. apply result_bind_ok in H as (candidate & _ & H). apply result_bind_ok in H as (len & _ & H).
  destruct (len <=? max).
  - injection H as <-. exists chunks. destruct Hp as [Hr Ho Hs Hn Hc]. split; cbn; [by rewrite Hr, app_assoc|done..].
  - destruct (pk_pending st) as [|p ps] eqn:Hpend; [done|]. rewrite <- Hpend in H. apply result_bind_ok in H as (out & Hout & H).
    apply result_bind_ok in H as (sequence & Hseq & H). apply result_bind_ok in H as (len' & _ & H). destruct (max <? len'); [done|].
    injection H as <-. destruct (published_packed _ _ _ _ Hp Hout) as (-> & Hrows & Hnum & Hch). exists (chunks ++ [(pk_sequence st, pk_pending st)]).
    destruct (u32_checked_add (pk_sequence st) 1) as [s|] eqn:Hadd; [|done]. injection Hseq as <-.
    apply u32_checked_add_some in Hadd as [-> Hle]. destruct (pd_sequence _ _ _ Hp) as [Hs _].
    split; cbn; [by rewrite <- Hrows|done| |done|done]. rewrite vlen_app, vlen_cons, vlen_nil. lia.
Qed.

Lemma pack_ok rows out : pack encoded_len shard_len publish max m1 m2 m3 rows = Ok out ->
  exists chunks, out = ((fun c => object_of c.1 c.2) <$> chunks, (fun c => reference_of c.1 c.2) <$> chunks) /\ rows = concat chunks.*2 /\
    (forall i c, chunks !! i = Some c -> c.1 = N.of_nat i) /\ Forall (fun c => c.2 <> [] /\ fits c.1 c.2) chunks /\
    vlen chunks <= u32_max + 1.
Proof.
  intros H. unfold pack in H. apply result_bind_ok in H as (st & Hst & H).
  assert (exists chunks, packed rows chunks st) as [chunks Hp].
  { pose proof (try_fold_inv step (fun pre st => exists chunks, packed pre chunks st) rows
      {| pk_pending := []; pk_encoded_rows := 0; pk_sequence := 0; pk_out := ([], []) |} st []) as Hinv. apply Hinv; [|  |done].
    - exists []. by split.
    - intros pre a s s' [chunks Hp] Hs. by eapply step_packed. }
  destruct (pk_pending st) as [|p ps] eqn:Hpend.
  - injection H as <-. exists chunks. destruct Hp as [Hr Ho [_ Hs] Hn Hc]. rewrite Hpend, app_nil_r in Hr. split_and!; [done..|lia].
  - rewrite <- Hpend in H. destruct (published_packed _ _ _ _ Hp H) as (-> & Hrows & Hnum & Hch).
    exists (chunks ++ [(pk_sequence st, pk_pending st)]). split_and!; [done..|]. destruct (pd_sequence _ _ _ Hp) as [_ Hs].
    rewrite vlen_app, vlen_cons, vlen_nil. lia.
Qed.
End Packing.

Section Total.
Context {A Ref : Type} (encoded_len : A -> N) (shard_len : N -> A -> A -> N -> N -> Res N)
  (publish : N -> list A -> list PreparedCasObject * list Ref -> Res (list PreparedCasObject * list Ref))
  (max : N) (m1 m2 m3 : string) (all : list A).
Notation step := (pack_step encoded_len shard_len publish max m1 m2 m3).

Definition total (l : list A) : N := foldr (fun a n => encoded_len a + n) 0 l.
Lemma total_app l k : total (l ++ k) = total l + total k.
Proof. induction l as [|a l IH]; [done|]. cbn [app total foldr] in *. fold (total (l ++ k)). fold (total l). rewrite IH. lia. Qed.

(** What is known of the sizes. *)
Record sizes : Prop := mkSizes {
  sz_alone : forall row sequence, row ∈ all -> sequence <= vlen all -> exists k, shard_len sequence row row (encoded_len row) 1 = Ok k /\ k <= max;
  sz_defined : forall sequence a b rows n, a ∈ all -> b ∈ all -> sequence <= vlen all -> rows <= max + max -> n <= vlen all ->
    exists k, shard_len sequence a b rows n = Ok k;
  sz_rows : forall sequence a b rows n k, shard_len sequence a b rows n = Ok k -> rows <= k;
  sz_publish : forall sequence a rest out k, sequence <= vlen all ->
    shard_len sequence a (List.last rest a) (total (a :: rest)) (vlen (a :: rest)) = Ok k -> k <= max ->
    exists out', publish sequence (a :: rest) out = Ok out';
  sz_max : max + max <= u64_max;
  sz_count : vlen all <= u32_max
}.
Hypothesis Hsizes : sizes.

Record pending_ok (pre : list A) (st : Packing (A := A) (Ref := Ref)) : Prop := mkPendingOk {
  po_rows : pk_encoded_rows st = total (pk_pending st);
  po_in : forall a, a ∈ pk_pending st -> a ∈ all;
  po_room : pk_sequence st + vlen (pk_pending st) <= vlen pre;
  po_fits : match pk_pending st with
            | [] => True
            | a :: rest => exists k, shard_len (pk_sequence st) a (List.last rest a) (pk_encoded_rows st) (vlen (a :: rest)) = Ok k /\ k <= max
            end
}.

Lemma last_snoc_hd (l : list A) row : List.last (match l with [] => [] | _ :: rest => rest ++ [row] end) (hd row l) = row.
Proof. destruct l as [|a l]; [done|]. apply List.last_last. Qed.

Lemma row_small row : row ∈ all -> encoded_len row <= max.
Proof. intros Hr. destruct (sz_alone Hsizes row 0 Hr) as (k & Hk & Hle); [lia|]. apply (sz_rows Hsizes) in Hk. lia. Qed.

Lemma pending_small pre st : pending_ok pre st -> pk_encoded_rows st <= max.
Proof.
  intros [Hr Hin Hroom Hf]. destruct (pk_pending st) as [|a rest]; [rewrite Hr; cbn; lia|]. destruct Hf as (k & Hk & Hle).
  apply (sz_rows Hsizes) in Hk. lia.
Qed.

Lemma step_total pre row st : pending_ok pre st -> row ∈ all -> vlen pre < vlen all ->
  exists st', step st row = Ok st' /\ pending_ok (pre ++ [row]) st'.
Proof.
  intros Hp Hrow Hlen. pose proof (pending_small _ _ Hp) as Hsmall. pose proof (row_small row Hrow) as Hr. pose proof (sz_max Hsizes) as Hmax.
  destruct Hp as [Hrows Hin Hroom Hf]. unfold pack_step.
  assert (u64_checked_add (pk_encoded_rows st) (encoded_len row) = Some (pk_encoded_rows st + encoded_len row)) as ->.
  { apply u64_checked_add_some. split; [done|lia]. }
  cbn [ok_or result_bind].
  destruct (sz_defined Hsizes (pk_sequence st) (hd row (pk_pending st)) row (pk_encoded_rows st + encoded_len row) (vlen (pk_pending st) + 1))
    as (k & Hk); [|done|lia|lia|lia|].
  { destruct (pk_pending st); [done|]. apply Hin. by left. }
  rewrite Hk. cbn [result_bind]. destruct (N.leb_spec k max) as [Hle|Hgt].
  - eexists. split; [done|]. split; cbn.
    + rewrite total_app, Hrows. cbn. lia.
    + intros a [?|Ha]%elem_of_app; [by apply Hin|]. by apply list_elem_of_singleton in Ha as ->.
    + rewrite !vlen_app, vlen_cons, vlen_nil. lia.
    + pose proof (last_snoc_hd (pk_pending st) row) as Hlast. destruct (pk_pending st) as [|a rest]; cbn in Hlast |- *.
      * exists k. split; [|done]. rewrite !vlen_nil in Hk. rewrite vlen_cons, vlen_nil. done.
      * exists k. split; [|done]. rewrite Hlast. rewrite vlen_cons, vlen_app, vlen_cons, vlen_nil. rewrite vlen_cons in Hk. done.
  - destruct (pk_pending st) as [|a rest] eqn:Hpend.
    + exfalso. destruct (sz_alone Hsizes row (pk_sequence st) Hrow) as (k' & Hk' & Hle); [lia|]. rewrite Hrows in Hk.
      change (shard_len (pk_sequence st) row row (encoded_len row) 1 = Ok k) in Hk. assert (k = k') as -> by congruence. lia.
    + destruct Hf as (k' & Hk' & Hle'). rewrite Hrows in Hk'.
      destruct (sz_publish Hsizes (pk_sequence st) a rest (pk_out st) k') as (out & Hout); [lia|done|done|]. rewrite Hout. cbn [result_bind].
      pose proof (sz_count Hsizes). rewrite vlen_cons in Hroom.
      assert (u32_checked_add (pk_sequence st) 1 = Some (pk_sequence st + 1)) as ->.
      { apply u32_checked_add_some. split; [done|lia]. }
      cbn [ok_or result_bind]. destruct (sz_alone Hsizes row (pk_sequence st + 1) Hrow) as (k2 & Hk2 & Hle2); [lia|].
      rewrite Hk2. cbn [result_bind]. rewrite (proj2 (N.ltb_ge max k2)) by done. eexists. split; [done|]. split; cbn.
      * lia.
      * intros b Hb. by apply list_elem_of_singleton in Hb as ->.
      * rewrite vlen_app, !vlen_cons, vlen_nil. lia.
      * exists k2. rewrite vlen_cons, vlen_nil. done.
Qed.

Lemma pack_total : exists out, pack encoded_len shard_len publish max m1 m2 m3 all = Ok out.
Proof.
  assert (forall rows pre st, all = pre ++ rows -> pending_ok pre st -> exists st', try_fold step st rows = Ok st' /\ pending_ok all st') as Hgen.
  { induction rows as [|row rows IH]; intros pre st He Hp.
    - exists st. rewrite app_nil_r in He. subst pre. done.
    - destruct (step_total pre row st Hp) as (st1 & H1 & Hp1); [rewrite He; set_solver|rewrite He, vlen_app, vlen_cons; lia|].
      cbn [try_fold]. rewrite H1. cbn [result_bind]. apply (IH (pre ++ [row])); [|done]. by rewrite <- app_assoc. }
  destruct (Hgen all [] {| pk_pending := []; pk_encoded_rows := 0; pk_sequence := 0; pk_out := ([], []) |} eq_refl) as (st & Hst & [Hr _ Hroom Hf]).
  { split; cbn; [done| |done|done]. by intros a ?%not_elem_of_nil. }
  unfold pack. rewrite Hst. cbn [result_bind]. destruct (pk_pending st) as [|a rest] eqn:Hpend; [by eexists|].
  destruct Hf as (k & Hk & Hle). rewrite Hr in Hk. apply (sz_publish Hsizes (pk_sequence st) a rest (pk_out st) k); [lia|done|done].
Qed.
End Total.

(* --------------------------------------------------------------------- *)
(** ** Sizes of encoded objects *)

Definition literal (s : string) : Prop := str_all literal_byte s = true.

Lemma encoded_string_ok s n : encoded_ascii_string_len s = Ok n <-> literal s /\ n = str_len s + 2 /\ n <= u64_max.
Proof.
  unfold encoded_ascii_string_len, literal. destruct (str_all literal_byte s); cbn [negb]; [|unfold invalid; naive_solver].
  destruct (u64_checked_add (str_len s) 2) as [m|] eqn:E; cbn [ok_or].
  - apply u64_checked_add_some in E as [-> Hle]. split; [intros [= <-]; done|]. by intros (_ & -> & _).
  - split; [done|]. intros (_ & -> & Hle). assert (u64_checked_add (str_len s) 2 = Some (str_len s + 2)) by (by apply u64_checked_add_some). congruence.
Qed.
Lemma encoded_array_ok items count n : encoded_array_len items count = Ok n <-> n = items + 2 + (count - 1) /\ n <= u64_max.
Proof.
  unfold encoded_array_len. destruct (u64_checked_add items 2) as [m|] eqn:E.
  - apply u64_checked_add_some in E as [-> Hle]. destruct (u64_checked_add (items + 2) (count - 1)) as [m|] eqn:E2; cbn [ok_or].
    + apply u64_checked_add_some in E2 as [-> Hle2]. split; [intros [= <-]; done|]. by intros [-> _].
    + split; [done|]. intros [-> Hle2].
      assert (u64_checked_add (items + 2) (count - 1) = Some (items + 2 + (count - 1))) by (by apply u64_checked_add_some). congruence.
  - cbn [ok_or]. split; [done|]. intros [-> Hle]. assert (u64_checked_add items 2 = Some (items + 2)) by (apply u64_checked_add_some; lia). congruence.
Qed.

Definition field_size (index : N) (field : string * N) : N := (if 0 <? index then 1 else 0) + (str_len field.1 + 2) + 1 + field.2.
Fixpoint fields_size (index : N) (fields : list (string * N)) : N :=
  match fields with [] => 0 | field :: rest => field_size index field + fields_size (index + 1) rest end.

Lemma checked a b : a + b <= u64_max -> u64_checked_add a b = Some (a + b).
Proof. intros H. by apply u64_checked_add_some. Qed.

Lemma add_field_ok index len field st : add_field (index, len) field = Ok st <->
  literal field.1 /\ st = (index + 1, len + field_size index field) /\ len + field_size index field <= u64_max.
Proof.
  unfold add_field, field_size. set (comma := if 0 <? index then 1 else 0). split.
  - intros H. apply result_bind_ok in H as (kl & (Hl & -> & _)%encoded_string_ok & H).
    apply result_bind_ok in H as (l & H1%ok_or_some & [= <-]).
    destruct (u64_checked_add len comma) as [a|] eqn:E1; [|done]. cbn in H1.
    destruct (u64_checked_add a (str_len field.1 + 2)) as [b|] eqn:E2; [|done]. cbn in H1.
    destruct (u64_checked_add b 1) as [c|] eqn:E3; [|done]. cbn in H1.
    apply u64_checked_add_some in E1 as [-> _], E2 as [-> _], E3 as [-> _], H1 as [-> Hle].
    split_and!; [done|f_equal; lia|lia].
  - intros (Hl & -> & Hle). rewrite (proj2 (encoded_string_ok field.1 (str_len field.1 + 2))) by (split_and!; [done|done|lia]).
    cbn [result_bind]. rewrite checked by lia. cbn. rewrite checked by lia. cbn. rewrite checked by lia. cbn. rewrite checked by lia. cbn.
    do 2 f_equal. lia.
Qed.

Lemma add_fields_ok fields : forall index len st, try_fold add_field (index, len) fields = Ok st <->
  Forall (fun f => literal f.1) fields /\ st = (index + vlen fields, len + fields_size index fields) /\
  (fields = [] \/ len + fields_size index fields <= u64_max).
Proof.
  induction fields as [|f fields IH]; intros index len st; cbn [try_fold fields_size].
  - rewrite vlen_nil, !N.add_0_r. split; [intros [= <-]; split_and!; [constructor|done|by left]|]. by intros (_ & -> & _).
  - rewrite result_bind_ok, list.Forall_cons, vlen_cons, N.add_assoc. split.
    + intros (st1 & (Hl & -> & Hle)%add_field_ok & (Hls & -> & Hle2)%IH). split_and!; [done|done|f_equal; lia|right].
      destruct Hle2 as [->|?]; [cbn; lia|lia].
    + intros ((Hl & Hls) & -> & [?|Hle]); [done|]. exists (index + 1, len + field_size index f). split.
      * apply add_field_ok. split_and!; [done|done|lia].
      * apply IH. split_and!; [done|f_equal; lia|right; lia].
Qed.

Lemma closed_object_ok fields n : encoded_closed_object_len fields = Ok n <->
  Forall (fun f => literal f.1) fields /\ n = 2 + fields_size 0 fields /\ (fields = [] \/ 2 + fields_size 0 fields <= u64_max).
Proof.
  unfold encoded_closed_object_len. rewrite result_bind_ok. split.
  - intros ([i l] & (Hl & [= -> ->] & Hle)%add_fields_ok & [= <-]). done.
  - intros (Hl & -> & Hle). eexists. split; [by apply add_fields_ok|done].
Qed.

(** The size of a query shard, when it does not overflow. *)
Definition query_shard_size (binding_digest : string) (sequence first_key_len last_key_len encoded_rows row_count : N) : N :=
  2 + fields_size 0 [("bindingDigest", str_len binding_digest + 2); ("firstKey", first_key_len); ("lastKey", last_key_len);
                     ("records", encoded_rows + 2 + (row_count - 1)); ("schema", str_len CALLABLE_QUERY_SHARD_SCHEMA + 2);
                     ("sequence", str_len (decimal sequence))].

Lemma query_shard_len_ok bd sequence fk lk rows n k : encoded_query_shard_len bd sequence fk lk rows n = Ok k <->
  literal bd /\ k = query_shard_size bd sequence fk lk rows n /\ query_shard_size bd sequence fk lk rows n <= u64_max.
Proof.
  assert (literal CALLABLE_QUERY_SHARD_SCHEMA) as Hlit by reflexivity.
  unfold encoded_query_shard_len, query_shard_size. split.
  - intros H. apply result_bind_ok in H as (b & (Hb & -> & _)%encoded_string_ok & H). apply result_bind_ok in H as (r & (-> & _)%encoded_array_ok & H).
    apply result_bind_ok in H as (s & (_ & -> & _)%encoded_string_ok & H). apply closed_object_ok in H as (_ & -> & [?|Hle]); [done|]. done.
  - intros (Hb & -> & Hle). pose proof Hle as Hle'. cbn [fields_size field_size fst snd] in Hle'. unfold field_size in Hle'. cbn [fst snd] in Hle'.
    rewrite (proj2 (encoded_string_ok bd (str_len bd + 2))) by (split_and!; [done|done|lia]). cbn [result_bind].
    rewrite (proj2 (encoded_array_ok rows n (rows + 2 + (n - 1)))) by (split_and!; [done|lia]). cbn [result_bind].
    rewrite (proj2 (encoded_string_ok CALLABLE_QUERY_SHARD_SCHEMA (str_len CALLABLE_QUERY_SHARD_SCHEMA + 2)))
      by (split_and!; [done|done|lia]). cbn [result_bind].
    apply closed_object_ok. split_and!; [by repeat constructor|done|by right].
Qed.

Lemma literal_plain s : literal s -> str_all plain_byte s = true.
Proof.
  unfold literal. apply str_all_impl. intros a. unfold literal_byte, plain_byte, is_ascii_control, ascii_between.
  rewrite !andb_true_iff, !negb_true_iff, !orb_false_iff, !andb_false_iff, !N.leb_gt, !N.leb_le, N.ltb_lt.
  intros ((Hlt & Hc & Hd) & Hq & Hb). split_and!; [lia|lia|done|done].
Qed.

(* --------------------------------------------------------------------- *)
(** ** The shards of postings *)

Section QueryShards.
Context {P : Primitives} {R : JsonReader} {U : Unicode} {W : WriterLaws P}.

Definition query_shard_of (binding_digest : string) (sequence : N) (rows : list CallableIndexRecord) : CallableQueryShard :=
  let no_key := {| ik_kind := KToken; ik_repository_namespace := None; ik_value := "" |} in
  {| cqs_schema := CALLABLE_QUERY_SHARD_SCHEMA; cqs_binding_digest := binding_digest; cqs_sequence := sequence;
     cqs_first_key := match rows with first :: _ => ir_key first | [] => no_key end;
     cqs_last_key := match rows with first :: rest => ir_key (List.last rest first) | [] => no_key end; cqs_records := rows |}.
Definition query_object_of (binding_digest : string) (sequence : N) (rows : list CallableIndexRecord) : PreparedCasObject :=
  let bytes := value_bytes (query_shard_value (query_shard_of binding_digest sequence rows)) in
  {| pco_reference := {| schema := CAS_OBJECT_SCHEMA; object_schema := CALLABLE_QUERY_SHARD_SCHEMA;
                         digest := object_digest CALLABLE_QUERY_SHARD_SCHEMA bytes; size := vlen bytes |}; pco_bytes := bytes |}.
Definition query_reference_of (binding_digest : string) (sequence : N) (rows : list CallableIndexRecord) : CallableQueryShardReference :=
  let shard := query_shard_of binding_digest sequence rows in
  {| csr_sequence := sequence; csr_first_key := cqs_first_key shard; csr_last_key := cqs_last_key shard;
     csr_object := pco_reference (query_object_of binding_digest sequence rows) |}.

Lemma query_schema_valid : validate_object_schema CALLABLE_QUERY_SHARD_SCHEMA = Ok tt.
Proof. reflexivity. Qed.

Lemma publish_query_ok binding_digest max sequence rows out out' : publish_prepared_query_shard binding_digest max sequence rows out = Ok out' <->
  out' = (out.1 ++ [query_object_of binding_digest sequence rows], out.2 ++ [query_reference_of binding_digest sequence rows]) /\
  rows <> [] /\ vlen (pco_bytes (query_object_of binding_digest sequence rows)) <= max.
Proof.
  unfold publish_prepared_query_shard. destruct rows as [|first rest]; [split; [done|naive_solver]|]. cbn [callable_query_shard result_bind].
  change {| cqs_schema := _; cqs_binding_digest := _; cqs_sequence := _; cqs_first_key := _; cqs_last_key := _; cqs_records := _ |}
    with (query_shard_of binding_digest sequence (first :: rest)). cbn [query_object_of pco_bytes].
  set (bytes := value_bytes (query_shard_value (query_shard_of binding_digest sequence (first :: rest)))).
  destruct (N.ltb_spec max (vlen bytes)) as [Hlt|Hle].
  - split; [done|]. intros (_ & _ & Hle). lia.
  - assert (for_bytes CALLABLE_QUERY_SHARD_SCHEMA bytes = Ok (pco_reference (query_object_of binding_digest sequence (first :: rest)))) as ->.
    { apply for_bytes_ok. split; [apply query_schema_valid|done]. }
    cbn [result_bind]. split; [by intros [= <-]|]. by intros (-> & _).
Qed.

Lemma records_bytes_len l : total_len (to_vec <$> (sorted_record <$> l)) = total record_len l.
Proof.
  induction l as [|r l IH]; [done|]. rewrite !fmap_cons. cbn [total_len total foldr]. fold (total_len (to_vec <$> (sorted_record <$> l))).
  fold (total record_len l). rewrite IH. f_equal. unfold record_len, value_bytes. by rewrite record_sorted.
Qed.

(** The computed size is the size of the document. *)
Lemma query_shard_bytes_len bd sequence first rest : literal bd -> sequence <= u32_max ->
  vlen (pco_bytes (query_object_of bd sequence (first :: rest))) =
  query_shard_size bd sequence (key_len first) (key_len (List.last rest first)) (total record_len (first :: rest)) (vlen (first :: rest)).
Proof.
  intros Hb%literal_plain Hn. cbn [query_object_of pco_bytes]. unfold value_bytes. rewrite callable_shard_sorted. unfold sorted_query_shard. rewrite to_vec_object.
  unfold query_shard_of, natural. cbn [cqs_schema cqs_binding_digest cqs_sequence cqs_first_key cqs_last_key cqs_records].
  unfold key_len, value_bytes. rewrite !key_sorted. generalize (index_key_value (ir_key first)), (index_key_value (ir_key (List.last rest first))).
  intros fk lk. generalize (first :: rest). clear first rest. intros l.
  rewrite !vlen_app, join_bytes_len, !fmap_cons, fmap_nil. unfold total_len at 1. cbn [foldr].
  cbn [fst snd]. rewrite !vlen_app, (plain_len "bindingDigest"), (plain_len "firstKey"), (plain_len "lastKey"), (plain_len "records"),
    (plain_len "schema"), (plain_len "sequence"), (plain_len CALLABLE_QUERY_SHARD_SCHEMA), (plain_len bd) by (reflexivity || done).
  rewrite to_vec_array, !vlen_app, join_bytes_len, records_bytes_len, to_vec_natural by (unfold u32_max, u64_max in *; lia).
  assert (vlen (to_vec <$> (sorted_record <$> l)) = vlen l) as -> by (unfold vlen; by rewrite !length_fmap).
  rewrite !as_bytes_len. unfold query_shard_size, fields_size, field_size. cbn [fst snd].
  change (0 <? 0) with false. change (0 <? 0 + 1) with true. change (0 <? 0 + 1 + 1) with true. change (0 <? 0 + 1 + 1 + 1) with true.
  change (0 <? 0 + 1 + 1 + 1 + 1) with true. change (0 <? 0 + 1 + 1 + 1 + 1 + 1) with true. cbv iota.
  change (str_len "{") with 1. change (str_len ":") with 1. change (str_len ",") with 1. change (str_len "[") with 1.
  change (str_len "]") with 1. change (str_len "}") with 1.
  rewrite !vlen_cons. change (vlen (@nil (list byte))) with 0. lia.
Qed.

(** [chunks] cut the postings, and these are their documents and references. *)
Record cut (binding_digest : string) (max : N) (records : list CallableIndexRecord) (chunks : list (N * list CallableIndexRecord))
    (out : list PreparedCasObject * list CallableQueryShardReference) : Prop := mkCut {
  ct_objects : out.1 = (fun c => query_object_of binding_digest c.1 c.2) <$> chunks;
  ct_references : out.2 = (fun c => query_reference_of binding_digest c.1 c.2) <$> chunks;
  ct_records : records = concat chunks.*2;
  ct_numbers : forall i c, chunks !! i = Some c -> c.1 = N.of_nat i;
  ct_chunks : Forall (fun c => c.2 <> [] /\ vlen (pco_bytes (query_object_of binding_digest c.1 c.2)) <= max) chunks;
  ct_sequence : forall c, c ∈ chunks -> c.1 <= u32_max
}.

Lemma build_query_shards_ok bd records budgets out : build_query_shards bd records budgets = Ok out ->
  exists chunks, cut bd (bu_max_shard_bytes budgets) records chunks out.
Proof.
  unfold build_query_shards. destruct records as [|r rs]; [done|]. intros H.
  eapply (pack_ok _ _ _ _ _ _ _ (query_object_of bd) (query_reference_of bd)
    (fun n l => vlen (pco_bytes (query_object_of bd n l)) <= bu_max_shard_bytes budgets)) in H as (chunks & -> & Hrec & Hn & Hc & Hlen).
  - exists chunks. split; try done. intros c Hin. apply list_elem_of_lookup in Hin as [i Hi]. rewrite (Hn _ _ Hi).
    apply lookup_lt_Some in Hi. unfold vlen in Hlen. lia.
  - intros sequence rows o o' Ho. by apply publish_query_ok in Ho.
Qed.

Lemma query_sizes bd records budgets : literal bd -> vlen records <= u32_max -> bu_max_shard_bytes budgets <= u32_max ->
  (forall r sequence, r ∈ records -> sequence <= vlen records ->
    vlen (pco_bytes (query_object_of bd sequence [r])) <= bu_max_shard_bytes budgets) ->
  sizes record_len (fun sequence first last => encoded_query_shard_len bd sequence (key_len first) (key_len last))
    (publish_prepared_query_shard bd (bu_max_shard_bytes budgets)) (bu_max_shard_bytes budgets) records.
Proof.
  intros Hb Hcount Hmax Hfit. set (max := bu_max_shard_bytes budgets) in *.
  assert (max + max + max + max + u32_max + 10 <= u64_max) as Hroom by (unfold u32_max, u64_max in *; lia).
  assert (forall r sequence, r ∈ records -> sequence <= vlen records ->
    query_shard_size bd sequence (key_len r) (key_len r) (record_len r) 1 <= max) as Hone.
  { intros r sequence Hr Hs. specialize (Hfit r sequence Hr Hs). rewrite query_shard_bytes_len in Hfit by (done || lia).
    cbn [List.last] in Hfit. change (total record_len [r]) with (record_len r + 0) in Hfit. rewrite N.add_0_r in Hfit. done. }
  assert (forall sequence fk lk rows n, query_shard_size bd sequence fk lk rows n =
    query_shard_size bd sequence 0 0 0 0 + fk + lk + rows + (n - 1)) as Hsplit.
  { intros. unfold query_shard_size, fields_size, field_size. cbn [fst snd]. lia. }
  split.
  - intros r sequence Hr Hs. specialize (Hone r sequence Hr Hs). eexists. split; [apply query_shard_len_ok; split_and!; [done|done|lia]|done].
  - intros sequence a b rows n Ha Hb' Hs Hrows Hn. pose proof (Hone a sequence Ha Hs) as H1. pose proof (Hone b sequence Hb' Hs) as H2.
    eexists. apply query_shard_len_ok. split_and!; [done|done|]. rewrite Hsplit in H1, H2 |- *. lia.
  - intros sequence a b rows n k (_ & -> & _)%query_shard_len_ok. rewrite Hsplit. lia.
  - intros sequence a rest out k Hs (_ & -> & Hle)%query_shard_len_ok Hk. eexists. apply publish_query_ok. split_and!; [done|done|].
    rewrite query_shard_bytes_len by (done || lia). exact Hk.
  - lia.
  - done.
Qed.

(** The postings of an index are cut into bounded shards.  When every posting fits
    a shard by itself, cutting succeeds: the size computed beforehand is that of the
    encoded document, so no shard turns out too large when it is encoded.  The shards
    are numbered from zero, none is empty or above the bound, and one after the other
    they hold the postings in order, each under the canonical bytes of its document. *)
Theorem postings_are_cut_into_shards bd records budgets : records <> [] -> literal bd -> vlen records <= u32_max ->
  bu_max_shard_bytes budgets <= u32_max ->
  (forall r sequence, r ∈ records -> sequence <= vlen records ->
    vlen (pco_bytes (query_object_of bd sequence [r])) <= bu_max_shard_bytes budgets) ->
  exists chunks objects references, build_query_shards bd records budgets = Ok (objects, references) /\
    cut bd (bu_max_shard_bytes budgets) records chunks (objects, references) /\
    forall c first rest, c ∈ chunks -> c.2 = first :: rest ->
      encoded_query_shard_len bd c.1 (key_len first) (key_len (List.last rest first)) (total record_len c.2) (vlen c.2) =
        Ok (vlen (pco_bytes (query_object_of bd c.1 c.2))).
Proof.
  intros Hne Hb Hcount Hmax Hfit. destruct (pack_total _ _ _ _ "callable query shard size overflowed"
    "one callable query posting exceeds the 8 MiB shard bound" "callable query shard sequence overflowed" records
    (query_sizes bd records budgets Hb Hcount Hmax Hfit)) as [[objects references] Hout].
  assert (build_query_shards bd records budgets = Ok (objects, references)) as Hbuild by (unfold build_query_shards; by destruct records).
  destruct (build_query_shards_ok _ _ _ _ Hbuild) as [chunks Hcut]. exists chunks, objects, references. split_and!; [done|done|].
  intros c first rest Hin Hc. pose proof (ct_sequence _ _ _ _ _ Hcut c Hin) as Hs. rewrite Hc, query_shard_bytes_len by done.
  apply query_shard_len_ok. split_and!; [done|done|]. rewrite <- query_shard_bytes_len by done. rewrite <- Hc.
  pose proof (ct_chunks _ _ _ _ _ Hcut) as Hch. rewrite list.Forall_forall in Hch. destruct (Hch c Hin) as [_ Hle].
  unfold u32_max, u64_max in *. lia.
Qed.
End QueryShards.
