(* ===== verification/CallableQuery.v ===== *)
(** * Queries of the callable index (thread_callables.rs: query_prepared)

    A request asks for full symbols, families of callables and identifier tokens.  Each
    lookup is one key of the index; the shards whose key range contains it are read and
    their postings collected.  The status of the answer says what may be concluded from it. *)

From S2P Require Import Prelude Order Collections Text Json Canonical JsonFormat Errors CasObject CatalogCodec ThreadCallables QueryTerms CallableIndex.

Definition MAX_CALLABLE_QUERY_TERMS : N := 256.
Definition MAX_CALLABLE_QUERY_RESULTS : N := 4096.

Inductive CallableLookup : Type :=
| LFullSymbol (repository_namespace symbol_identity : string)
| LCallableFamily (repository_namespace : option string) (callable_id : string)
| LToken (term : string).
Inductive LookupAuthority : Type := AExactFullSymbol | ANavigationOnly | AUnsure.
Inductive CallableQueryStatus : Type := QExactFullSymbol | QNavigationOnly | QAmbiguous | QUnsure | QNotFound.

Record CallableQueryRequest : Type := mkQueryRequest { qr_lookups : list CallableLookup; qr_max_results : N }.
Record CallableQueryHit : Type := mkQueryHit { qh_lookup : CallableLookup; qh_posting : CallablePosting; qh_authority : LookupAuthority }.
Record CallableQueryResult : Type := mkQueryResult {
  qs_schema : string;
  qs_index_id : string;
  qs_requested_lookups : list CallableLookup;
  qs_unmatched_lookups : list CallableLookup;
  qs_hits : list CallableQueryHit;
  qs_status : CallableQueryStatus;
  qs_truncated : bool;
  qs_query_shards_read : N;
  qs_verification_obligations : list string
}.
Record CallableQueryTrace : Type := mkQueryTrace {
  qt_result : CallableQueryResult;
  qt_matched_postings : list CallablePosting;
  qt_query_shard_refs : list CasObject
}.

#[export] Instance CallableLookup_eq_dec : EqDecision CallableLookup.
Proof. solve_decision. Defined.
#[export] Instance LookupAuthority_eq_dec : EqDecision LookupAuthority.
Proof. solve_decision. Defined.
#[export] Instance CallableQueryStatus_eq_dec : EqDecision CallableQueryStatus.
Proof. solve_decision. Defined.

(** The derived order: variants first, then their fields. *)
Definition lookup_fields (l : CallableLookup) : N * (option string * string) :=
  match l with
  | LFullSymbol namespace symbol => (0, (Some namespace, symbol))
  | LCallableFamily namespace callable => (1, (namespace, callable))
  | LToken term => (2, (None, term))
  end.
Definition lookup_authority_rank (a : LookupAuthority) : N := match a with AExactFullSymbol => 0 | ANavigationOnly => 1 | AUnsure => 2 end.
#[export] Instance Ord_lookup : Ord CallableLookup := cmp_on lookup_fields.
#[export] Instance Ord_lookup_authority : Ord LookupAuthority := cmp_on lookup_authority_rank.

(** The locals of the loop over the lookups. *)
Record QueryState : Type := mkQueryState {
  st_hits : BTreeSet (CallableLookup * (CallablePosting * LookupAuthority));
  st_unmatched : list CallableLookup;
  st_shards_read : BTreeMap string CasObject;
  st_exact_declarations : BTreeMap CallableLookup N;
  st_family_symbols : BTreeMap CallableLookup (BTreeSet string)
}.

Section Query.
Context {P : Primitives} {R : JsonReader} {U : Unicode}.

(* --------------------------------------------------------------------- *)
(** ** Lookups *)

Definition validate_repository_namespace (namespace : string) : Res unit :=
  match strip_prefix "repo:" namespace with
  | Some digest => if negb (str_len digest =? 64) || negb (str_all lower_hex_byte digest) then invalid "repository namespace is invalid" else Ok tt
  | None => invalid "repository namespace is invalid"
  end.
Definition normalize_lookup (lookup : CallableLookup) : Res CallableLookup :=
  match lookup with
  | LFullSymbol namespace symbol =>
      validate_repository_namespace namespace ;;?
      validate_text symbol "full symbol identity" ;;?
      if negb (full_symbol_identity symbol) then invalid "exact callable lookup is not a full symbol identity" else Ok lookup
  | LCallableFamily namespace callable =>
      match namespace with Some namespace => validate_repository_namespace namespace | None => Ok tt end ;;?
      validate_text callable "CallableId family" ;;?
      Ok lookup
  | LToken term =>
      validate_text term "identifier token" ;;?
      if negb (forallb word_char (chars term)) then invalid "identifier token must be one bounded token"
      else
      let term := of_chars (lower term) in
      if (str_len term <? 2) || (256 <? str_len term) then invalid "identifier token length is invalid" else Ok (LToken term)
  end.
Definition index_key_for_lookup (lookup : CallableLookup) : CallableIndexKey :=
  match lookup with
  | LFullSymbol namespace symbol => full_symbol_key (Some namespace) symbol
  | LCallableFamily namespace callable => family_key namespace callable
  | LToken term => token_key term
  end.
Definition is_full_symbol (lookup : CallableLookup) : bool := match lookup with LFullSymbol _ _ => true | _ => false end.
Definition is_family (lookup : CallableLookup) : bool := match lookup with LCallableFamily _ _ => true | _ => false end.

(** What a posting found by a lookup may be used for. *)
Definition lookup_authority (lookup : CallableLookup) (posting : CallablePosting) : LookupAuthority :=
  if po_exact_eligible posting then if is_full_symbol lookup then AExactFullSymbol else ANavigationOnly else AUnsure.

(* --------------------------------------------------------------------- *)
(** ** Absence *)

Fixpoint scope_complete (repository_namespace : option string) (members : list CallableMemberBinding) (selected : N) : bool :=
  match members with
  | [] => 0 <? selected
  | member :: rest =>
      if match repository_namespace with Some namespace => str_neqb namespace (mb_repository_namespace member) | None => false end
      then scope_complete repository_namespace rest selected
      else if bool_decide (mb_compilations member = [])
              || existsb (fun c => bool_decide (cb_descriptor_coverage c = PartialGraph)) (mb_compilations member)
      then false else scope_complete repository_namespace rest (selected + 1)
  end.
Definition descriptor_scope_is_complete (prepared : PreparedCallableFactSet) (repository_namespace : option string) : bool :=
  scope_complete repository_namespace (fa_members (prepared_authority prepared)) 0.
Definition lookup_absence_is_unsure (prepared : PreparedCallableFactSet) (lookup : CallableLookup) : bool :=
  match lookup with
  | LFullSymbol namespace _ => negb (descriptor_scope_is_complete prepared (Some namespace))
  | LCallableFamily namespace _ => negb (descriptor_scope_is_complete prepared namespace)
  | LToken _ =>
      bool_decide (fa_members (prepared_authority prepared) = []) || has_partial_compilation (fa_members (prepared_authority prepared))
  end.

(* --------------------------------------------------------------------- *)
(** ** The scan *)

(** The body of the loop over the matching records of a shard. *)
Definition count_declaration (lookup : CallableLookup) (posting : CallablePosting) (m : BTreeMap CallableLookup N) : BTreeMap CallableLookup N :=
  if is_full_symbol lookup && bool_decide (po_fact_kind posting = FDeclaration)
     && bool_decide (lookup_authority lookup posting = AExactFullSymbol)
  then bmap_insert lookup (default 0 (bmap_get lookup m) + 1) m else m.
Definition family_symbol (posting : CallablePosting) (symbol : string) : string :=
  po_repository_namespace posting +:+ String nul symbol.
Definition note_family (lookup : CallableLookup) (posting : CallablePosting) (m : BTreeMap CallableLookup (BTreeSet string))
  : BTreeMap CallableLookup (BTreeSet string) :=
  match po_symbol_identity posting with
  | Some symbol =>
      if is_family lookup && bool_decide (po_fact_kind posting = FDeclaration)
      then bmap_insert lookup (bset_insert (family_symbol posting symbol) (default [] (bmap_get lookup m))) m else m
  | None => m
  end.
Definition add_hit (lookup : CallableLookup) (st : QueryState) (record : CallableIndexRecord) : QueryState :=
  let posting := ir_posting record in
  {| st_hits := bset_insert (lookup, (posting, lookup_authority lookup posting)) (st_hits st);
     st_unmatched := st_unmatched st; st_shards_read := st_shards_read st;
     st_exact_declarations := count_declaration lookup posting (st_exact_declarations st);
     st_family_symbols := note_family lookup posting (st_family_symbols st) |}.

Definition note_shard (reference : CasObject) (st : QueryState) : Res QueryState :=
  match bmap_get (digest reference) (st_shards_read st) with
  | None => Ok {| st_hits := st_hits st; st_unmatched := st_unmatched st;
                  st_shards_read := bmap_insert (digest reference) reference (st_shards_read st);
                  st_exact_declarations := st_exact_declarations st; st_family_symbols := st_family_symbols st |}
  | Some seen => if bool_decide (seen = reference) then Ok st else corrupt "query shard digest repeats with conflicting authority"
  end.

(** Reading one shard; [matched] becomes true with the first record. *)
Definition scan_shard (objects : BTreeMap string PreparedCasObject) (lookup : CallableLookup) (key : CallableIndexKey)
    (acc : QueryState * bool) (reference : CallableQueryShardReference) : Res (QueryState * bool) :=
  let '(st, matched) := acc in
  let? object := ok_or (bmap_get (digest (csr_object reference)) objects)
                   (ClewError_new StateCorrupt "query index references an unavailable prepared shard") in
  let? shard := ok_or (from_slice decode_query_shard (pco_bytes object))
                  (ClewError_new StateCorrupt "prepared callable query shard is invalid") in
  let? st := note_shard (csr_object reference) st in
  let found := List.filter (fun record => bool_decide (ir_key record = key)) (cqs_records shard) in
  Ok (foldl (add_hit lookup) st found, matched || negb (bool_decide (found = []))).

Definition in_range (key : CallableIndexKey) (reference : CallableQueryShardReference) : bool :=
  leb (csr_first_key reference) key && leb key (csr_last_key reference).
Definition scan_lookup (prepared : PreparedCallableFactSet) (objects : BTreeMap string PreparedCasObject) (st : QueryState)
    (lookup : CallableLookup) : Res QueryState :=
  let key := index_key_for_lookup lookup in
  let? '(st, matched) := try_fold (scan_shard objects lookup key) (st, false)
                           (List.filter (in_range key) (cqi_shards (prepared_query_index prepared))) in
  if (matched : bool) then Ok st
  else Ok {| st_hits := st_hits st; st_unmatched := st_unmatched st ++ [lookup]; st_shards_read := st_shards_read st;
             st_exact_declarations := st_exact_declarations st; st_family_symbols := st_family_symbols st |}.

(* --------------------------------------------------------------------- *)
(** ** The answer *)

Definition query_status (truncated has_unsure empty ambiguous all_exact : bool) : CallableQueryStatus :=
  if truncated || has_unsure then QUnsure
  else if empty then QNotFound
  else if ambiguous then QAmbiguous
  else if all_exact then QExactFullSymbol
  else QNavigationOnly.
Definition query_obligations (truncated ambiguous has_unsure : bool) : BTreeSet string :=
  bset_of_list ((if truncated then ["NARROW_OR_EXPAND_QUERY"] else []) ++ (if ambiguous then ["DISAMBIGUATE_OVERLOAD_SET"] else [])
    ++ (if has_unsure then ["VERIFY_PARTIAL_OR_BOUNDARY_EVIDENCE"] else [])).
Definition available_hits (st : QueryState) : list CallableQueryHit :=
  (fun h => {| qh_lookup := h.1; qh_posting := h.2.1; qh_authority := h.2.2 |}) <$> st_hits st.

Definition conclude (prepared : PreparedCallableFactSet) (lookups : list CallableLookup) (max_results : N) (st : QueryState)
  : CallableQueryTrace :=
  let available := available_hits st in
  let truncated := max_results <? vlen available in
  let ambiguous := existsb (fun symbols => 1 <? vlen symbols) (bmap_values (st_family_symbols st)) in
  let posting_is_unsure := existsb (fun hit => bool_decide (qh_authority hit = AUnsure)) available in
  let unmatched_scope_is_unsure := existsb (lookup_absence_is_unsure prepared) (st_unmatched st) in
  let has_unsure := posting_is_unsure || unmatched_scope_is_unsure in
  let all_exact := negb (bool_decide (lookups = [])) && forallb is_full_symbol lookups && bool_decide (st_unmatched st = [])
                   && forallb (fun lookup => bool_decide (bmap_get lookup (st_exact_declarations st) = Some 1)) lookups in
  {| qt_result :=
       {| qs_schema := "codeclew-kotlin-callable-query-result/1.0"; qs_index_id := cqi_index_id (prepared_query_index prepared);
          qs_requested_lookups := lookups; qs_unmatched_lookups := st_unmatched st; qs_hits := take (N.to_nat max_results) available;
          qs_status := query_status truncated has_unsure (bool_decide (available = [])) ambiguous all_exact; qs_truncated := truncated;
          qs_query_shards_read := vlen (st_shards_read st);
          qs_verification_obligations := query_obligations truncated ambiguous has_unsure |};
     qt_matched_postings := bset_of_list (qh_posting <$> available); qt_query_shard_refs := bmap_values (st_shards_read st) |}.

(** The lookups as they are asked: normalized, sorted, each once. *)
Definition normalized_lookups (request : CallableQueryRequest) : Res (list CallableLookup) :=
  if bool_decide (qr_lookups request = []) || (MAX_CALLABLE_QUERY_TERMS <? vlen (qr_lookups request))
     || (qr_max_results request =? 0) || (MAX_CALLABLE_QUERY_RESULTS <? qr_max_results request)
  then invalid "callable query term or result limit is invalid"
  else
  let? lookups := try_map normalize_lookup (qr_lookups request) in
  let lookups := dedup (sort lookups) in
  if MAX_CALLABLE_QUERY_TERMS <? vlen lookups then budget "normalized callable query terms exceed 256" else Ok lookups.

Definition query_verified_with_trace (prepared : PreparedCallableFactSet) (request : CallableQueryRequest) : Res CallableQueryTrace :=
  let? lookups := normalized_lookups request in
  let objects := bmap_of_list ((fun object => (digest (pco_reference object), object)) <$> prepared_query_shards prepared) in
  let? st := try_fold (scan_lookup prepared objects)
               {| st_hits := []; st_unmatched := []; st_shards_read := []; st_exact_declarations := []; st_family_symbols := [] |} lookups in
  Ok (conclude prepared lookups (qr_max_results request) st).
Definition query_verified (prepared : PreparedCallableFactSet) (request : CallableQueryRequest) : Res CallableQueryResult :=
  let? trace := query_verified_with_trace prepared request in Ok (qt_result trace).
Definition query_prepared (prepared : PreparedCallableFactSet) (request : CallableQueryRequest) : Res CallableQueryResult :=
  verify_prepared prepared ;;? query_verified prepared request.
End Query.
