(* ===== verification/CallableSpec.v ===== *)
(** * What a callable query promises

    The specification is stated over the postings of a verified fact set, and through
    [posting_of] over its facts: a query answers what a scan of all postings would. *)

From S2P Require Import Prelude Order Collections Text Json Canonical JsonFormat Errors CasObject CatalogCodec ThreadCallables QueryTerms CallableIndex CallableQuery.

(* --------------------------------------------------------------------- *)
(** ** Orders *)

Lemma key_fields_inj x y : key_fields x = key_fields y -> x = y.
Proof. unfold key_fields. destruct x as [[] ? ?], y as [[] ? ?]; intros [=]; subst; done. Qed.
Lemma posting_fields_inj x y : posting_fields x = posting_fields y -> x = y.
Proof. unfold posting_fields. destruct x as [? [] ? ? ? ? ? ? ? ? ?], y as [? [] ? ? ? ? ? ? ? ? ?]; intros [=]; subst; done. Qed.
Lemma lookup_fields_inj x y : lookup_fields x = lookup_fields y -> x = y.
Proof. destruct x, y; intros [=]; subst; done. Qed.
#[export] Instance LawfulOrd_key : LawfulOrd CallableIndexKey := lawful_on key_fields key_fields_inj.
#[export] Instance LawfulOrd_posting : LawfulOrd CallablePosting := lawful_on posting_fields posting_fields_inj.
#[export] Instance LawfulOrd_record : LawfulOrd CallableIndexRecord.
Proof. apply lawful_on. intros [] [] [=]. cbn in *. congruence. Qed.
#[export] Instance LawfulOrd_lookup : LawfulOrd CallableLookup := lawful_on lookup_fields lookup_fields_inj.
#[export] Instance LawfulOrd_lookup_authority : LawfulOrd LookupAuthority.
Proof. apply lawful_on. by intros [] []. Qed.

Lemma leb_refl {A} `{LawfulOrd A} (x : A) : leb x x = true.
Proof. unfold leb, ltb. by rewrite cmp_refl. Qed.
Lemma leb_true {A} `{LawfulOrd A} (x y : A) : leb x y = true <-> ~ lt_ord y x.
Proof. unfold leb. by rewrite negb_true_iff, ltb_ge. Qed.
Lemma leb_trans {A} `{LawfulOrd A} (x y z : A) : leb x y = true -> leb y z = true -> leb x z = true.
Proof. rewrite !leb_true. intros Hxy Hyz Hzx. destruct (nlt_cases _ _ Hxy) as [->|Hlt]; [done|]. apply Hyz. by eapply lt_trans. Qed.

(** Records in order have keys in order. *)
Lemma record_lt_key a b : lt_ord a b -> leb (ir_key a) (ir_key b) = true.
Proof.
  intros Hab. apply leb_true. intros Hk. unfold lt_ord in *.
  assert (cmp b a = Lt) as Hba.
  { unfold cmp, Ord_record, cmp_on. rewrite cmp_pair. by rewrite Hk. }
  exact (lt_asym (A := CallableIndexRecord) a b Hab Hba).
Qed.

(** A strictly increasing list has its keys between those of its ends. *)
Lemma sorted_between first rest r : bset_wf (first :: rest) -> r ∈ first :: rest ->
  leb (ir_key first) (ir_key r) = true /\ leb (ir_key r) (ir_key (List.last rest first)) = true.
Proof.
  intros Hs. revert r. induction rest as [|x rest IH] using rev_ind; intros r Hr.
  - apply list_elem_of_singleton in Hr as ->. cbn. split; apply leb_refl.
  - rewrite List.last_last. change (first :: rest ++ [x]) with ((first :: rest) ++ [x]) in *.
    apply StronglySorted_app in Hs as (Hs & _ & Hx). assert (forall a, a ∈ first :: rest -> leb (ir_key a) (ir_key x) = true) as Hle.
    { intros a Ha. apply record_lt_key, Hx; [done|set_solver]. }
    apply elem_of_app in Hr as [Hr|Hr%list_elem_of_singleton].
    + split; [by apply IH|by apply Hle].
    + subst r. split; [apply Hle; set_solver|apply leb_refl].
Qed.

(* --------------------------------------------------------------------- *)
(** ** What verification knows of the shards *)

Section Verified.
Context {P : Primitives} {R : JsonReader} {U : Unicode}.

Record reads_as (e : CallableQueryShardReference * PreparedCasObject) (shard : CallableQueryShard) : Prop := mkReadsAs {
  ra_decodes : from_slice decode_query_shard (pco_bytes e.2) = Some shard;
  ra_object : csr_object e.1 = pco_reference e.2;
  ra_reference : for_bytes CALLABLE_QUERY_SHARD_SCHEMA (pco_bytes e.2) = Ok (pco_reference e.2);
  ra_range : exists first rest, cqs_records shard = first :: rest /\ csr_first_key e.1 = ir_key first /\
    csr_last_key e.1 = ir_key (List.last rest first)
}.

Lemma check_records_ok l : forall acc st', bset_wf acc -> try_fold check_record (list.last acc, acc) l = Ok st' ->
  st' = (list.last (acc ++ l), acc ++ l) /\ bset_wf (acc ++ l).
Proof.
  induction l as [|r l IH]; intros acc st' Hw H.
  - injection H as <-. by rewrite app_nil_r.
  - cbn [try_fold] in H. unfold check_record at 1 in H. cbn [fst snd] in H.
    destruct (match list.last acc with Some previous => geb previous r | None => false end) eqn:Hg; [discriminate H|].
    cbn [result_bind] in H. rewrite <- (list.last_snoc r acc) in H. apply IH in H.
    + by rewrite <- app_assoc in H.
    + apply StronglySorted_app. split_and!; [done|repeat constructor|]. intros x y Hx ->%list_elem_of_singleton.
      destruct (list.last acc) as [p|] eqn:Hl; [|apply list.last_None in Hl as ->; by apply not_elem_of_nil in Hx].
      apply geb_false in Hg. apply list.last_Some in Hl as [acc' ->]. apply elem_of_app in Hx as [Hx|Hx%list_elem_of_singleton]; [|by subst].
      apply StronglySorted_app in Hw as (_ & _ & Hw). apply (lt_trans x p r); [apply Hw; [done|by apply list_elem_of_singleton]|done].
Qed.

Lemma verify_object_ok object schema max : verify_prepared_object object schema max = Ok tt ->
  for_bytes schema (pco_bytes object) = Ok (pco_reference object).
Proof.
  unfold verify_prepared_object. destruct (_ <? _); [done|]. destruct (for_bytes schema (pco_bytes object)) as [o|]; [|done].
  cbn [result_bind]. destruct (bool_decide (pco_reference object = o)) eqn:E; [|done]. by apply bool_decide_eq_true_1 in E as ->.
Qed.

Lemma verify_query_shard_ok max bd acc e st' : bset_wf acc -> verify_query_shard max bd (list.last acc, acc) e = Ok st' ->
  exists shard, reads_as e shard /\ st' = (list.last (acc ++ cqs_records shard), acc ++ cqs_records shard) /\ bset_wf (acc ++ cqs_records shard).
Proof.
  destruct e as [expected object]. intros Hw H. unfold verify_query_shard in H. apply result_bind_ok in H as ([] & Ho & H).
  apply verify_object_ok in Ho. apply result_bind_ok in H as (shard & Hs & H). destruct (_ || _) eqn:Hg in H; [discriminate H|].
  apply check_records_ok in H as [-> Hw']; [|done]. exists shard. split_and!; [|done|done].
  do 6 (apply orb_false_iff in Hg as [Hg ?]).
  repeat match goal with H : negb _ = false |- _ => apply negb_false_iff in H end.
  repeat match goal with H : bool_decide _ = true |- _ => apply bool_decide_eq_true_1 in H end.
  split; cbn [fst snd].
  - destruct (from_slice decode_query_shard (pco_bytes object)); [by injection Hs as ->|done].
  - done.
  - done.
  - destruct (cqs_records shard) as [|first rest]; [done|]. exists first, rest.
    match goal with H : _ && _ = true |- _ => apply andb_true_iff in H as [Hf%bool_decide_eq_true_1 Hl%bool_decide_eq_true_1] end.
    split_and!; congruence.
Qed.

Lemma verify_query_shards_ok max bd entries : forall acc st', bset_wf acc ->
  try_fold (verify_query_shard max bd) (list.last acc, acc) entries = Ok st' ->
  exists shards, Forall2 reads_as entries shards /\ st'.2 = acc ++ concat (cqs_records <$> shards) /\ bset_wf st'.2.
Proof.
  induction entries as [|e entries IH]; intros acc st' Hw H.
  - injection H as <-. exists []. cbn. by rewrite app_nil_r.
  - cbn [try_fold] in H. apply result_bind_ok in H as (st1 & H1 & H).
    apply verify_query_shard_ok in H1 as (shard & Hr & -> & Hw1); [|done]. apply IH in H as (shards & Hrs & He & Hw2); [|done].
    exists (shard :: shards). rewrite fmap_cons. cbn [concat]. rewrite app_assoc. split_and!; [by constructor|done|done].
Qed.

(** A verified set: its facts, its postings, and where the postings are. *)
Record verified (prepared : PreparedCallableFactSet) (facts : list CallableFact) (records : list CallableIndexRecord)
    (shards : list CallableQueryShard) : Prop := mkVerified {
  vf_entries : Forall2 reads_as (zip (cqi_shards (prepared_query_index prepared)) (prepared_query_shards prepared)) shards;
  vf_complete : length (prepared_query_shards prepared) = length (cqi_shards (prepared_query_index prepared));
  vf_records : records = concat (cqs_records <$> shards);
  vf_sorted : bset_wf records;
  vf_built : build_index_records facts = Ok records;
  vf_unique : reject_duplicate_declarations (declarations_of facts) = Ok tt
}.

Lemma map_corrupt_ok {A} (r : Res A) m a : map_corrupt r m = Ok a <-> r = Ok a.
Proof. destruct r; cbn; naive_solver. Qed.

Lemma verify_content_ok prepared facts records : verify_content prepared facts records = Ok tt ->
  build_index_records facts = Ok records /\ reject_duplicate_declarations (declarations_of facts) = Ok tt.
Proof.
  unfold verify_content. intros H. apply result_bind_ok in H as ([] & Hd & H). apply map_corrupt_ok in Hd.
  apply result_bind_ok in H as (rs & Hr & H). apply map_corrupt_ok in Hr. destruct (index_key_counts records) as [[e f] t].
  destruct (_ || _) eqn:Hg in H; [discriminate H|]. do 5 (apply orb_false_iff in Hg as [Hg _]).
  apply orb_false_iff in Hg as [_ Hg]. apply negb_false_iff, bool_decide_eq_true_1 in Hg as ->. done.
Qed.

Lemma verify_prepared_ok prepared : verify_prepared prepared = Ok tt ->
  exists facts records shards, verified_rows prepared = Ok (facts, records) /\ verified prepared facts records shards.
Proof.
  unfold verify_prepared. intros H. apply seq_ok in H as [_ H]. apply guard_ok in H as [_ H]. apply seq_ok in H as [_ H].
  apply seq_ok in H as [_ H]. apply guard_ok in H as [_ H]. apply guard_ok in H as [Hlen H].
  apply result_bind_ok in H as ([facts records] & Hrows & H). apply verify_content_ok in H as [Hb Hd].
  exists facts, records. pose proof Hrows as Hrows'. unfold verified_rows in Hrows'.
  apply result_bind_ok in Hrows' as ([o fs] & _ & H). apply result_bind_ok in H as ([o' rs] & Hq & [= -> ->]).
  apply (verify_query_shards_ok _ _ _ [] _ bset_nil_wf) in Hq as (shards & Hr & Hs & Hw). cbn [snd app] in Hs, Hw.
  exists shards. split; [done|]. split; try done.
  apply orb_false_iff in Hlen as [_ Hlen]. apply negb_false_iff, N.eqb_eq in Hlen. unfold vlen in Hlen. lia.
Qed.
End Verified.

Lemma bmap_of_list_some {K V} `{LawfulOrd K} (l : list (K * V)) k v : (k, v) ∈ l ->
  exists v', bmap_get k (bmap_of_list l) = Some v' /\ (k, v') ∈ l.
Proof.
  revert v. induction l as [|[k1 v1] l IH] using rev_ind; intros v Hin; [by apply not_elem_of_nil in Hin|].
  unfold bmap_of_list. rewrite foldl_app. cbn [foldl fst snd]. rewrite bmap_get_insert. destruct (cmp k k1) eqn:E.
  - apply cmp_eq_iff in E as ->. exists v1. split; [done|set_solver].
  - apply elem_of_app in Hin as [Hin|[= -> ->]%list_elem_of_singleton]; [|by rewrite cmp_refl in E].
    destruct (IH v Hin) as (v' & Hg & Hv). exists v'. split; [done|set_solver].
  - apply elem_of_app in Hin as [Hin|[= -> ->]%list_elem_of_singleton]; [|by rewrite cmp_refl in E].
    destruct (IH v Hin) as (v' & Hg & Hv). exists v'. split; [done|set_solver].
Qed.

(* --------------------------------------------------------------------- *)
(** ** Scanning shards and scanning postings *)

(** The postings a lookup is about. *)
Definition found (records : list CallableIndexRecord) (lookup : CallableLookup) : list CallableIndexRecord :=
  List.filter (fun record => bool_decide (ir_key record = index_key_for_lookup lookup)) records.

(** No two shards share a digest and differ. *)
Definition distinct_shards (prepared : PreparedCallableFactSet) : Prop :=
  forall o o', o ∈ prepared_query_shards prepared -> o' ∈ prepared_query_shards prepared ->
    digest (pco_reference o) = digest (pco_reference o') -> pco_bytes o = pco_bytes o'.

(** What a lookup adds, apart from the account of the shards. *)
Definition set_read (st : QueryState) (read : BTreeMap string CasObject) : QueryState :=
  {| st_hits := st_hits st; st_unmatched := st_unmatched st; st_shards_read := read;
     st_exact_declarations := st_exact_declarations st; st_family_symbols := st_family_symbols st |}.
Definition answer_lookup (records : list CallableIndexRecord) (st : QueryState) (lookup : CallableLookup) : QueryState :=
  match found records lookup with
  | [] => {| st_hits := st_hits st; st_unmatched := st_unmatched st ++ [lookup]; st_shards_read := st_shards_read st;
             st_exact_declarations := st_exact_declarations st; st_family_symbols := st_family_symbols st |}
  | l => foldl (add_hit lookup) st l
  end.

Lemma add_hits_read lookup l : forall st read, foldl (add_hit lookup) (set_read st read) l = set_read (foldl (add_hit lookup) st l) read.
Proof. induction l as [|r l IH]; intros st read; [done|]. cbn [foldl]. apply (IH (add_hit lookup st r)). Qed.
Lemma add_hits_shards lookup l : forall st, st_shards_read (foldl (add_hit lookup) st l) = st_shards_read st.
Proof. induction l as [|r l IH]; intros st; [done|]. cbn [foldl]. by rewrite IH. Qed.
Lemma add_hits_unmatched lookup l : forall st, st_unmatched (foldl (add_hit lookup) st l) = st_unmatched st.
Proof. induction l as [|r l IH]; intros st; [done|]. cbn [foldl]. by rewrite IH. Qed.
Lemma answer_lookups_read records ls : forall st read,
  foldl (answer_lookup records) (set_read st read) ls = set_read (foldl (answer_lookup records) st ls) read.
Proof.
  induction ls as [|l ls IH]; intros st read; [done|]. cbn [foldl]. rewrite <- IH. f_equal. unfold answer_lookup.
  destruct (found records l) as [|x k]; [done|]. apply add_hits_read.
Qed.
Lemma set_read_id st : set_read st (st_shards_read st) = st.
Proof. by destruct st. Qed.

Section Scan.
Context {P : Primitives} {R : JsonReader} {U : Unicode}.
Context (prepared : PreparedCallableFactSet) (facts : list CallableFact) (records : list CallableIndexRecord)
  (shards : list CallableQueryShard).
Hypothesis Hverified : verified prepared facts records shards.
Hypothesis Hdistinct : distinct_shards prepared.
Notation objects := (bmap_of_list ((fun object => (digest (pco_reference object), object)) <$> prepared_query_shards prepared)).
Notation references := (cqi_shards (prepared_query_index prepared)).

(** A shard as the index names it. *)
Definition stored (reference : CallableQueryShardReference) (shard : CallableQueryShard) : Prop :=
  exists object, object ∈ prepared_query_shards prepared /\ reads_as (reference, object) shard.

Lemma references_stored : Forall2 stored references shards.
Proof.
  destruct Hverified as [He Hlen _ _ _ _]. clear Hverified Hdistinct.
  assert (forall os, (forall o, o ∈ os -> o ∈ prepared_query_shards prepared) -> length os = length references ->
    Forall2 reads_as (zip references os) shards -> Forall2 stored references shards) as Hgen.
  { clear He Hlen. revert shards. induction references as [|r rs IH]; intros ss [|o os] Hin Hlen H; try done.
    - by inversion H.
    - cbn in H. inversion H as [|? s ? ss' Hs Hss]; subst. constructor.
      + exists o. split; [apply Hin; by left|done].
      + apply (IH ss' os); [|by injection Hlen|done]. intros o' Ho. apply Hin. by right. }
  by apply (Hgen (prepared_query_shards prepared)).
Qed.

Lemma stored_get reference shard : stored reference shard ->
  exists object, bmap_get (digest (csr_object reference)) objects = Some object /\
    from_slice decode_query_shard (pco_bytes object) = Some shard.
Proof.
  intros (o & Ho & [Hd Hr Hf _]). cbn [fst snd] in *. rewrite Hr.
  destruct (bmap_of_list_some ((fun object => (digest (pco_reference object), object)) <$> prepared_query_shards prepared)
    (digest (pco_reference o)) o) as (o' & Hg & Hin).
  { apply list_elem_of_fmap. by exists o. }
  exists o'. split; [exact Hg|]. apply list_elem_of_fmap in Hin as (x & [= Hdig ->] & Hx).
  by rewrite <- (Hdistinct o x Ho Hx Hdig).
Qed.

Lemma stored_same r s r' s' : stored r s -> stored r' s' -> digest (csr_object r) = digest (csr_object r') -> csr_object r = csr_object r'.
Proof.
  intros (o & Ho & [_ Hr Hf _]) (o' & Ho' & [_ Hr' Hf' _]). cbn [fst snd] in *. rewrite Hr, Hr'. intros Hd.
  pose proof (Hdistinct _ _ Ho Ho' Hd) as Hb. rewrite Hb in Hf. congruence.
Qed.

(** Every shard that was read is one the index names. *)
Definition read_ok (read : BTreeMap string CasObject) : Prop :=
  bmap_wf read /\ forall d o, bmap_get d read = Some o -> exists r s, stored r s /\ csr_object r = o /\ digest o = d.

Lemma note_shard_ok r s st : stored r s -> read_ok (st_shards_read st) ->
  exists read, note_shard (csr_object r) st = Ok (set_read st read) /\ read_ok read /\
    forall d o, bmap_get d read = Some o <-> bmap_get d (st_shards_read st) = Some o \/ (o = csr_object r /\ digest o = d).
Proof.
  intros Hs [Hw Hok]. unfold note_shard. destruct (bmap_get (digest (csr_object r)) (st_shards_read st)) as [seen|] eqn:Hg.
  - destruct (Hok _ _ Hg) as (r' & s' & Hs' & Hseen & Hd). subst seen. rewrite bool_decide_eq_true_2 by (by eapply stored_same).
    exists (st_shards_read st). rewrite set_read_id. split_and!; [done|done|]. intros d o. split; [by left|]. intros [?|[-> <-]]; [done|].
    rewrite Hg. f_equal. by eapply stored_same.
  - exists (bmap_insert (digest (csr_object r)) (csr_object r) (st_shards_read st)). split_and!; [done| |].
    + split; [by apply bmap_insert_wf|]. intros d o.
      destruct (decide (d = digest (csr_object r))) as [->|Hne]; [rewrite bmap_get_insert_eq|rewrite bmap_get_insert_ne by done; apply Hok].
      intros [= <-]. by exists r, s.
    + intros d o. destruct (decide (d = digest (csr_object r))) as [->|Hne]; [rewrite bmap_get_insert_eq|rewrite bmap_get_insert_ne by done]; naive_solver.
Qed.

Lemma found_app l k lookup : found (l ++ k) lookup = found l lookup ++ found k lookup.
Proof. apply List.filter_app. Qed.

Lemma found_elem l lookup r : r ∈ found l lookup <-> r ∈ l /\ ir_key r = index_key_for_lookup lookup.
Proof. unfold found. rewrite !list_elem_of_In, List.filter_In, bool_decide_eq_true. done. Qed.

Lemma found_outside r s lookup : stored r s -> bset_wf (cqs_records s) -> in_range (index_key_for_lookup lookup) r = false ->
  found (cqs_records s) lookup = [].
Proof.
  intros (o & _ & [_ _ _ (first & rest & Hrec & Hf & Hl)]) Hw Hr. cbn [fst] in *. destruct (found (cqs_records s) lookup) as [|x l] eqn:E; [done|].
  assert (x ∈ found (cqs_records s) lookup) as [Hx Hk]%found_elem by (rewrite E; by left). rewrite Hrec in Hx, Hw.
  destruct (sorted_between _ _ _ Hw Hx) as [Hlo Hhi]. unfold in_range in Hr. rewrite Hf, Hl, <- Hk, Hlo, Hhi in Hr. done.
Qed.

(** The shards of a lookup were read. *)
Definition reads_more (lookup : CallableLookup) (rs : list CallableQueryShardReference) (before after : BTreeMap string CasObject) : Prop :=
  forall d o, bmap_get d after = Some o <-> bmap_get d before = Some o \/
    exists r, r ∈ rs /\ in_range (index_key_for_lookup lookup) r = true /\ o = csr_object r /\ digest o = d.

Lemma scan_shard_ok lookup st matched r s : stored r s -> read_ok (st_shards_read st) ->
  exists read, scan_shard objects lookup (index_key_for_lookup lookup) (st, matched) r =
    Ok (set_read (foldl (add_hit lookup) st (found (cqs_records s) lookup)) read,
        matched || negb (bool_decide (found (cqs_records s) lookup = []))) /\ read_ok read /\
    forall d o, bmap_get d read = Some o <-> bmap_get d (st_shards_read st) = Some o \/ (o = csr_object r /\ digest o = d).
Proof.
  intros Hs Hok. destruct (stored_get r s Hs) as (o & Ho & Hd). destruct (note_shard_ok r s st Hs Hok) as (read & Hn & Hok' & Hmore).
  exists read. split_and!; [|done|done]. unfold scan_shard. rewrite Ho. cbn [ok_or result_bind]. rewrite Hd. cbn [ok_or result_bind].
  rewrite Hn. cbn [result_bind]. unfold found. by rewrite add_hits_read.
Qed.

Lemma scan_shards_ok lookup rs ss : Forall2 stored rs ss -> bset_wf (concat (cqs_records <$> ss)) -> forall st matched,
  read_ok (st_shards_read st) ->
  exists read, try_fold (scan_shard objects lookup (index_key_for_lookup lookup)) (st, matched)
      (List.filter (in_range (index_key_for_lookup lookup)) rs) =
    Ok (set_read (foldl (add_hit lookup) st (found (concat (cqs_records <$> ss)) lookup)) read,
        matched || negb (bool_decide (found (concat (cqs_records <$> ss)) lookup = []))) /\
    read_ok read /\ reads_more lookup rs (st_shards_read st) read.
Proof.
  induction 1 as [|r s rs ss Hs Hss IH]; intros Hw st matched Hok.
  - exists (st_shards_read st). cbn. rewrite set_read_id, orb_false_r. split_and!; [done|done|]. intros d o. split; [by left|].
    intros [?|(r & Hr & _)]; [done|by apply not_elem_of_nil in Hr].
  - rewrite fmap_cons in *. cbn [concat] in *. pose proof Hw as (Hw1 & Hw2 & _)%StronglySorted_app. rewrite found_app, foldl_app.
    cbn [List.filter]. destruct (in_range (index_key_for_lookup lookup) r) eqn:Hr.
    + destruct (scan_shard_ok lookup st matched r s Hs Hok) as (read1 & H1 & Hok1 & Hm1). cbn [try_fold]. rewrite H1. cbn [result_bind].
      edestruct (IH Hw2) as (read2 & H2 & Hok2 & Hm2); [|rewrite H2]; [done|]. exists read2. split_and!; [|done|].
      * rewrite add_hits_read. f_equal. f_equal. rewrite <- orb_assoc. f_equal. destruct (found (cqs_records s) lookup); [done|]. cbn. done.
      * intros d o. rewrite (Hm2 d o). cbn [set_read st_shards_read]. rewrite (Hm1 d o). split.
        -- intros [[?|[-> ?]]|(x & ? & ? & ? & ?)]; [by left|right; exists r|right; exists x]; (split_and!; [|done..]); [by left|by right].
        -- intros [?|(x & [->|?]%elem_of_cons & ? & ? & ?)]; [by left; left|by left; right|right]. by exists x.
    + rewrite (found_outside r s lookup Hs Hw1 Hr). cbn [foldl app]. edestruct (IH Hw2) as (read2 & H2 & Hok2 & Hm2); [done|].
      exists read2. split_and!; [exact H2|done|]. intros d o. rewrite (Hm2 d o). split.
      * intros [?|(x & ? & ? & ? & ?)]; [by left|right]. exists x. split_and!; [by right|done..].
      * intros [?|(x & [->|?]%elem_of_cons & ? & ? & ?)]; [by left|congruence|right]. by exists x.
Qed.

Lemma scan_lookup_ok st lookup : read_ok (st_shards_read st) ->
  exists read, scan_lookup prepared objects st lookup = Ok (set_read (answer_lookup records st lookup) read) /\ read_ok read /\
    reads_more lookup references (st_shards_read st) read.
Proof.
  intros Hok. pose proof (vf_records _ _ _ _ Hverified) as Hrec. pose proof (vf_sorted _ _ _ _ Hverified) as Hw. rewrite Hrec in Hw.
  destruct (scan_shards_ok lookup _ _ references_stored Hw st false Hok) as (read & Hr & Hok' & Hm).
  exists read. split_and!; [|done|done]. unfold scan_lookup. rewrite Hr. cbn [result_bind orb]. rewrite <- Hrec. unfold answer_lookup.
  destruct (found records lookup) as [|x l]; [done|]. by rewrite bool_decide_eq_false_2 by done.
Qed.

Lemma scan_lookups_ok lookups : forall st, read_ok (st_shards_read st) ->
  exists read, try_fold (scan_lookup prepared objects) st lookups = Ok (set_read (foldl (answer_lookup records) st lookups) read) /\
    read_ok read /\ forall d o, bmap_get d read = Some o <-> bmap_get d (st_shards_read st) = Some o \/
      exists lookup r, lookup ∈ lookups /\ r ∈ references /\ in_range (index_key_for_lookup lookup) r = true /\ o = csr_object r /\ digest o = d.
Proof.
  induction lookups as [|l ls IH]; intros st Hok.
  - exists (st_shards_read st). cbn. rewrite set_read_id. split_and!; [done|done|]. intros d o. split; [by left|].
    intros [?|(l & r & Hl & _)]; [done|by apply not_elem_of_nil in Hl].
  - destruct (scan_lookup_ok st l Hok) as (read1 & H1 & Hok1 & Hm1). cbn [try_fold foldl]. rewrite H1. cbn [result_bind].
    destruct (IH (set_read (answer_lookup records st l) read1) Hok1) as (read2 & H2 & Hok2 & Hm2). exists read2. rewrite H2. split_and!; [|done|].
    + by rewrite answer_lookups_read.
    + intros d o. rewrite (Hm2 d o). cbn [set_read st_shards_read]. rewrite (Hm1 d o). split.
      * intros [[?|(r & ? & ? & ? & ?)]|(k & r & ? & ? & ? & ? & ?)]; [by left|right; exists l, r|right; exists k, r];
          (split_and!; [|done..]); [by left|by right].
      * intros [?|(k & r & [->|?]%elem_of_cons & ? & ? & ? & ?)]; [by left; left|left; right; by exists r|right]. by exists k, r.
Qed.
End Scan.

(* --------------------------------------------------------------------- *)
(** ** The state after the lookups *)

(** A posting that counts as the exact declaration of a looked up symbol. *)
Definition declares (lookup : CallableLookup) (r : CallableIndexRecord) : bool :=
  is_full_symbol lookup && bool_decide (po_fact_kind (ir_posting r) = FDeclaration)
  && bool_decide (lookup_authority lookup (ir_posting r) = AExactFullSymbol).
(** A declared symbol of a looked up family. *)
Definition names (records : list CallableIndexRecord) (lookup : CallableLookup) (x : string) : Prop :=
  is_family lookup = true /\ exists r symbol, r ∈ found records lookup /\ po_fact_kind (ir_posting r) = FDeclaration /\
    po_symbol_identity (ir_posting r) = Some symbol /\ x = family_symbol (ir_posting r) symbol.

Section Components.
Context (lookup : CallableLookup).

Lemma add_hits_hits l : forall st, st_hits (foldl (add_hit lookup) st l) =
  bset_extend (st_hits st) ((fun r => (lookup, (ir_posting r, lookup_authority lookup (ir_posting r)))) <$> l).
Proof. induction l as [|r l IH]; intros st; [done|]. cbn [foldl]. rewrite IH. done. Qed.
Lemma add_hits_exact l : forall st, st_exact_declarations (foldl (add_hit lookup) st l) =
  foldl (fun m r => count_declaration lookup (ir_posting r) m) (st_exact_declarations st) l.
Proof. induction l as [|r l IH]; intros st; [done|]. cbn [foldl]. rewrite IH. done. Qed.
Lemma add_hits_family l : forall st, st_family_symbols (foldl (add_hit lookup) st l) =
  foldl (fun m r => note_family lookup (ir_posting r) m) (st_family_symbols st) l.
Proof. induction l as [|r l IH]; intros st; [done|]. cbn [foldl]. rewrite IH. done. Qed.

Lemma count_fold l : forall m k, bmap_get k (foldl (fun m r => count_declaration lookup (ir_posting r) m) m l) =
  if bool_decide (k = lookup) && negb (bool_decide (List.filter (declares lookup) l = []))
  then Some (default 0 (bmap_get k m) + vlen (List.filter (declares lookup) l)) else bmap_get k m.
Proof.
  induction l as [|r l IH]; intros m k; [by rewrite andb_false_r|]. cbn [foldl List.filter]. rewrite IH. unfold count_declaration, declares.
  destruct (_ && _ && _) eqn:E; [|done]. rewrite (bool_decide_eq_false_2 (_ :: _ = [])) by done. cbn [negb]. rewrite andb_true_r.
  destruct (decide (k = lookup)) as [->|Hne].
  - rewrite bmap_get_insert_eq, bool_decide_eq_true_2 by done. cbn [andb from_option id].
    destruct (List.filter _ l) as [|x k]; [done|]. rewrite bool_decide_eq_false_2 by done. cbn [negb]. f_equal. rewrite !vlen_cons. unfold id. lia.
  - rewrite bmap_get_insert_ne, bool_decide_eq_false_2 by done. done.
Qed.

Lemma family_fold l : forall m k x, x ∈ default [] (bmap_get k (foldl (fun m r => note_family lookup (ir_posting r) m) m l)) <->
  x ∈ default [] (bmap_get k m) \/ (k = lookup /\ is_family lookup = true /\ exists r symbol, r ∈ l /\
    po_fact_kind (ir_posting r) = FDeclaration /\ po_symbol_identity (ir_posting r) = Some symbol /\ x = family_symbol (ir_posting r) symbol).
Proof.
  induction l as [|r l IH]; intros m k x; cbn [foldl].
  - split; [by left|]. intros [?|(_ & _ & r & s & Hr & _)]; [done|by apply not_elem_of_nil in Hr].
  - rewrite IH. unfold note_family. destruct (po_symbol_identity (ir_posting r)) as [sym|] eqn:Hs.
    + destruct (is_family lookup && bool_decide (po_fact_kind (ir_posting r) = FDeclaration)) eqn:E.
      * apply andb_true_iff in E as [Hf Hk%bool_decide_eq_true_1]. destruct (decide (k = lookup)) as [->|Hne].
        -- rewrite bmap_get_insert_eq. cbn [from_option id]. rewrite bset_insert_elem. split.
           ++ intros [[->|?]|(_ & _ & r' & s' & ? & ?)]; [right|by left|right]; (split_and!; [done|done|]).
              ** exists r, sym. split_and!; try done. by left.
              ** exists r', s'. split; [by right|done].
           ++ intros [?|(_ & _ & r' & s' & [->|?]%elem_of_cons & ? & ? & ->)]; [by left; right| |].
              ** left. left. congruence.
              ** right. split_and!; [done|done|]. by exists r', s'.
        -- rewrite bmap_get_insert_ne by done. naive_solver.
      * split.
        -- intros [?|(? & ? & r' & s' & ? & ?)]; [by left|right]. split_and!; [done|done|]. exists r', s'. split; [by right|done].
        -- intros [?|(? & Hf & r' & s' & [->|?]%elem_of_cons & Hk & ? & ->)]; [by left| |right].
           ++ rewrite Hf, Hk in E. cbn in E. done.
           ++ split_and!; [done|done|]. by exists r', s'.
    + split.
      * intros [?|(? & ? & r' & s' & ? & ?)]; [by left|right]. split_and!; [done|done|]. exists r', s'. split; [by right|done].
      * intros [?|(? & Hf & r' & s' & [->|?]%elem_of_cons & Hk & ? & ->)]; [by left|congruence|right]. split_and!; [done|done|]. by exists r', s'.
Qed.

Definition family_wf (m : BTreeMap CallableLookup (BTreeSet string)) : Prop :=
  bmap_wf m /\ forall k s, bmap_get k m = Some s -> bset_wf s.
Lemma family_fold_wf l : forall m, family_wf m -> family_wf (foldl (fun m r => note_family lookup (ir_posting r) m) m l).
Proof.
  induction l as [|r l IH]; intros m Hm; [done|]. cbn [foldl]. apply IH. unfold note_family. destruct (po_symbol_identity _); [|done].
  destruct (_ && _); [|done]. destruct Hm as [Hw Hs]. split; [by apply bmap_insert_wf|]. intros k s'. rewrite bmap_get_insert.
  assert (bset_wf (default [] (bmap_get lookup m))) as Hd.
  { destruct (bmap_get lookup m) eqn:E; [by eapply Hs|apply bset_nil_wf]. }
  destruct (cmp k lookup); [intros [= <-]; by apply bset_insert_wf|apply Hs..].
Qed.
End Components.

(** What the loop has established after some of the lookups. *)
Record answered (records : list CallableIndexRecord) (lookups : list CallableLookup) (st : QueryState) : Prop := mkAnswered {
  as_hits : forall l p a, (l, (p, a)) ∈ st_hits st <->
    l ∈ lookups /\ a = lookup_authority l p /\ exists r, r ∈ found records l /\ ir_posting r = p;
  as_hits_wf : bset_wf (st_hits st);
  as_unmatched : st_unmatched st = List.filter (fun l => bool_decide (found records l = [])) lookups;
  as_exact : forall l, bmap_get l (st_exact_declarations st) =
    if bool_decide (l ∈ lookups) && negb (bool_decide (List.filter (declares l) (found records l) = []))
    then Some (vlen (List.filter (declares l) (found records l))) else None;
  as_family : forall l x, x ∈ default [] (bmap_get l (st_family_symbols st)) <-> l ∈ lookups /\ names records l x;
  as_family_wf : family_wf (st_family_symbols st)
}.

Notation no_answers := {| st_hits := []; st_unmatched := []; st_shards_read := []; st_exact_declarations := []; st_family_symbols := [] |}.

Lemma answered_nil records : answered records [] no_answers.
Proof.
  split; cbn.
  - intros l p a. split; [by intros ?%not_elem_of_nil|by intros [?%not_elem_of_nil _]].
  - constructor.
  - done.
  - done.
  - intros l x. split; [by intros ?%not_elem_of_nil|by intros [?%not_elem_of_nil _]].
  - split; [constructor|done].
Qed.

Lemma answered_snoc records lookups st l : answered records lookups st -> l ∉ lookups ->
  answered records (lookups ++ [l]) (answer_lookup records st l).
Proof.
  intros [Hh Hw Hu He Hf Hfw] Hnew. unfold answer_lookup. destruct (found records l) as [|r0 rs] eqn:Hfound.
  - split; cbn [st_hits st_unmatched st_exact_declarations st_family_symbols]; try done.
    + intros k p a. rewrite Hh, elem_of_app, list_elem_of_singleton. split; [naive_solver|]. intros ([?| ->] & ? & r & Hr & ?); [naive_solver|].
      rewrite Hfound in Hr. by apply not_elem_of_nil in Hr.
    + rewrite List.filter_app, Hu. cbn [List.filter]. by rewrite bool_decide_eq_true_2.
    + intros k. rewrite He. destruct (decide (k = l)) as [->|Hne].
      * rewrite Hfound. cbn [List.filter]. rewrite (bool_decide_eq_true_2 ([] = [])) by done. by rewrite !andb_false_r.
      * rewrite (bool_decide_ext (k ∈ lookups) (k ∈ lookups ++ [l])); [done|]. rewrite elem_of_app, list_elem_of_singleton. naive_solver.
    + intros k x. rewrite Hf, elem_of_app, list_elem_of_singleton. split; [naive_solver|]. intros ([?| ->] & Hn); [done|].
      destruct Hn as (_ & r & s & Hr & _). rewrite Hfound in Hr. by apply not_elem_of_nil in Hr.
  - rewrite <- Hfound. split.
    + intros k p a. rewrite add_hits_hits, bset_extend_elem, Hh, elem_of_app, list_elem_of_singleton, list_elem_of_fmap. split.
      * intros [(? & ? & ?)|(r & [= -> -> ->] & ?)]; [naive_solver|]. split_and!; [by right|done|by exists r].
      * intros ([?| ->] & -> & r & Hr & <-); [left; split_and!; [done|done|by exists r]|right]. by exists r.
    + rewrite add_hits_hits. by apply bset_extend_wf.
    + rewrite add_hits_unmatched, Hu, List.filter_app. cbn [List.filter]. rewrite bool_decide_eq_false_2, app_nil_r by (rewrite Hfound; done). done.
    + intros k. rewrite add_hits_exact, count_fold, He. destruct (decide (k = l)) as [->|Hne].
      * rewrite (bool_decide_eq_true_2 (l = l)), (bool_decide_eq_false_2 (l ∈ lookups)), (bool_decide_eq_true_2 (l ∈ lookups ++ [l])) by set_solver.
        cbn [andb from_option id]. by destruct (negb _).
      * rewrite (bool_decide_eq_false_2 (k = l)) by done. cbn [andb].
        rewrite (bool_decide_ext (k ∈ lookups) (k ∈ lookups ++ [l])); [done|]. rewrite elem_of_app, list_elem_of_singleton. naive_solver.
    + intros k x. rewrite add_hits_family, family_fold, Hf, elem_of_app, list_elem_of_singleton. unfold names. naive_solver.
    + rewrite add_hits_family. by apply family_fold_wf.
Qed.

Lemma answers_all records lookups : NoDup lookups -> answered records lookups (foldl (answer_lookup records) no_answers lookups).
Proof.
  induction lookups as [|l lookups IH] using rev_ind; intros Hd; [apply answered_nil|]. rewrite foldl_app. cbn [foldl].
  apply list.NoDup_app in Hd as (Hd & Hn & _). apply answered_snoc; [by apply IH|]. intros Hin. apply (Hn l Hin), list_elem_of_singleton. done.
Qed.

(* --------------------------------------------------------------------- *)
(** ** The answer *)

(** Two symbols of one looked up family are declared. *)
Definition ambiguous (records : list CallableIndexRecord) (lookups : list CallableLookup) : Prop :=
  exists l x y, l ∈ lookups /\ names records l x /\ names records l y /\ x <> y.
(** A posting that is not exact was found, or the absence of one proves nothing. *)
Definition uncertain (prepared : PreparedCallableFactSet) (records : list CallableIndexRecord) (lookups : list CallableLookup) : Prop :=
  (exists l r, l ∈ lookups /\ r ∈ found records l /\ po_exact_eligible (ir_posting r) = false) \/
  (exists l, l ∈ lookups /\ found records l = [] /\ lookup_absence_is_unsure prepared l = true).
(** Every lookup is a full symbol with one exact declaration. *)
Definition all_declared (records : list CallableIndexRecord) (lookups : list CallableLookup) : Prop :=
  lookups <> [] /\ forall l, l ∈ lookups -> exists r, List.filter (declares l) (found records l) = [r].
Definition none_found (records : list CallableIndexRecord) (lookups : list CallableLookup) : Prop :=
  forall l, l ∈ lookups -> found records l = [].

Definition status_means (truncated uncertain none ambiguous declared : Prop) (s : CallableQueryStatus) : Prop :=
  match s with
  | QUnsure => truncated \/ uncertain
  | QNotFound => ~ (truncated \/ uncertain) /\ none
  | QAmbiguous => ~ (truncated \/ uncertain) /\ ~ none /\ ambiguous
  | QExactFullSymbol => ~ (truncated \/ uncertain) /\ ~ none /\ ~ ambiguous /\ declared
  | QNavigationOnly => ~ (truncated \/ uncertain) /\ ~ none /\ ~ ambiguous /\ ~ declared
  end.

Definition hit_of (h : CallableLookup * (CallablePosting * LookupAuthority)) : CallableQueryHit :=
  {| qh_lookup := h.1; qh_posting := h.2.1; qh_authority := h.2.2 |}.
(** [all] are the hits of a scan of the postings, in order. *)
Record scanned (records : list CallableIndexRecord) (lookups : list CallableLookup)
    (all : list (CallableLookup * (CallablePosting * LookupAuthority))) : Prop := mkScanned {
  sc_sorted : bset_wf all;
  sc_elem : forall l p a, (l, (p, a)) ∈ all <->
    l ∈ lookups /\ a = lookup_authority l p /\ exists r, r ∈ found records l /\ ir_posting r = p
}.
Record answers (prepared : PreparedCallableFactSet) (records : list CallableIndexRecord) (lookups : list CallableLookup) (max : N)
    (r : CallableQueryResult) : Prop := mkAnswers {
  an_requested : qs_requested_lookups r = lookups;
  an_hits : exists all, scanned records lookups all /\ qs_hits r = take (N.to_nat max) (hit_of <$> all) /\
    (qs_truncated r = true <-> max < vlen all);
  an_unmatched : qs_unmatched_lookups r = List.filter (fun l => bool_decide (found records l = [])) lookups;
  an_status : status_means (qs_truncated r = true) (uncertain prepared records lookups) (none_found records lookups)
    (ambiguous records lookups) (all_declared records lookups) (qs_status r)
}.

Lemma query_status_means (t u n a e : bool) (T Un N' Am D : Prop) : (t = true <-> T) -> (u = true <-> Un) -> (n = true <-> N') ->
  (a = true <-> Am) -> (e = true <-> D) -> status_means T Un N' Am D (query_status t u n a e).
Proof.
  intros Ht Hu Hn Ha He. unfold query_status. destruct t, u; cbn [orb status_means]; try (left; by apply Ht); try (right; by apply Hu).
  assert (~ (T \/ Un)) as Hc by (intros [?%Ht|?%Hu]; done).
  destruct n; cbn [status_means]; [split; [done|by apply Hn]|]. assert (~ N') as Hn' by (by intros ?%Hn).
  destruct a; cbn [status_means]; [split_and!; [done|done|by apply Ha]|]. assert (~ Am) as Ha' by (by intros ?%Ha).
  destruct e; cbn [status_means]; split_and!; try done; [by apply He|by intros ?%He].
Qed.

Section Answer.
Context {P : Primitives} {R : JsonReader} {U : Unicode}.
Context (prepared : PreparedCallableFactSet) (records : list CallableIndexRecord) (lookups : list CallableLookup) (st : QueryState).
Hypothesis Hst : answered records lookups st.

Lemma available_scanned : scanned records lookups (st_hits st).
Proof. split; [apply Hst|apply Hst]. Qed.

Lemma hits_empty : available_hits st = [] <-> none_found records lookups.
Proof.
  unfold available_hits. split.
  - intros H%fmap_nil_inv l Hl. destruct (found records l) as [|r rs] eqn:E; [done|].
    assert ((l, (ir_posting r, lookup_authority l (ir_posting r))) ∈ st_hits st) as Hin.
    { apply (as_hits _ _ _ Hst). split_and!; [done|done|]. exists r. rewrite E. split; [by left|done]. }
    rewrite H in Hin. by apply not_elem_of_nil in Hin.
  - intros Hn. destruct (st_hits st) as [|[l [p a]] hs] eqn:E; [done|].
    assert ((l, (p, a)) ∈ st_hits st) as (Hl & _ & r & Hr & _)%(as_hits _ _ _ Hst) by (rewrite E; by left).
    rewrite (Hn l Hl) in Hr. by apply not_elem_of_nil in Hr.
Qed.

Lemma unmatched_elem l : l ∈ st_unmatched st <-> l ∈ lookups /\ found records l = [].
Proof. rewrite (as_unmatched _ _ _ Hst), !list_elem_of_In, List.filter_In, bool_decide_eq_true. done. Qed.

Lemma unsure_iff : existsb (fun hit => bool_decide (qh_authority hit = AUnsure)) (available_hits st)
    || existsb (lookup_absence_is_unsure prepared) (st_unmatched st) = true <-> uncertain prepared records lookups.
Proof.
  rewrite orb_true_iff, !existsb_exists. unfold uncertain. apply Morphisms_Prop.or_iff_morphism.
  - split.
    + intros (h & Hin & Ha%bool_decide_eq_true_1). apply list_elem_of_In in Hin. unfold available_hits in Hin.
      apply list_elem_of_fmap in Hin as ([l [p a]] & -> & (Hl & -> & r & Hr & <-)%(as_hits _ _ _ Hst)). cbn in Ha.
      exists l, r. split_and!; [done|done|]. unfold lookup_authority in Ha. destruct (po_exact_eligible (ir_posting r)); [|done].
      by destruct (is_full_symbol l).
    + intros (l & r & Hl & Hr & He). exists (hit_of (l, (ir_posting r, AUnsure))). split; [|by apply bool_decide_eq_true_2].
      apply list_elem_of_In. unfold available_hits. apply list_elem_of_fmap. exists (l, (ir_posting r, AUnsure)). split; [done|].
      apply (as_hits _ _ _ Hst). split_and!; [done| |by exists r]. unfold lookup_authority. by rewrite He.
  - split.
    + intros (l & Hin%list_elem_of_In & Hu). apply unmatched_elem in Hin as [? ?]. by exists l.
    + intros (l & ? & ? & Hu). exists l. split; [|done]. apply list_elem_of_In, unmatched_elem. done.
Qed.

Lemma many_elements {A} `{LawfulOrd A} (s : list A) : bset_wf s -> (1 < vlen s <-> exists x y, x ∈ s /\ y ∈ s /\ x <> y).
Proof.
  intros Hw. destruct s as [|x [|y s]].
  - split; [intros Hlt; rewrite vlen_nil in Hlt; lia|]. intros (x & y & Hx & _). by apply not_elem_of_nil in Hx.
  - split; [intros Hlt; rewrite vlen_cons, vlen_nil in Hlt; lia|]. intros (a & b & ->%list_elem_of_singleton & ->%list_elem_of_singleton & ?). done.
  - split; [|intros _; rewrite !vlen_cons; lia]. intros _. exists x, y. split_and!; [by left|by right; left|].
    apply bset_wf_NoDup in Hw. apply list.NoDup_cons in Hw as [Hn _]. intros ->. apply Hn. by left.
Qed.

Lemma ambiguous_iff : existsb (fun symbols => 1 <? vlen symbols) (bmap_values (st_family_symbols st)) = true <-> ambiguous records lookups.
Proof.
  destruct (as_family_wf _ _ _ Hst) as [Hw Hs]. rewrite existsb_exists. split.
  - intros (s & Hin%list_elem_of_In & Hlt%N.ltb_lt). unfold bmap_values in Hin. apply list_elem_of_fmap in Hin as ([l s'] & -> & Hin).
    apply (bmap_get_elem _ _ _ Hw) in Hin. apply (many_elements _ (Hs _ _ Hin)) in Hlt as (x & y & Hx & Hy & Hne).
    assert (forall z, z ∈ s' -> l ∈ lookups /\ names records l z) as Hz.
    { intros z Hz. apply (as_family _ _ _ Hst). by rewrite Hin. }
    exists l, x, y. split_and!; [apply (Hz x Hx)|apply (Hz x Hx)|apply (Hz y Hy)|done].
  - intros (l & x & y & Hl & Hx & Hy & Hne).
    assert (forall z, names records l z -> z ∈ default [] (bmap_get l (st_family_symbols st))) as Hz by (intros z Hz; by apply (as_family _ _ _ Hst)).
    apply Hz in Hx, Hy. destruct (bmap_get l (st_family_symbols st)) as [s|] eqn:E; [|by apply not_elem_of_nil in Hx].
    exists s. split; [|apply N.ltb_lt, (many_elements _ (Hs _ _ E)); by exists x, y].
    apply list_elem_of_In. unfold bmap_values. apply list_elem_of_fmap. exists (l, s). split; [done|]. by apply (bmap_get_elem _ _ _ Hw).
Qed.

Lemma declared_one l : l ∈ lookups -> bmap_get l (st_exact_declarations st) = Some 1 <-> exists r, List.filter (declares l) (found records l) = [r].
Proof.
  intros Hl. rewrite (as_exact _ _ _ Hst), bool_decide_eq_true_2 by done. cbn [andb]. split.
  - destruct (List.filter (declares l) (found records l)) as [|r [|r' rs]]; [done|by exists r|]. cbn. intros [=]. lia.
  - intros [r ->]. done.
Qed.

Lemma all_exact_iff : negb (bool_decide (lookups = [])) && forallb is_full_symbol lookups && bool_decide (st_unmatched st = [])
    && forallb (fun lookup => bool_decide (bmap_get lookup (st_exact_declarations st) = Some 1)) lookups = true <-> all_declared records lookups.
Proof.
  rewrite !andb_true_iff, negb_true_iff, bool_decide_eq_false, bool_decide_eq_true, !forallb_forall. setoid_rewrite <- list_elem_of_In.
  setoid_rewrite bool_decide_eq_true. unfold all_declared. split.
  - intros [[[Hne _] _] He]. split; [done|]. intros l Hl. by apply declared_one, He.
  - intros [Hne He]. split_and!; [done| | |by intros l Hl; apply declared_one, He].
    + intros l Hl. destruct (He l Hl) as [r Hr]. assert (r ∈ List.filter (declares l) (found records l)) as Hin by (rewrite Hr; by left).
      apply list_elem_of_In, List.filter_In in Hin as [_ Hd]. unfold declares in Hd. by destruct (is_full_symbol l).
    + destruct (st_unmatched st) as [|l ls] eqn:E; [done|]. assert (l ∈ st_unmatched st) as [Hl Hf]%unmatched_elem by (rewrite E; by left).
      destruct (He l Hl) as [r Hr]. by rewrite Hf in Hr.
Qed.

Lemma conclude_answers max : answers prepared records lookups max (qt_result (conclude prepared lookups max st)).
Proof.
  split; cbn [conclude qt_result qs_requested_lookups qs_hits qs_truncated qs_unmatched_lookups qs_status].
  - done.
  - exists (st_hits st). split_and!; [apply available_scanned|done|]. rewrite N.ltb_lt. unfold available_hits, vlen. by rewrite length_fmap.
  - apply Hst.
  - apply query_status_means; [done|apply unsure_iff|rewrite bool_decide_eq_true; apply hits_empty|apply ambiguous_iff|apply all_exact_iff].
Qed.
End Answer.
