(* ===== verification/CallableResults.v ===== *)
(** * Results of the callable index

    A verified fact set answers a query as a scan of all its postings would; an
    answer with the status of an exact symbol names its one declaration, and an answer
    that finds nothing proves absence.  A sealed fact set is indexed by the postings of its rows. *)

From S2P Require Import Prelude Order Collections Text Json Canonical Instances JsonFormat JsonRead Errors CasObject CatalogCodec ThreadCallables QueryTerms CallableIndex CallableCodec CallablePacking CallableQuery CallableSpec.
From S2P Require JvmIdentity.

(* --------------------------------------------------------------------- *)
(** ** Postings and facts *)

(** The fact declares the symbol in the namespace, or is an exact use of it. *)
Definition about (namespace symbol : string) (fact : CallableFact) : Prop :=
  match fact with
  | Declaration row => pv_repository_namespace (df_provenance row) = namespace /\ df_symbol_identity row = symbol
  | Use row => uf_target_resolution row = ExactSymbol /\ uf_target_repository_namespace row = Some namespace /\
               uf_target_symbol_identity row = Some symbol
  | Boundary _ => False
  end.
Definition identity_of (row : DeclarationFact) : string * string := (pv_repository_namespace (df_provenance row), df_symbol_identity row).

Section Facts.
Context {P : Primitives} {R : JsonReader} {U : Unicode}.

Definition posting_of (facts : list CallableFact) (r : CallableIndexRecord) : Prop :=
  exists fact keys, fact ∈ facts /\ keys_of_fact fact = Ok keys /\ ir_key r ∈ keys /\ ir_posting r = posting_for_fact fact.

Lemma add_records_ok facts : forall recs records, bset_wf recs -> try_fold add_index_records recs facts = Ok records ->
  bset_wf records /\ (forall fact, fact ∈ facts -> exists keys, keys_of_fact fact = Ok keys) /\
  forall r, r ∈ records <-> r ∈ recs \/ posting_of facts r.
Proof.
  induction facts as [|fact facts IH]; intros recs records Hw H.
  - injection H as <-. split_and!; [done|by intros f ?%not_elem_of_nil|]. intros r. split; [by left|].
    intros [?|(f & k & Hf & _)]; [done|by apply not_elem_of_nil in Hf].
  - cbn [try_fold] in H. apply result_bind_ok in H as (recs1 & H1 & H). unfold add_index_records in H1.
    apply result_bind_ok in H1 as (keys & Hk & [= <-]). apply IH in H as (Hw' & Hall & Hr); [|by apply bset_extend_wf].
    split_and!; [done| |].
    + intros f [->|Hf]%elem_of_cons; [by exists keys|by apply Hall].
    + intros r. rewrite Hr, bset_extend_elem, list_elem_of_fmap. split.
      * intros [[?|(k & -> & Hin)]|(f & ks & ? & ? & ? & ?)]; [by left|right|right].
        -- exists fact, keys. split_and!; try done. by left.
        -- exists f, ks. split_and!; try done. by right.
      * intros [?|(f & ks & [->|Hf]%elem_of_cons & Hks & Hin & Hp)]; [by left; left|left; right|right; by exists f, ks].
        assert (ks = keys) as -> by congruence. exists (ir_key r). split; [|done]. destruct r. cbn in *. congruence.
Qed.

Lemma build_records_ok facts records : build_index_records facts = Ok records ->
  bset_wf records /\ (forall fact, fact ∈ facts -> exists keys, keys_of_fact fact = Ok keys) /\
  forall r, r ∈ records <-> posting_of facts r.
Proof.
  intros H. destruct (add_records_ok facts [] records bset_nil_wf H) as (Hw & Hk & Hr). split_and!; [done|done|]. intros r. rewrite Hr.
  split; [intros [?%not_elem_of_nil|?]; done|by right].
Qed.

(** The full-symbol keys of a fact. *)
Lemma full_symbol_keys fact keys namespace symbol : keys_of_fact fact = Ok keys ->
  full_symbol_key (Some namespace) symbol ∈ keys <-> about namespace symbol fact.
Proof.
  intros H. unfold keys_of_fact in H. apply result_bind_ok in H as ([ks searchable] & Hk & H).
  apply result_bind_ok in H as (terms & _ & [= <-]). rewrite bset_extend_elem.
  assert (full_symbol_key (Some namespace) symbol ∈ token_key <$> terms <-> False) as ->.
  { split; [|done]. by intros (t & ? & _)%list_elem_of_fmap. }
  rewrite (or_comm _ False). assert (forall A : Prop, (False \/ A) <-> A) as -> by tauto.
  destruct fact as [row|row|row]; cbn [fact_keys about] in *.
  - destruct (option_or _ _) as [c|]; cbn beta iota zeta in Hk; apply result_bind_ok in Hk as (s & _ & [= <- _]);
      unfold full_symbol_key, family_key; (split; [|intros [-> ->]; by left]); intros Hin; repeat (apply elem_of_cons in Hin as [Hin|Hin]);
      simplify_eq; try done; by apply not_elem_of_nil in Hin.
  - apply result_bind_ok in Hk as (k1 & Hk1 & Hk). apply result_bind_ok in Hk as (s & _ & [= <- _]).
    assert (full_symbol_key (Some namespace) symbol ∈ k1 <-> about namespace symbol (Use row)) as Hin.
    { cbn [about]. destruct (bool_decide (uf_target_resolution row = ExactSymbol)) eqn:E.
      - apply bool_decide_eq_true_1 in E. destruct (uf_target_symbol_identity row) as [sym|]; [|done]. apply Ok_inj in Hk1 as <-.
        rewrite bset_insert_elem. unfold full_symbol_key. split; [|intros (_ & -> & [= ->]); by left].
        intros [[= <- <-]|?%not_elem_of_nil]; done.
      - injection Hk1 as <-. apply bool_decide_eq_false_1 in E. split; [by intros ?%not_elem_of_nil|tauto]. }
    cbn [about] in Hin. rewrite <- Hin. destruct (uf_target_repository_namespace row); rewrite !bset_insert_elem; unfold full_symbol_key, family_key;
      (split; [|tauto]); intros Hor; destruct_or?; simplify_eq; done.
  - injection Hk as <- _. split; [by intros ?%not_elem_of_nil|done].
Qed.

Lemma posting_declares fact : po_fact_kind (posting_for_fact fact) = FDeclaration <-> exists row, fact = Declaration row.
Proof. destruct fact; cbn; split; try done; [by intros _; eexists|by intros [? ?]..]. Qed.

Lemma identities_unique rows : reject_duplicate_declarations rows = Ok tt -> NoDup (identity_of <$> rows).
Proof.
  unfold reject_duplicate_declarations. intros H. apply ignore_ok in H as [[ids H] _].
  assert (forall pre ids0, bset_wf ids0 -> NoDup pre -> (forall x, x ∈ ids0 <-> x ∈ pre) -> try_fold add_identity ids0 rows = Ok ids ->
    NoDup (pre ++ (identity_of <$> rows))) as Hgen.
  { clear H. induction rows as [|row rows IH]; intros pre ids0 Hw Hd Hin H; [by rewrite app_nil_r|].
    cbn [try_fold] in H. apply result_bind_ok in H as (ids1 & H1 & H). unfold add_identity in H1. fold (identity_of row) in H1.
    destruct (bset_contains (identity_of row) ids0) eqn:E; [done|]. injection H1 as <-. apply bset_contains_false in E.
    rewrite fmap_cons, cons_middle, app_assoc. apply (IH (pre ++ [identity_of row]) (bset_insert (identity_of row) ids0)); [by apply bset_insert_wf| | |done].
    - apply list.NoDup_app. split_and!; [done| |apply NoDup_singleton]. intros x Hx ->%list_elem_of_singleton. by apply E, Hin.
    - intros x. rewrite bset_insert_elem, elem_of_app, list_elem_of_singleton, Hin. tauto. }
  apply (Hgen [] []); [apply bset_nil_wf|constructor|done|done].
Qed.

Lemma NoDup_fmap_eq {A B} (f : A -> B) l x y : NoDup (f <$> l) -> x ∈ l -> y ∈ l -> f x = f y -> x = y.
Proof.
  induction l as [|a l IH]; intros Hd Hx Hy He; [by apply not_elem_of_nil in Hx|]. rewrite fmap_cons in Hd.
  apply list.NoDup_cons in Hd as [Hn Hd]. apply elem_of_cons in Hx as [->|Hx], Hy as [->|Hy]; [done| | |by apply IH].
  - destruct Hn. rewrite He. by apply list_elem_of_fmap_2.
  - destruct Hn. rewrite <- He. by apply list_elem_of_fmap_2.
Qed.

Lemma declarations_elem facts row : row ∈ declarations_of facts <-> Declaration row ∈ facts.
Proof.
  unfold declarations_of. rewrite list_elem_of_omap. split; [|intros H; by exists (Declaration row)].
  intros ([r|r|r] & Hin & [= ->]). done.
Qed.
End Facts.

(* --------------------------------------------------------------------- *)
(** ** Queries of a verified set *)

Section Queries.
Context {P : Primitives} {R : JsonReader} {U : Unicode}.

Lemma normalized_NoDup request lookups : normalized_lookups request = Ok lookups -> NoDup lookups.
Proof.
  unfold normalized_lookups. destruct (_ || _); [done|]. intros H. apply result_bind_ok in H as (ls & _ & H).
  destruct (_ <? _); [done|]. injection H as <-. apply bset_wf_NoDup, sort_dedup_wf.
Qed.

(** The whole query, on a set whose shards are known. *)
Lemma query_answers prepared facts records shards request lookups : verified prepared facts records shards -> distinct_shards prepared ->
  normalized_lookups request = Ok lookups ->
  exists trace, query_verified_with_trace prepared request = Ok trace /\
    answers prepared records lookups (qr_max_results request) (qt_result trace) /\
    forall o, o ∈ qt_query_shard_refs trace <-> exists lookup r, lookup ∈ lookups /\ r ∈ cqi_shards (prepared_query_index prepared) /\
      in_range (index_key_for_lookup lookup) r = true /\ o = csr_object r.
Proof.
  intros Hv Hd Hl. unfold query_verified_with_trace. rewrite Hl. cbn [result_bind].
  destruct (scan_lookups_ok prepared facts records shards Hv Hd lookups no_answers) as (read & Hr & [Hw Hok] & Hm); [by split; [constructor|]|].
  rewrite Hr. cbn [result_bind]. eexists. split_and!; [done| |].
  - apply conclude_answers. pose proof (answers_all records lookups (normalized_NoDup _ _ Hl)) as [? ? ? ? ? ?]. by split.
  - intros o. cbn [conclude qt_query_shard_refs set_read st_shards_read]. unfold bmap_values. rewrite list_elem_of_fmap. split.
    + intros ([d o'] & -> & Hin). apply (bmap_get_elem _ _ _ Hw), Hm in Hin as [?|(l & r & ? & ? & ? & ? & _)]; [done|]. by exists l, r.
    + intros (l & r & ? & ? & ? & ->). exists (digest (csr_object r), csr_object r). split; [done|]. apply (bmap_get_elem _ _ _ Hw), Hm.
      right. by exists l, r.
Qed.

Lemma query_verified_set prepared request : verify_prepared prepared = Ok tt -> distinct_shards prepared ->
  exists facts records, verified_rows prepared = Ok (facts, records) /\ build_index_records facts = Ok records /\
    reject_duplicate_declarations (declarations_of facts) = Ok tt /\
    match normalized_lookups request with
    | Err e => query_prepared prepared request = Err e
    | Ok lookups => exists trace, query_verified_with_trace prepared request = Ok trace /\
        query_prepared prepared request = Ok (qt_result trace) /\
        answers prepared records lookups (qr_max_results request) (qt_result trace) /\
        forall o, o ∈ qt_query_shard_refs trace <-> exists lookup r, lookup ∈ lookups /\ r ∈ cqi_shards (prepared_query_index prepared) /\
          in_range (index_key_for_lookup lookup) r = true /\ o = csr_object r
    end.
Proof.
  intros Hv Hd. destruct (verify_prepared_ok prepared Hv) as (facts & records & shards & Hrows & Hver). exists facts, records.
  split_and!; [done|apply Hver|apply Hver|]. unfold query_prepared, query_verified. rewrite Hv. cbn [result_bind].
  destruct (normalized_lookups request) as [lookups|e] eqn:Hl.
  - destruct (query_answers prepared facts records shards request lookups Hver Hd Hl) as (trace & Ht & Ha & Hs).
    exists trace. split_and!; [done| |done|done]. by rewrite Ht.
  - unfold query_verified_with_trace. by rewrite Hl.
Qed.

(** A query of a verified fact set answers what a scan of its postings would.
    The postings are those of the facts of the set; a request whose lookups are
    admitted is answered (the shards never fail), with every hit of the scan in order
    up to the limit, the lookups without one, and the status that the hits imply; the
    shards that are read are those whose range of keys contains a looked up key. *)
Theorem query_scans_the_postings prepared request : verify_prepared prepared = Ok tt -> distinct_shards prepared ->
  exists facts records, verified_rows prepared = Ok (facts, records) /\ (forall r, r ∈ records <-> posting_of facts r) /\
    match normalized_lookups request with
    | Err e => query_prepared prepared request = Err e
    | Ok lookups => exists trace, query_verified_with_trace prepared request = Ok trace /\
        query_prepared prepared request = Ok (qt_result trace) /\
        answers prepared records lookups (qr_max_results request) (qt_result trace) /\
        forall o, o ∈ qt_query_shard_refs trace <-> exists lookup r, lookup ∈ lookups /\ r ∈ cqi_shards (prepared_query_index prepared) /\
          in_range (index_key_for_lookup lookup) r = true /\ o = csr_object r
    end.
Proof.
  intros Hv Hd. destruct (query_verified_set prepared request Hv Hd) as (facts & records & Hr & Hb & _ & Hq). exists facts, records.
  split_and!; [done|by apply build_records_ok|done].
Qed.

(** What a successful query rests on. *)
Lemma query_prepared_ok prepared request r : query_prepared prepared request = Ok r -> distinct_shards prepared ->
  exists facts records lookups, verified_rows prepared = Ok (facts, records) /\ build_index_records facts = Ok records /\
    reject_duplicate_declarations (declarations_of facts) = Ok tt /\ normalized_lookups request = Ok lookups /\
    answers prepared records lookups (qr_max_results request) r.
Proof.
  intros H Hd. assert (verify_prepared prepared = Ok tt) as Hv by (by apply seq_ok in H as [? _]).
  destruct (query_verified_set prepared request Hv Hd) as (facts & records & Hr & Hb & Hu & Hq). exists facts, records.
  destruct (normalized_lookups request) as [lookups|e]; [|congruence]. destruct Hq as (trace & _ & Hq & Ha & _). exists lookups.
  assert (r = qt_result trace) as -> by congruence. done.
Qed.

(** The status EXACT_FULL_SYMBOL names the declaration.  Every requested lookup is
    then a full symbol of a namespace; the verified facts hold one declaration of
    it, which is exactly known; and every fact that declares the symbol or is an exact
    use of it is among the hits with exact authority, none cut off. *)
Theorem exact_answer_names_the_declaration prepared request r : query_prepared prepared request = Ok r -> distinct_shards prepared ->
  qs_status r = QExactFullSymbol ->
  exists facts records, verified_rows prepared = Ok (facts, records) /\ forall l, l ∈ qs_requested_lookups r ->
    exists namespace symbol row, l = LFullSymbol namespace symbol /\ Declaration row ∈ facts /\ identity_of row = (namespace, symbol) /\
      df_exact_eligible row = true /\
      (forall row', Declaration row' ∈ facts -> identity_of row' = (namespace, symbol) -> row' = row) /\
      (forall fact, fact ∈ facts -> about namespace symbol fact ->
        {| qh_lookup := l; qh_posting := posting_for_fact fact; qh_authority := AExactFullSymbol |} ∈ qs_hits r).
Proof.
  intros H Hd Hs. destruct (query_prepared_ok _ _ _ H Hd) as (facts & records & lookups & Hrows & Hb & Hu & _ & [Hreq Hhits _ Hst]).
  exists facts, records. split; [done|]. rewrite Hs in Hst. cbn [status_means] in Hst. destruct Hst as (Hsure & _ & _ & _ & Hdecl).
  rewrite Hreq. intros l Hl. destruct (build_records_ok _ _ Hb) as (_ & Hkeys & Hrec).
  destruct (Hdecl l Hl) as [x Hx]. assert (x ∈ List.filter (declares l) (found records l)) as [Hin Hdec]%list_elem_of_In%List.filter_In by (rewrite Hx; by left).
  apply list_elem_of_In, found_elem in Hin as [Hin Hkey]. unfold declares in Hdec. apply andb_true_iff in Hdec as [[Hfull Hkind%bool_decide_eq_true_1]%andb_true_iff Hauth%bool_decide_eq_true_1].
  destruct l as [namespace symbol| |]; [|done..]. cbn [index_key_for_lookup] in Hkey.
  apply Hrec in Hin as (fact & keys & Hfact & Hk & Hkin & Hp). rewrite Hkey in Hkin. apply (full_symbol_keys _ _ _ _ Hk) in Hkin.
  rewrite Hp in Hkind, Hauth. apply posting_declares in Hkind as [row ->]. exists namespace, symbol, row.
  assert (identity_of row = (namespace, symbol)) as Hid by (destruct Hkin as [<- <-]; done).
  split_and!; [done|done|done| | |].
  - unfold lookup_authority in Hauth. cbn in Hauth. by destruct (df_exact_eligible row).
  - intros row' Hrow' Hid'. apply (NoDup_fmap_eq identity_of (declarations_of facts)); [by apply identities_unique|by apply declarations_elem..|congruence].
  - intros f Hf Hab. destruct Hhits as (all & [_ Hall] & -> & Htr). destruct (Hkeys f Hf) as [ks Hks].
    set (rec := {| ir_key := full_symbol_key (Some namespace) symbol; ir_posting := posting_for_fact f |}).
    assert (rec ∈ found records (LFullSymbol namespace symbol)) as Hrf.
    { apply found_elem. split; [|done]. apply Hrec. exists f, ks. split_and!; [done|done|by apply (full_symbol_keys _ _ _ _ Hks)|done]. }
    assert (po_exact_eligible (posting_for_fact f) = true) as He.
    { destruct (po_exact_eligible (posting_for_fact f)) eqn:E; [done|]. destruct Hsure. right. left. by exists (LFullSymbol namespace symbol), rec. }
    rewrite take_ge.
    + apply list_elem_of_fmap. exists (LFullSymbol namespace symbol, (posting_for_fact f, AExactFullSymbol)). split; [done|]. apply Hall.
      split_and!; [done|unfold lookup_authority; by rewrite He|by exists rec].
    + rewrite length_fmap. assert (~ qr_max_results request < vlen all) as Hle by (intros ?%Htr; apply Hsure; by left). unfold vlen in Hle. lia.
Qed.

(* --------------------------------------------------------------------- *)
(** ** Absence *)

(** The members a lookup in a namespace is about, and those whose declarations are all known. *)
Definition in_scope (namespace : option string) (member : CallableMemberBinding) : Prop :=
  match namespace with Some n => n = mb_repository_namespace member | None => True end.
Definition described (member : CallableMemberBinding) : Prop :=
  mb_compilations member <> [] /\ forall c, c ∈ mb_compilations member -> cb_descriptor_coverage c = CompleteSupportedSubset.
(** The facts of the set would show a match if there were one. *)
Definition scope_known (prepared : PreparedCallableFactSet) (lookup : CallableLookup) : Prop :=
  let members := fa_members (prepared_authority prepared) in
  let within namespace := (exists m, m ∈ members /\ in_scope namespace m) /\ forall m, m ∈ members -> in_scope namespace m -> described m in
  match lookup with
  | LFullSymbol namespace _ => within (Some namespace)
  | LCallableFamily namespace _ => within namespace
  | LToken _ => members <> [] /\ forall m c, m ∈ members -> c ∈ mb_compilations m ->
      cb_descriptor_coverage c = CompleteSupportedSubset /\ cb_relation_coverage c = CompleteSupportedSubset
  end.

Lemma scope_complete_iff namespace members : forall n, scope_complete namespace members n = true <->
  (0 < n \/ exists m, m ∈ members /\ in_scope namespace m) /\ forall m, m ∈ members -> in_scope namespace m -> described m.
Proof.
  induction members as [|m members IH]; intros n; cbn [scope_complete].
  - rewrite N.ltb_lt. split; [intros Hn; split; [by left|by intros m ?%not_elem_of_nil]|]. intros [[?|(m & ?%not_elem_of_nil & _)] _]; done.
  - destruct (match namespace with Some n => str_neqb n (mb_repository_namespace m) | None => false end) eqn:E.
    + assert (~ in_scope namespace m) as Hout.
      { destruct namespace as [ns|]; [|done]. cbn. intros ->. by rewrite str_neqb_refl in E. }
      rewrite IH. split.
      * intros [Hn Hd]. split; [destruct Hn as [?|(x & ? & ?)]; [by left|right; exists x; split; [by right|done]]|].
        intros x [->|Hx]%elem_of_cons Hs; [done|by apply Hd].
      * intros [Hn Hd]. split; [destruct Hn as [?|(x & [->|?]%elem_of_cons & ?)]; [by left|done|right; by exists x]|].
        intros x Hx. apply Hd. by right.
    + assert (in_scope namespace m) as Hin.
      { destruct namespace as [ns|]; [|done]. cbn. by apply str_neqb_false. }
      assert (bool_decide (mb_compilations m = []) || existsb (fun c => bool_decide (cb_descriptor_coverage c = PartialGraph)) (mb_compilations m) = false
        <-> described m) as Hdesc.
      { rewrite orb_false_iff, bool_decide_eq_false. unfold described. apply Morphisms_Prop.and_iff_morphism; [done|]. rewrite existsb_false, list.Forall_forall.
        split; intros H c Hc; specialize (H c Hc); [apply bool_decide_eq_false_1 in H; by destruct (cb_descriptor_coverage c)|].
        apply bool_decide_eq_false_2. by rewrite H. }
      destruct (_ || _) eqn:Hd.
      * split; [done|]. intros [_ Hall]. exfalso. assert (described m) as H%Hdesc; [apply Hall; [by left|done]|]. done.
      * rewrite IH. split; intros [Hn Hall]; (split; [|intros x Hx Hs]).
        -- right. exists m. split; [by left|done].
        -- apply elem_of_cons in Hx as [->|Hx]; [by apply Hdesc|by apply Hall].
        -- left. lia.
        -- apply Hall; [by right|done].
Qed.

Lemma absence_known prepared lookup : lookup_absence_is_unsure prepared lookup = false <-> scope_known prepared lookup.
Proof.
  assert (forall namespace, negb (descriptor_scope_is_complete prepared namespace) = false <->
    (exists m, m ∈ fa_members (prepared_authority prepared) /\ in_scope namespace m) /\
    forall m, m ∈ fa_members (prepared_authority prepared) -> in_scope namespace m -> described m) as Hwithin.
  { intros namespace. rewrite negb_false_iff. unfold descriptor_scope_is_complete. rewrite scope_complete_iff.
    split; intros [Hn Hall]; (split; [|done]); [destruct Hn as [?|?]; [lia|done]|by right]. }
  destruct lookup as [namespace s|namespace c|t]; cbn [lookup_absence_is_unsure scope_known]; [apply Hwithin..|].
  rewrite orb_false_iff, bool_decide_eq_false. apply Morphisms_Prop.and_iff_morphism; [done|]. unfold has_partial_compilation. rewrite existsb_false, list.Forall_forall.
  setoid_rewrite list_elem_of_In. setoid_rewrite List.in_flat_map. unfold partial_compilation. split.
  - intros H m c Hm Hc. specialize (H c (ex_intro _ m (conj Hm Hc))). apply orb_false_iff in H as [H1 H2].
    apply bool_decide_eq_false_1 in H1, H2. by destruct (cb_descriptor_coverage c), (cb_relation_coverage c).
  - intros H c (m & Hm & Hc). destruct (H m c Hm Hc) as [-> ->]. done.
Qed.

(** The status NOT_FOUND proves absence.  The answer then has no hit, no fact of
    the set is posted under any requested lookup (for a full symbol: no fact declares it in its
    namespace or uses it exactly), and the facts would show one: every member in the scope of the lookup
    was compiled, with complete descriptors, and there is such a member. *)
Theorem not_found_is_absence prepared request r : query_prepared prepared request = Ok r -> distinct_shards prepared ->
  qs_status r = QNotFound ->
  exists facts records, verified_rows prepared = Ok (facts, records) /\ qs_hits r = [] /\ forall l, l ∈ qs_requested_lookups r ->
    scope_known prepared l /\
    (forall fact keys, fact ∈ facts -> keys_of_fact fact = Ok keys -> index_key_for_lookup l ∉ keys) /\
    (forall namespace symbol fact, l = LFullSymbol namespace symbol -> fact ∈ facts -> ~ about namespace symbol fact).
Proof.
  intros H Hd Hs. destruct (query_prepared_ok _ _ _ H Hd) as (facts & records & lookups & Hrows & Hb & _ & _ & [Hreq Hhits _ Hst]).
  exists facts, records. rewrite Hs in Hst. cbn [status_means] in Hst. destruct Hst as (Hsure & Hnone).
  destruct (build_records_ok _ _ Hb) as (_ & Hkeys & Hrec). split_and!; [done| |].
  - destruct Hhits as (all & [_ Hall] & -> & _). destruct all as [|[l [p a]] all]; [by destruct (N.to_nat (qr_max_results request))|].
    destruct (proj1 (Hall l p a)) as (Hl & _ & x & Hx & _); [by left|]. rewrite (Hnone l Hl) in Hx. by apply not_elem_of_nil in Hx.
  - rewrite Hreq. intros l Hl.
    assert (forall fact keys, fact ∈ facts -> keys_of_fact fact = Ok keys -> index_key_for_lookup l ∉ keys) as Hno.
    { intros fact keys Hf Hk Hin. assert ({| ir_key := index_key_for_lookup l; ir_posting := posting_for_fact fact |} ∈ found records l) as Hx.
      { apply found_elem. split; [|done]. apply Hrec. by exists fact, keys. }
      rewrite (Hnone l Hl) in Hx. by apply not_elem_of_nil in Hx. }
    split_and!; [|done|].
    + apply absence_known. destruct (lookup_absence_is_unsure prepared l) eqn:E; [|done]. destruct Hsure. right. right. exists l. by rewrite (Hnone l Hl).
    + intros namespace symbol fact -> Hf Hab. destruct (Hkeys fact Hf) as [keys Hk]. apply (Hno fact keys Hf Hk). cbn [index_key_for_lookup]. by apply (full_symbol_keys fact).
Qed.
End Queries.

(* --------------------------------------------------------------------- *)
(** ** Sealed sets *)

(** The rows that are sealed, in the order of the shards. *)
Definition sealed_rows (input : NormalizedInput) : list CallableFact :=
  sort_by (cmp_on fact_id) ((Declaration <$> ni_declarations input) ++ (Use <$> ni_uses input) ++ (Boundary <$> ni_boundaries input)).
Definition row_typed (fact : CallableFact) : Prop :=
  match pv_source (provenance fact) with Some a => position_typed (sa_start a) /\ position_typed (sa_end a) | None => True end.

Section Sealing.
Context {P : Primitives} {R : JsonReader} {U : Unicode} {W : WriterLaws P} {RL : ReaderLaws P R}.

Definition binding_digest_of (input : NormalizedInput) : string :=
  hash (binding_material (ni_request input) (ni_visited_fact_count input) (ni_visited_payload_bytes input) (ni_members input) (ni_payloads input)).

Lemma seal_ok input prepared : seal_fact_set input = Ok prepared ->
  verify_prepared prepared = Ok tt /\ exists records, build_index_records (sealed_rows input) = Ok records /\
    build_query_shards (binding_digest_of input) records (fq_budgets (ni_request input)) =
      Ok (prepared_query_shards prepared, cqi_shards (prepared_query_index prepared)).
Proof.
  unfold seal_fact_set. fold (binding_digest_of input). intros H. apply guard_ok in H as [_ H].
  apply result_bind_ok in H as ([fs frefs] & _ & H). apply result_bind_ok in H as (records & Hr & H).
  apply result_bind_ok in H as ([qs qrefs] & Hq & H). destruct (index_key_counts records) as [[e f] t].
  apply result_bind_ok in H as (iref & _ & H). apply result_bind_ok in H as (eref & _ & H). apply result_bind_ok in H as (closure & _ & H).
  apply guard_ok in H as [_ H]. apply guard_ok in H as [_ H]. apply seq_ok in H as [Hv [= <-]]. split; [exact Hv|]. exists records. by split.
Qed.

Lemma posting_of_typed facts r : Forall row_typed facts -> posting_of facts r -> posting_typed (ir_posting r).
Proof.
  rewrite list.Forall_forall. intros Ht (fact & keys & Hf & _ & _ & ->). specialize (Ht fact Hf). unfold row_typed in Ht. unfold posting_typed.
  destruct fact as [row|row|row]; cbn [posting_for_fact po_source_start po_source_end]; destruct (pv_source _) as [a|]; done.
Qed.

(** The shards of a cut read as what was cut. *)
Lemma cut_reads bd max records chunks out shards : cut bd max records chunks out ->
  (forall r, r ∈ records -> posting_typed (ir_posting r)) -> Forall2 reads_as (zip out.2 out.1) shards -> concat (cqs_records <$> shards) = records.
Proof.
  intros [-> -> -> _ _ Hseq] Htyped. clear max. revert shards. induction chunks as [|c chunks IH]; intros shards H; [by inversion H|].
  rewrite !fmap_cons in H. cbn [zip zip_with] in H. inversion H as [|? shard ? shards' [Hd _ _ _] Hss]; subst. cbn [snd] in Hd.
  rewrite !fmap_cons in *. cbn [concat] in *. f_equal.
  - cbn [query_object_of pco_bytes] in Hd. rewrite query_shard_read in Hd; [by injection Hd as <-|]. split.
    + apply Hseq. by left.
    + apply list.Forall_forall. intros r Hr. apply Htyped, elem_of_app. by left.
  - apply IH; [by intros c' Hc'; apply Hseq; right| |done]. intros r Hr. apply Htyped, elem_of_app. by right.
Qed.

(** A sealed fact set answers for exactly the rows it was made of.  The postings that
    verification reads back from its shards are those of the rows, and every admitted request is
    answered by them: whatever the sealed bytes are, cutting, encoding and decoding the
    shards lost and added nothing. *)
Theorem sealed_set_answers_for_its_rows input prepared : seal_fact_set input = Ok prepared -> Forall row_typed (sealed_rows input) ->
  distinct_shards prepared ->
  exists facts records, verified_rows prepared = Ok (facts, records) /\ (forall r, r ∈ records <-> posting_of (sealed_rows input) r) /\
    forall request lookups, normalized_lookups request = Ok lookups ->
      exists r, query_prepared prepared request = Ok r /\ answers prepared records lookups (qr_max_results request) r.
Proof.
  intros H Ht Hd. destruct (seal_ok _ _ H) as (Hv & records & Hr & Hq). destruct (build_records_ok _ _ Hr) as (_ & _ & Hrec).
  destruct (verify_prepared_ok _ Hv) as (facts & records' & shards & Hrows & Hver).
  destruct (build_query_shards_ok _ _ _ _ Hq) as [chunks Hcut].
  assert (records' = records) as ->.
  { rewrite (vf_records _ _ _ _ Hver). eapply cut_reads; [exact Hcut| |apply Hver]. intros r Hin. by apply (posting_of_typed _ _ Ht), Hrec. }
  exists facts, records. split_and!; [done|done|]. intros request lookups Hl.
  destruct (query_answers prepared facts records shards request lookups Hver Hd Hl) as (trace & Htr & Ha & _).
  exists (qt_result trace). split; [|done]. unfold query_prepared, query_verified. by rewrite Hv, Htr.
Qed.
End Sealing.

(* --------------------------------------------------------------------- *)
(** ** An example: [f] calls [g], and nothing is named [h] *)

Module CallableExample.
#[local] Existing Instance toy.
#[local] Existing Instance toy_reader.
#[local] Existing Instance AsciiTables.tables.

Definition object (schema text : string) : CasObject :=
  {| schema := CAS_OBJECT_SCHEMA; object_schema := schema; digest := object_digest schema (as_bytes text); size := vlen (as_bytes text) |}.
Definition namespace : string := "repo:" +:+ hex_pad 64 7.
Definition from_file (path : string) : CallableFactProvenance :=
  {| pv_member_alias := "m"; pv_repository_namespace := namespace; pv_session_id := "s"; pv_session_authority_digest := "sd";
     pv_base_revision := "r1"; pv_compilation_id := "c"; pv_generation_id := "g"; pv_generation_ref := object "codeclew-generation/1.0" "g";
     pv_input_fact_key := path; pv_input_payload_ref := object "codeclew-facts/1.0" path;
     pv_source := Some {| sa_path := path; sa_start := Some 0; sa_end := Some 9; sa_content_ref := object "codeclew-source/1.0" path |} |}.
Definition unnamed (path symbol callable fact_id : string) : DeclarationFact :=
  {| df_schema := "d"; df_fact_id := fact_id; df_provenance := from_file path; df_declaration_kind := DFunction;
    df_symbol_identity := symbol; df_compiler_callable_id := Some callable; df_compiler_class_id := None; df_jvm_descriptor := None;
    df_owner_identity := "a"; df_containment := []; df_projected_shape := JNull; df_shape_digest := None; df_exact_eligible := true;
    df_uncertainty_reasons := [] |}.
Definition declaration (path symbol callable : string) : DeclarationFact :=
  unnamed path symbol callable (declaration_fact_id (unnamed path symbol callable "")).
Definition f : string := "callable:a/f#jvm:f(I)V".
Definition g : string := "callable:a/g#jvm:g(I)V".
Definition h : string := "callable:a/h#jvm:h(I)V".
Definition unnamed_use (fact_id : string) : UseFact :=
  {| uf_schema := "u"; uf_fact_id := fact_id; uf_provenance := from_file "U.kt"; uf_relation_kind := "CALL"; uf_source_owner := "a/f";
     uf_target_callable_id := "a/g"; uf_target_symbol_identity := Some g; uf_target_repository_namespace := Some namespace;
     uf_target_resolution := ExactSymbol; uf_relationship_authority := VerifiedSameSnapshotCompilationDependency;
     uf_relation_evidence := JObject []; uf_exact_eligible := true; uf_uncertainty_reasons := [] |}.
Definition member : CallableMemberBinding :=
  {| mb_member_alias := "m"; mb_service_alias := "m"; mb_session_id := "s"; mb_session_authority_digest := "sd"; mb_repository_key := "k";
     mb_repository_namespace := namespace; mb_base_revision := "r1"; mb_snapshot_ref := object "codeclew-snapshot/1.0" "m";
     mb_compilations := [{| cb_compilation_id := "c"; cb_generation_id := "g"; cb_generation_ref := object "codeclew-generation/1.0" "g";
       cb_semantic_authority := "K2"; cb_extractor_id := "x"; cb_adapter_digest := "ad"; cb_runtime_digest := "rd";
       cb_descriptor_coverage := CompleteSupportedSubset; cb_relation_coverage := CompleteSupportedSubset |}] |}.
Definition declarations : list DeclarationFact := [declaration "F.kt" f "a/f"; declaration "G.kt" g "a/g"].
Definition uses : list UseFact := [unnamed_use (use_fact_id (unnamed_use ""))].
Definition input : NormalizedInput :=
  {| ni_request := {| fq_thread_id := "t"; fq_thread_authority_digest := "td"; fq_thread_context_id := "c";
       fq_thread_context_authority_digest := "cd"; fq_profile_digest := "pd";
       fq_tasks := [{| tb_task_id := "t1"; tb_pair_id := "p"; tb_terms := ["f"] |}]; fq_pairs := []; fq_budgets := frozen |};
     ni_members := [member];
     ni_payloads := sort_by (cmp_on payload_order) (payload_binding_of <$> ((Declaration <$> declarations) ++ (Use <$> uses)));
     ni_visited_fact_count := 3; ni_visited_payload_bytes := 30;
     ni_compilation_refs := [mb_snapshot_ref member; object "codeclew-generation/1.0" "g"];
     ni_declarations := declarations; ni_uses := uses; ni_boundaries := [] |}.

Definition sealed : PreparedCallableFactSet :=
  Eval vm_compute in
  match seal_fact_set input with
  | Ok p => p
  | Err _ =>
      let o := {| pco_reference := object "" ""; pco_bytes := [] |} in
      let no_counts := mkFactCounts 0 0 0 0 0 0 0 0 in
      let a := mkFactSetAuthority "" "" "" "" "" "" "" "" [] [] frozen [] no_counts (mkCallableCompleteness SetPartial SetUnsure 0) [] (object "" "") (object "" "") [] in
      mkPreparedFactSet a (mkFactSetEvidence "" "" no_counts (mkCallableCompleteness SetPartial SetUnsure 0) [] [] (object "" "") [])
        (projection_from_authority a) [] [] (mkCallableQueryIndex "" "" "" [] [] 0 0 0 0) o o [] []
  end.
Definition asks (symbol : string) : CallableQueryRequest := {| qr_lookups := [LFullSymbol namespace symbol]; qr_max_results := 16 |}.

Lemma sealed_ok : seal_fact_set input = Ok sealed.
Proof. vm_compute. reflexivity. Qed.
Lemma single_shard (prepared : PreparedCallableFactSet) : length (prepared_query_shards prepared) = 1%nat -> distinct_shards prepared.
Proof.
  intros H o o' Ho Ho' _. destruct (prepared_query_shards prepared) as [|x [|]]; [done| |done].
  apply list_elem_of_singleton in Ho as ->, Ho' as ->. done.
Qed.
Lemma sealed_distinct : distinct_shards sealed.
Proof. apply single_shard. vm_compute. reflexivity. Qed.
Lemma sealed_verified : verify_prepared sealed = Ok tt.
Proof. exact (proj1 (seal_ok input sealed sealed_ok)). Qed.
Lemma query_outcome symbol status :
  match query_verified sealed (asks symbol) with Ok r => bool_decide (qs_status r = status) | Err _ => false end = true ->
  exists r, query_prepared sealed (asks symbol) = Ok r /\ qs_status r = status.
Proof.
  unfold query_prepared. rewrite sealed_verified. cbn [result_bind]. destruct (query_verified sealed (asks symbol)) as [r|e]; [|done].
  intros H%bool_decide_eq_true_1. by exists r.
Qed.
Lemma g_is_exact : exists r, query_prepared sealed (asks g) = Ok r /\ qs_status r = QExactFullSymbol.
Proof. apply query_outcome. vm_compute. reflexivity. Qed.
Lemma h_is_absent : exists r, query_prepared sealed (asks h) = Ok r /\ qs_status r = QNotFound.
Proof. apply query_outcome. vm_compute. reflexivity. Qed.
Lemma rows_typed : Forall row_typed (sealed_rows input).
Proof.
  apply list.Forall_forall. intros fact Hf. unfold sealed_rows in Hf. rewrite sort_by_perm in Hf.
  assert (forall x, x ∈ (Declaration <$> declarations) ++ (Use <$> uses) ++ (Boundary <$> []) -> exists path, provenance x = from_file path) as Hp.
  { intros x Hx. unfold declarations, uses in Hx. cbn [fmap list_fmap app] in Hx.
    repeat (apply elem_of_cons in Hx as [->|Hx]; [by eexists|]). by apply not_elem_of_nil in Hx. }
  destruct (Hp fact Hf) as [path He]. unfold row_typed. rewrite He. done.
Qed.
Definition record : CallableIndexRecord := {| ir_key := token_key "f"; ir_posting := posting_for_fact (Declaration (unnamed "F.kt" f "a/f" "1")) |}.
Lemma record_fits sequence : sequence <= 1 -> vlen (pco_bytes (query_object_of "bd" sequence [record])) <= bu_max_shard_bytes frozen.
Proof.
  intros Hs. assert (sequence = 0 \/ sequence = 1) as [->| ->] by lia; apply N.leb_le; vm_compute; reflexivity.
Qed.
End CallableExample.

Lemma postings_are_cut_into_shards_witness : exists objects references,
  build_query_shards (P := toy) "bd" [CallableExample.record] frozen = Ok (objects, references).
Proof.
  destruct (postings_are_cut_into_shards (P := toy) "bd" [CallableExample.record] frozen) as (chunks & objects & references & H & _).
  - done.
  - reflexivity.
  - done.
  - done.
  - intros r sequence Hr Hs. apply list_elem_of_singleton in Hr as ->. apply CallableExample.record_fits. exact Hs.
  - exists objects, references. exact H.
Defined.

Lemma query_scans_the_postings_witness : exists facts records,
  verified_rows (P := toy) (R := toy_reader) CallableExample.sealed = Ok (facts, records) /\
  forall r, r ∈ records <-> posting_of (U := AsciiTables.tables) facts r.
Proof.
  destruct (query_scans_the_postings (P := toy) (R := toy_reader) (U := AsciiTables.tables) CallableExample.sealed
    (CallableExample.asks CallableExample.g) CallableExample.sealed_verified CallableExample.sealed_distinct) as (facts & records & H & Hr & _).
  exists facts, records. exact (conj H Hr).
Defined.

Lemma exact_answer_names_the_declaration_witness : exists r, qs_status r = QExactFullSymbol /\
  exists facts records, verified_rows (P := toy) (R := toy_reader) CallableExample.sealed = Ok (facts, records).
Proof.
  destruct CallableExample.g_is_exact as (r & Hr & Hs). exists r. split; [exact Hs|].
  destruct (exact_answer_names_the_declaration (P := toy) (R := toy_reader) (U := AsciiTables.tables) CallableExample.sealed
    (CallableExample.asks CallableExample.g) r Hr CallableExample.sealed_distinct Hs) as (facts & records & H & _).
  exists facts, records. exact H.
Defined.

Lemma not_found_is_absence_witness : exists r, qs_status r = QNotFound /\ qs_hits r = [].
Proof.
  destruct CallableExample.h_is_absent as (r & Hr & Hs). exists r. split; [exact Hs|].
  destruct (not_found_is_absence (P := toy) (R := toy_reader) (U := AsciiTables.tables) CallableExample.sealed
    (CallableExample.asks CallableExample.h) r Hr CallableExample.sealed_distinct Hs) as (facts & records & _ & H & _). exact H.
Defined.

Lemma sealed_set_answers_for_its_rows_witness : exists facts records,
  verified_rows (P := toy) (R := toy_reader) CallableExample.sealed = Ok (facts, records) /\
  forall r, r ∈ records <-> posting_of (U := AsciiTables.tables) (sealed_rows CallableExample.input) r.
Proof.
  destruct (sealed_set_answers_for_its_rows (P := toy) (R := toy_reader) (U := AsciiTables.tables) CallableExample.input CallableExample.sealed
    CallableExample.sealed_ok CallableExample.rows_typed CallableExample.sealed_distinct) as (facts & records & H & Hr & _).
  exists facts, records. exact (conj H Hr).
Defined.
