(* ===== verification/FlowSlice.v ===== *)
(** * Flow slices (thread_flow.rs)

    From one exact root the builder follows the uses of retained callable facts
    breadth first, within one member of a selected pair, and collects nodes, edges
    and boundaries: a boundary records every place where it stopped.  The result is
    a document that is identified by the hash of its content.

    The indexes over the facts are one record, [FlowInput], the locals of the loop
    another, [Flow].  The loop takes fuel; [build] gives it one round per declared
    symbol.  A panic of [unreachable!] is an internal error. *)

From S2P Require Import Prelude Order Collections Text Json Canonical JsonFormat Errors CasObject CatalogCodec ThreadCallables.
From S2P Require LocalCfg JvmIdentity.

Definition FLOW_SLICE_SCHEMA : string := "codeclew-flow-slice/0.1".
Definition FLOW_SLICE_PROJECTION_SCHEMA : string := "codeclew-flow-slice-projection/0.1".
Definition MAX_FLOW_DEPTH : N := 32.
Definition MAX_FLOW_NODES : N := 4096.
Definition MAX_FLOW_EDGES : N := 8192.
Definition MAX_FLOW_BOUNDARIES : N := 4096.
Definition MAX_FLOW_STDOUT_BYTES : N := 64 * 1024.
Definition MAX_FLOW_SLICE_BYTES : N := 64 * 1024 * 1024.

Inductive FlowRootKind : Type := FullSymbol.
Inductive FlowDirection : Type := Downstream.
Inductive FlowOrderAuthority : Type := UnorderedStaticRelation | CompilerCfg | OrderUnknown.
Inductive FlowStatus : Type := FlowComplete | FlowTruncated.
Inductive FlowCertainty : Type := FlowVerified | FlowUnsure.
Inductive FlowNodeKind : Type := NCallable | NBoundary.

Record FlowBudgets : Type := mkFlowBudgets {
  max_depth : N;
  max_nodes : N;
  max_edges : N;
  max_boundaries : N;
  max_stdout_bytes : N;
  max_slice_bytes : N
}.
Record FlowRequest : Type := mkFlowRequest {
  fr_thread_id : string;
  fr_thread_authority_digest : string;
  fr_fact_set_id : string;
  fr_fact_set_authority_digest : string;
  fr_pair_id : string;
  fr_member_alias : string;
  fr_root_kind : FlowRootKind;
  fr_root : string;
  fr_direction : FlowDirection;
  fr_budgets : FlowBudgets
}.
Record FlowSupportRef : Type := mkFlowSupportRef {
  su_fact_id : string;
  su_fact_shard_ref : CasObject;
  su_provenance : CallableFactProvenance;
  su_input_payload_ref : CasObject;
  su_source : option SourceAnchor
}.
Record FlowNode : Type := mkFlowNode {
  fn_node_id : string;
  fn_node_kind : FlowNodeKind;
  fn_member_alias : string;
  fn_service_alias : string;
  fn_repository_namespace : string;
  fn_symbol_identity : string;
  fn_depth : N;
  fn_order_authority : FlowOrderAuthority;
  fn_support_refs : list FlowSupportRef
}.
Record FlowEdge : Type := mkFlowEdge {
  fe_edge_id : string;
  fe_source_node_id : string;
  fe_target_node_id : string;
  fe_source_member_alias : string;
  fe_source_service_alias : string;
  fe_source_repository_namespace : string;
  fe_target_member_alias : string;
  fe_target_service_alias : string;
  fe_target_repository_namespace : string;
  fe_relation_kind : string;
  fe_relationship_authority : RelationshipAuthority;
  fe_order_authority : FlowOrderAuthority;
  fe_cfg_graph_id : option string;
  fe_cfg_node_ids : list N;
  fe_support_refs : list FlowSupportRef
}.
Record FlowControlRegion : Type := mkFlowControlRegion {
  rg_region_id : string;
  rg_owner_node_id : string;
  rg_graph : LocalCfg.LocalCfgPayload;
  rg_support : LocalCfg.LocalCfgSupport
}.
Record FlowBoundary : Type := mkFlowBoundary {
  bd_boundary_id : string;
  bd_code : string;
  bd_subject : string;
  bd_required_checks : list string;
  bd_support_refs : list FlowSupportRef
}.
Record FlowCounts : Type := mkFlowCounts { ct_nodes : N; ct_edges : N; ct_boundaries : N; ct_control_flow_regions : N }.
Record FlowSlice : Type := mkFlowSlice {
  sl_schema : string;
  sl_flow_id : string;
  sl_request : FlowRequest;
  sl_root_node_id : string;
  sl_nodes : list FlowNode;
  sl_edges : list FlowEdge;
  sl_boundaries : list FlowBoundary;
  sl_control_flow_regions : list FlowControlRegion;
  sl_counts : FlowCounts;
  sl_status : FlowStatus;
  sl_certainty : FlowCertainty;
  sl_verification_obligations : list string;
  sl_parent_fact_shards : list CasObject
}.
Record FlowSliceProjection : Type := mkFlowSliceProjection {
  sp_schema : string;
  sp_flow_id : string;
  sp_root : string;
  sp_member_alias : string;
  sp_root_node_id : string;
  sp_counts : FlowCounts;
  sp_status : FlowStatus;
  sp_certainty : FlowCertainty;
  sp_order_authority : FlowOrderAuthority;
  sp_verification_obligations : list string
}.
Record PreparedFlowSlice : Type := mkPreparedFlowSlice {
  pf_slice : FlowSlice;
  pf_slice_bytes : list byte;
  pf_slice_ref : CasObject;
  pf_projection : FlowSliceProjection
}.
Record IndexedFact : Type := mkIndexedFact { ix_fact : CallableFact; ix_shard_ref : CasObject }.

(* --------------------------------------------------------------------- *)
(** ** Decidable equality *)

#[export] Instance FlowNodeKind_eq_dec : EqDecision FlowNodeKind.
Proof. solve_decision. Defined.
#[export] Instance FlowOrderAuthority_eq_dec : EqDecision FlowOrderAuthority.
Proof. solve_decision. Defined.
#[export] Instance FlowStatus_eq_dec : EqDecision FlowStatus.
Proof. solve_decision. Defined.
#[export] Instance FlowCertainty_eq_dec : EqDecision FlowCertainty.
Proof. solve_decision. Defined.
#[export] Instance FlowRootKind_eq_dec : EqDecision FlowRootKind.
Proof. solve_decision. Defined.
#[export] Instance FlowDirection_eq_dec : EqDecision FlowDirection.
Proof. solve_decision. Defined.
#[export] Instance FlowBudgets_eq_dec : EqDecision FlowBudgets.
Proof. solve_decision. Defined.
#[export] Instance FlowRequest_eq_dec : EqDecision FlowRequest.
Proof. solve_decision. Defined.
#[export] Instance SourceAnchor_eq_dec : EqDecision SourceAnchor.
Proof. solve_decision. Defined.
#[export] Instance Provenance_eq_dec : EqDecision CallableFactProvenance.
Proof. solve_decision. Defined.
#[export] Instance FlowSupportRef_eq_dec : EqDecision FlowSupportRef.
Proof. solve_decision. Defined.
#[export] Instance FlowNode_eq_dec : EqDecision FlowNode.
Proof. solve_decision. Defined.
#[export] Instance FlowEdge_eq_dec : EqDecision FlowEdge.
Proof. solve_decision. Defined.
#[local] Existing Instance LocalCfg.role_eq_dec.
#[local] Existing Instance LocalCfg.kind_eq_dec.
#[export] Instance CfgRange_eq_dec : EqDecision LocalCfg.LocalCfgSourceRange.
Proof. solve_decision. Defined.
#[export] Instance CfgNode_eq_dec : EqDecision LocalCfg.LocalCfgNode.
Proof. solve_decision. Defined.
#[export] Instance CfgEdge_eq_dec : EqDecision LocalCfg.LocalCfgEdge.
Proof. solve_decision. Defined.
#[export] Instance CfgPayload_eq_dec : EqDecision LocalCfg.LocalCfgPayload.
Proof. solve_decision. Defined.
#[export] Instance CfgSupport_eq_dec : EqDecision LocalCfg.LocalCfgSupport.
Proof. solve_decision. Defined.
#[export] Instance FlowControlRegion_eq_dec : EqDecision FlowControlRegion.
Proof. solve_decision. Defined.
#[export] Instance FlowBoundary_eq_dec : EqDecision FlowBoundary.
Proof. solve_decision. Defined.
#[export] Instance FlowCounts_eq_dec : EqDecision FlowCounts.
Proof. solve_decision. Defined.
#[export] Instance FlowSlice_eq_dec : EqDecision FlowSlice.
Proof. solve_decision. Defined.
#[export] Instance FlowSliceProjection_eq_dec : EqDecision FlowSliceProjection.
Proof. solve_decision. Defined.
#[export] Instance PreparedFlowSlice_eq_dec : EqDecision PreparedFlowSlice.
Proof. solve_decision. Defined.

(* --------------------------------------------------------------------- *)
(** ** Serialization *)

Definition order_name (a : FlowOrderAuthority) : string :=
  match a with
  | UnorderedStaticRelation => "UNORDERED_STATIC_RELATION" | CompilerCfg => "COMPILER_CFG" | OrderUnknown => "UNKNOWN"
  end.
Definition flow_status_name (s : FlowStatus) : string := match s with FlowComplete => "COMPLETE" | FlowTruncated => "TRUNCATED" end.
Definition flow_certainty_name (c : FlowCertainty) : string := match c with FlowVerified => "VERIFIED" | FlowUnsure => "UNSURE" end.
Definition node_kind_name (k : FlowNodeKind) : string := match k with NCallable => "CALLABLE" | NBoundary => "BOUNDARY" end.
Definition root_kind_name (k : FlowRootKind) : string := match k with FullSymbol => "FULL_SYMBOL" end.
Definition direction_name (d : FlowDirection) : string := match d with Downstream => "DOWNSTREAM" end.

Definition flow_budgets_value (b : FlowBudgets) : Value :=
  JObject [("maxDepth", natural (max_depth b)); ("maxNodes", natural (max_nodes b)); ("maxEdges", natural (max_edges b));
           ("maxBoundaries", natural (max_boundaries b)); ("maxStdoutBytes", natural (max_stdout_bytes b));
           ("maxSliceBytes", natural (max_slice_bytes b))].
Definition flow_request_value (r : FlowRequest) : Value :=
  JObject [("threadId", JString (fr_thread_id r)); ("threadAuthorityDigest", JString (fr_thread_authority_digest r));
           ("factSetId", JString (fr_fact_set_id r)); ("factSetAuthorityDigest", JString (fr_fact_set_authority_digest r));
           ("pairId", JString (fr_pair_id r)); ("memberAlias", JString (fr_member_alias r));
           ("rootKind", JString (root_kind_name (fr_root_kind r))); ("root", JString (fr_root r));
           ("direction", JString (direction_name (fr_direction r))); ("budgets", flow_budgets_value (fr_budgets r))].
Definition support_value (s : FlowSupportRef) : Value :=
  JObject ([("factId", JString (su_fact_id s)); ("factShardRef", cas_object_value (su_fact_shard_ref s));
            ("provenance", provenance_value (su_provenance s)); ("inputPayloadRef", cas_object_value (su_input_payload_ref s))]
    ++ optional_field "source" anchor_value (su_source s)).
Definition supports_value (l : list FlowSupportRef) : Value := JArray (support_value <$> l).
Definition flow_node_value (n : FlowNode) : Value :=
  JObject [("nodeId", JString (fn_node_id n)); ("nodeKind", JString (node_kind_name (fn_node_kind n)));
           ("memberAlias", JString (fn_member_alias n)); ("serviceAlias", JString (fn_service_alias n));
           ("repositoryNamespace", JString (fn_repository_namespace n)); ("symbolIdentity", JString (fn_symbol_identity n));
           ("depth", natural (fn_depth n)); ("orderAuthority", JString (order_name (fn_order_authority n)));
           ("supportRefs", supports_value (fn_support_refs n))].
Definition flow_edge_value (e : FlowEdge) : Value :=
  JObject ([("edgeId", JString (fe_edge_id e)); ("sourceNodeId", JString (fe_source_node_id e));
            ("targetNodeId", JString (fe_target_node_id e)); ("sourceMemberAlias", JString (fe_source_member_alias e));
            ("sourceServiceAlias", JString (fe_source_service_alias e));
            ("sourceRepositoryNamespace", JString (fe_source_repository_namespace e));
            ("targetMemberAlias", JString (fe_target_member_alias e)); ("targetServiceAlias", JString (fe_target_service_alias e));
            ("targetRepositoryNamespace", JString (fe_target_repository_namespace e));
            ("relationKind", JString (fe_relation_kind e));
            ("relationshipAuthority", JString (authority_name (fe_relationship_authority e)));
            ("orderAuthority", JString (order_name (fe_order_authority e)))]
    ++ optional_field "cfgGraphId" JString (fe_cfg_graph_id e)
    ++ (match fe_cfg_node_ids e with [] => [] | ids => [("cfgNodeIds", JArray (natural <$> ids))] end)
    ++ [("supportRefs", supports_value (fe_support_refs e))]).
Definition cfg_support_value (s : LocalCfg.LocalCfgSupport) : Value :=
  JObject [("memberAlias", JString (LocalCfg.member_alias s)); ("compilationId", JString (LocalCfg.ls_compilation_id s));
           ("generationRef", cas_object_value (LocalCfg.generation_ref s)); ("payloadRef", cas_object_value (LocalCfg.payload_ref s))].
Definition region_value (r : FlowControlRegion) : Value :=
  JObject [("regionId", JString (rg_region_id r)); ("ownerNodeId", JString (rg_owner_node_id r));
           ("graph", LocalCfg.payload_value (rg_graph r)); ("support", cfg_support_value (rg_support r))].
Definition flow_boundary_value (b : FlowBoundary) : Value :=
  JObject [("boundaryId", JString (bd_boundary_id b)); ("code", JString (bd_code b)); ("subject", JString (bd_subject b));
           ("requiredChecks", strings_value (bd_required_checks b)); ("supportRefs", supports_value (bd_support_refs b))].
Definition flow_counts_value (c : FlowCounts) : Value :=
  JObject ([("nodes", natural (ct_nodes c)); ("edges", natural (ct_edges c)); ("boundaries", natural (ct_boundaries c))]
    ++ (if ct_control_flow_regions c =? 0 then [] else [("controlFlowRegions", natural (ct_control_flow_regions c))])).
Definition flow_slice_value (s : FlowSlice) : Value :=
  JObject ([("schema", JString (sl_schema s)); ("flowId", JString (sl_flow_id s)); ("request", flow_request_value (sl_request s));
            ("rootNodeId", JString (sl_root_node_id s)); ("nodes", JArray (flow_node_value <$> sl_nodes s));
            ("edges", JArray (flow_edge_value <$> sl_edges s)); ("boundaries", JArray (flow_boundary_value <$> sl_boundaries s))]
    ++ (match sl_control_flow_regions s with [] => [] | rs => [("controlFlowRegions", JArray (region_value <$> rs))] end)
    ++ [("counts", flow_counts_value (sl_counts s)); ("status", JString (flow_status_name (sl_status s)));
        ("certainty", JString (flow_certainty_name (sl_certainty s)));
        ("verificationObligations", strings_value (sl_verification_obligations s));
        ("parentFactShards", JArray (cas_object_value <$> sl_parent_fact_shards s))]).

(* --------------------------------------------------------------------- *)
(** ** Indexes over the facts *)

Definition support (indexed : IndexedFact) : FlowSupportRef :=
  let p := provenance (ix_fact indexed) in
  {| su_fact_id := fact_id (ix_fact indexed); su_fact_shard_ref := ix_shard_ref indexed; su_provenance := p;
     su_input_payload_ref := pv_input_payload_ref p; su_source := pv_source p |}.

(** [fold(BTreeMap::new(), |map, (key, fact)| map.entry(key).or_default().push(fact))]. *)
Definition group {K A} `{Ord K} (l : list (K * A)) : BTreeMap K (list A) :=
  foldl (fun m e => bmap_insert e.1 (default [] (bmap_get e.1 m) ++ [e.2]) m) [] l.

Definition declaration_entry (indexed : IndexedFact) : option ((string * string) * IndexedFact) :=
  match ix_fact indexed with
  | Declaration row =>
      if df_exact_eligible row then Some ((pv_member_alias (df_provenance row), df_symbol_identity row), indexed) else None
  | _ => None
  end.
Definition family_entry (indexed : IndexedFact) : option ((string * string) * IndexedFact) :=
  match ix_fact indexed with
  | Declaration row =>
      if df_exact_eligible row
      then match df_compiler_callable_id row with
           | Some callable_id => Some ((pv_member_alias (df_provenance row), callable_id), indexed)
           | None => None
           end
      else None
  | _ => None
  end.
Definition use_entry (indexed : IndexedFact) : option ((string * string) * IndexedFact) :=
  match ix_fact indexed with
  | Use row => Some ((pv_member_alias (uf_provenance row), uf_source_owner row), indexed)
  | _ => None
  end.

(** What [build_internal] computes before the loop. *)
Record FlowInput : Type := mkFlowInput {
  in_request : FlowRequest;
  in_pairs : list CallablePairBinding;
  in_pair : CallablePairBinding;                                   (* selected_pair *)
  in_members : BTreeMap string CallableMemberBinding;
  in_selected : BTreeSet string;                                   (* selected_members *)
  in_facts : list IndexedFact;
  in_declarations : BTreeMap (string * string) (list IndexedFact);
  in_families : BTreeMap (string * string) (list IndexedFact);
  in_uses : BTreeMap (string * string) (list IndexedFact);
  in_cfg : option LocalCfg.LocalCfgCatalog
}.

(** The locals of the loop. *)
Record Flow : Type := mkFlow {
  f_nodes : BTreeMap string FlowNode;
  f_edges : BTreeMap string FlowEdge;
  f_boundaries : BTreeMap string FlowBoundary;
  f_obligations : BTreeSet string;
  f_truncated : bool;
  f_queue : list (string * string * N);
  f_visited : BTreeSet (string * string)
}.
Definition set_nodes (st : Flow) (n : BTreeMap string FlowNode) : Flow :=
  {| f_nodes := n; f_edges := f_edges st; f_boundaries := f_boundaries st; f_obligations := f_obligations st;
     f_truncated := f_truncated st; f_queue := f_queue st; f_visited := f_visited st |}.
Definition set_edges (st : Flow) (e : BTreeMap string FlowEdge) : Flow :=
  {| f_nodes := f_nodes st; f_edges := e; f_boundaries := f_boundaries st; f_obligations := f_obligations st;
     f_truncated := f_truncated st; f_queue := f_queue st; f_visited := f_visited st |}.
Definition set_boundaries (st : Flow) (b : BTreeMap string FlowBoundary) (o : BTreeSet string) : Flow :=
  {| f_nodes := f_nodes st; f_edges := f_edges st; f_boundaries := b; f_obligations := o;
     f_truncated := f_truncated st; f_queue := f_queue st; f_visited := f_visited st |}.
Definition set_truncated (st : Flow) : Flow :=
  {| f_nodes := f_nodes st; f_edges := f_edges st; f_boundaries := f_boundaries st; f_obligations := f_obligations st;
     f_truncated := true; f_queue := f_queue st; f_visited := f_visited st |}.
Definition set_queue (st : Flow) (q : list (string * string * N)) (v : BTreeSet (string * string)) : Flow :=
  {| f_nodes := f_nodes st; f_edges := f_edges st; f_boundaries := f_boundaries st; f_obligations := f_obligations st;
     f_truncated := f_truncated st; f_queue := q; f_visited := v |}.

(** [map.entry(key).or_insert(value)]. *)
Definition or_insert {A} (k : string) (a : A) (m : BTreeMap string A) : BTreeMap string A :=
  if bmap_contains_key k m then m else bmap_insert k a m.

Definition budget {A} (m : string) : Res A := Err (ClewError_new SliceBudgetExceeded m).
Definition unreachable {A} : Res A := Err (ClewError_new Internal "internal error: entered unreachable code").

Section Build.
Context {P : Primitives} {R : JsonReader}.

Definition digest_component (value : string) : Res string :=
  match strip_prefix "sha256:" value with
  | Some digest => if (str_len digest =? 64) && str_all is_ascii_hexdigit digest then Ok digest else corrupt "canonical digest is invalid"
  | None => corrupt "canonical digest is invalid"
  end.
Definition stable_id (prefix : string) (value : Value) : Res string :=
  let? component := digest_component (hash value) in Ok (prefix +:+ ":" +:+ component).

Definition boundary_identity (request : FlowRequest) (code subject : string) (support_refs : list FlowSupportRef) : Value :=
  JObject [("member", JString (fr_member_alias request)); ("code", JString code); ("subject", JString subject);
           ("support", supports_value support_refs)].
Definition add_boundary (request : FlowRequest) (st : Flow) (code subject : string) (required_checks : list string)
    (support_refs : list FlowSupportRef) : Res Flow :=
  let required_checks := dedup (sort required_checks) in
  let support_refs := sort_by (cmp_on su_fact_id) support_refs in
  let obligations := bset_extend (f_obligations st) required_checks in
  let? boundary_id := stable_id "flow-boundary" (boundary_identity request code subject support_refs) in
  if negb (bmap_contains_key boundary_id (f_boundaries st)) && (max_boundaries (fr_budgets request) <=? vlen (f_boundaries st))
  then budget "flow boundary budget exceeded"
  else Ok (set_boundaries st
    (or_insert boundary_id {| bd_boundary_id := boundary_id; bd_code := code; bd_subject := subject;
                              bd_required_checks := required_checks; bd_support_refs := support_refs |} (f_boundaries st))
    obligations).

Definition node_identity (row : DeclarationFact) : Value :=
  JObject [("member", JString (pv_member_alias (df_provenance row))); ("repository", JString (pv_repository_namespace (df_provenance row)));
           ("symbol", JString (df_symbol_identity row))].
Definition callable_node (indexed : IndexedFact) (depth : N) (members : BTreeMap string CallableMemberBinding) : Res FlowNode :=
  match ix_fact indexed with
  | Declaration row =>
      let? member := ok_or (bmap_get (pv_member_alias (df_provenance row)) members)
                       (ClewError_new StateCorrupt "callable declaration has no member authority") in
      if str_neqb (mb_repository_namespace member) (pv_repository_namespace (df_provenance row))
      then corrupt "callable declaration repository namespace differs from member authority"
      else
      let? node_id := stable_id "flow-node" (node_identity row) in
      Ok {| fn_node_id := node_id; fn_node_kind := NCallable; fn_member_alias := pv_member_alias (df_provenance row);
            fn_service_alias := mb_service_alias member; fn_repository_namespace := pv_repository_namespace (df_provenance row);
            fn_symbol_identity := df_symbol_identity row; fn_depth := depth; fn_order_authority := UnorderedStaticRelation;
            fn_support_refs := [support indexed] |}
  | _ => corrupt "callable node support is not a declaration"
  end.
Definition handoff_identity (member : CallableMemberBinding) (target_callable_id : string) : Value :=
  JObject [("kind", JString "DECLARED_TOPOLOGY_BOUNDARY"); ("member", JString (mb_member_alias member));
           ("service", JString (mb_service_alias member)); ("repository", JString (mb_repository_namespace member));
           ("callableFamily", JString target_callable_id)].
Definition declared_handoff_node (member : CallableMemberBinding) (target_callable_id : string) (depth : N) : Res FlowNode :=
  let? node_id := stable_id "flow-node" (handoff_identity member target_callable_id) in
  Ok {| fn_node_id := node_id; fn_node_kind := NBoundary; fn_member_alias := mb_member_alias member;
        fn_service_alias := mb_service_alias member; fn_repository_namespace := mb_repository_namespace member;
        fn_symbol_identity := target_callable_id; fn_depth := depth; fn_order_authority := OrderUnknown; fn_support_refs := [] |}.

Definition node_for_symbol (nodes : BTreeMap string FlowNode) (member_alias symbol : string) : option string :=
  fn_node_id <$> List.find (fun node => str_eqb (fn_member_alias node) member_alias && str_eqb (fn_symbol_identity node) symbol
                              && bool_decide (fn_node_kind node = NCallable)) (bmap_values nodes).

Definition as_u64 (v : Value) : option N := match v with JNumber (PosInt n) => Some n | _ => None end.
Definition relation_cfg_nodes (row : UseFact) (graph : LocalCfg.LocalCfgPayload) : option (list N) :=
  if negb (LocalCfg.get_is (uf_relation_evidence row) "orderProvenance" "K2_FIR_CFG") then None
  else
  let known := bset_of_list (LocalCfg.node_id <$> LocalCfg.nodes graph) in
  match value_get "cfgNodeIds" (uf_relation_evidence row) with
  | Some (JArray items) =>
      match mapM as_u64 items with
      | Some values =>
          if bool_decide (values = []) || windows_any geb values || existsb (fun n => negb (bset_contains n known)) values
          then None else Some values
      | None => None
      end
  | _ => None
  end.

(* --------------------------------------------------------------------- *)
(** ** The traversal *)

Definition exact_target (row : UseFact) : option string :=
  match uf_target_symbol_identity row with
  | Some symbol => if bool_decide (uf_target_resolution row = ExactSymbol) then Some symbol else None
  | None => None
  end.
Definition target_member (inp : FlowInput) (row : UseFact) : option string :=
  match uf_target_repository_namespace row with
  | Some namespace =>
      mb_member_alias <$> List.find (fun member => str_eqb (mb_repository_namespace member) namespace) (bmap_values (in_members inp))
  | None => None
  end.
Definition same_member (inp : FlowInput) (source_member : string) (row : UseFact) : bool :=
  bool_decide (target_member inp row = Some source_member)
  && bool_decide (uf_relationship_authority row = VerifiedSameSnapshotCompilationDependency).
(** The boundary of a use that is not followed. *)
Definition note (inp : FlowInput) (st : Flow) (indexed : IndexedFact) (code subject check : string) : Res Flow :=
  add_boundary (in_request inp) st code subject [check] [support indexed].
Definition subject_of (row : UseFact) : string := default (uf_target_callable_id row) (exact_target row).

(** Insert a target node within the node budget; [None] when it is exhausted. *)
Definition admit_node (inp : FlowInput) (st : Flow) (node : FlowNode) : option Flow :=
  if negb (bmap_contains_key (fn_node_id node) (f_nodes st)) && (max_nodes (fr_budgets (in_request inp)) <=? vlen (f_nodes st))
  then None else Some (set_nodes st (or_insert (fn_node_id node) node (f_nodes st))).

Definition handoff_edge_identity (source_node_id target_node_id : string) (row : UseFact) : Value :=
  JObject [("source", JString source_node_id); ("target", JString target_node_id); ("fact", JString (uf_fact_id row));
           ("authority", JString "DECLARED_TOPOLOGY")].
Definition edge_identity (source_node_id target_node_id : string) (row : UseFact) : Value :=
  JObject [("source", JString source_node_id); ("target", JString target_node_id); ("fact", JString (uf_fact_id row))].

Definition declared_pairs (inp : FlowInput) (source_member : string) : list CallablePairBinding :=
  List.filter (fun binding => str_eqb (pb_consumer_member binding) source_member
                           && bool_decide (pb_relationship_authority binding = DeclaredTopology)) (in_pairs inp).

(** The branch for a declared component pair. *)
Definition hand_off (inp : FlowInput) (source_member source_symbol source_node_id : string) (depth : N) (st : Flow)
    (indexed : IndexedFact) (row : UseFact) : Res Flow :=
  let callable := uf_target_callable_id row in
  let declared := declared_pairs inp source_member in
  if negb (bool_decide (pb_relationship_authority (in_pair inp) = DeclaredTopology)) || negb (vlen declared =? 1)
     || negb (match declared with first :: _ => str_eqb (pb_pair_id first) (pb_pair_id (in_pair inp)) | [] => false end)
  then note inp st indexed "AMBIGUOUS_DECLARED_TOPOLOGY_HANDOFF" callable "DISAMBIGUATE_DECLARED_COMPONENT_PAIR"
  else if str_neqb source_member (pb_consumer_member (in_pair inp))
  then note inp st indexed "DECLARED_TOPOLOGY_DIRECTION_MISMATCH" callable "VERIFY_DECLARED_CONSUMER_PROVIDER_DIRECTION"
  else
  let? target := ok_or (bmap_get (pb_provider_member (in_pair inp)) (in_members inp))
                   (ClewError_new StateCorrupt "selected provider has no callable authority") in
  let? source_component := ok_or (bmap_get source_member (in_members inp))
                   (ClewError_new StateCorrupt "flow source has no callable authority") in
  let? target_node := declared_handoff_node target callable (depth + 1) in
  let target_node_id := fn_node_id target_node in
  match admit_node inp st target_node with
  | None => note inp (set_truncated st) indexed "FLOW_NODE_BUDGET_TRUNCATED" callable "SELECT_NARROWER_ROOT"
  | Some st =>
      if max_edges (fr_budgets (in_request inp)) <=? vlen (f_edges st)
      then note inp (set_truncated st) indexed "FLOW_EDGE_BUDGET_TRUNCATED" source_symbol "SELECT_NARROWER_ROOT"
      else
      let? edge_id := stable_id "flow-edge" (handoff_edge_identity source_node_id target_node_id row) in
      let edge := {| fe_edge_id := edge_id; fe_source_node_id := source_node_id; fe_target_node_id := target_node_id;
                     fe_source_member_alias := mb_member_alias source_component;
                     fe_source_service_alias := mb_service_alias source_component;
                     fe_source_repository_namespace := mb_repository_namespace source_component;
                     fe_target_member_alias := mb_member_alias target; fe_target_service_alias := mb_service_alias target;
                     fe_target_repository_namespace := mb_repository_namespace target; fe_relation_kind := uf_relation_kind row;
                     fe_relationship_authority := DeclaredTopology; fe_order_authority := OrderUnknown; fe_cfg_graph_id := None;
                     fe_cfg_node_ids := []; fe_support_refs := [support indexed] |} in
      note inp (set_edges st (or_insert edge_id edge (f_edges st))) indexed "DECLARED_TOPOLOGY_HANDOFF" callable
        "VERIFY_RUNTIME_COMPONENT_HANDOFF"
  end.

(** Order evidence of an edge, and the boundary when the graph does not cover it. *)
Definition edge_order (inp : FlowInput) (source_member source_symbol : string) (st : Flow) (indexed : IndexedFact) (row : UseFact)
  : Res (Flow * (option string * list N * FlowOrderAuthority)) :=
  match in_cfg inp with
  | None => Ok (st, (None, [], UnorderedStaticRelation))
  | Some catalog =>
      match LocalCfg.catalog_get catalog source_member source_symbol with
      | Some graph =>
          match relation_cfg_nodes row (LocalCfg.payload graph) with
          | Some node_ids => Ok (st, (Some (LocalCfg.graph_id (LocalCfg.payload graph)), node_ids, CompilerCfg))
          | None =>
              let? st := note inp st indexed "VERIFY_CONTROL_FLOW_ORDER" source_symbol "VERIFY_CONTROL_FLOW_ORDER" in
              Ok (st, (None, [], OrderUnknown))
          end
      | None => Ok (st, (None, [], OrderUnknown))
      end
  end.

(** [if visited.insert(key) { queue.push_back((key, depth)) }]. *)
Definition enqueue (st : Flow) (source_member target_symbol : string) (depth : N) : Flow :=
  if bset_contains (source_member, target_symbol) (f_visited st) then st
  else set_queue st (f_queue st ++ [(source_member, target_symbol, depth)]) (bset_insert (source_member, target_symbol) (f_visited st)).

(** The branch for a target in the member itself. *)
Definition follow (inp : FlowInput) (source_member source_symbol source_node_id : string) (depth : N) (st : Flow)
    (indexed : IndexedFact) (row : UseFact) : Res Flow :=
  match exact_target row with
  | None => note inp st indexed "UNRESOLVED_TARGET" (uf_target_callable_id row) "RESOLVE_EXACT_FULL_SYMBOL"
  | Some target_symbol =>
      match bmap_get (source_member, target_symbol) (in_declarations inp) with
      | None => note inp st indexed "MISSING_TARGET_DECLARATION" target_symbol "VERIFY_TARGET_DECLARATION_IN_RETAINED_FACT_SET"
      | Some [target] =>
          let? target_node := callable_node target (depth + 1) (in_members inp) in
          let target_node_id := fn_node_id target_node in
          match admit_node inp st target_node with
          | None => note inp (set_truncated st) indexed "FLOW_NODE_BUDGET_TRUNCATED" target_symbol "SELECT_NARROWER_ROOT"
          | Some st =>
              if max_edges (fr_budgets (in_request inp)) <=? vlen (f_edges st)
              then note inp (set_truncated st) indexed "FLOW_EDGE_BUDGET_TRUNCATED" source_symbol "SELECT_NARROWER_ROOT"
              else
              let? edge_id := stable_id "flow-edge" (edge_identity source_node_id target_node_id row) in
              let? '(st, (cfg_graph_id, cfg_node_ids, order_authority)) := edge_order inp source_member source_symbol st indexed row in
              let? component := ok_or (bmap_get source_member (in_members inp))
                                  (ClewError_new StateCorrupt "flow source has no callable authority") in
              let edge := {| fe_edge_id := edge_id; fe_source_node_id := source_node_id; fe_target_node_id := target_node_id;
                             fe_source_member_alias := mb_member_alias component; fe_source_service_alias := mb_service_alias component;
                             fe_source_repository_namespace := mb_repository_namespace component;
                             fe_target_member_alias := mb_member_alias component; fe_target_service_alias := mb_service_alias component;
                             fe_target_repository_namespace := mb_repository_namespace component;
                             fe_relation_kind := uf_relation_kind row; fe_relationship_authority := uf_relationship_authority row;
                             fe_order_authority := order_authority; fe_cfg_graph_id := cfg_graph_id; fe_cfg_node_ids := cfg_node_ids;
                             fe_support_refs := [support indexed] |} in
              Ok (enqueue (set_edges st (or_insert edge_id edge (f_edges st))) source_member target_symbol (depth + 1))
          end
      | Some _ => note inp st indexed "AMBIGUOUS_TARGET_DECLARATION" target_symbol "DISAMBIGUATE_TARGET_FULL_SYMBOL"
      end
  end.

(** The body of the loop over the uses of a callable. *)
Definition visit_use (inp : FlowInput) (source_member source_symbol source_node_id : string) (depth : N) (st : Flow) (indexed : IndexedFact)
  : Res Flow :=
  match ix_fact indexed with
  | Use row =>
      let same := same_member inp source_member row in
      if negb same && (match target_member inp row with Some member => negb (bset_contains member (in_selected inp)) | None => false end)
      then note inp st indexed "TARGET_OUTSIDE_SELECTED_PAIR" (subject_of row) "SELECT_PAIR_CONTAINING_TARGET_MEMBER"
      else if negb same && bool_decide (uf_relationship_authority row = VerifiedSameSnapshotCompilationDependency)
      then note inp st indexed "UNSUPPORTED_EXACT_PAIR_DEPENDENCY" (subject_of row) "VERIFY_PAIR_DEPENDENCY_OUTSIDE_V1"
      else if negb same && bool_decide (uf_relationship_authority row = DeclaredTopology)
      then hand_off inp source_member source_symbol source_node_id depth st indexed row
      else if negb same
      then note inp st indexed "UNBOUND_COMPONENT_TARGET" (uf_target_callable_id row) "BIND_TARGET_TO_SELECTED_PAIR"
      else follow inp source_member source_symbol source_node_id depth st indexed row
  | _ => unreachable
  end.

Definition use_priority (indexed : IndexedFact) : N :=
  match ix_fact indexed with
  | Use row => if bool_decide (uf_relationship_authority row = DeclaredTopology) then 0 else 1
  | _ => 1
  end.
Definition outgoing_uses (inp : FlowInput) (source_member callable_id : string) : list IndexedFact :=
  sort_by (cmp_on (fun indexed => (use_priority indexed, fact_id (ix_fact indexed))))
    (default [] (bmap_get (source_member, callable_id) (in_uses inp))).

(** The body of the loop over the queue. *)
Definition visit (inp : FlowInput) (st : Flow) (source_member source_symbol : string) (depth : N) : Res Flow :=
  let? source_node_id := ok_or (node_for_symbol (f_nodes st) source_member source_symbol)
                           (ClewError_new StateCorrupt "flow traversal lost a visited callable node") in
  let? source_declarations := ok_or (bmap_get (source_member, source_symbol) (in_declarations inp))
                           (ClewError_new StateCorrupt "visited flow callable lost its declaration") in
  match source_declarations with
  | indexed :: _ =>
      match ix_fact indexed with
      | Declaration row =>
          match df_compiler_callable_id row with
          | None => note inp st indexed "MISSING_SOURCE_CALLABLE_ID" source_symbol "VERIFY_EXACT_SOURCE_CALLABLE_ID"
          | Some callable_id =>
              if negb (match bmap_get (source_member, callable_id) (in_families inp) with Some family => vlen family =? 1 | None => false end)
              then note inp st indexed "AMBIGUOUS_SOURCE_OWNER_OVERLOAD" callable_id "DISAMBIGUATE_RELATION_SOURCE_OVERLOAD"
              else
              let outgoing := outgoing_uses inp source_member callable_id in
              if (max_depth (fr_budgets (in_request inp)) <=? depth) && negb (vlen outgoing =? 0)
              then add_boundary (in_request inp) (set_truncated st) "FLOW_DEPTH_TRUNCATED" source_symbol
                     ["INCREASE_MAX_DEPTH_OR_SELECT_NARROWER_ROOT"] []
              else try_fold (visit_use inp source_member source_symbol source_node_id depth) st outgoing
          end
      | _ => unreachable
      end
  | [] => unreachable
  end.

(** [while let Some((source_member, source_symbol, depth)) = queue.pop_front()];
    [None] when the fuel runs out. *)
Fixpoint traverse (fuel : nat) (inp : FlowInput) (st : Flow) : option (Res Flow) :=
  match f_queue st, fuel with
  | [], _ => Some (Ok st)
  | _ :: _, O => None
  | (source_member, source_symbol, depth) :: rest, S fuel =>
      match visit inp (set_queue st rest (f_visited st)) source_member source_symbol depth with
      | Ok st => traverse fuel inp st
      | Err e => Some (Err e)
      end
  end.

(* --------------------------------------------------------------------- *)
(** ** After the traversal *)

Definition unanchored (supports : list FlowSupportRef) : list FlowSupportRef :=
  List.filter (fun s => match su_source s with Some _ => false | None => true end) supports.
Definition missing_source_support (st : Flow) : list (string * FlowSupportRef) :=
  flat_map (fun node => pair (fn_symbol_identity node) <$> unanchored (fn_support_refs node)) (bmap_values (f_nodes st))
  ++ flat_map (fun edge => pair (fe_source_node_id edge) <$> unanchored (fe_support_refs edge)) (bmap_values (f_edges st)).
Definition add_missing_anchors (inp : FlowInput) (st : Flow) : Res Flow :=
  try_fold (fun st e => add_boundary (in_request inp) st "MISSING_SOURCE_ANCHOR" e.1 ["VERIFY_EXACT_SOURCE_ANCHOR"] [e.2]) st
    (missing_source_support st).

(** The retained boundaries of visited symbols. *)
Definition add_retained (inp : FlowInput) (st : Flow) (indexed : IndexedFact) : Res Flow :=
  match ix_fact indexed with
  | Boundary row =>
      let member := pv_member_alias (bf_provenance row) in
      if negb (bset_contains member (in_selected inp)) then Ok st
      else match bf_subject row with
           | Some subject =>
               if bset_contains (member, subject) (f_visited st)
               then add_boundary (in_request inp) st (bf_code row) subject (bf_required_checks row) [support indexed]
               else Ok st
           | None => Ok st
           end
  | _ => Ok st
  end.

Definition region_identity (owner_node_id : string) (graph : LocalCfg.PreparedLocalCfg) : Value :=
  JObject [("ownerNodeId", JString owner_node_id); ("graphId", JString (LocalCfg.graph_id (LocalCfg.payload graph)));
           ("support", cfg_support_value (LocalCfg.support graph))].
Definition add_region (inp : FlowInput) (catalog : LocalCfg.LocalCfgCatalog) (acc : Flow * list FlowControlRegion) (key : string * string)
  : Res (Flow * list FlowControlRegion) :=
  let '(st, regions) := acc in
  match node_for_symbol (f_nodes st) key.1 key.2 with
  | None => Ok acc
  | Some owner_node_id =>
      match LocalCfg.catalog_get catalog key.1 key.2 with
      | Some graph =>
          let? region_id := stable_id "flow-cfg-region" (region_identity owner_node_id graph) in
          Ok (st, regions ++ [{| rg_region_id := region_id; rg_owner_node_id := owner_node_id; rg_graph := LocalCfg.payload graph;
                                 rg_support := LocalCfg.support graph |}])
      | None =>
          let? st := add_boundary (in_request inp) st "VERIFY_CONTROL_FLOW_ORDER" key.2 ["VERIFY_CONTROL_FLOW_ORDER"] [] in
          Ok (st, regions)
      end
  end.
Definition add_regions (inp : FlowInput) (st : Flow) : Res (Flow * list FlowControlRegion) :=
  match in_cfg inp with
  | None => Ok (st, [])
  | Some catalog => try_fold (add_region inp catalog) (st, []) (f_visited st)
  end.

(** The documents made of the final state. *)
Definition flow_identity (slice : FlowSlice) : Value :=
  JObject [("schema", JString FLOW_SLICE_SCHEMA); ("request", flow_request_value (sl_request slice));
           ("rootNodeId", JString (sl_root_node_id slice)); ("nodes", JArray (flow_node_value <$> sl_nodes slice));
           ("edges", JArray (flow_edge_value <$> sl_edges slice)); ("boundaries", JArray (flow_boundary_value <$> sl_boundaries slice));
           ("controlFlowRegions", JArray (region_value <$> sl_control_flow_regions slice));
           ("status", JString (flow_status_name (sl_status slice))); ("certainty", JString (flow_certainty_name (sl_certainty slice)));
           ("verificationObligations", strings_value (sl_verification_obligations slice));
           ("parentFactShards", JArray (cas_object_value <$> sl_parent_fact_shards slice))].
Definition with_flow_id (slice : FlowSlice) (flow_id : string) : FlowSlice :=
  {| sl_schema := sl_schema slice; sl_flow_id := flow_id; sl_request := sl_request slice; sl_root_node_id := sl_root_node_id slice;
     sl_nodes := sl_nodes slice; sl_edges := sl_edges slice; sl_boundaries := sl_boundaries slice;
     sl_control_flow_regions := sl_control_flow_regions slice; sl_counts := sl_counts slice; sl_status := sl_status slice;
     sl_certainty := sl_certainty slice; sl_verification_obligations := sl_verification_obligations slice;
     sl_parent_fact_shards := sl_parent_fact_shards slice |}.
Definition projection_order (inp : FlowInput) (slice : FlowSlice) : FlowOrderAuthority :=
  match in_cfg inp with
  | None => UnorderedStaticRelation
  | Some _ =>
      if (0 <? ct_control_flow_regions (sl_counts slice))
         && forallb (fun edge => bool_decide (fe_order_authority edge = CompilerCfg)) (sl_edges slice)
      then CompilerCfg else OrderUnknown
  end.
Definition assemble (inp : FlowInput) (fact_set : PreparedCallableFactSet) (root_node_id : string) (st : Flow)
    (regions : list FlowControlRegion) : FlowSlice :=
  let nodes := sort_by (cmp_on fn_node_id) (bmap_values (f_nodes st)) in
  let edges := sort_by (cmp_on fe_edge_id) (bmap_values (f_edges st)) in
  let boundaries := sort_by (cmp_on bd_boundary_id) (bmap_values (f_boundaries st)) in
  let regions := sort_by (cmp_on rg_region_id) regions in
  let slice :=
    {| sl_schema := FLOW_SLICE_SCHEMA; sl_flow_id := EmptyString; sl_request := in_request inp; sl_root_node_id := root_node_id;
       sl_nodes := nodes; sl_edges := edges; sl_boundaries := boundaries; sl_control_flow_regions := regions;
       sl_counts := {| ct_nodes := vlen nodes; ct_edges := vlen edges; ct_boundaries := vlen boundaries;
                       ct_control_flow_regions := vlen regions |};
       sl_status := if f_truncated st then FlowTruncated else FlowComplete;
       sl_certainty := if f_truncated st || negb (vlen boundaries =? 0) || bool_decide (cc_certainty (fa_completeness (prepared_authority fact_set)) = SetUnsure)
                       then FlowUnsure else FlowVerified;
       sl_verification_obligations := f_obligations st; sl_parent_fact_shards := fsr_object <$> fa_fact_shards (prepared_authority fact_set) |} in
  with_flow_id slice ("thread-flow:" +:+ hash (flow_identity slice)).
Definition prepare_slice (inp : FlowInput) (slice : FlowSlice) : Res PreparedFlowSlice :=
  let slice_bytes := value_bytes (flow_slice_value slice) in
  if max_slice_bytes (fr_budgets (in_request inp)) <? vlen slice_bytes then budget "flow slice exceeds retained 64 MiB bound"
  else
  let? slice_ref := for_bytes FLOW_SLICE_SCHEMA slice_bytes in
  Ok {| pf_slice := slice; pf_slice_bytes := slice_bytes; pf_slice_ref := slice_ref;
        pf_projection :=
          {| sp_schema := FLOW_SLICE_PROJECTION_SCHEMA; sp_flow_id := sl_flow_id slice; sp_root := fr_root (in_request inp);
             sp_member_alias := fr_member_alias (in_request inp); sp_root_node_id := sl_root_node_id slice;
             sp_counts := sl_counts slice; sp_status := sl_status slice; sp_certainty := sl_certainty slice;
             sp_order_authority := projection_order inp slice; sp_verification_obligations := sl_verification_obligations slice |} |}.

(* --------------------------------------------------------------------- *)
(** ** Building and verifying *)

Definition frozen (depth : N) : Res FlowBudgets :=
  if (depth =? 0) || (MAX_FLOW_DEPTH <? depth) then invalid "flow max depth must be between one and 32"
  else Ok {| max_depth := depth; max_nodes := MAX_FLOW_NODES; max_edges := MAX_FLOW_EDGES; max_boundaries := MAX_FLOW_BOUNDARIES;
             max_stdout_bytes := MAX_FLOW_STDOUT_BYTES; max_slice_bytes := MAX_FLOW_SLICE_BYTES |}.
Definition validate_budgets (b : FlowBudgets) : Res unit :=
  if (max_depth b =? 0) || (MAX_FLOW_DEPTH <? max_depth b) || negb (max_nodes b =? MAX_FLOW_NODES) || negb (max_edges b =? MAX_FLOW_EDGES)
     || negb (max_boundaries b =? MAX_FLOW_BOUNDARIES) || negb (max_stdout_bytes b =? MAX_FLOW_STDOUT_BYTES)
     || negb (max_slice_bytes b =? MAX_FLOW_SLICE_BYTES)
  then invalid "flow budgets differ from the frozen profile" else Ok tt.
Definition find_pair (pairs : list CallablePairBinding) (pair_id : string) : option CallablePairBinding :=
  List.find (fun binding => str_eqb (pb_pair_id binding) pair_id) pairs.
Definition validate_request (request : FlowRequest) (fact_set : PreparedCallableFactSet) : Res unit :=
  validate_budgets (fr_budgets request) ;;?
  JvmIdentity.validate_kotlin_full_symbol_identity (fr_root request) ;;?
  if str_neqb (fr_thread_id request) (fa_thread_id (prepared_authority fact_set))
     || str_neqb (fr_thread_authority_digest request) (fa_thread_authority_digest (prepared_authority fact_set))
     || str_neqb (fr_fact_set_authority_digest request) (fa_authority_digest (prepared_authority fact_set))
     || str_neqb (fr_fact_set_id request) (fp_fact_set_id (prepared_projection fact_set))
  then invalid "flow request is not bound to its callable fact set"
  else
  let? binding := ok_or (find_pair (fa_pairs (prepared_authority fact_set)) (fr_pair_id request))
                    (ClewError_new InvalidInput "flow request names an unknown selected pair") in
  if str_neqb (fr_member_alias request) (pb_provider_member binding) && str_neqb (fr_member_alias request) (pb_consumer_member binding)
  then invalid "flow root member is outside the selected pair" else Ok tt.

Definition read_shard (object : PreparedCasObject) : Res (list IndexedFact) :=
  let? reference := for_bytes (object_schema (pco_reference object)) (pco_bytes object) in
  if negb (bool_decide (reference = pco_reference object)) then corrupt "callable fact shard differs from its CAS authority"
  else
  let? shard := ok_or (from_slice decode_callable_shard (pco_bytes object)) (ClewError_new StateCorrupt "callable fact shard is invalid") in
  if negb (bool_decide (value_bytes (callable_shard_value shard) = pco_bytes object)) then corrupt "callable fact shard is not canonical"
  else Ok ((fun fact => {| ix_fact := fact; ix_shard_ref := pco_reference object |}) <$> cfs_facts shard).
Definition read_facts (fact_set : PreparedCallableFactSet) : Res (list IndexedFact) :=
  let? facts := try_map read_shard (prepared_fact_shards fact_set) in
  Ok (sort_by (cmp_on (fun indexed => fact_id (ix_fact indexed))) (concat facts)).

Definition index_facts (request : FlowRequest) (fact_set : PreparedCallableFactSet) (cfg : option LocalCfg.LocalCfgCatalog)
    (binding : CallablePairBinding) (facts : list IndexedFact) : FlowInput :=
  {| in_request := request; in_pairs := fa_pairs (prepared_authority fact_set); in_pair := binding;
     in_members := bmap_of_list ((fun member => (mb_member_alias member, member)) <$> fa_members (prepared_authority fact_set));
     in_selected := bset_of_list [pb_provider_member binding; pb_consumer_member binding];
     in_facts := facts; in_declarations := group (omap declaration_entry facts); in_families := group (omap family_entry facts);
     in_uses := group (omap use_entry facts); in_cfg := cfg |}.

Definition initial_flow (request : FlowRequest) (root_node : FlowNode) : Flow :=
  {| f_nodes := bmap_insert (fn_node_id root_node) root_node []; f_edges := []; f_boundaries := []; f_obligations := [];
     f_truncated := false; f_queue := [(fr_member_alias request, fr_root request, 0)];
     f_visited := bset_insert (fr_member_alias request, fr_root request) [] |}.

(** One round per declared symbol is enough. *)
Definition flow_fuel (inp : FlowInput) : nat := length (in_declarations inp).

Definition finish_flow (inp : FlowInput) (fact_set : PreparedCallableFactSet) (root_node_id : string) (st : Flow) : Res PreparedFlowSlice :=
  let? st := add_missing_anchors inp st in
  let? st := try_fold (add_retained inp) st (in_facts inp) in
  let? '(st, regions) := add_regions inp st in
  prepare_slice inp (assemble inp fact_set root_node_id st regions).

(** The input and the root declaration, or the error. *)
Definition flow_input (request : FlowRequest) (fact_set : PreparedCallableFactSet) (cfg : option LocalCfg.LocalCfgCatalog)
  : Res (FlowInput * IndexedFact) :=
  validate_request request fact_set ;;?
  let? binding := ok_or (find_pair (fa_pairs (prepared_authority fact_set)) (fr_pair_id request))
                    (ClewError_new StateCorrupt "validated flow pair disappeared") in
  let? facts := read_facts fact_set in
  let inp := index_facts request fact_set cfg binding facts in
  let? roots := ok_or (bmap_get (fr_member_alias request, fr_root request) (in_declarations inp))
                  (ClewError_new InvalidInput "exact flow root declaration was not found") in
  match roots with
  | [root] => Ok (inp, root)
  | _ => invalid "exact flow root declaration is ambiguous"
  end.

Definition build_internal (request : FlowRequest) (fact_set : PreparedCallableFactSet) (cfg : option LocalCfg.LocalCfgCatalog)
  : option (Res PreparedFlowSlice) :=
  match flow_input request fact_set cfg with
  | Err e => Some (Err e)
  | Ok (inp, root) =>
      match callable_node root 0 (in_members inp) with
      | Err e => Some (Err e)
      | Ok root_node =>
          match traverse (flow_fuel inp) inp (initial_flow request root_node) with
          | None => None
          | Some (Err e) => Some (Err e)
          | Some (Ok st) => Some (finish_flow inp fact_set (fn_node_id root_node) st)
          end
      end
  end.
Definition build (request : FlowRequest) (fact_set : PreparedCallableFactSet) : option (Res PreparedFlowSlice) :=
  build_internal request fact_set None.
Definition build_with_cfg (request : FlowRequest) (fact_set : PreparedCallableFactSet) (cfg : LocalCfg.LocalCfgCatalog)
  : option (Res PreparedFlowSlice) := build_internal request fact_set (Some cfg).

(** The comparison with a rebuilt slice. *)
Definition same_rebuilt (prepared : PreparedFlowSlice) (rebuilt : option (Res PreparedFlowSlice)) (message : string) : option (Res unit) :=
  match rebuilt with
  | None => None
  | Some r => Some (let? rebuilt := r in if negb (bool_decide (rebuilt = prepared)) then corrupt message else Ok tt)
  end.
Definition verify_prepared (prepared : PreparedFlowSlice) (fact_set : PreparedCallableFactSet) : option (Res unit) :=
  let slice := pf_slice prepared in
  if negb (bool_decide (value_bytes (flow_slice_value slice) = pf_slice_bytes prepared))
  then Some (corrupt "prepared flow slice is internally inconsistent")
  else match for_bytes FLOW_SLICE_SCHEMA (pf_slice_bytes prepared) with
  | Err e => Some (Err e)
  | Ok reference =>
      if negb (bool_decide (reference = pf_slice_ref prepared))
         || str_neqb (sp_flow_id (pf_projection prepared)) (sl_flow_id slice)
         || str_neqb (fr_fact_set_authority_digest (sl_request slice)) (fa_authority_digest (prepared_authority fact_set))
         || negb (ct_nodes (sl_counts slice) =? vlen (sl_nodes slice))
         || negb (ct_edges (sl_counts slice) =? vlen (sl_edges slice))
         || negb (ct_boundaries (sl_counts slice) =? vlen (sl_boundaries slice))
         || negb (ct_control_flow_regions (sl_counts slice) =? vlen (sl_control_flow_regions slice))
      then Some (corrupt "prepared flow slice is internally inconsistent")
      else same_rebuilt prepared (build (sl_request slice) fact_set) "prepared flow slice differs from deterministic retained facts"
  end.
Definition verify_prepared_with_cfg (prepared : PreparedFlowSlice) (fact_set : PreparedCallableFactSet) (cfg : LocalCfg.LocalCfgCatalog)
  : option (Res unit) :=
  let slice := pf_slice prepared in
  if negb (bool_decide (value_bytes (flow_slice_value slice) = pf_slice_bytes prepared))
  then Some (corrupt "prepared CFG flow slice is internally inconsistent")
  else match for_bytes FLOW_SLICE_SCHEMA (pf_slice_bytes prepared) with
  | Err e => Some (Err e)
  | Ok reference =>
      if negb (bool_decide (reference = pf_slice_ref prepared)) then Some (corrupt "prepared CFG flow slice is internally inconsistent")
      else same_rebuilt prepared (build_with_cfg (sl_request slice) fact_set cfg)
             "prepared CFG flow slice differs from deterministic retained facts"
  end.
End Build.
