(* ===== verification/FlowSpec.v ===== *)
(** * What a flow slice promises

    The specification is stated over the retained facts: who declares a symbol, which
    uses leave it, which of them are calls inside the member, and for which reason a
    symbol is not expanded ([stops]) or a use is not followed ([unfollowed]).  A slice is
    seen through a [View]; [accounted] says that nothing is dropped silently, [node_ok],
    [edge_ok] and [boundary_ok] where its records come from.  The lemmas show that every
    step of the traversal keeps these. *)

From S2P Require Import Prelude Order Collections Text Worklist Json Canonical Instances JsonFormat JsonRead Errors CasObject CatalogCodec ThreadCallables FlowSlice.
From S2P Require LocalCfg JvmIdentity.

(* --------------------------------------------------------------------- *)
(** ** Maps of lists *)

(** The elements with a given key, in order. *)
Definition entries_for {K A} `{EqDecision K} (k : K) (l : list (K * A)) : list A :=
  omap (fun e => if bool_decide (e.1 = k) then Some e.2 else None) l.

Section Group.
Context {K A : Type} `{LawfulOrd K, EqDecision K}.
Implicit Types l : list (K * A).

Lemma group_snoc l e : group (l ++ [e]) = bmap_insert e.1 (default [] (bmap_get e.1 (group l)) ++ [e.2]) (group l).
Proof. unfold group. by rewrite foldl_app. Qed.

Lemma entries_for_snoc k l e : entries_for k (l ++ [e]) = entries_for k l ++ (if bool_decide (e.1 = k) then [e.2] else []).
Proof. unfold entries_for. rewrite omap_app. cbn. by destruct (bool_decide (e.1 = k)). Qed.

Lemma group_get k l : bmap_get k (group l) = match entries_for k l with [] => None | es => Some es end.
Proof.
  induction l as [|e l IH] using rev_ind; [done|]. rewrite group_snoc, entries_for_snoc.
  destruct (decide (e.1 = k)) as [<-|Hne].
  - rewrite bmap_get_insert_eq, bool_decide_eq_true_2, IH by done. destruct (entries_for e.1 l); [done|]. cbn. done.
  - rewrite bmap_get_insert_ne, bool_decide_eq_false_2, app_nil_r by done. done.
Qed.

Lemma group_some k l es : bmap_get k (group l) = Some es <-> entries_for k l = es /\ es <> [].
Proof. rewrite group_get. destruct (entries_for k l); naive_solver. Qed.

Lemma group_default k l : default [] (bmap_get k (group l)) = entries_for k l.
Proof. rewrite group_get. by destruct (entries_for k l). Qed.

Lemma elem_of_entries k l a : a ∈ entries_for k l <-> (k, a) ∈ l.
Proof.
  unfold entries_for. rewrite list_elem_of_omap. split.
  - intros ([k' a'] & Hin & Hb). cbn in Hb. case_bool_decide; naive_solver.
  - intros Hin. exists (k, a). split; [done|]. cbn. by rewrite bool_decide_eq_true_2.
Qed.
End Group.

Section OrInsert.
Context {A : Type}.
Implicit Types m : BTreeMap string A.

Lemma or_insert_wf k (a : A) m : bmap_wf m -> bmap_wf (or_insert k a m).
Proof. unfold or_insert. destruct (bmap_contains_key k m); [done|]. apply bmap_insert_wf. Qed.

Lemma or_insert_get k (a : A) m k' v : bmap_get k' (or_insert k a m) = Some v <->
  bmap_get k' m = Some v \/ (k' = k /\ v = a /\ bmap_get k m = None).
Proof.
  unfold or_insert. destruct (bmap_contains_key k m) eqn:E.
  - apply bmap_contains_spec, bmap_get_some_key in E as [w Hw]. split; [by left|]. intros [?|(-> & -> & ?)]; [done|congruence].
  - assert (bmap_get k m = None) as Hn. { apply bmap_get_none_key. intros Hin. apply bmap_contains_spec in Hin. congruence. }
    destruct (decide (k' = k)) as [->|Hne]; [rewrite bmap_get_insert_eq|rewrite bmap_get_insert_ne by done]; naive_solver.
Qed.

Lemma or_insert_has k (a : A) m : is_Some (bmap_get k (or_insert k a m)).
Proof. destruct (bmap_get k m) as [v|] eqn:E; [exists v|exists a]; apply or_insert_get; auto. Qed.

Lemma or_insert_len k (a : A) m : (length (or_insert k a m) <= S (length m))%nat.
Proof.
  unfold or_insert. destruct (bmap_contains_key k m); [lia|].
  induction m as [|[k' v'] m IH]; cbn; [lia|]. destruct (cmp k k'); cbn; lia.
Qed.
Lemma or_insert_grows k (a : A) m : vlen m <= vlen (or_insert k a m).
Proof.
  unfold vlen, or_insert. destruct (bmap_contains_key k m); [lia|].
  assert (length m <= length (bmap_insert k a m))%nat; [|lia].
  induction m as [|[k' v'] m IH]; cbn; [lia|]. destruct (cmp k k'); cbn; lia.
Qed.
Lemma or_insert_bound k (a : A) m max : vlen m <= max -> negb (bmap_contains_key k m) && (max <=? vlen m) = false -> vlen (or_insert k a m) <= max.
Proof.
  intros Hm Hf. pose proof (or_insert_len k a m) as Hl. unfold or_insert in *. destruct (bmap_contains_key k m); [done|].
  cbn in Hf. apply N.leb_gt in Hf. unfold vlen in *. lia.
Qed.
Lemma or_insert_present k (a : A) m : bmap_contains_key k m = true -> or_insert k a m = m.
Proof. unfold or_insert. by intros ->. Qed.
End OrInsert.

(* --------------------------------------------------------------------- *)
(** ** The specification *)

Section Spec.
Context {P : Primitives}.
Context (inp : FlowInput).
Notation member := (fr_member_alias (in_request inp)).
Notation root := (fr_root (in_request inp)).

(** The exact declarations of a symbol of the member, those that share a compiler
    identity, and the uses owned by such an identity. *)
Definition declared (symbol : string) : list IndexedFact := entries_for (member, symbol) (omap declaration_entry (in_facts inp)).
Definition family (callable_id : string) : list IndexedFact := entries_for (member, callable_id) (omap family_entry (in_facts inp)).
Definition uses_of (callable_id : string) : list IndexedFact := entries_for (member, callable_id) (omap use_entry (in_facts inp)).

(** [symbol] has one declaration, whose compiler identity belongs to nobody else. *)
Definition caller (symbol callable_id : string) : Prop :=
  exists d row, declared symbol = [d] /\ ix_fact d = Declaration row /\ df_compiler_callable_id row = Some callable_id /\
    length (family callable_id) = 1%nat.

(** The use [u] of [source] is a call of the declared symbol [target] of the member. *)
Definition call (source : string) (u : IndexedFact) (target : string) : Prop :=
  (exists callable_id, caller source callable_id /\ u ∈ uses_of callable_id) /\
  (exists row, ix_fact u = Use row /\ same_member inp member row = true /\ exact_target row = Some target) /\
  exists d, declared target = [d].

Inductive path_to : N -> string -> Prop :=
| path_root : path_to 0 root
| path_call n s u t : path_to n s -> call s u t -> path_to (n + 1) t.

(** Identities of the records of a slice. *)
Definition node_key (symbol id : string) : Prop :=
  exists d row, declared symbol = [d] /\ ix_fact d = Declaration row /\ stable_id "flow-node" (node_identity row) = Ok id.
Definition noted (B : string -> Prop) (code subject : string) (supports : list FlowSupportRef) : Prop :=
  exists id, stable_id "flow-boundary" (boundary_identity (in_request inp) code subject supports) = Ok id /\ B id.
Definition linked (E : string -> Prop) (source : string) (u : IndexedFact) (target : string) : Prop :=
  exists row sid tid id, ix_fact u = Use row /\ node_key source sid /\ node_key target tid /\
    stable_id "flow-edge" (edge_identity sid tid row) = Ok id /\ E id.

(** What a slice shows, as far as the specification refers to it: its edges and
    boundaries, the symbols whose uses were looked at, the subjects under which its
    records have a support, and whether it ran into a budget. *)
Record View : Type := mkView {
  v_edge : string -> Prop;
  v_boundary : string -> Prop;
  v_expanded : string -> Prop;
  v_support : string -> FlowSupportRef -> Prop;
  v_truncated : Prop;
  v_nodes_spent : Prop;
  v_edges_spent : Prop
}.
Record view_le (a b : View) : Prop := mkViewLe {
  le_edge : forall id, v_edge a id -> v_edge b id;
  le_boundary : forall id, v_boundary a id -> v_boundary b id;
  le_expanded : forall s, v_expanded a s -> v_expanded b s;
  le_support : forall s su, v_support a s su -> v_support b s su;
  le_truncated : v_truncated a -> v_truncated b;
  le_nodes_spent : v_nodes_spent a -> v_nodes_spent b;
  le_edges_spent : v_edges_spent a -> v_edges_spent b
}.

(** Why no use of a declared symbol is looked at, and the boundary that says so: its
    declaration has no compiler identity, another declaration has the same one, or the
    symbol is as deep as the request allows and has uses. *)
Inductive stops (v : View) (symbol : string) : string -> string -> list string -> list FlowSupportRef -> Prop :=
| stop_unidentified d row : declared symbol = [d] -> ix_fact d = Declaration row -> df_compiler_callable_id row = None ->
    stops v symbol "MISSING_SOURCE_CALLABLE_ID" symbol ["VERIFY_EXACT_SOURCE_CALLABLE_ID"] [support d]
| stop_overloaded d row callable_id : declared symbol = [d] -> ix_fact d = Declaration row ->
    df_compiler_callable_id row = Some callable_id -> length (family callable_id) <> 1%nat ->
    stops v symbol "AMBIGUOUS_SOURCE_OWNER_OVERLOAD" callable_id ["DISAMBIGUATE_RELATION_SOURCE_OVERLOAD"] [support d]
| stop_depth callable_id k u : caller symbol callable_id -> u ∈ uses_of callable_id -> path_to k symbol ->
    max_depth (fr_budgets (in_request inp)) <= k -> v_truncated v ->
    stops v symbol "FLOW_DEPTH_TRUNCATED" symbol ["INCREASE_MAX_DEPTH_OR_SELECT_NARROWER_ROOT"] [].

(** The target of a use: in the member itself, in a member that was not selected, or
    handed over to the provider of the one declared pair of the member. *)
Definition inside (row : UseFact) : Prop := same_member inp member row = true.
Definition outside (row : UseFact) : Prop := exists m, target_member inp row = Some m /\ m ∉ in_selected inp.
Definition crosses (row : UseFact) : Prop := ~ inside row /\ ~ outside row.
Definition paired : Prop := pb_relationship_authority (in_pair inp) = DeclaredTopology /\
  exists binding, declared_pairs inp member = [binding] /\ pb_pair_id binding = pb_pair_id (in_pair inp).
Definition hands_over (row : UseFact) (provider : CallableMemberBinding) : Prop :=
  crosses row /\ uf_relationship_authority row = DeclaredTopology /\ paired /\ member = pb_consumer_member (in_pair inp) /\
  bmap_get (pb_provider_member (in_pair inp)) (in_members inp) = Some provider.
(** The symbol a budget would have to pay for. *)
Definition aims (row : UseFact) (t : string) : Prop :=
  (inside row /\ exact_target row = Some t /\ exists d, declared t = [d]) \/
  (t = uf_target_callable_id row /\ exists provider, hands_over row provider).

(** Why a use of [s] is not followed: code, subject and check of its boundary. *)
Inductive unfollowed (v : View) (s : string) (row : UseFact) : string -> string -> string -> Prop :=
| use_outside : ~ inside row -> outside row ->
    unfollowed v s row "TARGET_OUTSIDE_SELECTED_PAIR" (subject_of row) "SELECT_PAIR_CONTAINING_TARGET_MEMBER"
| use_dependency : crosses row -> uf_relationship_authority row = VerifiedSameSnapshotCompilationDependency ->
    unfollowed v s row "UNSUPPORTED_EXACT_PAIR_DEPENDENCY" (subject_of row) "VERIFY_PAIR_DEPENDENCY_OUTSIDE_V1"
| use_unpaired : crosses row -> uf_relationship_authority row = DeclaredTopology -> ~ paired ->
    unfollowed v s row "AMBIGUOUS_DECLARED_TOPOLOGY_HANDOFF" (uf_target_callable_id row) "DISAMBIGUATE_DECLARED_COMPONENT_PAIR"
| use_reversed : crosses row -> uf_relationship_authority row = DeclaredTopology -> paired -> member <> pb_consumer_member (in_pair inp) ->
    unfollowed v s row "DECLARED_TOPOLOGY_DIRECTION_MISMATCH" (uf_target_callable_id row) "VERIFY_DECLARED_CONSUMER_PROVIDER_DIRECTION"
| use_unbound : crosses row -> uf_relationship_authority row <> VerifiedSameSnapshotCompilationDependency ->
    uf_relationship_authority row <> DeclaredTopology ->
    unfollowed v s row "UNBOUND_COMPONENT_TARGET" (uf_target_callable_id row) "BIND_TARGET_TO_SELECTED_PAIR"
| use_unresolved : inside row -> exact_target row = None ->
    unfollowed v s row "UNRESOLVED_TARGET" (uf_target_callable_id row) "RESOLVE_EXACT_FULL_SYMBOL"
| use_undeclared t : inside row -> exact_target row = Some t -> declared t = [] ->
    unfollowed v s row "MISSING_TARGET_DECLARATION" t "VERIFY_TARGET_DECLARATION_IN_RETAINED_FACT_SET"
| use_overloaded t : inside row -> exact_target row = Some t -> (2 <= length (declared t))%nat ->
    unfollowed v s row "AMBIGUOUS_TARGET_DECLARATION" t "DISAMBIGUATE_TARGET_FULL_SYMBOL"
| use_node_budget t : aims row t -> v_truncated v -> v_nodes_spent v ->
    unfollowed v s row "FLOW_NODE_BUDGET_TRUNCATED" t "SELECT_NARROWER_ROOT"
| use_edge_budget t : aims row t -> v_truncated v -> v_edges_spent v ->
    unfollowed v s row "FLOW_EDGE_BUDGET_TRUNCATED" s "SELECT_NARROWER_ROOT".

(** The node and the edge of a use that is handed over. *)
Definition handoff_key (row : UseFact) (provider : CallableMemberBinding) (id : string) : Prop :=
  stable_id "flow-node" (handoff_identity provider (uf_target_callable_id row)) = Ok id.
Definition handed (E : string -> Prop) (source : string) (row : UseFact) (provider : CallableMemberBinding) : Prop :=
  exists sid tid id, node_key source sid /\ handoff_key row provider tid /\
    stable_id "flow-edge" (handoff_edge_identity sid tid row) = Ok id /\ E id.

(** What becomes of a use [u] of [s]: an edge to a symbol of [V], an edge to the hand-off
    node together with the boundary of the hand-off, or the boundary for the reason
    why the use is not followed. *)
Inductive settled (v : View) (V : string -> Prop) (s : string) (u : IndexedFact) : Prop :=
| settled_call t : call s u t -> linked (v_edge v) s u t -> V t -> settled v V s u
| settled_handoff row provider : ix_fact u = Use row -> hands_over row provider -> handed (v_edge v) s row provider ->
    noted (v_boundary v) "DECLARED_TOPOLOGY_HANDOFF" (uf_target_callable_id row) [support u] -> settled v V s u
| settled_boundary row code subject check : ix_fact u = Use row -> unfollowed v s row code subject check ->
    noted (v_boundary v) code subject [support u] -> settled v V s u.

(** Nothing that leaves [symbol] is dropped: there is a boundary for the reason why
    its uses are not looked at, or every use is settled. *)
Inductive accounted (v : View) (V : string -> Prop) (symbol : string) : Prop :=
| accounted_stop code subject checks supports : stops v symbol code subject checks supports ->
    noted (v_boundary v) code subject supports -> accounted v V symbol
| accounted_uses callable_id : caller symbol callable_id -> (forall u, u ∈ uses_of callable_id -> settled v V symbol u) ->
    accounted v V symbol.

(** What a boundary record may say: code, subject, checks and supports. *)
Inductive cause (v : View) : string -> string -> list string -> list FlowSupportRef -> Prop :=
| cause_stop s code subject checks supports : v_expanded v s -> stops v s code subject checks supports ->
    cause v code subject checks supports
| cause_use s callable_id u row code subject check : v_expanded v s -> caller s callable_id -> u ∈ uses_of callable_id ->
    ix_fact u = Use row -> unfollowed v s row code subject check -> cause v code subject [check] [support u]
| cause_handoff s callable_id u row provider : v_expanded v s -> caller s callable_id -> u ∈ uses_of callable_id ->
    ix_fact u = Use row -> hands_over row provider ->
    cause v "DECLARED_TOPOLOGY_HANDOFF" (uf_target_callable_id row) ["VERIFY_RUNTIME_COMPONENT_HANDOFF"] [support u]
| cause_order s u t row catalog graph : v_expanded v s -> call s u t -> ix_fact u = Use row -> in_cfg inp = Some catalog ->
    LocalCfg.catalog_get catalog member s = Some graph -> relation_cfg_nodes row (LocalCfg.payload graph) = None ->
    cause v "VERIFY_CONTROL_FLOW_ORDER" s ["VERIFY_CONTROL_FLOW_ORDER"] [support u]
| cause_anchor subject su : v_support v subject su -> su_source su = None ->
    cause v "MISSING_SOURCE_ANCHOR" subject ["VERIFY_EXACT_SOURCE_ANCHOR"] [su]
| cause_retained s u row : v_expanded v s -> u ∈ in_facts inp -> ix_fact u = Boundary row -> bf_subject row = Some s ->
    pv_member_alias (bf_provenance row) = member -> cause v (bf_code row) s (dedup (sort (bf_required_checks row))) [support u]
| cause_graph s catalog : v_expanded v s -> in_cfg inp = Some catalog -> LocalCfg.catalog_get catalog member s = None ->
    cause v "VERIFY_CONTROL_FLOW_ORDER" s ["VERIFY_CONTROL_FLOW_ORDER"] [].
Definition boundary_ok (v : View) (b : FlowBoundary) : Prop :=
  stable_id "flow-boundary" (boundary_identity (in_request inp) (bd_code b) (bd_subject b) (bd_support_refs b)) = Ok (bd_boundary_id b) /\
  cause v (bd_code b) (bd_subject b) (bd_required_checks b) (bd_support_refs b).

(** What the order of an edge is based on.  A call whose order is unknown although the
    caller has a graph has a boundary. *)
Definition order_ok (B : string -> Prop) (s : string) (u : IndexedFact) (row : UseFact) (e : FlowEdge) : Prop :=
  match fe_order_authority e with
  | CompilerCfg => exists catalog graph, in_cfg inp = Some catalog /\ LocalCfg.catalog_get catalog member s = Some graph /\
      fe_cfg_graph_id e = Some (LocalCfg.graph_id (LocalCfg.payload graph)) /\
      relation_cfg_nodes row (LocalCfg.payload graph) = Some (fe_cfg_node_ids e)
  | UnorderedStaticRelation => in_cfg inp = None /\ fe_cfg_graph_id e = None /\ fe_cfg_node_ids e = []
  | OrderUnknown => fe_cfg_graph_id e = None /\ fe_cfg_node_ids e = [] /\ exists catalog, in_cfg inp = Some catalog /\
      (LocalCfg.catalog_get catalog member s = None \/ noted B "VERIFY_CONTROL_FLOW_ORDER" s [support u])
  end.

(** Where an edge comes from. *)
Definition edge_ok (N_ B : string -> Prop) (e : FlowEdge) : Prop :=
  exists s n u row callable_id, path_to n s /\ caller s callable_id /\ u ∈ uses_of callable_id /\ ix_fact u = Use row /\
    node_key s (fe_source_node_id e) /\ N_ (fe_source_node_id e) /\ N_ (fe_target_node_id e) /\ fe_support_refs e = [support u] /\
    fe_relation_kind e = uf_relation_kind row /\ fe_relationship_authority e = uf_relationship_authority row /\
    ((exists t, call s u t /\ node_key t (fe_target_node_id e) /\ order_ok B s u row e) \/
     (exists provider, hands_over row provider /\ handoff_key row provider (fe_target_node_id e) /\ fe_order_authority e = OrderUnknown /\
      noted B "DECLARED_TOPOLOGY_HANDOFF" (uf_target_callable_id row) [support u])).

Lemma node_key_fun s id id' : node_key s id -> node_key s id' -> id = id'.
Proof. intros (d & row & Hd & Hr & Hi) (d' & row' & Hd' & Hr' & Hi'). congruence. Qed.

Lemma noted_mono (B B' : string -> Prop) code subject sup : (forall x, B x -> B' x) -> noted B code subject sup -> noted B' code subject sup.
Proof. intros H (id & ? & ?). exists id. auto. Qed.
Lemma linked_mono (E E' : string -> Prop) s u t : (forall x, E x -> E' x) -> linked E s u t -> linked E' s u t.
Proof. intros H (row & sid & tid & id & ? & ? & ? & ? & ?). exists row, sid, tid, id. split_and!; auto. Qed.
Lemma handed_mono (E E' : string -> Prop) s row provider : (forall x, E x -> E' x) -> handed E s row provider -> handed E' s row provider.
Proof. intros H (sid & tid & id & ? & ? & ? & ?). exists sid, tid, id. split_and!; auto. Qed.

Lemma stops_mono v v' s code subject checks supports : view_le v v' ->
  stops v s code subject checks supports -> stops v' s code subject checks supports.
Proof. intros Hv []; econstructor; try done. by apply (le_truncated _ _ Hv). Qed.
Lemma unfollowed_mono v v' s row code subject check : view_le v v' ->
  unfollowed v s row code subject check -> unfollowed v' s row code subject check.
Proof. intros [_ _ _ _ ? ? ?] []; econstructor; eauto. Qed.
Lemma settled_mono v v' (V V' : string -> Prop) s u : view_le v v' -> (forall x, V x -> V' x) -> settled v V s u -> settled v' V' s u.
Proof.
  intros Hv HV [t H1 H2 H3|row provider H1 H2 H3 H4|row code subject check H1 H2 H3].
  - eapply settled_call; [done|by eapply linked_mono, H2; apply Hv|auto].
  - eapply settled_handoff; [done|done|by eapply handed_mono, H3; apply Hv|by eapply noted_mono, H4; apply Hv].
  - eapply settled_boundary; [done|by eapply unfollowed_mono|by eapply noted_mono, H3; apply Hv].
Qed.
Lemma accounted_mono v v' (V V' : string -> Prop) s : view_le v v' -> (forall x, V x -> V' x) -> accounted v V s -> accounted v' V' s.
Proof.
  intros Hv HV [code subject checks supports H1 H2|c H1 H2].
  - eapply accounted_stop; [by eapply stops_mono|by eapply noted_mono, H2; apply Hv].
  - eapply accounted_uses; [done|]. intros u Hu. by eapply settled_mono, H2.
Qed.
Lemma cause_mono v v' code subject checks supports : view_le v v' -> cause v code subject checks supports -> cause v' code subject checks supports.
Proof.
  intros Hv []; [eapply cause_stop|eapply cause_use|eapply cause_handoff|eapply cause_order|eapply cause_anchor|eapply cause_retained|eapply cause_graph];
    try done; try (by apply (le_expanded _ _ Hv)); [by eapply stops_mono|by eapply unfollowed_mono|by apply (le_support _ _ Hv)].
Qed.
Lemma boundary_ok_mono v v' b : view_le v v' -> boundary_ok v b -> boundary_ok v' b.
Proof. intros Hv [? ?]. split; [done|]. by eapply cause_mono. Qed.
Lemma order_ok_mono (B B' : string -> Prop) s u row e : (forall x, B x -> B' x) -> order_ok B s u row e -> order_ok B' s u row e.
Proof.
  intros HB. unfold order_ok. destruct (fe_order_authority e); [done|done|]. intros (? & ? & catalog & ? & H). split_and!; [done|done|].
  exists catalog. split; [done|]. destruct H as [?|?]; [by left|right]. by eapply noted_mono.
Qed.
Lemma edge_ok_mono (N_ B N' B' : string -> Prop) e : (forall x, N_ x -> N' x) -> (forall x, B x -> B' x) -> edge_ok N_ B e -> edge_ok N' B' e.
Proof.
  intros HN HB (s & n & u & row & c & H1 & H2 & H3 & H4 & H5 & H6 & H7 & H8 & H9 & H10 & H11). exists s, n, u, row, c.
  split_and!; auto. destruct H11 as [(t & ? & ? & ?)|(provider & ? & ? & ? & ?)]; [left; exists t|right; exists provider]; split_and!; try done.
  - by eapply order_ok_mono.
  - by eapply noted_mono.
Qed.

(** A callable node of the slice is the declaration it names, on a path of its depth;
    any other node is the one to which a use of a callable at the end of a path is
    handed over. *)
Definition node_ok (n : FlowNode) : Prop :=
  match fn_node_kind n with
  | NCallable => fn_member_alias n = member /\ node_key (fn_symbol_identity n) (fn_node_id n) /\ path_to (fn_depth n) (fn_symbol_identity n) /\
      exists d, declared (fn_symbol_identity n) = [d] /\ fn_support_refs n = [support d]
  | NBoundary => exists s k callable_id u row provider, path_to k s /\ caller s callable_id /\ u ∈ uses_of callable_id /\
      ix_fact u = Use row /\ hands_over row provider /\ handoff_key row provider (fn_node_id n) /\ fn_depth n = k + 1 /\
      fn_symbol_identity n = uf_target_callable_id row /\ fn_member_alias n = mb_member_alias provider /\
      fn_service_alias n = mb_service_alias provider /\ fn_repository_namespace n = mb_repository_namespace provider /\
      fn_order_authority n = OrderUnknown /\ fn_support_refs n = []
  end.
Lemma node_ok_callable n : node_ok n -> fn_node_kind n = NCallable -> fn_member_alias n = member /\
  node_key (fn_symbol_identity n) (fn_node_id n) /\ path_to (fn_depth n) (fn_symbol_identity n) /\
  exists d, declared (fn_symbol_identity n) = [d] /\ fn_support_refs n = [support d].
Proof. intros Hn Hk. unfold node_ok in Hn. by rewrite Hk in Hn. Qed.

Lemma callable_node_ok d depth members n symbol : callable_node d depth members = Ok n -> declared symbol = [d] ->
  fn_node_kind n = NCallable /\ fn_member_alias n = member /\ fn_symbol_identity n = symbol /\ fn_depth n = depth /\
  node_key symbol (fn_node_id n) /\ fn_support_refs n = [support d].
Proof.
  intros Hn Hd. unfold callable_node in Hn. destruct (ix_fact d) as [row| |] eqn:Hf; [|done..].
  assert (declaration_entry d = Some ((member, symbol), d)) as Hk.
  { assert (d ∈ declared symbol) as Hin by (rewrite Hd; set_solver). unfold declared in Hin. apply elem_of_entries, list_elem_of_omap in Hin as (x & _ & Hx).
    pose proof Hx as Hx'. unfold declaration_entry in Hx. destruct (ix_fact x) as [row'| |]; [|done..].
    destruct (df_exact_eligible row'); [|done]. injection Hx as ? ? ->. done. }
  unfold declaration_entry in Hk. rewrite Hf in Hk. destruct (df_exact_eligible row); [|done]. simplify_eq.
  ok_inv Hn. split_and!; try done. exists d, row. by split_and!.
Qed.
End Spec.

(* --------------------------------------------------------------------- *)
(** ** The state of the traversal *)

Definition has_node (st : Flow) (id : string) : Prop := is_Some (bmap_get id (f_nodes st)).
Definition has_edge (st : Flow) (id : string) : Prop := is_Some (bmap_get id (f_edges st)).
Definition has_boundary (st : Flow) (id : string) : Prop := is_Some (bmap_get id (f_boundaries st)).

(** The indexes are those of the facts. *)
Record indexed (inp : FlowInput) : Prop := mkIndexed {
  ix_declarations : in_declarations inp = group (omap declaration_entry (in_facts inp));
  ix_families : in_families inp = group (omap family_entry (in_facts inp));
  ix_uses : in_uses inp = group (omap use_entry (in_facts inp));
  ix_nodes : 1 <= max_nodes (fr_budgets (in_request inp))
}.

Section Traversal.
Context {P : Primitives}.
Context (inp : FlowInput).
Notation member := (fr_member_alias (in_request inp)).
Notation root := (fr_root (in_request inp)).
Notation budgets := (fr_budgets (in_request inp)).
Notation U := ((in_declarations inp).*1).

Definition reached (st : Flow) (symbol : string) : Prop := (member, symbol) ∈ f_visited st.

(** Steps only add. *)
Record grows (a b : Flow) : Prop := mkGrows {
  g_nodes : forall id n, bmap_get id (f_nodes a) = Some n -> bmap_get id (f_nodes b) = Some n;
  g_edges : forall id e, bmap_get id (f_edges a) = Some e -> bmap_get id (f_edges b) = Some e;
  g_boundaries : forall id, has_boundary a id -> has_boundary b id;
  g_truncated : f_truncated b = false -> f_truncated a = false;
  g_visited : forall x, x ∈ f_visited a -> x ∈ f_visited b;
  g_queue : forall x, x ∈ f_queue a -> x ∈ f_queue b;
  g_new : forall x, x ∈ f_visited b -> x ∈ f_visited a \/ x ∈ (f_queue b).*1;
  g_measure : (length (f_queue b) + remaining U (f_visited b) <= length (f_queue a) + remaining U (f_visited a))%nat;
  g_counts : vlen (f_nodes a) <= vlen (f_nodes b) /\ vlen (f_edges a) <= vlen (f_edges b)
}.

#[local] Instance grows_preorder : PreOrder grows.
Proof.
  split.
  - intros a. split; auto.
  - intros a b c [H1 H2 H3 H4 H5 H6 H7 H8 [? ?]] [K1 K2 K3 K4 K5 K6 K7 K8 [? ?]]. split; auto; [|lia|split; lia].
    intros x Hx. destruct (K7 x Hx) as [Hb|?]; [|by right]. destruct (H7 x Hb) as [?|(y & -> & Hy)%list_elem_of_fmap]; [by left|].
    right. apply list_elem_of_fmap_2. auto.
Qed.

(** Steps that leave the queue and the visited set alone. *)
Lemma grows_frame a b : f_queue b = f_queue a -> f_visited b = f_visited a ->
  (forall id n, bmap_get id (f_nodes a) = Some n -> bmap_get id (f_nodes b) = Some n) ->
  (forall id e, bmap_get id (f_edges a) = Some e -> bmap_get id (f_edges b) = Some e) -> (forall id, has_boundary a id -> has_boundary b id) ->
  (f_truncated b = false -> f_truncated a = false) -> vlen (f_nodes a) <= vlen (f_nodes b) -> vlen (f_edges a) <= vlen (f_edges b) -> grows a b.
Proof. intros Hq Hv. split; rewrite ?Hq, ?Hv; auto. Qed.

Lemma grows_node a b id : grows a b -> has_node a id -> has_node b id.
Proof. intros Hg [n Hn]. exists n. by apply (g_nodes _ _ Hg). Qed.

(** The subjects under which the records of the state have a support. *)
Definition supported (st : Flow) (subject : string) (su : FlowSupportRef) : Prop :=
  (exists id n, bmap_get id (f_nodes st) = Some n /\ fn_symbol_identity n = subject /\ su ∈ fn_support_refs n) \/
  (exists id e, bmap_get id (f_edges st) = Some e /\ fe_source_node_id e = subject /\ su ∈ fe_support_refs e).
Definition view_of (st : Flow) : View :=
  {| v_edge := has_edge st; v_boundary := has_boundary st; v_expanded := reached st; v_support := supported st;
     v_truncated := f_truncated st = true; v_nodes_spent := max_nodes budgets <= vlen (f_nodes st);
     v_edges_spent := max_edges budgets <= vlen (f_edges st) |}.

Lemma grows_edge a b id : grows a b -> has_edge a id -> has_edge b id.
Proof. intros Hg [e He]. exists e. by apply (g_edges _ _ Hg). Qed.
Lemma grows_view a b : grows a b -> view_le (view_of a) (view_of b).
Proof.
  intros Hg. destruct (g_counts _ _ Hg) as [? ?]. split; cbn.
  - intros id. by apply grows_edge.
  - apply (g_boundaries _ _ Hg).
  - intros s. apply (g_visited _ _ Hg).
  - intros s su [(id & n & ? & ?)|(id & e & ? & ?)]; [left; exists id, n|right; exists id, e]; (split; [|done]); [by apply (g_nodes _ _ Hg)|by apply (g_edges _ _ Hg)].
  - pose proof (g_truncated _ _ Hg). destruct (f_truncated a), (f_truncated b); naive_solver.
  - lia.
  - lia.
Qed.

Record flow_ok (cur : N) (st : Flow) : Prop := mkFlowOk {
  fo_nodes_wf : bmap_wf (f_nodes st);
  fo_edges_wf : bmap_wf (f_edges st);
  fo_boundaries_wf : bmap_wf (f_boundaries st);
  fo_visited_wf : bset_wf (f_visited st);
  fo_node : forall id n, bmap_get id (f_nodes st) = Some n -> fn_node_id n = id /\
    fn_depth n <= N.min (cur + 1) (max_depth budgets) /\ node_ok inp n;
  fo_edge : forall id e, bmap_get id (f_edges st) = Some e -> fe_edge_id e = id /\ edge_ok inp (has_node st) (has_boundary st) e;
  fo_boundary : forall id b, bmap_get id (f_boundaries st) = Some b ->
    bd_boundary_id b = id /\ (forall check, check ∈ bd_required_checks b -> check ∈ f_obligations st) /\ boundary_ok inp (view_of st) b;
  fo_queue : forall x, x ∈ f_queue st -> exists t, x.1 = (member, t) /\ reached st t /\ path_to inp x.2 t /\ cur <= x.2 <= cur + 1 /\
    (f_truncated st = false -> forall id n, bmap_get id (f_nodes st) = Some n -> fn_node_kind n = NCallable ->
       fn_symbol_identity n = t -> fn_depth n = x.2);
  fo_sorted : StronglySorted (fun x y : string * string * N => x.2 <= y.2) (f_queue st);
  fo_visited : forall x, x ∈ f_visited st -> exists t id, x = (member, t) /\ node_key inp t id /\ has_node st id;
  fo_nodes_visited : f_truncated st = false -> forall id n, bmap_get id (f_nodes st) = Some n -> fn_node_kind n = NCallable ->
    reached st (fn_symbol_identity n);
  fo_handoff : forall id n, bmap_get id (f_nodes st) = Some n -> fn_node_kind n = NBoundary -> exists b, has_boundary st b;
  fo_bounds : vlen (f_nodes st) <= max_nodes budgets /\ vlen (f_edges st) <= max_edges budgets /\
    vlen (f_boundaries st) <= max_boundaries budgets
}.

Lemma boundaries_keep a b : grows a b -> f_boundaries b = f_boundaries a -> f_obligations b = f_obligations a ->
  (forall id bd, bmap_get id (f_boundaries a) = Some bd -> bd_boundary_id bd = id /\
    (forall check, check ∈ bd_required_checks bd -> check ∈ f_obligations a) /\ boundary_ok inp (view_of a) bd) ->
  forall id bd, bmap_get id (f_boundaries b) = Some bd -> bd_boundary_id bd = id /\
    (forall check, check ∈ bd_required_checks bd -> check ∈ f_obligations b) /\ boundary_ok inp (view_of b) bd.
Proof.
  intros Hg -> -> H id bd Hb. destruct (H id bd Hb) as (? & ? & ?). split_and!; [done|done|]. by eapply boundary_ok_mono; [apply grows_view|].
Qed.

Lemma set_truncated_ok cur st : flow_ok cur st -> flow_ok cur (set_truncated st) /\ grows st (set_truncated st).
Proof.
  intros [H1 H2 H3 H4 H5 H6 H7 H8 H9 H10 H11 H13 H12]. assert (grows st (set_truncated st)) as Hg by by apply grows_frame.
  split; [|done]. split; try done.
  - by apply (boundaries_keep st).
  - intros x Hx. destruct (H8 x Hx) as (t & ? & ? & ? & ? & _). exists t. split_and!; try done; naive_solver.
Qed.

Lemma add_boundary_ok cur st code subject checks supports st' : flow_ok cur st ->
  cause inp (view_of st) code subject (dedup (sort checks)) (sort_by (cmp_on su_fact_id) supports) ->
  add_boundary (in_request inp) st code subject checks supports = Ok st' ->
  flow_ok cur st' /\ grows st st' /\ noted inp (has_boundary st') code subject (sort_by (cmp_on su_fact_id) supports).
Proof.
  intros [H1 H2 H3 H4 H5 H6 H7 H8 H9 H10 H11 H13 H12] Hcause H. unfold add_boundary in H. ok_inv H.
  match goal with |- flow_ok _ (set_boundaries _ (or_insert ?id ?b _) ?o) /\ _ => set (bid := id) in *; set (bd := b) in *; set (ob := o) in * end.
  assert (grows st (set_boundaries st (or_insert bid bd (f_boundaries st)) ob)) as Hg.
  { apply grows_frame; try done. intros id [b Hb]. exists b. apply or_insert_get. by left. }
  split_and!; [|done|].
  2: { exists bid. split; [done|]. apply or_insert_has. }
  split; try done.
  - by apply or_insert_wf.
  - intros id e He. destruct (H6 id e He) as [? ?]. split; [done|]. eapply edge_ok_mono; [| |done]; [done|apply Hg].
  - intros id b Hb. apply or_insert_get in Hb as [Hb|(-> & -> & _)].
    + destruct (H7 id b Hb) as (? & Hc & ?). split_and!; [done| |by eapply boundary_ok_mono; [apply grows_view|]].
      intros check Hin. apply bset_extend_elem. left. auto.
    + split_and!; [done| |split; [done|by eapply cause_mono; [apply grows_view|]]]. intros check Hin. apply bset_extend_elem. by right.
  - intros id n Hn Hk. destruct (H13 id n Hn Hk) as [b Hb]. exists b. by apply (g_boundaries _ _ Hg).
  - destruct H12 as (? & ? & ?). split_and!; try done. cbn [f_boundaries set_boundaries].
    by apply or_insert_bound.
Qed.

Lemma note_ok cur st u code subject check st' : flow_ok cur st -> cause inp (view_of st) code subject [check] [support u] ->
  note inp st u code subject check = Ok st' ->
  flow_ok cur st' /\ grows st st' /\ noted inp (has_boundary st') code subject [support u].
Proof. intros Hok Hc H. apply (add_boundary_ok cur st code subject [check] [support u] st' Hok Hc H). Qed.

Lemma admit_grows st node st1 : admit_node inp st node = Some st1 ->
  grows st st1 /\ has_node st1 (fn_node_id node) /\ st1 = set_nodes st (or_insert (fn_node_id node) node (f_nodes st)).
Proof.
  unfold admit_node. destruct (negb _ && _); [done|]. intros [= <-]. split_and!; [|apply or_insert_has|done].
  apply grows_frame; try done; [|apply or_insert_grows]. intros id n Hn. apply or_insert_get. by left.
Qed.

(** A node that does not ask to be visited. *)
Lemma admit_ok cur st node st1 : flow_ok cur st -> node_ok inp node -> fn_depth node <= N.min (cur + 1) (max_depth budgets) ->
  f_truncated st = true \/ fn_node_kind node = NBoundary -> (fn_node_kind node = NBoundary -> exists b, has_boundary st b) ->
  admit_node inp st node = Some st1 -> flow_ok cur st1.
Proof.
  intros [H1 H2 H3 H4 H5 H6 H7 H8 H9 H10 H11 H13 H12] Hnode Hdepth Hkind Hbd Ha. destruct (admit_grows _ _ _ Ha) as (Hg & _ & ->).
  assert (f_truncated st = false -> forall id n, bmap_get id (f_nodes (set_nodes st (or_insert (fn_node_id node) node (f_nodes st)))) = Some n ->
    fn_node_kind n = NCallable -> bmap_get id (f_nodes st) = Some n) as Hold.
  { intros Ht id n Hn Hc. apply or_insert_get in Hn as [?|(-> & -> & _)]; [done|]. destruct Hkind; congruence. }
  split; try done.
  - by apply or_insert_wf.
  - intros id n Hn. apply or_insert_get in Hn as [?|(-> & -> & _)]; [by apply H5|done].
  - intros id e He. destruct (H6 id e He) as [? ?]. split; [done|]. eapply edge_ok_mono; [|done|done]. intros x. by apply grows_node.
  - by apply (boundaries_keep st).
  - intros x Hx. destruct (H8 x Hx) as (t & ? & ? & ? & ? & Hd). exists t. split_and!; try done; [naive_solver..|].
    intros Ht id n Hn Hc Hs. eapply Hd; [done|by apply Hold|done|done].
  - intros x Hx. destruct (H10 x Hx) as (t & id & ? & ? & ?). exists t, id. split_and!; try done. by eapply grows_node.
  - intros Ht id n Hn Hc. eapply H11; [done| |done]. by apply Hold.
  - intros id n Hn Hk. apply or_insert_get in Hn as [?|(-> & -> & _)]; [by eapply H13|by apply Hbd].
  - destruct H12 as (? & ? & ?). split_and!; try done. apply or_insert_bound; [done|]. unfold admit_node in Ha. by destruct (negb _ && _).
Qed.

Lemma admit_truncated st node st1 : admit_node inp st node = Some st1 -> admit_node inp (set_truncated st) node = Some (set_truncated st1).
Proof. unfold admit_node. cbn [f_nodes set_truncated]. destruct (negb _ && _); [done|]. by intros [= <-]. Qed.

Lemma admit_boundaries st node st1 b o : admit_node inp st node = Some st1 ->
  admit_node inp (set_boundaries st b o) node = Some (set_boundaries st1 b o).
Proof. unfold admit_node. cbn [f_nodes set_boundaries]. destruct (negb _ && _); [done|]. by intros [= <-]. Qed.

Lemma set_nodes_same st : set_nodes st (f_nodes st) = st.
Proof. by destruct st. Qed.

(** The node of a call, together with the visit that it asks for. *)
Lemma admit_enqueue_ok cur st node st1 s u t d : indexed inp -> cur + 1 <= max_depth budgets -> flow_ok cur st -> path_to inp cur s -> call inp s u t ->
  declared inp t = [d] -> callable_node d (cur + 1) (in_members inp) = Ok node -> admit_node inp st node = Some st1 ->
  let st' := enqueue st1 member t (cur + 1) in
  flow_ok cur st' /\ grows st st' /\ has_node st' (fn_node_id node) /\ reached st' t.
Proof.
  intros Hix Hlim Hok Hp Hcall Hd Hn Ha st'. pose proof Hok as [H1 H2 H3 H4 H5 H6 H7 H8 H9 H10 H11 H13 H12].
  destruct (admit_grows _ _ _ Ha) as (Hg1 & Hhas & Hst1). destruct (callable_node_ok _ _ _ _ _ _ Hn Hd) as (Hk & Hm & Hs & Hdep & Hkey & Hsup).
  assert (path_to inp (cur + 1) t) as Hpt by (by econstructor).
  assert (f_visited st1 = f_visited st) as Hv1 by (by rewrite Hst1). assert (f_queue st1 = f_queue st) as Hq1 by (by rewrite Hst1).
  subst st'. unfold enqueue. rewrite Hv1. destruct (bset_contains (member, t) (f_visited st)) eqn:Hc.
  { apply bset_contains_spec in Hc. destruct (H10 _ Hc) as (t' & id & Ht & Hkey' & Hid). injection Ht as <-.
    rewrite (node_key_fun _ _ _ _ Hkey' Hkey) in Hid.
    assert (st1 = st) as ->.
    { rewrite Hst1, or_insert_present; [apply set_nodes_same|]. apply bmap_contains_spec, bmap_get_some_key. by destruct Hid as [v ?]; exists v. }
    split_and!; try done. }
  apply bset_contains_false in Hc. set (st' := set_queue _ _ _).
  assert (forall x, x ∈ f_visited st' <-> x = (member, t) \/ x ∈ f_visited st) as Hvis by (intros x; apply bset_insert_elem).
  assert ((member, t) ∈ U) as HU.
  { apply bmap_get_some_key. exists [d]. rewrite (ix_declarations _ Hix). apply group_some. by split. }
  assert (grows st st') as Hg.
  { destruct Hg1 as [G1 G2 G3 G4 _ _ _ _ G5]. split; try done; cbn [f_queue f_visited st' set_queue]; rewrite ?Hq1.
    - intros x Hx. apply Hvis. by right.
    - intros x Hx. apply elem_of_app. by left.
    - intros x [->|?]%Hvis; [right|by left]. rewrite fmap_app. apply elem_of_app. right. by apply list_elem_of_singleton.
    - rewrite length_app. assert (remaining U (bset_insert (member, t) (f_visited st)) < remaining U (f_visited st))%nat by (by apply (remaining_insert (fun _ => []))). cbn. lia. }
  split_and!; [|done|done|apply Hvis; by left]. subst st1.
  assert (forall id n, bmap_get id (f_nodes st') = Some n -> bmap_get id (f_nodes st) = Some n \/ (id = fn_node_id node /\ n = node)) as Hnodes.
  { intros id n Hid. apply or_insert_get in Hid. naive_solver. }
  split; try done.
  - by apply or_insert_wf.
  - by apply bset_insert_wf.
  - intros id n Hid. destruct (Hnodes id n Hid) as [?|[-> ->]]; [by apply H5|]. split_and!; [done|lia|]. unfold node_ok. rewrite Hk, Hs, Hdep. split_and!; try done. by exists d.
  - intros id e He. destruct (H6 id e He) as [? ?]. split; [done|]. eapply edge_ok_mono; [|apply Hg|done]. intros x. by apply grows_node.
  - by apply (boundaries_keep st).
  - intros x Hx. cbn [f_queue st' set_queue set_nodes] in Hx. apply elem_of_app in Hx as [Hx|Hx]; [|apply list_elem_of_singleton in Hx as ->].
    + destruct (H8 x Hx) as (t' & ? & ? & ? & ? & Hdp). exists t'. split_and!; try done; [by apply Hvis; right|naive_solver..|].
      intros Ht id n Hid Hcn Hsn. destruct (Hnodes id n Hid) as [?|[-> ->]]; [by eapply Hdp|]. exfalso. apply Hc. by rewrite <- Hs, Hsn.
    + exists t. split_and!; try done; [apply Hvis; by left|cbn; lia..|]. intros Ht id n Hid Hcn Hsn. cbn.
      destruct (Hnodes id n Hid) as [Ho|[-> ->]]; [|done]. exfalso. apply Hc. rewrite <- Hsn. by eapply H11.
  - cbn [f_queue st' set_queue set_nodes]. apply StronglySorted_app. split_and!; [done|repeat constructor|].
    intros x y Hx Hy. apply list_elem_of_singleton in Hy as ->. destruct (H8 x Hx) as (? & _ & _ & _ & ? & _). cbn. lia.
  - intros x [->|Hx]%Hvis; [exists t, (fn_node_id node); split_and!; try done; by apply or_insert_has|].
    destruct (H10 x Hx) as (t' & id & ? & ? & ?). exists t', id. split_and!; try done. by eapply grows_node.
  - intros Ht id n Hid Hcn. destruct (Hnodes id n Hid) as [?|[-> ->]]; apply Hvis; [right; by eapply H11|left]. by rewrite Hs.
  - intros id n Hid Hbn. destruct (Hnodes id n Hid) as [?|[-> ->]]; [by eapply H13|congruence].
  - destruct H12 as (? & ? & ?). split_and!; try done. apply or_insert_bound; [done|]. unfold admit_node in Ha. by destruct (negb _ && _).
Qed.

Lemma set_edges_ok cur st id e : flow_ok cur st -> edge_ok inp (has_node st) (has_boundary st) e -> fe_edge_id e = id ->
  vlen (f_edges st) < max_edges budgets ->
  let st' := set_edges st (or_insert id e (f_edges st)) in flow_ok cur st' /\ grows st st' /\ has_edge st' id.
Proof.
  intros [H1 H2 H3 H4 H5 H6 H7 H8 H9 H10 H11 H13 H12] He Hid Hlt st'.
  assert (grows st st') as Hg.
  { apply grows_frame; try done; [|apply or_insert_grows]. intros i e' Hi. apply or_insert_get. by left. }
  split_and!; [|done|apply or_insert_has]. split; try done.
  - by apply or_insert_wf.
  - intros i e' Hi. apply or_insert_get in Hi as [Hi|(-> & -> & _)]; [by apply H6|done].
  - by apply (boundaries_keep st).
  - destruct H12 as (? & ? & ?). split_and!; try done. apply or_insert_bound; [done|]. apply andb_false_iff. right. by apply N.leb_gt.
Qed.

(** A boundary only concerns the boundaries. *)
Lemma note_frame st u code subject check st' : note inp st u code subject check = Ok st' ->
  exists b o, st' = set_boundaries st b o /\ forall st2, f_boundaries st2 = f_boundaries st -> f_obligations st2 = f_obligations st ->
    note inp st2 u code subject check = Ok (set_boundaries st2 b o).
Proof.
  unfold note, add_boundary. intros H. ok_inv H. eexists _, _. split; [done|]. intros st2 -> ->. cbn [result_bind]. by rewrite Hif.
Qed.

Lemma edge_order_frame s st u row st' r : edge_order inp member s st u row = Ok (st', r) ->
  exists b o, st' = set_boundaries st b o /\ forall st2, f_boundaries st2 = f_boundaries st -> f_obligations st2 = f_obligations st ->
    edge_order inp member s st2 u row = Ok (set_boundaries st2 b o, r).
Proof.
  assert (forall r', Ok (st, r') = Ok (E := ClewError) (st', r) -> exists b o, st' = set_boundaries st b o /\ forall st2,
    f_boundaries st2 = f_boundaries st -> f_obligations st2 = f_obligations st -> Ok (st2, r') = Ok (E := ClewError) (set_boundaries st2 b o, r)) as Hsame.
  { intros r' [= <- <-]. exists (f_boundaries st), (f_obligations st). split; [by destruct st|]. intros st2 <- <-. by destruct st2. }
  unfold edge_order. destruct (in_cfg inp) as [catalog|]; [|apply Hsame].
  destruct (LocalCfg.catalog_get catalog member s) as [graph|]; [|apply Hsame].
  destruct (relation_cfg_nodes row _) as [ids|]; [apply Hsame|]. intros H. ok_inv H. injection H as <- <-.
  destruct (note_frame _ _ _ _ _ _ Hok) as (b & o & -> & Hb). exists b, o. split; [done|]. intros st2 H1 H2. by rewrite (Hb st2 H1 H2).
Qed.

Lemma enqueue_boundaries st t k b o : set_boundaries (enqueue st member t k) b o = enqueue (set_boundaries st b o) member t k.
Proof. unfold enqueue. cbn. by destruct (bset_contains _ _). Qed.
Lemma enqueue_edges st t k e : set_edges (enqueue st member t k) e = enqueue (set_edges st e) member t k.
Proof. unfold enqueue. cbn. by destruct (bset_contains _ _). Qed.
Lemma enqueue_frame st t k : f_boundaries (enqueue st member t k) = f_boundaries st /\ f_obligations (enqueue st member t k) = f_obligations st /\
  f_edges (enqueue st member t k) = f_edges st.
Proof. unfold enqueue. by destruct (bset_contains _ _). Qed.

Lemma edge_order_ok cur s st u t row st' r : flow_ok cur st -> reached st s -> call inp s u t -> ix_fact u = Use row ->
  edge_order inp member s st u row = Ok (st', r) -> flow_ok cur st' /\ grows st st' /\
  forall e, (fe_cfg_graph_id e, fe_cfg_node_ids e, fe_order_authority e) = r -> order_ok inp (has_boundary st') s u row e.
Proof.
  intros Hok Hr Hcall Hrow. unfold edge_order, order_ok. destruct (in_cfg inp) as [catalog|] eqn:Hcfg.
  2: { intros [= <- <-]. split_and!; [done..|]. by intros e [= -> -> ->]. }
  destruct (LocalCfg.catalog_get catalog member s) as [graph|] eqn:Hg.
  2: { intros [= <- <-]. split_and!; [done..|]. intros e [= -> -> ->]. split_and!; [done..|]. exists catalog. split; [done|by left]. }
  destruct (relation_cfg_nodes row _) as [ids|] eqn:Hids.
  { intros [= <- <-]. split_and!; [done..|]. intros e [= -> -> ->]. by exists catalog, graph. }
  intros H. ok_inv H. injection H as <- <-. assert (cause inp (view_of st) "VERIFY_CONTROL_FLOW_ORDER" s ["VERIFY_CONTROL_FLOW_ORDER"] [support u]) as Hc
    by by eapply cause_order.
  destruct (note_ok _ _ _ _ _ _ _ Hok Hc Hok0) as (? & ? & ?). split_and!; [done..|]. intros e [= -> -> ->].
  split_and!; [done..|]. exists catalog. split; [done|by right].
Qed.

Lemma settled_grows a b s u : grows a b -> settled inp (view_of a) (reached a) s u -> settled inp (view_of b) (reached b) s u.
Proof. intros Hg. apply settled_mono; [by apply grows_view|]. intros x. apply (g_visited _ _ Hg). Qed.

Section OneUse.
Context (cur : N) (s sid callable_id : string) (u : IndexedFact) (row : UseFact).
Hypothesis Hix : indexed inp.
Hypothesis Hlim : cur + 1 <= max_depth budgets.
Hypothesis Hpath : path_to inp cur s.
Hypothesis Hcaller : caller inp s callable_id.
Hypothesis Huse : u ∈ uses_of inp callable_id.
Hypothesis Hrow : ix_fact u = Use row.
Hypothesis Hkey : node_key inp s sid.
Notation done_with st st' := (flow_ok cur st' /\ grows st st' /\ settled inp (view_of st') (reached st') s u).

Lemma note_settles st code subject check st' : flow_ok cur st -> reached st s -> unfollowed inp (view_of st) s row code subject check ->
  note inp st u code subject check = Ok st' -> done_with st st'.
Proof.
  intros Hok Hr Hun H. destruct (note_ok _ _ _ _ _ _ _ Hok ltac:(by eapply cause_use) H) as (? & Hg & ?). split_and!; [done..|].
  eapply settled_boundary; [done| |done]. by eapply unfollowed_mono; [apply grows_view|].
Qed.
Lemma truncated_settles st code subject check st' : flow_ok cur st -> reached st s ->
  unfollowed inp (view_of (set_truncated st)) s row code subject check ->
  note inp (set_truncated st) u code subject check = Ok st' -> done_with st st'.
Proof.
  intros Hok Hr Hun H. destruct (set_truncated_ok _ _ Hok) as [Hok' Hg]. destruct (note_settles _ _ _ _ _ Hok' Hr Hun H) as (? & ? & ?).
  split_and!; [done| |done]. by transitivity (set_truncated st).
Qed.
Lemma admit_none st node : admit_node inp st node = None -> max_nodes budgets <= vlen (f_nodes st).
Proof. unfold admit_node. destruct (negb _ && _) eqn:E; [|done]. intros _. apply andb_true_iff in E as [_ ?]. by apply N.leb_le. Qed.

Lemma unpaired_spec : negb (bool_decide (pb_relationship_authority (in_pair inp) = DeclaredTopology)) || negb (vlen (declared_pairs inp member) =? 1)
    || negb (match declared_pairs inp member with first :: _ => str_eqb (pb_pair_id first) (pb_pair_id (in_pair inp)) | [] => false end) = false <-> paired inp.
Proof.
  unfold paired. rewrite !orb_false_iff, !negb_false_iff, bool_decide_eq_true. destruct (declared_pairs inp member) as [|x [|y l]].
  - split; [by intros (_ & ?)|]. by intros (_ & b & ? & _).
  - split; [intros ((? & _) & ?%str_eqb_eq); split; [done|by exists x]|]. intros (? & b & [= <-] & ?). split_and!; [done|done|by apply str_eqb_eq].
  - split; [intros ((_ & Hl) & _); apply N.eqb_eq in Hl; unfold vlen in Hl; cbn in Hl; lia|]. by intros (_ & b & ? & _).
Qed.

Lemma handoff_node_ok provider k n : path_to inp k s -> hands_over inp row provider ->
  declared_handoff_node provider (uf_target_callable_id row) (k + 1) = Ok n ->
  node_ok inp n /\ fn_depth n = k + 1 /\ fn_node_kind n = NBoundary /\ handoff_key row provider (fn_node_id n).
Proof.
  intros Hp Hh H. unfold declared_handoff_node in H. ok_inv H. cbn. split_and!; try done. unfold node_ok. cbn.
  by exists s, k, callable_id, u, row, provider.
Qed.

(** Boundaries do not interfere with the admission of a node, so the one that explains
    a hand-off node may as well come first. *)
Lemma admit_handoff st st1 node code subject check st2 : flow_ok cur st -> node_ok inp node ->
  fn_depth node <= N.min (cur + 1) (max_depth budgets) -> fn_node_kind node = NBoundary ->
  cause inp (view_of st) code subject [check] [support u] -> admit_node inp st node = Some st1 -> note inp st1 u code subject check = Ok st2 ->
  flow_ok cur st2 /\ grows st st2 /\ has_node st2 (fn_node_id node) /\ noted inp (has_boundary st2) code subject [support u].
Proof.
  intros Hok Hn Hd Hk Hc Ha H. destruct (note_frame _ _ _ _ _ _ H) as (b & o & -> & Hb).
  destruct (admit_grows _ _ _ Ha) as (_ & _ & Hst1). specialize (Hb st ltac:(by rewrite Hst1) ltac:(by rewrite Hst1)).
  destruct (note_ok _ _ _ _ _ _ _ Hok Hc Hb) as (Hok2 & Hg2 & Hnoted). pose proof (admit_boundaries _ _ _ b o Ha) as Ha'.
  destruct (admit_grows _ _ _ Ha') as (Hg3 & Hn3 & _). split_and!; [|by etransitivity|done|by eapply noted_mono; [apply Hg3|]].
  eapply (admit_ok _ _ _ _ Hok2); [done|done|by right| |done]. intros _. destruct Hnoted as (i & _ & ?). by exists i.
Qed.

Lemma hand_off_ok st st' : crosses inp row -> uf_relationship_authority row = DeclaredTopology -> flow_ok cur st -> reached st s ->
  has_node st sid -> hand_off inp member s sid cur st u row = Ok st' -> done_with st st'.
Proof.
  intros Hcr Hauth Hok Hr Hsid H. unfold hand_off in H. destruct (_ || _) eqn:Hpair in H.
  { eapply note_settles; [done|done| |done]. apply use_unpaired; [done|done|]. intros Hp%unpaired_spec. congruence. }
  apply unpaired_spec in Hpair. destruct (str_neqb _ _) eqn:Hdir in H.
  { eapply note_settles; [done|done| |done]. apply use_reversed; [done..|]. intros Heq. rewrite <- Heq, str_neqb_refl in Hdir. done. }
  apply str_neqb_false in Hdir. ok_step H. apply ok_or_some in Hok0. do 2 ok_step H.
  assert (hands_over inp row a) as Hh by by split_and!. destruct (handoff_node_ok _ _ _ Hpath Hh Hok2) as (Hno & Hde & Hki & Hhk).
  assert (aims inp row (uf_target_callable_id row)) as Haims by (right; split; [done|by exists a]).
  destruct (admit_node inp st _) as [st1|] eqn:Ha.
  2: { eapply truncated_settles; [done|done| |done]. eapply use_node_budget; [done|done|exact (admit_none _ _ Ha)]. }
  assert (f_edges st1 = f_edges st) as Hed by (by destruct (admit_grows _ _ _ Ha) as (_ & _ & ->)).
  destruct (_ <=? _) eqn:Hlt in H.
  { apply N.leb_le in Hlt. rewrite Hed in Hlt. destruct (set_truncated_ok _ _ Hok) as [Hokt Hgt].
    assert (unfollowed inp (view_of (set_truncated st)) s row "FLOW_EDGE_BUDGET_TRUNCATED" s "SELECT_NARROWER_ROOT") as Hun by by eapply use_edge_budget.
    destruct (admit_handoff _ _ _ _ _ _ _ Hokt Hno ltac:(lia) Hki ltac:(by eapply cause_use) (admit_truncated _ _ _ Ha) H) as (? & Hg2 & _ & ?).
    split_and!; [done|by transitivity (set_truncated st)|]. eapply settled_boundary; [done| |done]. by eapply unfollowed_mono; [apply grows_view|]. }
  apply N.leb_gt in Hlt. ok_step H. destruct (note_frame _ _ _ _ _ _ H) as (b & o & -> & Hb).
  specialize (Hb st1 eq_refl eq_refl).
  destruct (admit_handoff _ _ _ _ _ _ _ Hok Hno ltac:(lia) Hki ltac:(by eapply cause_handoff) Ha Hb) as (Hok4 & Hg4 & Hn4 & Hnoted).
  match goal with |- flow_ok _ (set_boundaries (set_edges _ (or_insert ?id ?e _)) _ _) /\ _ =>
    destruct (set_edges_ok cur _ id e Hok4) as (Hok5 & Hg5 & He5); [|done|done|] end.
  - exists s, cur, u, row, callable_id. cbn. split_and!; try done; [by apply (grows_node _ _ _ Hg4)|]. right. by exists a.
  - split_and!; [done|by transitivity (set_boundaries st1 b o)|]. eapply settled_handoff; [done|done| |by eapply noted_mono; [apply Hg5|]].
    eexists _, _, _. split_and!; done.
Qed.

Lemma follow_ok st st' : flow_ok cur st -> reached st s -> has_node st sid -> inside inp row ->
  follow inp member s sid cur st u row = Ok st' -> done_with st st'.
Proof.
  intros Hok Hr Hsid Hsame H. unfold follow in H. destruct (exact_target row) as [t|] eqn:Ht.
  2: { eapply note_settles; [done|done| |done]. by apply use_unresolved. }
  rewrite (ix_declarations _ Hix), group_get in H. fold (declared inp t) in H. destruct (declared inp t) as [|d [|d' ds]] eqn:Hd.
  { eapply note_settles; [done|done| |done]. by apply use_undeclared. }
  2: { eapply note_settles; [done|done| |done]. apply use_overloaded; [done..|]. rewrite Hd. cbn. lia. }
  ok_step H. assert (call inp s u t) as Hcall. { split_and!; [by exists callable_id|by exists row|by exists d]. }
  assert (aims inp row t) as Haims by (left; split_and!; [done|done|by exists d]).
  destruct (callable_node_ok _ _ _ _ _ _ Hok0 Hd) as (Hkd & Hm & Hs & Hdep & Htkey & Hsup).
  destruct (admit_node inp st _) as [st1|] eqn:Ha.
  2: { eapply truncated_settles; [done|done| |done]. eapply use_node_budget; [done|done|exact (admit_none _ _ Ha)]. }
  destruct (_ <=? _) eqn:Hlt in H.
  { apply N.leb_le in Hlt. destruct (set_truncated_ok _ _ Hok) as [Hokt Hgt].
    destruct (admit_grows _ _ _ (admit_truncated _ _ _ Ha)) as (Hg1 & _ & _).
    assert (flow_ok cur (set_truncated st1)) as Hok1.
    { eapply (admit_ok _ _ _ _ Hokt); [| |by left|rewrite Hkd; discriminate|exact (admit_truncated _ _ _ Ha)]; [|rewrite Hdep; lia].
      unfold node_ok. rewrite Hkd, Hs, Hdep. split_and!; [done|done|by econstructor|by exists d]. }
    destruct (note_settles _ _ _ _ _ Hok1 (g_visited _ _ Hg1 _ Hr) ltac:(by eapply use_edge_budget) H) as (? & ? & ?).
    split_and!; [done| |done]. transitivity (set_truncated st); [done|]. by transitivity (set_truncated st1). }
  apply N.leb_gt in Hlt. destruct (admit_enqueue_ok _ _ _ _ _ _ _ _ Hix Hlim Hok Hpath Hcall Hd Hok0 Ha) as (Hok1 & Hg1 & Hn1 & Hr1).
  do 2 ok_step H. destruct a1 as [st2 [[g ids] order]]. ok_step H. apply Ok_inj in H. subst st'. destruct (edge_order_frame _ _ _ _ _ _ Hok3) as (b & o & -> & Hb).
  destruct (enqueue_frame st1 t (cur + 1)) as (Hf1 & Hf2 & Hf3). specialize (Hb _ Hf1 Hf2).
  destruct (edge_order_ok _ _ _ _ _ _ _ _ Hok1 (g_visited _ _ Hg1 _ Hr) Hcall Hrow Hb) as (Hok2' & Hg2 & Hord). rewrite <- enqueue_edges, <- enqueue_boundaries.
  replace (f_edges (set_boundaries st1 b o)) with (f_edges (set_boundaries (enqueue st1 member t (cur + 1)) b o)) by done.
  match goal with |- flow_ok _ (set_edges ?st (or_insert ?id ?e _)) /\ _ => destruct (set_edges_ok cur st id e Hok2') as (Hok3' & Hg3 & He); [|done|by cbn; rewrite Hf3|] end.
  - exists s, cur, u, row, callable_id. cbn. split_and!; try done; [by apply (grows_node _ _ _ Hg2), (grows_node _ _ _ Hg1)|].
    left. exists t. split_and!; [done|done|]. by apply Hord.
  - split_and!; [done|by etransitivity; [|etransitivity]|]. eapply settled_call; [done| |].
    + eexists row, sid, _, _. split_and!; try done.
    + apply (g_visited _ _ Hg3), (g_visited _ _ Hg2). done.
Qed.

Lemma outside_spec : (match target_member inp row with Some m => negb (bset_contains m (in_selected inp)) | None => false end) = true <-> outside inp row.
Proof.
  unfold outside. destruct (target_member inp row) as [m|]; [|split; [done|by intros (m & ? & _)]].
  rewrite negb_true_iff, bset_contains_false. split; [by exists m|]. by intros (m' & [= <-] & ?).
Qed.

Lemma visit_use_ok st st' : flow_ok cur st -> reached st s -> has_node st sid -> visit_use inp member s sid cur st u = Ok st' -> done_with st st'.
Proof.
  intros Hok Hr Hsid H. unfold visit_use in H. rewrite Hrow in H.
  destruct (same_member inp member row) eqn:Hsame; cbn [negb andb] in H; [by apply follow_ok|].
  assert (~ inside inp row) as Hnot by (unfold inside; congruence).
  match type of H with (if ?b then _ else _) = _ => destruct b eqn:Hout end.
  { eapply note_settles; [done|done| |done]. apply use_outside; [done|]. by apply outside_spec. }
  assert (crosses inp row) as Hcr. { split; [done|]. intros Ho%outside_spec. congruence. }
  case_bool_decide; [eapply note_settles; [done|done| |done]; by apply use_dependency|].
  case_bool_decide; [by apply hand_off_ok|]. eapply note_settles; [done|done| |done]. by apply use_unbound.
Qed.
End OneUse.

Lemma uses_of_use c u : u ∈ uses_of inp c -> exists row, ix_fact u = Use row.
Proof.
  intros Hin. apply elem_of_entries, list_elem_of_omap in Hin as (x & _ & Hx). unfold use_entry in Hx.
  destruct (ix_fact x) as [|row|] eqn:Hf; [done| |done]. injection Hx as _ _ ->. by exists row.
Qed.

Lemma outgoing_elem c u : indexed inp -> u ∈ outgoing_uses inp member c <-> u ∈ uses_of inp c.
Proof.
  intros Hix. unfold outgoing_uses. rewrite (ix_uses _ Hix), group_default. unfold uses_of.
  split; intros H; (eapply elem_of_Permutation_proper; [|exact H]); [symmetry|]; apply sort_by_perm.
Qed.

Lemma visit_uses_ok cur s sid c us : indexed inp -> path_to inp cur s -> caller inp s c -> node_key inp s sid ->
  forall st st', (forall u, u ∈ us -> u ∈ uses_of inp c /\ cur + 1 <= max_depth budgets) -> flow_ok cur st -> reached st s -> has_node st sid ->
  try_fold (visit_use inp member s sid cur) st us = Ok st' ->
  flow_ok cur st' /\ grows st st' /\ forall u, u ∈ us -> settled inp (view_of st') (reached st') s u.
Proof.
  intros Hix Hp Hc Hk. induction us as [|u us IH]; intros st st' Hus Hok Hr Hsid H.
  - injection H as <-. split_and!; [done|done|set_solver].
  - cbn [try_fold] in H. ok_step H.
    destruct (Hus u ltac:(by left)) as [Hu Hlim]. destruct (uses_of_use _ _ Hu) as [row Hrow].
    destruct (visit_use_ok cur s sid c u row Hix Hlim Hp Hc Hu Hrow Hk _ _ Hok Hr Hsid Hok0) as (H1 & Hg1 & Hs1).
    destruct (IH a st') as (H2 & Hg2 & Hs2); [intros; apply Hus; by right|done|by apply (g_visited _ _ Hg1)|by eapply grows_node|done|].
    split_and!; [done|by transitivity a|]. intros v [->|?]%elem_of_cons; [by eapply settled_grows|by apply Hs2].
Qed.

(** A visited target whose node is at most one step further. *)
Definition near (st : Flow) (k : N) (t : string) : Prop :=
  reached st t /\ exists id n, node_key inp t id /\ bmap_get id (f_nodes st) = Some n /\ fn_depth n <= k + 1.

(** A symbol whose uses were looked at when the traversal was at depth [k]. *)
Record done_ok (st : Flow) (x : string * N) : Prop := mkDoneOk {
  do_reached : reached st x.1;
  do_path : path_to inp x.2 x.1;
  do_node : exists id n, node_key inp x.1 id /\ bmap_get id (f_nodes st) = Some n /\ fn_node_kind n = NCallable /\
    fn_symbol_identity n = x.1 /\ (f_truncated st = false -> fn_depth n = x.2);
  do_accounted : accounted inp (view_of st) (near st x.2) x.1
}.

Lemma near_grows a b k t : grows a b -> near a k t -> near b k t.
Proof. intros Hg [Hr (id & n & ? & ? & ?)]. split; [by apply (g_visited _ _ Hg)|]. exists id, n. split_and!; [done|by apply (g_nodes _ _ Hg)|done]. Qed.

Lemma done_grows a b x : grows a b -> done_ok a x -> done_ok b x.
Proof.
  intros Hg [Hr Hp (id & n & ? & ? & ? & ? & ?) Ha]. split; [by apply (g_visited _ _ Hg)|done| |].
  - exists id, n. split_and!; try done; [by apply (g_nodes _ _ Hg)|]. intros Ht. by apply (g_truncated _ _ Hg) in Ht; auto.
  - eapply accounted_mono; [by apply grows_view| |done]. intros t. by apply near_grows.
Qed.

Lemma flow_ok_near cur st t : flow_ok cur st -> reached st t -> near st cur t.
Proof.
  intros Hok Hr. split; [done|]. destruct (fo_visited _ _ Hok _ Hr) as (t' & id & [= <-] & ? & n & Hn). exists id, n.
  split_and!; [done|done|]. destruct (fo_node _ _ Hok _ _ Hn) as (_ & ? & _). lia.
Qed.

Lemma settled_accounted cur st s c : flow_ok cur st -> caller inp s c -> (forall u, u ∈ uses_of inp c -> settled inp (view_of st) (reached st) s u) ->
  accounted inp (view_of st) (near st cur) s.
Proof.
  intros Hok Hc Hs. eapply accounted_uses; [done|]. intros u Hu. eapply settled_mono, Hs; [by apply grows_view|intros t; by apply flow_ok_near|done].
Qed.

Lemma node_for_symbol_ok st t id : bmap_wf (f_nodes st) -> node_for_symbol (f_nodes st) member t = Some id ->
  (forall i n, bmap_get i (f_nodes st) = Some n -> fn_node_id n = i) ->
  exists n, bmap_get id (f_nodes st) = Some n /\ fn_node_kind n = NCallable /\ fn_symbol_identity n = t.
Proof.
  intros Hwf H Hids. unfold node_for_symbol in H. apply fmap_Some in H as (n & Hf & ->). apply find_some in Hf as [Hin Hb].
  apply list_elem_of_In in Hin. apply andb_true_iff in Hb as [Hb Hk]. apply andb_true_iff in Hb as [_ Hs].
  apply bool_decide_eq_true_1 in Hk. apply str_eqb_eq in Hs.
  unfold bmap_values in Hin. apply list_elem_of_fmap in Hin as ([i n'] & -> & Hin). apply bmap_get_elem in Hin; [|done].
  exists n'. cbn. by rewrite (Hids _ _ Hin).
Qed.

Lemma visit_ok cur st s st' : indexed inp -> flow_ok cur st -> reached st s -> path_to inp cur s ->
  (f_truncated st = false -> forall id n, bmap_get id (f_nodes st) = Some n -> fn_node_kind n = NCallable -> fn_symbol_identity n = s -> fn_depth n = cur) ->
  visit inp st member s cur = Ok st' -> flow_ok cur st' /\ grows st st' /\ done_ok st' (s, cur).
Proof.
  intros Hix Hok Hr Hp Hdepth H. unfold visit in H. ok_step H. apply ok_or_some in Hok0.
  apply node_for_symbol_ok in Hok0 as (n & Hn & Hkind & Hsym); [|apply Hok|intros; by eapply (fo_node _ _ Hok)].
  destruct (fo_node _ _ Hok _ _ Hn) as (Hid & _ & Hnode). destruct (node_ok_callable _ _ Hnode Hkind) as (_ & Hkey & _ & d & Hd & _). rewrite Hsym in *. rewrite Hid in Hkey.
  ok_step H. apply ok_or_some in Hok0. rewrite (ix_declarations _ Hix) in Hok0. apply group_some in Hok0 as [Hds _].
  fold (declared inp s) in Hds. rewrite Hd in Hds. subst a0. destruct (ix_fact d) as [row| |] eqn:Hf; [|done..].
  assert (forall st1, flow_ok cur st1 -> grows st st1 -> accounted inp (view_of st1) (near st1 cur) s ->
    flow_ok cur st1 /\ grows st st1 /\ done_ok st1 (s, cur)) as Hdone.
  { intros st1 Hok1 Hg Ha. split_and!; [done..|]. split; [by apply (g_visited _ _ Hg)|done| |done]. exists a, n. split_and!; try done; [by apply (g_nodes _ _ Hg)|].
    intros Ht. by eapply Hdepth; [apply (g_truncated _ _ Hg)|..]. }
  assert (forall st0 st1 code subject checks supports, flow_ok cur st0 -> grows st st0 -> stops inp (view_of st0) s code subject (dedup (sort checks)) supports ->
    sort_by (cmp_on su_fact_id) supports = supports -> add_boundary (in_request inp) st0 code subject checks supports = Ok st1 ->
    flow_ok cur st1 /\ grows st st1 /\ done_ok st1 (s, cur)) as Hstop.
  { intros st0 st1 code subject checks supports Hok0 Hg0 Hs0 Hsup H0.
    destruct (add_boundary_ok cur st0 code subject checks supports st1 Hok0) as (? & Hg1 & Hno); [|done|].
    { rewrite Hsup. eapply cause_stop; [by apply (g_visited _ _ Hg0)|done]. }
    apply Hdone; [done|by etransitivity|]. rewrite Hsup in Hno. eapply accounted_stop; [|done]. by eapply stops_mono; [apply grows_view|]. }
  destruct (df_compiler_callable_id row) as [c|] eqn:Hcid.
  2: { refine (Hstop st st' _ _ _ _ Hok (reflexivity st) _ eq_refl H). by eapply stop_unidentified. }
  match type of H with (if negb ?b then _ else _) = _ => destruct b eqn:Hfam end; cbn [negb] in H.
  all: rewrite (ix_families _ Hix), group_get in Hfam; fold (family inp c) in Hfam.
  2: { refine (Hstop st st' _ _ _ _ Hok (reflexivity st) _ eq_refl H). eapply stop_overloaded; [done..|].
    intros Hl. destruct (family inp c) as [|x l]; [done|]. apply N.eqb_neq in Hfam. unfold vlen in Hfam. lia. }
  assert (caller inp s c) as Hc.
  { exists d, row. split_and!; try done. destruct (family inp c) as [|x l]; [done|]. apply N.eqb_eq in Hfam. unfold vlen in Hfam. lia. }
  match type of H with (if ?b then _ else _) = _ => destruct b eqn:Hb end.
  { destruct (set_truncated_ok _ _ Hok) as [Hok' Hg']. refine (Hstop (set_truncated st) st' _ _ _ _ Hok' Hg' _ eq_refl H).
    apply andb_true_iff in Hb as [Hb1 Hb2]. apply N.leb_le in Hb1. destruct (outgoing_uses inp member c) as [|u us] eqn:Hout; [done|].
    eapply stop_depth; [done| |done|done|done]. apply (outgoing_elem c u Hix). rewrite Hout. by left. }
  destruct (visit_uses_ok cur s a c (outgoing_uses inp member c) Hix Hp Hc Hkey st st') as (H1 & Hg & Hs); [|done|done|by exists n|done|].
  { intros u Hu. split; [by apply outgoing_elem|]. apply andb_false_iff in Hb as [Hb|Hb]; [apply N.leb_gt in Hb; lia|].
    destruct (outgoing_uses inp member c); [set_solver|done]. }
  apply Hdone; [done..|]. eapply settled_accounted; [done|done|]. intros u Hu. by apply Hs, outgoing_elem.
Qed.

Lemma pop_ok cur st s k rest : flow_ok cur st -> f_queue st = (member, s, k) :: rest ->
  let st' := set_queue st rest (f_visited st) in
  flow_ok k st' /\ reached st' s /\ path_to inp k s /\
  (f_truncated st' = false -> forall id n, bmap_get id (f_nodes st') = Some n -> fn_node_kind n = NCallable -> fn_symbol_identity n = s -> fn_depth n = k).
Proof.
  intros [H1 H2 H3 H4 H5 H6 H7 H8 H9 H10 H11 H13 H12] Hq st'. rewrite Hq in H8, H9. inversion_clear H9 as [|? ? Hs Hall].
  destruct (H8 (member, s, k)) as (t & [= <-] & Hr & Hp & Hk & Hdep); [by left|]. cbn [snd] in *.
  split_and!; try done. split; try done.
  - intros id n Hn. destruct (H5 id n Hn) as (? & ? & ?). split_and!; [done|lia|done].
  - intros x Hx. destruct (H8 x) as (t & ? & ? & ? & ? & ?); [by right|]. exists t. rewrite list.Forall_forall in Hall. specialize (Hall x Hx). cbn in Hall.
    split_and!; try done; lia.
Qed.

Lemma traverse_ok fuel : indexed inp -> forall cur st (finished : list (string * N)), flow_ok cur st ->
  (forall x, x ∈ f_visited st -> x ∈ (f_queue st).*1 \/ exists y, y ∈ finished /\ x = (member, y.1)) ->
  Forall (done_ok st) finished -> (length (f_queue st) + remaining U (f_visited st) <= fuel)%nat ->
  exists r, traverse fuel inp st = Some r /\ forall st', r = Ok st' ->
      exists cur' finished', flow_ok cur' st' /\ (forall x, x ∈ f_visited st -> x ∈ f_visited st') /\
      (forall id n, bmap_get id (f_nodes st) = Some n -> bmap_get id (f_nodes st') = Some n) /\
      (forall x, x ∈ f_visited st' -> exists y, y ∈ finished' /\ x = (member, y.1)) /\ Forall (done_ok st') finished'.
Proof.
  intros Hix. induction fuel as [|fuel IH]; intros cur st finished Hok Hcov Hdone Hfuel.
  - destruct (f_queue st) as [|x q] eqn:Hq; [|cbn in Hfuel; lia]. cbn [traverse]. rewrite Hq. eexists. split; [done|]. intros st' [= <-].
    exists cur, finished. split_and!; try done. intros x Hx. destruct (Hcov x Hx) as [?|?]; [set_solver|done].
  - destruct (f_queue st) as [|[[m s] k] q] eqn:Hq; cbn [traverse]; rewrite Hq.
    { eexists. split; [done|]. intros st' [= <-]. exists cur, finished. split_and!; try done. intros x Hx. destruct (Hcov x Hx) as [?|?]; [set_solver|done]. }
    assert (m = member) as ->.
    { destruct (fo_queue _ _ Hok (m, s, k)) as (t & [= -> _] & _); [rewrite Hq; by left|done]. }
    destruct (pop_ok _ _ _ _ _ Hok Hq) as (Hok1 & Hr1 & Hp1 & Hd1).
    destruct (visit inp _ member s k) as [st1|e] eqn:Hv; [|eexists; split; [done|]; by intros].
    destruct (visit_ok _ _ _ _ Hix Hok1 Hr1 Hp1 Hd1 Hv) as (Hok2 & Hg & Hdone2).
    destruct (IH k st1 ((s, k) :: finished)) as (r & Hr & Hres); [done| | | |].
    + intros x Hx. destruct (g_new _ _ Hg x Hx) as [Hx'|?]; [|by left]. destruct (Hcov x Hx') as [Hin|(y & Hy & ->)].
      * cbn in Hin. apply elem_of_cons in Hin as [->|Hin]; [right; exists (s, k); split; [by left|done]|left].
        apply list_elem_of_fmap in Hin as (y & -> & Hy). apply list_elem_of_fmap_2. by apply (g_queue _ _ Hg).
      * right. exists y. split; [by right|done].
    + constructor; [done|]. eapply list.Forall_impl; [exact Hdone|]. intros y Hy. eapply done_grows; [exact Hg|]. destruct Hy as [? ? ? ?]. by split.
    + pose proof (g_measure _ _ Hg) as Hm. cbn in Hm, Hfuel |- *. lia.
    + exists r. split; [done|]. intros st' Hst'. destruct (Hres st' Hst') as (cur' & f' & ? & Hvis & Hnodes & ? & ?). exists cur', f'.
      split_and!; try done; [intros x Hx; apply Hvis; by apply (g_visited _ _ Hg)|]. intros id n Hn. by apply Hnodes, (g_nodes _ _ Hg).
Qed.
End Traversal.
