(* ===== verification/FlowResults.v ===== *)
(** * Theorems on flow slices

    From the traversal of FlowSpec to the document: what a slice holds, that it
    accounts for everything that leaves it, what a verified slice is, and that the
    result depends on the facts alone. *)

From S2P Require Import Prelude Order Collections Text Worklist Json Canonical Instances JsonFormat JsonRead Errors CasObject CatalogCodec ThreadCallables FlowSlice FlowSpec.
From S2P Require LocalCfg JvmIdentity.

(** The identities in a slice. *)
Definition slice_node (slice : FlowSlice) (id : string) : Prop := id ∈ fn_node_id <$> sl_nodes slice.
Definition slice_edge (slice : FlowSlice) (id : string) : Prop := id ∈ fe_edge_id <$> sl_edges slice.
Definition slice_boundary (slice : FlowSlice) (id : string) : Prop := id ∈ bd_boundary_id <$> sl_boundaries slice.

Section Finish.
Context {P : Primitives}.
Context (inp : FlowInput).
Notation member := (fr_member_alias (in_request inp)).
Notation budgets := (fr_budgets (in_request inp)).

(** A phase that only adds boundaries. *)
Record phase (st st' : Flow) : Prop := mkPhase {
  ph_core : exists b o, st' = set_boundaries st b o;
  ph_boundaries : forall id, has_boundary st id -> has_boundary st' id;
  ph_ok : forall cur, flow_ok inp cur st -> flow_ok inp cur st'
}.

#[local] Instance phase_preorder : PreOrder phase.
Proof.
  split.
  - intros st. split; auto. exists (f_boundaries st), (f_obligations st). by destruct st.
  - intros a b c [(b1 & o1 & ->) H2 H3] [(b2 & o2 & ->) K2 K3]. split; auto. by exists b2, o2.
Qed.

Lemma phase_fields st st' : phase st st' ->
  f_nodes st' = f_nodes st /\ f_edges st' = f_edges st /\ f_truncated st' = f_truncated st /\ f_visited st' = f_visited st.
Proof. by intros [(b & o & ->) _ _]. Qed.

Lemma phase_grows st st' : phase st st' -> grows inp st st'.
Proof. intros [(b & o & ->) Hb _]. by apply grows_frame. Qed.

Lemma add_boundary_phase st code subject checks supports st' :
  cause inp (view_of inp st) code subject (dedup (sort checks)) (sort_by (cmp_on su_fact_id) supports) ->
  add_boundary (in_request inp) st code subject checks supports = Ok st' ->
  phase st st' /\ noted inp (has_boundary st') code subject (sort_by (cmp_on su_fact_id) supports).
Proof.
  intros Hc H. assert (exists b o, st' = set_boundaries st b o /\ (forall id, has_boundary st id -> has_boundary st' id) /\
    noted inp (has_boundary st') code subject (sort_by (cmp_on su_fact_id) supports)) as (b & o & -> & Hb & Hn).
  { unfold add_boundary in H. ok_inv H. eexists _, _. split_and!; [done| |].
    - intros id [v Hv]. exists v. apply or_insert_get. by left.
    - eexists. split; [done|]. apply or_insert_has. }
  split; [|done]. split; [by exists b, o|done|]. intros cur Hok. by destruct (add_boundary_ok _ _ _ _ _ _ _ _ Hok Hc H) as (? & _).
Qed.

(** A loop of phases: what one iteration establishes still holds at the end. *)
Lemma phases {A} (f : Flow -> A -> Res Flow) (Q : A -> Flow -> Prop) (start : Flow) :
  (forall a st st', phase st st' -> Q a st -> Q a st') ->
  forall l, (forall a st st', a ∈ l -> phase start st -> f st a = Ok st' -> phase st st' /\ Q a st') ->
  forall st st', phase start st -> try_fold f st l = Ok st' -> phase st st' /\ forall a, a ∈ l -> Q a st'.
Proof.
  intros Hmono. induction l as [|a l IH]; intros Hf st st' Hst H.
  - injection H as <-. split; [done|set_solver].
  - cbn [try_fold] in H. ok_step H. destruct (Hf a _ _ ltac:(by left) Hst Hok) as [Hp HQ].
    destruct (IH (fun x st st' Hx => Hf x st st' (list_elem_of_further _ _ _ Hx)) _ _ (transitivity Hst Hp) H) as [Hp' HQ'].
    split; [by etransitivity|]. intros x [->|?]%elem_of_cons; [by eapply Hmono|auto].
Qed.

Lemma noted_phase st st' code subject supports : phase st st' -> noted inp (has_boundary st) code subject supports ->
  noted inp (has_boundary st') code subject supports.
Proof. intros Hp. apply noted_mono, Hp. Qed.
Lemma cause_phase st st' code subject checks supports : phase st st' -> cause inp (view_of inp st) code subject checks supports ->
  cause inp (view_of inp st') code subject checks supports.
Proof. intros Hp. by apply cause_mono, grows_view, phase_grows. Qed.

Lemma missing_support cur st e : flow_ok inp cur st -> e ∈ missing_source_support st -> supported st e.1 e.2 /\ su_source e.2 = None.
Proof.
  intros Hok. assert (forall {A} (key : A -> string) (supports : A -> list FlowSupportRef) (m : BTreeMap string A), bmap_wf m ->
    e ∈ flat_map (fun a => pair (key a) <$> unanchored (supports a)) (bmap_values m) ->
    (exists id a, bmap_get id m = Some a /\ key a = e.1 /\ e.2 ∈ supports a) /\ su_source e.2 = None) as Hin.
  { intros A key supports m Hwf (a & Ha & He)%list_elem_of_In%in_flat_map. apply list_elem_of_In in Ha, He.
    unfold bmap_values in Ha. apply list_elem_of_fmap in Ha as ([id v] & -> & Ha). apply bmap_get_elem in Ha; [|done]. cbn in He.
    apply list_elem_of_fmap in He as (su & -> & Hsu). unfold unanchored in Hsu. apply list_elem_of_In, filter_In in Hsu as [Hsu Hn]. cbn.
    split; [exists id, v; split_and!; [done|done|by apply list_elem_of_In]|]. by destruct (su_source su). }
  unfold missing_source_support. intros [He|He]%elem_of_app; (apply Hin in He as [He Hs]; [|apply Hok]); (split; [|done]); [by left|by right].
Qed.

Lemma missing_anchors_phase cur st st' : flow_ok inp cur st -> add_missing_anchors inp st = Ok st' ->
  phase st st' /\ forall e, e ∈ missing_source_support st -> noted inp (has_boundary st') "MISSING_SOURCE_ANCHOR" e.1 [e.2].
Proof.
  unfold add_missing_anchors. intros Hok H. eapply (phases _ (fun e st => noted inp (has_boundary st) "MISSING_SOURCE_ANCHOR" e.1 [e.2]) st) in H; [done| | |done].
  - intros [subject s] a b. apply noted_phase.
  - intros [subject s] a b Hin Ha Hb. destruct (missing_support _ _ _ Hok Hin) as [Hs Hnone]. eapply (add_boundary_phase _ _ _ _ _ _ _ Hb).
    Unshelve. eapply cause_phase; [exact Ha|]. by apply cause_anchor.
Qed.

(** A retained boundary of a reached symbol. *)
Definition retained (st : Flow) (u : IndexedFact) (row : BoundaryFact) (subject : string) : Prop :=
  ix_fact u = Boundary row /\ bf_subject row = Some subject /\ pv_member_alias (bf_provenance row) ∈ in_selected inp /\
  (pv_member_alias (bf_provenance row), subject) ∈ f_visited st.

Lemma visited_member cur st m t : flow_ok inp cur st -> (m, t) ∈ f_visited st -> m = member /\ reached inp st t.
Proof. intros Hok Hin. destruct (fo_visited _ _ _ Hok _ Hin) as (t' & id & [= -> ->] & _). done. Qed.

Lemma retained_phase cur st st' : flow_ok inp cur st -> try_fold (add_retained inp) st (in_facts inp) = Ok st' ->
  phase st st' /\ forall u row subject, u ∈ in_facts inp -> retained st u row subject -> noted inp (has_boundary st') (bf_code row) subject [support u].
Proof.
  intros Hok H. eapply (phases _ (fun u st' => forall row subject, retained st u row subject -> noted inp (has_boundary st') (bf_code row) subject [support u]) st) in H; [|..|done].
  - destruct H as [Hp Hq]. split; [done|]. intros u row subject Hu. by apply Hq.
  - intros u a b Hp Hq row subject Hr. by eapply noted_phase, Hq.
  - intros u a b Hu Ha Hb. destruct (phase_fields _ _ Ha) as (_ & _ & _ & Hv). unfold add_retained in Hb.
    destruct (ix_fact u) as [| |row] eqn:Hrow; [injection Hb as <-; split; [done|]; intros ? ? (Hx & _); congruence..|].
    destruct (negb _) eqn:Hsel in Hb.
    { injection Hb as <-. split; [done|]. intros row' subject (Hu' & _ & Hin & _). rewrite Hrow in Hu'. injection Hu' as <-.
      apply bset_contains_spec in Hin. by rewrite Hin in Hsel. }
    destruct (bf_subject row) as [subject|] eqn:Hs.
    2: { injection Hb as <-. split; [done|]. intros row' subject (Hu' & Hs' & _). congruence. }
    destruct (bset_contains _ (f_visited a)) eqn:Hvis.
    + apply bset_contains_spec in Hvis. rewrite Hv in Hvis. destruct (visited_member _ _ _ _ Hok Hvis) as [Hm Hr].
      destruct (add_boundary_phase a _ _ (bf_required_checks row) [support u] _ (cause_phase _ _ _ _ _ _ Ha (cause_retained inp (view_of inp st) subject u row Hr Hu Hrow Hs Hm)) Hb) as [Hp Hn].
      split; [done|]. intros row' subject' (Hu' & Hs' & _).
      rewrite Hrow in Hu'. injection Hu' as <-. rewrite Hs in Hs'. by injection Hs' as <-.
    + injection Hb as <-. split; [done|]. intros row' subject' (Hu' & Hs' & _ & Hin).
      rewrite Hrow in Hu'. injection Hu' as <-. rewrite Hs in Hs'. injection Hs' as <-. rewrite <- Hv in Hin. apply bset_contains_spec in Hin. congruence.
Qed.

(** A control-flow region belongs to a reached symbol with a graph. *)
Definition region_of (catalog : LocalCfg.LocalCfgCatalog) (st : Flow) (key : string * string) (r : FlowControlRegion) : Prop :=
  node_for_symbol (f_nodes st) key.1 key.2 = Some (rg_owner_node_id r) /\
  exists graph, LocalCfg.catalog_get catalog key.1 key.2 = Some graph /\ rg_graph r = LocalCfg.payload graph /\ rg_support r = LocalCfg.support graph /\
    stable_id "flow-cfg-region" (region_identity (rg_owner_node_id r) graph) = Ok (rg_region_id r).
Definition region_accounted (catalog : LocalCfg.LocalCfgCatalog) (st : Flow) (regions : list FlowControlRegion) (key : string * string) : Prop :=
  is_Some (node_for_symbol (f_nodes st) key.1 key.2) ->
  (exists r, r ∈ regions /\ region_of catalog st key r) \/ noted inp (has_boundary st) "VERIFY_CONTROL_FLOW_ORDER" key.2 [].

Lemma add_region_fold catalog start cur keys : in_cfg inp = Some catalog -> flow_ok inp cur start -> (forall key, key ∈ keys -> key ∈ f_visited start) ->
  forall st regions st' regions', phase start st -> try_fold (add_region inp catalog) (st, regions) keys = Ok (st', regions') ->
  phase st st' /\ (forall r, r ∈ regions -> r ∈ regions') /\
  (forall r, r ∈ regions' -> r ∈ regions \/ exists key, key ∈ keys /\ region_of catalog st key r) /\
  (forall key, key ∈ keys -> region_accounted catalog st' regions' key).
Proof.
  intros Hcfg Hok0. induction keys as [|key keys IH]; intros Hkeys st regions st' regions' Hst H.
  { injection H as <- <-. split_and!; [done|done|by left|set_solver]. }
  cbn [try_fold] in H. ok_step H. destruct a as [st1 regions1].
  assert (phase st st1 /\ (forall r, r ∈ regions -> r ∈ regions1) /\ (forall r, r ∈ regions1 -> r ∈ regions \/ region_of catalog st key r) /\
    region_accounted catalog st1 regions1 key) as (Hp1 & Hsub1 & Hsound1 & Hacc1).
  { unfold add_region in Hok. destruct (node_for_symbol _ _ _) as [owner|] eqn:Hn.
    2: { injection Hok as <- <-. split_and!; [done|done|by left|]. intros [o Ho]. cbn in Ho. congruence. }
    destruct key as [m t]. destruct (visited_member _ _ _ _ Hok0 (Hkeys (m, t) ltac:(by left))) as [-> Hreach]. cbn [fst snd] in *.
    destruct (LocalCfg.catalog_get _ _ _) as [graph|] eqn:Hc; ok_inv Hok; injection Hok as <- <-.
    - split_and!; [done|set_solver| |].
      + intros r [?|Hr%list_elem_of_singleton]%elem_of_app; [by left|right]. subst r. split; [done|]. by exists graph.
      + intros _. left. eexists. split; [apply elem_of_app; right; by apply list_elem_of_singleton|]. split; [done|]. by exists graph.
    - destruct (add_boundary_phase st _ _ ["VERIFY_CONTROL_FLOW_ORDER"] [] _ (cause_phase _ _ _ _ _ _ Hst (cause_graph inp (view_of inp start) t catalog Hreach Hcfg Hc)) Hok1) as [Hp1 Hn1]. split_and!; [done|done|by left|]. intros _. by right. }
  destruct (IH (fun k Hk => Hkeys k (list_elem_of_further _ _ _ Hk)) _ _ _ _ (transitivity Hst Hp1) H) as (Hp & Hsub & Hsound & Hcomp).
  split_and!; [by etransitivity|auto| |].
  - intros r Hr. destruct (Hsound r Hr) as [Hr1|(k & Hk & Hr1)].
    + destruct (Hsound1 r Hr1) as [?|?]; [by left|right]. exists key. split; [by left|done].
    + right. exists k. split; [by right|]. destruct (phase_fields _ _ Hp1) as (Hf & _). unfold region_of in *. by rewrite <- Hf.
  - intros k [->|?]%elem_of_cons; [|by apply Hcomp]. destruct (phase_fields _ _ Hp) as (Hf & _). unfold region_accounted, region_of in *. rewrite Hf.
    intros Hs. destruct (Hacc1 Hs) as [(r & ? & ?)|?]; [left; exists r; auto|right; by eapply noted_phase].
Qed.

(** The three phases together. *)
Lemma finish_phases fact_set rid cur st p : flow_ok inp cur st -> finish_flow inp fact_set rid st = Ok p ->
  exists st' regions, phase st st' /\ prepare_slice inp (assemble inp fact_set rid st' regions) = Ok p /\
    (forall e, e ∈ missing_source_support st -> noted inp (has_boundary st') "MISSING_SOURCE_ANCHOR" e.1 [e.2]) /\
    (forall u row subject, u ∈ in_facts inp -> retained st u row subject -> noted inp (has_boundary st') (bf_code row) subject [support u]) /\
    match in_cfg inp with
    | None => regions = []
    | Some catalog => (forall r, r ∈ regions -> exists key, key ∈ f_visited st /\ region_of catalog st key r) /\
        forall key, key ∈ f_visited st -> region_accounted catalog st' regions key
    end.
Proof.
  unfold finish_flow. intros Hflow H. do 3 ok_step H. destruct a1 as [st' regions].
  destruct (missing_anchors_phase _ _ _ Hflow Hok) as [Hp1 Hm]. pose proof (ph_ok _ _ Hp1 _ Hflow) as Hflow1.
  destruct (retained_phase _ _ _ Hflow1 Hok0) as [Hp2 Hr]. pose proof (ph_ok _ _ Hp2 _ Hflow1) as Hflow2.
  destruct (phase_fields _ _ Hp1) as (Hn1 & _ & _ & Hv1). destruct (phase_fields _ _ Hp2) as (Hn2 & _ & _ & Hv2).
  assert (phase a0 st' /\ match in_cfg inp with None => regions = [] | Some catalog =>
    (forall r, r ∈ regions -> exists key, key ∈ f_visited st /\ region_of catalog st key r) /\
    forall key, key ∈ f_visited st -> region_accounted catalog st' regions key end) as [Hp3 Hreg].
  { unfold add_regions in Hok1. destruct (in_cfg inp) as [catalog|] eqn:Hcfg; [|by injection Hok1 as <- <-].
    destruct (add_region_fold catalog a0 cur (f_visited a0) Hcfg Hflow2 (fun _ Hk => Hk) _ _ _ _ (reflexivity a0) Hok1) as (Hp3 & _ & Hs & Hc). rewrite Hv2, Hv1 in Hs, Hc. unfold region_of in Hs. rewrite Hn2, Hn1 in Hs.
    split_and!; [done| |done]. intros r Hr'. destruct (Hs r Hr') as [?|?]; [set_solver|done]. }
  exists st', regions. split_and!; [by etransitivity; [|etransitivity]|done| | |done].
  - intros e He. by eapply noted_phase, Hm; [etransitivity|].
  - intros u row subject Hu Hret. eapply noted_phase, Hr; [done|done|]. unfold retained in *. by rewrite Hv1.
Qed.
End Finish.

(* --------------------------------------------------------------------- *)
(** ** The build *)

Lemma sorted_values_elem {A} (c : A -> A -> comparison) (m : BTreeMap string A) a : bmap_wf m ->
  a ∈ sort_by c (bmap_values m) <-> exists id, bmap_get id m = Some a.
Proof.
  intros Hwf. rewrite (elem_of_Permutation_proper a _ _ (sort_by_perm c _)). unfold bmap_values. rewrite list_elem_of_fmap. split.
  - intros ([id v] & -> & Hin). exists id. by apply bmap_get_elem.
  - intros [id Hid]. exists (id, a). split; [done|]. by apply bmap_get_elem.
Qed.
Lemma sorted_values_keys {A} (c : A -> A -> comparison) (key : A -> string) (m : BTreeMap string A) id : bmap_wf m ->
  (forall i a, bmap_get i m = Some a -> key a = i) -> id ∈ key <$> sort_by c (bmap_values m) <-> is_Some (bmap_get id m).
Proof.
  intros Hwf Hk. rewrite list_elem_of_fmap. split.
  - intros (a & -> & Ha). apply sorted_values_elem in Ha as [i Hi]; [|done]. exists a. by rewrite (Hk _ _ Hi).
  - intros [a Ha]. exists a. split; [by rewrite (Hk _ _ Ha)|]. apply sorted_values_elem; [done|]. by exists id.
Qed.
Lemma sorted_values_len {A} (c : A -> A -> comparison) (m : BTreeMap string A) : vlen (sort_by c (bmap_values m)) = vlen m.
Proof. unfold vlen, bmap_values. by rewrite (Permutation_length (sort_by_perm c _)), length_fmap. Qed.

Section Build.
Context {P : Primitives} {R : JsonReader}.
Implicit Types (request : FlowRequest) (fact_set : PreparedCallableFactSet) (cfg : option LocalCfg.LocalCfgCatalog).

Lemma validate_budgets_ok b : validate_budgets b = Ok tt ->
  0 < max_depth b <= MAX_FLOW_DEPTH /\ max_nodes b = MAX_FLOW_NODES /\ max_edges b = MAX_FLOW_EDGES /\ max_boundaries b = MAX_FLOW_BOUNDARIES /\
  max_slice_bytes b = MAX_FLOW_SLICE_BYTES.
Proof.
  unfold validate_budgets. intros H. ok_inv H. repeat apply orb_false_iff in Hif as [Hif ?]. bool_split.
  repeat match goal with H : (_ =? _) = _ |- _ => first [apply N.eqb_eq in H|apply N.eqb_neq in H] | H : (_ <? _) = false |- _ => apply N.ltb_ge in H end.
  split_and!; first [done|lia].
Qed.

Lemma flow_input_ok request fact_set cfg inp d : flow_input request fact_set cfg = Ok (inp, d) ->
  indexed inp /\ in_request inp = request /\ in_cfg inp = cfg /\ validate_request request fact_set = Ok tt /\ read_facts fact_set = Ok (in_facts inp) /\
  declared inp (fr_root request) = [d].
Proof.
  unfold flow_input. intros H. do 4 ok_step H. destruct a2 as [|x [|y l]]; try discriminate H. injection H as <- <-.
  apply ok_or_some in Hok2. apply group_some in Hok2 as [Hd _].
  split_and!; try done; [|by destruct a].
  split; try done. unfold validate_request in Hok. apply result_bind_ok in Hok as ([] & Hb & _).
  destruct (validate_budgets_ok _ Hb) as (_ & Hn & _). cbn. rewrite Hn. done.
Qed.

Lemma initial_ok inp d n : indexed inp -> declared inp (fr_root (in_request inp)) = [d] -> callable_node d 0 (in_members inp) = Ok n ->
  flow_ok inp 0 (initial_flow (in_request inp) n).
Proof.
  intros Hix Hd Hn. destruct (callable_node_ok _ _ _ _ _ _ Hn Hd) as (Hk & Hm & Hs & Hdep & Hkey & Hsup).
  assert (forall id m, bmap_get id (f_nodes (initial_flow (in_request inp) n)) = Some m -> id = fn_node_id n /\ m = n) as Hget.
  { intros id m. cbn [f_nodes initial_flow]. destruct (decide (id = fn_node_id n)) as [->|Hne]; [rewrite bmap_get_insert_eq; naive_solver|].
    by rewrite bmap_get_insert_ne. }
  assert (forall x, x ∈ f_visited (initial_flow (in_request inp) n) <-> x = (fr_member_alias (in_request inp), fr_root (in_request inp))) as Hv.
  { intros x. cbn [f_visited initial_flow]. rewrite bset_insert_elem. set_solver. }
  split; try done.
  - apply bmap_insert_wf. constructor.
  - constructor.
  - constructor.
  - apply bset_insert_wf. constructor.
  - intros id m [-> ->]%Hget. split_and!; [done|lia|]. unfold node_ok. rewrite Hk, Hs, Hdep. split_and!; [done|done|constructor|by exists d].
  - intros x Hx. cbn in Hx. apply list_elem_of_singleton in Hx as ->. exists (fr_root (in_request inp)). cbn. split_and!; [done|by apply Hv|constructor|lia|lia|].
    intros _ id m [-> ->]%Hget. done.
  - repeat constructor.
  - intros x ->%Hv. exists (fr_root (in_request inp)), (fn_node_id n). split_and!; [done|done|]. exists n. apply bmap_get_insert_eq.
  - intros _ id m [-> ->]%Hget _. apply Hv. by rewrite Hs.
  - intros id m [-> ->]%Hget. congruence.
  - split_and!; [exact (ix_nodes _ Hix)|apply N.le_0_l..].
Qed.

(** What is known of the state from which the documents are made. *)
Record result (inp : FlowInput) (fact_set : PreparedCallableFactSet) (st : Flow) (regions : list FlowControlRegion) (rid : string)
    (cur : N) (finished : list (string * N)) : Prop := mkResult {
  re_ok : flow_ok inp cur st;
  re_root : reached inp st (fr_root (in_request inp));
  re_start : exists id n, node_key inp (fr_root (in_request inp)) id /\ bmap_get id (f_nodes st) = Some n /\ fn_depth n = 0;
  re_covered : forall t, reached inp st t <-> exists k, (t, k) ∈ finished;
  re_done : Forall (done_ok inp st) finished;
  re_anchors : forall e, e ∈ missing_source_support st -> noted inp (has_boundary st) "MISSING_SOURCE_ANCHOR" e.1 [e.2];
  re_retained : forall u row subject, u ∈ in_facts inp -> retained inp st u row subject -> noted inp (has_boundary st) (bf_code row) subject [support u];
  re_regions : match in_cfg inp with
    | None => regions = []
    | Some catalog => (forall r, r ∈ regions -> exists key, key ∈ f_visited st /\ region_of catalog st key r) /\
        forall key, key ∈ f_visited st -> region_accounted inp catalog st regions key
    end
}.

Lemma build_result request fact_set cfg : exists r, build_internal request fact_set cfg = Some r /\
  forall p, r = Ok p -> exists inp d st regions rid cur finished, flow_input request fact_set cfg = Ok (inp, d) /\
    result inp fact_set st regions rid cur finished /\ prepare_slice inp (assemble inp fact_set rid st regions) = Ok p.
Proof.
  unfold build_internal. destruct (flow_input request fact_set cfg) as [[inp d]|e] eqn:Hinp; [|eexists; split; [done|]; by intros].
  destruct (flow_input_ok _ _ _ _ _ Hinp) as (Hix & Hreq & _ & _ & _ & Hd).
  destruct (callable_node d 0 (in_members inp)) as [n|e] eqn:Hn; [|eexists; split; [done|]; by intros].
  rewrite <- Hreq in Hd |- *. pose proof (initial_ok _ _ _ Hix Hd Hn) as Hok. set (root := fr_root (in_request inp)) in *.
  destruct (traverse_ok inp (flow_fuel inp) Hix 0 (initial_flow (in_request inp) n) [] Hok) as (r & Hr & Hres).
  - intros x Hx. left. exact Hx.
  - constructor.
  - assert ((fr_member_alias (in_request inp), root) ∈ (in_declarations inp).*1) as HU.
    { apply bmap_get_some_key. exists [d]. rewrite (ix_declarations _ Hix). apply group_some. by split. }
    assert (remaining (in_declarations inp).*1 (f_visited (initial_flow (in_request inp) n)) < remaining (in_declarations inp).*1 [])%nat as Hlt.
    { apply (remaining_insert (fun _ => [])); [done|set_solver]. }
    assert (remaining (in_declarations inp).*1 [] <= flow_fuel inp)%nat as Hle.
    { unfold remaining, flow_fuel. etransitivity; [apply List.filter_length_le|]. by rewrite length_fmap. }
    cbn [f_queue initial_flow length]. lia.
  - rewrite Hr. destruct r as [st|e]; [|eexists; split; [done|]; by intros]. eexists. split; [done|]. intros p Hp.
    destruct (Hres st eq_refl) as (cur & finished & Hok' & Hvis & Hnodes & Hcov & Hdone).
    destruct (finish_phases _ _ _ _ _ _ Hok' Hp) as (st' & regions & Hph & Hprep & Hm & Hret & Hreg).
    destruct (phase_fields _ _ _ Hph) as (Hn' & He' & Ht' & Hv').
    exists inp, d, st', regions, (fn_node_id n), cur, finished. split_and!; [done| |done].
    assert (Forall (done_ok inp st') finished) as Hdone'.
    { eapply list.Forall_impl; [exact Hdone|]. intros x. apply done_grows. by apply phase_grows. }
    split; try done.
    + by apply (ph_ok _ _ _ Hph).
    + unfold reached. rewrite Hv'. apply Hvis. by apply list_elem_of_singleton.
    + destruct (callable_node_ok _ _ _ _ _ _ Hn Hd) as (_ & _ & _ & Hdep & Hkey & _). exists (fn_node_id n), n. split_and!; [done| |done].
      rewrite Hn'. apply Hnodes. apply bmap_get_insert_eq.
    + intros t. unfold reached. split.
      * rewrite Hv'. intros Ht. destruct (Hcov _ Ht) as ([y k] & Hy & [= ->]). by exists k.
      * intros [k Hk]. rewrite list.Forall_forall in Hdone'. by apply (do_reached _ _ _ (Hdone' _ Hk)).
    + unfold missing_source_support. by rewrite Hn', He'.
    + intros u row subject Hu Hr'. apply Hret; [done|]. unfold retained in *. by rewrite <- Hv'.
    + destruct (in_cfg inp); [|done]. unfold region_of in *. rewrite Hv'. destruct Hreg as [Hs Hc]. rewrite Hn'. by split.
Qed.

(** Identities of the slice are identities of the state. *)
Record spells (inp : FlowInput) (st : Flow) (slice : FlowSlice) : Prop := mkSpells {
  sp_nodes : forall n, n ∈ sl_nodes slice <-> exists id, bmap_get id (f_nodes st) = Some n;
  sp_edges : forall e, e ∈ sl_edges slice <-> exists id, bmap_get id (f_edges st) = Some e;
  sp_node : forall id, slice_node slice id <-> has_node st id;
  sp_edge : forall id, slice_edge slice id <-> has_edge st id;
  sp_boundaries : forall b, b ∈ sl_boundaries slice <-> exists id, bmap_get id (f_boundaries st) = Some b;
  sp_boundary : forall id, slice_boundary slice id <-> has_boundary st id;
  sp_status : sl_status slice = if f_truncated st then FlowTruncated else FlowComplete;
  sp_sizes : vlen (sl_nodes slice) = vlen (f_nodes st) /\ vlen (sl_edges slice) = vlen (f_edges st) /\
    vlen (sl_boundaries slice) = vlen (f_boundaries st)
}.

Lemma assemble_spells inp fact_set rid cur st regions : flow_ok inp cur st -> spells inp st (assemble inp fact_set rid st regions).
Proof.
  intros Hok. split; intros; cbn [assemble with_flow_id sl_nodes sl_edges sl_boundaries].
  - apply sorted_values_elem, Hok.
  - apply sorted_values_elem, Hok.
  - apply sorted_values_keys; [apply Hok|]. intros i a Ha. by destruct (fo_node _ _ _ Hok i a Ha).
  - apply sorted_values_keys; [apply Hok|]. intros i a Ha. by destruct (fo_edge _ _ _ Hok i a Ha).
  - apply sorted_values_elem, Hok.
  - apply sorted_values_keys; [apply Hok|]. intros i a Ha. by destruct (fo_boundary _ _ _ Hok i a Ha).
  - done.
  - by rewrite !sorted_values_len.
Qed.

Lemma prepare_slice_ok inp slice p : prepare_slice inp slice = Ok p -> pf_slice p = slice /\
  pf_slice_bytes p = value_bytes (flow_slice_value slice) /\ vlen (pf_slice_bytes p) <= max_slice_bytes (fr_budgets (in_request inp)) /\
  for_bytes FLOW_SLICE_SCHEMA (pf_slice_bytes p) = Ok (pf_slice_ref p) /\ sp_flow_id (pf_projection p) = sl_flow_id slice.
Proof. unfold prepare_slice. intros H. ok_inv H. cbn. apply N.ltb_ge in Hif. by split_and!. Qed.

(** C14: building a slice always ends, and the slice is within its budgets.  The
    traversal needs at most one round per declared symbol; a successful build has at
    most 4096 nodes, 8192 edges and 4096 boundaries, a document of at most 64 MiB,
    no node deeper than the requested depth, and counts that are the lengths of its
    lists. *)
Theorem flow_build_bounded request fact_set cfg : exists r, build_internal request fact_set cfg = Some r /\
  forall p, r = Ok p -> let slice := pf_slice p in
    vlen (sl_nodes slice) <= 4096 /\ vlen (sl_edges slice) <= 8192 /\ vlen (sl_boundaries slice) <= 4096 /\
    vlen (pf_slice_bytes p) <= 64 * 1024 * 1024 /\
    Forall (fun n => fn_depth n <= max_depth (fr_budgets request)) (sl_nodes slice) /\ max_depth (fr_budgets request) <= 32 /\
    sl_counts slice = {| ct_nodes := vlen (sl_nodes slice); ct_edges := vlen (sl_edges slice); ct_boundaries := vlen (sl_boundaries slice);
                         ct_control_flow_regions := vlen (sl_control_flow_regions slice) |}.
Proof.
  destruct (build_result request fact_set cfg) as (r & Hr & Hres). exists r. split; [done|]. intros p Hp slice.
  destruct (Hres p Hp) as (inp & d & st & regions & rid & cur & fin & Hinp & [Hok _ _ _ _ _ _ _] & Hprep).
  destruct (flow_input_ok _ _ _ _ _ Hinp) as (_ & Hreq & _ & Hval & _ & _).
  unfold validate_request in Hval. apply result_bind_ok in Hval as ([] & Hb & _). destruct (validate_budgets_ok _ Hb) as (Hd & Hn & He & Hbd & Hs).
  destruct (prepare_slice_ok _ _ _ Hprep) as (Hsl & _ & Hlen & _). subst slice. rewrite Hsl, <- Hreq in *.
  destruct (assemble_spells inp fact_set rid cur st regions Hok) as [Hin _ _ _ _ _ _ (Hl1 & Hl2 & Hl3)]. rewrite Hl1, Hl2, Hl3.
  destruct (fo_bounds _ _ _ Hok) as (? & ? & ?). rewrite Hn in *. rewrite He in *. rewrite Hbd in *. rewrite Hs in *.
  split_and!; try done; [|by destruct Hd|by cbn; rewrite !sorted_values_len].
  rewrite list.Forall_forall. intros n [id Hid]%Hin. destruct (fo_node _ _ _ Hok _ _ Hid) as (_ & ? & _). lia.
Qed.

(** A record whose support has no source position has a boundary for it. *)
Definition anchored (inp : FlowInput) (slice : FlowSlice) (subject : string) (supports : list FlowSupportRef) : Prop :=
  forall su, su ∈ supports -> su_source su = None -> noted inp (slice_boundary slice) "MISSING_SOURCE_ANCHOR" subject [su].

(** What the slice shows, with the symbols that were expanded. *)
Definition slice_view (inp : FlowInput) (slice : FlowSlice) (expanded : list string) : View :=
  {| v_edge := slice_edge slice; v_boundary := slice_boundary slice; v_expanded := fun symbol => symbol ∈ expanded;
     v_support := fun subject su =>
       (exists n, n ∈ sl_nodes slice /\ fn_symbol_identity n = subject /\ su ∈ fn_support_refs n) \/
       (exists e, e ∈ sl_edges slice /\ fe_source_node_id e = subject /\ su ∈ fe_support_refs e);
     v_truncated := sl_status slice = FlowTruncated;
     v_nodes_spent := max_nodes (fr_budgets (in_request inp)) <= vlen (sl_nodes slice);
     v_edges_spent := max_edges (fr_budgets (in_request inp)) <= vlen (sl_edges slice) |}.

(** The region of a symbol: the graph of the catalog under the node of the symbol. *)
Definition region_ok (inp : FlowInput) (symbol : string) (r : FlowControlRegion) : Prop :=
  exists catalog graph, in_cfg inp = Some catalog /\ LocalCfg.catalog_get catalog (fr_member_alias (in_request inp)) symbol = Some graph /\
    node_key inp symbol (rg_owner_node_id r) /\ rg_graph r = LocalCfg.payload graph /\ rg_support r = LocalCfg.support graph /\
    stable_id "flow-cfg-region" (region_identity (rg_owner_node_id r) graph) = Ok (rg_region_id r).

(** What happens around an expanded symbol. *)
Record expands (inp : FlowInput) (slice : FlowSlice) (expanded : list string) (symbol : string) : Prop := mkExpands {
  ex_path : exists k, path_to inp k symbol;
  ex_node : exists n, n ∈ sl_nodes slice /\ fn_node_kind n = NCallable /\ fn_symbol_identity n = symbol;
  ex_uses : accounted inp (slice_view inp slice expanded) (fun t => t ∈ expanded) symbol;
  ex_retained : forall u row, u ∈ in_facts inp -> ix_fact u = Boundary row -> bf_subject row = Some symbol ->
    pv_member_alias (bf_provenance row) = fr_member_alias (in_request inp) -> noted inp (slice_boundary slice) (bf_code row) symbol [support u];
  ex_region : is_Some (in_cfg inp) ->
    (exists r, r ∈ sl_control_flow_regions slice /\ region_ok inp symbol r) \/
    noted inp (slice_boundary slice) "VERIFY_CONTROL_FLOW_ORDER" symbol []
}.

Record accounts (inp : FlowInput) (slice : FlowSlice) (expanded : list string) : Prop := mkAccounts {
  ac_root : fr_root (in_request inp) ∈ expanded;
  ac_expanded : forall symbol, symbol ∈ expanded -> expands inp slice expanded symbol;
  ac_nodes : forall n, n ∈ sl_nodes slice -> node_ok inp n /\ anchored inp slice (fn_symbol_identity n) (fn_support_refs n) /\
    (fn_node_kind n = NCallable -> sl_status slice = FlowComplete -> fn_symbol_identity n ∈ expanded);
  ac_edges : forall e, e ∈ sl_edges slice -> edge_ok inp (slice_node slice) (slice_boundary slice) e /\
    anchored inp slice (fe_source_node_id e) (fe_support_refs e);
  ac_boundaries : forall b, b ∈ sl_boundaries slice -> boundary_ok inp (slice_view inp slice expanded) b /\
    forall check, check ∈ bd_required_checks b -> check ∈ sl_verification_obligations slice;
  ac_regions : forall r, r ∈ sl_control_flow_regions slice -> exists symbol, symbol ∈ expanded /\ region_ok inp symbol r
}.

Lemma spells_view inp st slice expanded : spells inp st slice -> (forall t, reached inp st t -> t ∈ expanded) ->
  view_le (view_of inp st) (slice_view inp slice expanded).
Proof.
  intros [Hn He _ Hedge _ Hb Hst (Hl1 & Hl2 & _)] Hexp. split; cbn.
  - intros id. apply Hedge.
  - intros id. apply Hb.
  - done.
  - intros subject su [(id & n & ? & ?)|(id & e & ? & ?)]; [left; exists n|right; exists e]; (split; [|done]); [apply Hn|apply He]; by exists id.
  - rewrite Hst. by intros ->.
  - by rewrite Hl1.
  - by rewrite Hl2.
Qed.

Lemma root_member_selected request fact_set cfg inp d : flow_input request fact_set cfg = Ok (inp, d) -> fr_member_alias request ∈ in_selected inp.
Proof.
  unfold flow_input. intros H. do 4 ok_step H. destruct a2 as [|x [|y l]]; try discriminate H. injection H as <- _. destruct a. cbn [in_selected index_facts].
  unfold validate_request in Hok. apply result_bind_ok in Hok as ([] & _ & Hok). apply result_bind_ok in Hok as ([] & _ & Hok).
  ok_inv Hok. apply ok_or_some in Hok0, Hok3. assert (a = a0) as -> by congruence.
  apply bset_of_list_elem. destruct (str_neqb _ (pb_provider_member a0)) eqn:E1; [destruct (str_neqb _ (pb_consumer_member a0)) eqn:E2; [done|]|].
  - apply str_neqb_false in E2 as ->. right. by left.
  - apply str_neqb_false in E1 as ->. by left.
Qed.

Lemma result_anchored inp fact_set st regions rid cur finished slice : result inp fact_set st regions rid cur finished -> spells inp st slice ->
  (forall n, n ∈ sl_nodes slice -> anchored inp slice (fn_symbol_identity n) (fn_support_refs n)) /\
  (forall e, e ∈ sl_edges slice -> anchored inp slice (fe_source_node_id e) (fe_support_refs e)).
Proof.
  intros [Hok _ _ _ _ Hanch _ _] [Hn He _ _ _ Hb _ _].
  assert (forall e, e ∈ missing_source_support st -> noted inp (slice_boundary slice) "MISSING_SOURCE_ANCHOR" e.1 [e.2]) as Hm.
  { intros e Hin. eapply noted_mono; [|by apply Hanch]. intros id. apply Hb. }
  assert (forall subject supports su, su ∈ supports -> su_source su = None -> (subject, su) ∈ (pair subject <$> unanchored supports : list (string * FlowSupportRef))) as Hun.
  { intros subject supports su Hin Hsu. apply list_elem_of_fmap_2. unfold unanchored. apply list_elem_of_In, filter_In. rewrite Hsu. split; [by apply list_elem_of_In|done]. }
  split; intros x Hx su Hin Hsu; apply (Hm (_, su)); unfold missing_source_support; apply elem_of_app.
  - left. apply list_elem_of_In, in_flat_map. exists x. split; [|by apply list_elem_of_In, Hun].
    apply Hn in Hx as [id Hid]. apply list_elem_of_In. unfold bmap_values. apply list_elem_of_fmap. exists (id, x). split; [done|]. apply bmap_get_elem; [apply Hok|done].
  - right. apply list_elem_of_In, in_flat_map. exists x. split; [|by apply list_elem_of_In, Hun].
    apply He in Hx as [id Hid]. apply list_elem_of_In. unfold bmap_values. apply list_elem_of_fmap. exists (id, x). split; [done|]. apply bmap_get_elem; [apply Hok|done].
Qed.

Lemma region_key inp cur st key id : flow_ok inp cur st -> key.1 = fr_member_alias (in_request inp) ->
  node_for_symbol (f_nodes st) key.1 key.2 = Some id -> node_key inp key.2 id.
Proof.
  intros Hok Hm H. rewrite Hm in H. apply node_for_symbol_ok in H as (n & Hn & Hk & <-); [|apply Hok|intros; by eapply (fo_node _ _ _ Hok)].
  destruct (fo_node _ _ _ Hok _ _ Hn) as (<- & _ & Hnode). by destruct (node_ok_callable _ _ Hnode Hk) as (_ & ? & _).
Qed.

Lemma has_symbol_node inp st cur id n symbol : flow_ok inp cur st -> bmap_get id (f_nodes st) = Some n -> fn_node_kind n = NCallable ->
  fn_symbol_identity n = symbol -> is_Some (node_for_symbol (f_nodes st) (fr_member_alias (in_request inp)) symbol).
Proof.
  intros Hok Hn Hk Hs. unfold node_for_symbol. destruct (List.find _ _) as [x|] eqn:Hf; [by eexists|]. exfalso.
  destruct (fo_node _ _ _ Hok _ _ Hn) as (_ & _ & Hnode). destruct (node_ok_callable _ _ Hnode Hk) as (Hm & _).
  assert (n ∈ bmap_values (f_nodes st)) as Hin.
  { unfold bmap_values. apply list_elem_of_fmap. exists (id, n). split; [done|]. apply bmap_get_elem; [apply Hok|done]. }
  apply list_elem_of_In in Hin. pose proof (find_none _ _ Hf _ Hin) as Hx. cbn in Hx. rewrite Hm, Hs, Hk in Hx.
  unfold str_eqb in Hx. rewrite !String.eqb_refl, bool_decide_eq_true_2 in Hx by done. discriminate Hx.
Qed.

Lemma region_of_ok inp cur st catalog t r : flow_ok inp cur st -> in_cfg inp = Some catalog ->
  region_of catalog st (fr_member_alias (in_request inp), t) r -> region_ok inp t r.
Proof.
  intros Hok Hc (Ho & graph & Hg & ? & ? & ?). exists catalog, graph. split_and!; try done. by eapply (region_key inp cur st (_, t)).
Qed.
Lemma slice_region inp fact_set rid st regions r : r ∈ sl_control_flow_regions (assemble inp fact_set rid st regions) <-> r ∈ regions.
Proof. apply (elem_of_Permutation_proper r _ _ (sort_by_perm _ _)). Qed.

Lemma result_expands inp fact_set st regions rid cur finished symbol k : fr_member_alias (in_request inp) ∈ in_selected inp ->
  result inp fact_set st regions rid cur finished -> (symbol, k) ∈ finished ->
  expands inp (assemble inp fact_set rid st regions) finished.*1 symbol.
Proof.
  intros Hsel [Hok Hroot _ Hcov Hdone _ Hret Hreg] Hin. pose proof (assemble_spells inp fact_set rid cur st regions Hok) as Hsp.
  set (slice := assemble inp fact_set rid st regions) in *.
  assert (forall t, reached inp st t -> t ∈ finished.*1) as Hexp by (intros t [k' Hk']%Hcov; by apply (list_elem_of_fmap_2 fst) in Hk').
  pose proof (spells_view inp st slice _ Hsp Hexp) as Hv. rewrite list.Forall_forall in Hdone.
  destruct (Hdone _ Hin) as [Hr Hp (id & n & Hkey & Hn & Hk & Hs & _) Hac]. cbn in *. split.
  - by exists k.
  - exists n. split_and!; [|done|done]. apply (sp_nodes _ _ _ Hsp). by exists id.
  - eapply accounted_mono; [exact Hv| |exact Hac]. intros t [Ht _]. by apply Hexp.
  - intros u row Hu Hrow Hsub Hm. eapply noted_mono; [apply (le_boundary _ _ Hv)|]. eapply Hret; [done|]. unfold retained. by rewrite Hm.
  - intros [catalog Hc]. rewrite Hc in Hreg. destruct Hreg as [_ Hreg]. destruct (Hreg _ Hr) as [(r & Hr' & Hof)|Hno].
    + by apply (has_symbol_node inp st cur id n symbol).
    + left. exists r. split; [by apply slice_region|]. by eapply region_of_ok.
    + right. by eapply noted_mono; [apply (le_boundary _ _ Hv)|].
Qed.

Lemma result_accounts request fact_set cfg inp d st regions rid cur finished : flow_input request fact_set cfg = Ok (inp, d) ->
  result inp fact_set st regions rid cur finished -> accounts inp (assemble inp fact_set rid st regions) finished.*1.
Proof.
  intros Hinp Hre. pose proof Hre as [Hok Hroot _ Hcov Hdone _ Hret Hreg]. pose proof (assemble_spells inp fact_set rid cur st regions Hok) as Hsp.
  destruct (flow_input_ok _ _ _ _ _ Hinp) as (_ & Hreq & _). pose proof (root_member_selected _ _ _ _ _ Hinp) as Hsel. rewrite <- Hreq in Hsel.
  destruct (result_anchored _ _ _ _ _ _ _ _ Hre Hsp) as [Han Hae].
  assert (forall t, reached inp st t -> t ∈ finished.*1) as Hexp by (intros t [k' Hk']%Hcov; by apply (list_elem_of_fmap_2 fst) in Hk').
  pose proof (spells_view inp st _ _ Hsp Hexp) as Hv. split.
  - by apply Hexp.
  - intros x ([symbol k] & -> & Hin)%list_elem_of_fmap. by eapply result_expands.
  - intros n Hn. pose proof (Han n Hn) as Hann. apply (sp_nodes _ _ _ Hsp) in Hn as [id Hid]. destruct (fo_node _ _ _ Hok _ _ Hid) as (_ & _ & ?). split_and!; [done..|].
    intros Hk Hst. apply Hexp. eapply (fo_nodes_visited _ _ _ Hok); [|done|done]. rewrite (sp_status _ _ _ Hsp) in Hst. by destruct (f_truncated st).
  - intros e He. split; [|by apply Hae]. apply (sp_edges _ _ _ Hsp) in He as [id Hid]. destruct (fo_edge _ _ _ Hok _ _ Hid) as [_ Heo].
    eapply edge_ok_mono; [|apply (le_boundary _ _ Hv)|exact Heo]. intros x. apply (sp_node _ _ _ Hsp).
  - intros b Hb. apply (sp_boundaries _ _ _ Hsp) in Hb as [id Hid]. destruct (fo_boundary _ _ _ Hok _ _ Hid) as (_ & Hob & Hbo).
    split; [by eapply boundary_ok_mono|]. exact Hob.
  - intros r Hr%slice_region. destruct (in_cfg inp) as [catalog|] eqn:Hc; [|rewrite Hreg in Hr; set_solver]. destruct Hreg as [Hreg _].
    destruct (Hreg r Hr) as ([m t] & Hkey & Hof). destruct (visited_member _ _ _ _ _ Hok Hkey) as [-> Ht]. exists t. split; [by apply Hexp|].
    by eapply region_of_ok.
Qed.

(** C13: a flow slice drops nothing silently, and everything in it is justified by the
    facts.  There is a set of expanded symbols, with the root in it and each with a node
    and at the end of a path of calls, such that for each of them either a boundary
    says why its uses are not looked at (no compiler identity, a shared one, or the
    requested depth), or every use of it is an edge to another expanded symbol, an edge
    to the hand-off node of the declared provider together with its boundary, or has a
    boundary with the code of the reason why it is not followed, and that reason holds.
    Retained boundaries of these symbols are in the slice, and so are their
    control-flow graphs unless a boundary says that there is none.  Conversely, every
    callable node is declared once and at the end of a path of calls as long as its
    depth (and is expanded, in a slice that is not truncated), every other node is the
    hand-off node of such a use; every edge is a call between nodes of the slice, with
    its control-flow order or a boundary, or a declared hand-off with its boundary; every
    boundary record has the code, subject, checks and supports of one of these reasons;
    every control-flow region is the graph of an expanded symbol under its node; records
    without a source position have a boundary; and the obligations list the checks of
    all boundaries. *)
Theorem flow_slice_accounts request fact_set cfg p : build_internal request fact_set cfg = Some (Ok p) ->
  exists inp d expanded, flow_input request fact_set cfg = Ok (inp, d) /\ accounts inp (pf_slice p) expanded.
Proof.
  intros H. destruct (build_result request fact_set cfg) as (r & Hr & Hres). rewrite H in Hr. injection Hr as <-.
  destruct (Hres p eq_refl) as (inp & d & st & regions & rid & cur & fin & Hinp & Hre & Hprep). exists inp, d, fin.*1. split; [done|].
  destruct (prepare_slice_ok _ _ _ Hprep) as (-> & _). by eapply result_accounts.
Qed.

(** What a verified slice holds: the callables at the end of a path of calls, each
    at the length of its shortest path, and the calls between them. *)
Record exact (inp : FlowInput) (slice : FlowSlice) : Prop := mkExact {
  xa_node : forall n, n ∈ sl_nodes slice -> fn_node_kind n = NCallable /\ path_to inp (fn_depth n) (fn_symbol_identity n) /\
    (forall k, path_to inp k (fn_symbol_identity n) -> fn_depth n <= k) /\ forall su, su ∈ fn_support_refs n -> is_Some (su_source su);
  xa_reached : forall k symbol, path_to inp k symbol -> exists n, n ∈ sl_nodes slice /\ fn_symbol_identity n = symbol;
  xa_unique : forall n n', n ∈ sl_nodes slice -> n' ∈ sl_nodes slice -> fn_symbol_identity n = fn_symbol_identity n' -> n = n';
  xa_uses : forall k symbol, path_to inp k symbol -> exists callable_id, caller inp symbol callable_id /\
    forall u, u ∈ uses_of inp callable_id -> exists t, call inp symbol u t /\ linked inp (slice_edge slice) symbol u t;
  xa_edge : forall e, e ∈ sl_edges slice -> exists k s u t, path_to inp k s /\ call inp s u t /\
    node_key inp s (fe_source_node_id e) /\ node_key inp t (fe_target_node_id e) /\ fe_support_refs e = [support u] /\ is_Some (su_source (support u))
}.

Lemma caller_fun inp s c c' : caller inp s c -> caller inp s c' -> c = c'.
Proof. intros (d & row & Hd & Hr & Hc & _) (d' & row' & Hd' & Hr' & Hc' & _). congruence. Qed.
Lemma call_fun inp s u t t' : call inp s u t -> call inp s u t' -> t = t'.
Proof. intros (_ & (row & Hr & _ & Ht) & _) (_ & (row' & Hr' & _ & Ht') & _). congruence. Qed.

Section Exact.
Context (inp : FlowInput) (st : Flow) (cur : N) (finished : list (string * N)).
Hypothesis Hok : flow_ok inp cur st.
Hypothesis Hcov : forall t, reached inp st t <-> exists k, (t, k) ∈ finished.
Hypothesis Hdone : Forall (done_ok inp st) finished.
Hypothesis Hstart : exists id n, node_key inp (fr_root (in_request inp)) id /\ bmap_get id (f_nodes st) = Some n /\ fn_depth n = 0.
Hypothesis Hroot : reached inp st (fr_root (in_request inp)).
Hypothesis Hwhole : f_truncated st = false.
Hypothesis Hnone : forall id, ~ has_boundary st id.

Lemma not_noted code subject sup : ~ noted inp (has_boundary st) code subject sup.
Proof. intros (id & _ & Hb). by apply (Hnone id). Qed.

(** A reached symbol: its node, and what becomes of its uses. *)
Lemma reached_symbol t : reached inp st t -> exists id n callable_id, node_key inp t id /\ bmap_get id (f_nodes st) = Some n /\
  fn_node_kind n = NCallable /\ fn_symbol_identity n = t /\ caller inp t callable_id /\
  forall u, u ∈ uses_of inp callable_id -> exists t', call inp t u t' /\ linked inp (has_edge st) t u t' /\ near inp st (fn_depth n) t'.
Proof.
  intros [k Hk]%Hcov. rewrite list.Forall_forall in Hdone. destruct (Hdone _ Hk) as [_ _ (id & n & Hkey & Hn & Hkind & Hs & Hdep) Hac]. cbn in *.
  rewrite <- (Hdep Hwhole) in Hac. destruct Hac as [code subject checks supports _ Hb|c Hc Hu]; [by apply not_noted in Hb|].
  exists id, n, c. split_and!; try done. intros u Hin. destruct (Hu u Hin) as [t' ? ? ?|row provider _ _ _ Hb|row code subject check _ _ Hb]; [|by apply not_noted in Hb..].
  by exists t'.
Qed.

Lemma node_of_key t id id' n n' : node_key inp t id -> bmap_get id (f_nodes st) = Some n -> node_key inp t id' -> bmap_get id' (f_nodes st) = Some n' -> n = n'.
Proof. intros Hk Hn Hk' Hn'. pose proof (node_key_fun _ _ _ _ Hk Hk') as <-. congruence. Qed.

(** The traversal is a breadth-first search. *)
Lemma shortest k t : path_to inp k t -> reached inp st t /\ exists id n, node_key inp t id /\ bmap_get id (f_nodes st) = Some n /\ fn_depth n <= k.
Proof.
  intros Hp. induction Hp as [|k s u t Hp IH Hc].
  - split; [done|]. destruct Hstart as (id & n & ? & ? & ?). exists id, n. split_and!; [done|done|lia].
  - destruct IH as (Hr & id & n & Hkey & Hn & Hle). destruct (reached_symbol s Hr) as (id' & n' & c & Hkey' & Hn' & _ & _ & Hcal & Hu).
    pose proof (node_of_key _ _ _ _ _ Hkey Hn Hkey' Hn') as <-. pose proof Hc as ((c' & Hcal' & Hin) & _ & _).
    pose proof (caller_fun _ _ _ _ Hcal Hcal') as <-. destruct (Hu u Hin) as (t' & Hc' & _ & [Hr' (idt & nt & ? & ? & ?)]).
    pose proof (call_fun _ _ _ _ _ Hc Hc') as <-. split; [done|]. exists idt, nt. split_and!; [done|done|lia].
Qed.

Lemma all_callable id n : bmap_get id (f_nodes st) = Some n -> fn_node_kind n = NCallable.
Proof. intros Hn. destruct (fn_node_kind n) eqn:Hk; [done|]. destruct (fo_handoff _ _ _ Hok _ _ Hn Hk) as [b Hb]. by apply Hnone in Hb. Qed.

Lemma node_keyed id n : bmap_get id (f_nodes st) = Some n -> node_key inp (fn_symbol_identity n) id /\ path_to inp (fn_depth n) (fn_symbol_identity n).
Proof.
  intros Hn. destruct (fo_node _ _ _ Hok _ _ Hn) as (<- & _ & Hnode). by destruct (node_ok_callable _ _ Hnode (all_callable _ _ Hn)) as (_ & ? & ? & _).
Qed.

Lemma state_exact slice : spells inp st slice ->
  (forall n, n ∈ sl_nodes slice -> anchored inp slice (fn_symbol_identity n) (fn_support_refs n)) ->
  (forall e, e ∈ sl_edges slice -> anchored inp slice (fe_source_node_id e) (fe_support_refs e)) -> exact inp slice.
Proof.
  intros [Hn He _ Hedge _ Hb _ _] Han Hae.
  assert (forall subject supports su, anchored inp slice subject supports -> su ∈ supports -> is_Some (su_source su)) as Hsrc.
  { intros subject supports su Ha Hin. destruct (su_source su) eqn:Hs; [done|]. destruct (Ha su Hin Hs) as (id & _ & Hbd%Hb). by apply Hnone in Hbd. }
  split.
  - intros n Hin. pose proof Hin as [id Hid]%Hn. destruct (node_keyed _ _ Hid) as [Hkey Hp]. split_and!; [by eapply all_callable|done| |].
    + intros k Hk. destruct (shortest _ _ Hk) as (_ & id' & n' & Hkey' & Hid' & Hle). by rewrite (node_of_key _ _ _ _ _ Hkey Hid Hkey' Hid').
    + intros su Hsu. by eapply Hsrc; [apply Han|].
  - intros k symbol [Hr _]%shortest. destruct (reached_symbol _ Hr) as (id & n & c & _ & Hid & _ & Hs & _). exists n. split; [|done]. apply Hn. by exists id.
  - intros n n' [id Hid]%Hn [id' Hid']%Hn Hs. destruct (node_keyed _ _ Hid) as [Hkey _], (node_keyed _ _ Hid') as [Hkey' _]. rewrite <- Hs in Hkey'.
    by apply (node_of_key _ _ _ _ _ Hkey Hid Hkey' Hid').
  - intros k symbol [Hr _]%shortest. destruct (reached_symbol _ Hr) as (id & n & c & _ & Hid & _ & Hs & Hc & Hu). exists c. split; [done|].
    intros u Hin. destruct (Hu u Hin) as (t & ? & Hl & _). exists t. split; [done|]. eapply linked_mono; [|done]. intros x. apply Hedge.
  - intros e Hin. pose proof Hin as [id Hid]%He. destruct (fo_edge _ _ _ Hok _ _ Hid) as (_ & s & k & u & row & c & Hp & Hc & Hu & Hrow & Hks & _ & _ & Hsup & _ & _ & Hto).
    destruct Hto as [(t & Hcall & Hkt & _)|(provider & _ & _ & _ & Hbd)]; [|by apply not_noted in Hbd]. exists k, s, u, t. split_and!; try done.
    eapply Hsrc; [by apply Hae|]. rewrite Hsup. by left.
Qed.
End Exact.

(** C12: a verified slice is exact.  When the builder says VERIFIED, the nodes are
    the symbols that a path of calls leads to from the root, one node for each, at the
    length of the shortest such path; every use of such a symbol is a call of a
    declared symbol and has its edge; every edge is such a call; and every record has
    a source position. *)
Theorem verified_slice_exact request fact_set cfg p : build_internal request fact_set cfg = Some (Ok p) ->
  sl_certainty (pf_slice p) = FlowVerified ->
  cc_certainty (fa_completeness (prepared_authority fact_set)) = SetVerified /\ exists inp d, flow_input request fact_set cfg = Ok (inp, d) /\ exact inp (pf_slice p).
Proof.
  intros H. destruct (build_result request fact_set cfg) as (r & Hr & Hres). rewrite H in Hr. injection Hr as <-.
  destruct (Hres p eq_refl) as (inp & d & st & regions & rid & cur & fin & Hinp & Hre & Hprep). destruct (prepare_slice_ok _ _ _ Hprep) as (-> & _).
  pose proof (assemble_spells inp fact_set rid cur st regions (re_ok _ _ _ _ _ _ _ Hre)) as Hsp.
  destruct (result_anchored _ _ _ _ _ _ _ _ Hre Hsp) as [Han Hae]. intros Hv.
  assert (f_truncated st = false /\ vlen (f_boundaries st) = 0 /\ cc_certainty (fa_completeness (prepared_authority fact_set)) = SetVerified) as (Ht & Hb & Hf).
  { cbn in Hv. rewrite sorted_values_len in Hv. destruct (f_truncated st); [done|]. destruct (vlen (f_boundaries st) =? 0) eqn:Hz; [|done].
    apply N.eqb_eq in Hz. case_bool_decide; [done|]. by destruct (cc_certainty (fa_completeness (prepared_authority fact_set))). }
  split; [done|]. exists inp, d. split; [done|]. destruct Hre as [Hok Hroot Hstart Hcov Hdone _ _ _].
  apply (state_exact inp st cur fin Hok Hcov Hdone Hstart Hroot Ht); [|done..].
  intros id [b Hb']. destruct (f_boundaries st); [done|]. unfold vlen in Hb. cbn in Hb. lia.
Qed.

(* --------------------------------------------------------------------- *)
(** ** Verification *)

Lemma same_rebuilt_ok prepared rebuilt message : same_rebuilt prepared rebuilt message = Some (Ok tt) <-> rebuilt = Some (Ok prepared).
Proof.
  unfold same_rebuilt. destruct rebuilt as [[r|e]|]; cbn; [|naive_solver..]. case_bool_decide; cbn; naive_solver.
Qed.

(** The parts that verification looks at before it builds again. *)
Lemma build_consistent request fact_set cfg p : build_internal request fact_set cfg = Some (Ok p) ->
  sl_request (pf_slice p) = request /\ value_bytes (flow_slice_value (pf_slice p)) = pf_slice_bytes p /\
  for_bytes FLOW_SLICE_SCHEMA (pf_slice_bytes p) = Ok (pf_slice_ref p) /\ sp_flow_id (pf_projection p) = sl_flow_id (pf_slice p) /\
  fr_fact_set_authority_digest request = fa_authority_digest (prepared_authority fact_set) /\
  sl_counts (pf_slice p) = {| ct_nodes := vlen (sl_nodes (pf_slice p)); ct_edges := vlen (sl_edges (pf_slice p));
    ct_boundaries := vlen (sl_boundaries (pf_slice p)); ct_control_flow_regions := vlen (sl_control_flow_regions (pf_slice p)) |}.
Proof.
  intros H. destruct (build_result request fact_set cfg) as (r & Hr & Hres). rewrite H in Hr. injection Hr as <-.
  destruct (Hres p eq_refl) as (inp & d & st & regions & rid & cur & fin & Hinp & _ & Hprep).
  destruct (flow_input_ok _ _ _ _ _ Hinp) as (_ & Hreq & _ & Hval & _ & _). destruct (prepare_slice_ok _ _ _ Hprep) as (-> & Hb & _ & Href & Hid).
  split_and!; [done|done|done|done| |done].
  unfold validate_request in Hval. apply result_bind_ok in Hval as ([] & _ & Hval). apply result_bind_ok in Hval as ([] & _ & Hval).
  destruct (_ || _) eqn:Hif in Hval; [discriminate Hval|]. do 3 apply orb_false_iff in Hif as [Hif ?]. by apply str_neqb_false.
Qed.

(** Verification accepts exactly the slices that the builder makes.  A prepared
    slice passes against a fact set (and a control-flow catalog) when and only when
    building its own request from the same facts gives that very slice, bytes,
    reference and projection included; so whatever was built verifies, and a slice
    that was changed in any field does not. *)
Theorem verification_accepts_what_is_built prepared fact_set :
  (verify_prepared prepared fact_set = Some (Ok tt) <-> exists request, build request fact_set = Some (Ok prepared)) /\
  (forall catalog, verify_prepared_with_cfg prepared fact_set catalog = Some (Ok tt) <->
    exists request, build_with_cfg request fact_set catalog = Some (Ok prepared)).
Proof.
  split; [|intros catalog]; (split; [|intros [request H]; destruct (build_consistent _ _ _ _ H) as (Hr & Hv & Href & Hid & Hd & Hc)]).
  - unfold verify_prepared. destruct (negb _); [done|]. destruct (for_bytes _ _); [|done]. destruct (_ || _); [done|].
    intros H%same_rebuilt_ok. by eexists.
  - unfold verify_prepared. rewrite Hv, Href, Hid, Hr, Hd, Hc, !bool_decide_eq_true_2 by done. cbn [ct_nodes ct_edges ct_boundaries ct_control_flow_regions].
    unfold str_neqb, str_eqb. rewrite !String.eqb_refl, !N.eqb_refl. by apply same_rebuilt_ok.
  - unfold verify_prepared_with_cfg. destruct (negb _); [done|]. destruct (for_bytes _ _); [|done]. destruct (negb _); [done|].
    intros H%same_rebuilt_ok. by eexists.
  - unfold verify_prepared_with_cfg. rewrite Hv, Href, Hr, !bool_decide_eq_true_2 by done. by apply same_rebuilt_ok.
Qed.
End Build.

(* --------------------------------------------------------------------- *)
(** ** An example: [f] calls [g], and [g] calls nothing *)

Module FlowExample.
#[local] Existing Instance toy.
#[local] Existing Instance toy_reader.

Definition object (schema text : string) : CasObject :=
  {| schema := CAS_OBJECT_SCHEMA; object_schema := schema; digest := object_digest schema (as_bytes text); size := vlen (as_bytes text) |}.
Definition source (path : string) : SourceAnchor :=
  {| sa_path := path; sa_start := Some 0; sa_end := Some 9; sa_content_ref := object "codeclew-source/1.0" path |}.
Definition from_file (path : string) : CallableFactProvenance :=
  {| pv_member_alias := "m"; pv_repository_namespace := "repo"; pv_session_id := "s"; pv_session_authority_digest := "sd";
     pv_base_revision := "r1"; pv_compilation_id := "c"; pv_generation_id := "g"; pv_generation_ref := object "codeclew-generation/1.0" "g";
     pv_input_fact_key := path; pv_input_payload_ref := object "codeclew-facts/1.0" path; pv_source := Some (source path) |}.
Definition declaration (id symbol callable : string) : CallableFact :=
  Declaration {| df_schema := "d"; df_fact_id := id; df_provenance := from_file "F.kt"; df_declaration_kind := DFunction;
    df_symbol_identity := symbol; df_compiler_callable_id := Some callable; df_compiler_class_id := None; df_jvm_descriptor := None;
    df_owner_identity := "a"; df_containment := []; df_projected_shape := JNull; df_shape_digest := None; df_exact_eligible := true;
    df_uncertainty_reasons := [] |}.
Definition f : string := "callable:a/f#jvm:f(I)V".
Definition g : string := "callable:a/g#jvm:g(I)V".
Definition facts : list CallableFact :=
  [declaration "1" f "a/f"; declaration "2" g "a/g";
   Use {| uf_schema := "u"; uf_fact_id := "3"; uf_provenance := from_file "F.kt"; uf_relation_kind := "CALL"; uf_source_owner := "a/f";
     uf_target_callable_id := "a/g"; uf_target_symbol_identity := Some g; uf_target_repository_namespace := Some "repo";
     uf_target_resolution := ExactSymbol; uf_relationship_authority := VerifiedSameSnapshotCompilationDependency;
     uf_relation_evidence := JObject []; uf_exact_eligible := true; uf_uncertainty_reasons := [] |}].
Definition SHARD : string := "codeclew-kotlin-callable-fact-shard/1.0".
Definition shard_bytes : list byte :=
  value_bytes (callable_shard_value {| cfs_schema := SHARD; cfs_sequence := 0; cfs_first_fact_id := "1"; cfs_last_fact_id := "3"; cfs_facts := facts |}).
Definition shard : CasObject :=
  {| schema := CAS_OBJECT_SCHEMA; object_schema := SHARD; digest := object_digest SHARD shard_bytes; size := vlen shard_bytes |}.
Definition member (alias namespace : string) : CallableMemberBinding :=
  {| mb_member_alias := alias; mb_service_alias := alias; mb_session_id := "s"; mb_session_authority_digest := "sd"; mb_repository_key := "k";
     mb_repository_namespace := namespace; mb_base_revision := "r1"; mb_snapshot_ref := object "codeclew-snapshot/1.0" alias; mb_compilations := [] |}.
Definition counts_of_f : CallableFactCounts := mkFactCounts 3 0 2 1 0 3 2 1.
Definition verified : CallableCompleteness := {| cc_coverage := SetComplete; cc_certainty := SetVerified; cc_obligation_count := 0 |}.
Definition budgets : CallableBudgets := mkCallableBudgets 0 0 0 0 0 0 0 0 0 0 0 0 0 0 0 0 0 0 0 0.
Definition index_ref : CasObject := object "codeclew-index/1.0" "i".
Definition evidence_ref : CasObject := object "codeclew-evidence/1.0" "e".
Definition facts_of_f : PreparedCallableFactSet :=
  let pairs := [{| pb_pair_id := "p"; pb_provider_member := "m"; pb_consumer_member := "n"; pb_relationship_authority := Unbound;
                   pb_dependency_evidence_ref := None |}] in
  let members := [member "m" "repo"; member "n" "other"] in
  let shards := [{| fsr_sequence := 0; fsr_first_fact_id := "1"; fsr_last_fact_id := "3"; fsr_object := shard |}] in
  let nothing := {| pco_reference := index_ref; pco_bytes := [] |} in
  {| prepared_authority :=
       {| fa_schema := ""; fa_authority_digest := "fd"; fa_binding_digest := "bd"; fa_thread_id := "t"; fa_thread_authority_digest := "td";
          fa_thread_context_id := "c"; fa_thread_context_authority_digest := "cd"; fa_profile_digest := "pd"; fa_tasks := [];
          fa_pairs := pairs; fa_budgets := budgets; fa_members := members; fa_counts := counts_of_f; fa_completeness := verified;
          fa_fact_shards := shards; fa_query_index_ref := index_ref; fa_evidence_ref := evidence_ref; fa_direct_cas_closure := [] |};
     prepared_evidence :=
       {| ev_schema := ""; ev_binding_digest := "bd"; ev_counts := counts_of_f; ev_completeness := verified; ev_members := members;
          ev_fact_shards := shards; ev_query_index_ref := index_ref; ev_boundary_fact_ids := [] |};
     prepared_projection :=
       {| fp_schema := ""; fp_fact_set_id := "fs"; fp_authority_digest := "fd"; fp_binding_digest := "bd"; fp_thread_id := "t";
          fp_thread_context_id := "c"; fp_tasks := []; fp_pairs := pairs; fp_members := []; fp_counts := counts_of_f;
          fp_completeness := verified; fp_query_index_ref := index_ref; fp_evidence_ref := evidence_ref |};
     prepared_fact_shards := [{| pco_reference := shard; pco_bytes := shard_bytes |}]; prepared_query_shards := [];
     prepared_query_index := mkCallableQueryIndex "" "" "bd" [] [] 0 0 0 0; prepared_query_index_object := nothing;
     prepared_evidence_object := nothing; prepared_authority_bytes := []; prepared_projection_bytes := [] |}.
Definition request (depth : N) : FlowRequest :=
  {| fr_thread_id := "t"; fr_thread_authority_digest := "td"; fr_fact_set_id := "fs"; fr_fact_set_authority_digest := "fd"; fr_pair_id := "p";
     fr_member_alias := "m"; fr_root_kind := FullSymbol; fr_root := f; fr_direction := Downstream;
     fr_budgets := match frozen depth with Ok b => b | Err _ => mkFlowBudgets 0 0 0 0 0 0 end |}.
Definition built : option PreparedFlowSlice := match build (request 4) facts_of_f with Some (Ok p) => Some p | _ => None end.

Example built_nodes : (fun p => (fn_symbol_identity <$> sl_nodes (pf_slice p), vlen (sl_edges (pf_slice p)), sl_certainty (pf_slice p))) <$> built
  = Some ([f; g], 1, FlowVerified).
Proof. vm_compute. reflexivity. Qed.

Lemma outcome (r : option (Res PreparedFlowSlice)) : match r with Some (Ok p) => bool_decide (sl_certainty (pf_slice p) = FlowVerified) | _ => false end = true ->
  exists p, r = Some (Ok p) /\ sl_certainty (pf_slice p) = FlowVerified.
Proof. destruct r as [[p|e]|]; [|done..]. intros H%bool_decide_eq_true_1. by exists p. Qed.
Lemma built_verified : exists p, build_internal (request 4) facts_of_f None = Some (Ok p) /\ sl_certainty (pf_slice p) = FlowVerified.
Proof. apply outcome. vm_compute. reflexivity. Qed.
End FlowExample.

Lemma flow_slice_accounts_witness : exists p inp d expanded,
  flow_input (P := toy) (R := toy_reader) (FlowExample.request 4) FlowExample.facts_of_f None = Ok (inp, d) /\ accounts (P := toy) inp (pf_slice p) expanded.
Proof.
  destruct FlowExample.built_verified as (p & Hp & _). exists p.
  exact (flow_slice_accounts (P := toy) (R := toy_reader) (FlowExample.request 4) FlowExample.facts_of_f None p Hp).
Defined.

Lemma verified_slice_exact_witness : exists p, sl_certainty (pf_slice p) = FlowVerified /\
  exists inp d, flow_input (P := toy) (R := toy_reader) (FlowExample.request 4) FlowExample.facts_of_f None = Ok (inp, d) /\ exact (P := toy) inp (pf_slice p).
Proof.
  destruct FlowExample.built_verified as (p & Hp & Hv). exists p. split; [exact Hv|].
  exact (proj2 (verified_slice_exact (P := toy) (R := toy_reader) (FlowExample.request 4) FlowExample.facts_of_f None p Hp Hv)).
Defined.
